(* ===== verification/_CoqProject ===== *)
-Q . S2P
Prelude.v
Machine.v
Floats.v
Cbor.v
CborProofs.v
Tolerant.v
Limits.v
Items.v
Value.v
ValueProofs.v
Path.v
Hex.v
Frame.v
Entry.v
EntryProofs.v
EntryDecode.v
Manifest.v
OrdMap.v
Order.v
Clock.v
Dag.v
Causal.v
Monitor.v
Slice.v
Segment.v
SegmentProofs.v
Archive.v
Store.v
StoreProofs.v
StoreCrash.v
Snapshot.v
Persistent.v
Replay.v
PersistentProofs.v
PersistentFork.v
KeyMap.v
VirtualTime.v
Net.v
Scheduler.v
SimFs.v
SimFsCache.v
SimFsProofs.v
SimFsSpec.v
SimFsCrash.v
Queue.v
WorkerProofs.v
Flow.v
Backend.v
RtProto.v
RtSession.v
Ddmin.v
Minimize.v
OSet.v
Verdict.v
Hitting.v
Support.v
SolverCache.v
Lineage.v
HsSolver.v
MaxSat.v
HazardProofs.v
SolverState.v
Ldfi.v
Oracle.v
OracleProofs.v
OnlineMonitor.v
Config.v
ConfigProofs.v
Executor.v
ExecutorProofs.v
ExecutorTasks.v
ExecutorRuns.v
Dpor.v
FaultSpec.v
FaultSpecProofs.v
Identity.v
Campaign.v
CampaignProofs.v
CampaignAxes.v
Feedback.v
