(* ===== verification/Prelude.v ===== *)
(** * Verification of ldgr, a deterministic simulation and fault-injection engine

    ldgr records what a simulated distributed program does in a content-addressed causal journal, replays and
    minimizes failing runs, searches for faults that break a run, and persists all of it.  This library translates
    the engine's own algorithms from the Rust sources under [crates/] and proves what they promise.

    ** The program's parts and the files that model them

    - [ledger-format]: canonical bytes.  [Floats] (IEEE conversions), [Cbor] with [CborProofs] (canonical encoder and
      validating decoder, [cbor/encode.rs], [cbor/decode.rs]), [Tolerant] (lenient reader), [Items] (borrowed item
      reader, [cbor/items.rs]), [Limits] (limits and framed hashes), [Value] with [ValueProofs] ([value.rs]), [Path]
      ([path.rs]), [Hex], [Frame] ([frame.rs]), [Entry] with [EntryProofs] and [EntryDecode] ([entry.rs]), [Manifest]
      ([manifest.rs]).
    - [ledger-journal]: the causal log.  [Clock] ([clock.rs]), [Dag] with [Causal] ([dag.rs]: append,
      batches, forks, overlay freezing), [Monitor] ([monitor.rs]: audit and coverage), [Slice] ([slice.rs]), [Segment]
      with [SegmentProofs] (frames, segments and the recovery log, [segment/*.rs]), [Store] with [StoreProofs] and
      [StoreCrash] (the segment store over its life, crashes included), [Archive] ([archive.rs]), [Snapshot]
      ([snapshot.rs], [snapshot_store.rs]), [Persistent] with [Replay], [PersistentProofs] and [PersistentFork] (the
      durable journal, [persistent.rs]), [Identity] ([identity.rs]: execution identities).
    - [ledger-sim]: the simulated world.  [VirtualTime] ([time.rs]), [Net] ([net.rs]), [Scheduler] ([scheduler.rs],
      [choices.rs]), [SimFs] with [SimFsCache], [SimFsProofs], [SimFsSpec] and [SimFsCrash] ([simfs.rs], [crash.rs]),
      [Backend] ([backend_sim.rs]: the effect interface that journals what a session does), [Config] with
      [ConfigProofs] (run configurations and their canonical bytes), [Executor] with [ExecutorProofs], [ExecutorTasks] and
      [ExecutorRuns] ([executor/*.rs], [runtime.rs]: the task executor, its effects and instruction programs), [Dpor]
      ([dpor.rs]: partial-order exploration).
    - [ledger-faultspec]: [FaultSpec] with [FaultSpecProofs] (parser, actor registry, compiler, scenario library, and the
      bridge to engine faults).
    - [ldgr-rt] and [rt-server]: programs run out of process.  [RtProto] (message and frame codec), [RtSession] (client
      shim and serving loop).
    - [ledger-flow]: [Flow] (durable workflows recovered from the journal).
    - [ledger-worker]: [Queue] (leases, retries, cancellation) and the worker loop against it.
    - [ledger-explorer]: finding and shrinking failures.  [Ddmin], [Minimize] (the minimization pipeline),
      [Hitting] (costs and minimal hitting sets), [Support], [SolverCache], [Lineage], [HsSolver], [MaxSat] with [HazardProofs],
      [SolverState] (the solvers: support expressions, lineage of a violation, hitting sets, branch and bound, saved state),
      [Ldfi] (cuts to fault schedules), [Verdict], [Oracle] with [OracleProofs] (exactly-once, histories, linearizability,
      assertions, differential comparison), [OnlineMonitor], and [Campaign] with [CampaignProofs], [CampaignAxes] and [Feedback]
      ([search/*.rs], [memo.rs], [pbt.rs], [diagnosis.rs]: campaigns, replay of findings with and without faults, escalation).

    [Machine], [OrdMap], [Order], [OSet] and [KeyMap] hold what the components share of the language and its standard
    library: machine integers and their byte forms, UTF-8 validity, ordered maps and sets, stable sorting.  A file
    named [XProofs] holds the theorems of the file [X].

    ** How the code is represented

    A Rust [Result] is [result], [?] is [let?]; state is passed explicitly and a [&mut self] method returns the new
    state beside its value; integers are [Z] with the width's wrap-around, saturation or checked operation written
    out, or [nat] where they count elements in memory; bytes are [list byte] and a digest is its bytes; a [HashMap]
    whose iteration order is not observed is a [gmap], one whose order is observed takes the order as an argument, a
    [BTreeMap] or [BTreeSet] is an ascending list.  [Arc]-shared state is immutable, so sharing is visible only in
    [Arc::get_mut], an argument of the operations that call it.

    Code that is not in the repository is a parameter: BLAKE3 (plain, keyed and key derivation; the theorems that need
    it assume digests of 32 bytes and that the ids of the entries at hand are distinct), ChaCha words, zstd
    ([zstd_ok]: decompression inverts compression; [zstd_bound]), the natural logarithm of [f64], the oracle's
    verdicts, clock readings, task execution, and the closures a caller passes.  Each theorem with such a hypothesis
    has a witness that instantiates the parameter.

    ** Fuel and bounds

    Recursion that is not structural takes fuel, and the theorems show the fuel given is enough: the CBOR reader
    recurses to [MAX_DEPTH] levels and the value reader to 33; [slice_fuel] counts the targets and parent links of
    the journal; [ddmin_fuel] bounds the rounds of delta debugging; the walks over frames, records and messages take
    the number of bytes left; firing timers takes the number of timers; the serving loop takes one more than the
    bytes of its input.  The search for a serialization takes one more than
    the number of operations, the run loop the step budget ([simulation_ends]); draws by rejection and the simulations of a
    campaign take a fuel of their own.  Where a definition returns [None] for missing fuel, a theorem excludes it.

    ** What the theorems show

    - Codecs: canonical CBOR, entries, wire messages and frames decode what was encoded, and accepted canonical bytes
      are unique; what decoders accept is within the limits they enforce.
    - Journal: it refines an append-only log, batches are loops of appends, vector clocks are exactly causality, the
      audit is exact, slices are exactly causal pasts.
    - Storage, in the hot tier: a crash that cuts the log anywhere loses at most unsealed entries (a log cut inside its
      16-byte prefix opens at the second attempt), lookups are exact, memory and disk agree as long as batches are accepted
      whole or refused at their first entry, reopened journals have the old hashes and clocks.
    - Simulation: the file system without journaling is the documented one as long as no crash follows a rename, the network delivers as specified and within its
      capacity, timers fire in order, sessions over the wire whose messages fit its caps are transparent, failing effects included; a simulation ends, ends in the outcome its state
      shows, and is reproduced by replaying its decisions; partial-order exploration makes each alternative once.
    - Search: delta debugging ends with a one-minimal failing input, minimization preserves the verdict, the
      enumeration of fault cuts is exact, a fresh solver whose walk is not truncated returns cheapest cuts of every
      derivation, the linearizability checker is exact up to its bound and the online monitors agree with a replay, campaigns
      report exactly what their runs show, findings replay to the same journal and verdict, and feedback never retries a
      voided fault.
    - Work: tasks pushed under distinct ids are in exactly one place, workers settle and drain the queue, a workflow with one
      plan per actor resumes after a crash.
    - Identities: their bytes bind every field and decode exactly; encoding fails closed at the limits.
    - Where the code departs from its documentation a theorem on a concrete run shows it; PROJECT.json lists them as findings.

    ** Not modelled

    I/O errors and the files a failed store call leaves, the decompression cache, temporary files, texts of error
    messages, sockets and peer credentials, the WASI tick sink.  Host back ends (wasmtime, tokio), the
    determinism sentinel (seccomp and preload hooks), the CaDiCaL back end, certificates (Ed25519 and JSON), forensics, the
    monitored campaign and the state shared between campaigns, reference workloads, the runtime facade, trace ingestion, HTTP
    transport, generated bindings, the command line, the source linter and the example guest are not modelled; PROJECT.json lists them with the reasons. *)

From stdpp Require Export prelude list numbers.
From Stdlib Require Export ZArith Lia.

Open Scope Z_scope.

(** ** Results *)

(** Rust's [Result<A, E>]. *)
Inductive result (E A : Type) : Type :=
| Ok (a : A)
| Err (e : E).
Arguments Ok {E A} a.
Arguments Err {E A} e.

Declare Scope result_scope.
Delimit Scope result_scope with result.
Open Scope result_scope.

(** [let? x := e in k] is Rust's [let x = e?; k]. *)
Notation "'let?' x := e 'in' k" :=
  (match e with Ok x => k | Err err => Err err end)
  (at level 10, x name, e at level 200, k at level 200) : result_scope.

Notation "'let?' ' pat := e 'in' k" :=
  (match e with Ok pat => k | Err err => Err err end)
  (at level 10, pat pattern, e at level 200, k at level 200) : result_scope.

(** [Result::map_err]. *)
Definition map_err {E F A} (f : E -> F) (r : result E A) : result F A :=
  match r with Ok a => Ok a | Err e => Err (f e) end.

(** [Result::ok]. *)
Definition result_ok {E A} (r : result E A) : option A :=
  match r with Ok a => Some a | Err _ => None end.

(** [Option::ok_or]. *)
Definition ok_or {E A} (o : option A) (e : E) : result E A :=
  match o with Some a => Ok a | None => Err e end.

Definition is_ok {E A} (r : result E A) : bool :=
  match r with Ok _ => true | Err _ => false end.

#[global] Instance result_eq_dec {E A} `{EqDecision E, EqDecision A} : EqDecision (result E A).
Proof. solve_decision. Defined.

Lemma Ok_inj {E A} (a b : A) : @Ok E A a = Ok b -> a = b.
Proof. congruence. Qed.

Lemma map_err_Ok {E F A} (f : E -> F) (r : result E A) a : map_err f r = Ok a -> r = Ok a.
Proof. destruct r; cbn; congruence. Qed.

(** ** Tactics *)

(** Split the innermost match or conditional of the goal or of a hypothesis. *)
Ltac case_split :=
  match goal with
  | |- context [match ?x with _ => _ end] =>
      lazymatch x with
      | match _ with _ => _ end => fail
      | _ => destruct x eqn:?
      end
  end.

Ltac case_split_in H :=
  match type of H with
  | context [match ?x with _ => _ end] =>
      lazymatch x with
      | match _ with _ => _ end => fail
      | _ => destruct x eqn:?
      end
  end.

(** Run every match of [H], keeping only the branches that are not absurd. *)
Ltac run_match H := repeat (case_split_in H; try discriminate H); simplify_eq.

(** Turn boolean comparisons on [Z] and [nat] in the context into propositions. *)
Ltac bool_hyps :=
  repeat match goal with
  | H : negb _ = true |- _ => apply negb_true_iff in H
  | H : negb _ = false |- _ => apply negb_false_iff in H
  | H : (_ && _)%bool = true |- _ => apply andb_true_iff in H; destruct H
  | H : (_ || _)%bool = false |- _ => apply orb_false_iff in H; destruct H
  | H : (_ =? _)%Z = true |- _ => apply Z.eqb_eq in H
  | H : (_ =? _)%Z = false |- _ => apply Z.eqb_neq in H
  | H : (_ <? _)%Z = true |- _ => apply Z.ltb_lt in H
  | H : (_ <? _)%Z = false |- _ => apply Z.ltb_ge in H
  | H : (_ <=? _)%Z = true |- _ => apply Z.leb_le in H
  | H : (_ <=? _)%Z = false |- _ => apply Z.leb_gt in H
  | H : (_ =? _)%nat = true |- _ => apply Nat.eqb_eq in H
  | H : (_ =? _)%nat = false |- _ => apply Nat.eqb_neq in H
  | H : (_ <? _)%nat = true |- _ => apply Nat.ltb_lt in H
  | H : (_ <? _)%nat = false |- _ => apply Nat.ltb_ge in H
  | H : (_ <=? _)%nat = true |- _ => apply Nat.leb_le in H
  | H : (_ <=? _)%nat = false |- _ => apply Nat.leb_gt in H
  end.

(** Add a fact once. *)
Ltac learn p :=
  let T := type of p in
  lazymatch goal with
  | _ : T |- _ => fail
  | _ => pose proof p
  end.

(** ** Lists *)

Lemma take_app_prefix {A} (l k : list A) : take (length l) (l ++ k) = l.
Proof. rewrite take_app_le, firstn_all by lia. done. Qed.

Lemma drop_app_prefix {A} (l k : list A) : drop (length l) (l ++ k) = k.
Proof. rewrite drop_app_ge, Nat.sub_diag by lia. done. Qed.

(** The number of elements consumed between a list and one of its suffixes is
    recovered by length: the slice [input[start..end]] of the code. *)
Lemma take_app_consumed {A} (l k : list A) :
  take (length (l ++ k) - length k) (l ++ k) = l.
Proof. rewrite length_app. replace (_ - _)%nat with (length l) by lia. apply take_app_prefix. Qed.

Lemma map_id_in {A} (f : A -> A) l : (forall x, In x l -> f x = x) -> map f l = l.
Proof. intros H. rewrite <- (map_id l) at 2. apply map_ext_in. exact H. Qed.

(** A prefix of an append stops inside the first list or covers it. *)
Lemma prefix_app_cases {A} (t l k : list A) : t `prefix_of` l ++ k ->
  (t `prefix_of` l /\ t <> l) \/ exists t', t = l ++ t' /\ t' `prefix_of` k.
Proof.
  revert l. induction t as [|x t IH]; intros l H.
  - destruct l as [|y l]; [right; exists []; split; [done | apply prefix_nil] | left; split; [apply prefix_nil | done]].
  - destruct l as [|y l]; [right; exists (x :: t); done|]. cbn in H.
    pose proof (prefix_cons_inv_1 _ _ _ _ H) as ->. apply prefix_cons_inv_2, IH in H as [[H Hn]|(t' & -> & H)].
    + left. split; [apply prefix_cons; done | congruence].
    + right. exists t'. done.
Qed.
