(* ===== verification/Machine.v ===== *)
(** * Machine integers, bytes and text

    What the sources use of the Rust language and of [core]: unsigned integers
    at their width as [Z], bytes as [byte], the big- and little-endian
    conversions [to_be_bytes]/[from_be_bytes]/[to_le_bytes]/[from_le_bytes], the
    saturating and checked operations, and [core::str::from_utf8]. *)

From Stdlib Require Export Init.Byte Strings.Byte.
From stdpp Require Export strings countable.
From Stdlib Require Import Wf_nat.
From S2P Require Import Prelude.

Open Scope Z_scope.

Create HintDb mach.
Create Rewrite HintDb mach.

(** ** Widths *)

Definition u8_max : Z := 255.
Definition u16_max : Z := 65535.
Definition u32_max : Z := 4294967295.
Definition u64_max : Z := 18446744073709551615.

Definition is_u8 (v : Z) : Prop := 0 <= v <= u8_max.
Definition is_u32 (v : Z) : Prop := 0 <= v <= u32_max.
Definition is_u64 (v : Z) : Prop := 0 <= v <= u64_max.

#[global] Instance is_u8_dec v : Decision (is_u8 v).
Proof. unfold is_u8; apply _. Defined.
#[global] Instance is_u32_dec v : Decision (is_u32 v).
Proof. unfold is_u32; apply _. Defined.
#[global] Instance is_u64_dec v : Decision (is_u64 v).
Proof. unfold is_u64; apply _. Defined.

(** [u64::saturating_add], [u64::saturating_mul] and [usize::saturating_sub]. *)
Definition saturating_add (a b : Z) : Z := Z.min u64_max (a + b).
Definition saturating_mul (a b : Z) : Z := Z.min u64_max (a * b).
Definition saturating_sub (a b : Z) : Z := Z.max 0 (a - b).
Definition checked_add (a b : Z) : option Z :=
  if (a + b <=? u64_max)%Z then Some (a + b) else None.

(** [u32::try_from(u64)]. *)
Definition u32_try_from (v : Z) : option Z := if (v <=? u32_max)%Z then Some v else None.

Ltac widths := unfold is_u8, is_u32, is_u64, u8_max, u16_max, u32_max, u64_max in *.

Lemma u32_try_from_ok v : is_u32 v -> u32_try_from v = Some v.
Proof. unfold u32_try_from; widths; intros; rewrite (proj2 (Z.leb_le _ _)); [done | lia]. Qed.

Lemma u32_try_from_Some v w : 0 <= v -> u32_try_from v = Some w -> w = v /\ is_u32 w.
Proof. unfold u32_try_from; widths; intros; case_split_in H0; simplify_eq; bool_hyps; lia. Qed.

Lemma is_u32_u64 v : is_u32 v -> is_u64 v.
Proof. widths; lia. Qed.
Lemma is_u8_u64 v : is_u8 v -> is_u64 v.
Proof. widths; lia. Qed.
#[export] Hint Resolve is_u32_u64 is_u8_u64 : mach.

(** ** Bytes *)

Definition b2z (b : byte) : Z := Z.of_N (Byte.to_N b).
Definition z2b (z : Z) : byte :=
  match Byte.of_N (Z.to_N (z mod 256)) with Some b => b | None => x00 end.

#[global] Instance byte_eq_dec : EqDecision byte := Byte.byte_eq_dec.
#[global] Program Instance byte_countable : Countable byte :=
  inj_countable Byte.to_N Byte.of_N _.
Next Obligation. intros b. apply Byte.of_to_N. Qed.

Lemma b2z_range b : 0 <= b2z b < 256.
Proof. unfold b2z. pose proof (Byte.to_N_bounded b). lia. Qed.

(** Record the range of every byte in the context. *)
Ltac byte_ranges :=
  repeat match goal with
  | b : byte |- _ =>
      lazymatch goal with
      | _ : 0 <= b2z b < 256 |- _ => fail
      | _ => pose proof (b2z_range b)
      end
  end.

Lemma b2z_z2b z : b2z (z2b z) = z mod 256.
Proof.
  unfold b2z, z2b. pose proof (Z.mod_pos_bound z 256 ltac:(lia)).
  destruct (Byte.of_N _) as [b|] eqn:E.
  - apply Byte.to_of_N in E. rewrite E. lia.
  - apply Byte.of_N_None_iff in E. lia.
Qed.

Lemma z2b_b2z b : z2b (b2z b) = b.
Proof.
  unfold z2b. pose proof (b2z_range b). rewrite Z.mod_small by lia.
  unfold b2z. rewrite N2Z.id, Byte.of_to_N. done.
Qed.

Lemma b2z_inj a b : b2z a = b2z b -> a = b.
Proof. intros H. rewrite <- (z2b_b2z a), <- (z2b_b2z b), H. done. Qed.

Lemma z2b_mod z : z2b (z mod 256) = z2b z.
Proof. unfold z2b. rewrite Z.mod_mod by lia. done. Qed.

Lemma b2z_z2b_small z : 0 <= z < 256 -> b2z (z2b z) = z.
Proof. intros. rewrite b2z_z2b, Z.mod_small; lia. Qed.

(** ** Endianness *)

Fixpoint to_le_bytes (n : nat) (v : Z) : list byte :=
  match n with
  | O => []
  | S n => z2b v :: to_le_bytes n (v / 256)
  end.

Fixpoint from_le_bytes (l : list byte) : Z :=
  match l with
  | [] => 0
  | b :: l => b2z b + 256 * from_le_bytes l
  end.

Definition to_be_bytes (n : nat) (v : Z) : list byte := rev (to_le_bytes n v).
Definition from_be_bytes (l : list byte) : Z := from_le_bytes (rev l).

Lemma length_to_le_bytes n v : length (to_le_bytes n v) = n.
Proof. revert v; induction n; intros; simpl; auto. Qed.

Lemma length_to_be_bytes n v : length (to_be_bytes n v) = n.
Proof. unfold to_be_bytes. rewrite length_rev. apply length_to_le_bytes. Qed.

Lemma from_le_bytes_range l : 0 <= from_le_bytes l < 256 ^ Z.of_nat (length l).
Proof.
  induction l as [|b l IH]; simpl length; [simpl; lia|].
  rewrite Nat2Z.inj_succ, Z.pow_succ_r by lia.
  pose proof (b2z_range b). cbn [from_le_bytes]. lia.
Qed.

Lemma from_be_bytes_range l : 0 <= from_be_bytes l < 256 ^ Z.of_nat (length l).
Proof. unfold from_be_bytes. rewrite <- (length_rev l). apply from_le_bytes_range. Qed.

Lemma from_to_le_bytes n v :
  0 <= v < 256 ^ Z.of_nat n -> from_le_bytes (to_le_bytes n v) = v.
Proof.
  revert v; induction n as [|n IH]; intros v.
  - simpl. lia.
  - rewrite Nat2Z.inj_succ, Z.pow_succ_r by lia. intros H.
    cbn [to_le_bytes from_le_bytes]. rewrite b2z_z2b, IH.
    + pose proof (Z.div_mod v 256). lia.
    + split; [apply Z.div_pos; lia | apply Z.div_lt_upper_bound; lia].
Qed.

Lemma to_from_le_bytes l : to_le_bytes (length l) (from_le_bytes l) = l.
Proof.
  induction l as [|b l IH]; [done|].
  cbn [length to_le_bytes from_le_bytes]. pose proof (b2z_range b).
  rewrite <- z2b_mod.
  replace ((b2z b + 256 * from_le_bytes l) mod 256) with (b2z b).
  2:{ rewrite Z.mul_comm, Z.mod_add, Z.mod_small; lia. }
  replace ((b2z b + 256 * from_le_bytes l) / 256) with (from_le_bytes l).
  2:{ rewrite Z.mul_comm, Z.div_add, (Z.div_small (b2z b)) by lia. lia. }
  rewrite z2b_b2z, IH. done.
Qed.

Lemma from_to_be_bytes n v :
  0 <= v < 256 ^ Z.of_nat n -> from_be_bytes (to_be_bytes n v) = v.
Proof. unfold from_be_bytes, to_be_bytes. rewrite rev_involutive. apply from_to_le_bytes. Qed.

Lemma to_from_be_bytes n l : length l = n -> to_be_bytes n (from_be_bytes l) = l.
Proof.
  intros <-. unfold from_be_bytes, to_be_bytes.
  rewrite <- (length_rev l), to_from_le_bytes. apply rev_involutive.
Qed.

#[export] Hint Rewrite length_to_le_bytes length_to_be_bytes @length_app : mach.

(** ** Bit operations *)

Lemma land_mul_pow2_low n a b : 0 <= n -> 0 <= b < 2 ^ n -> Z.land (a * 2 ^ n) b = 0.
Proof.
  intros Hn Hb. destruct (decide (b = 0)) as [->|Hnz]; [apply Z.land_0_r|].
  apply Z.bits_inj'; intros i Hi. rewrite Z.land_spec, Z.bits_0.
  destruct (decide (i < n)) as [Hlt|Hge].
  - rewrite Z.mul_pow2_bits_low by lia. done.
  - rewrite (Z.bits_above_log2 b), andb_false_r; [done | lia |].
    apply Z.log2_lt_pow2; [lia|]. eapply Z.lt_le_trans; [apply Hb|].
    apply Z.pow_le_mono_r; lia.
Qed.

(** A field or-ed below a shifted one adds to it. *)
Lemma lor_mul_pow2_low n a b : 0 <= n -> 0 <= b < 2 ^ n -> Z.lor (a * 2 ^ n) b = a * 2 ^ n + b.
Proof. intros Hn Hb. rewrite <- Z.add_lor_land, land_mul_pow2_low by done. lia. Qed.

(** Masking a single bit. *)
Lemma land_pow2 n a : 0 <= n -> Z.land a (2 ^ n) = (a / 2 ^ n) mod 2 * 2 ^ n.
Proof.
  intros Hn. apply Z.bits_inj'; intros i Hi.
  rewrite Z.land_spec, Z.pow2_bits_eqb by lia.
  destruct (Z.eqb_spec n i) as [->|Hne].
  - rewrite Z.mul_pow2_bits, Z.sub_diag, (Z.mod_pow2_bits_low _ 1 0) by lia.
    rewrite Z.div_pow2_bits by lia. rewrite Z.add_0_l. apply andb_true_r.
  - rewrite andb_false_r. symmetry. destruct (decide (i < n)).
    + apply Z.mul_pow2_bits_low; lia.
    + rewrite Z.mul_pow2_bits, (Z.mod_pow2_bits_high _ 1) by lia. done.
Qed.

Lemma lor_range n a b : 0 <= n -> 0 <= a < 2 ^ n -> 0 <= b < 2 ^ n -> 0 <= Z.lor a b < 2 ^ n.
Proof.
  intros Hn Ha Hb. assert (Hl : Z.lor a b = Z.lor a b mod 2 ^ n).
  { rewrite <- Z.land_ones, Z.land_lor_distr_l, !Z.land_ones by done.
    rewrite !Z.mod_small by done. done. }
  rewrite Hl. apply Z.mod_pos_bound, Z.pow_pos_nonneg; lia.
Qed.

Lemma land_range n a b : 0 <= n -> 0 <= b < 2 ^ n -> 0 <= Z.land a b < 2 ^ n.
Proof.
  intros Hn Hb. assert (Hl : Z.land a b = Z.land a b mod 2 ^ n).
  { rewrite <- Z.land_ones, <- Z.land_assoc, (Z.land_ones b), Z.mod_small by done. done. }
  rewrite Hl. apply Z.mod_pos_bound, Z.pow_pos_nonneg; lia.
Qed.

Lemma land_ones_mod n a : 0 <= n -> Z.land a (Z.ones n) = a mod 2 ^ n.
Proof. apply Z.land_ones. Qed.

(** The major type and the additional information of a CBOR initial byte are its
    high three and low five bits. *)
Lemma shiftr5 a : Z.shiftr a 5 = a / 32.
Proof. apply (Z.shiftr_div_pow2 a 5). lia. Qed.
Lemma land31 a : Z.land a 31 = a mod 32.
Proof. apply (Z.land_ones a 5). lia. Qed.

(** ** Text

    A Rust [String] is its UTF-8 bytes; [core::str::from_utf8] accepts exactly the
    well-formed sequences (no surrogates, no overlong forms, at most U+10FFFF). *)

Definition in_range (lo hi : Z) (b : byte) : bool := (lo <=? b2z b)%Z && (b2z b <=? hi)%Z.
Definition is_cont (b : byte) : bool := in_range 128 191 b.

Definition utf8_lead3 (b0 b1 : byte) : bool :=
  (in_range 224 224 b0 && in_range 160 191 b1)
  || (in_range 225 236 b0 && in_range 128 191 b1)
  || (in_range 237 237 b0 && in_range 128 159 b1)
  || (in_range 238 239 b0 && in_range 128 191 b1).

Definition utf8_lead4 (b0 b1 : byte) : bool :=
  (in_range 240 240 b0 && in_range 144 191 b1)
  || (in_range 241 243 b0 && in_range 128 191 b1)
  || (in_range 244 244 b0 && in_range 128 143 b1).

Fixpoint from_utf8 (l : list byte) : bool :=
  match l with
  | [] => true
  | b0 :: l0 =>
      if (b2z b0 <? 128)%Z then from_utf8 l0
      else match l0 with
      | [] => false
      | b1 :: l1 =>
          if in_range 194 223 b0 then is_cont b1 && from_utf8 l1
          else match l1 with
          | [] => false
          | b2 :: l2 =>
              if in_range 224 239 b0 then utf8_lead3 b0 b1 && is_cont b2 && from_utf8 l2
              else match l2 with
              | [] => false
              | b3 :: l3 =>
                  utf8_lead4 b0 b1 && is_cont b2 && is_cont b3 && from_utf8 l3
              end
          end
      end
  end.

(** A Rust string literal as its bytes. *)
Definition bytes_of_string (s : String.string) : list byte := String.list_byte_of_string s.

Lemma from_utf8_app l k : from_utf8 l = true -> from_utf8 k = true -> from_utf8 (l ++ k) = true.
Proof.
  intros Hl Hk. revert Hl.
  induction l as [l IH] using (induction_ltof1 _ (@length byte)); unfold ltof in IH.
  destruct l as [|b0 l0]; [done|]. cbn [from_utf8 app]. case_split.
  { intros H. apply IH; [simpl; lia | done]. }
  destruct l0 as [|b1 l1]; [done|]. cbn [app]. case_split.
  { intros H. bool_hyps. rewrite H. apply IH; [simpl; lia | done]. }
  destruct l1 as [|b2 l2]; [done|]. cbn [app]. case_split.
  { intros H. bool_hyps. rewrite H, H1. apply IH; [simpl; lia | done]. }
  destruct l2 as [|b3 l3]; [done|]. cbn [app].
  intros H. bool_hyps. rewrite H, H1, H2. apply IH; [simpl; lia | done].
Qed.
