(* ===== verification/Floats.v ===== *)
(** * IEEE 754 values and their half, single and double bit patterns

    [f64] and [f32] values are their bit patterns, as the code stores and compares
    them ([to_bits]/[from_bits] are then the identity).  The casts [as f32] and
    [as f64] of the language and the conversions of [ledger-format/src/cbor/encode.rs]
    between single and half precision are executable definitions on bit patterns. *)

From S2P Require Import Prelude Machine.

Open Scope Z_scope.

(** ** The f64 and f32 primitives of the language *)

Definition f64_exp (v : Z) : Z := (v / 2 ^ 52) mod 2 ^ 11.
Definition f64_mant (v : Z) : Z := v mod 2 ^ 52.
Definition f64_is_sign_negative (v : Z) : bool := (2 ^ 63 <=? v)%Z.
Definition f64_is_nan (v : Z) : bool := (f64_exp v =? 2047)%Z && negb (f64_mant v =? 0)%Z.
Definition f64_is_zero (v : Z) : bool := (f64_exp v =? 0)%Z && (f64_mant v =? 0)%Z.

(** [a == b] on [f64]: NaN equals nothing and the two zeros are equal. *)
Definition f64_eqb (a b : Z) : bool :=
  negb (f64_is_nan a) && negb (f64_is_nan b)
  && ((a =? b)%Z || (f64_is_zero a && f64_is_zero b)).

(** [value.is_sign_negative() && value == 0.0]. *)
Definition f64_is_neg_zero (v : Z) : bool := f64_is_sign_negative v && f64_eqb v 0.

Definition f32_exp (v : Z) : Z := (v / 2 ^ 23) mod 2 ^ 8.
Definition f32_mant (v : Z) : Z := v mod 2 ^ 23.
Definition f32_is_sign_negative (v : Z) : bool := (2 ^ 31 <=? v)%Z.
Definition f32_is_nan (v : Z) : bool := (f32_exp v =? 255)%Z && negb (f32_mant v =? 0)%Z.
Definition f32_is_zero (v : Z) : bool := (f32_exp v =? 0)%Z && (f32_mant v =? 0)%Z.
Definition f32_is_neg_zero (v : Z) : bool := f32_is_sign_negative v && f32_is_zero v.

(** Round an integer significand at [2^shift] to nearest, ties to even. *)
Definition round_half_even (m shift : Z) : Z :=
  let d := m / 2 ^ shift in
  let r := m mod 2 ^ shift in
  let half := 2 ^ (shift - 1) in
  if (half <? r)%Z || ((r =? half)%Z && Z.odd d) then d + 1 else d.

(** [value as f32]: round to nearest even, overflow to infinity, NaN stays a quiet NaN. *)
Definition f64_to_f32 (v : Z) : Z :=
  let sign := if f64_is_sign_negative v then 2 ^ 31 else 0 in
  let e := f64_exp v in
  let m := f64_mant v in
  if (e =? 2047)%Z then
    if (m =? 0)%Z then sign + 255 * 2 ^ 23
    else sign + 255 * 2 ^ 23 + Z.lor (2 ^ 22) (m / 2 ^ 29)
  else
    let sig := if (e =? 0)%Z then m else m + 2 ^ 52 in
    let expo := if (e =? 0)%Z then -1074 else e - 1075 in
    let q := Z.max (expo + 29) (-149) in
    let magnitude := (q + 149) * 2 ^ 23 + round_half_even sig (q - expo) in
    if (255 * 2 ^ 23 <=? magnitude)%Z then sign + 255 * 2 ^ 23 else sign + magnitude.

(** [value as f64] from single precision: exact. *)
Definition f32_to_f64 (v : Z) : Z :=
  let sign := if f32_is_sign_negative v then 2 ^ 63 else 0 in
  let e := f32_exp v in
  let m := f32_mant v in
  if (e =? 255)%Z then
    if (m =? 0)%Z then sign + 2047 * 2 ^ 52
    else sign + 2047 * 2 ^ 52 + Z.lor (2 ^ 51) (m * 2 ^ 29)
  else if (e =? 0)%Z then
    if (m =? 0)%Z then sign
    else
      let k := Z.log2 m in
      sign + (k + 874) * 2 ^ 52 + (m - 2 ^ k) * 2 ^ (52 - k)
  else sign + (e + 896) * 2 ^ 52 + m * 2 ^ 29.

(** ** Half precision, as encode.rs computes it *)

(** [f32_bits_to_f16]: every intermediate keeps the width the code gives it. *)
Definition f32_bits_to_f16 (bits : Z) : Z :=
  let sign := Z.land (Z.shiftr bits 16) 32768 in
  let exp := Z.land (Z.shiftr bits 23) 255 in
  let mant := Z.land bits 8388607 in
  if (exp =? 255)%Z then
    Z.lor (Z.lor sign 31744) (if (mant =? 0)%Z then 0 else 1)
  else
    let exp16 := exp - 127 + 15 in
    if (31 <=? exp16)%Z then Z.lor sign 31744
    else if (0 <? exp16)%Z then
      let m16 := Z.shiftr mant 13 in
      let round_bit := Z.land (Z.shiftr mant 12) 1 in
      let sticky := Z.land mant 4095 in
      if (round_bit =? 1)%Z && (negb (sticky =? 0)%Z || (Z.land m16 1 =? 1)%Z) then
        let m16 := m16 + 1 in
        if (m16 =? 1024)%Z then Z.lor sign (Z.shiftl (exp16 + 1) 10 mod 65536)
        else Z.lor (Z.lor sign (Z.shiftl exp16 10 mod 65536)) m16
      else Z.lor (Z.lor sign (Z.shiftl exp16 10 mod 65536)) m16
    else
      let shift := 14 - exp16 in
      if (25 <=? shift)%Z then sign
      else
        let full := Z.lor mant 8388608 in
        let m16 := Z.shiftr full shift in
        let round_bit := Z.land (Z.shiftr full (shift - 1)) 1 in
        let sticky := Z.land full (Z.shiftl 1 (shift - 1) - 1) in
        let m16 :=
          if (round_bit =? 1)%Z && (negb (sticky =? 0)%Z || (Z.land m16 1 =? 1)%Z)
          then m16 + 1 else m16 in
        Z.lor sign (m16 mod 65536).

(** Non-negative dyadic numbers [m * 2^e]: the f64 values [f16_bits_to_f64] computes
    with.  Every significand has at most 11 bits and every exponent is far from the
    limits, so each [f64] operation of that function is exact and is the operation on
    dyadic numbers. *)
Record dyadic : Type := Dyadic { dy_m : Z; dy_e : Z }.

Definition dy_of_int (n : Z) : dyadic := Dyadic n 0.
Definition dy_mul (a b : dyadic) : dyadic := Dyadic (dy_m a * dy_m b) (dy_e a + dy_e b).
(** Division by a power of two. *)
Definition dy_div_pow2 (a : dyadic) (k : Z) : dyadic := Dyadic (dy_m a) (dy_e a - k).
Definition dy_add (a b : dyadic) : dyadic :=
  let e := Z.min (dy_e a) (dy_e b) in
  Dyadic (dy_m a * 2 ^ (dy_e a - e) + dy_m b * 2 ^ (dy_e b - e)) e.

(** The bits of [sign * magnitude] for a dyadic magnitude in the normal range. *)
Definition dy_to_bits (negative : bool) (a : dyadic) : Z :=
  let sign := if negative then 2 ^ 63 else 0 in
  if (dy_m a =? 0)%Z then sign
  else
    let k := Z.log2 (dy_m a) in
    sign + (dy_e a + k + 1023) * 2 ^ 52 + (dy_m a - 2 ^ k) * 2 ^ (52 - k).

(** [two_to_power]: [2^k] exactly, for [-24 <= k <= 15]. *)
Definition two_to_power (k : Z) : dyadic :=
  if (0 <=? k)%Z then dy_of_int (Z.shiftl 1 k) else dy_div_pow2 (dy_of_int 1) (- k).

(** [f16_bits_to_f64]. *)
Definition f16_bits_to_f64 (bits : Z) : Z :=
  let negative := negb (Z.land bits 32768 =? 0)%Z in
  let exp := Z.land (Z.shiftr bits 10) 31 in
  let mant := dy_of_int (Z.land bits 1023) in
  if (exp =? 0)%Z then dy_to_bits negative (dy_div_pow2 (dy_mul mant (dy_of_int 1)) 24)
  else if (exp =? 31)%Z then
    if (dy_m mant =? 0)%Z then (if negative then 2 ^ 63 else 0) + 2047 * 2 ^ 52
    else (if negative then 2 ^ 63 else 0) + 2047 * 2 ^ 52 + 2 ^ 51
  else
    dy_to_bits negative
      (dy_mul (dy_add (dy_of_int 1) (dy_div_pow2 mant 10)) (two_to_power (exp - 15))).

(** [value_round_trips_as_f16]. *)
Definition value_round_trips_as_f16 (value : Z) : option Z :=
  let single := f64_to_f32 value in
  if negb (f64_eqb (f32_to_f64 single) value) then None
  else
    let half_bits := f32_bits_to_f16 single in
    if f64_eqb (f16_bits_to_f64 half_bits) value then Some half_bits else None.

(** ** Bit fields *)

Definition pack64 (s : bool) (e m : Z) : Z := (if s then 2 ^ 63 else 0) + e * 2 ^ 52 + m.
Definition pack32 (s : bool) (e m : Z) : Z := (if s then 2 ^ 31 else 0) + e * 2 ^ 23 + m.

Ltac pow_consts :=
  change (2 ^ 63) with 9223372036854775808 in *; change (2 ^ 52) with 4503599627370496 in *;
  change (2 ^ 51) with 2251799813685248 in *; change (2 ^ 29) with 536870912 in *;
  change (2 ^ 31) with 2147483648 in *; change (2 ^ 23) with 8388608 in *;
  change (2 ^ 22) with 4194304 in *; change (2 ^ 11) with 2048 in *; change (2 ^ 8) with 256 in *.

(** Linear arithmetic with division and remainder by constants. *)
Ltac dlia := pow_consts; Z.to_euclidean_division_equations; lia.

Lemma f64_fields s e m : 0 <= e < 2048 -> 0 <= m < 2 ^ 52 ->
  f64_exp (pack64 s e m) = e /\ f64_mant (pack64 s e m) = m
  /\ f64_is_sign_negative (pack64 s e m) = s.
Proof.
  intros He Hm. unfold f64_exp, f64_mant, f64_is_sign_negative, pack64.
  destruct s; (split; [dlia | split; [dlia |]]); pow_consts;
    [apply Z.leb_le | apply Z.leb_gt]; lia.
Qed.

Lemma f32_fields s e m : 0 <= e < 256 -> 0 <= m < 2 ^ 23 ->
  f32_exp (pack32 s e m) = e /\ f32_mant (pack32 s e m) = m
  /\ f32_is_sign_negative (pack32 s e m) = s.
Proof.
  intros He Hm. unfold f32_exp, f32_mant, f32_is_sign_negative, pack32.
  destruct s; (split; [dlia | split; [dlia |]]); pow_consts;
    [apply Z.leb_le | apply Z.leb_gt]; lia.
Qed.

Lemma f32_unpack v : is_u32 v ->
  exists s e m, v = pack32 s e m /\ 0 <= e < 256 /\ 0 <= m < 2 ^ 23.
Proof.
  intros Hv. exists (2 ^ 31 <=? v)%Z, (f32_exp v), (f32_mant v).
  unfold pack32, f32_exp, f32_mant. widths.
  destruct (Z.leb_spec (2 ^ 31) v); (split; [dlia | split; dlia]).
Qed.

Lemma log2_bounds m : 0 < m -> 2 ^ Z.log2 m <= m < 2 * 2 ^ Z.log2 m.
Proof. intros. rewrite <- Z.pow_succ_r by apply Z.log2_nonneg. apply Z.log2_spec. done. Qed.

(** An exact significand is not rounded. *)
Lemma round_half_even_exact n shift : 0 < shift -> round_half_even (n * 2 ^ shift) shift = n.
Proof.
  intros Hs. unfold round_half_even.
  assert (0 < 2 ^ shift) by (apply Z.pow_pos_nonneg; lia).
  assert (0 < 2 ^ (shift - 1)) by (apply Z.pow_pos_nonneg; lia).
  rewrite Z.div_mul, Z.mod_mul by lia.
  destruct (Z.ltb_spec (2 ^ (shift - 1)) 0); [lia|].
  destruct (Z.eqb_spec 0 (2 ^ (shift - 1))); [lia|]. done.
Qed.

(** Narrowing a double whose significand fits single precision: the double is
    [n * 2^q] with [q >= -149] and a 24-bit [n], and nothing is lost. *)
Lemma f64_to_f32_exact s e m n q :
  0 < e < 2047 -> 0 <= m < 2 ^ 52 ->
  q = Z.max (e - 1046) (-149) -> m + 2 ^ 52 = n * 2 ^ (q - e + 1075) ->
  (q + 149) * 2 ^ 23 + n < 255 * 2 ^ 23 ->
  f64_to_f32 (pack64 s e m) = (if s then 2 ^ 31 else 0) + ((q + 149) * 2 ^ 23 + n).
Proof.
  intros He Hm Hq Hn Hmag. unfold f64_to_f32.
  destruct (f64_fields s e m) as (-> & -> & ->); [lia | done |].
  destruct (Z.eqb_spec e 2047); [lia|]. destruct (Z.eqb_spec e 0); [lia|].
  replace (Z.max (e - 1075 + 29) (-149)) with q by lia.
  replace (q - (e - 1075)) with (q - e + 1075) by lia.
  rewrite Hn, round_half_even_exact by lia.
  destruct (Z.leb_spec (255 * 2 ^ 23) ((q + 149) * 2 ^ 23 + n)); [lia|]. done.
Qed.

(** A normalised significand [m] with leading bit [k], left-aligned at bit [w]. *)
Lemma align_range m w : 0 < m < 2 ^ w ->
  0 <= Z.log2 m < w /\ 0 <= (m - 2 ^ Z.log2 m) * 2 ^ (w - Z.log2 m) < 2 ^ w
  /\ (m - 2 ^ Z.log2 m) * 2 ^ (w - Z.log2 m) + 2 ^ w = m * 2 ^ (w - Z.log2 m).
Proof.
  intros Hm. pose proof (log2_bounds m ltac:(lia)) as Hk. pose proof (Z.log2_nonneg m).
  assert (Z.log2 m < w) by (apply Z.log2_lt_pow2; lia).
  assert (Hw : 2 ^ w = 2 ^ Z.log2 m * 2 ^ (w - Z.log2 m))
    by (rewrite <- Z.pow_add_r by lia; f_equal; lia).
  assert (0 < 2 ^ (w - Z.log2 m)) by (apply Z.pow_pos_nonneg; lia).
  rewrite Hw. split; [lia|]. split; [|ring]. nia.
Qed.

Lemma pack64_eq (s : bool) e m : (if s then 2 ^ 63 else 0) + e * 2 ^ 52 + m = pack64 s e m.
Proof. done. Qed.

(** [as f64] then [as f32] is the identity on every single that is not a NaN. *)
Lemma f32_narrow_widen v : is_u32 v -> f32_is_nan v = false -> f64_to_f32 (f32_to_f64 v) = v.
Proof.
  intros Hv. destruct (f32_unpack v Hv) as (s & e & m & -> & He & Hm). clear Hv.
  unfold f32_is_nan, f32_to_f64. destruct (f32_fields s e m) as (-> & -> & ->); [done..|].
  destruct (Z.eqb_spec e 255) as [->|].
  { intros Hn. destruct (Z.eqb_spec m 0) as [->|]; [|done].
    destruct s; reflexivity. }
  intros _. destruct (Z.eqb_spec e 0) as [->|].
  - destruct (Z.eqb_spec m 0) as [->|]; [destruct s; reflexivity|].
    destruct (align_range m 23) as (Hk & _ & _); [lia|].
    destruct (align_range m 52) as (_ & Hr & Ha); [pow_consts; lia|].
    rewrite pack64_eq, (f64_to_f32_exact _ _ _ m (-149)); [unfold pack32; lia | lia | lia | lia | | pow_consts; lia].
    rewrite Ha. do 2 f_equal. lia.
  - rewrite pack64_eq, (f64_to_f32_exact _ _ _ (m + 2 ^ 23) (e - 150));
      [unfold pack32; pow_consts; lia | lia | pow_consts; lia | lia | | pow_consts; lia].
    replace (e - 150 - (e + 896) + 1075) with 29 by lia. pow_consts. lia.
Qed.

(** Half precision bit fields. *)
Definition pack16 (s : bool) (e m : Z) : Z := (if s then 32768 else 0) + e * 1024 + m.

Lemma f16_unpack v : 0 <= v < 65536 ->
  exists s e m, v = pack16 s e m /\ 0 <= e < 32 /\ 0 <= m < 1024.
Proof.
  intros Hv. exists (32768 <=? v)%Z, ((v / 1024) mod 32), (v mod 1024). unfold pack16.
  destruct (Z.leb_spec 32768 v); (split; [dlia | split; dlia]).
Qed.

Lemma f16_fields s e m : 0 <= e < 32 -> 0 <= m < 1024 ->
  negb (Z.land (pack16 s e m) 32768 =? 0)%Z = s
  /\ Z.land (Z.shiftr (pack16 s e m) 10) 31 = e /\ Z.land (pack16 s e m) 1023 = m.
Proof.
  intros He Hm. rewrite Z.shiftr_div_pow2 by lia.
  rewrite (land_pow2 15), (land_ones_mod 5), (land_ones_mod 10) by lia.
  change (2 ^ 15) with 32768; change (2 ^ 10) with 1024; change (2 ^ 5) with 32.
  unfold pack16. destruct s; (split; [|split; dlia]).
  - apply negb_true_iff, Z.eqb_neq. dlia.
  - apply negb_false_iff, Z.eqb_eq. dlia.
Qed.

(** The double of a half, in closed form. *)
Lemma f16_bits_to_f64_normal s e m : 0 < e < 31 -> 0 <= m < 1024 ->
  f16_bits_to_f64 (pack16 s e m) = pack64 s (e + 1008) (m * 2 ^ 42).
Proof.
  intros He Hm. unfold f16_bits_to_f64. destruct (f16_fields s e m) as (-> & -> & ->); [lia..|].
  destruct (Z.eqb_spec e 0); [lia|]. destruct (Z.eqb_spec e 31); [lia|].
  unfold two_to_power, dy_to_bits, dy_mul, dy_add, dy_div_pow2, dy_of_int. cbn [dy_m dy_e].
  replace (Z.min 0 (0 - 10)) with (-10) by lia.
  change (0 - -10) with 10; change (0 - 10 - -10) with 0; change (2 ^ 10) with 1024; change (2 ^ 0) with 1.
  assert (Hlog : forall j, 0 <= j -> Z.log2 ((m + 1024) * 2 ^ j) = 10 + j).
  { intros j Hj. rewrite Z.log2_mul_pow2 by lia.
    rewrite (Z.log2_unique (m + 1024) 10); [lia | lia | change (2 ^ Z.succ 10) with 2048; change (2 ^ 10) with 1024; lia]. }
  replace (1 * 1024 + m * 1) with (m + 1024) by lia.
  match goal with |- context [if (0 <=? e - 15)%Z then ?a else ?b] =>
    set (r := if (0 <=? e - 15)%Z then a else b) end.
  assert (Hr : exists j, 0 <= j /\ dy_m r = 2 ^ j /\ dy_e r + j = e - 15 /\ j <= 15).
  { unfold r. destruct (Z.leb_spec 0 (e - 15)).
    - exists (e - 15). cbn [dy_m dy_e]. rewrite Z.shiftl_mul_pow2, Z.mul_1_l by lia.
      split_and!; [lia | done | lia..].
    - exists 0. cbn [dy_m dy_e]. split_and!; [lia | done | lia..]. }
  destruct Hr as (j & Hj & -> & Hje & Hj15). clearbody r.
  rewrite Hlog by done. assert (0 < 2 ^ j) by (apply Z.pow_pos_nonneg; lia).
  destruct (Z.eqb_spec ((m + 1024) * 2 ^ j) 0); [nia|].
  unfold pack64. f_equal; [f_equal; f_equal; lia|].
  rewrite Z.pow_add_r by lia. change (2 ^ 10) with 1024.
  replace ((m + 1024) * 2 ^ j - 1024 * 2 ^ j) with (m * 2 ^ j) by ring.
  rewrite <- Z.mul_assoc, <- Z.pow_add_r by lia. do 2 f_equal. lia.
Qed.

Lemma f16_bits_to_f64_subnormal s m : 0 < m < 1024 ->
  f16_bits_to_f64 (pack16 s 0 m)
  = pack64 s (Z.log2 m + 999) ((m - 2 ^ Z.log2 m) * 2 ^ (52 - Z.log2 m)).
Proof.
  intros Hm. unfold f16_bits_to_f64. destruct (f16_fields s 0 m) as (-> & -> & ->); [lia..|].
  change (0 =? 0)%Z with true. cbv iota.
  unfold dy_to_bits, dy_div_pow2, dy_mul, dy_of_int. cbn [dy_m dy_e].
  rewrite Z.mul_1_r. destruct (Z.eqb_spec m 0); [lia|].
  unfold pack64. f_equal. f_equal. f_equal. lia.
Qed.

(** The single of a half, in the form [f32_bits_to_f16] reads. *)
Lemma f16_single_normal s e m : 0 < e < 31 -> 0 <= m < 1024 ->
  f64_to_f32 (f16_bits_to_f64 (pack16 s e m)) = pack32 s (e + 112) (m * 2 ^ 13).
Proof.
  intros He Hm. rewrite f16_bits_to_f64_normal by done.
  change (2 ^ 42) with 4398046511104. change (2 ^ 13) with 8192.
  rewrite (f64_to_f32_exact _ _ _ ((m + 1024) * 8192) (e - 38));
    [unfold pack32; pow_consts; lia | lia | pow_consts; lia | lia | | pow_consts; lia].
  replace (e - 38 - (e + 1008) + 1075) with 29 by lia. pow_consts. lia.
Qed.

Lemma f16_single_subnormal s m : 0 < m < 1024 ->
  f64_to_f32 (f16_bits_to_f64 (pack16 s 0 m))
  = pack32 s (Z.log2 m + 103) ((m - 2 ^ Z.log2 m) * 2 ^ (23 - Z.log2 m)).
Proof.
  intros Hm. rewrite f16_bits_to_f64_subnormal by done.
  destruct (align_range m 10) as (Hk & _ & _); [change (2 ^ 10) with 1024; lia|].
  destruct (align_range m 23) as (_ & Hr & Ha); [pow_consts; lia|].
  destruct (align_range m 52) as (_ & Hr' & Ha'); [pow_consts; lia|].
  rewrite (f64_to_f32_exact _ _ _ (m * 2 ^ (23 - Z.log2 m)) (Z.log2 m - 47)).
  - unfold pack32. rewrite <- Ha. pow_consts. lia.
  - lia.
  - done.
  - lia.
  - rewrite Ha', <- Z.mul_assoc, <- Z.pow_add_r by lia. do 2 f_equal. lia.
  - rewrite <- Ha. pow_consts. lia.
Qed.

Lemma pack32_bits s e m : 0 <= e < 256 -> 0 <= m < 2 ^ 23 ->
  Z.land (Z.shiftr (pack32 s e m) 16) 32768 = (if s then 32768 else 0)
  /\ Z.land (Z.shiftr (pack32 s e m) 23) 255 = e /\ Z.land (pack32 s e m) 8388607 = m.
Proof.
  intros He Hm. rewrite !Z.shiftr_div_pow2 by lia.
  rewrite (land_pow2 15), (land_ones_mod 8), (land_ones_mod 23) by lia.
  change (2 ^ 15) with 32768; change (2 ^ 16) with 65536.
  unfold pack32. destruct s; (split; [dlia | split; dlia]).
Qed.

Lemma lor_sign (s : bool) x : 0 <= x < 32768 ->
  Z.lor (if s then 32768 else 0) x = (if s then 32768 else 0) + x.
Proof.
  intros Hx. destruct s; [|apply Z.lor_0_l]. apply (lor_mul_pow2_low 15 1); [lia | done].
Qed.

(** Converting the exact single of a half back loses nothing. *)
Lemma f32_bits_to_f16_normal s e m : 0 < e < 31 -> 0 <= m < 1024 ->
  f32_bits_to_f16 (pack32 s (e + 112) (m * 2 ^ 13)) = pack16 s e m.
Proof.
  intros He Hm. change (2 ^ 13) with 8192. unfold f32_bits_to_f16.
  destruct (pack32_bits s (e + 112) (m * 8192)) as (-> & -> & ->); [lia | pow_consts; lia |].
  destruct (Z.eqb_spec (e + 112) 255); [lia|]. cbv zeta.
  replace (e + 112 - 127 + 15) with e by lia.
  destruct (Z.leb_spec 31 e); [lia|]. destruct (Z.ltb_spec 0 e); [|lia].
  rewrite !Z.shiftr_div_pow2, (land_ones_mod 1) by lia.
  replace (m * 8192 / 2 ^ 13) with m by (change (2 ^ 13) with 8192; dlia).
  replace ((m * 8192 / 2 ^ 12) mod 2 ^ 1) with 0 by (change (2 ^ 12) with 4096; change (2 ^ 1) with 2; dlia).
  change (0 =? 1)%Z with false. rewrite andb_false_l.
  rewrite Z.shiftl_mul_pow2 by lia. change (2 ^ 10) with 1024.
  rewrite Z.mod_small by lia. rewrite lor_sign by lia.
  replace ((if s then 32768 else 0) + e * 1024) with (((if s then 32 else 0) + e) * 2 ^ 10)
    by (change (2 ^ 10) with 1024; destruct s; lia).
  rewrite lor_mul_pow2_low by (change (2 ^ 10) with 1024; lia).
  unfold pack16. change (2 ^ 10) with 1024. destruct s; lia.
Qed.

Lemma f32_bits_to_f16_subnormal s m : 0 < m < 1024 ->
  f32_bits_to_f16 (pack32 s (Z.log2 m + 103) ((m - 2 ^ Z.log2 m) * 2 ^ (23 - Z.log2 m)))
  = pack16 s 0 m.
Proof.
  intros Hm. destruct (align_range m 10) as (Hk & _ & _); [change (2 ^ 10) with 1024; lia|].
  destruct (align_range m 23) as (_ & Hr & Ha); [pow_consts; lia|].
  set (k := Z.log2 m) in *. unfold f32_bits_to_f16.
  destruct (pack32_bits s (k + 103) ((m - 2 ^ k) * 2 ^ (23 - k))) as (-> & -> & ->); [lia | done |].
  destruct (Z.eqb_spec (k + 103) 255); [lia|]. cbv zeta.
  replace (k + 103 - 127 + 15) with (k - 9) by lia.
  destruct (Z.leb_spec 31 (k - 9)); [lia|]. destruct (Z.ltb_spec 0 (k - 9)); [lia|].
  replace (14 - (k - 9)) with (23 - k) by lia. destruct (Z.leb_spec 25 (23 - k)); [lia|].
  replace (Z.lor ((m - 2 ^ k) * 2 ^ (23 - k)) 8388608) with (m * 2 ^ (23 - k)).
  2:{ rewrite Z.lor_comm. change 8388608 with (1 * 2 ^ 23).
      rewrite lor_mul_pow2_low by (pow_consts; lia). lia. }
  rewrite !Z.shiftr_div_pow2, (land_ones_mod 1) by lia.
  assert (Hp : 2 ^ (23 - k) = 2 * 2 ^ (23 - k - 1)) by (rewrite <- Z.pow_succ_r by lia; f_equal; lia).
  assert (0 < 2 ^ (23 - k - 1)) by (apply Z.pow_pos_nonneg; lia).
  rewrite Z.div_mul by lia.
  replace ((m * 2 ^ (23 - k) / 2 ^ (23 - k - 1)) mod 2 ^ 1) with 0.
  2:{ rewrite Hp, Z.mul_assoc, Z.div_mul by lia. change (2 ^ 1) with 2. dlia. }
  change (0 =? 1)%Z with false. rewrite andb_false_l.
  rewrite Z.mod_small by lia. rewrite lor_sign by lia. unfold pack16. lia.
Qed.

(** A half that is not a NaN survives the detour through double and single. *)
Lemma f16_round_trip h : 0 <= h < 65536 -> f64_is_nan (f16_bits_to_f64 h) = false ->
  f32_bits_to_f16 (f64_to_f32 (f16_bits_to_f64 h)) = h
  /\ f32_to_f64 (f64_to_f32 (f16_bits_to_f64 h)) = f16_bits_to_f64 h.
Proof.
  intros Hh. destruct (f16_unpack h Hh) as (s & e & m & -> & He & Hm). clear Hh.
  destruct (decide (e = 31)) as [->|].
  { unfold f16_bits_to_f64. destruct (f16_fields s 31 m) as (-> & -> & ->); [lia..|].
    change (31 =? 0)%Z with false. change (31 =? 31)%Z with true. cbn [dy_m dy_of_int].
    destruct (Z.eqb_spec m 0) as [->|]; destruct s; intros Hn; try (vm_compute in Hn; discriminate Hn);
      split; reflexivity. }
  intros _. destruct (decide (e = 0)) as [->|].
  { destruct (decide (m = 0)) as [->|]; [destruct s; split; reflexivity|].
    destruct (align_range m 10) as (Hk & _ & _); [change (2 ^ 10) with 1024; lia|].
    destruct (align_range m 23) as (_ & Hr & Ha); [pow_consts; lia|].
    rewrite f16_single_subnormal by lia. split; [apply f32_bits_to_f16_subnormal; lia|].
    rewrite f16_bits_to_f64_subnormal by lia. unfold f32_to_f64.
    destruct (f32_fields s (Z.log2 m + 103) ((m - 2 ^ Z.log2 m) * 2 ^ (23 - Z.log2 m)))
      as (-> & -> & ->); [lia | done |].
    destruct (Z.eqb_spec (Z.log2 m + 103) 255); [lia|].
    destruct (Z.eqb_spec (Z.log2 m + 103) 0); [lia|].
    unfold pack64. f_equal; [lia|]. rewrite <- Z.mul_assoc, <- Z.pow_add_r by lia. do 2 f_equal. lia. }
  rewrite f16_single_normal by lia. split; [apply f32_bits_to_f16_normal; lia|].
  rewrite f16_bits_to_f64_normal by lia. unfold f32_to_f64.
  change (2 ^ 13) with 8192; change (2 ^ 42) with 4398046511104.
  destruct (f32_fields s (e + 112) (m * 8192)) as (-> & -> & ->); [lia | pow_consts; lia |].
  destruct (Z.eqb_spec (e + 112) 255); [lia|]. destruct (Z.eqb_spec (e + 112) 0); [lia|].
  unfold pack64. pow_consts. lia.
Qed.

(** ** IEEE equality against bit equality *)

Lemma f64_eqb_refl v : f64_is_nan v = false -> f64_eqb v v = true.
Proof. intros H. unfold f64_eqb. rewrite H, Z.eqb_refl. done. Qed.

Lemma f64_zero_bits v : is_u64 v -> f64_is_zero v = true -> v = 0 \/ v = 2 ^ 63.
Proof. unfold f64_is_zero, f64_exp, f64_mant. widths. intros Hv H. bool_hyps. dlia. Qed.

(** Away from zero, IEEE equality is equality of bits. *)
Lemma f64_eqb_bits a b : f64_eqb a b = true -> f64_is_zero b = false -> a = b.
Proof.
  unfold f64_eqb. intros H Hz. rewrite Hz, andb_false_r, orb_false_r in H. bool_hyps. done.
Qed.

Lemma f64_nonzero v : is_u64 v -> f64_is_neg_zero v = false -> v <> 0 -> f64_is_zero v = false.
Proof.
  intros Hv Hn H0. destruct (f64_is_zero v) eqn:Hz; [|done].
  destruct (f64_zero_bits v Hv Hz) as [->| ->]; [done | discriminate Hn].
Qed.

(** ** Ranges *)

Lemma round_half_even_nonneg m shift : 0 <= m -> 0 <= round_half_even m shift.
Proof.
  intros Hm. unfold round_half_even. assert (0 <= m / 2 ^ shift).
  { destruct (decide (2 ^ shift = 0)) as [->|]; [rewrite Z.div_0_r; lia|].
    apply Z.div_pos; [done|]. pose proof (Z.pow_nonneg 2 shift). lia. }
  case_split; lia.
Qed.

Lemma f64_to_f32_range v : is_u32 (f64_to_f32 v).
Proof.
  unfold f64_to_f32, is_u32, u32_max.
  set (sign := if f64_is_sign_negative v then _ else _).
  assert (sign = 0 \/ sign = 2 ^ 31) by (unfold sign; case_split; auto). clearbody sign.
  assert (Hm : 0 <= f64_mant v < 2 ^ 52) by (unfold f64_mant; apply Z.mod_pos_bound; lia).
  destruct (f64_exp v =? 2047)%Z.
  - destruct (f64_mant v =? 0)%Z; [pow_consts; lia|].
    assert (Hl : 0 <= Z.lor (2 ^ 22) (f64_mant v / 2 ^ 29) < 2 ^ 23)
      by (apply lor_range; [lia | pow_consts; lia | dlia]). pow_consts. lia.
  - set (sig := if (f64_exp v =? 0)%Z then _ else _ + _).
    assert (0 <= sig) by (unfold sig; case_split; pow_consts; lia). clearbody sig.
    pose proof (round_half_even_nonneg sig) as Hr. cbv zeta.
    match goal with |- context [round_half_even sig ?x] =>
      specialize (Hr x); generalize dependent (round_half_even sig x) end.
    intros. repeat case_split; bool_hyps; pow_consts; lia.
Qed.

Lemma f32_to_f64_range v : is_u64 (f32_to_f64 v).
Proof.
  unfold f32_to_f64, is_u64, u64_max.
  set (sign := if f32_is_sign_negative v then _ else _).
  assert (sign = 0 \/ sign = 2 ^ 63) by (unfold sign; case_split; auto). clearbody sign.
  assert (Hm : 0 <= f32_mant v < 2 ^ 23) by (unfold f32_mant; apply Z.mod_pos_bound; lia).
  assert (He : 0 <= f32_exp v < 2 ^ 8) by (unfold f32_exp; apply Z.mod_pos_bound; lia).
  destruct (Z.eqb_spec (f32_exp v) 255); [destruct (f32_mant v =? 0)%Z; [pow_consts; lia|]|].
  { assert (Hl : 0 <= Z.lor (2 ^ 51) (f32_mant v * 2 ^ 29) < 2 ^ 52)
      by (apply lor_range; pow_consts; lia). pow_consts. lia. }
  destruct (Z.eqb_spec (f32_exp v) 0); [|pow_consts; lia].
  destruct (Z.eqb_spec (f32_mant v) 0); [pow_consts; lia|].
  destruct (align_range (f32_mant v) 23) as (Hk & _ & _); [lia|].
  destruct (align_range (f32_mant v) 52) as (_ & Hr & _); [pow_consts; lia|]. cbv zeta.
  pow_consts. lia.
Qed.

Lemma f32_bits_to_f16_range v : 0 <= f32_bits_to_f16 v < 65536.
Proof.
  unfold f32_bits_to_f16. change 65536 with (2 ^ 16).
  assert (Hm : 0 <= Z.land v 8388607 < 2 ^ 23) by (apply land_range; lia).
  assert (Hs : 0 <= Z.land (Z.shiftr v 16) 32768 < 2 ^ 16) by (apply land_range; lia).
  assert (Hmod : forall x, 0 <= x mod 2 ^ 16 < 2 ^ 16) by (intros; apply Z.mod_pos_bound; lia).
  assert (H13 : 0 <= Z.shiftr (Z.land v 8388607) 13 < 1024).
  { rewrite Z.shiftr_div_pow2 by lia. change (2 ^ 13) with 8192. dlia. }
  cbv zeta. repeat case_split; bool_hyps; repeat (apply lor_range; [lia| |]); auto;
    try (change (2 ^ 16) with 65536; lia).
Qed.

Lemma f16_bits_to_f64_range h : 0 <= h < 65536 -> is_u64 (f16_bits_to_f64 h).
Proof.
  intros Hh. destruct (f16_unpack h Hh) as (s & e & m & -> & He & Hm). clear Hh. unfold is_u64, u64_max.
  destruct (decide (e = 31)) as [->|].
  { unfold f16_bits_to_f64. destruct (f16_fields s 31 m) as (-> & -> & ->); [lia..|].
    change (31 =? 0)%Z with false. change (31 =? 31)%Z with true. cbv iota.
    repeat case_split; pow_consts; lia. }
  destruct (decide (e = 0)) as [->|].
  - destruct (decide (m = 0)) as [->|]; [destruct s; vm_compute; split; discriminate|].
    destruct (align_range m 10) as (Hk & _ & _); [change (2 ^ 10) with 1024; lia|].
    destruct (align_range m 52) as (_ & Hr & _); [pow_consts; lia|].
    rewrite f16_bits_to_f64_subnormal by lia. unfold pack64. destruct s; pow_consts; lia.
  - rewrite f16_bits_to_f64_normal by lia. unfold pack64.
    change (2 ^ 42) with 4398046511104. destruct s; pow_consts; lia.
Qed.
