(* ===== verification/Cbor.v ===== *)
(** * Canonical CBOR: values, encoder and validating decoder

    Models [ledger-format/src/cbor/mod.rs], [cbor/encode.rs] and the canonical half
    of [cbor/decode.rs].

    An encoder function [f(out: &mut Vec<u8>, ..)] is modelled by the bytes it appends
    to [out].  A decoder function [f(input, cursor: &mut usize, ..)] takes the unread
    suffix [input[cursor..]] and returns the value with the new unread suffix:
    [cursor >= input.len()] is an empty suffix and [input[a..b]] is what was consumed
    between two suffixes. *)

From S2P Require Import Prelude Machine Floats.

Open Scope Z_scope.

Create HintDb cbor.
Create Rewrite HintDb cbor.

(** ** Errors and values *)

Inductive CborError : Type :=
| UnexpectedEof
| IndefiniteLengthForbidden
| NonCanonicalIntegerEncoding
| NonCanonicalFloat
| UnsortedMapKeys
| DuplicateMapKey
| InvalidUtf8
| UnknownTag (tag : Z)
| LengthOverflow
| EntryTooLarge (size : Z)
| DepthLimitExceeded
| UnsupportedType (ty : Z)
| TrailingBytes
| UnsupportedVersion (version : Z)
| MalformedManifest (msg : string).

#[global] Instance CborError_eq_dec : EqDecision CborError.
Proof. solve_decision. Defined.

#[warnings="-register-all"]
Inductive CborValue : Type :=
| CUnsigned (v : Z)
| CNegative (v : Z)
| CBytes (b : list byte)
| CText (s : list byte)
| CArray (items : list CborValue)
| CMap (entries : list (CborValue * CborValue))
| CTag (tag : Z) (inner : CborValue)
| CBool (b : bool)
| CNull
| CFloat (bits : Z).

Definition MAX_DEPTH : nat := 128.
Definition TAG_ALLOWLIST : list Z := [].

Definition tag_allowed (tag : Z) : bool := bool_decide (tag ∈ TAG_ALLOWLIST).

(** ** Canonical key order *)

(** [<[u8] as Ord>::cmp]. *)
Fixpoint lex_compare (a b : list byte) : comparison :=
  match a, b with
  | [], [] => Eq
  | [], _ :: _ => Lt
  | _ :: _, [] => Gt
  | x :: a, y :: b =>
      match (b2z x ?= b2z y)%Z with Eq => lex_compare a b | c => c end
  end.

(** [compare_canonical_keys]: shorter first, then bytewise lexicographic. *)
Definition compare_canonical_keys (a b : list byte) : comparison :=
  if negb (length a =? length b)%nat then (length a ?= length b)%nat else lex_compare a b.

(** ** Encoder *)

(** [major]: the shortest head for a major type and an argument. *)
Definition major (kind value : Z) : list byte :=
  let head := Z.shiftl kind 5 in
  if (value <=? 23)%Z then [z2b (Z.lor head value)]
  else if (value <=? u8_max)%Z then [z2b (Z.lor head 24); z2b value]
  else if (value <=? u16_max)%Z then z2b (Z.lor head 25) :: to_be_bytes 2 value
  else if (value <=? u32_max)%Z then z2b (Z.lor head 26) :: to_be_bytes 4 value
  else z2b (Z.lor head 27) :: to_be_bytes 8 value.

Definition unsigned (value : Z) : list byte := major 0 value.

Definition signed (value : Z) : list byte :=
  if (0 <=? value)%Z then unsigned value
  else major 1 (saturating_sub (Z.abs value) 1).

Definition cbytes (value : list byte) : list byte := major 2 (Z.of_nat (length value)) ++ value.
Definition text (value : list byte) : list byte := major 3 (Z.of_nat (length value)) ++ value.
Definition array (len : nat) : list byte := major 4 (Z.of_nat len).
Definition cmap (len : nat) : list byte := major 5 (Z.of_nat len).
Definition ctag (tag : Z) : list byte := major 6 tag.
Definition boolean (val : bool) : list byte := [if val then xf5 else xf4].
Definition null : list byte := [xf6].

(** [encode_minimal_float]. *)
Definition encode_minimal_float (value : Z) : list byte :=
  match value_round_trips_as_f16 value with
  | Some half_bits => xf9 :: to_be_bytes 2 half_bits
  | None =>
      if f64_eqb (f32_to_f64 (f64_to_f32 value)) value
      then xfa :: to_be_bytes 4 (f64_to_f32 value)
      else xfb :: to_be_bytes 8 value
  end.

(** The [for] loops with [?] in their body. *)
Definition traverse {A B E} (f : A -> result E B) : list A -> result E (list B) :=
  fix go l :=
    match l with
    | [] => Ok []
    | x :: l => let? y := f x in let? ys := go l in Ok (y :: ys)
    end.

(** [slice::sort_by] is a stable sort; on keyed entries it is this insertion sort. *)
Fixpoint insert_by_key {A} (e : list byte * A) (l : list (list byte * A)) : list (list byte * A) :=
  match l with
  | [] => [e]
  | x :: l' =>
      match compare_canonical_keys e.1 x.1 with
      | Gt => x :: insert_by_key e l'
      | _ => e :: x :: l'
      end
  end.

Fixpoint sort_by_key {A} (l : list (list byte * A)) : list (list byte * A) :=
  match l with [] => [] | e :: l => insert_by_key e (sort_by_key l) end.

(** [windows(2)] with equal keys. *)
Fixpoint has_duplicate_key {A} (l : list (list byte * A)) : bool :=
  match l with
  | a :: ((b :: _) as l') => bool_decide (a.1 = b.1) || has_duplicate_key l'
  | _ => false
  end.

(** [CborValue::try_encode]. *)
Fixpoint try_encode (v : CborValue) : result CborError (list byte) :=
  match v with
  | CUnsigned val => Ok (unsigned val)
  | CNegative val => Ok (major 1 val)
  | CBytes b => Ok (cbytes b)
  | CText s => Ok (text s)
  | CArray items =>
      let? bodies := traverse try_encode items in
      Ok (array (length items) ++ concat bodies)
  | CMap entries =>
      let? encoded := traverse (fun '(key, val) =>
                        let? key_bytes := try_encode key in
                        let? val_bytes := try_encode val in
                        Ok (key_bytes, val_bytes)) entries in
      let encoded := sort_by_key encoded in
      if has_duplicate_key encoded then Err DuplicateMapKey
      else Ok (cmap (length encoded) ++ concat (map (fun e => e.1 ++ e.2) encoded))
  | CTag tag_num inner =>
      if negb (tag_allowed tag_num) then Err (UnknownTag tag_num)
      else let? body := try_encode inner in Ok (ctag tag_num ++ body)
  | CBool b => Ok (boolean b)
  | CNull => Ok null
  | CFloat value =>
      if f64_is_nan value then Err NonCanonicalFloat
      else if f64_is_neg_zero value then Err NonCanonicalFloat
      else Ok (encode_minimal_float value)
  end.

Definition to_canonical_bytes (v : CborValue) : result CborError (list byte) := try_encode v.

(** ** Decoder *)

(** [uN::from_be_bytes] of the next [n] bytes. *)
Definition take_be (n : nat) (rest : list byte) : result CborError (Z * list byte) :=
  if (length rest <? n)%nat then Err UnexpectedEof
  else Ok (from_be_bytes (take n rest), drop n rest).

(** The argument of a head, with the shortest-form checks. *)
Definition decode_argument (initial : byte) (rest : list byte) : result CborError (Z * list byte) :=
  let additional := Z.land (b2z initial) 31 in
  if (additional <=? 23)%Z then Ok (additional, rest)
  else if (additional =? 24)%Z then
    match rest with
    | [] => Err UnexpectedEof
    | b :: rest => if (b2z b <? 24)%Z then Err NonCanonicalIntegerEncoding else Ok (b2z b, rest)
    end
  else if (additional =? 25)%Z then
    let? '(v, rest) := take_be 2 rest in
    if (v <=? u8_max)%Z then Err NonCanonicalIntegerEncoding else Ok (v, rest)
  else if (additional =? 26)%Z then
    let? '(v, rest) := take_be 4 rest in
    if (v <=? u16_max)%Z then Err NonCanonicalIntegerEncoding else Ok (v, rest)
  else if (additional =? 27)%Z then
    let? '(v, rest) := take_be 8 rest in
    if (v <=? u32_max)%Z then Err NonCanonicalIntegerEncoding else Ok (v, rest)
  else if (additional =? 31)%Z then Err IndefiniteLengthForbidden
  else Err (UnsupportedType (b2z initial)).

(** [decode_header]: major type, argument and the bytes after the head. *)
Definition decode_header (rest : list byte) : result CborError (Z * Z * list byte) :=
  match rest with
  | [] => Err UnexpectedEof
  | initial :: rest =>
      let? '(value, rest) := decode_argument initial rest in
      Ok (Z.shiftr (b2z initial) 5, value, rest)
  end.

Definition decode_f16 (rest : list byte) : result CborError (CborValue * list byte) :=
  let? '(bits, rest) := take_be 2 rest in
  let value := f16_bits_to_f64 bits in
  if f64_is_nan value then Err NonCanonicalFloat
  else if f64_is_neg_zero value then Err NonCanonicalFloat
  else Ok (CFloat value, rest).

Definition decode_f32 (rest : list byte) : result CborError (CborValue * list byte) :=
  let? '(value, rest) := take_be 4 rest in
  if f32_is_nan value then Err NonCanonicalFloat
  else if f32_is_neg_zero value then Err NonCanonicalFloat
  else
    let half_bits := f32_bits_to_f16 value in
    if f64_eqb (f16_bits_to_f64 half_bits) (f32_to_f64 value) then Err NonCanonicalFloat
    else Ok (CFloat (f32_to_f64 value), rest).

Definition decode_f64 (rest : list byte) : result CborError (CborValue * list byte) :=
  let? '(value, rest) := take_be 8 rest in
  if f64_is_nan value then Err NonCanonicalFloat
  else if f64_is_neg_zero value then Err NonCanonicalFloat
  else if f64_eqb (f32_to_f64 (f64_to_f32 value)) value then Err NonCanonicalFloat
  else Ok (CFloat value, rest).

(** The major type 7 arm of [decode_value]; [rest] is after the initial byte. *)
Definition decode_simple (initial : byte) (rest : list byte) : result CborError (CborValue * list byte) :=
  let additional := Z.land (b2z initial) 31 in
  if (additional =? 20)%Z then Ok (CBool false, rest)
  else if (additional =? 21)%Z then Ok (CBool true, rest)
  else if (additional =? 22)%Z then Ok (CNull, rest)
  else if (additional =? 25)%Z then decode_f16 rest
  else if (additional =? 26)%Z then decode_f32 rest
  else if (additional =? 27)%Z then decode_f64 rest
  else if (additional =? 24)%Z then
    match rest with
    | [] => Err UnexpectedEof
    | b :: _ =>
        if (b2z b <? 24)%Z then Err NonCanonicalIntegerEncoding
        else Err (UnsupportedType (b2z initial))
    end
  else if (additional =? 31)%Z then Err IndefiniteLengthForbidden
  else Err (UnsupportedType (b2z initial)).

(** [for _ in 0..count { items.push(f(..)?) }]. *)
Definition read_n {A E} (f : list byte -> result E (A * list byte)) :
    nat -> list byte -> result E (list A * list byte) :=
  fix go n rest :=
    match n with
    | O => Ok ([], rest)
    | S n =>
        let? '(x, rest) := f rest in
        let? '(xs, rest) := go n rest in
        Ok (x :: xs, rest)
    end.

(** The order check between a key's raw bytes and the previous key's. *)
Definition check_key_order (previous : option (list byte)) (raw_key : list byte) : result CborError unit :=
  match previous with
  | None => Ok tt
  | Some prev =>
      match compare_canonical_keys prev raw_key with
      | Gt => Err UnsortedMapKeys
      | Eq => Err DuplicateMapKey
      | Lt => Ok tt
      end
  end.

(** The map loop of [decode_value], threading [previous_raw_key]. *)
Definition read_entries {A} (f : list byte -> result CborError (A * list byte)) :
    nat -> option (list byte) -> list byte -> result CborError (list (A * A) * list byte) :=
  fix go n previous rest :=
    match n with
    | O => Ok ([], rest)
    | S n =>
        let? '(key, rest1) := f rest in
        let raw_key := take (length rest - length rest1) rest in
        let? _ := check_key_order previous raw_key in
        let? '(val, rest2) := f rest1 in
        let? '(entries, rest3) := go n (Some raw_key) rest2 in
        Ok ((key, val) :: entries, rest3)
    end.

(** [decode_value] at nesting depth [MAX_DEPTH + 1 - budget]: the depth check of the
    code is the exhausted budget. *)
Fixpoint decode_value (budget : nat) (rest : list byte) : result CborError (CborValue * list byte) :=
  match budget with
  | O => Err DepthLimitExceeded
  | S budget =>
      match rest with
      | [] => Err UnexpectedEof
      | initial :: rest1 =>
          if (Z.shiftr (b2z initial) 5 =? 7)%Z then decode_simple initial rest1
          else
            let? '(major, value, rest2) := decode_header rest in
            let remaining := Z.of_nat (length rest2) in
            if (major =? 0)%Z then Ok (CUnsigned value, rest2)
            else if (major =? 1)%Z then Ok (CNegative value, rest2)
            else if (major =? 2)%Z then
              if (remaining <? value)%Z then Err LengthOverflow
              else Ok (CBytes (take (Z.to_nat value) rest2), drop (Z.to_nat value) rest2)
            else if (major =? 3)%Z then
              if (remaining <? value)%Z then Err LengthOverflow
              else if negb (from_utf8 (take (Z.to_nat value) rest2)) then Err InvalidUtf8
              else Ok (CText (take (Z.to_nat value) rest2), drop (Z.to_nat value) rest2)
            else if (major =? 4)%Z then
              if (remaining <? value)%Z then Err LengthOverflow
              else
                let? '(items, rest3) := read_n (decode_value budget) (Z.to_nat value) rest2 in
                Ok (CArray items, rest3)
            else if (major =? 5)%Z then
              if (remaining <? value)%Z then Err LengthOverflow
              else
                let? '(entries, rest3) :=
                  read_entries (decode_value budget) (Z.to_nat value) None rest2 in
                Ok (CMap entries, rest3)
            else if (major =? 6)%Z then
              if negb (tag_allowed value) then Err (UnknownTag value)
              else
                let? '(inner, rest3) := decode_value budget rest2 in
                Ok (CTag value inner, rest3)
            else Err (UnsupportedType (b2z initial))
      end
  end.

(** [CborValue::from_canonical_bytes]. *)
Definition from_canonical_bytes (input : list byte) : result CborError CborValue :=
  let? '(val, rest) := decode_value (S MAX_DEPTH) input in
  match rest with
  | [] => Ok val
  | _ :: _ => Err TrailingBytes
  end.
