(* ===== verification/CborProofs.v ===== *)
(** * Canonical CBOR: correctness

    Heads, key order, the float widths, and the two directions of the codec: the
    decoder inverts the encoder, and it accepts nothing the encoder does not emit. *)

From Stdlib Require Import Sorting.Sorted.
From S2P Require Import Prelude Machine Floats Cbor.

Open Scope Z_scope.

(** ** Induction on values *)

Section ValueInduction.
Variable P : CborValue -> Prop.
Hypothesis HUnsigned : forall v, P (CUnsigned v).
Hypothesis HNegative : forall v, P (CNegative v).
Hypothesis HBytes : forall b, P (CBytes b).
Hypothesis HText : forall s, P (CText s).
Hypothesis HArray : forall items, Forall P items -> P (CArray items).
Hypothesis HMap : forall entries, Forall (fun e => P e.1 /\ P e.2) entries -> P (CMap entries).
Hypothesis HTag : forall t v, P v -> P (CTag t v).
Hypothesis HBool : forall b, P (CBool b).
Hypothesis HNull : P CNull.
Hypothesis HFloat : forall f, P (CFloat f).

Fixpoint CborValue_rect_nested (v : CborValue) : P v :=
  match v with
  | CUnsigned v => HUnsigned v
  | CNegative v => HNegative v
  | CBytes b => HBytes b
  | CText s => HText s
  | CArray items =>
      HArray items ((fix go l : Forall P l :=
        match l with
        | [] => Forall_nil_2 P
        | x :: l => Forall_cons_2 P x l (CborValue_rect_nested x) (go l)
        end) items)
  | CMap entries =>
      HMap entries ((fix go l : Forall (fun e => P e.1 /\ P e.2) l :=
        match l with
        | [] => Forall_nil_2 _
        | (k, x) :: l =>
            Forall_cons_2 (fun e => P e.1 /\ P e.2) (k, x) l
              (conj (CborValue_rect_nested k) (CborValue_rect_nested x)) (go l)
        end) entries)
  | CTag t v => HTag t v (CborValue_rect_nested v)
  | CBool b => HBool b
  | CNull => HNull
  | CFloat f => HFloat f
  end.
End ValueInduction.

(** ** Heads *)

Lemma shiftl5 k : Z.shiftl k 5 = k * 2 ^ 5.
Proof. apply Z.shiftl_mul_pow2. lia. Qed.

Lemma head_byte k a : 0 <= k < 8 -> 0 <= a < 32 -> b2z (z2b (Z.lor (Z.shiftl k 5) a)) = k * 32 + a.
Proof.
  intros Hk Ha. rewrite shiftl5, lor_mul_pow2_low by lia.
  change (2 ^ 5) with 32. rewrite b2z_z2b_small; lia.
Qed.

Lemma head_major k a : 0 <= k < 8 -> 0 <= a < 32 ->
  Z.shiftr (b2z (z2b (Z.lor (Z.shiftl k 5) a))) 5 = k
  /\ Z.land (b2z (z2b (Z.lor (Z.shiftl k 5) a))) 31 = a.
Proof. intros Hk Ha. rewrite head_byte, shiftr5, land31 by done. dlia. Qed.

Lemma head_byte_inv (b : byte) :
  b = z2b (Z.lor (Z.shiftl (Z.shiftr (b2z b) 5) 5) (Z.land (b2z b) 31))
  /\ 0 <= Z.shiftr (b2z b) 5 < 8 /\ 0 <= Z.land (b2z b) 31 < 32.
Proof.
  pose proof (b2z_range b). rewrite shiftr5, land31.
  assert (0 <= b2z b / 32 < 8 /\ 0 <= b2z b mod 32 < 32) as [??] by dlia.
  split; [|done]. apply b2z_inj. rewrite head_byte by done. dlia.
Qed.

Lemma take_be_app n v rest :
  0 <= v < 256 ^ Z.of_nat n -> take_be n (to_be_bytes n v ++ rest) = Ok (v, rest).
Proof.
  intros Hv. unfold take_be. rewrite length_app, length_to_be_bytes.
  destruct (Nat.ltb_spec (n + length rest) n); [lia|].
  pose proof (length_to_be_bytes n v) as Hl.
  rewrite <- Hl at 1 3. rewrite take_app_prefix, drop_app_prefix, from_to_be_bytes by done. done.
Qed.

Lemma take_be_inv n rest v rest' : take_be n rest = Ok (v, rest') ->
  rest = to_be_bytes n v ++ rest' /\ 0 <= v < 256 ^ Z.of_nat n.
Proof.
  unfold take_be. intros H. run_match H. bool_hyps.
  assert (Hl : length (take n rest) = n) by (rewrite length_take; lia).
  rewrite to_from_be_bytes, take_drop by done. split; [done|].
  rewrite <- Hl at 3. apply from_be_bytes_range.
Qed.

Lemma major_nonempty k v : (1 <= length (major k v))%nat.
Proof. unfold major. repeat case_split; simpl; lia. Qed.

(** A head decodes to its major type and argument. *)
Lemma decode_header_major k v rest : 0 <= k < 8 -> is_u64 v ->
  decode_header (major k v ++ rest) = Ok (k, v, rest).
Proof.
  intros Hk Hv. widths. unfold major. widths.
  repeat case_split; bool_hyps; cbn [app]; unfold decode_header, decode_argument;
    match goal with |- context [Z.lor _ ?a] => destruct (head_major k a) as [-> ->]; [lia | lia |] end.
  - destruct (Z.leb_spec v 23); [done | lia].
  - cbn -[b2z z2b]. rewrite b2z_z2b_small by lia. destruct (Z.ltb_spec v 24); [lia | done].
  - cbn -[take_be to_be_bytes Z.leb]. rewrite take_be_app by (simpl; lia). widths.
    destruct (Z.leb_spec v 255); [lia | done].
  - cbn -[take_be to_be_bytes Z.leb]. rewrite take_be_app by (simpl; lia). widths.
    destruct (Z.leb_spec v 65535); [lia | done].
  - cbn -[take_be to_be_bytes Z.leb]. rewrite take_be_app by (simpl; lia). widths.
    destruct (Z.leb_spec v 4294967295); [lia | done].
Qed.

(** A head the decoder accepts is the shortest one. *)
Lemma decode_header_inv rest k v rest' : decode_header rest = Ok (k, v, rest') ->
  rest = major k v ++ rest' /\ 0 <= k < 8 /\ is_u64 v.
Proof.
  unfold decode_header. destruct rest as [|b rest]; [done|].
  unfold decode_argument. generalize (head_byte_inv b).
  generalize (Z.land (b2z b) 31) (Z.shiftr (b2z b) 5). intros a j (Hb & Hk & Ha) H.
  run_match H; bool_hyps; unfold major; widths;
    repeat match goal with H : take_be _ _ = Ok _ |- _ => apply take_be_inv in H as [-> ?] end;
    repeat match goal with H : context [256 ^ ?n] |- _ =>
      let x := eval vm_compute in (256 ^ n) in change (256 ^ n) with x in H end;
    byte_ranges;
    repeat (case_split; bool_hyps; try lia); split_and!; try lia;
    subst; cbn [app]; rewrite ?z2b_b2z; done.
Qed.

(** ** Canonical key order *)

Lemma lex_compare_eq a b : lex_compare a b = Eq <-> a = b.
Proof.
  revert b; induction a as [|x a IH]; intros [|y b]; cbn; try done.
  destruct (Z.compare_spec (b2z x) (b2z y)) as [E|E|E].
  - apply b2z_inj in E as ->. rewrite IH. split; congruence.
  - split; [done|]. intros [= -> ->]. lia.
  - split; [done|]. intros [= -> ->]. lia.
Qed.

Lemma lex_compare_antisym a b : lex_compare b a = CompOpp (lex_compare a b).
Proof.
  revert b; induction a as [|x a IH]; intros [|y b]; cbn; try done.
  rewrite (Z.compare_antisym (b2z x) (b2z y)).
  destruct (b2z x ?= b2z y)%Z; cbn; auto.
Qed.

Lemma lex_compare_trans a b c : lex_compare a b = Lt -> lex_compare b c = Lt -> lex_compare a c = Lt.
Proof.
  revert b c; induction a as [|x a IH]; intros [|y b] [|z c]; cbn; try done.
  destruct (Z.compare_spec (b2z x) (b2z y)), (Z.compare_spec (b2z y) (b2z z)); try done;
    destruct (Z.compare_spec (b2z x) (b2z z)); try lia; eauto.
Qed.

Lemma compare_keys_eq a b : compare_canonical_keys a b = Eq <-> a = b.
Proof.
  unfold compare_canonical_keys. destruct (Nat.eqb_spec (length a) (length b)); cbn.
  - apply lex_compare_eq.
  - split; [|congruence]. intros H%Nat.compare_eq. done.
Qed.

Lemma compare_keys_antisym a b : compare_canonical_keys b a = CompOpp (compare_canonical_keys a b).
Proof.
  unfold compare_canonical_keys. rewrite (Nat.eqb_sym (length b)).
  destruct (Nat.eqb_spec (length a) (length b)); cbn; [apply lex_compare_antisym|].
  apply Nat.compare_antisym.
Qed.

Lemma compare_keys_trans a b c : compare_canonical_keys a b = Lt ->
  compare_canonical_keys b c = Lt -> compare_canonical_keys a c = Lt.
Proof.
  unfold compare_canonical_keys.
  destruct (Nat.eqb_spec (length a) (length b)), (Nat.eqb_spec (length b) (length c)); cbn;
    destruct (Nat.eqb_spec (length a) (length c)); cbn;
    rewrite ?Nat.compare_lt_iff; try lia; try congruence.
  apply lex_compare_trans.
Qed.

Definition key_lt (a b : list byte) : Prop := compare_canonical_keys a b = Lt.

(** Keys in strictly ascending canonical order. *)
Definition strictly_sorted {A} (l : list (list byte * A)) : Prop :=
  StronglySorted (fun a b => key_lt a.1 b.1) l.

Lemma key_gt_lt a b : compare_canonical_keys a b = Gt -> key_lt b a.
Proof. intros H. unfold key_lt. rewrite compare_keys_antisym, H. done. Qed.

Lemma insert_by_key_perm {A} (e : list byte * A) l : insert_by_key e l ≡ₚ e :: l.
Proof.
  induction l as [|x l IH]; cbn; [done|]. case_split; try done.
  rewrite IH. apply Permutation_swap.
Qed.

Lemma sort_by_key_perm {A} (l : list (list byte * A)) : sort_by_key l ≡ₚ l.
Proof. induction l as [|x l IH]; cbn; [done|]. rewrite insert_by_key_perm, IH. done. Qed.

Lemma length_sort_by_key {A} (l : list (list byte * A)) : length (sort_by_key l) = length l.
Proof. apply Permutation_length, sort_by_key_perm. Qed.

(** Weakly sorted: no key is above a later one. *)
Definition weakly_sorted {A} (l : list (list byte * A)) : Prop :=
  StronglySorted (fun a b => compare_canonical_keys a.1 b.1 <> Gt) l.

Lemma key_le_trans a b c : compare_canonical_keys a b <> Gt -> compare_canonical_keys b c <> Gt ->
  compare_canonical_keys a c <> Gt.
Proof.
  intros Hab Hbc. destruct (compare_canonical_keys a b) eqn:E1; [| |done].
  - apply compare_keys_eq in E1 as ->. done.
  - destruct (compare_canonical_keys b c) eqn:E2; [| |done].
    + apply compare_keys_eq in E2 as <-. congruence.
    + rewrite (compare_keys_trans a b c); done.
Qed.

Lemma insert_by_key_sorted {A} (e : list byte * A) l :
  weakly_sorted l -> weakly_sorted (insert_by_key e l).
Proof.
  induction 1 as [|x l Hl IH Hx]; cbn; [repeat constructor|].
  destruct (compare_canonical_keys e.1 x.1) eqn:E.
  - constructor; [constructor; done|]. constructor; [congruence|].
    eapply Forall_impl; [|exact Hx]. intros y Hy. apply key_le_trans with x.1; [congruence | done].
  - constructor; [constructor; done|]. constructor; [congruence|].
    eapply Forall_impl; [|exact Hx]. intros y Hy. apply key_le_trans with x.1; [congruence | done].
  - constructor; [done|]. rewrite insert_by_key_perm. constructor; [|done].
    apply key_gt_lt in E. unfold key_lt in E. congruence.
Qed.

Lemma sort_by_key_sorted {A} (l : list (list byte * A)) : weakly_sorted (sort_by_key l).
Proof. induction l; cbn; [constructor | apply insert_by_key_sorted; done]. Qed.

Lemma has_duplicate_key_sorted {A} (l : list (list byte * A)) :
  weakly_sorted l -> has_duplicate_key l = false -> strictly_sorted l.
Proof.
  induction 1 as [|x l Hl IH Hx]; [constructor|].
  destruct l as [|y l]; [intros; repeat constructor|].
  cbn [has_duplicate_key]. intros [Hd Hr]%orb_false_iff. apply bool_decide_eq_false in Hd.
  assert (Hxy : key_lt x.1 y.1).
  { inversion_clear Hx. unfold key_lt. destruct (compare_canonical_keys x.1 y.1) eqn:E; [|done..].
    apply compare_keys_eq in E. done. }
  specialize (IH Hr). constructor; [exact IH|]. constructor; [exact Hxy|].
  inversion_clear IH. eapply Forall_impl; [|eassumption]. intros z Hz.
  eapply compare_keys_trans; [exact Hxy | exact Hz].
Qed.

Lemma strictly_sorted_no_duplicate {A} (l : list (list byte * A)) :
  strictly_sorted l -> has_duplicate_key l = false.
Proof.
  induction 1 as [|x l Hl IH Hx]; [done|]. destruct l as [|y l]; [done|].
  cbn [has_duplicate_key]. apply orb_false_iff. split; [|exact IH].
  apply bool_decide_eq_false. intros E. inversion_clear Hx.
  unfold key_lt in H. rewrite (proj2 (compare_keys_eq _ _) E) in H. done.
Qed.

(** A strictly sorted list is what [sort_by] returns unchanged. *)
Lemma sort_by_key_id {A} (l : list (list byte * A)) : strictly_sorted l -> sort_by_key l = l.
Proof.
  induction 1 as [|x l Hl IH Hx]; cbn; [done|]. rewrite IH.
  destruct l as [|y l]; [done|]. cbn. inversion_clear Hx. unfold key_lt in H. rewrite H. done.
Qed.

(** Sorting looks at the keys alone. *)
Lemma sort_by_key_map {A B} (f : A -> B) (l : list (list byte * A)) :
  sort_by_key (map (fun e => (e.1, f e.2)) l) = map (fun e => (e.1, f e.2)) (sort_by_key l).
Proof.
  induction l as [|x l IH]; cbn; [done|]. rewrite IH. clear IH.
  induction (sort_by_key l) as [|y k IH]; cbn; [done|].
  destruct (compare_canonical_keys x.1 y.1); cbn; [done..|]. rewrite IH. done.
Qed.

(** ** Floats *)

Lemma f64_is_nan_eqb a b : f64_eqb a b = true -> f64_is_nan a = false /\ f64_is_nan b = false.
Proof. unfold f64_eqb. intros H. bool_hyps. done. Qed.

Lemma round_trips_zero : value_round_trips_as_f16 0 = Some 0.
Proof. reflexivity. Qed.

Lemma f32_widen_nan v : is_u32 v -> f32_is_nan v = true -> f64_is_nan (f32_to_f64 v) = true.
Proof.
  intros Hv. destruct (f32_unpack v Hv) as (s & e & m & -> & He & Hm). clear Hv.
  unfold f32_is_nan, f32_to_f64. destruct (f32_fields s e m) as (-> & -> & ->); [done..|].
  intros H. bool_hyps. subst e. change (255 =? 255)%Z with true. cbv iota.
  destruct (Z.eqb_spec m 0); [done|].
  assert (Hl : 0 <= Z.lor (2 ^ 51) (m * 2 ^ 29) < 2 ^ 52) by (apply lor_range; pow_consts; lia).
  rewrite pack64_eq. unfold f64_is_nan.
  destruct (f64_fields s 2047 (Z.lor (2 ^ 51) (m * 2 ^ 29))) as (-> & -> & _); [lia | done |].
  cbn [Z.eqb Pos.eqb andb]. apply negb_true_iff, Z.eqb_neq. intros [E _]%Z.lor_eq_0_iff. done.
Qed.

Lemma f32_widen_neg_zero v : is_u32 v -> f32_is_neg_zero v = true -> f64_is_neg_zero (f32_to_f64 v) = true.
Proof.
  intros Hv. destruct (f32_unpack v Hv) as (s & e & m & -> & He & Hm). clear Hv.
  unfold f32_is_neg_zero, f32_is_zero. destruct (f32_fields s e m) as (-> & -> & ->); [done..|].
  intros H. bool_hyps. subst. reflexivity.
Qed.

(** The decoder reads back the float the encoder wrote, at the width it chose. *)
Lemma decode_minimal_float n value rest :
  is_u64 value -> f64_is_nan value = false -> f64_is_neg_zero value = false ->
  decode_value (S n) (encode_minimal_float value ++ rest) = Ok (CFloat value, rest).
Proof.
  intros Hv Hnan Hnz.
  destruct (decide (value = 0)) as [->|H0].
  { unfold encode_minimal_float. rewrite round_trips_zero. reflexivity. }
  pose proof (f64_nonzero value Hv Hnz H0) as Hz.
  unfold encode_minimal_float. destruct (value_round_trips_as_f16 value) as [h|] eqn:Eh.
  { unfold value_round_trips_as_f16 in Eh. run_match Eh.
    pose proof (f32_bits_to_f16_range (f64_to_f32 value)).
    change (decode_f16 (to_be_bytes 2 (f32_bits_to_f16 (f64_to_f32 value)) ++ rest) = Ok (CFloat value, rest)).
    unfold decode_f16. rewrite take_be_app by (simpl; lia).
    rewrite (f64_eqb_bits _ _ Heqb0 Hz), Hnan, Hnz. done. }
  unfold value_round_trips_as_f16 in Eh.
  destruct (f64_eqb (f32_to_f64 (f64_to_f32 value)) value) eqn:E32; cbn [negb] in Eh.
  - run_match Eh. pose proof (f64_to_f32_range value) as Hr.
    change (decode_f32 (to_be_bytes 4 (f64_to_f32 value) ++ rest) = Ok (CFloat value, rest)).
    unfold decode_f32. rewrite take_be_app by (widths; simpl; lia).
    pose proof (f64_eqb_bits _ _ E32 Hz) as Hw.
    destruct (f32_is_nan (f64_to_f32 value)) eqn:En.
    { apply f32_widen_nan in En; [congruence | done]. }
    destruct (f32_is_neg_zero (f64_to_f32 value)) eqn:Ez.
    { apply f32_widen_neg_zero in Ez; [congruence | done]. }
    rewrite Hw, Heqb. done.
  - change (decode_f64 (to_be_bytes 8 value ++ rest) = Ok (CFloat value, rest)).
    unfold decode_f64. rewrite take_be_app by (widths; simpl; lia).
    rewrite Hnan, Hnz, E32. done.
Qed.

(** A float value that may appear in a canonical encoding. *)
Definition canonical_float (f : Z) : Prop :=
  is_u64 f /\ f64_is_nan f = false /\ f64_is_neg_zero f = false.

Lemma decode_f16_inv rest v rest' : decode_f16 rest = Ok (v, rest') ->
  exists f, v = CFloat f /\ canonical_float f /\ xf9 :: rest = encode_minimal_float f ++ rest'.
Proof.
  unfold decode_f16. intros H. run_match H. apply take_be_inv in Heqr as [-> Hb].
  change (256 ^ Z.of_nat 2) with 65536 in Hb.
  eexists. split; [done|]. split; [split_and!; [apply f16_bits_to_f64_range; lia | done..]|].
  destruct (f16_round_trip z Hb Heqb) as [H16 H32].
  unfold encode_minimal_float, value_round_trips_as_f16.
  rewrite H32, H16, (f64_eqb_refl _ Heqb). done.
Qed.

Lemma f32_widen_class v : is_u32 v -> f32_is_nan v = false -> f32_is_neg_zero v = false ->
  f64_is_nan (f32_to_f64 v) = false /\ f64_is_neg_zero (f32_to_f64 v) = false.
Proof.
  intros Hv. destruct (f32_unpack v Hv) as (s & e & m & -> & He & Hm). clear Hv.
  unfold f32_is_nan, f32_is_neg_zero, f32_is_zero, f32_to_f64.
  destruct (f32_fields s e m) as (-> & -> & ->); [done..|].
  destruct (Z.eqb_spec e 255) as [->|]; cbn [andb].
  { intros H. apply negb_false_iff in H. rewrite H. intros _. destruct s; split; reflexivity. }
  intros _. destruct (Z.eqb_spec e 0) as [->|].
  - destruct (Z.eqb_spec m 0) as [->|]; [destruct s; done|]. intros _.
    destruct (align_range m 23) as (Hk & _ & _); [lia|].
    destruct (align_range m 52) as (_ & Hr & _); [pow_consts; lia|].
    rewrite pack64_eq. unfold f64_is_nan, f64_is_neg_zero, f64_eqb, f64_is_zero.
    edestruct (f64_fields s) as (-> & -> & ->); [|exact Hr|]; [lia|].
    destruct (Z.eqb_spec (Z.log2 m + 874) 2047); [lia|]. split; [done|].
    destruct (Z.eqb_spec (Z.log2 m + 874) 0); [lia|]. cbn [andb negb].
    destruct s; [|done]. rewrite andb_true_l. apply andb_false_iff. right.
    rewrite orb_false_r. apply Z.eqb_neq. unfold pack64. pow_consts. lia.
  - intros _. rewrite pack64_eq. unfold f64_is_nan, f64_is_neg_zero, f64_eqb, f64_is_zero.
    edestruct (f64_fields s (e + 896) (m * 2 ^ 29)) as (-> & -> & ->); [lia | pow_consts; lia |].
    destruct (Z.eqb_spec (e + 896) 2047); [lia|]. split; [done|].
    destruct (Z.eqb_spec (e + 896) 0); [lia|]. cbn [andb negb].
    destruct s; [|done]. rewrite andb_true_l. apply andb_false_iff. right.
    rewrite orb_false_r. apply Z.eqb_neq. unfold pack64. pow_consts. lia.
Qed.

Lemma decode_f32_inv rest v rest' : decode_f32 rest = Ok (v, rest') ->
  exists f, v = CFloat f /\ canonical_float f /\ xfa :: rest = encode_minimal_float f ++ rest'.
Proof.
  unfold decode_f32. intros H. run_match H. apply take_be_inv in Heqr as [-> Hb].
  change (256 ^ Z.of_nat 4) with 4294967296 in Hb.
  assert (Hu : is_u32 z) by (widths; lia).
  destruct (f32_widen_class z Hu Heqb Heqb0) as [Hn Hz].
  eexists. split; [done|]. split; [split_and!; [apply f32_to_f64_range | done..]|].
  unfold encode_minimal_float, value_round_trips_as_f16.
  rewrite f32_narrow_widen, (f64_eqb_refl _ Hn), Heqb1 by done. done.
Qed.

Lemma decode_f64_inv rest v rest' : decode_f64 rest = Ok (v, rest') ->
  exists f, v = CFloat f /\ canonical_float f /\ xfb :: rest = encode_minimal_float f ++ rest'.
Proof.
  unfold decode_f64. intros H. run_match H. apply take_be_inv in Heqr as [-> Hb].
  change (256 ^ Z.of_nat 8) with 18446744073709551616 in Hb.
  eexists. split; [done|]. split; [split_and!; [widths; lia | done..]|].
  unfold encode_minimal_float, value_round_trips_as_f16. rewrite Heqb1. done.
Qed.

(** ** Representable values, nesting depth, canonical map order *)

Definition u64b (v : Z) : bool := (0 <=? v)%Z && (v <=? u64_max)%Z.

Lemma u64b_spec v : u64b v = true <-> is_u64 v.
Proof. unfold u64b. widths. rewrite andb_true_iff, !Z.leb_le. done. Qed.

(** What the Rust types guarantee: integers, lengths and float bits fit [u64], text is UTF-8. *)
Fixpoint cbor_wf (v : CborValue) : bool :=
  match v with
  | CUnsigned val | CNegative val => u64b val
  | CBytes b => u64b (Z.of_nat (length b))
  | CText s => from_utf8 s && u64b (Z.of_nat (length s))
  | CArray items => u64b (Z.of_nat (length items)) && forallb cbor_wf items
  | CMap entries =>
      u64b (Z.of_nat (length entries)) && forallb (fun e => cbor_wf e.1 && cbor_wf e.2) entries
  | CTag t inner => u64b t && cbor_wf inner
  | CFloat f => u64b f
  | CBool _ | CNull => true
  end.

Definition max_over {A} (f : A -> nat) (l : list A) : nat := foldr (fun x acc => f x `max` acc)%nat O l.

(** Nesting depth: the length of the longest chain of values inside values. *)
Fixpoint cbor_depth (v : CborValue) : nat :=
  match v with
  | CArray items => max_over (fun x => S (cbor_depth x)) items
  | CMap entries => max_over (fun e => S (cbor_depth e.1 `max` cbor_depth e.2))%nat entries
  | CTag _ inner => S (cbor_depth inner)
  | _ => O
  end.

Definition encoded_or_nil (v : CborValue) : list byte :=
  match try_encode v with Ok b => b | Err _ => [] end.

(** Every map put in canonical key order. *)
Fixpoint canon (v : CborValue) : CborValue :=
  match v with
  | CArray items => CArray (map canon items)
  | CMap entries =>
      CMap (map snd (sort_by_key (map (fun '(k, x) => (encoded_or_nil k, (canon k, canon x))) entries)))
  | CTag t inner => CTag t (canon inner)
  | v => v
  end.

Lemma max_over_le {A} (f : A -> nat) l n : (max_over f l <= n)%nat -> Forall (fun x => (f x <= n)%nat) l.
Proof.
  induction l as [|x l IH]; [constructor|].
  change (max_over f (x :: l)) with (f x `max` max_over f l)%nat.
  intros H. constructor; [lia | apply IH; lia].
Qed.

(** ** Encoding: shape of the output *)

Lemma traverse_Forall2 {A B E} (f : A -> result E B) l k :
  traverse f l = Ok k -> Forall2 (fun x y => f x = Ok y) l k.
Proof.
  revert k; induction l as [|x l IH]; intros k H; cbn in H.
  - simplify_eq. constructor.
  - run_match H. constructor; [done | apply IH; done].
Qed.

Lemma Forall2_traverse {A B E} (f : A -> result E B) l k :
  Forall2 (fun x y => f x = Ok y) l k -> traverse f l = Ok k.
Proof. induction 1 as [|x y l k Hx _ IH]; cbn; [done|]. rewrite Hx, IH. done. Qed.

Lemma encode_minimal_float_nonempty v : (1 <= length (encode_minimal_float v))%nat.
Proof. unfold encode_minimal_float. repeat case_split; simpl; lia. Qed.

Lemma try_encode_nonempty v b : try_encode v = Ok b -> (1 <= length b)%nat.
Proof.
  destruct v; cbn [try_encode]; intros H; run_match H;
    unfold unsigned, cbytes, text, array, cmap, ctag;
    rewrite ?length_app; try apply major_nonempty; try apply encode_minimal_float_nonempty;
    try (cbn; lia);
    match goal with |- context [major ?k ?x] => pose proof (major_nonempty k x) end; lia.
Qed.

Lemma length_concat_ge {A} (l : list (list A)) :
  Forall (fun b => (1 <= length b)%nat) l -> (length l <= length (concat l))%nat.
Proof. induction 1; cbn; [lia|]. rewrite length_app. lia. Qed.

(** ** The decoder inverts the encoder *)

Definition decodes (n : nat) (v : CborValue) (b : list byte) : Prop :=
  forall rest, decode_value n (b ++ rest) = Ok (canon v, rest).

Lemma read_n_decodes n items bodies rest :
  Forall2 (decodes n) items bodies ->
  read_n (decode_value n) (length items) (concat bodies ++ rest) = Ok (map canon items, rest).
Proof.
  induction 1 as [|x b items bodies Hx _ IH]; cbn; [done|].
  rewrite <- app_assoc, Hx, IH. done.
Qed.

(** An entry with its key bytes, value bytes and canonical key and value. *)
Abbreviation annotated := (list byte * (list byte * (CborValue * CborValue)))%type.

Definition entry_decodes (n : nat) (e : annotated) : Prop :=
  forall rest, decode_value n (e.1 ++ rest) = Ok (e.2.2.1, rest)
    /\ decode_value n (e.2.1 ++ rest) = Ok (e.2.2.2, rest).

Lemma read_entries_decodes n (l : list annotated) prev rest :
  Forall (entry_decodes n) l -> strictly_sorted l ->
  Forall (fun e => match prev with Some p => key_lt p e.1 | None => True end) (take 1 l) ->
  read_entries (decode_value n) (length l) prev (concat (map (fun e => e.1 ++ e.2.1) l) ++ rest)
  = Ok (map (fun e => e.2.2) l, rest).
Proof.
  intros Hd Hs. revert prev. induction Hs as [|e l Hs IH Hlt]; intros prev Hp; [done|].
  inversion_clear Hd as [|? ? He Hd']. cbn [map concat length read_entries].
  rewrite <- !app_assoc. rewrite (proj1 (He _)), take_app_consumed.
  assert (check_key_order prev e.1 = Ok tt) as ->.
  { cbn [take] in Hp. inversion_clear Hp. destruct prev as [p|]; [|done]. cbn. rewrite H. done. }
  rewrite (proj2 (He _)). rewrite (IH Hd').
  - destruct e as (kb & vb & k & v). done.
  - destruct Hlt as [|y l Hy _]; [constructor|]. cbn. repeat constructor. exact Hy.
Qed.

Lemma strictly_sorted_map {A B} (f : A -> B) (l : list (list byte * A)) :
  strictly_sorted (map (fun e => (e.1, f e.2)) l) -> strictly_sorted l.
Proof.
  unfold strictly_sorted. induction l as [|x l IH]; cbn; intros H; [constructor|].
  inversion_clear H as [|? ? Hl Hx]. constructor; [apply IH; done|].
  rewrite List.Forall_map in Hx. exact Hx.
Qed.

Section EncodedEntries.
Context (n : nat) (entries : list (CborValue * CborValue)).

Definition annotate (e : CborValue * CborValue) : annotated :=
  (encoded_or_nil e.1, (encoded_or_nil e.2, (canon e.1, canon e.2))).

Lemma encoded_annotated encoded :
  traverse (fun '(key, val) =>
      let? key_bytes := try_encode key in
      let? val_bytes := try_encode val in Ok (key_bytes, val_bytes)) entries = Ok encoded ->
  encoded = map (fun e => (e.1, e.2.1)) (map annotate entries)
  /\ Forall (fun e => try_encode e.1 = Ok (encoded_or_nil e.1)
                     /\ try_encode e.2 = Ok (encoded_or_nil e.2)) entries.
Proof.
  intros H%traverse_Forall2. induction H as [|[k v] y l ys Hy _ [-> IH]]; [repeat constructor|].
  run_match Hy. unfold annotate, encoded_or_nil. cbn. rewrite Heqr, Heqr0.
  split; [done|]. constructor; [cbn; rewrite Heqr, Heqr0; done | exact IH].
Qed.
End EncodedEntries.

Lemma canon_entries entries :
  map snd (sort_by_key (map (fun '(k, x) => (encoded_or_nil k, (canon k, canon x))) entries))
  = map (fun e => e.2.2) (sort_by_key (map annotate entries)).
Proof.
  replace (map (fun '(k, x) => (encoded_or_nil k, (canon k, canon x))) entries)
    with (map (fun e : annotated => (e.1, snd e.2)) (map annotate entries)).
  - rewrite sort_by_key_map, map_map. done.
  - rewrite map_map. apply map_ext. intros [k v]. done.
Qed.

(** One step of the decoder on a head of major type other than 7. *)
Lemma decode_value_head n k v rest : 0 <= k < 7 -> is_u64 v ->
  decode_value (S n) (major k v ++ rest) =
  if (k =? 0)%Z then Ok (CUnsigned v, rest)
  else if (k =? 1)%Z then Ok (CNegative v, rest)
  else if (k =? 2)%Z then
    if (Z.of_nat (length rest) <? v)%Z then Err LengthOverflow
    else Ok (CBytes (take (Z.to_nat v) rest), drop (Z.to_nat v) rest)
  else if (k =? 3)%Z then
    if (Z.of_nat (length rest) <? v)%Z then Err LengthOverflow
    else if negb (from_utf8 (take (Z.to_nat v) rest)) then Err InvalidUtf8
    else Ok (CText (take (Z.to_nat v) rest), drop (Z.to_nat v) rest)
  else if (k =? 4)%Z then
    if (Z.of_nat (length rest) <? v)%Z then Err LengthOverflow
    else let? '(items, rest3) := read_n (decode_value n) (Z.to_nat v) rest in
         Ok (CArray items, rest3)
  else if (k =? 5)%Z then
    if (Z.of_nat (length rest) <? v)%Z then Err LengthOverflow
    else let? '(entries, rest3) := read_entries (decode_value n) (Z.to_nat v) None rest in
         Ok (CMap entries, rest3)
  else if negb (tag_allowed v) then Err (UnknownTag v)
  else let? '(inner, rest3) := decode_value n rest in Ok (CTag v inner, rest3).
Proof.
  intros Hk Hv. pose proof (decode_header_major k v rest ltac:(lia) Hv) as Hh.
  destruct (major k v ++ rest) as [|b l] eqn:E; [discriminate Hh|].
  cbn [decode_value]. rewrite Hh.
  assert (Hm : Z.shiftr (b2z b) 5 = k).
  { unfold decode_header in Hh. run_match Hh. done. }
  rewrite Hm. destruct (Z.eqb_spec k 7); [lia|].
  destruct (Z.eqb_spec k 6); [done|].
  assert (k = 0 \/ k = 1 \/ k = 2 \/ k = 3 \/ k = 4 \/ k = 5) as Hc by lia.
  destruct Hc as [->|[->|[->|[->|[->| ->]]]]]; done.
Qed.

Lemma not_overflow (n : nat) (rest : list byte) : (n <= length rest)%nat ->
  (Z.of_nat (length rest) <? Z.of_nat n)%Z = false.
Proof. intros. apply Z.ltb_ge. lia. Qed.

Lemma Forall2_decodes n items bodies :
  Forall (fun v => cbor_wf v = true -> forall n b, (cbor_depth v <= n)%nat ->
            try_encode v = Ok b -> decodes (S n) v b) items ->
  forallb cbor_wf items = true -> (max_over (fun x => S (cbor_depth x)) items <= n)%nat ->
  Forall2 (fun x y => try_encode x = Ok y) items bodies -> Forall2 (decodes n) items bodies.
Proof.
  intros IH Hwf Hd%max_over_le H2. rewrite forallb_forall in Hwf.
  rewrite Forall_forall in IH, Hd.
  revert IH Hwf Hd. induction H2 as [|x y items bodies Hx _ IH2]; intros; constructor.
  - assert (Hx' : (S (cbor_depth x) <= n)%nat) by (apply Hd; left; done).
    destruct n as [|n]; [lia|]. apply IH; [left; done | apply Hwf; left; done | lia | done].
  - apply IH2; intros; [apply IH | apply Hwf | apply Hd]; auto; right; done.
Qed.

Lemma entries_decode n entries encoded :
  Forall (fun e =>
    (cbor_wf e.1 = true -> forall n b, (cbor_depth e.1 <= n)%nat ->
       try_encode e.1 = Ok b -> decodes (S n) e.1 b)
    /\ (cbor_wf e.2 = true -> forall n b, (cbor_depth e.2 <= n)%nat ->
       try_encode e.2 = Ok b -> decodes (S n) e.2 b)) entries ->
  forallb (fun e => cbor_wf e.1 && cbor_wf e.2) entries = true ->
  (max_over (fun e => S (cbor_depth e.1 `max` cbor_depth e.2)) entries <= n)%nat ->
  Forall (fun e => try_encode e.1 = Ok (encoded_or_nil e.1)
                   /\ try_encode e.2 = Ok (encoded_or_nil e.2)) entries ->
  encoded = map (fun e => (e.1, e.2.1)) (map annotate entries) ->
  Forall (entry_decodes n) (map annotate entries)
  /\ (length entries <= length (concat (map (fun e => e.1 ++ e.2.1) (sort_by_key (map annotate entries)))))%nat.
Proof.
  intros IH Hwf Hd%max_over_le He Henc. rewrite forallb_forall in Hwf.
  rewrite Forall_forall in IH, Hd, He. split.
  - apply List.Forall_map, Forall_forall. intros e Hin. destruct (IH e Hin) as [IHk IHv].
    destruct (He e Hin) as [Ek Ev]. specialize (Hd e Hin). specialize (Hwf e Hin).
    destruct n as [|n]; [cbn in Hd; lia|]. cbn in Hd.
    apply andb_true_iff in Hwf as [Wk Wv]. unfold entry_decodes, annotate. cbn.
    split; [apply (IHk Wk n _ ltac:(lia) Ek) | apply (IHv Wv n _ ltac:(lia) Ev)].
  - replace (length entries) with (length (map (fun e : annotated => e.1 ++ e.2.1) (sort_by_key (map annotate entries))))
      by (rewrite length_map, length_sort_by_key, length_map; done).
    apply length_concat_ge, List.Forall_map. rewrite sort_by_key_perm. apply List.Forall_map, Forall_forall.
    intros e Hin. destruct (He e Hin) as [Ek _]. apply try_encode_nonempty in Ek.
    unfold annotate; cbn. rewrite length_app. lia.
Qed.

(** Reading a representable value of bounded depth back gives it with its maps in
    canonical order, and leaves what follows untouched. *)
Lemma decode_encode v : cbor_wf v = true -> forall n b, (cbor_depth v <= n)%nat ->
  try_encode v = Ok b -> decodes (S n) v b.
Proof.
  induction v as [z|z|bs|bs|items IH|entries IH|t v IH|b0| |f] using CborValue_rect_nested;
    cbn [cbor_wf cbor_depth try_encode canon]; intros Hwf n b Hn He rest; bool_hyps;
    repeat match goal with H : u64b _ = true |- _ => apply u64b_spec in H end.
  - simplify_eq. apply decode_value_head; [lia | done].
  - simplify_eq. apply decode_value_head; [lia | done].
  - simplify_eq. unfold cbytes. rewrite <- app_assoc, decode_value_head by done. cbn [Z.eqb Pos.eqb].
    rewrite not_overflow by (rewrite length_app; lia).
    rewrite Nat2Z.id, take_app_prefix, drop_app_prefix. done.
  - simplify_eq. unfold text. rewrite <- app_assoc, decode_value_head by done. cbn [Z.eqb Pos.eqb].
    rewrite not_overflow by (rewrite length_app; lia).
    rewrite Nat2Z.id, take_app_prefix, drop_app_prefix, H. done.
  - run_match He. apply traverse_Forall2 in Heqr.
    assert (Hb : (length items <= length (concat a))%nat).
    { replace (length items) with (length a) by (symmetry; eapply Forall2_length; exact Heqr).
      apply length_concat_ge.
      clear -Heqr. induction Heqr; constructor; [eapply try_encode_nonempty; eassumption | done]. }
    unfold array. rewrite <- app_assoc, decode_value_head by done. cbn [Z.eqb Pos.eqb].
    rewrite not_overflow by (rewrite length_app; lia). rewrite Nat2Z.id, read_n_decodes; [done|].
    apply Forall2_decodes; auto.
  - run_match He. destruct (encoded_annotated _ _ Heqr) as [-> Hk].
    destruct (entries_decode n entries _ IH H0 Hn Hk eq_refl) as [Hdec Hlen].
    rewrite (sort_by_key_map fst) in Heqb0 |- *. rewrite map_map. cbn [fst snd].
    cbn [canon]. rewrite canon_entries. unfold cmap. rewrite length_map, length_sort_by_key, length_map.
    rewrite <- app_assoc, decode_value_head by done. cbn [Z.eqb Pos.eqb].
    rewrite not_overflow by (rewrite length_app; lia). rewrite Nat2Z.id.
    rewrite <- (length_map annotate entries), <- (length_sort_by_key (map annotate entries)).
    rewrite read_entries_decodes; [done | | |].
    + rewrite sort_by_key_perm. exact Hdec.
    + apply (strictly_sorted_map fst), has_duplicate_key_sorted; [|exact Heqb0].
      rewrite <- (sort_by_key_map fst). apply sort_by_key_sorted.
    + apply Forall_forall. done.
  - (* no tag is on the allowlist *) run_match He.
  - simplify_eq. destruct b0; reflexivity.
  - simplify_eq. reflexivity.
  - run_match He. apply decode_minimal_float; done.
Qed.

(** ** The decoder accepts only what the encoder emits *)

(** [v] is in canonical form and [b] is its encoding. *)
Definition canonical_at (n : nat) (v : CborValue) (b : list byte) : Prop :=
  try_encode v = Ok b /\ cbor_wf v = true /\ (cbor_depth v < n)%nat /\ canon v = v.

Definition inverts (f : list byte -> result CborError (CborValue * list byte)) (n : nat) : Prop :=
  forall input v rest, (Z.of_nat (length input) <= u64_max)%Z -> f input = Ok (v, rest) ->
  exists b, input = b ++ rest /\ canonical_at n v b.

Lemma read_n_inv f n : inverts f n -> forall k input items rest,
  (Z.of_nat (length input) <= u64_max)%Z -> read_n f k input = Ok (items, rest) ->
  exists bodies, input = concat bodies ++ rest /\ Forall2 (canonical_at n) items bodies /\ length items = k.
Proof.
  intros Hf. induction k as [|k IH]; intros input items rest Hl H; cbn in H.
  - simplify_eq. exists []. split_and!; [done | constructor | done].
  - run_match H. destruct (Hf _ _ _ Hl Heqr) as (b & -> & Hb).
    rewrite length_app in Hl. apply IH in Heqr0 as (bs & -> & Hbs & Hk); [|lia].
    exists (b :: bs). cbn. rewrite app_assoc. split_and!; [done | constructor; done | lia].
Qed.

Lemma read_entries_inv f n : inverts f n -> forall k prev input entries rest,
  (Z.of_nat (length input) <= u64_max)%Z -> read_entries f k prev input = Ok (entries, rest) ->
  exists encoded, input = concat (map (fun e => e.1 ++ e.2) encoded) ++ rest
    /\ Forall2 (fun e b => canonical_at n e.1 b.1 /\ canonical_at n e.2 b.2) entries encoded
    /\ strictly_sorted encoded /\ length entries = k
    /\ match prev with Some p => Forall (fun e => key_lt p e.1) encoded | None => True end.
Proof.
  intros Hf. induction k as [|k IH]; intros prev input entries rest Hl H; cbn [read_entries] in H.
  - simplify_eq. exists []. split_and!; try constructor. destruct prev; [constructor | done].
  - run_match H. destruct (Hf _ _ _ Hl Heqr) as (kb & -> & Hkb).
    rewrite take_app_consumed in Heqr0, Heqr2. rewrite length_app in Hl.
    apply Hf in Heqr1 as (vb & -> & Hvb); [|lia]. rewrite length_app in Hl.
    apply IH in Heqr2 as (enc & -> & Henc & Hs & Hk & Hp); [|lia].
    exists ((kb, vb) :: enc). cbn [map concat fst snd]. rewrite <- !app_assoc.
    split_and!; [done | constructor; done | constructor; done | cbn; lia |].
    destruct prev as [p|]; [|done]. cbn in Heqr0.
    destruct (compare_canonical_keys p kb) eqn:E; try discriminate Heqr0.
    constructor; [exact E|]. eapply Forall_impl; [|exact Hp].
    intros e He. eapply compare_keys_trans; [exact E | exact He].
Qed.

Lemma decode_simple_inv n b rest v rest' : Z.shiftr (b2z b) 5 = 7 ->
  decode_simple b rest = Ok (v, rest') ->
  exists bs, b :: rest = bs ++ rest' /\ canonical_at (S n) v bs.
Proof.
  intros H7 H. unfold decode_simple in H. destruct (head_byte_inv b) as (Hb & _ & _).
  rewrite H7 in Hb. unfold canonical_at.
  destruct (Z.eqb_spec (Z.land (b2z b) 31) 20) as [E|_].
  { rewrite Hb, E. simplify_eq. exists [xf4]. split_and!; cbn; (done || lia). }
  destruct (Z.eqb_spec (Z.land (b2z b) 31) 21) as [E|_].
  { rewrite Hb, E. simplify_eq. exists [xf5]. split_and!; cbn; (done || lia). }
  destruct (Z.eqb_spec (Z.land (b2z b) 31) 22) as [E|_].
  { rewrite Hb, E. simplify_eq. exists [xf6]. split_and!; cbn; (done || lia). }
  assert (Hf : forall f, canonical_float f ->
      try_encode (CFloat f) = Ok (encode_minimal_float f) /\ cbor_wf (CFloat f) = true
      /\ (cbor_depth (CFloat f) < S n)%nat /\ canon (CFloat f) = CFloat f).
  { intros f (Hu & Hn & Hz). cbn. rewrite Hn, Hz. split_and!; [done | apply u64b_spec; done | lia | done]. }
  destruct (Z.eqb_spec (Z.land (b2z b) 31) 25) as [E|_].
  { rewrite Hb, E. destruct (decode_f16_inv _ _ _ H) as (f & -> & Hc & He). eauto. }
  destruct (Z.eqb_spec (Z.land (b2z b) 31) 26) as [E|_].
  { rewrite Hb, E. destruct (decode_f32_inv _ _ _ H) as (f & -> & Hc & He). eauto. }
  destruct (Z.eqb_spec (Z.land (b2z b) 31) 27) as [E|_].
  { rewrite Hb, E. destruct (decode_f64_inv _ _ _ H) as (f & -> & Hc & He). eauto. }
  run_match H.
Qed.

Lemma max_over_lt {A} (f : A -> nat) l n : Forall (fun x => (f x < S n)%nat) l -> (max_over f l < S n)%nat.
Proof.
  induction 1 as [|x l Hx _ IH]; [cbn; lia|].
  change (max_over f (x :: l)) with (f x `max` max_over f l)%nat. lia.
Qed.

Lemma canonical_items n items bodies : Forall2 (canonical_at n) items bodies ->
  traverse try_encode items = Ok bodies /\ forallb cbor_wf items = true
  /\ Forall (fun x => (cbor_depth x < n)%nat) items /\ map canon items = items.
Proof.
  induction 1 as [|x b items bodies (He & Hw & Hd & Hc) _ (IH1 & IH2 & IH3 & IH4)]; [done|].
  cbn. rewrite He, IH1, Hw, IH2, Hc, IH4. split_and!; [done | done | constructor; done | done].
Qed.

Lemma canonical_entries n entries encoded :
  Forall2 (fun e b => canonical_at n e.1 b.1 /\ canonical_at n e.2 b.2) entries encoded ->
  traverse (fun '(key, val) =>
      let? key_bytes := try_encode key in
      let? val_bytes := try_encode val in Ok (key_bytes, val_bytes)) entries = Ok encoded
  /\ forallb (fun e => cbor_wf e.1 && cbor_wf e.2) entries = true
  /\ Forall (fun e => (cbor_depth e.1 `max` cbor_depth e.2 < n)%nat) entries
  /\ map (fun '(k, x) => (encoded_or_nil k, (canon k, canon x))) entries
     = map (fun be => (be.1.1, be.2)) (zip encoded entries).
Proof.
  induction 1 as [|[k v] [kb vb] entries encoded [(Ek & Wk & Dk & Ck) (Ev & Wv & Dv & Cv)] _
                   (IH1 & IH2 & IH3 & IH4)]; [done|].
  cbn in *. rewrite Ek, Ev, IH1, Wk, Wv, IH2, Ck, Cv, IH4. unfold encoded_or_nil. rewrite Ek.
  split_and!; [done | done | constructor; [cbn; lia | done] | done].
Qed.

Lemma strictly_sorted_keys {A} (l : list (list byte * A)) :
  strictly_sorted l <-> StronglySorted key_lt (map fst l).
Proof.
  unfold strictly_sorted. induction l as [|x l IH]; cbn; [split; constructor|].
  split; intros H; inversion_clear H as [|? ? Hl Hx]; constructor; try (apply IH; done).
  - apply List.Forall_map. exact Hx.
  - rewrite List.Forall_map in Hx. exact Hx.
Qed.

Lemma zip_keys {A B} (l : list (list byte * A)) (k : list B) : length l = length k ->
  map fst (map (fun be => (be.1.1, be.2)) (zip l k)) = map fst l
  /\ map snd (map (fun be => (be.1.1, be.2)) (zip l k)) = k.
Proof.
  revert k; induction l as [|x l IH]; intros [|y k] H; cbn in *; try done.
  destruct (IH k ltac:(lia)) as [-> ->]. done.
Qed.

(** What the decoder consumes is exactly the canonical encoding of what it returns. *)
Lemma decode_value_inverts n : inverts (decode_value n) n.
Proof.
  induction n as [|n IH]; intros input v rest Hl H; [done|].
  destruct input as [|b input]; [done|]. cbn [decode_value] in H.
  destruct (Z.eqb_spec (Z.shiftr (b2z b) 5) 7) as [E7|_].
  { exact (decode_simple_inv n b input v rest E7 H). }
  destruct (decode_header (b :: input)) as [[[k val] r]|] eqn:Eh; [|done].
  apply decode_header_inv in Eh as (Hin & Hk & Hv). rewrite Hin in *. rewrite length_app in Hl.
  assert (Hu : (Z.to_nat val <= length r)%nat -> Z.of_nat (length (take (Z.to_nat val) r)) = val).
  { intros. rewrite length_take. widths. lia. }
  assert (Hval : u64b val = true) by (apply u64b_spec; done). widths.
  run_match H; bool_hyps; subst; unfold canonical_at; cbn [try_encode cbor_wf cbor_depth canon].
  - exists (unsigned val). split_and!; (done || lia).
  - exists (major 1 val). split_and!; (done || lia).
  - exists (cbytes (take (Z.to_nat val) r)). unfold cbytes. rewrite Hu by lia.
    rewrite <- app_assoc, take_drop. split_and!; (done || lia).
  - exists (text (take (Z.to_nat val) r)). unfold text. rewrite Hu by lia.
    rewrite <- app_assoc, take_drop.
    match goal with H : from_utf8 _ = true |- _ => rewrite H end. split_and!; (done || lia).
  - apply (read_n_inv _ _ IH) in Heqr0 as (bs & -> & Hbs & Hlen); [|widths; lia].
    destruct (canonical_items _ _ _ Hbs) as (-> & -> & Hd & ->).
    exists (array (length l) ++ concat bs). unfold array. rewrite Hlen, Z2Nat.id, Hval by lia.
    rewrite app_assoc. split_and!; try done. apply max_over_lt.
    eapply Forall_impl; [|exact Hd]. cbn. lia.
  - apply (read_entries_inv _ _ IH) in Heqr0 as (enc & -> & Henc & Hs & Hlen & _); [|widths; lia].
    assert (Hl2 : length l = length enc) by (eapply Forall2_length; exact Henc).
    destruct (canonical_entries _ _ _ Henc) as (-> & -> & Hd & ->).
    rewrite (sort_by_key_id _ Hs), (strictly_sorted_no_duplicate _ Hs).
    destruct (zip_keys enc l) as [Hz1 Hz2]; [done|].
    rewrite sort_by_key_id, Hz2 by (apply strictly_sorted_keys; rewrite Hz1; apply strictly_sorted_keys; done).
    eexists. unfold cmap. rewrite <- Hl2, Hlen, Z2Nat.id, Hval by lia.
    rewrite app_assoc. split_and!; try done. apply max_over_lt.
    eapply Forall_impl; [|exact Hd]. cbn. lia.
Qed.

Lemma from_to_canonical v b :
  cbor_wf v = true -> (cbor_depth v <= MAX_DEPTH)%nat -> to_canonical_bytes v = Ok b ->
  from_canonical_bytes b = Ok (canon v).
Proof.
  intros Hw Hd He. unfold from_canonical_bytes.
  pose proof (decode_encode v Hw MAX_DEPTH b Hd He []) as H.
  rewrite app_nil_r in H. rewrite H. done.
Qed.

(** ** Theorems of the codec *)

(** C1: decoding inverts encoding.  Every value the types can hold, nested at most
    [MAX_DEPTH] levels, that [CborValue::to_canonical_bytes] accepts is read back by
    [CborValue::from_canonical_bytes] as the same value with the entries of every map in
    canonical key order. *)
Theorem canonical_round_trip v b :
  cbor_wf v = true -> (cbor_depth v <= MAX_DEPTH)%nat -> to_canonical_bytes v = Ok b ->
  from_canonical_bytes b = Ok (canon v).
Proof. apply from_to_canonical. Qed.

Definition sample_value : CborValue :=
  CMap [(CUnsigned 3, CArray [CBool true; CNull; CNegative 500; CFloat 4607182418800017408]);
        (CText [x61; x62], CBytes [x01]); (CUnsigned 1, CUnsigned 70000)].

Lemma canonical_round_trip_witness :
  exists b, to_canonical_bytes sample_value = Ok b
    /\ from_canonical_bytes b = Ok (canon sample_value) /\ canon sample_value <> sample_value.
Proof.
  eexists. split; [reflexivity|]. split; [|discriminate].
  apply canonical_round_trip; [reflexivity | cbv; lia | reflexivity].
Defined.

(** C2: canonical uniqueness.  Whatever bytes [CborValue::from_canonical_bytes] accepts are
    the bytes [CborValue::to_canonical_bytes] emits for the value it returns; that value
    holds representable integers and valid text, has its maps in canonical key order and
    nests at most [MAX_DEPTH] levels.  So no value has two accepted encodings. *)
Theorem canonical_unique input v :
  (Z.of_nat (length input) <= u64_max)%Z -> from_canonical_bytes input = Ok v ->
  to_canonical_bytes v = Ok input /\ cbor_wf v = true /\ canon v = v
  /\ (cbor_depth v <= MAX_DEPTH)%nat.
Proof.
  unfold from_canonical_bytes. intros Hl H. run_match H.
  apply decode_value_inverts in Heqr as (b & -> & He & Hw & Hd & Hc); [|done].
  rewrite app_nil_r. split_and!; [done | done | done | lia].
Qed.

Lemma canonical_unique_witness :
  from_canonical_bytes [x82; x18; x2a; xf9; x3c; x00] = Ok (CArray [CUnsigned 42; CFloat 4607182418800017408])
  /\ to_canonical_bytes (CArray [CUnsigned 42; CFloat 4607182418800017408]) = Ok [x82; x18; x2a; xf9; x3c; x00].
Proof.
  split; [reflexivity|].
  apply (canonical_unique [x82; x18; x2a; xf9; x3c; x00]); [vm_compute; discriminate | reflexivity].
Defined.
