(* ===== verification/Tolerant.v ===== *)
(** * The tolerant CBOR reader

    Models [TolerantReader] of [ledger-format/src/cbor/mod.rs] and [cbor/decode.rs]: it
    accepts indefinite lengths, wide heads, duplicate keys, any float and any tag, and
    turns hostile input into errors.  The theorems show that it accepts everything the
    canonical decoder accepts, with the same value, that its loops terminate within the
    input, and that what it returns is always a representable value. *)

From S2P Require Import Prelude Machine Floats Cbor CborProofs.

Open Scope Z_scope.

(** ** Definitions *)

Record TolerantReader : Type := { max_depth : nat }.

Definition tolerant_new : TolerantReader := {| max_depth := MAX_DEPTH |}.
Definition with_max_depth (n : nat) : TolerantReader := {| max_depth := n |}.

Definition take_one (rest : list byte) : result CborError (byte * list byte) :=
  match rest with [] => Err UnexpectedEof | b :: rest => Ok (b, rest) end.

(** [read_tolerant_header]: major type, additional information, argument. *)
Definition read_tolerant_header (rest : list byte) : result CborError (Z * Z * Z * list byte) :=
  match rest with
  | [] => Err UnexpectedEof
  | initial :: rest =>
      let major := Z.shiftr (b2z initial) 5 in
      let additional := Z.land (b2z initial) 31 in
      let? '(value, rest) :=
        if (additional <=? 23)%Z then Ok (additional, rest)
        else if (additional =? 24)%Z then
          let? '(b, rest) := take_one rest in Ok (b2z b, rest)
        else if (additional =? 25)%Z then take_be 2 rest
        else if (additional =? 26)%Z then take_be 4 rest
        else if (additional =? 27)%Z then take_be 8 rest
        else if (additional <=? 30)%Z then Err (UnsupportedType (b2z initial))
        else if (additional =? 31)%Z then Ok (0, rest)
        else Err (UnsupportedType (b2z initial)) in
      Ok (major, additional, value, rest)
  end.

(** [take_bytes_span]. *)
Definition take_bytes_span (rest : list byte) (declared : Z) : result CborError (list byte * list byte) :=
  if (Z.of_nat (length rest) <? declared)%Z then Err LengthOverflow
  else Ok (take (Z.to_nat declared) rest, drop (Z.to_nat declared) rest).

(** [bounded_item_count]. *)
Definition bounded_item_count (rest : list byte) (declared min_bytes_per_item : Z) : result CborError nat :=
  if (Z.of_nat (length rest) / min_bytes_per_item <? declared)%Z then Err LengthOverflow
  else Ok (Z.to_nat declared).

Definition decode_f16_tolerant (rest : list byte) : result CborError (CborValue * list byte) :=
  let? '(bits, rest) := take_be 2 rest in Ok (CFloat (f16_bits_to_f64 bits), rest).
Definition decode_f32_tolerant (rest : list byte) : result CborError (CborValue * list byte) :=
  let? '(bits, rest) := take_be 4 rest in Ok (CFloat (f32_to_f64 bits), rest).
Definition decode_f64_tolerant (rest : list byte) : result CborError (CborValue * list byte) :=
  let? '(bits, rest) := take_be 8 rest in Ok (CFloat bits, rest).

(** The loops over an indefinite-length container: [step] reads one element, or the break
    as [None].  Every element takes at least one byte, so [fuel] above the number of unread
    bytes is never exhausted ([until_break_fuel]). *)
Fixpoint until_break {A} (step : list byte -> result CborError (option A * list byte))
    (fuel : nat) (rest : list byte) : result CborError (list A * list byte) :=
  match fuel with
  | O => Err UnexpectedEof
  | S fuel =>
      let? '(item, rest) := step rest in
      match item with
      | None => Ok ([], rest)
      | Some x =>
          let? '(xs, rest) := until_break step fuel rest in
          Ok (x :: xs, rest)
      end
  end.

(** An element that must not be a break: the [let Some(..) = .. else] of the code. *)
Definition need_some (f : list byte -> result CborError (option CborValue * list byte))
    (rest : list byte) : result CborError (CborValue * list byte) :=
  let? '(item, rest) := f rest in
  match item with
  | Some v => Ok (v, rest)
  | None => Err (UnsupportedType 255)
  end.

(** One chunk of an indefinite byte or text string. *)
Definition bytes_chunk (f : list byte -> result CborError (option CborValue * list byte))
    (rest : list byte) : result CborError (option (list byte) * list byte) :=
  let? '(item, rest) := f rest in
  match item with
  | Some (CBytes chunk) => Ok (Some chunk, rest)
  | Some _ => Err (UnsupportedType 95)
  | None => Ok (None, rest)
  end.

Definition text_chunk (f : list byte -> result CborError (option CborValue * list byte))
    (rest : list byte) : result CborError (option (list byte) * list byte) :=
  let? '(item, rest) := f rest in
  match item with
  | Some (CText chunk) => Ok (Some chunk, rest)
  | Some _ => Err (UnsupportedType 127)
  | None => Ok (None, rest)
  end.

(** One key and value of an indefinite map; only the key may be a break. *)
Definition map_step (brk elem : list byte -> result CborError (option CborValue * list byte))
    (rest : list byte) : result CborError (option (CborValue * CborValue) * list byte) :=
  let? '(key, rest) := brk rest in
  match key with
  | None => Ok (None, rest)
  | Some key =>
      let? '(value, rest) := need_some elem rest in
      Ok (Some (key, value), rest)
  end.

(** A key and a value of a definite map. *)
Definition pair_step (elem : list byte -> result CborError (option CborValue * list byte))
    (rest : list byte) : result CborError (CborValue * CborValue * list byte) :=
  let? '(key, rest) := need_some elem rest in
  let? '(val, rest) := need_some elem rest in
  Ok ((key, val), rest).

Definition some_of {E A} (r : result E (A * list byte)) : result E (option A * list byte) :=
  let? '(v, rest) := r in Ok (Some v, rest).

(** [TolerantReader::decode_item] at depth [max_depth + 1 - budget]. *)
Fixpoint decode_item (budget : nat) (break_allowed : bool) (rest : list byte) :
    result CborError (option CborValue * list byte) :=
  match budget with
  | O => Err DepthLimitExceeded
  | S budget =>
      match rest with
      | [] => Err UnexpectedEof
      | initial :: rest1 =>
          let additional := Z.land (b2z initial) 31 in
          if (Z.shiftr (b2z initial) 5 =? 7)%Z && (additional =? 31)%Z then
            if break_allowed then Ok (None, rest1) else Err (UnsupportedType (b2z initial))
          else if (Z.shiftr (b2z initial) 5 =? 7)%Z then
            if (additional =? 20)%Z then Ok (Some (CBool false), rest1)
            else if (additional =? 21)%Z then Ok (Some (CBool true), rest1)
            else if (additional =? 22)%Z then Ok (Some CNull, rest1)
            else if (additional =? 25)%Z then some_of (decode_f16_tolerant rest1)
            else if (additional =? 26)%Z then some_of (decode_f32_tolerant rest1)
            else if (additional =? 27)%Z then some_of (decode_f64_tolerant rest1)
            else Err (UnsupportedType (b2z initial))
          else
            let? '(major, additional, value, rest2) := read_tolerant_header rest in
            let indefinite := (additional =? 31)%Z in
            let fuel := S (length rest2) in
            if (major =? 0)%Z then
              if indefinite then Err (UnsupportedType (b2z initial))
              else Ok (Some (CUnsigned value), rest2)
            else if (major =? 1)%Z then
              if indefinite then Err (UnsupportedType (b2z initial))
              else Ok (Some (CNegative value), rest2)
            else if (major =? 2)%Z then
              if indefinite then
                let? '(chunks, rest3) := until_break (bytes_chunk (decode_item budget true)) fuel rest2 in
                Ok (Some (CBytes (concat chunks)), rest3)
              else
                let? '(span, rest3) := take_bytes_span rest2 value in
                Ok (Some (CBytes span), rest3)
            else if (major =? 3)%Z then
              if indefinite then
                let? '(chunks, rest3) := until_break (text_chunk (decode_item budget true)) fuel rest2 in
                Ok (Some (CText (concat chunks)), rest3)
              else
                let? '(span, rest3) := take_bytes_span rest2 value in
                if negb (from_utf8 span) then Err InvalidUtf8 else Ok (Some (CText span), rest3)
            else if (major =? 4)%Z then
              if indefinite then
                let? '(items, rest3) := until_break (decode_item budget true) fuel rest2 in
                Ok (Some (CArray items), rest3)
              else
                let? count := bounded_item_count rest2 value 1 in
                let? '(items, rest3) := read_n (need_some (decode_item budget false)) count rest2 in
                Ok (Some (CArray items), rest3)
            else if (major =? 5)%Z then
              if indefinite then
                let? '(entries, rest3) :=
                  until_break (map_step (decode_item budget true) (decode_item budget false)) fuel rest2 in
                Ok (Some (CMap entries), rest3)
              else
                let? count := bounded_item_count rest2 value 2 in
                let? '(entries, rest3) := read_n (pair_step (decode_item budget false)) count rest2 in
                Ok (Some (CMap entries), rest3)
            else if (major =? 6)%Z then
              if indefinite then Err (UnsupportedType (b2z initial))
              else
                let? '(inner, rest3) := need_some (decode_item budget false) rest2 in
                Ok (Some (CTag value inner), rest3)
            else Err (UnsupportedType (b2z initial))
      end
  end.

(** [TolerantReader::parse]. *)
Definition parse (reader : TolerantReader) (bytes : list byte) : result CborError CborValue :=
  let? '(item, rest) := decode_item (S (max_depth reader)) false bytes in
  match item with
  | None => Err (UnsupportedType 255)
  | Some value =>
      match rest with
      | [] => Ok value
      | _ :: _ => Err TrailingBytes
      end
  end.

Definition parse_tolerant (bytes : list byte) : result CborError CborValue := parse tolerant_new bytes.

(** ** Progress: the loops end within the input *)

(** A step that returns an item consumes at least one byte. *)
Definition consumes {A} (step : list byte -> result CborError (option A * list byte)) : Prop :=
  forall rest item rest', step rest = Ok (item, rest') -> (length rest' < length rest)%nat.

Definition eats {A} (step : list byte -> result CborError (A * list byte)) : Prop :=
  forall rest item rest', step rest = Ok (item, rest') -> (length rest' < length rest)%nat.

Lemma until_break_length {A} (step : list byte -> result CborError (option A * list byte)) fuel rest xs rest' :
  consumes step -> until_break step fuel rest = Ok (xs, rest') -> (length rest' < length rest)%nat.
Proof.
  intros Hs. revert rest xs rest'. induction fuel as [|fuel IH]; intros rest xs rest' H; [done|].
  cbn in H. run_match H; apply Hs in Heqr.
  - apply IH in Heqr0. lia.
  - done.
Qed.

(** Fuel above the number of unread bytes is never exhausted: more fuel changes nothing. *)
Lemma until_break_fuel {A} (step : list byte -> result CborError (option A * list byte)) fuel rest :
  consumes step -> (length rest < fuel)%nat ->
  until_break step fuel rest = until_break step (S (length rest)) rest.
Proof.
  intros Hs. revert rest. induction fuel as [fuel IH] using lt_wf_ind; intros rest Hf.
  destruct fuel as [|fuel]; [lia|]. cbn [until_break].
  destruct (step rest) as [[[x|] r]|] eqn:E; [|done..].
  pose proof (Hs _ _ _ E) as Hr. rewrite (IH fuel ltac:(lia) r ltac:(lia)).
  destruct (length rest) as [|n] eqn:En; [lia|].
  destruct (decide (S n <= fuel)%nat) as [Hle|Hgt].
  - rewrite (IH (S n) ltac:(lia) r ltac:(lia)). done.
  - replace fuel with (S n) by lia.
    rewrite (IH (S n) ltac:(lia) r ltac:(lia)). done.
Qed.

(** ** What the reader returns is representable *)

(** The bytes a value accounts for at its top level. *)
Definition weight (v : CborValue) : nat :=
  match v with
  | CBytes b | CText b => length b
  | CArray l => length l
  | CMap l => length l
  | _ => O
  end.

(** A reading step yields items satisfying [Q], and consumes more bytes than their weight. *)
Definition reads {A} (Q : A -> Prop) (w : A -> nat)
    (step : list byte -> result CborError (option A * list byte)) : Prop :=
  forall rest item rest', (Z.of_nat (length rest) <= u64_max)%Z -> step rest = Ok (item, rest') ->
  (length rest' < length rest)%nat
  /\ match item with Some x => Q x /\ (w x + length rest' < length rest)%nat | None => True end.

Lemma until_break_reads {A} (Q : A -> Prop) w (step : list byte -> result CborError (option A * list byte))
    fuel rest xs rest' :
  reads Q w step -> (Z.of_nat (length rest) <= u64_max)%Z -> until_break step fuel rest = Ok (xs, rest') ->
  Forall Q xs /\ (sum_list_with w xs + length xs + length rest' < length rest)%nat.
Proof.
  intros Hs. revert rest xs rest'. induction fuel as [|fuel IH]; intros rest xs rest' Hl H; [done|].
  cbn in H. run_match H; apply Hs in Heqr as [Hlt Hx]; try done.
  - apply IH in Heqr0 as [HQ Hw]; [|lia]. destruct Hx. split; [constructor; done | cbn; lia].
Qed.

Lemma read_n_reads {A} (Q : A -> Prop) k (step : list byte -> result CborError (A * list byte)) n rest xs rest' :
  (forall rest x rest', (Z.of_nat (length rest) <= u64_max)%Z -> step rest = Ok (x, rest') ->
     Q x /\ (k + length rest' <= length rest)%nat) ->
  (Z.of_nat (length rest) <= u64_max)%Z -> read_n step n rest = Ok (xs, rest') ->
  Forall Q xs /\ length xs = n /\ (k * n + length rest' <= length rest)%nat.
Proof.
  intros Hs. revert rest xs rest'. induction n as [|n IH]; intros rest xs rest' Hl H; cbn in H.
  - simplify_eq. split_and!; [constructor | done | lia].
  - run_match H. apply Hs in Heqr as [HQ Hx]; [|done]. apply IH in Heqr0 as (HF & Hn & Hlen); [|lia].
    split_and!; [constructor; done | cbn; lia | lia].
Qed.

Lemma take_be_length n rest v rest' : take_be n rest = Ok (v, rest') ->
  (length rest' + n = length rest)%nat /\ 0 <= v < 256 ^ Z.of_nat n.
Proof. intros [-> Hv]%take_be_inv. rewrite length_app, length_to_be_bytes. split; [lia | done]. Qed.

Lemma read_tolerant_header_reads rest major additional value rest' :
  read_tolerant_header rest = Ok (major, additional, value, rest') ->
  (length rest' < length rest)%nat /\ is_u64 value.
Proof.
  unfold read_tolerant_header, take_one. intros H. destruct rest as [|b rest]; [done|].
  pose proof (head_byte_inv b) as (_ & _ & Ha).
  run_match H; bool_hyps; widths;
    repeat match goal with H : take_be _ _ = Ok _ |- _ => apply take_be_length in H as [? ?] end;
    repeat match goal with H : context [256 ^ ?n] |- _ =>
      let x := eval vm_compute in (256 ^ n) in change (256 ^ n) with x in H end;
    byte_ranges;
    cbn [length]; lia.
Qed.

Definition good_item (n : nat) (v : CborValue) : Prop := cbor_wf v = true /\ (cbor_depth v < n)%nat.

Lemma need_some_reads n f rest v rest' : reads (good_item n) weight f ->
  (Z.of_nat (length rest) <= u64_max)%Z -> need_some f rest = Ok (v, rest') ->
  good_item n v /\ (1 + length rest' <= length rest)%nat.
Proof.
  intros Hf Hl H. unfold need_some in H. run_match H. apply Hf in Heqr as [Hlt [HQ _]]; [|done].
  split; [done | lia].
Qed.

Lemma concat_length_sum (l : list (list byte)) : length (concat l) = sum_list_with length l.
Proof. induction l; cbn; [done|]. rewrite length_app. lia. Qed.

Lemma from_utf8_concat l : Forall (fun b => from_utf8 b = true) l -> from_utf8 (concat l) = true.
Proof. induction 1; cbn; [done|]. apply from_utf8_app; done. Qed.

Lemma chunk_reads n f : reads (good_item n) weight f ->
  reads (fun _ => True) length (bytes_chunk f)
  /\ reads (fun b => from_utf8 b = true) length (text_chunk f).
Proof.
  intros Hf. split; intros rest item rest' Hl H.
  - unfold bytes_chunk in H. run_match H; apply Hf in Heqr as [Hlt Hx]; try done. destruct Hx; done.
  - unfold text_chunk in H. run_match H; apply Hf in Heqr as [Hlt Hx]; try done.
    destruct Hx as [[Hw _] ?]. cbn in Hw. bool_hyps. done.
Qed.

Lemma map_step_reads n f g : reads (good_item n) weight f -> reads (good_item n) weight g ->
  reads (fun e => good_item n e.1 /\ good_item n e.2) (fun _ => O) (map_step f g).
Proof.
  intros Hf Hg rest item rest' Hl H. unfold map_step in H. run_match H; apply Hf in Heqr as [Hlt Hx]; try done.
  apply (need_some_reads n g) in Heqr0 as [HQ Hr]; [|done | lia].
  split; [lia|]. destruct Hx. split_and!; [done | done | cbn; lia].
Qed.

Lemma pair_step_reads n f rest kv rest' : reads (good_item n) weight f ->
  (Z.of_nat (length rest) <= u64_max)%Z -> pair_step f rest = Ok (kv, rest') ->
  (good_item n kv.1 /\ good_item n kv.2) /\ (2 + length rest' <= length rest)%nat.
Proof.
  intros Hf Hl H. unfold pair_step in H. run_match H.
  apply (need_some_reads n f) in Heqr as [HQ Hr]; [|done..].
  apply (need_some_reads n f) in Heqr0 as [HQ' Hr']; [|done | lia]. cbn. split_and!; [done | done | lia].
Qed.

Lemma good_array n items : Forall (good_item n) items -> (Z.of_nat (length items) <= u64_max)%Z ->
  good_item (S n) (CArray items).
Proof.
  intros HF Hl. split; cbn.
  - apply andb_true_iff. split; [apply u64b_spec; widths; lia|].
    apply forallb_forall. intros x Hx. rewrite List.Forall_forall in HF. apply HF. done.
  - apply max_over_lt. eapply Forall_impl; [|exact HF]. intros x [_ ?]. cbn. lia.
Qed.

Lemma good_map n entries : Forall (fun e => good_item n e.1 /\ good_item n e.2) entries ->
  (Z.of_nat (length entries) <= u64_max)%Z -> good_item (S n) (CMap entries).
Proof.
  intros HF Hl. split; cbn.
  - apply andb_true_iff. split; [apply u64b_spec; widths; lia|].
    apply forallb_forall. intros x Hx. rewrite List.Forall_forall in HF.
    destruct (HF x Hx) as [[-> _] [-> _]]. done.
  - apply max_over_lt. eapply Forall_impl; [|exact HF]. intros x [[_ ?] [_ ?]]. cbn. lia.
Qed.

Lemma tolerant_float_reads n rest1 b v rest' :
  (b = 25 /\ decode_f16_tolerant rest1 = Ok (v, rest')) \/
  (b = 26 /\ decode_f32_tolerant rest1 = Ok (v, rest')) \/
  (b = 27 /\ decode_f64_tolerant rest1 = Ok (v, rest')) ->
  good_item (S n) v /\ weight v = O /\ (length rest' < length rest1)%nat.
Proof.
  unfold decode_f16_tolerant, decode_f32_tolerant, decode_f64_tolerant.
  intros [[_ H]|[[_ H]|[_ H]]]; run_match H; apply take_be_length in Heqr as [? Hv];
    (split; [split; [apply u64b_spec | cbn; lia] | split; [done | lia]]).
  - apply f16_bits_to_f64_range. exact Hv.
  - apply f32_to_f64_range.
  - widths. change (256 ^ Z.of_nat 8) with 18446744073709551616 in Hv. lia.
Qed.

(** Every item read is representable, nests within the budget, and cost more bytes than it
    accounts for. *)
Lemma decode_item_reads n brk : reads (good_item n) weight (decode_item n brk).
Proof.
  revert brk. induction n as [|n IH]; intros brk rest item rest' Hl H; [done|].
  destruct rest as [|b rest1]; [done|]. cbn [decode_item] in H.
  destruct ((Z.shiftr (b2z b) 5 =? 7)%Z && (Z.land (b2z b) 31 =? 31)%Z).
  { run_match H. cbn [length]. split; [lia | done]. }
  destruct (Z.shiftr (b2z b) 5 =? 7)%Z.
  { repeat (case_split_in H; [simplify_eq; cbn [length]; split; [lia|]; split; [split; [done | cbn; lia] | cbn; lia]|]).
    unfold some_of in H. clear IH.
    assert (exists v c, item = Some v /\
      ((c = 25 /\ decode_f16_tolerant rest1 = Ok (v, rest')) \/
       (c = 26 /\ decode_f32_tolerant rest1 = Ok (v, rest')) \/
       (c = 27 /\ decode_f64_tolerant rest1 = Ok (v, rest')))) as (v & c & -> & Hc).
    { run_match H; eexists _, _; (split; [done|]); [left | right; left | right; right]; done. }
    apply (tolerant_float_reads n) in Hc as (Hg & Hw & Hlt). cbn [length].
    rewrite Hw. split_and!; [lia | done | lia]. }
  destruct (read_tolerant_header (b :: rest1)) as [[[[k a] val] r]|] eqn:Eh; [|done].
  apply read_tolerant_header_reads in Eh as [Hr Hv]. revert Hr Hl H. generalize (b :: rest1) as input.
  intros input Hr Hl H.
  assert (Hlr : (Z.of_nat (length r) <= u64_max)%Z) by lia.
  assert (Hval : u64b val = true) by (apply u64b_spec; done).
  unfold take_bytes_span, bounded_item_count in H.
  destruct (chunk_reads n _ (IH true)) as [Hcb Hct].
  run_match H; bool_hyps;
    repeat match goal with
    | H : until_break (bytes_chunk _) _ _ = Ok _ |- _ => apply (until_break_reads _ _ _ _ _ _ _ Hcb Hlr) in H as [? ?]
    | H : until_break (text_chunk _) _ _ = Ok _ |- _ => apply (until_break_reads _ _ _ _ _ _ _ Hct Hlr) in H as [? ?]
    | H : until_break (map_step _ _) _ _ = Ok _ |- _ =>
        apply (until_break_reads _ _ _ _ _ _ _ (map_step_reads _ _ _ (IH true) (IH false)) Hlr) in H as [? ?]
    | H : until_break _ _ _ = Ok _ |- _ => apply (until_break_reads _ _ _ _ _ _ _ (IH true) Hlr) in H as [? ?]
    | H : read_n (need_some _) _ _ = Ok _ |- _ =>
        apply (read_n_reads (good_item n) 1) in H as (? & ? & ?);
          [| intros ???; apply need_some_reads, IH | done]
    | H : read_n (pair_step _) _ _ = Ok _ |- _ =>
        apply (read_n_reads (fun e => good_item n e.1 /\ good_item n e.2) 2) in H as (? & ? & ?);
          [| intros ???; apply pair_step_reads, IH | done]
    | H : need_some _ _ = Ok _ |- _ => apply (need_some_reads n) in H as [[? ?] ?]; [|apply IH | done]
    end; rewrite <- ?concat_length_sum in *;
    match goal with |- _ /\ good_item _ (CArray _) /\ _ => split; [lia|]; split; [apply good_array; [done | lia] | cbn; lia]
    | |- _ /\ good_item _ (CMap _) /\ _ => split; [lia|]; split; [apply good_map; [done | lia] | cbn; lia]
    | _ => idtac end;
    unfold good_item; cbn [cbor_wf cbor_depth weight]; rewrite ?length_take, ?length_drop;
    split_and!; try lia; try done; try (apply u64b_spec; widths; lia).
  - apply andb_true_iff. split; [apply from_utf8_concat; done | apply u64b_spec; widths; lia].
  - apply andb_true_iff. split; [done | apply u64b_spec; widths; lia].
  - apply andb_true_iff. split; [done | done].
Qed.

(** ** The canonical decoder's language is included *)

Lemma take_be_ok_header b rest k v rest' : decode_header (b :: rest) = Ok (k, v, rest') ->
  exists a, read_tolerant_header (b :: rest) = Ok (k, a, v, rest') /\ a <> 31.
Proof.
  unfold decode_header, read_tolerant_header, decode_argument, take_one. intros H.
  exists (Z.land (b2z b) 31). pose proof (head_byte_inv b) as (_ & _ & Ha).
  run_match H; bool_hyps; (split; [|lia]); try done.
Qed.

Lemma decode_value_length n input v rest : (Z.of_nat (length input) <= u64_max)%Z ->
  decode_value n input = Ok (v, rest) -> (length rest < length input)%nat.
Proof.
  intros Hl H. apply decode_value_inverts in H as (b & -> & He & _); [|done].
  apply try_encode_nonempty in He. rewrite length_app. lia.
Qed.

(** [g] reads whatever the canonical decoder reads. *)
Definition covers (n : nat) (g : list byte -> result CborError (option CborValue * list byte)) : Prop :=
  forall input v rest, (Z.of_nat (length input) <= u64_max)%Z ->
  decode_value n input = Ok (v, rest) -> g input = Ok (Some v, rest).

Lemma read_n_superset n g : covers n g -> forall k input items rest,
  (Z.of_nat (length input) <= u64_max)%Z -> read_n (decode_value n) k input = Ok (items, rest) ->
  read_n (need_some g) k input = Ok (items, rest).
Proof.
  intros Hg. induction k as [|k IH]; intros input items rest Hl H; cbn in *; [done|].
  run_match H. unfold need_some at 1. rewrite (Hg _ _ _ Hl Heqr).
  apply decode_value_length in Heqr; [|done]. erewrite IH; [done | lia | done].
Qed.

Lemma read_entries_superset n g : covers n g -> forall k prev input entries rest,
  (Z.of_nat (length input) <= u64_max)%Z ->
  read_entries (decode_value n) k prev input = Ok (entries, rest) ->
  read_n (pair_step g) k input = Ok (entries, rest).
Proof.
  intros Hg. induction k as [|k IH]; intros prev input items rest Hl H; cbn [read_entries read_n] in *; [done|].
  run_match H. unfold pair_step at 1, need_some.
  rewrite (Hg _ _ _ Hl Heqr). apply decode_value_length in Heqr; [|done].
  match goal with H : decode_value n ?l = Ok (?v, ?l0) |- _ => rewrite (Hg l v l0) by (done || lia) end.
  apply decode_value_length in Heqr1; [|lia].
  erewrite IH; [done | lia | done].
Qed.

(** A canonical map spends at least two bytes per entry. *)
Lemma read_entries_two n k input entries rest : (Z.of_nat (length input) <= u64_max)%Z ->
  read_entries (decode_value n) k None input = Ok (entries, rest) -> (2 * k <= length input)%nat.
Proof.
  intros Hl H. apply (read_entries_inv _ _ (decode_value_inverts n)) in H as (enc & -> & HF & _ & <- & _); [|done].
  rewrite length_app. clear Hl. induction HF as [|e b entries enc [[Hk _] [Hv _]] _ IH]; cbn; [lia|].
  apply try_encode_nonempty in Hk, Hv. rewrite !length_app. cbn in IH. lia.
Qed.

Lemma decode_item_superset n : covers n (decode_item n false).
Proof.
  induction n as [|n IH]; intros input v rest Hl H; [done|].
  destruct input as [|b input]; [done|]. cbn [decode_value] in H. cbn [decode_item].
  destruct (Z.eqb_spec (Z.shiftr (b2z b) 5) 7) as [E7|_].
  { unfold decode_simple, decode_f16, decode_f32, decode_f64 in H.
    unfold some_of, decode_f16_tolerant, decode_f32_tolerant, decode_f64_tolerant.
    run_match H; bool_hyps;
      match goal with H : Z.land (b2z b) 31 = _ |- _ => rewrite H end; cbn -[take_be]; try done;
      match goal with H : take_be _ _ = _ |- _ => rewrite H end; done. }
  cbn [andb].
  destruct (decode_header (b :: input)) as [[[k val] r]|] eqn:Eh; [|done].
  destruct (take_be_ok_header _ _ _ _ _ Eh) as (a & -> & Ha).
  apply decode_header_inv in Eh as (Hin & Hk & Hv).
  assert (Hlr : (Z.of_nat (length r) <= u64_max)%Z) by (rewrite Hin, length_app in Hl; lia).
  destruct (Z.eqb_spec a 31) as [|_]; [done|].
  unfold take_bytes_span, bounded_item_count. rewrite Z.div_1_r.
  run_match H; bool_hyps; subst; cbn [Z.eqb Pos.eqb];
    try rewrite (proj2 (Z.ltb_ge (Z.of_nat (length r)) val)) by lia; try done.
  - erewrite (read_n_superset n _ IH); done.
  - assert (2 * Z.to_nat val <= length r)%nat by (eapply read_entries_two; eassumption).
    rewrite (proj2 (Z.ltb_ge _ _)); [|widths; dlia].
    erewrite (read_entries_superset n _ IH); done.
Qed.

(** The tolerant reader accepts a superset of canonical CBOR: every byte string that
    [CborValue::from_canonical_bytes] accepts, [parse_tolerant] accepts with the same value. *)
Theorem tolerant_superset input v :
  (Z.of_nat (length input) <= u64_max)%Z ->
  from_canonical_bytes input = Ok v -> parse_tolerant input = Ok v.
Proof.
  unfold from_canonical_bytes, parse_tolerant, parse. intros Hl H. run_match H.
  cbn [max_depth tolerant_new]. rewrite (decode_item_superset _ _ _ _ Hl Heqr). done.
Qed.

Lemma tolerant_superset_witness :
  from_canonical_bytes [xa1; x01; x81; xf5] = Ok (CMap [(CUnsigned 1, CArray [CBool true])])
  /\ parse_tolerant [xa1; x01; x81; xf5] = Ok (CMap [(CUnsigned 1, CArray [CBool true])]).
Proof.
  split; [reflexivity|]. apply tolerant_superset; [vm_compute; discriminate | reflexivity].
Defined.

(** Whatever bytes the tolerant reader accepts, the value it returns is one the types
    can hold (integers and lengths in [u64], text valid UTF-8, also when it was assembled
    from indefinite-length chunks) and nests at most [max_depth] levels. *)
Theorem tolerant_representable reader input v :
  (Z.of_nat (length input) <= u64_max)%Z -> parse reader input = Ok v ->
  cbor_wf v = true /\ (cbor_depth v <= max_depth reader)%nat.
Proof.
  unfold parse. intros Hl H. run_match H.
  apply decode_item_reads in Heqr as (_ & [Hw Hd] & _); [|done]. split; [done | lia].
Qed.

Lemma tolerant_representable_witness :
  parse_tolerant [x7f; x61; x61; x62; xc3; xa9; xff] = Ok (CText [x61; xc3; xa9])
  /\ cbor_wf (CText [x61; xc3; xa9]) = true.
Proof.
  split; [reflexivity|].
  apply (tolerant_representable tolerant_new [x7f; x61; x61; x62; xc3; xa9; xff]);
    [vm_compute; discriminate | reflexivity].
Defined.
