(* ===== verification/Limits.v ===== *)
(** * Format limits and framed hashes

    Models [ledger-format/src/limits.rs] and the [EntryHash] wire form of
    [ledger-format/src/entry.rs]. *)

From S2P Require Import Prelude Machine Cbor CborProofs.

Open Scope Z_scope.

Definition FORMAT_VERSION : Z := 3.
Definition CRASH_SEMANTICS_VERSION : Z := 1.
Definition MAX_HEADER_BYTES : Z := 1024 * 1024.
Definition MAX_ENTRY_BYTES : Z := 17 * 1024 * 1024.
Definition MAX_PARENTS_PER_ENTRY : Z := 4096.
Definition MAX_VECTOR_CLOCK_ACTORS : Z := 65536.
Definition MAX_CANONICAL_PATH_BYTES : Z := 4096.
Definition MAX_WRITE_BYTES : Z := 16 * 1024 * 1024.
Definition MAX_READ_BYTES : Z := 16 * 1024 * 1024.
Definition MAX_FILE_EXTENT_HARD : Z := 1024 * 1024 * 1024 * 1024.
Definition MAX_CANONICAL_VALUE_DEPTH : Z := 32.
Definition MAX_CANONICAL_VALUE_ITEMS : Z := 65536.
Definition MAX_CANONICAL_VALUE_STRING_BYTES : Z := 1024 * 1024.

(** ** EntryHash *)

(** A 32-byte digest, [EntryHash(pub [u8; 32])]; the length is the type's invariant. *)
Definition EntryHash : Type := list byte.
Definition hash_wf (h : EntryHash) : bool := (length h =? 32)%nat.

Definition MULTIHASH_BLAKE3_CODE : byte := x1e.
Definition MULTIHASH_BLAKE3_LEN : byte := x20.
Definition FRAMED_HASH_LEN : nat := 34.

Definition to_framed_bytes (h : EntryHash) : list byte :=
  MULTIHASH_BLAKE3_CODE :: MULTIHASH_BLAKE3_LEN :: h.

Definition from_framed_bytes (bytes : list byte) : result CborError EntryHash :=
  if negb (length bytes =? FRAMED_HASH_LEN)%nat then
    Err (MalformedManifest "hash must be a 34-byte framed BLAKE3 multihash")
  else
    match bytes with
    | b0 :: b1 :: digest =>
        if negb (bool_decide (b0 = MULTIHASH_BLAKE3_CODE)) || negb (bool_decide (b1 = MULTIHASH_BLAKE3_LEN))
        then Err (MalformedManifest "hash multihash prefix must be [0x1e, 0x20]")
        else Ok digest
    | _ => Err (MalformedManifest "hash must be a 34-byte framed BLAKE3 multihash")
    end.

(** [cbor::encode::hash]: the framed form as a byte string. *)
Definition chash (h : EntryHash) : list byte := cbytes (to_framed_bytes h).

Lemma from_to_framed_bytes h : hash_wf h = true -> from_framed_bytes (to_framed_bytes h) = Ok h.
Proof.
  unfold hash_wf, from_framed_bytes, to_framed_bytes, FRAMED_HASH_LEN. intros H. bool_hyps.
  cbn [length]. rewrite H. done.
Qed.

Lemma from_framed_bytes_inv b h : from_framed_bytes b = Ok h ->
  b = to_framed_bytes h /\ hash_wf h = true.
Proof.
  unfold from_framed_bytes, hash_wf, FRAMED_HASH_LEN. intros H.
  destruct b as [|b0 [|b1 d]]; [done..|]. cbn [length] in H.
  run_match H. bool_hyps. apply bool_decide_eq_true in H, H0. subst.
  split; [done|]. apply Nat.eqb_eq. lia.
Qed.
