(* ===== verification/Items.v ===== *)
(** * The borrowed item reader

    Models [ItemReader] of [ledger-format/src/cbor/items.rs].  The reader state is the unread
    suffix of the input and the [depth] counter; each method returns the item with the new
    state. *)

From S2P Require Import Prelude Machine Floats Cbor CborProofs.

Open Scope Z_scope.

Inductive Item : Type :=
| IUnsigned (v : Z)
| INegative (v : Z)
| IBytes (b : list byte)
| IText (s : list byte)
| IArray (n : nat)
| IMap (n : nat)
| IBool (b : bool)
| INull
| IFloat (bits : Z).

Record ItemReader : Type := Reader { unread : list byte; rdepth : nat }.

Definition item_reader_new (input : list byte) : ItemReader := Reader input 0.
Definition remaining (r : ItemReader) : Z := Z.of_nat (length (unread r)).
Definition at_end (r : ItemReader) : bool := match unread r with [] => true | _ => false end.

(** [checked_len]. *)
Definition checked_len (rest : list byte) (declared : Z) : result CborError nat :=
  if (Z.of_nat (length rest) <? declared)%Z then Err LengthOverflow else Ok (Z.to_nat declared).

(** The float readers of items.rs return the bare [f64]. *)
Definition read_f16 (rest : list byte) : result CborError (Z * list byte) :=
  let? '(bits, rest) := take_be 2 rest in
  let value := f16_bits_to_f64 bits in
  if f64_is_nan value then Err NonCanonicalFloat
  else if f64_is_neg_zero value then Err NonCanonicalFloat
  else Ok (value, rest).

Definition read_f32 (rest : list byte) : result CborError (Z * list byte) :=
  let? '(value, rest) := take_be 4 rest in
  if f32_is_nan value then Err NonCanonicalFloat
  else if f32_is_neg_zero value then Err NonCanonicalFloat
  else if f64_eqb (f16_bits_to_f64 (f32_bits_to_f16 value)) (f32_to_f64 value)
  then Err NonCanonicalFloat
  else Ok (f32_to_f64 value, rest).

Definition read_f64 (rest : list byte) : result CborError (Z * list byte) :=
  let? '(value, rest) := take_be 8 rest in
  if f64_is_nan value then Err NonCanonicalFloat
  else if f64_is_neg_zero value then Err NonCanonicalFloat
  else if f64_eqb (f32_to_f64 (f64_to_f32 value)) value then Err NonCanonicalFloat
  else Ok (value, rest).

Definition float_item (r : result CborError (Z * list byte)) : result CborError (Item * list byte) :=
  let? '(f, rest) := r in Ok (IFloat f, rest).

(** [read_item_inner]. *)
Definition read_item_inner (rest : list byte) : result CborError (Item * list byte) :=
  match rest with
  | [] => Err UnexpectedEof
  | initial :: rest1 =>
      if (Z.shiftr (b2z initial) 5 =? 7)%Z then
        let additional := Z.land (b2z initial) 31 in
        if (additional =? 20)%Z then Ok (IBool false, rest1)
        else if (additional =? 21)%Z then Ok (IBool true, rest1)
        else if (additional =? 22)%Z then Ok (INull, rest1)
        else if (additional =? 25)%Z then float_item (read_f16 rest1)
        else if (additional =? 26)%Z then float_item (read_f32 rest1)
        else if (additional =? 27)%Z then float_item (read_f64 rest1)
        else if (additional =? 24)%Z then
          match rest1 with
          | [] => Err UnexpectedEof
          | b :: rest2 =>
              if (b2z b <? 24)%Z then Err NonCanonicalIntegerEncoding
              else Ok (IUnsigned (b2z b), rest2)
          end
        else if (additional =? 31)%Z then Err IndefiniteLengthForbidden
        else Err (UnsupportedType (b2z initial))
      else
        let? '(major, value, rest2) := decode_header rest in
        if (major =? 0)%Z then Ok (IUnsigned value, rest2)
        else if (major =? 1)%Z then Ok (INegative value, rest2)
        else if (major =? 2)%Z then
          let? len := checked_len rest2 value in
          Ok (IBytes (take len rest2), drop len rest2)
        else if (major =? 3)%Z then
          let? len := checked_len rest2 value in
          if negb (from_utf8 (take len rest2)) then Err InvalidUtf8
          else Ok (IText (take len rest2), drop len rest2)
        else if (major =? 4)%Z then
          let? len := checked_len rest2 value in Ok (IArray len, rest2)
        else if (major =? 5)%Z then
          let? len := checked_len rest2 value in Ok (IMap len, rest2)
        else Err (UnsupportedType (b2z initial))
  end.

(** [read_item]: the depth counter is raised around the inner read and lowered on success. *)
Definition read_item (r : ItemReader) : result CborError (Item * ItemReader) :=
  let depth := S (rdepth r) in
  if (MAX_DEPTH <? depth)%nat then Err DepthLimitExceeded
  else
    let? '(item, rest) := read_item_inner (unread r) in
    Ok (item, Reader rest (Nat.pred depth)).

Definition read_unsigned (r : ItemReader) : result CborError (Z * ItemReader) :=
  let? '(item, r) := read_item r in
  match item with IUnsigned v => Ok (v, r) | _ => Err (UnsupportedType 0) end.

Definition read_bytes (r : ItemReader) : result CborError (list byte * ItemReader) :=
  let? '(item, r) := read_item r in
  match item with IBytes b => Ok (b, r) | _ => Err (UnsupportedType 0) end.

Definition read_text (r : ItemReader) : result CborError (list byte * ItemReader) :=
  let? '(item, r) := read_item r in
  match item with IText s => Ok (s, r) | _ => Err (UnsupportedType 0) end.

Definition read_bool (r : ItemReader) : result CborError (bool * ItemReader) :=
  let? '(item, r) := read_item r in
  match item with IBool b => Ok (b, r) | _ => Err (UnsupportedType 0) end.

Definition read_array (r : ItemReader) : result CborError (nat * ItemReader) :=
  let? '(item, r) := read_item r in
  match item with IArray n => Ok (n, r) | _ => Err (UnsupportedType 0) end.

Definition read_null (r : ItemReader) : result CborError (unit * ItemReader) :=
  let? '(item, r) := read_item r in
  match item with INull => Ok (tt, r) | _ => Err (UnsupportedType 0) end.

(** [item_to_owned]. *)
Definition item_to_owned (item : Item) : result CborError CborValue :=
  match item with
  | IUnsigned v => Ok (CUnsigned v)
  | INegative v => Ok (CNegative v)
  | IBytes b => Ok (CBytes b)
  | IText s => Ok (CText s)
  | IArray _ | IMap _ => Err (UnsupportedType 0)
  | IBool b => Ok (CBool b)
  | INull => Ok CNull
  | IFloat f => Ok (CFloat f)
  end.

(** ** Reading what the encoder wrote *)

(** The reader between two items: the depth counter is back at 0. *)
Abbreviation rd input := (Reader input 0).

Lemma read_item_rd rest :
  read_item (rd rest) = let? '(item, rest') := read_item_inner rest in Ok (item, rd rest').
Proof. unfold read_item. cbn. destruct (read_item_inner rest) as [[??]|]; done. Qed.

(** One item read from a head of major type other than 7. *)
Lemma read_item_head k v rest : 0 <= k < 6 -> is_u64 v ->
  read_item (rd (major k v ++ rest)) =
  if (k =? 0)%Z then Ok (IUnsigned v, rd rest)
  else if (k =? 1)%Z then Ok (INegative v, rd rest)
  else
    let? len := checked_len rest v in
    if (k =? 2)%Z then Ok (IBytes (take len rest), rd (drop len rest))
    else if (k =? 3)%Z then
      if negb (from_utf8 (take len rest)) then Err InvalidUtf8
      else Ok (IText (take len rest), rd (drop len rest))
    else if (k =? 4)%Z then Ok (IArray len, rd rest)
    else Ok (IMap len, rd rest).
Proof.
  intros Hk Hv. pose proof (decode_header_major k v rest ltac:(lia) Hv) as Hh.
  rewrite read_item_rd. destruct (major k v ++ rest) as [|b l] eqn:E; [discriminate Hh|].
  cbn [read_item_inner]. rewrite Hh.
  assert (Hm : Z.shiftr (b2z b) 5 = k) by (unfold decode_header in Hh; run_match Hh; done).
  rewrite Hm. destruct (Z.eqb_spec k 7); [lia|].
  assert (k = 0 \/ k = 1 \/ k = 2 \/ k = 3 \/ k = 4 \/ k = 5) as Hc by lia.
  destruct Hc as [->|[->|[->|[->|[->| ->]]]]]; cbn [Z.eqb Pos.eqb]; try done;
    destruct (checked_len rest v); cbn; try done. case_split; done.
Qed.

Lemma checked_len_ok rest n : (n <= length rest)%nat -> checked_len rest (Z.of_nat n) = Ok n.
Proof. intros H. unfold checked_len. rewrite not_overflow, Nat2Z.id by done. done. Qed.

Lemma read_unsigned_enc v rest : is_u64 v -> read_unsigned (rd (unsigned v ++ rest)) = Ok (v, rd rest).
Proof. intros Hv. unfold read_unsigned, unsigned. rewrite read_item_head by (done || lia). done. Qed.

Lemma read_bytes_enc b rest : is_u64 (Z.of_nat (length b)) ->
  read_bytes (rd (cbytes b ++ rest)) = Ok (b, rd rest).
Proof.
  intros Hv. unfold read_bytes, cbytes. rewrite <- app_assoc, read_item_head by (done || lia).
  rewrite checked_len_ok by (rewrite length_app; lia). cbn [Z.eqb Pos.eqb].
  rewrite take_app_prefix, drop_app_prefix. done.
Qed.

Lemma read_array_enc n rest : is_u64 (Z.of_nat n) -> (n <= length rest)%nat ->
  read_array (rd (array n ++ rest)) = Ok (n, rd rest).
Proof.
  intros Hv Hn. unfold read_array, array. rewrite read_item_head by (done || lia).
  rewrite checked_len_ok by done. done.
Qed.

Lemma read_bool_enc b rest : read_bool (rd (boolean b ++ rest)) = Ok (b, rd rest).
Proof. destruct b; reflexivity. Qed.

Lemma read_null_enc rest : read_item (rd (null ++ rest)) = Ok (INull, rd rest).
Proof. reflexivity. Qed.

Lemma read_bytes_item_enc b rest : is_u64 (Z.of_nat (length b)) ->
  read_item (rd (cbytes b ++ rest)) = Ok (IBytes b, rd rest).
Proof.
  intros Hv. pose proof (read_bytes_enc b rest Hv) as H. unfold read_bytes in H. run_match H. done.
Qed.
