(* ===== verification/Value.v ===== *)
(** * Bounded canonical values

    Models [CanonicalValue], [ValueError] and [Budget] of [ledger-format/src/value.rs] and the
    streaming [read_canonical_value] of [ledger-format/src/cbor/items.rs].  The [&mut Budget]
    argument is threaded explicitly; an encoder returns the bytes it appends. *)

From S2P Require Import Prelude Machine Floats Cbor CborProofs Limits Items.

Open Scope Z_scope.

(** ** Data *)

#[warnings="-register-all"]
Inductive CanonicalValue : Type :=
| VUnsigned (v : Z)
| VNegative (v : Z)
| VBytes (b : list byte)
| VText (s : list byte)
| VArray (items : list CanonicalValue)
| VMap (entries : list (CanonicalValue * CanonicalValue))
| VBool (b : bool)
| VNull
| VFloat (bits : Z).

Inductive ValueError : Type :=
| BoundsExceeded (msg : string)
| VCborError (err : CborError).

Record Budget : Type := mkBudget { bdepth : Z; bitems : Z }.

Definition budget_new : Budget := mkBudget 0 0.

(** [Budget::visit], [Budget::collection] and [Budget::string]. *)
Definition visit (b : Budget) : result ValueError Budget :=
  let depth := bdepth b + 1 in
  if (MAX_CANONICAL_VALUE_DEPTH <? depth)%Z then Err (BoundsExceeded "nesting depth")
  else
    let items := bitems b + 1 in
    if (MAX_CANONICAL_VALUE_ITEMS <? items)%Z then Err (BoundsExceeded "collection item count")
    else Ok (mkBudget depth items).

Definition collection (b : Budget) (len : nat) : result ValueError Budget :=
  let items := bitems b + Z.of_nat len in
  if (MAX_CANONICAL_VALUE_ITEMS <? items)%Z then Err (BoundsExceeded "collection item count")
  else Ok (mkBudget (bdepth b) items).

Definition budget_string (len : nat) : result ValueError unit :=
  if (MAX_CANONICAL_VALUE_STRING_BYTES <? Z.of_nat len)%Z then Err (BoundsExceeded "string size")
  else Ok tt.

(** The module's own copy of the head encoder. *)
Definition value_major (kind value : Z) : list byte :=
  let head := Z.shiftl kind 5 in
  if (value <=? 23)%Z then [z2b (Z.lor head value)]
  else if (value <=? u8_max)%Z then [z2b (Z.lor head 24); z2b value]
  else if (value <=? u16_max)%Z then z2b (Z.lor head 25) :: to_be_bytes 2 value
  else if (value <=? u32_max)%Z then z2b (Z.lor head 26) :: to_be_bytes 4 value
  else z2b (Z.lor head 27) :: to_be_bytes 8 value.

Definition float_msg : string := "floats must not be NaN or negative zero".

Definition float_refused (bits : Z) : bool := f64_is_nan bits || f64_is_neg_zero bits.

(** ** Encoder *)

Abbreviation step A := (Budget -> result ValueError (A * Budget)).

(** [for item in items { item.encode_into(out, budget)?; }]. *)
Definition encode_all {A} (f : A -> step (list byte)) : list A -> step (list byte) :=
  fix go l b :=
    match l with
    | [] => Ok ([], b)
    | x :: l => let? '(o, b) := f x b in let? '(os, b) := go l b in Ok (o ++ os, b)
    end.

(** The key loop of the map case: every key is encoded before any value.  A value is kept as
    its pending encoder. *)
Definition encode_keys {A} (f : A -> step (list byte)) :
    list (A * A) -> step (list (list byte * step (list byte))) :=
  fix go l b :=
    match l with
    | [] => Ok ([], b)
    | (key, value) :: l =>
        let? '(key_bytes, b) := f key b in
        let? '(rest, b) := go l b in
        Ok ((key_bytes, f value) :: rest, b)
    end.

(** [CanonicalValue::encode_into]. *)
Fixpoint encode_into (v : CanonicalValue) (b : Budget) : result ValueError (list byte * Budget) :=
  let? b := visit b in
  match v with
  | VUnsigned v => Ok (unsigned v, b)
  | VNegative v => Ok (value_major 1 v, b)
  | VBytes s => let? _ := budget_string (length s) in Ok (cbytes s, b)
  | VText s => let? _ := budget_string (length s) in Ok (text s, b)
  | VArray items =>
      let? b := collection b (length items) in
      let? '(body, b) := encode_all encode_into items b in
      Ok (array (length items) ++ body, b)
  | VMap entries =>
      let? b := collection b (length entries) in
      let? '(encoded_keys, b) := encode_keys encode_into entries b in
      let encoded_keys := sort_by_key encoded_keys in
      if has_duplicate_key encoded_keys then Err (BoundsExceeded "duplicate map key")
      else
        let? '(body, b) :=
          encode_all (fun e b => let? '(o, b) := e.2 b in Ok (e.1 ++ o, b)) encoded_keys b in
        Ok (cmap (length encoded_keys) ++ body, b)
  | VBool x => Ok (boolean x, b)
  | VNull => Ok (null, b)
  | VFloat f => if float_refused f then Err (BoundsExceeded float_msg)
                else Ok (encode_minimal_float f, b)
  end.

Definition value_try_encode (v : CanonicalValue) : result ValueError (list byte) :=
  let? '(out, _) := encode_into v budget_new in Ok out.

Definition value_to_canonical_bytes (v : CanonicalValue) : result ValueError (list byte) :=
  value_try_encode v.

(** ** Decoder through [CborValue] *)

Definition map_budget {A B} (f : A -> step B) : list A -> step (list B) :=
  fix go l b :=
    match l with
    | [] => Ok ([], b)
    | x :: l => let? '(y, b) := f x b in let? '(ys, b) := go l b in Ok (y :: ys, b)
    end.

Fixpoint from_cbor (v : CborValue) (b : Budget) : result ValueError (CanonicalValue * Budget) :=
  let? b := visit b in
  match v with
  | CUnsigned v => Ok (VUnsigned v, b)
  | CNegative v => Ok (VNegative v, b)
  | CBytes s => let? _ := budget_string (length s) in Ok (VBytes s, b)
  | CText s => let? _ := budget_string (length s) in Ok (VText s, b)
  | CArray items =>
      let? b := collection b (length items) in
      let? '(out, b) := map_budget from_cbor items b in Ok (VArray out, b)
  | CMap entries =>
      let? b := collection b (length entries) in
      let? '(out, b) := map_budget (fun '(key, val) b =>
                          let? '(k, b) := from_cbor key b in
                          let? '(x, b) := from_cbor val b in Ok ((k, x), b)) entries b in
      Ok (VMap out, b)
  | CBool x => Ok (VBool x, b)
  | CNull => Ok (VNull, b)
  | CFloat f => if float_refused f then Err (BoundsExceeded float_msg) else Ok (VFloat f, b)
  | CTag _ _ => Err (BoundsExceeded "canonical values must not carry semantic tags")
  end.

Definition value_from_canonical_bytes (input : list byte) : result ValueError CanonicalValue :=
  let? value := map_err VCborError (from_canonical_bytes input) in
  let? '(parsed, _) := from_cbor value budget_new in Ok parsed.

(** ** Streaming decoder *)

Abbreviation rstep A := (ItemReader -> Budget -> result ValueError (A * ItemReader * Budget)).

Definition read_value_items (f : rstep CanonicalValue) : nat -> rstep (list CanonicalValue) :=
  fix go n r b :=
    match n with
    | O => Ok ([], r, b)
    | S n => let? '(x, r, b) := f r b in let? '(xs, r, b) := go n r b in Ok (x :: xs, r, b)
    end.

Definition read_value_entries (f : rstep CanonicalValue) :
    nat -> option (list byte) -> rstep (list (CanonicalValue * CanonicalValue)) :=
  fix go n previous_key r b :=
    match n with
    | O => Ok ([], r, b)
    | S n =>
        let? '(key, r1, b) := f r b in
        let raw_key := take (length (unread r) - length (unread r1)) (unread r) in
        let? _ := map_err VCborError (check_key_order previous_key raw_key) in
        let? '(value, r2, b) := f r1 b in
        let? '(entries, r3, b) := go n (Some raw_key) r2 b in
        Ok ((key, value) :: entries, r3, b)
    end.

(** [read_value].  Each nested call has raised the budget's depth once, so the call at level 33
    fails in [visit]; running out of the fuel below is that failure. *)
Fixpoint read_value (fuel : nat) (r : ItemReader) (b : Budget) :
    result ValueError (CanonicalValue * ItemReader * Budget) :=
  match fuel with
  | O => Err (BoundsExceeded "nesting depth")
  | S fuel =>
      let? b := visit b in
      let? '(item, r) := map_err VCborError (read_item r) in
      match item with
      | IUnsigned v => Ok (VUnsigned v, r, b)
      | INegative v => Ok (VNegative v, r, b)
      | IBytes s => let? _ := budget_string (length s) in Ok (VBytes s, r, b)
      | IText s => let? _ := budget_string (length s) in Ok (VText s, r, b)
      | IArray n =>
          let? b := collection b n in
          let? '(items, r, b) := read_value_items (read_value fuel) n r b in
          Ok (VArray items, r, b)
      | IMap n =>
          let? b := collection b n in
          let? '(entries, r, b) := read_value_entries (read_value fuel) n None r b in
          Ok (VMap entries, r, b)
      | IBool x => Ok (VBool x, r, b)
      | INull => Ok (VNull, r, b)
      | IFloat f => if float_refused f then Err (BoundsExceeded float_msg) else Ok (VFloat f, r, b)
      end
  end.

Definition read_fuel : nat := 33.

Definition read_canonical_value (r : ItemReader) : result ValueError (CanonicalValue * ItemReader) :=
  let? '(v, r, _) := read_value read_fuel r budget_new in Ok (v, r).
