(* ===== verification/ValueProofs.v ===== *)
(** * Bounded canonical values: correctness

    The budget is accounted exactly: a value spends one depth unit and one item unit per node
    and one item unit per declared collection member.  From that the encoder and both decoders
    are characterised by the underlying CBOR codec. *)

From S2P Require Import Prelude Machine Floats Cbor CborProofs Limits Items Value.

Open Scope Z_scope.

(** ** The accounting *)

Definition sum_over {A} (f : A -> Z) (l : list A) : Z := foldr (fun x acc => f x + acc) 0 l.

(** Number of values in a value, itself included. *)
Fixpoint nodes (v : CborValue) : Z :=
  match v with
  | CArray items => 1 + sum_over nodes items
  | CMap entries => 1 + sum_over (fun e => nodes e.1 + nodes e.2) entries
  | CTag _ inner => 1 + nodes inner
  | _ => 1
  end.

(** Item units: every node and every declared collection length. *)
Fixpoint weight (v : CborValue) : Z :=
  match v with
  | CArray items => 1 + Z.of_nat (length items) + sum_over weight items
  | CMap entries => 1 + Z.of_nat (length entries) + sum_over (fun e => weight e.1 + weight e.2) entries
  | CTag _ inner => 1 + weight inner
  | _ => 1
  end.

Definition short (s : list byte) : bool := (Z.of_nat (length s) <=? MAX_CANONICAL_VALUE_STRING_BYTES)%Z.

(** No semantic tag, no oversized string, no refused float. *)
Fixpoint plain (v : CborValue) : bool :=
  match v with
  | CBytes s | CText s => short s
  | CArray items => forallb plain items
  | CMap entries => forallb (fun e => plain e.1 && plain e.2) entries
  | CTag _ _ => false
  | CFloat f => negb (float_refused f)
  | _ => true
  end.

Fixpoint to_cbor (v : CanonicalValue) : CborValue :=
  match v with
  | VUnsigned v => CUnsigned v
  | VNegative v => CNegative v
  | VBytes s => CBytes s
  | VText s => CText s
  | VArray items => CArray (map to_cbor items)
  | VMap entries => CMap (map (fun e => (to_cbor e.1, to_cbor e.2)) entries)
  | VBool b => CBool b
  | VNull => CNull
  | VFloat f => CFloat f
  end.

Fixpoint of_cbor (v : CborValue) : CanonicalValue :=
  match v with
  | CUnsigned v => VUnsigned v
  | CNegative v => VNegative v
  | CBytes s => VBytes s
  | CText s => VText s
  | CArray items => VArray (map of_cbor items)
  | CMap entries => VMap (map (fun e => (of_cbor e.1, of_cbor e.2)) entries)
  | CBool b => VBool b
  | CNull | CTag _ _ => VNull
  | CFloat f => VFloat f
  end.

Definition spend (b : Budget) (n w : Z) : Budget := mkBudget (bdepth b + n) (bitems b + w).

Definition within (b : Budget) : Prop :=
  bdepth b <= MAX_CANONICAL_VALUE_DEPTH /\ bitems b <= MAX_CANONICAL_VALUE_ITEMS.

Lemma spend_spend b n w n' w' : spend (spend b n w) n' w' = spend b (n + n') (w + w').
Proof. unfold spend. cbn. f_equal; lia. Qed.

Lemma within_spend b n w n' w' : n <= n' -> w <= w' -> within (spend b n' w') -> within (spend b n w).
Proof. unfold within, spend. cbn. lia. Qed.

Lemma spend_0 b : spend b 0 0 = b.
Proof. destruct b. unfold spend. cbn. f_equal; lia. Qed.

Lemma sum_over_cons {A} (f : A -> Z) x l : sum_over f (x :: l) = f x + sum_over f l.
Proof. done. Qed.

Lemma sum_over_nonneg {A} (f : A -> Z) l : Forall (fun x => 0 <= f x) l -> 0 <= sum_over f l.
Proof. unfold sum_over. induction 1; cbn; lia. Qed.

Lemma nodes_pos v : 1 <= nodes v.
Proof.
  induction v as [| | | |items IH|entries IH| | | |] using CborValue_rect_nested; cbn [nodes]; try lia.
  - assert (0 <= sum_over nodes items); [|lia]. apply sum_over_nonneg.
    eapply Forall_impl; [|exact IH]. cbn. lia.
  - assert (0 <= sum_over (fun e => nodes e.1 + nodes e.2) entries); [|lia]. apply sum_over_nonneg.
    eapply Forall_impl; [|exact IH]. cbn. lia.
Qed.

Lemma nodes_le_weight v : nodes v <= weight v.
Proof.
  induction v as [| | | |items IH|entries IH| | | |] using CborValue_rect_nested;
    cbn [nodes weight]; try lia.
  - assert (sum_over nodes items <= sum_over weight items); [|lia]. unfold sum_over. induction IH; cbn in *; lia.
  - assert (sum_over (fun e => nodes e.1 + nodes e.2) entries
            <= sum_over (fun e => weight e.1 + weight e.2) entries); [|lia].
    unfold sum_over. induction IH as [|e l [? ?] ? ?]; cbn in *; lia.
Qed.

Lemma weight_pos v : 1 <= weight v.
Proof. pose proof (nodes_pos v). pose proof (nodes_le_weight v). lia. Qed.

(** ** Loops that spend *)

(** [f] succeeds exactly where [ok] holds and the cost fits, with the stated output. *)
Definition spends {A B} (f : A -> step B) (ok : A -> bool) (out : A -> B) (n w : A -> Z) (x : A) : Prop :=
  0 <= n x /\ 0 <= w x /\
  forall b r, within b -> (f x b = Ok r <->
    ok x = true /\ r = (out x, spend b (n x) (w x)) /\ within (spend b (n x) (w x))).

Lemma map_budget_cons {A B} (f : A -> step B) x l b :
  map_budget f (x :: l) b = let? '(y, b) := f x b in let? '(ys, b) := map_budget f l b in Ok (y :: ys, b).
Proof. done. Qed.

Lemma map_budget_spends {A B} (f : A -> step B) ok out n w l : Forall (spends f ok out n w) l ->
  spends (map_budget f) (forallb ok) (map out) (sum_over n) (sum_over w) l.
Proof.
  induction 1 as [|x l (Hn & Hw & Hx) Hl (IHn & IHw & IH)].
  { split; [done|split; [done|]]. intros b r Hb. cbn. rewrite spend_0. split.
    - intros [= <-]. done.
    - intros (_ & -> & _). done. }
  cbn [forallb map]. unfold spends. rewrite !sum_over_cons.
  split; [lia|split; [lia|]]. intros b r Hb. rewrite map_budget_cons. split.
  - intros H. destruct (f x b) as [[y b1]|] eqn:E1; [|done].
    apply Hx in E1 as (Hok & [= -> ->] & Hb1); [|done].
    destruct (map_budget f l _) as [[ys b2]|] eqn:E2; [|done].
    apply IH in E2 as (Hoks & [= -> ->] & Hb2); [|done].
    rewrite spend_spend in *. injection H as <-. cbn [forallb]. rewrite Hok, Hoks. done.
  - cbn [forallb]. rewrite andb_true_iff. intros ([Hok Hoks] & -> & Hfin).
    assert (H1 : within (spend b (n x) (w x))) by (eapply within_spend; [| |exact Hfin]; lia).
    rewrite (proj2 (Hx b _ Hb) (conj Hok (conj eq_refl H1))).
    rewrite (proj2 (IH _ (map out l, spend (spend b (n x) (w x)) (sum_over n l) (sum_over w l)) H1));
      [|split; [done|split; [done|]]]; rewrite spend_spend; done.
Qed.

Lemma encode_all_map_budget {A} (f : A -> step (list byte)) l b :
  encode_all f l b = let? '(os, b) := map_budget f l b in Ok (concat os, b).
Proof.
  revert b; induction l as [|x l IH]; intros b; [done|]. cbn [encode_all map_budget].
  destruct (f x b) as [[o b1]|]; [|done]. rewrite IH. destruct (map_budget f l b1) as [[os b2]|]; done.
Qed.

Lemma encode_keys_map_budget {A} (f : A -> step (list byte)) l b :
  encode_keys f l b = map_budget (fun e b => let? '(k, b) := f e.1 b in Ok ((k, f e.2), b)) l b.
Proof.
  revert b; induction l as [|[k x] l IH]; intros b; [done|]. cbn [encode_keys map_budget fst snd].
  destruct (f k b) as [[o b1]|]; [|done]. rewrite IH. done.
Qed.

Lemma visit_iff b b' : visit b = Ok b' <-> b' = spend b 1 1 /\ within (spend b 1 1).
Proof.
  unfold visit, spend, within. cbn [bdepth bitems]. repeat case_split; bool_hyps; split; intros H;
    simplify_eq; try (destruct H; lia); try naive_solver lia.
Qed.

Lemma collection_iff b len b' : bdepth b <= MAX_CANONICAL_VALUE_DEPTH ->
  collection b len = Ok b' <-> b' = spend b 0 (Z.of_nat len) /\ within (spend b 0 (Z.of_nat len)).
Proof.
  unfold collection, spend, within. cbn [bdepth bitems]. intros Hd.
  rewrite Z.add_0_r. case_split; bool_hyps; split; intros H; simplify_eq; try (destruct H; lia);
    try naive_solver lia.
Qed.

Lemma budget_string_iff s : budget_string (length s) = Ok tt <-> short s = true.
Proof.
  unfold budget_string, short. case_split; bool_hyps; rewrite Z.leb_le; split; intros; try done; lia.
Qed.

(** The budget calls in sequence position. *)
Lemma visit_bind {A} (k : Budget -> result ValueError A) b r :
  (let? b := visit b in k b) = Ok r <-> within (spend b 1 1) /\ k (spend b 1 1) = Ok r.
Proof.
  destruct (visit b) as [b'|e] eqn:E.
  - apply visit_iff in E as [-> H]. tauto.
  - split; [done|]. intros [H _]. exfalso.
    assert (visit b = Ok (spend b 1 1)) by (apply visit_iff; done). congruence.
Qed.

Lemma collection_bind {A} (k : Budget -> result ValueError A) len b r :
  bdepth b <= MAX_CANONICAL_VALUE_DEPTH ->
  (let? b := collection b len in k b) = Ok r <->
  within (spend b 0 (Z.of_nat len)) /\ k (spend b 0 (Z.of_nat len)) = Ok r.
Proof.
  intros Hd. destruct (collection b len) as [b'|e] eqn:E.
  - apply collection_iff in E as [-> H]; [|done]. tauto.
  - split; [done|]. intros [H _]. exfalso.
    assert (collection b len = Ok (spend b 0 (Z.of_nat len))) by (apply collection_iff; done). congruence.
Qed.

Lemma string_bind {A} (k : result ValueError A) s r :
  (let? _ := budget_string (length s) in k) = Ok r <-> short s = true /\ k = Ok r.
Proof.
  rewrite <- budget_string_iff. destruct (budget_string (length s)) as [[]|e]; naive_solver.
Qed.

(** A successful loop whose result is post-processed. *)
Lemma result_bind {E A B} (m : result E A) (k : A -> result E B) r :
  (match m with Ok a => k a | Err e => Err e end) = Ok r <-> exists a, m = Ok a /\ k a = Ok r.
Proof. destruct m; naive_solver. Qed.

Lemma spends_costs {A B} (f : A -> step B) ok out n w l :
  Forall (spends f ok out n w) l -> 0 <= sum_over n l /\ 0 <= sum_over w l.
Proof. intros H. destruct (map_budget_spends _ _ _ _ _ _ H) as (? & ? & _). done. Qed.

(** The pair steps of the map loops. *)
Lemma pair_spends {A B} (f : A -> step B) ok out n w e :
  spends f ok out n w e.1 -> spends f ok out n w e.2 ->
  spends (fun '(key, val) b => let? '(k, b) := f key b in let? '(x, b) := f val b in Ok ((k, x), b))
    (fun e => ok e.1 && ok e.2) (fun e => (out e.1, out e.2)) (fun e => n e.1 + n e.2) (fun e => w e.1 + w e.2) e.
Proof.
  destruct e as [k x]. cbn [fst snd]. intros (Hn1 & Hw1 & Hk) (Hn2 & Hw2 & Hx).
  split; [cbn; lia|split; [cbn; lia|]]. cbn [fst snd]. intros b r Hb. split.
  - intros H'. destruct (f k b) as [[k' b1]|] eqn:E1; [|done].
    apply Hk in E1 as (-> & [= -> ->] & H1); [|done].
    destruct (f x _) as [[x' b2]|] eqn:E2; [|done].
    apply Hx in E2 as (-> & [= -> ->] & H2'); [|done].
    rewrite spend_spend in *. injection H' as <-. done.
  - rewrite andb_true_iff. intros ([Hok Hox] & -> & Hfin).
    assert (H1 : within (spend b (n k) (w k))) by (eapply within_spend; [| |exact Hfin]; lia).
    rewrite (proj2 (Hk b _ Hb) (conj Hok (conj eq_refl H1))).
    rewrite (proj2 (Hx _ (out x, spend (spend b (n k) (w k)) (n x) (w x)) H1));
      [|split; [done|split; [done|]]]; rewrite spend_spend; done.
Qed.

Lemma pairs_spend {A B} (f : A -> step B) ok out n w entries :
  Forall (fun e => spends f ok out n w e.1 /\ spends f ok out n w e.2) entries ->
  Forall (spends (fun '(key, val) b =>
      let? '(k, b) := f key b in let? '(x, b) := f val b in Ok ((k, x), b))
    (fun e => ok e.1 && ok e.2) (fun e => (out e.1, out e.2))
    (fun e => n e.1 + n e.2) (fun e => w e.1 + w e.2)) entries.
Proof. induction 1 as [|e l [Hk Hx] _ IH]; constructor; [apply pair_spends|]; done. Qed.

(** A node that is visited and then finished without further cost. *)
Lemma leaf_spends {A B} (f : A -> step B) (ok : A -> bool) (out : A -> B) (n w : A -> Z) x
    (k : Budget -> result ValueError (B * Budget)) :
  n x = 1 -> w x = 1 -> (forall b, f x b = let? b := visit b in k b) ->
  (forall b r, k b = Ok r <-> ok x = true /\ r = (out x, b)) -> spends f ok out n w x.
Proof.
  intros Hn Hw Hf Hk. unfold spends. rewrite Hn, Hw. split; [lia|split; [lia|]].
  intros b r _. rewrite Hf, visit_bind, Hk. tauto.
Qed.

(** A node that is visited, declares a collection and runs a loop over it. *)
Lemma loop_spends {A B C} (f : A -> step B) (ok : A -> bool) (out : A -> B) (n w : A -> Z) x
    (g : step C) okl outl nl wl len :
  n x = 1 + nl -> w x = 1 + Z.of_nat len + wl ->
  spends (fun _ : unit => g) (fun _ => okl) (fun _ => outl) (fun _ => nl) (fun _ => wl) tt ->
  (exists k, (forall b, f x b = let? b := visit b in let? b := collection b len in
                        let? '(c, b) := g b in k c b)
             /\ forall b r, okl = true -> (k outl b = Ok r <-> ok x = true /\ r = (out x, b))) ->
  (ok x = true -> okl = true) -> spends f ok out n w x.
Proof.
  intros Hn Hw (Hnl & Hwl & Hg) (k & Hf & Hk) Hokl. unfold spends. rewrite Hn, Hw.
  split; [lia|split; [lia|]]. intros b r Hb. rewrite Hf, visit_bind. split.
  - intros [H1 H]. rewrite collection_bind in H by apply H1. destruct H as [H2 H].
    apply result_bind in H as ([c b'] & Hc & H). rewrite spend_spend in *.
    apply Hg in Hc as (Ho & [= -> ->] & H3); [|done]. rewrite spend_spend in *.
    apply Hk in H as (Hok & ->); [|done]. split_and!; [done| |].
    + f_equal; f_equal; lia.
    + eapply within_spend; [| |exact H3]; lia.
  - intros (Hok & -> & H3).
    assert (H1 : within (spend b 1 1)) by (eapply within_spend; [| |exact H3]; lia).
    split; [done|]. rewrite collection_bind by apply H1. rewrite spend_spend.
    assert (H2 : within (spend b (1 + 0) (1 + Z.of_nat len))) by (eapply within_spend; [| |exact H3]; lia).
    split; [done|].
    assert (H4 : within (spend (spend b (1 + 0) (1 + Z.of_nat len)) nl wl)).
    { rewrite spend_spend. eapply within_spend; [| |exact H3]; lia. }
    rewrite (proj2 (Hg _ (outl, spend (spend b (1 + 0) (1 + Z.of_nat len)) nl wl) H2)) by auto.
    apply Hk; [auto|]. split; [done|]. rewrite spend_spend. do 2 f_equal; lia.
Qed.

(** A loop as a step of its own. *)
Lemma spends_const {A B} (f : A -> step B) ok out n w x : spends f ok out n w x ->
  spends (fun _ : unit => f x) (fun _ => ok x) (fun _ => out x) (fun _ => n x) (fun _ => w x) tt.
Proof. done. Qed.

Ltac leaf := eapply leaf_spends; [done | done | intros; reflexivity |];
  intros ? ?; cbn; rewrite ?string_bind; naive_solver.

(** The decoder through [CborValue]: it accepts exactly the plain values that fit. *)
Lemma from_cbor_spends v : spends from_cbor plain of_cbor nodes weight v.
Proof.
  induction v as [z|z|s|s|items IH|entries IH|t v IH|x| |f] using CborValue_rect_nested; try leaf.
  - eapply loop_spends; [done | done | apply spends_const, (map_budget_spends _ _ _ _ _ _ IH) | | done].
    exists (fun c b => Ok (VArray c, b)). split; [done|]. intros b r Hok. cbn [plain of_cbor].
    rewrite Hok. naive_solver.
  - apply pairs_spend in IH.
    eapply loop_spends; [done | done | apply spends_const, (map_budget_spends _ _ _ _ _ _ IH) | | done].
    exists (fun c b => Ok (VMap c, b)). split; [done|]. intros b r Hok. cbn [plain of_cbor].
    rewrite Hok. naive_solver.
  - (* a tag is refused after the visit *)
    split; [pose proof (nodes_pos (CTag t v)); lia|]. split; [pose proof (weight_pos (CTag t v)); lia|].
    intros b r _. cbn [from_cbor]. rewrite visit_bind. naive_solver.
  - eapply leaf_spends; [done | done | intros; reflexivity|].
    intros b r. cbn. destruct (float_refused f); naive_solver.
Qed.

(** ** The encoder *)

Definition encodes (c : CborValue) : bool := is_ok (try_encode c).

Lemma encodes_iff c o : try_encode c = Ok o <-> encodes c = true /\ o = encoded_or_nil c.
Proof. unfold encodes, encoded_or_nil. destruct (try_encode c); naive_solver. Qed.

(** A loop of independent fallible steps, through the success and the output of each. *)
Lemma traverse_iff {A B E} (f : A -> result E B) (ok : A -> bool) (out : A -> B) l k :
  (forall x y, f x = Ok y <-> ok x = true /\ y = out x) ->
  traverse f l = Ok k <-> forallb ok l = true /\ k = map out l.
Proof.
  intros Hf. revert k; induction l as [|x l IH]; intros k; [naive_solver|].
  cbn [traverse forallb map]. rewrite result_bind, andb_true_iff. split.
  - intros (y & [Hok ->]%Hf & H). apply result_bind in H as (ys & [Hoks ->]%IH & [= <-]). done.
  - intros [[Hok Hoks] ->]. exists (out x). rewrite Hf. split; [done|].
    apply result_bind. exists (map out l). rewrite IH. done.
Qed.

Definition encode_entry (e : CborValue * CborValue) : list byte * list byte :=
  (encoded_or_nil e.1, encoded_or_nil e.2).

Lemma try_encode_array_iff items o : try_encode (CArray items) = Ok o <->
  forallb encodes items = true /\ o = array (length items) ++ concat (map encoded_or_nil items).
Proof.
  cbn [try_encode]. rewrite result_bind. split.
  - intros (k & H & [= <-]). apply (traverse_iff _ _ _ _ _ encodes_iff) in H as [Hok ->]. done.
  - intros [Hok ->]. exists (map encoded_or_nil items).
    rewrite (traverse_iff _ _ _ _ _ encodes_iff). done.
Qed.

Lemma try_encode_map_iff entries o : try_encode (CMap entries) = Ok o <->
  forallb (fun e => encodes e.1 && encodes e.2) entries = true
  /\ has_duplicate_key (sort_by_key (map encode_entry entries)) = false
  /\ o = cmap (length entries) ++ concat (map (fun e => e.1 ++ e.2) (sort_by_key (map encode_entry entries))).
Proof.
  cbn [try_encode]. rewrite result_bind.
  assert (Hf : forall (e : CborValue * CborValue) y,
    (let '(key, val) := e in let? k := try_encode key in let? x := try_encode val in Ok (k, x)) = @Ok CborError _ y
    <-> encodes e.1 && encodes e.2 = true /\ y = encode_entry e).
  { intros [k x] y. cbn [fst snd]. rewrite andb_true_iff. unfold encodes, encode_entry, encoded_or_nil.
    cbn [fst snd]. destruct (try_encode k), (try_encode x); naive_solver. }
  split.
  - intros (l & H & Hl). apply (traverse_iff _ _ _ _ _ Hf) in H as [Hok ->].
    rewrite length_sort_by_key, length_map in Hl. case_split_in Hl; simplify_eq. done.
  - intros (Hok & Hd & ->). exists (map encode_entry entries).
    rewrite (traverse_iff _ _ _ _ _ Hf), Hd, length_sort_by_key, length_map. done.
Qed.

Lemma sum_over_map {A B} (g : B -> Z) (h : A -> B) l : sum_over g (map h l) = sum_over (fun x => g (h x)) l.
Proof. unfold sum_over. induction l; cbn; [done|]. rewrite IHl. done. Qed.

Lemma sum_over_plus {A} (g h : A -> Z) l : sum_over (fun x => g x + h x) l = sum_over g l + sum_over h l.
Proof. unfold sum_over. induction l; cbn; [done|]. rewrite IHl. lia. Qed.

#[global] Instance sum_over_proper {A} (g : A -> Z) : Proper ((≡ₚ) ==> (=)) (sum_over g).
Proof. unfold sum_over. induction 1; cbn; lia. Qed.

#[global] Instance forallb_proper {A} (p : A -> bool) : Proper ((≡ₚ) ==> (=)) (forallb p).
Proof. induction 1; cbn; [done | congruence | rewrite !andb_assoc, (andb_comm (p y)); done | congruence]. Qed.

Lemma forallb_and {A} (p q : A -> bool) l : forallb (fun x => p x && q x) l = forallb p l && forallb q l.
Proof. induction l; cbn; [done|]. rewrite IHl. destruct (p a), (q a), (forallb p l); done. Qed.

Lemma forallb_compose {A B} (p : B -> bool) (h : A -> B) l : forallb p (map h l) = forallb (fun x => p (h x)) l.
Proof. induction l; cbn; [done|]. rewrite IHl. done. Qed.

Lemma map_budget_compose {A B C} (f : B -> step C) (h : A -> B) l b :
  map_budget f (map h l) b = map_budget (fun x => f (h x)) l b.
Proof.
  revert b; induction l as [|x l IH]; intros b; [done|]. cbn [map]. rewrite !map_budget_cons.
  destruct (f (h x) b) as [[y b']|]; [|done]. rewrite IH. done.
Qed.

(** Value trees nest the same way. *)
Definition is_leaf (v : CanonicalValue) : bool :=
  match v with VArray _ | VMap _ => false | _ => true end.

Section CanonicalInduction.
Variable P : CanonicalValue -> Prop.
Hypothesis HArray : forall items, Forall P items -> P (VArray items).
Hypothesis HMap : forall entries, Forall (fun e => P e.1 /\ P e.2) entries -> P (VMap entries).
Hypothesis HLeaf : forall v, is_leaf v = true -> P v.

Fixpoint CanonicalValue_rect_nested (v : CanonicalValue) : P v :=
  match v with
  | VArray items =>
      HArray items ((fix go l : Forall P l :=
        match l with
        | [] => Forall_nil_2 P
        | x :: l => Forall_cons_2 P x l (CanonicalValue_rect_nested x) (go l)
        end) items)
  | VMap entries =>
      HMap entries ((fix go l : Forall (fun e => P e.1 /\ P e.2) l :=
        match l with
        | [] => Forall_nil_2 _
        | (k, x) :: l =>
            Forall_cons_2 (fun e => P e.1 /\ P e.2) (k, x) l
              (conj (CanonicalValue_rect_nested k) (CanonicalValue_rect_nested x)) (go l)
        end) entries)
  | v => HLeaf v eq_refl
  end.
End CanonicalInduction.

Definition v_ok (v : CanonicalValue) : bool := encodes (to_cbor v) && plain (to_cbor v).
Definition v_out (v : CanonicalValue) : list byte := encoded_or_nil (to_cbor v).
Definition v_nodes (v : CanonicalValue) : Z := nodes (to_cbor v).
Definition v_weight (v : CanonicalValue) : Z := weight (to_cbor v).

Abbreviation encode_spends := (spends encode_into v_ok v_out v_nodes v_weight).

Lemma encode_all_spends {A} (f : A -> step (list byte)) ok out n w l : Forall (spends f ok out n w) l ->
  spends (encode_all f) (forallb ok) (fun l => concat (map out l)) (sum_over n) (sum_over w) l.
Proof.
  intros H. destruct (map_budget_spends _ _ _ _ _ _ H) as (Hn & Hw & Hm).
  split; [done|split; [done|]]. intros b r Hb. rewrite encode_all_map_budget, result_bind. split.
  - intros ([os b'] & (Hok & [= -> ->] & Hin)%Hm & [= <-]); done.
  - intros (Hok & -> & Hin). exists (map out l, spend b (sum_over n l) (sum_over w l)).
    rewrite Hm by done. done.
Qed.

(** The key phase of the map case. *)
Lemma key_phase_spends entries : Forall (fun e => encode_spends e.1 /\ encode_spends e.2) entries ->
  spends (encode_keys encode_into) (forallb (fun e => v_ok e.1))
    (map (fun e => (v_out e.1, encode_into e.2)))
    (sum_over (fun e => v_nodes e.1)) (sum_over (fun e => v_weight e.1)) entries.
Proof.
  intros H.
  assert (Hm : Forall (spends (fun e b => let? '(k, b) := encode_into e.1 b in Ok ((k, encode_into e.2), b))
            (fun e => v_ok e.1) (fun e => (v_out e.1, encode_into e.2))
            (fun e => v_nodes e.1) (fun e => v_weight e.1)) entries).
  { eapply Forall_impl; [|exact H]. intros [k x] [(Hn & Hw & Hk) _]. cbn [fst snd] in *.
    split; [done|split; [done|]]. intros b r Hb. cbn [fst snd]. rewrite result_bind. split.
    - intros ([o b'] & (Hok & [= -> ->] & Hin)%Hk & [= <-]); done.
    - intros (Hok & -> & Hin). exists (v_out k, spend b (v_nodes k) (v_weight k)). rewrite Hk by done. done. }
  destruct (map_budget_spends _ _ _ _ _ _ Hm) as (Hn & Hw & Hr).
  split; [done|split; [done|]]. intros b r Hb. rewrite encode_keys_map_budget. apply Hr; done.
Qed.

(** The value phase, over any order of the entries. *)
Lemma value_phase_spends (l : list (list byte * CanonicalValue)) : Forall (fun e => encode_spends e.2) l ->
  spends (fun l => encode_all (fun e b => let? '(o, b) := e.2 b in Ok (e.1 ++ o, b))
                     (map (fun e => (e.1, encode_into e.2)) l))
    (forallb (fun e => v_ok e.2)) (fun l => concat (map (fun e => e.1 ++ v_out e.2) l))
    (sum_over (fun e => v_nodes e.2)) (sum_over (fun e => v_weight e.2)) l.
Proof.
  intros H.
  assert (Hm : Forall (spends (fun e b => let? '(o, b) := encode_into e.2 b in Ok (e.1 ++ o, b))
            (fun e => v_ok e.2) (fun e => e.1 ++ v_out e.2)
            (fun e => v_nodes e.2) (fun e => v_weight e.2)) l).
  { eapply Forall_impl; [|exact H]. intros [k x] (Hn & Hw & Hx). cbn [fst snd] in *.
    split; [done|split; [done|]]. intros b r Hb. cbn [fst snd]. rewrite result_bind. split.
    - intros ([o b'] & (Hok & [= -> ->] & Hin)%Hx & [= <-]); done.
    - intros (Hok & -> & Hin). exists (v_out x, spend b (v_nodes x) (v_weight x)). rewrite Hx by done. done. }
  destruct (encode_all_spends _ _ _ _ _ _ Hm) as (Hn & Hw & Hr).
  split; [done|split; [done|]]. intros b r Hb.
  rewrite encode_all_map_budget, map_budget_compose. cbn [fst snd].
  rewrite <- (encode_all_map_budget (fun (e : list byte * CanonicalValue) b =>
    let? '(o, b) := encode_into e.2 b in Ok (e.1 ++ o, b))). apply Hr; done.
Qed.

(** The entries with their encoded keys, as they are sorted. *)
Definition keyed (entries : list (CanonicalValue * CanonicalValue)) : list (list byte * CanonicalValue) :=
  sort_by_key (map (fun e => (v_out e.1, e.2)) entries).

Lemma keyed_perm entries : map snd (keyed entries) ≡ₚ map snd entries.
Proof. unfold keyed. rewrite sort_by_key_perm, map_map. done. Qed.

Lemma length_keyed entries : length (keyed entries) = length entries.
Proof. unfold keyed. rewrite length_sort_by_key, length_map. done. Qed.

Lemma keyed_sum g entries : sum_over (fun e => g e.2) (keyed entries) = sum_over (fun e => g e.2) entries.
Proof. rewrite <- (sum_over_map g snd), keyed_perm, sum_over_map. done. Qed.

Lemma keyed_forallb p entries : forallb (fun e => p e.2) (keyed entries) = forallb (fun e => p e.2) entries.
Proof. rewrite <- (forallb_compose p snd), keyed_perm, forallb_compose. done. Qed.

Lemma has_duplicate_key_map {A B} (f : A -> B) (l : list (list byte * A)) :
  has_duplicate_key (map (fun e => (e.1, f e.2)) l) = has_duplicate_key l.
Proof. induction l as [|x [|y l] IH]; [done..|]. cbn [map has_duplicate_key] in *. rewrite IH. done. Qed.

Definition map_body (entries : list (CanonicalValue * CanonicalValue)) : step (list byte) := fun b =>
  let? '(encoded_keys, b) := encode_keys encode_into entries b in
  let encoded_keys := sort_by_key encoded_keys in
  if has_duplicate_key encoded_keys then Err (BoundsExceeded "duplicate map key")
  else
    let? '(body, b) :=
      encode_all (fun e b => let? '(o, b) := e.2 b in Ok (e.1 ++ o, b)) encoded_keys b in
    Ok (cmap (length encoded_keys) ++ body, b).

Lemma map_body_spends entries : Forall (fun e => encode_spends e.1 /\ encode_spends e.2) entries ->
  spends map_body
    (fun l => forallb (fun e => v_ok e.1 && v_ok e.2) l && negb (has_duplicate_key (keyed l)))
    (fun l => cmap (length l) ++ concat (map (fun e => e.1 ++ v_out e.2) (keyed l)))
    (sum_over (fun e => v_nodes e.1 + v_nodes e.2)) (sum_over (fun e => v_weight e.1 + v_weight e.2)) entries.
Proof.
  intros H. destruct (key_phase_spends entries H) as (Hkn & Hkw & Hk).
  assert (Hv : Forall (fun e => encode_spends e.2) (keyed entries)).
  { apply (List.Forall_map snd encode_spends). rewrite keyed_perm. apply List.Forall_map.
    eapply Forall_impl; [|exact H]. intros e [_ He]. exact He. }
  apply value_phase_spends in Hv as (Hvn & Hvw & Hv).
  assert (Hsorted : sort_by_key (map (fun e => (v_out e.1, encode_into e.2)) entries)
                    = map (fun e => (e.1, encode_into e.2)) (keyed entries)).
  { unfold keyed. rewrite <- sort_by_key_map, map_map. done. }
  rewrite (keyed_sum v_nodes) in Hvn, Hv. rewrite (keyed_sum v_weight) in Hvw, Hv.
  rewrite (keyed_forallb v_ok) in Hv.
  unfold spends. rewrite !sum_over_plus, forallb_and. split; [lia|split; [lia|]].
  intros b r Hb. unfold map_body. rewrite result_bind. split.
  - intros ([l b'] & (Hok & [= -> ->] & Hin)%Hk & Hr); [|done].
    rewrite Hsorted, has_duplicate_key_map in Hr. case_split_in Hr; [done|].
    apply result_bind in Hr as ([o b''] & (Hok' & [= -> ->] & Hin')%Hv & [= <-]); [|done].
    rewrite spend_spend in *. rewrite length_map, length_keyed.
    rewrite Hok, Hok'. done.
  - rewrite !andb_true_iff, negb_true_iff. intros ([[Hok Hok'] Hd] & -> & Hin).
    assert (H1 : within (spend b (sum_over (fun e => v_nodes e.1) entries) (sum_over (fun e => v_weight e.1) entries)))
      by (eapply within_spend; [| |exact Hin]; lia).
    eexists. rewrite Hk by done. split; [split; [done|split; [reflexivity|done]]|].
    cbv beta iota zeta. rewrite Hsorted, has_duplicate_key_map, Hd. apply result_bind.
    eexists. rewrite Hv by done. rewrite spend_spend. split; [split; [done|split; [reflexivity|done]]|].
    cbv beta iota. rewrite length_map, length_keyed. done.
Qed.

(** The keyed entries are the encoded entries of the CBOR map. *)
Lemma keyed_encode_entry entries :
  sort_by_key (map encode_entry (map (fun e => (to_cbor e.1, to_cbor e.2)) entries))
  = map (fun e => (e.1, v_out e.2)) (keyed entries).
Proof. unfold keyed. rewrite <- sort_by_key_map, !map_map. done. Qed.

Lemma v_array items : v_ok (VArray items) = forallb v_ok items
  /\ (v_ok (VArray items) = true -> v_out (VArray items) = array (length items) ++ concat (map v_out items)).
Proof.
  assert (He : encodes (to_cbor (VArray items)) = forallb (fun v => encodes (to_cbor v)) items).
  { apply eq_true_iff_eq. cbn [to_cbor]. rewrite <- forallb_compose. split.
    - intros H. pose proof (proj2 (encodes_iff _ _) (conj H eq_refl)) as E.
      apply try_encode_array_iff in E. tauto.
    - intros H. eapply encodes_iff, try_encode_array_iff. split; [done|reflexivity]. }
  unfold v_ok. rewrite He, forallb_and. cbn [to_cbor plain]. rewrite forallb_compose. split; [done|].
  rewrite <- forallb_compose, andb_true_iff. intros [Hok _]. unfold v_out.
  assert (E : try_encode (to_cbor (VArray items)) = Ok (array (length items) ++ concat (map v_out items))).
  { apply try_encode_array_iff. rewrite length_map, map_map. done. }
  apply encodes_iff in E as [_ <-]. done.
Qed.

Lemma v_map entries :
  v_ok (VMap entries) = forallb (fun e => v_ok e.1 && v_ok e.2) entries && negb (has_duplicate_key (keyed entries))
  /\ (v_ok (VMap entries) = true ->
      v_out (VMap entries) = cmap (length entries) ++ concat (map (fun e => e.1 ++ v_out e.2) (keyed entries))).
Proof.
  set (Q := forallb (fun e => encodes (to_cbor e.1) && encodes (to_cbor e.2)) entries).
  assert (E : forall o, try_encode (to_cbor (VMap entries)) = Ok o <->
    Q = true /\ has_duplicate_key (keyed entries) = false
    /\ o = cmap (length entries) ++ concat (map (fun e => e.1 ++ v_out e.2) (keyed entries))).
  { intros o. cbn [to_cbor]. rewrite try_encode_map_iff, keyed_encode_entry, has_duplicate_key_map, length_map,
      forallb_compose, map_map. done. }
  assert (He : encodes (to_cbor (VMap entries)) = Q && negb (has_duplicate_key (keyed entries))).
  { apply eq_true_iff_eq. rewrite andb_true_iff, negb_true_iff. split.
    - intros H. destruct (proj1 (E _) (proj2 (encodes_iff _ _) (conj H eq_refl))) as (? & ? & _). done.
    - intros [H1 H2]. eapply encodes_iff, E. split; [done|split; [done|reflexivity]]. }
  unfold v_ok at 1 4. rewrite He. cbn [to_cbor plain]. rewrite forallb_compose. split.
  - unfold Q, v_ok. cbn [fst snd]. rewrite !forallb_and.
    destruct (has_duplicate_key _); cbn [negb]; rewrite ?andb_false_r, ?andb_true_r; [done|].
    rewrite <- !andb_assoc. f_equal. rewrite !andb_assoc. f_equal. apply andb_comm.
  - rewrite !andb_true_iff, negb_true_iff. intros [[H1 H2] _]. unfold v_out.
    pose proof (proj2 (E _) (conj H1 (conj H2 eq_refl))) as H. apply encodes_iff in H as [_ <-]. done.
Qed.

(** The encoder succeeds exactly where the CBOR encoder does on a plain value that fits, and
    writes the same bytes. *)
Lemma encode_into_spends v : encode_spends v.
Proof.
  induction v as [items IH|entries IH|v Hleaf] using CanonicalValue_rect_nested.
  - destruct (v_array items) as [Hok Hout].
    pose proof (spends_const _ _ _ _ _ _ (encode_all_spends _ _ _ _ _ _ IH)) as Hg.
    eapply loop_spends with (len := length items); [| |exact Hg| |].
    + unfold v_nodes. cbn [to_cbor nodes]. rewrite sum_over_map. done.
    + unfold v_weight. cbn [to_cbor weight]. rewrite sum_over_map, length_map. done.
    + exists (fun c b => Ok (array (length items) ++ c, b)). split; [done|]. intros b r H.
      rewrite <- Hok in H. rewrite (Hout H). naive_solver.
    + congruence.
  - destruct (v_map entries) as [Hok Hout].
    pose proof (spends_const _ _ _ _ _ _ (map_body_spends _ IH)) as Hg.
    eapply loop_spends with (len := length entries); [| |exact Hg| |].
    + unfold v_nodes. cbn [to_cbor nodes]. rewrite sum_over_map. done.
    + unfold v_weight. cbn [to_cbor weight]. rewrite sum_over_map, length_map. done.
    + exists (fun c b => Ok (c, b)). split.
      * intros b. cbn [encode_into]. destruct (visit b); [|done]. destruct (collection _ _); [|done].
        unfold map_body. repeat case_split; simplify_eq; done.
      * intros b r H. cbv beta in H. rewrite <- Hok in H. rewrite (Hout H). naive_solver.
    + cbv beta. congruence.
  - destruct v; try done; try leaf. 
    eapply leaf_spends; [done | done | intros; reflexivity|].
    intros b r. unfold v_ok, v_out, encodes, encoded_or_nil. cbn [to_cbor try_encode plain].
    unfold float_refused. destruct (f64_is_nan bits), (f64_is_neg_zero bits); cbn;
      (split; [intros H; first [discriminate H | injection H as <-; done]
              | intros [H ->]; first [discriminate H | done]]).
Qed.

(** ** What the budget allows *)

Lemma weight_le_nodes c : weight c <= 2 * nodes c - 1.
Proof.
  induction c as [| | | |items IH|entries IH|t v IH| | |] using CborValue_rect_nested;
    cbn [nodes weight]; try lia.
  - enough (Z.of_nat (length items) + sum_over weight items <= 2 * sum_over nodes items) by lia.
    unfold sum_over. induction IH; cbn in *; lia.
  - enough (Z.of_nat (length entries) + sum_over (fun e => weight e.1 + weight e.2) entries
            <= 2 * sum_over (fun e => nodes e.1 + nodes e.2) entries) by lia.
    unfold sum_over. induction IH as [|e l [? ?] ? ?]; cbn in *; lia.
Qed.

(** The item limit never decides: a value of at most 32 nodes spends at most 63 items. *)
Lemma within_new c : within (spend budget_new (nodes c) (weight c)) <-> nodes c <= MAX_CANONICAL_VALUE_DEPTH.
Proof.
  pose proof (weight_le_nodes c). unfold within, spend, budget_new. cbn [bdepth bitems].
  unfold MAX_CANONICAL_VALUE_DEPTH, MAX_CANONICAL_VALUE_ITEMS. lia.
Qed.

Lemma budget_new_within : within budget_new.
Proof. done. Qed.

Lemma from_cbor_new c v b : from_cbor c budget_new = Ok (v, b) <->
  plain c = true /\ v = of_cbor c /\ b = spend budget_new (nodes c) (weight c)
  /\ nodes c <= MAX_CANONICAL_VALUE_DEPTH.
Proof.
  destruct (from_cbor_spends c) as (_ & _ & H). rewrite (H _ _ budget_new_within), within_new.
  split; [intros (? & [= -> ->] & ?); done|]. intros (? & -> & -> & ?). done.
Qed.

Lemma to_of_cbor c : plain c = true -> to_cbor (of_cbor c) = c.
Proof.
  induction c as [| | | |items IH|entries IH|t v IH| | |] using CborValue_rect_nested;
    cbn [plain of_cbor to_cbor]; try done; intros H; f_equal; rewrite forallb_forall in H;
    rewrite Forall_forall in IH; rewrite map_map; apply map_id_in.
  - intros x Hx. apply IH; auto.
  - intros [k x] Hx. specialize (H _ Hx). destruct (IH _ Hx) as [IHk IHx]. cbn in *. bool_hyps.
    rewrite IHk, IHx; done.
Qed.

(** The canonical reordering changes neither the cost nor plainness. *)
Lemma canon_entry_perm entries :
  map snd (sort_by_key (map (fun '(k, x) => (encoded_or_nil k, (canon k, canon x))) entries))
  ≡ₚ map (fun e => (canon e.1, canon e.2)) entries.
Proof. rewrite sort_by_key_perm, map_map. erewrite map_ext; [reflexivity|]. intros [k x]. done. Qed.

Lemma nodes_canon c : nodes (canon c) = nodes c.
Proof.
  induction c as [| | | |items IH|entries IH|t v IH| | |] using CborValue_rect_nested;
    cbn [canon nodes]; try done; f_equal.
  - rewrite sum_over_map. unfold sum_over. induction IH; cbn; lia.
  - rewrite canon_entry_perm, sum_over_map. unfold sum_over.
    induction IH as [|e l [? ?] ? ?]; cbn in *; lia.
  - done.
Qed.

Lemma plain_canon c : plain (canon c) = plain c.
Proof.
  induction c as [| | | |items IH|entries IH|t v IH| | |] using CborValue_rect_nested;
    cbn [canon plain]; try done.
  - rewrite forallb_compose. induction IH; cbn; congruence.
  - rewrite canon_entry_perm, forallb_compose. cbn [fst snd].
    induction IH as [|e l [? ?] ? ?]; cbn in *; congruence.
Qed.

Lemma depth_lt_nodes c : Z.of_nat (cbor_depth c) < nodes c.
Proof.
  assert (Hmax : forall A (f : A -> nat) (g : A -> Z) l, Forall (fun x => Z.of_nat (f x) <= g x) l ->
    Z.of_nat (max_over f l) <= sum_over g l).
  { intros A f g l H. unfold max_over, sum_over.
    enough (Z.of_nat (foldr (fun x acc => f x `max` acc)%nat 0%nat l) <= foldr (fun x acc => g x + acc) 0 l
            /\ 0 <= foldr (fun x acc => g x + acc) 0 l) by tauto.
    induction H as [|x l Hx _ IH]; cbn; [lia|]. lia. }
  induction c as [| | | |items IH|entries IH|t v IH| | |] using CborValue_rect_nested;
    cbn [cbor_depth nodes]; try lia.
  - assert (Hm := Hmax _ (fun x => S (cbor_depth x)) nodes items). rewrite Forall_forall in IH.
    enough (Z.of_nat (max_over (fun x => S (cbor_depth x)) items) <= sum_over nodes items) by lia.
    apply Hm, Forall_forall. intros x Hx. specialize (IH x Hx). lia.
  - assert (Hm := Hmax _ (fun e => S (cbor_depth e.1 `max` cbor_depth e.2)) (fun e => nodes e.1 + nodes e.2) entries).
    rewrite Forall_forall in IH.
    enough (Z.of_nat (max_over (fun e => S (cbor_depth e.1 `max` cbor_depth e.2)) entries)
            <= sum_over (fun e => nodes e.1 + nodes e.2) entries) by lia.
    apply Hm, Forall_forall. intros x Hx. destruct (IH x Hx). pose proof (nodes_pos x.1).
    pose proof (nodes_pos x.2). lia.
Qed.

Lemma value_bytes_iff v o : value_to_canonical_bytes v = Ok o <->
  to_canonical_bytes (to_cbor v) = Ok o /\ plain (to_cbor v) = true
  /\ nodes (to_cbor v) <= MAX_CANONICAL_VALUE_DEPTH.
Proof.
  unfold value_to_canonical_bytes, value_try_encode, to_canonical_bytes. rewrite result_bind, encodes_iff.
  destruct (encode_into_spends v) as (_ & _ & H). split.
  - intros ([out b] & (Hok & [= -> ->] & Hin)%H & [= <-]); [|done]. apply within_new in Hin.
    unfold v_ok in Hok. bool_hyps. done.
  - intros ([He ->] & Hp & Hn). exists (v_out v, spend budget_new (v_nodes v) (v_weight v)).
    rewrite H by done. split; [|done]. split_and!; [|done|apply within_new; done].
    unfold v_ok. rewrite He, Hp. done.
Qed.

(** ** The streaming reader *)

Lemma read_n_length {A E} (f : list byte -> result E (A * list byte)) n rest l rest' :
  read_n f n rest = Ok (l, rest') -> length l = n.
Proof.
  revert rest l; induction n as [|n IH]; intros rest l H; cbn in H; run_match H; cbn; [done|]. f_equal. eauto.
Qed.

Lemma read_entries_length {A} (f : list byte -> result CborError (A * list byte)) n prev rest l rest' :
  read_entries f n prev rest = Ok (l, rest') -> length l = n.
Proof.
  revert prev rest l; induction n as [|n IH]; intros prev rest l H; cbn in H; run_match H; cbn; [done|].
  f_equal. eauto.
Qed.

(** The item read where the decoder reads a value. *)
Definition item_of (n : nat) (c : CborValue) (rest : list byte) (item : Item) (r : list byte) : Prop :=
  match c with
  | CUnsigned v => item = IUnsigned v /\ r = rest
  | CNegative v => item = INegative v /\ r = rest
  | CBytes s => item = IBytes s /\ r = rest
  | CText s => item = IText s /\ r = rest
  | CArray items => item = IArray (length items) /\ read_n (decode_value n) (length items) r = Ok (items, rest)
  | CMap es => item = IMap (length es) /\ read_entries (decode_value n) (length es) None r = Ok (es, rest)
  | CTag _ _ => False
  | CBool b => item = IBool b /\ r = rest
  | CNull => item = INull /\ r = rest
  | CFloat f => item = IFloat f /\ r = rest
  end.

Lemma read_simple_item b input c rest n : Z.shiftr (b2z b) 5 = 7 -> decode_simple b input = Ok (c, rest) ->
  exists item r, read_item (rd (b :: input)) = Ok (item, rd r) /\ item_of n c rest item r.
Proof.
  intros E7 H. rewrite read_item_rd. cbn [read_item_inner]. rewrite E7. cbn [Z.eqb Pos.eqb].
  unfold decode_simple, decode_f16, decode_f32, decode_f64 in H.
  unfold float_item, read_f16, read_f32, read_f64.
  run_match H; eexists _, _; (split; [reflexivity | cbn; done]).
Qed.

Lemma read_decoded_item n input c rest : decode_value (S n) input = Ok (c, rest) ->
  exists item r, read_item (rd input) = Ok (item, rd r) /\ item_of n c rest item r.
Proof.
  destruct input as [|b input]; [done|]. cbn [decode_value].
  destruct (Z.eqb_spec (Z.shiftr (b2z b) 5) 7) as [E7|E7]; [apply read_simple_item; done|].
  intros H. rewrite read_item_rd. cbn [read_item_inner].
  apply Z.eqb_neq in E7. rewrite E7. unfold checked_len.
  run_match H; eexists _, _; (split; [reflexivity|]); cbn [item_of]; try done.
  - pose proof (read_n_length _ _ _ _ _ Heqr0) as Hl. rewrite Hl. done.
  - pose proof (read_entries_length _ _ _ _ _ _ Heqr0) as Hl. rewrite Hl. done.
Qed.

Definition reads_as (n : nat) : Prop := forall input c rest fuel b,
  decode_value n input = Ok (c, rest) -> plain c = true ->
  MAX_CANONICAL_VALUE_DEPTH + 1 - bdepth b <= Z.of_nat fuel ->
  within (spend b (nodes c) (weight c)) ->
  read_value fuel (rd input) b = Ok (of_cbor c, rd rest, spend b (nodes c) (weight c)).

Lemma read_items_agree n fuel : reads_as n -> forall k input items rest b,
  read_n (decode_value n) k input = Ok (items, rest) -> forallb plain items = true ->
  MAX_CANONICAL_VALUE_DEPTH + 1 - bdepth b <= Z.of_nat fuel ->
  within (spend b (sum_over nodes items) (sum_over weight items)) ->
  read_value_items (read_value fuel) k (rd input) b
  = Ok (map of_cbor items, rd rest, spend b (sum_over nodes items) (sum_over weight items)).
Proof.
  intros Hn. induction k as [|k IH]; intros input items rest b H Hp Hf Hw; cbn in H.
  - simplify_eq. cbn. rewrite spend_0. done.
  - run_match H. cbn [forallb] in Hp. bool_hyps. rewrite !sum_over_cons in *.
    assert (Hc := spends_costs _ _ _ _ _ l0 (proj2 (Forall_forall _ _) (fun x _ => from_cbor_spends x))).
    cbn [read_value_items]. pose proof (nodes_pos c).
    erewrite Hn; [|eassumption|done|done|eapply within_spend; [| |exact Hw]; lia].
    erewrite IH; [|eassumption|done|cbn; lia|rewrite spend_spend; done].
    rewrite spend_spend. done.
Qed.

Lemma read_entries_agree n fuel : reads_as n -> forall k prev input entries rest b,
  read_entries (decode_value n) k prev input = Ok (entries, rest) ->
  forallb (fun e => plain e.1 && plain e.2) entries = true ->
  MAX_CANONICAL_VALUE_DEPTH + 1 - bdepth b <= Z.of_nat fuel ->
  within (spend b (sum_over (fun e => nodes e.1 + nodes e.2) entries)
                  (sum_over (fun e => weight e.1 + weight e.2) entries)) ->
  read_value_entries (read_value fuel) k prev (rd input) b
  = Ok (map (fun e => (of_cbor e.1, of_cbor e.2)) entries, rd rest,
        spend b (sum_over (fun e => nodes e.1 + nodes e.2) entries)
                (sum_over (fun e => weight e.1 + weight e.2) entries)).
Proof.
  intros Hn. induction k as [|k IH]; intros prev input entries rest b H Hp Hf Hw; cbn in H.
  - simplify_eq. cbn. rewrite spend_0. done.
  - run_match H. cbn [forallb fst snd] in Hp. bool_hyps. rewrite !sum_over_cons in *. cbn [fst snd] in *.
    assert (Hc := spends_costs _ _ _ _ _ l1
      (pairs_spend from_cbor _ _ _ _ l1 (proj2 (Forall_forall _ _) (fun x _ => conj (from_cbor_spends x.1) (from_cbor_spends x.2))))).
    cbn [read_value_entries]. pose proof (nodes_pos c). pose proof (weight_pos c).
    pose proof (nodes_pos c0). pose proof (weight_pos c0).
    erewrite Hn; [|eassumption|done|done|eapply within_spend; [| |exact Hw]; lia].
    cbn [unread]. rewrite Heqr0. cbn [map_err].
    erewrite Hn; [|eassumption|done|cbn; lia|rewrite spend_spend; eapply within_spend; [| |exact Hw]; lia].
    rewrite spend_spend.
    erewrite IH; [|eassumption|done|cbn; lia|rewrite spend_spend; done].
    rewrite spend_spend. done.
Qed.

Lemma read_value_reads n : reads_as n.
Proof.
  induction n as [|n IH]; intros input c rest fuel b H Hp Hf Hw; [done|].
  pose proof (nodes_pos c) as Hn1. pose proof (weight_pos c) as Hw1.
  assert (Hv : within (spend b 1 1)) by (eapply within_spend; [| |exact Hw]; lia).
  destruct fuel as [|fuel]; [unfold within, spend in Hv; cbn in Hv; lia|].
  cbn [read_value]. apply visit_bind. split; [exact Hv|].
  destruct (read_decoded_item _ _ _ _ H) as (item & r & -> & Hi). cbn [map_err].
  destruct c as [z|z|s|s|items|es|t c|x| |f]; cbn [item_of plain] in *;
    try (destruct Hi as [-> ->]; cbv iota); try done; try (apply string_bind; done).
  - destruct Hi as [-> Hr]. cbn [nodes weight of_cbor] in *.
    assert (Hc := spends_costs _ _ _ _ _ items (proj2 (Forall_forall _ _) (fun x _ => from_cbor_spends x))).
    apply collection_bind; [apply Hv|]. rewrite spend_spend.
    split; [eapply within_spend; [| |exact Hw]; lia|].
    erewrite read_items_agree; [|exact IH|eassumption|done|cbn; lia|].
    + rewrite spend_spend. f_equal; f_equal; f_equal; lia.
    + rewrite spend_spend. eapply within_spend; [| |exact Hw]; lia.
  - destruct Hi as [-> Hr]. cbn [nodes weight of_cbor] in *.
    assert (Hc := spends_costs _ _ _ _ _ es
      (pairs_spend from_cbor _ _ _ _ es (proj2 (Forall_forall _ _) (fun x _ => conj (from_cbor_spends x.1) (from_cbor_spends x.2))))).
    apply collection_bind; [apply Hv|]. rewrite spend_spend.
    split; [eapply within_spend; [| |exact Hw]; lia|].
    erewrite read_entries_agree; [|exact IH|eassumption|done|cbn; lia|].
    + rewrite spend_spend. f_equal; f_equal; f_equal; lia.
    + rewrite spend_spend. eapply within_spend; [| |exact Hw]; lia.
  - apply negb_true_iff in Hp. rewrite Hp. done.
Qed.

(** The reader consumes the encoding of a value and nothing more. *)
Lemma read_canonical_value_enc v o rest : cbor_wf (to_cbor v) = true -> value_to_canonical_bytes v = Ok o ->
  read_canonical_value (rd (o ++ rest)) = Ok (of_cbor (canon (to_cbor v)), rd rest).
Proof.
  intros Hwf (He & Hp & Hn)%value_bytes_iff. unfold read_canonical_value.
  pose proof (depth_lt_nodes (to_cbor v)). unfold MAX_CANONICAL_VALUE_DEPTH in Hn.
  assert (Hd : (cbor_depth (to_cbor v) <= 128)%nat) by lia.
  rewrite (read_value_reads _ _ _ _ _ _ (decode_encode _ Hwf _ _ Hd He rest)); [done| | |].
  - rewrite plain_canon. done.
  - cbn. done.
  - apply within_new. rewrite nodes_canon. done.
Qed.

(** The fuel of [read_value] is enough: once it covers the depth units left in the budget, more
    changes nothing. *)
Definition deepens {A} (f : rstep A) : Prop :=
  forall r b x r' b', f r b = Ok (x, r', b') -> bdepth b <= bdepth b'.

Lemma read_value_items_deepens f n : deepens f -> deepens (read_value_items f n).
Proof.
  intros Hf. induction n as [|n IH]; intros r b x r' b' H; cbn in H; run_match H; [lia|].
  apply Hf in Heqr0. apply IH in Heqr1. lia.
Qed.

Lemma read_value_entries_deepens f n prev : deepens f -> deepens (read_value_entries f n prev).
Proof.
  intros Hf. revert prev. induction n as [|n IH]; intros prev r b x r' b' H; cbn in H; run_match H; [lia|].
  repeat match goal with
  | H : f _ _ = Ok _ |- _ => apply Hf in H
  | H : _ = Ok _ |- _ => apply IH in H
  end. lia.
Qed.

Lemma read_value_deepens fuel : deepens (read_value fuel).
Proof.
  induction fuel as [|fuel IH]; intros r b x r' b' H; [done|]. cbn [read_value] in H.
  apply visit_bind in H as [_ H]. unfold spend, collection in H. run_match H; cbn; try lia;
    match goal with
    | H : read_value_items _ _ _ _ = Ok _ |- _ => apply read_value_items_deepens in H; [|done]
    | H : read_value_entries _ _ _ _ _ = Ok _ |- _ => apply read_value_entries_deepens in H; [|done]
    end; cbn in *; lia.
Qed.

Definition agree_from {A} (f g : rstep A) (d : Z) : Prop :=
  forall r b, d <= bdepth b -> f r b = g r b.

Lemma read_value_items_agree_from f g d n : deepens f -> agree_from f g d ->
  agree_from (read_value_items f n) (read_value_items g n) d.
Proof.
  intros Hf Hg. induction n as [|n IH]; intros r b Hb; [done|]. cbn [read_value_items].
  rewrite <- (Hg r b Hb). destruct (f r b) as [[[x r'] b']|] eqn:E; [|done]. apply Hf in E.
  rewrite (IH r' b') by lia. done.
Qed.

Lemma read_value_entries_agree_from f g d n prev : deepens f -> agree_from f g d ->
  agree_from (read_value_entries f n prev) (read_value_entries g n prev) d.
Proof.
  intros Hf Hg. revert prev. induction n as [|n IH]; intros prev r b Hb; [done|]. cbn [read_value_entries].
  rewrite <- (Hg r b Hb). destruct (f r b) as [[[x r'] b']|] eqn:E; [|done]. apply Hf in E.
  destruct (check_key_order _ _); [|done]. cbn [map_err]. rewrite <- (Hg r' b') by lia.
  destruct (f r' b') as [[[y r''] b'']|] eqn:E'; [|done]. apply Hf in E'.
  rewrite (IH _ r'' b'') by lia. done.
Qed.

Lemma read_value_fuel fuel :
  agree_from (read_value fuel) (read_value (S fuel)) (MAX_CANONICAL_VALUE_DEPTH + 1 - Z.of_nat fuel).
Proof.
  induction fuel as [|fuel IH]; intros r b Hb.
  - cbn [read_value]. unfold visit. destruct (Z.ltb_spec MAX_CANONICAL_VALUE_DEPTH (bdepth b + 1)); [done|lia].
  - change (read_value (S (S fuel)) r b) with (let? b := visit b in
      let? '(item, r) := map_err VCborError (read_item r) in
      match item with
      | IUnsigned v => Ok (VUnsigned v, r, b)
      | INegative v => Ok (VNegative v, r, b)
      | IBytes s => let? _ := budget_string (length s) in Ok (VBytes s, r, b)
      | IText s => let? _ := budget_string (length s) in Ok (VText s, r, b)
      | IArray n =>
          let? b := collection b n in
          let? '(items, r, b) := read_value_items (read_value (S fuel)) n r b in
          Ok (VArray items, r, b)
      | IMap n =>
          let? b := collection b n in
          let? '(entries, r, b) := read_value_entries (read_value (S fuel)) n None r b in
          Ok (VMap entries, r, b)
      | IBool x => Ok (VBool x, r, b)
      | INull => Ok (VNull, r, b)
      | IFloat f => if float_refused f then Err (BoundsExceeded float_msg) else Ok (VFloat f, r, b)
      end).
    cbn [read_value]. destruct (visit b) as [b1|] eqn:Ev; [|done]. apply visit_iff in Ev as [-> _].
    destruct (map_err VCborError (read_item r)) as [[item r1]|]; [|done]. destruct item; try done.
    + destruct (collection _ n) as [b2|] eqn:Ec; [|done].
      unfold collection in Ec. run_match Ec.
      rewrite (read_value_items_agree_from _ _ _ n (read_value_deepens fuel) IH); [done|cbn; lia].
    + destruct (collection _ n) as [b2|] eqn:Ec; [|done].
      unfold collection in Ec. run_match Ec.
      rewrite (read_value_entries_agree_from _ _ _ n None (read_value_deepens fuel) IH); [done|cbn; lia].
Qed.

Lemma read_fuel_enough k r : read_value (k + read_fuel) r budget_new = read_value read_fuel r budget_new.
Proof.
  induction k as [|k IH]; [done|]. rewrite <- IH. symmetry. apply read_value_fuel.
  unfold read_fuel, MAX_CANONICAL_VALUE_DEPTH. cbn [budget_new bdepth]. lia.
Qed.

(** ** Theorems *)

(** What a canonical value may hold.  [CanonicalValue::to_canonical_bytes] emits exactly the
    bytes of the CBOR encoder on the same tree, for exactly the trees with no refused float, no
    string above one MiB and at most 32 values in total: the "nesting depth" bound of [Budget]
    counts every value visited, nested or not, and the item bound is never the one that fails. *)
Theorem value_encode_exact v o : value_to_canonical_bytes v = Ok o <->
  to_canonical_bytes (to_cbor v) = Ok o /\ plain (to_cbor v) = true
  /\ nodes (to_cbor v) <= MAX_CANONICAL_VALUE_DEPTH.
Proof. apply value_bytes_iff. Qed.

(** Value round trip.  A canonical value the types can hold that
    [CanonicalValue::to_canonical_bytes] accepts is read back by both
    [CanonicalValue::from_canonical_bytes] and the streaming [read_canonical_value], as the same
    tree with its maps in canonical key order; the streaming reader leaves what follows. *)
Theorem value_round_trip v o rest :
  cbor_wf (to_cbor v) = true -> value_to_canonical_bytes v = Ok o ->
  value_from_canonical_bytes o = Ok (of_cbor (canon (to_cbor v)))
  /\ read_canonical_value (rd (o ++ rest)) = Ok (of_cbor (canon (to_cbor v)), rd rest).
Proof.
  intros Hwf Hv. split; [|apply read_canonical_value_enc; done].
  apply value_bytes_iff in Hv as (He & Hp & Hn). unfold value_from_canonical_bytes.
  pose proof (depth_lt_nodes (to_cbor v)). unfold MAX_CANONICAL_VALUE_DEPTH in Hn.
  assert (Hd : (cbor_depth (to_cbor v) <= 128)%nat) by lia.
  pose proof (decode_encode (to_cbor v) Hwf MAX_DEPTH o Hd He []) as H0. rewrite app_nil_r in H0.
  unfold from_canonical_bytes. rewrite H0. cbn [map_err].
  apply result_bind. exists (of_cbor (canon (to_cbor v)), spend budget_new (nodes (canon (to_cbor v))) (weight (canon (to_cbor v)))).
  rewrite from_cbor_new, plain_canon, nodes_canon. done.
Qed.

Definition sample_canonical : CanonicalValue :=
  VMap [(VUnsigned 700, VArray [VBool true; VNull]); (VUnsigned 2, VText [x61])].

Lemma value_round_trip_witness :
  exists o, value_to_canonical_bytes sample_canonical = Ok o
  /\ value_from_canonical_bytes o
     = Ok (VMap [(VUnsigned 2, VText [x61]); (VUnsigned 700, VArray [VBool true; VNull])]).
Proof. eexists. split; [reflexivity|]. apply (value_round_trip sample_canonical _ []); reflexivity. Defined.

(** Value uniqueness.  Bytes accepted by [CanonicalValue::from_canonical_bytes] are the bytes
    [CanonicalValue::to_canonical_bytes] emits for the value returned, and the streaming reader
    returns that value on them too. *)
Theorem value_unique input v : (Z.of_nat (length input) <= u64_max)%Z ->
  value_from_canonical_bytes input = Ok v ->
  value_to_canonical_bytes v = Ok input /\ read_canonical_value (rd input) = Ok (v, rd []).
Proof.
  unfold value_from_canonical_bytes, from_canonical_bytes. intros Hl H.
  destruct (decode_value (S MAX_DEPTH) input) as [[c [|? ?]]|] eqn:E; [|done..]. cbn [map_err] in H.
  apply result_bind in H as ([v' b] & (Hp & -> & -> & Hn)%from_cbor_new & [= <-]). split.
  - apply value_bytes_iff. rewrite to_of_cbor by done.
    apply decode_value_inverts in E as (o & -> & He & _); [|done]. rewrite app_nil_r. done.
  - unfold read_canonical_value. rewrite (read_value_reads _ _ _ _ _ _ E Hp); [done|cbn; done|].
    apply within_new. done.
Qed.

Lemma value_unique_witness :
  value_to_canonical_bytes (VArray [VUnsigned 42]) = Ok [x81; x18; x2a]
  /\ read_canonical_value (rd [x81; x18; x2a]) = Ok (VArray [VUnsigned 42], rd []).
Proof. apply (value_unique [x81; x18; x2a]); [vm_compute; discriminate | reflexivity]. Defined.
