(* ===== verification/Path.v ===== *)
(** * Canonical paths

    Models [ledger-format/src/path.rs]: [canonicalize] and [encode_path_ref]. *)

From S2P Require Import Prelude Machine Cbor CborProofs Limits.

Open Scope Z_scope.

Inductive PathError : Type := RootEscape | NulByte | TooLong | HashMismatch.

#[global] Instance PathError_eq_dec : EqDecision PathError.
Proof. solve_decision. Defined.

Definition slash : byte := x2f.
Definition dot : list byte := [x2e].
Definition dot_dot : list byte := [x2e; x2e].

(** [raw.split(|b| *b == b'/')]: never empty. *)
Fixpoint split_slash (raw : list byte) : list (list byte) :=
  match raw with
  | [] => [[]]
  | b :: raw =>
      if bool_decide (b = slash) then [] :: split_slash raw
      else match split_slash raw with
           | c :: cs => (b :: c) :: cs
           | [] => [[b]]
           end
  end.

(** One turn of the component loop; [out] is the stack, its top at the end. *)
Definition resolve_component (out : list (list byte)) (component : list byte) :
    result PathError (list (list byte)) :=
  if bool_decide (component = []) || bool_decide (component = dot) then Ok out
  else if bool_decide (component = dot_dot) then
    match out with [] => Err RootEscape | _ :: _ => Ok (removelast out) end
  else Ok (out ++ [component]).

Fixpoint resolve (out : list (list byte)) (components : list (list byte)) :
    result PathError (list (list byte)) :=
  match components with
  | [] => Ok out
  | c :: cs => let? out := resolve_component out c in resolve out cs
  end.

(** [for (i, component) in out.iter().enumerate()]: a separator before every component but the
    first. *)
Fixpoint join_slash (out : list (list byte)) : list byte :=
  match out with
  | [] => []
  | [c] => c
  | c :: cs => c ++ slash :: join_slash cs
  end.

Definition has_nul (raw : list byte) : bool := existsb (fun b => bool_decide (b = x00)) raw.

Definition canonicalize (raw : list byte) : result PathError (list byte) :=
  if has_nul raw then Err NulByte
  else
    let? out := resolve [] (split_slash raw) in
    let canonical := slash :: join_slash out in
    if (MAX_CANONICAL_PATH_BYTES <? Z.of_nat (length canonical))%Z then Err TooLong
    else Ok canonical.

Record PathRef : Type := mkPathRef { path_hash : list byte; canonical_path : list byte }.

Definition encode_path_ref (p : PathRef) : list byte :=
  array 2 ++ cbytes (path_hash p) ++ cbytes (canonical_path p).

(** ** Components *)

(** A component a canonical path may hold. *)
Definition real_component (c : list byte) : Prop :=
  c <> [] /\ c <> dot /\ c <> dot_dot /\ slash ∉ c /\ x00 ∉ c.

(** The abstract canonical form: the root, or components separated by single slashes. *)
Definition canonical_form (p : list byte) : Prop :=
  exists out, Forall real_component out /\ p = slash :: join_slash out
    /\ Z.of_nat (length p) <= MAX_CANONICAL_PATH_BYTES.

Lemma split_slash_nonempty raw : exists c cs, split_slash raw = c :: cs.
Proof. induction raw as [|b raw (c & cs & IH)]; cbn; [eauto|]. case_split; [eauto|]. rewrite IH. eauto. Qed.

Lemma split_slash_elements raw c : c ∈ split_slash raw -> slash ∉ c /\ forall b, b ∈ c -> b ∈ raw.
Proof.
  revert c; induction raw as [|b raw IH]; intros c; cbn.
  - rewrite list_elem_of_singleton. intros ->. split; [apply not_elem_of_nil | done].
  - case_bool_decide as Hb.
    + rewrite elem_of_cons. intros [-> | Hc]; [split; [apply not_elem_of_nil | intros ? []%elem_of_nil]|].
      destruct (IH c Hc). split; [done|]. intros. right. auto.
    + destruct (split_slash_nonempty raw) as (d & ds & E). rewrite E in *.
      rewrite elem_of_cons. intros [-> | Hc].
      * destruct (IH d) as [H1 H2]; [left|]. split.
        -- rewrite elem_of_cons. intros [?|?]; [congruence|done].
        -- intros x. rewrite !elem_of_cons. intros [->|?]; auto.
      * destruct (IH c) as [H1 H2]; [by right|]. split; [done|]. intros. right. auto.
Qed.

Lemma split_slash_app c rest : slash ∉ c -> split_slash (c ++ slash :: rest) = c :: split_slash rest.
Proof.
  induction c as [|b c IH]; intros Hs; cbn; [done|].
  rewrite not_elem_of_cons in Hs. destruct Hs as [Hb Hs]. rewrite bool_decide_false by done.
  rewrite IH by done. done.
Qed.

Lemma split_slash_single c : slash ∉ c -> split_slash c = [c].
Proof.
  induction c as [|b c IH]; intros Hs; cbn; [done|].
  rewrite not_elem_of_cons in Hs. destruct Hs as [Hb Hs]. rewrite bool_decide_false by done.
  rewrite IH by done. done.
Qed.

Lemma split_join out : Forall real_component out -> out <> [] -> split_slash (join_slash out) = out.
Proof.
  induction 1 as [|c cs (_ & _ & _ & Hs & _) Hcs IH]; [done|]. intros _. destruct cs as [|d ds].
  - apply split_slash_single. done.
  - change (join_slash (c :: d :: ds)) with (c ++ slash :: join_slash (d :: ds)).
    rewrite split_slash_app, IH by done. done.
Qed.

Lemma resolve_component_real out c : real_component c -> resolve_component out c = Ok (out ++ [c]).
Proof.
  intros (H1 & H2 & H3 & _). unfold resolve_component.
  rewrite !bool_decide_false by done. done.
Qed.

Lemma resolve_real out cs : Forall real_component cs -> resolve out cs = Ok (out ++ cs).
Proof.
  intros H. revert out; induction H as [|c cs Hc _ IH]; intros out; cbn [resolve].
  - rewrite app_nil_r. done.
  - rewrite resolve_component_real, IH, <- app_assoc by done. done.
Qed.

Lemma Forall_removelast {A} (P : A -> Prop) l : Forall P l -> Forall P (removelast l).
Proof.
  intros H. induction H as [|x l Hx Hl IH]; cbn; [constructor|]. destruct l; [constructor|]. constructor; done.
Qed.

Lemma length_removelast {A} (x : A) l : length (removelast (x :: l)) = length l.
Proof. revert x; induction l as [|y l IH]; intros x; [done|]. cbn [removelast length]. rewrite <- (IH y). done. Qed.

(** The stack only ever holds real components. *)
Lemma resolve_forms cs : Forall (fun c => slash ∉ c /\ x00 ∉ c) cs -> forall out out',
  Forall real_component out -> resolve out cs = Ok out' -> Forall real_component out'.
Proof.
  induction 1 as [|c cs [Hs Hz] _ IH]; intros out out' Ho H; cbn [resolve] in H; [congruence|].
  destruct (resolve_component out c) as [out1|] eqn:E; [|done]. apply (IH out1); [|done].
  unfold resolve_component in E. repeat case_bool_decide; cbn [orb] in E; simplify_eq; try done.
  - destruct out; simplify_eq. apply (Forall_removelast _ (l :: out)). done.
  - apply Forall_app. split; [done|]. constructor; [|constructor]. done.
Qed.

Lemma has_nul_iff raw : has_nul raw = true <-> x00 ∈ raw.
Proof.
  unfold has_nul. rewrite existsb_exists. split.
  - intros (b & Hin & Hb). apply bool_decide_eq_true in Hb as ->. apply list_elem_of_In. done.
  - intros H. exists x00. split; [apply list_elem_of_In; done | done].
Qed.

Lemma join_no_nul out : Forall real_component out -> x00 ∉ join_slash out.
Proof.
  induction 1 as [|c cs (_ & _ & _ & _ & Hz) Hcs IH]; [apply not_elem_of_nil|]. destruct cs as [|d ds]; [done|].
  change (join_slash (c :: d :: ds)) with (c ++ slash :: join_slash (d :: ds)).
  rewrite elem_of_app, elem_of_cons. intros [?|[?|?]]; done.
Qed.

(** A canonical form is a fixed point. *)
Lemma canonicalize_form p : canonical_form p -> canonicalize p = Ok p.
Proof.
  intros (out & Hout & -> & Hlen). unfold canonicalize.
  destruct (has_nul _) eqn:E.
  { apply has_nul_iff, elem_of_cons in E as [E|E]; [done|]. apply join_no_nul in E; done. }
  assert (Hr : resolve [] (split_slash (join_slash out)) = Ok out).
  { destruct (decide (out = [])) as [->|Hne]; [done|]. rewrite split_join, resolve_real by done. done. }
  change (split_slash (slash :: join_slash out)) with ([] :: split_slash (join_slash out)).
  change (resolve [] ([] :: ?cs)) with (resolve [] cs). rewrite Hr. cbv zeta.
  apply Z.ltb_ge in Hlen. rewrite Hlen. done.
Qed.

(** The result is a canonical form. *)
Lemma canonicalize_canonical raw p : canonicalize raw = Ok p -> canonical_form p.
Proof.
  unfold canonicalize. intros H. destruct (has_nul raw) eqn:En; [done|].
  destruct (resolve [] (split_slash raw)) as [out|] eqn:Er; [|done].
  destruct (Z.ltb_spec MAX_CANONICAL_PATH_BYTES (Z.of_nat (length (slash :: join_slash out)))); [done|]. simplify_eq.
  exists out. split; [|done]. apply (resolve_forms (split_slash raw)) with (out := []); [|constructor|done].
  apply Forall_forall. intros c Hc%list_elem_of_In. destruct (split_slash_elements raw c Hc) as [Hs Hsub].
  split; [done|]. intros Hz. apply Hsub, has_nul_iff in Hz. congruence.
Qed.

(** ** Escaping the root *)

(** How far below the root a component sequence ends, or [None] once it has gone above it. *)
Definition step_level (level : option nat) (c : list byte) : option nat :=
  match level with
  | None => None
  | Some n =>
      if bool_decide (c = []) || bool_decide (c = dot) then Some n
      else if bool_decide (c = dot_dot) then match n with O => None | S n => Some n end
      else Some (S n)
  end.

Lemma resolve_level cs out :
  match resolve out cs with
  | Ok out' => foldl step_level (Some (length out)) cs = Some (length out')
  | Err e => e = RootEscape /\ foldl step_level (Some (length out)) cs = None
  end.
Proof.
  assert (Hnone : forall cs, foldl step_level None cs = None) by (intros l; induction l; done).
  revert out; induction cs as [|c cs IH]; intros out; cbn [resolve foldl]; [done|].
  unfold resolve_component, step_level at 2 4.
  destruct (_ || _); [apply IH|]. case_bool_decide.
  - destruct out as [|x out]; cbn [length]; [rewrite Hnone; done|].
    specialize (IH (removelast (x :: out))). rewrite length_removelast in IH. apply IH.
  - specialize (IH (out ++ [c])). rewrite length_app, Nat.add_1_r in IH. apply IH.
Qed.

(** ** Theorems *)

(** Canonical paths.  What [canonicalize] returns is the root or non-empty components
    separated by single slashes, none of them [.] or [..], without NUL and at most 4096 bytes
    long; and exactly such paths are its fixed points, so canonicalizing again changes nothing. *)
Theorem canonicalize_spec raw p :
  (canonicalize raw = Ok p -> canonical_form p /\ canonicalize p = Ok p)
  /\ (canonicalize p = Ok p <-> canonical_form p).
Proof.
  split.
  - intros H%canonicalize_canonical. split; [done|]. apply canonicalize_form. done.
  - split; [apply canonicalize_canonical | apply canonicalize_form].
Qed.

(** Path errors.  [canonicalize] fails with [NulByte] exactly on a NUL byte, with [RootEscape]
    exactly when some prefix of the components has gone above the root, and with nothing else
    than these two and [TooLong]. *)
Theorem canonicalize_errors raw :
  (canonicalize raw = Err NulByte <-> x00 ∈ raw)
  /\ (canonicalize raw = Err RootEscape <->
      x00 ∉ raw /\ foldl step_level (Some 0%nat) (split_slash raw) = None)
  /\ canonicalize raw <> Err HashMismatch.
Proof.
  rewrite <- has_nul_iff. unfold canonicalize. pose proof (resolve_level (split_slash raw) []) as H.
  destruct (has_nul raw); [naive_solver|].
  destruct (resolve [] (split_slash raw)) as [out|e]; cbn [length] in H.
  - case_split; naive_solver.
  - destruct H as [-> H]. naive_solver.
Qed.
