(* ===== verification/Hex.v ===== *)
(** * Hex form of content hashes

    Models [ledger-format/src/hex.rs].  A [&str] is its UTF-8 bytes; a [char] made from one byte
    is that byte. *)

From S2P Require Import Prelude Machine Limits.

Open Scope Z_scope.

Inductive HexError : Type :=
| InvalidLength (len : nat)
| InvalidChar (index : nat) (char : byte).

#[global] Instance HexError_eq_dec : EqDecision HexError.
Proof. solve_decision. Defined.

Definition HEX : list byte :=
  [x30; x31; x32; x33; x34; x35; x36; x37; x38; x39; x61; x62; x63; x64; x65; x66].

Definition hex_digit (nibble : Z) : byte := nth (Z.to_nat nibble) HEX x30.

Fixpoint hash_to_hex (hash : list byte) : list byte :=
  match hash with
  | [] => []
  | b :: hash =>
      hex_digit (Z.shiftr (b2z b) 4) :: hex_digit (Z.land (b2z b) 15) :: hash_to_hex hash
  end.

Definition hex_val (b : byte) : option Z :=
  let z := b2z b in
  if (48 <=? z)%Z && (z <=? 57)%Z then Some (z - 48)
  else if (97 <=? z)%Z && (z <=? 102)%Z then Some (z - 97 + 10)
  else if (65 <=? z)%Z && (z <=? 70)%Z then Some (z - 65 + 10)
  else None.

(** The loop over [chunks_exact(2)], [i] the chunk index. *)
Fixpoint hex_chunks (i : nat) (s : list byte) : result HexError (list byte) :=
  match s with
  | c0 :: c1 :: s =>
      let? high := ok_or (hex_val c0) (InvalidChar (i * 2) c0) in
      let? low := ok_or (hex_val c1) (InvalidChar (i * 2 + 1) c1) in
      let? rest := hex_chunks (S i) s in
      Ok (z2b (Z.lor (Z.shiftl high 4) low) :: rest)
  | _ => Ok []
  end.

Definition hash_from_hex (s : list byte) : result HexError EntryHash :=
  if negb (length s =? 64)%nat then Err (InvalidLength (length s)) else hex_chunks 0 s.

(** ** Digits *)

(** Lower-case form of an ASCII character. *)
Definition to_lower (b : byte) : byte :=
  if (65 <=? b2z b)%Z && (b2z b <=? 90)%Z then z2b (b2z b + 32) else b.

(** Both directions on one byte, over all 256 of them. *)
Lemma hex_byte_ok b :
  hex_val (hex_digit (Z.shiftr (b2z b) 4)) = Some (Z.shiftr (b2z b) 4)
  /\ hex_val (hex_digit (Z.land (b2z b) 15)) = Some (Z.land (b2z b) 15)
  /\ z2b (Z.lor (Z.shiftl (Z.shiftr (b2z b) 4) 4) (Z.land (b2z b) 15)) = b.
Proof. destruct b; vm_compute; done. Qed.

Lemma hex_val_digit c v : hex_val c = Some v -> 0 <= v < 16 /\ hex_digit v = to_lower c.
Proof.
  intros H. destruct c; vm_compute in H;
    first [discriminate H | injection H as <-; split; [lia | reflexivity]].
Qed.

Lemma nibbles high low : 0 <= high < 16 -> 0 <= low < 16 ->
  Z.shiftr (b2z (z2b (Z.lor (Z.shiftl high 4) low))) 4 = high
  /\ Z.land (b2z (z2b (Z.lor (Z.shiftl high 4) low))) 15 = low.
Proof.
  intros Hh Hl. rewrite Z.shiftl_mul_pow2, lor_mul_pow2_low by lia. change (2 ^ 4) with 16.
  rewrite b2z_z2b_small by lia. rewrite Z.shiftr_div_pow2 by lia. change 15 with (Z.ones 4).
  rewrite Z.land_ones by lia. change (2 ^ 4) with 16. split; Z.div_mod_to_equations; lia.
Qed.

Lemma hex_chunks_to_hex hash i : hex_chunks i (hash_to_hex hash) = Ok hash.
Proof.
  revert i; induction hash as [|b hash IH]; intros i; cbn [hash_to_hex hex_chunks]; [done|].
  destruct (hex_byte_ok b) as (-> & -> & Hb). cbn [ok_or]. rewrite IH, Hb. done.
Qed.

Lemma hex_chunks_inv n s i hash : length s = (2 * n)%nat -> hex_chunks i s = Ok hash ->
  hash_to_hex hash = map to_lower s /\ length hash = n.
Proof.
  revert s i hash; induction n as [|n IH]; intros s i hash Hl H.
  - destruct s; [|cbn in Hl; lia]. cbn in H. simplify_eq. done.
  - destruct s as [|c0 [|c1 s]]; cbn in Hl; try lia. cbn [hex_chunks] in H.
    destruct (hex_val c0) as [h|] eqn:E0; [|done]. destruct (hex_val c1) as [l|] eqn:E1; [|done].
    cbn [ok_or] in H. destruct (hex_chunks (S i) s) as [rest|] eqn:Er; [|done]. simplify_eq.
    apply hex_val_digit in E0 as [Hh E0], E1 as [Hl1 E1]. apply IH in Er as [Er Hlen]; [|lia].
    cbn [hash_to_hex map]. destruct (nibbles h l Hh Hl1) as [-> ->]. cbn [length]. split; congruence.
Qed.

Lemma length_hash_to_hex hash : length (hash_to_hex hash) = (2 * length hash)%nat.
Proof. induction hash; cbn [hash_to_hex length]; lia. Qed.

(** ** Theorems *)

(** Hex round trip.  [hash_to_hex] writes 64 characters that [hash_from_hex] reads back, and
    what [hash_from_hex] accepts is, up to letter case, what [hash_to_hex] writes for the hash it
    returns. *)
Theorem hex_round_trip hash s : hash_wf hash = true ->
  length (hash_to_hex hash) = 64%nat /\ hash_from_hex (hash_to_hex hash) = Ok hash
  /\ (hash_from_hex s = Ok hash -> hash_to_hex hash = map to_lower s).
Proof.
  unfold hash_wf, hash_from_hex. intros H. bool_hyps. rewrite length_hash_to_hex, H, hex_chunks_to_hex.
  split_and!; [done..|]. intros Hs. case_split_in Hs; [done|]. bool_hyps.
  apply (hex_chunks_inv 32) in Hs; [tauto | lia].
Qed.

Lemma hex_round_trip_witness : hash_from_hex (hash_to_hex (repeat xab 32)) = Ok (repeat xab 32).
Proof. apply (hex_round_trip (repeat xab 32) []). reflexivity. Defined.
