(* ===== verification/Frame.v ===== *)
(** * Outer frame prefix

    Models [ledger-format/src/frame.rs]: the 16-byte prefix of every durable container. *)

From S2P Require Import Prelude Machine Limits.

Open Scope Z_scope.

Definition FRAME_PREFIX_LEN : nat := 16.

Definition MAGIC_WAL : list byte := [x4c; x44; x47; x57].
Definition MAGIC_STORE_MANIFEST : list byte := [x4c; x44; x47; x4d].
Definition MAGIC_SEGMENT : list byte := [x4c; x44; x47; x53].
Definition MAGIC_SNAPSHOT : list byte := [x4c; x44; x47; x50].
Definition MAGIC_SNAPSHOT_INDEX : list byte := [x4c; x44; x47; x49].
Definition MAGIC_ARCHIVE : list byte := [x4c; x44; x47; x41].
Definition MAGIC_ARCHIVE_INDEX : list byte := [x4c; x44; x47; x58].
Definition MAGIC_ENVELOPE : list byte := [x4c; x44; x47; x45].
Definition MAGIC_SOLVER_STATE : list byte := [x4c; x44; x47; x56].

Inductive FrameError : Type :=
| WrongMagic
| FrameVersion (version : Z)
| ReservedFlags (flags : Z)
| HeaderTooLarge (len : Z)
| TruncatedFrame.

Record FramePrefix : Type :=
  mkFramePrefix { magic : list byte; format_version : Z; header_len : Z }.

Definition encode_prefix (magic : list byte) (header_len : Z) : list byte :=
  magic ++ to_le_bytes 4 FORMAT_VERSION ++ to_le_bytes 4 header_len ++ to_le_bytes 4 0.

(** [bytes[a..a+4]] as a little-endian [u32]. *)
Definition u32_at (a : nat) (bytes : list byte) : Z := from_le_bytes (take 4 (drop a bytes)).

Definition parse_prefix (bytes expected_magic : list byte) : result FrameError FramePrefix :=
  if (length bytes <? FRAME_PREFIX_LEN)%nat then Err TruncatedFrame
  else
    let magic := take 4 bytes in
    if negb (bool_decide (magic = expected_magic)) then Err WrongMagic
    else
      let format_version := u32_at 4 bytes in
      if negb (format_version =? FORMAT_VERSION)%Z then Err (FrameVersion format_version)
      else
        let header_len := u32_at 8 bytes in
        if (MAX_HEADER_BYTES <? header_len)%Z then Err (HeaderTooLarge header_len)
        else
          let flags := u32_at 12 bytes in
          if negb (flags =? 0)%Z then Err (ReservedFlags flags)
          else Ok (mkFramePrefix magic format_version header_len).

(** ** Theorems *)

Lemma le32_split (b : list byte) : (4 <= length b)%nat ->
  take 4 b = to_le_bytes 4 (from_le_bytes (take 4 b)) /\ 0 <= from_le_bytes (take 4 b) < 2 ^ 32.
Proof.
  intros H. assert (Hl : length (take 4 b) = 4%nat) by (rewrite length_take; lia).
  pose proof (to_from_le_bytes (take 4 b)) as Hr. rewrite Hl in Hr. split; [done|].
  pose proof (from_le_bytes_range (take 4 b)) as Hb. rewrite Hl in Hb. exact Hb.
Qed.

Lemma u32_at_app a pre v rest : length pre = a -> 0 <= v < 2 ^ 32 ->
  u32_at a (pre ++ to_le_bytes 4 v ++ rest) = v.
Proof.
  intros <- Hv. unfold u32_at. rewrite drop_app_prefix, <- (length_to_le_bytes 4 v) at 1.
  rewrite take_app_prefix. apply from_to_le_bytes. exact Hv.
Qed.

Lemma length_encode_prefix expected h : length expected = 4%nat -> length (encode_prefix expected h) = 16%nat.
Proof. intros He. unfold encode_prefix. rewrite !length_app, !length_to_le_bytes. lia. Qed.

Lemma parse_prefix_encode expected h rest : length expected = 4%nat -> 0 <= h <= MAX_HEADER_BYTES ->
  parse_prefix (encode_prefix expected h ++ rest) expected = Ok (mkFramePrefix expected FORMAT_VERSION h).
Proof.
  intros He Hh. unfold parse_prefix, FRAME_PREFIX_LEN.
  assert (Hlen : length (encode_prefix expected h ++ rest) = (16 + length rest)%nat)
    by (unfold encode_prefix; rewrite !length_app, !length_to_le_bytes; lia).
  rewrite Hlen. unfold MAX_HEADER_BYTES, encode_prefix in *. rewrite <- !app_assoc.
  rewrite (u32_at_app 4) by (done || lia).
  rewrite (app_assoc expected), (u32_at_app 8)
    by (rewrite ?length_app, ?length_to_le_bytes; lia).
  rewrite (app_assoc (expected ++ _)), (u32_at_app 12)
    by (rewrite ?length_app, ?length_to_le_bytes; lia).
  destruct (Nat.ltb_spec (16 + length rest) 16); [lia|].
  rewrite <- !app_assoc, <- He, take_app_prefix, bool_decide_true by done. cbn [negb].
  rewrite !Z.eqb_refl. cbn [negb]. destruct (Z.ltb_spec (1024 * 1024) h); [lia|done].
Qed.

(** The frame prefix.  [parse_prefix] accepts exactly the inputs that start with the sixteen
    bytes [encode_prefix] writes for the expected magic and the header length it returns, which
    is at most [MAX_HEADER_BYTES]; version and flags leave no freedom. *)
Theorem frame_prefix_exact bytes expected p : length expected = 4%nat ->
  parse_prefix bytes expected = Ok p <->
  exists rest, bytes = encode_prefix expected (header_len p) ++ rest
    /\ magic p = expected /\ format_version p = FORMAT_VERSION
    /\ 0 <= header_len p <= MAX_HEADER_BYTES.
Proof.
  intros He. split.
  - unfold parse_prefix, FRAME_PREFIX_LEN. intros H. run_match H. bool_hyps. cbn [magic format_version header_len].
    match goal with H : bool_decide _ = true |- _ => apply bool_decide_eq_true in H end.
    exists (drop 16 bytes). unfold u32_at in *.
    destruct (le32_split (drop 4 bytes)) as [E1 _]; [rewrite length_drop; lia|].
    destruct (le32_split (drop 8 bytes)) as [E2 R2]; [rewrite length_drop; lia|].
    destruct (le32_split (drop 12 bytes)) as [E3 _]; [rewrite length_drop; lia|].
    split_and!; try done; try lia. unfold encode_prefix.
    rewrite <- E2. replace FORMAT_VERSION with (from_le_bytes (take 4 (drop 4 bytes))) by lia. rewrite <- E1.
    replace (to_le_bytes 4 0) with (take 4 (drop 12 bytes)) by (rewrite E3; congruence).
    rewrite <- !app_assoc. subst expected.
    replace (drop 16 bytes) with (drop 4 (drop 12 bytes)) by (rewrite drop_drop; done).
    rewrite take_drop. replace (drop 12 bytes) with (drop 4 (drop 8 bytes)) by (rewrite drop_drop; done).
    rewrite take_drop. replace (drop 8 bytes) with (drop 4 (drop 4 bytes)) by (rewrite drop_drop; done).
    rewrite !take_drop. done.
  - intros (rest & -> & Hm & Hv & Hh). destruct p as [m v h]. cbn [magic format_version header_len] in *. subst.
    apply parse_prefix_encode; done.
Qed.

Lemma frame_prefix_exact_witness :
  parse_prefix (encode_prefix MAGIC_WAL 70 ++ [x01]) MAGIC_WAL = Ok (mkFramePrefix MAGIC_WAL 3 70).
Proof.
  apply (frame_prefix_exact _ MAGIC_WAL (mkFramePrefix MAGIC_WAL 3 70)); [reflexivity|].
  exists [x01]. split; [reflexivity|]. split; [reflexivity|]. split; [reflexivity|]. unfold MAX_HEADER_BYTES. cbn [header_len]. lia.
Defined.
