(* ===== verification/Entry.v ===== *)
(** * Journal entries

    Models [ledger-format/src/entry.rs]: the entry taxonomy, the typed payloads, their canonical
    encoding and the bounded decoder.  Identifiers ([ActorId], [StreamId], [SequenceNumber]) are
    their integers; the fixed-size identifiers are byte lists whose length is part of the
    well-formedness of a payload. *)

From S2P Require Import Prelude Machine Floats Cbor CborProofs Limits Items Value Path.

Open Scope Z_scope.

(** ** Taxonomy *)

Inductive EntryKind : Type :=
| KSpawn | KBlock | KWake | KTimerSet | KTimerFire | KClockRead | KSend | KRecv | KFsWrite
| KFsFsync | KFsRead | KRngDraw | KOutcome | KAssert | KSnapshot | KEpoch | KInputStep
| KCapRequest | KCapGrant | KCapInvoke | KCapRevoke | KFault | KStepBegin | KStepEnd.

#[global] Instance EntryKind_eq_dec : EqDecision EntryKind.
Proof. solve_decision. Defined.

Definition kind_tag (k : EntryKind) : Z :=
  match k with
  | KSpawn => 0 | KBlock => 1 | KWake => 2 | KTimerSet => 3 | KTimerFire => 4 | KClockRead => 5
  | KSend => 6 | KRecv => 7 | KFsWrite => 8 | KFsFsync => 9 | KFsRead => 10 | KRngDraw => 11
  | KOutcome => 12 | KAssert => 13 | KSnapshot => 14 | KEpoch => 15 | KInputStep => 16
  | KCapRequest => 17 | KCapGrant => 18 | KCapInvoke => 19 | KCapRevoke => 20 | KFault => 21
  | KStepBegin => 22 | KStepEnd => 23
  end.

Definition from_tag (tag : Z) : option EntryKind :=
  match tag with
  | 0 => Some KSpawn | 1 => Some KBlock | 2 => Some KWake | 3 => Some KTimerSet
  | 4 => Some KTimerFire | 5 => Some KClockRead | 6 => Some KSend | 7 => Some KRecv
  | 8 => Some KFsWrite | 9 => Some KFsFsync | 10 => Some KFsRead | 11 => Some KRngDraw
  | 12 => Some KOutcome | 13 => Some KAssert | 14 => Some KSnapshot | 15 => Some KEpoch
  | 16 => Some KInputStep | 17 => Some KCapRequest | 18 => Some KCapGrant
  | 19 => Some KCapInvoke | 20 => Some KCapRevoke | 21 => Some KFault | 22 => Some KStepBegin
  | 23 => Some KStepEnd
  | _ => None
  end.

Record MessageId : Type := mkMessageId { sender : Z; sender_sequence : Z }.

Inductive BlockPayload : Type := Yield | WaitMessage.

Inductive WakePayload : Type :=
| TimerReady (timer_id : Z)
| MessageReady (message_id : MessageId).

Inductive StepEndPayload : Type :=
| Completed (step_id : Z) (result : CanonicalValue)
| Failed (step_id : Z) (error : CanonicalValue)
| Cancelled (step_id : Z) (reason : CanonicalValue).

Record SendFrame : Type :=
  mkSendFrame { send_id : MessageId; send_from : Z; send_to : Z; original_content : list byte }.

Record RecvFrame : Type :=
  mkRecvFrame { recv_id : MessageId; recv_from : Z; recv_to : Z; observed_content : list byte }.

Inductive FsWritePayload : Type :=
| FsWriteAt (path_ref : PathRef) (offset : Z) (content : list byte)
| FsAllocate (path_ref : PathRef)
| FsRename (from_path_ref to_path_ref : PathRef).

Inductive ObservedRead : Type :=
| Missing
| Present (content : list byte).

Record FsReadPayload : Type :=
  mkFsRead { read_path : PathRef; read_offset : Z; requested_len : Z; observed : ObservedRead }.

Record RngDrawPayload : Type := mkRngDraw { rng_stream : Z; draw_index : Z; rng_content : list byte }.

Record OutcomePayload : Type := mkOutcome { outcome_schema : EntryHash; outcome_value : CanonicalValue }.

Record AssertPayload : Type :=
  mkAssert { predicate : EntryHash; passed : bool; detail : CanonicalValue }.

Record InputStepPayload : Type := mkInputStep { generator : Z; replay : Z; input_value : CanonicalValue }.

Record CapRequestPayload : Type :=
  mkCapRequest { cap_request : list byte; cap_subject : EntryHash; capability : EntryHash }.

Record CapGrantPayload : Type :=
  mkCapGrant { grant_request : list byte; grant_id : list byte; grant_epoch : Z }.

Record CapInvokePayload : Type := mkCapInvoke { invoke_grant : list byte; operation : EntryHash }.

Record CapRevokePayload : Type := mkCapRevoke { revoke_grant : list byte; revoke_epoch : Z }.

Inductive CrashOperation : Type :=
| DropAllUnsynced
| DropPaths (paths : list PathRef)
| TornWrite (write_entry : EntryHash) (persisted_prefix : Z)
| CorruptRange (write_entry : EntryHash) (offset : Z) (xor_bytes : list byte)
| BitFlip (write_entry : EntryHash) (offset : Z) (bit : Z).

Inductive FaultPayload : Type :=
| DropMessage (message_id : MessageId)
| DelayMessage (message_id : MessageId) (ticks : Z)
| DuplicateMessage (message_id : MessageId) (copy_ordinal : Z)
| CorruptMessage (message_id : MessageId) (offset : Z) (xor_bytes : list byte)
| Partition (src dst : Z) (enabled : bool)
| CrashActor (actor : Z) (crash_operation : CrashOperation).

Record StepBeginPayload : Type :=
  mkStepBegin { begin_step : Z; step_name : list byte; idempotency_key : option (list byte) }.

Inductive EntryPayload : Type :=
| PSpawn (child_actor : Z)
| PBlock (b : BlockPayload)
| PWake (w : WakePayload)
| PTimerSet (timer_id deadline_ticks : Z)
| PTimerFire (timer_id deadline_ticks : Z)
| PClockRead (ticks : Z)
| PSend (frame : SendFrame)
| PRecv (frame : RecvFrame)
| PFsWrite (w : FsWritePayload)
| PFsFsync (path_ref : PathRef)
| PFsRead (r : FsReadPayload)
| PRngDraw (d : RngDrawPayload)
| POutcome (o : OutcomePayload)
| PAssert (a : AssertPayload)
| PSnapshot (snapshot_digest : EntryHash)
| PEpoch (epoch : Z)
| PInputStep (s : InputStepPayload)
| PCapRequest (c : CapRequestPayload)
| PCapGrant (c : CapGrantPayload)
| PCapInvoke (c : CapInvokePayload)
| PCapRevoke (c : CapRevokePayload)
| PFault (f : FaultPayload)
| PStepBegin (s : StepBeginPayload)
| PStepEnd (s : StepEndPayload).

Definition payload_kind (p : EntryPayload) : EntryKind :=
  match p with
  | PSpawn _ => KSpawn | PBlock _ => KBlock | PWake _ => KWake | PTimerSet _ _ => KTimerSet
  | PTimerFire _ _ => KTimerFire | PClockRead _ => KClockRead | PSend _ => KSend | PRecv _ => KRecv
  | PFsWrite _ => KFsWrite | PFsFsync _ => KFsFsync | PFsRead _ => KFsRead | PRngDraw _ => KRngDraw
  | POutcome _ => KOutcome | PAssert _ => KAssert | PSnapshot _ => KSnapshot | PEpoch _ => KEpoch
  | PInputStep _ => KInputStep | PCapRequest _ => KCapRequest | PCapGrant _ => KCapGrant
  | PCapInvoke _ => KCapInvoke | PCapRevoke _ => KCapRevoke | PFault _ => KFault
  | PStepBegin _ => KStepBegin | PStepEnd _ => KStepEnd
  end.

Record EntryData : Type := mkEntryData {
  format_version : Z;
  kind : EntryKind;
  actor : Z;
  parents : list EntryHash;
  vector_clock : list Z;
  sequence : Z;
  payload : EntryPayload }.

(** ** Encoding *)

Definition encode_message_id (m : MessageId) : list byte :=
  array 2 ++ unsigned (sender m) ++ unsigned (sender_sequence m).

Definition encode_crash_operation (c : CrashOperation) : list byte :=
  match c with
  | DropAllUnsynced => array 1 ++ unsigned 0
  | DropPaths paths =>
      array 2 ++ unsigned 1 ++ array (length paths) ++ concat (map encode_path_ref paths)
  | TornWrite write_entry persisted_prefix =>
      array 3 ++ unsigned 2 ++ chash write_entry ++ unsigned persisted_prefix
  | CorruptRange write_entry offset xor_bytes =>
      array 4 ++ unsigned 3 ++ chash write_entry ++ unsigned offset ++ cbytes xor_bytes
  | BitFlip write_entry offset bit =>
      array 4 ++ unsigned 4 ++ chash write_entry ++ unsigned offset ++ unsigned bit
  end.

Definition encode_fault_payload (f : FaultPayload) : list byte :=
  match f with
  | DropMessage m => array 2 ++ unsigned 0 ++ encode_message_id m
  | DelayMessage m ticks => array 3 ++ unsigned 1 ++ encode_message_id m ++ unsigned ticks
  | DuplicateMessage m copy_ordinal =>
      array 3 ++ unsigned 2 ++ encode_message_id m ++ unsigned copy_ordinal
  | CorruptMessage m offset xor_bytes =>
      array 4 ++ unsigned 3 ++ encode_message_id m ++ unsigned offset ++ cbytes xor_bytes
  | Partition src dst enabled =>
      array 4 ++ unsigned 4 ++ unsigned src ++ unsigned dst ++ boolean enabled
  | CrashActor actor op =>
      array 3 ++ unsigned 5 ++ unsigned actor ++ encode_crash_operation op
  end.

(** A payload value appended after [prefix]; any refusal becomes [msg]. *)
Definition with_value (prefix : list byte) (v : CanonicalValue) (msg : string) : result CborError (list byte) :=
  let? b := map_err (fun _ => MalformedManifest msg) (value_try_encode v) in Ok (prefix ++ b).

Definition step_end_parts (s : StepEndPayload) : Z * Z * CanonicalValue :=
  match s with
  | Completed step_id v => (0, step_id, v)
  | Failed step_id v => (1, step_id, v)
  | Cancelled step_id v => (2, step_id, v)
  end.

Definition encode_observed (o : ObservedRead) : list byte :=
  match o with
  | Missing => array 1 ++ unsigned 0
  | Present content => array 2 ++ unsigned 1 ++ cbytes content
  end.

(** [EntryPayload::encode_into]. *)
Definition payload_encode (p : EntryPayload) : result CborError (list byte) :=
  match p with
  | PSpawn child => Ok (array 1 ++ unsigned child)
  | PBlock b => Ok (array 1 ++ unsigned (match b with Yield => 0 | WaitMessage => 1 end))
  | PWake (TimerReady timer_id) => Ok (array 2 ++ unsigned 0 ++ unsigned timer_id)
  | PWake (MessageReady m) => Ok (array 2 ++ unsigned 1 ++ encode_message_id m)
  | PTimerSet timer_id deadline | PTimerFire timer_id deadline =>
      Ok (array 2 ++ unsigned timer_id ++ unsigned deadline)
  | PClockRead ticks => Ok (array 1 ++ unsigned ticks)
  | PSend f =>
      Ok (array 4 ++ encode_message_id (send_id f) ++ unsigned (send_from f) ++ unsigned (send_to f)
          ++ cbytes (original_content f))
  | PRecv f =>
      Ok (array 4 ++ encode_message_id (recv_id f) ++ unsigned (recv_from f) ++ unsigned (recv_to f)
          ++ cbytes (observed_content f))
  | PFsWrite (FsWriteAt path_ref offset content) =>
      Ok (array 4 ++ unsigned 0 ++ encode_path_ref path_ref ++ unsigned offset ++ cbytes content)
  | PFsWrite (FsAllocate path_ref) => Ok (array 2 ++ unsigned 1 ++ encode_path_ref path_ref)
  | PFsWrite (FsRename from to) =>
      Ok (array 3 ++ unsigned 2 ++ encode_path_ref from ++ encode_path_ref to)
  | PFsFsync path_ref => Ok (array 1 ++ encode_path_ref path_ref)
  | PFsRead r =>
      Ok (array 4 ++ encode_path_ref (read_path r) ++ unsigned (read_offset r)
          ++ unsigned (requested_len r) ++ encode_observed (observed r))
  | PRngDraw d =>
      Ok (array 3 ++ unsigned (rng_stream d) ++ unsigned (draw_index d) ++ cbytes (rng_content d))
  | POutcome o =>
      with_value (array 2 ++ chash (outcome_schema o)) (outcome_value o)
        "outcome value exceeds canonical bounds"
  | PAssert a =>
      with_value (array 3 ++ chash (predicate a) ++ boolean (passed a)) (detail a)
        "assert detail exceeds canonical bounds"
  | PSnapshot digest => Ok (array 1 ++ chash digest)
  | PEpoch epoch => Ok (array 1 ++ unsigned epoch)
  | PInputStep s =>
      with_value (array 3 ++ unsigned (generator s) ++ unsigned (replay s)) (input_value s)
        "input value exceeds canonical bounds"
  | PCapRequest c =>
      Ok (array 3 ++ cbytes (cap_request c) ++ chash (cap_subject c) ++ chash (capability c))
  | PCapGrant c =>
      Ok (array 3 ++ cbytes (grant_request c) ++ cbytes (grant_id c) ++ unsigned (grant_epoch c))
  | PCapInvoke c => Ok (array 2 ++ cbytes (invoke_grant c) ++ chash (operation c))
  | PCapRevoke c => Ok (array 2 ++ cbytes (revoke_grant c) ++ unsigned (revoke_epoch c))
  | PFault f => Ok (encode_fault_payload f)
  | PStepBegin s =>
      Ok (array 3 ++ unsigned (begin_step s) ++ cbytes (step_name s)
          ++ match idempotency_key s with Some key => cbytes key | None => null end)
  | PStepEnd s =>
      let '(discriminant, step_id, value) := step_end_parts s in
      with_value (array 3 ++ unsigned discriminant ++ unsigned step_id) value
        "step-end value exceeds canonical bounds"
  end.

(** [EntryData::encode_into]. *)
Definition entry_encode (e : EntryData) : result CborError (list byte) :=
  if (MAX_PARENTS_PER_ENTRY <? Z.of_nat (length (parents e)))%Z then Err LengthOverflow
  else
    let? body := payload_encode (payload e) in
    let out :=
      array 7 ++ unsigned (format_version e) ++ unsigned (kind_tag (kind e)) ++ unsigned (actor e)
      ++ array (length (parents e)) ++ concat (map chash (parents e))
      ++ array (length (vector_clock e)) ++ concat (map unsigned (vector_clock e))
      ++ unsigned (sequence e) ++ body in
    let encoded := Z.of_nat (length out) in
    if (MAX_ENTRY_BYTES <? encoded)%Z then Err (EntryTooLarge encoded) else Ok out.

Definition try_canonical_bytes (e : EntryData) : result CborError (list byte) := entry_encode e.

(** ** Decoding *)

Abbreviation reader A := (ItemReader -> result CborError (A * ItemReader)).

(** [let n = reader.read_array()?; if n != len { return Err(MalformedManifest(msg)) }]. *)
Definition expect_array (len : nat) (msg : string) (r : ItemReader) : result CborError ItemReader :=
  let? '(n, r) := read_array r in
  if negb (n =? len)%nat then Err (MalformedManifest msg) else Ok r.

(** [for _ in 0..n { out.push(f(reader)?) }]. *)
Definition read_seq {A} (f : reader A) : nat -> reader (list A) :=
  fix go n r :=
    match n with
    | O => Ok ([], r)
    | S n => let? '(x, r) := f r in let? '(xs, r) := go n r in Ok (x :: xs, r)
    end.

Definition read_u32 (msg : string) : reader Z := fun r =>
  let? '(value, r) := read_unsigned r in
  let? v := ok_or (u32_try_from value) (MalformedManifest msg) in Ok (v, r).

Definition decode_actor : reader Z := read_u32 "actor exceeds u32".
Definition decode_stream : reader Z := read_u32 "stream exceeds u32".

Definition decode_message_id : reader MessageId := fun r =>
  let? r := expect_array 2 "message id must have 2 items" r in
  let? '(sender, r) := decode_actor r in
  let? '(seq, r) := read_unsigned r in
  Ok (mkMessageId sender seq, r).

Definition decode_hash : reader EntryHash := fun r =>
  let? '(bytes, r) := read_bytes r in
  let? h := from_framed_bytes bytes in Ok (h, r).

Definition decode_bytes_16 : reader (list byte) := fun r =>
  let? '(bytes, r) := read_bytes r in
  if (length bytes =? 16)%nat then Ok (bytes, r)
  else Err (MalformedManifest "identifier must be 16 bytes").

Definition decode_path_ref : reader PathRef := fun r =>
  let? r := expect_array 2 "path ref must have 2 items" r in
  let? '(path_bytes, r) := read_bytes r in
  if negb (length path_bytes =? 32)%nat then Err (MalformedManifest "path hash must be 32 bytes")
  else
    let? '(path, r) := read_bytes r in
    let? _ := map_err (fun _ => MalformedManifest "path ref is not canonical") (canonicalize path) in
    if (MAX_CANONICAL_PATH_BYTES <? Z.of_nat (length path))%Z then Err LengthOverflow
    else Ok (mkPathRef path_bytes path, r).

Definition decode_xor : reader (list byte) := fun r =>
  let? '(xor_bytes, r) := read_bytes r in
  match xor_bytes with
  | [] => Err (MalformedManifest "empty XOR content is rejected")
  | _ => Ok (xor_bytes, r)
  end.

Definition decode_crash_operation : reader CrashOperation := fun r =>
  let? '(n, r) := read_array r in
  if negb ((1 <=? n)%nat && (n <=? 4)%nat) then
    Err (MalformedManifest "crash operation must have 1..=4 items")
  else
    let? '(discriminant, r) := read_unsigned r in
    match discriminant with
    | 0 => Ok (DropAllUnsynced, r)
    | 1 =>
        let? '(m, r) := read_array r in
        let? '(paths, r) := read_seq decode_path_ref m r in
        Ok (DropPaths paths, r)
    | 2 =>
        let? '(write_entry, r) := decode_hash r in
        let? '(persisted_prefix, r) := read_unsigned r in
        Ok (TornWrite write_entry persisted_prefix, r)
    | 3 =>
        let? '(write_entry, r) := decode_hash r in
        let? '(offset, r) := read_unsigned r in
        let? '(xor_bytes, r) := decode_xor r in
        Ok (CorruptRange write_entry offset xor_bytes, r)
    | 4 =>
        let? '(write_entry, r) := decode_hash r in
        let? '(offset, r) := read_unsigned r in
        let? '(bit, r) := read_unsigned r in
        if (u8_max <? bit)%Z then Err (MalformedManifest "bit exceeds u8")
        else if (7 <? bit)%Z then Err (MalformedManifest "bit must be in 0..=7")
        else Ok (BitFlip write_entry offset bit, r)
    | _ => Err (UnsupportedType 0)
    end.

Definition decode_fault_payload : reader FaultPayload := fun r =>
  let? '(n, r) := read_array r in
  if negb ((2 <=? n)%nat && (n <=? 4)%nat) then
    Err (MalformedManifest "Fault payload must have 2..=4 items")
  else
    let? '(discriminant, r) := read_unsigned r in
    match discriminant with
    | 0 => let? '(m, r) := decode_message_id r in Ok (DropMessage m, r)
    | 1 =>
        let? '(m, r) := decode_message_id r in
        let? '(ticks, r) := read_unsigned r in
        Ok (DelayMessage m ticks, r)
    | 2 =>
        let? '(m, r) := decode_message_id r in
        let? '(copy_ordinal, r) := read_u32 "copy_ordinal exceeds u32" r in
        Ok (DuplicateMessage m copy_ordinal, r)
    | 3 =>
        let? '(m, r) := decode_message_id r in
        let? '(offset, r) := read_unsigned r in
        let? '(xor_bytes, r) := decode_xor r in
        Ok (CorruptMessage m offset xor_bytes, r)
    | 4 =>
        let? '(src, r) := decode_actor r in
        let? '(dst, r) := decode_actor r in
        let? '(enabled, r) := read_bool r in
        Ok (Partition src dst enabled, r)
    | 5 =>
        let? '(actor, r) := decode_actor r in
        let? '(op, r) := decode_crash_operation r in
        Ok (CrashActor actor op, r)
    | _ => Err (UnsupportedType 0)
    end.

Definition read_payload_value (msg : string) : reader CanonicalValue := fun r =>
  map_err (fun _ => MalformedManifest msg) (read_canonical_value r).

(** The [observed] block of the [FsRead] arm. *)
Definition decode_observed : reader ObservedRead := fun r =>
  let? '(m, r) := read_array r in
  if negb (m =? 1)%nat && negb (m =? 2)%nat then
    Err (MalformedManifest "observed result must have 1 or 2 items")
  else
    let? '(discriminant, r) := read_unsigned r in
    match discriminant with
    | 0 => Ok (Missing, r)
    | 1 => let? '(content, r) := read_bytes r in Ok (Present content, r)
    | _ => Err (UnsupportedType 0)
    end.

Definition decode_fs_write : reader FsWritePayload := fun r =>
  let? '(n, r) := read_array r in
  if negb ((2 <=? n)%nat && (n <=? 4)%nat) then
    Err (MalformedManifest "FsWrite payload must have 2..=4 items")
  else
    let? '(discriminant, r) := read_unsigned r in
    match discriminant with
    | 0 =>
        if negb (n =? 4)%nat then Err (MalformedManifest "Write payload must have 4 items")
        else
          let? '(path_ref, r) := decode_path_ref r in
          let? '(offset, r) := read_unsigned r in
          let? '(content, r) := read_bytes r in
          Ok (FsWriteAt path_ref offset content, r)
    | 1 =>
        if negb (n =? 2)%nat then Err (MalformedManifest "Allocate payload must have 2 items")
        else let? '(path_ref, r) := decode_path_ref r in Ok (FsAllocate path_ref, r)
    | 2 =>
        if negb (n =? 3)%nat then Err (MalformedManifest "Rename payload must have 3 items")
        else
          let? '(from, r) := decode_path_ref r in
          let? '(to, r) := decode_path_ref r in
          Ok (FsRename from to, r)
    | _ => Err (UnsupportedType 0)
    end.

(** [decode_payload]. *)
Definition decode_payload (k : EntryKind) : reader EntryPayload := fun r =>
  match k with
  | KSpawn =>
      let? r := expect_array 1 "Spawn payload must have 1 item" r in
      let? '(child, r) := read_u32 "child_actor exceeds u32" r in Ok (PSpawn child, r)
  | KBlock =>
      let? r := expect_array 1 "Block payload must have 1 item" r in
      let? '(discriminant, r) := read_unsigned r in
      match discriminant with
      | 0 => Ok (PBlock Yield, r)
      | 1 => Ok (PBlock WaitMessage, r)
      | _ => Err (UnsupportedType 0)
      end
  | KWake =>
      let? r := expect_array 2 "Wake payload must have 2 items" r in
      let? '(discriminant, r) := read_unsigned r in
      match discriminant with
      | 0 => let? '(timer_id, r) := read_unsigned r in Ok (PWake (TimerReady timer_id), r)
      | 1 => let? '(m, r) := decode_message_id r in Ok (PWake (MessageReady m), r)
      | _ => Err (UnsupportedType 0)
      end
  | KTimerSet | KTimerFire =>
      let? r := expect_array 2 "Timer payload must have 2 items" r in
      let? '(timer_id, r) := read_unsigned r in
      let? '(deadline, r) := read_unsigned r in
      if bool_decide (k = KTimerSet) then Ok (PTimerSet timer_id deadline, r)
      else Ok (PTimerFire timer_id deadline, r)
  | KClockRead =>
      let? r := expect_array 1 "ClockRead payload must have 1 item" r in
      let? '(ticks, r) := read_unsigned r in Ok (PClockRead ticks, r)
  | KSend =>
      let? r := expect_array 4 "Send frame must have 4 items" r in
      let? '(m, r) := decode_message_id r in
      let? '(from, r) := decode_actor r in
      let? '(to, r) := decode_actor r in
      let? '(content, r) := read_bytes r in
      Ok (PSend (mkSendFrame m from to content), r)
  | KRecv =>
      let? r := expect_array 4 "Recv frame must have 4 items" r in
      let? '(m, r) := decode_message_id r in
      let? '(from, r) := decode_actor r in
      let? '(to, r) := decode_actor r in
      let? '(content, r) := read_bytes r in
      Ok (PRecv (mkRecvFrame m from to content), r)
  | KFsWrite => let? '(w, r) := decode_fs_write r in Ok (PFsWrite w, r)
  | KFsFsync =>
      let? r := expect_array 1 "FsFsync payload must have 1 item" r in
      let? '(path_ref, r) := decode_path_ref r in Ok (PFsFsync path_ref, r)
  | KFsRead =>
      let? r := expect_array 4 "FsRead payload must have 4 items" r in
      let? '(path_ref, r) := decode_path_ref r in
      let? '(offset, r) := read_unsigned r in
      let? '(len, r) := read_unsigned r in
      let? '(obs, r) := decode_observed r in
      Ok (PFsRead (mkFsRead path_ref offset len obs), r)
  | KRngDraw =>
      let? r := expect_array 3 "RngDraw payload must have 3 items" r in
      let? '(stream, r) := decode_stream r in
      let? '(index, r) := read_unsigned r in
      let? '(content, r) := read_bytes r in
      Ok (PRngDraw (mkRngDraw stream index content), r)
  | KOutcome =>
      let? r := expect_array 2 "Outcome payload must have 2 items" r in
      let? '(schema, r) := decode_hash r in
      let? '(value, r) := read_payload_value "outcome value invalid" r in
      Ok (POutcome (mkOutcome schema value), r)
  | KAssert =>
      let? r := expect_array 3 "Assert payload must have 3 items" r in
      let? '(pred, r) := decode_hash r in
      let? '(ok, r) := read_bool r in
      let? '(value, r) := read_payload_value "assert detail invalid" r in
      Ok (PAssert (mkAssert pred ok value), r)
  | KSnapshot =>
      let? r := expect_array 1 "Snapshot payload must have 1 item" r in
      let? '(digest, r) := decode_hash r in Ok (PSnapshot digest, r)
  | KEpoch =>
      let? r := expect_array 1 "Epoch payload must have 1 item" r in
      let? '(epoch, r) := read_unsigned r in Ok (PEpoch epoch, r)
  | KInputStep =>
      let? r := expect_array 3 "InputStep payload must have 3 items" r in
      let? '(gen, r) := read_unsigned r in
      let? '(rep, r) := read_unsigned r in
      let? '(value, r) := read_payload_value "input value invalid" r in
      Ok (PInputStep (mkInputStep gen rep value), r)
  | KCapRequest =>
      let? r := expect_array 3 "CapRequest payload must have 3 items" r in
      let? '(request, r) := decode_bytes_16 r in
      let? '(subject, r) := decode_hash r in
      let? '(cap, r) := decode_hash r in
      Ok (PCapRequest (mkCapRequest request subject cap), r)
  | KCapGrant =>
      let? r := expect_array 3 "CapGrant payload must have 3 items" r in
      let? '(request, r) := decode_bytes_16 r in
      let? '(grant, r) := decode_bytes_16 r in
      let? '(epoch, r) := read_unsigned r in
      Ok (PCapGrant (mkCapGrant request grant epoch), r)
  | KCapInvoke =>
      let? r := expect_array 2 "CapInvoke payload must have 2 items" r in
      let? '(grant, r) := decode_bytes_16 r in
      let? '(op, r) := decode_hash r in
      Ok (PCapInvoke (mkCapInvoke grant op), r)
  | KCapRevoke =>
      let? r := expect_array 2 "CapRevoke payload must have 2 items" r in
      let? '(grant, r) := decode_bytes_16 r in
      let? '(epoch, r) := read_unsigned r in
      Ok (PCapRevoke (mkCapRevoke grant epoch), r)
  | KFault => let? '(f, r) := decode_fault_payload r in Ok (PFault f, r)
  | KStepBegin =>
      let? r := expect_array 3 "StepBegin payload must have 3 items" r in
      let? '(step_id, r) := read_unsigned r in
      let? '(name, r) := read_bytes r in
      let? '(item, r) := read_item r in
      match item with
      | INull => Ok (PStepBegin (mkStepBegin step_id name None), r)
      | IBytes b => Ok (PStepBegin (mkStepBegin step_id name (Some b)), r)
      | _ => Err (MalformedManifest "idempotency key must be null or bytes")
      end
  | KStepEnd =>
      let? r := expect_array 3 "StepEnd payload must have 3 items" r in
      let? '(discriminant, r) := read_unsigned r in
      let? '(step_id, r) := read_unsigned r in
      let? '(value, r) := read_payload_value "step-end value invalid" r in
      match discriminant with
      | 0 => Ok (PStepEnd (Completed step_id value), r)
      | 1 => Ok (PStepEnd (Failed step_id value), r)
      | 2 => Ok (PStepEnd (Cancelled step_id value), r)
      | _ => Err (UnsupportedType 0)
      end
  end.

(** [EntryData::from_canonical_bytes]. *)
Definition entry_from_canonical_bytes (input : list byte) : result CborError EntryData :=
  if (MAX_ENTRY_BYTES <? Z.of_nat (length input))%Z then Err LengthOverflow
  else
    let? r := expect_array 7 "EntryData must hold exactly 7 items" (item_reader_new input) in
    let? '(version, r) := read_u32 "format version exceeds u32" r in
    if negb (version =? FORMAT_VERSION)%Z then Err (UnsupportedVersion version)
    else
      let? '(tag, r) := read_unsigned r in
      let? k := ok_or (from_tag tag) (UnknownTag tag) in
      let? '(act, r) := read_u32 "actor exceeds u32" r in
      let? '(parent_count, r) := read_array r in
      if (MAX_PARENTS_PER_ENTRY <? Z.of_nat parent_count)%Z then Err LengthOverflow
      else
        let? '(pars, r) := read_seq decode_hash parent_count r in
        let? '(vc_count, r) := read_array r in
        if (MAX_VECTOR_CLOCK_ACTORS <? Z.of_nat vc_count)%Z then Err LengthOverflow
        else
          let? '(clock, r) := read_seq read_unsigned vc_count r in
          let? '(seq, r) := read_unsigned r in
          let? '(pl, r) := decode_payload k r in
          if negb (at_end r) then Err TrailingBytes
          else Ok (mkEntryData version k act pars clock seq pl).
