(* ===== verification/EntryProofs.v ===== *)
(** * Journal entries: correctness

    Every reader of [Entry.v] inverts the encoder it belongs to.  The rewriting database [enc]
    holds one equation per field codec, so a payload is read back by rewriting field by field. *)

From S2P Require Import Prelude Machine Floats Cbor CborProofs Limits Items Value ValueProofs Path Entry.

Open Scope Z_scope.

(** ** Well-formed entries: what the Rust types and the documented limits guarantee *)

Definition u32b (v : Z) : bool := (0 <=? v)%Z && (v <=? u32_max)%Z.
Definition sized (b : list byte) : bool := u64b (Z.of_nat (length b)).
Definition value_wf (v : CanonicalValue) : bool := cbor_wf (to_cbor v).
Definition id16 (b : list byte) : bool := (length b =? 16)%nat.
Definition message_id_wf (m : MessageId) : bool := u32b (sender m) && u64b (sender_sequence m).

(** A path reference carries a 32-byte digest and a path that resolves within the limit. *)
Definition path_ref_wf (p : PathRef) : bool :=
  (length (path_hash p) =? 32)%nat && is_ok (canonicalize (canonical_path p))
  && (Z.of_nat (length (canonical_path p)) <=? MAX_CANONICAL_PATH_BYTES)%Z.

Definition nonempty (b : list byte) : bool := match b with [] => false | _ => true end.

Definition crash_operation_wf (c : CrashOperation) : bool :=
  match c with
  | DropAllUnsynced => true
  | DropPaths paths => u64b (Z.of_nat (length paths)) && forallb path_ref_wf paths
  | TornWrite w n => hash_wf w && u64b n
  | CorruptRange w o x => hash_wf w && u64b o && nonempty x && sized x
  | BitFlip w o b => hash_wf w && u64b o && (0 <=? b)%Z && (b <=? 7)%Z
  end.

Definition fault_wf (f : FaultPayload) : bool :=
  match f with
  | DropMessage m => message_id_wf m
  | DelayMessage m t => message_id_wf m && u64b t
  | DuplicateMessage m c => message_id_wf m && u32b c
  | CorruptMessage m o x => message_id_wf m && u64b o && nonempty x && sized x
  | Partition s d _ => u32b s && u32b d
  | CrashActor a op => u32b a && crash_operation_wf op
  end.

Definition payload_wf (p : EntryPayload) : bool :=
  match p with
  | PSpawn c => u32b c
  | PBlock _ => true
  | PWake (TimerReady t) => u64b t
  | PWake (MessageReady m) => message_id_wf m
  | PTimerSet t d | PTimerFire t d => u64b t && u64b d
  | PClockRead t => u64b t
  | PSend f => message_id_wf (send_id f) && u32b (send_from f) && u32b (send_to f) && sized (original_content f)
  | PRecv f => message_id_wf (recv_id f) && u32b (recv_from f) && u32b (recv_to f) && sized (observed_content f)
  | PFsWrite (FsWriteAt p o c) => path_ref_wf p && u64b o && sized c
  | PFsWrite (FsAllocate p) => path_ref_wf p
  | PFsWrite (FsRename p q) => path_ref_wf p && path_ref_wf q
  | PFsFsync p => path_ref_wf p
  | PFsRead r =>
      path_ref_wf (read_path r) && u64b (read_offset r) && u64b (requested_len r)
      && match observed r with Missing => true | Present c => sized c end
  | PRngDraw d => u32b (rng_stream d) && u64b (draw_index d) && sized (rng_content d)
  | POutcome o => hash_wf (outcome_schema o) && value_wf (outcome_value o)
  | PAssert a => hash_wf (predicate a) && value_wf (detail a)
  | PSnapshot h => hash_wf h
  | PEpoch e => u64b e
  | PInputStep s => u64b (generator s) && u64b (replay s) && value_wf (input_value s)
  | PCapRequest c => id16 (cap_request c) && hash_wf (cap_subject c) && hash_wf (capability c)
  | PCapGrant c => id16 (grant_request c) && id16 (grant_id c) && u64b (grant_epoch c)
  | PCapInvoke c => id16 (invoke_grant c) && hash_wf (operation c)
  | PCapRevoke c => id16 (revoke_grant c) && u64b (revoke_epoch c)
  | PFault f => fault_wf f
  | PStepBegin s =>
      u64b (begin_step s) && sized (step_name s)
      && match idempotency_key s with Some k => sized k | None => true end
  | PStepEnd s => let '(_, i, v) := step_end_parts s in u64b i && value_wf v
  end.

Definition entry_wf (e : EntryData) : bool :=
  (format_version e =? FORMAT_VERSION)%Z && bool_decide (kind e = payload_kind (payload e))
  && u32b (actor e) && forallb hash_wf (parents e) && forallb u64b (vector_clock e)
  && u64b (sequence e) && payload_wf (payload e).

(** The value as its reader returns it: maps in canonical key order. *)
Definition vcanon (v : CanonicalValue) : CanonicalValue := of_cbor (canon (to_cbor v)).

Definition canon_payload (p : EntryPayload) : EntryPayload :=
  match p with
  | POutcome o => POutcome (mkOutcome (outcome_schema o) (vcanon (outcome_value o)))
  | PAssert a => PAssert (mkAssert (predicate a) (passed a) (vcanon (detail a)))
  | PInputStep s => PInputStep (mkInputStep (generator s) (replay s) (vcanon (input_value s)))
  | PStepEnd (Completed i v) => PStepEnd (Completed i (vcanon v))
  | PStepEnd (Failed i v) => PStepEnd (Failed i (vcanon v))
  | PStepEnd (Cancelled i v) => PStepEnd (Cancelled i (vcanon v))
  | p => p
  end.

Definition canon_entry (e : EntryData) : EntryData :=
  mkEntryData (format_version e) (kind e) (actor e) (parents e) (vector_clock e) (sequence e)
    (canon_payload (payload e)).

(** ** Field codecs *)

Lemma u32b_spec v : u32b v = true <-> is_u32 v.
Proof. unfold u32b, is_u32. rewrite andb_true_iff, !Z.leb_le. done. Qed.

Ltac wf_hyps :=
  unfold sized, value_wf in *; bool_hyps;
  repeat match goal with
  | H : u64b _ = true |- _ => apply u64b_spec in H
  | H : u32b _ = true |- _ => apply u32b_spec in H
  end.

(** Every encoded item is at least one byte long. *)
Lemma len_unsigned v : (1 <= length (unsigned v))%nat.
Proof. apply major_nonempty. Qed.
Lemma len_cbytes b : (1 <= length (cbytes b))%nat.
Proof. unfold cbytes. rewrite length_app. pose proof (major_nonempty 2 (Z.of_nat (length b))). lia. Qed.
Lemma len_array n : (1 <= length (array n))%nat.
Proof. apply major_nonempty. Qed.
Lemma len_chash h : (1 <= length (chash h))%nat.
Proof. apply len_cbytes. Qed.
Lemma len_boolean b : length (boolean b) = 1%nat.
Proof. done. Qed.
Lemma len_path_ref p : (1 <= length (encode_path_ref p))%nat.
Proof. unfold encode_path_ref. rewrite length_app. pose proof (len_array 2). lia. Qed.
Lemma len_message_id m : (1 <= length (encode_message_id m))%nat.
Proof. unfold encode_message_id. rewrite length_app. pose proof (len_array 2). lia. Qed.
Lemma len_value v b : value_try_encode v = Ok b -> (1 <= length b)%nat.
Proof. intros (H & _)%value_bytes_iff. apply try_encode_nonempty in H. done. Qed.
Lemma len_observed o : (1 <= length (encode_observed o))%nat.
Proof. destruct o; cbn [encode_observed]; rewrite length_app; [pose proof (len_array 1) | pose proof (len_array 2)]; lia. Qed.
Lemma len_crash_operation c : (1 <= length (encode_crash_operation c))%nat.
Proof.
  destruct c; cbn [encode_crash_operation]; rewrite length_app;
    match goal with |- context [length (array ?n)] => pose proof (len_array n) end; lia.
Qed.

Ltac enc_len :=
  rewrite ?length_app, ?len_boolean;
  repeat match goal with
  | |- context [length (unsigned ?v)] => learn (len_unsigned v)
  | |- context [length (cbytes ?b)] => learn (len_cbytes b)
  | |- context [length (array ?n)] => learn (len_array n)
  | |- context [length (chash ?n)] => learn (len_chash n)
  | |- context [length (encode_path_ref ?n)] => learn (len_path_ref n)
  | |- context [length (encode_message_id ?n)] => learn (len_message_id n)
  | |- context [length (encode_observed ?n)] => learn (len_observed n)
  | |- context [length (encode_crash_operation ?n)] => learn (len_crash_operation n)
  | H : value_try_encode _ = Ok ?b |- context [length ?b] => learn (len_value _ _ H)
  end; cbn [length null] in *; lia.

Create Rewrite HintDb enc.

Lemma u64_nat_small n : (n <= 4096)%nat -> is_u64 (Z.of_nat n).
Proof. intros. widths. lia. Qed.

Lemma expect_array_enc n msg rest : (n <= 4096)%nat -> (n <= length rest)%nat ->
  expect_array n msg (rd (array n ++ rest)) = Ok (rd rest).
Proof.
  intros Hn Hl. unfold expect_array. rewrite read_array_enc by (done || apply u64_nat_small; done).
  rewrite Nat.eqb_refl. done.
Qed.

Lemma read_u32_enc msg v rest : is_u32 v -> read_u32 msg (rd (unsigned v ++ rest)) = Ok (v, rd rest).
Proof.
  intros Hv. unfold read_u32. rewrite read_unsigned_enc by (apply is_u32_u64; done).
  rewrite u32_try_from_ok by done. done.
Qed.

Lemma decode_hash_enc h rest : hash_wf h = true -> decode_hash (rd (chash h ++ rest)) = Ok (h, rd rest).
Proof.
  intros Hh. unfold decode_hash, chash. rewrite read_bytes_enc, from_to_framed_bytes; [done|done|].
  apply u64_nat_small. unfold hash_wf in Hh. bool_hyps. cbn [to_framed_bytes length]. lia.
Qed.

Lemma decode_bytes_16_enc b rest : id16 b = true -> decode_bytes_16 (rd (cbytes b ++ rest)) = Ok (b, rd rest).
Proof.
  unfold id16. intros Hb. unfold decode_bytes_16. rewrite read_bytes_enc; [rewrite Hb; done|].
  bool_hyps. apply u64_nat_small. lia.
Qed.

Lemma decode_message_id_enc m rest : message_id_wf m = true ->
  decode_message_id (rd (encode_message_id m ++ rest)) = Ok (m, rd rest).
Proof.
  destruct m as [s q]. unfold message_id_wf. intros H. wf_hyps. cbn [sender sender_sequence] in *.
  unfold decode_message_id, encode_message_id, decode_actor. cbn [sender sender_sequence].
  rewrite <- !app_assoc, expect_array_enc by (lia || enc_len).
  rewrite read_u32_enc, read_unsigned_enc by done. done.
Qed.

Lemma decode_path_ref_enc p rest : path_ref_wf p = true ->
  decode_path_ref (rd (encode_path_ref p ++ rest)) = Ok (p, rd rest).
Proof.
  destruct p as [h c]. unfold path_ref_wf. intros H. wf_hyps. cbn [path_hash canonical_path] in *.
  unfold decode_path_ref, encode_path_ref. cbn [path_hash canonical_path].
  rewrite <- !app_assoc, expect_array_enc by (lia || enc_len).
  unfold MAX_CANONICAL_PATH_BYTES in *.
  rewrite read_bytes_enc by (apply u64_nat_small; lia).
  rewrite (proj2 (Nat.eqb_eq _ _)) by done. cbn [negb].
  rewrite read_bytes_enc by (apply u64_nat_small; lia).
  destruct (canonicalize c); [|done]. cbn [map_err].
  destruct (Z.ltb_spec 4096 (Z.of_nat (length c))); [lia|done].
Qed.

Lemma decode_xor_enc x rest : nonempty x = true -> is_u64 (Z.of_nat (length x)) ->
  decode_xor (rd (cbytes x ++ rest)) = Ok (x, rd rest).
Proof. intros Hx Hl. unfold decode_xor. rewrite read_bytes_enc by done. destruct x; done. Qed.

Lemma read_payload_value_enc msg v b rest : cbor_wf (to_cbor v) = true -> value_try_encode v = Ok b ->
  read_payload_value msg (rd (b ++ rest)) = Ok (vcanon v, rd rest).
Proof. intros Hv Hb. unfold read_payload_value. rewrite (read_canonical_value_enc v b rest Hv Hb). done. Qed.

Lemma read_seq_enc {A} (f : reader A) (enc : A -> list byte) (l : list A) rest :
  Forall (fun x => forall rest, f (rd (enc x ++ rest)) = Ok (x, rd rest)) l ->
  read_seq f (length l) (rd (concat (map enc l) ++ rest)) = Ok (l, rd rest).
Proof.
  induction 1 as [|x l Hx _ IH]; [done|]. cbn [length map concat read_seq].
  rewrite <- app_assoc, Hx, IH. done.
Qed.

Lemma length_concat_map {A} (enc : A -> list byte) (l : list A) :
  (forall x, (1 <= length (enc x))%nat) -> (length l <= length (concat (map enc l)))%nat.
Proof.
  intros H. induction l as [|x l IH]; cbn [map concat length]; [lia|]. rewrite length_app. pose proof (H x). lia.
Qed.

(** Run a reader over encoded fields: the field at the front selects the equation. *)
Ltac u64_side := first [assumption | apply u64_nat_small; lia | widths; lia].
Ltac run_step :=
  match goal with
  | |- context [expect_array ?n ?msg (rd (array ?n ++ ?rest))] =>
      rewrite (expect_array_enc n msg rest) by (lia || enc_len)
  | |- context [read_array (rd (array ?n ++ ?rest))] =>
      rewrite (read_array_enc n rest) by (u64_side || enc_len)
  | |- context [read_unsigned (rd (unsigned ?v ++ ?rest))] => rewrite (read_unsigned_enc v rest) by u64_side
  | |- context [read_u32 ?msg (rd (unsigned ?v ++ ?rest))] => rewrite (read_u32_enc msg v rest) by assumption
  | |- context [read_bool (rd (boolean ?b ++ ?rest))] => rewrite (read_bool_enc b rest)
  | |- context [read_bytes (rd (cbytes ?b ++ ?rest))] => rewrite (read_bytes_enc b rest) by assumption
  | |- context [decode_message_id (rd (encode_message_id ?m ++ ?rest))] =>
      rewrite (decode_message_id_enc m rest) by assumption
  | |- context [decode_path_ref (rd (encode_path_ref ?p ++ ?rest))] =>
      rewrite (decode_path_ref_enc p rest) by assumption
  | |- context [decode_hash (rd (chash ?h ++ ?rest))] => rewrite (decode_hash_enc h rest) by assumption
  | |- context [decode_bytes_16 (rd (cbytes ?b ++ ?rest))] =>
      rewrite (decode_bytes_16_enc b rest) by assumption
  | |- context [decode_xor (rd (cbytes ?x ++ ?rest))] => rewrite (decode_xor_enc x rest) by assumption
  | H : value_try_encode ?v = Ok ?b |- context [read_payload_value ?msg (rd (?b ++ ?rest))] =>
      rewrite (read_payload_value_enc msg v b rest) by assumption
  end.
Ltac run_reader :=
  rewrite <- ?app_assoc; repeat (run_step; cbn [Nat.eqb Nat.leb andb negb]; rewrite <- ?app_assoc).

Lemma decode_crash_operation_enc c rest : crash_operation_wf c = true ->
  decode_crash_operation (rd (encode_crash_operation c ++ rest)) = Ok (c, rd rest).
Proof.
  intros H. destruct c as [|paths|w n|w o x|w o b]; cbn [crash_operation_wf] in H; bool_hyps;
    unfold decode_crash_operation; cbn [encode_crash_operation].
  - run_reader. done.
  - assert (Hl := length_concat_map encode_path_ref paths len_path_ref).
    wf_hyps. run_reader.
    rewrite (read_seq_enc decode_path_ref encode_path_ref); [done|].
    rewrite forallb_forall in H0. apply Forall_forall. intros p Hp rest'. apply decode_path_ref_enc. auto.
  - wf_hyps. run_reader. done.
  - wf_hyps. run_reader. done.
  - wf_hyps. run_reader. 
    unfold u8_max. destruct (Z.ltb_spec 255 b); [lia|]. destruct (Z.ltb_spec 7 b); [lia|]. done.
Qed.

Lemma decode_fault_payload_enc f rest : fault_wf f = true ->
  decode_fault_payload (rd (encode_fault_payload f ++ rest)) = Ok (f, rd rest).
Proof.
  intros H. destruct f as [m|m t|m c|m o x|s d e|a op]; cbn [fault_wf] in H; wf_hyps;
    unfold decode_fault_payload, decode_actor; cbn [encode_fault_payload]; run_reader; try done.
  rewrite decode_crash_operation_enc by done. done.
Qed.

Lemma decode_observed_enc o rest :
  match o with Missing => true | Present c => sized c end = true ->
  decode_observed (rd (encode_observed o ++ rest)) = Ok (o, rd rest).
Proof.
  intros H. destruct o as [|c]; wf_hyps; unfold decode_observed; cbn [encode_observed]; run_reader; done.
Qed.

Lemma with_value_inv prefix v msg out : with_value prefix v msg = Ok out ->
  exists b, value_try_encode v = Ok b /\ out = prefix ++ b.
Proof. unfold with_value. destruct (value_try_encode v) as [b|]; cbn; intros; simplify_eq. eauto. Qed.

(** Each payload is read back, with its value in canonical form. *)
Lemma decode_payload_enc p out rest : payload_wf p = true -> payload_encode p = Ok out ->
  decode_payload (payload_kind p) (rd (out ++ rest)) = Ok (canon_payload p, rd rest).
Proof.
  intros Hw He.
  destruct p as [c|[]|[t|m]|t d|t d|t|[m f t c]|[m f t c]|[p o c|p|p q]|p|[p o l ob]|[s i c]
                |[h v]|[h b v]|h|e|[g r v]|[q s c]|[q g e]|[g o]|[g e]|f|[i n [k|]]|st];
    cbn [payload_wf payload_kind payload_encode canon_payload send_id send_from send_to original_content
         recv_id recv_from recv_to observed_content read_path read_offset requested_len observed
         rng_stream draw_index rng_content outcome_schema outcome_value predicate passed detail
         generator replay input_value cap_request cap_subject capability grant_request grant_id grant_epoch
         invoke_grant operation revoke_grant revoke_epoch begin_step step_name idempotency_key] in *;
    try (apply with_value_inv in He as (vb & Hv & ->)); try (apply Ok_inj in He; subst out); wf_hyps;
    cbn [decode_payload decode_fs_write]; unfold decode_fs_write, decode_actor, decode_stream; run_reader; try done.
  - rewrite decode_observed_enc by done. done.
  - rewrite decode_fault_payload_enc by done. done.
  - rewrite read_bytes_item_enc by done. done.
  - destruct st as [i v|i v|i v]; cbn [step_end_parts] in *; wf_hyps;
      apply with_value_inv in He as (vb & Hv & ->); run_reader; done.
Qed.

(** ** Entries *)

Lemma from_tag_kind_tag k : from_tag (kind_tag k) = Some k.
Proof. destruct k; reflexivity. Qed.

Lemma kind_tag_from_tag t k : from_tag t = Some k -> t = kind_tag k.
Proof. unfold from_tag. intros H. run_match H; done. Qed.

Lemma kind_tag_u64 k : is_u64 (kind_tag k).
Proof. widths. destruct k; cbn; lia. Qed.

Lemma payload_encode_nonempty p out : payload_encode p = Ok out -> (1 <= length out)%nat.
Proof.
  assert (Hf : forall f, (1 <= length (encode_fault_payload f))%nat).
  { intros f. destruct f; cbn [encode_fault_payload]; enc_len. }
  intros H. destruct p as [| |[]| | | | | |[]| | | | | | | | | | | | | | |[]];
    cbn [payload_encode step_end_parts] in H;
    try (apply with_value_inv in H as (vb & Hv & ->)); try (apply Ok_inj in H; subst out); try enc_len.
  apply Hf.
Qed.

Lemma entry_wf_inv e : entry_wf e = true ->
  format_version e = FORMAT_VERSION /\ kind e = payload_kind (payload e) /\ is_u32 (actor e)
  /\ (forall h, In h (parents e) -> hash_wf h = true)
  /\ (forall v, In v (vector_clock e) -> is_u64 v)
  /\ is_u64 (sequence e) /\ payload_wf (payload e) = true.
Proof.
  unfold entry_wf. intros H. wf_hyps. rewrite !forallb_forall in *.
  match goal with H : bool_decide _ = true |- _ => apply bool_decide_eq_true in H end.
  split_and!; try done. intros v Hv. apply u64b_spec. auto.
Qed.

(** The fields after the parents, as the encoder lays them out. *)
Definition clock_and_rest (e : EntryData) (body : list byte) : list byte :=
  array (length (vector_clock e)) ++ concat (map unsigned (vector_clock e))
  ++ unsigned (sequence e) ++ body.

Definition decode_clock_and_rest (version : Z) (k : EntryKind) (act : Z) (pars : list EntryHash) :
    ItemReader -> result CborError EntryData := fun r =>
  let? '(vc_count, r) := read_array r in
  if (MAX_VECTOR_CLOCK_ACTORS <? Z.of_nat vc_count)%Z then Err LengthOverflow
  else
    let? '(clock, r) := read_seq read_unsigned vc_count r in
    let? '(seq, r) := read_unsigned r in
    let? '(pl, r) := decode_payload k r in
    if negb (at_end r) then Err TrailingBytes
    else Ok (mkEntryData version k act pars clock seq pl).

(** Up to the clock, decoding an accepted entry goes through. *)
Lemma decode_entry_head e out : entry_wf e = true -> try_canonical_bytes e = Ok out ->
  exists body, payload_encode (payload e) = Ok body
  /\ (length (clock_and_rest e body) <= length out)%nat
  /\ Z.of_nat (length out) <= MAX_ENTRY_BYTES
  /\ entry_from_canonical_bytes out
     = decode_clock_and_rest FORMAT_VERSION (kind e) (actor e) (parents e) (rd (clock_and_rest e body)).
Proof.
  intros Hw He. apply entry_wf_inv in Hw as (Hver & Hk & Ha & Hpar & _ & _ & _).
  unfold try_canonical_bytes, entry_encode in He.
  case_split_in He; [done|]. destruct (payload_encode (payload e)) as [body|] eqn:Hb; [|done].
  cbv zeta in He. case_split_in He; [done|]. apply Ok_inj in He. rewrite He in *.
  exists body. split; [done|]. bool_hyps. fold (clock_and_rest e body) in He.
  split; [subst out; rewrite !length_app; lia|]. split; [done|].
  unfold entry_from_canonical_bytes, item_reader_new.
  destruct (Z.ltb_spec MAX_ENTRY_BYTES (Z.of_nat (length out))) as [|_]; [lia|]. subst out.
  assert (Hp : is_u64 (Z.of_nat (length (parents e)))) by (unfold MAX_PARENTS_PER_ENTRY in *; widths; lia).
  assert (Hpl := length_concat_map chash (parents e) len_chash).
  assert (Hc1 : (3 <= length (clock_and_rest e body))%nat)
    by (pose proof (payload_encode_nonempty _ _ Hb); unfold clock_and_rest; enc_len).
  pose proof (kind_tag_u64 (kind e)) as Hkt.
  assert (Hfv : is_u32 (format_version e)) by (rewrite Hver; widths; unfold FORMAT_VERSION; lia).
  run_reader. rewrite Hver, Z.eqb_refl. cbn [negb]. rewrite from_tag_kind_tag. cbn [ok_or]. run_reader.
  destruct (Z.ltb_spec MAX_PARENTS_PER_ENTRY (Z.of_nat (length (parents e)))); [lia|].
  rewrite (read_seq_enc decode_hash chash); [done|].
  apply Forall_forall. intros h Hh rest. apply decode_hash_enc. auto.
Qed.

Lemma read_clock e body : entry_wf e = true -> payload_encode (payload e) = Ok body ->
  is_u64 (Z.of_nat (length (vector_clock e))) ->
  read_array (rd (clock_and_rest e body))
  = Ok (length (vector_clock e), rd (concat (map unsigned (vector_clock e)) ++ unsigned (sequence e) ++ body)).
Proof.
  intros Hw Hb Hl. pose proof (length_concat_map unsigned (vector_clock e) len_unsigned).
  unfold clock_and_rest. run_reader. done.
Qed.

Lemma clock_is_u64 e out body : entry_wf e = true -> try_canonical_bytes e = Ok out ->
  (length (clock_and_rest e body) <= length out)%nat -> Z.of_nat (length out) <= MAX_ENTRY_BYTES ->
  is_u64 (Z.of_nat (length (vector_clock e))).
Proof.
  intros _ _ Hl Hm. pose proof (length_concat_map unsigned (vector_clock e) len_unsigned).
  unfold clock_and_rest in Hl. rewrite !length_app in Hl. unfold MAX_ENTRY_BYTES in Hm. widths. lia.
Qed.

Lemma entry_decode_encode e out :
  entry_wf e = true -> Z.of_nat (length (vector_clock e)) <= MAX_VECTOR_CLOCK_ACTORS ->
  try_canonical_bytes e = Ok out -> entry_from_canonical_bytes out = Ok (canon_entry e).
Proof.
  intros Hw Hc He. destruct (decode_entry_head e out Hw He) as (body & Hb & Hl & Hm & ->).
  pose proof (clock_is_u64 _ _ _ Hw He Hl Hm) as Hv. unfold decode_clock_and_rest.
  rewrite read_clock by done. destruct (Z.ltb_spec MAX_VECTOR_CLOCK_ACTORS (Z.of_nat (length (vector_clock e)))); [lia|].
  apply entry_wf_inv in Hw as (Hver & Hk & Ha & _ & Hclk & Hs & Hpl).
  rewrite (read_seq_enc read_unsigned unsigned).
  - run_reader. rewrite Hk. rewrite <- (app_nil_r body), (decode_payload_enc _ _ _ Hpl Hb).
    cbn [at_end unread negb]. unfold canon_entry. f_equal. f_equal; congruence.
  - apply Forall_forall. intros v Hv' rest. apply read_unsigned_enc. auto.
Qed.

(** C3: entry round trip.  A well-formed entry whose vector clock has at most
    [MAX_VECTOR_CLOCK_ACTORS] components and that [EntryData::try_canonical_bytes] accepts is
    decoded by [EntryData::from_canonical_bytes] as the same entry, its embedded values with maps
    in canonical key order.  All 24 kinds and every payload variant are covered. *)
Theorem entry_round_trip e out :
  entry_wf e = true -> Z.of_nat (length (vector_clock e)) <= MAX_VECTOR_CLOCK_ACTORS ->
  try_canonical_bytes e = Ok out -> entry_from_canonical_bytes out = Ok (canon_entry e).
Proof. apply entry_decode_encode. Qed.

Definition sample_entry : EntryData :=
  mkEntryData 3 KStepEnd 7 [repeat x11 32; repeat x22 32] [0; 300; 2] 9
    (PStepEnd (Failed 4 (VMap [(VUnsigned 700, VNull); (VUnsigned 2, VText [x61])]))).

Lemma entry_round_trip_witness :
  exists out, try_canonical_bytes sample_entry = Ok out
    /\ entry_from_canonical_bytes out = Ok (canon_entry sample_entry).
Proof.
  eexists. split; [reflexivity|]. apply entry_round_trip; [reflexivity | vm_compute; discriminate | reflexivity].
Defined.

(** Unreadable entries.  An entry whose vector clock exceeds [MAX_VECTOR_CLOCK_ACTORS] is
    accepted by the encoder (only the parents and the total size are capped) and then refused by
    every read of its bytes with [LengthOverflow]. *)
Theorem wide_clock_unreadable e out :
  entry_wf e = true -> MAX_VECTOR_CLOCK_ACTORS < Z.of_nat (length (vector_clock e)) ->
  try_canonical_bytes e = Ok out -> entry_from_canonical_bytes out = Err LengthOverflow.
Proof.
  intros Hw Hc He. destruct (decode_entry_head e out Hw He) as (body & Hb & Hl & Hm & ->).
  pose proof (clock_is_u64 _ _ _ Hw He Hl Hm) as Hv. unfold decode_clock_and_rest.
  rewrite read_clock by done. destruct (Z.ltb_spec MAX_VECTOR_CLOCK_ACTORS (Z.of_nat (length (vector_clock e)))); [done|lia].
Qed.

Definition wide_entry (n : nat) : EntryData := mkEntryData 3 KEpoch 0 [] (repeat 0 n) 0 (PEpoch 0).

Lemma wide_entry_wf n : entry_wf (wide_entry n) = true.
Proof.
  unfold entry_wf, wide_entry. cbn [format_version kind payload payload_kind actor parents vector_clock sequence payload_wf].
  replace (forallb u64b (repeat 0 n)) with true; [done|]. induction n as [|n IH]; [done|]. exact IH.
Qed.

Lemma wide_entry_encodes n : Z.of_nat n <= 1000000 -> exists out, try_canonical_bytes (wide_entry n) = Ok out.
Proof.
  intros Hn. unfold try_canonical_bytes, entry_encode, wide_entry.
  cbn [format_version kind payload actor parents vector_clock sequence payload_encode map concat length].
  rewrite repeat_length.
  assert (Hc : length (concat (map unsigned (repeat 0 n))) = n).
  { clear Hn. induction n as [|n IH]; [done|]. cbn [repeat map concat]. rewrite length_app, IH. done. }
  assert (Ha : (length (array n) <= 9)%nat)
    by (unfold array, major; repeat case_split; cbn [length]; rewrite ?length_to_be_bytes; lia).
  cbv zeta. match goal with |- context [if ?c then Err (EntryTooLarge _) else _] => destruct c eqn:E end;
    [|eexists; reflexivity].
  apply Z.ltb_lt in E. rewrite !length_app, Hc in E. unfold MAX_ENTRY_BYTES in E. 
  change (length (array 7)) with 1%nat in E. change (length (unsigned 3)) with 1%nat in E.
  change (length (unsigned (kind_tag KEpoch))) with 1%nat in E. change (length (unsigned 0)) with 1%nat in E.
  change (length (array 0)) with 1%nat in E. change (length (array 1)) with 1%nat in E. cbn [length] in E. lia.
Qed.

Lemma wide_clock_unreadable_witness :
  exists n out, try_canonical_bytes (wide_entry n) = Ok out /\ entry_from_canonical_bytes out = Err LengthOverflow.
Proof.
  exists (Z.to_nat 65537). destruct (wide_entry_encodes (Z.to_nat 65537)) as [out Hout]; [rewrite Z2Nat.id; lia|].
  exists out. split; [exact Hout|]. apply (wide_clock_unreadable (wide_entry (Z.to_nat 65537)) out).
  - apply wide_entry_wf.
  - unfold wide_entry. cbn [vector_clock]. rewrite repeat_length, Z2Nat.id; unfold MAX_VECTOR_CLOCK_ACTORS; lia.
  - exact Hout.
Defined.
