(* ===== verification/EntryDecode.v ===== *)
(** * Journal entries: what the decoder can return

    Decoding never yields an entry outside the limits: whatever [EntryData::from_canonical_bytes]
    accepts is well-formed.  The readers are shown to preserve the size bound of the input and to
    return values of the stated shape; the decoder's laxity is exhibited on two inputs. *)

From S2P Require Import Prelude Machine Floats Cbor CborProofs Limits Items Value ValueProofs Path Entry EntryProofs.

Open Scope Z_scope.

(** A reader over at most [MAX_ENTRY_BYTES] unread bytes. *)
Definition small (r : ItemReader) : Prop := Z.of_nat (length (unread r)) <= MAX_ENTRY_BYTES.

(** [f] returns only values satisfying [P] and never un-reads. *)
Definition yields {A} (f : reader A) (P : A -> Prop) : Prop :=
  forall r x r', small r -> f r = Ok (x, r') -> P x /\ small r'.

Definition item_wf (i : Item) : Prop :=
  match i with
  | IUnsigned v | INegative v => is_u64 v
  | IBytes b => sized b = true
  | IText s => from_utf8 s = true /\ sized s = true
  | IArray n | IMap n => is_u64 (Z.of_nat n)
  | IFloat f => canonical_float f
  | _ => True
  end.

Lemma small_sized b : Z.of_nat (length b) <= MAX_ENTRY_BYTES -> sized b = true.
Proof. intros H. apply u64b_spec. unfold MAX_ENTRY_BYTES in H. widths. lia. Qed.

(** The item reader's floats are the decoder's. *)
Lemma read_float_decode rest :
  decode_f16 rest = (let? '(f, r) := read_f16 rest in Ok (CFloat f, r))
  /\ decode_f32 rest = (let? '(f, r) := read_f32 rest in Ok (CFloat f, r))
  /\ decode_f64 rest = (let? '(f, r) := read_f64 rest in Ok (CFloat f, r)).
Proof.
  unfold decode_f16, decode_f32, decode_f64, read_f16, read_f32, read_f64.
  split_and!; destruct (take_be _ rest) as [[v r]|]; try done; repeat case_split; done.
Qed.

Lemma take_be_shorter n v r r' : take_be n r = Ok (v, r') -> (length r' <= length r)%nat.
Proof. intros [-> _]%take_be_inv. rewrite length_app. lia. Qed.

Lemma float_item_yields (read : list byte -> result CborError (Z * list byte)) rest i rest' :
  (read = read_f16 \/ read = read_f32 \/ read = read_f64) -> float_item (read rest) = Ok (i, rest') ->
  item_wf i /\ (length rest' <= length rest)%nat.
Proof.
  intros Hr H. unfold float_item in H. destruct (read rest) as [[f r]|] eqn:E; [|done]. simplify_eq.
  destruct (read_float_decode rest) as (E16 & E32 & E64).
  split.
  - cbn. destruct Hr as [->|[->| ->]]; rewrite E in *;
      [apply decode_f16_inv in E16 as (f' & [= ->] & Hf & _)
      |apply decode_f32_inv in E32 as (f' & [= ->] & Hf & _)
      |apply decode_f64_inv in E64 as (f' & [= ->] & Hf & _)]; done.
  - destruct Hr as [->|[->| ->]]; [unfold read_f16 in E|unfold read_f32 in E|unfold read_f64 in E];
      run_match E; eapply take_be_shorter; eassumption.
Qed.

Lemma checked_len_inv rest v n : is_u64 v -> checked_len rest v = Ok n -> (n <= length rest)%nat.
Proof. unfold checked_len. intros Hv H. widths. case_split_in H; [done|]. bool_hyps. simplify_eq. lia. Qed.

Lemma read_simple_yields b rest i rest' : Z.shiftr (b2z b) 5 = 7 ->
  read_item_inner (b :: rest) = Ok (i, rest') -> item_wf i /\ (length rest' <= length (b :: rest))%nat.
Proof.
  intros E7 H. cbn [read_item_inner] in H. rewrite E7 in H. cbn [Z.eqb Pos.eqb] in H. cbv zeta in H.
  cbn [length].
  repeat (case_split_in H;
    [first [apply float_item_yields in H as [Hi Hl]; [split; [exact Hi | lia] | tauto]
           | simplify_eq; cbn; split; [done | lia]]|]).
  repeat (case_split_in H; try done). simplify_eq.
  pose proof (b2z_range b0). cbn. split; [widths; lia | lia].
Qed.

(** ** The interface of a reader *)

Class Yields {A} (f : reader A) (P : A -> Prop) : Prop := yield : yields f P.

#[global] Instance read_item_yields : Yields read_item item_wf.
Proof.
  intros [rest d] i r' Hs H. unfold read_item in H. cbn [unread rdepth] in H.
  case_split_in H; [done|]. destruct (read_item_inner rest) as [[i' rest']|] eqn:E; [|done]. simplify_eq.
  unfold small in *. cbn [unread] in *.
  enough (item_wf i /\ (length rest' <= length rest)%nat) by (split; [tauto | lia]).
  destruct rest as [|b rest]; [done|].
  destruct (Z.eqb_spec (Z.shiftr (b2z b) 5) 7) as [E7|E7]; [apply read_simple_yields; done|].
  cbn [read_item_inner] in E. apply Z.eqb_neq in E7. rewrite E7 in E.
  destruct (decode_header (b :: rest)) as [[[k v] r]|] eqn:Eh; [|done].
  apply decode_header_inv in Eh as (Hin & Hk & Hv).
  assert (Hr : (length r <= length (b :: rest))%nat) by (rewrite Hin, length_app; lia).
  run_match E; try (split; [exact Hv | done]);
    match goal with H : checked_len _ _ = Ok _ |- _ => apply checked_len_inv in H; [|exact Hv] end;
    (split; [|rewrite ?length_drop; lia]); bool_hyps; cbn [item_wf]; try split; try done;
    try (apply small_sized; rewrite length_take; lia); unfold MAX_ENTRY_BYTES in *; widths; lia.
Qed.

(** Run a composed reader that succeeded: every component contributes what it yields. *)
Ltac saturate :=
  repeat match goal with
  | Hs : small ?r, H : ?f ?r = Ok (?x, ?r') |- _ =>
      let Y := constr:(ltac:(typeclasses eauto) : Yields f _) in
      destruct (Y r x r' Hs H) as [? ?]; clear H
  end.

#[global] Instance read_unsigned_yields : Yields read_unsigned is_u64.
Proof. intros r x r' Hs H. unfold read_unsigned in H. run_match H. saturate. done. Qed.
#[global] Instance read_bytes_yields : Yields read_bytes (fun b => sized b = true).
Proof. intros r x r' Hs H. unfold read_bytes in H. run_match H. saturate. done. Qed.
#[global] Instance read_bool_yields : Yields read_bool (fun _ => True).
Proof. intros r x r' Hs H. unfold read_bool in H. run_match H. saturate. done. Qed.
#[global] Instance read_array_yields : Yields read_array (fun n => is_u64 (Z.of_nat n)).
Proof. intros r x r' Hs H. unfold read_array in H. run_match H. saturate. done. Qed.

Lemma expect_array_small n msg r r' : small r -> expect_array n msg r = Ok r' -> small r'.
Proof. intros Hs H. unfold expect_array in H. run_match H. saturate. done. Qed.

Ltac run_yield H :=
  run_match H;
  repeat (saturate; match goal with
  | Hs : small ?r, H : expect_array _ _ ?r = Ok ?r' |- _ => apply expect_array_small in H; [|exact Hs]
  end); saturate.

#[global] Instance read_seq_yields {A} (f : reader A) P n : Yields f P ->
  Yields (read_seq f n) (fun l => Forall P l /\ length l = n).
Proof.
  intros Hf. induction n as [|n IH]; intros r x r' Hs H; cbn [read_seq] in H; run_match H; [done|].
  saturate. destruct_and?. split; [|done]. split; [constructor; done | cbn; congruence].
Qed.

#[global] Instance read_u32_yields msg : Yields (read_u32 msg) (fun v => u32b v = true).
Proof.
  intros r x r' Hs H. unfold read_u32 in H. run_match H. saturate. split; [|done].
  unfold ok_or in *. case_split_in Heqr1; [|done]. simplify_eq.
  apply u32_try_from_Some in Heqo as [-> ?]; [apply u32b_spec; done | widths; lia].
Qed.

#[global] Instance decode_actor_yields : Yields decode_actor (fun v => u32b v = true).
Proof. apply read_u32_yields. Qed.
#[global] Instance decode_stream_yields : Yields decode_stream (fun v => u32b v = true).
Proof. apply read_u32_yields. Qed.

#[global] Instance decode_message_id_yields : Yields decode_message_id (fun m => message_id_wf m = true).
Proof.
  intros r x r' Hs H. unfold decode_message_id in H. run_yield H. split; [|done].
  unfold message_id_wf. cbn [sender sender_sequence]. apply andb_true_iff. rewrite u64b_spec. done.
Qed.

#[global] Instance decode_hash_yields : Yields decode_hash (fun h => hash_wf h = true).
Proof.
  intros r x r' Hs H. unfold decode_hash in H. run_yield H.
  apply from_framed_bytes_inv in Heqr1 as [_ Hh]. done.
Qed.

#[global] Instance decode_bytes_16_yields : Yields decode_bytes_16 (fun b => id16 b = true).
Proof. intros r x r' Hs H. unfold decode_bytes_16 in H. run_yield H. done. Qed.

#[global] Instance decode_path_ref_yields : Yields decode_path_ref (fun p => path_ref_wf p = true).
Proof.
  intros r x r' Hs H. unfold decode_path_ref in H. run_yield H. split; [|done].
  unfold path_ref_wf. cbn [path_hash canonical_path]. bool_hyps. destruct (canonicalize _); [|done].
  rewrite !andb_true_iff, Nat.eqb_eq, Z.leb_le. done.
Qed.

#[global] Instance decode_xor_yields : Yields decode_xor (fun x => nonempty x = true /\ sized x = true).
Proof. intros r x r' Hs H. unfold decode_xor in H. run_yield H. done. Qed.

Ltac finish_wf :=
  split; [|done]; destruct_and?; bool_hyps;
  cbn [crash_operation_wf fault_wf payload_wf]; rewrite ?andb_true_iff, ?u64b_spec, ?Z.leb_le; split_and?;
  try done; try (widths; lia).

#[global] Instance decode_crash_operation_yields : Yields decode_crash_operation (fun c => crash_operation_wf c = true).
Proof.
  intros r x r' Hs H. unfold decode_crash_operation in H. run_yield H; finish_wf.
  apply forallb_forall. match goal with H : Forall _ _ |- _ => rewrite Forall_forall in H; exact H end.
Qed.

#[global] Instance decode_fault_payload_yields : Yields decode_fault_payload (fun f => fault_wf f = true).
Proof. intros r x r' Hs H. unfold decode_fault_payload in H. run_yield H; finish_wf. Qed.

#[global] Instance decode_observed_yields :
  Yields decode_observed (fun o => match o with Missing => true | Present c => sized c end = true).
Proof. intros r x r' Hs H. unfold decode_observed in H. run_yield H; done. Qed.

#[global] Instance decode_fs_write_yields : Yields decode_fs_write (fun w => payload_wf (PFsWrite w) = true).
Proof. intros r x r' Hs H. unfold decode_fs_write in H. run_yield H; finish_wf. Qed.

(** ** Values *)

Definition value_yields (f : rstep CanonicalValue) : Prop :=
  forall r b x r' b', small r -> f r b = Ok (x, r', b') -> value_wf x = true /\ small r'.

Lemma read_value_items_yields f n : value_yields f -> forall r b x r' b', small r ->
  read_value_items f n r b = Ok (x, r', b') -> Forall (fun v => value_wf v = true) x /\ length x = n /\ small r'.
Proof.
  intros Hf. induction n as [|n IH]; intros r b x r' b' Hs H; cbn in H; run_match H; [done|].
  apply Hf in Heqr0 as [? ?]; [|done]. apply IH in Heqr1 as (? & ? & ?); [|done].
  split_and!; [constructor; done | cbn; congruence | done].
Qed.

Lemma read_value_entries_yields f n prev : value_yields f -> forall r b x r' b', small r ->
  read_value_entries f n prev r b = Ok (x, r', b') ->
  Forall (fun e => value_wf e.1 = true /\ value_wf e.2 = true) x /\ length x = n /\ small r'.
Proof.
  intros Hf. revert prev. induction n as [|n IH]; intros prev r b x r' b' Hs H; cbn in H; run_match H; [done|].
  apply Hf in Heqr0 as [? ?]; [|done].
  repeat match goal with
  | H : f _ _ = Ok _ |- _ => apply Hf in H as [? ?]; [|done]
  | H : _ = Ok (_, _, _) |- _ => apply IH in H as (? & ? & ?); [|done]
  end.
  split_and!; [constructor; done | cbn; congruence | done].
Qed.

Lemma read_value_yields fuel : value_yields (read_value fuel).
Proof.
  induction fuel as [|fuel IH]; intros r b x r' b' Hs H; [done|]. cbn [read_value] in H.
  destruct (visit b) as [b1|]; [|done].
  destruct (read_item r) as [[i r1]|] eqn:E; [|done]. cbn [map_err] in H.
  apply read_item_yields in E as [Hi Hs1]; [|done].
  destruct i; cbn [item_wf] in Hi; run_match H; unfold value_wf; cbn [to_cbor cbor_wf].
  - split; [apply u64b_spec; done | done].
  - split; [apply u64b_spec; done | done].
  - done.
  - rewrite andb_true_iff. done.
  - apply read_value_items_yields in Heqr1 as (Hf & Hl & ?); [|done|done]. split; [|done].
    rewrite length_map, Hl, andb_true_iff, u64b_spec. split; [done|]. apply forallb_forall.
    intros v (w & <- & Hw)%in_map_iff. rewrite Forall_forall in Hf. apply Hf. done.
  - apply read_value_entries_yields in Heqr1 as (Hf & Hl & ?); [|done|done]. split; [|done].
    rewrite length_map, Hl, andb_true_iff, u64b_spec. split; [done|]. apply forallb_forall.
    intros v (w & <- & Hw)%in_map_iff. rewrite Forall_forall in Hf. cbn [fst snd]. apply andb_true_iff.
    apply (Hf w Hw).
  - done.
  - done.
  - destruct Hi as [Hi _]. split; [apply u64b_spec; done | done].
Qed.

(** A value within its limits: at most 32 values in all, no string over its size, no refused float; the items
    counted are then within their limit too. *)
Definition value_bounded (v : CanonicalValue) : bool :=
  plain (to_cbor v) && (nodes (to_cbor v) <=? MAX_CANONICAL_VALUE_DEPTH)%Z
  && (weight (to_cbor v) <=? MAX_CANONICAL_VALUE_ITEMS)%Z.

(** Reading a value spends its cost. *)
Definition value_spends (f : rstep CanonicalValue) : Prop :=
  forall r b x r' b', within b -> f r b = Ok (x, r', b') ->
    plain (to_cbor x) = true /\ b' = spend b (nodes (to_cbor x)) (weight (to_cbor x)) /\ within b'.

Lemma read_value_items_spends f n : value_spends f -> forall r b x r' b', within b ->
  read_value_items f n r b = Ok (x, r', b') ->
  forallb plain (map to_cbor x) = true /\ length x = n
  /\ b' = spend b (sum_over nodes (map to_cbor x)) (sum_over weight (map to_cbor x)) /\ within b'.
Proof.
  intros Hf. induction n as [|n IH]; intros r b x r' b' Hb H; cbn [read_value_items] in H; run_match H.
  - cbn. rewrite spend_0. done.
  - apply Hf in Heqr0 as (Hp & -> & Hb1); [|done]. apply IH in Heqr1 as (Hps & Hl & -> & Hb2); [|done].
    cbn [map forallb length]. rewrite !sum_over_cons, <- spend_spend, Hp. split_and!; [done | congruence | done | done].
Qed.

Lemma read_value_entries_spends f n : value_spends f -> forall prev r b x r' b', within b ->
  read_value_entries f n prev r b = Ok (x, r', b') ->
  let es := map (fun e => (to_cbor e.1, to_cbor e.2)) x in
  forallb (fun e => plain e.1 && plain e.2) es = true /\ length x = n
  /\ b' = spend b (sum_over (fun e => nodes e.1 + nodes e.2) es) (sum_over (fun e => weight e.1 + weight e.2) es) /\ within b'.
Proof.
  intros Hf. induction n as [|n IH]; intros prev r b x r' b' Hb H; cbn [read_value_entries] in H; run_match H.
  - cbn. rewrite spend_0. done.
  - repeat match goal with
    | H : f _ _ = Ok _, Hw : within _ |- _ => apply Hf in H as (? & -> & ?); [|exact Hw]
    end.
    match goal with H : _ = Ok (_, _, _), Hw : within (spend (spend _ _ _) _ _) |- _ => apply IH in H as (? & ? & -> & ?); [|exact Hw] end.
    cbn [map forallb length fst snd]. rewrite !sum_over_cons, !spend_spend in *. cbn [fst snd].
    split_and!; [rewrite !andb_true_iff; done | congruence | f_equal; lia | done].
Qed.

Lemma read_value_spends fuel : value_spends (read_value fuel).
Proof.
  induction fuel as [|fuel IH]; intros r b x r' b' Hb H; [done|]. cbn [read_value] in H.
  apply visit_bind in H as [Hv H]. apply result_bind in H as ([i r1] & _ & H).
  destruct i; try (simplify_eq; done).
  - apply string_bind in H as [Hs H]. simplify_eq. done.
  - apply string_bind in H as [Hs H]. simplify_eq. done.
  - apply collection_bind in H as [Hc H]; [|apply Hv]. apply result_bind in H as ([[items r2] b2] & H & E). simplify_eq.
    apply (read_value_items_spends _ _ IH) in H as (Hp & Hl & -> & Hw); [|done]. rewrite !spend_spend in *. cbn [to_cbor plain nodes weight].
    rewrite length_map, Hl. split_and!; [exact Hp | f_equal; lia | exact Hw].
  - apply collection_bind in H as [Hc H]; [|apply Hv]. apply result_bind in H as ([[entries r2] b2] & H & E). simplify_eq.
    apply (read_value_entries_spends _ _ IH) in H as (Hp & Hl & -> & Hw); [|done]. rewrite !spend_spend in *. cbn [to_cbor plain nodes weight].
    rewrite length_map, Hl. split_and!; [exact Hp | f_equal; lia | exact Hw].
  - case_split_in H; [done|]. simplify_eq. cbn [to_cbor plain]. rewrite Heqb0. done.
Qed.

Lemma read_value_bounded fuel r x r' b : read_value fuel r budget_new = Ok (x, r', b) -> value_bounded x = true.
Proof.
  intros H. apply read_value_spends in H as (Hp & -> & Hn & Hw); [|done]. unfold value_bounded, spend, budget_new in *. cbn [bdepth bitems] in *.
  rewrite Hp, !andb_true_iff, !Z.leb_le. split_and!; [done | lia | lia].
Qed.

Lemma read_canonical_value_eq r :
  read_canonical_value r = let? '(v, r, _) := read_value read_fuel r budget_new in Ok (v, r).
Proof. reflexivity. Qed.

Lemma read_canonical_value_inv r v r' : read_canonical_value r = Ok (v, r') ->
  exists b, read_value read_fuel r budget_new = Ok (v, r', b).
Proof.
  rewrite read_canonical_value_eq. generalize (read_value read_fuel r budget_new). intros m H.
  destruct m as [[[v0 r0] b]|]; [|done]. injection H as -> ->. eauto.
Qed.

Lemma read_payload_value_inv msg r v r' : read_payload_value msg r = Ok (v, r') ->
  read_canonical_value r = Ok (v, r').
Proof. unfold read_payload_value. generalize (read_canonical_value r). intros m. apply map_err_Ok. Qed.

#[global] Instance read_payload_value_yields msg : Yields (read_payload_value msg) (fun v => value_wf v = true /\ value_bounded v = true).
Proof.
  intros r x r' Hs H. apply read_payload_value_inv, read_canonical_value_inv in H as [b H].
  destruct (read_value_yields _ _ _ _ _ _ Hs H). apply read_value_bounded in H. done.
Qed.

(** ** Payloads and entries *)

(** The values a payload carries. *)
Definition payload_values (p : EntryPayload) : list CanonicalValue :=
  match p with
  | POutcome o => [outcome_value o]
  | PAssert a => [detail a]
  | PInputStep s => [input_value s]
  | PStepEnd s => [(step_end_parts s).2]
  | _ => []
  end.

#[global] Instance decode_payload_yields k :
  Yields (decode_payload k) (fun p => payload_wf p = true /\ forallb value_bounded (payload_values p) = true /\ payload_kind p = k).
Proof.
  intros r x r' Hs H. destruct k; cbn [decode_payload] in H; run_yield H; (split; [|done]); destruct_and?;
    (split; [|split; [cbn [payload_values forallb step_end_parts outcome_value detail input_value snd]; rewrite ?andb_true_r; done | done]]);
    cbn [payload_wf step_end_parts send_id send_from send_to original_content
         recv_id recv_from recv_to observed_content read_path read_offset requested_len observed
         rng_stream draw_index rng_content outcome_schema outcome_value predicate passed detail
         generator replay input_value cap_request cap_subject capability grant_request grant_id grant_epoch
         invoke_grant operation revoke_grant revoke_epoch begin_step step_name idempotency_key];
    rewrite ?andb_true_iff, ?u64b_spec; split_and?; try done.
Qed.

Lemma entry_decode_wf input e : entry_from_canonical_bytes input = Ok e ->
  Z.of_nat (length input) <= MAX_ENTRY_BYTES /\ entry_wf e = true
  /\ Z.of_nat (length (parents e)) <= MAX_PARENTS_PER_ENTRY /\ Z.of_nat (length (vector_clock e)) <= MAX_VECTOR_CLOCK_ACTORS
  /\ forallb value_bounded (payload_values (payload e)) = true.
Proof.
  unfold entry_from_canonical_bytes. intros H. case_split_in H; [done|].
  assert (Hs : small (item_reader_new input)) by (unfold small; cbn; bool_hyps; done).
  run_yield H. destruct_and?. bool_hyps. unfold entry_wf.
  cbn [format_version kind actor parents vector_clock sequence payload].
  split; [exact Hs|]. split; [|split_and!; [congruence | congruence | done]].
  rewrite !andb_true_iff, Z.eqb_eq, bool_decide_eq_true, u64b_spec, !forallb_forall.
  split_and!; try done.
  - match goal with H : Forall _ l |- _ => rewrite Forall_forall in H; exact H end.
  - intros v Hv. apply u64b_spec. match goal with H : Forall is_u64 _ |- _ => rewrite Forall_forall in H; auto end.
Qed.

(** ** Entries as they are read back *)

Lemma canon_encode c o : cbor_wf c = true -> (cbor_depth c <= MAX_DEPTH)%nat -> Z.of_nat (length o) <= u64_max ->
  try_encode c = Ok o -> try_encode (canon c) = Ok o.
Proof.
  intros Hw Hd Hl He. pose proof (decode_encode c Hw MAX_DEPTH o Hd He []) as H. rewrite app_nil_r in H.
  apply decode_value_inverts in H as (b & E & Hb & _); [|done]. rewrite app_nil_r in E. subst b. exact Hb.
Qed.

Lemma value_encode_canon v o : value_wf v = true -> Z.of_nat (length o) <= u64_max ->
  value_try_encode v = Ok o -> value_try_encode (vcanon v) = Ok o.
Proof.
  intros Hw Hl Hv. apply value_bytes_iff in Hv as (He & Hp & Hn). apply value_bytes_iff.
  unfold vcanon. rewrite to_of_cbor, plain_canon, nodes_canon by (rewrite plain_canon; done). split; [|done].
  apply canon_encode; [done | | done | done]. pose proof (depth_lt_nodes (to_cbor v)).
  unfold MAX_CANONICAL_VALUE_DEPTH, MAX_DEPTH in *. lia.
Qed.

Lemma with_value_canon prefix v msg b : value_wf v = true -> Z.of_nat (length b) <= u64_max ->
  with_value prefix v msg = Ok b -> with_value prefix (vcanon v) msg = Ok b.
Proof.
  intros Hw Hl H. unfold with_value in *. destruct (value_try_encode v) as [o|] eqn:E; [|done]. cbn in H. injection H as <-.
  rewrite length_app in Hl. rewrite (value_encode_canon v o Hw) by (lia || done). done.
Qed.

Lemma payload_encode_canon p b : payload_wf p = true -> Z.of_nat (length b) <= u64_max ->
  payload_encode p = Ok b -> payload_encode (canon_payload p) = Ok b.
Proof.
  intros Hw Hl. destruct p; try done; cbn [payload_encode canon_payload payload_wf] in *; intros H.
  4: destruct s; cbn [step_end_parts] in *.
  all: bool_hyps; cbn [payload_encode step_end_parts]; apply with_value_canon; done.
Qed.

(** Writing an entry and writing what is read back of it give the same bytes. *)
Lemma entry_encode_canon e out : entry_wf e = true -> entry_encode e = Ok out -> entry_encode (canon_entry e) = Ok out.
Proof.
  unfold entry_encode, canon_entry. cbn [format_version kind actor parents vector_clock sequence payload]. intros Hw H.
  case_split_in H; [done|]. destruct (payload_encode (payload e)) as [body|] eqn:E; [|done].
  rewrite (payload_encode_canon (payload e) body); [done | | | done].
  - unfold entry_wf in Hw. bool_hyps. done.
  - case_split_in H; [done|]. bool_hyps. rewrite !length_app in *. unfold MAX_ENTRY_BYTES, u64_max in *. lia.
Qed.

(** C4: decoded entries are well-formed and within the limits of the format.  Bytes that [EntryData::from_canonical_bytes]
    accepts are at most 17 MiB, and the entry has the supported version, a kind that matches its payload, integers within
    their widths, digests of 32 bytes, resolvable paths, non-empty XOR content, bit indices up to 7, at most 4096 parents
    and 65536 clock components, and the value of an outcome, assertion, input step or step end is within the depth, item
    and string limits of canonical values.  The limits on single writes and messages are the simulator's, not the format's. *)
Theorem decoded_entry_wf input e : entry_from_canonical_bytes input = Ok e ->
  Z.of_nat (length input) <= MAX_ENTRY_BYTES /\ entry_wf e = true
  /\ Z.of_nat (length (parents e)) <= MAX_PARENTS_PER_ENTRY /\ Z.of_nat (length (vector_clock e)) <= MAX_VECTOR_CLOCK_ACTORS
  /\ forallb value_bounded (payload_values (payload e)) = true.
Proof. apply entry_decode_wf. Qed.

Lemma decoded_entry_wf_witness :
  exists e, entry_from_canonical_bytes [x87; x03; x0f; x07; x80; x82; x00; x19; x01; x2c; x09; x81; x05] = Ok e
  /\ entry_wf e = true.
Proof.
  exists (mkEntryData 3 KEpoch 7 [] [0; 300] 9 (PEpoch 5)). split; [reflexivity|].
  refine (proj1 (proj2 (decoded_entry_wf [x87; x03; x0f; x07; x80; x82; x00; x19; x01; x2c; x09; x81; x05] _ _))). reflexivity.
Defined.

(** ** Two ways in *)

(** An [FsRead] entry observing one byte of the file [/a]; [count] and [seq] are the bytes of the
    observed block's array head and of the sequence number. *)
Definition fs_read_bytes (count : byte) (seq : list byte) : list byte :=
  [x87; x03; x0a; x07; x80; x80] ++ seq ++ [x84; x82; x58; x20] ++ repeat x00 32
  ++ [x42; x2f; x61; x00; x01; count; x01; x41; xff].

Definition fs_read_entry (seq : Z) : EntryData :=
  mkEntryData 3 KFsRead 7 [] [] seq
    (PFsRead (mkFsRead (mkPathRef (repeat x00 32) [x2f; x61]) 0 1 (Present [xff]))).

(** Entry bytes are not unique.  The same entry is decoded from its own canonical bytes, from
    bytes whose observed block declares one item where two follow, and from bytes that write the
    sequence number 32 as the two-byte simple value [f8 20]: [decode_payload] does not tie the
    declared count to the variant, and [ItemReader] returns an extended simple value as an
    unsigned integer.  The value decoder refuses all but the first. *)
Theorem entry_bytes_not_unique :
  entry_encode (fs_read_entry 32) = Ok (fs_read_bytes x82 [x18; x20])
  /\ entry_from_canonical_bytes (fs_read_bytes x82 [x18; x20]) = Ok (fs_read_entry 32)
  /\ entry_from_canonical_bytes (fs_read_bytes x81 [x18; x20]) = Ok (fs_read_entry 32)
  /\ entry_from_canonical_bytes (fs_read_bytes x82 [xf8; x20]) = Ok (fs_read_entry 32)
  /\ from_canonical_bytes (fs_read_bytes x81 [x18; x20]) = Err TrailingBytes
  /\ from_canonical_bytes (fs_read_bytes x82 [xf8; x20]) = Err (UnsupportedType 248).
Proof. split_and!; reflexivity. Qed.
