(* ===== verification/Manifest.v ===== *)
(** * Run manifests

    Models [RunManifest] of [ledger-format/src/manifest.rs].  The [BTreeMap] of actor heads is a
    finite map; the encoder sorts its entries by encoded key, so the order in which they are
    listed does not matter. *)

From stdpp Require Import gmap.
From S2P Require Import Prelude Machine Cbor CborProofs ValueProofs Limits EntryProofs.

Open Scope Z_scope.

Definition MANIFEST_FORMAT_VERSION : Z := FORMAT_VERSION.

Record RunManifest : Type := mkManifest {
  m_format_version : Z;
  m_crash_version : Z;
  m_identity : option EntryHash;
  m_root_seed : EntryHash;
  m_policy_tag : list byte;
  m_journal_root : EntryHash;
  m_entry_count : Z;
  m_actor_heads : gmap Z EntryHash }.

Definition head_entry (e : Z * EntryHash) : CborValue * CborValue :=
  (CUnsigned e.1, CBytes (to_framed_bytes e.2)).

(** [RunManifest::to_canonical_bytes]. *)
Definition manifest_to_canonical_bytes (m : RunManifest) : result CborError (list byte) :=
  let heads := map head_entry (map_to_list (m_actor_heads m)) in
  let? map_bytes := try_encode (CMap heads) in
  Ok (array 8 ++ unsigned (m_format_version m) ++ unsigned (m_crash_version m)
      ++ match m_identity m with Some digest => chash digest | None => null end
      ++ chash (m_root_seed m) ++ text (m_policy_tag m) ++ chash (m_journal_root m)
      ++ unsigned (m_entry_count m) ++ map_bytes).

Definition manifest_hash (v : CborValue) (bad_hash not_bytes : string) : result CborError EntryHash :=
  match v with
  | CBytes b => map_err (fun _ => MalformedManifest bad_hash) (from_framed_bytes b)
  | _ => Err (MalformedManifest not_bytes)
  end.

Definition manifest_version (v : CborValue) (current : Z) (msg : string) : result CborError Z :=
  match v with
  | CUnsigned v =>
      if (v <=? u32_max)%Z then
        if negb (v =? current)%Z then Err (UnsupportedVersion v) else Ok v
      else Err (MalformedManifest msg)
  | _ => Err (MalformedManifest msg)
  end.

(** The loop over the actor heads. *)
Fixpoint manifest_heads (entries : list (CborValue * CborValue)) (m : gmap Z EntryHash) :
    result CborError (gmap Z EntryHash) :=
  match entries with
  | [] => Ok m
  | (key, val) :: entries =>
      let? actor := match key with
                    | CUnsigned a => if (a <=? u32_max)%Z then Ok a
                                     else Err (MalformedManifest "actor key must be an unsigned integer")
                    | _ => Err (MalformedManifest "actor key must be an unsigned integer")
                    end in
      let? hash := manifest_hash val "actor hash must be a 34-byte framed hash"
                     "actor hash must be a byte string" in
      manifest_heads entries (<[actor := hash]> m)
  end.

(** [RunManifest::from_canonical_bytes]. *)
Definition manifest_from_canonical_bytes (input : list byte) : result CborError RunManifest :=
  let? value := from_canonical_bytes input in
  match value with
  | CArray [i0; i1; i2; i3; i4; i5; i6; i7] =>
      let? version := manifest_version i0 MANIFEST_FORMAT_VERSION "item 0 must be the format version" in
      let? crash := manifest_version i1 CRASH_SEMANTICS_VERSION "item 1 must be the crash-semantics version" in
      let? identity :=
        match i2 with
        | CNull => Ok None
        | CBytes b =>
            let? h := map_err (fun _ => MalformedManifest "execution_identity digest must be a 34-byte framed hash")
                        (from_framed_bytes b) in Ok (Some h)
        | _ => Err (MalformedManifest "execution_identity must be null or a 34-byte framed hash")
        end in
      let? root_seed := manifest_hash i3 "root_seed must be a 34-byte framed hash" "root_seed must be a byte string" in
      let? policy :=
        match i4 with CText s => Ok s | _ => Err (MalformedManifest "policy must be a text string") end in
      let? root := manifest_hash i5 "journal_root must be a 34-byte framed hash" "journal_root must be a byte string" in
      let? count :=
        match i6 with
        | CUnsigned v => Ok v
        | _ => Err (MalformedManifest "entry_count must be an unsigned integer")
        end in
      let? heads :=
        match i7 with
        | CMap entries => manifest_heads entries ∅
        | _ => Err (MalformedManifest "actor_heads must be a map")
        end in
      Ok (mkManifest version crash identity root_seed policy root count heads)
  | CArray _ => Err (MalformedManifest "array must hold exactly 8 items")
  | _ => Err (MalformedManifest "top-level item must be an array")
  end.

(** ** The manifest as a CBOR value *)

Definition manifest_items (m : RunManifest) : list CborValue :=
  [CUnsigned (m_format_version m); CUnsigned (m_crash_version m);
   match m_identity m with Some h => CBytes (to_framed_bytes h) | None => CNull end;
   CBytes (to_framed_bytes (m_root_seed m)); CText (m_policy_tag m);
   CBytes (to_framed_bytes (m_journal_root m)); CUnsigned (m_entry_count m);
   CMap (map head_entry (map_to_list (m_actor_heads m)))].

Lemma manifest_bytes_cbor m : manifest_to_canonical_bytes m = try_encode (CArray (manifest_items m)).
Proof.
  unfold manifest_to_canonical_bytes, manifest_items. cbn [try_encode traverse].
  destruct (m_identity m); cbn [try_encode];
    (destruct (traverse _ (map head_entry _)) as [enc|]; [|done]); case_split; try done;
    cbn [length concat]; rewrite app_nil_r; done.
Qed.

Definition manifest_wf (m : RunManifest) : bool :=
  (m_format_version m =? MANIFEST_FORMAT_VERSION)%Z && (m_crash_version m =? CRASH_SEMANTICS_VERSION)%Z
  && match m_identity m with Some h => hash_wf h | None => true end && hash_wf (m_root_seed m)
  && from_utf8 (m_policy_tag m) && sized (m_policy_tag m) && hash_wf (m_journal_root m)
  && u64b (m_entry_count m)
  && forallb (fun e => u32b e.1 && hash_wf e.2) (map_to_list (m_actor_heads m)).

Lemma manifest_heads_enc l m : Forall (fun e => u32b e.1 = true /\ hash_wf e.2 = true) l ->
  manifest_heads (map head_entry l) m = Ok (foldl (fun m e => <[e.1 := e.2]> m) m l).
Proof.
  intros H. revert m; induction H as [|[a h] l [Ha Hh] _ IH]; intros m; [done|].
  cbn [map head_entry fst snd manifest_heads foldl] in *. unfold u32b in Ha. bool_hyps.
  rewrite (proj2 (Z.leb_le _ _)) by done. cbn [manifest_hash]. rewrite from_to_framed_bytes by done. apply IH.
Qed.

Lemma foldl_insert_list_to_map l (m : gmap Z EntryHash) : NoDup l.*1 ->
  foldl (fun m e => <[e.1 := e.2]> m) m l = list_to_map l ∪ m.
Proof.
  revert m; induction l as [|[k v] l IH]; intros m Hl; cbn [foldl fst snd].
  - rewrite list_to_map_nil. symmetry. apply map_empty_union.
  - cbn [fmap list_fmap fst] in Hl. inversion_clear Hl as [|? ? Hk Hl1].
    rewrite IH, list_to_map_cons by done.
    rewrite <- insert_union_l, insert_union_r; [done|]. apply not_elem_of_list_to_map_1. done.
Qed.

(** The heads as decoded: a permutation of the heads as listed. *)
Lemma canon_heads l : exists l', l' ≡ₚ l /\ canon (CMap (map head_entry l)) = CMap (map head_entry l').
Proof.
  cbn [canon]. pose proof (canon_entry_perm (map head_entry l)) as H.
  rewrite (map_map head_entry (fun e => (canon e.1, canon e.2))) in H.
  apply (Permutation_map_inv head_entry) in H as (l' & Hl & Hp).
  exists l'. split; [symmetry; exact Hp|]. rewrite Hl. done.
Qed.

Lemma framed_sized h : hash_wf h = true -> u64b (Z.of_nat (length (to_framed_bytes h))) = true.
Proof.
  unfold hash_wf. intros H. bool_hyps. apply u64b_spec. cbn [to_framed_bytes length]. rewrite H. widths. lia.
Qed.

Lemma head_entries_wf l : forallb (fun e => u32b e.1 && hash_wf e.2) l = true ->
  forallb (fun e => cbor_wf e.1 && cbor_wf e.2) (map head_entry l) = true.
Proof.
  induction l as [|[a h] l IH]; [done|]. cbn [map forallb head_entry fst snd cbor_wf]. intros H. bool_hyps.
  rewrite framed_sized, IH by done. apply u32b_spec, is_u32_u64, u64b_spec in H. rewrite H. done.
Qed.

Lemma manifest_items_wf m : manifest_wf m = true ->
  is_u64 (Z.of_nat (length (map_to_list (m_actor_heads m)))) ->
  cbor_wf (CArray (manifest_items m)) = true.
Proof.
  unfold manifest_wf. intros H Hl. bool_hyps. destruct m as [v c i s p r n h].
  unfold manifest_items, sized in *.
  cbn [m_format_version m_crash_version m_identity m_root_seed m_policy_tag m_journal_root m_entry_count m_actor_heads] in *.
  subst v c. cbn [cbor_wf forallb length]. rewrite length_map, !framed_sized, head_entries_wf by done.
  apply u64b_spec in Hl. rewrite Hl.
  repeat match goal with H : _ = true |- _ => rewrite H end.
  destruct i; cbn [cbor_wf]; [rewrite framed_sized by done|]; done.
Qed.

Lemma manifest_depth m : (cbor_depth (CArray (manifest_items m)) <= 2)%nat.
Proof.
  assert (Hd : forall l, (max_over (fun e => S (cbor_depth e.1 `max` cbor_depth e.2)) (map head_entry l) <= 1)%nat).
  { intros l. unfold max_over. induction l as [|e l IH]; cbn [map foldr head_entry fst snd cbor_depth] in *; lia. }
  specialize (Hd (map_to_list (m_actor_heads m))). unfold manifest_items.
  cbn [cbor_depth max_over foldr] in *. destruct (m_identity m); cbn [cbor_depth]; lia.
Qed.

(** ** Theorems *)

(** Manifest round trip.  A well-formed manifest that [RunManifest::to_canonical_bytes] accepts
    is read back by [RunManifest::from_canonical_bytes] unchanged, actor heads included. *)
Theorem manifest_round_trip m b : manifest_wf m = true ->
  is_u64 (Z.of_nat (length (map_to_list (m_actor_heads m)))) ->
  manifest_to_canonical_bytes m = Ok b -> manifest_from_canonical_bytes b = Ok m.
Proof.
  intros Hw Hl He. rewrite manifest_bytes_cbor in He. pose proof (manifest_items_wf m Hw Hl) as Hcw.
  assert (Hd : (cbor_depth (CArray (manifest_items m)) <= MAX_DEPTH)%nat)
    by (pose proof (manifest_depth m); unfold MAX_DEPTH; lia).
  pose proof (decode_encode _ Hcw MAX_DEPTH b Hd He []) as H0. rewrite app_nil_r in H0.
  unfold manifest_from_canonical_bytes, from_canonical_bytes. rewrite H0. clear H0.
  destruct (canon_heads (map_to_list (m_actor_heads m))) as (l' & Hp & Hc).
  unfold manifest_items. remember (CMap (map head_entry (map_to_list (m_actor_heads m)))) as heads.
  cbn [canon map]. rewrite Hc. clear Heqheads Hc heads Hcw Hd He. unfold manifest_wf in Hw. bool_hyps. unfold manifest_version.
  assert (Hheads : manifest_heads (map head_entry l') ∅ = Ok (m_actor_heads m)).
  { rewrite manifest_heads_enc.
    - rewrite foldl_insert_list_to_map by (rewrite Hp; apply NoDup_fst_map_to_list).
      rewrite (list_to_map_proper l' (map_to_list (m_actor_heads m)));
        [|rewrite Hp; apply NoDup_fst_map_to_list | exact Hp].
      rewrite list_to_map_to_list, map_union_empty. done.
    - rewrite Hp. apply Forall_forall. rewrite forallb_forall in *. intros e Hin.
      match goal with H : forall x, In x _ -> _ |- _ => specialize (H e Hin) end. bool_hyps. done. }
  destruct m as [v c i s p r n h].
  cbn [m_format_version m_crash_version m_identity m_root_seed m_policy_tag m_journal_root m_entry_count m_actor_heads] in *.
  subst v c. cbn [canon map manifest_hash]. rewrite !from_to_framed_bytes by done. cbn [map_err].
  destruct i as [ih|]; cbn [canon]; [rewrite from_to_framed_bytes by done; cbn [map_err]|]; rewrite Hheads; done.
Qed.

Definition sample_manifest : RunManifest :=
  mkManifest 3 1 (Some (repeat xab 32)) (repeat x01 32) [x72; x61] (repeat x02 32) 7
    (<[300 := repeat x05 32]> (<[2 := repeat x06 32]> ∅)).

Lemma manifest_round_trip_witness :
  exists b, manifest_to_canonical_bytes sample_manifest = Ok b
    /\ manifest_from_canonical_bytes b = Ok sample_manifest.
Proof.
  eexists. split; [reflexivity|].
  apply manifest_round_trip; [reflexivity | vm_compute; split; discriminate | reflexivity].
Defined.
