(* ===== verification/OrdMap.v ===== *)
(** * Ordered maps

    The ordered maps of the code ([BTreeMap], [RedBlackTreeMapSync]) keyed by integers, as
    association lists with strictly ascending keys: iteration order is list order. *)

From Stdlib Require Import Sorting.Sorted.
From S2P Require Import Prelude Machine.

Open Scope Z_scope.

Section OrdMap.
Context {V : Type}.
Implicit Types (m : list (Z * V)) (k : Z) (v : V).

Fixpoint oget k m : option V :=
  match m with
  | [] => None
  | (k', v) :: m => if (k =? k')%Z then Some v else oget k m
  end.

(** Insert or replace. *)
Fixpoint oinsert k v m : list (Z * V) :=
  match m with
  | [] => [(k, v)]
  | (k', v') :: m' =>
      if (k <? k')%Z then (k, v) :: m
      else if (k =? k')%Z then (k, v) :: m'
      else (k', v') :: oinsert k v m'
  end.

Definition ocollect m : list (Z * V) := foldl (fun acc e => oinsert e.1 e.2 acc) [] m.

Definition above k m : Prop := Forall (fun e => k < e.1) m.
Definition ordered m : Prop := StronglySorted (fun a b => a.1 < b.1) m.

Lemma ordered_cons k v m : ordered ((k, v) :: m) <-> ordered m /\ above k m.
Proof.
  split.
  - intros H. inversion_clear H. done.
  - intros [H1 H2]. constructor; done.
Qed.

Lemma oget_above k k' m : above k' m -> k <= k' -> oget k m = None.
Proof.
  induction 1 as [|[k1 v1] m H1 _ IH]; intros Hk; [done|]. cbn in *.
  destruct (Z.eqb_spec k k1); [lia|]. apply IH. lia.
Qed.

Lemma oget_oinsert k k' v m : ordered m -> oget k (oinsert k' v m) = if (k =? k')%Z then Some v else oget k m.
Proof.
  induction m as [|[k1 v1] m IH]; intros Hm; cbn; [done|].
  apply ordered_cons in Hm as [Hm Ha].
  destruct (Z.ltb_spec k' k1); cbn; [done|].
  destruct (Z.eqb_spec k' k1) as [->|]; cbn.
  - destruct (Z.eqb_spec k k1); done.
  - rewrite IH by done. destruct (Z.eqb_spec k k1), (Z.eqb_spec k k'); try done. lia.
Qed.

Lemma above_oinsert k k' v m : above k m -> k < k' -> above k (oinsert k' v m).
Proof.
  induction 1 as [|[k1 v1] m H1 Hm IH]; intros Hk; cbn; [repeat constructor; done|].
  destruct (Z.ltb_spec k' k1); [repeat constructor; done|].
  destruct (Z.eqb_spec k' k1); constructor; try done. apply IH. done.
Qed.

Lemma ordered_oinsert k v m : ordered m -> ordered (oinsert k v m).
Proof.
  induction m as [|[k1 v1] m IH]; intros Hm; cbn; [repeat constructor|].
  apply ordered_cons in Hm as [Hm Ha].
  destruct (Z.ltb_spec k k1); [|destruct (Z.eqb_spec k k1) as [->|]]; rewrite ordered_cons.
  - split; [apply ordered_cons; done|]. constructor; [done|]. eapply Forall_impl; [|exact Ha]. cbn. lia.
  - done.
  - split; [apply IH; done|]. apply above_oinsert; [done|lia].
Qed.

(** Two ordered maps with the same content are the same list. *)
Lemma ordered_ext m1 m2 : ordered m1 -> ordered m2 -> (forall k, oget k m1 = oget k m2) -> m1 = m2.
Proof.
  revert m2; induction m1 as [|[k1 v1] m1 IH]; intros [|[k2 v2] m2] H1 H2 He.
  - done.
  - specialize (He k2). cbn in He. rewrite Z.eqb_refl in He. done.
  - specialize (He k1). cbn in He. rewrite Z.eqb_refl in He. done.
  - apply ordered_cons in H1 as [H1 A1], H2 as [H2 A2].
    assert (k1 = k2) as ->.
    { pose proof (He k1) as E1. pose proof (He k2) as E2. cbn in E1, E2. rewrite Z.eqb_refl in E1, E2.
      destruct (Z.eqb_spec k1 k2); [done|]. destruct (Z.lt_ge_cases k1 k2).
      - rewrite (oget_above k1 k2) in E1 by (done || lia). done.
      - destruct (Z.eqb_spec k2 k1); [lia|]. rewrite (oget_above k2 k1) in E2 by (done || lia). done. }
    pose proof (He k2) as E. cbn in E. rewrite Z.eqb_refl in E. simplify_eq. f_equal. apply IH; try done.
    intros k. specialize (He k). cbn in He. destruct (Z.eqb_spec k k2) as [E|]; [subst k|done].
    rewrite !(oget_above k2 k2) by (done || lia). done.
Qed.

Lemma oget_In k v m : ordered m -> oget k m = Some v <-> In (k, v) m.
Proof.
  induction m as [|[k1 v1] m IH]; intros Hm; cbn; [naive_solver|].
  apply ordered_cons in Hm as [Hm Ha]. destruct (Z.eqb_spec k k1) as [->|Hne].
  - split; [intros [= ->]; tauto|]. intros [[= ->]|Hin]; [done|].
    unfold above in Ha. rewrite Forall_forall in Ha. apply Ha in Hin. cbn in Hin. lia.
  - rewrite IH by done. naive_solver.
Qed.

(** Inserting past the last key appends. *)
Lemma oinsert_last k v m : Forall (fun e => e.1 < k) m -> oinsert k v m = m ++ [(k, v)].
Proof.
  induction 1 as [|[k1 v1] m H1 _ IH]; [done|]. cbn in *.
  destruct (Z.ltb_spec k k1); [lia|]. destruct (Z.eqb_spec k k1); [lia|]. rewrite IH. done.
Qed.

Lemma ordered_app m1 m2 : ordered (m1 ++ m2) -> forall e1 e2, In e1 m1 -> In e2 m2 -> e1.1 < e2.1.
Proof.
  induction m1 as [|[k v] m1 IH]; intros H e1 e2 H1 H2; [done|]. cbn [app] in H.
  apply ordered_cons in H as [Ho Ha]. destruct H1 as [<-|H1]; [|eauto].
  unfold above in Ha. rewrite Forall_forall in Ha. apply Ha, in_or_app. tauto.
Qed.

(** Collecting an already ordered sequence gives it back. *)
Lemma ocollect_ordered m : ordered m -> ocollect m = m.
Proof.
  unfold ocollect. enough (H : forall acc, ordered (acc ++ m) -> foldl (fun acc e => oinsert e.1 e.2 acc) acc m = acc ++ m)
    by exact (H []).
  induction m as [|[k v] m IH]; intros acc Ho; cbn; [rewrite app_nil_r; done|].
  assert (Hl : Forall (fun e => e.1 < k) acc).
  { apply Forall_forall. intros e He. apply (ordered_app _ _ Ho e (k, v) He). left. done. }
  rewrite oinsert_last by done. rewrite IH; rewrite <- app_assoc; done.
Qed.
End OrdMap.

#[export] Hint Resolve ordered_oinsert above_oinsert : mach.
