(* ===== verification/Order.v ===== *)
(** * Comparisons and sorting

    - Rust's [Ordering::then] and the order a comparison function gives.
    - [slice::sort_by], a stable sort, as insertion sort; sorting by a total order forgets the order of the input. *)

From stdpp Require Import sorting.
From S2P Require Import Prelude.

(** [Ordering::then]. *)
Definition then_cmp (a b : comparison) : comparison := match a with Eq => b | _ => a end.

(** [Iterator::cmp] on sequences. *)
Fixpoint cmp_list {A} (cmp : A -> A -> comparison) (l k : list A) : comparison :=
  match l, k with
  | [], [] => Eq
  | [], _ :: _ => Lt
  | _ :: _, [] => Gt
  | x :: l, y :: k => then_cmp (cmp x y) (cmp_list cmp l k)
  end.

(** A comparison that is a total order: only equal values compare equal. *)
Class TotalOrder {A} (cmp : A -> A -> comparison) : Prop := {
  cmp_opp : forall x y, cmp y x = CompOpp (cmp x y);
  cmp_eq : forall x y, cmp x y = Eq -> x = y;
  cmp_trans : forall x y z, cmp x y = Lt -> cmp y z = Lt -> cmp x z = Lt }.

#[export] Instance Z_total : TotalOrder Z.compare.
Proof.
  split.
  - intros x y. apply Z.compare_antisym.
  - intros x y. apply Z.compare_eq_iff.
  - intros x y z. rewrite !Z.compare_lt_iff. lia.
Qed.

Definition cmp_pair {A B} (cmpA : A -> A -> comparison) (cmpB : B -> B -> comparison) (p q : A * B) : comparison :=
  then_cmp (cmpA p.1 q.1) (cmpB p.2 q.2).

#[export] Instance pair_total {A B} (cmpA : A -> A -> comparison) (cmpB : B -> B -> comparison)
  `{!TotalOrder cmpA} `{!TotalOrder cmpB} : TotalOrder (cmp_pair cmpA cmpB).
Proof.
  split; unfold cmp_pair, then_cmp.
  - intros [a b] [a' b']. cbn. rewrite (cmp_opp (cmp := cmpA) a a'), (cmp_opp (cmp := cmpB) b b'). destruct (cmpA a a'); done.
  - intros [a b] [a' b'] H. cbn in *. destruct (cmpA a a') eqn:E; try done. apply (cmp_eq (cmp := cmpA)) in E as ->.
    apply (cmp_eq (cmp := cmpB)) in H as ->. done.
  - intros [a b] [a' b'] [a'' b''] H1 H2. cbn in *.
    destruct (cmpA a a') eqn:E1; [apply (cmp_eq (cmp := cmpA)) in E1 as ->| |done].
    + destruct (cmpA a' a''); try done. eapply cmp_trans; eassumption.
    + destruct (cmpA a' a'') eqn:E2; [apply (cmp_eq (cmp := cmpA)) in E2 as <-; rewrite E1; done| |done].
      rewrite (cmp_trans (cmp := cmpA) a a' a'') by done. done.
Qed.

Section Sort.
Context {A : Type} (cmp : A -> A -> comparison).

Fixpoint insert_by (x : A) (l : list A) : list A :=
  match l with
  | [] => [x]
  | y :: l => match cmp x y with Gt => y :: insert_by x l | _ => x :: y :: l end
  end.

Definition sort_by (l : list A) : list A := foldr insert_by [] l.

Lemma insert_by_perm x l : insert_by x l ≡ₚ x :: l.
Proof. induction l as [|y l IH]; [done|]. cbn. destruct (cmp x y); [done..|]. rewrite IH. apply Permutation_swap. Qed.

Lemma sort_by_perm l : sort_by l ≡ₚ l.
Proof. induction l as [|x l IH]; [done|]. cbn. rewrite insert_by_perm. f_equiv. exact IH. Qed.

Lemma sort_by_nil l : sort_by l = [] <-> l = [].
Proof.
  split; [|intros ->; done]. intros H. pose proof (sort_by_perm l) as Hp. rewrite H in Hp. apply Permutation_nil_l in Hp. done.
Qed.

Lemma sort_by_In l x : In x (sort_by l) <-> In x l.
Proof. pose proof (sort_by_perm l) as Hp. split; apply Permutation_in; [exact Hp | symmetry; exact Hp]. Qed.

Definition cmp_le (x y : A) : Prop := cmp x y <> Gt.

#[local] Instance cmp_le_antisymm `{!TotalOrder cmp} : AntiSymm (=) cmp_le.
Proof.
  intros x y Hxy Hyx. unfold cmp_le in *. rewrite (cmp_opp (cmp := cmp) x y) in Hyx.
  destruct (cmp x y) eqn:E; [apply (cmp_eq (cmp := cmp)), E | done..].
Qed.

Lemma cmp_le_trans `{!TotalOrder cmp} x y z : cmp_le x y -> cmp_le y z -> cmp_le x z.
Proof.
  unfold cmp_le. intros H1 H2. destruct (cmp x y) eqn:E1; [apply (cmp_eq (cmp := cmp)) in E1 as ->; done| |done].
  destruct (cmp y z) eqn:E2; [apply (cmp_eq (cmp := cmp)) in E2 as <-; congruence| |done].
  rewrite (cmp_trans (cmp := cmp) x y z E1 E2). done.
Qed.

Lemma insert_by_sorted `{!TotalOrder cmp} x l : StronglySorted cmp_le l -> StronglySorted cmp_le (insert_by x l).
Proof.
  induction 1 as [|y l Hl IH Hy]; [repeat constructor|]. cbn. destruct (cmp x y) eqn:E.
  1, 2: assert (Hxy : cmp_le x y) by (unfold cmp_le; congruence).
  1, 2: constructor; [constructor; done|]; constructor; [done|]; eapply List.Forall_impl; [|exact Hy]; intros z Hz;
    eapply cmp_le_trans; eassumption.
  constructor; [exact IH|]. apply List.Forall_forall. intros z Hz.
  apply (Permutation_in _ (insert_by_perm x l)) in Hz as [<-|Hz]; [|rewrite List.Forall_forall in Hy; auto].
  unfold cmp_le. rewrite (cmp_opp (cmp := cmp) x y), E. done.
Qed.

Lemma sort_by_sorted `{!TotalOrder cmp} l : StronglySorted cmp_le (sort_by l).
Proof. induction l as [|x l IH]; [constructor|]. apply insert_by_sorted, IH. Qed.

(** Sorting by a total order gives the same list for every order of the input. *)
Lemma sort_by_unique `{!TotalOrder cmp} l k : l ≡ₚ k -> sort_by l = sort_by k.
Proof.
  intros H. apply (StronglySorted_unique cmp_le); [apply sort_by_sorted..|]. rewrite !sort_by_perm. exact H.
Qed.
End Sort.

Lemma sort_by_map {A B} (f : A -> B) cmp cmp' (l : list A) : (forall x y, cmp' (f x) (f y) = cmp x y) ->
  sort_by cmp' (map f l) = map f (sort_by cmp l).
Proof.
  intros H. assert (Hi : forall x k, insert_by cmp' (f x) (map f k) = map f (insert_by cmp x k)).
  { intros x k. induction k as [|y k IH]; [done|]. cbn. rewrite H. destruct (cmp x y); cbn; rewrite ?IH; done. }
  induction l as [|x l IH]; [done|]. cbn. fold (sort_by cmp' (map f l)). rewrite IH. apply Hi.
Qed.

(** Sorting by a key: the list ascends by the order of the key. *)
Lemma sort_by_sorted_key {A B} (f : A -> B) cmp cmp' `{!TotalOrder cmp'} (l : list A) :
  (forall x y, cmp' (f x) (f y) = cmp x y) -> StronglySorted (cmp_le cmp) (sort_by cmp l).
Proof.
  intros H. pose proof (sort_by_sorted cmp' (map f l)) as Hs. rewrite (sort_by_map f cmp cmp' l H) in Hs. revert Hs.
  generalize (sort_by cmp l) as k. induction k as [|x k IH]; intros Hs; [constructor|].
  inversion_clear Hs as [|? ? Hk Hx]. constructor; [auto|]. rewrite List.Forall_map in Hx.
  eapply List.Forall_impl; [|exact Hx]. unfold cmp_le. intros y Hy. rewrite H in Hy. exact Hy.
Qed.

#[export] Instance nat_total : TotalOrder Nat.compare.
Proof.
  split.
  - intros x y. apply Nat.compare_antisym.
  - intros x y. apply Nat.compare_eq_iff.
  - intros x y z. rewrite !Nat.compare_lt_iff. lia.
Qed.

Lemma sorted_impl {A} (R R' : A -> A -> Prop) l : (forall x y, R x y -> R' x y) -> StronglySorted R l -> StronglySorted R' l.
Proof. intros H. induction 1 as [|x l _ IH Hx]; constructor; [done|]. eapply List.Forall_impl; [|exact Hx]. auto. Qed.
