(* ===== verification/Clock.v ===== *)
(** * Vector clocks

    Models [VectorClock] of [ledger-journal/src/clock.rs].  A clock is an ordered map from actor
    to the number of its entries in history. *)

From Stdlib Require Import Sorting.Sorted.
From S2P Require Import Prelude Machine Cbor CborProofs ValueProofs OrdMap.

Open Scope Z_scope.

Abbreviation VectorClock := (list (Z * Z)).

Definition clock_new : VectorClock := [].

Definition clock_get (c : VectorClock) (actor : Z) : Z :=
  match oget actor c with Some v => v | None => 0 end.

Definition incremented (c : VectorClock) (actor : Z) : VectorClock :=
  let next := saturating_add (clock_get c actor) 1 in oinsert actor next c.

(** The loop of [merge] and the two tails after it: the merged entries and the flags
    [identical_to_left], [identical_to_right]. *)
Definition merge_loop : VectorClock -> VectorClock -> list (Z * Z) -> bool -> bool -> list (Z * Z) * bool * bool :=
  fix outer (left : VectorClock) : VectorClock -> list (Z * Z) -> bool -> bool -> list (Z * Z) * bool * bool :=
    fix inner (right : VectorClock) (merged : list (Z * Z)) (il ir : bool) {struct right} :
        list (Z * Z) * bool * bool :=
      match left, right with
      | (lactor, lval) :: left', (ractor, rval) :: right' =>
          match (lactor ?= ractor)%Z with
          | Lt => outer left' right (merged ++ [(lactor, lval)]) il false
          | Gt => inner right' (merged ++ [(ractor, rval)]) false ir
          | Eq =>
              let il := if (lval <? rval)%Z then false else il in
              let ir := if (rval <? lval)%Z then false else ir in
              outer left' right' (merged ++ [(lactor, Z.max lval rval)]) il ir
          end
      | _, _ =>
          let '(merged, ir) := match left with [] => (merged, ir) | _ :: _ => (merged ++ left, false) end in
          let '(merged, il) := match right with [] => (merged, il) | _ :: _ => (merged ++ right, false) end in
          (merged, il, ir)
      end.

Definition merge (self other : VectorClock) : VectorClock :=
  match self with
  | [] => other
  | _ :: _ =>
      if bool_decide (self = other) then other
      else
        match other with
        | [] => self
        | _ :: _ =>
            let '(merged, identical_to_left, identical_to_right) := merge_loop self other [] true true in
            if identical_to_left then self
            else if identical_to_right then other
            else ocollect merged
        end
  end.

Definition happens_before_or_equal (self other : VectorClock) : bool :=
  forallb (fun e => (e.2 <=? clock_get other e.1)%Z) self.

Definition happens_before (self other : VectorClock) : bool :=
  happens_before_or_equal self other && negb (bool_decide (self = other)).

Definition concurrent_with (self other : VectorClock) : bool :=
  negb (happens_before_or_equal self other) && negb (happens_before_or_equal other self).

Definition clock_encode (c : VectorClock) : list byte :=
  cmap (length c) ++ concat (map (fun e => unsigned e.1 ++ unsigned e.2) c).

(** ** Well-formed clocks *)

(** Ascending actors, every recorded component positive: what appending entries builds. *)
Definition clock_wf (c : VectorClock) : Prop := ordered c /\ Forall (fun e => 1 <= e.2 <= u64_max) c.

Lemma clock_wf_cons k v c : clock_wf ((k, v) :: c) <-> clock_wf c /\ above k c /\ 1 <= v <= u64_max.
Proof.
  unfold clock_wf. rewrite ordered_cons. split.
  - intros [[Ho Ha] H]. inversion_clear H. done.
  - intros ([Ho H] & Ha & Hv). split; [done|]. constructor; done.
Qed.

Lemma oget_positive c k v : clock_wf c -> oget k c = Some v -> 1 <= v <= u64_max.
Proof.
  induction c as [|[k' v'] c IH]; intros Hc H; [done|]. apply clock_wf_cons in Hc as (Hc & _ & Hv). cbn in H.
  case_split_in H; [congruence | auto].
Qed.

Lemma clock_get_range c k : clock_wf c -> 0 <= clock_get c k <= u64_max.
Proof.
  intros Hc. unfold clock_get. destruct (oget k c) as [v|] eqn:E; [apply oget_positive in E; [lia|done]|].
  unfold u64_max. lia.
Qed.

(** A well-formed clock is determined by its components. *)
Lemma clock_ext a b : clock_wf a -> clock_wf b -> (forall k, clock_get a k = clock_get b k) -> a = b.
Proof.
  intros Ha Hb He. apply ordered_ext; [apply Ha | apply Hb |]. intros k. specialize (He k).
  unfold clock_get in He. destruct (oget k a) eqn:Ea, (oget k b) eqn:Eb; try done;
    repeat match goal with H : oget _ _ = Some _ |- _ => apply oget_positive in H; [|done] end; [congruence|lia..].
Qed.

(** ** The order *)

Lemma happens_before_or_equal_spec a b : clock_wf a -> clock_wf b ->
  happens_before_or_equal a b = true <-> forall k, clock_get a k <= clock_get b k.
Proof.
  intros Ha Hb. unfold happens_before_or_equal. rewrite forallb_forall. split.
  - intros H k. unfold clock_get at 1. destruct (oget k a) as [v|] eqn:E.
    + apply (oget_In k v a) in E; [|apply Ha]. specialize (H _ E). cbn in H. apply Z.leb_le in H. done.
    + apply clock_get_range. done.
  - intros H [k v] Hin. cbn. apply (oget_In k v a) in Hin; [|apply Ha]. specialize (H k).
    unfold clock_get at 1 in H. rewrite Hin in H. apply Z.leb_le. done.
Qed.

(** ** Merging *)

(** Component-wise maximum, entry by entry: the reference the loop is compared with. *)
Fixpoint merge_ref (a b : VectorClock) : VectorClock :=
  match a with
  | [] => b
  | (k, v) :: a => oinsert k (Z.max v (clock_get b k)) (merge_ref a b)
  end.

Lemma merge_ref_wf a b : clock_wf a -> clock_wf b -> clock_wf (merge_ref a b).
Proof.
  intros Ha Hb. induction a as [|[k v] a IH]; cbn; [done|]. apply clock_wf_cons in Ha as (Ha & _ & Hv).
  pose proof (clock_get_range b k Hb). specialize (IH Ha) as [IH1 IH2]. split; [apply ordered_oinsert; done|].
  clear IH1. induction IH2 as [|[k' v'] m H' Hm IHm]; cbn; [constructor; [cbn; lia | done]|].
  repeat case_split; constructor; try done; cbn; lia || (constructor; done).
Qed.

Lemma merge_ref_get a b k : clock_wf a -> clock_wf b ->
  clock_get (merge_ref a b) k = Z.max (clock_get a k) (clock_get b k).
Proof.
  intros Ha Hb. induction a as [|[k' v] a IH]; cbn [merge_ref].
  - pose proof (clock_get_range b k Hb). cbn. lia.
  - apply clock_wf_cons in Ha as (Ha & Hab & Hv). unfold clock_get at 1 3. cbn [oget].
    rewrite oget_oinsert by (apply merge_ref_wf; done). case_split; bool_hyps; [subst; done|].
    apply IH. done.
Qed.

Lemma merge_loop_eq left right merged il ir :
  merge_loop left right merged il ir =
  match left, right with
  | (lactor, lval) :: left', (ractor, rval) :: right' =>
      match (lactor ?= ractor)%Z with
      | Lt => merge_loop left' right (merged ++ [(lactor, lval)]) il false
      | Gt => merge_loop left right' (merged ++ [(ractor, rval)]) false ir
      | Eq => merge_loop left' right' (merged ++ [(lactor, Z.max lval rval)])
                (if (lval <? rval)%Z then false else il) (if (rval <? lval)%Z then false else ir)
      end
  | [], [] => (merged, il, ir)
  | _ :: _, [] => (merged ++ left, il, false)
  | [], _ :: _ => (merged ++ right, false, ir)
  end.
Proof. destruct left as [|[? ?] ?], right as [|[? ?] ?]; reflexivity. Qed.

(** The union the loop appends to [merged]. *)
Definition is_merge (a b m : VectorClock) : Prop :=
  clock_wf m /\ (forall k, clock_get m k = Z.max (clock_get a k) (clock_get b k))
  /\ (forall k, above k a -> above k b -> above k m).

Lemma clock_get_cons k v c k' : clock_get ((k, v) :: c) k' = if (k' =? k)%Z then v else clock_get c k'.
Proof. unfold clock_get. cbn. case_split; done. Qed.

Lemma clock_get_above k (c : VectorClock) : above k c -> clock_get c k = 0.
Proof. intros H. unfold clock_get. rewrite (oget_above k k) by (done || lia). done. Qed.

Lemma above_trans k k' (c : VectorClock) : k < k' -> above k' c -> above k c.
Proof. intros Hk H. eapply Forall_impl; [|exact H]. cbn. lia. Qed.

Lemma is_merge_cons k v a b a' b' m : above k m -> is_merge a' b' m -> 1 <= v <= u64_max ->
  (forall k', Z.max (clock_get a k') (clock_get b k') = if (k' =? k)%Z then v else Z.max (clock_get a' k') (clock_get b' k')) ->
  (forall k', above k' a -> above k' b -> k' < k) -> is_merge a b ((k, v) :: m).
Proof.
  intros Ha (Hw & Hg & Hm) Hv He Hlt. split_and!.
  - apply clock_wf_cons. done.
  - intros k'. rewrite clock_get_cons, He, Hg. done.
  - intros k' H1 H2. specialize (Hlt k' H1 H2). constructor; [exact Hlt|]. eapply above_trans; eauto.
Qed.

Lemma above_cons k k' v (c : VectorClock) : above k ((k', v) :: c) -> k < k' /\ above k c.
Proof. intros H. inversion_clear H. done. Qed.

Lemma bool_decide_cons {A} `{EqDecision A} (x y : A) (l k : list A) :
  bool_decide (x :: l = y :: k) = bool_decide (x = y) && bool_decide (l = k).
Proof. repeat case_bool_decide; naive_solver. Qed.

Lemma is_merge_left a b k v : clock_wf ((k, v) :: a) -> clock_wf b -> above k b -> forall m, is_merge a b m ->
  is_merge ((k, v) :: a) b ((k, v) :: m) /\ bool_decide ((k, v) :: m = b) = false.
Proof.
  intros Ha Hb Hk m Hm. apply clock_wf_cons in Ha as (Ha & Hka & Hv). split.
  - destruct Hm as (Hw & Hg & Hab). apply (is_merge_cons k v _ _ a b); [auto|done|done| |].
    + intros k'. rewrite clock_get_cons. case_split; bool_hyps; [|done]. subst.
      rewrite (clock_get_above k b) by done. lia.
    + intros k' H1 _. apply above_cons in H1. lia.
  - apply bool_decide_eq_false. intros <-. apply above_cons in Hk. lia.
Qed.

Lemma is_merge_sym a b m : is_merge a b m -> is_merge b a m.
Proof. intros (Hw & Hg & Ha). split_and!; [done | | auto]. intros k. rewrite Hg. lia. Qed.

Lemma is_merge_both a b k v w : clock_wf ((k, v) :: a) -> clock_wf ((k, w) :: b) -> forall m, is_merge a b m ->
  is_merge ((k, v) :: a) ((k, w) :: b) ((k, Z.max v w) :: m).
Proof.
  intros Ha Hb m Hm. apply clock_wf_cons in Ha as (Ha & Hka & Hv), Hb as (Hb & Hkb & Hw).
  pose proof Hm as (Hmw & Hg & Hab). apply (is_merge_cons _ _ _ _ a b); [auto|done|lia| |].
  - intros k'. rewrite !clock_get_cons. case_split; done.
  - intros k' H1 _. apply above_cons in H1. lia.
Qed.

Lemma is_merge_nil b : clock_wf b -> is_merge [] b b.
Proof.
  intros Hb. split_and!; [done | | auto]. intros k. pose proof (clock_get_range b k Hb).
  unfold clock_get at 2. cbn. lia.
Qed.

(** The loop produces the union, and its flags say exactly whether that is one of the inputs. *)
Lemma merge_loop_spec left : forall right merged il ir, clock_wf left -> clock_wf right ->
  exists m, is_merge left right m
  /\ merge_loop left right merged il ir
     = (merged ++ m, il && bool_decide (m = left), ir && bool_decide (m = right)).
Proof.
  induction left as [|[la lv] left IHl]; intros right.
  - intros merged il ir _ Hr. exists right. split; [apply is_merge_nil; done|]. rewrite merge_loop_eq.
    rewrite (bool_decide_true (right = right)) by done. rewrite andb_true_r.
    destruct right as [|e right]; [rewrite app_nil_r, andb_true_r; done|].
    rewrite bool_decide_false, andb_false_r by done. done.
  - induction right as [|[ra rv] right IHr]; intros merged il ir Hl Hr.
    + exists ((la, lv) :: left). split; [apply is_merge_sym, is_merge_nil; done|]. rewrite merge_loop_eq.
      rewrite (bool_decide_true (_ = _)), bool_decide_false, andb_false_r, andb_true_r by done. done.
    + pose proof Hl as (Hl' & Hla & Hlv)%clock_wf_cons. pose proof Hr as (Hr' & Hra & Hrv)%clock_wf_cons.
      rewrite merge_loop_eq. destruct (Z.compare_spec la ra) as [E|E|E].
      * subst ra. destruct (IHl right (merged ++ [(la, Z.max lv rv)]) (if (lv <? rv)%Z then false else il)
          (if (rv <? lv)%Z then false else ir) Hl' Hr') as (m & Hm & ->).
        exists ((la, Z.max lv rv) :: m). split; [apply is_merge_both; done|].
        rewrite <- app_assoc, !bool_decide_cons. cbn [app].
        destruct (Z.ltb_spec lv rv), (Z.ltb_spec rv lv); try lia; cbn [andb];
          f_equal; try f_equal; repeat case_bool_decide; destruct il, ir; try done; simplify_eq; try lia;
          exfalso; match goal with H : (_, _) <> (_, _) |- _ => apply H; f_equal; lia end.
      * destruct (IHl ((ra, rv) :: right) (merged ++ [(la, lv)]) il false Hl' Hr) as (m & Hm & ->).
        destruct (is_merge_left left ((ra, rv) :: right) la lv Hl Hr) with (m := m) as [Hm' Hne];
          [constructor; [exact E | eapply above_trans; eauto] | done |].
        exists ((la, lv) :: m). split; [done|]. rewrite Hne, <- app_assoc, bool_decide_cons, (bool_decide_true (_ = (la, lv))), andb_false_r by done.
        done.
      * destruct (IHr (merged ++ [(ra, rv)]) false ir Hl Hr') as (m & Hm & ->).
        destruct (is_merge_left right ((la, lv) :: left) ra rv Hr Hl) with (m := m) as [Hm' Hne];
          [constructor; [exact E | eapply above_trans; eauto] | apply is_merge_sym; done |].
        exists ((ra, rv) :: m). split; [apply is_merge_sym; done|].
        rewrite Hne, <- app_assoc, bool_decide_cons, (bool_decide_true (_ = (ra, rv))), andb_false_r by done. done.
Qed.

Lemma merge_is_merge a b : clock_wf a -> clock_wf b -> is_merge a b (merge a b).
Proof.
  intros Ha Hb. unfold merge. destruct a as [|e a]; [apply is_merge_nil; done|].
  case_bool_decide as E.
  { subst b. split_and!; [done | intros k; lia | auto]. }
  destruct b as [|e' b]; [apply is_merge_sym, is_merge_nil; done|].
  destruct (merge_loop_spec (e :: a) (e' :: b) [] true true Ha Hb) as (m & Hm & ->).
  cbn [andb app]. case_bool_decide; [congruence|]. case_bool_decide; [congruence|].
  rewrite ocollect_ordered by apply Hm. done.
Qed.

Lemma merge_get a b k : clock_wf a -> clock_wf b ->
  clock_get (merge a b) k = Z.max (clock_get a k) (clock_get b k).
Proof. intros Ha Hb. apply merge_is_merge; done. Qed.

Lemma merge_wf a b : clock_wf a -> clock_wf b -> clock_wf (merge a b).
Proof. intros Ha Hb. apply merge_is_merge; done. Qed.

Lemma clock_get_oinsert c k v k' : clock_wf c ->
  clock_get (oinsert k v c) k' = if (k' =? k)%Z then v else clock_get c k'.
Proof. intros [Ho _]. unfold clock_get. rewrite oget_oinsert by done. case_split; done. Qed.

Lemma incremented_wf c a : clock_wf c -> clock_wf (incremented c a).
Proof.
  intros Hc. pose proof (clock_get_range c a Hc) as Hr. unfold incremented. destruct Hc as [Ho Hv].
  split; [apply ordered_oinsert; done|]. clear Ho. revert Hr. generalize (clock_get c a). intros g Hg.
  assert (Hn : 1 <= saturating_add g 1 <= u64_max) by (unfold saturating_add, u64_max in *; lia).
  induction Hv as [|[k' v'] m H' Hm IHm]; cbn [oinsert]; [constructor; done|].
  repeat case_split; constructor; try done. constructor; done.
Qed.

Lemma incremented_get c a k : clock_wf c ->
  clock_get (incremented c a) k = if (k =? a)%Z then saturating_add (clock_get c a) 1 else clock_get c k.
Proof. intros Hc. apply clock_get_oinsert. done. Qed.

#[export] Hint Resolve merge_wf incremented_wf : mach.

(** ** Canonical encoding *)

(** Big-endian digits compare like the numbers they stand for. *)
Lemma lex_compare_app_same a b : length a = length b -> forall x y,
  lex_compare (a ++ x) (b ++ y) = match lex_compare a b with Eq => lex_compare x y | c => c end.
Proof.
  revert b; induction a as [|p a IH]; intros [|q b] Hl x y; try done. cbn.
  destruct (b2z p ?= b2z q)%Z; try done. apply IH. cbn in Hl. lia.
Qed.

Lemma to_be_bytes_S n v : to_be_bytes (S n) v = to_be_bytes n (v / 256) ++ [z2b v].
Proof. reflexivity. Qed.

Lemma be_bytes_compare n : forall a b, 0 <= a < 256 ^ Z.of_nat n -> 0 <= b < 256 ^ Z.of_nat n ->
  lex_compare (to_be_bytes n a) (to_be_bytes n b) = (a ?= b)%Z.
Proof.
  induction n as [|n IH]; intros a b Ha Hb.
  - cbn in Ha, Hb. assert (a = b) as -> by lia. rewrite Z.compare_refl. done.
  - rewrite Nat2Z.inj_succ, Z.pow_succ_r in Ha, Hb by lia. rewrite !to_be_bytes_S.
    rewrite lex_compare_app_same by (rewrite !length_to_be_bytes; done).
    rewrite IH by (split; [apply Z.div_pos; lia | apply Z.div_lt_upper_bound; lia]).
    cbn [lex_compare]. rewrite !b2z_z2b.
    destruct (Z.compare_spec (a / 256) (b / 256)), (Z.compare_spec (a mod 256) (b mod 256)),
      (Z.compare_spec a b); try done; Z.div_mod_to_equations; lia.
Qed.

Lemma lex_compare_cons x a b : lex_compare (x :: a) (x :: b) = lex_compare a b.
Proof. cbn. rewrite Z.compare_refl. done. Qed.

(** Shortest heads order integers numerically. *)
Lemma unsigned_key_lt a b : is_u64 a -> is_u64 b -> a < b -> key_lt (unsigned a) (unsigned b).
Proof.
  intros Ha Hb Hlt. unfold key_lt, compare_canonical_keys, unsigned, major. widths.
  repeat match goal with
  | |- context [(?x <=? ?y)%Z] => destruct (Z.leb_spec x y)
  end; try lia; cbn [length]; rewrite ?length_to_be_bytes; cbn [Nat.eqb negb Nat.compare]; try done;
    rewrite ?lex_compare_cons; rewrite ?be_bytes_compare by (cbn; lia); try (apply Z.compare_lt_iff; done).
  - cbn [lex_compare]. rewrite !b2z_z2b. change (Z.shiftl 0 5) with 0. rewrite !Z.lor_0_l, !Z.mod_small by lia.
    rewrite (proj2 (Z.compare_lt_iff _ _) Hlt). done.
  - cbn [lex_compare]. rewrite !b2z_z2b, !Z.mod_small by lia. rewrite (proj2 (Z.compare_lt_iff _ _) Hlt). done.
Qed.

Definition clock_cbor (c : VectorClock) : CborValue := CMap (map (fun e => (CUnsigned e.1, CUnsigned e.2)) c).

Lemma clock_entries_sorted c : ordered c -> Forall (fun e => is_u64 e.1) c ->
  strictly_sorted (map (fun e => (unsigned e.1, unsigned e.2)) c).
Proof.
  induction 1 as [|e c Ho IH Ha]; intros Hu; [constructor|]. inversion_clear Hu as [|? ? He Hc].
  cbn [map]. constructor; [apply IH; done|]. apply List.Forall_map.
  rewrite Forall_forall in *. intros e' Hin. cbn. apply unsigned_key_lt; auto.
Qed.

Lemma clock_to_canonical c : clock_wf c -> Forall (fun e => is_u64 e.1) c ->
  to_canonical_bytes (clock_cbor c) = Ok (clock_encode c).
Proof.
  intros [Ho Hv] Hu. unfold to_canonical_bytes, clock_cbor. apply try_encode_map_iff.
  rewrite map_map. change (map (fun x => encode_entry (CUnsigned x.1, CUnsigned x.2)) c)
    with (map (fun e => (unsigned e.1, unsigned e.2)) c).
  pose proof (clock_entries_sorted c Ho Hu) as Hs. rewrite (sort_by_key_id _ Hs). split_and!.
  - apply forallb_forall. intros e (e' & <- & _)%in_map_iff. done.
  - apply strictly_sorted_no_duplicate. done.
  - unfold clock_encode. rewrite length_map, map_map. done.
Qed.

(** ** Theorems *)

(** Merging clocks.  The two-pointer [VectorClock::merge], with its shortcuts for empty, equal
    and identical inputs, is the component-wise maximum, and the result is again well-formed. *)
Theorem merge_pointwise_max a b : clock_wf a -> clock_wf b ->
  clock_wf (merge a b) /\ merge a b = merge_ref a b
  /\ forall k, clock_get (merge a b) k = Z.max (clock_get a k) (clock_get b k).
Proof.
  intros Ha Hb. split_and!; [apply merge_wf; done | | intros; apply merge_get; done].
  apply clock_ext; [apply merge_wf; done | apply merge_ref_wf; done |].
  intros k. rewrite merge_get, merge_ref_get by done. done.
Qed.

Lemma merge_pointwise_max_witness : merge [(1, 3); (4, 2)] [(1, 1); (2, 5)] = [(1, 3); (2, 5); (4, 2)].
Proof.
  assert (Ha : clock_wf [(1, 3); (4, 2)]) by (split; repeat constructor; cbn; unfold u64_max; lia).
  assert (Hb : clock_wf [(1, 1); (2, 5)]) by (split; repeat constructor; cbn; unfold u64_max; lia).
  destruct (merge_pointwise_max _ _ Ha Hb) as (_ & -> & _). reflexivity.
Defined.

(** The causal order.  [happens_before_or_equal] is a partial order on well-formed clocks and
    [merge] is its least upper bound: the later clock of an entry is the join of its parents'. *)
Theorem happens_before_lattice a b c : clock_wf a -> clock_wf b -> clock_wf c ->
  happens_before_or_equal a a = true
  /\ (happens_before_or_equal a b = true -> happens_before_or_equal b a = true -> a = b)
  /\ (happens_before_or_equal a b = true -> happens_before_or_equal b c = true ->
      happens_before_or_equal a c = true)
  /\ (happens_before_or_equal (merge a b) c = true <->
      happens_before_or_equal a c = true /\ happens_before_or_equal b c = true).
Proof.
  intros Ha Hb Hc. rewrite !happens_before_or_equal_spec by auto with mach. split_and!.
  - lia.
  - intros H1 H2. apply clock_ext; [done..|]. intros k. specialize (H1 k). specialize (H2 k). lia.
  - intros H1 H2 k. specialize (H1 k). specialize (H2 k). lia.
  - split.
    + intros H. split; intros k; specialize (H k); rewrite merge_get in H by done; lia.
    + intros [H1 H2] k. rewrite merge_get by done. specialize (H1 k). specialize (H2 k). lia.
Qed.

Lemma happens_before_lattice_witness : happens_before_or_equal (merge [(1, 3)] [(2, 5)]) [(1, 3); (2, 6)] = true.
Proof.
  assert (Ha : clock_wf [(1, 3)]) by (split; repeat constructor; cbn; unfold u64_max; lia).
  assert (Hb : clock_wf [(2, 5)]) by (split; repeat constructor; cbn; unfold u64_max; lia).
  assert (Hc : clock_wf [(1, 3); (2, 6)]) by (split; repeat constructor; cbn; unfold u64_max; lia).
  apply (happens_before_lattice _ _ _ Ha Hb Hc). split; reflexivity.
Defined.

(** Trichotomy of causality.  Two well-formed clocks are equal, strictly ordered one way or the
    other, or concurrent, and exactly one of these holds. *)
Theorem causality_trichotomy a b : clock_wf a -> clock_wf b ->
  Z.b2z (bool_decide (a = b)) + Z.b2z (happens_before a b) + Z.b2z (happens_before b a)
  + Z.b2z (concurrent_with a b) = 1.
Proof.
  intros Ha Hb. unfold happens_before, concurrent_with.
  assert (Hr : happens_before_or_equal a a = true) by (rewrite happens_before_or_equal_spec by done; lia).
  destruct (happens_before_or_equal a b) eqn:E1, (happens_before_or_equal b a) eqn:E2;
    repeat case_bool_decide; subst; cbn; try done; try congruence.
  exfalso. rewrite happens_before_or_equal_spec in E1, E2 by done.
  match goal with H : a <> b |- _ => apply H end.
  apply clock_ext; [done..|]. intros k. specialize (E1 k). specialize (E2 k). lia.
Qed.

Lemma causality_trichotomy_witness : concurrent_with [(1, 3)] [(2, 5)] = true
  /\ happens_before [(1, 3)] [(2, 5)] = false.
Proof.
  assert (Ha : clock_wf [(1, 3)]) by (split; repeat constructor; cbn; unfold u64_max; lia).
  assert (Hb : clock_wf [(2, 5)]) by (split; repeat constructor; cbn; unfold u64_max; lia).
  pose proof (causality_trichotomy _ _ Ha Hb) as H. destruct (concurrent_with [(1, 3)] [(2, 5)]) eqn:E; [|discriminate E].
  split; [reflexivity|]. destruct (happens_before [(1, 3)] [(2, 5)]); [discriminate H | reflexivity].
Defined.

(** Canonical clock bytes.  What [VectorClock::encode] writes in iteration order is the
    canonical CBOR encoding of the clock as a map: ascending actors are in canonical key order. *)
Theorem clock_encode_canonical c : clock_wf c -> Forall (fun e => is_u64 e.1) c ->
  to_canonical_bytes (clock_cbor c) = Ok (clock_encode c).
Proof. apply clock_to_canonical. Qed.

Lemma clock_encode_canonical_witness :
  to_canonical_bytes (clock_cbor [(3, 7); (300, 1)]) = Ok (clock_encode [(3, 7); (300, 1)]).
Proof.
  apply clock_encode_canonical; [split|]; repeat constructor; cbn; unfold u64_max; lia.
Defined.
