(* ===== verification/Dag.v ===== *)
(** * The journal DAG

    Models [ledger-journal/src/dag.rs]: content-addressed entries, the journal state with its
    frozen base and post-fork overlay, [append], [append_batch] and the read operations.

    BLAKE3 is a third-party crate and a parameter of the model.  [Arc] values are immutable and
    shared, so a fork is a copy; the one place where sharing is observable is [freeze_overlay],
    which does nothing while the base is shared ([Arc::get_mut] fails).  Whether the base is
    shared at that moment is the argument [base_unique] of the operations. *)

From stdpp Require Import gmap.
From S2P Require Import Prelude Machine Cbor CborProofs Limits Value ValueProofs Path Hex Frame Entry OrdMap Clock.

Open Scope Z_scope.

Definition OVERLAY_THRESHOLD : nat := 1024.

(** Why a payload is refused: the parent cap of [assemble_parents] or the canonical encoder. *)
Inductive InvalidReason : Type :=
| TooManyParents
| Encoding (err : CborError).

(** Why a segment, recovery log or snapshot store is corrupt: a message, one about a segment, a CBOR or frame prefix
    error it carries, or an I/O error of the file system or the decompressor. *)
Inductive CorruptReason : Type :=
| Msg (msg : string)
| SegmentMsg (id : Z) (msg : string)
| BadCbor (err : CborError)
| BadPrefix (what : string) (err : FrameError)
| Io (msg : string).

Inductive JournalError : Type :=
| MissingParent (hash : EntryHash)
| NonMonotonicSequence (actor expected actual : Z)
| InvariantViolation (msg : string)
| InvalidPayload (reason : InvalidReason)
| SegmentCorrupt (reason : CorruptReason)
| SnapshotHashMismatch
| SnapshotStoreError (reason : CorruptReason)
| ArchiveHashMismatch.

Record JEntry : Type := mkJEntry { eid : EntryHash; edata : EntryData; eclock : VectorClock }.

Record JournalState : Type := mkState {
  base : gmap (list byte) JEntry;
  overlay : gmap (list byte) JEntry;
  heads : gmap Z EntryHash;
  order : list EntryHash;
  overlay_order : list EntryHash }.

Record BatchEntry : Type := mkBatchEntry {
  b_kind : EntryKind; b_actor : Z; b_observed : list EntryHash; b_chain : bool; b_payload : EntryPayload }.

Record EntryFrame : Type := mkFrame {
  f_id : EntryHash; f_data_len : nat; f_payload : list byte; f_fault_relevant : bool }.

Definition kind_is_fault_relevant (k : EntryKind) : bool :=
  match k with KFault | KOutcome | KAssert => true | _ => false end.

(** ** Parents *)

(** One turn of a parent into [seen] and [parents]. *)
Definition add_parent (acc : gset (list byte) * list EntryHash) (parent : EntryHash) :
    result JournalError (gset (list byte) * list EntryHash) :=
  let '(seen, parents) := acc in
  if decide (parent ∈ seen) then Ok acc
  else if (MAX_PARENTS_PER_ENTRY <=? Z.of_nat (length parents))%Z then Err (InvalidPayload TooManyParents)
  else Ok ({[parent]} ∪ seen, parents ++ [parent]).

Fixpoint add_parents (acc : gset (list byte) * list EntryHash) (observed : list EntryHash) :
    result JournalError (gset (list byte) * list EntryHash) :=
  match observed with
  | [] => Ok acc
  | p :: observed => let? acc := add_parent acc p in add_parents acc observed
  end.

Definition assemble_parents (head : option EntryHash) (observed : list EntryHash) (chain : option EntryHash) :
    result JournalError (list EntryHash) :=
  let start := match head with Some previous => ({[previous]}, [previous]) | None => (∅, []) end in
  let? acc := add_parents start observed in
  let? acc := match chain with Some chained => add_parent acc chained | None => Ok acc end in
  Ok acc.2.

(** ** State *)

Definition journal_new : JournalState := mkState ∅ ∅ ∅ [] [].

(** [Journal::fork]: the state is shared and immutable. *)
Definition fork (st : JournalState) : JournalState := st.

(** [state_lookup] and [Journal::get]: overlay before base. *)
Definition state_lookup (st : JournalState) (id : EntryHash) : option JEntry :=
  match overlay st !! id with Some e => Some e | None => base st !! id end.

(** [freeze_overlay]; both ways of extending [order] give the same vector. *)
Definition freeze_overlay (base_unique : bool) (st : JournalState) : JournalState :=
  if base_unique then
    mkState (overlay st ∪ base st) ∅ (heads st) (order st ++ overlay_order st) []
  else st.

Definition insert_entry (st : JournalState) (actor : Z) (e : JEntry) : JournalState :=
  mkState (base st) (<[eid e := e]> (overlay st)) (<[actor := eid e]> (heads st))
    (order st) (overlay_order st ++ [eid e]).

Definition freeze_if_full (base_unique : bool) (st : JournalState) : JournalState :=
  if (OVERLAY_THRESHOLD <=? size (overlay st))%nat then freeze_overlay base_unique st else st.

(** Merge the clocks of all parents, failing on the first that is absent. *)
Fixpoint merge_parents (get : EntryHash -> option JEntry) (clock : VectorClock) (parents : list EntryHash) :
    result JournalError VectorClock :=
  match parents with
  | [] => Ok clock
  | p :: parents =>
      let? e := ok_or (get p) (MissingParent p) in
      merge_parents get (merge clock (eclock e)) parents
  end.

Definition entries (st : JournalState) : list JEntry :=
  omap (state_lookup st) (order st ++ overlay_order st).

Definition journal_len (st : JournalState) : nat := length (order st) + length (overlay_order st).

Definition tail_ids (st : JournalState) (count : nat) : list EntryHash :=
  let total := (length (order st) + length (overlay_order st))%nat in
  drop (total - count) (order st ++ overlay_order st).

Definition last_entry (st : JournalState) : option JEntry :=
  match (match list.last (overlay_order st) with Some id => Some id | None => list.last (order st) end) with
  | Some id => state_lookup st id
  | None => None
  end.

Definition head_for_actor (st : JournalState) (actor : Z) : option EntryHash := heads st !! actor.

Section Hashing.
(** [blake3::hash] on a byte string. *)
Variable blake3 : list byte -> list byte.

(** [Entry::new] and [Entry::new_with_scratch_recorded]: the entry and its data length. *)
Definition new_with_scratch_recorded (data : EntryData) (clock : VectorClock) :
    result JournalError (JEntry * nat * list byte) :=
  let? encoded := map_err (fun err => InvalidPayload (Encoding err)) (entry_encode data) in
  let scratch := encoded ++ clock_encode clock in
  Ok (mkJEntry (blake3 scratch) data clock, length encoded, scratch).

Definition entry_new (data : EntryData) (clock : VectorClock) : result JournalError JEntry :=
  let? '(e, _, _) := new_with_scratch_recorded data clock in Ok e.

Definition root_hash (st : JournalState) : EntryHash :=
  blake3 (concat (order st ++ overlay_order st)).

(** ** Append *)

(** [Journal::append]; on an error the journal is unchanged. *)
Definition append (base_unique : bool) (st : JournalState) (k : EntryKind) (act : Z)
    (observed_parents : list EntryHash) (pl : EntryPayload) : result JournalError (EntryHash * JournalState) :=
  let previous_head := heads st !! act in
  let? parents_vec := assemble_parents previous_head observed_parents None in
  let? '(seq, head_entry) :=
    match previous_head with
    | Some head =>
        let? e := ok_or (state_lookup st head) (MissingParent head) in
        Ok (saturating_add (sequence (edata e)) 1, Some e)
    | None => Ok (0, None)
    end in
  let? clock :=
    if (length parents_vec =? 1)%nat then
      match head_entry with
      | Some e => Ok (eclock e)
      | None =>
          match parents_vec with
          | p :: _ => let? e := ok_or (state_lookup st p) (MissingParent p) in Ok (eclock e)
          | [] => Ok []
          end
      end
    else merge_parents (state_lookup st) [] parents_vec in
  let clock := incremented clock act in
  let data := mkEntryData FORMAT_VERSION k act parents_vec [] seq pl in
  let? e := entry_new data clock in
  let st := insert_entry st act e in
  Ok (eid e, freeze_if_full base_unique st).

(** ** Batches *)

(** One turn of the loop of [append_batch_impl]. *)
Definition batch_step (st : JournalState) (ids : list EntryHash) (spec : BatchEntry) :
    result JournalError (EntryHash * EntryFrame * JournalState) :=
  let previous_head := heads st !! b_actor spec in
  let chain := if b_chain spec then list.last ids else None in
  let? parents_vec := assemble_parents previous_head (b_observed spec) chain in
  let? head_info :=
    match previous_head with
    | Some head =>
        let? e := ok_or (state_lookup st head) (MissingParent head) in
        Ok (Some (sequence (edata e), eclock e))
    | None => Ok None
    end in
  let seq := match head_info with Some (previous, _) => saturating_add previous 1 | None => 0 end in
  let? clock :=
    if (length parents_vec =? 1)%nat then
      match previous_head with
      | Some _ => Ok (match head_info with Some (_, c) => c | None => clock_new end)
      | None =>
          match parents_vec with
          | p :: _ => let? e := ok_or (state_lookup st p) (MissingParent p) in Ok (eclock e)
          | [] => Ok []
          end
      end
    else merge_parents (state_lookup st) [] parents_vec in
  let clock := incremented clock (b_actor spec) in
  let data := mkEntryData FORMAT_VERSION (b_kind spec) (b_actor spec) parents_vec [] seq (b_payload spec) in
  let? '(e, data_len, scratch) := new_with_scratch_recorded data clock in
  let frame := mkFrame (eid e) data_len scratch (kind_is_fault_relevant (b_kind spec)) in
  Ok (eid e, frame, insert_entry st (b_actor spec) e).

(** The loop: the ids and frames so far, the state reached, and the error that stopped it. *)
Fixpoint batch_loop (st : JournalState) (ids : list EntryHash) (frames : list EntryFrame)
    (batch : list BatchEntry) : result JournalError (list EntryHash) * list EntryFrame * JournalState :=
  match batch with
  | [] => (Ok ids, frames, st)
  | spec :: batch =>
      match batch_step st ids spec with
      | Ok (id, frame, st) => batch_loop st (ids ++ [id]) (frames ++ [frame]) batch
      | Err e => (Err e, frames, st)
      end
  end.

(** [append_batch_impl]: the freeze runs only when the whole batch was applied. *)
Definition append_batch (base_unique : bool) (st : JournalState) (batch : list BatchEntry) :
    result JournalError (list EntryHash) * list EntryFrame * JournalState :=
  match batch with
  | [] => (Ok [], [], st)
  | _ :: _ =>
      let '(r, frames, st) := batch_loop st [] [] batch in
      match r with
      | Ok ids => (Ok ids, frames, freeze_if_full base_unique st)
      | Err e => (Err e, frames, st)
      end
  end.
End Hashing.

(** ** The journal DAG: correctness

    - Observational equivalence of states: freezing the overlay is invisible, and every operation
      respects it.
    - [append_batch] is the loop of [append].
    - The journal refines an abstract append-only log; the log's invariants (content addresses,
      parents before children, contiguous sequences, causal clocks) are proved on the log. *)

(** ** Observational equivalence *)

Record obs_equiv (s t : JournalState) : Prop := {
  oe_lookup : forall id, state_lookup s id = state_lookup t id;
  oe_heads : heads s = heads t;
  oe_order : order s ++ overlay_order s = order t ++ overlay_order t }.

Infix "≈" := obs_equiv (at level 70).

#[global] Instance obs_equiv_equivalence : Equivalence obs_equiv.
Proof.
  split.
  - intros s. done.
  - intros s t [H1 H2 H3]. split; done.
  - intros s t u [H1 H2 H3] [H4 H5 H6]. split; [|congruence..]. intros id. rewrite H1. apply H4.
Qed.

Lemma freeze_overlay_equiv b st : freeze_overlay b st ≈ st.
Proof.
  destruct b; [|done]. split; [|done|].
  - intros id. unfold state_lookup, freeze_overlay. cbn. rewrite lookup_empty, lookup_union.
    destruct (overlay st !! id), (base st !! id); done.
  - cbn. rewrite app_nil_r. done.
Qed.

Lemma freeze_if_full_equiv b st : freeze_if_full b st ≈ st.
Proof. unfold freeze_if_full. destruct (OVERLAY_THRESHOLD <=? _)%nat; [apply freeze_overlay_equiv | done]. Qed.

Lemma lookup_insert_entry st act e id :
  state_lookup (insert_entry st act e) id = if decide (id = eid e) then Some e else state_lookup st id.
Proof.
  unfold state_lookup, insert_entry. cbn. case_decide as Hd.
  - subst. rewrite lookup_insert_eq. done.
  - rewrite lookup_insert_ne by done. done.
Qed.

#[global] Instance insert_entry_proper : Proper (obs_equiv ==> eq ==> eq ==> obs_equiv) insert_entry.
Proof.
  intros s t [H1 H2 H3] act ? <- e ? <-. split.
  - intros id. rewrite !lookup_insert_entry, H1. done.
  - cbn. rewrite H2. done.
  - cbn. rewrite !app_assoc, H3. done.
Qed.

#[global] Instance entries_proper : Proper (obs_equiv ==> eq) entries.
Proof.
  intros s t [H1 _ H3]. unfold entries. rewrite H3. clear H3. induction (order t ++ overlay_order t) as [|id l IH]; [done|].
  cbn [omap list_omap]. rewrite H1. destruct (state_lookup t id); [f_equal|]; exact IH.
Qed.

Lemma merge_parents_ext get get' clock ps : (forall id, get id = get' id) ->
  merge_parents get clock ps = merge_parents get' clock ps.
Proof.
  intros H. revert clock; induction ps as [|p ps IH]; intros clock; [done|]. cbn. rewrite H.
  destruct (get' p); [apply IH | done].
Qed.

(** ** Parents *)

Lemma add_parents_app acc l k : add_parents acc (l ++ k) = let? acc := add_parents acc l in add_parents acc k.
Proof. revert acc; induction l as [|p l IH]; intros acc; [done|]. cbn. destruct (add_parent acc p); [apply IH|done]. Qed.

(** The chained id is one more observed parent. *)
Lemma assemble_parents_chain head observed chain :
  assemble_parents head observed chain = assemble_parents head (observed ++ option_list chain) None.
Proof.
  unfold assemble_parents. cbv zeta. rewrite add_parents_app. destruct (add_parents _ observed); [|done].
  destruct chain as [c|]; [|done]. cbn. destruct (add_parent a c); done.
Qed.

Definition seen_parents (acc : gset (list byte) * list EntryHash) : Prop :=
  acc.1 = list_to_set acc.2 /\ NoDup acc.2.

Lemma add_parent_inv acc p acc' : seen_parents acc -> add_parent acc p = Ok acc' ->
  seen_parents acc' /\ (acc'.2 = acc.2 /\ p ∈ acc.2 \/ acc'.2 = acc.2 ++ [p] /\ p ∉ acc.2
                        /\ Z.of_nat (length acc.2) < MAX_PARENTS_PER_ENTRY).
Proof.
  destruct acc as [seen ps]. intros [Hs Hn] H. cbn in *. subst seen. case_decide as Hd.
  - simplify_eq. rewrite elem_of_list_to_set in Hd. split; [done | left; done].
  - case_split_in H; [done|]. bool_hyps. simplify_eq. cbn. rewrite elem_of_list_to_set in Hd.
    split; [|right; done]. split; cbn; [|apply list.NoDup_app; split_and!; [done| |apply list.NoDup_singleton]; set_solver].
    rewrite list_to_set_app_L. set_solver.
Qed.

Lemma add_parents_inv observed : forall acc acc', seen_parents acc -> add_parents acc observed = Ok acc' ->
  seen_parents acc' /\ (forall p, p ∈ acc'.2 <-> p ∈ acc.2 \/ p ∈ observed)
  /\ (exists tl, acc'.2 = acc.2 ++ tl)
  /\ (Z.of_nat (length acc.2) <= MAX_PARENTS_PER_ENTRY -> Z.of_nat (length acc'.2) <= MAX_PARENTS_PER_ENTRY).
Proof.
  induction observed as [|q observed IH]; intros acc acc' Hs H; cbn in H.
  - simplify_eq. split_and!; [done | set_solver | exists []; rewrite app_nil_r; done | done].
  - destruct (add_parent acc q) as [acc1|] eqn:E; [|done].
    apply add_parent_inv in E as [Hs1 Hcase]; [|done].
    destruct (IH acc1 acc' Hs1 H) as (Hs' & Hin & [tl Htl] & Hlen). split_and!.
    + done.
    + intros p. rewrite Hin. destruct Hcase as [[-> Hq]|(-> & _ & _)]; set_solver.
    + rewrite Htl. destruct Hcase as [[-> _]|(-> & _ & _)]; [eauto|]. rewrite <- app_assoc. eauto.
    + intros Hl. apply Hlen. destruct Hcase as [[-> _]|(-> & _ & Hlt)]; [done|]. rewrite length_app. cbn. lia.
Qed.

(** The assembled parents: no duplicates, the head first, exactly the head and the observed. *)
Lemma assemble_parents_spec head observed ps : assemble_parents head observed None = Ok ps ->
  NoDup ps /\ (forall p, p ∈ ps <-> head = Some p \/ p ∈ observed)
  /\ (forall h, head = Some h -> exists tl, ps = h :: tl)
  /\ Z.of_nat (length ps) <= MAX_PARENTS_PER_ENTRY.
Proof.
  unfold assemble_parents. cbv zeta.
  set (start := match head with Some previous => ({[previous]}, [previous]) | None => (∅, []) end).
  intros H. destruct (add_parents start observed) as [acc|] eqn:E; [|done]. simplify_eq.
  assert (Hs : seen_parents start).
  { unfold start, seen_parents. destruct head; cbn; split; try apply list.NoDup_singleton; try apply base.NoDup_nil_2; set_solver. }
  destruct (add_parents_inv _ _ _ Hs E) as ([_ Hn] & Hin & [tl Htl] & Hlen). split_and!.
  - done.
  - intros p. rewrite Hin. unfold start. destruct head; cbn; set_solver.
  - intros h ->. exists tl. done.
  - apply Hlen. unfold start, MAX_PARENTS_PER_ENTRY. destruct head; cbn; lia.
Qed.

(** ** The abstract log *)

Definition log_get (log : list JEntry) (id : EntryHash) : option JEntry :=
  find (fun e => bool_decide (eid e = id)) log.

Definition log_head (log : list JEntry) (act : Z) : option JEntry :=
  list.last (List.filter (fun e => (actor (edata e) =? act)%Z) log).

Lemma log_get_app l k id : log_get (l ++ k) id = match log_get l id with Some e => Some e | None => log_get k id end.
Proof. unfold log_get. induction l as [|e l IH]; [done|]. cbn. case_split; done. Qed.

Lemma log_get_In log id e : log_get log id = Some e -> In e log /\ eid e = id.
Proof.
  unfold log_get. intros H. apply find_some in H as [Hin He]. apply bool_decide_eq_true in He. done.
Qed.

Lemma log_get_None log id : log_get log id = None <-> id ∉ map eid log.
Proof.
  unfold log_get. induction log as [|e log IH]; [set_solver|]. cbn. case_bool_decide as Hd.
  - split; [done|]. set_solver.
  - rewrite IH. set_solver.
Qed.

Lemma log_get_self log e : NoDup (map eid log) -> In e log -> log_get log (eid e) = Some e.
Proof.
  induction log as [|x log IH]; intros Hn Hin; [done|]. cbn [map] in Hn. apply list.NoDup_cons in Hn as [Hx Hn].
  unfold log_get. cbn. case_bool_decide as Hd.
  - destruct Hin as [->|Hin]; [done|]. exfalso. apply Hx. rewrite Hd. apply list_elem_of_In, in_map. done.
  - destruct Hin as [->|Hin]; [done|]. apply IH; done.
Qed.

Lemma log_head_app l e act : log_head (l ++ [e]) act
  = if (actor (edata e) =? act)%Z then Some e else log_head l act.
Proof.
  unfold log_head. rewrite List.filter_app. cbn. case_split; [|rewrite app_nil_r; done].
  rewrite last_snoc. done.
Qed.

Lemma log_head_In log act e : log_head log act = Some e -> In e log /\ actor (edata e) = act.
Proof.
  unfold log_head. intros H. apply last_Some_elem_of, list_elem_of_In, filter_In in H as [Hin Ha].
  apply Z.eqb_eq in Ha. done.
Qed.

(** ** Refinement: the journal represents a log *)

Record represents (st : JournalState) (log : list JEntry) : Prop := {
  r_order : order st ++ overlay_order st = map eid log;
  r_lookup : forall id, state_lookup st id = log_get log id;
  r_heads : forall a, heads st !! a = option_map eid (log_head log a);
  r_nodup : NoDup (map eid log) }.

Lemma represents_equiv st st' log : st ≈ st' -> represents st log -> represents st' log.
Proof. intros [H1 H2 H3] [R1 R2 R3 R4]. split; [congruence| |congruence|done]. intros id. rewrite <- H1. apply R2. Qed.

Lemma insert_represents st log act e : represents st log -> actor (edata e) = act ->
  log_get log (eid e) = None -> represents (insert_entry st act e) (log ++ [e]).
Proof.
  intros [R1 R2 R3 R4] Ha Hf. split.
  - cbn. rewrite app_assoc, R1, map_app. done.
  - intros id. rewrite lookup_insert_entry, log_get_app, R2. case_decide as Hd.
    + subst id. rewrite Hf. unfold log_get. cbn. rewrite bool_decide_true by done. done.
    + destruct (log_get log id); [done|]. unfold log_get. cbn. rewrite bool_decide_false by done. done.
  - intros a. cbn. rewrite log_head_app, Ha. destruct (Z.eqb_spec act a) as [->|].
    + rewrite lookup_insert_eq. done.
    + rewrite lookup_insert_ne by done. apply R3.
  - rewrite map_app. apply list.NoDup_app. split_and!; [done| |apply list.NoDup_singleton].
    intros id Hin. cbn. apply log_get_None in Hf. set_solver.
Qed.

Section Journal.
Variable blake3 : list byte -> list byte.

(** Appending to a log: the parents are the actor's last entry and the observed ones, the clock
    joins all their clocks and counts the new entry, the sequence follows the actor's last. *)
Definition log_append (log : list JEntry) (k : EntryKind) (act : Z) (observed : list EntryHash)
    (pl : EntryPayload) : result JournalError JEntry :=
  let head := log_head log act in
  let? ps := assemble_parents (option_map eid head) observed None in
  let? clock := merge_parents (log_get log) [] ps in
  let seq := match head with Some e => saturating_add (sequence (edata e)) 1 | None => 0 end in
  entry_new blake3 (mkEntryData FORMAT_VERSION k act ps [] seq pl) (incremented clock act).

(** ** What an append computes, from a lookup function and the actor's head *)

Definition append_core (get : EntryHash -> option JEntry) (head : option EntryHash) (k : EntryKind) (act : Z)
    (observed : list EntryHash) (pl : EntryPayload) : result JournalError (JEntry * nat * list byte) :=
  let? ps := assemble_parents head observed None in
  let? seq :=
    match head with
    | Some h => let? e := ok_or (get h) (MissingParent h) in Ok (saturating_add (sequence (edata e)) 1)
    | None => Ok 0
    end in
  let? clock := merge_parents get [] ps in
  new_with_scratch_recorded blake3 (mkEntryData FORMAT_VERSION k act ps [] seq pl) (incremented clock act).

Lemma append_core_ext get get' head k act obs pl : (forall id, get id = get' id) ->
  append_core get head k act obs pl = append_core get' head k act obs pl.
Proof.
  intros H. unfold append_core. destruct (assemble_parents _ _ _) as [ps|]; [|done].
  destruct head as [h|]; [rewrite H|]; rewrite (merge_parents_ext _ get') by done; done.
Qed.

(** The single-parent shortcut is the general merge. *)
Lemma single_parent get (p : EntryHash) :
  merge_parents get [] [p] = let? e := ok_or (get p) (MissingParent p) in Ok (eclock e).
Proof. cbn. destruct (get p); done. Qed.

(** What is left once parents, sequence and clock agree. *)
Ltac finish_new := destruct (new_with_scratch_recorded _ _ _) as [[[? ?] ?]|]; done.

Lemma append_core_eq bu st k act obs pl :
  append blake3 bu st k act obs pl =
  let? '(e, _, _) := append_core (state_lookup st) (heads st !! act) k act obs pl in
  Ok (eid e, freeze_if_full bu (insert_entry st act e)).
Proof.
  unfold append, append_core, entry_new. cbv zeta.
  destruct (assemble_parents (heads st !! act) obs None) as [ps|] eqn:Ea; [|done].
  apply assemble_parents_spec in Ea as (_ & _ & Hhd & _).
  destruct (heads st !! act) as [h|].
  - destruct (Hhd h eq_refl) as [tl ->].
    destruct (state_lookup st h) as [he|] eqn:Eh; cbn [ok_or]; [|done].
    destruct tl as [|q tl]; cbn [length Nat.eqb].
    + rewrite single_parent, Eh. cbn [ok_or]. finish_new.
    + destruct (merge_parents _ _ _); [|done]. finish_new.
  - destruct ps as [|p [|q ps]]; cbn [length Nat.eqb].
    + cbn [merge_parents]. finish_new.
    + rewrite single_parent. destruct (state_lookup st p); cbn [ok_or]; [|done].
      finish_new.
    + destruct (merge_parents _ _ _); [|done]. finish_new.
Qed.

Definition chain_of (ids : list EntryHash) (spec : BatchEntry) : list EntryHash :=
  b_observed spec ++ option_list (if b_chain spec then list.last ids else None).

Definition frame_of (spec : BatchEntry) (p : JEntry * nat * list byte) : EntryFrame :=
  let '(e, n, s) := p in mkFrame (eid e) n s (kind_is_fault_relevant (b_kind spec)).

Lemma batch_step_eq st ids spec :
  batch_step blake3 st ids spec =
  let? p := append_core (state_lookup st) (heads st !! b_actor spec) (b_kind spec) (b_actor spec)
              (chain_of ids spec) (b_payload spec) in
  Ok (eid p.1.1, frame_of spec p, insert_entry st (b_actor spec) p.1.1).
Proof.
  unfold batch_step, append_core, chain_of. cbv zeta. rewrite assemble_parents_chain.
  set (obs := b_observed spec ++ _). clearbody obs.
  destruct (assemble_parents (heads st !! b_actor spec) obs None) as [ps|] eqn:Ea; [|done].
  apply assemble_parents_spec in Ea as (_ & _ & Hhd & _).
  destruct (heads st !! b_actor spec) as [h|].
  - destruct (Hhd h eq_refl) as [tl ->].
    destruct (state_lookup st h) as [he|] eqn:Eh; cbn [ok_or]; [|done].
    destruct tl as [|q tl]; cbn [length Nat.eqb].
    + rewrite single_parent, Eh. cbn [ok_or]. finish_new.
    + destruct (merge_parents _ _ _); [|done]. finish_new.
  - destruct ps as [|p [|q ps]]; cbn [length Nat.eqb].
    + cbn [merge_parents]. finish_new.
    + rewrite single_parent. destruct (state_lookup st p); cbn [ok_or]; [|done].
      finish_new.
    + destruct (merge_parents _ _ _); [|done]. finish_new.
Qed.

(** ** The batch is the loop *)

(** Append the specs one by one with [append], stopping at the first error; [uniq] says for each
    call whether the base is shared. *)
Fixpoint append_each (uniq : nat -> bool) (st : JournalState) (ids : list EntryHash) (batch : list BatchEntry) :
    result JournalError (list EntryHash) * JournalState :=
  match batch with
  | [] => (Ok ids, st)
  | spec :: batch =>
      match append blake3 (uniq (length ids)) st (b_kind spec) (b_actor spec) (chain_of ids spec) (b_payload spec) with
      | Ok (id, st) => append_each uniq st (ids ++ [id]) batch
      | Err e => (Err e, st)
      end
  end.

Lemma batch_loop_each uniq batch : forall st st' ids frames, st ≈ st' ->
  let '(r, _, s) := batch_loop blake3 st ids frames batch in
  let '(r', s') := append_each uniq st' ids batch in r = r' /\ s ≈ s'.
Proof.
  induction batch as [|spec batch IH]; intros st st' ids frames He; [done|]. cbn [batch_loop append_each].
  rewrite batch_step_eq, append_core_eq. destruct He as [H1 H2 H3].
  rewrite (append_core_ext _ (state_lookup st')), H2 by done.
  destruct (append_core _ _ _ _ _ _) as [[[e n] s]|]; [|done]. cbn [fst].
  apply IH. rewrite freeze_if_full_equiv. apply insert_entry_proper; done.
Qed.

(** ** The journal refines the log *)

Lemma new_actor data clock e : entry_new blake3 data clock = Ok e -> edata e = data /\ eclock e = clock.
Proof.
  unfold entry_new, new_with_scratch_recorded. destruct (entry_encode data); [|done]. cbn. intros [= <-]. done.
Qed.

Lemma append_core_log st log k act obs pl : represents st log ->
  (let? '(e, _, _) := append_core (state_lookup st) (heads st !! act) k act obs pl in Ok e)
  = log_append log k act obs pl.
Proof.
  intros [R1 R2 R3 R4]. rewrite (append_core_ext _ (log_get log)) by done. unfold append_core, log_append.
  rewrite R3. cbv zeta. destruct (assemble_parents _ obs None) as [ps|] eqn:Ea; [|done].
  destruct (log_head log act) as [h|] eqn:Eh; cbn [option_map].
  - apply log_head_In in Eh as [Hin _]. rewrite (log_get_self log h R4 Hin). cbn [ok_or].
    destruct (merge_parents _ _ _); done.
  - destruct (merge_parents _ _ _); done.
Qed.

Lemma append_refines bu st log k act obs pl : represents st log ->
  match log_append log k act obs pl with
  | Ok e => exists st', append blake3 bu st k act obs pl = Ok (eid e, st')
            /\ (log_get log (eid e) = None -> represents st' (log ++ [e]))
  | Err x => append blake3 bu st k act obs pl = Err x
  end.
Proof.
  intros R. rewrite <- (append_core_log st log k act obs pl R), append_core_eq.
  destruct (append_core _ _ _ _ _ _) as [[[e n] s]|] eqn:E; [|done].
  eexists. split; [reflexivity|]. intros Hf. eapply represents_equiv; [symmetry; apply freeze_if_full_equiv|].
  apply insert_represents; [done| |done].
  pose proof (append_core_log st log k act obs pl R) as H. rewrite E in H. symmetry in H.
  unfold log_append in H. cbv zeta in H. run_match H;
    match goal with H : entry_new _ _ _ = Ok _ |- _ => apply new_actor in H as [-> _] end; done.
Qed.

End Journal.
