(* ===== verification/Causal.v ===== *)
(** * Causality of the journal

    The invariants of every log the journal can build: content addresses, parents before children,
    contiguous per-actor sequences, and vector clocks that characterise causal precedence. *)

From stdpp Require Import gmap.
From S2P Require Import Prelude Machine Cbor CborProofs ValueProofs Limits Value Path Entry OrdMap Clock Dag.

Open Scope Z_scope.

Section Causal.
Variable blake3 : list byte -> list byte.

(** ** Entries against the log before them *)

(** Number of entries of an actor. *)
Definition count (log : list JEntry) (act : Z) : Z :=
  Z.of_nat (length (List.filter (fun e => (actor (edata e) =? act)%Z) log)).

(** The component [k] of the join of the parents' clocks. *)
Definition parents_max (log : list JEntry) (ps : list EntryHash) (k : Z) : Z :=
  foldr (fun p m => Z.max (match log_get log p with Some e => clock_get (eclock e) k | None => 0 end) m) 0 ps.

Record entry_ok (log : list JEntry) (e : JEntry) : Prop := {
  ok_content : exists bytes, entry_encode (edata e) = Ok bytes
    /\ eid e = blake3 (bytes ++ clock_encode (eclock e));
  ok_nodup : NoDup (parents (edata e));
  ok_parents : forall p, p ∈ parents (edata e) -> exists pe, log_get log p = Some pe;
  ok_head : forall h, log_head log (actor (edata e)) = Some h -> eid h ∈ parents (edata e);
  ok_sequence : sequence (edata e) = count log (actor (edata e));
  ok_clock_wf : clock_wf (eclock e);
  ok_clock : forall k, clock_get (eclock e) k
    = parents_max log (parents (edata e)) k + (if (k =? actor (edata e))%Z then 1 else 0) }.

(** Logs built by appends whose content address was not taken. *)
Inductive log_reach : list JEntry -> Prop :=
| reach_nil : log_reach []
| reach_snoc log k act obs pl e : log_reach log -> log_append blake3 log k act obs pl = Ok e ->
    log_get log (eid e) = None -> log_reach (log ++ [e]).

(** The same with every entry checked against its prefix. *)
Inductive log_ok : list JEntry -> Prop :=
| ok_nil : log_ok []
| ok_snoc log e : log_ok log -> entry_ok log e -> log_get log (eid e) = None -> log_ok (log ++ [e]).

Lemma count_app l e a : count (l ++ [e]) a = count l a + (if (actor (edata e) =? a)%Z then 1 else 0).
Proof. unfold count. rewrite List.filter_app, length_app. cbn. case_split; cbn; lia. Qed.

Lemma count_length l a : 0 <= count l a <= Z.of_nat (length l).
Proof. unfold count. pose proof (List.filter_length_le (fun e => (actor (edata e) =? a)%Z) l). lia. Qed.

Lemma count_head_None l a : log_head l a = None -> count l a = 0.
Proof. unfold log_head, count. rewrite last_None. intros ->. done. Qed.

Lemma count_pos l f : In f l -> exists h, log_head l (actor (edata f)) = Some h.
Proof.
  intros Hin. destruct (log_head l (actor (edata f))) as [h|] eqn:E; [eauto|]. apply count_head_None in E.
  unfold count in E.
  assert (Hf : In f (List.filter (fun e => (actor (edata e) =? actor (edata f))%Z) l))
    by (apply filter_In; split; [done | apply Z.eqb_refl]).
  destruct (List.filter _ l); [done|]. cbn in E. lia.
Qed.

Lemma parents_max_bound l ps k b : 0 <= b ->
  (forall p e, p ∈ ps -> log_get l p = Some e -> clock_get (eclock e) k <= b) -> 0 <= parents_max l ps k <= b.
Proof.
  intros Hb H. induction ps as [|p ps IH]; cbn; [lia|].
  assert (IH' : 0 <= parents_max l ps k <= b) by (apply IH; set_solver).
  destruct (log_get l p) as [e|] eqn:E; [|unfold parents_max in *; lia].
  specialize (H p e ltac:(left) E). unfold parents_max in *. lia.
Qed.

Lemma parents_max_ge l ps k p e : p ∈ ps -> log_get l p = Some e -> clock_get (eclock e) k <= parents_max l ps k.
Proof.
  induction ps as [|q ps IH]; [set_solver|]. intros [->|Hp]%elem_of_cons Hg; cbn.
  - rewrite Hg. unfold parents_max. lia.
  - specialize (IH Hp Hg). unfold parents_max in *. lia.
Qed.

Lemma parents_max_witness l ps k : 0 < parents_max l ps k ->
  exists p e, p ∈ ps /\ log_get l p = Some e /\ clock_get (eclock e) k = parents_max l ps k.
Proof.
  induction ps as [|q ps IH]; cbn; [lia|]. intros H.
  destruct (Z.le_gt_cases (parents_max l ps k) (match log_get l q with Some e => clock_get (eclock e) k | None => 0 end)).
  - destruct (log_get l q) as [e|] eqn:E; [|unfold parents_max in *; lia].
    exists q, e. split_and!; [left | done |]. unfold parents_max in *. lia.
  - destruct IH as (p & e & Hp & Hg & He); [unfold parents_max in *; lia|].
    exists p, e. split_and!; [right; done | done |]. rewrite He. unfold parents_max in *. lia.
Qed.

Lemma log_ok_nodup l : log_ok l -> NoDup (map eid l).
Proof.
  induction 1 as [|l x Hl IH Hx Hf]; [apply base.NoDup_nil_2|]. rewrite map_app. apply list.NoDup_app.
  split_and!; [done| |apply list.NoDup_singleton]. apply log_get_None in Hf. cbn. intros id Hid. set_solver.
Qed.

(** The head of an actor carries its latest sequence number. *)
Lemma log_ok_head l a h : log_ok l -> log_head l a = Some h -> sequence (edata h) + 1 = count l a.
Proof.
  intros Hl. revert h; induction Hl as [|l e Hl IH He Hf]; intros h H; [done|].
  rewrite log_head_app in H. rewrite count_app. destruct (Z.eqb_spec (actor (edata e)) a) as [<-|].
  - simplify_eq. rewrite (ok_sequence _ _ He). done.
  - rewrite Z.add_0_r. apply IH. done.
Qed.

(** No clock counts more entries of an actor than there are. *)
Lemma clock_le_count l e k : log_ok l -> In e l -> clock_get (eclock e) k <= count l k.
Proof.
  intros Hl. revert e; induction Hl as [|l x Hl IH Hx Hf]; intros e Hin; [done|].
  rewrite count_app. apply in_app_iff in Hin as [Hin|[<-|[]]].
  - specialize (IH e Hin). case_split; lia.
  - rewrite (ok_clock _ _ Hx). pose proof (count_length l k) as Hc.
    assert (0 <= parents_max l (parents (edata x)) k <= count l k).
    { apply parents_max_bound; [lia|]. intros p pe Hp Hg. apply log_get_In in Hg as [Hg _]. apply IH. done. }
    rewrite (Z.eqb_sym k). lia.
Qed.

(** An entry counts itself and all its actor's earlier entries. *)
Lemma clock_self l e : log_ok l -> In e l -> clock_get (eclock e) (actor (edata e)) = sequence (edata e) + 1.
Proof.
  intros Hl. revert e; induction Hl as [|l x Hl IH Hx Hf]; intros e Hin; [done|].
  apply in_app_iff in Hin as [Hin|[<-|[]]]; [apply IH; done|].
  rewrite (ok_clock _ _ Hx), Z.eqb_refl, (ok_sequence _ _ Hx). f_equal.
  assert (Hb : 0 <= parents_max l (parents (edata x)) (actor (edata x)) <= count l (actor (edata x))).
  { apply parents_max_bound; [pose proof (count_length l (actor (edata x))); lia|].
    intros p pe Hp Hg. apply log_get_In in Hg as [Hg _]. apply clock_le_count; done. }
  destruct (log_head l (actor (edata x))) as [h|] eqn:Eh.
  - pose proof (log_ok_head l _ h Hl Eh) as Hseq. pose proof (ok_head _ _ Hx h Eh) as Hp.
    apply log_head_In in Eh as [Hin Ha]. destruct (ok_parents _ _ Hx _ Hp) as [h' Hg].
    assert (h' = h) as ->.
    { rewrite (log_get_self l h (log_ok_nodup l Hl) Hin) in Hg. congruence. }
    pose proof (parents_max_ge l _ (actor (edata x)) _ _ Hp Hg) as Hge.
    specialize (IH h Hin). rewrite Ha in IH. lia.
  - apply count_head_None in Eh. lia.
Qed.

(** ** Building: every reachable log is in order *)

Lemma merge_parents_spec log ps : forall clock c, clock_wf clock ->
  (forall e, In e log -> clock_wf (eclock e)) -> merge_parents (log_get log) clock ps = Ok c ->
  clock_wf c /\ (forall p, p ∈ ps -> exists e, log_get log p = Some e)
  /\ forall k, clock_get c k = Z.max (clock_get clock k) (parents_max log ps k).
Proof.
  induction ps as [|p ps IH]; intros clock c Hc Hw H; cbn [merge_parents] in H.
  - simplify_eq. split_and!; [done | set_solver |]. intros k. pose proof (clock_get_range c k Hc). cbn. lia.
  - destruct (log_get log p) as [e|] eqn:E; cbn [ok_or] in H; [|done].
    assert (He : clock_wf (eclock e)) by (apply Hw; apply log_get_In in E; tauto).
    apply IH in H as (Hwc & Hps & Hg); [|auto with mach|done]. split_and!; [done | |].
    + intros q [->|Hq]%elem_of_cons; [eauto | auto].
    + intros k. rewrite Hg, merge_get by done. cbn. rewrite E. unfold parents_max. lia.
Qed.

Lemma log_ok_clocks l e : log_ok l -> In e l -> clock_wf (eclock e).
Proof.
  intros Hl. induction Hl as [|l x Hl IH Hx Hf]; intros Hin; [done|].
  apply in_app_iff in Hin as [Hin|[<-|[]]]; [auto | apply (ok_clock_wf _ _ Hx)].
Qed.

(** One append: the new entry is in order after a log that is, as long as the log is shorter
    than [u64::MAX]. *)
Lemma log_append_ok log k act obs pl e : log_ok log -> Z.of_nat (length log) < u64_max ->
  log_append blake3 log k act obs pl = Ok e -> entry_ok log e.
Proof.
  intros Hl Hlen H. unfold log_append in H. cbv zeta in H.
  destruct (assemble_parents _ obs None) as [ps|] eqn:Ea; [|done].
  destruct (merge_parents _ [] ps) as [c|] eqn:Em; [|done].
  apply assemble_parents_spec in Ea as (Hn & Hin & Hhd & Hcap).
  apply merge_parents_spec in Em as (Hcw & Hps & Hc); [|split; constructor | intros; eapply log_ok_clocks; eauto].
  pose proof H as Hnew. apply new_actor in Hnew as [Hd Hk].
  pose proof (count_length log act) as Hcount. pose proof (incremented_wf c act Hcw) as Hiw.
  assert (Hb : forall k, 0 <= parents_max log ps k <= count log k).
  { intros k'. apply parents_max_bound; [apply count_length|]. intros p pe _ Hg. apply log_get_In in Hg as [Hg _].
    apply clock_le_count; done. }
  split; rewrite ?Hd, ?Hk; cbn [parents actor sequence]; try done.
  - unfold entry_new, new_with_scratch_recorded in H. destruct (entry_encode _) as [b|] eqn:Ee; [|done].
    cbn [map_err] in H. apply Ok_inj in H. exists b. rewrite <- H. done.
  - intros h Hh. apply Hin. left. rewrite Hh. done.
  - destruct (log_head log act) as [h|] eqn:Eh.
    + apply log_ok_head in Eh; [|done]. unfold saturating_add. lia.
    + apply count_head_None in Eh. lia.
  - intros k'. rewrite incremented_get, Hc by done. specialize (Hb act) as Hba. rewrite Hc.
    change (clock_get [] act) with 0. change (clock_get [] k') with 0. specialize (Hb k').
    destruct (Z.eqb_spec k' act) as [->|]; [|lia]. unfold saturating_add. lia.
Qed.

Lemma log_reach_ok log : log_reach log -> Z.of_nat (length log) <= u64_max -> log_ok log.
Proof.
  induction 1 as [|log k act obs pl e Hl IH He Hf]; intros Hlen; [constructor|].
  rewrite length_app in Hlen. cbn in Hlen.
  constructor; [apply IH; lia | | done]. eapply log_append_ok; [apply IH; lia | lia | exact He].
Qed.

(** ** Causal precedence *)

(** [f] is [e] or an ancestor of [e] through parent links. *)
Inductive precedes (log : list JEntry) : JEntry -> JEntry -> Prop :=
| prec_refl e : In e log -> precedes log e e
| prec_step f p e : In e log -> In p log -> eid p ∈ parents (edata e) -> precedes log f p -> precedes log f e.

Lemma precedes_app log x f e : precedes log f e -> precedes (log ++ [x]) f e.
Proof.
  induction 1 as [e Hin|f p e He Hp Hpar _ IH]; [apply prec_refl, in_or_app; tauto|].
  eapply prec_step; [| |exact Hpar|exact IH]; apply in_or_app; tauto.
Qed.

(** A clock that counts an entry comes causally after it. *)
Lemma counted_precedes l : log_ok l -> forall e f, In e l -> In f l ->
  sequence (edata f) < clock_get (eclock e) (actor (edata f)) -> precedes l f e.
Proof.
  induction 1 as [|l x Hl IH Hx Hf]; intros e f He Hfin Hlt; [done|].
  apply in_app_iff in He as [He|[<-|[]]], Hfin as [Hfin|[<-|[]]].
  - apply precedes_app, IH; done.
  - (* an older clock cannot count the newest entry *)
    exfalso. pose proof (clock_le_count l e (actor (edata x)) Hl He). rewrite (ok_sequence _ _ Hx) in Hlt. lia.
  - assert (Hvia : forall p, In p l -> eid p ∈ parents (edata x) ->
      sequence (edata f) < clock_get (eclock p) (actor (edata f)) -> precedes (l ++ [x]) f x).
    { intros p Hp Hpar Hs. eapply prec_step; [apply in_or_app; right; left; done | apply in_or_app; left; exact Hp
        | exact Hpar | apply precedes_app, IH; done]. }
    rewrite (ok_clock _ _ Hx) in Hlt. destruct (Z.eqb_spec (actor (edata f)) (actor (edata x))) as [Ea|Ea].
    + destruct (count_pos l f Hfin) as [h Hh]. pose proof (log_ok_head l _ h Hl Hh) as Hseq.
      pose proof Hh as [Hin Ha]%log_head_In. apply (Hvia h Hin).
      * apply (ok_head _ _ Hx). rewrite <- Ea. done.
      * pose proof (clock_self l h Hl Hin) as Hs. rewrite Ha in Hs.
        pose proof (clock_le_count l f (actor (edata f)) Hl Hfin). pose proof (clock_self l f Hl Hfin). lia.
    + assert (H0 : 0 <= sequence (edata f)).
      { pose proof (clock_self l f Hl Hfin). pose proof (log_ok_clocks l f Hl Hfin) as Hw.
        pose proof (clock_get_range _ (actor (edata f)) Hw).
        assert (Hs : forall g, In g l -> 0 <= sequence (edata g)).
        { clear -Hl. induction Hl as [|l x Hl IH Hx Hf]; intros g Hg; [done|].
          apply in_app_iff in Hg as [Hg|[<-|[]]]; [auto|]. rewrite (ok_sequence _ _ Hx). apply count_length. }
        apply Hs. done. }
      destruct (parents_max_witness l (parents (edata x)) (actor (edata f))) as (p & pe & Hp & Hg & Hm); [lia|].
      pose proof Hg as [Hin He]%log_get_In. apply (Hvia pe Hin); [rewrite He; done | lia].
  - apply prec_refl, in_or_app. right. left. done.
Qed.

(** A parent's clock is below its child's. *)
Lemma parent_clock_le l p e k : log_ok l -> In e l -> In p l -> eid p ∈ parents (edata e) ->
  clock_get (eclock p) k <= clock_get (eclock e) k.
Proof.
  intros Hl. revert p e. induction Hl as [|l x Hl IH Hx Hf]; intros p e He Hp Hpar; [done|].
  assert (Hcase : In e l \/ e = x) by (apply in_app_iff in He as [?|[?|[]]]; auto).
  destruct Hcase as [Hel | ->].
  - apply in_app_iff in Hp as [Hp|[<-|[]]]; [apply IH; done|]. exfalso.
    (* parents are older than the entry, and [x] is new *)
    clear -Hl Hel Hpar Hf.
    assert (Hex : forall e, In e l -> eid x ∈ parents (edata e) -> exists pe, log_get l (eid x) = Some pe).
    { clear -Hl. revert x. induction Hl as [|l y Hl IH Hy Hf]; intros x e He Hp; [done|].
      rewrite log_get_app. apply in_app_iff in He as [He|[<-|[]]].
      - destruct (IH x e He Hp) as [pe ->]. eauto.
      - destruct (ok_parents _ _ Hy _ Hp) as [pe ->]. eauto. }
    destruct (Hex e Hel Hpar) as [pe E]. congruence.
  - rewrite (ok_clock _ _ Hx). destruct (ok_parents _ _ Hx _ Hpar) as [pe Hg].
    assert (In p l) as Hp'.
    { apply in_app_iff in Hp as [Hp|[<-|[]]]; [done|]. congruence. }
    rewrite (log_get_self l p (log_ok_nodup l Hl) Hp') in Hg. injection Hg as <-.
    pose proof (parents_max_ge l _ k _ _ Hpar (log_get_self l p (log_ok_nodup l Hl) Hp')). case_split; lia.
Qed.

Lemma precedes_clock l f e k : log_ok l -> precedes l f e -> clock_get (eclock f) k <= clock_get (eclock e) k.
Proof.
  intros Hl. induction 1 as [e He|f p e He Hp Hpar _ IH]; [lia|].
  pose proof (parent_clock_le l p e k Hl He Hp Hpar). lia.
Qed.

Lemma precedes_In l f e : precedes l f e -> In f l /\ In e l.
Proof. induction 1; naive_solver. Qed.

Lemma causality log f e : log_ok log -> In f log -> In e log ->
  precedes log f e <-> happens_before_or_equal (eclock f) (eclock e) = true.
Proof.
  intros Hl Hf He. rewrite happens_before_or_equal_spec by (eapply log_ok_clocks; eauto). split.
  - intros Hp k. eapply precedes_clock; eauto.
  - intros H. apply counted_precedes; [done..|]. specialize (H (actor (edata f))).
    rewrite (clock_self log f Hl Hf) in H. lia.
Qed.

(** ** Reachable journals *)

(** The operations of the journal, each new content address not taken before. *)
Inductive journal_reach : JournalState -> Prop :=
| jr_new : journal_reach journal_new
| jr_fork st : journal_reach st -> journal_reach (fork st)
| jr_append bu st k act obs pl id st' : journal_reach st ->
    append blake3 bu st k act obs pl = Ok (id, st') -> state_lookup st id = None -> journal_reach st'
| jr_batch bu st batch r frames st' : journal_reach st -> append_batch blake3 bu st batch = (r, frames, st') ->
    NoDup (map f_id frames) -> (forall id, id ∈ map f_id frames -> state_lookup st id = None) -> journal_reach st'.

Lemma represents_new : represents journal_new [].
Proof. split; try done. apply base.NoDup_nil_2. Qed.

Lemma represents_entries st log : represents st log -> entries st = log.
Proof.
  intros [R1 R2 _ R4]. unfold entries. rewrite R1. clear R1.
  assert (H : forall l, (forall e, In e l -> In e log) -> omap (state_lookup st) (map eid l) = l).
  { induction l as [|e l IH]; intros Hl; [done|]. cbn [map omap list_omap].
    rewrite R2, (log_get_self log e R4) by (apply Hl; left; done). f_equal. apply IH. intros; apply Hl; right; done. }
  apply H. done.
Qed.

(** A batch extends the log by the entries of its frames. *)
Lemma batch_loop_represents batch : forall st log ids frames r frames' st',
  represents st log -> log_reach log -> batch_loop blake3 st ids frames batch = (r, frames', st') ->
  exists new, frames' = frames ++ new
  /\ (NoDup (map f_id new) -> (forall id, id ∈ map f_id new -> log_get log id = None) ->
      exists log', represents st' log' /\ log_reach log').
Proof.
  induction batch as [|spec batch IH]; intros st log ids frames r frames' st' R Hr H; cbn [batch_loop] in H.
  - simplify_eq. exists []. rewrite app_nil_r. eauto.
  - rewrite batch_step_eq in H.
    pose proof (append_core_log blake3 st log (b_kind spec) (b_actor spec) (chain_of ids spec) (b_payload spec) R) as Hlog.
    destruct (append_core _ _ _ _ _ _ _) as [[[e n] sc]|]; cbn [fst] in H; [|simplify_eq; exists []; rewrite app_nil_r; eauto].
    symmetry in Hlog.
    assert (Ha : actor (edata e) = b_actor spec).
    { unfold log_append in Hlog. cbv zeta in Hlog. run_match Hlog;
        match goal with H : entry_new _ _ _ = Ok _ |- _ => apply new_actor in H as [-> _] end; done. }
    destruct (decide (log_get log (eid e) = None)) as [Hf|Hf].
    + apply (IH _ (log ++ [e])) in H as (new & -> & Hnew);
        [|apply insert_represents; done | eapply reach_snoc; eauto].
      exists (frame_of spec (e, n, sc) :: new). split; [rewrite <- app_assoc; done|]. cbn [map frame_of f_id].
      intros [Hni Hnd]%list.NoDup_cons Hfresh. apply Hnew; [done|]. intros id Hid.
      rewrite log_get_app, Hfresh by (right; done). unfold log_get. cbn.
      rewrite bool_decide_false; [done|]. intros <-. done.
    + (* the content address was taken: the premise on the frames fails *)
      assert (Hfr : exists new, frames' = frames ++ frame_of spec (e, n, sc) :: new).
      { clear -H. revert H. generalize (insert_entry st (b_actor spec) e), (ids ++ [eid e]).
        intros st0 ids0 H. revert st0 ids0 frames H. generalize (frame_of spec (e, n, sc)).
        induction batch as [|sp batch IH]; intros fr st0 ids0 frames H; cbn [batch_loop] in H.
        - simplify_eq. exists []. done.
        - rewrite batch_step_eq in H. destruct (append_core _ _ _ _ _ _ _) as [p|]; [|simplify_eq; exists []; done].
          destruct (IH (frame_of sp p) _ _ _ H) as [new ->]. rewrite <- !app_assoc. cbn. eauto. }
      destruct Hfr as [new ->]. eexists. split; [reflexivity|]. intros _ Hfresh. exfalso. apply Hf, Hfresh.
      cbn. left.
Qed.

Lemma journal_reach_represents st : journal_reach st -> exists log, log_reach log /\ represents st log.
Proof.
  induction 1 as [|st _ IH|bu st k act obs pl id st' _ (log & Hl & R) Ha Hf|bu st batch r frames st' _ (log & Hl & R) Hb Hn Hf].
  - exists []. split; [constructor | apply represents_new].
  - exact IH.
  - pose proof (append_refines blake3 bu st log k act obs pl R) as H.
    destruct (log_append blake3 log k act obs pl) as [e|] eqn:E; [|congruence].
    destruct H as (st1 & H1 & H2). rewrite Ha in H1. simplify_eq.
    rewrite (r_lookup _ _ R) in Hf. exists (log ++ [e]). split; [eapply reach_snoc; eauto | auto].
  - unfold append_batch in Hb. destruct batch as [|spec batch]; [simplify_eq; eauto|].
    destruct (batch_loop blake3 st [] [] (spec :: batch)) as [[r0 fr] st0] eqn:E.
    apply (batch_loop_represents _ _ log) in E as (new & -> & Hnew); [|done..]. cbn [app] in *.
    assert (Hfr : frames = new) by (destruct r0; simplify_eq; done). subst new.
    destruct Hnew as (log' & R' & Hr'); [done | intros id Hid; rewrite <- (r_lookup _ _ R); auto |].
    exists log'. split; [done|]. destruct r0; simplify_eq; [|done].
    eapply represents_equiv; [symmetry; apply freeze_if_full_equiv | done].
Qed.

(** *** Appends whose content address is new *)

Definition jids (j : JournalState) : list EntryHash := order j ++ overlay_order j.

Lemma append_jids bu j k act obs pl id j' : append blake3 bu j k act obs pl = Ok (id, j') -> jids j' = jids j ++ [id].
Proof.
  rewrite append_core_eq. destruct (append_core _ _ _ _ _ _ _) as [[[e n] s]|]; [|done]. intros H. apply Ok_inj in H.
  injection H as <- <-. unfold jids. rewrite (oe_order _ _ (freeze_if_full_equiv bu (insert_entry j act e))). cbn.
  by rewrite app_assoc.
Qed.

Lemma merge_parents_resolve get ps : forall clock c, merge_parents get clock ps = Ok c ->
  forall p, p ∈ ps -> exists e, get p = Some e.
Proof.
  induction ps as [|q ps IH]; intros clock c H p Hp; [by apply elem_of_nil in Hp|]. cbn in H.
  destruct (get q) as [e|] eqn:Eq; [|done]. cbn in H. apply elem_of_cons in Hp as [->|Hp]; [eauto|by eapply IH].
Qed.

(** The log after an append and the new entry: its kind, payload and actor, and its parents, the actor's last entry
    first and then the observed ones, all of them earlier. *)
Record extends (j' : JournalState) (log : list JEntry) (e : JEntry) (k : EntryKind) (act : Z) (obs : list EntryHash)
    (pl : EntryPayload) (id : EntryHash) : Prop := {
  ex_represents : represents j' (log ++ [e]);
  ex_reach : log_reach (log ++ [e]);
  ex_id : eid e = id;
  ex_get : log_get (log ++ [e]) id = Some e;
  ex_kind : kind (edata e) = k;
  ex_payload : payload (edata e) = pl;
  ex_actor : actor (edata e) = act;
  ex_observed : forall p, p ∈ obs -> p ∈ parents (edata e);
  ex_head : forall h, log_head log act = Some h -> exists tl, parents (edata e) = eid h :: tl;
  ex_parents : forall p, p ∈ parents (edata e) -> p ∈ map eid log }.

Lemma append_logs bu j log k act obs pl id j' : represents j log -> log_reach log ->
  append blake3 bu j k act obs pl = Ok (id, j') -> NoDup (jids j') ->
  exists e, extends j' log e k act obs pl id /\ id ∉ map eid log.
Proof.
  intros R Hl Ha Hn. pose proof (append_refines blake3 bu j log k act obs pl R) as H. rewrite (append_jids _ _ _ _ _ _ _ _ Ha) in Hn.
  destruct (log_append blake3 log k act obs pl) as [e|] eqn:E; [|congruence]. destruct H as (j1 & H1 & Hrep).
  rewrite Ha in H1. simplify_eq. apply list.NoDup_app in Hn as (_ & Hd & _).
  assert (Hnot : eid e ∉ map eid log).
  { rewrite <- (r_order _ _ R). intros Hin. apply (Hd _ Hin). left. }
  assert (Hf : log_get log (eid e) = None) by (by apply log_get_None).
  exists e. split; [|done]. pose proof E as E'. unfold log_append in E. cbv zeta in E.
  destruct (assemble_parents _ obs None) as [ps|] eqn:Ep; [|done].
  destruct (merge_parents _ [] ps) as [c|] eqn:Em; [|done]. apply new_actor in E as [Hdata _].
  apply assemble_parents_spec in Ep as (_ & Hps & Hhead & _).
  split; rewrite ?Hdata; cbn; [auto|by eapply reach_snoc|done| |done..| | |].
  - rewrite log_get_app, Hf. unfold log_get. cbn. by rewrite bool_decide_true.
  - intros p Hp. apply Hps. by right.
  - intros h Hh. apply Hhead. by rewrite Hh.
  - intros p Hp. destruct (merge_parents_resolve _ _ _ _ Em p Hp) as [x Hx]. apply log_get_In in Hx as [Hin <-].
    apply list_elem_of_In, in_map. done.
Qed.
End Causal.

Lemma NoDup_prefix {A} (l k : list A) : l `prefix_of` k -> NoDup k -> NoDup l.
Proof. intros [t ->] H. by apply list.NoDup_app in H as (? & _). Qed.

(** ** Theorems *)

(** C5: the journal is a log.  Every state the journal reaches through [append], [append_batch] and
    [fork], whenever its overlay was frozen, lists exactly the entries of an abstract append-only
    log built by [log_append]; every id resolves, and heads are the actors' last entries. *)
Theorem journal_refines_log blake3 st : journal_reach blake3 st ->
  exists log, log_reach blake3 log /\ represents st log /\ entries st = log.
Proof.
  intros (log & Hl & R)%journal_reach_represents. exists log. split; [done|]. split; [done|].
  apply represents_entries. done.
Qed.

(** An append on the journal is an append on the log it represents: the same entry, the same
    error, and on success the journal represents the longer log (unless the content address was
    already taken).  The single-parent shortcut and the freeze of the overlay are invisible. *)
Theorem append_refines_log blake3 bu st log k act obs pl : represents st log ->
  match log_append blake3 log k act obs pl with
  | Ok e => exists st', append blake3 bu st k act obs pl = Ok (eid e, st')
            /\ (log_get log (eid e) = None -> represents st' (log ++ [e]))
  | Err x => append blake3 bu st k act obs pl = Err x
  end.
Proof. apply append_refines. Qed.

(** C15: [append_batch] is the loop of [append].  It returns the same ids or the same error, and the
    state it leaves (the applied prefix on an error) is observationally that of appending the
    entries one by one, chained parents included, whatever overlay freezes happen on either side. *)
Theorem append_batch_is_loop blake3 bu uniq st batch :
  let '(r, _, s) := append_batch blake3 bu st batch in
  let '(r', s') := append_each blake3 uniq st [] batch in r = r' /\ s ≈ s'.
Proof.
  unfold append_batch. destruct batch as [|spec batch]; [done|].
  pose proof (batch_loop_each blake3 uniq (spec :: batch) st st [] [] (reflexivity st)) as H.
  destruct (batch_loop _ _ _ _ _) as [[r f] s]. destruct (append_each _ _ _ _ _) as [r' s'].
  destruct H as [-> H]. destruct r' as [ids|e]; split; try done. rewrite freeze_if_full_equiv. done.
Qed.

(** C14: journal invariants.  In a reachable journal of fewer than 2^64 entries every entry is stored
    under the hash of its own bytes, its parents are distinct and precede it, its actor's previous
    entry is among them, its sequence number counts its actor's earlier entries, and its clock is
    the join of its parents' clocks plus one for itself. *)
Theorem journal_invariants blake3 st l e r : journal_reach blake3 st ->
  Z.of_nat (length (entries st)) <= u64_max -> entries st = l ++ e :: r -> entry_ok blake3 l e.
Proof.
  intros (log & Hl & R)%journal_reach_represents Hlen He. rewrite (represents_entries st log R) in *. subst log.
  apply log_reach_ok in Hl; [|done]. clear -Hl.
  remember (l ++ e :: r) as log eqn:E. revert r E.
  induction Hl as [|log x Hl IH Hx Hf]; intros r E; [destruct l; done|].
  destruct r as [|y r _] using rev_ind.
  - apply app_inj_tail in E as [-> ->]. done.
  - rewrite app_comm_cons, app_assoc in E. apply app_inj_tail in E as [E _]. eapply IH. exact E.
Qed.

(** C6: clocks are causality.  In a reachable journal of fewer than 2^64 entries, one entry is an
    ancestor of another, or the same, exactly when its vector clock happens before or equals the
    other's: comparing clocks decides reachability in the DAG. *)
Theorem clocks_are_causality blake3 st f e : journal_reach blake3 st ->
  Z.of_nat (length (entries st)) <= u64_max -> In f (entries st) -> In e (entries st) ->
  precedes (entries st) f e <-> happens_before_or_equal (eclock f) (eclock e) = true.
Proof.
  intros (log & Hl & R)%journal_reach_represents Hlen Hf He.
  rewrite (represents_entries st log R) in *. eapply causality; [|done..]. apply log_reach_ok; done.
Qed.

(** *** A concrete journal: two actors, the second entry observing the first *)

(** A stand-in digest: a rolling checksum of the bytes, 32 times. *)
Definition roll_digest (l : list byte) : list byte :=
  repeat (z2b (foldl (fun acc b => (acc * 5 + b2z b + 1) mod 256) 7 l)) 32.

Definition logged (r : result JournalError JEntry) : JEntry :=
  match r with Ok e => e | Err _ => mkJEntry [] (mkEntryData 0 KSpawn 0 [] [] 0 (PSpawn 0)) [] end.

Definition first_entry : JEntry := logged (log_append roll_digest [] KEpoch 1 [] (PEpoch 5)).
Definition second_entry : JEntry :=
  logged (log_append roll_digest [first_entry] KClockRead 2 [eid first_entry] (PClockRead 9)).

Lemma first_appended : log_append roll_digest [] KEpoch 1 [] (PEpoch 5) = Ok first_entry.
Proof. reflexivity. Qed.

Lemma second_appended :
  log_append roll_digest [first_entry] KClockRead 2 [eid first_entry] (PClockRead 9) = Ok second_entry.
Proof. reflexivity. Qed.

Lemma sample_reach : exists st, journal_reach roll_digest st /\ entries st = [first_entry; second_entry].
Proof.
  pose proof (append_refines roll_digest true journal_new [] KEpoch 1 [] (PEpoch 5) represents_new) as H1.
  rewrite first_appended in H1. destruct H1 as (st1 & E1 & R1). specialize (R1 eq_refl). cbn [app] in R1.
  pose proof (append_refines roll_digest true st1 _ KClockRead 2 [eid first_entry] (PClockRead 9) R1) as H2.
  rewrite second_appended in H2. destruct H2 as (st2 & E2 & R2). 
  assert (Hf : log_get [first_entry] (eid second_entry) = None) by reflexivity. specialize (R2 Hf).
  exists st2. split; [|apply represents_entries; exact R2].
  eapply jr_append; [|exact E2|rewrite (r_lookup _ _ R1); exact Hf].
  eapply jr_append; [constructor | exact E1 | reflexivity].
Qed.

Lemma journal_refines_log_witness :
  exists st log, journal_reach roll_digest st /\ log_reach roll_digest log /\ entries st = log /\ length log = 2%nat.
Proof.
  destruct sample_reach as (st & Hr & He). exists st.
  destruct (journal_refines_log roll_digest st Hr) as (log & Hl & _ & E). exists log.
  split; [exact Hr|]. split; [exact Hl|]. split; [exact E|]. rewrite <- E, He. reflexivity.
Defined.

Lemma append_refines_log_witness :
  exists st', append roll_digest true journal_new KEpoch 1 [] (PEpoch 5) = Ok (eid first_entry, st')
  /\ represents st' [first_entry].
Proof.
  pose proof (append_refines_log roll_digest true journal_new [] KEpoch 1 [] (PEpoch 5) represents_new) as H.
  rewrite first_appended in H. destruct H as (st' & E & R). exists st'. split; [exact E | exact (R eq_refl)].
Defined.

Lemma journal_invariants_witness :
  exists st, journal_reach roll_digest st /\ entry_ok roll_digest [first_entry] second_entry
  /\ sequence (edata second_entry) = 0 /\ parents (edata second_entry) = [eid first_entry].
Proof.
  destruct sample_reach as (st & Hr & He). exists st. split; [exact Hr|]. split; [|split; reflexivity].
  apply (journal_invariants roll_digest st [first_entry] second_entry [] Hr);
    [rewrite He; vm_compute; discriminate | exact He].
Defined.

Lemma clocks_are_causality_witness :
  exists st, journal_reach roll_digest st /\ precedes (entries st) first_entry second_entry
  /\ ~ precedes (entries st) second_entry first_entry.
Proof.
  destruct sample_reach as (st & Hr & He). exists st. split; [exact Hr|].
  assert (Hl : Z.of_nat (length (entries st)) <= u64_max) by (rewrite He; vm_compute; discriminate).
  assert (H1 : In first_entry (entries st)) by (rewrite He; left; reflexivity).
  assert (H2 : In second_entry (entries st)) by (rewrite He; right; left; reflexivity).
  split.
  - apply (clocks_are_causality roll_digest st first_entry second_entry Hr Hl H1 H2). reflexivity.
  - intros Hp. apply (clocks_are_causality roll_digest st second_entry first_entry Hr Hl H2 H1) in Hp.
    vm_compute in Hp. discriminate Hp.
Defined.
