(* ===== verification/Monitor.v ===== *)
(** * The journal correctness monitor

    Models [ledger-journal/src/monitor.rs]: the audit of sequences, parents, parent kinds and clocks, the replay and
    coverage checks, and the order in which issues are reported.

    The iteration order of a [HashMap] is the parameter [iter] of [check_coverage]. *)

From stdpp Require Import gmap strings.
From Stdlib Require Import String.
From S2P Require Import Prelude Machine Cbor Limits Value Path Hex Frame Entry OrdMap Order Clock Dag.
From S2P Require Import Causal.

Open Scope Z_scope.

Inductive MonitorIssue : Type :=
| NonMonotonicSequenceIssue (actor expected actual : Z)
| MissingParentIssue (entry_id parent : EntryHash)
| ParentKindMismatch (entry_id : EntryHash) (expected_kind actual_kind : string)
| VectorClockMismatch (entry_id : EntryHash) (expected actual : VectorClock)
| ReplayDivergence (position : nat)
| CoverageMismatch (actor boundary_entries journal_entries : Z).

Record VerificationReport : Type := mkReport { entries_audited : nat; actors_count : nat; report_root : EntryHash }.

Definition kind_name (k : EntryKind) : string :=
  match k with
  | KSpawn => "Spawn" | KBlock => "Block" | KWake => "Wake" | KTimerSet => "TimerSet" | KTimerFire => "TimerFire"
  | KClockRead => "ClockRead" | KSend => "Send" | KRecv => "Recv" | KFsWrite => "FsWrite" | KFsFsync => "FsFsync"
  | KFsRead => "FsRead" | KRngDraw => "RngDraw" | KOutcome => "Outcome" | KAssert => "Assert" | KSnapshot => "Snapshot"
  | KEpoch => "Epoch" | KInputStep => "InputStep" | KCapRequest => "CapRequest" | KCapGrant => "CapGrant"
  | KCapInvoke => "CapInvoke" | KCapRevoke => "CapRevoke" | KFault => "Fault" | KStepBegin => "StepBegin"
  | KStepEnd => "StepEnd"
  end.

(** ** The order of issues *)

Definition cmp_bytes (l k : list byte) : comparison := cmp_list (fun x y => b2z x ?= b2z y) l k.

Definition cmp_clock (left right : VectorClock) : comparison := cmp_list (cmp_pair Z.compare Z.compare) left right.

Definition issue_tag (i : MonitorIssue) : Z :=
  match i with
  | NonMonotonicSequenceIssue _ _ _ => 0
  | MissingParentIssue _ _ => 1
  | ParentKindMismatch _ _ _ => 2
  | VectorClockMismatch _ _ _ => 3
  | ReplayDivergence _ => 4
  | CoverageMismatch _ _ _ => 5
  end.

Definition cmp_issue (left right : MonitorIssue) : comparison :=
  then_cmp (issue_tag left ?= issue_tag right)
    (match left, right with
     | NonMonotonicSequenceIssue a e x, NonMonotonicSequenceIssue a' e' x' => then_cmp (then_cmp (a ?= a') (e ?= e')) (x ?= x')
     | MissingParentIssue e p, MissingParentIssue e' p' => then_cmp (cmp_bytes e e') (cmp_bytes p p')
     | ParentKindMismatch e x a, ParentKindMismatch e' x' a' =>
         then_cmp (then_cmp (cmp_bytes e e') (String.compare x x')) (String.compare a a')
     | VectorClockMismatch e x a, VectorClockMismatch e' x' a' =>
         then_cmp (then_cmp (cmp_bytes e e') (cmp_clock x x')) (cmp_clock a a')
     | ReplayDivergence p, ReplayDivergence p' => Nat.compare p p'
     | CoverageMismatch a b j, CoverageMismatch a' b' j' => then_cmp (then_cmp (a ?= a') (b ?= b')) (j ?= j')
     | _, _ => Eq
     end).

(** ** Audit *)

(** The kind of parent an entry of an observed value needs. *)
Definition expected_parent (k : EntryKind) : option string :=
  match k with KRecv => Some "Send"%string | KFsRead => Some "FsWrite"%string | KWake => Some "enabler"%string | _ => None end.

Definition is_enabler (k : EntryKind) : bool :=
  match k with KSend | KRecv | KFsWrite | KFsFsync | KTimerFire => true | _ => false end.

Definition parent_kind_ok (expected : string) (k : EntryKind) : bool :=
  if bool_decide (expected = "Send"%string) then bool_decide (k = KSend)
  else if bool_decide (expected = "FsWrite"%string) then bool_decide (k = KFsWrite)
  else is_enabler k.

(** The parent loop of [check_parent_kind]: [None] when a parent matched, else the last kind seen. *)
Fixpoint kind_loop (get : EntryHash -> option JEntry) (expected : string) (actual : string) (ps : list EntryHash) : option string :=
  match ps with
  | [] => Some actual
  | p :: ps =>
      match get p with
      | None => kind_loop get expected actual ps
      | Some pe => if parent_kind_ok expected (kind (edata pe)) then None else kind_loop get expected (kind_name (kind (edata pe))) ps
      end
  end.

Definition check_parent_kind (get : EntryHash -> option JEntry) (e : JEntry) : list MonitorIssue :=
  match expected_parent (kind (edata e)) with
  | None => []
  | Some expected =>
      match kind_loop get expected "none" (parents (edata e)) with
      | None => []
      | Some actual => [ParentKindMismatch (eid e) expected actual]
      end
  end.

(** The parent loop of [audit]: the merged clock, whether every parent resolved, and the issues. *)
Fixpoint audit_parents (get : EntryHash -> option JEntry) (id : EntryHash) (clock : VectorClock) (ps : list EntryHash) :
    VectorClock * bool * list MonitorIssue :=
  match ps with
  | [] => (clock, true, [])
  | p :: ps =>
      match get p with
      | Some pe => audit_parents get id (merge clock (eclock pe)) ps
      | None => let '(clock, _, issues) := audit_parents get id clock ps in (clock, false, MissingParentIssue id p :: issues)
      end
  end.

(** One turn of the loop of [audit]. *)
Definition audit_entry (get : EntryHash -> option JEntry) (actor_seqs : gmap Z Z) (e : JEntry) : list MonitorIssue * gmap Z Z :=
  let act := actor (edata e) in
  let expected := default 0 (actor_seqs !! act) in
  let sequence_issues := if (sequence (edata e) =? expected)%Z then [] else [NonMonotonicSequenceIssue act expected (sequence (edata e))] in
  let actor_seqs := <[act := expected + 1]> actor_seqs in
  let '(clock, parents_resolvable, parent_issues) := audit_parents get (eid e) [] (parents (edata e)) in
  let kind_issues := check_parent_kind get e in
  let clock_issues :=
    if parents_resolvable then
      let expected_clock := incremented clock act in
      if bool_decide (expected_clock = eclock e) then [] else [VectorClockMismatch (eid e) expected_clock (eclock e)]
    else [] in
  (sequence_issues ++ parent_issues ++ kind_issues ++ clock_issues, actor_seqs).

Fixpoint audit_loop (get : EntryHash -> option JEntry) (actor_seqs : gmap Z Z) (es : list JEntry) : list MonitorIssue :=
  match es with
  | [] => []
  | e :: es => let '(issues, actor_seqs) := audit_entry get actor_seqs e in issues ++ audit_loop get actor_seqs es
  end.

Definition audit (st : JournalState) : list MonitorIssue :=
  sort_by cmp_issue (audit_loop (state_lookup st) ∅ (entries st)).

(** The text of the error messages is left out. *)
Definition issue_to_error (i : MonitorIssue) : JournalError :=
  match i with
  | NonMonotonicSequenceIssue a e x => NonMonotonicSequence a e x
  | MissingParentIssue _ p => MissingParent p
  | ParentKindMismatch _ _ _ => InvariantViolation "entry requires another parent"
  | VectorClockMismatch _ _ _ => InvariantViolation "vector clock does not match recomputation"
  | ReplayDivergence _ => InvariantViolation "forked replay diverges from original"
  | CoverageMismatch _ _ _ => InvariantViolation "boundary and journal entries differ"
  end.

Definition verify (blake3 : list byte -> list byte) (st : JournalState) : result JournalError VerificationReport :=
  match audit st with
  | i :: _ => Err (issue_to_error i)
  | [] =>
      let actors : gset Z := list_to_set (map (fun e => actor (edata e)) (entries st)) in
      Ok (mkReport (journal_len st) (size actors) (root_hash blake3 st))
  end.

(** ** Replay and coverage *)

Fixpoint fidelity_loop (position : nat) (original fork : list EntryHash) : result (list MonitorIssue) unit :=
  match original, fork with
  | l :: original, r :: fork =>
      if bool_decide (l = r) then fidelity_loop (S position) original fork else Err [ReplayDivergence position]
  | [], [] => Ok tt
  | _, _ => Err [ReplayDivergence position]
  end.

Definition verify_replay_fidelity (original fork : JournalState) : result (list MonitorIssue) unit :=
  fidelity_loop 0 (map eid (entries original)) (map eid (entries fork)).

Definition journal_counts (es : list JEntry) : gmap Z Z :=
  foldl (fun m e => <[actor (edata e) := default 0 (m !! actor (edata e)) + 1]> m) ∅ es.

Definition reported_issue (counts : gmap Z Z) (r : Z * Z) : option MonitorIssue :=
  let actual := default 0 (counts !! r.1) in
  if (r.2 =? actual)%Z then None else Some (CoverageMismatch r.1 r.2 actual).

Definition unreported_issue (reported : gmap Z Z) (c : Z * Z) : option MonitorIssue :=
  match reported !! c.1 with Some _ => None | None => Some (CoverageMismatch c.1 0 c.2) end.

Definition check_coverage (iter : gmap Z Z -> list (Z * Z)) (st : JournalState) (boundary_entries : list (Z * Z)) : list MonitorIssue :=
  let counts := journal_counts (entries st) in
  let reported := foldl (fun m r => <[r.1 := r.2]> m) (∅ : gmap Z Z) boundary_entries in
  sort_by cmp_issue (omap (reported_issue counts) (iter reported) ++ omap (unreported_issue reported) (iter counts)).

(** ** The journal correctness monitor: correctness

    - An audit is clean exactly when sequences, parents, parent kinds and clocks are in order.
    - Journals built by appends only ever fail the parent-kind check, which [append] does not make.
    - The replay check finds the first difference; the coverage check does not depend on hash order. *)

(** ** One entry *)

Lemma audit_parents_spec get id ps : forall clock,
  match merge_parents get clock ps with
  | Ok c => audit_parents get id clock ps = (c, true, [])
  | Err _ => exists c iss, audit_parents get id clock ps = (c, false, iss) /\ iss <> []
  end.
Proof.
  induction ps as [|p ps IH]; intros clock; [done|]. cbn. destruct (get p) as [pe|]; cbn [ok_or mbind]; [apply IH|].
  destruct (audit_parents get id clock ps) as [[c b] iss]. eexists _, _. split; [reflexivity | done].
Qed.

(** An entry that observes a value has a parent of the kind that produces it. *)
Definition enabled (get : EntryHash -> option JEntry) (e : JEntry) : Prop :=
  forall expected, expected_parent (kind (edata e)) = Some expected ->
  exists p pe, p ∈ parents (edata e) /\ get p = Some pe /\ parent_kind_ok expected (kind (edata pe)) = true.

Lemma kind_loop_spec get expected ps : forall actual,
  kind_loop get expected actual ps = None
  <-> exists p pe, p ∈ ps /\ get p = Some pe /\ parent_kind_ok expected (kind (edata pe)) = true.
Proof.
  induction ps as [|p ps IH]; intros actual; cbn.
  - split; [done|]. intros (p & pe & Hp & _). apply elem_of_nil in Hp. done.
  - setoid_rewrite elem_of_cons. destruct (get p) as [pe|] eqn:E.
    + destruct (parent_kind_ok expected (kind (edata pe))) eqn:Ek; [split; [|done]; intros _; exists p, pe; auto|].
      rewrite IH. split; [naive_solver|]. intros (q & qe & [->|Hq] & Hg & Hk); [congruence | eauto].
    + rewrite IH. split; [naive_solver|]. intros (q & qe & [->|Hq] & Hg & Hk); [congruence | eauto].
Qed.

Lemma check_parent_kind_spec get e : check_parent_kind get e = [] <-> enabled get e.
Proof.
  unfold check_parent_kind, enabled. destruct (expected_parent (kind (edata e))) as [expected|]; [|split; done].
  pose proof (kind_loop_spec get expected (parents (edata e)) "none") as H.
  destruct (kind_loop _ _ _ _) as [actual|].
  - split; [done|]. intros He. destruct H as [_ H]. specialize (H (He expected eq_refl)). done.
  - split; [|done]. intros _ x [= <-]. apply H. done.
Qed.

Lemma check_parent_kind_In get e i : In i (check_parent_kind get e) ->
  ~ enabled get e /\ exists expected actual, i = ParentKindMismatch (eid e) expected actual.
Proof.
  intros Hi. split.
  - intros He. apply check_parent_kind_spec in He. rewrite He in Hi. done.
  - unfold check_parent_kind in Hi. destruct (expected_parent _); [|done]. destruct (kind_loop _ _ _ _); [|done].
    destruct Hi as [<-|[]]. eauto.
Qed.

(** An entry after the entries [l]: its sequence number counts its actor's, its parents are there, its clock is theirs
    joined plus one, and what it observes was produced. *)
Record entry_clean (get : EntryHash -> option JEntry) (l : list JEntry) (e : JEntry) : Prop := {
  ec_sequence : sequence (edata e) = count l (actor (edata e));
  ec_clock : exists c, merge_parents get [] (parents (edata e)) = Ok c /\ eclock e = incremented c (actor (edata e));
  ec_enabled : enabled get e }.

Definition counts (seqs : gmap Z Z) (l : list JEntry) : Prop := forall a, default 0 (seqs !! a) = count l a.

Lemma counts_snoc seqs l e : counts seqs l ->
  counts (<[actor (edata e) := default 0 (seqs !! actor (edata e)) + 1]> seqs) (l ++ [e]).
Proof.
  intros H a. rewrite count_app. destruct (Z.eqb_spec (actor (edata e)) a) as [<-|Hn].
  - rewrite lookup_insert_eq. cbn. rewrite H. done.
  - rewrite lookup_insert_ne by done. rewrite H. lia.
Qed.

Lemma audit_entry_spec get seqs l e : counts seqs l ->
  let '(issues, seqs') := audit_entry get seqs e in counts seqs' (l ++ [e]) /\ (issues = [] <-> entry_clean get l e).
Proof.
  intros Hc. unfold audit_entry. rewrite Hc. pose proof (audit_parents_spec get (eid e) (parents (edata e)) []) as Hp.
  destruct (audit_parents _ _ _ _) as [[c b] iss] eqn:Ea.
  split; [rewrite <- Hc; apply counts_snoc; done|]. rewrite !app_nil. rewrite check_parent_kind_spec.
  destruct (merge_parents get [] (parents (edata e))) as [c'|x] eqn:Em.
  - injection Hp as -> -> ->. split.
    + intros (Hs & _ & Hk & Hck). destruct (Z.eqb_spec (sequence (edata e)) (count l (actor (edata e)))) as [Hse|]; [|done].
      destruct (bool_decide_reflect (incremented c' (actor (edata e)) = eclock e)) as [Hcl|]; [|done].
      split; [done | exists c'; done | done].
    + intros [H1 (c'' & Em' & H2) H3]. rewrite Em in Em'. injection Em' as <-. rewrite H1, Z.eqb_refl, H2, bool_decide_true by done. done.
  - destruct Hp as (c' & is' & [= -> -> ->] & Hne). split; [intros (_ & H & _); done|]. intros [_ (c'' & Em' & _) _]. congruence.
Qed.

Lemma audit_loop_spec get es : forall l seqs, counts seqs l ->
  audit_loop get seqs es = [] <-> forall es1 e es2, es = es1 ++ e :: es2 -> entry_clean get (l ++ es1) e.
Proof.
  induction es as [|e es IH]; intros l seqs Hc; cbn [audit_loop].
  - split; [|done]. intros _ es1 e es2 H. destruct es1; done.
  - pose proof (audit_entry_spec get seqs l e Hc) as He. destruct (audit_entry get seqs e) as [issues seqs'].
    destruct He as [Hc' He]. rewrite app_nil, He, (IH (l ++ [e]) seqs' Hc'). split.
    + intros [H1 H2] [|x es1] y es2 [= -> ->]; [rewrite app_nil_r; done|].
      specialize (H2 es1 y es2 eq_refl). rewrite <- app_assoc in H2. done.
    + intros H. split; [specialize (H [] e es eq_refl); rewrite app_nil_r in H; done|].
      intros es1 y es2 ->. rewrite <- app_assoc. apply (H (e :: es1) y es2). done.
Qed.

Lemma audit_loop_In get es i : forall l seqs, counts seqs l -> In i (audit_loop get seqs es) ->
  exists es1 e es2 seqs', es = es1 ++ e :: es2 /\ counts seqs' (l ++ es1) /\ In i (audit_entry get seqs' e).1.
Proof.
  induction es as [|e es IH]; intros l seqs Hc; cbn [audit_loop]; [done|].
  pose proof (audit_entry_spec get seqs l e Hc) as He. destruct (audit_entry get seqs e) as [issues seqs'] eqn:Ea. intros Hi.
  apply in_app_iff in Hi as [Hi|Hi].
  - exists [], e, es, seqs. rewrite app_nil_r, Ea. done.
  - destruct (IH (l ++ [e]) seqs' (proj1 He) Hi) as (es1 & y & es2 & s & -> & Hs & Hy). exists (e :: es1), y, es2, s.
    rewrite <- app_assoc in Hs. done.
Qed.

Lemma counts_empty : counts ∅ [].
Proof. intros a. rewrite lookup_empty. done. Qed.

(** ** Journals built by appends *)

Lemma merge_parents_more get get' ps : (forall id e, get id = Some e -> get' id = Some e) -> forall clock c,
  merge_parents get clock ps = Ok c -> merge_parents get' clock ps = Ok c.
Proof.
  intros H. induction ps as [|p ps IH]; intros clock c Hm; [done|]. cbn in *. destruct (get p) as [e|] eqn:E; [|done].
  rewrite (H p e E). cbn in *. apply IH. done.
Qed.

Section Reachable.
Variable blake3 : list byte -> list byte.

Lemma reach_split log l e r : log_reach blake3 log -> log = l ++ e :: r ->
  exists k act obs pl, log_append blake3 l k act obs pl = Ok e /\ log_reach blake3 l.
Proof.
  intros H. revert r. induction H as [|log k act obs pl x Hl IH Hx Hf]; intros r E; [destruct l; done|].
  destruct r as [|y r _] using rev_ind.
  - apply app_inj_tail in E as [-> ->]. eauto 8.
  - rewrite app_comm_cons, app_assoc in E. apply app_inj_tail in E as [E _]. eapply IH. exact E.
Qed.

Lemma appended_clock l k act obs pl e : log_append blake3 l k act obs pl = Ok e ->
  exists c, merge_parents (log_get l) [] (parents (edata e)) = Ok c /\ eclock e = incremented c (actor (edata e)).
Proof.
  intros H. unfold log_append in H. cbv zeta in H. destruct (assemble_parents _ obs None) as [ps|]; [|done]. cbn [mbind] in H.
  destruct (merge_parents _ _ ps) as [c|] eqn:Em; [|done]. cbn [mbind] in H. apply new_actor in H as [-> ->]. cbn. eauto.
Qed.

(** Everything but the parent kind is in order. *)
Lemma reach_entry_order st log l e r : represents st log -> log_reach blake3 log -> Z.of_nat (length log) <= u64_max ->
  log = l ++ e :: r -> sequence (edata e) = count l (actor (edata e))
  /\ exists c, merge_parents (state_lookup st) [] (parents (edata e)) = Ok c /\ eclock e = incremented c (actor (edata e)).
Proof.
  intros R Hr Hlen Hs. destruct (reach_split log l e r Hr Hs) as (k & act & obs & pl & Ha & Hl). split.
  - assert (Hll : Z.of_nat (length l) < u64_max) by (rewrite Hs, length_app in Hlen; cbn in Hlen; lia).
    apply (ok_sequence blake3). eapply log_append_ok; [|exact Hll | exact Ha]. apply log_reach_ok; [done | lia].
  - destruct (appended_clock l k act obs pl e Ha) as (c & Hm & Hc). exists c. split; [|done].
    eapply merge_parents_more; [|exact Hm]. intros id x Hx. rewrite (r_lookup _ _ R), Hs, log_get_app, Hx. done.
Qed.

Lemma reach_issues st log i : represents st log -> log_reach blake3 log -> Z.of_nat (length log) <= u64_max ->
  In i (audit st) -> exists e expected actual, In e log /\ ~ enabled (state_lookup st) e /\ i = ParentKindMismatch (eid e) expected actual.
Proof.
  intros R Hr Hlen Hi. unfold audit in Hi. rewrite sort_by_In, (represents_entries st log R) in Hi.
  destruct (audit_loop_In (state_lookup st) log i [] ∅ counts_empty Hi) as (es1 & e & es2 & seqs & Es & Hc & Hin).
  destruct (reach_entry_order st log es1 e es2 R Hr Hlen Es) as (Hs & c & Hm & Hck). cbn [app] in Hc.
  unfold audit_entry in Hin. rewrite (Hc (actor (edata e))), Hs, Z.eqb_refl in Hin.
  pose proof (audit_parents_spec (state_lookup st) (eid e) (parents (edata e)) []) as Hp. rewrite Hm in Hp. rewrite Hp in Hin.
  rewrite Hck, bool_decide_true in Hin by done. cbn [fst app] in Hin. rewrite app_nil_r in Hin.
  apply check_parent_kind_In in Hin as (Hne & expected & actual & ->). exists e, expected, actual. split_and!; [|done..].
  rewrite Es. apply in_app_iff. right. left. done.
Qed.
End Reachable.

(** ** Coverage *)

Lemma journal_counts_spec es : counts (journal_counts es) es /\ forall a c, journal_counts es !! a = Some c -> 0 < c.
Proof.
  unfold journal_counts. induction es as [|e es [IH1 IH2]] using rev_ind; [split; [apply counts_empty | intros a c; cbn [foldl]; rewrite lookup_empty; done]|].
  rewrite foldl_app. cbn [foldl]. split; [apply counts_snoc, IH1|]. intros a c Ha.
  destruct (decide (actor (edata e) = a)) as [<-|Hn].
  - rewrite lookup_insert_eq in Ha. injection Ha as <-. rewrite IH1. pose proof (count_length es (actor (edata e))). lia.
  - rewrite lookup_insert_ne in Ha by done. apply (IH2 a c Ha).
Qed.

(** The triple an issue of the coverage check carries. *)
Definition coverage_issue (t : Z * Z * Z) : MonitorIssue := CoverageMismatch t.1.1 t.1.2 t.2.

Definition reported_triple (counts : gmap Z Z) (r : Z * Z) : option (Z * Z * Z) :=
  let actual := default 0 (counts !! r.1) in if (r.2 =? actual)%Z then None else Some (r.1, r.2, actual).

Definition unreported_triple (reported : gmap Z Z) (c : Z * Z) : option (Z * Z * Z) :=
  match reported !! c.1 with Some _ => None | None => Some (c.1, 0, c.2) end.

Lemma omap_map {A B C} (f : A -> option B) (g : B -> C) (h : A -> option C) l : (forall x, h x = option_map g (f x)) ->
  omap h l = map g (omap f l).
Proof. intros H. induction l as [|x l IH]; [done|]. cbn. rewrite H. destruct (f x); cbn; rewrite IH; done. Qed.

Lemma check_coverage_triples iter st b :
  let counts := journal_counts (entries st) in
  let reported := foldl (fun m r => <[r.1 := r.2]> m) (∅ : gmap Z Z) b in
  check_coverage iter st b = map coverage_issue (sort_by (cmp_pair (cmp_pair Z.compare Z.compare) Z.compare)
    (omap (reported_triple counts) (iter reported) ++ omap (unreported_triple reported) (iter counts))).
Proof.
  cbv zeta. unfold check_coverage. rewrite <- (sort_by_map coverage_issue _ cmp_issue) by done.
  rewrite map_app. f_equal. f_equal; apply omap_map; intros [a n]; unfold reported_issue, reported_triple, unreported_issue, unreported_triple.
  - cbn. case_split; done.
  - cbn. destruct (_ !! a); done.
Qed.

Lemma coverage_In iter st b t : (forall m, iter m ≡ₚ map_to_list m) ->
  let reported := foldl (fun m r => <[r.1 := r.2]> m) (∅ : gmap Z Z) b in
  In (coverage_issue t) (check_coverage iter st b) <->
  (exists n, reported !! t.1.1 = Some n /\ n <> count (entries st) t.1.1 /\ t = (t.1.1, n, count (entries st) t.1.1))
  \/ (reported !! t.1.1 = None /\ 0 < count (entries st) t.1.1 /\ t = (t.1.1, 0, count (entries st) t.1.1)).
Proof.
  intros Hi. cbv zeta. rewrite check_coverage_triples. set (reported := foldl _ _ b).
  destruct (journal_counts_spec (entries st)) as [Hc Hpos].
  assert (Hin : In (coverage_issue t) (map coverage_issue (sort_by (cmp_pair (cmp_pair Z.compare Z.compare) Z.compare)
    (omap (reported_triple (journal_counts (entries st))) (iter reported) ++ omap (unreported_triple reported) (iter (journal_counts (entries st))))))
    <-> t ∈ omap (reported_triple (journal_counts (entries st))) (iter reported) \/ t ∈ omap (unreported_triple reported) (iter (journal_counts (entries st)))).
  { rewrite in_map_iff, <- elem_of_app. split.
    - intros (t' & E & H). rewrite sort_by_In in H. apply list_elem_of_In in H. destruct t as [[a n] m], t' as [[a' n'] m']. injection E as -> -> ->. done.
    - intros H. exists t. split; [done|]. rewrite sort_by_In. apply list_elem_of_In. done. }
  rewrite Hin, !list_elem_of_omap. clear Hin. destruct t as [[a n] m]. cbn [fst snd]. f_equiv.
  - split.
    + intros ([a' n'] & H & E). rewrite Hi in H. apply elem_of_map_to_list in H. unfold reported_triple in E. cbn in E.
      case_split_in E; [done|]. injection E as -> -> <-. bool_hyps. rewrite Hc in *. exists n. done.
    + intros (n' & H1 & H2 & [= -> ->]). exists (a, n'). rewrite Hi. split; [apply elem_of_map_to_list; done|].
      unfold reported_triple. cbn. rewrite !Hc. rewrite (proj2 (Z.eqb_neq _ _) H2). done.
  - split.
    + intros ([a' n'] & H & E). rewrite Hi in H. apply elem_of_map_to_list in H. unfold unreported_triple in E. cbn in E.
      destruct (reported !! a') eqn:Er; [done|]. injection E as -> <- ->. pose proof (Hpos _ _ H). specialize (Hc a). rewrite H in Hc. cbn in Hc.
      rewrite <- Hc. done.
    + intros (H1 & H2 & [= -> ->]). exists (a, count (entries st) a). specialize (Hc a). rewrite Hi.
      destruct (journal_counts (entries st) !! a) as [c|] eqn:Ej; cbn in Hc; [|lia]. subst c. split; [apply elem_of_map_to_list; done|].
      unfold unreported_triple. cbn. rewrite H1. done.
Qed.

(** ** Theorems *)

(** C32: an audit is clean exactly when the journal is in order.  For any journal state, however it came about, [audit] reports
    nothing if and only if every entry's sequence number counts its actor's earlier entries, its parents resolve, its clock is
    their join plus one, and a received, read or woken value has a parent that produced it. *)
Theorem audit_exact st : audit st = [] <-> forall l e r, entries st = l ++ e :: r -> entry_clean (state_lookup st) l e.
Proof. unfold audit. rewrite sort_by_nil. apply (audit_loop_spec (state_lookup st) (entries st) [] ∅ counts_empty). Qed.

(** The monitor accepts what the journal builds.  On every journal of fewer than 2^64 entries reached by appends, batches
    and forks, the only issues are missing producers of observed values, which appending does not check; [verify] succeeds
    exactly when there are none, and reports the number of entries and the root hash. *)
Theorem monitor_accepts_reachable blake3 st : journal_reach blake3 st -> Z.of_nat (length (entries st)) <= u64_max ->
  (forall i, In i (audit st) -> exists e expected actual, In e (entries st) /\ ~ enabled (state_lookup st) e
     /\ i = ParentKindMismatch (eid e) expected actual)
  /\ ((forall e, In e (entries st) -> enabled (state_lookup st) e) <-> exists report, verify blake3 st = Ok report
        /\ entries_audited report = length (entries st) /\ report_root report = root_hash blake3 st).
Proof.
  intros (log & Hl & R)%journal_reach_represents Hlen. pose proof (represents_entries st log R) as He. rewrite He in *.
  split; [intros i; apply (reach_issues blake3); done|]. unfold verify. split.
  - intros Hen. destruct (audit st) as [|i iss] eqn:Ea.
    + eexists. split; [reflexivity|]. cbn. unfold journal_len. rewrite <- length_app, (r_order _ _ R), length_map. done.
    + destruct (reach_issues blake3 st log i R Hl Hlen) as (e & ? & ? & Hin & Hne & _); [rewrite Ea; left; done|]. destruct (Hne (Hen e Hin)).
  - intros (report & Hv & _ & _) e Hin. apply in_split in Hin as (l & r & Es). apply (ec_enabled _ l).
    destruct (audit st) as [|i iss] eqn:Ea; [|done]. unfold audit in Ea. rewrite sort_by_nil in Ea.
    apply (proj1 (audit_loop_spec (state_lookup st) (entries st) [] ∅ counts_empty) Ea l e r). rewrite He. exact Es.
Qed.

(** The replay check compares the entry streams.  It passes exactly when both journals list the same ids, and otherwise
    names the position up to which they agree and at which they differ. *)
Theorem replay_fidelity_exact original fork :
  let ids := map eid (entries original) in
  let fork_ids := map eid (entries fork) in
  match verify_replay_fidelity original fork with
  | Ok _ => ids = fork_ids
  | Err issues => exists n, issues = [ReplayDivergence n] /\ take n ids = take n fork_ids /\ ids !! n <> fork_ids !! n
  end.
Proof.
  cbv zeta. unfold verify_replay_fidelity. generalize (map eid (entries original)) as l, (map eid (entries fork)) as k. intros l k.
  enough (H : forall n, match fidelity_loop n l k with
    | Ok _ => l = k
    | Err issues => exists m, issues = [ReplayDivergence (n + m)] /\ take m l = take m k /\ l !! m <> k !! m end) by apply (H 0%nat).
  revert k. induction l as [|x l IH]; intros [|y k] n; cbn [fidelity_loop]; try done;
    try (exists 0%nat; rewrite Nat.add_0_r; done).
  destruct (bool_decide_reflect (x = y)) as [->|Hn].
  - specialize (IH k (S n)). destruct (fidelity_loop (S n) l k) as [|issues]; [congruence|].
    destruct IH as (m & -> & Ht & Hd). exists (S m). rewrite Nat.add_succ_r. cbn. rewrite Ht. done.
  - exists 0%nat. rewrite Nat.add_0_r. split_and!; [done..|]. cbn. congruence.
Qed.

(** The coverage check is exact and does not depend on hash order.  For any order in which the hash maps are iterated the
    result is the same list, and it is empty exactly when the boundary reported, for every actor, the number of entries the
    journal holds, an actor it did not mention counting as none. *)
Theorem coverage_exact iter iter' st b : (forall m, iter m ≡ₚ map_to_list m) -> (forall m, iter' m ≡ₚ map_to_list m) ->
  check_coverage iter st b = check_coverage iter' st b
  /\ (check_coverage iter st b = [] <->
      forall a, default 0 (foldl (fun m r => <[r.1 := r.2]> m) (∅ : gmap Z Z) b !! a) = count (entries st) a).
Proof.
  intros Hi Hi'. split.
  - rewrite !check_coverage_triples. f_equal. apply sort_by_unique; [apply _|].
    apply Permutation_app; apply omap_Permutation; rewrite Hi, Hi'; done.
  - split.
    + intros Hnil a. destruct (decide (default 0 (foldl (fun m r => <[r.1 := r.2]> m) (∅ : gmap Z Z) b !! a) = count (entries st) a)) as [|Hne]; [done|].
      exfalso. destruct (foldl _ _ b !! a) as [n|] eqn:E; cbn in Hne.
      * assert (H : In (coverage_issue (a, n, count (entries st) a)) (check_coverage iter st b)) by (apply coverage_In; [done|]; left; exists n; done).
        rewrite Hnil in H. done.
      * assert (H : In (coverage_issue (a, 0, count (entries st) a)) (check_coverage iter st b)).
        { apply coverage_In; [done|]. right. split_and!; [done| |done]. cbn. pose proof (count_length (entries st) a). lia. }
        rewrite Hnil in H. done.
    + intros H. destruct (check_coverage iter st b) as [|i iss] eqn:E; [done|]. exfalso.
      assert (Hin : In i (check_coverage iter st b)) by (rewrite E; left; done).
      pose proof Hin as Hin'. rewrite check_coverage_triples in Hin'. apply in_map_iff in Hin' as (t & <- & _).
      apply coverage_In in Hin; [|done]. specialize (H t.1.1). destruct Hin as [(n & Hr & Hne & _)|(Hr & Hpos & _)]; rewrite Hr in H; cbn in H; lia.
Qed.

Lemma monitor_accepts_reachable_witness : exists st report, entries st = [first_entry; second_entry]
  /\ verify roll_digest st = Ok report /\ entries_audited report = 2%nat.
Proof.
  destruct sample_reach as (st & Hr & He). exists st.
  destruct (monitor_accepts_reachable roll_digest st Hr) as [_ [H _]]; [rewrite He; vm_compute; discriminate|].
  rewrite He in H. destruct H as (report & Hv & Hn & _).
  - intros e [<-|[<-|[]]] expected Hx; vm_compute in Hx; discriminate Hx.
  - exists report. split; [exact He|]. split; [exact Hv | exact Hn].
Defined.

Lemma coverage_exact_witness : exists st, entries st = [first_entry; second_entry]
  /\ check_coverage map_to_list st [(1, 1); (2, 1)] = [] /\ check_coverage map_to_list st [(1, 1)] <> [].
Proof.
  destruct sample_reach as (st & Hr & He). exists st. split; [exact He|]. split.
  - apply (coverage_exact map_to_list map_to_list st [(1, 1); (2, 1)] (fun m => reflexivity _) (fun m => reflexivity _)).
    intros a. rewrite He. cbn [foldl fst snd]. unfold count. cbn [List.filter].
    change (actor (edata first_entry)) with 1. change (actor (edata second_entry)) with 2.
    destruct (decide (a = 2)) as [->|H2]; [reflexivity|]. rewrite lookup_insert_ne by congruence.
    destruct (decide (a = 1)) as [->|H1]; [reflexivity|]. rewrite lookup_insert_ne by congruence. rewrite lookup_empty.
    rewrite (proj2 (Z.eqb_neq 1 a)), (proj2 (Z.eqb_neq 2 a)) by congruence. reflexivity.
  - intros H. apply (coverage_exact map_to_list map_to_list st [(1, 1)] (fun m => reflexivity _) (fun m => reflexivity _)) with (a := 2) in H.
    rewrite He in H. vm_compute in H. discriminate H.
Defined.
