(* ===== verification/Slice.v ===== *)
(** * Causal slices

    Models [ledger-journal/src/slice.rs]: backward closures, forward cones and subgraphs of a
    journal, with the worklist loop of [causal_slice] under an explicit fuel that is shown to be
    enough. *)

From stdpp Require Import gmap.
From S2P Require Import Prelude Machine Limits Entry Clock Dag Causal.

Open Scope Z_scope.

(** The [while let Some(id) = stack.pop()] loop; the top of the stack is the head of the list, so
    extending it with the parents puts the last parent first. *)
Fixpoint slice_loop (fuel : nat) (get : EntryHash -> option JEntry) (seen : gset (list byte))
    (stack : list EntryHash) : option (gset (list byte)) :=
  match stack with
  | [] => Some seen
  | id :: stack =>
      match fuel with
      | O => None
      | S fuel =>
          if decide (id ∈ seen) then slice_loop fuel get seen stack
          else
            let seen := {[id]} ∪ seen in
            match get id with
            | Some e => slice_loop fuel get seen (rev (parents (edata e)) ++ stack)
            | None => slice_loop fuel get seen stack
            end
      end
  end.

(** Every target is pushed once and every entry's parents at most once. *)
Definition parent_links (log : list JEntry) : nat := list_sum (map (fun e => length (parents (edata e))) log).
Definition slice_fuel (st : JournalState) (targets : list EntryHash) : nat :=
  (length targets + parent_links (entries st))%nat.

Fixpoint missing_target (st : JournalState) (targets : list EntryHash) : option EntryHash :=
  match targets with
  | [] => None
  | t :: targets => match state_lookup st t with None => Some t | Some _ => missing_target st targets end
  end.

Definition all_ids (st : JournalState) : list EntryHash := order st ++ overlay_order st.

Definition keep (s : gset (list byte)) (ids : list EntryHash) : list EntryHash :=
  List.filter (fun id => bool_decide (id ∈ s)) ids.

(** [causal_slice]; [None] would be a loop that does not end within the fuel. *)
Definition causal_slice (st : JournalState) (targets : list EntryHash) :
    option (result JournalError (list EntryHash)) :=
  match missing_target st targets with
  | Some t => Some (Err (MissingParent t))
  | None =>
      match slice_loop (slice_fuel st targets) (state_lookup st) ∅ (rev targets) with
      | Some seen => Some (Ok (keep seen (all_ids st)))
      | None => None
      end
  end.

Definition cone_step (affected : gset (list byte)) (e : JEntry) : gset (list byte) :=
  if existsb (fun parent => bool_decide (parent ∈ affected)) (parents (edata e))
  then {[eid e]} ∪ affected else affected.

Definition forward_cone (st : JournalState) (sources : list EntryHash) : list EntryHash :=
  keep (foldl cone_step (list_to_set sources) (entries st)) (all_ids st).

Definition causal_slice_forward (st : JournalState) (targets : list EntryHash) :
    option (result JournalError (list EntryHash)) :=
  match causal_slice st targets with
  | Some (Ok backward) => causal_slice st (forward_cone st backward)
  | r => r
  end.

(** One id of the [subgraph] loop: heads, entries and order so far. *)
Definition subgraph_step (st : JournalState) (set : gset (list byte))
    (acc : gmap Z EntryHash * gmap (list byte) JEntry * list EntryHash) (id : EntryHash) :=
  let '(sub_heads, sub_entries, sub_order) := acc in
  if decide (id ∈ set) then
    match state_lookup st id with
    | Some e => (<[actor (edata e) := id]> sub_heads, <[id := e]> sub_entries, sub_order ++ [id])
    | None => acc
    end
  else acc.

Definition subgraph (st : JournalState) (hashes : list EntryHash) : JournalState :=
  let set : gset (list byte) := list_to_set hashes in
  let '(sub_heads, sub_entries, sub_order) :=
    foldl (subgraph_step st set) (∅, ∅, []) (all_ids st) in
  mkState sub_entries ∅ sub_heads sub_order [].

(** ** The worklist loop *)

Lemma elem_of_rev {A} (x : A) l : x ∈ rev l <-> x ∈ l.
Proof. rewrite !list_elem_of_In, <- in_rev. done. Qed.

Lemma list_sum_cons n l : list_sum (n :: l) = (n + list_sum l)%nat.
Proof. done. Qed.

(** Following parent links from an id, through entries that exist. *)
Inductive ancestor_id (get : EntryHash -> option JEntry) : EntryHash -> EntryHash -> Prop :=
| anc_refl id : ancestor_id get id id
| anc_step a id e p : get id = Some e -> p ∈ parents (edata e) -> ancestor_id get a p -> ancestor_id get a id.

(** Parent links not yet followed. *)
Definition pending (log : list JEntry) (seen : gset (list byte)) : nat :=
  parent_links (List.filter (fun e => negb (bool_decide (eid e ∈ seen))) log).

Lemma pending_add log seen e : NoDup (map eid log) -> In e log -> eid e ∉ seen ->
  pending log seen = (length (parents (edata e)) + pending log ({[eid e]} ∪ seen))%nat.
Proof.
  unfold pending, parent_links. induction log as [|x log IH]; intros Hn Hin Hs; [done|].
  cbn [map] in Hn. apply list.NoDup_cons in Hn as [Hx Hn]. cbn [List.filter].
  destruct Hin as [->|Hin].
  - rewrite (bool_decide_false (eid e ∈ seen)), (bool_decide_true (eid e ∈ {[eid e]} ∪ seen)) by set_solver.
    cbn [negb map]. rewrite list_sum_cons. f_equal. f_equal. f_equal. apply filter_ext_in. intros y Hy. f_equal. apply bool_decide_ext.
    assert (eid y <> eid e); [|set_solver]. intros Heq. apply Hx. rewrite <- Heq.
    apply list_elem_of_In, in_map. done.
  - specialize (IH Hn Hin Hs).
    assert (eid x <> eid e) as He.
    { intros Heq. apply Hx. rewrite Heq. apply list_elem_of_In, in_map. done. }
    rewrite (bool_decide_ext (eid x ∈ {[eid e]} ∪ seen) (eid x ∈ seen)) by set_solver.
    destruct (bool_decide (eid x ∈ seen)); cbn [negb map]; [exact IH|].
    rewrite !list_sum_cons. lia.
Qed.

Lemma pending_mono log seen id : (pending log ({[id]} ∪ seen) <= pending log seen)%nat.
Proof.
  unfold pending, parent_links. induction log as [|x log IH]; [done|]. cbn [List.filter].
  repeat case_bool_decide; cbn [negb map]; rewrite ?list_sum_cons; try lia. set_solver.
Qed.

Lemma pending_le log seen : (pending log seen <= parent_links log)%nat.
Proof.
  unfold pending, parent_links. induction log as [|x log IH]; [done|]. cbn [List.filter].
  case_split; cbn [map]; rewrite ?list_sum_cons; lia.
Qed.

Section Loop.
Variables (get : EntryHash -> option JEntry) (log : list JEntry).
Hypothesis Hget : forall id, get id = log_get log id.
Hypothesis Hnodup : NoDup (map eid log).

(** Enough fuel: the stack and the links still to follow. *)
Lemma slice_loop_ends fuel : forall seen stack, (length stack + pending log seen <= fuel)%nat ->
  exists out, slice_loop fuel get seen stack = Some out.
Proof.
  induction fuel as [|fuel IH]; intros seen stack Hf.
  - destruct stack; [eexists; done | cbn in Hf; lia].
  - destruct stack as [|id stack]; [eexists; done|]. cbn [slice_loop length] in *.
    case_decide as Hd; [apply IH; lia|]. rewrite Hget. destruct (log_get log id) as [e|] eqn:E.
    + apply IH. rewrite length_app, length_rev. apply log_get_In in E as [Hin <-].
      rewrite (pending_add log seen e Hnodup Hin Hd) in Hf. lia.
    + apply IH. eapply Nat.le_trans; [apply Nat.add_le_mono_l, pending_mono | lia].
Qed.

(** What the loop has gathered: the ancestors of what was on the stack, not through ids already
    seen; [seen] is closed except for links on the stack. *)
Definition closed_up_to (seen : gset (list byte)) (stack : list EntryHash) : Prop :=
  forall id e p, id ∈ seen -> get id = Some e -> p ∈ parents (edata e) -> p ∈ seen \/ p ∈ stack.

Lemma slice_loop_spec fuel : forall seen stack out, slice_loop fuel get seen stack = Some out ->
  closed_up_to seen stack ->
  closed_up_to out [] /\ (forall id, id ∈ seen \/ id ∈ stack -> id ∈ out)
  /\ (forall id, id ∈ out -> id ∈ seen \/ exists t, t ∈ stack /\ ancestor_id get id t).
Proof.
  induction fuel as [|fuel IH]; intros seen stack out H Hc; (destruct stack as [|id stack]; cbn [slice_loop] in H;
    [simplify_eq; split_and!; [done | set_solver | auto]|]); [done|].
  case_decide as Hd.
  - destruct (IH _ _ _ H) as (H1 & H2 & H3).
    { intros i e p Hi He Hp. destruct (Hc i e p Hi He Hp); set_solver. }
    split_and!; [done | intros i Hi; apply H2; set_solver |].
    intros i Hi. destruct (H3 i Hi) as [?|(t & Ht & Ha)]; [auto|]. right. exists t. set_solver.
  - destruct (get id) as [e|] eqn:E.
    + destruct (IH _ _ _ H) as (H1 & H2 & H3).
      { intros i e' p Hi He Hp. rewrite elem_of_app, elem_of_rev.
        destruct (decide (i = id)) as [->|]; [rewrite E in He; simplify_eq; auto|].
        assert (i ∈ seen) as Hi' by set_solver. destruct (Hc i e' p Hi' He Hp); set_solver. }
      split_and!; [done | intros i Hi; apply H2; rewrite elem_of_app; set_solver |].
      intros i Hi. destruct (H3 i Hi) as [Hs|(t & Ht & Ha)].
      * apply elem_of_union in Hs as [->%elem_of_singleton|Hs]; [|auto]. right. exists id. split; [left|constructor].
      * right. apply elem_of_app in Ht as [Ht|Ht]; [|exists t; set_solver].
        rewrite elem_of_rev in Ht. exists id. split; [left|]. eapply anc_step; eauto.
    + destruct (IH _ _ _ H) as (H1 & H2 & H3).
      { intros i e' p Hi He Hp. destruct (decide (i = id)) as [->|]; [congruence|].
        assert (i ∈ seen) as Hi' by set_solver. destruct (Hc i e' p Hi' He Hp); set_solver. }
      split_and!; [done | intros i Hi; apply H2; set_solver |].
      intros i Hi. destruct (H3 i Hi) as [Hs|(t & Ht & Ha)].
      * apply elem_of_union in Hs as [->%elem_of_singleton|Hs]; [|auto]. right. exists id. split; [left|constructor].
      * right. exists t. set_solver.
Qed.

Lemma closed_ancestors seen a id : closed_up_to seen [] -> id ∈ seen -> ancestor_id get a id -> a ∈ seen.
Proof.
  intros Hc Hid Ha. revert Hid. induction Ha as [|a id e p He Hp _ IH]; intros Hid; [done|].
  apply IH. destruct (Hc id e p Hid He Hp); set_solver.
Qed.

(** From the targets, the loop ends with exactly their ancestors. *)
Lemma slice_loop_ancestors targets :
  exists out, slice_loop (length targets + parent_links log) get ∅ (rev targets) = Some out
  /\ forall id, id ∈ out <-> exists t, t ∈ targets /\ ancestor_id get id t.
Proof.
  destruct (slice_loop_ends (length targets + parent_links log) ∅ (rev targets)) as [out Hout].
  { rewrite length_rev. apply Nat.add_le_mono_l, pending_le. }
  exists out. split; [done|]. destruct (slice_loop_spec _ _ _ _ Hout) as (Hc & Hin & Hs).
  { intros i e p Hi. set_solver. }
  intros id. split.
  - intros Hid. destruct (Hs id Hid) as [?|(t & Ht & Ha)]; [set_solver|]. exists t. rewrite elem_of_rev in Ht. done.
  - intros (t & Ht & Ha). eapply closed_ancestors; [exact Hc| |exact Ha]. apply Hin. right. apply elem_of_rev. done.
Qed.
End Loop.

(** ** Slices of a log *)

Lemma missing_target_spec st targets :
  match missing_target st targets with
  | Some t => t ∈ targets /\ state_lookup st t = None
  | None => forall t, t ∈ targets -> exists e, state_lookup st t = Some e
  end.
Proof.
  induction targets as [|t targets IH]; cbn; [set_solver|]. destruct (state_lookup st t) as [e|] eqn:E.
  - destruct (missing_target st targets); [set_solver|]. intros t' [->|Ht]%elem_of_cons; eauto.
  - split; [left | done].
Qed.

Lemma keep_In s l id : id ∈ keep s l <-> id ∈ s /\ id ∈ l.
Proof. unfold keep. rewrite !list_elem_of_In, filter_In, bool_decide_eq_true. tauto. Qed.

Lemma keep_sublist s l : keep s l `sublist_of` l.
Proof. unfold keep. induction l as [|x l IH]; [done|]. cbn. case_split; constructor; done. Qed.

Definition cone (sources : list EntryHash) (l : list JEntry) : gset (list byte) :=
  foldl cone_step (list_to_set sources) l.

Lemma cone_snoc sources l x : cone sources (l ++ [x]) = cone_step (cone sources l) x.
Proof. unfold cone. rewrite foldl_app. done. Qed.

Lemma cone_within sources l id : id ∈ cone sources l -> id ∈ sources \/ id ∈ map eid l.
Proof.
  induction l as [|x l IH] using rev_ind; [unfold cone; cbn; rewrite elem_of_list_to_set; auto|].
  rewrite cone_snoc. unfold cone_step. rewrite map_app, elem_of_app. case_split; cbn; set_solver.
Qed.

Lemma cone_step_In s x id : id ∈ cone_step s x <->
  id ∈ s \/ id = eid x /\ exists p, p ∈ parents (edata x) /\ p ∈ s.
Proof.
  unfold cone_step. destruct (existsb _ _) eqn:E.
  - apply existsb_exists in E as (p & Hp & Hs). apply bool_decide_eq_true in Hs. apply list_elem_of_In in Hp.
    rewrite elem_of_union, elem_of_singleton. naive_solver.
  - split; [auto|]. intros [?|(-> & p & Hp & Hs)]; [done|]. exfalso.
    assert (existsb (fun parent => bool_decide (parent ∈ s)) (parents (edata x)) = true); [|congruence].
    apply existsb_exists. exists p. rewrite bool_decide_eq_true, <- list_elem_of_In. done.
Qed.

Lemma cone_sources sources l id : id ∈ sources -> id ∈ cone sources l.
Proof.
  intros H. induction l as [|y l IH] using rev_ind; [unfold cone; cbn; rewrite elem_of_list_to_set; done|].
  rewrite cone_snoc. apply cone_step_In. auto.
Qed.

Section LogSlices.
Variable blake3 : list byte -> list byte.

Lemma ok_parent_in l e p : log_ok blake3 l -> In e l -> p ∈ parents (edata e) -> exists pe, log_get l p = Some pe.
Proof.
  intros Hl. revert e p. induction Hl as [|l x Hl IH Hx Hf]; intros e p He Hp; [done|]. rewrite log_get_app.
  apply in_app_iff in He as [He|[<-|[]]].
  - destruct (IH e p He Hp) as [pe ->]. eauto.
  - destruct (ok_parents _ _ _ Hx p Hp) as [pe ->]. eauto.
Qed.

Lemma ancestor_precedes l t a : log_ok blake3 l -> In t l ->
  ancestor_id (log_get l) a (eid t) <-> exists e, In e l /\ eid e = a /\ precedes l e t.
Proof.
  intros Hl Ht. pose proof (log_ok_nodup _ l Hl) as Hn. split.
  - intros Ha. remember (eid t) as id eqn:Eid. revert t Ht Eid.
    induction Ha as [id|a id e p He Hp _ IH]; intros t Ht ->.
    + exists t. split_and!; [done..|]. constructor. done.
    + rewrite (log_get_self l t Hn Ht) in He. simplify_eq.
      destruct (ok_parent_in l e p Hl Ht Hp) as [pe Hpe]. apply log_get_In in Hpe as [Hin <-].
      destruct (IH pe Hin eq_refl) as (x & Hx & Hxa & Hpre). exists x. split_and!; [done..|].
      exact (prec_step l x pe _ Ht Hin Hp Hpre).
  - intros (e & He & <- & Hp). induction Hp as [e _|f p e Hel Hpl Hpar _ IH]; [constructor|].
    eapply anc_step; [apply log_get_self; eauto | exact Hpar | apply IH; done].
Qed.

Lemma precedes_restrict l x s e : log_ok blake3 (l ++ [x]) -> In e l -> precedes (l ++ [x]) s e -> precedes l s e.
Proof.
  intros Hl He Hp. pose proof (log_ok_nodup _ _ Hl) as Hn.
  assert (Hlx : log_ok blake3 l /\ log_get l (eid x) = None).
  { inversion Hl as [Hnil|l' x' H1 H2 H3 Heq]; [destruct l; done|]. apply app_inj_tail in Heq as [-> ->]. done. }
  destruct Hlx as [Hl' Hf]. induction Hp as [e _|f p e Hel Hpl Hpar _ IH]; [constructor; done|].
  destruct (ok_parent_in l e _ Hl' He Hpar) as [pe Hg].
  assert (In p l) as Hpin.
  { apply in_app_iff in Hpl as [?|[<-|[]]]; [done|]. congruence. }
  eapply prec_step; eauto.
Qed.

(** One pass in append order closes the cone: parents come before children. *)
Lemma cone_spec sources l : log_ok blake3 l -> forall e, In e l ->
  eid e ∈ cone sources l <-> exists s, In s l /\ eid s ∈ sources /\ precedes l s e.
Proof.
  intros Hl. pose proof Hl as Hl0. induction Hl as [|l x Hl IH Hx Hf]; intros e He; [done|].
  specialize (IH Hl). rewrite cone_snoc, cone_step_In.
  assert (Hnew : forall y, In y l -> eid y <> eid x).
  { intros y Hy Heq. apply log_get_None in Hf. apply Hf. rewrite <- Heq. apply list_elem_of_In, in_map. done. }
  apply in_app_iff in He as [He|[<-|[]]].
  - transitivity (eid e ∈ cone sources l).
    { split; [intros [?|[? _]]; [done | exfalso; eapply Hnew; eauto] | auto]. }
    rewrite IH by done. split; intros (s & Hs & Hsrc & Hp).
    + exists s. split_and!; [apply in_or_app; auto | done | apply precedes_app; done].
    + apply precedes_restrict in Hp; [|done..]. exists s. split_and!; [apply precedes_In in Hp; tauto | done..].
  - split.
    + intros [Hc|(_ & p & Hp & Hpc)].
      * apply cone_within in Hc as [Hsrc|Hid].
        -- exists x. split_and!; [apply in_or_app; right; left; done | done | constructor; apply in_or_app; right; left; done].
        -- exfalso. apply log_get_None in Hf. done.
      * destruct (ok_parents _ _ _ Hx p Hp) as [pe Hg]. apply log_get_In in Hg as [Hin <-].
        apply IH in Hpc as (s & Hs & Hsrc & Hpre); [|done]. exists s.
        split_and!; [apply in_or_app; auto | done |].
        eapply prec_step; [apply in_or_app; right; left; done | apply in_or_app; left; exact Hin | exact Hp | apply precedes_app; done].
    + intros (s & Hs & Hsrc & Hp). inversion Hp as [? ?|? p ? Hxl Hpl Hpar Hpre]; subst.
      * left. apply cone_sources. done.
      * right. split; [done|]. exists (eid p). split; [done|].
        destruct (ok_parents _ _ _ Hx _ Hpar) as [pe Hg]. 
        assert (Hpin : In p l).
        { apply in_app_iff in Hpl as [?|[<-|[]]]; [done|]. congruence. }
        apply IH; [done|]. exists s. apply precedes_restrict in Hpre; [|done..].
        split_and!; [apply precedes_In in Hpre; tauto | done..].
Qed.
End LogSlices.

(** ** Subgraphs *)

Definition acc_state (acc : gmap Z EntryHash * gmap (list byte) JEntry * list EntryHash) : JournalState :=
  mkState acc.1.2 ∅ acc.1.1 acc.2 [].

Definition sublog (set : gset (list byte)) (l : list JEntry) : list JEntry :=
  List.filter (fun e => bool_decide (eid e ∈ set)) l.

Lemma subgraph_fold st log set : represents st log -> forall l, (forall e, In e l -> In e log) -> NoDup (map eid l) ->
  represents (acc_state (foldl (subgraph_step st set) (∅, ∅, []) (map eid l))) (sublog set l).
Proof.
  intros [R1 R2 R3 R4] l. induction l as [|e l IH] using rev_ind; intros Hsub Hn.
  - apply represents_new.
  - rewrite map_app in Hn. apply list.NoDup_app in Hn as (Hn & Hdis & _).
    specialize (IH (fun x Hx => Hsub x (in_or_app _ _ _ (or_introl Hx))) Hn).
    rewrite map_app, foldl_app. unfold sublog. rewrite List.filter_app. fold (sublog set l). cbn [map foldl List.filter].
    destruct (foldl (subgraph_step st set) (∅, ∅, []) (map eid l)) as [[h m] o]. unfold subgraph_step.
    case_decide as Hd; [|rewrite bool_decide_false, app_nil_r by done; done].
    rewrite bool_decide_true, R2, (log_get_self log e R4) by (done || apply Hsub, in_or_app; right; left; done).
    eapply represents_equiv; [|apply (insert_represents (acc_state (h, m, o)) (sublog set l) (actor (edata e)) e);
      [exact IH | done |]].
    + split.
      * intros id. rewrite lookup_insert_entry. unfold state_lookup, acc_state. cbn. rewrite !lookup_empty.
        case_decide; [subst; rewrite lookup_insert_eq | rewrite lookup_insert_ne]; done.
      * done.
      * cbn. rewrite !app_nil_r. done.
    + apply log_get_None. intros Hin. apply list_elem_of_In, in_map_iff in Hin as (x & Hx & Hin).
      apply filter_In in Hin as [Hin _]. apply (Hdis (eid x)); [apply list_elem_of_In, in_map; done|].
      rewrite Hx. left.
Qed.

Lemma subgraph_represents st log hashes : represents st log ->
  represents (subgraph st hashes) (sublog (list_to_set hashes) log).
Proof.
  intros R. unfold subgraph, all_ids. rewrite (r_order _ _ R).
  pose proof (subgraph_fold st log (list_to_set hashes) R log (fun e H => H) (r_nodup _ _ R)) as H.
  destruct (foldl _ _ _) as [[h m] o]. exact H.
Qed.

(** ** Theorems *)

(** C16: backward slices.  On a reachable journal of fewer than 2^64 entries [causal_slice] ends; it
    fails only for a target that is not in the journal, and otherwise returns, in append order,
    exactly the entries that causally precede some target. *)
Theorem causal_slice_exact blake3 st targets : journal_reach blake3 st ->
  Z.of_nat (length (entries st)) <= u64_max ->
  match causal_slice st targets with
  | None => False
  | Some (Err x) => exists t, x = MissingParent t /\ t ∈ targets /\ state_lookup st t = None
  | Some (Ok ids) =>
      (forall t, t ∈ targets -> exists e, state_lookup st t = Some e) /\ ids `sublist_of` all_ids st
      /\ forall e, In e (entries st) ->
           (eid e ∈ ids <-> exists t, In t (entries st) /\ eid t ∈ targets /\ precedes (entries st) e t)
  end.
Proof.
  intros (log & Hl & R)%journal_reach_represents Hlen. pose proof (represents_entries st log R) as He.
  rewrite He in Hlen. apply log_reach_ok in Hl; [|done].
  unfold causal_slice. pose proof (missing_target_spec st targets) as Hm.
  destruct (missing_target st targets) as [t|]; [exists t; done|].
  destruct (slice_loop_ancestors (state_lookup st) log (r_lookup _ _ R) (r_nodup _ _ R) targets) as (out & Hout & Hin).
  unfold slice_fuel. rewrite He, Hout. split_and!; [done | apply keep_sublist |].
  intros e Hel. rewrite keep_In, Hin. unfold all_ids. rewrite (r_order _ _ R).
  assert (Hanc : forall a t, ancestor_id (state_lookup st) a t <-> ancestor_id (log_get log) a t).
  { intros a t. split; (induction 1 as [|a id x p Hx Hp _ IH]; [constructor|]);
      (eapply anc_step; [|exact Hp|exact IH]); [rewrite <- (r_lookup _ _ R)|rewrite (r_lookup _ _ R)]; done. }
  split.
  - intros [(t & Ht & Ha) _]. destruct (Hm t Ht) as [te Hte]. rewrite (r_lookup _ _ R) in Hte.
    apply log_get_In in Hte as [Htin <-]. apply Hanc, (ancestor_precedes blake3) in Ha as (x & Hx & Hxe & Hp); [|done..].
    exists te. split_and!; [done..|].
    assert (x = e) as <-; [|done]. pose proof (log_get_self log x (r_nodup _ _ R) Hx) as E1.
    pose proof (log_get_self log e (r_nodup _ _ R) Hel) as E2. congruence.
  - intros (t & Ht & Htt & Hp). split; [|apply list_elem_of_In, in_map; done].
    exists (eid t). split; [done|]. apply Hanc, (ancestor_precedes blake3); [done..|]. eauto.
Qed.

(** Forward cones.  On a reachable journal of fewer than 2^64 entries the single pass of
    [forward_cone] returns, in append order, exactly the entries that some source precedes. *)
Theorem forward_cone_exact blake3 st sources : journal_reach blake3 st ->
  Z.of_nat (length (entries st)) <= u64_max ->
  forward_cone st sources `sublist_of` all_ids st
  /\ forall e, In e (entries st) ->
       (eid e ∈ forward_cone st sources <->
        exists s, In s (entries st) /\ eid s ∈ sources /\ precedes (entries st) s e).
Proof.
  intros (log & Hl & R)%journal_reach_represents Hlen. pose proof (represents_entries st log R) as He.
  rewrite He in *. apply log_reach_ok in Hl; [|done]. unfold forward_cone. split; [apply keep_sublist|].
  intros e Hel. rewrite keep_In, He. unfold all_ids. rewrite (r_order _ _ R).
  rewrite <- (cone_spec blake3 sources log Hl e Hel). split; [tauto|].
  intros Hc. split; [exact Hc|]. apply list_elem_of_In, in_map. done.
Qed.

(** Subgraphs.  [subgraph] of a reachable journal holds exactly the requested entries that
    exist, in append order, with each actor's head its last selected entry: it represents the
    filtered log. *)
Theorem subgraph_exact blake3 st hashes : journal_reach blake3 st ->
  represents (subgraph st hashes) (sublog (list_to_set hashes) (entries st))
  /\ entries (subgraph st hashes) = sublog (list_to_set hashes) (entries st).
Proof.
  intros (log & _ & R)%journal_reach_represents. rewrite (represents_entries st log R).
  pose proof (subgraph_represents st log hashes R) as H. split; [exact H|]. apply represents_entries. exact H.
Qed.

Lemma causal_slice_exact_witness :
  exists st ids, journal_reach roll_digest st /\ causal_slice st [eid second_entry] = Some (Ok ids)
  /\ eid first_entry ∈ ids.
Proof.
  destruct sample_reach as (st & Hr & He).
  pose proof (causal_slice_exact roll_digest st [eid second_entry] Hr ltac:(rewrite He; vm_compute; discriminate)) as H.
  assert (H1 : In first_entry (entries st)) by (rewrite He; left; reflexivity).
  assert (H2 : In second_entry (entries st)) by (rewrite He; right; left; reflexivity).
  destruct (causal_slice st [eid second_entry]) as [[ids|x]|] eqn:E; [| |contradiction].
  - exists st, ids. split; [exact Hr|]. split; [exact E|]. apply H; [exact H1|].
    exists second_entry. split; [exact H2|]. split; [left|].
    apply (prec_step _ first_entry first_entry second_entry H2 H1); [left | constructor; exact H1].
  - exfalso. destruct H as (t & _ & Ht & Hn). apply list_elem_of_singleton in Ht as ->.
    destruct (journal_reach_represents _ _ Hr) as (log & _ & R). rewrite (r_lookup _ _ R) in Hn.
    rewrite (represents_entries _ _ R) in H2. rewrite (log_get_self log _ (r_nodup _ _ R) H2) in Hn. discriminate Hn.
Defined.

Lemma forward_cone_exact_witness :
  exists st, journal_reach roll_digest st /\ eid second_entry ∈ forward_cone st [eid first_entry].
Proof.
  destruct sample_reach as (st & Hr & He). exists st. split; [exact Hr|].
  assert (H1 : In first_entry (entries st)) by (rewrite He; left; reflexivity).
  assert (H2 : In second_entry (entries st)) by (rewrite He; right; left; reflexivity).
  apply (forward_cone_exact roll_digest st [eid first_entry] Hr ltac:(rewrite He; vm_compute; discriminate)); [exact H2|].
  exists first_entry. split; [exact H1|]. split; [left|].
  apply (prec_step _ first_entry first_entry second_entry H2 H1); [left | constructor; exact H1].
Defined.

Lemma subgraph_exact_witness :
  exists st, journal_reach roll_digest st
  /\ entries (subgraph st [eid second_entry]) = sublog {[eid second_entry]} [first_entry; second_entry].
Proof.
  destruct sample_reach as (st & Hr & He). exists st. split; [exact Hr|].
  destruct (subgraph_exact roll_digest st [eid second_entry] Hr) as [_ ->]. rewrite He. reflexivity.
Defined.
