(* ===== verification/Segment.v ===== *)
(** * Segment storage: frames, segments and the recovery log

    The byte formats of [ledger-journal/src/segment/]: length-delimited entry frames and the open
    writer ([writer.rs]), the frame walkers ([mod.rs]), the sealed segment file and its parser, the
    torn-tail scan of the WAL ([recovery.rs]) and the sparse index lookup ([indexing.rs]).
    [blake3] and the zstd codec are parameters. *)

From S2P Require Import Prelude Machine Cbor Limits Value Path Hex Frame Entry OrdMap Clock Dag.

Open Scope Z_scope.

Definition SEGMENT_TARGET_SIZE : Z := 64 * 1024 * 1024.
Definition SAMPLE_INTERVAL : nat := 32.
Definition TRAILER_LEN : nat := 16.
Definition INDEX_ENTRY_LEN : nat := 12.
Definition MIN_FRAME_PAYLOAD : Z := 40.
Definition MAX_COMPRESSED_SEGMENT_BYTES : Z := 256 * 1024 * 1024.
Definition MAX_DECOMPRESSED_SEGMENT_BYTES : Z := 1024 * 1024 * 1024.

Record SealedSegment : Type := mkSealed {
  s_id : Z;
  entry_count : Z;
  uncompressed_len : Z;
  compressed_len : Z;
  s_root_hash : EntryHash;
  sample_interval : Z;
  contains_fault_relevant : bool;
  data_offset : Z;
  samples : list (Z * Z) }.

(** [SegmentWriter<Open>]: the frame buffer, and the id and offset of each frame. *)
Record SegmentWriter : Type := mkWriter {
  buffer : list byte;
  index : list (EntryHash * Z);
  fault_relevant : bool }.

Definition writer_new : SegmentWriter := mkWriter [] [] false.

Definition corrupt (msg : string) : JournalError := SegmentCorrupt (Msg msg).
Definition segment_corrupt (id : Z) (msg : string) : JournalError := SegmentCorrupt (SegmentMsg id msg).

(** ** Frames *)

Definition write_frame (buffer : list byte) (id : EntryHash) (data_len : nat) (payload : list byte) : list byte :=
  let payload_len := (32 + 8 + length payload)%nat in
  buffer ++ to_le_bytes 8 (Z.of_nat payload_len) ++ id ++ to_le_bytes 8 (Z.of_nat data_len) ++ payload.

Definition encode_entry_payload (entry : JEntry) : result JournalError (nat * list byte) :=
  let? data := map_err (fun err => InvalidPayload (Encoding err)) (entry_encode (edata entry)) in
  Ok (length data, data ++ clock_encode (eclock entry)).

Definition encode_entry_frame (entry : JEntry) : result JournalError (list byte) :=
  let? '(data_len, scratch) := encode_entry_payload entry in
  Ok (write_frame [] (eid entry) data_len scratch).

(** [SegmentWriter::append]: the frame, and the writer after it. *)
Definition writer_append (w : SegmentWriter) (entry : JEntry) : result JournalError (list byte * SegmentWriter) :=
  let? frame := encode_entry_frame entry in
  Ok (frame, mkWriter (buffer w ++ frame) (index w ++ [(eid entry, Z.of_nat (length (buffer w)))])
               (fault_relevant w || kind_is_fault_relevant (kind (edata entry)))).

(** [SegmentWriter::append_slice]; an entry that cannot be encoded leaves the earlier ones. *)
Fixpoint writer_append_slice (w : SegmentWriter) (entries : list JEntry) : result JournalError unit * SegmentWriter :=
  match entries with
  | [] => (Ok tt, w)
  | entry :: entries =>
      match encode_entry_payload entry with
      | Err e => (Err e, w)
      | Ok (data_len, scratch) =>
          writer_append_slice
            (mkWriter (write_frame (buffer w) (eid entry) data_len scratch)
               (index w ++ [(eid entry, Z.of_nat (length (buffer w)))])
               (fault_relevant w || kind_is_fault_relevant (kind (edata entry)))) entries
      end
  end.

Definition writer_append_frame (w : SegmentWriter) (frame : EntryFrame) : SegmentWriter :=
  mkWriter (write_frame (buffer w) (f_id frame) (f_data_len frame) (f_payload frame))
    (index w ++ [(f_id frame, Z.of_nat (length (buffer w)))]) (fault_relevant w || f_fault_relevant frame).

Definition writer_append_frames (w : SegmentWriter) (frames : list EntryFrame) : SegmentWriter :=
  foldl writer_append_frame w frames.

Definition should_seal (w : SegmentWriter) : bool := (SEGMENT_TARGET_SIZE <=? Z.of_nat (length (buffer w)))%Z.

(** ** Reading frames *)

Definition read_u64_le_at (bytes : list byte) (offset : nat) : Z := from_le_bytes (take 8 (drop offset bytes)).
Definition read_u32_be_at (bytes : list byte) (offset : nat) : Z := from_be_bytes (take 4 (drop offset bytes)).
Definition read_u64_be_at (bytes : list byte) (offset : nat) : Z := from_be_bytes (take 8 (drop offset bytes)).

(** The end of the frame whose length prefix ends at [prefix_end]. *)
Definition frame_end (block : list byte) (prefix_end : nat) (len : Z) (msg : string) : result JournalError nat :=
  let? stop := ok_or (checked_add (Z.of_nat prefix_end) len) (corrupt msg) in
  if (Z.of_nat (length block) <? stop)%Z then Err (corrupt msg) else Ok (Z.to_nat stop).

Definition slice {A} (l : list A) (start stop : nat) : list A := take (stop - start) (drop start l).

Definition frame_payload_at (block : list byte) (offset : Z) : result JournalError (list byte) :=
  let? prefix_end := ok_or (checked_add offset 8) (corrupt "frame offset out of bounds") in
  if (Z.of_nat (length block) <? prefix_end)%Z then Err (corrupt "frame offset out of bounds")
  else
    let prefix_end := Z.to_nat prefix_end in
    let len := read_u64_le_at block (Z.to_nat offset) in
    let? stop := frame_end block prefix_end len "frame length exceeds block" in
    Ok (slice block prefix_end stop).

Definition next_frame (block : list byte) (offset : nat) : result JournalError (option (nat * list byte)) :=
  if (length block <=? offset)%nat then Ok None
  else
    let prefix_end := (offset + 8)%nat in
    if (length block <? prefix_end)%nat then Err (corrupt "partial frame length prefix")
    else
      let len := read_u64_le_at block offset in
      if (len <? MIN_FRAME_PAYLOAD)%Z then Err (corrupt "frame payload below minimum size")
      else
        let? stop := frame_end block prefix_end len "frame extends past block end" in
        Ok (Some (stop, slice block prefix_end stop)).

(** One pair of the loop of [decode_vector_clock]. *)
Definition clock_pair (entries : list (Z * Z)) (pair : CborValue * CborValue) : result JournalError (list (Z * Z)) :=
  let? actor :=
    match pair.1 with
    | CUnsigned actor => ok_or (u32_try_from actor) (corrupt "vector clock actor exceeds u32")
    | _ => Err (corrupt "vector clock key is not an unsigned integer")
    end in
  match pair.2 with
  | CUnsigned count => Ok (oinsert actor count entries)
  | _ => Err (corrupt "vector clock value is not an unsigned integer")
  end.

Fixpoint clock_pairs (entries : list (Z * Z)) (pairs : list (CborValue * CborValue)) :
    result JournalError (list (Z * Z)) :=
  match pairs with
  | [] => Ok entries
  | p :: pairs => let? entries := clock_pair entries p in clock_pairs entries pairs
  end.

Definition decode_vector_clock (bytes : list byte) : result JournalError VectorClock :=
  let? value := map_err (fun err => SegmentCorrupt (BadCbor err)) (from_canonical_bytes bytes) in
  match value with
  | CMap pairs => clock_pairs [] pairs
  | _ => Err (corrupt "vector clock is not a CBOR map")
  end.

Definition decode_entry_data (bytes : list byte) : result JournalError EntryData :=
  map_err (fun err => SegmentCorrupt (BadCbor err)) (entry_from_canonical_bytes bytes).

(** [last_complete_frame_end]: the length of the complete frames of the WAL. *)
Fixpoint complete_frames (fuel : nat) (bytes : list byte) (offset last_complete : nat) : option nat :=
  if (length bytes <? offset + 8)%nat then Some last_complete
  else
    match fuel with
    | O => None
    | S fuel =>
        let len := read_u64_le_at bytes offset in
        if (len <? MIN_FRAME_PAYLOAD)%Z then Some last_complete
        else
          match match checked_add (Z.of_nat offset) 8 with Some stop => checked_add stop len | None => None end with
          | None => Some last_complete
          | Some stop =>
              if (Z.of_nat (length bytes) <? stop)%Z then Some last_complete
              else complete_frames fuel bytes (Z.to_nat stop) (Z.to_nat stop)
          end
    end.

Definition last_complete_frame_end (bytes : list byte) : option nat :=
  if (length bytes <? FRAME_PREFIX_LEN)%nat then Some 0%nat
  else complete_frames (length bytes) bytes FRAME_PREFIX_LEN FRAME_PREFIX_LEN.

Definition prefix_of (hash : EntryHash) : Z := from_le_bytes (take 4 hash).

(** ** Sparse index lookup *)

Definition scan_window_body (scan : nat -> result JournalError (option Z)) (block : list byte) (offset : nat)
    (hash : EntryHash) : result JournalError (option Z) :=
  let? frame := next_frame block offset in
  match frame with
  | None => Ok None
  | Some (next, payload) =>
      if (32 <=? length payload)%nat && bool_decide (take 32 payload = hash) then Ok (Some (Z.of_nat offset))
      else scan next
  end.

(** [scan_window]: the offset of the first frame with the hash between [offset] and [stop]. *)
Fixpoint scan_window (fuel : nat) (block : list byte) (offset stop : nat) (hash : EntryHash) :
    result JournalError (option Z) :=
  if (stop <? offset + 8)%nat then Ok None
  else
    match fuel with
    | O => Ok None
    | S fuel => scan_window_body (fun next => scan_window fuel block next stop hash) block offset hash
    end.

(** The loop of [locate_in_block] over the samples; [None] when no window has the hash. *)
Fixpoint locate_sampled (block : list byte) (samples : list (Z * Z)) (hash : EntryHash) :
    result JournalError (option Z) :=
  match samples with
  | [] => Ok None
  | (sample_offset, sample_prefix) :: samples =>
      if (sample_prefix =? prefix_of hash)%Z then
        let window_end := match samples with [] => Z.of_nat (length block) | (o, _) :: _ => o end in
        let? found := scan_window (length block) block (Z.to_nat sample_offset) (Z.to_nat window_end) hash in
        match found with
        | Some offset => Ok (Some offset)
        | None => locate_sampled block samples hash
        end
      else locate_sampled block samples hash
  end.

Definition locate_in_block (block : list byte) (samples : list (Z * Z)) (hash : EntryHash) :
    result JournalError (option Z) :=
  let? found := locate_sampled block samples hash in
  match found with
  | Some offset => Ok (Some offset)
  | None => scan_window (length block) block 0 (length block) hash
  end.

Section Hashed.
Variable blake3 : list byte -> list byte.

(** [decode_frame_payload]: the stored id is checked against the bytes before they are parsed. *)
Definition decode_frame_payload (payload : list byte) : result JournalError JEntry :=
  if (Z.of_nat (length payload) <? MIN_FRAME_PAYLOAD)%Z then Err (corrupt "frame payload too short")
  else
    let id := take 32 payload in
    let data_len := read_u64_le_at payload 32 in
    let? data_end := ok_or (checked_add 40 data_len) (corrupt "frame data length exceeds payload") in
    if (Z.of_nat (length payload) <? data_end)%Z then Err (corrupt "frame data length exceeds payload")
    else
      let data_end := Z.to_nat data_end in
      let data_bytes := slice payload 40 data_end in
      let vc_bytes := drop data_end payload in
      if bool_decide (blake3 (data_bytes ++ vc_bytes) = id) then
        let? data := decode_entry_data data_bytes in
        let? vector_clock := decode_vector_clock vc_bytes in
        Ok (mkJEntry id data vector_clock)
      else Err (corrupt "entry hash mismatch; data or clock corrupted").

(** The frame walk of [entries_in_append_order]: the entries of a block from an offset; [None] would
    be a walk longer than the fuel. *)
Fixpoint walk_frames (fuel : nat) (block : list byte) (offset : nat) : option (result JournalError (list JEntry)) :=
  if (length block <=? offset)%nat then Some (Ok [])
  else
    match fuel with
    | O => None
    | S fuel =>
        match next_frame block offset with
        | Err e => Some (Err e)
        | Ok None => Some (Ok [])
        | Ok (Some (next, payload)) =>
            match decode_frame_payload payload with
            | Err e => Some (Err e)
            | Ok entry =>
                match walk_frames fuel block next with
                | Some (Ok entries) => Some (Ok (entry :: entries))
                | r => r
                end
            end
        end
    end.

Definition block_entries (block : list byte) : option (result JournalError (list JEntry)) :=
  walk_frames (length block) block 0.

(** ** Sealed segments *)

(** [zstd::encode_all] at level 3, and reading up to [n] bytes from a streaming decoder. *)
Variable zstd_encode : list byte -> list byte.
Variable zstd_decode : Z -> list byte -> option (list byte).

Definition decode_segment_block_with_cap (compressed : list byte) (cap : Z) : result JournalError (list byte) :=
  let? block := ok_or (zstd_decode (saturating_add cap 1) compressed) (SegmentCorrupt (Io "zstd")) in
  if (cap <? Z.of_nat (length block))%Z then Err (corrupt "decompressed segment block exceeds limit") else Ok block.

Definition decode_segment_block (compressed : list byte) : result JournalError (list byte) :=
  if (MAX_COMPRESSED_SEGMENT_BYTES <? Z.of_nat (length compressed))%Z
  then Err (corrupt "compressed segment block exceeds limit")
  else decode_segment_block_with_cap compressed MAX_DECOMPRESSED_SEGMENT_BYTES.

(** Every [SAMPLE_INTERVAL]-th frame of the index, from position [i] on. *)
Fixpoint sample_index (i : nat) (index : list (EntryHash * Z)) : list (Z * Z) :=
  match index with
  | [] => []
  | (id, offset) :: index =>
      (if (i mod SAMPLE_INTERVAL =? 0)%nat then [(offset, prefix_of id)] else []) ++ sample_index (S i) index
  end.

Definition segment_header (entry_count uncompressed_len : Z) (root_hash : EntryHash) : list byte :=
  array 4 ++ unsigned entry_count ++ unsigned uncompressed_len ++ cbytes root_hash
  ++ unsigned (Z.of_nat SAMPLE_INTERVAL).

Definition sample_bytes (s : Z * Z) : list byte := to_be_bytes 8 s.1 ++ to_be_bytes 4 s.2.

Definition write_trailer (index_len sample_interval compressed_len : Z) : list byte :=
  to_be_bytes 4 index_len ++ to_be_bytes 4 sample_interval ++ to_be_bytes 8 compressed_len.

(** [SegmentWriter::seal]: the bytes of the segment file and the metadata. *)
Definition seal (w : SegmentWriter) (segment_id : Z) : list byte * SealedSegment :=
  let compressed := zstd_encode (buffer w) in
  let samples := sample_index 0 (index w) in
  let root_hash := blake3 (concat (map fst (index w))) in
  let count := Z.of_nat (length (index w)) in
  let len := Z.of_nat (length (buffer w)) in
  let header := segment_header count len root_hash in
  (encode_prefix MAGIC_SEGMENT (Z.of_nat (length header)) ++ header ++ compressed
     ++ concat (map sample_bytes samples)
     ++ write_trailer (Z.of_nat (length samples)) (Z.of_nat SAMPLE_INTERVAL) (Z.of_nat (length compressed)),
   mkSealed segment_id count len (Z.of_nat (length compressed)) root_hash (Z.of_nat SAMPLE_INTERVAL)
     (fault_relevant w) (Z.of_nat (FRAME_PREFIX_LEN + length header)) samples).

(** The header of a segment: entry count, block length, root hash and sample interval. *)
Definition parse_segment_header (header : list byte) : option (Z * Z * EntryHash * Z) :=
  match from_canonical_bytes header with
  | Ok (CArray [CUnsigned entry_count; CUnsigned uncompressed_len; CBytes root; CUnsigned interval]) =>
      if (length root =? 32)%nat && (interval <=? u32_max)%Z
      then Some (entry_count, uncompressed_len, root, interval) else None
  | _ => None
  end.

Fixpoint read_samples (n : nat) (bytes : list byte) (base : nat) : list (Z * Z) :=
  match n with
  | O => []
  | S n => (read_u64_be_at bytes base, read_u32_be_at bytes (base + 8)) :: read_samples n bytes (base + INDEX_ENTRY_LEN)
  end.

(** The full decode of the block: ids so far and samples still to be met. *)
Fixpoint check_block (fuel : nat) (id : Z) (block : list byte) (offset : nat) (rest : list (Z * Z))
    (ids : list EntryHash) : option (result JournalError (list EntryHash * list (Z * Z))) :=
  match next_frame block offset with
  | Err e => Some (Err e)
  | Ok None => Some (Ok (ids, rest))
  | Ok (Some (next, payload)) =>
      match fuel with
      | O => None
      | S fuel =>
          match decode_frame_payload payload with
          | Err e => Some (Err e)
          | Ok entry =>
              match rest with
              | (o, p) :: rest' =>
                  if (o =? Z.of_nat offset)%Z then
                    if (p =? prefix_of (eid entry))%Z then check_block fuel id block next rest' (ids ++ [eid entry])
                    else Some (Err (segment_corrupt id "sparse index prefix mismatch"))
                  else check_block fuel id block next rest (ids ++ [eid entry])
              | [] => check_block fuel id block next [] (ids ++ [eid entry])
              end
          end
      end
  end.

(** [parse_segment_bytes]: [Ok None] is a file that is not a whole segment. *)
Definition parse_segment_bytes (bytes : list byte) (id : Z) : option (result JournalError (option SealedSegment)) :=
  let file_len := length bytes in
  if (file_len <? FRAME_PREFIX_LEN + TRAILER_LEN)%nat then Some (Ok None)
  else
    let trailer := drop (file_len - TRAILER_LEN) bytes in
    let index_len := read_u32_be_at trailer 0 in
    let compressed_len := read_u64_be_at trailer 8 in
    match parse_prefix bytes MAGIC_SEGMENT with
    | Err (FrameVersion v) => Some (Err (segment_corrupt v "unsupported segment version"))
    | Err _ => Some (Ok None)
    | Ok prefix =>
        let header_end := (FRAME_PREFIX_LEN + Z.to_nat (header_len prefix))%nat in
        if (file_len <? header_end + TRAILER_LEN)%nat then Some (Ok None)
        else
          match parse_segment_header (slice bytes FRAME_PREFIX_LEN header_end) with
          | None => Some (Ok None)
          | Some (entry_count, uncompressed_len, root_hash, interval) =>
              let index_bytes := index_len * Z.of_nat INDEX_ENTRY_LEN in
              let expected_len :=
                match checked_add (Z.of_nat header_end) compressed_len with
                | Some v => match checked_add v index_bytes with Some v => checked_add v (Z.of_nat TRAILER_LEN) | None => None end
                | None => None
                end in
              if bool_decide (expected_len = Some (Z.of_nat file_len)) then
                let index_start := (header_end + Z.to_nat compressed_len)%nat in
                let samples := read_samples (Z.to_nat index_len) bytes index_start in
                match decode_segment_block (slice bytes header_end index_start) with
                | Err e => Some (Err e)
                | Ok block =>
                    if (Z.of_nat (length block) =? uncompressed_len)%Z then
                      match check_block (length block) id block 0 samples [] with
                      | None => None
                      | Some (Err e) => Some (Err e)
                      | Some (Ok (ids, rest)) =>
                          if negb (Z.of_nat (length ids) =? entry_count)%Z
                          then Some (Err (segment_corrupt id "entry count mismatch"))
                          else if negb (bool_decide (blake3 (concat ids) = root_hash))
                          then Some (Err (segment_corrupt id "root hash mismatch after full decode"))
                          else
                            match rest with
                            | _ :: _ => Some (Err (segment_corrupt id "sparse index references non-frame offsets"))
                            | [] =>
                                Some (Ok (Some (mkSealed id entry_count uncompressed_len compressed_len root_hash interval
                                                  false (Z.of_nat header_end) samples)))
                            end
                      end
                    else Some (Err (segment_corrupt id "uncompressed length mismatch"))
                end
              else Some (Ok None)
          end
    end.
End Hashed.
