(* ===== verification/SegmentProofs.v ===== *)
(** * Segment storage: correctness

    - Frames: a written frame is walked and decoded back; a torn tail is cut at the last whole frame.
    - The sparse index finds every stored entry.
    - A sealed segment parses back to its metadata. *)

From S2P Require Import Prelude Machine Cbor CborProofs Limits Value ValueProofs Path Hex Frame Entry EntryProofs EntryDecode OrdMap Clock Dag Segment.

Open Scope Z_scope.

(** ** Frames in a block *)

(** A frame is its body behind an eight-byte length. *)
Definition framed (body : list byte) : list byte := to_le_bytes 8 (Z.of_nat (length body)) ++ body.
Definition body_ok (body : list byte) : Prop := MIN_FRAME_PAYLOAD <= Z.of_nat (length body) <= u64_max.
Definition frames (bodies : list (list byte)) : list byte := concat (map framed bodies).

Lemma length_framed body : length (framed body) = (8 + length body)%nat.
Proof. unfold framed. rewrite length_app, length_to_le_bytes. done. Qed.

Lemma frames_cons body bodies : frames (body :: bodies) = framed body ++ frames bodies.
Proof. done. Qed.

Lemma frames_single body : frames [body] = framed body.
Proof. unfold frames. cbn. rewrite app_nil_r. done. Qed.

Lemma frames_app l k : frames (l ++ k) = frames l ++ frames k.
Proof. unfold frames. rewrite map_app, concat_app. done. Qed.

Lemma read_u64_le_app pre v post : is_u64 v -> read_u64_le_at (pre ++ to_le_bytes 8 v ++ post) (length pre) = v.
Proof.
  intros Hv. unfold read_u64_le_at. rewrite drop_app_prefix, <- (length_to_le_bytes 8 v) at 1.
  rewrite take_app_prefix. apply from_to_le_bytes. unfold is_u64, u64_max in Hv. lia.
Qed.

Lemma slice_app {A} (pre mid post : list A) : slice (pre ++ mid ++ post) (length pre) (length pre + length mid) = mid.
Proof.
  unfold slice. replace (length pre + length mid - length pre)%nat with (length mid) by lia.
  rewrite drop_app_prefix, take_app_prefix. done.
Qed.

Lemma frame_end_ok block p len msg : Z.of_nat (length block) <= u64_max -> 0 <= len ->
  Z.of_nat p + len <= Z.of_nat (length block) -> frame_end block p len msg = Ok (p + Z.to_nat len)%nat.
Proof.
  intros Hb Hl Hp. unfold frame_end, checked_add.
  rewrite (proj2 (Z.leb_le _ _)) by lia. cbn. rewrite (proj2 (Z.ltb_ge _ _)) by lia. f_equal. lia.
Qed.

Lemma next_frame_framed pre body post : body_ok body ->
  Z.of_nat (length (pre ++ framed body ++ post)) <= u64_max ->
  next_frame (pre ++ framed body ++ post) (length pre) = Ok (Some (length pre + length (framed body), body)%nat).
Proof.
  intros [H1 H2] Hl. pose proof Hl as Hl'. rewrite !length_app, length_framed in Hl'. unfold next_frame.
  rewrite (proj2 (Nat.leb_gt _ _)) by (rewrite !length_app, length_framed; lia).
  rewrite (proj2 (Nat.ltb_ge _ _)) by (rewrite !length_app, length_framed; lia).
  assert (E : read_u64_le_at (pre ++ framed body ++ post) (length pre) = Z.of_nat (length body)).
  { unfold framed. rewrite <- !app_assoc. apply read_u64_le_app. unfold is_u64. lia. }
  rewrite E, (proj2 (Z.ltb_ge _ _)) by lia.
  rewrite frame_end_ok by (rewrite ?length_app, ?length_framed in *; lia).
  rewrite length_framed, Nat2Z.id. do 2 f_equal.
  replace (length pre + (8 + length body))%nat with (length pre + 8 + length body)%nat by lia. f_equal.
  unfold framed. rewrite <- !app_assoc, (app_assoc pre).
  replace (length pre + 8)%nat with (length (pre ++ to_le_bytes 8 (Z.of_nat (length body))))
    by (rewrite length_app, length_to_le_bytes; done).
  apply slice_app.
Qed.

(** ** The torn tail *)

(** A block cut inside its next frame has no complete frame at that offset. *)
Lemma complete_frames_stop fuel pre body t last : body_ok body -> (0 < fuel)%nat ->
  t `prefix_of` framed body -> t <> framed body ->
  complete_frames fuel (pre ++ t) (length pre) last = Some last.
Proof.
  intros [Hb1 Hb2] Hf [k Hk] Hne. pose proof (f_equal length Hk) as Hlen. rewrite length_app, length_framed in Hlen.
  assert (Hk0 : (0 < length k)%nat) by (destruct k; [rewrite app_nil_r in Hk; congruence | cbn; lia]).
  destruct fuel as [|fuel]; [lia|]. cbn [complete_frames]. rewrite length_app.
  destruct (Nat.ltb_spec (length pre + length t) (length pre + 8)) as [H|H]; [done|].
  assert (E : read_u64_le_at (pre ++ t) (length pre) = Z.of_nat (length body)).
  { unfold read_u64_le_at. rewrite drop_app_prefix. unfold framed in Hk. apply (f_equal (take 8)) in Hk.
    rewrite take_app_le in Hk by (rewrite length_to_le_bytes; lia).
    rewrite take_ge in Hk by (rewrite length_to_le_bytes; lia).
    rewrite take_app_le in Hk by lia. rewrite <- Hk. apply from_to_le_bytes. unfold u64_max in Hb2. lia. }
  rewrite E, (proj2 (Z.ltb_ge _ _)) by lia. unfold checked_add.
  destruct (_ <=? u64_max)%Z; [|done]. destruct (_ <=? u64_max)%Z; [|done].
  rewrite (proj2 (Z.ltb_lt _ _)) by lia. done.
Qed.

(** A whole frame at the offset is counted. *)
Lemma complete_frames_step fuel pre body post last : body_ok body ->
  Z.of_nat (length (pre ++ framed body ++ post)) <= u64_max ->
  complete_frames (S fuel) (pre ++ framed body ++ post) (length pre) last
  = complete_frames fuel ((pre ++ framed body) ++ post) (length (pre ++ framed body)) (length (pre ++ framed body)).
Proof.
  intros [H1 H2] Hl. cbn [complete_frames]. rewrite <- app_assoc.
  rewrite (proj2 (Nat.ltb_ge _ _)) by (rewrite !length_app, length_framed; lia).
  assert (E : read_u64_le_at (pre ++ framed body ++ post) (length pre) = Z.of_nat (length body)).
  { unfold framed. rewrite <- !app_assoc. apply read_u64_le_app. unfold is_u64. lia. }
  rewrite E, (proj2 (Z.ltb_ge _ _)) by lia. rewrite !length_app, length_framed in *. unfold checked_add.
  rewrite (proj2 (Z.leb_le (Z.of_nat (length pre) + 8) u64_max)) by lia.
  rewrite (proj2 (Z.leb_le _ _)), (proj2 (Z.ltb_ge _ _)) by lia.
  replace (Z.to_nat _) with (length pre + (8 + length body))%nat by lia. done.
Qed.

(** The scan of a log cut anywhere stops after the last frame that is whole. *)
Lemma complete_frames_torn bodies : Forall body_ok bodies -> forall t fuel pre,
  t `prefix_of` frames bodies -> (length t <= fuel)%nat -> Z.of_nat (length (pre ++ t)) <= u64_max ->
  exists k rest, t = frames (take k bodies) ++ rest
    /\ (rest = [] \/ exists body, bodies !! k = Some body /\ rest `prefix_of` framed body /\ rest <> framed body)
    /\ complete_frames fuel (pre ++ t) (length pre) (length pre) = Some (length (pre ++ frames (take k bodies))).
Proof.
  induction 1 as [|body bodies Hb Hbs IH]; intros t fuel pre Ht Hf Hl.
  - apply prefix_nil_inv in Ht as ->. exists 0%nat, []. rewrite !app_nil_r. split_and!; auto.
    destruct fuel; cbn [complete_frames]; rewrite (proj2 (Nat.ltb_lt _ _)) by lia; done.
  - rewrite frames_cons in Ht. apply prefix_app_cases in Ht as [[Ht Hne]|(t' & -> & Ht)].
    + exists 0%nat, t. cbn. rewrite app_nil_r. split_and!; [done | right; exists body; done |].
      destruct fuel as [|fuel]; [|apply (complete_frames_stop _ _ body); [done | lia | done | done]].
      destruct t; [|cbn in Hf; lia]. rewrite app_nil_r. cbn [complete_frames].
      rewrite (proj2 (Nat.ltb_lt _ _)) by lia. done.
    + rewrite length_app, length_framed in Hf. destruct fuel as [|fuel]; [lia|].
      destruct (IH t' fuel (pre ++ framed body) Ht) as (k & rest & -> & Hr & Hc); [lia | rewrite <- app_assoc; done |].
      exists (S k), rest. rewrite firstn_cons, frames_cons, <- app_assoc. split_and!; [done | done |].
      rewrite complete_frames_step, Hc, <- !app_assoc by (rewrite <- ?app_assoc; done). done.
Qed.

(** ** Entries in frames *)

Lemma clock_pairs_app acc c : Forall (fun e => is_u32 e.1) c -> ordered (acc ++ c) ->
  clock_pairs acc (map (fun e => (CUnsigned e.1, CUnsigned e.2)) c) = Ok (acc ++ c).
Proof.
  revert acc. induction c as [|[k v] c IH]; intros acc Hu Ho; [rewrite app_nil_r; done|].
  inversion_clear Hu as [|? ? Hk Hc]. cbn [map clock_pairs]. unfold clock_pair. cbn [fst snd].
  rewrite (u32_try_from_ok k Hk). cbn [ok_or].
  assert (Hlast : Forall (fun e => e.1 < k) acc).
  { apply Forall_forall. intros e He. apply (ordered_app _ _ Ho e (k, v)); [exact He | left; done]. }
  rewrite (oinsert_last _ _ _ Hlast), IH by (rewrite <- ?app_assoc; done). rewrite <- app_assoc. done.
Qed.

Lemma clock_cbor_canon c : clock_wf c -> Forall (fun e => is_u32 e.1) c -> canon (clock_cbor c) = clock_cbor c.
Proof.
  intros [Ho _] Hu. unfold clock_cbor. cbn [canon]. rewrite map_map. f_equal.
  assert (Hs : strictly_sorted (map (fun e => (unsigned e.1, unsigned e.2)) c)).
  { apply clock_entries_sorted; [done|]. eapply List.Forall_impl; [|exact Hu]. intros e. apply is_u32_u64. }
  rewrite sort_by_key_id, map_map; [done|]. apply strictly_sorted_keys in Hs. apply strictly_sorted_keys.
  rewrite map_map in *. exact Hs.
Qed.

Lemma max_over_bound {A} (f : A -> nat) l n : (forall x, In x l -> (f x <= n)%nat) -> (max_over f l <= n)%nat.
Proof.
  induction l as [|x l IH]; cbn; intros H; [lia|]. apply Nat.max_lub; [apply H; left; done|].
  apply IH. intros y Hy. apply H. right. done.
Qed.

(** The bytes of a clock decode to its map. *)
Lemma clock_from_canonical c : clock_wf c -> Forall (fun e => is_u32 e.1) c ->
  Z.of_nat (length c) <= u64_max -> from_canonical_bytes (clock_encode c) = Ok (clock_cbor c).
Proof.
  intros Hw Hu Hl.
  assert (Hu' : Forall (fun e => is_u64 e.1) c) by (eapply List.Forall_impl; [|exact Hu]; intros e; apply is_u32_u64).
  rewrite (from_to_canonical (clock_cbor c)); [| | |apply clock_to_canonical; done].
  - rewrite clock_cbor_canon by done. done.
  - unfold clock_cbor. cbn [cbor_wf]. rewrite length_map. apply andb_true_iff. split; [apply u64b_spec; unfold is_u64; lia|].
    apply forallb_forall. intros p (e & <- & He)%in_map_iff. cbn. rewrite Forall_forall in Hu'. destruct Hw as [_ Hv].
    rewrite Forall_forall in Hv. specialize (Hu' _ He). specialize (Hv _ He).
    apply andb_true_iff. split; apply u64b_spec; [done | unfold is_u64; lia].
  - unfold clock_cbor. cbn [cbor_depth]. trans 1%nat; [|unfold MAX_DEPTH; lia].
    apply max_over_bound. intros e (x & <- & _)%in_map_iff. done.
Qed.

Lemma decode_vector_clock_encode c : clock_wf c -> Forall (fun e => is_u32 e.1) c ->
  Z.of_nat (length c) <= u64_max -> decode_vector_clock (clock_encode c) = Ok c.
Proof.
  intros Hw Hu Hl. unfold decode_vector_clock. rewrite clock_from_canonical by done. cbn.
  apply (clock_pairs_app []); [done | apply Hw].
Qed.

Lemma length_clock_encode c : (length c <= length (clock_encode c))%nat.
Proof.
  unfold clock_encode. rewrite length_app.
  pose proof (length_concat_map (fun e => unsigned e.1 ++ unsigned e.2) c) as H. cbn in H.
  enough (length c <= length (concat (map (fun e => unsigned e.1 ++ unsigned e.2) c)))%nat by lia. apply H.
  intros e. rewrite length_app. pose proof (len_unsigned e.1). lia.
Qed.

Section Stored.
Variable blake3 : list byte -> list byte.

Definition data_of (e : JEntry) : list byte := match entry_encode (edata e) with Ok data => data | Err _ => [] end.
Definition body (e : JEntry) : list byte :=
  eid e ++ to_le_bytes 8 (Z.of_nat (length (data_of e))) ++ data_of e ++ clock_encode (eclock e).

(** What the journal appends: an entry under its content address, with parts of their widths. *)
Record storable (e : JEntry) : Prop := {
  so_data : entry_encode (edata e) = Ok (data_of e);
  so_wf : entry_wf (edata e) = true;
  so_vc : Z.of_nat (length (vector_clock (edata e))) <= MAX_VECTOR_CLOCK_ACTORS;
  so_clock : clock_wf (eclock e);
  so_actors : Forall (fun c => is_u32 c.1) (eclock e);
  so_id : eid e = blake3 (data_of e ++ clock_encode (eclock e));
  so_len : length (eid e) = 32%nat;
  so_size : Z.of_nat (length (body e)) <= u64_max }.

(** An entry as it is read back: its values with maps in canonical key order. *)
Definition stored (e : JEntry) : JEntry := mkJEntry (eid e) (canon_entry (edata e)) (eclock e).

Lemma length_body e : storable e ->
  length (body e) = (40 + (length (data_of e) + length (clock_encode (eclock e))))%nat.
Proof. intros S. unfold body. rewrite !length_app, length_to_le_bytes, (so_len _ S). lia. Qed.

Lemma body_is_ok e : storable e -> body_ok (body e).
Proof. intros S. split; [|apply (so_size _ S)]. rewrite (length_body e S). unfold MIN_FRAME_PAYLOAD. lia. Qed.

Lemma encode_entry_payload_body e : storable e ->
  encode_entry_payload e = Ok (length (data_of e), data_of e ++ clock_encode (eclock e)).
Proof. intros S. unfold encode_entry_payload. rewrite (so_data _ S). done. Qed.

Lemma write_frame_body buf e : storable e ->
  write_frame buf (eid e) (length (data_of e)) (data_of e ++ clock_encode (eclock e)) = buf ++ framed (body e).
Proof.
  intros S. unfold write_frame, framed. do 2 f_equal.
  rewrite (length_body e S), length_app. replace (32 + 8 + _)%nat with (40 + (length (data_of e) + length (clock_encode (eclock e))))%nat by lia.
  done.
Qed.

Lemma encode_entry_frame_body e : storable e -> encode_entry_frame e = Ok (framed (body e)).
Proof.
  intros S. unfold encode_entry_frame. rewrite (encode_entry_payload_body e S), (write_frame_body [] e S). done.
Qed.

Lemma decode_body e : storable e -> decode_frame_payload blake3 (body e) = Ok (stored e).
Proof.
  intros S. pose proof (length_body e S) as Hl. pose proof (so_size _ S) as Hs. unfold decode_frame_payload.
  rewrite (proj2 (Z.ltb_ge _ _)) by (rewrite Hl; unfold MIN_FRAME_PAYLOAD; lia).
  assert (E : read_u64_le_at (body e) 32 = Z.of_nat (length (data_of e))).
  { unfold body. rewrite <- (so_len _ S). apply read_u64_le_app. unfold is_u64. lia. }
  rewrite E. unfold checked_add. rewrite (proj2 (Z.leb_le _ _)) by lia. cbn [ok_or].
  rewrite (proj2 (Z.ltb_ge _ _)) by lia.
  replace (Z.to_nat (40 + Z.of_nat (length (data_of e)))) with (40 + length (data_of e))%nat by lia.
  assert (Eb : body e = (eid e ++ to_le_bytes 8 (Z.of_nat (length (data_of e)))) ++ data_of e ++ clock_encode (eclock e))
    by (unfold body; rewrite <- !app_assoc; done).
  assert (Ep : length (eid e ++ to_le_bytes 8 (Z.of_nat (length (data_of e)))) = 40%nat)
    by (rewrite length_app, length_to_le_bytes, (so_len _ S); done).
  assert (Ed : slice (body e) 40 (40 + length (data_of e)) = data_of e) by (rewrite Eb, <- Ep; apply slice_app).
  assert (Ec : drop (40 + length (data_of e)) (body e) = clock_encode (eclock e)).
  { rewrite Eb, app_assoc, <- Ep, <- length_app. apply drop_app_prefix. }
  assert (Ei : take 32 (body e) = eid e) by (unfold body; rewrite <- (so_len _ S); apply take_app_prefix).
  rewrite Ed, Ec, Ei, bool_decide_true by (symmetry; apply (so_id _ S)).
  unfold decode_entry_data. rewrite (entry_decode_encode (edata e) (data_of e) (so_wf _ S) (so_vc _ S) (so_data _ S)).
  cbn [map_err]. rewrite decode_vector_clock_encode; [done | apply S | apply S |].
  pose proof (length_clock_encode (eclock e)). lia.
Qed.

(** Storing what was read back writes the same frame again. *)
Lemma stored_data e : storable e -> data_of (stored e) = data_of e.
Proof. intros S. unfold data_of at 1. cbn. rewrite (entry_encode_canon _ _ (so_wf _ S) (so_data _ S)). done. Qed.

Lemma stored_body e : storable e -> body (stored e) = body e.
Proof. intros S. unfold body. rewrite (stored_data e S). done. Qed.

Lemma stored_storable e : storable e -> storable (stored e).
Proof.
  intros S. pose proof (stored_data e S) as Hd. pose proof (stored_body e S) as Hb. destruct S as [S1 S2 S3 S4 S5 S6 S7 S8].
  pose proof (entry_decode_encode _ _ S2 S3 S1) as D. apply entry_decode_wf in D as (_ & D1 & _ & D2 & _).
  split; rewrite ?Hd, ?Hb; try done. apply entry_encode_canon; done.
Qed.

Lemma stored_stored e : storable e -> stored (stored e) = stored e.
Proof.
  intros S. pose proof (decode_body _ (stored_storable e S)) as H. rewrite (stored_body e S), (decode_body e S) in H.
  apply Ok_inj in H. symmetry. exact H.
Qed.

(** Walking a block of frames gives the entries back. *)
Lemma walk_bodies es : Forall storable es -> forall fuel pre, (length es <= fuel)%nat ->
  Z.of_nat (length (pre ++ frames (map body es))) <= u64_max ->
  walk_frames blake3 fuel (pre ++ frames (map body es)) (length pre) = Some (Ok (map stored es)).
Proof.
  induction 1 as [|e es He Hes IH]; intros fuel pre Hf Hl.
  - cbn. rewrite app_nil_r. destruct fuel; cbn; rewrite (proj2 (Nat.leb_le _ _)) by lia; done.
  - destruct fuel as [|fuel]; [cbn in Hf; lia|]. cbn [map] in *. rewrite frames_cons in *. cbn [walk_frames].
    rewrite (proj2 (Nat.leb_gt _ _)) by (rewrite !length_app, length_framed; lia).
    rewrite next_frame_framed by (done || apply body_is_ok; done). rewrite (decode_body e He).
    rewrite app_assoc, <- length_app, IH; [done | cbn in Hf; lia | rewrite <- app_assoc; done].
Qed.

Lemma length_frames_bodies es : Forall storable es -> (48 * length es <= length (frames (map body es)))%nat.
Proof.
  induction 1 as [|e es He Hes IH]; [cbn; lia|]. cbn [map length]. rewrite frames_cons, length_app, length_framed, (length_body e He). lia.
Qed.

Lemma block_entries_bodies es : Forall storable es -> Z.of_nat (length (frames (map body es))) <= u64_max ->
  block_entries blake3 (frames (map body es)) = Some (Ok (map stored es)).
Proof.
  intros Hs Hl. unfold block_entries. apply (walk_bodies es Hs _ []); [|done].
  pose proof (length_frames_bodies es Hs). lia.
Qed.

(** ** The open writer *)

Fixpoint index_from (offset : nat) (es : list JEntry) : list (EntryHash * Z) :=
  match es with
  | [] => []
  | e :: es => (eid e, Z.of_nat offset) :: index_from (offset + length (framed (body e))) es
  end.

(** The writer that holds the entries. *)
Definition writer_of (es : list JEntry) : SegmentWriter :=
  mkWriter (frames (map body es)) (index_from 0 es)
    (existsb (fun e => kind_is_fault_relevant (kind (edata e))) es).

Lemma index_from_snoc offset es e :
  index_from offset (es ++ [e]) = index_from offset es ++ [(eid e, Z.of_nat (offset + length (frames (map body es))))].
Proof.
  revert offset. induction es as [|x es IH]; intros offset; cbn [app index_from map]; [cbn; rewrite Nat.add_0_r; done|].
  rewrite IH, frames_cons, length_app. cbn [app]. do 4 f_equal. lia.
Qed.

Lemma index_from_ids offset es : map fst (index_from offset es) = map eid es.
Proof. revert offset. induction es as [|e es IH]; intros offset; cbn; [done|]. rewrite IH. done. Qed.

Lemma writer_of_snoc es e : mkWriter (buffer (writer_of es) ++ framed (body e))
    (index (writer_of es) ++ [(eid e, Z.of_nat (length (buffer (writer_of es))))])
    (fault_relevant (writer_of es) || kind_is_fault_relevant (kind (edata e))) = writer_of (es ++ [e]).
Proof.
  unfold writer_of. cbn. rewrite map_app, frames_app, index_from_snoc, existsb_app. cbn [map existsb].
  unfold frames at 3. cbn. rewrite app_nil_r, orb_false_r. done.
Qed.

Lemma writer_append_of es e : storable e -> writer_append (writer_of es) e = Ok (framed (body e), writer_of (es ++ [e])).
Proof.
  intros S. unfold writer_append. rewrite (encode_entry_frame_body e S), writer_of_snoc. done.
Qed.

Lemma writer_append_slice_of es new : Forall storable new ->
  writer_append_slice (writer_of es) new = (Ok tt, writer_of (es ++ new)).
Proof.
  intros H. revert es. induction H as [|e new He Hnew IH]; intros es; cbn [writer_append_slice]; [rewrite app_nil_r; done|].
  rewrite (encode_entry_payload_body e He), (write_frame_body _ e He), writer_of_snoc, IH, <- app_assoc. done.
Qed.

(** The frame a batch hands to the store is the frame the writer would make of the entry. *)
Definition frame_for (e : JEntry) : EntryFrame :=
  mkFrame (eid e) (length (data_of e)) (data_of e ++ clock_encode (eclock e)) (kind_is_fault_relevant (kind (edata e))).

Lemma writer_append_frames_of es new : Forall storable new ->
  writer_append_frames (writer_of es) (map frame_for new) = writer_of (es ++ new).
Proof.
  unfold writer_append_frames. intros H. revert es. induction H as [|e new He Hnew IH]; intros es; cbn [map foldl]; [rewrite app_nil_r; done|].
  unfold writer_append_frame at 2. cbn [frame_for f_id f_data_len f_payload f_fault_relevant].
  rewrite (write_frame_body _ e He), writer_of_snoc, IH, <- app_assoc. done.
Qed.

(** ** Sealed segments *)

(** Samples of later frames have later offsets. *)
Lemma sample_index_later i offset es : Forall (fun s => Z.of_nat offset <= s.1) (sample_index i (index_from offset es)).
Proof.
  revert i offset. induction es as [|e es IH]; intros i offset; cbn [index_from sample_index]; [constructor|].
  apply List.Forall_app. split; [destruct (_ =? 0)%nat; repeat constructor; cbn; lia|].
  eapply List.Forall_impl; [|apply IH]. cbn. intros s Hs. lia.
Qed.

(** The full decode of a sealed block meets every sample. *)
Lemma check_block_bodies id es : Forall storable es -> forall fuel pre i ids, (length es <= fuel)%nat ->
  Z.of_nat (length (pre ++ frames (map body es))) <= u64_max ->
  check_block blake3 fuel id (pre ++ frames (map body es)) (length pre)
    (sample_index i (index_from (length pre) es)) ids = Some (Ok (ids ++ map eid es, [])).
Proof.
  induction 1 as [|e es He Hes IH]; intros fuel pre i ids Hf Hl.
  - cbn [map index_from sample_index]. unfold frames. cbn [map concat]. rewrite !app_nil_r.
    destruct fuel; cbn [check_block]; unfold next_frame; rewrite (proj2 (Nat.leb_le _ _)) by lia; done.
  - destruct fuel as [|fuel]; [cbn in Hf; lia|]. cbn [map index_from sample_index] in *. rewrite frames_cons in *.
    cbn [check_block]. rewrite next_frame_framed by (done || apply body_is_ok; done). rewrite (decode_body e He).
    specialize (IH fuel (pre ++ framed (body e)) (S i) (ids ++ [eid e])).
    rewrite <- !app_assoc in IH. specialize (IH ltac:(cbn in Hf; lia) Hl). rewrite !length_app in IH.
    pose proof (sample_index_later (S i) (length pre + length (framed (body e))) es) as Hlater.
    destruct (i mod SAMPLE_INTERVAL =? 0)%nat; cbn [app].
    + rewrite Z.eqb_refl. cbn [stored eid]. rewrite Z.eqb_refl. exact IH.
    + destruct (sample_index (S i) _) as [|[o p] rest] eqn:E; [exact IH|].
      inversion_clear Hlater as [|? ? Ho _]. cbn [fst] in Ho. rewrite length_framed in Ho.
      rewrite (proj2 (Z.eqb_neq _ _)) by lia. exact IH.
Qed.

Lemma read_be_app n pre v post : 0 <= v < 256 ^ Z.of_nat n ->
  from_be_bytes (take n (drop (length pre) (pre ++ to_be_bytes n v ++ post))) = v.
Proof.
  intros Hv. rewrite drop_app_prefix, <- (length_to_be_bytes n v) at 1. rewrite take_app_prefix.
  apply from_to_be_bytes. exact Hv.
Qed.

Definition sample_ok (s : Z * Z) : Prop := is_u64 s.1 /\ is_u32 s.2.

Lemma read_samples_app l : Forall sample_ok l -> forall pre post,
  read_samples (length l) (pre ++ concat (map sample_bytes l) ++ post) (length pre) = l.
Proof.
  induction 1 as [|[o p] l [Ho Hp] Hl IH]; intros pre post; [done|]. cbn [length read_samples map concat]. f_equal.
  - unfold sample_bytes. cbn [fst snd] in *. unfold is_u64, is_u32, u64_max, u32_max in *. f_equal.
    + unfold read_u64_be_at. rewrite <- !app_assoc. apply read_be_app. lia.
    + unfold read_u32_be_at. rewrite <- !app_assoc, (app_assoc pre).
      replace (length pre + 8)%nat with (length (pre ++ to_be_bytes 8 o)) by (rewrite length_app, length_to_be_bytes; done).
      apply read_be_app. lia.
  - rewrite <- app_assoc, (app_assoc pre). unfold INDEX_ENTRY_LEN.
    replace (length pre + 12)%nat with (length (pre ++ sample_bytes (o, p)))
      by (unfold sample_bytes; rewrite !length_app, !length_to_be_bytes; done).
    apply IH.
Qed.

Lemma length_sample_bytes l : length (concat (map sample_bytes l)) = (12 * length l)%nat.
Proof.
  induction l as [|s l IH]; [done|]. cbn [map concat length]. rewrite length_app, IH. unfold sample_bytes.
  rewrite length_app, !length_to_be_bytes. lia.
Qed.
End Stored.

Lemma parse_segment_header_ok count len root : is_u64 count -> is_u64 len -> length root = 32%nat ->
  parse_segment_header (segment_header count len root) = Some (count, len, root, Z.of_nat SAMPLE_INTERVAL).
Proof.
  intros Hc Hl Hr. unfold parse_segment_header.
  rewrite (from_to_canonical (CArray [CUnsigned count; CUnsigned len; CBytes root; CUnsigned (Z.of_nat SAMPLE_INTERVAL)])).
  - cbn [canon map]. rewrite Hr. done.
  - cbn [cbor_wf forallb length]. rewrite Hr. apply u64b_spec in Hc, Hl. rewrite Hc, Hl. done.
  - unfold MAX_DEPTH. cbn. lia.
  - unfold segment_header. cbn. rewrite app_nil_r. done.
Qed.

Lemma length_major k v : (length (major k v) <= 9)%nat.
Proof.
  unfold major. repeat (case_split; [cbn [length]; rewrite ?length_to_be_bytes; lia|]).
  cbn [length]. rewrite length_to_be_bytes. lia.
Qed.

Lemma length_segment_header count len root : length root = 32%nat -> (length (segment_header count len root) <= 100)%nat.
Proof.
  intros Hr. unfold segment_header, array, unsigned, cbytes. rewrite !length_app, Hr.
  pose proof (length_major 4 (Z.of_nat 4)). pose proof (length_major 0 count). pose proof (length_major 0 len).
  pose proof (length_major 2 (Z.of_nat 32)). pose proof (length_major 0 (Z.of_nat SAMPLE_INTERVAL)). lia.
Qed.

Lemma drop_suffix {A} (l k : list A) : drop (length (l ++ k) - length k) (l ++ k) = k.
Proof. rewrite length_app. replace (_ - _)%nat with (length l) by lia. apply drop_app_prefix. Qed.

Section Sealed.
Variable blake3 : list byte -> list byte.
Variable zstd_encode : list byte -> list byte.
Variable zstd_decode : Z -> list byte -> option (list byte).
(** The streaming decoder returns the first bytes of what was compressed. *)
Hypothesis zstd_ok : forall n b, 0 <= n -> zstd_decode n (zstd_encode b) = Some (take (Z.to_nat n) b).

Lemma decode_segment_block_ok b :
  Z.of_nat (length (zstd_encode b)) <= MAX_COMPRESSED_SEGMENT_BYTES ->
  Z.of_nat (length b) <= MAX_DECOMPRESSED_SEGMENT_BYTES -> decode_segment_block zstd_decode (zstd_encode b) = Ok b.
Proof.
  intros Hc Hd. unfold decode_segment_block, decode_segment_block_with_cap.
  rewrite (proj2 (Z.ltb_ge _ _)) by lia. unfold saturating_add, u64_max.
  rewrite zstd_ok by (unfold MAX_DECOMPRESSED_SEGMENT_BYTES; lia). cbn [ok_or].
  rewrite take_ge by (unfold MAX_DECOMPRESSED_SEGMENT_BYTES in *; lia).
  rewrite (proj2 (Z.ltb_ge _ _)) by lia. done.
Qed.

(** The metadata a parse recovers: the fault flag is not part of the segment file. *)
Definition reloaded (m : SealedSegment) : SealedSegment :=
  mkSealed (s_id m) (entry_count m) (uncompressed_len m) (compressed_len m) (s_root_hash m) (sample_interval m)
    false (data_offset m) (samples m).

(** Entries whose sealed segment is within the limits its reader enforces. *)
Record sealable (es : list JEntry) : Prop := {
  se_storable : Forall (storable blake3) es;
  se_root : length (blake3 (concat (map eid es))) = 32%nat;
  se_block : Z.of_nat (length (frames (map body es))) <= MAX_DECOMPRESSED_SEGMENT_BYTES;
  se_compressed : Z.of_nat (length (zstd_encode (frames (map body es)))) <= MAX_COMPRESSED_SEGMENT_BYTES }.

Lemma prefix_of_u32 h : is_u32 (Segment.prefix_of h).
Proof.
  unfold is_u32, Segment.prefix_of, u32_max. pose proof (from_le_bytes_range (take 4 h)) as H. rewrite length_take in H.
  assert (256 ^ Z.of_nat (4 `min` length h) <= 256 ^ 4) by (apply Z.pow_le_mono_r; lia). lia.
Qed.

Lemma samples_ok i offset es : Z.of_nat (offset + length (frames (map body es))) <= u64_max ->
  Forall sample_ok (sample_index i (index_from offset es)).
Proof.
  revert i offset. induction es as [|e es IH]; intros i offset Hl; cbn [index_from sample_index]; [constructor|].
  cbn [map] in Hl. rewrite frames_cons, length_app in Hl. apply List.Forall_app. split.
  - destruct (_ =? 0)%nat; repeat constructor; cbn [fst snd]; try apply prefix_of_u32; lia.
  - apply IH. lia.
Qed.

Lemma length_sample_index i index : (length (sample_index i index) <= length index)%nat.
Proof.
  revert i. induction index as [|[h o] index IH]; intros i; cbn [sample_index length]; [lia|]. rewrite length_app.
  specialize (IH (S i)). destruct (_ =? 0)%nat; cbn [length]; lia.
Qed.

(** The file [seal] writes, by its parts. *)
Lemma seal_parts es sid : exists header compressed index trailer,
  header = segment_header (Z.of_nat (length es)) (Z.of_nat (length (frames (map body es)))) (blake3 (concat (map eid es)))
  /\ compressed = zstd_encode (frames (map body es))
  /\ index = sample_index 0 (index_from 0 es)
  /\ trailer = write_trailer (Z.of_nat (length index)) (Z.of_nat SAMPLE_INTERVAL) (Z.of_nat (length compressed))
  /\ (seal blake3 zstd_encode (writer_of es) sid).1
     = encode_prefix MAGIC_SEGMENT (Z.of_nat (length header)) ++ header ++ compressed
       ++ concat (map sample_bytes index) ++ trailer
  /\ reloaded (seal blake3 zstd_encode (writer_of es) sid).2
     = mkSealed sid (Z.of_nat (length es)) (Z.of_nat (length (frames (map body es)))) (Z.of_nat (length compressed))
         (blake3 (concat (map eid es))) (Z.of_nat SAMPLE_INTERVAL) false
         (Z.of_nat (FRAME_PREFIX_LEN + length header)) index.
Proof.
  do 4 eexists. do 4 (split; [reflexivity|]). unfold seal, reloaded. cbn [writer_of Segment.buffer Segment.index fst snd].
  assert (Hi : length (index_from 0 es) = length es) by (rewrite <- (length_map fst), index_from_ids, length_map; done).
  rewrite index_from_ids, Hi. done.
Qed.

Lemma read_trailer n k c : is_u32 n -> is_u64 c ->
  read_u32_be_at (write_trailer n k c) 0 = n /\ read_u64_be_at (write_trailer n k c) 8 = c.
Proof.
  unfold is_u32, is_u64, u32_max, u64_max. intros Hn Hc. unfold write_trailer. split.
  - apply (read_be_app 4 []). lia.
  - unfold read_u64_be_at. rewrite app_assoc, <- (app_nil_r (to_be_bytes 8 c)).
    replace 8%nat with (length (to_be_bytes 4 n ++ to_be_bytes 4 k)) at 2 by (rewrite length_app, !length_to_be_bytes; done).
    apply read_be_app. lia.
Qed.

Lemma parse_seal es sid : sealable es ->
  parse_segment_bytes blake3 zstd_decode (seal blake3 zstd_encode (writer_of es) sid).1 sid
  = Some (Ok (Some (reloaded (seal blake3 zstd_encode (writer_of es) sid).2))).
Proof.
  intros [Hs Hr Hb Hc]. destruct (seal_parts es sid) as (header & compressed & index & trailer & Eh & Ec & Ei & Et & -> & ->).
  unfold MAX_DECOMPRESSED_SEGMENT_BYTES, MAX_COMPRESSED_SEGMENT_BYTES in *.
  pose proof (length_segment_header (Z.of_nat (length es)) (Z.of_nat (length (frames (map body es)))) _ Hr) as Hh.
  rewrite <- Eh in Hh. rewrite <- Ec in Hc.
  pose proof (length_frames_bodies blake3 es Hs) as Hfl.
  assert (Hil : (length index <= length es)%nat).
  { subst index. etrans; [apply length_sample_index|]. rewrite <- (length_map fst), index_from_ids, length_map. done. }
  set (pre := encode_prefix MAGIC_SEGMENT (Z.of_nat (length header))).
  assert (Hp : length pre = 16%nat) by (apply length_encode_prefix; done).
  assert (Htl : length trailer = 16%nat) by (subst trailer; unfold write_trailer; rewrite !length_app, !length_to_be_bytes; done).
  assert (Hfile : length (pre ++ header ++ compressed ++ concat (map sample_bytes index) ++ trailer)
    = (16 + length header + length compressed + 12 * length index + 16)%nat)
    by (rewrite !length_app, length_sample_bytes; lia).
  unfold parse_segment_bytes, TRAILER_LEN, FRAME_PREFIX_LEN. rewrite Hfile.
  rewrite (proj2 (Nat.ltb_ge _ _)) by lia.
  assert (Hdrop : drop (16 + length header + length compressed + 12 * length index + 16 - 16)
      (pre ++ header ++ compressed ++ concat (map sample_bytes index) ++ trailer) = trailer).
  { rewrite <- Hfile, <- Htl, !app_assoc. apply drop_suffix. }
  rewrite Hdrop. destruct (read_trailer (Z.of_nat (length index)) (Z.of_nat SAMPLE_INTERVAL) (Z.of_nat (length compressed)))
    as [E1 E2]; [unfold is_u32, u32_max; lia | unfold is_u64, u64_max; lia|]. rewrite <- Et in E1, E2. rewrite E1, E2.
  unfold pre at 1. rewrite parse_prefix_encode by (done || unfold MAX_HEADER_BYTES; lia). cbn [header_len]. fold pre.
  rewrite Nat2Z.id, (proj2 (Nat.ltb_ge _ _)) by lia.
  rewrite <- Hp at 2 3. rewrite slice_app, Eh, parse_segment_header_ok by (done || unfold is_u64, u64_max; lia). rewrite <- Eh.
  unfold checked_add, INDEX_ENTRY_LEN, u64_max.
  do 3 rewrite (proj2 (Z.leb_le _ _)) by lia. rewrite bool_decide_true by (f_equal; lia). rewrite !Nat2Z.id.
  assert (Hblk : slice (pre ++ header ++ compressed ++ concat (map sample_bytes index) ++ trailer) (16 + length header)
      (16 + length header + length compressed) = compressed).
  { rewrite (app_assoc pre), <- Hp, <- length_app. apply slice_app. }
  rewrite Hblk, Ec, decode_segment_block_ok by (rewrite <- ?Ec; unfold MAX_COMPRESSED_SEGMENT_BYTES, MAX_DECOMPRESSED_SEGMENT_BYTES; lia).
  rewrite Z.eqb_refl, <- Ec.
  assert (Hsam : read_samples (length index) (pre ++ header ++ compressed ++ concat (map sample_bytes index) ++ trailer)
      (16 + length header + length compressed) = index).
  { rewrite !(app_assoc pre), (app_assoc (pre ++ header)), <- Hp, <- !length_app. apply read_samples_app.
    subst index. apply samples_ok. unfold u64_max. lia. }
  rewrite Hsam. rewrite Ei at 1.
  pose proof (check_block_bodies blake3 sid es Hs (length (frames (map body es))) [] 0 []) as Hck. cbn [length app] in Hck.
  rewrite Hck by (unfold u64_max; lia).
  rewrite length_map, Z.eqb_refl, bool_decide_true by done. cbn [negb]. done.
Qed.
End Sealed.

(** ** The sparse index *)

Section Index.
Variable blake3 : list byte -> list byte.
Variable hash : EntryHash.
Local Abbreviation block es := (frames (map body es)).

Lemma take_id e : storable blake3 e -> take 32 (body e) = eid e.
Proof. intros S. unfold body. rewrite <- (so_len _ _ S). apply take_app_prefix. Qed.

(** Scanning from a frame boundary reports only frames of the hash, and misses none up to the end. *)
Lemma scan_window_spec stop es : Forall (storable blake3) es -> forall fuel pre,
  Z.of_nat (length (pre ++ block es)) <= u64_max ->
  exists r, scan_window fuel (pre ++ block es) (length pre) stop hash = Ok r
    /\ (forall o, r = Some o -> In (hash, o) (index_from (length pre) es))
    /\ ((length (pre ++ block es) <= stop)%nat -> (length es <= fuel)%nat -> r = None -> ~ In hash (map eid es)).
Proof.
  induction 1 as [|e es He Hes IH]; intros fuel pre Hl.
  - exists None. split_and!; [|done|tauto]. destruct fuel as [|fuel]; cbn [scan_window]; [case_split; done|].
    case_split; [done|]. unfold scan_window_body, next_frame. rewrite app_nil_r, (proj2 (Nat.leb_le _ _)) by lia. done.
  - cbn [map] in *. rewrite frames_cons in *. destruct fuel as [|fuel]; cbn [scan_window].
    { exists None. split_and!; [case_split; done | done | cbn [length]; lia]. }
    destruct (Nat.ltb_spec stop (length pre + 8)) as [Hs|Hs].
    { exists None. split_and!; [done | done |]. rewrite !length_app, length_framed. lia. }
    unfold scan_window_body. rewrite next_frame_framed by (done || apply (body_is_ok blake3); done).
    rewrite (take_id e He), (proj2 (Nat.leb_le _ _)) by (rewrite (length_body blake3 e He); lia). cbn [andb].
    case_bool_decide as Hh.
    + exists (Some (Z.of_nat (length pre))). split_and!; [done | | done].
      intros o [= <-]. left. rewrite Hh. done.
    + destruct (IH fuel (pre ++ framed (body e))) as (r & Hr & Hsound & Hcomp); [rewrite <- app_assoc; done|].
      rewrite <- app_assoc, length_app in Hr. exists r. split_and!; [exact Hr | |].
      * intros o Ho. right. rewrite <- length_app. apply Hsound. exact Ho.
      * intros H1 H2 H3. cbn. intros [?|Hin]; [done|]. revert Hin. apply Hcomp; [rewrite <- app_assoc; done | cbn in H2; lia | done].
Qed.

(** A position of the index is a frame boundary. *)
Lemma index_from_split offset es h o : In (h, o) (index_from offset es) ->
  exists l e r, es = l ++ e :: r /\ h = eid e /\ o = Z.of_nat (offset + length (block l)).
Proof.
  revert offset. induction es as [|e es IH]; intros offset; cbn [index_from]; [done|]. intros [[= <- <-]|Hin].
  - exists [], e, es. split_and!; [done | done | cbn; lia].
  - apply IH in Hin as (l & x & r & -> & -> & ->). exists (e :: l), x, r. split_and!; [done | done |].
    cbn [map]. rewrite frames_cons, length_app. lia.
Qed.

Lemma sample_index_In i index s : In s (sample_index i index) -> exists h, In (h, s.1) index.
Proof.
  revert i. induction index as [|[h o] index IH]; intros i; cbn [sample_index]; [done|]. rewrite in_app_iff.
  intros [Hin|Hin].
  - destruct (_ =? 0)%nat; [|done]. destruct Hin as [<-|[]]. exists h. left. done.
  - apply IH in Hin as [h' Hh]. exists h'. right. done.
Qed.

Lemma locate_sampled_spec es : Forall (storable blake3) es -> Z.of_nat (length (block es)) <= u64_max ->
  forall sam, (forall s, In s sam -> exists h, In (h, s.1) (index_from 0 es)) ->
  exists r, locate_sampled (block es) sam hash = Ok r /\ forall o, r = Some o -> In (hash, o) (index_from 0 es).
Proof.
  intros Hes Hl sam. induction sam as [|[o p] sam IH]; intros Hsam; cbn [locate_sampled]; [exists None; done|].
  destruct IH as (r & Hr & Hsound); [intros s Hin; apply Hsam; right; done|].
  destruct (_ =? _)%Z; [|exists r; done].
  destruct (Hsam (o, p)) as [h Hin]; [left; done|]. apply index_from_split in Hin as (l & e & k & -> & _ & Ho).
  cbn [fst] in Ho. subst o. rewrite Nat2Z.id. cbn [Nat.add].
  rewrite map_app, frames_app in *. apply List.Forall_app in Hes as [Hl1 Hl2].
  match goal with |- context [scan_window ?f _ _ ?stop _] =>
    destruct (scan_window_spec stop (e :: k) Hl2 f (block l) Hl) as (r' & -> & Hs' & _) end.
  destruct r' as [o|]; [|exists r; done]. exists (Some o). split; [done|]. intros o' [= <-].
  specialize (Hs' o eq_refl). apply index_from_split in Hs' as (l' & x & k' & E & -> & ->). rewrite E.
  assert (Hix : forall off a b y, In (eid y, Z.of_nat (off + length (block a))) (index_from off (a ++ y :: b))).
  { intros off a. revert off. induction a as [|z a IHa]; intros off b y; cbn [app index_from map]; [left; cbn; do 2 f_equal; lia|].
    right. rewrite frames_cons, length_app, Nat.add_assoc. apply IHa. }
  rewrite app_assoc. specialize (Hix 0%nat (l ++ l') k' x). rewrite map_app, frames_app, length_app in Hix. exact Hix.
Qed.

Lemma frame_payload_at_body l e r : storable blake3 e -> Z.of_nat (length (block (l ++ e :: r))) <= u64_max ->
  frame_payload_at (block (l ++ e :: r)) (Z.of_nat (length (block l))) = Ok (body e).
Proof.
  intros He. rewrite map_app, frames_app. cbn [map]. rewrite frames_cons. intros Hl.
  pose proof (body_is_ok blake3 e He) as [Hb1 Hb2]. pose proof Hl as Hl'. rewrite !length_app, length_framed in Hl'.
  unfold frame_payload_at, checked_add. rewrite (proj2 (Z.leb_le _ _)) by lia. cbn [ok_or].
  rewrite (proj2 (Z.ltb_ge _ _)) by (rewrite !length_app, length_framed; lia).
  rewrite Nat2Z.id. replace (Z.to_nat (Z.of_nat (length (block l)) + 8)) with (length (block l) + 8)%nat by lia.
  unfold framed at 1 2 3. rewrite <- !app_assoc, read_u64_le_app by (unfold is_u64; lia).
  rewrite frame_end_ok by (rewrite ?length_app, ?length_to_le_bytes; lia).
  rewrite Nat2Z.id, (app_assoc (block l)).
  replace (length (block l) + 8)%nat with (length (block l ++ to_le_bytes 8 (Z.of_nat (length (body e)))))
    by (rewrite length_app, length_to_le_bytes; done).
  rewrite slice_app. done.
Qed.

(** The lookup of [get_from_sealed] in a block: the entry stored under the hash, or none. *)
Lemma locate_in_block_spec es sam : Forall (storable blake3) es -> Z.of_nat (length (block es)) <= u64_max ->
  (forall s, In s sam -> exists h, In (h, s.1) (index_from 0 es)) ->
  exists r, locate_in_block (block es) sam hash = Ok r
    /\ match r with
       | Some o => exists e, In e es /\ eid e = hash /\ frame_payload_at (block es) o = Ok (body e)
       | None => ~ In hash (map eid es)
       end.
Proof.
  intros Hes Hl Hsam.
  assert (Hfound : forall o, In (hash, o) (index_from 0 es) ->
    exists e, In e es /\ eid e = hash /\ frame_payload_at (block es) o = Ok (body e)).
  { intros o Hin. apply index_from_split in Hin as (l & e & r & -> & -> & ->). exists e.
    split_and!; [apply in_elt | done |]. apply frame_payload_at_body; [|done].
    apply List.Forall_app in Hes as [_ Hes]. inversion Hes. done. }
  unfold locate_in_block. destruct (locate_sampled_spec es Hes Hl sam Hsam) as (r & -> & Hs).
  destruct r as [o|]; [exists (Some o); split; [done | apply Hfound, Hs; done]|].
  destruct (scan_window_spec (length (block es)) es Hes (length (block es)) [] Hl) as (r & Hr & Hsound & Hcomp).
  exists r. split; [exact Hr|]. destruct r as [o|]; [apply Hfound, Hsound; done|].
  apply Hcomp; [done | | done]. pose proof (length_frames_bodies blake3 es Hes). lia.
Qed.
End Index.

(** ** The walks end *)

(** Whatever the bytes, a frame step moves forward, so the fuel the walks are given is enough. *)
Lemma next_frame_advances block offset next payload :
  next_frame block offset = Ok (Some (next, payload)) -> (offset + 48 <= next <= length block)%nat.
Proof.
  unfold next_frame, frame_end, checked_add, MIN_FRAME_PAYLOAD. intros H. run_match H. bool_hyps.
  match goal with H : ok_or _ _ = Ok _ |- _ => run_match H; cbn in H end. simplify_eq. bool_hyps. lia.
Qed.

Lemma walk_frames_total blake3 block fuel : forall offset, (length block - offset <= fuel)%nat ->
  walk_frames blake3 fuel block offset <> None.
Proof.
  induction fuel as [|fuel IH]; intros offset Hf; cbn [walk_frames];
    (destruct (Nat.leb_spec (length block) offset) as [Hl|Hl]; [done|]); [lia|].
  destruct (next_frame block offset) as [[[next payload]|]|] eqn:E; [|done..].
  apply next_frame_advances in E. destruct (decode_frame_payload _ _); [|done].
  specialize (IH next ltac:(lia)). destruct (walk_frames _ _ _ _) as [[?|?]|]; done.
Qed.

Lemma check_block_total blake3 id block fuel : forall offset rest ids, (length block - offset <= fuel)%nat ->
  check_block blake3 fuel id block offset rest ids <> None.
Proof.
  induction fuel as [|fuel IH]; intros offset rest ids Hf; cbn [check_block];
    (destruct (next_frame block offset) as [[[next payload]|]|] eqn:E; [|done..]); apply next_frame_advances in E; [lia|].
  destruct (decode_frame_payload _ _); [|done]. destruct rest as [|[o p] rest]; [apply IH; lia|].
  repeat case_split; try done; apply IH; lia.
Qed.

Lemma complete_frames_total bytes fuel : forall offset last, (length bytes - offset <= fuel)%nat ->
  complete_frames fuel bytes offset last <> None.
Proof.
  induction fuel as [|fuel IH]; intros offset last Hf; cbn [complete_frames];
    (destruct (Nat.ltb_spec (length bytes) (offset + 8)) as [Hl|Hl]; [done|]); [lia|].
  unfold MIN_FRAME_PAYLOAD. destruct (Z.ltb_spec (read_u64_le_at bytes offset) 40); [done|].
  unfold checked_add. repeat case_split; try done. simplify_eq. apply IH. lia.
Qed.

(** Reading stored bytes always ends.  For any bytes whatsoever, however hostile the lengths in
    them, the scan of the recovery log, the walk over a block's frames and the parse of a segment
    file return a result. *)
Theorem frame_walks_end blake3 zstd_decode bytes id :
  last_complete_frame_end bytes <> None /\ block_entries blake3 bytes <> None
  /\ parse_segment_bytes blake3 zstd_decode bytes id <> None.
Proof.
  split_and!.
  - unfold last_complete_frame_end. case_split; [done|]. apply complete_frames_total. lia.
  - apply walk_frames_total. lia.
  - unfold parse_segment_bytes. repeat case_split; try done. exfalso.
    match goal with H : check_block _ _ _ _ _ _ _ = None |- _ => revert H; apply check_block_total end. lia.
Qed.
