(* ===== verification/Archive.v ===== *)
(** * The segment archive

    [ledger-journal/src/archive.rs]: the hash-chained archive file of sealed segments, as the bytes
    of [archive.ldgr].  [blake3] is a parameter. *)

From S2P Require Import Prelude Machine Limits Value Path Hex Frame Entry OrdMap Clock Dag Segment SegmentProofs.

Open Scope Z_scope.

Definition MAGIC_JOURNAL_ARCHIVE : list byte := [x4c; x44; x41; x52].
Definition ARCHIVE_FORMAT_VERSION : Z := 1.
Definition CHAIN_OFFSET : nat := 16.
Definition HEADER_LEN : nat := 4 + 4 + 8 + 32.
Definition RECORD_COUNT_OFFSET : nat := 8.
Definition RECORD_PREFIX_LEN : nat := 16.

(** [ArchiveStore]: the file, and the chain and count of its header. *)
Record ArchiveStore : Type := mkArchive { a_file : list byte; a_chain : EntryHash; a_count : Z }.

Section Archive.
Variable blake3 : list byte -> list byte.

Definition initial_chain : EntryHash := blake3 [].

(** The chain after one more record. *)
Definition next_chain (chain : EntryHash) (ordinal : Z) (record : list byte) : EntryHash :=
  blake3 (chain ++ to_le_bytes 8 ordinal ++ to_le_bytes 8 (Z.of_nat (length record)) ++ record).

Definition record_bytes (r : Z * list byte) : list byte :=
  to_le_bytes 8 r.1 ++ to_le_bytes 8 (Z.of_nat (length r.2)) ++ r.2.

Definition archive_header (record_count : Z) (chain : EntryHash) : list byte :=
  MAGIC_JOURNAL_ARCHIVE ++ to_be_bytes 4 ARCHIVE_FORMAT_VERSION ++ to_be_bytes 8 record_count ++ chain.

Definition read_header (bytes : list byte) : result JournalError (EntryHash * Z) :=
  if (length bytes <? HEADER_LEN)%nat then Err (SegmentCorrupt (Io "failed to fill whole buffer"))
  else if negb (bool_decide (take 4 bytes = MAGIC_JOURNAL_ARCHIVE)) then Err ArchiveHashMismatch
  else if negb (read_u32_be_at bytes 4 =? ARCHIVE_FORMAT_VERSION)%Z then Err ArchiveHashMismatch
  else Ok (slice bytes CHAIN_OFFSET HEADER_LEN, read_u64_be_at bytes 8).

(** [ArchiveStore::new]: open the file, or create one with no record. *)
Definition archive_new (file : option (list byte)) : result JournalError ArchiveStore :=
  match file with
  | Some bytes => let? '(chain, count) := read_header bytes in Ok (mkArchive bytes chain count)
  | None => Ok (mkArchive (archive_header 0 initial_chain) initial_chain 0)
  end.

(** [ArchiveStore::append]: the record goes at the end of the file, then chain and count are
    rewritten in place. *)
Definition archive_append (a : ArchiveStore) (ordinal : Z) (record : list byte) : ArchiveStore :=
  let next := next_chain (a_chain a) ordinal record in
  let file := a_file a ++ record_bytes (ordinal, record) in
  let file := take CHAIN_OFFSET file ++ next ++ drop (CHAIN_OFFSET + length next) file in
  let count := to_be_bytes 8 (a_count a + 1) in
  let file := take RECORD_COUNT_OFFSET file ++ count ++ drop (RECORD_COUNT_OFFSET + length count) file in
  mkArchive file next (a_count a + 1).

(** The record loop of [ArchiveStore::load]; [None] would be a loop longer than the fuel. *)
Fixpoint load_records (fuel : nat) (bytes : list byte) (offset : nat) (chain : EntryHash)
    (records : list (Z * list byte)) : option (result JournalError (EntryHash * list (Z * list byte))) :=
  if (length bytes <=? offset)%nat then Some (Ok (chain, records))
  else
    match fuel with
    | O => None
    | S fuel =>
        if (length bytes <? offset + RECORD_PREFIX_LEN)%nat then Some (Err ArchiveHashMismatch)
        else
          let ordinal := read_u64_le_at bytes offset in
          let len := read_u64_le_at bytes (offset + 8) in
          let offset := (offset + RECORD_PREFIX_LEN)%nat in
          match checked_add (Z.of_nat offset) len with
          | None => Some (Err ArchiveHashMismatch)
          | Some stop =>
              if (Z.of_nat (length bytes) <? stop)%Z then Some (Err ArchiveHashMismatch)
              else
                let record := slice bytes offset (Z.to_nat stop) in
                load_records fuel bytes (Z.to_nat stop) (next_chain chain ordinal record)
                  (records ++ [(ordinal, record)])
          end
    end.

(** [ArchiveStore::load]. *)
Definition archive_load (file : option (list byte)) : option (result JournalError (list (Z * list byte))) :=
  match file with
  | None => Some (Ok [])
  | Some bytes =>
      if (length bytes <? HEADER_LEN)%nat then Some (Err ArchiveHashMismatch)
      else if negb (bool_decide (take 4 bytes = MAGIC_JOURNAL_ARCHIVE)) then Some (Err ArchiveHashMismatch)
      else if negb (read_u32_be_at bytes 4 =? ARCHIVE_FORMAT_VERSION)%Z then Some (Err ArchiveHashMismatch)
      else
        let record_count := read_u64_be_at bytes 8 in
        let recorded_chain := slice bytes CHAIN_OFFSET HEADER_LEN in
        match load_records (length bytes) bytes HEADER_LEN initial_chain [] with
        | None => None
        | Some (Err e) => Some (Err e)
        | Some (Ok (chain, records)) =>
            if negb (bool_decide (chain = recorded_chain)) then Some (Err ArchiveHashMismatch)
            else if negb (Z.of_nat (length records) =? record_count)%Z then Some (Err ArchiveHashMismatch)
            else Some (Ok records)
        end
  end.

Definition chain_of_records (records : list (Z * list byte)) : EntryHash :=
  foldl (fun chain r => next_chain chain r.1 r.2) initial_chain records.

(** [ArchiveStore::write_all]: header, records, and the header again with the final chain. *)
Definition archive_write_all (records : list (Z * list byte)) : list byte :=
  archive_header (Z.of_nat (length records)) (chain_of_records records) ++ concat (map record_bytes records).
End Archive.

Section ArchiveProofs.
Variable blake3 : list byte -> list byte.
Hypothesis blake3_len : forall b, length (blake3 b) = 32%nat.

Definition record_ok (r : Z * list byte) : Prop := is_u64 r.1 /\ is_u64 (Z.of_nat (length r.2)).
Definition records_bytes (rs : list (Z * list byte)) : list byte := concat (map record_bytes rs).
Local Abbreviation chain_from := (foldl (fun chain (r : Z * list byte) => next_chain blake3 chain r.1 r.2)).

Lemma length_record_bytes r : length (record_bytes r) = (16 + length r.2)%nat.
Proof. unfold record_bytes. rewrite !length_app, !length_to_le_bytes. lia. Qed.

Lemma length_archive_header n chain : length chain = 32%nat -> length (archive_header n chain) = HEADER_LEN.
Proof. intros H. unfold archive_header. rewrite !length_app, !length_to_be_bytes, H. done. Qed.

Lemma chain_from_length rs chain : length chain = 32%nat -> length (chain_from chain rs) = 32%nat.
Proof. revert chain. induction rs as [|r rs IH]; intros chain H; [done|]. apply IH, blake3_len. Qed.

(** The record at an offset. *)
Lemma read_record pre r post : record_ok r ->
  read_u64_le_at (pre ++ record_bytes r ++ post) (length pre) = r.1
  /\ read_u64_le_at (pre ++ record_bytes r ++ post) (length pre + 8) = Z.of_nat (length r.2)
  /\ slice (pre ++ record_bytes r ++ post) (length pre + 16) (length pre + 16 + length r.2) = r.2.
Proof.
  intros [H1 H2]. unfold record_bytes. rewrite <- !app_assoc. split_and!.
  - apply read_u64_le_app. done.
  - rewrite (app_assoc pre).
    replace (length pre + 8)%nat with (length (pre ++ to_le_bytes 8 r.1)) by (rewrite length_app, length_to_le_bytes; done).
    apply read_u64_le_app. done.
  - rewrite (app_assoc pre), (app_assoc (pre ++ _)).
    replace (length pre + 16)%nat with (length ((pre ++ to_le_bytes 8 r.1) ++ to_le_bytes 8 (Z.of_nat (length r.2))))
      by (rewrite !length_app, !length_to_le_bytes; lia).
    apply slice_app.
Qed.

Lemma load_records_step fuel pre r post chain acc : record_ok r ->
  Z.of_nat (length (pre ++ record_bytes r ++ post)) <= u64_max ->
  load_records blake3 (S fuel) (pre ++ record_bytes r ++ post) (length pre) chain acc
  = load_records blake3 fuel ((pre ++ record_bytes r) ++ post) (length (pre ++ record_bytes r))
      (next_chain blake3 chain r.1 r.2) (acc ++ [r]).
Proof.
  intros Hr Hl. destruct (read_record pre r post Hr) as (E1 & E2 & E3). cbn [load_records].
  rewrite (proj2 (Nat.leb_gt _ _)) by (rewrite !length_app, length_record_bytes; lia).
  unfold RECORD_PREFIX_LEN. rewrite (proj2 (Nat.ltb_ge _ _)) by (rewrite !length_app, length_record_bytes; lia).
  rewrite E1, E2. pose proof Hl as Hl'. rewrite !length_app, length_record_bytes in Hl'. unfold checked_add.
  rewrite (proj2 (Z.leb_le _ _)) by lia. rewrite (proj2 (Z.ltb_ge _ _)) by (rewrite !length_app, length_record_bytes; lia).
  replace (Z.to_nat _) with (length pre + 16 + length r.2)%nat by lia. rewrite E3, <- app_assoc, length_app, length_record_bytes.
  rewrite Nat.add_assoc, <- surjective_pairing. done.
Qed.

Lemma load_records_app rs : Forall record_ok rs -> forall fuel pre post chain acc,
  Z.of_nat (length (pre ++ records_bytes rs ++ post)) <= u64_max ->
  load_records blake3 (length rs + fuel) (pre ++ records_bytes rs ++ post) (length pre) chain acc
  = load_records blake3 fuel ((pre ++ records_bytes rs) ++ post) (length (pre ++ records_bytes rs))
      (chain_from chain rs) (acc ++ rs).
Proof.
  induction 1 as [|r rs Hr Hrs IH]; intros fuel pre post chain acc Hl.
  - unfold records_bytes. cbn. rewrite !app_nil_r. done.
  - unfold records_bytes in *. cbn [map concat length Nat.add foldl] in *. rewrite <- !app_assoc in *.
    rewrite load_records_step by done. rewrite IH by (rewrite <- app_assoc; done). rewrite <- !app_assoc. done.
Qed.

Lemma header_fields n chain rest : length chain = 32%nat -> is_u64 n ->
  (HEADER_LEN <= length (archive_header n chain ++ rest))%nat
  /\ take 4 (archive_header n chain ++ rest) = MAGIC_JOURNAL_ARCHIVE
  /\ read_u32_be_at (archive_header n chain ++ rest) 4 = ARCHIVE_FORMAT_VERSION
  /\ read_u64_be_at (archive_header n chain ++ rest) 8 = n
  /\ slice (archive_header n chain ++ rest) CHAIN_OFFSET HEADER_LEN = chain.
Proof.
  intros Hc Hn. pose proof (length_archive_header n chain Hc) as Hh.
  assert (E1 : take 4 (archive_header n chain ++ rest) = MAGIC_JOURNAL_ARCHIVE) by done.
  assert (E2 : read_u32_be_at (archive_header n chain ++ rest) 4 = ARCHIVE_FORMAT_VERSION).
  { unfold archive_header, read_u32_be_at. rewrite <- !app_assoc. apply (read_be_app 4 MAGIC_JOURNAL_ARCHIVE).
    unfold ARCHIVE_FORMAT_VERSION. lia. }
  assert (E3 : read_u64_be_at (archive_header n chain ++ rest) 8 = n).
  { unfold archive_header, read_u64_be_at. rewrite <- !app_assoc, (app_assoc MAGIC_JOURNAL_ARCHIVE).
    replace 8%nat with (length (MAGIC_JOURNAL_ARCHIVE ++ to_be_bytes 4 ARCHIVE_FORMAT_VERSION)) at 2 by done.
    apply read_be_app. unfold is_u64, u64_max in Hn. lia. }
  assert (E4 : slice (archive_header n chain ++ rest) CHAIN_OFFSET HEADER_LEN = chain).
  { unfold archive_header, CHAIN_OFFSET. rewrite <- !app_assoc, (app_assoc MAGIC_JOURNAL_ARCHIVE), (app_assoc (_ ++ _)).
    replace 16%nat with (length ((MAGIC_JOURNAL_ARCHIVE ++ to_be_bytes 4 ARCHIVE_FORMAT_VERSION) ++ to_be_bytes 8 n)) at 2
      by (rewrite !length_app, !length_to_be_bytes; done).
    replace HEADER_LEN with (length ((MAGIC_JOURNAL_ARCHIVE ++ to_be_bytes 4 ARCHIVE_FORMAT_VERSION) ++ to_be_bytes 8 n) + length chain)%nat
      by (rewrite !length_app, !length_to_be_bytes, Hc; done).
    apply slice_app. }
  split_and!; try done. rewrite length_app, Hh. lia.
Qed.

Lemma archive_load_header n chain rest : length chain = 32%nat -> is_u64 n ->
  archive_load blake3 (Some (archive_header n chain ++ rest))
  = match load_records blake3 (length (archive_header n chain ++ rest)) (archive_header n chain ++ rest) HEADER_LEN
            (initial_chain blake3) [] with
    | None => None
    | Some (Err e) => Some (Err e)
    | Some (Ok (c, records)) =>
        if negb (bool_decide (c = chain)) then Some (Err ArchiveHashMismatch)
        else if negb (Z.of_nat (length records) =? n)%Z then Some (Err ArchiveHashMismatch)
        else Some (Ok records)
    end.
Proof.
  intros Hc Hn. destruct (header_fields n chain rest Hc Hn) as (E0 & E1 & E2 & E3 & E4). unfold archive_load.
  rewrite (proj2 (Nat.ltb_ge _ _)) by lia.
  rewrite E1, E2, E3, E4, bool_decide_true by done. rewrite Z.eqb_refl. done.
Qed.

(** The archive of a list of records: what [write_all] writes. *)
Definition archive_size (rs : list (Z * list byte)) : Z := Z.of_nat (length (archive_write_all blake3 rs)).

Lemma chain_of_length rs : length (chain_of_records blake3 rs) = 32%nat.
Proof. apply chain_from_length, blake3_len. Qed.

Lemma length_write_all rs : length (archive_write_all blake3 rs) = (HEADER_LEN + length (records_bytes rs))%nat.
Proof. unfold archive_write_all. rewrite length_app, length_archive_header by apply chain_of_length. done. Qed.

Lemma records_fewer rs : (length rs <= length (records_bytes rs))%nat.
Proof.
  unfold records_bytes. induction rs as [|r rs IH]; [done|]. cbn [map concat length]. rewrite length_app, length_record_bytes. lia.
Qed.

(** Loading the archive of [rs] followed by anything reaches what follows with the chain of [rs]. *)
Lemma load_write_all rs t : Forall record_ok rs -> Z.of_nat (length (archive_write_all blake3 rs ++ t)) <= u64_max ->
  exists fuel, (length t <= fuel)%nat /\
  archive_load blake3 (Some (archive_write_all blake3 rs ++ t))
  = match load_records blake3 fuel (archive_write_all blake3 rs ++ t) (length (archive_write_all blake3 rs))
            (chain_of_records blake3 rs) rs with
    | None => None
    | Some (Err e) => Some (Err e)
    | Some (Ok (c, records)) =>
        if negb (bool_decide (c = chain_of_records blake3 rs)) then Some (Err ArchiveHashMismatch)
        else if negb (Z.of_nat (length records) =? Z.of_nat (length rs))%Z then Some (Err ArchiveHashMismatch)
        else Some (Ok records)
    end.
Proof.
  intros Hrs Hl. pose proof Hl as Hl'. rewrite length_app, length_write_all in Hl'. pose proof (records_fewer rs) as Hn.
  unfold archive_write_all in *. rewrite <- app_assoc in *.
  rewrite archive_load_header by (apply chain_of_length || unfold is_u64; lia).
  set (h := archive_header (Z.of_nat (length rs)) (chain_of_records blake3 rs)) in *.
  assert (Hh : length h = HEADER_LEN) by (apply length_archive_header, chain_of_length).
  exists (length (h ++ concat (map record_bytes rs) ++ t) - length rs)%nat. unfold records_bytes in *. split.
  { rewrite !length_app. lia. }
  replace (length (h ++ concat (map record_bytes rs) ++ t)) with
    (length rs + (length (h ++ concat (map record_bytes rs) ++ t) - length rs))%nat at 1 by (rewrite !length_app; lia).
  rewrite <- Hh, (load_records_app rs Hrs) by done. unfold records_bytes. rewrite <- app_assoc. done.
Qed.

Lemma load_write_all_ok rs : Forall record_ok rs -> archive_size rs <= u64_max ->
  archive_load blake3 (Some (archive_write_all blake3 rs)) = Some (Ok rs).
Proof.
  intros Hrs Hl. destruct (load_write_all rs [] Hrs) as (fuel & _ & E); [rewrite app_nil_r; done|].
  rewrite app_nil_r in E. rewrite E. destruct fuel; cbn [load_records]; rewrite (proj2 (Nat.leb_le _ _)) by lia;
    rewrite bool_decide_true, Z.eqb_refl by done; done.
Qed.

Lemma archive_new_write_all rs : archive_size rs <= u64_max ->
  archive_new blake3 (Some (archive_write_all blake3 rs))
  = Ok (mkArchive (archive_write_all blake3 rs) (chain_of_records blake3 rs) (Z.of_nat (length rs))).
Proof.
  unfold archive_size. intros Hl. rewrite length_write_all in Hl. pose proof (records_fewer rs) as Hn.
  destruct (header_fields (Z.of_nat (length rs)) (chain_of_records blake3 rs) (concat (map record_bytes rs)))
    as (E0 & E1 & E2 & E3 & E4); [apply chain_of_length | unfold is_u64; lia |].
  unfold archive_new, read_header. fold (archive_write_all blake3 rs) in *.
  rewrite (proj2 (Nat.ltb_ge _ _)) by lia. rewrite E1, E2, E3, E4, bool_decide_true by done. rewrite Z.eqb_refl. done.
Qed.

(** Writing over bytes of the same length in place. *)
Lemma overwrite {A} (pre old new post : list A) : length old = length new ->
  take (length pre) (pre ++ old ++ post) ++ new ++ drop (length pre + length new) (pre ++ old ++ post) = pre ++ new ++ post.
Proof.
  intros H. rewrite take_app_prefix, <- H, (app_assoc pre old post), <- length_app, drop_app_prefix. done.
Qed.

Lemma archive_append_file rs ordinal record :
  a_file (archive_append blake3
    (mkArchive (archive_write_all blake3 rs) (chain_of_records blake3 rs) (Z.of_nat (length rs))) ordinal record)
  = archive_write_all blake3 (rs ++ [(ordinal, record)]).
Proof.
  unfold archive_append. cbn [a_file a_chain a_count]. unfold archive_write_all.
  assert (Ec : chain_of_records blake3 (rs ++ [(ordinal, record)]) = next_chain blake3 (chain_of_records blake3 rs) ordinal record)
    by (unfold chain_of_records; rewrite foldl_app; done).
  rewrite Ec, map_app, concat_app, length_app. cbn [map concat length]. rewrite app_nil_r.
  replace (Z.of_nat (length rs + 1)) with (Z.of_nat (length rs) + 1) by lia.
  set (next := next_chain _ _ _ _). set (R := concat _). set (rec := record_bytes _).
  unfold archive_header. rewrite <- !app_assoc.
  set (count := to_be_bytes 8 (Z.of_nat (length rs))). set (count' := to_be_bytes 8 (Z.of_nat (length rs) + 1)).
  pose proof (overwrite (MAGIC_JOURNAL_ARCHIVE ++ to_be_bytes 4 ARCHIVE_FORMAT_VERSION ++ count) (chain_of_records blake3 rs)
    next (R ++ rec)) as H1.
  rewrite chain_of_length in H1. specialize (H1 (eq_sym (blake3_len _))). rewrite <- !app_assoc in H1.
  replace (length (MAGIC_JOURNAL_ARCHIVE ++ to_be_bytes 4 ARCHIVE_FORMAT_VERSION ++ count)) with CHAIN_OFFSET in H1
    by (rewrite !length_app; unfold count; rewrite !length_to_be_bytes; done).
  rewrite H1.
  pose proof (overwrite (MAGIC_JOURNAL_ARCHIVE ++ to_be_bytes 4 ARCHIVE_FORMAT_VERSION) count count' (next ++ R ++ rec)) as H2.
  unfold count, count' in H2. rewrite !length_to_be_bytes in H2. specialize (H2 eq_refl). rewrite <- !app_assoc in H2.
  unfold count'. rewrite length_to_be_bytes. exact H2.
Qed.
End ArchiveProofs.

(** ** Theorems *)

(** The archive is append-durable.  Opening the archive of any records and appending one more
    gives exactly the file [write_all] writes for the longer list, and loading that file verifies
    the hash chain and returns the records. *)
Theorem archive_append_durable blake3 rs ordinal record :
  (forall b, length (blake3 b) = 32%nat) -> Forall record_ok (rs ++ [(ordinal, record)]) ->
  archive_size blake3 (rs ++ [(ordinal, record)]) <= u64_max ->
  exists a, archive_new blake3 (Some (archive_write_all blake3 rs)) = Ok a
    /\ a_file (archive_append blake3 a ordinal record) = archive_write_all blake3 (rs ++ [(ordinal, record)])
    /\ archive_load blake3 (Some (archive_write_all blake3 (rs ++ [(ordinal, record)]))) = Some (Ok (rs ++ [(ordinal, record)])).
Proof.
  intros Hlen Hrs Hl. assert (Hrs0 : archive_size blake3 rs <= u64_max).
  { unfold archive_size in *. rewrite length_write_all in * by done. unfold records_bytes in *.
    rewrite map_app, concat_app, length_app in Hl. lia. }
  eexists. split; [apply archive_new_write_all; done|]. split; [apply archive_append_file; done|].
  apply load_write_all_ok; done.
Qed.

(** A digest of the right length. *)
Definition zero_digest (b : list byte) : list byte := repeat x00 32.

Lemma archive_append_durable_witness :
  archive_load zero_digest (Some (archive_write_all zero_digest [(7, [x01; x02]); (8, [x03])]))
  = Some (Ok [(7, [x01; x02]); (8, [x03])]).
Proof.
  destruct (archive_append_durable zero_digest [(7, [x01; x02])] 8 [x03]) as (a & _ & _ & H).
  - reflexivity.
  - repeat constructor; cbn; unfold u64_max; lia.
  - vm_compute. discriminate.
  - exact H.
Defined.

(** A record cut short at the end of the file is an error; a whole one is read. *)
Lemma load_torn_record blake3 fuel pre t r chain acc : record_ok r -> t `prefix_of` record_bytes r -> t <> [] ->
  (length t <= fuel)%nat -> Z.of_nat (length (pre ++ t)) <= u64_max ->
  load_records blake3 fuel (pre ++ t) (length pre) chain acc = Some (Err ArchiveHashMismatch)
  \/ load_records blake3 fuel (pre ++ t) (length pre) chain acc = Some (Ok (next_chain blake3 chain r.1 r.2, acc ++ [r])).
Proof.
  intros Hr Ht Hne Hf Hl. assert (Hpos : (0 < length t)%nat) by (destruct t; [done | cbn; lia]).
  destruct (decide (t = record_bytes r)) as [->|Hnot].
  - right. destruct fuel as [|fuel]; [lia|]. rewrite <- (app_nil_r (record_bytes r)) at 1.
    rewrite load_records_step, app_nil_r by (rewrite ?app_nil_r; done).
    destruct fuel; cbn [load_records]; rewrite (proj2 (Nat.leb_le _ _)) by lia; done.
  - left. destruct Ht as [k Hk]. pose proof (f_equal length Hk) as Hlen. rewrite length_app, length_record_bytes in Hlen.
    assert (Hk0 : (0 < length k)%nat) by (destruct k; [rewrite app_nil_r in Hk; congruence | cbn; lia]).
    destruct fuel as [|fuel]; [lia|]. cbn [load_records].
    rewrite (proj2 (Nat.leb_gt _ _)) by (rewrite length_app; lia). unfold RECORD_PREFIX_LEN.
    destruct (Nat.ltb_spec (length (pre ++ t)) (length pre + 16)) as [H|H]; [done|]. rewrite length_app in H.
    assert (E : read_u64_le_at (pre ++ t) (length pre + 8) = Z.of_nat (length r.2)).
    { destruct (read_record pre r [] Hr) as (_ & E & _). rewrite app_nil_r in E. rewrite <- E, Hk. unfold read_u64_le_at.
      rewrite (app_assoc pre t k), (drop_app_le (pre ++ t) k) by (rewrite length_app; lia).
      rewrite (take_app_le _ k) by (rewrite length_drop, length_app; lia). done. }
    rewrite E. unfold checked_add. case_split; [|done].
    rewrite (proj2 (Z.ltb_lt _ _)) by (rewrite length_app in *; lia). done.
Qed.

(** An interrupted archive append makes the archive unreadable.  Bytes of the record on disk
    before the header is rewritten, even the whole record, are not ignored: loading fails with
    [ArchiveHashMismatch] and none of the committed records is returned. *)
Theorem archive_torn_append_unreadable blake3 rs r t :
  (forall b, length (blake3 b) = 32%nat) -> Forall record_ok rs -> record_ok r ->
  t `prefix_of` record_bytes r -> t <> [] -> Z.of_nat (length (archive_write_all blake3 rs ++ t)) <= u64_max ->
  archive_load blake3 (Some (archive_write_all blake3 rs ++ t)) = Some (Err ArchiveHashMismatch).
Proof.
  intros Hlen Hrs Hr Ht Hne Hl. destruct (load_write_all blake3 Hlen rs t Hrs Hl) as (fuel & Hf & ->).
  destruct (load_torn_record blake3 fuel (archive_write_all blake3 rs) t r (chain_of_records blake3 rs) rs) as [-> | ->];
    [done..|].
  case_split; [done|]. rewrite length_app. cbn [length]. rewrite (proj2 (Z.eqb_neq _ _)) by lia. done.
Qed.

Lemma archive_torn_append_unreadable_witness :
  archive_load zero_digest (Some (archive_write_all zero_digest [(7, [x01; x02])] ++ record_bytes (8, [x03])))
  = Some (Err ArchiveHashMismatch).
Proof.
  apply (archive_torn_append_unreadable zero_digest [(7, [x01; x02])] (8, [x03]) (record_bytes (8, [x03]))).
  - reflexivity.
  - repeat constructor; cbn; unfold u64_max; lia.
  - repeat constructor; cbn; unfold u64_max; lia.
  - exists []. rewrite app_nil_r. reflexivity.
  - discriminate.
  - vm_compute. discriminate.
Defined.
