(* ===== verification/Store.v ===== *)
(** * The segment store

    [SegmentStore] of [ledger-journal/src/segment/]: the directory as the contents of its files, the
    in-memory store over it, and every operation that changes either: append, seal, retention,
    the store manifest, loading and WAL recovery.

    I/O itself succeeds in this model; what can fail are the checks of the code.  Temporary files
    are renamed into place in one step, so they never show.  The recovery log is the bytes written
    through its [BufWriter]; a crash keeps a prefix of them.  The one-block [decompressed] cache is
    left out: it holds what [decompressed_block] returns for an id. *)

From S2P Require Import Prelude Machine Limits Value Path Hex Frame Entry OrdMap Clock Dag Segment SegmentProofs Archive.

Open Scope Z_scope.

Inductive RetentionClass : Type := Hot | Warm | Cold.
#[global] Instance retention_eq_dec : EqDecision RetentionClass.
Proof. solve_decision. Defined.

Definition KEEP_TAIL : nat := 2.
Definition retention_to_u8 (r : RetentionClass) : byte := match r with Hot => x00 | Warm => x01 | Cold => x02 end.
Definition retention_from_u8 (b : byte) : option RetentionClass :=
  match b with x00 => Some Hot | x01 => Some Warm | x02 => Some Cold | _ => None end.

(** The files of a store directory: [wal.bin], [manifest.bin], [archive.ldgr] and the loose segment
    files by segment id. *)
Record Dir : Type := mkDir {
  d_wal : option (list byte);
  d_manifest : option (list byte);
  d_archive : option (list byte);
  d_loose : list (Z * list byte) }.

Definition empty_dir : Dir := mkDir None None None [].
Definition set_wal (d : Dir) (w : option (list byte)) : Dir := mkDir w (d_manifest d) (d_archive d) (d_loose d).
Definition set_manifest (d : Dir) (m : list byte) : Dir := mkDir (d_wal d) (Some m) (d_archive d) (d_loose d).
Definition set_archive (d : Dir) (a : option (list byte)) : Dir := mkDir (d_wal d) (d_manifest d) a (d_loose d).
Definition set_loose (d : Dir) (l : list (Z * list byte)) : Dir := mkDir (d_wal d) (d_manifest d) (d_archive d) l.

(** [BTreeMap::remove] and the deletion of a file. *)
Definition odelete {V} (k : Z) (m : list (Z * V)) : list (Z * V) := List.filter (fun e => negb (e.1 =? k)%Z) m.

Record SegmentStore : Type := mkStore {
  sealed : list SealedSegment;
  archived : list (Z * list byte);
  retention : RetentionClass;
  writer : SegmentWriter;
  wal_open : bool;
  next_segment_id : Z }.

Definition store_empty : SegmentStore := mkStore [] [] Hot writer_new false 0.
Definition with_writer (st : SegmentStore) (w : SegmentWriter) : SegmentStore :=
  mkStore (sealed st) (archived st) (retention st) w (wal_open st) (next_segment_id st).
Definition with_wal (st : SegmentStore) (b : bool) : SegmentStore :=
  mkStore (sealed st) (archived st) (retention st) (writer st) b (next_segment_id st).

(** ** The store manifest *)

Definition STORE_MANIFEST_VERSION : Z := 2.
Definition MANIFEST_RECORD_META_LEN : nat := 68.

Definition manifest_record (archived_ids : list Z) (s : SealedSegment) : list byte :=
  let archived := bool_decide (s_id s ∈ archived_ids) in
  let flags := Z.lor (Z.b2z archived) (Z.shiftl (Z.b2z (contains_fault_relevant s)) 1) in
  to_be_bytes 8 (s_id s) ++ to_be_bytes 8 (entry_count s) ++ to_be_bytes 8 (uncompressed_len s)
  ++ to_be_bytes 8 (compressed_len s) ++ to_be_bytes 4 (sample_interval s)
  ++ to_be_bytes 8 (Z.of_nat (length (samples s))) ++ s_root_hash s ++ [z2b flags].

(** [write_manifest]: the file it renames into place. *)
Definition manifest_bytes (st : SegmentStore) : list byte :=
  encode_prefix MAGIC_STORE_MANIFEST 0 ++ to_be_bytes 4 STORE_MANIFEST_VERSION ++ [retention_to_u8 (retention st)]
  ++ to_be_bytes 8 (Z.of_nat (length (sealed st)))
  ++ concat (map (manifest_record (map fst (archived st))) (sealed st)).

Definition write_manifest (d : Dir) (st : SegmentStore) : Dir := set_manifest d (manifest_bytes st).

Definition eof {A} : result JournalError A := Err (SegmentCorrupt (Io "failed to fill whole buffer")).

(** The record loop of [read_manifest]: ids and fault flags. *)
Fixpoint read_manifest_records (fuel : nat) (count : Z) (bytes : list byte) : result JournalError (list (Z * bool)) :=
  if (count <=? 0)%Z then Ok []
  else
    let after := drop (8 + MANIFEST_RECORD_META_LEN) bytes in
    match fuel, after with
    | S fuel, flags :: rest =>
        let? entries := read_manifest_records fuel (count - 1) rest in
        Ok ((from_be_bytes (take 8 bytes), Z.testbit (b2z flags) 1) :: entries)
    | _, _ => eof
    end.

Definition read_manifest (bytes : list byte) : result JournalError (RetentionClass * list (Z * bool)) :=
  if (length bytes <? FRAME_PREFIX_LEN)%nat then eof
  else
    let? _ := map_err (fun e => SegmentCorrupt (BadPrefix "store manifest prefix invalid" e))
                (parse_prefix (take FRAME_PREFIX_LEN bytes) MAGIC_STORE_MANIFEST) in
    let bytes := drop FRAME_PREFIX_LEN bytes in
    if (length bytes <? 4)%nat then eof
    else if negb (from_be_bytes (take 4 bytes) =? STORE_MANIFEST_VERSION)%Z then Err (corrupt "unsupported manifest version")
    else
      match drop 4 bytes with
      | [] => eof
      | class :: bytes =>
          let? retention := ok_or (retention_from_u8 class) (corrupt "invalid retention class in manifest") in
          if (length bytes <? 8)%nat then eof
          else
            let count := from_be_bytes (take 8 bytes) in
            let? entries := read_manifest_records (length bytes) count (drop 8 bytes) in
            Ok (retention, entries)
      end.

Section Store.
Variable blake3 : list byte -> list byte.
Variable zstd_encode : list byte -> list byte.
Variable zstd_decode : Z -> list byte -> option (list byte).

(** The loops that read frames end ([frame_walks_end]); a result that is not there is an error. *)
Definition settled {A} (r : option (result JournalError A)) : result JournalError A :=
  match r with Some r => r | None => Err (InvariantViolation "loop fuel") end.

(** ** Lookup *)

Definition segment_bytes (d : Dir) (st : SegmentStore) (id : Z) : result JournalError (list byte) :=
  match find (fun a => (a.1 =? id)%Z) (archived st) with
  | Some a => Ok a.2
  | None => ok_or (oget id (d_loose d)) (SegmentCorrupt (Io "not found"))
  end.

Definition decompressed_block (d : Dir) (st : SegmentStore) (s : SealedSegment) : result JournalError (list byte) :=
  let? bytes := segment_bytes d st (s_id s) in
  let? stop := ok_or (checked_add (data_offset s) (compressed_len s)) (segment_corrupt (s_id s) "compressed block is truncated") in
  if (Z.of_nat (length bytes) <? stop)%Z then Err (segment_corrupt (s_id s) "compressed block is truncated")
  else
    let? block := decode_segment_block zstd_decode (slice bytes (Z.to_nat (data_offset s)) (Z.to_nat stop)) in
    if negb (Z.of_nat (length block) =? uncompressed_len s)%Z
    then Err (segment_corrupt (s_id s) "uncompressed length mismatch") else Ok block.

Fixpoint sealed_entries (d : Dir) (st : SegmentStore) (segments : list SealedSegment) : result JournalError (list JEntry) :=
  match segments with
  | [] => Ok []
  | s :: segments =>
      let? block := decompressed_block d st s in
      let? entries := settled (block_entries blake3 block) in
      let? rest := sealed_entries d st segments in
      Ok (entries ++ rest)
  end.

Definition entries_in_append_order (d : Dir) (st : SegmentStore) : result JournalError (list JEntry) :=
  let? sealed := sealed_entries d st (sealed st) in
  let? open := settled (block_entries blake3 (buffer (writer st))) in
  Ok (sealed ++ open).

Definition get_from_sealed (d : Dir) (st : SegmentStore) (s : SealedSegment) (hash : EntryHash) :
    result JournalError (option JEntry) :=
  let? block := decompressed_block d st s in
  let? found := locate_in_block block (samples s) hash in
  match found with
  | None => Ok None
  | Some offset =>
      let? payload := frame_payload_at block offset in
      let? entry := decode_frame_payload blake3 payload in
      if bool_decide (eid entry = hash) then Ok (Some entry) else Ok None
  end.

Fixpoint get_sealed (d : Dir) (st : SegmentStore) (segments : list SealedSegment) (hash : EntryHash) :
    result JournalError (option JEntry) :=
  match segments with
  | [] => Ok None
  | s :: segments =>
      let? found := get_from_sealed d st s hash in
      match found with Some entry => Ok (Some entry) | None => get_sealed d st segments hash end
  end.

(** [SegmentStore::get]: the latest open frame of the hash, else the sealed segments in order. *)
Definition store_get (d : Dir) (st : SegmentStore) (hash : EntryHash) : result JournalError (option JEntry) :=
  match find (fun p => bool_decide (p.1 = hash)) (rev (index (writer st))) with
  | Some (_, offset) =>
      let? payload := frame_payload_at (buffer (writer st)) offset in
      let? entry := decode_frame_payload blake3 payload in
      Ok (Some entry)
  | None => get_sealed d st (sealed st) hash
  end.

(** ** Retention *)

(** [sort_unstable] of ids. *)
Definition sorted_ids (ids : list Z) : list Z := map fst (ocollect (map (fun id => (id, tt)) ids)).

Definition newest_tail_start (st : SegmentStore) : Z :=
  let ids := sorted_ids (map s_id (sealed st)) in
  if (length ids <=? KEEP_TAIL)%nat then 0 else nth (length ids - KEEP_TAIL) ids 0.

Definition should_keep_loose (st : SegmentStore) (s : SealedSegment) (tail_start : Z) : bool :=
  match retention st with
  | Hot => true
  | Warm => contains_fault_relevant s || (tail_start <=? s_id s)%Z
  | Cold => false
  end.

(** The first loop of [retain]: the archive map, the loose files, what to archive and whether
    anything left the archive. *)
Fixpoint retain_loop (st : SegmentStore) (tail_start : Z) (segments : list SealedSegment)
    (archive_map loose pending : list (Z * list byte)) (needs_rebuild : bool) :
    result JournalError (list (Z * list byte) * list (Z * list byte) * list (Z * list byte) * bool) :=
  match segments with
  | [] => Ok (archive_map, loose, pending, needs_rebuild)
  | s :: segments =>
      let want_loose := should_keep_loose st s tail_start in
      match want_loose, oget (s_id s) archive_map with
      | true, Some bytes =>
          retain_loop st tail_start segments (odelete (s_id s) archive_map) (oinsert (s_id s) bytes loose) pending true
      | false, None =>
          let? bytes := ok_or (oget (s_id s) loose) (SegmentCorrupt (Io "not found")) in
          retain_loop st tail_start segments archive_map loose (pending ++ [(s_id s, bytes)]) needs_rebuild
      | _, _ => retain_loop st tail_start segments archive_map loose pending needs_rebuild
      end
  end.

Definition archive_append_all (file : option (list byte)) (records : list (Z * list byte)) :
    result JournalError (list byte) :=
  let? a := archive_new blake3 file in
  Ok (a_file (foldl (fun a r => archive_append blake3 a r.1 r.2) a records)).

Definition retain (d : Dir) (st : SegmentStore) : result JournalError (Dir * SegmentStore) :=
  let? existing := settled (archive_load blake3 (d_archive d)) in
  let tail_start := newest_tail_start st in
  let? '(archive_map, loose, pending, needs_rebuild) :=
    retain_loop st tail_start (sealed st) (ocollect existing) (d_loose d) [] false in
  let records := foldl (fun m r => oinsert r.1 r.2 m) archive_map pending in
  let? archive :=
    if needs_rebuild then
      Ok (match records with [] => None | _ => Some (archive_write_all blake3 records) end)
    else
      match pending with
      | [] => Ok (d_archive d)
      | _ => let? file := archive_append_all (d_archive d) pending in Ok (Some file)
      end in
  let loose := foldl (fun l s => if bool_decide (s_id s ∈ map fst records) then odelete (s_id s) l else l) loose (sealed st) in
  let st := mkStore (sealed st) records (retention st) (writer st) (wal_open st) (next_segment_id st) in
  let d := mkDir (d_wal d) (d_manifest d) archive loose in
  Ok (write_manifest d st, st).

Definition set_retention (d : Dir) (st : SegmentStore) (class : RetentionClass) : result JournalError (Dir * SegmentStore) :=
  retain d (mkStore (sealed st) (archived st) class (writer st) (wal_open st) (next_segment_id st)).

(** ** Append and seal *)

Definition ensure_wal (d : Dir) (st : SegmentStore) : Dir * SegmentStore :=
  if wal_open st then (d, st) else (set_wal d (Some (encode_prefix MAGIC_WAL 0)), with_wal st true).

Definition write_wal (d : Dir) (bytes : list byte) : Dir :=
  match d_wal d with Some w => set_wal d (Some (w ++ bytes)) | None => d end.

Definition seal_writer (d : Dir) (st : SegmentStore) : result JournalError (Dir * SegmentStore) :=
  match buffer (writer st) with
  | [] => Ok (d, st)
  | _ :: _ =>
      let '(bytes, meta) := seal blake3 zstd_encode (writer st) (next_segment_id st) in
      let d := set_wal (set_loose d (oinsert (next_segment_id st) bytes (d_loose d))) None in
      let st := mkStore (sealed st ++ [meta]) (archived st) (retention st) writer_new false (next_segment_id st + 1) in
      if bool_decide (retention st = Hot) then Ok (d, st) else retain d st
  end.

Definition seal_if_full (d : Dir) (st : SegmentStore) : result JournalError (Dir * SegmentStore) :=
  if should_seal (writer st) then seal_writer d st else Ok (d, st).

(** [SegmentStore::append]. *)
Definition store_append (d : Dir) (st : SegmentStore) (entry : JEntry) : result JournalError (Dir * SegmentStore) :=
  let '(d, st) := ensure_wal d st in
  let? '(frame, w) := writer_append (writer st) entry in
  seal_if_full (write_wal d frame) (with_writer st w).

(** [SegmentStore::append_slice] and [append_frames]: one recovery-log write for the new bytes. *)
Definition store_append_slice (d : Dir) (st : SegmentStore) (entries : list JEntry) : result JournalError (Dir * SegmentStore) :=
  match entries with
  | [] => Ok (d, st)
  | _ :: _ =>
      let '(d, st) := ensure_wal d st in
      let start := length (buffer (writer st)) in
      match writer_append_slice (writer st) entries with
      | (Err e, _) => Err e
      | (Ok _, w) => seal_if_full (write_wal d (drop start (buffer w))) (with_writer st w)
      end
  end.

Definition store_append_frames (d : Dir) (st : SegmentStore) (frames : list EntryFrame) : result JournalError (Dir * SegmentStore) :=
  match frames with
  | [] => Ok (d, st)
  | _ :: _ =>
      let '(d, st) := ensure_wal d st in
      let start := length (buffer (writer st)) in
      let w := writer_append_frames (writer st) frames in
      seal_if_full (write_wal d (drop start (buffer w))) (with_writer st w)
  end.

(** ** Loading *)

(** The segment loop of [load_sealed_segments]: only a missing or partial last loose segment is
    skipped. *)
Fixpoint load_segments (d : Dir) (archived_bytes : list (Z * list byte)) (flags : list (Z * bool)) (ids : list Z) :
    result JournalError (list SealedSegment) :=
  match ids with
  | [] => Ok []
  | id :: ids =>
      let? parsed :=
        match oget id archived_bytes with
        | Some bytes => settled (parse_segment_bytes blake3 zstd_decode bytes id)
        | None =>
            match oget id (d_loose d) with
            | None => Ok None
            | Some bytes => settled (parse_segment_bytes blake3 zstd_decode bytes id)
            end
        end in
      match parsed with
      | Some s =>
          let fault := match oget id flags with Some f => f | None => false end in
          let s := mkSealed (s_id s) (entry_count s) (uncompressed_len s) (compressed_len s) (s_root_hash s)
                     (sample_interval s) fault (data_offset s) (samples s) in
          let? rest := load_segments d archived_bytes flags ids in
          Ok (s :: rest)
      | None =>
          match ids, oget id archived_bytes with
          | [], None => Ok []
          | _, _ => Err (segment_corrupt id "is corrupt and is not the tail")
          end
      end
  end.

Definition load_sealed_segments (d : Dir) : result JournalError SegmentStore :=
  let? '(class, manifest_entries) :=
    match d_manifest d with Some bytes => read_manifest bytes | None => Ok (Hot, []) end in
  let? archive_records := settled (archive_load blake3 (d_archive d)) in
  let archived_bytes := ocollect archive_records in
  let ids :=
    match manifest_entries with
    | _ :: _ => map fst manifest_entries
    | [] => sorted_ids (map fst (d_loose d) ++ map fst archived_bytes)
    end in
  let next := match list.last ids with Some id => id + 1 | None => 0 end in
  let? loaded := load_segments d archived_bytes (ocollect manifest_entries) ids in
  let archived := List.filter (fun a => bool_decide (a.1 ∈ map s_id loaded)) archived_bytes in
  let class :=
    match archived, class with
    | _ :: _, Hot => if forallb (fun s => bool_decide (s_id s ∈ map fst archived)) loaded then Cold else Warm
    | _, _ => class
    end in
  Ok (mkStore loaded archived class writer_new false next).

(** The frame loop of [recover_wal]: the entries of the log that are not sealed. *)
Fixpoint recover_frames (fuel : nat) (bytes : list byte) (offset truncate_to : nat) (sealed_ids : list EntryHash) :
    option (result JournalError (list JEntry)) :=
  if (truncate_to <=? offset)%nat then Some (Ok [])
  else
    match fuel with
    | O => None
    | S fuel =>
        match next_frame bytes offset with
        | Err e => Some (Err e)
        | Ok None => Some (Err (corrupt "WAL frame walk failed"))
        | Ok (Some (next, payload)) =>
            match decode_frame_payload blake3 payload with
            | Err e => Some (Err e)
            | Ok entry =>
                match recover_frames fuel bytes next truncate_to sealed_ids with
                | Some (Ok rest) =>
                    Some (Ok (if bool_decide (eid entry ∈ sealed_ids) then rest else entry :: rest))
                | r => r
                end
            end
        end
    end.

Fixpoint writer_append_all (w : SegmentWriter) (entries : list JEntry) : result JournalError SegmentWriter :=
  match entries with
  | [] => Ok w
  | e :: entries => let? '(_, w) := writer_append w e in writer_append_all w entries
  end.

(** [recover_wal]: the result and the directory, whose log is cut even when an error follows. *)
Definition recover_wal (d : Dir) (st : SegmentStore) : result JournalError SegmentStore * Dir :=
  match d_wal d with
  | None | Some [] => (Ok st, d)
  | Some bytes =>
      let truncate_to := match last_complete_frame_end bytes with Some n => n | None => 0%nat end in
      let d' := if (truncate_to <? length bytes)%nat then set_wal d (Some (take truncate_to bytes)) else d in
      let recovered :=
        let? prefix := map_err (fun e => SegmentCorrupt (BadPrefix "WAL prefix invalid" e)) (parse_prefix bytes MAGIC_WAL) in
        if negb (header_len prefix =? 0)%Z then Err (corrupt "WAL header_len must be 0")
        else
          let? entries := entries_in_append_order d' st in
          let? recovered := settled (recover_frames (length bytes) bytes FRAME_PREFIX_LEN truncate_to (map eid entries)) in
          let? w := writer_append_all (writer st) recovered in
          let st := with_writer st w in
          Ok (if (0 <? length (index w))%nat then with_wal st true else st) in
      (recovered, d')
  end.

(** [SegmentStore::new] and [SegmentStore::load]. *)
Definition open_internal (d : Dir) (fresh : bool) : result JournalError SegmentStore * Dir :=
  match (if fresh then Ok store_empty else load_sealed_segments d) with
  | Err e => (Err e, d)
  | Ok st => recover_wal d st
  end.
End Store.
