(* ===== verification/StoreProofs.v ===== *)
(** * The segment store: crash recovery

    - The state a store reaches by appending and sealing, and its files.
    - Reloading after a crash recovers every sealed entry and a prefix of the open ones.
    - Every recovered entry is found by its hash. *)

From S2P Require Import Prelude Machine Cbor Limits Value Path Hex Frame Entry EntryProofs OrdMap Clock Dag Segment SegmentProofs Archive Store.

Open Scope Z_scope.

Section Recovery.
Variable blake3 : list byte -> list byte.
Variable zstd_encode : list byte -> list byte.
Variable zstd_decode : Z -> list byte -> option (list byte).
Hypothesis zstd_ok : forall n b, 0 <= n -> zstd_decode n (zstd_encode b) = Some (take (Z.to_nat n) b).

Local Abbreviation seal_of i es := (seal blake3 zstd_encode (writer_of es) i).
Local Abbreviation sealable := (sealable blake3 zstd_encode).

(** ** Sealed segments on disk *)

Fixpoint loose_from (i : Z) (segs : list (list JEntry)) : list (Z * list byte) :=
  match segs with [] => [] | es :: segs => (i, (seal_of i es).1) :: loose_from (i + 1) segs end.

(** Metadata that describes the entries, up to the fault flag, which the file does not hold. *)
Definition describes (m : SealedSegment) (i : Z) (es : list JEntry) : Prop := reloaded m = reloaded (seal_of i es).2.

Fixpoint metas_from (i : Z) (segs : list (list JEntry)) (metas : list SealedSegment) : Prop :=
  match segs, metas with
  | [], [] => True
  | es :: segs, m :: metas => describes m i es /\ metas_from (i + 1) segs metas
  | _, _ => False
  end.

Lemma describes_id m i es : describes m i es -> s_id m = i.
Proof. intros H. apply (f_equal s_id) in H. exact H. Qed.

Lemma loose_from_above k i segs : k < i -> above k (loose_from i segs).
Proof.
  revert i. induction segs as [|es segs IH]; intros i Hi; [constructor|]. cbn [loose_from]. constructor; [done|]. apply IH. lia.
Qed.

Lemma loose_from_ordered i segs : ordered (loose_from i segs).
Proof.
  revert i. induction segs as [|es segs IH]; intros i; [constructor|]. cbn [loose_from].
  apply ordered_cons. split; [apply IH | apply loose_from_above; lia].
Qed.

Lemma loose_from_snoc i segs es :
  loose_from i (segs ++ [es]) = loose_from i segs ++ [(i + Z.of_nat (length segs), (seal_of (i + Z.of_nat (length segs)) es).1)].
Proof.
  revert i. induction segs as [|x segs IH]; intros i; cbn [app loose_from length].
  - rewrite Z.add_0_r. done.
  - rewrite IH. replace (i + 1 + Z.of_nat (length segs)) with (i + Z.of_nat (S (length segs))) by lia. done.
Qed.

Lemma loose_from_below i segs : Forall (fun e => e.1 < i + Z.of_nat (length segs)) (loose_from i segs).
Proof.
  revert i. induction segs as [|es segs IH]; intros i; cbn [loose_from length]; [constructor|].
  constructor; [cbn; lia|]. eapply List.Forall_impl; [|apply IH]. cbn. intros e He. lia.
Qed.

Lemma metas_from_snoc i segs metas es m : metas_from i segs metas ->
  describes m (i + Z.of_nat (length segs)) es -> metas_from i (segs ++ [es]) (metas ++ [m]).
Proof.
  revert i metas. induction segs as [|x segs IH]; intros i metas H Hm; destruct metas as [|y metas]; try done; cbn in *.
  - rewrite Z.add_0_r in Hm. done.
  - destruct H as [H1 H2]. split; [done|]. apply IH; [done|].
    replace (i + 1 + Z.of_nat (length segs)) with (i + Z.of_nat (S (length segs))) by lia. done.
Qed.

(** The block of a described segment is read back from its file. *)
Lemma decompressed_block_ok d st m i es : sealable es -> describes m i es -> archived st = [] ->
  oget i (d_loose d) = Some (seal_of i es).1 ->
  decompressed_block zstd_decode d st m = Ok (frames (map body es)).
Proof.
  intros Hs Hm Ha Hd. destruct (seal_parts blake3 zstd_encode es i) as (header & compressed & index & trailer & Eh & Ec & _ & _ & Eb & Er).
  rewrite <- Hm in Er. pose proof (f_equal s_id Er : s_id m = _) as Hid. cbn [s_id] in Hid.
  pose proof (f_equal uncompressed_len Er : uncompressed_len m = _) as Hul. cbn [uncompressed_len] in Hul.
  pose proof (f_equal compressed_len Er : compressed_len m = _) as Hcl. cbn [compressed_len] in Hcl.
  pose proof (f_equal data_offset Er : data_offset m = _) as Hdo. cbn [data_offset] in Hdo.
  unfold decompressed_block, segment_bytes. rewrite Ha, Hid, Hd. cbn [find ok_or]. rewrite Eb, Hdo, Hcl, Hul.
  pose proof (se_compressed _ _ _ Hs) as Hc. pose proof (se_block _ _ _ Hs) as Hb. rewrite <- Ec in Hc.
  unfold MAX_COMPRESSED_SEGMENT_BYTES, MAX_DECOMPRESSED_SEGMENT_BYTES in *.
  pose proof (length_segment_header (Z.of_nat (length es)) (Z.of_nat (length (frames (map body es)))) _ (se_root _ _ _ Hs)) as Hh.
  rewrite <- Eh in Hh. pose proof (length_encode_prefix MAGIC_SEGMENT (Z.of_nat (length header)) eq_refl) as Hp.
  rewrite (app_assoc (encode_prefix _ _)).
  replace (FRAME_PREFIX_LEN + length header)%nat with (length (encode_prefix MAGIC_SEGMENT (Z.of_nat (length header)) ++ header))
    by (rewrite length_app, Hp; done).
  unfold checked_add, u64_max. rewrite (proj2 (Z.leb_le _ _)) by (rewrite length_app; lia). cbn [ok_or].
  rewrite (proj2 (Z.ltb_ge _ _)) by (rewrite !length_app; lia).
  rewrite Nat2Z.id, <- Nat2Z.inj_add, Nat2Z.id, slice_app, Ec.
  rewrite (decode_segment_block_ok _ _ zstd_ok) by (rewrite <- ?Ec; unfold MAX_COMPRESSED_SEGMENT_BYTES, MAX_DECOMPRESSED_SEGMENT_BYTES; lia).
  rewrite Z.eqb_refl. done.
Qed.

Lemma small_block es : sealable es -> Z.of_nat (length (frames (map body es))) <= u64_max.
Proof. intros Hs. pose proof (se_block _ _ _ Hs). unfold MAX_DECOMPRESSED_SEGMENT_BYTES, u64_max in *. lia. Qed.

Lemma block_entries_ok es : sealable es ->
  settled (block_entries blake3 (frames (map body es))) = Ok (map stored es).
Proof. intros Hs. rewrite block_entries_bodies; [done | apply Hs | apply small_block; done]. Qed.

(** Files that hold the segments; other files do not matter. *)
Definition holds (d : Dir) (i : Z) (segs : list (list JEntry)) : Prop :=
  forall j es, segs !! j = Some es -> oget (i + Z.of_nat j) (d_loose d) = Some (seal_of (i + Z.of_nat j) es).1.

Lemma holds_cons d i es segs : holds d i (es :: segs) ->
  oget i (d_loose d) = Some (seal_of i es).1 /\ holds d (i + 1) segs.
Proof.
  intros H. split; [specialize (H 0%nat es eq_refl); rewrite Z.add_0_r in H; done|].
  intros j x Hx. specialize (H (S j) x Hx). replace (i + 1 + Z.of_nat j) with (i + Z.of_nat (S j)) by lia. done.
Qed.

Lemma sealed_entries_ok d st i segs metas : Forall sealable segs -> metas_from i segs metas -> archived st = [] ->
  holds d i segs -> sealed_entries blake3 zstd_decode d st metas = Ok (map stored (concat segs)).
Proof.
  intros Hs. revert i metas. induction Hs as [|es segs He Hs IH]; intros i metas Hm Ha Hd; destruct metas as [|m metas]; try done.
  destruct Hm as [Hm1 Hm2]. apply holds_cons in Hd as [Hd1 Hd2]. cbn [sealed_entries].
  rewrite (decompressed_block_ok d st m i es) by done. rewrite (block_entries_ok es He).
  rewrite (IH (i + 1)) by done. cbn [concat]. rewrite map_app. done.
Qed.

(** Loading the segments. *)
Lemma load_segments_ok d flags i segs : Forall sealable segs -> holds d i segs ->
  exists metas, load_segments blake3 zstd_decode d [] flags (map fst (loose_from i segs)) = Ok metas /\ metas_from i segs metas.
Proof.
  intros Hs. revert i. induction Hs as [|es segs He Hs IH]; intros i Hd; [exists []; done|].
  apply holds_cons in Hd as [Hd1 Hd2]. destruct (IH (i + 1) Hd2) as (metas & E & Hm).
  cbn [loose_from map fst load_segments oget]. rewrite Hd1, (parse_seal blake3 zstd_encode zstd_decode zstd_ok es i He).
  cbn [settled]. rewrite E. eexists. split; [reflexivity|]. split; [|done]. done.
Qed.

Lemma holds_loose_from d i segs : d_loose d = loose_from i segs -> holds d i segs.
Proof.
  intros E j es Hj. rewrite E. clear E d. revert i segs Hj. induction j as [|j IH]; intros i segs Hj; destruct segs as [|x segs]; try done; cbn in Hj.
  - simplify_eq. cbn. rewrite Z.add_0_r, Z.eqb_refl. done.
  - specialize (IH (i + 1) segs Hj). replace (i + 1 + Z.of_nat j) with (i + Z.of_nat (S j)) in IH by lia.
    apply oget_In in IH; [|apply loose_from_ordered]. apply oget_In; [apply loose_from_ordered|]. right. done.
Qed.

(** ** The recovery log *)

Lemma writer_of_stored es : Forall (storable blake3) es -> writer_of (map stored es) = writer_of es.
Proof.
  intros H. unfold writer_of. f_equal.
  - rewrite map_map. f_equal. apply map_ext_in. intros e He. rewrite List.Forall_forall in H. apply (stored_body blake3), H, He.
  - generalize 0%nat. induction H as [|e es He Hes IH]; intros off; [done|]. cbn [map index_from].
    rewrite (stored_body blake3 e He), IH. done.
  - induction es as [|e es IH]; [done|]. inversion_clear H. cbn. rewrite IH; done.
Qed.

Lemma writer_append_all_of es new : Forall (storable blake3) new ->
  writer_append_all (writer_of es) new = Ok (writer_of (es ++ new)).
Proof.
  intros H. revert es. induction H as [|e new He Hnew IH]; intros es; [rewrite app_nil_r; done|].
  cbn [writer_append_all]. rewrite (writer_append_of blake3 es e He), IH, <- app_assoc. done.
Qed.

(** The log entries recovery keeps: those that are not in a sealed segment. *)
Definition unsealed (ids : list EntryHash) (es : list JEntry) : list JEntry :=
  List.filter (fun e => negb (bool_decide (eid e ∈ ids))) es.

Lemma recover_frames_ok ids rest es : Forall (storable blake3) es -> forall fuel pre,
  (length es <= fuel)%nat -> Z.of_nat (length (pre ++ frames (map body es) ++ rest)) <= u64_max ->
  recover_frames blake3 fuel (pre ++ frames (map body es) ++ rest) (length pre) (length (pre ++ frames (map body es))) ids
  = Some (Ok (map stored (unsealed ids es))).
Proof.
  induction 1 as [|e es He Hes IH]; intros fuel pre Hf Hl.
  - cbn [map]. unfold frames. cbn [map concat]. rewrite app_nil_r. destruct fuel; cbn [recover_frames];
      rewrite (proj2 (Nat.leb_le _ _)) by lia; done.
  - destruct fuel as [|fuel]; [cbn in Hf; lia|]. cbn [map] in *. rewrite frames_cons, <- app_assoc in *.
    cbn [recover_frames]. rewrite (proj2 (Nat.leb_gt _ _)) by (rewrite !length_app, length_framed; lia).
    rewrite next_frame_framed by (done || apply (body_is_ok blake3); done). rewrite (decode_body blake3 e He).
    specialize (IH fuel (pre ++ framed (body e))). rewrite <- !app_assoc in IH.
    rewrite <- (length_app pre), IH by (done || cbn in Hf; lia). unfold unsealed. cbn [List.filter stored eid].
    destruct (bool_decide (eid e ∈ ids)); done.
Qed.

Lemma unsealed_all ids es : Forall (fun e => eid e ∈ ids) es -> unsealed ids es = [].
Proof.
  induction 1 as [|e es He Hes IH]; [done|]. unfold unsealed in *. cbn. rewrite bool_decide_true by done. exact IH.
Qed.

Lemma unsealed_none ids es : Forall (fun e => eid e ∉ ids) es -> unsealed ids es = es.
Proof.
  induction 1 as [|e es He Hes IH]; [done|]. unfold unsealed in *. cbn. rewrite bool_decide_false by done. cbn. f_equal. exact IH.
Qed.

(** A log that was not cut has all its frames. *)
Lemma torn_whole bodies k rest : frames bodies = frames (take k bodies) ++ rest ->
  rest = [] \/ (exists b, bodies !! k = Some b /\ rest `prefix_of` framed b /\ rest <> framed b) -> take k bodies = bodies.
Proof.
  intros E H. destruct (decide (length bodies <= k)%nat) as [Hk|Hk]; [apply take_ge; done|]. exfalso.
  assert (E' : frames (take k bodies) ++ frames (drop k bodies) = frames (take k bodies) ++ rest)
    by (rewrite <- frames_app, take_drop; done).
  clear E. rename E' into E. apply app_inv_head in E.
  destruct (lookup_lt_is_Some_2 bodies k ltac:(lia)) as [b Hb]. rewrite (drop_S _ _ _ Hb), frames_cons in E.
  destruct H as [->|(b' & Hb' & [z Hz] & Hne)].
  - apply (f_equal length) in E. rewrite length_app, length_framed in E. cbn in E. lia.
  - rewrite Hb in Hb'. injection Hb' as <-. apply (f_equal length) in E. rewrite length_app in E.
    pose proof (f_equal length Hz) as Hl. rewrite length_app in Hl. destruct z; [rewrite app_nil_r in Hz; congruence|].
    cbn [length] in Hl. lia.
Qed.

Lemma length_index_from off es : length (index_from off es) = length es.
Proof. rewrite <- (length_map fst), index_from_ids, length_map. done. Qed.

(** Recovering a cut log of [es]: the entries of its whole frames that are not sealed. *)
Lemma recover_wal_cut d st es t w0 : Forall (storable blake3) es -> t `prefix_of` frames (map body es) ->
  Z.of_nat (16 + length t) <= u64_max ->
  d_wal d = Some (encode_prefix MAGIC_WAL 0 ++ t) -> writer st = writer_of [] ->
  (forall d', d_loose d' = d_loose d -> entries_in_append_order blake3 zstd_decode d' st = Ok w0) ->
  exists k, recover_wal blake3 zstd_decode d st
    = (let open := unsealed (map eid w0) (take k es) in
       let st := with_writer st (writer_of open) in
       Ok (if (0 <? length open)%nat then with_wal st true else st),
       set_wal d (Some (encode_prefix MAGIC_WAL 0 ++ frames (map body (take k es)))))
    /\ (t = frames (map body es) -> take k es = es).
Proof.
  intros Hs Ht Hl Hw Hwr Hent. pose proof (length_encode_prefix MAGIC_WAL 0 eq_refl) as Hp.
  assert (Hok : Forall body_ok (map body es)).
  { apply List.Forall_map. eapply List.Forall_impl; [|exact Hs]. intros e. apply (body_is_ok blake3). }
  destruct (complete_frames_torn (map body es) Hok t (length (encode_prefix MAGIC_WAL 0 ++ t)) (encode_prefix MAGIC_WAL 0) Ht)
    as (k & rest & Et & Hrest & Hc); [rewrite length_app; lia | rewrite length_app; lia |].
  exists k. rewrite firstn_map in Et, Hc. split.
  2:{ intros ->. rewrite <- firstn_map in Et. apply torn_whole in Et; [|done]. rewrite firstn_map in Et.
      apply (f_equal length) in Et. rewrite !length_map in Et. rewrite length_take in Et. apply take_ge. lia. }
  assert (Hk : Forall (storable blake3) (take k es)) by (apply Forall_take; done).
  assert (Hlast : last_complete_frame_end (encode_prefix MAGIC_WAL 0 ++ t)
    = Some (length (encode_prefix MAGIC_WAL 0 ++ frames (map body (take k es))))).
  { unfold last_complete_frame_end, FRAME_PREFIX_LEN. rewrite (proj2 (Nat.ltb_ge _ _)) by (rewrite length_app; lia).
    rewrite <- Hp at 1 2. exact Hc. }
  unfold recover_wal. rewrite Hw.
  destruct (encode_prefix MAGIC_WAL 0 ++ t) as [|b0 bs] eqn:Eb; [apply (f_equal length) in Eb; rewrite length_app in Eb; cbn in Eb; lia|].
  rewrite <- Eb in *. rewrite Hlast. clear b0 bs Eb.
  set (P := encode_prefix MAGIC_WAL 0) in *. set (n := length (P ++ frames (map body (take k es)))).
  assert (Hd : (if (n <? length (P ++ t))%nat then set_wal d (Some (take n (P ++ t))) else d)
    = set_wal d (Some (P ++ frames (map body (take k es))))).
  { subst t. unfold n. rewrite !app_assoc, take_app_prefix. destruct (Nat.ltb_spec (length (P ++ frames (map body (take k es))))
      (length ((P ++ frames (map body (take k es))) ++ rest))) as [Hlt|Hge]; [done|].
    destruct rest; [|rewrite length_app in Hge; cbn in Hge; lia]. rewrite !app_nil_r in *. rewrite <- Hw. destruct d; done. }
  rewrite Hd. f_equal. unfold P at 1. rewrite parse_prefix_encode by (done || unfold MAX_HEADER_BYTES; lia).
  cbn [map_err header_len Z.eqb negb]. rewrite Hent by done. fold P.
  assert (Hrec : recover_frames blake3 (length (P ++ t)) (P ++ t) FRAME_PREFIX_LEN n (map eid w0)
    = Some (Ok (map stored (unsealed (map eid w0) (take k es))))).
  { subst t n. unfold FRAME_PREFIX_LEN. rewrite <- Hp. apply recover_frames_ok; [done | |].
    - pose proof (length_frames_bodies blake3 (take k es) Hk). rewrite !length_app. lia.
    - rewrite !length_app in *. lia. }
  rewrite Hrec. cbn [settled].
  assert (Hu : Forall (storable blake3) (unsealed (map eid w0) (take k es))).
  { unfold unsealed. apply List.Forall_forall. intros e He. apply filter_In in He as [He _].
    rewrite List.Forall_forall in Hk. apply Hk. done. }
  rewrite Hwr, writer_append_all_of.
  - cbn [app]. rewrite writer_of_stored by done. cbn [writer_of index]. rewrite length_index_from. done.
  - apply List.Forall_map. eapply List.Forall_impl; [|exact Hu]. intros e. apply stored_storable.
Qed.

(** ** The states of a store *)

Definition WAL_PREFIX : list byte := encode_prefix MAGIC_WAL 0.
Definition log_of (es : list JEntry) : list byte := WAL_PREFIX ++ frames (map body es).

(** A log left behind by an interrupted seal: all its entries are sealed. *)
Definition stale_log (ids : list EntryHash) (w : option (list byte)) : Prop :=
  w = None \/ w = Some [] \/ exists old, Forall (storable blake3) old /\ Forall (fun e => eid e ∈ ids) old
    /\ w = Some (log_of old) /\ Z.of_nat (length (log_of old)) <= u64_max.

(** Entries a writer can hold: within the block limit, which prefixes keep. *)
Definition openable (es : list JEntry) : Prop :=
  Forall (storable blake3) es /\ Z.of_nat (length (frames (map body es))) <= MAX_DECOMPRESSED_SEGMENT_BYTES.

Lemma openable_nil : openable [].
Proof. split; [constructor | unfold MAX_DECOMPRESSED_SEGMENT_BYTES; cbn; lia]. Qed.

Lemma openable_take k es : openable es -> openable (take k es).
Proof.
  intros [H1 H2]. split; [apply Forall_take; done|]. rewrite <- (take_drop k es), map_app, frames_app, length_app in H2. lia.
Qed.

(** A store in the hot tier over sealed segments and open entries, and the files it left. *)
Record store_inv (d : Dir) (st : SegmentStore) (segs : list (list JEntry)) (open : list JEntry) : Prop := {
  si_manifest : d_manifest d = None;
  si_archive : d_archive d = None;
  si_loose : d_loose d = loose_from 0 segs;
  si_retention : retention st = Hot;
  si_archived : archived st = [];
  si_metas : metas_from 0 segs (sealed st);
  si_next : next_segment_id st = Z.of_nat (length segs);
  si_writer : writer st = writer_of open;
  si_segs : Forall sealable segs;
  si_open : openable open;
  si_ids : NoDup (map eid (concat segs ++ open));
  si_wal : if wal_open st then d_wal d = Some (log_of open)
           else open = [] /\ stale_log (map eid (concat segs)) (d_wal d) }.

Lemma inv_new : store_inv empty_dir store_empty [] [].
Proof. split; first [done | apply openable_nil | constructor; fail | split; [done | left; done] | apply base.NoDup_nil_2]. Qed.

Lemma inv_entries d st segs open : store_inv d st segs open ->
  entries_in_append_order blake3 zstd_decode d st = Ok (map stored (concat segs ++ open)).
Proof.
  intros I. unfold entries_in_append_order.
  rewrite (sealed_entries_ok d st 0 segs (sealed st)); [| apply I | apply I | apply I | apply holds_loose_from, I].
  rewrite (si_writer _ _ _ _ I). cbn [writer_of buffer]. rewrite block_entries_bodies.
  - cbn [settled]. rewrite map_app. done.
  - apply (si_open _ _ _ _ I).
  - destruct (si_open _ _ _ _ I). unfold MAX_DECOMPRESSED_SEGMENT_BYTES, u64_max in *. lia.
Qed.

(** ** Sealing and appending *)

Lemma inv_seal d st segs open : store_inv d st segs open -> open = [] \/ sealable open ->
  exists d' st', seal_writer blake3 zstd_encode d st = Ok (d', st')
    /\ store_inv d' st' (match open with [] => segs | _ => segs ++ [open] end) [].
Proof.
  intros I Hs. unfold seal_writer. rewrite (si_writer _ _ _ _ I). cbn [writer_of buffer].
  destruct open as [|e open]; [exists d, st; done|].
  destruct (frames (map body (e :: open))) as [|b0 bs] eqn:Eb.
  { apply (f_equal length) in Eb. cbn [map] in Eb. rewrite frames_cons, length_app, length_framed in Eb. cbn in Eb. lia. }
  clear b0 bs Eb. rewrite (si_next _ _ _ _ I).
  destruct (seal_of (Z.of_nat (length segs)) (e :: open)) as [bytes meta] eqn:Es. cbn [retention].
  rewrite (si_retention _ _ _ _ I), bool_decide_true by done. do 2 eexists. split; [reflexivity|].
  assert (Ho : sealable (e :: open)) by (destruct Hs; done).
  split; cbn [d_manifest d_archive d_loose retention archived sealed next_segment_id writer wal_open set_wal set_loose d_wal];
    try apply I; try done.
  - rewrite (si_loose _ _ _ _ I), oinsert_last by apply (loose_from_below 0 segs). rewrite loose_from_snoc, Z.add_0_l, Es. done.
  - apply metas_from_snoc; [apply I|]. unfold describes. rewrite Z.add_0_l, Es. done.
  - rewrite length_app. cbn. lia.
  - apply List.Forall_app. split; [apply I | constructor; [exact Ho | constructor]].
  - rewrite concat_app. cbn [concat]. rewrite !app_nil_r. apply (si_ids _ _ _ _ I).
  - split; [done | left; done].
Qed.

(** The store once new entries are in its writer and their frames in its log, and it was sealed if full. *)
Lemma inv_write d st segs open new : store_inv d st segs open -> new <> [] -> openable (open ++ new) ->
  (should_seal (writer_of (open ++ new)) = true -> sealable (open ++ new)) -> NoDup (map eid (concat segs ++ open ++ new)) ->
  exists d' st', seal_if_full blake3 zstd_encode (set_wal d (Some (log_of (open ++ new)))) (with_writer (with_wal st true) (writer_of (open ++ new)))
      = Ok (d', st')
    /\ if should_seal (writer_of (open ++ new)) then store_inv d' st' (segs ++ [open ++ new]) []
       else store_inv d' st' segs (open ++ new).
Proof.
  intros I Hne Hop Hs Hid.
  assert (I' : store_inv (set_wal d (Some (log_of (open ++ new)))) (with_writer (with_wal st true) (writer_of (open ++ new))) segs (open ++ new))
    by (destruct I; split; cbn; done).
  unfold seal_if_full. cbn [writer with_writer]. destruct (should_seal (writer_of (open ++ new))).
  - destruct (inv_seal _ _ _ _ I' (or_intror (Hs eq_refl))) as (d' & st' & -> & Hinv). exists d', st'. split; [done|].
    destruct (open ++ new) eqn:Eo; [destruct open, new; done | exact Hinv].
  - do 2 eexists. split; [reflexivity | exact I'].
Qed.

(** What [append] and [append_frames] hand to [seal_if_full]. *)
Lemma append_writes d st segs open e : store_inv d st segs open -> storable blake3 e ->
  store_append blake3 zstd_encode d st e
  = seal_if_full blake3 zstd_encode (set_wal d (Some (log_of (open ++ [e])))) (with_writer (with_wal st true) (writer_of (open ++ [e]))).
Proof.
  intros I He. unfold store_append, ensure_wal. pose proof (si_wal _ _ _ _ I) as Hw. destruct (wal_open st) eqn:Ew.
  - rewrite (si_writer _ _ _ _ I), (writer_append_of blake3 open e He). unfold write_wal. rewrite Hw.
    unfold log_of. rewrite map_app, frames_app, <- !app_assoc. cbn [map]. rewrite frames_single.
    unfold with_wal. rewrite <- Ew. destruct st; done.
  - destruct Hw as [-> _]. cbn [with_wal writer]. rewrite (si_writer _ _ _ _ I), (writer_append_of blake3 [] e He). unfold write_wal, log_of.
    cbn [set_wal d_wal app map]. rewrite frames_single. done.
Qed.

Lemma append_frames_writes d st segs open new : store_inv d st segs open -> Forall (storable blake3) new -> new <> [] ->
  store_append_frames blake3 zstd_encode d st (map frame_for new)
  = seal_if_full blake3 zstd_encode (set_wal d (Some (log_of (open ++ new)))) (with_writer (with_wal st true) (writer_of (open ++ new))).
Proof.
  intros I Hn Hne. unfold store_append_frames. destruct (map frame_for new) as [|f fs] eqn:Ef; [destruct new; done|]. rewrite <- Ef.
  unfold ensure_wal. pose proof (si_wal _ _ _ _ I) as Hw. destruct (wal_open st) eqn:Ew.
  - rewrite (si_writer _ _ _ _ I), (writer_append_frames_of blake3 open new Hn). cbn [writer_of buffer].
    rewrite map_app, frames_app, drop_app_prefix. unfold write_wal. rewrite Hw. unfold log_of. rewrite map_app, frames_app, <- !app_assoc.
    unfold with_wal. rewrite <- Ew. destruct st; done.
  - destruct Hw as [-> _]. cbn [with_wal writer]. rewrite (si_writer _ _ _ _ I), (writer_append_frames_of blake3 [] new Hn). done.
Qed.

(** ** Reloading *)

Lemma ocollect_keys (m : list (Z * list byte)) : ordered m -> sorted_ids (map fst m) = map fst m.
Proof.
  intros Ho. unfold sorted_ids. rewrite ocollect_ordered, map_map; [rewrite map_id; done|].
  unfold ordered in *. induction Ho as [|e m Ho IH Ha]; cbn; constructor; [done|].
  rewrite map_map. apply List.Forall_map. eapply List.Forall_impl; [|exact Ha]. done.
Qed.

Lemma last_loose_id segs :
  match list.last (map fst (loose_from 0 segs)) with Some id => id + 1 | None => 0 end = Z.of_nat (length segs).
Proof.
  destruct segs as [|es segs _] using rev_ind; [done|].
  rewrite loose_from_snoc, map_app, length_app. cbn [map]. rewrite last_snoc. cbn. lia.
Qed.

(** Loading the sealed segments of a directory without manifest and archive. *)
Lemma load_sealed_ok d segs : d_manifest d = None -> d_archive d = None -> d_loose d = loose_from 0 segs ->
  Forall sealable segs -> exists metas, load_sealed_segments blake3 zstd_decode d
    = Ok (mkStore metas [] Hot writer_new false (Z.of_nat (length segs))) /\ metas_from 0 segs metas.
Proof.
  intros Hm Ha Hl Hs. destruct (load_segments_ok d [] 0 segs Hs (holds_loose_from d 0 segs Hl)) as (metas & E & Hmt).
  exists metas. split; [|done]. unfold load_sealed_segments. rewrite Hm, Ha. cbn [archive_load settled]. unfold ocollect at 1. cbn [foldl].
  rewrite app_nil_r, Hl, ocollect_keys by apply loose_from_ordered. rewrite last_loose_id. cbn [ocollect foldl].
  rewrite E. done.
Qed.

(** The log a crash leaves: any prefix of what was written. *)
Definition cut_log (w w' : option (list byte)) : Prop :=
  match w, w' with
  | None, None => True
  | Some bytes, Some bytes' => bytes' `prefix_of` bytes
  | _, _ => False
  end.

(** A log cut inside its own 16-byte prefix. *)
Definition torn_prefix (w : option (list byte)) : bool :=
  match w with Some bytes => (0 <? length bytes)%nat && (length bytes <? FRAME_PREFIX_LEN)%nat | None => false end.

Lemma cut_log_of es bytes' : cut_log (Some (log_of es)) (Some bytes') -> torn_prefix (Some bytes') = false ->
  bytes' = [] \/ exists t, bytes' = WAL_PREFIX ++ t /\ t `prefix_of` frames (map body es).
Proof.
  intros Hp Hl. unfold cut_log, log_of in Hp. apply prefix_app_cases in Hp as [[[k Hk] Hne]|H]; [|right; exact H]. left.
  pose proof (length_encode_prefix MAGIC_WAL 0 eq_refl : length WAL_PREFIX = 16%nat) as H16. rewrite Hk in H16.
  rewrite length_app in H16. unfold torn_prefix, FRAME_PREFIX_LEN in Hl. destruct k; [rewrite app_nil_r in Hk; congruence|].
  destruct bytes' as [|x l]; [done|]. cbn [length] in *. apply andb_false_iff in Hl as [Hl%Nat.ltb_ge|Hl%Nat.ltb_ge]; lia.
Qed.

Lemma log_of_whole es : torn_prefix (Some (log_of es)) = false.
Proof.
  unfold torn_prefix, log_of, FRAME_PREFIX_LEN. rewrite length_app. change (length WAL_PREFIX) with 16%nat.
  apply andb_false_iff. right. apply Nat.ltb_ge. lia.
Qed.

Section Reopen.
Variable d : Dir.
Variable segs : list (list JEntry).
Hypothesis no_manifest : d_manifest d = None.
Hypothesis no_archive : d_archive d = None.
Hypothesis loose : d_loose d = loose_from 0 segs.
Hypothesis segs_ok : Forall sealable segs.
Hypothesis segs_ids : NoDup (map eid (concat segs)).

(** What loading finds before it looks at the log. *)
Lemma loaded_inv metas d' : metas_from 0 segs metas -> d_manifest d' = None -> d_archive d' = None ->
  d_loose d' = loose_from 0 segs -> stale_log (map eid (concat segs)) (d_wal d') ->
  store_inv d' (mkStore metas [] Hot writer_new false (Z.of_nat (length segs))) segs [].
Proof.
  intros Hm H1 H2 H3 Hw. split; first [done | apply openable_nil | rewrite app_nil_r; done].
Qed.

Lemma open_no_log : d_wal d = None \/ d_wal d = Some [] ->
  exists st', open_internal blake3 zstd_decode d false = (Ok st', d) /\ store_inv d st' segs [].
Proof.
  intros Hw. destruct (load_sealed_ok d segs no_manifest no_archive loose segs_ok) as (metas & E & Hm).
  eexists. split; [unfold open_internal, recover_wal; rewrite E; destruct Hw as [-> | ->]; done|].
  apply loaded_inv; try done. unfold stale_log. tauto.
Qed.

(** Opening the directory with a log of [es] cut to [t]. *)
Lemma open_log es t : Forall (storable blake3) es -> t `prefix_of` frames (map body es) ->
  Z.of_nat (length (log_of es)) <= u64_max -> d_wal d = Some (WAL_PREFIX ++ t) ->
  exists metas k, metas_from 0 segs metas
    /\ open_internal blake3 zstd_decode d false
       = (let open := unsealed (map eid (concat segs)) (take k es) in
          Ok (mkStore metas [] Hot (writer_of open) (0 <? length open)%nat (Z.of_nat (length segs))),
          set_wal d (Some (log_of (take k es))))
    /\ (t = frames (map body es) -> take k es = es).
Proof.
  intros Hs Ht Hl Hw. destruct (load_sealed_ok d segs no_manifest no_archive loose segs_ok) as (metas & E & Hm).
  set (st0 := mkStore metas [] Hot writer_new false (Z.of_nat (length segs))) in *.
  destruct (recover_wal_cut d st0 es t (map stored (concat segs))) as (k & Er & Hk).
  - done.
  - done.
  - destruct Ht as [z Hz]. unfold log_of in Hl. rewrite Hz, !length_app in Hl.
    pose proof (length_encode_prefix MAGIC_WAL 0 eq_refl : length WAL_PREFIX = 16%nat). lia.
  - done.
  - done.
  - intros d' Hd'. unfold entries_in_append_order, st0. cbn [sealed writer].
    rewrite (sealed_entries_ok d' _ 0 segs metas); [| done | done | done | apply holds_loose_from; congruence].
    cbn. rewrite app_nil_r. done.
  - exists metas, k. split; [done|]. split; [|done]. unfold open_internal. rewrite E, Er.
    rewrite map_map. change (map (fun x => eid (stored x)) (concat segs)) with (map eid (concat segs)). cbv zeta.
    destruct (0 <? length (unsealed (map eid (concat segs)) (take k es)))%nat; done.
Qed.
End Reopen.

(** ** Lookup *)

Definition lookup (h : EntryHash) (es : list JEntry) : option JEntry := find (fun e => bool_decide (eid e = h)) es.

Lemma lookup_app h l k : lookup h (l ++ k) = match lookup h l with Some e => Some e | None => lookup h k end.
Proof. unfold lookup. induction l as [|e l IH]; [done|]. cbn. case_bool_decide; done. Qed.

Lemma lookup_None h es : lookup h es = None <-> ~ In h (map eid es).
Proof.
  unfold lookup. induction es as [|e es IH]; cbn; [tauto|]. case_bool_decide; [split; [done | tauto]|]. rewrite IH. tauto.
Qed.

Lemma lookup_In e es : NoDup (map eid es) -> In e es -> lookup (eid e) es = Some e.
Proof.
  intros Hn Hin. unfold lookup. induction es as [|x es IH]; [done|]. cbn in *. apply list.NoDup_cons in Hn as [Hx Hn].
  destruct Hin as [->|Hin]; [rewrite bool_decide_true; done|]. rewrite bool_decide_false; [auto|].
  intros E. apply Hx. rewrite E. apply list_elem_of_In, in_map. done.
Qed.

Lemma get_sealed_ok d st h i segs metas : Forall sealable segs -> metas_from i segs metas -> archived st = [] ->
  holds d i segs -> NoDup (map eid (concat segs)) ->
  get_sealed blake3 zstd_decode d st metas h = Ok (option_map stored (lookup h (concat segs))).
Proof.
  intros Hs. revert i metas. induction Hs as [|es segs He Hs IH]; intros i metas Hm Ha Hd Hn; destruct metas as [|m metas]; try done.
  destruct Hm as [Hm1 Hm2]. apply holds_cons in Hd as [Hd1 Hd2]. cbn [get_sealed concat] in *.
  rewrite map_app in Hn. apply list.NoDup_app in Hn as (Hn1 & _ & Hn2).
  unfold get_from_sealed. rewrite (decompressed_block_ok d st m i es) by done.
  assert (Hsam : forall x, In x (samples m) -> exists h, In (h, x.1) (index_from 0 es)).
  { intros x Hx. pose proof (f_equal samples Hm1 : samples m = _) as E. rewrite E in Hx.
    eapply sample_index_In. exact Hx. }
  destruct (locate_in_block_spec blake3 h es (samples m) (se_storable _ _ _ He) (small_block es He) Hsam) as (r & -> & Hr).
  rewrite lookup_app. destruct r as [o|].
  - destruct Hr as (e & Hin & Hid & ->). pose proof (se_storable _ _ _ He) as Hst. rewrite List.Forall_forall in Hst.
    rewrite (decode_body blake3 e (Hst e Hin)), bool_decide_true by done. subst h. rewrite (lookup_In e es Hn1 Hin). done.
  - apply lookup_None in Hr. rewrite Hr. apply (IH (i + 1)); done.
Qed.

Lemma inv_get d st segs open h : store_inv d st segs open ->
  store_get blake3 zstd_decode d st h = Ok (option_map stored (lookup h (concat segs ++ open))).
Proof.
  intros I. pose proof (si_ids _ _ _ _ I) as Hn. destruct (si_open _ _ _ _ I) as [Ho Hsz]. unfold store_get.
  rewrite (si_writer _ _ _ _ I). cbn [writer_of index buffer].
  destruct (find _ (rev (index_from 0 open))) as [[h' o]|] eqn:E.
  - apply find_some in E as [Hin Hb]. cbn in Hb. apply bool_decide_eq_true in Hb as ->. rewrite <- in_rev in Hin.
    apply index_from_split in Hin as (l & e & r & -> & -> & ->). cbn [Nat.add].
    apply List.Forall_app in Ho as [_ Ho]. inversion_clear Ho as [|? ? He _].
    rewrite (frame_payload_at_body blake3 l e r He) by (unfold MAX_DECOMPRESSED_SEGMENT_BYTES, u64_max in *; lia).
    rewrite (decode_body blake3 e He). rewrite (lookup_In e (concat segs ++ l ++ e :: r)); [done | done |].
    apply in_or_app. right. apply in_elt.
  - assert (Hnone : lookup h open = None).
    { apply lookup_None. intros Hin. rewrite <- (index_from_ids 0) in Hin. apply in_map_iff in Hin as ([h' o] & <- & Hin).
      rewrite in_rev in Hin. pose proof (find_none _ _ E _ Hin) as Hb. cbn in Hb. apply bool_decide_eq_false in Hb. done. }
    rewrite lookup_app, Hnone. rewrite map_app in Hn. apply list.NoDup_app in Hn as (Hn & _ & _).
    rewrite (get_sealed_ok d st h 0 segs) by first [apply I | apply holds_loose_from, I | done].
    destruct (lookup h (concat segs)); done.
Qed.

(** ** Crashes *)

(** What a crash leaves on disk: the log cut, and possibly the segment of a seal that had renamed
    its file but not yet removed the log. *)
Inductive crash (d : Dir) (st : SegmentStore) : Dir -> Prop :=
| crash_now w' : cut_log (d_wal d) w' -> crash d st (set_wal d w')
| crash_sealing w' : cut_log (d_wal d) w' -> buffer (writer st) <> [] ->
    crash d st (set_wal (set_loose d (oinsert (next_segment_id st)
      (seal blake3 zstd_encode (writer st) (next_segment_id st)).1 (d_loose d))) w').

(** Reopening with a log whose entries are all sealed. *)
Lemma reopen_stale d segs old w : d_manifest d = None -> d_archive d = None -> d_loose d = loose_from 0 segs ->
  Forall sealable segs -> NoDup (map eid (concat segs)) -> Forall (storable blake3) old ->
  Forall (fun e => eid e ∈ map eid (concat segs)) old -> Z.of_nat (length (log_of old)) <= u64_max ->
  d_wal d = Some w -> cut_log (Some (log_of old)) (Some w) -> torn_prefix (Some w) = false ->
  exists st' d', open_internal blake3 zstd_decode d false = (Ok st', d') /\ store_inv d' st' segs [].
Proof.
  intros H1 H2 H3 Hs Hn Ho Hin Hl Hw Hc Ht0. apply cut_log_of in Hc as [->|(t & -> & Ht)]; [| |exact Ht0].
  { destruct (open_no_log d segs H1 H2 H3 Hs Hn (or_intror Hw)) as (st' & E & I). eauto. }
  destruct (open_log d segs H1 H2 H3 Hs old t Ho Ht Hl Hw) as (metas & k & Hm & -> & _).
  assert (Hk : Forall (fun e => eid e ∈ map eid (concat segs)) (take k old)) by (apply Forall_take; done).
  rewrite (unsealed_all _ _ Hk). do 2 eexists. split; [reflexivity|]. apply (loaded_inv segs Hs Hn); try done.
  right. right. exists (take k old). split_and!; [apply Forall_take; done | done | done |].
  unfold log_of in *. rewrite <- (take_drop k old), map_app, frames_app in Hl. rewrite !length_app in *. lia.
Qed.

Lemma NoDup_disjoint (segs : list (list JEntry)) open : NoDup (map eid (concat segs ++ open)) ->
  Forall (fun e => eid e ∉ map eid (concat segs)) open.
Proof.
  rewrite map_app. intros (_ & Hd & _)%list.NoDup_app. apply List.Forall_forall. intros e He Hin.
  apply (Hd (eid e)); [done|]. apply list_elem_of_In, in_map. done.
Qed.

Lemma reopen_now d st segs open w : store_inv d st segs open -> cut_log (d_wal d) w -> torn_prefix w = false ->
  exists st' d' k, open_internal blake3 zstd_decode (set_wal d w) false = (Ok st', d')
    /\ store_inv d' st' segs (take k open) /\ (w = d_wal d -> take k open = open).
Proof.
  intros I Hc Ht0. pose proof (si_ids _ _ _ _ I) as Hn. pose proof Hn as Hn'. rewrite map_app in Hn'.
  apply list.NoDup_app in Hn' as (Hns & _ & _). destruct (si_open _ _ _ _ I) as [Ho Hsz].
  pose proof (si_wal _ _ _ _ I) as Hw. destruct (wal_open st).
  - rewrite Hw in *. destruct w as [w|]; [|done].
    pose proof (length_encode_prefix MAGIC_WAL 0 eq_refl : length WAL_PREFIX = 16%nat) as H16.
    apply cut_log_of in Hc as [->|(t & -> & Ht)]; [| |exact Ht0].
    + destruct (open_no_log (set_wal d (Some [])) segs) as (st' & E & I'); [apply I | apply I | apply I | apply I | done | right; done|].
      exists st', (set_wal d (Some [])), 0%nat. split_and!; [done | done |]. intros E'. injection E' as E'.
      apply (f_equal length) in E'. unfold log_of in E'. rewrite length_app in E'. cbn [length] in E'. lia.
    + destruct (open_log (set_wal d (Some (WAL_PREFIX ++ t))) segs) with (es := open) (t := t) as (metas & k & Hm & -> & Hk);
        [apply I | apply I | apply I | apply I | done | done | | done |].
      { unfold log_of, MAX_DECOMPRESSED_SEGMENT_BYTES, u64_max in *. rewrite length_app. lia. }
      assert (Hu : unsealed (map eid (concat segs)) (take k open) = take k open)
        by (apply unsealed_none, Forall_take, NoDup_disjoint; done).
      rewrite Hu. do 2 eexists. exists k. split; [reflexivity|]. split.
      * split; cbn [retention archived sealed next_segment_id writer wal_open set_wal d_manifest d_archive d_loose d_wal]; try apply I; try done.
        -- apply openable_take. split; done.
        -- eapply sublist_NoDup; [exact Hn|]. rewrite !map_app. apply sublist_app; [done|].
           rewrite <- firstn_map. apply sublist_take.
        -- destruct (Nat.ltb_spec 0 (length (take k open))) as [Hpos|Hz]; [done|].
           destruct (take k open) as [|x l] eqn:Ek; [|cbn in Hz; lia]. split; [done|].
           right. right. exists []. split_and!; done.
      * intros E. injection E as E. apply Hk. exact E.
  - destruct Hw as [-> Hst].
    enough (exists st' d', open_internal blake3 zstd_decode (set_wal d w) false = (Ok st', d') /\ store_inv d' st' segs []) as (st' & d' & ? & ?)
      by (exists st', d', 0%nat; done).
    destruct Hst as [E|[E|(old & Hos & Hin & E & Hl)]]; rewrite E in Hc.
    + destruct w; [done|]. destruct (open_no_log (set_wal d None) segs) as (st' & ? & ?); [apply I | apply I | apply I | apply I | done | left; done | eauto].
    + destruct w as [w|]; [|done]. apply prefix_nil_inv in Hc as ->.
      destruct (open_no_log (set_wal d (Some [])) segs) as (st' & ? & ?); [apply I | apply I | apply I | apply I | done | right; done | eauto].
    + destruct w as [w|]; [|done]. apply (reopen_stale (set_wal d (Some w)) segs old w); try done; apply I.
Qed.
End Recovery.
