(* ===== verification/StoreCrash.v ===== *)
(** * The segment store over its life

    - The states a hot store reaches by appending, sealing, crashing and reopening.
    - Appends of entries of at most 128 MiB never fail, every entry is found by its hash, and a crash
      loses at most a suffix of the entries that were not sealed, wherever it cuts the log.
    - A manifest that loses a sealed segment once the retention class was set. *)

From S2P Require Import Prelude Machine Cbor Limits Value Path Hex Frame Entry EntryProofs OrdMap Clock Dag Causal Segment SegmentProofs Archive Store StoreProofs.

Open Scope Z_scope.

(** ** Logs cut inside their prefix *)

Lemma load_segments_wal blake3 zstd_decode d w archived flags ids :
  load_segments blake3 zstd_decode (set_wal d w) archived flags ids = load_segments blake3 zstd_decode d archived flags ids.
Proof. induction ids as [|id ids IH]; [done|]. cbn [load_segments set_wal d_loose]. rewrite IH. done. Qed.

Lemma load_sealed_wal blake3 zstd_decode d w :
  load_sealed_segments blake3 zstd_decode (set_wal d w) = load_sealed_segments blake3 zstd_decode d.
Proof.
  unfold load_sealed_segments. cbn [set_wal d_manifest d_archive d_loose].
  destruct (match d_manifest d with Some bytes => _ | None => _ end) as [[class manifest]|]; [|done].
  destruct (settled _) as [records|]; [|done]. cbn [mbind]. rewrite load_segments_wal. done.
Qed.

Definition torn_error : JournalError := SegmentCorrupt (BadPrefix "WAL prefix invalid" TruncatedFrame).

(** What a second attempt finds after a log cut inside its prefix was refused. *)
Definition retried (d : Dir) : Dir := if torn_prefix (d_wal d) then set_wal d (Some []) else d.

(** A log cut inside its 16-byte prefix is not recovered as an empty one: opening fails, although every sealed
    segment is readable, and the failed attempt empties the log, so that the next one succeeds. *)
Lemma torn_log_rejected blake3 zstd_decode d st d2 : torn_prefix (d_wal d) = true ->
  open_internal blake3 zstd_decode (retried d) false = (Ok st, d2) ->
  open_internal blake3 zstd_decode d false = (Err torn_error, retried d).
Proof.
  unfold retried, open_internal. intros Ht. rewrite Ht, load_sealed_wal. destruct (load_sealed_segments _ _ d) as [st0|]; [|done].
  intros _. unfold torn_prefix in Ht. unfold recover_wal. destruct (d_wal d) as [[|b w]|]; [done| |done]. bool_hyps.
  unfold last_complete_frame_end, parse_prefix, FRAME_PREFIX_LEN in *.
  rewrite (proj2 (Nat.ltb_lt (length (b :: w)) 16)) by lia. rewrite (proj2 (Nat.ltb_lt 0 (length (b :: w)))) by lia. done.
Qed.

Section Life.
Variable blake3 : list byte -> list byte.
Variable zstd_encode : list byte -> list byte.
Variable zstd_decode : Z -> list byte -> option (list byte).
Hypothesis blake3_len : forall b, length (blake3 b) = 32%nat.
Hypothesis zstd_ok : forall n b, 0 <= n -> zstd_decode n (zstd_encode b) = Some (take (Z.to_nat n) b).
Hypothesis zstd_bound : forall b,
  Z.of_nat (length (zstd_encode b)) <= Z.of_nat (length b) + Z.of_nat (length b) / 256 + 512.

Local Abbreviation storable := (storable blake3).
Local Abbreviation store_inv := (store_inv blake3 zstd_encode).
Local Abbreviation entries := (entries_in_append_order blake3 zstd_decode).

(** An entry whose frame is at most 128 MiB. *)
Definition modest (e : JEntry) : Prop := storable e /\ Z.of_nat (length (framed (body e))) <= 128 * 1024 * 1024.

Inductive store_reach : Dir -> SegmentStore -> list JEntry -> Prop :=
| sr_new : store_reach empty_dir store_empty []
| sr_append d st es e d' st' : store_reach d st es -> modest e -> eid e ∉ map eid es ->
    store_append blake3 zstd_encode d st e = Ok (d', st') -> store_reach d' st' (es ++ [e])
| sr_seal d st es d' st' : store_reach d st es ->
    seal_writer blake3 zstd_encode d st = Ok (d', st') -> store_reach d' st' es
| sr_crash d st es d' st' d'' es' : store_reach d st es -> crash blake3 zstd_encode d st d' ->
    open_internal blake3 zstd_decode d' false = (Ok st', d'') ->
    es' `prefix_of` es -> entries d'' st' = Ok (map stored es') -> store_reach d'' st' es'.

Definition block_len (es : list JEntry) : Z := Z.of_nat (length (frames (map body es))).

(** The invariant of reachable states: the open block is below the sealing threshold. *)
Definition live (d : Dir) (st : SegmentStore) (es : list JEntry) : Prop :=
  exists segs open, es = concat segs ++ open /\ store_inv d st segs open /\ block_len open < SEGMENT_TARGET_SIZE.

Lemma block_len_take k es : block_len (take k es) <= block_len es.
Proof. unfold block_len. rewrite <- (take_drop k es) at 2. rewrite map_app, frames_app, length_app. lia. Qed.

Lemma small_sealable es : Forall storable es -> block_len es <= 192 * 1024 * 1024 -> sealable blake3 zstd_encode es.
Proof.
  unfold block_len. intros H Hl. split; [done | apply blake3_len | |].
  - unfold MAX_DECOMPRESSED_SEGMENT_BYTES. lia.
  - pose proof (zstd_bound (frames (map body es))) as Hz. unfold MAX_COMPRESSED_SEGMENT_BYTES.
    assert (Z.of_nat (length (frames (map body es))) / 256 <= 1024 * 1024) by (apply Z.div_le_upper_bound; lia). lia.
Qed.

Lemma live_sealable d st segs open : store_inv d st segs open -> block_len open < SEGMENT_TARGET_SIZE ->
  sealable blake3 zstd_encode open.
Proof. intros I Hl. apply small_sealable; [apply (si_open _ _ _ _ _ _ I) | unfold SEGMENT_TARGET_SIZE in Hl; lia]. Qed.

Lemma block_len_app l k : block_len (l ++ k) = block_len l + block_len k.
Proof. unfold block_len. rewrite map_app, frames_app, length_app. lia. Qed.

(** Writing entries of at most 128 MiB in all keeps the store live. *)
Lemma live_write d st segs open new : store_inv d st segs open -> block_len open < SEGMENT_TARGET_SIZE -> new <> [] ->
  Forall storable new -> block_len new <= 128 * 1024 * 1024 -> NoDup (map eid ((concat segs ++ open) ++ new)) ->
  exists d' st', seal_if_full blake3 zstd_encode (set_wal d (Some (log_of (open ++ new)))) (with_writer (with_wal st true) (writer_of (open ++ new)))
      = Ok (d', st') /\ live d' st' ((concat segs ++ open) ++ new).
Proof.
  intros I Hl Hne Hn Hs Hid. pose proof (block_len_app open new) as Hlen. rewrite <- app_assoc in *.
  assert (Hso : Forall storable (open ++ new)) by (apply List.Forall_app; split; [apply (si_open _ _ _ _ _ _ I) | done]).
  assert (Hle : block_len (open ++ new) <= 192 * 1024 * 1024) by (unfold SEGMENT_TARGET_SIZE in Hl; lia).
  destruct (inv_write blake3 zstd_encode d st segs open new I Hne) as (d' & st' & E & H); [| |done|].
  - split; [done | unfold block_len, MAX_DECOMPRESSED_SEGMENT_BYTES in *; lia].
  - intros _. apply small_sealable; done.
  - exists d', st'. split; [exact E|]. destruct (should_seal (writer_of (open ++ new))) eqn:Es.
    + exists (segs ++ [open ++ new]), []. split_and!; [|exact H | done].
      rewrite concat_app. cbn [concat]. rewrite !app_nil_r. done.
    + exists segs, (open ++ new). split_and!; [done | exact H |].
      unfold should_seal in Es. cbn [writer_of buffer] in Es. unfold block_len. lia.
Qed.

Lemma NoDup_snoc (l : list JEntry) e : NoDup (map eid l) -> eid e ∉ map eid l -> NoDup (map eid (l ++ [e])).
Proof.
  intros H He. rewrite map_app. apply list.NoDup_app. split_and!; [done| |apply list.NoDup_singleton].
  intros x Hx Hx'. cbn in Hx'. apply list_elem_of_singleton in Hx' as ->. done.
Qed.

Lemma live_append d st es e : live d st es -> modest e -> eid e ∉ map eid es ->
  exists d' st', store_append blake3 zstd_encode d st e = Ok (d', st') /\ live d' st' (es ++ [e]).
Proof.
  intros (segs & open & -> & I & Hl) [He Hs] Hid. rewrite (append_writes blake3 zstd_encode d st segs open e I He).
  apply live_write; try done; [constructor; [done | constructor] | |].
  - unfold block_len. cbn [map]. rewrite frames_single. exact Hs.
  - apply NoDup_snoc; [apply (si_ids _ _ _ _ _ _ I) | exact Hid].
Qed.

Lemma live_append_frames d st es new : live d st es -> Forall storable new -> new <> [] ->
  block_len new <= 128 * 1024 * 1024 -> NoDup (map eid (es ++ new)) ->
  exists d' st', store_append_frames blake3 zstd_encode d st (map frame_for new) = Ok (d', st') /\ live d' st' (es ++ new).
Proof.
  intros (segs & open & -> & I & Hl) Hn Hne Hs Hid. rewrite (append_frames_writes blake3 zstd_encode d st segs open new I Hn Hne).
  apply live_write; done.
Qed.

Lemma live_seal d st es : live d st es ->
  exists d' st', seal_writer blake3 zstd_encode d st = Ok (d', st') /\ live d' st' es.
Proof.
  intros (segs & open & -> & I & Hl).
  destruct (inv_seal blake3 zstd_encode d st segs open I (or_intror (live_sealable _ _ _ _ I Hl))) as (d' & st' & E & H).
  exists d', st'. split; [exact E|]. eexists _, []. split_and!; [|exact H|done].
  destruct open; [done|]. rewrite concat_app. cbn [concat]. rewrite !app_nil_r. done.
Qed.

Lemma live_entries d st es : live d st es -> entries d st = Ok (map stored es).
Proof. intros (segs & open & -> & I & _). apply (inv_entries blake3 zstd_encode zstd_decode zstd_ok), I. Qed.

Lemma live_whole d st es : live d st es -> torn_prefix (d_wal d) = false.
Proof.
  intros (segs & open & _ & I & _). pose proof (si_wal _ _ _ _ _ _ I) as Hw. destruct (wal_open st); [rewrite Hw; apply log_of_whole|].
  destruct Hw as [_ [->|[->|(old & _ & _ & -> & _)]]]; [done | done | apply log_of_whole].
Qed.

(** A refused log is emptied, which is one of the cuts. *)
Lemma crash_retried d st d' : crash blake3 zstd_encode d st d' -> crash blake3 zstd_encode d st (retried d').
Proof.
  unfold retried. intros Hc. destruct (torn_prefix (d_wal d')) eqn:Ht; [|exact Hc].
  assert (Hcut : forall w w', cut_log w w' -> torn_prefix w' = true -> cut_log w (Some [])) by (intros [w|] [w'|]; try done; intros; apply prefix_nil).
  destruct Hc as [w' Hw|w' Hw Hne]; cbn [d_wal set_wal set_loose d_manifest d_archive d_loose] in *.
  - apply (crash_now _ _ d st (Some [])). eauto.
  - apply (crash_sealing _ _ d st (Some [])); eauto.
Qed.

Lemma retried_whole d : torn_prefix (d_wal (retried d)) = false.
Proof. unfold retried. destruct (torn_prefix (d_wal d)) eqn:E; done. Qed.

(** Reopening after a crash that left the prefix of the log whole. *)
Lemma live_crash d st es d' : live d st es -> crash blake3 zstd_encode d st d' -> torn_prefix (d_wal d') = false ->
  exists st' d'' es', open_internal blake3 zstd_decode d' false = (Ok st', d'') /\ live d'' st' es'
    /\ es' `prefix_of` es /\ (d_wal d' = d_wal d -> es' = es)
    /\ forall l, sealed_entries blake3 zstd_decode d st (sealed st) = Ok l -> l `prefix_of` map stored es'.
Proof.
  intros (segs & open & -> & I & Hl) Hc Ht0.
  assert (Hsealed : sealed_entries blake3 zstd_decode d st (sealed st) = Ok (map stored (concat segs))).
  { rewrite (sealed_entries_ok blake3 zstd_encode zstd_decode zstd_ok d st 0 segs); try apply I; [done | apply holds_loose_from, I]. }
  destruct Hc as [w' Hcut|w' Hcut Hne].
  - destruct (reopen_now blake3 zstd_encode zstd_decode zstd_ok d st segs open w' I Hcut Ht0) as (st' & d'' & k & E & I' & Hk).
    exists st', d'', (concat segs ++ take k open). split_and!; [done| | | |].
    + exists segs, (take k open). split_and!; [done | done |]. pose proof (block_len_take k open). lia.
    + apply prefix_app. exists (drop k open). symmetry. apply take_drop.
    + intros Hw. rewrite (Hk Hw). done.
    + intros l Hs. rewrite Hsealed in Hs. injection Hs as <-. rewrite map_app. apply prefix_app_r. done.
  - pose proof (si_wal _ _ _ _ _ _ I) as Hw. pose proof (si_ids _ _ _ _ _ _ I) as Hn.
    destruct (wal_open st); [|destruct Hw as [-> _]; rewrite (si_writer _ _ _ _ _ _ I) in Hne; done].
    pose proof (live_sealable _ _ _ _ I Hl) as Hso. rewrite Hw in Hcut. destruct w' as [w'|]; [|done].
    assert (Hcat : concat (segs ++ [open]) = concat segs ++ open) by (rewrite concat_app; cbn [concat]; rewrite app_nil_r; done).
    set (d1 := set_wal _ _).
    destruct (reopen_stale blake3 zstd_encode zstd_decode zstd_ok d1) with (segs := segs ++ [open]) (old := open) (w := w')
      as (st' & d'' & E & I'); [apply I | apply I | | | | | | | | exact Hcut | exact Ht0 |]; last first.
    + exists st', d'', (concat segs ++ open). split_and!; [exact E | | done | done |].
      * exists (segs ++ [open]), []. split_and!; [rewrite Hcat, app_nil_r; done | exact I' | done].
      * intros l Hs. rewrite Hsealed in Hs. injection Hs as <-. rewrite map_app. apply prefix_app_r. done.
    + done.
    + unfold log_of. rewrite length_app. change (length WAL_PREFIX) with 16%nat.
      unfold block_len, SEGMENT_TARGET_SIZE in Hl. unfold u64_max. lia.
    + rewrite Hcat. apply List.Forall_forall. intros e He. apply list_elem_of_In, in_map, in_app_iff. right. done.
    + apply Hso.
    + rewrite Hcat. exact Hn.
    + apply List.Forall_app. split; [apply I | constructor; [done | constructor]].
    + subst d1. cbn [d_loose set_wal set_loose]. rewrite (si_loose _ _ _ _ _ _ I), (si_writer _ _ _ _ _ _ I), (si_next _ _ _ _ _ _ I).
      rewrite oinsert_last by apply (loose_from_below blake3 zstd_encode 0 segs). rewrite loose_from_snoc, Z.add_0_l. done.
Qed.

(** Reopening after any crash: at once, or at the second attempt when the log was cut inside its prefix. *)
Lemma live_reopen d st es d' : live d st es -> crash blake3 zstd_encode d st d' ->
  (torn_prefix (d_wal d') = true -> open_internal blake3 zstd_decode d' false = (Err torn_error, retried d'))
  /\ exists st' d'' es', open_internal blake3 zstd_decode (retried d') false = (Ok st', d'') /\ live d'' st' es'
    /\ es' `prefix_of` es /\ (d_wal d' = d_wal d -> es' = es)
    /\ forall l, sealed_entries blake3 zstd_decode d st (sealed st) = Ok l -> l `prefix_of` map stored es'.
Proof.
  intros Hl Hc. destruct (live_crash d st es (retried d') Hl (crash_retried _ _ _ Hc) (retried_whole d')) as (st' & d'' & es' & E & H & Hp & Hw & Hs).
  split; [intros Ht; eapply torn_log_rejected; eauto|]. exists st', d'', es'. split_and!; try done.
  intros Hd. apply Hw. unfold retried. rewrite Hd, (live_whole _ _ _ Hl). exact Hd.
Qed.

Lemma prefix_same_length {A} (l1 l2 l : list A) : l1 `prefix_of` l -> l2 `prefix_of` l -> length l1 = length l2 -> l1 = l2.
Proof. intros [k1 ->] [k2 E] Hl. apply app_inj_1 in E as [-> _]; done. Qed.

Lemma reach_live d st es : store_reach d st es -> live d st es.
Proof.
  induction 1 as [|d st es e d' st' _ IH Hm Hid E|d st es d' st' _ IH E|d st es d' st' d'' es' _ IH Hc E Hp He].
  - exists [], []. split_and!; [done | apply inv_new | done].
  - destruct (live_append d st es e IH Hm Hid) as (? & ? & E' & H). rewrite E in E'. injection E' as <- <-. exact H.
  - destruct (live_seal d st es IH) as (? & ? & E' & H). rewrite E in E'. injection E' as <- <-. exact H.
  - destruct (live_reopen d st es d' IH Hc) as (Ht & ? & ? & es'' & E' & H & Hp' & _). unfold retried in E'.
    destruct (torn_prefix (d_wal d')); [rewrite E in Ht; discriminate (Ht eq_refl)|]. rewrite E in E'. injection E' as <- <-.
    pose proof (live_entries _ _ _ H) as He'. rewrite He in He'. injection He' as Hlen%(f_equal length).
    rewrite !length_map in Hlen. rewrite (prefix_same_length es' es'' es); done.
Qed.

(** Appending to a store in any reachable state succeeds for every entry of at most 128 MiB whose hash is new,
    and the store then holds exactly the entries appended so far, in order. *)
Theorem store_append_total d st es e : store_reach d st es -> modest e -> eid e ∉ map eid es ->
  exists d' st', store_append blake3 zstd_encode d st e = Ok (d', st') /\ entries d' st' = Ok (map stored (es ++ [e])).
Proof.
  intros Hr Hm Hid. destruct (live_append d st es e (reach_live _ _ _ Hr) Hm Hid) as (d' & st' & E & H).
  exists d', st'. split; [exact E | apply live_entries, H].
Qed.


End Life.

(** ** Samples *)

(** A stand-in compressor: the bytes themselves. *)
Definition plain_encode (b : list byte) : list byte := b.
Definition plain_decode (n : Z) (b : list byte) : option (list byte) :=
  Some (if (Z.of_nat (length b) <=? n)%Z then b else take (Z.to_nat n) b).

Lemma plain_ok n b : 0 <= n -> plain_decode n (plain_encode b) = Some (take (Z.to_nat n) b).
Proof.
  intros Hn. unfold plain_decode, plain_encode. destruct (Z.leb_spec (Z.of_nat (length b)) n); [|done].
  rewrite take_ge by lia. done.
Qed.

Lemma plain_bound b :
  Z.of_nat (length (plain_encode b)) <= Z.of_nat (length b) + Z.of_nat (length b) / 256 + 512.
Proof. unfold plain_encode. assert (0 <= Z.of_nat (length b) / 256) by (apply Z.div_pos; lia). lia. Qed.

Lemma roll_len b : length (roll_digest b) = 32%nat.
Proof. apply repeat_length. Qed.

Ltac entry_modest :=
  split; [split; [vm_compute; reflexivity | vm_compute; reflexivity | vm_compute; discriminate | | | vm_compute; reflexivity
    | vm_compute; reflexivity | vm_compute; discriminate] | vm_compute; discriminate];
  match goal with
  | |- clock_wf (eclock ?e) => let c := eval vm_compute in (eclock e) in change (clock_wf c); rewrite !clock_wf_cons;
     repeat split; repeat constructor; unfold u64_max; cbn; lia
  | |- Forall _ (eclock ?e) => let c := eval vm_compute in (eclock e) in change (eclock e) with c; repeat constructor; unfold is_u32, u32_max; cbn; lia
  end.

Lemma first_modest : modest roll_digest first_entry.
Proof. entry_modest. Qed.

Lemma second_modest : modest roll_digest second_entry.
Proof. entry_modest. Qed.

Lemma store_append_total_witness : exists d st,
  store_append roll_digest plain_encode empty_dir store_empty first_entry = Ok (d, st)
  /\ entries_in_append_order roll_digest plain_decode d st = Ok [stored first_entry].
Proof.
  apply (store_append_total roll_digest plain_encode plain_decode roll_len plain_ok plain_bound empty_dir store_empty [] first_entry).
  - constructor.
  - exact first_modest.
  - apply not_elem_of_nil.
Defined.

(** A store that holds two entries, the first one sealed. *)
Definition unwrap (r : result JournalError (Dir * SegmentStore)) : Dir * SegmentStore :=
  match r with Ok p => p | Err _ => (empty_dir, store_empty) end.
Definition step1 : Dir * SegmentStore := unwrap (store_append roll_digest plain_encode empty_dir store_empty first_entry).
Definition step2 : Dir * SegmentStore := unwrap (seal_writer roll_digest plain_encode step1.1 step1.2).
Definition step3 : Dir * SegmentStore := unwrap (store_append roll_digest plain_encode step2.1 step2.2 second_entry).

Lemma sample_store : store_reach roll_digest plain_encode plain_decode step3.1 step3.2 [first_entry; second_entry].
Proof.
  assert (H1 : store_reach roll_digest plain_encode plain_decode step1.1 step1.2 [first_entry]).
  { apply (sr_append _ _ _ empty_dir store_empty []); [constructor | exact first_modest | apply not_elem_of_nil | vm_compute; reflexivity]. }
  assert (H2 : store_reach roll_digest plain_encode plain_decode step2.1 step2.2 [first_entry]).
  { eapply sr_seal; [exact H1 | vm_compute; reflexivity]. }
  apply (sr_append _ _ _ step2.1 step2.2 [first_entry]); [exact H2 | exact second_modest | | vm_compute; reflexivity].
  cbn [map]. intros H. apply list_elem_of_singleton in H. vm_compute in H. discriminate H.
Qed.


Definition sample_log : list byte := match d_wal step3.1 with Some w => w | None => [] end.
Lemma sample_log_wal : d_wal step3.1 = Some sample_log.
Proof. vm_compute. reflexivity. Qed.


(** The same log cut inside its prefix is refused and emptied. *)
Lemma store_torn_prefix : open_internal roll_digest plain_decode (set_wal step3.1 (Some (take 9 sample_log))) false
  = (Err torn_error, set_wal step3.1 (Some [])).
Proof. vm_compute. reflexivity. Qed.

(** A manifest is not updated by a seal in the hot tier, yet loading reads only the segments it names.  Here the
    tier is set to hot again between two sealed entries: the second segment is on disk and readable before the store is
    closed, opening finds one entry only, and the next segment gets the id, and the file, of the lost one. *)
Theorem stale_manifest_loses_segment :
  exists d st d' st',
    (let? '(d, st) := set_retention roll_digest step2.1 step2.2 Hot in
     let? '(d, st) := store_append roll_digest plain_encode d st second_entry in
     seal_writer roll_digest plain_encode d st) = Ok (d, st)
    /\ entries_in_append_order roll_digest plain_decode d st = Ok (map stored [first_entry; second_entry])
    /\ open_internal roll_digest plain_decode d false = (Ok st', d')
    /\ entries_in_append_order roll_digest plain_decode d' st' = Ok (map stored [first_entry])
    /\ map fst (d_loose d') = [0; 1] /\ next_segment_id st' = 1.
Proof.
  destruct (let? '(d, st) := set_retention roll_digest step2.1 step2.2 Hot in
    let? '(d, st) := store_append roll_digest plain_encode d st second_entry in
    seal_writer roll_digest plain_encode d st) as [[d st]|] eqn:E; [|vm_compute in E; discriminate E].
  destruct (open_internal roll_digest plain_decode d false) as [[st'|] d'] eqn:E'.
  - exists d, st, d', st'. vm_compute in E. injection E as <- <-. vm_compute in E'. injection E' as <- <-.
    split_and!; vm_compute; reflexivity.
  - vm_compute in E. injection E as <- <-. vm_compute in E'. discriminate E'.
Qed.
