(* ===== verification/Snapshot.v ===== *)
(** * Actor snapshots

    Models [ledger-journal/src/snapshot.rs] and [snapshot_store.rs]: snapshots with their canonical
    bytes, the per-actor manager, and the hash-chained snapshot file. *)

From S2P Require Import Prelude Machine Cbor CborProofs Limits Value Path Hex Frame Entry OrdMap Clock Dag Segment.
From S2P Require Import SegmentProofs Archive.

Open Scope Z_scope.

Definition DEFAULT_SNAPSHOT_INTERVAL : Z := 100000.

Record Snapshot : Type := mkSnapshot {
  sn_actor : Z;
  sn_sequence : Z;
  sn_entry_id : EntryHash;
  sn_clock : VectorClock;
  sn_state_hash : EntryHash;
  sn_state_data : list byte }.

Definition store_error {A} (msg : string) : result JournalError A := Err (SnapshotStoreError (Msg msg)).

Section Snapshots.
Variable blake3 : list byte -> list byte.

Definition snapshot_new (actor sequence : Z) (entry_id : EntryHash) (clock : VectorClock) (state : list byte) : Snapshot :=
  mkSnapshot actor sequence entry_id clock (blake3 state) state.

Definition snapshot_validate (s : Snapshot) : result JournalError unit :=
  if bool_decide (blake3 (sn_state_data s) = sn_state_hash s) then Ok tt else Err SnapshotHashMismatch.
End Snapshots.

(** ** Canonical bytes *)

Definition snapshot_to_canonical_bytes (s : Snapshot) : list byte :=
  array 6 ++ unsigned (sn_actor s) ++ unsigned (sn_sequence s) ++ cbytes (to_framed_bytes (sn_entry_id s))
  ++ cbytes (clock_encode (sn_clock s)) ++ cbytes (to_framed_bytes (sn_state_hash s)) ++ cbytes (sn_state_data s).

Definition decode_framed_hash (v : CborValue) (field : string) : result JournalError EntryHash :=
  match v with
  | CBytes bytes =>
      map_err (fun _ => SnapshotStoreError (Msg ("snapshot " +:+ field +:+ " must be a 34-byte framed hash"))) (from_framed_bytes bytes)
  | _ => store_error ("snapshot " +:+ field +:+ " is not a 34-byte framed hash")
  end.

Definition snapshot_clock_pair (entries : list (Z * Z)) (p : CborValue * CborValue) : result JournalError (list (Z * Z)) :=
  let? actor :=
    match p.1 with
    | CUnsigned actor => ok_or (u32_try_from actor) (SnapshotStoreError (Msg "vector clock actor exceeds u32"))
    | _ => store_error "vector clock key is not an unsigned integer"
    end in
  match p.2 with
  | CUnsigned count => Ok (oinsert actor count entries)
  | _ => store_error "vector clock value is not an unsigned integer"
  end.

Fixpoint snapshot_clock_pairs (entries : list (Z * Z)) (pairs : list (CborValue * CborValue)) : result JournalError (list (Z * Z)) :=
  match pairs with
  | [] => Ok entries
  | p :: pairs => let? entries := snapshot_clock_pair entries p in snapshot_clock_pairs entries pairs
  end.

Definition snapshot_decode_clock (bytes : list byte) : result JournalError VectorClock :=
  let? value := map_err (fun err => SnapshotStoreError (BadCbor err)) (from_canonical_bytes bytes) in
  match value with
  | CMap pairs => snapshot_clock_pairs [] pairs
  | _ => store_error "snapshot vector clock is not a CBOR map"
  end.

Definition snapshot_from_canonical_bytes (bytes : list byte) : result JournalError Snapshot :=
  let? value := map_err (fun err => SnapshotStoreError (BadCbor err)) (from_canonical_bytes bytes) in
  match value with
  | CArray [a; s; id; vc; h; data] =>
      let? actor :=
        match a with
        | CUnsigned actor => ok_or (u32_try_from actor) (SnapshotStoreError (Msg "snapshot actor exceeds u32"))
        | _ => store_error "snapshot actor is not an unsigned integer"
        end in
      let? sequence := match s with CUnsigned s => Ok s | _ => store_error "snapshot sequence is not an unsigned integer" end in
      let? entry_id := decode_framed_hash id "entry id" in
      let? clock := match vc with CBytes b => snapshot_decode_clock b | _ => store_error "snapshot vector clock is not bytes" end in
      let? state_hash := decode_framed_hash h "state hash" in
      let? state := match data with CBytes b => Ok b | _ => store_error "snapshot state data is not bytes" end in
      Ok (mkSnapshot actor sequence entry_id clock state_hash state)
  | CArray _ => store_error "snapshot encoding has wrong item count"
  | _ => store_error "snapshot encoding is not an array"
  end.

(** ** The manager *)

Record SnapshotManager : Type := mkManager { snapshots : list (Z * list Snapshot); snapshot_interval : Z }.

Definition manager_new (interval : Z) : SnapshotManager := mkManager [] (Z.max interval 1).

Definition should_snapshot (m : SnapshotManager) (current_seq : Z) : bool :=
  (0 <? current_seq)%Z && (current_seq mod snapshot_interval m =? 0)%Z.

Definition record_snapshot (m : SnapshotManager) (s : Snapshot) : SnapshotManager :=
  let list := match oget (sn_actor s) (snapshots m) with Some l => l | None => [] end in
  mkManager (oinsert (sn_actor s) (list ++ [s]) (snapshots m)) (snapshot_interval m).

Definition latest_snapshot (m : SnapshotManager) (actor : Z) : option Snapshot :=
  match oget actor (snapshots m) with Some l => list.last l | None => None end.

Definition all_snapshots (m : SnapshotManager) : list Snapshot := concat (map snd (snapshots m)).

Section Checks.
Variable blake3 : list byte -> list byte.

Definition check_snapshot (j : JournalState) (s : Snapshot) : result JournalError unit :=
  let? _ := snapshot_validate blake3 s in
  match state_lookup j (sn_entry_id s) with Some _ => Ok tt | None => Err (MissingParent (sn_entry_id s)) end.

Fixpoint check_snapshots (j : JournalState) (l : list Snapshot) : result JournalError unit :=
  match l with
  | [] => Ok tt
  | s :: l => let? _ := check_snapshot j s in check_snapshots j l
  end.

Definition validate_all (m : SnapshotManager) (j : JournalState) : result JournalError unit := check_snapshots j (all_snapshots m).

Definition manager_load (m : SnapshotManager) (j : JournalState) (actor : Z) : result JournalError (option Snapshot) :=
  match latest_snapshot m actor with
  | None => Ok None
  | Some s => let? _ := check_snapshot j s in Ok (Some s)
  end.

(** ** The snapshot file *)

Definition MAGIC_SNAPSHOT_STORE : list byte := [x4c; x44; x53; x4e].
Definition SNAPSHOT_FORMAT_VERSION : Z := 2.
Definition SNAPSHOT_HEADER_LEN : nat := 4 + 4 + 32.

Definition snapshot_initial_chain : EntryHash := blake3 [].
Definition snapshot_header (chain : EntryHash) : list byte := MAGIC_SNAPSHOT_STORE ++ to_be_bytes 4 SNAPSHOT_FORMAT_VERSION ++ chain.

(** [read_header_chain]: [read_exact] of the header and its checks. *)
Definition read_header_chain (file : list byte) : result JournalError EntryHash :=
  if (length file <? SNAPSHOT_HEADER_LEN)%nat then Err (SnapshotStoreError (Io "failed to fill whole buffer"))
  else if negb (bool_decide (take 4 file = MAGIC_SNAPSHOT_STORE)) then store_error "snapshot file magic mismatch"
  else if negb (from_be_bytes (take 4 (drop 4 file)) =? SNAPSHOT_FORMAT_VERSION)%Z then store_error "unsupported snapshot format version"
  else Ok (take 32 (drop 8 file)).

(** [SnapshotStore::new]: the file, created when missing, and the chain in memory. *)
Definition snapshot_store_new (file : option (list byte)) : result JournalError (list byte * EntryHash) :=
  match file with
  | Some f => let? chain := read_header_chain f in Ok (f, chain)
  | None => Ok (snapshot_header snapshot_initial_chain, snapshot_initial_chain)
  end.

Definition snapshot_store_append (file : list byte) (chain : EntryHash) (s : Snapshot) : list byte * EntryHash :=
  let record := snapshot_to_canonical_bytes s in
  let next := blake3 (chain ++ record) in
  let file := file ++ to_le_bytes 8 (Z.of_nat (length record)) ++ record in
  (take 8 file ++ next ++ drop SNAPSHOT_HEADER_LEN file, next).

Fixpoint load_snapshot_records (fuel : nat) (bytes : list byte) (offset : nat) (chain : EntryHash) (acc : list Snapshot) :
    option (result JournalError (EntryHash * list Snapshot)) :=
  if (length bytes <=? offset)%nat then Some (Ok (chain, acc))
  else
    match fuel with
    | O => None
    | S fuel =>
        if (length bytes <? offset + 8)%nat then Some (Err SnapshotHashMismatch)
        else
          let len := read_u64_le_at bytes offset in
          match checked_add (Z.of_nat (offset + 8)) len with
          | None => Some (Err SnapshotHashMismatch)
          | Some stop =>
              if (Z.of_nat (length bytes) <? stop)%Z then Some (Err SnapshotHashMismatch)
              else
                let record := slice bytes (offset + 8) (Z.to_nat stop) in
                match snapshot_from_canonical_bytes record with
                | Err e => Some (Err e)
                | Ok s => load_snapshot_records fuel bytes (Z.to_nat stop) (blake3 (chain ++ record)) (acc ++ [s])
                end
          end
    end.

Definition snapshot_store_load (file : option (list byte)) : option (result JournalError (list Snapshot)) :=
  match file with
  | None => Some (Ok [])
  | Some bytes =>
      if (length bytes <? SNAPSHOT_HEADER_LEN)%nat then Some (store_error "snapshot file is too short")
      else if negb (bool_decide (take 4 bytes = MAGIC_SNAPSHOT_STORE)) then Some (store_error "snapshot file magic mismatch")
      else if negb (from_be_bytes (take 4 (drop 4 bytes)) =? SNAPSHOT_FORMAT_VERSION)%Z then Some (store_error "unsupported snapshot format version")
      else
        match load_snapshot_records (length bytes) bytes SNAPSHOT_HEADER_LEN snapshot_initial_chain [] with
        | None => None
        | Some (Err e) => Some (Err e)
        | Some (Ok (chain, l)) =>
            if bool_decide (chain = take 32 (drop 8 bytes)) then Some (Ok l) else Some (Err SnapshotHashMismatch)
        end
  end.
End Checks.

(** ** Actor snapshots: correctness

    - A snapshot's canonical bytes decode back to it.
    - The snapshot file is append-durable: a file written by appends loads back, chain verified.
    - The manager returns the last snapshot recorded for an actor. *)

(** What the fields of a snapshot are in the code: machine integers, digests and a clock. *)
Record snapshot_wf (s : Snapshot) : Prop := {
  sw_actor : is_u32 (sn_actor s);
  sw_seq : is_u64 (sn_sequence s);
  sw_id : length (sn_entry_id s) = 32%nat;
  sw_clock : clock_wf (sn_clock s);
  sw_actors : Forall (fun c => is_u32 c.1) (sn_clock s);
  sw_hash : length (sn_state_hash s) = 32%nat;
  sw_size : Z.of_nat (length (snapshot_to_canonical_bytes s)) <= u64_max }.

Lemma snapshot_clock_pairs_app acc c : Forall (fun e => is_u32 e.1) c -> ordered (acc ++ c) ->
  snapshot_clock_pairs acc (map (fun e => (CUnsigned e.1, CUnsigned e.2)) c) = Ok (acc ++ c).
Proof.
  revert acc. induction c as [|[k v] c IH]; intros acc Hu Ho; [rewrite app_nil_r; done|].
  inversion_clear Hu as [|? ? Hk Hc]. cbn [map snapshot_clock_pairs]. unfold snapshot_clock_pair. cbn [fst snd].
  rewrite (u32_try_from_ok k Hk). cbn [ok_or].
  assert (Hlast : Forall (fun e => e.1 < k) acc).
  { apply Forall_forall. intros e He. apply (ordered_app _ _ Ho e (k, v)); [exact He | left; done]. }
  rewrite (oinsert_last _ _ _ Hlast). cbn [mbind]. rewrite IH by (rewrite <- ?app_assoc; done). rewrite <- app_assoc. done.
Qed.

(** The value a snapshot's bytes encode. *)
Definition snapshot_cbor (s : Snapshot) : CborValue :=
  CArray [CUnsigned (sn_actor s); CUnsigned (sn_sequence s); CBytes (to_framed_bytes (sn_entry_id s));
          CBytes (clock_encode (sn_clock s)); CBytes (to_framed_bytes (sn_state_hash s)); CBytes (sn_state_data s)].

Lemma snapshot_try_encode s : to_canonical_bytes (snapshot_cbor s) = Ok (snapshot_to_canonical_bytes s).
Proof. unfold to_canonical_bytes, snapshot_cbor, snapshot_to_canonical_bytes. cbn. rewrite app_nil_r. done. Qed.

Lemma length_cbytes b : (length b <= length (cbytes b))%nat.
Proof. unfold cbytes. rewrite length_app. lia. Qed.

Lemma snapshot_decode_encode s : snapshot_wf s -> snapshot_from_canonical_bytes (snapshot_to_canonical_bytes s) = Ok s.
Proof.
  intros [H1 H2 H3 H4 H5 H6 H7]. unfold snapshot_from_canonical_bytes.
  assert (Hb : Z.of_nat (length (clock_encode (sn_clock s))) <= u64_max /\ Z.of_nat (length (sn_state_data s)) <= u64_max).
  { unfold snapshot_to_canonical_bytes in H7. rewrite !length_app in H7.
    pose proof (length_cbytes (clock_encode (sn_clock s))). pose proof (length_cbytes (sn_state_data s)). lia. }
  rewrite (from_to_canonical (snapshot_cbor s)); [| |cbn; unfold MAX_DEPTH; lia|apply snapshot_try_encode].
  - cbn. rewrite (u32_try_from_ok _ H1). cbn.
    rewrite !from_to_framed_bytes by (apply Nat.eqb_eq; done). cbn. unfold snapshot_decode_clock.
    rewrite clock_from_canonical by (try done; pose proof (length_clock_encode (sn_clock s)); lia). cbn.
    rewrite (snapshot_clock_pairs_app []) by (done || apply H4). cbn. destruct s. done.
  - unfold snapshot_cbor. cbn [cbor_wf forallb]. cbn [to_framed_bytes length]. rewrite H3, H6.
    apply is_u32_u64 in H1. rewrite !andb_true_iff. split_and!; try done; apply u64b_spec; try done; unfold is_u64; lia.
Qed.

(** ** The snapshot file *)

Section File.
Variable blake3 : list byte -> list byte.
Hypothesis blake3_len : forall b, length (blake3 b) = 32%nat.

Local Abbreviation records snaps := (map snapshot_to_canonical_bytes snaps).

(** The chain over records, and the file of a list of snapshots. *)
Definition snapshot_chain (rs : list (list byte)) : EntryHash :=
  foldl (fun chain r => blake3 (chain ++ r)) (snapshot_initial_chain blake3) rs.

Definition snapshot_file (snaps : list Snapshot) : list byte :=
  snapshot_header (snapshot_chain (records snaps)) ++ frames (records snaps).

Lemma snapshot_chain_length rs : length (snapshot_chain rs) = 32%nat.
Proof.
  unfold snapshot_chain. induction rs as [|r rs _] using rev_ind; [apply blake3_len|]. rewrite foldl_app. apply blake3_len.
Qed.

Lemma length_snapshot_header chain : length chain = 32%nat -> length (snapshot_header chain) = SNAPSHOT_HEADER_LEN.
Proof. intros H. unfold snapshot_header. rewrite !length_app, !length_to_be_bytes, H. done. Qed.

Lemma snapshot_header_fields chain rest : length chain = 32%nat ->
  (SNAPSHOT_HEADER_LEN <= length (snapshot_header chain ++ rest))%nat
  /\ take 4 (snapshot_header chain ++ rest) = MAGIC_SNAPSHOT_STORE
  /\ from_be_bytes (take 4 (drop 4 (snapshot_header chain ++ rest))) = SNAPSHOT_FORMAT_VERSION
  /\ take 32 (drop 8 (snapshot_header chain ++ rest)) = chain.
Proof.
  intros H. split_and!; try done.
  - rewrite length_app, length_snapshot_header by done. lia.
  - unfold snapshot_header. rewrite <- !app_assoc. change (drop 8 _) with (chain ++ rest). rewrite <- H. apply take_app_prefix.
Qed.

Lemma snapshot_load_step fuel pre s post chain acc : snapshot_wf s ->
  Z.of_nat (length (pre ++ framed (snapshot_to_canonical_bytes s) ++ post)) <= u64_max ->
  load_snapshot_records blake3 (S fuel) (pre ++ framed (snapshot_to_canonical_bytes s) ++ post) (length pre) chain acc
  = load_snapshot_records blake3 fuel ((pre ++ framed (snapshot_to_canonical_bytes s)) ++ post)
      (length (pre ++ framed (snapshot_to_canonical_bytes s))) (blake3 (chain ++ snapshot_to_canonical_bytes s)) (acc ++ [s]).
Proof.
  intros Hs Hl. pose proof Hl as Hl'. rewrite !length_app, length_framed in Hl'. cbn [load_snapshot_records].
  set (r := snapshot_to_canonical_bytes s) in *.
  rewrite (proj2 (Nat.leb_gt _ _)) by (rewrite !length_app, length_framed; lia).
  rewrite (proj2 (Nat.ltb_ge _ _)) by (rewrite !length_app, length_framed; lia).
  assert (E : read_u64_le_at (pre ++ framed r ++ post) (length pre) = Z.of_nat (length r)).
  { unfold framed. rewrite <- !app_assoc. apply read_u64_le_app. unfold is_u64. lia. }
  rewrite E. unfold checked_add. rewrite (proj2 (Z.leb_le _ _)) by lia.
  rewrite (proj2 (Z.ltb_ge _ _)) by (rewrite !length_app, length_framed; lia).
  replace (Z.to_nat _) with (length pre + 8 + length r)%nat by lia.
  assert (Er : slice (pre ++ framed r ++ post) (length pre + 8) (length pre + 8 + length r) = r).
  { unfold framed. rewrite <- !app_assoc, (app_assoc pre).
    replace (length pre + 8)%nat with (length (pre ++ to_le_bytes 8 (Z.of_nat (length r)))) by (rewrite length_app, length_to_le_bytes; done).
    apply slice_app. }
  rewrite Er. unfold r at 1. rewrite (snapshot_decode_encode s Hs), <- app_assoc, length_app, length_framed, Nat.add_assoc. done.
Qed.

Lemma snapshot_load_app snaps : Forall snapshot_wf snaps -> forall fuel pre chain acc,
  Z.of_nat (length (pre ++ frames (records snaps))) <= u64_max -> (length snaps <= fuel)%nat ->
  load_snapshot_records blake3 fuel (pre ++ frames (records snaps)) (length pre) chain acc
  = Some (Ok (foldl (fun chain r => blake3 (chain ++ r)) chain (records snaps), acc ++ snaps)).
Proof.
  induction 1 as [|s snaps Hs _ IH]; intros fuel pre chain acc Hl Hf.
  - cbn [map frames concat foldl]. rewrite !app_nil_r. destruct fuel; cbn [load_snapshot_records]; rewrite (proj2 (Nat.leb_le _ _)) by done; done.
  - destruct fuel as [|fuel]; [cbn in Hf; lia|]. cbn [map foldl] in *. rewrite frames_cons in *.
    rewrite snapshot_load_step by done. rewrite IH; [|rewrite <- app_assoc; exact Hl | cbn in Hf; lia].
    rewrite <- app_assoc. done.
Qed.

Lemma snapshot_load_file snaps : Forall snapshot_wf snaps -> Z.of_nat (length (snapshot_file snaps)) <= u64_max ->
  snapshot_store_load blake3 (Some (snapshot_file snaps)) = Some (Ok snaps).
Proof.
  intros Hs Hl. unfold snapshot_store_load.
  destruct (snapshot_header_fields (snapshot_chain (records snaps)) (frames (records snaps))) as (E0 & E1 & E2 & E3);
    [apply snapshot_chain_length|]. fold (snapshot_file snaps) in *.
  rewrite (proj2 (Nat.ltb_ge _ _)) by lia. rewrite E1, E2, E3, bool_decide_true, Z.eqb_refl by done. cbn [negb].
  rewrite <- (length_snapshot_header (snapshot_chain (records snaps))) by apply snapshot_chain_length.
  unfold snapshot_file at 2. rewrite snapshot_load_app; [|done|done|].
  - rewrite bool_decide_true by done. done.
  - unfold snapshot_file. rewrite length_app. enough (length snaps <= length (frames (records snaps)))%nat by lia.
    clear. induction snaps as [|s snaps IH]; [done|]. cbn [map length]. rewrite frames_cons, length_app, length_framed. lia.
Qed.

Lemma snapshot_new_file snaps :
  snapshot_store_new blake3 (Some (snapshot_file snaps)) = Ok (snapshot_file snaps, snapshot_chain (records snaps)).
Proof.
  unfold snapshot_store_new, read_header_chain.
  destruct (snapshot_header_fields (snapshot_chain (records snaps)) (frames (records snaps))) as (E0 & E1 & E2 & E3);
    [apply snapshot_chain_length|]. fold (snapshot_file snaps) in *.
  rewrite (proj2 (Nat.ltb_ge _ _)) by lia. rewrite E1, E2, E3, bool_decide_true, Z.eqb_refl by done. done.
Qed.

Lemma snapshot_append_file snaps s :
  snapshot_store_append blake3 (snapshot_file snaps) (snapshot_chain (records snaps)) s
  = (snapshot_file (snaps ++ [s]), snapshot_chain (records (snaps ++ [s]))).
Proof.
  assert (Ec : snapshot_chain (records (snaps ++ [s])) = blake3 (snapshot_chain (records snaps) ++ snapshot_to_canonical_bytes s))
    by (rewrite map_app; unfold snapshot_chain; rewrite foldl_app; done).
  unfold snapshot_store_append. rewrite Ec. f_equal. unfold snapshot_file. rewrite Ec, map_app, frames_app. cbn [map].
  rewrite frames_single. unfold snapshot_header. rewrite <- !app_assoc.
  pose proof (overwrite (MAGIC_SNAPSHOT_STORE ++ to_be_bytes 4 SNAPSHOT_FORMAT_VERSION) (snapshot_chain (records snaps))
    (blake3 (snapshot_chain (records snaps) ++ snapshot_to_canonical_bytes s))
    (frames (records snaps) ++ framed (snapshot_to_canonical_bytes s))) as H.
  rewrite blake3_len in H. specialize (H (snapshot_chain_length _)). rewrite <- !app_assoc in H. exact H.
Qed.
End File.

(** The snapshot file is append-durable.  Reopening the file of any snapshots and appending one more gives the file of
    the longer list, and loading it verifies the hash chain, decodes every record and returns the snapshots in order. *)
Theorem snapshot_store_durable blake3 snaps s :
  (forall b, length (blake3 b) = 32%nat) -> Forall snapshot_wf (snaps ++ [s]) ->
  Z.of_nat (length (snapshot_file blake3 (snaps ++ [s]))) <= u64_max ->
  exists file chain, snapshot_store_new blake3 (Some (snapshot_file blake3 snaps)) = Ok (file, chain)
    /\ snapshot_store_load blake3 (Some (snapshot_store_append blake3 file chain s).1) = Some (Ok (snaps ++ [s])).
Proof.
  intros Hlen Hs Hl. eexists _, _. split; [apply snapshot_new_file; done|].
  rewrite snapshot_append_file by done. apply snapshot_load_file; done.
Qed.

Definition sample_snapshot : Snapshot := snapshot_new zero_digest 1 4 (zero_digest []) [(1, 5)] [x0a; x0b].

Lemma snapshot_store_durable_witness :
  exists file chain, snapshot_store_new zero_digest (Some (snapshot_file zero_digest [])) = Ok (file, chain)
    /\ snapshot_store_load zero_digest (Some (snapshot_store_append zero_digest file chain sample_snapshot).1)
       = Some (Ok [sample_snapshot]).
Proof.
  apply (snapshot_store_durable zero_digest [] sample_snapshot).
  - reflexivity.
  - constructor; [|constructor]. split; try done.
    + cbn. rewrite !clock_wf_cons. repeat split; repeat constructor; unfold u64_max; lia.
    + repeat constructor; vm_compute; discriminate.
  - vm_compute. discriminate.
Defined.
