(* ===== verification/Persistent.v ===== *)
(** * The durable journal

    [PersistentJournal] of [ledger-journal/src/persistent.rs]: the in-memory journal, the segment store and the snapshot
    file behind one facade.

    The directory is a value: [p_dir] holds the store's files and [p_snap_file] the snapshot file.  A call that fails
    gives the error and the facade the caller is left with; the store's files after a failed store call are not
    modelled, so that facade is the one before the call with the memory rolled back.  [append] and [append_batch] hold a
    clone of the journal, so the base is shared and the overlay is never frozen there; [open] holds none. *)

From S2P Require Import Prelude Machine Cbor Limits Value Path Hex Frame Entry OrdMap Clock Dag Segment Archive Store Snapshot.

Open Scope Z_scope.

Record PersistentDir : Type := mkPDir { p_dir : Dir; p_snap_file : option (list byte) }.

Definition empty_pdir : PersistentDir := mkPDir empty_dir None.

Record PersistentJournal : Type := mkPersistent {
  p_journal : JournalState;
  p_store : SegmentStore;
  p_snapshots : SnapshotManager;
  p_chain : EntryHash }.

Definition with_journal (p : PersistentJournal) (j : JournalState) : PersistentJournal :=
  mkPersistent j (p_store p) (p_snapshots p) (p_chain p).

Section Persistent.
Variable blake3 : list byte -> list byte.
Variable zstd_encode : list byte -> list byte.
Variable zstd_decode : Z -> list byte -> option (list byte).

(** [create_with_interval]. *)
Definition create_with_interval (pd : PersistentDir) (interval : Z) : result JournalError (PersistentDir * PersistentJournal) :=
  let '(opened, d) := open_internal blake3 zstd_decode (p_dir pd) true in
  let? store := opened in
  let? '(file, chain) := snapshot_store_new blake3 (p_snap_file pd) in
  Ok (mkPDir d (Some file), mkPersistent journal_new store (manager_new interval) chain).

(** One turn of the replay loop of [open_with_interval]. *)
Definition replay_entry (j : JournalState) (e : JEntry) : result JournalError JournalState :=
  let? '(id, j) := append blake3 true j (kind (edata e)) (actor (edata e)) (parents (edata e)) (payload (edata e)) in
  if negb (bool_decide (id = eid e)) then Err (InvariantViolation "entry replayed as another id")
  else
    let? replayed := ok_or (state_lookup j id) (InvariantViolation "replayed entry missing from journal") in
    if bool_decide (eclock replayed = eclock e) then Ok j else Err (InvariantViolation "vector clock diverges on reload").

Fixpoint replay (j : JournalState) (es : list JEntry) : result JournalError JournalState :=
  match es with
  | [] => Ok j
  | e :: es => let? j := replay_entry j e in replay j es
  end.

(** [open_with_interval]: the result, and the directory, whose log recovery cuts. *)
Definition open_with_interval (pd : PersistentDir) (interval : Z) : result JournalError PersistentJournal * PersistentDir :=
  match settled (snapshot_store_load blake3 (p_snap_file pd)) with
  | Err e => (Err e, pd)
  | Ok loaded =>
      let snapshots := foldl record_snapshot (manager_new interval) loaded in
      let '(opened, d) := open_internal blake3 zstd_decode (p_dir pd) false in
      let pd := mkPDir d (p_snap_file pd) in
      let replayed :=
        let? store := opened in
        let? es := entries_in_append_order blake3 zstd_decode d store in
        let? j := replay journal_new es in
        let? _ := validate_all blake3 snapshots j in
        let? '(file, chain) := snapshot_store_new blake3 (p_snap_file pd) in
        Ok (file, mkPersistent j store snapshots chain) in
      match replayed with
      | Err e => (Err e, pd)
      | Ok (file, p) => (Ok p, mkPDir d (Some file))
      end
  end.

(** The snapshot step of [append] and [append_batch]. *)
Definition snapshot_entry (pd : PersistentDir) (p : PersistentJournal) (e : JEntry) : PersistentDir * PersistentJournal :=
  if should_snapshot (p_snapshots p) (sequence (edata e)) then
    let s := snapshot_new blake3 (actor (edata e)) (sequence (edata e)) (eid e) (eclock e) [] in
    let file := match p_snap_file pd with Some f => f | None => [] end in
    let '(file, chain) := snapshot_store_append blake3 file (p_chain p) s in
    (mkPDir (p_dir pd) (Some file), mkPersistent (p_journal p) (p_store p) (record_snapshot (p_snapshots p) s) chain)
  else (pd, p).

(** [PersistentJournal::append]. *)
Definition persistent_append (pd : PersistentDir) (p : PersistentJournal) (k : EntryKind) (act : Z)
    (observed : list EntryHash) (pl : EntryPayload) :
    result (JournalError * PersistentJournal) (EntryHash * PersistentDir * PersistentJournal) :=
  match append blake3 false (p_journal p) k act observed pl with
  | Err e => Err (e, p)
  | Ok (id, j) =>
      match state_lookup j id with
      | None => Err (InvariantViolation "appended entry missing from journal", p)
      | Some entry =>
          match store_append blake3 zstd_encode (p_dir pd) (p_store p) entry with
          | Err e => Err (e, p)
          | Ok (d, store) =>
              let pd := mkPDir d (p_snap_file pd) in
              let '(pd, p) := snapshot_entry pd (mkPersistent j store (p_snapshots p) (p_chain p)) entry in
              Ok (id, pd, p)
          end
      end
  end.

(** The snapshot loop of [append_batch]. *)
Fixpoint snapshot_ids (pd : PersistentDir) (p : PersistentJournal) (ids : list EntryHash) :
    result JournalError (PersistentDir * PersistentJournal) :=
  match ids with
  | [] => Ok (pd, p)
  | id :: ids =>
      match state_lookup (p_journal p) id with
      | None => Err (InvariantViolation "appended entry missing from journal")
      | Some entry => let '(pd, p) := snapshot_entry pd p entry in snapshot_ids pd p ids
      end
  end.

(** [PersistentJournal::append_batch]; an entry the journal refuses leaves the earlier ones in memory. *)
Definition persistent_append_batch (pd : PersistentDir) (p : PersistentJournal) (batch : list BatchEntry) :
    result (JournalError * PersistentJournal) (list EntryHash * PersistentDir * PersistentJournal) :=
  let '(appended, frames, j) := append_batch blake3 false (p_journal p) batch in
  match appended with
  | Err e => Err (e, with_journal p j)
  | Ok ids =>
      match store_append_frames blake3 zstd_encode (p_dir pd) (p_store p) frames with
      | Err e => Err (e, p)
      | Ok (d, store) =>
          match snapshot_ids (mkPDir d (p_snap_file pd)) (mkPersistent j store (p_snapshots p) (p_chain p)) ids with
          | Err e => Err (e, p)
          | Ok (pd, p) => Ok (ids, pd, p)
          end
      end
  end.

Definition force_seal (pd : PersistentDir) (p : PersistentJournal) : result JournalError (PersistentDir * PersistentJournal) :=
  let? '(d, store) := seal_writer blake3 zstd_encode (p_dir pd) (p_store p) in
  Ok (mkPDir d (p_snap_file pd), mkPersistent (p_journal p) store (p_snapshots p) (p_chain p)).

Definition persistent_set_retention (pd : PersistentDir) (p : PersistentJournal) (class : RetentionClass) :
    result JournalError (PersistentDir * PersistentJournal) :=
  let? '(d, store) := set_retention blake3 (p_dir pd) (p_store p) class in
  Ok (mkPDir d (p_snap_file pd), mkPersistent (p_journal p) store (p_snapshots p) (p_chain p)).

(** ** Fork *)

(** The segment files of the fork: archived bytes written out, loose files linked or copied. *)
Fixpoint fork_segments (d : Dir) (st : SegmentStore) (segments : list SealedSegment) (loose : list (Z * list byte)) :
    result JournalError (list (Z * list byte)) :=
  match segments with
  | [] => Ok loose
  | s :: segments =>
      let? bytes := segment_bytes d st (s_id s) in
      fork_segments d st segments (oinsert (s_id s) bytes loose)
  end.

Fixpoint store_append_all (d : Dir) (st : SegmentStore) (es : list JEntry) : result JournalError (Dir * SegmentStore) :=
  match es with
  | [] => Ok (d, st)
  | e :: es => let? '(d, st) := store_append blake3 zstd_encode d st e in store_append_all d st es
  end.

Definition sealed_count (st : SegmentStore) : Z := foldr (fun s n => entry_count s + n) 0 (sealed st).

(** [PersistentJournal::fork] into the directory [fork_dir]; the forked journal starts with no snapshot. *)
Definition persistent_fork (pd : PersistentDir) (p : PersistentJournal) (fork_dir : PersistentDir) :
    result JournalError (PersistentDir * PersistentJournal) :=
  let journal := fork (p_journal p) in
  let? loose := fork_segments (p_dir pd) (p_store p) (sealed (p_store p)) (d_loose (p_dir fork_dir)) in
  let '(opened, d) := open_internal blake3 zstd_decode (set_loose (p_dir fork_dir) loose) false in
  let? store := opened in
  let? '(d, store) := store_append_all d store (drop (Z.to_nat (sealed_count (p_store p))) (entries (p_journal p))) in
  let d := write_manifest d store in
  let? '(file, chain) := snapshot_store_new blake3 (p_snap_file fork_dir) in
  Ok (mkPDir d (Some file), mkPersistent journal store (manager_new DEFAULT_SNAPSHOT_INTERVAL) chain).
End Persistent.
