(* ===== verification/Replay.v ===== *)
(** * Replaying stored entries

    - Entries read back from the store, appended again in order, give the same ids and clocks.
    - A store that holds entries holds their stored forms. *)

From stdpp Require Import gmap.
From S2P Require Import Prelude Machine Cbor Limits Value Path Hex Frame Entry EntryProofs EntryDecode OrdMap Clock Dag Causal Segment SegmentProofs Archive Store StoreProofs StoreCrash Snapshot Persistent.

Open Scope Z_scope.

(** ** Parents that were assembled assemble to themselves *)

Lemma add_parents_fresh l : forall seen ps, seen = list_to_set ps -> NoDup (ps ++ l) ->
  Z.of_nat (length (ps ++ l)) <= MAX_PARENTS_PER_ENTRY ->
  exists seen', add_parents (seen, ps) l = Ok (seen', ps ++ l).
Proof.
  induction l as [|p l IH]; intros seen ps Hs Hn Hl; [rewrite app_nil_r; eexists; done|].
  cbn [add_parents add_parent]. assert (Hp : p ∉ ps).
  { apply list.NoDup_app in Hn as (_ & Hd & _). intros Hp. apply (Hd p Hp). left. }
  rewrite decide_False by (subst seen; rewrite elem_of_list_to_set; done).
  rewrite length_app in Hl. cbn [length] in Hl. rewrite (proj2 (Z.leb_gt _ _)) by lia. cbn [mbind].
  destruct (IH ({[p]} ∪ seen) (ps ++ [p])) as [seen' E].
  - subst seen. rewrite list_to_set_app_L. set_solver.
  - rewrite <- app_assoc. exact Hn.
  - rewrite !length_app. cbn. lia.
  - exists seen'. rewrite E, <- app_assoc. done.
Qed.

Lemma assemble_parents_again head observed ps : assemble_parents head observed None = Ok ps ->
  assemble_parents head ps None = Ok ps.
Proof.
  intros H. apply assemble_parents_spec in H as (Hn & _ & Hh & Hl). unfold assemble_parents. cbv zeta. destruct head as [h|].
  - destruct (Hh h eq_refl) as [tl ->]. cbn [add_parents add_parent]. rewrite decide_True by set_solver. cbn [mbind].
    destruct (add_parents_fresh tl {[h]} [h]) as [seen' ->]; [set_solver | done | done | done].
  - destruct (add_parents_fresh ps ∅ []) as [seen' ->]; [done | done | done | done].
Qed.

(** ** The log of stored entries *)

Lemma log_get_stored log id : log_get (map stored log) id = option_map stored (log_get log id).
Proof. unfold log_get. induction log as [|e log IH]; [done|]. cbn. case_bool_decide; [done | exact IH]. Qed.

Lemma log_head_stored log a : log_head (map stored log) a = option_map stored (log_head log a).
Proof.
  induction log as [|e log IH] using rev_ind; [done|]. rewrite map_app. cbn [map]. rewrite !log_head_app. cbn. case_split; done.
Qed.

Lemma merge_parents_stored log ps : forall clock, merge_parents (log_get (map stored log)) clock ps = merge_parents (log_get log) clock ps.
Proof.
  induction ps as [|p ps IH]; intros clock; [done|]. cbn. rewrite log_get_stored. destruct (log_get log p); [|done]. cbn. apply IH.
Qed.

Lemma map_eid_stored log : map eid (map stored log) = map eid log.
Proof. rewrite map_map. done. Qed.

Section Replay.
Variable blake3 : list byte -> list byte.

(** Appending what was stored gives what was stored. *)
Lemma log_append_stored log k act obs pl e : log_append blake3 log k act obs pl = Ok e -> entry_wf (edata e) = true ->
  log_append blake3 (map stored log) (kind (edata (stored e))) (actor (edata (stored e))) (parents (edata (stored e)))
    (payload (edata (stored e))) = Ok (stored e).
Proof.
  intros H Hw. unfold log_append in H. cbv zeta in H. destruct (assemble_parents _ obs None) as [ps|] eqn:Ea; [|done].
  cbn [mbind] in H. destruct (merge_parents _ _ ps) as [c|] eqn:Em; [|done]. cbn [mbind] in H.
  unfold entry_new, new_with_scratch_recorded in H. set (data := mkEntryData _ _ _ _ _ _ _) in H.
  destruct (entry_encode data) as [out|] eqn:Ee; [|done]. injection H as <-. cbn [edata] in Hw.
  pose proof (entry_encode_canon data out Hw Ee) as Ec. unfold stored. cbn [edata eid eclock canon_entry kind actor parents payload data].
  unfold log_append. cbv zeta. rewrite log_head_stored.
  replace (option_map eid (option_map stored (log_head log act))) with (option_map eid (log_head log act))
    by (destruct (log_head log act); done).
  rewrite (assemble_parents_again _ _ _ Ea). cbn [mbind]. rewrite merge_parents_stored, Em. cbn [mbind].
  unfold entry_new, new_with_scratch_recorded.
  replace (match option_map stored (log_head log act) with Some e => saturating_add (sequence (edata e)) 1 | None => 0 end)
    with (sequence data) by (unfold data; cbn; destruct (log_head log act); done).
  change (mkEntryData _ _ _ _ _ _ _) with (canon_entry data). rewrite Ec. done.
Qed.

Definition wf_entries (log : list JEntry) : Prop := Forall (fun e => entry_wf (edata e) = true) log.

Lemma log_reach_stored log : log_reach blake3 log -> wf_entries log -> log_reach blake3 (map stored log).
Proof.
  induction 1 as [|log k act obs pl e Hr IH He Hf]; intros Hw; [constructor|].
  apply List.Forall_app in Hw as [Hw Hwe]. inversion_clear Hwe as [|? ? Hwe' _]. rewrite map_app. cbn [map].
  eapply reach_snoc; [apply IH; done | eapply log_append_stored; done |]. rewrite log_get_stored. cbn. rewrite Hf. done.
Qed.

Lemma replay_app es : forall j e, replay blake3 j (es ++ [e]) = let? j := replay blake3 j es in replay_entry blake3 j e.
Proof.
  induction es as [|x es IH]; intros j e; cbn.
  - destruct (replay_entry blake3 j e); done.
  - destruct (replay_entry blake3 j x); [apply IH | done].
Qed.

(** The replay of a log's stored entries succeeds and gives the journal of these entries. *)
Lemma replay_stored log : log_reach blake3 log -> wf_entries log ->
  exists j, replay blake3 journal_new (map stored log) = Ok j /\ represents j (map stored log).
Proof.
  induction 1 as [|log k act obs pl e Hr IH He Hf]; intros Hw; [exists journal_new; split; [done | apply represents_new]|].
  apply List.Forall_app in Hw as [Hw Hwe]. inversion_clear Hwe as [|? ? Hwe' _].
  destruct (IH Hw) as (j & Ej & R). rewrite map_app. cbn [map]. rewrite replay_app, Ej. cbn [mbind]. unfold replay_entry.
  pose proof (append_refines blake3 true j (map stored log) (kind (edata (stored e))) (actor (edata (stored e)))
    (parents (edata (stored e))) (payload (edata (stored e))) R) as H.
  rewrite (log_append_stored log k act obs pl e He Hwe') in H. destruct H as (j' & -> & R'). cbn [mbind].
  assert (Hf' : log_get (map stored log) (eid (stored e)) = None) by (rewrite log_get_stored; cbn; rewrite Hf; done).
  specialize (R' Hf'). rewrite bool_decide_true by done. cbn [negb].
  rewrite (r_lookup _ _ R' (eid (stored e))), log_get_app, Hf'.
  unfold log_get. cbn [find]. rewrite bool_decide_true by done. cbn [ok_or mbind]. rewrite bool_decide_true by done.
  exists j'. done.
Qed.

(** A prefix of a reachable log is one. *)
Lemma log_reach_prefix log log' : log_reach blake3 log -> log' `prefix_of` log -> log_reach blake3 log'.
Proof.
  intros H. revert log'. induction H as [|log k act obs pl e Hr IH He Hf]; intros log' Hp.
  - apply prefix_nil_inv in Hp. subst. constructor.
  - destruct Hp as [t Ht]. destruct t as [|x t _] using rev_ind.
    + rewrite app_nil_r in Ht. subst log'. eapply reach_snoc; done.
    + rewrite app_assoc in Ht. apply app_inj_tail in Ht as [-> _]. apply IH. exists t. done.
Qed.
End Replay.

(** ** The store of stored entries *)

Section Stored.
Variable blake3 : list byte -> list byte.
Variable zstd_encode : list byte -> list byte.

Local Abbreviation storable := (storable blake3).

Lemma frames_stored es : Forall storable es -> frames (map body (map stored es)) = frames (map body es).
Proof. intros H. rewrite map_map. f_equal. apply map_ext_in. intros e He. rewrite List.Forall_forall in H. apply (stored_body blake3), H, He. Qed.

Lemma storable_stored es : Forall storable es -> Forall storable (map stored es).
Proof. intros H. apply List.Forall_map. eapply List.Forall_impl; [|exact H]. apply (stored_storable blake3). Qed.

Lemma loose_from_stored segs : Forall (Forall storable) segs -> forall i,
  loose_from blake3 zstd_encode i (map (map stored) segs) = loose_from blake3 zstd_encode i segs.
Proof.
  induction 1 as [|es segs He _ IH]; intros i; [done|]. cbn [map loose_from]. rewrite (writer_of_stored blake3) by done. rewrite IH. done.
Qed.

Lemma metas_from_stored segs : Forall (Forall storable) segs -> forall i metas,
  metas_from blake3 zstd_encode i segs metas -> metas_from blake3 zstd_encode i (map (map stored) segs) metas.
Proof.
  induction 1 as [|es segs He _ IH]; intros i [|m metas] H; try done. cbn [map metas_from] in *. destruct H as [H1 H2].
  split; [|apply IH; done]. unfold describes in *. rewrite (writer_of_stored blake3) by done. done.
Qed.

Lemma sealable_stored es : sealable blake3 zstd_encode es -> sealable blake3 zstd_encode (map stored es).
Proof. intros [H1 H2 H3 H4]. split; rewrite ?frames_stored, ?map_eid_stored by done; try done. apply storable_stored; done. Qed.

Lemma store_inv_stored d st segs open : store_inv blake3 zstd_encode d st segs open ->
  store_inv blake3 zstd_encode d st (map (map stored) segs) (map stored open).
Proof.
  intros [H1 H2 H3 H4 H5 H6 H7 H8 H9 [H10 H10'] H11 H12].
  assert (Hs : Forall (Forall storable) segs) by (eapply List.Forall_impl; [|exact H9]; intros es He; apply He).
  assert (Hids : map eid (concat (map (map stored) segs)) = map eid (concat segs)) by (rewrite <- concat_map, map_eid_stored; done).
  assert (Hlog : log_of (map stored open) = log_of open) by (unfold log_of; rewrite frames_stored; done).
  split; try done.
  - rewrite loose_from_stored; done.
  - apply metas_from_stored; done.
  - rewrite length_map. done.
  - rewrite (writer_of_stored blake3); done.
  - apply List.Forall_map. eapply List.Forall_impl; [|exact H9]. apply sealable_stored.
  - split; [apply storable_stored; done | rewrite frames_stored; done].
  - rewrite map_app, Hids, map_eid_stored, <- map_app. done.
  - destruct (wal_open st); [rewrite Hlog; done|]. destruct H12 as [-> H12]. split; [done|]. rewrite Hids. exact H12.
Qed.

Lemma live_stored d st es : live blake3 zstd_encode d st es -> live blake3 zstd_encode d st (map stored es).
Proof.
  intros (segs & open & -> & I & Hl). exists (map (map stored) segs), (map stored open). split_and!.
  - rewrite map_app, concat_map. done.
  - apply store_inv_stored, I.
  - unfold block_len in *. rewrite frames_stored; [done | apply (si_open _ _ _ _ _ _ I)].
Qed.

Lemma modest_stored e : modest blake3 e -> modest blake3 (stored e).
Proof. intros [H1 H2]. split; [apply stored_storable; done|]. rewrite (stored_body blake3); done. Qed.
End Stored.
