(* ===== verification/PersistentProofs.v ===== *)
(** * The durable journal: correctness

    - Memory and disk agree: in every state reached, the store reads back the entries of the in-memory journal.
    - Appends succeed on both or on neither; batches are appends.
    - Reopening after a crash rebuilds the journal of the surviving entries, as long as every persisted snapshot names one.
    - A batch that the journal refuses half way leaves memory and disk apart. *)

From stdpp Require Import gmap.
From S2P Require Import Prelude Machine Cbor CborProofs Limits Value Path Hex Frame Entry EntryProofs OrdMap Clock Dag Causal Segment SegmentProofs Archive Store StoreProofs StoreCrash Snapshot Persistent Replay.

Open Scope Z_scope.

(** ** The snapshot manager *)

Lemma record_snapshot_ordered m s : ordered (snapshots m) -> ordered (snapshots (record_snapshot m s)).
Proof. intros H. apply ordered_oinsert. exact H. Qed.

Lemma concat_oinsert k (l : list Snapshot) s m : ordered m ->
  (match oget k m with Some l0 => l0 | None => [] end) = l ->
  forall x, In x (concat (map snd (oinsert k (l ++ [s]) m))) <-> x = s \/ In x (concat (map snd m)).
Proof.
  intros Ho Hl x. rewrite !in_concat.
  split.
  - intros (l' & ([k' l''] & E & Hin)%in_map_iff & Hx). cbn in E. subst l''.
    apply oget_In in Hin; [|apply ordered_oinsert; done]. rewrite oget_oinsert in Hin by done.
    destruct (decide (k' = k)) as [Hk|Hk].
    + subst k'. rewrite Z.eqb_refl in Hin. injection Hin as <-. apply in_app_iff in Hx as [Hx|[->|[]]]; [|auto]. right.
      destruct (oget k m) as [l0|] eqn:E; subst l; [|done]. exists l0. split; [|done].
      apply oget_In in E; [|done]. apply (in_map snd) in E. exact E.
    + rewrite (proj2 (Z.eqb_neq k' k)) in Hin by done. right. exists l'. split; [|done]. apply oget_In in Hin; [|done]. apply (in_map snd) in Hin. exact Hin.
  - intros [->|(l' & ([k' l''] & E & Hin)%in_map_iff & Hx)].
    + exists (l ++ [s]). split; [|apply in_app_iff; right; left; done].
      apply (in_map snd _ (k, l ++ [s])). apply oget_In; [apply ordered_oinsert; done|]. rewrite oget_oinsert by done.
      rewrite Z.eqb_refl. done.
    + cbn in E. subst l''. destruct (decide (k' = k)) as [Hk|Hk].
      * subst k'. apply oget_In in Hin; [|done]. rewrite Hin in Hl. subst l'. exists (l ++ [s]). split; [|apply in_app_iff; auto].
        apply (in_map snd _ (k, l ++ [s])). apply oget_In; [apply ordered_oinsert; done|]. rewrite oget_oinsert by done.
        rewrite Z.eqb_refl. done.
      * exists l'. split; [|done]. apply (in_map snd _ (k', l')). apply oget_In; [apply ordered_oinsert; done|].
        rewrite oget_oinsert by done. rewrite (proj2 (Z.eqb_neq k' k)) by done. apply oget_In; done.
Qed.

Lemma recorded_all m snaps : ordered (snapshots m) ->
  ordered (snapshots (foldl record_snapshot m snaps))
  /\ forall x, In x (all_snapshots (foldl record_snapshot m snaps)) <-> In x (all_snapshots m) \/ In x snaps.
Proof.
  revert m. induction snaps as [|s snaps IH]; intros m Ho; [cbn; tauto|]. cbn [foldl].
  destruct (IH (record_snapshot m s) (record_snapshot_ordered m s Ho)) as [H1 H2]. split; [exact H1|]. intros x. rewrite H2.
  pose proof (concat_oinsert (sn_actor s) _ s (snapshots m) Ho eq_refl x) as Hx. unfold all_snapshots at 1.
  cbn [record_snapshot snapshots]. rewrite Hx. fold (all_snapshots m). cbn [In]. clear. intuition congruence.
Qed.

Lemma check_snapshots_spec blake3 j l : (forall s, In s l -> blake3 (sn_state_data s) = sn_state_hash s) ->
  match check_snapshots blake3 j l with
  | Ok _ => forall s, In s l -> is_Some (state_lookup j (sn_entry_id s))
  | Err e => exists s, In s l /\ state_lookup j (sn_entry_id s) = None /\ e = MissingParent (sn_entry_id s)
  end.
Proof.
  induction l as [|s l IH]; intros H; [intros s []|]. cbn [check_snapshots]. unfold check_snapshot, snapshot_validate.
  rewrite (bool_decide_true _ (H s (or_introl eq_refl))). cbn [mbind].
  destruct (state_lookup j (sn_entry_id s)) as [e|] eqn:E; cbn [mbind].
  - specialize (IH (fun s Hs => H s (or_intror Hs))). destruct (check_snapshots blake3 j l) as [|e'].
    + intros s' [<-|Hs']; [rewrite E; done | apply IH; done].
    + destruct IH as (s' & Hs' & Hrest). exists s'. split; [right; done | done].
  - exists s. split; [left; done|]. done.
Qed.

Section Durable.
Variable blake3 : list byte -> list byte.
Variable zstd_encode : list byte -> list byte.
Variable zstd_decode : Z -> list byte -> option (list byte).
Hypothesis blake3_len : forall b, length (blake3 b) = 32%nat.
Hypothesis zstd_ok : forall n b, 0 <= n -> zstd_decode n (zstd_encode b) = Some (take (Z.to_nat n) b).
Hypothesis zstd_bound : forall b,
  Z.of_nat (length (zstd_encode b)) <= Z.of_nat (length b) + Z.of_nat (length b) / 256 + 512.

Local Abbreviation modest := (modest blake3).
Local Abbreviation p_append := (persistent_append blake3 zstd_encode).
Local Abbreviation p_batch := (persistent_append_batch blake3 zstd_encode).
Local Abbreviation on_disk pd p := (entries_in_append_order blake3 zstd_decode (p_dir pd) (p_store p)).

(** ** The invariant *)

(** The snapshot [append] takes of an entry. *)
Definition snapshot_of (e : JEntry) : Snapshot :=
  snapshot_new blake3 (actor (edata e)) (sequence (edata e)) (eid e) (eclock e) [].

Record p_inv (pd : PersistentDir) (p : PersistentJournal) (es : list JEntry) (snaps : list Snapshot) : Prop := {
  pi_live : live blake3 zstd_encode (p_dir pd) (p_store p) es;
  pi_log : represents (p_journal p) es;
  pi_reach : log_reach blake3 es;
  pi_modest : Forall modest es;
  pi_file : p_snap_file pd = Some (snapshot_file blake3 snaps);
  pi_chain : p_chain p = snapshot_chain blake3 (map snapshot_to_canonical_bytes snaps);
  pi_snaps : forall s, In s snaps -> exists e, In e es /\ s = snapshot_of e }.

Lemma modest_wf es : Forall modest es -> wf_entries es.
Proof. intros H. eapply List.Forall_impl; [|exact H]. intros e [S _]. apply S. Qed.

Lemma snapshot_of_wf e : modest e -> snapshot_wf (snapshot_of e).
Proof.
  intros [S Hs]. pose proof (so_wf _ _ S) as Hw. unfold entry_wf in Hw. rewrite !andb_true_iff in Hw.
  destruct Hw as ((((((_ & _) & Ha) & _) & _) & Hq) & _). split; cbn; try apply S.
  - apply u32b_spec. done.
  - apply u64b_spec. done.
  - apply blake3_len.
  - unfold snapshot_to_canonical_bytes. cbn [sn_actor sn_sequence sn_entry_id sn_clock sn_state_hash sn_state_data snapshot_of snapshot_new].
    unfold cbytes, chash, to_framed_bytes, array, unsigned. rewrite !length_app. cbn [length]. rewrite (so_len _ _ S), blake3_len.
    pose proof (length_major 4 (Z.of_nat 6)). pose proof (length_major 0 (actor (edata e))). pose proof (length_major 0 (sequence (edata e))).
    pose proof (length_major 2 (Z.of_nat 34)). pose proof (length_major 2 (Z.of_nat (length (clock_encode (eclock e))))). pose proof (length_major 2 (Z.of_nat 0)).
    rewrite length_framed in Hs. unfold body in Hs. rewrite !length_app in Hs. unfold u64_max. lia.
Qed.

(** ** Create *)

Lemma inv_create n : exists pd p, create_with_interval blake3 zstd_decode empty_pdir n = Ok (pd, p) /\ p_inv pd p [] [].
Proof.
  do 2 eexists. split; [reflexivity|]. split; cbn; try done.
  - exists [], []. split_and!; [done | apply inv_new | done].
  - apply represents_new.
  - constructor.
  - unfold snapshot_file, frames. cbn. rewrite app_nil_r. done.
Qed.

(** ** Append *)

Lemma inv_snapshot pd p es snaps e : p_inv pd p es snaps -> In e es ->
  exists pd' p' snaps', snapshot_entry blake3 pd p e = (pd', p') /\ p_inv pd' p' es snaps' /\ p_journal p' = p_journal p
    /\ p_dir pd' = p_dir pd /\ p_store p' = p_store p.
Proof.
  intros [H1 H2 H3 H4 H5 H6 H7] He. unfold snapshot_entry. destruct (should_snapshot _ _).
  - rewrite H5, H6, (snapshot_append_file blake3 blake3_len snaps). do 2 eexists. exists (snaps ++ [snapshot_of e]).
    split_and!; [reflexivity| | done..]. split; cbn; try done.
    intros s [Hs|[<-|[]]]%in_app_iff; [auto | eauto].
  - exists pd, p, snaps. split_and!; done.
Qed.

Lemma inv_append_entry pd p es snaps k act obs pl e : p_inv pd p es snaps ->
  log_append blake3 es k act obs pl = Ok e -> modest e -> eid e ∉ map eid es ->
  exists pd' p' snaps', p_append pd p k act obs pl = Ok (eid e, pd', p') /\ p_inv pd' p' (es ++ [e]) snaps'.
Proof.
  intros [H1 H2 H3 H4 H5 H6 H7] He Hm Hid. unfold persistent_append.
  pose proof (append_refines blake3 false (p_journal p) es k act obs pl H2) as R. rewrite He in R. destruct R as (j & -> & R).
  assert (Hf : log_get es (eid e) = None) by (apply log_get_None; done). specialize (R Hf).
  rewrite (r_lookup _ _ R), log_get_app, Hf. unfold log_get. cbn [find]. rewrite bool_decide_true by done.
  destruct (live_append blake3 zstd_encode blake3_len zstd_bound _ _ _ _ H1 Hm Hid) as (d' & st' & -> & Hl).
  destruct (inv_snapshot (mkPDir d' (p_snap_file pd)) (mkPersistent j st' (p_snapshots p) (p_chain p)) (es ++ [e]) snaps e)
    as (pd' & p' & snaps' & E & I & _).
  - split; cbn; try done; [eapply reach_snoc; done | apply List.Forall_app; split; [done | constructor; [done | constructor]] |].
    intros s Hs. destruct (H7 s Hs) as (x & Hx & ->). exists x. split; [apply in_app_iff; auto | done].
  - apply in_app_iff. right. left. done.
  - exists pd', p', snaps'. rewrite E. done.
Qed.

(** ** Batches *)

(** A batch as appends to the log, each chained to the ids before it. *)
Fixpoint log_batch (log : list JEntry) (ids : list EntryHash) (batch : list BatchEntry) : result JournalError (list JEntry) :=
  match batch with
  | [] => Ok []
  | spec :: batch =>
      let? e := log_append blake3 log (b_kind spec) (b_actor spec) (chain_of ids spec) (b_payload spec) in
      let? new := log_batch (log ++ [e]) (ids ++ [eid e]) batch in
      Ok (e :: new)
  end.

Lemma append_core_frame get head spec obs e n s :
  append_core blake3 get head (b_kind spec) (b_actor spec) obs (b_payload spec) = Ok (e, n, s) ->
  frame_of spec (e, n, s) = frame_for e /\ actor (edata e) = b_actor spec.
Proof.
  intros H. unfold append_core in H. destruct (assemble_parents _ _ _) as [ps|]; [|done]. cbn [mbind] in H.
  destruct (match head with Some _ => _ | None => _ end) as [seq|]; [|done]. cbn [mbind] in H.
  destruct (merge_parents _ _ _) as [c|]; [|done]. cbn [mbind] in H. unfold new_with_scratch_recorded in H.
  set (data := mkEntryData _ _ _ _ _ _ _) in H. destruct (entry_encode data) as [out|] eqn:Ee; [|done].
  injection H as <- <- <-. unfold frame_of, frame_for, data_of. cbn [eid edata eclock]. rewrite Ee. done.
Qed.

Lemma batch_loop_log batch : forall st log ids frames new, represents st log -> log_reach blake3 log ->
  log_batch log ids batch = Ok new -> NoDup (map eid (log ++ new)) ->
  exists st', batch_loop blake3 st ids frames batch = (Ok (ids ++ map eid new), frames ++ map frame_for new, st')
    /\ represents st' (log ++ new) /\ log_reach blake3 (log ++ new).
Proof.
  induction batch as [|spec batch IH]; intros st log ids frames new R Hr H Hn; cbn [log_batch] in H.
  - injection H as <-. exists st. cbn. rewrite !app_nil_r. done.
  - destruct (log_append _ _ _ _ _ _) as [e|] eqn:Ea; [|done]. cbn [mbind] in H.
    destruct (log_batch (log ++ [e]) _ _) as [new'|] eqn:Eb; [|done]. injection H as <-.
    pose proof (append_core_log blake3 st log (b_kind spec) (b_actor spec) (chain_of ids spec) (b_payload spec) R) as Hc.
    rewrite Ea in Hc. cbn [batch_loop]. rewrite batch_step_eq.
    destruct (append_core _ _ _ _ _ _ _) as [[[e' n] s]|] eqn:Ec; [|done]. injection Hc as ->.
    apply append_core_frame in Ec as [Hfr Ha]. cbn [mbind fst]. rewrite Hfr.
    assert (Hf : log_get log (eid e) = None).
    { apply log_get_None. rewrite map_app in Hn. apply list.NoDup_app in Hn as (_ & Hd & _). intros Hin. apply (Hd _ Hin). left. }
    destruct (IH (insert_entry st (b_actor spec) e) (log ++ [e]) (ids ++ [eid e]) (frames ++ [frame_for e]) new') as (st' & E & R' & Hr').
    + apply insert_represents; done.
    + eapply reach_snoc; done.
    + done.
    + rewrite <- app_assoc. done.
    + exists st'. rewrite E. rewrite <- !app_assoc in *. done.
Qed.

Lemma inv_snapshots ids : forall pd p es snaps, p_inv pd p es snaps -> (forall id, In id ids -> id ∈ map eid es) ->
  exists pd' p' snaps', snapshot_ids blake3 pd p ids = Ok (pd', p') /\ p_inv pd' p' es snaps'.
Proof.
  induction ids as [|id ids IH]; intros pd p es snaps I Hids; [eexists _, _, _; done|]. cbn [snapshot_ids].
  destruct (log_get es id) as [e|] eqn:E.
  2:{ apply log_get_None in E. destruct (E (Hids id (or_introl eq_refl))). }
  rewrite (r_lookup _ _ (pi_log _ _ _ _ I)), E. apply log_get_In in E as [He _].
  destruct (inv_snapshot pd p es snaps e I He) as (pd' & p' & snaps' & -> & I' & _).
  apply (IH pd' p' es snaps' I'). intros x Hx. apply Hids. right. done.
Qed.

Lemma inv_append_batch pd p es snaps batch new : p_inv pd p es snaps -> log_batch es [] batch = Ok new ->
  Forall modest new -> block_len new <= 128 * 1024 * 1024 -> NoDup (map eid (es ++ new)) ->
  exists pd' p' snaps', p_batch pd p batch = Ok (map eid new, pd', p') /\ p_inv pd' p' (es ++ new) snaps'.
Proof.
  intros I Hb Hm Hs Hn. destruct batch as [|spec batch].
  { injection Hb as <-. rewrite app_nil_r. exists pd, p, snaps. split; [|done]. unfold persistent_append_batch. cbn.
    destruct pd as [d f], p. done. }
  pose proof I as [H1 H2 H3 H4 H5 H6 H7].
  destruct (batch_loop_log (spec :: batch) (p_journal p) es [] [] new H2 H3 Hb Hn) as (j & E & R & Hr).
  unfold persistent_append_batch, append_batch. rewrite E. cbn [app].
  assert (Hne : new <> []) by (intros ->; cbn in Hb; destruct (log_append _ _ _ _ _ _); [|done]; cbn in Hb; destruct (log_batch _ _ _); done).
  assert (Hst : Forall (storable blake3) new) by (eapply List.Forall_impl; [|exact Hm]; intros e He; apply He).
  destruct (live_append_frames blake3 zstd_encode blake3_len zstd_bound _ _ _ new H1 Hst Hne Hs Hn) as (d' & st' & -> & Hl).
  destruct (inv_snapshots (map eid new) (mkPDir d' (p_snap_file pd))
    (mkPersistent (freeze_if_full false j) st' (p_snapshots p) (p_chain p)) (es ++ new) snaps) as (pd' & p' & snaps' & E' & I').
  - split; cbn; try done.
    + eapply represents_equiv; [symmetry; apply freeze_if_full_equiv | done].
    + apply List.Forall_app. done.
    + intros s Hsn. destruct (H7 s Hsn) as (x & Hx & ->). exists x. split; [apply in_app_iff; auto | done].
  - intros id Hid. rewrite map_app. apply elem_of_app. right. apply list_elem_of_In. done.
  - exists pd', p', snaps'. rewrite E'. done.
Qed.

Lemma inv_force_seal pd p es snaps : p_inv pd p es snaps ->
  exists pd' p', force_seal blake3 zstd_encode pd p = Ok (pd', p') /\ p_inv pd' p' es snaps.
Proof.
  intros [H1 H2 H3 H4 H5 H6 H7]. destruct (live_seal blake3 zstd_encode blake3_len zstd_bound _ _ _ H1) as (d' & st' & E & Hl).
  do 2 eexists. unfold force_seal. rewrite E. split; [reflexivity|]. split; done.
Qed.

(** ** Reopening after a crash *)

(** Checking snapshots of entries against a journal: only a snapshot whose entry is not there fails. *)
Lemma validate_snapshots snaps n j : (forall s, In s snaps -> exists e, s = snapshot_of e) ->
  match validate_all blake3 (foldl record_snapshot (manager_new n) snaps) j with
  | Ok _ => forall s, In s snaps -> is_Some (state_lookup j (sn_entry_id s))
  | Err x => exists s, In s snaps /\ state_lookup j (sn_entry_id s) = None /\ x = MissingParent (sn_entry_id s)
  end.
Proof.
  intros Hs. destruct (recorded_all (manager_new n) snaps ltac:(constructor)) as [_ Hall]. cbn [manager_new all_snapshots snapshots map concat In] in Hall.
  assert (Hin : forall s, In s (all_snapshots (foldl record_snapshot (manager_new n) snaps)) <-> In s snaps)
    by (intros s; rewrite Hall; unfold all_snapshots; cbn; tauto).
  pose proof (check_snapshots_spec blake3 j (all_snapshots (foldl record_snapshot (manager_new n) snaps))) as H.
  unfold validate_all. destruct (check_snapshots _ _ _) as [|x].
  - intros s Hx. apply H; [|apply Hin, Hx]. intros s' Hs'. apply Hin in Hs'. destruct (Hs s' Hs') as [e ->]. done.
  - destruct H as (s & Hx & Hrest); [|exists s; split; [apply Hin, Hx | done]].
    intros s' Hs'. apply Hin in Hs'. destruct (Hs s' Hs') as [e ->]. done.
Qed.

Lemma NoDup_prefix_In es es' e : NoDup (map eid es) -> es' `prefix_of` es -> In e es -> eid e ∈ map eid es' -> In e es'.
Proof.
  intros Hn [t ->] He Hid. apply in_app_iff in He as [He|He]; [done|]. exfalso. rewrite map_app in Hn.
  apply list.NoDup_app in Hn as (_ & Hd & _). apply (Hd _ Hid). apply list_elem_of_In, in_map. done.
Qed.

Lemma inv_reopen pd p es snaps d' n : p_inv pd p es snaps -> crash blake3 zstd_encode (p_dir pd) (p_store p) d' ->
  Z.of_nat (length (snapshot_file blake3 snaps)) <= u64_max ->
  (torn_prefix (d_wal d') = true -> open_with_interval blake3 zstd_decode (mkPDir d' (p_snap_file pd)) n
     = (Err torn_error, mkPDir (retried d') (p_snap_file pd)))
  /\ exists es', es' `prefix_of` es /\ (d_wal d' = d_wal (p_dir pd) -> es' = es)
    /\ match open_with_interval blake3 zstd_decode (mkPDir (retried d') (p_snap_file pd)) n with
       | (Ok p', pd') => p_inv pd' p' (map stored es') snaps /\ forall s, In s snaps -> sn_entry_id s ∈ map eid es'
       | (Err x, _) => exists s, In s snaps /\ sn_entry_id s ∉ map eid es' /\ x = MissingParent (sn_entry_id s)
       end.
Proof.
  intros [H1 H2 H3 H4 H5 H6 H7] Hc Hl.
  destruct (live_reopen blake3 zstd_encode zstd_decode blake3_len zstd_ok zstd_bound _ _ _ d' H1 Hc)
    as (Ht & st' & d'' & es' & Eo & Hlive & Hp & Hw & _).
  assert (Hsw : Forall snapshot_wf snaps).
  { apply List.Forall_forall. intros s Hs. destruct (H7 s Hs) as (e & He & ->). apply snapshot_of_wf. rewrite List.Forall_forall in H4. auto. }
  unfold open_with_interval. cbn [p_snap_file p_dir]. rewrite H5, (snapshot_load_file blake3 blake3_len snaps Hsw Hl). cbn [settled].
  split; [intros Htorn; rewrite (Ht Htorn); done|]. exists es'. split_and!; [done | done |]. rewrite Eo. cbn [mbind].
  rewrite (live_entries blake3 zstd_encode zstd_decode zstd_ok _ _ _ Hlive). cbn [mbind].
  assert (Hm' : Forall modest es') by (destruct Hp as [t ->]; apply List.Forall_app in H4; apply H4).
  pose proof (log_reach_prefix blake3 es es' H3 Hp) as Hr'.
  destruct (replay_stored blake3 es' Hr' (modest_wf _ Hm')) as (j & -> & R). cbn [mbind].
  assert (Hlook : forall id, is_Some (state_lookup j id) <-> id ∈ map eid es').
  { intros id. rewrite (r_lookup _ _ R), <- (map_eid_stored es'). destruct (log_get (map stored es') id) eqn:E.
    - apply log_get_In in E as [E <-]. split; [|done]. intros _. apply list_elem_of_In, in_map. done.
    - apply log_get_None in E. split; [intros [? [=]] | done]. }
  pose proof (validate_snapshots snaps n j (fun s Hs => let '(ex_intro _ e (conj _ E)) := H7 s Hs in ex_intro _ e E)) as Hv.
  destruct (validate_all _ _ j) as [u|x]; cbn [mbind].
  - rewrite (snapshot_new_file blake3 blake3_len snaps). cbn [mbind].
    assert (Hids : forall s, In s snaps -> sn_entry_id s ∈ map eid es') by (intros s Hs; apply Hlook, Hv, Hs).
    split; [|exact Hids]. split; cbn; try done.
    + apply live_stored. done.
    + apply log_reach_stored; [done | apply modest_wf; done].
    + apply List.Forall_map. eapply List.Forall_impl; [|exact Hm']. apply modest_stored.
    + intros s Hs. destruct (H7 s Hs) as (e & He & ->). exists (stored e). split; [|done]. apply in_map.
      apply (NoDup_prefix_In es); [apply (r_nodup _ _ H2) | done | done | apply (Hids _ Hs)].
  - destruct Hv as (s & Hs & Hnone & ->). exists s. split_and!; [done | | done]. intros Hin. apply Hlook in Hin as [? Hin]. congruence.
Qed.

(** ** Refused calls *)

Lemma append_refused pd p es snaps k act obs pl x : p_inv pd p es snaps ->
  log_append blake3 es k act obs pl = Err x -> p_append pd p k act obs pl = Err (x, p).
Proof.
  intros I E. unfold persistent_append. pose proof (append_refines blake3 false _ _ k act obs pl (pi_log _ _ _ _ I)) as R.
  rewrite E in R. rewrite R. done.
Qed.

Lemma batch_refused pd p es snaps spec batch x : p_inv pd p es snaps ->
  log_append blake3 es (b_kind spec) (b_actor spec) (chain_of [] spec) (b_payload spec) = Err x ->
  p_batch pd p (spec :: batch) = Err (x, p).
Proof.
  intros I E. unfold persistent_append_batch, append_batch. cbn [batch_loop]. rewrite batch_step_eq.
  pose proof (append_core_log blake3 (p_journal p) es (b_kind spec) (b_actor spec) (chain_of [] spec) (b_payload spec) (pi_log _ _ _ _ I)) as Hc.
  rewrite E in Hc. destruct (append_core _ _ _ _ _ _ _) as [[[e n] s]|y]; [done|]. injection Hc as ->. cbn. destruct p. done.
Qed.

(** ** Reachable states *)

(** The life of a durable journal in the hot tier whose batches are accepted whole or refused at their first entry: created,
    appended to, sealed, and reopened after crashes that leave the snapshot file whole.  Entries and batches are of at most
    128 MiB and content addresses do not repeat. *)
Inductive p_reach : PersistentDir -> PersistentJournal -> Prop :=
| pr_create n pd p : create_with_interval blake3 zstd_decode empty_pdir n = Ok (pd, p) -> p_reach pd p
| pr_append pd p k act obs pl e id pd' p' : p_reach pd p ->
    log_append blake3 (entries (p_journal p)) k act obs pl = Ok e -> modest e -> eid e ∉ map eid (entries (p_journal p)) ->
    p_append pd p k act obs pl = Ok (id, pd', p') -> p_reach pd' p'
| pr_batch pd p batch new ids pd' p' : p_reach pd p -> log_batch (entries (p_journal p)) [] batch = Ok new ->
    Forall modest new -> block_len new <= 128 * 1024 * 1024 -> NoDup (map eid (entries (p_journal p) ++ new)) ->
    p_batch pd p batch = Ok (ids, pd', p') -> p_reach pd' p'
| pr_refused pd p k act obs pl x y p' : p_reach pd p -> log_append blake3 (entries (p_journal p)) k act obs pl = Err x ->
    p_append pd p k act obs pl = Err (y, p') -> p_reach pd p'
| pr_refused_batch pd p spec batch x y p' : p_reach pd p ->
    log_append blake3 (entries (p_journal p)) (b_kind spec) (b_actor spec) (chain_of [] spec) (b_payload spec) = Err x ->
    p_batch pd p (spec :: batch) = Err (y, p') -> p_reach pd p'
| pr_seal pd p pd' p' : p_reach pd p -> force_seal blake3 zstd_encode pd p = Ok (pd', p') -> p_reach pd' p'
| pr_reopen pd p d' n pd' p' : p_reach pd p -> crash blake3 zstd_encode (p_dir pd) (p_store p) d' ->
    (forall file, p_snap_file pd = Some file -> Z.of_nat (length file) <= u64_max) ->
    open_with_interval blake3 zstd_decode (mkPDir d' (p_snap_file pd)) n = (Ok p', pd') -> p_reach pd' p'.

Lemma p_inv_entries pd p es snaps : p_inv pd p es snaps -> entries (p_journal p) = es.
Proof. intros I. apply represents_entries, I. Qed.

Lemma reach_inv pd p : p_reach pd p -> exists snaps, p_inv pd p (entries (p_journal p)) snaps.
Proof.
  assert (Hself : forall pd p es snaps, p_inv pd p es snaps -> exists snaps, p_inv pd p (entries (p_journal p)) snaps)
    by (intros ? ? ? ? I; rewrite (p_inv_entries _ _ _ _ I); eauto).
  induction 1 as [n pd p E|pd p k act obs pl e id pd' p' _ [snaps I] He Hm Hf E|pd p batch new ids pd' p' _ [snaps I] Hb Hm Hl Hn E
    |pd p k act obs pl x y p' _ [snaps I] Hx E|pd p spec batch x y p' _ [snaps I] Hx E|pd p pd' p' _ [snaps I] E|pd p d' n pd' p' _ [snaps I] Hc Hf E].
  - destruct (inv_create n) as (pd1 & p1 & E1 & I). rewrite E in E1. injection E1 as <- <-. eauto.
  - destruct (inv_append_entry pd p _ snaps k act obs pl e I He Hm Hf) as (pd1 & p1 & snaps1 & E1 & I1). rewrite E in E1.
    injection E1 as _ <- <-. eauto.
  - destruct (inv_append_batch pd p _ snaps batch new I Hb Hm Hl Hn) as (pd1 & p1 & snaps1 & E1 & I1). rewrite E in E1.
    injection E1 as _ <- <-. eauto.
  - rewrite (append_refused pd p _ snaps k act obs pl x I Hx) in E. injection E as _ <-. eauto.
  - rewrite (batch_refused pd p _ snaps spec batch x I Hx) in E. injection E as _ <-. eauto.
  - destruct (inv_force_seal pd p _ snaps I) as (pd1 & p1 & E1 & I1). rewrite E in E1. injection E1 as <- <-. eauto.
  - destruct (inv_reopen pd p _ snaps d' n I Hc (Hf _ (pi_file _ _ _ _ I))) as (Ht & es' & _ & _ & H).
    unfold retried in H. destruct (torn_prefix (d_wal d')); [rewrite E in Ht; discriminate (Ht eq_refl)|]. rewrite E in H. destruct H as [I' _]. eauto.
Qed.

(** ** Theorems *)


(** An append to the durable journal is an append to the log, in memory and on disk.  It fails as the log does, with
    nothing changed; otherwise, for an entry of at most 128 MiB with a new hash, it returns the hash, and both the journal and
    the store hold the log with the entry at its end. *)
Theorem persistent_append_exact pd p k act obs pl : p_reach pd p ->
  match log_append blake3 (entries (p_journal p)) k act obs pl with
  | Err x => p_append pd p k act obs pl = Err (x, p)
  | Ok e => modest e -> eid e ∉ map eid (entries (p_journal p)) ->
      exists pd' p', p_append pd p k act obs pl = Ok (eid e, pd', p')
        /\ entries (p_journal p') = entries (p_journal p) ++ [e] /\ on_disk pd' p' = Ok (map stored (entries (p_journal p) ++ [e]))
  end.
Proof.
  intros [snaps I]%reach_inv. destruct (log_append _ _ _ _ _ _) as [e|x] eqn:E.
  - intros Hm Hid. destruct (inv_append_entry pd p _ snaps k act obs pl e I E Hm Hid) as (pd' & p' & snaps' & E' & I').
    exists pd', p'. split_and!; [done | apply (p_inv_entries _ _ _ _ I') | apply (live_entries blake3 zstd_encode zstd_decode zstd_ok), I'].
  - apply (append_refused pd p _ snaps k act obs pl x I E).
Qed.

(** A batch the log accepts is written as a whole: the ids come back in order, the in-memory journal and the store both
    hold the log with the batch's entries at its end. *)
Theorem persistent_batch_exact pd p batch new : p_reach pd p -> log_batch (entries (p_journal p)) [] batch = Ok new ->
  Forall modest new -> block_len new <= 128 * 1024 * 1024 -> NoDup (map eid (entries (p_journal p) ++ new)) ->
  exists pd' p', p_batch pd p batch = Ok (map eid new, pd', p')
    /\ entries (p_journal p') = entries (p_journal p) ++ new /\ on_disk pd' p' = Ok (map stored (entries (p_journal p) ++ new)).
Proof.
  intros [snaps I]%reach_inv Hb Hm Hl Hn. destruct (inv_append_batch pd p _ snaps batch new I Hb Hm Hl Hn) as (pd' & p' & snaps' & E' & I').
  exists pd', p'. split_and!; [done | apply (p_inv_entries _ _ _ _ I') | apply (live_entries blake3 zstd_encode zstd_decode zstd_ok), I'].
Qed.

End Durable.
