(* ===== verification/PersistentFork.v ===== *)
(** * The durable journal: forks and samples

    - A fork into an empty directory holds the parent's entries, in memory and on disk.
    - A concrete durable journal, on which the theorems are used.
    - A refused batch leaves memory ahead of the disk, and the next append makes the directory unopenable. *)

From stdpp Require Import gmap.
From S2P Require Import Prelude Machine Cbor CborProofs Limits Value Path Hex Frame Entry EntryProofs OrdMap Clock Dag Causal Segment SegmentProofs Archive Store StoreProofs StoreCrash Snapshot Persistent Replay PersistentProofs.

Open Scope Z_scope.

Section Fork.
Variable blake3 : list byte -> list byte.
Variable zstd_encode : list byte -> list byte.
Variable zstd_decode : Z -> list byte -> option (list byte).
Hypothesis blake3_len : forall b, length (blake3 b) = 32%nat.
Hypothesis zstd_ok : forall n b, 0 <= n -> zstd_decode n (zstd_encode b) = Some (take (Z.to_nat n) b).
Hypothesis zstd_bound : forall b,
  Z.of_nat (length (zstd_encode b)) <= Z.of_nat (length b) + Z.of_nat (length b) / 256 + 512.

Lemma fork_segments_ok d st segs : archived st = [] -> forall i metas loose, metas_from blake3 zstd_encode i segs metas ->
  holds blake3 zstd_encode d i segs -> Forall (fun e => e.1 < i) loose ->
  fork_segments d st metas loose = Ok (loose ++ loose_from blake3 zstd_encode i segs).
Proof.
  intros Ha. induction segs as [|es segs IH]; intros i [|m metas] loose Hm Hh Hl; try done.
  - cbn. rewrite app_nil_r. done.
  - destruct Hm as [Hm1 Hm2]. apply holds_cons in Hh as [Hh1 Hh2]. cbn [fork_segments loose_from].
    unfold segment_bytes. rewrite Ha, (describes_id _ _ _ _ _ Hm1), Hh1. cbn [find ok_or mbind].
    rewrite (oinsert_last _ _ _ Hl), (IH (i + 1)), <- app_assoc; [done | done | done |].
    apply List.Forall_app. split; [|constructor; [cbn; lia | constructor]]. eapply List.Forall_impl; [|exact Hl]. cbn. lia.
Qed.

Lemma sealed_count_ok segs : forall i metas, metas_from blake3 zstd_encode i segs metas ->
  foldr (fun s n => entry_count s + n) 0 metas = Z.of_nat (length (concat segs)).
Proof.
  induction segs as [|es segs IH]; intros i [|m metas] Hm; try done. destruct Hm as [Hm1 Hm2]. cbn [foldr concat].
  rewrite (IH _ _ Hm2), length_app. apply (f_equal entry_count) in Hm1. cbn in Hm1. rewrite Hm1, length_index_from. lia.
Qed.

Lemma store_append_all_live es new : forall d st, live blake3 zstd_encode d st es -> Forall (modest blake3) new ->
  NoDup (map eid (es ++ new)) ->
  exists d' st', store_append_all blake3 zstd_encode d st new = Ok (d', st') /\ live blake3 zstd_encode d' st' (es ++ new).
Proof.
  revert es. induction new as [|e new IH]; intros es d st Hl Hm Hn; [exists d, st; rewrite app_nil_r; done|].
  inversion_clear Hm as [|? ? He Hm']. cbn [store_append_all].
  destruct (live_append blake3 zstd_encode blake3_len zstd_bound d st es e Hl He) as (d1 & st1 & -> & Hl1).
  { rewrite map_app in Hn. apply list.NoDup_app in Hn as (_ & Hd & _). intros Hin. apply (Hd _ Hin). left. }
  cbn [mbind]. destruct (IH (es ++ [e]) d1 st1 Hl1 Hm') as (d' & st' & E & Hl'); [rewrite <- app_assoc; done|].
  exists d', st'. rewrite <- app_assoc in Hl'. done.
Qed.

Lemma sealed_entries_manifest d m st : forall segments,
  sealed_entries blake3 zstd_decode (set_manifest d m) st segments = sealed_entries blake3 zstd_decode d st segments.
Proof. induction segments as [|s segments IH]; [done|]. cbn [sealed_entries]. rewrite IH. done. Qed.

Lemma entries_manifest d st : entries_in_append_order blake3 zstd_decode (write_manifest d st) st
  = entries_in_append_order blake3 zstd_decode d st.
Proof. unfold entries_in_append_order, write_manifest. rewrite sealed_entries_manifest. done. Qed.

(** Forking into an empty directory gives a durable journal with the parent's entries, in memory and on disk: the sealed
    segments are taken over as files and the entries that were not sealed are appended again. *)
Theorem fork_is_faithful pd p : p_reach blake3 zstd_encode zstd_decode pd p ->
  exists pd' p', persistent_fork blake3 zstd_encode zstd_decode pd p empty_pdir = Ok (pd', p')
    /\ entries (p_journal p') = entries (p_journal p)
    /\ entries_in_append_order blake3 zstd_decode (p_dir pd') (p_store p') = Ok (map stored (entries (p_journal p))).
Proof.
  intros [snaps I]%(reach_inv blake3 zstd_encode zstd_decode blake3_len zstd_ok zstd_bound).
  pose proof (pi_live _ _ _ _ _ _ I) as (segs & open & Es & SI & Hl). unfold persistent_fork.
  rewrite (fork_segments_ok _ _ segs (si_archived _ _ _ _ _ _ SI) 0); [| apply SI | apply holds_loose_from, SI | constructor].
  pose proof (si_ids _ _ _ _ _ _ SI) as Hids. pose proof Hids as Hn. rewrite map_app in Hn. apply list.NoDup_app in Hn as (Hn & _ & _).
  destruct (open_no_log blake3 zstd_encode zstd_decode zstd_ok (set_loose empty_dir (loose_from blake3 zstd_encode 0 segs)) segs)
    as (st0 & E0 & I0); try done; [apply SI | left; done |].
  cbn [mbind p_dir empty_pdir d_loose empty_dir app]. rewrite E0. cbn [mbind].
  unfold sealed_count. rewrite (sealed_count_ok segs 0) by apply SI. rewrite Nat2Z.id, Es, drop_app_prefix.
  pose proof (pi_modest _ _ _ _ _ _ I) as Hm. rewrite Es in Hm. apply List.Forall_app in Hm as [_ Hm].
  assert (L0 : live blake3 zstd_encode (set_loose empty_dir (loose_from blake3 zstd_encode 0 segs)) st0 (concat segs))
    by (exists segs, []; rewrite app_nil_r; done).
  destruct (store_append_all_live (concat segs) open _ _ L0 Hm Hids) as (d' & st' & -> & L'). cbn [mbind].
  do 2 eexists. split; [reflexivity|]. cbn [p_journal p_dir p_store]. split; [exact Es|]. rewrite entries_manifest.
  apply (live_entries blake3 zstd_encode zstd_decode zstd_ok). done.
Qed.
End Fork.

(** ** A concrete durable journal *)

Local Abbreviation p_reached := (p_reach roll_digest plain_encode plain_decode).

Definition opened (r : result JournalError (PersistentDir * PersistentJournal)) : PersistentDir * PersistentJournal :=
  match r with Ok p => p | Err _ => (empty_pdir, mkPersistent journal_new store_empty (manager_new 1) []) end.
Definition appended (r : result (JournalError * PersistentJournal) (EntryHash * PersistentDir * PersistentJournal)) :
    PersistentDir * PersistentJournal :=
  match r with Ok (_, pd, p) => (pd, p) | Err (_, p) => (empty_pdir, p) end.

Definition durable0 : PersistentDir * PersistentJournal := opened (create_with_interval roll_digest plain_decode empty_pdir 1).
Definition durable1 : PersistentDir * PersistentJournal :=
  appended (persistent_append roll_digest plain_encode durable0.1 durable0.2 KEpoch 1 [] (PEpoch 5)).

Lemma durable0_reached : p_reached durable0.1 durable0.2.
Proof. apply (pr_create _ _ _ 1). vm_compute. reflexivity. Qed.

Lemma durable0_entries : entries (p_journal durable0.2) = [].
Proof. vm_compute. reflexivity. Qed.

Lemma durable1_reached : p_reached durable1.1 durable1.2.
Proof.
  eapply (pr_append _ _ _ durable0.1 durable0.2 KEpoch 1 [] (PEpoch 5) first_entry (eid first_entry)); rewrite ?durable0_entries.
  - exact durable0_reached.
  - exact first_appended.
  - exact first_modest.
  - apply not_elem_of_nil.
  - vm_compute. reflexivity.
Qed.

Lemma durable1_entries : entries (p_journal durable1.2) = [first_entry].
Proof. vm_compute. reflexivity. Qed.

Lemma durable1_cut : cut_log (d_wal (p_dir durable1.1)) (d_wal (p_dir durable1.1)).
Proof. destruct (d_wal (p_dir durable1.1)) as [w|]; [apply (reflexivity (R := prefix)) | exact Logic.I]. Qed.


Lemma persistent_append_exact_witness : exists pd' p',
  persistent_append roll_digest plain_encode durable1.1 durable1.2 KClockRead 2 [eid first_entry] (PClockRead 9) = Ok (eid second_entry, pd', p')
  /\ entries (p_journal p') = [first_entry; second_entry].
Proof.
  pose proof (persistent_append_exact roll_digest plain_encode plain_decode roll_len plain_ok plain_bound durable1.1 durable1.2
    KClockRead 2 [eid first_entry] (PClockRead 9) durable1_reached) as H.
  rewrite durable1_entries, second_appended in H. destruct H as (pd' & p' & E & H & _).
  - exact second_modest.
  - cbn [map]. intros Hin. apply list_elem_of_singleton in Hin. vm_compute in Hin. discriminate Hin.
  - exists pd', p'. split; [exact E | exact H].
Defined.

Definition second_spec : BatchEntry := mkBatchEntry KClockRead 2 [eid first_entry] false (PClockRead 9).

Lemma persistent_batch_exact_witness : exists pd' p',
  persistent_append_batch roll_digest plain_encode durable1.1 durable1.2 [second_spec] = Ok ([eid second_entry], pd', p')
  /\ entries (p_journal p') = [first_entry; second_entry].
Proof.
  destruct (persistent_batch_exact roll_digest plain_encode plain_decode roll_len plain_ok plain_bound durable1.1 durable1.2
    [second_spec] [second_entry] durable1_reached) as (pd' & p' & E & H & _); rewrite ?durable1_entries in *.
  - vm_compute. reflexivity.
  - constructor; [exact second_modest | constructor].
  - vm_compute. discriminate.
  - apply (bool_decide_unpack _). vm_compute. exact Logic.I.
  - exists pd', p'. split; [exact E | exact H].
Defined.


Lemma fork_is_faithful_witness : exists pd' p',
  persistent_fork roll_digest plain_encode plain_decode durable1.1 durable1.2 empty_pdir = Ok (pd', p')
  /\ entries (p_journal p') = [first_entry].
Proof.
  destruct (fork_is_faithful roll_digest plain_encode plain_decode roll_len plain_ok plain_bound _ _ durable1_reached)
    as (pd' & p' & E & H & _).
  exists pd', p'. split; [exact E|]. rewrite H. exact durable1_entries.
Defined.

(** ** A refused batch *)

(** A batch whose second entry observes an entry that does not exist. *)
Definition half_bad : list BatchEntry :=
  [mkBatchEntry KEpoch 1 [] false (PEpoch 5); mkBatchEntry KEpoch 2 [[x01]] false (PEpoch 6)].

(** What the refused batch leaves, and an append of the same actor after it. *)
Definition after_refusal : PersistentJournal :=
  match persistent_append_batch roll_digest plain_encode durable0.1 durable0.2 half_bad with Ok (_, _, p) => p | Err (_, p) => p end.
Definition after_append : PersistentDir * PersistentJournal :=
  appended (persistent_append roll_digest plain_encode durable0.1 after_refusal KClockRead 1 [] (PClockRead 9)).

(** A batch the journal refuses half way is not rolled back in memory.  The entries before the refused one stay in the
    in-memory journal while the store has none of them; the next append is accepted by both, its parent being in memory
    only, and the directory can then no longer be opened. *)
Theorem refused_batch_diverges :
  persistent_append_batch roll_digest plain_encode durable0.1 durable0.2 half_bad = Err (MissingParent [x01], after_refusal)
  /\ map eid (entries (p_journal after_refusal)) = [eid first_entry]
  /\ entries_in_append_order roll_digest plain_decode (p_dir durable0.1) (p_store after_refusal) = Ok []
  /\ (exists id, persistent_append roll_digest plain_encode durable0.1 after_refusal KClockRead 1 [] (PClockRead 9)
       = Ok (id, after_append.1, after_append.2))
  /\ (open_with_interval roll_digest plain_decode after_append.1 1).1 = Err (MissingParent (eid first_entry)).
Proof. split_and!; try (vm_compute; reflexivity). eexists. vm_compute. reflexivity. Qed.
