(* ===== verification/KeyMap.v ===== *)
(** * Maps and sets of byte strings

    [BTreeMap<String, V>] and [BTreeSet<EntryHash>]: association lists kept in bytewise order, the
    order of iteration.  The lookup laws hold of any list, so no order is assumed. *)

From Stdlib Require Import Sorting.Sorted.
From S2P Require Import Prelude Machine Cbor CborProofs.

Open Scope Z_scope.

Section KeyMap.
Context {V : Type}.
Implicit Types (m : list (list byte * V)) (k : list byte) (v : V).

Fixpoint kget k m : option V :=
  match m with
  | [] => None
  | (k', v) :: m => if bool_decide (k = k') then Some v else kget k m
  end.

Fixpoint kinsert k v m : list (list byte * V) :=
  match m with
  | [] => [(k, v)]
  | (k', v') :: m' =>
      match lex_compare k k' with
      | Lt => (k, v) :: m
      | Eq => (k, v) :: m'
      | Gt => (k', v') :: kinsert k v m'
      end
  end.

Definition kdelete k m : list (list byte * V) := List.filter (fun e => negb (bool_decide (e.1 = k))) m.

Lemma kget_kinsert k k' v m : kget k (kinsert k' v m) = if bool_decide (k = k') then Some v else kget k m.
Proof.
  induction m as [|[k1 v1] m IH]; cbn; [done|]. destruct (lex_compare k' k1) eqn:E; cbn.
  - apply lex_compare_eq in E as ->. repeat case_bool_decide; congruence.
  - done.
  - rewrite IH. repeat case_bool_decide; try congruence. subst.
    assert (lex_compare k1 k1 = Eq) by (apply lex_compare_eq; done). congruence.
Qed.

Lemma kget_kdelete k k' m : kget k (kdelete k' m) = if bool_decide (k = k') then None else kget k m.
Proof.
  unfold kdelete. induction m as [|[k1 v1] m IH]; cbn; [case_bool_decide; done|].
  destruct (decide (k1 = k')) as [E1|E1]; [rewrite bool_decide_true by done | rewrite bool_decide_false by done]; cbn; rewrite IH; repeat case_bool_decide; congruence.
Qed.

Lemma kget_In k v m : kget k m = Some v -> In (k, v) m.
Proof. induction m as [|[k1 v1] m IH]; cbn; [done|]. case_bool_decide; [intros [= ->]; subst; tauto | tauto]. Qed.

Lemma kinsert_keys k v m x : In x (map fst (kinsert k v m)) <-> x = k \/ In x (map fst m).
Proof.
  induction m as [|[k1 v1] m IH]; cbn; [naive_solver|].
  destruct (lex_compare k k1) eqn:E; cbn; [|naive_solver|rewrite IH; naive_solver].
  apply lex_compare_eq in E as ->. naive_solver.
Qed.

(** Updating one key, and every key. *)
Definition kmodify (f : V -> V) k m : list (list byte * V) :=
  map (fun e => if bool_decide (e.1 = k) then (e.1, f e.2) else e) m.

Lemma kget_kmodify f k k' m : kget k (kmodify f k' m) = if bool_decide (k = k') then option_map f (kget k m) else kget k m.
Proof.
  unfold kmodify. induction m as [|[k1 v1] m IH]; cbn; [case_bool_decide; done|].
  destruct (decide (k1 = k')) as [->|E1]; [rewrite (bool_decide_true (k' = k')) by done | rewrite (bool_decide_false (k1 = k')) by done];
    cbn [kget]; rewrite IH; repeat case_bool_decide; first [done | congruence].
Qed.
End KeyMap.

Definition kmap {V W} (f : V -> W) (m : list (list byte * V)) : list (list byte * W) := map (fun e => (e.1, f e.2)) m.

Lemma kget_kmap {V W} (f : V -> W) k m : kget k (kmap f m) = option_map f (kget k m).
Proof. induction m as [|[k1 v1] m IH]; cbn; [done|]. case_bool_decide; done. Qed.

(** Keep the keys whose value [f] keeps, with the value it gives. *)
Definition komap {V W} (f : V -> option W) (m : list (list byte * V)) : list (list byte * W) :=
  omap (fun e => (fun w => (e.1, w)) <$> f e.2) m.

(** Sets. *)
Definition kset_insert (k : list byte) (s : list (list byte * unit)) : list (list byte * unit) := kinsert k tt s.
Definition kset_elems (s : list (list byte * unit)) : list (list byte) := map fst s.

Lemma kset_insert_elems k s x : In x (kset_elems (kset_insert k s)) <-> x = k \/ In x (kset_elems s).
Proof. apply kinsert_keys. Qed.

(** ** Order *)

Definition ksorted {V} (m : list (list byte * V)) : Prop := StronglySorted (fun a b => lex_compare a.1 b.1 = Lt) m.

Lemma ksorted_cons {V} (e : list byte * V) m : ksorted (e :: m) <-> ksorted m /\ Forall (fun x => lex_compare e.1 x.1 = Lt) m.
Proof. split; [intros H; inversion_clear H; done | intros [H1 H2]; constructor; done]. Qed.

Lemma lex_compare_refl a : lex_compare a a = Eq.
Proof. apply lex_compare_eq. done. Qed.

Lemma ksorted_kinsert {V} k (v : V) m : ksorted m -> ksorted (kinsert k v m).
Proof.
  induction m as [|[k1 v1] m IH]; intros Hs; cbn; [repeat constructor|]. apply ksorted_cons in Hs as [Hs Ha].
  destruct (lex_compare k k1) eqn:E; apply ksorted_cons; cbn [fst].
  - apply lex_compare_eq in E as ->. done.
  - split; [apply ksorted_cons; done|]. constructor; [done|]. eapply List.Forall_impl; [|exact Ha]. intros e He. cbn in He.
    exact (lex_compare_trans _ _ _ E He).
  - split; [apply IH; done|]. apply List.Forall_forall. intros e He. rewrite List.Forall_forall in Ha.
    apply (in_map fst), kinsert_keys in He as [Ek|Hin].
    + rewrite Ek. rewrite lex_compare_antisym, E. done.
    + apply in_map_iff in Hin as (e' & <- & He'). apply Ha, He'.
Qed.

Lemma ksorted_kdelete {V} k (m : list (list byte * V)) : ksorted m -> ksorted (kdelete k m).
Proof.
  unfold kdelete. induction m as [|e m IH]; intros Hs; [done|]. apply ksorted_cons in Hs as [Hs Ha]. cbn.
  destruct (negb _); [|apply IH; done]. apply ksorted_cons. split; [apply IH; done|].
  rewrite List.Forall_forall in *. intros x [Hx _]%List.filter_In. apply Ha, Hx.
Qed.

Lemma ksorted_map {V W} (g : list byte * V -> list byte * W) m : (forall e, (g e).1 = e.1) -> ksorted m -> ksorted (map g m).
Proof.
  intros Hg. induction m as [|e m IH]; intros Hs; [constructor|]. apply ksorted_cons in Hs as [Hs Ha]. cbn. apply ksorted_cons.
  split; [apply IH; done|]. apply List.Forall_map. eapply List.Forall_impl; [|exact Ha]. intros x Hx. rewrite !Hg. exact Hx.
Qed.

Lemma ksorted_kmodify {V} (f : V -> V) k m : ksorted m -> ksorted (kmodify f k m).
Proof. apply ksorted_map. intros e. case_bool_decide; done. Qed.

Lemma ksorted_kmap {V W} (f : V -> W) m : ksorted m -> ksorted (kmap f m).
Proof. apply ksorted_map. done. Qed.

Lemma kget_lt {V} k (m : list (list byte * V)) : Forall (fun x => lex_compare k x.1 = Lt) m -> kget k m = None.
Proof.
  induction 1 as [|[k1 v1] m H1 _ IH]; [done|]. cbn in *. case_bool_decide as E; [|done]. subst. rewrite lex_compare_refl in H1. done.
Qed.

Lemma komap_above {V W} (f : V -> option W) k m : Forall (fun x => lex_compare k x.1 = Lt) m ->
  Forall (fun x => lex_compare k x.1 = Lt) (komap f m).
Proof.
  unfold komap. induction 1 as [|[k1 v1] m H1 _ IH]; [constructor|]. cbn. destruct (f v1); cbn; [constructor|]; done.
Qed.

Lemma ksorted_komap {V W} (f : V -> option W) m : ksorted m -> ksorted (komap f m).
Proof.
  induction m as [|[k1 v1] m IH]; intros Hs; [constructor|]. apply ksorted_cons in Hs as [Hs Ha]. unfold komap in *. cbn.
  destruct (f v1); cbn; [|apply IH; done]. apply ksorted_cons. split; [apply IH; done|]. apply (komap_above f). done.
Qed.

Lemma kget_komap {V W} (f : V -> option W) k m : ksorted m -> kget k (komap f m) = match kget k m with Some v => f v | None => None end.
Proof.
  induction m as [|[k1 v1] m IH]; intros Hs; [done|]. apply ksorted_cons in Hs as [Hs Ha]. unfold komap in *. cbn.
  destruct (f v1) as [w|] eqn:E; cbn; case_bool_decide as Ek; subst; rewrite ?IH by done; try done.
  rewrite (kget_lt k1 m) by done. done.
Qed.

#[export] Hint Resolve ksorted_kinsert ksorted_kdelete ksorted_kmodify ksorted_kmap ksorted_komap : mach.
