(* ===== verification/VirtualTime.v ===== *)
(** * Virtual time

    Models [ledger-sim/src/time.rs]: the virtual clock and its timer queue.  The [BinaryHeap] is the list of its elements;
    [pop] takes the greatest in the timers' [Ord], the earliest deadline and then the lowest sequence number. *)

From stdpp Require Import sorting.
From S2P Require Import Prelude Machine Limits Order.

Open Scope Z_scope.

Record Timer : Type := mkTimer { deadline : Z; t_sequence : Z; task : Z; enabler : option EntryHash }.

Record TimerFired : Type := mkFired { fired_task : Z; fired_enabler : option EntryHash }.

Record VirtualTime : Type := mkTime { now : Z; v_sequence : Z; timers : list Timer }.

(** [Timer::cmp]: reversed, so that the greatest is the earliest. *)
Definition timer_cmp (a b : Timer) : comparison :=
  then_cmp (deadline b ?= deadline a) (t_sequence b ?= t_sequence a).

(** [BinaryHeap::pop]. *)
Fixpoint heap_pop (l : list Timer) : option (Timer * list Timer) :=
  match l with
  | [] => None
  | t :: l =>
      match heap_pop l with
      | Some (u, rest) => match timer_cmp u t with Gt => Some (u, t :: rest) | _ => Some (t, l) end
      | None => Some (t, [])
      end
  end.

(** [BinaryHeap::peek]. *)
Definition peek (l : list Timer) : option Timer := option_map fst (heap_pop l).

Definition time_default : VirtualTime := mkTime 0 0 [].

Definition from_ticks (ticks : Z) : VirtualTime := mkTime ticks 0 [].

(** [set_with_enabler]; the sequence counts the timers set, far fewer than 2^64. *)
Definition set_with_enabler (v : VirtualTime) (delay : Z) (tsk : Z) (en : option EntryHash) : VirtualTime :=
  let sequence := v_sequence v + 1 in
  mkTime (now v) sequence (mkTimer (saturating_add (now v) delay) sequence tsk en :: timers v).

Definition set_timer (v : VirtualTime) (delay : Z) (tsk : Z) : VirtualTime := set_with_enabler v delay tsk None.

(** The firing loops: pop while the earliest timer is due. *)
Fixpoint fire_while (due : Timer -> bool) (fuel : nat) (l : list Timer) : list TimerFired * list Timer :=
  match fuel with
  | O => ([], l)
  | S fuel =>
      match heap_pop l with
      | Some (t, rest) =>
          if due t then let '(fired, rest) := fire_while due fuel rest in (mkFired (task t) (enabler t) :: fired, rest) else ([], l)
      | None => ([], l)
      end
  end.

Definition advance_with_enablers (v : VirtualTime) : list TimerFired * VirtualTime :=
  match peek (timers v) with
  | None => ([], v)
  | Some next =>
      let '(fired, rest) := fire_while (fun t => (deadline t =? deadline next)%Z) (length (timers v)) (timers v) in
      (fired, mkTime (deadline next) (v_sequence v) rest)
  end.

Definition advance (v : VirtualTime) : list Z * VirtualTime :=
  let '(fired, v) := advance_with_enablers v in (map fired_task fired, v).

Definition next_deadline (v : VirtualTime) : option Z := option_map deadline (peek (timers v)).

(** [None] is the assertion that time does not move backward. *)
Definition advance_to_with_enablers (v : VirtualTime) (target : Z) : option (list TimerFired * VirtualTime) :=
  if (target <? now v)%Z then None
  else
    let '(fired, rest) := fire_while (fun t => (deadline t <=? target)%Z) (length (timers v)) (timers v) in
    Some (fired, mkTime target (v_sequence v) rest).

Definition advance_to (v : VirtualTime) (target : Z) : option VirtualTime :=
  if (target <? now v)%Z then None else Some (mkTime target (v_sequence v) (timers v)).

(** ** The heap *)

(** Before in firing order. *)
Definition sooner (a b : Timer) : Prop := deadline a < deadline b \/ deadline a = deadline b /\ t_sequence a < t_sequence b.

Lemma timer_cmp_sooner a b : timer_cmp a b = Gt <-> sooner a b.
Proof.
  unfold timer_cmp, then_cmp, sooner. destruct (Z.compare_spec (deadline b) (deadline a)); [|intuition (congruence || lia)..].
  destruct (Z.compare_spec (t_sequence b) (t_sequence a)); intuition (congruence || lia).
Qed.

Lemma sooner_trans a b c : sooner a b -> sooner b c -> sooner a c.
Proof. unfold sooner. lia. Qed.

Lemma heap_pop_None l : heap_pop l = None <-> l = [].
Proof. destruct l as [|t l]; [done|]. cbn. split; [|done]. destruct (heap_pop l) as [[u rest]|]; [destruct (timer_cmp u t)|]; done. Qed.

Lemma heap_pop_perm l t rest : heap_pop l = Some (t, rest) -> l ≡ₚ t :: rest.
Proof.
  revert t rest. induction l as [|x l IH]; intros t rest H; cbn in H; [done|]. destruct (heap_pop l) as [[u r]|] eqn:E.
  - specialize (IH u r eq_refl). destruct (timer_cmp u x); injection H as <- <-; [done..|]. rewrite IH. apply Permutation_swap.
  - apply heap_pop_None in E as ->. injection H as <- <-. done.
Qed.

Lemma heap_pop_first l t rest : heap_pop l = Some (t, rest) -> forall u, In u rest -> ~ sooner u t.
Proof.
  revert t rest. induction l as [|x l IH]; intros t rest H; cbn in H; [done|]. destruct (heap_pop l) as [[u r]|] eqn:E.
  - specialize (IH u r eq_refl). apply heap_pop_perm in E. destruct (timer_cmp u x) eqn:Ec.
    1, 2: injection H as <- <-; assert (Hux : ~ sooner u x) by (rewrite <- timer_cmp_sooner; congruence).
    1, 2: intros y Hy; apply (Permutation_in _ E) in Hy as [<-|Hy]; [done|]; specialize (IH y Hy); unfold sooner in *; lia.
    injection H as <- <-. apply timer_cmp_sooner in Ec. intros y [<-|Hy]; [unfold sooner in *; lia | auto].
  - apply heap_pop_None in E as ->. injection H as <- <-. done.
Qed.

(** A condition that holds of every timer sooner than one it holds of. *)
Definition prefix_closed (due : Timer -> bool) (l : list Timer) : Prop :=
  forall t u, In t l -> In u l -> due u = true -> sooner t u -> due t = true.

Lemma fire_while_spec due fuel : forall l, NoDup (map t_sequence l) -> prefix_closed due l -> (length l <= fuel)%nat ->
  exists out, (fire_while due fuel l).1 = map (fun t => mkFired (task t) (enabler t)) out
    /\ l ≡ₚ out ++ (fire_while due fuel l).2 /\ StronglySorted sooner out
    /\ Forall (fun t => due t = true) out /\ Forall (fun t => due t = false) (fire_while due fuel l).2.
Proof.
  induction fuel as [|fuel IH]; intros l Hn Hc Hf.
  { destruct l; [|cbn in Hf; lia]. exists []. cbn. split_and!; try done; constructor. }
  cbn [fire_while]. destruct (heap_pop l) as [[t rest]|] eqn:E.
  2:{ apply heap_pop_None in E as ->. exists []. cbn. split_and!; try done; constructor. }
  pose proof (heap_pop_perm l t rest E) as Hp. pose proof (heap_pop_first l t rest E) as Hfst.
  assert (Hlate : forall u, In u rest -> sooner t u).
  { intros u Hu. specialize (Hfst u Hu). rewrite Hp in Hn. cbn in Hn. apply list.NoDup_cons in Hn as [Hn _].
    assert (t_sequence u <> t_sequence t) by (intros Hs; apply Hn; rewrite <- Hs; apply list_elem_of_In, in_map; done).
    unfold sooner in *. lia. }
  assert (Hin : forall u, In u rest -> In u l) by (intros u Hu; apply (Permutation_in _ (symmetry Hp)); right; done).
  assert (Ht : In t l) by (apply (Permutation_in _ (symmetry Hp)); left; done).
  destruct (due t) eqn:Ed.
  - destruct (IH rest) as (out & E1 & E2 & E3 & E4 & E5).
    + rewrite Hp in Hn. cbn in Hn. apply list.NoDup_cons in Hn as [_ Hn]. done.
    + intros a b Ha Hb. apply Hc; auto.
    + apply Permutation_length in Hp. cbn in Hp. lia.
    + destruct (fire_while due fuel rest) as [fired rest'] eqn:Ef. cbn in *. exists (t :: out). subst fired. split_and!; [done| | | |done].
      * rewrite Hp, E2. done.
      * constructor; [done|]. apply List.Forall_forall. intros u Hu. apply Hlate. apply (Permutation_in _ (symmetry E2)), in_app_iff. auto.
      * constructor; done.
  - exists []. cbn. split_and!; [done | done | constructor | constructor |]. apply List.Forall_forall. intros u Hu.
    destruct (due u) eqn:Eu; [|done]. exfalso. apply (Permutation_in _ Hp) in Hu as [->|Hu]; [congruence|].
    rewrite (Hc t u Ht (Hin u Hu) Eu (Hlate u Hu)) in Ed. done.
Qed.

(** ** Reachable clocks *)

Inductive time_reach : VirtualTime -> Prop :=
| tr_new : time_reach time_default
| tr_ticks n : is_u64 n -> time_reach (from_ticks n)
| tr_set v delay tsk en : time_reach v -> 0 <= delay -> time_reach (set_with_enabler v delay tsk en)
| tr_advance v : time_reach v -> time_reach (advance_with_enablers v).2
| tr_advance_to v target fired v' : time_reach v -> is_u64 target -> advance_to_with_enablers v target = Some (fired, v') -> time_reach v'.

Record time_ok (v : VirtualTime) : Prop := {
  to_sequences : NoDup (map t_sequence (timers v));
  to_used : Forall (fun t => t_sequence t <= v_sequence v) (timers v);
  to_now : is_u64 (now v);
  to_due : Forall (fun t => now v <= deadline t <= u64_max) (timers v) }.

Lemma le_closed target l : prefix_closed (fun t => (deadline t <=? target)%Z) l.
Proof. intros t u _ _ Hu [Hs|[Hs _]]; bool_hyps; apply Z.leb_le; lia. Qed.

Lemma peek_closed l next : peek l = Some next -> prefix_closed (fun t => (deadline t =? deadline next)%Z) l
  /\ (exists rest, l ≡ₚ next :: rest) /\ forall u, In u l -> deadline next <= deadline u.
Proof.
  unfold peek. destruct (heap_pop l) as [[t rest]|] eqn:E; [|done]. cbn. intros [= ->].
  pose proof (heap_pop_perm l next rest E) as Hp. pose proof (heap_pop_first l next rest E) as Hf.
  assert (Hmin : forall u, In u l -> deadline next <= deadline u).
  { intros u Hu. apply (Permutation_in _ Hp) in Hu as [->|Hu]; [lia|]. specialize (Hf u Hu). unfold sooner in Hf. lia. }
  split_and!; [|eauto|done]. intros t u Ht Hu Hd Hs. specialize (Hmin t Ht). unfold sooner in Hs. bool_hyps. apply Z.eqb_eq. lia.
Qed.

Lemma perm_rest_ok v out rest : time_ok v -> timers v ≡ₚ out ++ rest -> NoDup (map t_sequence rest) /\ Forall (fun t => t_sequence t <= v_sequence v) rest.
Proof.
  intros [H1 H2 _ _] Hp. rewrite Hp in H1. rewrite map_app in H1. apply list.NoDup_app in H1 as (_ & _ & H1). split; [done|].
  apply List.Forall_forall. intros t Ht. rewrite List.Forall_forall in H2. apply H2. apply (Permutation_in _ (symmetry Hp)), in_app_iff. auto.
Qed.

Lemma reach_time_ok v : time_reach v -> time_ok v.
Proof.
  induction 1 as [|n Hn|v delay tsk en _ IH Hd|v _ IH|v target fired v' _ IH Ht E].
  1, 2: split; try constructor; cbn; unfold is_u64, u64_max in *; lia.
  - destruct IH as [H1 H2 H3 H4]. split; cbn; [| |done|].
    + apply list.NoDup_cons. split; [|done]. intros (t & Ht & Hin)%list_elem_of_fmap. apply list_elem_of_In in Hin.
      rewrite List.Forall_forall in H2. specialize (H2 t Hin). lia.
    + constructor; [cbn; lia|]. eapply List.Forall_impl; [|exact H2]. cbn. lia.
    + constructor; [|done]. cbn. unfold saturating_add, is_u64 in *. lia.
  - unfold advance_with_enablers. destruct (peek (timers v)) as [next|] eqn:Ep; [|done].
    destruct (peek_closed _ _ Ep) as (Hc & [r Hr] & Hmin). pose proof (to_due _ IH) as Hd. rewrite List.Forall_forall in Hd.
    destruct (fire_while_spec _ (length (timers v)) (timers v) (to_sequences _ IH) Hc (le_n _)) as (out & _ & Hp & _ & _ & Hlate).
    destruct (fire_while _ _ _) as [fired rest]. cbn in *. destruct (perm_rest_ok v out rest IH Hp) as [H1 H2].
    pose proof (to_now _ IH) as Hn. pose proof (Hd next (Permutation_in _ (symmetry Hr) (or_introl eq_refl))) as Hnext.
    split; cbn; [done | done | unfold is_u64 in *; lia |]. apply List.Forall_forall. intros t Ht.
    assert (Hin : In t (timers v)) by (apply (Permutation_in _ (symmetry Hp)), in_app_iff; auto). specialize (Hd t Hin). specialize (Hmin t Hin). lia.
  - unfold advance_to_with_enablers in E. case_split_in E; [done|]. pose proof (to_due _ IH) as Hd. rewrite List.Forall_forall in Hd.
    destruct (fire_while_spec _ (length (timers v)) (timers v) (to_sequences _ IH) (le_closed target _) (le_n _)) as (out & _ & Hp & _ & _ & Hlate).
    destruct (fire_while _ _ _) as [fired' rest]. injection E as -> <-. cbn in *. destruct (perm_rest_ok v out rest IH Hp) as [H1 H2].
    split; cbn; [done | done | done |]. rewrite List.Forall_forall in Hlate. apply List.Forall_forall. intros t Hin. specialize (Hlate t Hin). bool_hyps.
    specialize (Hd t (Permutation_in _ (symmetry Hp) (proj2 (in_app_iff _ _ _) (or_intror Hin)))). lia.
Qed.

(** ** Theorems *)

(** Timers fire exactly when due and in order.  In every state the virtual clock reaches, advancing to a time that is not
    in the past fires exactly the timers with a deadline up to it, earliest first and in the order they were set on a tie,
    keeps all the others, and the clock shows that time. *)
Theorem timers_fire_in_order v target : time_reach v -> now v <= target <= u64_max ->
  exists fired v' out, advance_to_with_enablers v target = Some (fired, v') /\ now v' = target
    /\ fired = map (fun t => mkFired (task t) (enabler t)) out /\ StronglySorted sooner out
    /\ timers v ≡ₚ out ++ timers v'
    /\ Forall (fun t => deadline t <= target) out /\ Forall (fun t => target < deadline t) (timers v').
Proof.
  intros Hr%reach_time_ok Ht. unfold advance_to_with_enablers. rewrite (proj2 (Z.ltb_ge _ _)) by lia.
  destruct (fire_while_spec _ (length (timers v)) (timers v) (to_sequences _ Hr) (le_closed target _) (le_n _)) as (out & E & Hp & Hs & Hd & Hl).
  destruct (fire_while _ _ _) as [fired rest]. cbn in *. eexists _, _, out. split_and!; [reflexivity | done | done | done | done | |].
  - eapply List.Forall_impl; [|exact Hd]. cbn. intros t H. bool_hyps. lia.
  - eapply List.Forall_impl; [|exact Hl]. cbn. intros t H. bool_hyps. lia.
Qed.

(** The idle step goes to the next deadline and no further.  Advancing moves the clock, never backward, to the earliest
    deadline, fires the timers of that deadline in the order they were set, at least one of them, and every timer left is due
    later; with no timer pending nothing changes. *)
Theorem advance_to_next v : time_reach v ->
  match next_deadline v with
  | None => advance_with_enablers v = ([], v)
  | Some d => exists v' out, advance_with_enablers v = (map (fun t => mkFired (task t) (enabler t)) out, v')
      /\ now v <= d /\ now v' = d /\ out <> [] /\ timers v ≡ₚ out ++ timers v' /\ StronglySorted sooner out
      /\ Forall (fun t => deadline t = d) out /\ Forall (fun t => d < deadline t) (timers v')
  end.
Proof.
  intros Hr%reach_time_ok. unfold next_deadline, advance_with_enablers. destruct (peek (timers v)) as [next|] eqn:Ep; [|done]. cbn [option_map].
  destruct (peek_closed _ _ Ep) as (Hc & [r Hp0] & Hmin). pose proof (to_due _ Hr) as Hd0. rewrite List.Forall_forall in Hd0.
  destruct (fire_while_spec _ (length (timers v)) (timers v) (to_sequences _ Hr) Hc (le_n _)) as (out & E & Hp & Hs & Hd & Hl).
  destruct (fire_while _ _ _) as [fired rest]. cbn in *. subst fired. exists (mkTime (deadline next) (v_sequence v) rest), out.
  assert (Hnext : In next (timers v)) by (apply (Permutation_in _ (symmetry Hp0)); left; done).
  rewrite List.Forall_forall in Hl. split_and!; [done | apply Hd0, Hnext | done | | done | done | |].
  - intros ->. cbn in Hp. specialize (Hl next (Permutation_in _ Hp Hnext)). bool_hyps. lia.
  - eapply List.Forall_impl; [|exact Hd]. cbn. intros t H. bool_hyps. lia.
  - apply List.Forall_forall. intros t Ht. specialize (Hl t Ht). cbn in Ht.
    specialize (Hmin t (Permutation_in _ (symmetry Hp) (proj2 (in_app_iff _ _ _) (or_intror Ht)))). bool_hyps. lia.
Qed.

Definition sample_time : VirtualTime := set_timer (set_timer (set_timer time_default 30 1) 10 2) 10 3.

Lemma sample_time_reach : time_reach sample_time.
Proof. repeat (apply tr_set; [|lia]). apply tr_new. Qed.

Lemma timers_fire_in_order_witness : exists v', advance_to_with_enablers sample_time 20 = Some ([mkFired 2 None; mkFired 3 None], v') /\ now v' = 20.
Proof.
  destruct (timers_fire_in_order sample_time 20 sample_time_reach) as (fired & v' & out & E & H & _); [vm_compute; split; discriminate|].
  exists v'. split; [|exact H]. assert (E2 : exists w, advance_to_with_enablers sample_time 20 = Some ([mkFired 2 None; mkFired 3 None], w)) by (eexists; vm_compute; reflexivity).
  destruct E2 as [w E2]. rewrite E2 in E. injection E as <- <-. exact E2.
Defined.

Lemma advance_to_next_witness : exists v', advance_with_enablers sample_time = ([mkFired 2 None; mkFired 3 None], v') /\ now v' = 10.
Proof.
  pose proof (advance_to_next sample_time sample_time_reach) as H.
  change (next_deadline sample_time) with (Some 10) in H. destruct H as (v' & out & E & _ & Hn & _).
  exists v'. split; [|exact Hn]. assert (E2 : exists w, advance_with_enablers sample_time = ([mkFired 2 None; mkFired 3 None], w)) by (eexists; vm_compute; reflexivity).
  destruct E2 as [w E2]. rewrite E2 in E. injection E as _ <-. exact E2.
Defined.
