(* ===== verification/Net.v ===== *)
(** * The simulated network

    Models [ledger-sim/src/net.rs]: the delivery queue with partitions, link configurations, capacities and the reorder
    window.  A random draw closure is a function on a state that every draw changes.  Probabilities are IEEE doubles of the
    Standard Library's [SpecFloat]. *)

From stdpp Require Import gmap.
From Stdlib Require Import SpecFloat.
From stdpp Require Import gmap relations sorting.
From S2P Require Import Prelude Machine Limits Value Path Hex Frame Entry.

Open Scope Z_scope.

(** ** Data *)

Record Message : Type := mkMessage {
  m_from : Z; m_to : Z; content : list byte; send_id : EntryHash; m_message_id : MessageId; deliver_at : Z }.

Definition set_deliver_at (m : Message) (t : Z) : Message :=
  mkMessage (m_from m) (m_to m) (content m) (send_id m) (m_message_id m) t.

(** The first eight content bytes as a little-endian scalar, zero-padded. *)
Definition message_payload (m : Message) : Z := from_le_bytes (take 8 (content m)).

Inductive QueueFullPolicy : Type := QDrop | QBlock.

Inductive NetError : Type :=
| QueueFull (from to capacity queued : Z)
| InvalidReorderWindow (window : Z).

Definition MAX_REORDER_WINDOW : Z := 65536.

(** ** Probabilities *)

Inductive ProbabilityError : Type := NonFinite | OutOfRange.

Definition f64_one : spec_float := S754_finite false 4503599627370496 (-52).

Definition probability_new (v : spec_float) : result ProbabilityError spec_float :=
  match v with
  | S754_nan | S754_infinity _ => Err NonFinite
  | S754_zero s => if s then Err OutOfRange else Ok v
  | S754_finite s _ _ => if s || SFltb f64_one v then Err OutOfRange else Ok v
  end.

(** [value as u64] on a double: truncated, saturating, zero for negative and NaN. *)
Definition f64_as_u64 (v : spec_float) : Z :=
  match v with
  | S754_finite false m e => Z.min u64_max (Z.shiftl (Zpos m) e)
  | S754_infinity false => u64_max
  | _ => 0
  end.

Definition billion : spec_float := S754_finite false 8388608000000000 (-23).

Record LinkConfig : Type := mkLink {
  base_delay : Z; jitter : Z; loss_probability : spec_float; link_window : Z; capacity : option Z; queue_full : QueueFullPolicy }.

Definition link_default : LinkConfig := mkLink 0 0 (S754_zero false) 0 None QDrop.

(** ** Names *)

(** [DnsTable]: a sorted map from names. *)
Abbreviation DnsTable := (gmap (list byte) Z).

Definition dns_insert (t : DnsTable) (name : list byte) (act : Z) : bool * DnsTable :=
  (match t !! name with Some _ => true | None => false end, <[name := act]> t).

Definition dns_resolve (t : DnsTable) (name : list byte) : option Z := t !! name.

(** ** Backoff *)

(** Ticks of [backoff]: both durations are already clamped to [u64]. *)
Definition backoff (base : Z) (retry : Z) (max_delay : Z) : Z :=
  Z.min (Z.min u64_max (base * 2 ^ Z.min retry 63)) max_delay.

Definition backoff_jittered (base retry max_delay : Z) (next_u64 : Z) : Z :=
  let delay := backoff base retry max_delay in
  Z.min (delay + next_u64 mod Z.max delay 1) max_delay.

(** ** The network *)

Record SimNet : Type := mkNet {
  queue : list Message;
  partitions : gset (Z * Z);
  global_window : Z;
  links : gmap (Z * Z) LinkConfig }.

Definition net_new : SimNet := mkNet [] ∅ 0 ∅.
Definition with_queue (n : SimNet) (q : list Message) : SimNet := mkNet q (partitions n) (global_window n) (links n).

Definition set_link (n : SimNet) (from to : Z) (cfg : LinkConfig) : SimNet :=
  mkNet (queue n) (partitions n) (global_window n) (<[(from, to) := cfg]> (links n)).

Definition link_config (n : SimNet) (from to : Z) : LinkConfig := default link_default (links n !! (from, to)).

Definition validate_reorder_window (window : Z) : result NetError unit :=
  if (MAX_REORDER_WINDOW <? window)%Z then Err (InvalidReorderWindow window) else Ok tt.

Definition effective_reorder_window (n : SimNet) (from to : Z) : Z :=
  let per_link := match links n !! (from, to) with Some c => link_window c | None => 0 end in
  if (per_link =? 0)%Z then global_window n else per_link.

Definition on_link (from to : Z) (m : Message) : bool := (m_from m =? from)%Z && (m_to m =? to)%Z.

Definition queued_for (n : SimNet) (from to : Z) : Z := Z.of_nat (length (List.filter (on_link from to) (queue n))).

Definition check_capacity (n : SimNet) (from to : Z) : result NetError unit :=
  match links n !! (from, to) with
  | Some c =>
      match capacity c with
      | Some cap => if (cap <=? queued_for n from to)%Z then Err (QueueFull from to cap (queued_for n from to)) else Ok tt
      | None => Ok tt
      end
  | None => Ok tt
  end.

Definition queue_policy (n : SimNet) (from to : Z) : QueueFullPolicy :=
  match links n !! (from, to) with Some c => queue_full c | None => QDrop end.

Definition is_partitioned (n : SimNet) (from to : Z) : bool := bool_decide ((from, to) ∈ partitions n).

Definition partition (n : SimNet) (from to : Z) : SimNet :=
  mkNet (queue n) ({[(from, to)]} ∪ partitions n) (global_window n) (links n).

Definition toggle_partition (n : SimNet) (from to : Z) : SimNet :=
  let partitions := if bool_decide ((from, to) ∈ partitions n) then partitions n ∖ {[(from, to)]} else {[(from, to)]} ∪ partitions n in
  mkNet (queue n) partitions (global_window n) (links n).

(** Faults of the explorer's schedule vocabulary. *)
Inductive FaultSpec : Type :=
| FDrop
| FDelay (ticks : Z)
| FPartition (src dst : Z)
| FCrash
| FCorrupt
| FCrashState (id : Z)
| FDuplicate.

Definition apply_fault (n : SimNet) (fault : FaultSpec) : bool * SimNet :=
  match fault with FPartition src dst => (true, toggle_partition n src dst) | _ => (false, n) end.

Definition try_set_reorder_window (n : SimNet) (window : Z) : result NetError SimNet :=
  let? _ := validate_reorder_window window in Ok (mkNet (queue n) (partitions n) window (links n)).

Definition set_reorder_window (n : SimNet) (window : Z) : SimNet := mkNet (queue n) (partitions n) window (links n).

Definition try_set_link (n : SimNet) (from to : Z) (cfg : LinkConfig) : result NetError SimNet :=
  let? _ := validate_reorder_window (link_window cfg) in Ok (set_link n from to cfg).

(** ** Sending *)

(** [try_send]: whether it was queued, and the network. *)
Definition try_send (n : SimNet) (m : Message) : result NetError (bool * SimNet) :=
  if is_partitioned n (m_from m) (m_to m) then Ok (false, n)
  else
    let? _ := check_capacity n (m_from m) (m_to m) in
    Ok (true, with_queue n (queue n ++ [m])).

Definition unwrap_sent (n : SimNet) (r : result NetError (bool * SimNet)) : bool * SimNet :=
  match r with Ok p => p | Err _ => (false, n) end.

Definition send (n : SimNet) (m : Message) : bool * SimNet := unwrap_sent n (try_send n m).

Definition try_send_at (n : SimNet) (from to payload : Z) (id : EntryHash) (now delay : Z) : result NetError (bool * SimNet) :=
  try_send n (mkMessage from to (to_le_bytes 8 payload) id (mkMessageId (from mod 2 ^ 32) 0) (saturating_add now delay)).

Definition send_at (n : SimNet) (from to payload : Z) (id : EntryHash) (now delay : Z) : bool * SimNet :=
  unwrap_sent n (try_send_at n from to payload id now delay).

Definition try_send_at_with_identity (n : SimNet) (m : Message) (now delay : Z) : result NetError (bool * SimNet) :=
  try_send n (set_deliver_at m (saturating_add now delay)).

Definition send_at_with_identity (n : SimNet) (m : Message) (now delay : Z) : bool * SimNet :=
  unwrap_sent n (try_send_at_with_identity n m now delay).

Section Drawn.
Context {S : Type} (draw : Z -> S -> Z * S).

(** [try_send_via_link]: partition, then capacity, then the jitter and loss draws. *)
Definition try_send_via_link (n : SimNet) (m : Message) (now delay : Z) (s : S) : result NetError (bool * SimNet) * S :=
  if is_partitioned n (m_from m) (m_to m) then (Ok (false, n), s)
  else
    match check_capacity n (m_from m) (m_to m) with
    | Err e => (Err e, s)
    | Ok _ =>
        let cfg := link_config n (m_from m) (m_to m) in
        let total := saturating_add delay (base_delay cfg) in
        let '(total, s) :=
          if (0 <? jitter cfg)%Z then let '(extra, s) := draw (saturating_add (jitter cfg) 1) s in (saturating_add total extra, s)
          else (total, s) in
        let '(lost, s) :=
          if SFltb (S754_zero false) (loss_probability cfg) then
            let '(roll, s) := draw 1000000000 s in
            ((roll <? f64_as_u64 (SFmul 53 1024 (loss_probability cfg) billion))%Z, s)
          else (false, s) in
        if lost then (Ok (false, n), s)
        else (Ok (true, with_queue n (queue n ++ [set_deliver_at m (saturating_add now total)])), s)
    end.

Definition send_via_link (n : SimNet) (m : Message) (now delay : Z) (s : S) : bool * SimNet * S :=
  let '(r, s) := try_send_via_link n m now delay s in (unwrap_sent n r, s).
End Drawn.

(** ** Receiving *)

Definition is_ready (task now : Z) (m : Message) : bool := (m_to m =? task)%Z && (deliver_at m <=? now)%Z.

Definition has_ready_message (n : SimNet) (task now : Z) : bool := existsb (is_ready task now) (queue n).

(** Indices, from [i], of the messages that satisfy a test. *)
Fixpoint indices (test : Message -> bool) (i : nat) (q : list Message) : list nat :=
  match q with
  | [] => []
  | m :: q => if test m then i :: indices test (S i) q else indices test (S i) q
  end.

Definition ready_indices (n : SimNet) (task now : Z) : list nat := indices (is_ready task now) 0 (queue n).

Definition sender_at (n : SimNet) (i : nat) : Z := match queue n !! i with Some m => m_from m | None => 0 end.

(** The ready messages of the sender of the oldest ready one. *)
Definition link_candidates (n : SimNet) (ready : list nat) (sender : Z) : list nat :=
  List.filter (fun i => (sender_at n i =? sender)%Z) ready.

(** [usize::saturating_sub] of a count and a window. *)
Definition window_start (len : nat) (window : Z) : nat := Z.to_nat (Z.of_nat len - window).

(** [VecDeque::remove]. *)
Definition remove_at (n : SimNet) (i : nat) : option (Message * SimNet) :=
  match queue n !! i with Some m => Some (m, with_queue n (delete i (queue n))) | None => None end.

(** [recv_with_window]. *)
Definition recv_with_window (n : SimNet) (task now window : Z) : option (Message * SimNet) :=
  match ready_indices n task now with
  | [] => None
  | (first :: _) as ready =>
      let candidates := link_candidates n ready (sender_at n first) in
      let index :=
        if (window =? 0)%Z then first
        else Nat.max (List.last candidates 0%nat) (nth (window_start (length candidates) window) candidates 0%nat) in
      remove_at n index
  end.

(** [recv_at]: the window of the oldest ready message's link. *)
Definition recv_at (n : SimNet) (task now : Z) : option (Message * SimNet) :=
  match List.find (is_ready task now) (queue n) with
  | None => None
  | Some m => recv_with_window n task now (effective_reorder_window n (m_from m) task)
  end.

Definition effective_window_for_task (n : SimNet) (task now : Z) : result NetError Z :=
  match List.find (is_ready task now) (queue n) with
  | None => Ok 0
  | Some m =>
      let window := effective_reorder_window n (m_from m) task in
      let? _ := validate_reorder_window window in Ok window
  end.

Definition try_recv_at (n : SimNet) (task now : Z) : result NetError (option (Message * SimNet)) :=
  let? window := effective_window_for_task n task now in
  Ok (recv_with_window n task now window).

(** [peek_index]: the suffix loop over the other ready messages. *)
Definition peek_index (n : SimNet) (task now : Z) : option nat :=
  match ready_indices n task now with
  | [] => None
  | first :: ready =>
      let sender := sender_at n first in
      let window := effective_reorder_window n sender task in
      if (window =? 0)%Z then Some first
      else
        let suffix := first :: link_candidates n ready sender in
        let start := window_start (length suffix) window in
        Some (Nat.max (List.last suffix 0%nat) (nth start suffix 0%nat))
  end.

Definition peek_ready_send_id (n : SimNet) (task now : Z) : option EntryHash :=
  match peek_index n task now with
  | Some i => option_map send_id (queue n !! i)
  | None => None
  end.

Section DrawnRecv.
Context {S : Type} (draw : Z -> S -> Z * S).

(** The index a drawn receive serves, and the draw state. *)
Definition drawn_index (n : SimNet) (ready : list nat) (first : nat) (window : Z) (s : S) : nat * S :=
  if (window =? 0)%Z then (first, s)
  else
    let candidates := link_candidates n ready (sender_at n first) in
    let suffix := drop (window_start (length candidates) window) candidates in
    let len := Z.of_nat (length suffix) in
    let '(roll, s) := draw len s in
    (nth (Z.to_nat (roll mod len)) suffix 0%nat, s).

Definition try_recv_at_drawn (n : SimNet) (task now : Z) (s : S) : result NetError (option (Message * SimNet)) * S :=
  match ready_indices n task now with
  | [] => (Ok None, s)
  | (first :: _) as ready =>
      let window := effective_reorder_window n (sender_at n first) task in
      match validate_reorder_window window with
      | Err e => (Err e, s)
      | Ok _ => let '(index, s) := drawn_index n ready first window s in (Ok (remove_at n index), s)
      end
  end.

(** [recv_at_drawn] is [try_recv_at_drawn_validated] without validation. *)
Definition recv_at_drawn (n : SimNet) (task now : Z) (s : S) : option (Message * SimNet) * S :=
  match ready_indices n task now with
  | [] => (None, s)
  | (first :: _) as ready =>
      let window := effective_reorder_window n (sender_at n first) task in
      let '(index, s) := drawn_index n ready first window s in (remove_at n index, s)
  end.
End DrawnRecv.

Definition earliest_delivery_time (n : SimNet) : option Z :=
  match queue n with
  | [] => None
  | m :: q => Some (foldl (fun t m => Z.min t (deliver_at m)) (deliver_at m) q)
  end.

(** ** The simulated network: correctness

    - A receive serves one ready message and leaves the others in order: the oldest with no window, else the newest of the
      oldest's link; a drawn receive stays within the window.
    - Peeking names the message the next receive serves.
    - Traffic never takes a link over its capacity, and a refused send draws nothing. *)

(** ** Indices *)

Lemma length_indices test q : forall i, length (indices test i q) = length (List.filter test q).
Proof. induction q as [|m q IH]; intros i; cbn; [done|]. destruct (test m); cbn; rewrite IH; done. Qed.

(** The [k]-th index: the message there passes the test and [k] before it do. *)
Lemma indices_lookup test q : forall i k idx, indices test i q !! k = Some idx ->
  exists q1 m q2, q = q1 ++ m :: q2 /\ idx = (i + length q1)%nat /\ test m = true /\ length (List.filter test q1) = k.
Proof.
  induction q as [|m q IH]; intros i k idx H; cbn in H; [done|]. destruct (test m) eqn:E.
  - destruct k as [|k]; cbn in H.
    + injection H as <-. exists [], m, q. cbn. rewrite Nat.add_0_r. done.
    + apply IH in H as (q1 & x & q2 & -> & -> & Ht & Hk). exists (m :: q1), x, q2. cbn. rewrite E. cbn. split_and!; [done | lia | done | lia].
  - apply IH in H as (q1 & x & q2 & -> & -> & Ht & Hk). exists (m :: q1), x, q2. cbn. rewrite E. split_and!; [done | lia | done | done].
Qed.

Lemma lookup_mid {A} (q1 : list A) m q2 : (q1 ++ m :: q2) !! length q1 = Some m.
Proof. rewrite lookup_app_r by lia. rewrite Nat.sub_diag. done. Qed.

Lemma delete_mid {A} (q1 : list A) m q2 : delete (length q1) (q1 ++ m :: q2) = q1 ++ q2.
Proof. rewrite delete_middle. done. Qed.

Lemma filter_none {A} (test : A -> bool) l : length (List.filter test l) = 0%nat <-> forall x, In x l -> test x = false.
Proof.
  induction l as [|x l IH]; cbn; [split; [done|]; intros _; done|]. destruct (test x) eqn:E; cbn.
  - split; [done|]. intros H. rewrite (H x (or_introl eq_refl)) in E. done.
  - rewrite IH. split; [intros H y [<-|Hy]; auto | intros H y Hy; apply H; auto].
Qed.

Lemma find_filter {A} (test : A -> bool) q1 m q2 : test m = true -> length (List.filter test q1) = 0%nat ->
  List.find test (q1 ++ m :: q2) = Some m.
Proof.
  intros Hm H. rewrite filter_none in H. induction q1 as [|x q1 IH]; cbn; [rewrite Hm; done|].
  rewrite (H x (or_introl eq_refl)). apply IH. intros y Hy. apply H. right. done.
Qed.

(** ** Ready messages *)

(** The ready messages of one sender. *)
Definition ready_from (task now sender : Z) (m : Message) : bool := is_ready task now m && (m_from m =? sender)%Z.

Lemma link_candidates_eq n task now sender :
  link_candidates n (ready_indices n task now) sender = indices (ready_from task now sender) 0 (queue n).
Proof.
  unfold link_candidates, ready_indices, sender_at.
  enough (H : forall q pre, queue n = pre ++ q -> List.filter (fun i => match queue n !! i with Some m => m_from m | None => 0 end =? sender)%Z
    (indices (is_ready task now) (length pre) q) = indices (ready_from task now sender) (length pre) q) by apply (H (queue n) [] eq_refl).
  induction q as [|m q IH]; intros pre E; [done|]. cbn [indices].
  assert (IH' : List.filter (fun i => match queue n !! i with Some m => m_from m | None => 0 end =? sender)%Z
    (indices (is_ready task now) (S (length pre)) q) = indices (ready_from task now sender) (S (length pre)) q).
  { specialize (IH (pre ++ [m])). rewrite <- app_assoc in IH. specialize (IH E). rewrite length_app in IH. cbn in IH.
    rewrite Nat.add_1_r in IH. exact IH. }
  unfold ready_from at 1. destruct (is_ready task now m); cbn [andb]; [|exact IH'].
  cbn [List.filter]. rewrite E at 1. rewrite lookup_mid. destruct (m_from m =? sender)%Z; rewrite IH'; done.
Qed.

Lemma ready_none n task now : ready_indices n task now = [] <-> forall m, In m (queue n) -> is_ready task now m = false.
Proof.
  unfold ready_indices. rewrite <- filter_none, <- (length_indices _ _ 0). split; [intros ->; done | apply length_zero_iff_nil].
Qed.

(** The oldest ready message. *)
Lemma ready_oldest n task now first rest : ready_indices n task now = first :: rest ->
  exists q1 m q2, queue n = q1 ++ m :: q2 /\ first = length q1 /\ is_ready task now m = true
    /\ (forall x, In x q1 -> is_ready task now x = false) /\ sender_at n first = m_from m
    /\ List.find (is_ready task now) (queue n) = Some m.
Proof.
  intros H. assert (H0 : indices (is_ready task now) 0 (queue n) !! 0%nat = Some first) by (unfold ready_indices in H; rewrite H; done).
  apply indices_lookup in H0 as (q1 & m & q2 & E & -> & Ht & Hk). exists q1, m, q2. cbn [Nat.add]. unfold sender_at.
  rewrite E. rewrite lookup_mid. split_and!; try done; [apply filter_none, Hk | apply find_filter; done].
Qed.

(** A served candidate: the message at the [k]-th index of a link's ready messages. *)
Lemma candidate_at n task now sender k idx : indices (ready_from task now sender) 0 (queue n) !! k = Some idx ->
  exists q1 m q2, queue n = q1 ++ m :: q2 /\ is_ready task now m = true /\ m_from m = sender
    /\ remove_at n idx = Some (m, with_queue n (q1 ++ q2)) /\ queue n !! idx = Some m
    /\ length (List.filter (ready_from task now sender) q2)
       = (length (indices (ready_from task now sender) 0 (queue n)) - S k)%nat.
Proof.
  intros H. apply indices_lookup in H as (q1 & m & q2 & E & -> & Ht & Hk). pose proof Ht as Ht0. unfold ready_from in Ht.
  apply andb_true_iff in Ht as [H1 H2]. apply Z.eqb_eq in H2. cbn [Nat.add]. exists q1, m, q2.
  rewrite length_indices. unfold remove_at. rewrite !E, lookup_mid, delete_mid. split_and!; try done.
  rewrite List.filter_app, length_app. cbn [List.filter]. rewrite Ht0. cbn [length]. lia.
Qed.

Lemma indices_sorted test q : forall i, StronglySorted lt (indices test i q) /\ Forall (fun j => i <= j)%nat (indices test i q).
Proof.
  induction q as [|m q IH]; intros i; cbn; [split; constructor|]. destruct (IH (S i)) as [H1 H2].
  destruct (test m); [|split; [done|]; eapply List.Forall_impl; [|exact H2]; cbn; lia]. split.
  - constructor; [done|]. eapply List.Forall_impl; [|exact H2]. cbn. lia.
  - constructor; [done|]. eapply List.Forall_impl; [|exact H2]. cbn. lia.
Qed.

(** The maximum of the last index and an earlier one is the last. *)
Lemma max_last l start : StronglySorted lt l -> l <> [] ->
  l !! (length l - 1)%nat = Some (Nat.max (List.last l 0%nat) (nth start l 0%nat)).
Proof.
  intros Hs Hne. destruct l as [|y l _] using rev_ind; [done|]. rewrite List.last_last, length_app, Nat.add_sub, lookup_app_r, Nat.sub_diag by lia.
  cbn. f_equal. apply StronglySorted_app in Hs as (Hs & _ & _). symmetry. apply Nat.max_l.
  destruct (decide (start < length l)%nat) as [Hl|Hl].
  - rewrite app_nth1 by done. apply Nat.lt_le_incl, Hs; [|left; done]. apply list_elem_of_In, nth_In. done.
  - destruct (decide (start = length l)) as [->|Hn]; [rewrite nth_middle; done|]. rewrite nth_overflow; [lia|]. rewrite length_app. cbn. lia.
Qed.

Lemma recv_at_ready n task now : recv_at n task now
  = match ready_indices n task now with
    | [] => None
    | first :: _ => recv_with_window n task now (effective_reorder_window n (sender_at n first) task)
    end.
Proof.
  unfold recv_at. destruct (ready_indices n task now) as [|first rest] eqn:E.
  - pose proof (proj1 (ready_none n task now) E) as H. destruct (List.find _ _) as [m|] eqn:Ef; [|done].
    apply find_some in Ef as [Hin Hm]. rewrite (H m Hin) in Hm. done.
  - destruct (ready_oldest n task now first rest E) as (q1 & m & q2 & _ & _ & _ & _ & -> & ->). done.
Qed.

(** The index a deterministic receive serves is the first or the last of the link's ready messages. *)
Lemma served_index n task now first rest window : ready_indices n task now = first :: rest ->
  let candidates := link_candidates n (first :: rest) (sender_at n first) in
  let index := if (window =? 0)%Z then first
    else Nat.max (List.last candidates 0%nat) (nth (window_start (length candidates) window) candidates 0%nat) in
  exists k, indices (ready_from task now (sender_at n first)) 0 (queue n) !! k = Some index
    /\ if (window =? 0)%Z then k = 0%nat else S k = length (indices (ready_from task now (sender_at n first)) 0 (queue n)).
Proof.
  intros E. cbv zeta. rewrite <- E, link_candidates_eq.
  destruct (ready_oldest n task now first rest E) as (q1 & m & q2 & Eq & Ef & Hm & Hq1 & Hs & _).
  assert (H0 : indices (ready_from task now (sender_at n first)) 0 (queue n) !! 0%nat = Some first).
  { rewrite <- link_candidates_eq, E. unfold link_candidates. cbn [List.filter]. rewrite Z.eqb_refl. done. }
  destruct (window =? 0)%Z; [exists 0%nat; done|].
  set (l := indices _ 0 _) in *. assert (Hne : l <> []) by (intros Hl; rewrite Hl in H0; done).
  exists (length l - 1)%nat. split; [apply max_last; [apply indices_sorted | done]|]. destruct l; [done | cbn; lia].
Qed.

(** The message a receive serves from the queue [q1 ++ m :: q2], and what is left. *)
Lemma recv_serves n task now first rest window : ready_indices n task now = first :: rest ->
  exists q1 m q2, queue n = q1 ++ m :: q2 /\ recv_with_window n task now window = Some (m, with_queue n (q1 ++ q2))
    /\ is_ready task now m = true /\ m_from m = sender_at n first
    /\ if (window =? 0)%Z then forall x, In x q1 -> is_ready task now x = false
       else forall x, In x q2 -> ready_from task now (m_from m) x = false.
Proof.
  intros E. destruct (served_index n task now first rest window E) as (k & Hk & Hlast). cbv zeta in Hk.
  destruct (window =? 0)%Z eqn:Ew; rewrite ?Ew in *.
  - destruct (ready_oldest n task now first rest E) as (q1 & m & q2 & Eq & Ef & Hm & Hq1 & Hs & _).
    exists q1, m, q2. split_and!; [done | | done | done | done].
    unfold recv_with_window. rewrite E, Ew. unfold remove_at. rewrite Ef, !Eq, lookup_mid, delete_mid. done.
  - destruct (candidate_at n task now (sender_at n first) k _ Hk) as (q1 & m & q2 & Eq & Hm & Hs & Hr & _ & Hc).
    exists q1, m, q2. unfold recv_with_window. rewrite E, Ew. split_and!; [done | exact Hr | done | done |].
    rewrite Hs. apply filter_none. lia.
Qed.

(** ** Theorems *)

(** What a receive delivers.  Nothing exactly when no queued message for the task is due; otherwise one due message, which
    alone leaves the queue, from the sender of the oldest due one.  With a zero window it is that oldest message, so links are
    first-in first-out; with any other window it is the newest due message of that link. *)
Theorem recv_exact n task now :
  match recv_at n task now with
  | None => forall m, In m (queue n) -> is_ready task now m = false
  | Some (m, n') => exists q1 q2 oldest, queue n = q1 ++ m :: q2 /\ n' = with_queue n (q1 ++ q2) /\ is_ready task now m = true
      /\ List.find (is_ready task now) (queue n) = Some oldest /\ m_from m = m_from oldest
      /\ if (effective_reorder_window n (m_from oldest) task =? 0)%Z then forall x, In x q1 -> is_ready task now x = false
         else forall x, In x q2 -> m_from x = m_from m -> is_ready task now x = false
  end.
Proof.
  rewrite recv_at_ready. destruct (ready_indices n task now) as [|first rest] eqn:E; [apply ready_none; done|].
  destruct (ready_oldest n task now first rest E) as (p1 & o & p2 & _ & _ & _ & _ & Hs & Hf).
  destruct (recv_serves n task now first rest (effective_reorder_window n (sender_at n first) task) E) as (q1 & m & q2 & Eq & -> & Hm & Hfrom & Hw).
  exists q1, q2, o. rewrite Hs in *. split_and!; try done. destruct (_ =? 0)%Z; [done|].
  intros x Hx Hxf. specialize (Hw x Hx). unfold ready_from in Hw. rewrite Hxf, Z.eqb_refl, andb_true_r in Hw. done.
Qed.

(** Peeking agrees with receiving: the send id [peek_ready_send_id] names, which becomes the causal parent of a wake, is the
    id of the message the next [recv_at] serves, whatever the windows and the queue. *)
Theorem peek_is_recv n task now : peek_ready_send_id n task now = option_map (fun r => send_id r.1) (recv_at n task now).
Proof.
  rewrite recv_at_ready. unfold peek_ready_send_id, peek_index. destruct (ready_indices n task now) as [|first rest] eqn:E; [done|].
  set (window := effective_reorder_window n (sender_at n first) task).
  assert (Ec : first :: link_candidates n rest (sender_at n first) = link_candidates n (first :: rest) (sender_at n first))
    by (unfold link_candidates; cbn [List.filter]; rewrite Z.eqb_refl; done).
  destruct (served_index n task now first rest window E) as (k & Hk & _). cbv zeta in Hk.
  destruct (candidate_at n task now _ k _ Hk) as (q1 & m & q2 & _ & _ & _ & Hr & Hl & _).
  unfold recv_with_window. rewrite E, Ec in *. destruct (window =? 0)%Z; rewrite Hl, Hr; done.
Qed.

(** A drawn receive stays within the window.  Whatever the draw returns, the message served is due, from the link of the
    oldest due message, and fewer than [window] due messages of that link are newer; with a zero window it is the oldest and
    nothing is drawn. *)
Theorem drawn_recv_in_window {S} (draw : Z -> S -> Z * S) n task now s oldest :
  List.find (is_ready task now) (queue n) = Some oldest -> 0 <= effective_reorder_window n (m_from oldest) task ->
  exists m n' s' q1 q2, recv_at_drawn draw n task now s = (Some (m, n'), s')
    /\ queue n = q1 ++ m :: q2 /\ n' = with_queue n (q1 ++ q2) /\ is_ready task now m = true /\ m_from m = m_from oldest
    /\ if (effective_reorder_window n (m_from oldest) task =? 0)%Z then s' = s /\ m = oldest
       else Z.of_nat (length (List.filter (ready_from task now (m_from m)) q2)) < effective_reorder_window n (m_from oldest) task.
Proof.
  intros Hf Hw. unfold recv_at_drawn. destruct (ready_indices n task now) as [|first rest] eqn:E.
  { pose proof (proj1 (ready_none n task now) E) as H. apply find_some in Hf as [Hin Hm]. rewrite (H oldest Hin) in Hm. done. }
  destruct (ready_oldest n task now first rest E) as (p1 & o & p2 & Ep & Efst & Ho & Hp1 & Hs & Hf'). rewrite Hf in Hf'. injection Hf' as <-.
  rewrite Hs in *. unfold drawn_index. destruct (effective_reorder_window n (m_from oldest) task =? 0)%Z eqn:Ew.
  - exists oldest, (with_queue n (p1 ++ p2)), s, p1, p2. unfold remove_at. rewrite Efst, !Ep, lookup_mid, delete_mid. done.
  - rewrite <- E, Hs, link_candidates_eq. set (l := indices (ready_from task now (m_from oldest)) 0 (queue n)).
    set (w := effective_reorder_window n (m_from oldest) task) in *. apply Z.eqb_neq in Ew.
    assert (Hne : (0 < length l)%nat).
    { unfold l. rewrite length_indices. destruct (List.filter _ _) eqn:En; [|cbn; lia]. exfalso.
      assert (Hin : In oldest (List.filter (ready_from task now (m_from oldest)) (queue n))).
      { apply filter_In. split; [rewrite Ep; apply in_app_iff; right; left; done|]. unfold ready_from. rewrite Ho, Z.eqb_refl. done. }
      rewrite En in Hin. done. }
    set (suffix := drop (window_start (length l) w) l).
    assert (Hlen : length suffix = (length l - window_start (length l) w)%nat) by apply length_drop.
    assert (Hst : (window_start (length l) w < length l)%nat) by (unfold window_start; lia).
    destruct (draw (Z.of_nat (length suffix)) s) as [roll s'].
    set (j := Z.to_nat (roll mod Z.of_nat (length suffix))).
    assert (Hj : (j < length suffix)%nat) by (pose proof (Z.mod_pos_bound roll (Z.of_nat (length suffix))); lia).
    assert (Hk : l !! (window_start (length l) w + j)%nat = Some (nth j suffix 0%nat)).
    { rewrite <- lookup_drop. fold suffix. destruct (lookup_lt_is_Some_2 suffix j Hj) as [x Hx].
      rewrite Hx, (nth_lookup_Some _ _ _ _ Hx). done. }
    destruct (candidate_at n task now (m_from oldest) _ _ Hk) as (q1 & m & q2 & Eq & Hm & Hfr & Hr & _ & Hc).
    exists m, (with_queue n (q1 ++ q2)), s', q1, q2. rewrite Hr, Hfr. split_and!; try done. fold l in Hc. rewrite Hc.
    unfold window_start in *. lia.
Qed.

(** ** Traffic *)

(** The operations that move messages; configuration is fixed. *)
Inductive traffic {S} (draw : Z -> S -> Z * S) : SimNet -> SimNet -> Prop :=
| t_send n m b n' : try_send n m = Ok (b, n') -> traffic draw n n'
| t_send_via n m now delay s b n' s' : try_send_via_link draw n m now delay s = (Ok (b, n'), s') -> traffic draw n n'
| t_recv n task now m n' : recv_at n task now = Some (m, n') -> traffic draw n n'
| t_recv_drawn n task now s m n' s' : recv_at_drawn draw n task now s = (Some (m, n'), s') -> traffic draw n n'
| t_partition n from to : traffic draw n (partition n from to)
| t_fault n fault : traffic draw n (apply_fault n fault).2.

(** No bounded link holds more than its capacity. *)
Definition within_capacity (n : SimNet) : Prop := forall from to c cap,
  links n !! (from, to) = Some c -> capacity c = Some cap -> queued_for n from to <= cap.

Lemma queued_shrinks n q from to : (forall f, (length (List.filter f q) <= length (List.filter f (queue n)))%nat) ->
  queued_for (with_queue n q) from to <= queued_for n from to.
Proof. intros H. unfold queued_for. cbn. specialize (H (on_link from to)). lia. Qed.

Lemma remove_at_within n i m n' : remove_at n i = Some (m, n') -> within_capacity n -> within_capacity n'.
Proof.
  unfold remove_at. destruct (queue n !! i) as [x|] eqn:E; [|done]. intros [= <- <-] H from to c cap Hl Hc. cbn in Hl.
  specialize (H from to c cap Hl Hc). etrans; [|exact H]. apply queued_shrinks. intros f.
  rewrite delete_take_drop, List.filter_app, length_app. rewrite <- (take_drop i (queue n)) at 3.
  rewrite List.filter_app, length_app, (drop_S _ _ _ E). cbn. destruct (f x); cbn; lia.
Qed.

Lemma enqueue_within n m : check_capacity n (m_from m) (m_to m) = Ok tt -> within_capacity n -> forall m', m_from m' = m_from m -> m_to m' = m_to m ->
  within_capacity (with_queue n (queue n ++ [m'])).
Proof.
  intros Hc H m' Hf Ht from to c cap Hl Hcap. cbn in Hl. specialize (H from to c cap Hl Hcap).
  unfold queued_for in *. cbn [with_queue queue]. rewrite List.filter_app, length_app. cbn [List.filter].
  destruct (on_link from to m') eqn:E; cbn [length]; [|lia]. unfold on_link in E. bool_hyps. rewrite Hf, Ht in *. subst from to.
  unfold check_capacity in Hc. rewrite Hl, Hcap in Hc. case_split_in Hc; [done|]. unfold queued_for in *. bool_hyps. lia.
Qed.

Lemma drawn_removes {S} (draw : Z -> S -> Z * S) n task now s m n' s' : recv_at_drawn draw n task now s = (Some (m, n'), s') ->
  exists i, remove_at n i = Some (m, n').
Proof.
  unfold recv_at_drawn. destruct (ready_indices n task now); [done|]. destruct (drawn_index _ _ _ _ _ _) as [i s1].
  intros [= H _]. eauto.
Qed.

Lemma recv_removes n task now m n' : recv_at n task now = Some (m, n') -> exists i, remove_at n i = Some (m, n').
Proof.
  rewrite recv_at_ready. destruct (ready_indices n task now) as [|first rest] eqn:E; [done|]. unfold recv_with_window. rewrite E. eauto.
Qed.

Lemma traffic_within {S} (draw : Z -> S -> Z * S) n n' : traffic draw n n' -> within_capacity n -> within_capacity n'.
Proof.
  intros [n0 m b n1 E|n0 m now delay s b n1 s' E|n0 task now m n1 E|n0 task now s m n1 s' E|n0 from to|n0 fault] H.
  - unfold try_send in E. destruct (is_partitioned _ _ _); [injection E as <- <-; done|].
    destruct (check_capacity _ _ _) as [[]|] eqn:Ec; [|done]. injection E as <- <-. eapply enqueue_within; done.
  - unfold try_send_via_link in E. destruct (is_partitioned _ _ _); [injection E as <- <- <-; done|].
    destruct (check_capacity _ _ _) as [[]|] eqn:Ec; [|done]. cbv zeta in E.
    destruct (if (0 <? jitter _)%Z then _ else _) as [total s1]. destruct (if SFltb _ _ then _ else _) as [lost s2].
    destruct lost; injection E as <- <- <-; [done|]. eapply enqueue_within; done.
  - destruct (recv_removes _ _ _ _ _ E) as [i Hi]. eapply remove_at_within; done.
  - destruct (drawn_removes draw _ _ _ _ _ _ _ E) as [i Hi]. eapply remove_at_within; done.
  - exact H.
  - destruct fault; exact H.
Qed.

(** Traffic never takes a link over its capacity: if every bounded link holds at most its capacity, it still does after any
    sequence of sends, drawn sends, receives, partitions and partition faults. *)
Theorem capacity_respected {S} (draw : Z -> S -> Z * S) n n' : rtc (traffic draw) n n' -> within_capacity n -> within_capacity n'.
Proof. induction 1 as [|n n1 n' Ht _ IH]; [done|]. intros H. apply IH, (traffic_within draw n n1 Ht H). Qed.

(** A send that is refused leaves no trace: over a partitioned or full link nothing is queued and nothing is drawn, so the
    random stream of the run is the same as without the send. *)
Theorem refused_send_draws_nothing {S} (draw : Z -> S -> Z * S) n m now delay s :
  is_partitioned n (m_from m) (m_to m) = true \/ (exists e, check_capacity n (m_from m) (m_to m) = Err e) ->
  exists b, send_via_link draw n m now delay s = (b, n, s) /\ b = false.
Proof.
  intros H. exists false. split; [|done]. unfold send_via_link, try_send_via_link.
  destruct (is_partitioned n (m_from m) (m_to m)); [done|]. destruct H as [H|[e ->]]; [discriminate H | done].
Qed.

(** ** Samples *)

Definition sample_message (id at_ : Z) : Message := mkMessage 1 2 [] (to_le_bytes 8 id) (mkMessageId 1 id) at_.
Definition sample_net (window : Z) : SimNet :=
  set_link (mkNet [sample_message 1 5; sample_message 2 6; sample_message 3 7; sample_message 4 9] ∅ window ∅) 1 2
    (mkLink 0 0 (S754_zero false) 0 (Some 4) QDrop).

Definition no_draw (n s : Z) : Z * Z := (s, s + 1).

Lemma drawn_recv_in_window_witness : exists m n' s', recv_at_drawn no_draw (sample_net 2) 2 8 0 = (Some (m, n'), s') /\ is_ready 2 8 m = true.
Proof.
  destruct (drawn_recv_in_window no_draw (sample_net 2) 2 8 0 (sample_message 1 5)) as (m & n' & s' & _ & _ & E & _ & _ & Hr & _).
  - reflexivity.
  - vm_compute. discriminate.
  - exists m, n', s'. split; [exact E | exact Hr].
Defined.

(** One message received, another sent. *)
Definition after_recv : SimNet := match recv_at (sample_net 0) 2 8 with Some (_, n) => n | None => sample_net 0 end.
Definition after_send : SimNet := (send after_recv (sample_message 5 1)).2.

Lemma capacity_respected_witness : within_capacity after_send /\ queued_for after_send 1 2 = 4.
Proof.
  split; [|vm_compute; reflexivity]. apply (capacity_respected no_draw (sample_net 0)).
  - apply (rtc_l _ _ after_recv); [eapply (t_recv _ _ 2 8); vm_compute; reflexivity|].
    apply (rtc_l _ _ after_send); [eapply (t_send _ _ (sample_message 5 1)); vm_compute; reflexivity | apply rtc_refl].
  - intros from to c cap Hl Hc. destruct (decide ((from, to) = (1, 2))) as [[= -> ->]|Hn].
    + vm_compute in Hl. injection Hl as <-. cbn in Hc. injection Hc as <-. vm_compute. discriminate.
    + unfold sample_net, set_link in Hl. cbn [links] in Hl. rewrite lookup_insert_ne in Hl by congruence. rewrite lookup_empty in Hl. discriminate Hl.
Defined.

Lemma refused_send_draws_nothing_witness : exists b, send_via_link no_draw (sample_net 0) (sample_message 5 1) 0 0 7 = (b, sample_net 0, 7) /\ b = false.
Proof. apply (refused_send_draws_nothing no_draw (sample_net 0) (sample_message 5 1) 0 0 7). right. eexists. vm_compute. reflexivity. Defined.
