(* ===== verification/Scheduler.v ===== *)
(** * The scheduler

    Models [ledger-sim/src/scheduler.rs] and [seedtree.rs]: the scheduling policies, strict and lenient replay, the PCT
    priorities and the novelty bandit.

    Floats are IEEE doubles of the Standard Library's [SpecFloat].  The keyed BLAKE3 hash and the natural logarithm of the
    platform are parameters.  The hash maps and sets are only ever looked up.  [choose] on an empty ready list, an assertion
    in the code, is [None]. *)

From stdpp Require Import gmap.
From Stdlib Require Import SpecFloat.
From S2P Require Import Prelude Machine Limits Value Path Hex Frame Entry Net.

Open Scope Z_scope.

(** ** Floats *)

Definition f64_add := SFadd 53 1024.
Definition f64_sub := SFsub 53 1024.
Definition f64_mul := SFmul 53 1024.
Definition f64_div := SFdiv 53 1024.
Definition f64_sqrt := SFsqrt 53 1024.

(** [as f64] of an integer. *)
Definition f64_of (n : Z) : spec_float := binary_normalize 53 1024 n 0 false.

Definition f64_zero : spec_float := S754_zero false.
Definition f64_half : spec_float := S754_finite false 4503599627370496 (-53).
Definition f64_tenth : spec_float := S754_finite false 7205759403792794 (-56).
Definition f64_nine_tenths : spec_float := S754_finite false 8106479329266893 (-53).
Definition f64_epsilon : spec_float := S754_finite false 4835703278458517 (-82).
Definition f64_infinity : spec_float := S754_infinity false.
Definition f64_neg_infinity : spec_float := S754_infinity true.

Definition is_infinite (v : spec_float) : bool := match v with S754_infinity _ => true | _ => false end.
Definition is_sign_positive (v : spec_float) : bool :=
  match v with S754_zero s | S754_infinity s | S754_finite s _ _ => negb s | S754_nan => true end.

(** ** The novelty model *)

Record NoveltyModel : Type := mkNovelty {
  seen_transitions : gset (Z * Z);
  seen_actor_pairs : gset (Z * Z);
  seen_vc_branches : gset Z;
  last_event : option (Z * EntryKind);
  task_pull_counts : gmap nat Z;
  task_rewards : gmap nat spec_float;
  total_pulls : Z }.

Definition novelty_new : NoveltyModel := mkNovelty ∅ ∅ ∅ None ∅ ∅ 0.

(** [HashSet::insert]: whether the value was new, and the set. *)
Definition insert_new `{Countable A} (x : A) (s : gset A) : bool * gset A := (bool_decide (x ∉ s), {[x]} ∪ s).

Definition reward_if (b : bool) (amount reward : spec_float) : spec_float := if b then f64_add reward amount else reward.

(** [record_emission]; entry kinds are keyed by their tag. *)
Definition record_emission (m : NoveltyModel) (act : Z) (k : EntryKind) (task_id : nat) (vc_signature : option Z) :
    spec_float * NoveltyModel :=
  let '(reward, transitions, pairs) :=
    match last_event m with
    | Some (last_actor, last_kind) =>
        let '(new_t, transitions) := insert_new (kind_tag last_kind, kind_tag k) (seen_transitions m) in
        let '(new_p, pairs) := insert_new (last_actor, act) (seen_actor_pairs m) in
        let reward := reward_if new_t f64_one f64_zero in
        let reward := reward_if new_p f64_half reward in
        let reward := reward_if (bool_decide (last_kind = KFault)) f64_one reward in
        (reward, transitions, pairs)
    | None => (f64_zero, seen_transitions m, seen_actor_pairs m)
    end in
  let reward := reward_if (bool_decide (k = KFault)) f64_one reward in
  let '(reward, branches) :=
    match vc_signature with
    | Some signature =>
        let '(new_b, branches) := insert_new signature (seen_vc_branches m) in (reward_if new_b f64_one reward, branches)
    | None => (reward, seen_vc_branches m)
    end in
  let r := default f64_zero (task_rewards m !! task_id) in
  (reward,
   mkNovelty transitions pairs branches (Some (act, k))
     (<[task_id := default 0 (task_pull_counts m !! task_id) + 1]> (task_pull_counts m))
     (<[task_id := f64_add (f64_mul r f64_nine_tenths) (f64_mul reward f64_tenth)]> (task_rewards m))
     (total_pulls m + 1)).

Definition ucb1_score (ln : spec_float -> spec_float) (m : NoveltyModel) (task_id : nat) (exploration : spec_float) : spec_float :=
  let pulls := default 0 (task_pull_counts m !! task_id) in
  if (pulls =? 0)%Z then f64_infinity
  else
    let avg_reward := default f64_zero (task_rewards m !! task_id) in
    let bonus := f64_mul exploration (f64_sqrt (f64_div (ln (f64_of (total_pulls m))) (f64_of pulls))) in
    f64_add avg_reward bonus.

(** ** Scheduler state *)

Inductive Policy : Type :=
| Random
| Pct (priority_changes : nat)
| Bandit (exploration_constant pct_mix : spec_float)
| Replay
| Dpor.

Record StepTrace : Type := mkStep { st_step : nat; st_ready : list nat; st_chosen : nat; st_journal_len : nat }.

Inductive ReplayViolation : Type :=
| ReplayOutOfRange (step value ready_len : nat)
| ReplayExhausted (step replay_len : nat)
| ReplayTrailing (trailing steps : nat).

Record Scheduler : Type := mkScheduler {
  policy : Policy;
  decisions : list nat;
  replay_decisions : list nat;
  fallback : Policy;
  strict : bool;
  violation : option ReplayViolation;
  pct_priorities : list (option Z);
  pct_preemptions : nat;
  pct_last_chosen : option nat;
  pct_generation : Z;
  novelty : NoveltyModel;
  trace : list StepTrace;
  trace_enabled : bool }.

Definition is_dpor (p : Policy) : bool := match p with Dpor => true | _ => false end.

Definition scheduler_with (p : Policy) (replay : list nat) (fb : Policy) (strict : bool) : Scheduler :=
  mkScheduler p [] replay fb strict None [] 0 None 0 novelty_new [] (is_dpor p).

Definition with_fallback (p : Policy) (replay : list nat) (fb : Policy) : Scheduler := scheduler_with p replay fb false.
Definition with_fallback_strict (p : Policy) (replay : list nat) (fb : Policy) : Scheduler := scheduler_with p replay fb true.
Definition scheduler_new (p : Policy) (replay : list nat) : Scheduler := with_fallback p replay Random.

Definition with_violation (s : Scheduler) (v : option ReplayViolation) : Scheduler :=
  mkScheduler (policy s) (decisions s) (replay_decisions s) (fallback s) (strict s) v (pct_priorities s) (pct_preemptions s)
    (pct_last_chosen s) (pct_generation s) (novelty s) (trace s) (trace_enabled s).

Definition with_pct (s : Scheduler) (priorities : list (option Z)) (preemptions : nat) (last : option nat) (generation : Z) : Scheduler :=
  mkScheduler (policy s) (decisions s) (replay_decisions s) (fallback s) (strict s) (violation s) priorities preemptions
    last generation (novelty s) (trace s) (trace_enabled s).

Definition with_decision (s : Scheduler) (ready : list nat) (step choice : nat) : Scheduler :=
  let trace := if trace_enabled s then trace s ++ [mkStep step ready choice 0] else trace s in
  mkScheduler (policy s) (decisions s ++ [choice]) (replay_decisions s) (fallback s) (strict s) (violation s) (pct_priorities s)
    (pct_preemptions s) (pct_last_chosen s) (pct_generation s) (novelty s) trace (trace_enabled s).

Definition take_violation (s : Scheduler) : option ReplayViolation * Scheduler := (violation s, with_violation s None).

Definition check_trailing (s : Scheduler) (steps : nat) : option ReplayViolation * Scheduler :=
  if strict s && (steps <? length (replay_decisions s))%nat then
    let v := ReplayTrailing (length (replay_decisions s) - steps) steps in (Some v, with_violation s (Some v))
  else (None, s).

Definition note_step_journal_len (s : Scheduler) (len : nat) : Scheduler :=
  let trace :=
    match rev (trace s) with
    | t :: earlier => rev earlier ++ [mkStep (st_step t) (st_ready t) (st_chosen t) len]
    | [] => []
    end in
  mkScheduler (policy s) (decisions s) (replay_decisions s) (fallback s) (strict s) (violation s) (pct_priorities s)
    (pct_preemptions s) (pct_last_chosen s) (pct_generation s) (novelty s) trace (trace_enabled s).

Definition on_entry_emitted (s : Scheduler) (act : Z) (k : EntryKind) (task_id : nat) (vc_signature : option Z) : Scheduler :=
  mkScheduler (policy s) (decisions s) (replay_decisions s) (fallback s) (strict s) (violation s) (pct_priorities s)
    (pct_preemptions s) (pct_last_chosen s) (pct_generation s) (record_emission (novelty s) act k task_id vc_signature).2
    (trace s) (trace_enabled s).

Definition novelty_active (s : Scheduler) : bool :=
  match policy s with
  | Bandit _ _ => true
  | Replay => match fallback s with Bandit _ _ => true | _ => false end
  | _ => false
  end.

(** ** Selection *)

Definition MIX_OFFSET_BIT : Z := 2 ^ 63.
Definition PCT_OFFSET_BIT : Z := 2 ^ 62.

(** Wrapping arithmetic on [u64]. *)
Definition wrap64 (v : Z) : Z := v mod 2 ^ 64.

Section Draws.
(** BLAKE3 keyed with the root seed. *)
Variable keyed_blake3 : list byte -> list byte.
Variable ln : spec_float -> spec_float.

(** [SeedTree::draw_u64]. *)
Definition draw_u64 (label : list byte) (offset : Z) : Z := from_le_bytes (take 8 (keyed_blake3 (label ++ to_le_bytes 8 offset))).

Definition label_sched : list byte := [x73; x63; x68; x65; x64].
Definition label_pct : list byte := [x70; x63; x74].
Definition label_bandit : list byte := [x62; x61; x6e; x64; x69; x74].

(** [value as usize % n]. *)
Definition modulo (value : Z) (n : nat) : nat := Z.to_nat (value mod Z.of_nat n).

Definition select_random (ready : list nat) (step : nat) : nat := modulo (draw_u64 label_sched (Z.of_nat step)) (length ready).

Definition pct_priority_draw (generation : Z) (task : nat) : Z :=
  let offset := Z.lxor generation 11400714819323198485 in
  let offset := (wrap64 (offset * 1099511628211) + Z.of_nat task) in
  draw_u64 label_pct (wrap64 offset).

Definition priority_of (priorities : list (option Z)) (task : nat) : Z :=
  match priorities !! task with Some (Some p) => p | _ => 0 end.

(** The loop of [pct_best] from position [index]. *)
Fixpoint best_loop (priorities : list (option Z)) (index : nat) (tasks : list nat) (best_index : nat) (best_priority : Z) : nat :=
  match tasks with
  | [] => best_index
  | t :: tasks =>
      let priority := priority_of priorities t in
      if (best_priority <? priority)%Z then best_loop priorities (S index) tasks index priority
      else best_loop priorities (S index) tasks best_index best_priority
  end.

Definition pct_best (priorities : list (option Z)) (ready : list nat) : nat :=
  match ready with
  | [] => 0%nat
  | t :: tasks => best_loop priorities 1 tasks 0 (priority_of priorities t)
  end.

(** Grow the table to hold a task and draw its priority if it has none. *)
Definition ensure_priority (generation : Z) (priorities : list (option Z)) (task : nat) : list (option Z) :=
  let priorities := priorities ++ replicate (S task - length priorities) None in
  match priorities !! task with
  | Some (Some _) => priorities
  | _ => <[task := Some (pct_priority_draw generation task)]> priorities
  end.

Definition redraw (generation : Z) (priorities : list (option Z)) (task : nat) : list (option Z) :=
  <[task := Some (pct_priority_draw generation task)]> priorities.

Definition select_pct (s : Scheduler) (ready : list nat) (priority_changes : nat) : nat * Scheduler :=
  let priorities := foldl (ensure_priority (pct_generation s)) (pct_priorities s) ready in
  let best_index := pct_best priorities ready in
  let budget_left := (0 <? priority_changes - pct_preemptions s)%nat in
  let preempts := budget_left && (1 <? length ready)%nat
    && match pct_last_chosen s with Some previous => bool_decide (previous ∈ ready) | None => false end in
  if preempts then
    let generation := pct_generation s + 1 in
    let priorities := foldl (redraw generation) priorities ready in
    let best_index := pct_best priorities ready in
    (best_index, with_pct s priorities (S (pct_preemptions s)) (ready !! best_index) generation)
  else (best_index, with_pct s priorities (pct_preemptions s) (ready !! best_index) (pct_generation s)).

(** Scores that count as the same: infinities of one sign, or finite ones within 1e-9. *)
Definition same_score (score best : spec_float) : bool :=
  (is_infinite score && is_infinite best && Bool.eqb (is_sign_positive score) (is_sign_positive best))
  || (negb (is_infinite score) && negb (is_infinite best) && SFltb (SFabs (f64_sub score best)) f64_epsilon).

Fixpoint bandit_loop (m : NoveltyModel) (exploration : spec_float) (idx : nat) (tasks : list nat)
    (best_indices : list nat) (best_score : spec_float) : list nat :=
  match tasks with
  | [] => best_indices
  | t :: tasks =>
      let score := ucb1_score ln m t exploration in
      if same_score score best_score then bandit_loop m exploration (S idx) tasks (best_indices ++ [idx]) best_score
      else if SFltb best_score score then bandit_loop m exploration (S idx) tasks [idx] score
      else bandit_loop m exploration (S idx) tasks best_indices best_score
  end.

(** [select_bandit]; [None] is the remainder by zero of an empty list of best positions. *)
Definition select_bandit (s : Scheduler) (ready : list nat) (step : nat) (exploration : spec_float) : option nat :=
  let best_indices := bandit_loop (novelty s) exploration 0 ready [] f64_neg_infinity in
  match best_indices with
  | [i] => Some i
  | _ => best_indices !! modulo (draw_u64 label_bandit (Z.of_nat step)) (length best_indices)
  end.

(** [max_by_key] over positions: the last of the greatest. *)
Fixpoint max_position (index : nat) (priorities : list Z) (best : option (nat * Z)) : option (nat * Z) :=
  match priorities with
  | [] => best
  | p :: priorities =>
      let best := match best with Some (i, q) => if (q <=? p)%Z then Some (index, p) else best | None => Some (index, p) end in
      max_position (S index) priorities best
  end.

Definition select_bandit_pct (ready : list nat) (step : nat) : nat :=
  let changes := Nat.max (length ready / 2) 1 in
  let priorities := foldl (fun ps change =>
      let offset := Z.lor (Z.lor PCT_OFFSET_BIT (wrap64 (Z.shiftl (Z.of_nat step) 10))) (Z.of_nat change) in
      let index := draw_u64 label_bandit offset in
      <[modulo index (length ready) := Z.of_nat (changes - change) + 1]> ps)
    (repeat 0 (length ready)) (seq 0 changes) in
  match max_position 0 priorities None with Some (i, _) => i | None => 0%nat end.

(** [select_fallback]. *)
Definition select_fallback (s : Scheduler) (ready : list nat) (step : nat) (p : Policy) : option (nat * Scheduler) :=
  match p with
  | Random | Dpor | Replay => Some (select_random ready step, s)
  | Pct priority_changes => Some (select_pct s ready priority_changes)
  | Bandit exploration_constant pct_mix =>
      let mix := draw_u64 label_bandit (Z.lor (Z.of_nat step) MIX_OFFSET_BIT) in
      let mix := f64_div (f64_of (mix mod 100)) (f64_of 100) in
      if SFltb mix pct_mix then Some (select_bandit_pct ready step, s)
      else option_map (fun i => (i, s)) (select_bandit s ready step exploration_constant)
  end.

(** [choose]; [None] is a panic. *)
Definition choose (s : Scheduler) (ready : list nat) (step : nat) : option (nat * Scheduler) :=
  match ready with
  | [] => None
  | _ :: _ =>
      match strict s, policy s with
      | true, Replay =>
          match replay_decisions s !! step with
          | Some value =>
              if (length ready <=? value)%nat
              then Some (0%nat, with_violation s (Some (ReplayOutOfRange step value (length ready))))
              else Some (value, with_decision s ready step value)
          | None => Some (0%nat, with_violation s (Some (ReplayExhausted step (length (replay_decisions s)))))
          end
      | _, p =>
          let chosen :=
            match p with
            | Replay =>
                match replay_decisions s !! step with
                | Some value => Some ((value mod length ready)%nat, s)
                | None => select_fallback s ready step (fallback s)
                end
            | _ => select_fallback s ready step p
            end in
          match chosen with
          | Some (choice, s) => Some (choice, with_decision s ready step choice)
          | None => None
          end
      end
  end.
End Draws.

(** ** The scheduler: correctness

    - Every policy chooses a position of the ready list.
    - Replaying the decisions of a run, strictly or not, makes the same choices, whatever policy made them.
    - The PCT policy stays within its preemption budget. *)

Section Choices.
Variable keyed_blake3 : list byte -> list byte.
Variable ln : spec_float -> spec_float.

Local Abbreviation choose := (choose keyed_blake3 ln).
Local Abbreviation select := (select_fallback keyed_blake3 ln).

(** ** Positions *)

Lemma modulo_lt v n : (0 < n)%nat -> (modulo v n < n)%nat.
Proof. intros H. unfold modulo. pose proof (Z.mod_pos_bound v (Z.of_nat n)). lia. Qed.

Lemma best_loop_lt priorities tasks : forall index best p n, (best < n)%nat -> (index + length tasks <= n)%nat ->
  (best_loop priorities index tasks best p < n)%nat.
Proof.
  induction tasks as [|t tasks IH]; intros index best p n Hb Hi; cbn; [done|]. cbn in Hi. case_split; apply IH; lia.
Qed.

Lemma pct_best_lt priorities ready : ready <> [] -> (pct_best priorities ready < length ready)%nat.
Proof. destruct ready as [|t ready]; [done|]. intros _. cbn. apply best_loop_lt; lia. Qed.

Lemma bandit_loop_lt m e tasks : forall idx best score n, Forall (fun i => i < n)%nat best -> (idx + length tasks <= n)%nat ->
  Forall (fun i => i < n)%nat (bandit_loop ln m e idx tasks best score).
Proof.
  induction tasks as [|t tasks IH]; intros idx best score n Hb Hi; cbn; [done|]. cbn in Hi. repeat case_split; apply IH; try lia; try done.
  - apply List.Forall_app. split; [done|]. constructor; [lia | constructor].
  - constructor; [lia | constructor].
Qed.

Lemma max_position_lt priorities : forall index best n, match best with Some (i, _) => (i < n)%nat | None => True end ->
  (index + length priorities <= n)%nat -> match max_position index priorities best with Some (i, _) => (i < n)%nat | None => True end.
Proof.
  induction priorities as [|p ps IH]; intros index best n Hb Hi; cbn; [done|]. cbn in Hi. apply IH; [|lia].
  destruct best as [[i q]|]; [case_split|]; cbn; lia.
Qed.

Lemma length_insert_fold {A B} (f : B -> nat) (g : B -> A) l : forall ps : list A, length (foldl (fun ps b => <[f b := g b]> ps) ps l) = length ps.
Proof. induction l as [|b l IH]; intros ps; cbn; [done|]. rewrite IH. apply length_insert. Qed.

Lemma select_bandit_pct_lt ready step : ready <> [] -> (select_bandit_pct keyed_blake3 ready step < length ready)%nat.
Proof.
  intros Hne. assert (Hpos : (0 < length ready)%nat) by (destruct ready; [done | cbn; lia]). unfold select_bandit_pct.
  set (ps := foldl _ _ _). pose proof (max_position_lt ps 0 None (length ready)) as H.
  destruct (max_position 0 ps None) as [[i p]|]; [|done]. apply H; [done|]. unfold ps.
  rewrite (length_insert_fold (fun change => modulo _ (length ready))), repeat_length. lia.
Qed.

Lemma select_lt s ready step p i s' : ready <> [] -> select s ready step p = Some (i, s') -> (i < length ready)%nat.
Proof.
  intros Hne. assert (Hpos : (0 < length ready)%nat) by (destruct ready; [done | cbn; lia]). unfold select_fallback.
  assert (Hr : (select_random keyed_blake3 ready step < length ready)%nat) by (apply modulo_lt; done).
  destruct p as [|k|e mix| |]; intros H; try (injection H as <- _; exact Hr).
  - injection H as H. unfold select_pct in H. case_split_in H; injection H as <- _; apply pct_best_lt; done.
  - case_split_in H; [injection H as <- _; apply select_bandit_pct_lt; done|]. unfold select_bandit in H.
    pose proof (bandit_loop_lt (novelty s) e ready 0 [] f64_neg_infinity (length ready) (List.Forall_nil _) (le_n _)) as Hb.
    rewrite List.Forall_forall in Hb. set (l := bandit_loop _ _ _ _ _ _ _) in *.
    destruct (match l with [i] => Some i | _ => _ end) as [j|] eqn:E; [|done]. injection H as <- _. apply Hb, list_elem_of_In.
    destruct l as [|a [|b l]]; [done | injection E as <-; left | apply list_elem_of_lookup_2 in E; exact E].
Qed.

Lemma choose_lt s ready step i s' : choose s ready step = Some (i, s') -> (i < length ready)%nat.
Proof.
  unfold Scheduler.choose. destruct ready as [|t ready]; [done|]. set (r := t :: ready). assert (Hne : r <> []) by done.
  assert (Hpos : (0 < length r)%nat) by (cbn; lia). intros H.
  assert (Hsel : forall p, match select s r step p with Some (c, s0) => Some (c, with_decision s0 r step c) | None => None end = Some (i, s') -> (i < length r)%nat).
  { intros p Hp. destruct (select s r step p) as [[c s0]|] eqn:E; [|done]. injection Hp as <- _. eapply select_lt; done. }
  destruct (strict s), (policy s) as [|k|e mix| |];
    try first [exact (Hsel Random H) | exact (Hsel (Pct k) H) | exact (Hsel (Bandit e mix) H)].
  - destruct (replay_decisions s !! step) as [v|]; [|injection H as <- _; exact Hpos]. case_split_in H; injection H as <- _; [exact Hpos | bool_hyps; lia].
  - destruct (replay_decisions s !! step) as [v|]; [|exact (Hsel (fallback s) H)].
    assert (Hm : (v mod length r < length r)%nat) by (apply Nat.mod_upper_bound; lia). injection H as <- _. exact Hm.
Qed.

(** ** Runs *)

(** What a run tells the scheduler: the ready tasks and the entries journaled after given choices. *)
Record Env : Type := mkEnv { ready_after : list nat -> list nat; emitted_after : list nat -> list (Z * EntryKind * nat * option Z) }.

Definition emit (s : Scheduler) (es : list (Z * EntryKind * nat * option Z)) : Scheduler :=
  foldl (fun s '(act, k, t, vc) => on_entry_emitted s act k t vc) s es.

Fixpoint run_steps (env : Env) (fuel : nat) (s : Scheduler) (choices : list nat) : option (list nat * Scheduler) :=
  match fuel with
  | O => Some (choices, s)
  | S fuel =>
      match choose s (ready_after env choices) (length choices) with
      | None => None
      | Some (i, s) => run_steps env fuel (emit s (emitted_after env (choices ++ [i]))) (choices ++ [i])
      end
  end.

(** What emissions leave alone. *)
Definition same_control (s t : Scheduler) : Prop :=
  policy s = policy t /\ decisions s = decisions t /\ replay_decisions s = replay_decisions t /\ strict s = strict t
  /\ violation s = violation t /\ fallback s = fallback t /\ pct_preemptions s = pct_preemptions t.

Lemma emit_control s es : same_control (emit s es) s.
Proof.
  unfold emit. revert s. induction es as [|[[[act k] t] vc] es IH]; intros s; [done|]. cbn [foldl].
  destruct (IH (on_entry_emitted s act k t vc)) as (H1 & H2 & H3 & H4 & H5 & H6 & H7). done.
Qed.

(** A run extends the choices, each in range. *)
Lemma run_extends env fuel : forall s choices cs s', run_steps env fuel s choices = Some (cs, s') ->
  exists more, cs = choices ++ more /\ length more = fuel
    /\ forall k, (k < fuel)%nat -> exists i, more !! k = Some i /\ (i < length (ready_after env (choices ++ take k more)))%nat.
Proof.
  induction fuel as [|fuel IH]; intros s choices cs s' H; cbn in H.
  - injection H as <- <-. exists []. rewrite app_nil_r. split_and!; [done | done | lia].
  - destruct (choose s _ _) as [[i s1]|] eqn:E; [|done]. apply choose_lt in E. apply IH in H as (more & -> & Hl & Hk).
    exists (i :: more). rewrite <- app_assoc. split_and!; [done | cbn; lia |]. intros [|k] Hlt.
    + exists i. rewrite app_nil_r. done.
    + destruct (Hk k ltac:(lia)) as (j & Hj & Hr). exists j. cbn. rewrite <- app_assoc in Hr. done.
Qed.

(** A scheduler that replays [cs], after some of it. *)
Record replaying (strictly : bool) (cs choices : list nat) (s : Scheduler) : Prop := {
  rp_policy : policy s = Replay;
  rp_strict : strict s = strictly;
  rp_replay : replay_decisions s = cs;
  rp_violation : violation s = None;
  rp_decisions : decisions s = choices }.

Lemma replaying_emit strictly cs choices s es : replaying strictly cs choices s -> replaying strictly cs choices (emit s es).
Proof.
  intros [H1 H2 H3 H4 H5]. destruct (emit_control s es) as (E1 & E2 & E3 & E4 & E5 & _). split; congruence.
Qed.

Lemma replaying_choose strictly cs choices i s ready : replaying strictly cs choices s -> cs !! length choices = Some i ->
  (i < length ready)%nat -> exists s', choose s ready (length choices) = Some (i, s') /\ replaying strictly cs (choices ++ [i]) s'.
Proof.
  intros [H1 H2 H3 H4 H5] Hi Hlt. unfold Scheduler.choose. destruct ready as [|t ready]; [cbn in Hlt; lia|].
  rewrite H1, H2, H3, Hi. destruct strictly.
  - rewrite (proj2 (Nat.leb_gt _ _)) by done. eexists. split; [reflexivity|]. split; cbn; congruence.
  - rewrite Nat.mod_small by done. eexists. split; [reflexivity|]. split; cbn; congruence.
Qed.

Lemma replay_run strictly env cs fuel : forall choices more s, cs = choices ++ more -> length more = fuel -> replaying strictly cs choices s ->
  (forall k, (k < fuel)%nat -> exists i, more !! k = Some i /\ (i < length (ready_after env (choices ++ take k more)))%nat) ->
  exists s', run_steps env fuel s choices = Some (cs, s') /\ replaying strictly cs cs s'.
Proof.
  induction fuel as [|fuel IH]; intros choices more s E Hl Hs Hk.
  - destruct more; [|done]. rewrite app_nil_r in E. subst choices. exists s. done.
  - destruct more as [|i more]; [done|]. destruct (Hk 0%nat ltac:(lia)) as (i' & [= <-] & Hr). cbn in Hr. rewrite app_nil_r in Hr.
    assert (Hi : cs !! length choices = Some i) by (rewrite E, lookup_app_r, Nat.sub_diag by lia; done).
    destruct (replaying_choose strictly cs choices i s _ Hs Hi Hr) as (s1 & Ec & Hs1). cbn [run_steps]. rewrite Ec.
    apply (IH (choices ++ [i]) more); [rewrite <- app_assoc; done | cbn in Hl; lia | apply replaying_emit; done |].
    intros k Hlt. destruct (Hk (S k) ltac:(lia)) as (j & Hj & Hjr). exists j. rewrite <- app_assoc. done.
Qed.

Lemma choose_decisions s ready step i s' : strict s = false -> choose s ready step = Some (i, s') ->
  decisions s' = decisions s ++ [i] /\ strict s' = false /\ policy s' = policy s /\ fallback s' = fallback s.
Proof.
  intros Hs H. unfold Scheduler.choose in H. destruct ready as [|t ready]; [done|]. rewrite Hs in H.
  assert (Hsel : forall p, match select s (t :: ready) step p with Some (c, s0) => Some (c, with_decision s0 (t :: ready) step c) | None => None end = Some (i, s') ->
    decisions s' = decisions s ++ [i] /\ strict s' = false /\ policy s' = policy s /\ fallback s' = fallback s).
  { intros p Hp. destruct (select s (t :: ready) step p) as [[c s0]|] eqn:E; [|done]. injection Hp as <- <-.
    assert (Hs0 : same_control (with_pct s0 (pct_priorities s0) (pct_preemptions s) (pct_last_chosen s0) (pct_generation s0)) s).
    { unfold select_fallback in E. destruct p as [|k|e mix| |]; try (injection E as <- <-; done).
      - injection E as E. unfold select_pct in E. case_split_in E; injection E as <- <-; done.
      - case_split_in E; [injection E as <- <-; done|]. destruct (select_bandit _ _ _ _ _ _); [|done]. injection E as <- <-. done. }
    destruct Hs0 as (H1 & H2 & H3 & H4 & H5 & H6 & _). cbn in *. rewrite H1, H2, H4, H6. done. }
  destruct (policy s) as [|k|e mix| |] eqn:Ep;
    try first [exact (Hsel Random H) | exact (Hsel (Pct k) H) | exact (Hsel (Bandit e mix) H)].
  destruct (replay_decisions s !! step) as [v|]; [|exact (Hsel (fallback s) H)]. injection H as <- <-. done.
Qed.

Lemma run_decisions env fuel : forall s choices cs s', strict s = false -> decisions s = choices ->
  run_steps env fuel s choices = Some (cs, s') -> decisions s' = cs.
Proof.
  induction fuel as [|fuel IH]; intros s choices cs s' Hs Hd H; cbn in H; [injection H as <- <-; done|].
  destruct (choose s _ _) as [[i s1]|] eqn:E; [|done]. apply choose_decisions in E as (E1 & E2 & _); [|done].
  destruct (emit_control s1 (emitted_after env (choices ++ [i]))) as (_ & F2 & _ & F4 & _).
  eapply IH; [| |exact H]; congruence.
Qed.

(** ** The bandit *)

Lemma bandit_loop_keeps m e tasks : forall idx best score, best <> [] -> bandit_loop ln m e idx tasks best score <> [].
Proof.
  induction tasks as [|t tasks IH]; intros idx best score Hb; cbn; [done|]. repeat case_split; apply IH; try done. destruct best; done.
Qed.

Lemma bandit_loop_nan m e tasks : forall idx best score, (forall t, In t tasks -> ucb1_score ln m t e = S754_nan) ->
  is_infinite score = true -> bandit_loop ln m e idx tasks best score = best.
Proof.
  induction tasks as [|t tasks IH]; intros idx best score H Hi; cbn; [done|]. rewrite (H t (or_introl eq_refl)).
  destruct score as [|s| |]; try done. cbn. destruct s; apply IH; try done; intros u Hu; apply H; right; done.
Qed.

Lemma bandit_loop_empty m e tasks : forall idx, bandit_loop ln m e idx tasks [] f64_neg_infinity = [] <->
  forall t, In t tasks -> ucb1_score ln m t e = S754_nan.
Proof.
  induction tasks as [|t tasks IH]; intros idx; [cbn; tauto|]. split; [|intros H; apply bandit_loop_nan; done]. intros H. cbn [bandit_loop] in H.
  destruct (ucb1_score ln m t e) as [s|s| |s mant ex] eqn:E; cbn in H.
  - destruct (bandit_loop_keeps m e tasks (S idx) [idx] (S754_zero s) ltac:(done) H).
  - destruct s; cbn in H; [destruct (bandit_loop_keeps m e tasks (S idx) [idx] f64_neg_infinity ltac:(done) H)
      | destruct (bandit_loop_keeps m e tasks (S idx) [idx] f64_infinity ltac:(done) H)].
  - intros u [<-|Hu]; [done|]. apply (proj1 (IH (S idx)) H u Hu).
  - destruct s; cbn in H; [destruct (bandit_loop_keeps m e tasks (S idx) [idx] (S754_finite true mant ex) ltac:(done) H)
      | destruct (bandit_loop_keeps m e tasks (S idx) [idx] (S754_finite false mant ex) ltac:(done) H)].
Qed.

(** ** The PCT budget *)

Lemma choose_pct s ready step i s' k : strict s = false -> policy s = Pct k -> (pct_preemptions s <= k)%nat ->
  choose s ready step = Some (i, s') -> (pct_preemptions s <= pct_preemptions s' <= k)%nat.
Proof.
  intros Hs Hp Hk H. unfold Scheduler.choose in H. destruct ready as [|t ready]; [done|]. rewrite Hs, Hp in H. cbn [select_fallback] in H.
  destruct (select_pct keyed_blake3 s (t :: ready) k) as [c s0] eqn:E. injection H as <- <-. cbn.
  unfold select_pct in E. case_split_in E; injection E as <- <-; cbn; [|lia]. bool_hyps. lia.
Qed.

Lemma run_pct env k fuel : forall s choices cs s', strict s = false -> policy s = Pct k -> (pct_preemptions s <= k)%nat ->
  run_steps env fuel s choices = Some (cs, s') -> (pct_preemptions s' <= k)%nat.
Proof.
  induction fuel as [|fuel IH]; intros s choices cs s' Hs Hp Hk H; cbn in H; [injection H as <- <-; done|].
  destruct (choose s _ _) as [[i s1]|] eqn:E; [|done]. pose proof (choose_pct _ _ _ _ _ k Hs Hp Hk E) as Hk1.
  apply choose_decisions in E as (_ & E2 & E3 & _); [|done].
  destruct (emit_control s1 (emitted_after env (choices ++ [i]))) as (F1 & _ & _ & F4 & _ & _ & F7).
  eapply IH; [| | |exact H]; [congruence | congruence | rewrite F7; lia].
Qed.

(** ** Theorems *)

(** Every choice is a position of the ready list, under every policy, fallback and replay, also when a strict replay is
    violated: the executor never indexes out of range. *)
Theorem choice_in_range s ready step i s' : choose s ready step = Some (i, s') -> (i < length ready)%nat.
Proof. apply choose_lt. Qed.

(** A run can be replayed.  Take any policy, fallback and recorded decisions, and any program: the ready tasks and the
    entries journaled after each sequence of choices are arbitrary functions.  The decisions the scheduler records are the choices
    it made, and a scheduler replaying them, strictly or leniently and with any fallback, makes the same choices in the same
    program, with no violation and no decision left over. *)
Theorem replay_reproduces env fuel p replay fb cs s : run_steps env fuel (with_fallback p replay fb) [] = Some (cs, s) ->
  decisions s = cs /\ forall strictly fb', exists s',
    run_steps env fuel (scheduler_with Replay cs fb' strictly) [] = Some (cs, s')
    /\ violation s' = None /\ decisions s' = cs /\ (check_trailing s' fuel).1 = None.
Proof.
  intros H. split; [eapply run_decisions; [| |exact H]; done|]. intros strictly fb'.
  apply run_extends in H as (more & E & Hl & Hk). cbn [app] in E. subst more.
  destruct (replay_run strictly env cs fuel [] cs (scheduler_with Replay cs fb' strictly) eq_refl Hl) as (s' & Hr & [_ H2 H3 H4 H5]);
    [split; done | exact Hk |].
  exists s'. split_and!; [done..|]. unfold check_trailing. rewrite H3, Hl, Nat.ltb_irrefl, andb_false_r. done.
Qed.

(** When the bandit panics.  The choice of the bandit policy fails, with a remainder by the zero length of its list of best
    positions, exactly when the score of every ready task is not a number; with an exploration constant that is not a number
    that is as soon as every ready task has run once. *)
Theorem bandit_panics_iff s ready step e :
  (select_bandit keyed_blake3 ln s ready step e = None <-> forall t, In t ready -> ucb1_score ln (novelty s) t e = S754_nan)
  /\ ((forall t, In t ready -> default 0 (task_pull_counts (novelty s) !! t) <> 0) -> select_bandit keyed_blake3 ln s ready step S754_nan = None).
Proof.
  assert (Hiff : forall e, select_bandit keyed_blake3 ln s ready step e = None <-> forall t, In t ready -> ucb1_score ln (novelty s) t e = S754_nan).
  { intros e'. rewrite <- (bandit_loop_empty (novelty s) e' ready 0). unfold select_bandit. set (l := bandit_loop _ _ _ _ _ _ _).
    split; [|intros ->; done]. destruct l as [|a [|b l']] eqn:E; [done | done |]. intros H. apply lookup_ge_None in H.
    pose proof (modulo_lt (draw_u64 keyed_blake3 label_bandit (Z.of_nat step)) (length (a :: b :: l')) ltac:(cbn; lia)). lia. }
  split; [apply Hiff|]. intros Hp. apply Hiff. intros t Ht. unfold ucb1_score. rewrite (proj2 (Z.eqb_neq _ _)) by (apply Hp, Ht).
  change (f64_mul S754_nan ?x) with S754_nan. destruct (default f64_zero _); done.
Qed.

(** The PCT policy never preempts more than its budget of priority changes in a run. *)
Theorem pct_within_budget env fuel k replay fb cs s :
  run_steps env fuel (with_fallback (Pct k) replay fb) [] = Some (cs, s) -> (pct_preemptions s <= k)%nat.
Proof. intros H. eapply run_pct; [| | |exact H]; [done | done | cbn; lia]. Qed.
End Choices.

(** ** A sample run: three tasks, one of which ends after two steps *)

Definition flat_digest (b : list byte) : list byte := repeat (z2b (foldl (fun acc x => (acc * 7 + b2z x + 3) mod 256) 1 b)) 32.
Definition sample_env : Env :=
  mkEnv (fun choices => if (length choices <? 2)%nat then [0; 1; 2]%nat else [0; 2]%nat) (fun _ => [(1, KSend, 0%nat, None)]).

Lemma choice_in_range_witness : exists i s',
  choose flat_digest (fun x => x) (with_fallback (Pct 2) [] Random) [4; 5; 6]%nat 0 = Some (i, s') /\ (i < 3)%nat.
Proof.
  destruct (choose flat_digest (fun x => x) (with_fallback (Pct 2) [] Random) [4; 5; 6]%nat 0) as [[i s']|] eqn:E; [|vm_compute in E; discriminate E].
  exists i, s'. split; [reflexivity|]. apply (choice_in_range _ _ _ _ _ _ _ E).
Defined.

Definition sample_choices : list nat :=
  match run_steps flat_digest (fun x => x) sample_env 4 (with_fallback (Pct 2) [] Random) [] with Some (cs, _) => cs | None => [] end.

Lemma replay_reproduces_witness : exists s',
  run_steps flat_digest (fun x => x) sample_env 4 (with_fallback_strict Replay sample_choices Random) [] = Some (sample_choices, s')
  /\ violation s' = None.
Proof.
  destruct (run_steps flat_digest (fun x => x) sample_env 4 (with_fallback (Pct 2) [] Random) []) as [[cs s]|] eqn:E; [|vm_compute in E; discriminate E].
  destruct (replay_reproduces _ _ _ _ _ _ _ _ _ E) as [_ H]. destruct (H true Random) as (s' & Hr & Hv & _).
  exists s'. unfold sample_choices. rewrite E. split; [exact Hr | exact Hv].
Defined.

Lemma pct_within_budget_witness : exists cs s,
  run_steps flat_digest (fun x => x) sample_env 4 (with_fallback (Pct 2) [] Random) [] = Some (cs, s) /\ (pct_preemptions s <= 2)%nat.
Proof.
  destruct (run_steps flat_digest (fun x => x) sample_env 4 (with_fallback (Pct 2) [] Random) []) as [[cs s]|] eqn:E; [|vm_compute in E; discriminate E].
  exists cs, s. split; [reflexivity|]. apply (pct_within_budget _ _ _ _ _ _ _ _ _ E).
Defined.
