(* ===== verification/SimFs.v ===== *)
(** * The simulated file system

    Models [ledger-sim/src/simfs.rs]: sparse byte files with write provenance over a durable
    snapshot, path-level and store-level fsync, rename, budgets, and the crash operators.  Paths are
    the bytes of the [&str] arguments.  Every operation that journals takes the journal state and the
    [base_unique] flag of [Journal::append].  [journaling] is the feature [sim-fs-journaling]. *)

From S2P Require Import Prelude Machine Cbor Limits Path Hex Entry OrdMap Clock Dag KeyMap.

Open Scope Z_scope.

Inductive SimFsError : Type :=
| AlreadyExists (path : list byte)
| NotFound (path : list byte)
| WriteTooLarge (actual max : Z)
| ReadTooLarge (actual max : Z)
| FileExtentTooLarge (max : Z)
| BudgetExhausted (what : string)
| UnknownWriteTarget
| UnaddressablePath (path : list byte)
| EmptyXor
| BitOutOfRange (bit : Z)
| FsJournal (err : JournalError).

(** [JournalError::InvalidPayload] with the text of the cause, for the scalar operations. *)
Inductive ScalarError : Type := InvalidPayloadText (cause : SimFsError).
Definition into_journal (e : SimFsError) : ScalarError := InvalidPayloadText e.

Inductive PageState : Type := Clean | Dirty | Allocated.
Inductive JournalingMode : Type := Writeback | Ordered | Data.

Record ByteRange : Type := mkRange { content : list byte; write_id : EntryHash; rstate : PageState }.

Record File : Type := mkFile {
  cache : list (Z * ByteRange);
  durable : list (Z * ByteRange);
  flength : Z;
  created_by : option EntryHash;
  durable_exists : bool }.

Definition file_default : File := mkFile [] [] 0 None false.

Definition range_len (r : ByteRange) : Z := Z.of_nat (length (content r)).
Definition range_end (e : Z * ByteRange) : Z := saturating_add e.1 (range_len e.2).

Definition persist (f : File) : File :=
  mkFile (cache f) (map (fun e => (e.1, mkRange (content e.2) (write_id e.2) Clean)) (cache f)) (flength f) (created_by f) true.

Definition max_end (m : list (Z * ByteRange)) : Z := foldr (fun e acc => Z.max (range_end e) acc) 0 m.

Definition recompute_length (f : File) : File :=
  mkFile (cache f) (durable f) (max_end (cache f)) (created_by f) (durable_exists f).

(** [drop_unsynced]: the restored file, or nothing when it does not survive. *)
Definition drop_unsynced (f : File) : option File :=
  if durable_exists f
  then Some (recompute_length (mkFile (durable f) (durable f) (flength f) (created_by f) (durable_exists f)))
  else None.

Record SimFs : Type := mkFs {
  files : list (list byte * File);
  max_file_extent : Z;
  max_resident_bytes : option Z;
  fs_journal : list (list byte * list (Z * EntryHash));
  pending_renames : list (list byte * list byte);
  journal_mode : JournalingMode }.

Definition with_files (fs : SimFs) (fl : list (list byte * File)) : SimFs :=
  mkFs fl (max_file_extent fs) (max_resident_bytes fs) (fs_journal fs) (pending_renames fs) (journal_mode fs).

Definition fs_new : SimFs := mkFs [] MAX_FILE_EXTENT_HARD None [] [] Data.
Definition with_budgets (extent : Z) (resident : option Z) : SimFs :=
  mkFs [] (Z.min extent MAX_FILE_EXTENT_HARD) resident [] [] Data.

(** [file_mut]. *)
Definition file_at (fs : SimFs) (key : list byte) : File :=
  match kget key (files fs) with Some f => f | None => file_default end.

(** ** Budgets *)

Definition RANGE_OVERHEAD : Z := 64.
Definition PATH_OVERHEAD : Z := 128.

Definition sum_Z (l : list Z) : Z := foldr Z.add 0 l.
Definition resident_content (fs : SimFs) : Z :=
  sum_Z (map (fun f => sum_Z (map (fun e => range_len e.2) (cache f.2))) (files fs)).
Definition resident_nodes (fs : SimFs) : Z := sum_Z (map (fun f => Z.of_nat (length (cache f.2))) (files fs)).

Definition charge_resident (fs : SimFs) (additional_bytes : Z) (new_range new_path : bool) : result SimFsError unit :=
  match max_resident_bytes fs with
  | None => Ok tt
  | Some budget =>
      let charged :=
        saturating_add
          (saturating_add (saturating_add (resident_content fs) additional_bytes)
             (saturating_mul (saturating_add (resident_nodes fs) (if new_range then 1 else 0)) RANGE_OVERHEAD))
          (saturating_mul (saturating_add (Z.of_nat (length (files fs))) (if new_path then 1 else 0)) PATH_OVERHEAD) in
      if (budget <? charged)%Z then Err (BudgetExhausted "resident byte budget") else Ok tt
  end.

(** ** The page cache *)

Definition affected (window_start window_end : Z) (m : list (Z * ByteRange)) : list (Z * ByteRange) :=
  List.filter (fun e => (e.1 <? Z.max window_end 1)%Z && (window_start <? range_end e)%Z) m.

(** The parts of an affected range that the window leaves. *)
Definition pieces (window_start window_end : Z) (e : Z * ByteRange) : list (Z * EntryHash * list byte) :=
  let '(range_start, range) := e in
  (if (range_start <? window_start)%Z then
     let left_len := Z.to_nat (window_start - range_start) in
     if (0 <? left_len)%nat then [(range_start, write_id range, take (left_len `min` length (content range)) (content range))] else []
   else [])
  ++
  (if (window_end <? range_end e)%Z then
     let right_start := Z.to_nat (window_end - range_start) in
     if (right_start <? length (content range))%nat then [(window_end, write_id range, drop right_start (content range))] else []
   else []).

Definition oremove (k : Z) (m : list (Z * ByteRange)) : list (Z * ByteRange) := List.filter (fun e => negb (e.1 =? k)%Z) m.

(** The body of [write_bytes] on the cache of the file. *)
Definition write_cache (m : list (Z * ByteRange)) (offset : Z) (bytes : list byte) (id : EntryHash) : list (Z * ByteRange) :=
  let window_end := offset + Z.of_nat (length bytes) in
  let hit := affected offset window_end m in
  let m := foldl (fun m e => oremove e.1 m) m hit in
  let splits := concat (map (pieces offset window_end) hit) in
  let m := foldl (fun m p => oinsert p.1.1 (mkRange p.2 p.1.2 Dirty) m) m splits in
  oinsert offset (mkRange bytes id Dirty) m.

(** The loop of [read_bytes]: the bytes so far, the writers seen and the cursor. *)
Definition read_step (window_end : Z) (acc : list byte * list (list byte * unit) * Z) (e : Z * ByteRange) :
    list byte * list (list byte * unit) * Z :=
  let '(out, parents, cursor) := acc in
  let '(range_start, range) := e in
  if (range_end e <=? cursor)%Z then acc
  else
    let '(out, cursor) :=
      if (cursor <? range_start)%Z
      then (out ++ repeat x00 (Z.to_nat (range_start - cursor)), range_start) else (out, cursor) in
    let copy_from := cursor - range_start in
    let copy_len := saturating_sub (Z.min (range_end e) window_end) cursor in
    (out ++ take (Z.to_nat copy_len) (drop (Z.to_nat copy_from) (content range)),
     kset_insert (write_id range) parents, saturating_add cursor copy_len).

(** [offset + 1] wraps in a release build. *)
Definition read_file (f : File) (offset requested_len : Z) : list byte * list EntryHash :=
  let available := saturating_sub (flength f) offset in
  let n := Z.min available requested_len in
  let window_end := saturating_add offset n in
  let bound := Z.max window_end ((offset + 1) mod (u64_max + 1)) in
  let '(out, parents, cursor) :=
    foldl (read_step window_end) ([], [], offset) (List.filter (fun e => (e.1 <? bound)%Z) (cache f)) in
  let out := if (cursor <? window_end)%Z then out ++ repeat x00 (Z.to_nat (window_end - cursor)) else out in
  let parent_list := kset_elems parents in
  (out, match parent_list, created_by f with [], Some created => [created] | _, _ => parent_list end).

Section Ops.
Variable blake3 : list byte -> list byte.
Variable journaling : bool.
Variable base_unique : bool.

(** ** Paths *)

Definition PATH_DOMAIN : list byte := bytes_of_string "ldgr.fs.path.v2" ++ [x00].
Definition PATH_HASH_LEN : nat := 32.

Definition path_ref (path : list byte) : PathRef :=
  let canonical := match canonicalize path with Ok c => c | Err _ => path end in
  mkPathRef (take PATH_HASH_LEN (blake3 (PATH_DOMAIN ++ canonical))) canonical.

Definition canonical_key (path : list byte) : list byte :=
  let c := canonical_path (path_ref path) in if from_utf8 c then c else path.

Definition journal_append (j : JournalState) (kind : EntryKind) (actor : Z) (parents : list EntryHash) (p : EntryPayload) :
    result SimFsError (EntryHash * JournalState) :=
  map_err FsJournal (append blake3 base_unique j kind actor parents p).

(** ** Operations *)

Definition write_bytes (fs : SimFs) (j : JournalState) (actor : Z) (path : list byte) (offset : Z) (bytes : list byte) :
    result SimFsError (EntryHash * SimFs * JournalState) :=
  let len := Z.of_nat (length bytes) in
  if (MAX_WRITE_BYTES <? len)%Z then Err (WriteTooLarge len MAX_WRITE_BYTES)
  else
    let? window_end := ok_or (checked_add offset len) (FileExtentTooLarge (max_file_extent fs)) in
    if (max_file_extent fs <? window_end)%Z then Err (FileExtentTooLarge (max_file_extent fs))
    else
      let key := canonical_key path in
      let exists_ := match kget key (files fs) with Some _ => true | None => false end in
      let? _ := charge_resident fs len (negb exists_ || (0 <? len)%Z) (negb exists_) in
      let? '(id, j) := journal_append j KFsWrite actor [] (PFsWrite (FsWriteAt (path_ref path) offset bytes)) in
      if (len =? 0)%Z then Ok (id, fs, j)
      else
        let file := file_at fs key in
        let file := mkFile (write_cache (cache file) offset bytes id) (durable file) (Z.max (flength file) window_end)
                      (if exists_ then created_by file else Some id) (durable_exists file) in
        let fs := with_files fs (kinsert key file (files fs)) in
        let pending := match kget key (fs_journal fs) with Some l => l | None => [] end in
        let fs := if journaling
                  then mkFs (files fs) (max_file_extent fs) (max_resident_bytes fs)
                         (kinsert key (pending ++ [(offset, id)]) (fs_journal fs)) (pending_renames fs) (journal_mode fs)
                  else fs in
        Ok (id, fs, j).

Definition write (fs : SimFs) (j : JournalState) (actor : Z) (path : list byte) (value : Z) :
    result ScalarError (EntryHash * SimFs * JournalState) :=
  map_err into_journal (write_bytes fs j actor path 0 (to_le_bytes 8 value)).

Definition allocate (fs : SimFs) (j : JournalState) (actor : Z) (path : list byte) :
    result SimFsError (EntryHash * SimFs * JournalState) :=
  let key := canonical_key path in
  match kget key (files fs) with
  | Some _ => Err (AlreadyExists path)
  | None =>
      let? _ := charge_resident fs 0 true true in
      let? '(id, j) := journal_append j KFsWrite actor [] (PFsWrite (FsAllocate (path_ref path))) in
      Ok (id, with_files fs (kinsert key (mkFile [] [] 0 (Some id) false) (files fs)), j)
  end.

Definition read_bytes (fs : SimFs) (j : JournalState) (actor : Z) (path : list byte) (offset requested : Z) :
    result SimFsError (ObservedRead * JournalState) :=
  if (MAX_READ_BYTES <? requested)%Z then Err (ReadTooLarge requested MAX_READ_BYTES)
  else
    match kget (canonical_key path) (files fs) with
    | None =>
        let? '(_, j) := journal_append j KFsRead actor [] (PFsRead (mkFsRead (path_ref path) offset requested Missing)) in
        Ok (Missing, j)
    | Some f =>
        let '(out, parents) := read_file f offset requested in
        let? '(_, j) := journal_append j KFsRead actor parents (PFsRead (mkFsRead (path_ref path) offset requested (Present out))) in
        Ok (Present out, j)
    end.

Definition read (fs : SimFs) (j : JournalState) (actor : Z) (path : list byte) : result ScalarError (option Z * JournalState) :=
  let? '(observed, j) := map_err into_journal (read_bytes fs j actor path 0 8) in
  match observed with
  | Missing => Ok (None, j)
  | Present bytes => Ok (Some (from_le_bytes (take 8 bytes)), j)
  end.

(** [Clean] on the journaled ranges that still carry their write. *)
Definition settle_ranges (m : list (Z * ByteRange)) (ranges : list (Z * EntryHash)) : list (Z * ByteRange) :=
  foldl (fun m w => map (fun e => if (e.1 =? w.1)%Z && bool_decide (write_id e.2 = w.2)
                                  then (e.1, mkRange (content e.2) (write_id e.2) Clean) else e) m) m ranges.

Definition settle_file (ranges : list (Z * EntryHash)) (f : File) : File :=
  mkFile (settle_ranges (cache f) ranges) (durable f) (flength f) (created_by f) (durable_exists f).

Definition commit_journal (fs : SimFs) : SimFs :=
  let fl := foldl (fun fl p => kmodify (settle_file p.2) p.1 fl) (files fs) (fs_journal fs) in
  let fl := foldl (fun fl r => match kget r.1 fl with Some f => kinsert r.2 f (kdelete r.1 fl) | None => fl end)
              fl (pending_renames fs) in
  mkFs fl (max_file_extent fs) (max_resident_bytes fs) [] [] (journal_mode fs).

Definition fsync (fs : SimFs) (j : JournalState) (actor : Z) : result SimFsError (EntryHash * SimFs * JournalState) :=
  let? '(id, j) := journal_append j KFsFsync actor [] (PFsFsync (path_ref [x2f])) in
  let fs := if journaling then commit_journal fs else fs in
  Ok (id, with_files fs (kmap persist (files fs)), j).

Definition fsync_path (fs : SimFs) (j : JournalState) (actor : Z) (path : list byte) :
    result SimFsError (EntryHash * SimFs * JournalState) :=
  let key := canonical_key path in
  match kget key (files fs) with
  | None => Err (NotFound path)
  | Some _ =>
      let? '(id, j) := journal_append j KFsFsync actor [] (PFsFsync (path_ref path)) in
      Ok (id, with_files fs (kmodify persist key (files fs)), j)
  end.

Definition rename (fs : SimFs) (j : JournalState) (actor : Z) (from to : list byte) :
    result SimFsError (EntryHash * SimFs * JournalState) :=
  let from_key := canonical_key from in
  let to_key := canonical_key to in
  match kget from_key (files fs) with
  | None => Err (NotFound from)
  | Some file =>
      let? '(id, j) := journal_append j KFsWrite actor [] (PFsWrite (FsRename (path_ref from) (path_ref to))) in
      if bool_decide (from_key = to_key) then Ok (id, fs, j)
      else
        let fs := with_files fs (kinsert to_key file (kdelete from_key (files fs))) in
        let fs := if journaling
                  then mkFs (files fs) (max_file_extent fs) (max_resident_bytes fs) (fs_journal fs)
                         (kinsert from_key to_key (pending_renames fs)) (journal_mode fs)
                  else fs in
        Ok (id, fs, j)
  end.

Definition append_tear (fs : SimFs) (j : JournalState) (actor : Z) (path : list byte) (value : Z) :
    result SimFsError (EntryHash * SimFs * JournalState) :=
  let offset := match kget (canonical_key path) (files fs) with Some f => flength f | None => 0 end in
  write_bytes fs j actor path offset (to_le_bytes 8 value).
End Ops.

(** ** Crash operators *)

(** The distinct keys of [DropPaths]. *)
Fixpoint drop_keys (seen : list (list byte)) (paths : list PathRef) : result SimFsError (list (list byte)) :=
  match paths with
  | [] => Ok []
  | p :: paths =>
      let key := canonical_path p in
      if negb (from_utf8 key) then Err (UnaddressablePath key)
      else if bool_decide (key ∈ seen) then Err (AlreadyExists key)
      else let? keys := drop_keys (key :: seen) paths in Ok (key :: keys)
  end.

Definition drop_path (fl : list (list byte * File)) (key : list byte) : list (list byte * File) :=
  match kget key fl with
  | None => fl
  | Some f => match drop_unsynced f with Some f => kmodify (fun _ => f) key fl | None => kdelete key fl end
  end.

(** Apply [f] to the first range that carries the write, in offset order. *)
Fixpoint on_range (f : ByteRange -> result SimFsError ByteRange) (write_entry : EntryHash) (m : list (Z * ByteRange)) :
    result SimFsError (option (list (Z * ByteRange))) :=
  match m with
  | [] => Ok None
  | (s, r) :: m =>
      if bool_decide (write_id r = write_entry) then let? r := f r in Ok (Some ((s, r) :: m))
      else let? found := on_range f write_entry m in Ok (option_map (cons (s, r)) found)
  end.

(** The same over the files, in path order; [resize] recomputes the length of the file changed. *)
Fixpoint on_write (f : ByteRange -> result SimFsError ByteRange) (resize : bool) (write_entry : EntryHash)
    (fl : list (list byte * File)) : result SimFsError (list (list byte * File)) :=
  match fl with
  | [] => Err UnknownWriteTarget
  | (k, file) :: fl =>
      let? found := on_range f write_entry (cache file) in
      match found with
      | Some m =>
          let file := mkFile m (durable file) (flength file) (created_by file) (durable_exists file) in
          Ok ((k, if resize then recompute_length file else file) :: fl)
      | None => let? fl := on_write f resize write_entry fl in Ok ((k, file) :: fl)
      end
  end.

Definition tear (persisted_prefix : Z) (r : ByteRange) : result SimFsError ByteRange :=
  if (range_len r <? persisted_prefix)%Z then Err UnknownWriteTarget
  else Ok (mkRange (take (Z.to_nat persisted_prefix) (content r)) (write_id r) Dirty).

Definition xor_byte (a b : byte) : byte := z2b (Z.lxor (b2z a) (b2z b)).

Fixpoint xor_prefix (window xor_bytes : list byte) : list byte :=
  match window, xor_bytes with
  | b :: window, x :: xor_bytes => xor_byte b x :: xor_prefix window xor_bytes
  | _, _ => window
  end.

Definition corrupt_at (offset : Z) (xor_bytes : list byte) (r : ByteRange) : result SimFsError ByteRange :=
  if (range_len r <=? offset)%Z then Err UnknownWriteTarget
  else
    let at_ := Z.to_nat offset in
    Ok (mkRange (take at_ (content r) ++ xor_prefix (drop at_ (content r)) xor_bytes) (write_id r) (rstate r)).

Definition apply_crash_operation (fs : SimFs) (op : CrashOperation) : result SimFsError SimFs :=
  match op with
  | DropAllUnsynced => Ok (with_files fs (komap drop_unsynced (files fs)))
  | DropPaths paths => let? keys := drop_keys [] paths in Ok (with_files fs (foldl drop_path (files fs) keys))
  | TornWrite write_entry persisted_prefix =>
      let? fl := on_write (tear persisted_prefix) true write_entry (files fs) in Ok (with_files fs fl)
  | CorruptRange write_entry offset xor_bytes =>
      match xor_bytes with
      | [] => Err EmptyXor
      | _ => let? fl := on_write (corrupt_at offset xor_bytes) false write_entry (files fs) in Ok (with_files fs fl)
      end
  | BitFlip write_entry offset bit =>
      if (7 <? bit)%Z then Err (BitOutOfRange bit)
      else
        let? fl := on_write (corrupt_at offset [z2b (Z.shiftl 1 bit)]) false write_entry (files fs) in Ok (with_files fs fl)
  end.

(** [crash]: the result of the operator, whose error is discarded. *)
Definition crash_fs (fs : SimFs) : SimFs :=
  match apply_crash_operation fs DropAllUnsynced with Ok fs => fs | Err _ => fs end.

Definition crash_journaled (fs : SimFs) : SimFs :=
  let fl := match journal_mode fs with
            | Writeback => foldl (fun fl p => kmodify (fun f => persist (settle_file p.2 f)) p.1 fl) (files fs) (fs_journal fs)
            | _ => files fs
            end in
  crash_fs (mkFs fl (max_file_extent fs) (max_resident_bytes fs) [] [] (journal_mode fs)).

Definition set_journaling_mode (fs : SimFs) (mode : JournalingMode) : SimFs :=
  mkFs (files fs) (max_file_extent fs) (max_resident_bytes fs) (fs_journal fs) (pending_renames fs) mode.
