(* ===== verification/SimFsCache.v ===== *)
(** * The page cache of a simulated file

    The ranges of a file stay ordered and disjoint, a write replaces exactly its window, and a read
    returns the bytes of the window with the writes they come from. *)

From Stdlib Require Import Sorting.Sorted.
From S2P Require Import Prelude Machine Cbor Limits Path Hex Entry OrdMap Clock Dag KeyMap SimFs.

Open Scope Z_scope.

(** ** Ordered maps by membership *)

Lemma ordered_In_inj {V} (m : list (Z * V)) e1 e2 : ordered m -> In e1 m -> In e2 m -> e1.1 = e2.1 -> e1 = e2.
Proof.
  intros Ho H1 H2 E. destruct e1 as [k v1], e2 as [k' v2]. cbn in E. subst k'.
  apply (oget_In k v1 m Ho) in H1. apply (oget_In k v2 m Ho) in H2. congruence.
Qed.

Lemma In_oinsert {V} k v (m : list (Z * V)) e : ordered m -> In e (oinsert k v m) <-> e = (k, v) \/ (In e m /\ e.1 <> k).
Proof.
  intros Ho. destruct e as [k' v']. rewrite <- (oget_In k' v') by (apply ordered_oinsert; done).
  rewrite oget_oinsert by done. destruct (Z.eqb_spec k' k) as [->|Hne].
  - split; [intros [= ->]; tauto|]. intros [[= ->]|[_ H]]; [done | cbn in H; done].
  - rewrite (oget_In k' v' m Ho). cbn. naive_solver.
Qed.

Lemma ordered_filter {V} (p : Z * V -> bool) m : ordered m -> ordered (List.filter p m).
Proof.
  induction m as [|[k v] m IH]; intros Ho; [done|]. apply ordered_cons in Ho as [Ho Ha]. cbn.
  destruct (p (k, v)); [|apply IH; done]. apply ordered_cons. split; [apply IH; done|].
  unfold above in *. rewrite List.Forall_forall in *. intros e He. apply List.filter_In in He as [He _]. apply Ha, He.
Qed.

(** Entries that agree on equal keys can be inserted in any order. *)
Definition consistent {V} (l : list (Z * V)) : Prop := forall e1 e2, In e1 l -> In e2 l -> e1.1 = e2.1 -> e1 = e2.

Lemma In_insert_all {V} (l m : list (Z * V)) : ordered m -> consistent l ->
  ordered (foldl (fun m e => oinsert e.1 e.2 m) m l)
  /\ forall e, In e (foldl (fun m e => oinsert e.1 e.2 m) m l) <-> In e l \/ (In e m /\ ~ In e.1 (map fst l)).
Proof.
  revert m. induction l as [|x l IH]; intros m Ho Hc; cbn; [split; [done | tauto]|].
  destruct (IH (oinsert x.1 x.2 m)) as [IH1 IH2]; [apply ordered_oinsert; done | intros ? ? ? ?; apply Hc; right; done|].
  split; [done|]. intros e. rewrite IH2, In_oinsert by done. destruct x as [k v]. cbn. split.
  - intros [?|[[->|[? ?]] ?]]; [tauto | tauto |]. right. split; [done|]. intros [E|]; [congruence | done].
  - intros [[<-|?]|[? Hn]]; [| tauto | right; split; [right; split; [done | intros E; apply Hn; left; congruence] | tauto]].
    destruct (in_dec Z.eq_dec k (map fst l)) as [Hin|]; [|cbn; tauto]. left.
    apply in_map_iff in Hin as ([k' v'] & E & Hin). cbn in E. subst k'.
    rewrite (Hc (k, v) (k, v')) by (cbn; tauto). done.
Qed.

Lemma In_remove_all (l : list (Z * ByteRange)) m e :
  In e (foldl (fun m x => oremove x.1 m) m l) <-> In e m /\ ~ In e.1 (map fst l).
Proof.
  revert m. induction l as [|x l IH]; intros m; cbn; [tauto|]. rewrite IH. unfold oremove. rewrite List.filter_In.
  destruct (Z.eqb_spec e.1 x.1); cbn; [naive_solver|]. naive_solver.
Qed.

Lemma ordered_remove_all (l : list (Z * ByteRange)) m : ordered m -> ordered (foldl (fun m x => oremove x.1 m) m l).
Proof. revert m. induction l as [|x l IH]; intros m Ho; cbn; [done|]. apply IH, ordered_filter, Ho. Qed.

(** ** Sound caches *)

Definition stop (e : Z * ByteRange) : Z := e.1 + range_len e.2.

Record sound (m : list (Z * ByteRange)) : Prop := {
  sn_ordered : ordered m;
  sn_extent : forall e, In e m -> 0 <= e.1 /\ stop e <= MAX_FILE_EXTENT_HARD;
  sn_apart : forall e1 e2, In e1 m -> In e2 m -> e1.1 < e2.1 -> stop e1 <= e2.1 }.

Lemma sound_nil : sound [].
Proof. split; [constructor | done | done]. Qed.

Lemma stop_end m e : sound m -> In e m -> range_end e = stop e.
Proof.
  intros S H. destruct (sn_extent m S e H). unfold range_end, saturating_add, stop, MAX_FILE_EXTENT_HARD, u64_max in *. lia.
Qed.

(** Two ranges of a cache are the same or apart. *)
Lemma sound_cases m e1 e2 : sound m -> In e1 m -> In e2 m -> e1 = e2 \/ (e1.1 < e2.1 /\ stop e1 <= e2.1) \/ (e2.1 < e1.1 /\ stop e2 <= e1.1).
Proof.
  intros S H1 H2. destruct (Z.lt_total e1.1 e2.1) as [H|[H|H]].
  - right. left. split; [done | apply (sn_apart m S); done].
  - left. apply (ordered_In_inj m); try done. apply S.
  - right. right. split; [done | apply (sn_apart m S); done].
Qed.

Lemma range_len_nonneg r : 0 <= range_len r.
Proof. unfold range_len. lia. Qed.

(** The byte at an offset and the write it comes from. *)
Fixpoint cell (m : list (Z * ByteRange)) (i : Z) : option (byte * EntryHash) :=
  match m with
  | [] => None
  | (s, r) :: m =>
      if (s <=? i)%Z then
        match content r !! Z.to_nat (i - s) with Some b => Some (b, write_id r) | None => cell m i end
      else cell m i
  end.

Definition byte_at (m : list (Z * ByteRange)) (i : Z) : byte := match cell m i with Some (b, _) => b | None => x00 end.

(** The range that holds an offset. *)
Definition holds_at (e : Z * ByteRange) (i : Z) (b : byte) (id : EntryHash) : Prop :=
  e.1 <= i /\ content e.2 !! Z.to_nat (i - e.1) = Some b /\ write_id e.2 = id.

Lemma holds_inside e i b id : holds_at e i b id -> e.1 <= i < stop e.
Proof. intros (H1 & H2%lookup_lt_Some & _). unfold stop, range_len. lia. Qed.

Lemma cell_In m i b id : cell m i = Some (b, id) -> exists e, In e m /\ holds_at e i b id.
Proof.
  induction m as [|[s r] m IH]; cbn; [done|]. intros H.
  destruct (Z.leb_spec s i) as [Hs|Hs]; [destruct (content r !! Z.to_nat (i - s)) as [b'|] eqn:E|].
  - injection H as -> <-. exists (s, r). split; [tauto|]. split_and!; done.
  - destruct (IH H) as (e & ? & ?). eauto.
  - destruct (IH H) as (e & ? & ?). eauto.
Qed.

Lemma In_cell m e i b id : sound m -> In e m -> holds_at e i b id -> cell m i = Some (b, id).
Proof.
  intros S Hin Hh. assert (Hu : forall e', In e' m -> e'.1 <= i < stop e' -> e' = e).
  { intros e' He' Hi. pose proof (holds_inside e i b id Hh).
    destruct (sound_cases m e' e S He' Hin) as [?|[?|?]]; [done | lia | lia]. }
  clear S. induction m as [|[s r] m IH]; [done|]. cbn.
  destruct (Z.leb_spec s i) as [Hs|Hs]; [destruct (content r !! Z.to_nat (i - s)) as [b'|] eqn:E|].
  - specialize (Hu (s, r) (or_introl eq_refl)). cbn in Hu. unfold stop in Hu. cbn in Hu.
    assert (Heq : (s, r) = e).
    { apply Hu. apply lookup_lt_Some in E. unfold range_len. lia. }
    subst e. destruct Hh as (_ & Hb & Hid). cbn in *. congruence.
  - apply IH; [|intros; apply Hu; [right|]; done]. destruct Hin as [<-|]; [|done]. destruct Hh as (_ & Hb & _). cbn in Hb. congruence.
  - apply IH; [|intros; apply Hu; [right|]; done]. destruct Hin as [<-|]; [|done]. destruct Hh as (? & _). cbn in *. lia.
Qed.

Lemma cell_iff m i b id : sound m -> cell m i = Some (b, id) <-> exists e, In e m /\ holds_at e i b id.
Proof. intros S. split; [apply cell_In | intros (e & ? & ?); apply (In_cell m e); done]. Qed.

(** Two caches that agree on what they hold agree on every cell. *)
Lemma cell_ext m1 m2 i : (forall b id, cell m1 i = Some (b, id) <-> cell m2 i = Some (b, id)) -> cell m1 i = cell m2 i.
Proof.
  intros H. destruct (cell m1 i) as [[b id]|] eqn:E; [symmetry; apply H; done|].
  destruct (cell m2 i) as [[b id]|]; [|done]. destruct (H b id) as [_ H']. discriminate (H' eq_refl).
Qed.

(** ** Writing *)

Section Write.
Variable m : list (Z * ByteRange).
Variable offset : Z.
Variable bytes : list byte.
Variable id : EntryHash.
Hypothesis m_sound : sound m.
Hypothesis offset_nonneg : 0 <= offset.
Hypothesis bytes_some : bytes <> [].
Local Abbreviation window_end := (offset + Z.of_nat (length bytes)).
Hypothesis fits : window_end <= MAX_FILE_EXTENT_HARD.

Lemma window_pos : offset < window_end.
Proof. destruct bytes; [done|]. cbn. lia. Qed.

Definition hit (e : Z * ByteRange) : Prop := In e m /\ e.1 < window_end /\ offset < stop e.

Lemma In_affected e : In e (affected offset window_end m) <-> hit e.
Proof.
  pose proof window_pos. unfold affected, hit. rewrite List.filter_In. split.
  - intros [Hin Hb]. bool_hyps. rewrite (stop_end m) in * by done. split_and!; [done | lia | lia].
  - intros (Hin & H1 & H2). split; [done|]. rewrite (stop_end m) by done. apply andb_true_iff. split; lia.
Qed.

(** The ranges the pieces become. *)
Definition rest_of (e : Z * ByteRange) : list (Z * ByteRange) :=
  map (fun p => (p.1.1, mkRange p.2 p.1.2 Dirty)) (pieces offset window_end e).

Lemma In_rest e x : hit e -> In x (rest_of e) <->
  (e.1 < offset /\ x = (e.1, mkRange (take (Z.to_nat (offset - e.1)) (content e.2)) (write_id e.2) Dirty))
  \/ (window_end < stop e /\ x = (window_end, mkRange (drop (Z.to_nat (window_end - e.1)) (content e.2)) (write_id e.2) Dirty)).
Proof.
  intros (Hin & H1 & H2). destruct e as [s r]. cbn [fst snd] in *. unfold rest_of, pieces.
  rewrite (stop_end m) by done. unfold stop, range_len in *. cbn [fst snd] in *.
  rewrite map_app, in_app_iff.
  destruct (Z.ltb_spec s offset); destruct (Z.ltb_spec window_end (s + Z.of_nat (length (content r))));
    repeat (match goal with |- context [(?a <? ?b)%nat] => destruct (Nat.ltb_spec a b); [|lia] end); cbn;
    rewrite ?Nat.min_l by lia; naive_solver lia.
Qed.

Definition all_rests : list (Z * ByteRange) := concat (map rest_of (affected offset window_end m)).

Lemma In_rests x : In x all_rests <-> exists e, hit e /\ In x (rest_of e).
Proof.
  unfold all_rests. rewrite in_concat. split.
  - intros (l & Hl & Hx). apply in_map_iff in Hl as (e & <- & He). exists e. rewrite <- In_affected. done.
  - intros (e & He & Hx). exists (rest_of e). split; [apply in_map, In_affected; done | done].
Qed.

Lemma rests_consistent : consistent all_rests.
Proof.
  intros x y Hx Hy E. pose proof window_pos.
  apply In_rests in Hx as (e1 & He1 & Hx). apply In_rests in Hy as (e2 & He2 & Hy).
  apply In_rest in Hx; [|done]. apply In_rest in Hy; [|done].
  pose proof He1 as (Hi1 & A1 & A2). pose proof He2 as (Hi2 & B1 & B2).
  destruct (sound_cases m e1 e2 m_sound Hi1 Hi2) as [->|Hs].
  - destruct Hx as [[? ->]|[? ->]], Hy as [[? ->]|[? ->]]; cbn in *; try done; lia.
  - destruct Hx as [[? ->]|[? ->]], Hy as [[? ->]|[? ->]]; cbn in *; lia.
Qed.

Lemma write_cache_foldl : write_cache m offset bytes id
  = oinsert offset (mkRange bytes id Dirty)
      (foldl (fun m e => oinsert e.1 e.2 m) (foldl (fun m x => oremove x.1 m) m (affected offset window_end m)) all_rests).
Proof.
  unfold write_cache, all_rests. f_equal. set (m0 := foldl _ m _). clearbody m0.
  assert (E : forall l m0, foldl (fun m p => oinsert p.1.1 (mkRange p.2 p.1.2 Dirty) m) m0 l
    = foldl (fun m e => oinsert e.1 e.2 m) m0 (map (fun p => (p.1.1, mkRange p.2 p.1.2 Dirty)) l)).
  { intros l. induction l as [|p l IH]; intros m1; cbn; [done|]. apply IH. }
  rewrite E, concat_map, map_map. done.
Qed.

Lemma write_cache_ordered : ordered (write_cache m offset bytes id).
Proof.
  rewrite write_cache_foldl. apply ordered_oinsert, (In_insert_all all_rests); [|apply rests_consistent].
  apply ordered_remove_all, m_sound.
Qed.

(** What the cache holds after the write. *)
Lemma In_write_cache x : In x (write_cache m offset bytes id) <->
  x = (offset, mkRange bytes id Dirty)
  \/ (x.1 <> offset /\ ((exists e, hit e /\ In x (rest_of e)) \/ (In x m /\ ~ hit x))).
Proof.
  rewrite write_cache_foldl. pose proof window_pos.
  destruct (In_insert_all all_rests (foldl (fun m x => oremove x.1 m) m (affected offset window_end m))) as [Ho Hi];
    [apply ordered_remove_all, m_sound | apply rests_consistent|].
  rewrite In_oinsert by done. rewrite Hi, In_remove_all, <- In_rests.
  assert (Hnot : In x m -> ~ In x.1 (map fst (affected offset window_end m)) <-> ~ hit x).
  { intros Hx. split; intros Hn Hh; apply Hn.
    - apply in_map, In_affected. done.
    - apply in_map_iff in Hh as (e & E & He). apply In_affected in He. pose proof He as (He' & _).
      rewrite (ordered_In_inj m x e); [done | apply m_sound | done | done | done]. }
  split.
  - intros [->|[[?|[[? Hn] _]] ?]]; [tauto | tauto |]. right. split; [done|]. right. split; [done|]. apply Hnot; done.
  - intros [->|[? [?|[? Hn]]]]; [tauto | tauto |]. right. split; [|done]. right. split; [split; [done | apply Hnot; done]|].
    intros Hk. apply in_map_iff in Hk as (y & E & Hy). apply In_rests in Hy as (e & He & Hy).
    apply In_rest in Hy; [|done]. pose proof He as (He' & E1 & E2).
    destruct (sound_cases m e x m_sound He' H1) as [->|Hs]; [done|].
    destruct Hy as [[? ->]|[? ->]]; cbn in E; lia.
Qed.

(** The same, with the place of every range. *)
Inductive written : Z * ByteRange -> Prop :=
| w_new : written (offset, mkRange bytes id Dirty)
| w_old x : In x m -> (window_end <= x.1 \/ stop x <= offset) -> x.1 <> offset -> written x
| w_left e : In e m -> e.1 < offset -> offset < stop e ->
    written (e.1, mkRange (take (Z.to_nat (offset - e.1)) (content e.2)) (write_id e.2) Dirty)
| w_right e : In e m -> e.1 < window_end -> window_end < stop e ->
    written (window_end, mkRange (drop (Z.to_nat (window_end - e.1)) (content e.2)) (write_id e.2) Dirty).

Lemma In_written x : In x (write_cache m offset bytes id) <-> written x.
Proof.
  pose proof window_pos. rewrite In_write_cache. split.
  - intros [->|[Hne [(e & He & Hx)|[Hin Hn]]]]; [constructor| |].
    + pose proof He as (He' & ? & ?). apply In_rest in Hx as [[? ->]|[? ->]]; [| |done]; constructor; done || lia.
    + apply w_old; try done. destruct (Z.lt_ge_cases x.1 window_end); [|left; lia]. right.
      destruct (Z.lt_ge_cases offset (stop x)); [|lia]. destruct Hn. split_and!; done.
  - intros Hw. inversion Hw as [|y Hin Hp Hne|e Hin H1 H2|e Hin H1 H2]; subst.
    + left. done.
    + right. split; [done|]. right. split; [done|]. unfold hit. intros (_ & ? & ?). lia.
    + right. cbn. split; [lia|]. left. exists e. assert (hit e) by (split_and!; done || lia). split; [done|].
      apply In_rest; [done|]. left. done.
    + right. cbn. split; [lia|]. left. exists e. assert (hit e) by (split_and!; done || lia). split; [done|].
      apply In_rest; [done|]. right. done.
Qed.

Lemma stop_new : stop (offset, mkRange bytes id Dirty) = window_end.
Proof. reflexivity. Qed.

Lemma stop_left e : e.1 < offset -> offset < stop e ->
  stop (e.1, mkRange (take (Z.to_nat (offset - e.1)) (content e.2)) (write_id e.2) Dirty) = offset.
Proof. unfold stop, range_len. cbn. rewrite length_take. lia. Qed.

Lemma stop_right e : e.1 < window_end -> window_end < stop e ->
  stop (window_end, mkRange (drop (Z.to_nat (window_end - e.1)) (content e.2)) (write_id e.2) Dirty) = stop e.
Proof. unfold stop, range_len. cbn. rewrite length_drop. lia. Qed.

Lemma write_cache_sound : sound (write_cache m offset bytes id).
Proof.
  pose proof window_pos. split.
  - apply write_cache_ordered.
  - intros x Hx. apply In_written in Hx. destruct Hx as [|x Hin ? ?|e Hin ? ?|e Hin ? ?].
    + rewrite stop_new. cbn. lia.
    + apply m_sound. done.
    + rewrite stop_left by done. destruct (sn_extent m m_sound e Hin). cbn. lia.
    + rewrite stop_right by done. destruct (sn_extent m m_sound e Hin). cbn. lia.
  - intros x y Hx Hy. apply In_written in Hx, Hy.
    assert (Hlen : forall e, In e m -> e.1 <= stop e) by (intros e _; unfold stop; pose proof (range_len_nonneg e.2); lia).
    destruct Hx as [|x Hx ? ?|e1 Hx ? ?|e1 Hx ? ?], Hy as [|y Hy ? ?|e2 Hy ? ?|e2 Hy ? ?];
      rewrite ?stop_new, ?stop_left, ?stop_right by done; cbn [fst]; try lia;
      try (pose proof (Hlen _ Hx)); try (pose proof (Hlen _ Hy));
      match goal with
      | Hx : In ?a m, Hy : In ?b m |- _ => destruct (sound_cases m a b m_sound Hx Hy) as [->|?]; lia
      | _ => lia
      end.
Qed.

Lemma write_outside i b id' : i < offset \/ window_end <= i ->
  (exists x, In x (write_cache m offset bytes id) /\ holds_at x i b id') <-> (exists x, In x m /\ holds_at x i b id').
Proof.
  intros Hi. split.
  - intros (x & Hx & Hh). pose proof (holds_inside _ _ _ _ Hh) as Hin. apply In_written in Hx.
    destruct Hx as [|x Hx ? ?|e Hx ? ?|e Hx ? ?].
    + rewrite stop_new in Hin. cbn in Hin. lia.
    + exists x. done.
    + exists e. split; [done|]. destruct Hh as (? & Hb & ?). cbn in *. split_and!; [done | | done].
      apply lookup_take_Some in Hb as [Hb _]. done.
    + exists e. split; [done|]. rewrite stop_right in Hin by done. destruct Hh as (? & Hb & ?). cbn in *. split_and!; [lia | | done].
      rewrite lookup_drop in Hb. rewrite <- Hb. f_equal. lia.
  - intros (x & Hx & Hh). pose proof (holds_inside _ _ _ _ Hh) as Hin. pose proof window_pos.
    destruct (Z.lt_ge_cases i offset) as [Hl|Hr].
    + destruct (Z.lt_ge_cases offset (stop x)).
      * eexists. split; [apply In_written, (w_left x); [done | lia | done]|]. destruct Hh as (? & Hb & ?). split_and!; cbn; [done | | done].
        rewrite lookup_take_lt by lia. done.
      * exists x. split; [|done]. apply In_written, w_old; [done | lia | lia].
    + destruct (Z.lt_ge_cases x.1 window_end).
      * eexists. split; [apply In_written, (w_right x); [done | done | lia]|]. destruct Hh as (? & Hb & ?). split_and!; cbn; [lia | | done].
        rewrite lookup_drop, <- Hb. f_equal. lia.
      * exists x. split; [|done]. apply In_written, w_old; [done | lia | lia].
Qed.

(** A write replaces exactly the bytes of its window. *)
Lemma cell_write i : cell (write_cache m offset bytes id) i
  = if (offset <=? i)%Z && (i <? window_end)%Z then (fun b => (b, id)) <$> bytes !! Z.to_nat (i - offset) else cell m i.
Proof.
  pose proof window_pos. pose proof write_cache_sound as S.
  destruct (Z.leb_spec offset i) as [Ho|Ho]; [destruct (Z.ltb_spec i window_end) as [Hw|Hw]|]; cbn [andb].
  - destruct (lookup_lt_is_Some_2 bytes (Z.to_nat (i - offset))) as [b Hb]; [lia|]. rewrite Hb. cbn.
    apply (In_cell _ (offset, mkRange bytes id Dirty)); [done | apply In_written; constructor | split_and!; done].
  - apply cell_ext. intros b id'. rewrite (cell_iff _ _ _ _ S), (cell_iff _ _ _ _ m_sound). apply write_outside. lia.
  - apply cell_ext. intros b id'. rewrite (cell_iff _ _ _ _ S), (cell_iff _ _ _ _ m_sound). apply write_outside. lia.
Qed.
End Write.

(** ** Length *)

Lemma max_end_nonneg m : 0 <= max_end m.
Proof. induction m as [|e m IH]; [done|]. unfold max_end in *. cbn [foldr]. lia. Qed.

Lemma max_end_le m x : 0 <= x -> max_end m <= x <-> forall e, In e m -> range_end e <= x.
Proof.
  intros Hx. induction m as [|e m IH]; cbn; [split; [done | lia]|]. rewrite Z.max_lub_iff, IH. split.
  - intros [? ?] e' [<-|]; auto.
  - intros H. split; [apply H; tauto|]. intros e' ?. apply H. tauto.
Qed.

Lemma In_max_end m e : In e m -> range_end e <= max_end m.
Proof. intros H. apply (max_end_le m (max_end m)); [apply max_end_nonneg | lia | done]. Qed.

Lemma max_end_write m offset bytes id : sound m -> 0 <= offset -> bytes <> [] ->
  offset + Z.of_nat (length bytes) <= MAX_FILE_EXTENT_HARD ->
  max_end (write_cache m offset bytes id) = Z.max (max_end m) (offset + Z.of_nat (length bytes)).
Proof.
  intros S Ho Hb Hf. pose proof (write_cache_sound m offset bytes id S Ho Hb Hf) as S'.
  pose proof (max_end_nonneg m). pose proof (window_pos offset bytes Hb).
  assert (Hin : forall x, written m offset bytes id x -> stop x <= max_end (write_cache m offset bytes id)).
  { intros x Hx. apply (In_written m offset bytes id S Ho Hb Hf) in Hx. rewrite <- (stop_end _ x S' Hx). apply In_max_end. exact Hx. }
  apply Z.le_antisymm.
  - apply max_end_le; [lia|]. intros x Hx. rewrite (stop_end _ x S' Hx).
    apply (In_written m offset bytes id S Ho Hb Hf) in Hx. destruct Hx as [|x Hx ? ?|e Hx ? ?|e Hx ? ?].
    + rewrite stop_new. lia.
    + pose proof (In_max_end m x Hx) as Hm. rewrite (stop_end m) in Hm by done. lia.
    + rewrite stop_left by done. lia.
    + rewrite stop_right by done. pose proof (In_max_end m e Hx) as Hm. rewrite (stop_end m) in Hm by done. lia.
  - pose proof (Hin _ (w_new m offset bytes id)) as Hn. rewrite stop_new in Hn. apply Z.max_lub; [|done].
    apply max_end_le; [lia|]. intros e He. rewrite (stop_end m) by done.
    destruct (Z.lt_ge_cases (offset + Z.of_nat (length bytes)) (stop e)) as [Hs|Hs]; [|lia].
    destruct (Z.lt_ge_cases e.1 (offset + Z.of_nat (length bytes))) as [He1|He1].
    + pose proof (Hin _ (w_right m offset bytes id e He He1 Hs)) as Hr. rewrite stop_right in Hr by done. done.
    + apply Hin, w_old; [done | lia | lia].
Qed.

(** Nothing is held past the length. *)
Lemma cell_past m i : sound m -> max_end m <= i -> cell m i = None.
Proof.
  intros S Hi. destruct (cell m i) as [[b id]|] eqn:E; [|done]. apply cell_In in E as (e & He & Hh).
  apply holds_inside in Hh. pose proof (In_max_end m e He) as H. rewrite (stop_end m) in H by done. lia.
Qed.

(** ** Reading *)

Lemma sound_tail e m : sound (e :: m) -> sound m.
Proof.
  intros [H1 H2 H3]. split.
  - destruct e. apply ordered_cons in H1. tauto.
  - intros x Hx. apply H2. right. done.
  - intros x y Hx Hy. apply H3; right; done.
Qed.

Lemma sound_head e m x : sound (e :: m) -> In x m -> e.1 < x.1 /\ stop e <= x.1.
Proof.
  intros S Hx.
  assert (Hlt : e.1 < x.1).
  { pose proof (sn_ordered _ S) as Ho. destruct e as [k r]. apply ordered_cons in Ho as [_ Ha]. unfold above in Ha.
    rewrite List.Forall_forall in Ha. apply Ha, Hx. }
  split; [done|]. apply (sn_apart _ S); [left; done | right; done | done].
Qed.

Lemma cell_before s r m i : sound ((s, r) :: m) -> i < s -> cell ((s, r) :: m) i = None.
Proof.
  intros S Hi. destruct (cell _ i) as [[b id]|] eqn:E; [|done]. apply cell_In in E as (e & He & Hh).
  apply holds_inside in Hh. destruct He as [<-|He]; [cbn in Hh; lia|]. pose proof (sound_head _ _ _ S He) as [H _]. cbn in H. lia.
Qed.

Lemma cell_after s r m i : stop (s, r) <= i -> cell ((s, r) :: m) i = cell m i.
Proof.
  unfold stop, range_len. cbn [fst snd]. intros Hi. cbn [cell]. destruct (Z.leb_spec s i); [|done].
  rewrite lookup_ge_None_2 by lia. done.
Qed.

Lemma cell_within s r m i : s <= i < stop (s, r) ->
  exists b, content r !! Z.to_nat (i - s) = Some b /\ cell ((s, r) :: m) i = Some (b, write_id r).
Proof.
  unfold stop, range_len. cbn [fst snd]. intros Hi. destruct (lookup_lt_is_Some_2 (content r) (Z.to_nat (i - s))) as [b Hb]; [lia|].
  exists b. split; [done|]. cbn [cell]. destruct (Z.leb_spec s i); [|lia]. rewrite Hb. done.
Qed.

Lemma repeat_lookup {A} (x : A) n k : (k < n)%nat -> repeat x n !! k = Some x.
Proof. revert k. induction n as [|n IH]; intros [|k] Hk; cbn; [lia | lia | done | apply IH; lia]. Qed.

Lemma map_seqZ_zero f a n : (forall i, a <= i < a + n -> f i = x00) -> map f (seqZ a n) = repeat x00 (Z.to_nat n).
Proof.
  intros H. apply list_eq. intros k. destruct (decide (Z.of_nat k < n)) as [Hk|Hk].
  - rewrite list_lookup_fmap, lookup_seqZ_lt by lia. cbn. rewrite H by lia.
    symmetry. apply repeat_lookup. lia.
  - rewrite !lookup_ge_None_2; [done | rewrite repeat_length; lia | rewrite length_map, length_seqZ; lia].
Qed.

Lemma map_seqZ_slice f a n (l : list byte) d : 0 <= n ->
  (forall i, a <= i < a + n -> l !! (d + Z.to_nat (i - a))%nat = Some (f i)) -> map f (seqZ a n) = take (Z.to_nat n) (drop d l).
Proof.
  intros Hn H. apply list_eq. intros k. destruct (decide (Z.of_nat k < n)) as [Hk|Hk].
  - rewrite list_lookup_fmap, lookup_seqZ_lt by lia. cbn. rewrite lookup_take_lt, lookup_drop by lia.
    rewrite <- (H (a + Z.of_nat k)) by lia. f_equal. lia.
  - rewrite !lookup_ge_None_2; [done | rewrite length_take; lia | rewrite length_map, length_seqZ; lia].
Qed.

Definition nonempty (m : list (Z * ByteRange)) : Prop := forall e, In e m -> content e.2 <> [].

(** One range that reaches past the cursor. *)
Lemma read_step_visit w s r l out ps c : sound ((s, r) :: l) -> w <= u64_max -> 0 <= c <= w -> s < w \/ s <= c -> c < stop (s, r) ->
  read_step w (out, ps, c) (s, r)
    = (out ++ map (byte_at ((s, r) :: l)) (seqZ c (Z.min (stop (s, r)) w - c)), kset_insert (write_id r) ps, Z.min (stop (s, r)) w).
Proof.
  intros S Hw Hc Hs Hv. unfold read_step.
  assert (Hend : range_end (s, r) = stop (s, r)) by (apply (stop_end _ _ S); left; done). rewrite Hend.
  destruct (Z.leb_spec (stop (s, r)) c); [lia|]. assert (Hss : s <= stop (s, r)) by (unfold stop; cbn; pose proof (range_len_nonneg r); lia).
  assert (Hcopy : forall c1, s <= c1 -> c1 <= Z.min (stop (s, r)) w ->
    map (byte_at ((s, r) :: l)) (seqZ c1 (Z.min (stop (s, r)) w - c1))
    = take (Z.to_nat (saturating_sub (Z.min (stop (s, r)) w) c1)) (drop (Z.to_nat (c1 - s)) (content r))).
  { intros c1 H1 H2. unfold saturating_sub. rewrite Z.max_r by lia. apply map_seqZ_slice; [lia|]. intros i Hi.
    destruct (cell_within s r l i) as (b & Hb & Hcell); [lia|]. unfold byte_at. rewrite Hcell, <- Hb. f_equal. lia. }
  destruct (Z.ltb_spec c s) as [Hlt|Hge].
  - rewrite <- Hcopy by lia. unfold saturating_add, saturating_sub. f_equal; [f_equal|lia]. rewrite <- app_assoc. f_equal.
    replace (Z.min (stop (s, r)) w - c) with (s - c + (Z.min (stop (s, r)) w - s)) by lia.
    rewrite seqZ_app, map_app by lia. replace (c + (s - c)) with s by lia. f_equal.
    symmetry. apply map_seqZ_zero. intros i Hi. unfold byte_at. rewrite cell_before; [done | done | lia].
  - rewrite <- Hcopy by lia. unfold saturating_add, saturating_sub. f_equal. lia.
Qed.

(** The loop over the ranges of the window: the bytes up to the final cursor, nothing held after it,
    and the writes of the ranges past the first cursor. *)
Lemma read_loop w l : w <= u64_max -> sound l -> forall out ps c, 0 <= c <= w -> (forall e, In e l -> e.1 < w \/ e.1 <= c) ->
  exists ps' c', foldl (read_step w) (out, ps, c) l = (out ++ map (byte_at l) (seqZ c (c' - c)), ps', c')
    /\ c <= c' <= w /\ (forall i, c' <= i < w -> cell l i = None)
    /\ (nonempty l -> forall p, In p (kset_elems ps') <-> In p (kset_elems ps) \/ exists e, In e l /\ c < stop e /\ write_id e.2 = p).
Proof.
  intros Hw. induction l as [|[s r] l IH]; intros S out ps c Hc Hl.
  { exists ps, c. cbn. rewrite Z.sub_diag. cbn. rewrite app_nil_r. split_and!; [done | lia | lia | done |]. naive_solver. }
  pose proof (sound_tail _ _ S) as S'. cbn [foldl].
  assert (Hend : range_end (s, r) = stop (s, r)) by (apply (stop_end _ _ S); left; done).
  assert (Hsub : nonempty ((s, r) :: l) -> nonempty l) by (intros H e He; apply H; right; done).
  destruct (Z.leb_spec (stop (s, r)) c) as [Hskip|Hvisit].
  - unfold read_step at 2. rewrite Hend, (proj2 (Z.leb_le _ _)) by done.
    destruct (IH S' out ps c Hc) as (ps' & c' & -> & Hc' & Hn & Hp); [intros e He; apply Hl; right; done|].
    exists ps', c'. split_and!; [|lia|lia| |].
    + rewrite (map_ext_in (byte_at ((s, r) :: l)) (byte_at l)); [done|]. intros i Hi%list_elem_of_In%elem_of_seqZ. unfold byte_at. rewrite cell_after by lia. done.
    + intros i Hi. rewrite cell_after by lia. apply Hn. done.
    + intros Hne p. rewrite (Hp (Hsub Hne)). split; intros [?|(e & He & ? & ?)]; [tauto | right; exists e; cbn; tauto | tauto |].
      destruct He as [<-|He]; [lia | right; exists e; tauto].
  - rewrite (read_step_visit w s r l) by (try done; apply (Hl (s, r)); left; done).
    set (c2 := Z.min (stop (s, r)) w). assert (Hs : s < w \/ s <= c) by (apply (Hl (s, r)); left; done).
    destruct (IH S' (out ++ map (byte_at ((s, r) :: l)) (seqZ c (c2 - c))) (kset_insert (write_id r) ps) c2)
      as (ps' & c' & -> & Hc' & Hn & Hp); [lia | intros e He; destruct (Hl e (or_intror He)); [left | right]; lia |].
    exists ps', c'. split_and!; [|lia|lia| |].
    + rewrite <- app_assoc. do 3 f_equal. replace (c' - c) with (c2 - c + (c' - c2)) by lia.
      rewrite seqZ_app, map_app by lia. f_equal. replace (c + (c2 - c)) with c2 by lia.
      rewrite (map_ext_in (byte_at ((s, r) :: l)) (byte_at l)); [done|].
      intros i Hi%list_elem_of_In%elem_of_seqZ. unfold byte_at. rewrite cell_after; [done | lia].
    + intros i Hi. rewrite cell_after by lia. apply Hn. done.
    + intros Hne p. rewrite (Hp (Hsub Hne)), kset_insert_elems. split.
      * intros [[->|?]|(e & He & ? & ?)]; [right; exists (s, r); cbn; tauto | tauto | right; exists e; cbn; split_and!; [tauto | lia | done]].
      * intros [?|(e & [<-|He] & ? & <-)]; [tauto | cbn; tauto |]. right. exists e. split_and!; [done | | done].
        pose proof (sound_head _ _ _ S He) as [_ Hh]. assert (0 < range_len e.2).
        { unfold range_len. destruct (content e.2) eqn:E; [destruct (Hne e (or_intror He)); done | cbn; lia]. }
        unfold stop in *. lia.
Qed.
