(* ===== verification/SimFsProofs.v ===== *)
(** * The simulated file system as byte files

    - An abstract file system: every path has its bytes and, once synced, the bytes a crash restores.
    - Each operation of the simulated one refines the abstract one, errors and budgets apart.
    - Reads return the bytes of the file and journal the writes they come from. *)

From S2P Require Import Prelude Machine Cbor Limits Path Hex Entry OrdMap Clock Dag KeyMap SimFs SimFsCache.

Open Scope Z_scope.

(** ** Files *)

Record file_ok (f : File) : Prop := {
  fo_cache : sound (cache f);
  fo_durable : sound (durable f);
  fo_length : flength f = max_end (cache f) }.

Definition bytes_of (m : list (Z * ByteRange)) : list byte := map (byte_at m) (seqZ 0 (max_end m)).
Definition contents (f : File) : list byte := bytes_of (cache f).

Lemma length_bytes_of m : length (bytes_of m) = Z.to_nat (max_end m).
Proof. unfold bytes_of. rewrite length_map, length_seqZ. done. Qed.

Lemma lookup_bytes_of m i : (i < Z.to_nat (max_end m))%nat -> bytes_of m !! i = Some (byte_at m (Z.of_nat i)).
Proof. intros H. unfold bytes_of. rewrite list_lookup_fmap, lookup_seqZ_lt by lia. done. Qed.

Lemma max_end_extent m : sound m -> max_end m <= MAX_FILE_EXTENT_HARD.
Proof.
  intros S. apply max_end_le; [unfold MAX_FILE_EXTENT_HARD; lia|]. intros e He. rewrite (stop_end m) by done. apply S, He.
Qed.

Lemma file_default_ok : file_ok file_default.
Proof. split; [apply sound_nil | apply sound_nil | done]. Qed.

(** Changing only the page state of ranges. *)
Section Restate.
Variable g : Z * ByteRange -> Z * ByteRange.
Hypothesis same : forall e, (g e).1 = e.1 /\ content (g e).2 = content e.2 /\ write_id (g e).2 = write_id e.2.

Lemma restate_stop e : stop (g e) = stop e /\ range_end (g e) = range_end e.
Proof. destruct (same e) as (E1 & E2 & _). unfold stop, range_end, range_len. rewrite E1, E2. done. Qed.

Lemma restate_max_end m : max_end (map g m) = max_end m.
Proof.
  unfold max_end. induction m as [|e m IH]; [done|]. cbn [map foldr]. destruct (restate_stop e) as [_ ->].
  f_equal. exact IH.
Qed.

Lemma restate_cell m i : cell (map g m) i = cell m i.
Proof.
  induction m as [|[s r] m IH]; [done|]. cbn [map]. destruct (same (s, r)) as (E1 & E2 & E3).
  destruct (g (s, r)) as [s' r']. cbn [cell fst snd] in *. rewrite IH, E1, E2, E3. done.
Qed.

Lemma restate_sound m : sound m -> sound (map g m).
Proof.
  intros [H1 H2 H3]. split.
  - clear H2 H3. induction m as [|[s r] m IH]; [constructor|]. apply ordered_cons in H1 as [Ho Ha]. cbn [map].
    destruct (same (s, r)) as (E1 & _). destruct (g (s, r)) as [s' r']. cbn in E1. subst s'. apply ordered_cons.
    split; [apply IH; done|]. unfold above in *. apply List.Forall_map. eapply List.Forall_impl; [|exact Ha].
    intros e He. destruct (same e) as [-> _]. done.
  - intros e He. apply in_map_iff in He as (e0 & <- & He0). destruct (restate_stop e0) as [-> _], (same e0) as [-> _]. apply H2, He0.
  - intros e1 e2 He1 He2. apply in_map_iff in He1 as (x1 & <- & Hx1), He2 as (x2 & <- & Hx2).
    destruct (restate_stop x1) as [-> _], (same x1) as [-> _], (same x2) as [-> _]. apply H3; done.
Qed.

Lemma restate_bytes m : bytes_of (map g m) = bytes_of m.
Proof. unfold bytes_of. rewrite restate_max_end. apply map_ext. intros i. unfold byte_at. rewrite restate_cell. done. Qed.
End Restate.

(** ** Reading *)

Lemma sound_filter p m : sound m -> sound (List.filter p m).
Proof.
  intros [H1 H2 H3]. split; [apply ordered_filter; done | |].
  - intros e [He _]%List.filter_In. apply H2, He.
  - intros e1 e2 [He1 _]%List.filter_In [He2 _]%List.filter_In. apply H3; done.
Qed.

Lemma cell_filter m bound i : sound m -> i < bound -> cell (List.filter (fun e => (e.1 <? bound)%Z) m) i = cell m i.
Proof.
  intros S Hi. apply cell_ext. intros b id. rewrite !cell_iff by (try apply sound_filter; done). split.
  - intros (e & [He _]%List.filter_In & Hh). eauto.
  - intros (e & He & Hh). exists e. split; [|done]. apply List.filter_In. split; [done|].
    pose proof (holds_inside _ _ _ _ Hh). apply Z.ltb_lt. lia.
Qed.

(** How many bytes a read returns, and the end of its window. *)
Definition read_len (f : File) (offset requested : Z) : Z := Z.min (saturating_sub (flength f) offset) requested.

Lemma read_len_range f offset requested : file_ok f -> is_u64 offset -> 0 <= requested ->
  0 <= read_len f offset requested /\ (0 < read_len f offset requested -> offset + read_len f offset requested <= max_end (cache f))
  /\ saturating_add offset (read_len f offset requested) = offset + read_len f offset requested.
Proof.
  intros F Ho Hr. pose proof (max_end_extent _ (fo_cache f F)) as Hm. pose proof (max_end_nonneg (cache f)).
  unfold is_u64, read_len, saturating_sub, saturating_add, MAX_FILE_EXTENT_HARD, u64_max in *. rewrite (fo_length f F). lia.
Qed.

(** The result of a read: the bytes of the window and the writers of the ranges that meet it. *)
Lemma read_file_spec f offset requested : file_ok f -> is_u64 offset -> 0 <= requested ->
  let n := read_len f offset requested in
  exists writers, read_file f offset requested
      = (map (byte_at (cache f)) (seqZ offset n), match writers, created_by f with [], Some created => [created] | _, _ => writers end)
    /\ (nonempty (cache f) -> 0 < n -> forall p, In p writers <-> exists e, In e (cache f) /\ e.1 < offset + n /\ offset < stop e /\ write_id e.2 = p).
Proof.
  intros F Ho Hr n. destruct (read_len_range f offset requested F Ho Hr) as (H0 & Hle & Hs).
  unfold read_file. fold (read_len f offset requested). rewrite Hs. fold n in H0, Hle, Hs. fold n.
  set (bound := Z.max (offset + n) ((offset + 1) mod (u64_max + 1))).
  set (l := List.filter _ (cache f)). assert (Sl : sound l) by (apply sound_filter, F).
  pose proof (max_end_extent _ (fo_cache f F)) as Hm.
  assert (Hu : offset + n <= u64_max).
  { unfold is_u64, MAX_FILE_EXTENT_HARD, u64_max in *. destruct (Z.eq_dec n 0); lia. }
  assert (Hmod : (offset + 1) mod (u64_max + 1) <= offset + 1) by (apply Z.mod_le; unfold is_u64, u64_max in *; lia).
  destruct (read_loop (offset + n) l Hu Sl [] [] offset) as (ps & c & -> & Hc & Hn & Hp).
  { unfold is_u64 in Ho. lia. }
  { intros e [_ He]%List.filter_In. apply Z.ltb_lt in He. lia. }
  cbn [app]. assert (Hall : (if (c <? offset + n)%Z then map (byte_at l) (seqZ offset (c - offset)) ++ repeat x00 (Z.to_nat (offset + n - c))
    else map (byte_at l) (seqZ offset (c - offset))) = map (byte_at (cache f)) (seqZ offset n)).
  { rewrite (map_ext_in (byte_at (cache f)) (byte_at l) (seqZ offset n)).
    2:{ intros i Hi%list_elem_of_In%elem_of_seqZ. unfold byte_at, l. rewrite cell_filter; [done | apply F | lia]. }
    destruct (Z.ltb_spec c (offset + n)) as [Hlt|Hge].
    - replace n with (c - offset + (offset + n - c)) at 2 by lia. rewrite seqZ_app, map_app by lia. f_equal.
      replace (offset + (c - offset)) with c by lia. symmetry. apply map_seqZ_zero. intros i Hi. unfold byte_at. rewrite Hn by lia. done.
    - do 2 f_equal. lia. }
  rewrite Hall. exists (kset_elems ps). split; [done|]. intros Hne Hpos p. rewrite Hp.
  2:{ intros e [He _]%List.filter_In. apply Hne, He. }
  assert (Hb : bound = offset + n) by lia. split.
  - intros [[]|(e & [He Hlt]%List.filter_In & ? & ?)]. exists e. apply Z.ltb_lt in Hlt. split_and!; try done. lia.
  - intros (e & He & ? & ? & ?). right. exists e. split_and!; try done. apply List.filter_In. split; [done|]. apply Z.ltb_lt. lia.
Qed.

Lemma read_file_bytes f offset requested : file_ok f -> is_u64 offset -> 0 <= requested ->
  (read_file f offset requested).1 = take (Z.to_nat requested) (drop (Z.to_nat offset) (contents f)).
Proof.
  intros F Ho Hr. destruct (read_file_spec f offset requested F Ho Hr) as (w & -> & _). cbn [fst].
  destruct (read_len_range f offset requested F Ho Hr) as (H0 & Hle & _). unfold is_u64 in Ho. unfold contents.
  apply list_eq. intros k. destruct (decide (Z.of_nat k < read_len f offset requested)) as [Hk|Hk].
  - rewrite list_lookup_fmap, lookup_seqZ_lt by lia. cbn. assert (read_len f offset requested <= requested) by (unfold read_len; lia).
    rewrite lookup_take_lt, lookup_drop, lookup_bytes_of by lia. do 2 f_equal. lia.
  - rewrite !lookup_ge_None_2; [done | | rewrite length_map, length_seqZ; lia].
    rewrite length_take, length_drop, length_bytes_of. unfold read_len, saturating_sub in Hk. rewrite (fo_length f F) in Hk. lia.
Qed.

(** The parents of a read that returns bytes: the writers of those bytes, or the creator of the file when all are holes. *)
Lemma read_file_parents f offset requested out parents : file_ok f -> nonempty (cache f) -> is_u64 offset -> 0 <= requested ->
  read_file f offset requested = (out, parents) -> out <> [] -> forall p,
  In p parents <-> (exists i b, offset <= i < offset + Z.of_nat (length out) /\ cell (cache f) i = Some (b, p))
    \/ (created_by f = Some p /\ forall i, offset <= i < offset + Z.of_nat (length out) -> cell (cache f) i = None).
Proof.
  intros F Hne Ho Hr E Hout p. destruct (read_file_spec f offset requested F Ho Hr) as (w & E' & Hw). rewrite E in E'.
  injection E' as -> ->. set (n := read_len f offset requested) in *. pose proof (fo_cache f F) as S.
  assert (Hn : Z.of_nat (length (map (byte_at (cache f)) (seqZ offset n))) = n /\ 0 < n).
  { rewrite length_map, length_seqZ. destruct (seqZ offset n) eqn:Es; [done|]. apply (f_equal length) in Es. rewrite length_seqZ in Es.
    cbn in Es. lia. }
  destruct Hn as [-> Hn]. specialize (Hw Hne Hn).
  assert (Hcell : forall q, In q w <-> exists i b, offset <= i < offset + n /\ cell (cache f) i = Some (b, q)).
  { intros q. rewrite Hw. split.
    - intros (e & He & H1 & H2 & <-). assert (0 < range_len e.2).
      { unfold range_len. destruct (content e.2) eqn:Ec; [destruct (Hne e He); done | cbn; lia]. }
      unfold stop, range_len in *. destruct (lookup_lt_is_Some_2 (content e.2) (Z.to_nat (Z.max e.1 offset - e.1))) as [b Hb]; [lia|].
      exists (Z.max e.1 offset), b. split; [lia|]. apply (In_cell _ e); [done | done | split_and!; [lia | done | done]].
    - intros (i & b & Hi & Hc). apply cell_In in Hc as (e & He & Hh). exists e. pose proof (holds_inside _ _ _ _ Hh).
      destruct Hh as (_ & _ & ?). split_and!; done || lia. }
  destruct w as [|x w].
  - assert (Hnone : forall i, offset <= i < offset + n -> cell (cache f) i = None).
    { intros i Hi. destruct (cell (cache f) i) as [[b q]|] eqn:Ec; [|done]. destruct (proj2 (Hcell q)). eauto. }
    destruct (created_by f) as [c|]; cbn.
    + split; [intros [->|[]]; right; done|]. intros [(i & b & Hi & Hc)|[[= ->] _]]; [rewrite Hnone in Hc by done; done | tauto].
    + split; [intros []|]. intros [(i & b & Hi & Hc)|[? _]]; [rewrite Hnone in Hc by done; done | done].
  - rewrite Hcell. split; [tauto|]. intros [?|[_ Hnone]]; [done|]. destruct (proj1 (Hcell x)) as (i & b & Hi & Hc); [left; done|].
    rewrite Hnone in Hc by done. done.
Qed.

(** ** The abstract file system *)

(** A file: its bytes, and the bytes a crash restores once it was synced. *)
Record AFile : Type := mkAFile { a_bytes : list byte; a_saved : option (list byte) }.

Definition abs_file (f : File) : AFile :=
  mkAFile (contents f) (if durable_exists f then Some (bytes_of (durable f)) else None).

Definition view (fs : SimFs) (k : list byte) : option AFile := option_map abs_file (kget k (files fs)).

Record fs_ok (fs : SimFs) : Prop := {
  fk_sorted : ksorted (files fs);
  fk_files : forall k f, kget k (files fs) = Some f -> file_ok f;
  fk_extent : max_file_extent fs <= MAX_FILE_EXTENT_HARD }.

Definition splice (old : list byte) (offset : nat) (bytes : list byte) : list byte :=
  take offset (old ++ repeat x00 (offset - length old)) ++ bytes ++ drop (offset + length bytes) old.

Definition a_empty : AFile := mkAFile [] None.
Definition a_write (offset : Z) (bytes : list byte) (f : AFile) : AFile :=
  mkAFile (splice (a_bytes f) (Z.to_nat offset) bytes) (a_saved f).
Definition a_sync (f : AFile) : AFile := mkAFile (a_bytes f) (Some (a_bytes f)).
Definition a_crash (f : AFile) : option AFile := option_map (fun s => mkAFile s (Some s)) (a_saved f).

Inductive fs_op : Type :=
| OWrite (path : list byte) (offset : Z) (bytes : list byte)
| OAllocate (path : list byte)
| OFsync
| OFsyncPath (path : list byte)
| ORename (from to : list byte)
| OCrash.

Section Refinement.
Variable blake3 : list byte -> list byte.
Local Abbreviation key := (canonical_key blake3).

(** What an operation does to the abstract file system. *)
Definition spec_op (op : fs_op) (v : list byte -> option AFile) (k : list byte) : option AFile :=
  match op with
  | OWrite path offset bytes =>
      if bool_decide (k = key path) && negb (bool_decide (bytes = []))
      then Some (a_write offset bytes (match v k with Some f => f | None => a_empty end)) else v k
  | OAllocate path => if bool_decide (k = key path) then Some a_empty else v k
  | OFsync => option_map a_sync (v k)
  | OFsyncPath path => if bool_decide (k = key path) then option_map a_sync (v k) else v k
  | ORename from to =>
      if bool_decide (key from = key to) then v k
      else if bool_decide (k = key to) then v (key from) else if bool_decide (k = key from) then None else v k
  | OCrash => match v k with Some f => a_crash f | None => None end
  end.

(** The same operation of the simulator. *)
Definition run_op (journaling base_unique : bool) (actor : Z) (op : fs_op) (fs : SimFs) (j : JournalState) :
    result SimFsError (SimFs * JournalState) :=
  match op with
  | OWrite path offset bytes => let? '(_, fs, j) := write_bytes blake3 journaling base_unique fs j actor path offset bytes in Ok (fs, j)
  | OAllocate path => let? '(_, fs, j) := allocate blake3 base_unique fs j actor path in Ok (fs, j)
  | OFsync => let? '(_, fs, j) := fsync blake3 journaling base_unique fs j actor in Ok (fs, j)
  | OFsyncPath path => let? '(_, fs, j) := fsync_path blake3 base_unique fs j actor path in Ok (fs, j)
  | ORename from to => let? '(_, fs, j) := rename blake3 journaling base_unique fs j actor from to in Ok (fs, j)
  | OCrash => Ok (crash_fs fs, j)
  end.

Definition op_ok (op : fs_op) : Prop := match op with OWrite _ offset _ => 0 <= offset | _ => True end.

(** ** Files under each operation *)

Lemma write_file_ok f offset bytes id created : file_ok f -> 0 <= offset -> bytes <> [] ->
  offset + Z.of_nat (length bytes) <= MAX_FILE_EXTENT_HARD ->
  let f' := mkFile (write_cache (cache f) offset bytes id) (durable f) (Z.max (flength f) (offset + Z.of_nat (length bytes))) created (durable_exists f) in
  file_ok f' /\ abs_file f' = a_write offset bytes (abs_file f).
Proof.
  intros F Ho Hb He f'. pose proof (fo_cache f F) as S. split.
  - split; [apply write_cache_sound; done | apply F | cbn; rewrite max_end_write, (fo_length f F); done].
  - unfold abs_file, a_write. f_equal. unfold contents, splice. cbn [a_bytes cache f'].
    pose proof (max_end_nonneg (cache f)) as H0. pose proof (max_end_write (cache f) offset bytes id S Ho Hb He) as Hm.
    assert (Hlen : length (bytes_of (cache f)) = Z.to_nat (max_end (cache f))) by apply length_bytes_of.
    apply list_eq. intros i. destruct (decide (i < Z.to_nat (max_end (write_cache (cache f) offset bytes id)))%nat) as [Hi|Hi].
    2:{ rewrite !lookup_ge_None_2; [done | | rewrite length_bytes_of; lia].
        rewrite !length_app, length_take, length_drop, length_app, repeat_length, Hlen. lia. }
    rewrite lookup_bytes_of by done. unfold byte_at at 1. rewrite (cell_write (cache f) offset bytes id S Ho Hb He).
    destruct (Z.leb_spec offset (Z.of_nat i)) as [H1|H1]; [destruct (Z.ltb_spec (Z.of_nat i) (offset + Z.of_nat (length bytes))) as [H2|H2]|]; cbn [andb].
    + rewrite lookup_app_r, length_take, length_app, repeat_length, Hlen by (rewrite length_take, length_app, repeat_length, Hlen; lia).
      rewrite lookup_app_l by lia. replace (i - _)%nat with (Z.to_nat (Z.of_nat i - offset)) by lia.
      destruct (lookup_lt_is_Some_2 bytes (Z.to_nat (Z.of_nat i - offset))) as [b Hb']; [lia|]. rewrite Hb'. done.
    + rewrite lookup_app_r, length_take, length_app, repeat_length, Hlen by (rewrite length_take, length_app, repeat_length, Hlen; lia).
      rewrite lookup_app_r by lia. rewrite lookup_drop.
      match goal with |- _ = bytes_of (cache f) !! ?n => replace n with i by lia end. rewrite lookup_bytes_of by lia. done.
    + rewrite lookup_app_l by (rewrite length_take, length_app, repeat_length, Hlen; lia). rewrite lookup_take_lt by lia.
      destruct (decide (i < Z.to_nat (max_end (cache f)))%nat).
      * rewrite lookup_app_l, lookup_bytes_of by lia. done.
      * rewrite lookup_app_r by lia. rewrite repeat_lookup by lia. rewrite cell_past; [done | done | lia].
Qed.

Lemma persist_file_ok f : file_ok f -> file_ok (persist f) /\ abs_file (persist f) = a_sync (abs_file f).
Proof.
  intros F. assert (Hg : forall e : Z * ByteRange, (e.1, mkRange (content e.2) (write_id e.2) Clean).1 = e.1
    /\ content (e.1, mkRange (content e.2) (write_id e.2) Clean).2 = content e.2
    /\ write_id (e.1, mkRange (content e.2) (write_id e.2) Clean).2 = write_id e.2) by done.
  split.
  - split; [apply F | apply restate_sound; [done | apply F] | apply F].
  - unfold abs_file, a_sync, contents. cbn. f_equal. f_equal. apply restate_bytes. done.
Qed.

Lemma drop_file_ok f : file_ok f -> (forall f', drop_unsynced f = Some f' -> file_ok f')
  /\ option_map abs_file (drop_unsynced f) = a_crash (abs_file f).
Proof.
  intros F. unfold drop_unsynced, abs_file, a_crash. destruct (durable_exists f) eqn:E; cbn; [|done]. split.
  - intros f' [= <-]. split; [apply F | apply F | done].
  - done.
Qed.

(** ** The table of files *)

Lemma with_insert_ok fs k f : fs_ok fs -> file_ok f -> fs_ok (with_files fs (kinsert k f (files fs)))
  /\ forall k', view (with_files fs (kinsert k f (files fs))) k' = if bool_decide (k' = k) then Some (abs_file f) else view fs k'.
Proof.
  intros [H1 H2 H3] F. split.
  - split; cbn; [auto with mach | | done]. intros k' f'. rewrite kget_kinsert. case_bool_decide; [intros [= <-]; done | apply H2].
  - intros k'. unfold view. cbn. rewrite kget_kinsert. case_bool_decide; done.
Qed.

Lemma file_at_ok fs k : fs_ok fs -> file_ok (file_at fs k) /\ abs_file (file_at fs k) = match view fs k with Some f => f | None => a_empty end.
Proof.
  intros O. unfold file_at, view. destruct (kget k (files fs)) as [f|] eqn:E; cbn; [split; [apply (fk_files fs O k), E | done]|].
  split; [apply file_default_ok | done].
Qed.

Lemma write_bytes_refines unique fs j actor path offset bytes id fs' j' : fs_ok fs -> 0 <= offset ->
  write_bytes blake3 false unique fs j actor path offset bytes = Ok (id, fs', j') ->
  fs_ok fs' /\ forall k, view fs' k = spec_op (OWrite path offset bytes) (view fs) k.
Proof.
  intros O Ho E. unfold write_bytes in E. case_split_in E; [done|]. unfold checked_add in E.
  destruct (Z.leb_spec (offset + Z.of_nat (length bytes)) u64_max); [|done]. cbn in E.
  case_split_in E; [done|]. destruct (charge_resident _ _ _ _); [|done]. cbn in E.
  destruct (journal_append _ _ _ _ _ _ _) as [[id0 j0]|]; [|done]. cbn in E. bool_hyps. pose proof (fk_extent fs O).
  destruct (Z.eqb_spec (Z.of_nat (length bytes)) 0) as [Hz|Hz].
  - injection E as <- <- <-. destruct bytes; [|cbn in Hz; lia]. split; [done|]. intros k. cbn. rewrite andb_false_r. done.
  - assert (Hb : bytes <> []) by (intros ->; cbn in Hz; lia). destruct (file_at_ok fs (key path) O) as [F Hv].
    injection E as <- <- <-.
    destruct (write_file_ok (file_at fs (key path)) offset bytes id0
      (if match kget (key path) (files fs) with Some _ => true | None => false end then created_by (file_at fs (key path)) else Some id0) F Ho Hb) as [F' A'];
      [lia|]. destruct (with_insert_ok fs (key path) _ O F') as [O' V']. split; [exact O'|]. intros k. rewrite V', A', Hv. cbn.
    case_bool_decide as Ek; cbn; [|done]. subst k. rewrite bool_decide_false by done. done.
Qed.

Lemma allocate_refines unique fs j actor path id fs' j' : fs_ok fs ->
  allocate blake3 unique fs j actor path = Ok (id, fs', j') ->
  fs_ok fs' /\ view fs (key path) = None /\ forall k, view fs' k = spec_op (OAllocate path) (view fs) k.
Proof.
  intros O E. unfold allocate in E. destruct (kget (key path) (files fs)) eqn:Ek; [done|]. destruct (charge_resident _ _ _ _); [|done].
  cbn in E. destruct (journal_append _ _ _ _ _ _ _) as [[id0 j0]|]; [|done]. injection E as <- <- <-.
  destruct (with_insert_ok fs (key path) (mkFile [] [] 0 (Some id0) false) O) as [O' V'].
  { split; [apply sound_nil | apply sound_nil | done]. }
  split; [exact O'|]. split; [unfold view; rewrite Ek; done|]. intros k. rewrite V'. done.
Qed.

Lemma map_files_ok fs g (h : AFile -> AFile) : fs_ok fs -> (forall f, file_ok f -> file_ok (g f) /\ abs_file (g f) = h (abs_file f)) ->
  fs_ok (with_files fs (kmap g (files fs))) /\ forall k, view (with_files fs (kmap g (files fs))) k = option_map h (view fs k).
Proof.
  intros [H1 H2 H3] Hg. split.
  - split; cbn; [auto with mach | | done]. intros k f. rewrite kget_kmap. destruct (kget k (files fs)) eqn:E; [|done]. intros [= <-].
    apply Hg, (H2 _ _ E).
  - intros k. unfold view. cbn. rewrite kget_kmap. destruct (kget k (files fs)) eqn:E; [|done]. cbn. f_equal. apply Hg, (H2 _ _ E).
Qed.

Lemma fsync_path_refines unique fs j actor path id fs' j' : fs_ok fs ->
  fsync_path blake3 unique fs j actor path = Ok (id, fs', j') ->
  fs_ok fs' /\ forall k, view fs' k = spec_op (OFsyncPath path) (view fs) k.
Proof.
  intros [H1 H2 H3] E. unfold fsync_path in E. destruct (kget (key path) (files fs)) as [f|] eqn:Ek; [|done].
  destruct (journal_append _ _ _ _ _ _ _) as [[id0 j0]|]; [|done]. injection E as <- <- <-. split.
  - split; cbn; [auto with mach | | done]. intros k f'. rewrite kget_kmodify. case_bool_decide; [|apply H2]. subst k. rewrite Ek.
    intros [= <-]. apply persist_file_ok, (H2 _ _ Ek).
  - intros k. unfold view. cbn. rewrite kget_kmodify. case_bool_decide; [|done]. subst k. rewrite Ek. cbn. f_equal.
    apply persist_file_ok, (H2 _ _ Ek).
Qed.

Lemma rename_refines unique fs j actor from to id fs' j' : fs_ok fs ->
  rename blake3 false unique fs j actor from to = Ok (id, fs', j') ->
  fs_ok fs' /\ forall k, view fs' k = spec_op (ORename from to) (view fs) k.
Proof.
  intros O E. pose proof O as [H1 H2 H3]. unfold rename in E. destruct (kget (key from) (files fs)) as [f|] eqn:Ek; [|done].
  destruct (journal_append _ _ _ _ _ _ _) as [[id0 j0]|]; [|done]. cbn in E. cbn [spec_op].
  destruct (decide (key from = key to)) as [Heq|Hne].
  - rewrite bool_decide_true in E by done. injection E as <- <- <-. split; [done|]. intros k. rewrite bool_decide_true by done. done.
  - rewrite bool_decide_false in E by done. injection E as <- <- <-. split.
    + split; cbn; [auto with mach | | done]. intros k f'. rewrite kget_kinsert, kget_kdelete.
      repeat case_bool_decide; [intros [= <-]; apply (H2 _ _ Ek) | done | apply H2].
    + intros k. rewrite bool_decide_false by done. unfold view. cbn. rewrite kget_kinsert, kget_kdelete.
      repeat case_bool_decide; cbn; [rewrite Ek; done | done | done].
Qed.

Lemma crash_refines fs : fs_ok fs -> fs_ok (crash_fs fs) /\ forall k, view (crash_fs fs) k = spec_op OCrash (view fs) k.
Proof.
  intros [H1 H2 H3]. unfold crash_fs. cbn. split.
  - split; cbn; [auto with mach | | done]. intros k f'. rewrite kget_komap by done. destruct (kget k (files fs)) as [f|] eqn:E; [|done].
    apply drop_file_ok, (H2 _ _ E).
  - intros k. unfold view. cbn. rewrite kget_komap by done. destruct (kget k (files fs)) as [f|] eqn:E; [|done]. cbn.
    apply drop_file_ok, (H2 _ _ E).
Qed.

Lemma run_op_refines unique actor op fs j fs' j' : fs_ok fs -> op_ok op ->
  run_op false unique actor op fs j = Ok (fs', j') -> fs_ok fs' /\ forall k, view fs' k = spec_op op (view fs) k.
Proof.
  intros O Hok E. destruct op as [path offset bytes|path| |path|from to|]; cbn [run_op] in E.
  - destruct (write_bytes _ _ _ _ _ _ _ _ _) as [[[id fs1] j1]|] eqn:Ew; [|done]. injection E as <- <-. eapply write_bytes_refines; eauto.
  - destruct (allocate _ _ _ _ _ _) as [[[id fs1] j1]|] eqn:Ew; [|done]. injection E as <- <-.
    destruct (allocate_refines _ _ _ _ _ _ _ _ O Ew) as (? & _ & ?). done.
  - destruct (fsync _ _ _ _ _ _) as [[[id fs1] j1]|] eqn:Ew; [|done]. injection E as <- <-. unfold fsync in Ew.
    destruct (journal_append _ _ _ _ _ _ _) as [[id0 j0]|]; [|done]. injection Ew as <- <- <-. apply map_files_ok; [done | apply persist_file_ok].
  - destruct (fsync_path _ _ _ _ _ _) as [[[id fs1] j1]|] eqn:Ew; [|done]. injection E as <- <-. eapply fsync_path_refines; eauto.
  - destruct (rename _ _ _ _ _ _ _ _) as [[[id fs1] j1]|] eqn:Ew; [|done]. injection E as <- <-. eapply rename_refines; eauto.
  - injection E as <- <-. apply crash_refines. done.
Qed.
End Refinement.
