(* ===== verification/SimFsSpec.v ===== *)
(** * The simulated file system: what a workload and a crash observe

    Sequences of operations against the abstract file system, reads and their provenance, what fsync
    saves, the crash operators, the resident budget, and how renames meet crashes. *)

From S2P Require Import Prelude Machine Cbor Limits Path Hex Entry OrdMap Clock Dag Causal KeyMap SimFs SimFsCache SimFsProofs.

Open Scope Z_scope.

Section Runs.
Variable blake3 : list byte -> list byte.
Local Abbreviation key := (canonical_key blake3).
Local Abbreviation spec_op := (spec_op blake3).

(** Successful operations of a run, by any actor and against any journal; a failed one changes nothing. *)
Inductive fs_run : SimFs -> list fs_op -> SimFs -> Prop :=
| fr_refl fs : fs_run fs [] fs
| fr_step fs ops fs1 unique actor op j fs2 j2 : fs_run fs ops fs1 -> op_ok op ->
    run_op blake3 false unique actor op fs1 j = Ok (fs2, j2) -> fs_run fs (ops ++ [op]) fs2.

Definition spec_ops (ops : list fs_op) (v : list byte -> option AFile) : list byte -> option AFile :=
  foldl (fun v op => spec_op op v) v ops.

#[local] Instance spec_op_proper op : Proper (pointwise_relation _ eq ==> pointwise_relation _ eq) (spec_op op).
Proof. intros v1 v2 E k. destruct op; cbn; rewrite ?E; try done; repeat case_bool_decide; cbn; rewrite ?E; done. Qed.

Lemma spec_op_ext op v1 v2 : (forall k, v1 k = v2 k) -> forall k, spec_op op v1 k = spec_op op v2 k.
Proof. intros H. apply (spec_op_proper op v1 v2 H). Qed.

Lemma run_refines fs ops fs' : fs_ok fs -> fs_run fs ops fs' -> fs_ok fs' /\ forall k, view fs' k = spec_ops ops (view fs) k.
Proof.
  intros O. induction 1 as [fs|fs ops fs1 unique actor op j fs2 j2 _ IH Hok E]; [done|].
  destruct (IH O) as [O1 V1]. destruct (run_op_refines blake3 unique actor op fs1 j fs2 j2 O1 Hok E) as [O2 V2].
  split; [done|]. intros k. unfold spec_ops. rewrite foldl_snoc, V2. apply spec_op_ext, V1.
Qed.

Lemma with_budgets_ok extent resident : fs_ok (with_budgets extent resident).
Proof. split; cbn; [constructor | done | lia]. Qed.

Lemma spec_ops_ext ops v1 v2 : (forall k, v1 k = v2 k) -> forall k, spec_ops ops v1 k = spec_ops ops v2 k.
Proof. revert v1 v2. induction ops as [|op ops IH]; intros v1 v2 E; [exact E|]. apply IH, spec_op_ext, E. Qed.

(** *** The documented file system *)

#[local] Instance fs_op_eq_dec : EqDecision fs_op.
Proof. solve_decision. Defined.

(** What the comments of the simulator promise without journaling: a volatile and a durable namespace of plain byte
    strings.  Writes, allocations and renames change the volatile one, a sync copies files to the durable one, and a
    crash goes back to it. *)
Record Documented : Type := mkDocumented { volatile : list byte -> option (list byte); durably : list byte -> option (list byte) }.

Definition put (k : list byte) (x : option (list byte)) (m : list byte -> option (list byte)) (k' : list byte) : option (list byte) :=
  if bool_decide (k' = k) then x else m k'.

Definition documented_op (op : fs_op) (d : Documented) : Documented :=
  let v := volatile d in
  match op with
  | OWrite path offset bytes =>
      if bool_decide (bytes = []) then d
      else mkDocumented (put (key path) (Some (splice (default [] (v (key path))) (Z.to_nat offset) bytes)) v) (durably d)
  | OAllocate path => mkDocumented (put (key path) (Some []) v) (durably d)
  | OFsync => mkDocumented v (fun k => match v k with Some b => Some b | None => durably d k end)
  | OFsyncPath path => mkDocumented v (put (key path) (match v (key path) with Some b => Some b | None => durably d (key path) end) (durably d))
  | ORename from to =>
      if bool_decide (key from = key to) then d
      else mkDocumented (put (key to) (v (key from)) (put (key from) None v)) (durably d)
  | OCrash => mkDocumented (durably d) (durably d)
  end.

Definition documented (ops : list fs_op) : Documented :=
  foldl (fun d op => documented_op op d) (mkDocumented (fun _ => None) (fun _ => None)) ops.

Definition is_rename (op : fs_op) : bool := match op with ORename _ _ => true | _ => false end.

(** No crash comes after a rename. *)
Definition crashes_before_renames (ops : list fs_op) : Prop :=
  forall before after, ops = before ++ OCrash :: after -> existsb is_rename before = false.

Definition bytes_at (v : list byte -> option AFile) (k : list byte) : option (list byte) := option_map a_bytes (v k).
Definition saved_at (v : list byte -> option AFile) (k : list byte) : option (list byte) :=
  match v k with Some f => a_saved f | None => None end.

(** The abstract files agree with the documented namespaces. *)
Definition agrees (v : list byte -> option AFile) (d : Documented) : Prop := forall k, bytes_at v k = volatile d k.
Definition saves (v : list byte -> option AFile) (d : Documented) : Prop := forall k, saved_at v k = durably d k.

Lemma agrees_op op v d : op <> OCrash -> agrees v d -> agrees (spec_op op v) (documented_op op d).
Proof.
  intros Hc A k. unfold agrees, bytes_at in *. destruct op as [path offset bytes|path| |path|from to|]; cbn; unfold put; try done.
  - destruct (bool_decide (bytes = [])); cbn; [rewrite andb_false_r; apply A|]. rewrite andb_true_r. case_bool_decide; [|apply A].
    subst k. cbn. rewrite <- A. destruct (v (key path)); done.
  - case_bool_decide; [done | apply A].
  - rewrite <- A. destruct (v k); done.
  - case_bool_decide; [|apply A]. rewrite <- A. destruct (v k); done.
  - repeat case_bool_decide; cbn; repeat case_bool_decide; try congruence; try apply A; done.
Qed.

Lemma saves_op op v d : is_rename op = false -> (forall path, op = OAllocate path -> v (key path) = None) ->
  agrees v d -> saves v d -> saves (spec_op op v) (documented_op op d) /\ agrees (spec_op op v) (documented_op op d).
Proof.
  intros Hr Ha A Hs. split.
  - intros k. unfold saves, agrees, bytes_at, saved_at in *. destruct op as [path offset bytes|path| |path|from to|]; cbn; unfold put; try done.
    + destruct (bool_decide (bytes = [])); cbn; [rewrite andb_false_r; apply Hs|]. rewrite andb_true_r. case_bool_decide; [|apply Hs].
      subst k. rewrite <- Hs. destruct (v (key path)); done.
    + case_bool_decide; [|apply Hs]. subst k. rewrite <- Hs, (Ha path eq_refl). done.
    + rewrite <- A, <- Hs. destruct (v k); done.
    + case_bool_decide; [|apply Hs]. subst k. rewrite <- A, <- Hs. destruct (v (key path)); done.
    + rewrite <- Hs. destruct (v k) as [[b [x|]]|]; done.
  - destruct (decide (op = OCrash)) as [->|Hc]; [|apply agrees_op; done].
    intros k. unfold bytes_at, agrees, saves, saved_at in *. cbn. rewrite <- Hs. destruct (v k) as [[b [x|]]|]; done.
Qed.

Lemma allocate_new unique actor path fs j fs' j' : fs_ok fs ->
  run_op blake3 false unique actor (OAllocate path) fs j = Ok (fs', j') -> view fs (key path) = None.
Proof.
  intros O E. cbn [run_op] in E. destruct (allocate _ _ _ _ _ _) as [[[id fs1] j1]|] eqn:Ew; [|done].
  apply (allocate_refines blake3 _ _ _ _ _ _ _ _ O Ew).
Qed.

Lemma run_documented extent resident ops fs : fs_run (with_budgets extent resident) ops fs -> crashes_before_renames ops ->
  fs_ok fs /\ agrees (view fs) (documented ops) /\ (existsb is_rename ops = false -> saves (view fs) (documented ops)).
Proof.
  set (fs0 := with_budgets extent resident). intros H. remember fs0 as start eqn:Es.
  induction H as [fs|fs ops fs1 unique actor op j fs2 j2 _ IH Hok E]; intros Hcr.
  - subst. split_and!; [apply with_budgets_ok | done | done].
  - destruct (IH Es) as (O & A & S).
    { intros before after ->. apply (Hcr before (after ++ [op])). rewrite <- app_assoc. done. }
    destruct (run_op_refines blake3 unique actor op fs1 j fs2 j2 O Hok E) as [O2 V].
    assert (Hd : documented (ops ++ [op]) = documented_op op (documented ops)) by (unfold documented; rewrite foldl_snoc; done).
    assert (Hal : forall path, op = OAllocate path -> view fs1 (key path) = None) by (intros path ->; eapply allocate_new; eauto).
    assert (Hboth : is_rename op = false -> existsb is_rename ops = false ->
      saves (spec_op op (view fs1)) (documented_op op (documented ops)) /\ agrees (spec_op op (view fs1)) (documented_op op (documented ops)))
      by (intros; apply saves_op; auto).
    rewrite Hd. split; [done|]. split.
    + intros k. unfold bytes_at. rewrite V. destruct (decide (op = OCrash)) as [->|Hc]; [|apply (agrees_op op _ _ Hc A)].
      apply (proj2 (Hboth eq_refl (Hcr ops [] eq_refl))).
    + intros Hn k. rewrite existsb_app in Hn. cbn in Hn. rewrite orb_false_r in Hn. apply orb_false_iff in Hn as [Hn1 Hn2].
      unfold saved_at. rewrite V. apply (proj1 (Hboth Hn2 Hn1)).
Qed.

(** C22: without journaling, a simulated file system over any budgets holds what its documentation promises.  After any
    sequence of successful writes, allocations, syncs, renames and crashes in which no crash follows a rename, each path
    holds exactly the bytes of the documented volatile namespace; and when nothing was renamed, the bytes a crash
    restores are exactly those of the documented durable namespace.  A crash after a rename departs from it
    ([rename_survives_crash]). *)
Theorem simfs_refines extent resident ops fs : fs_run (with_budgets extent resident) ops fs -> crashes_before_renames ops ->
  (forall k, bytes_at (view fs) k = volatile (documented ops) k)
  /\ (existsb is_rename ops = false -> forall k, saved_at (view fs) k = durably (documented ops) k).
Proof. intros H Hc. apply (run_documented extent resident ops fs H Hc). Qed.

(** A read returns nothing for an absent path and otherwise the bytes of the file from the offset, cut at the
    requested length and the end of the file; it journals them under parents that are exactly the last writers of
    those bytes, or the creator of the file when the window is all holes. *)
Theorem simfs_read_exact unique fs j actor path offset requested observed j' : fs_ok fs -> is_u64 offset -> 0 <= requested ->
  read_bytes blake3 unique fs j actor path offset requested = Ok (observed, j') ->
  exists parents id,
    append blake3 unique j KFsRead actor parents (PFsRead (mkFsRead (path_ref blake3 path) offset requested observed)) = Ok (id, j')
    /\ match kget (key path) (files fs) with
       | None => observed = Missing /\ parents = []
       | Some f => exists out, observed = Present out /\ out = take (Z.to_nat requested) (drop (Z.to_nat offset) (contents f))
           /\ (nonempty (cache f) -> out <> [] -> forall p, In p parents <->
                 (exists i b, offset <= i < offset + Z.of_nat (length out) /\ cell (cache f) i = Some (b, p))
                 \/ (created_by f = Some p /\ forall i, offset <= i < offset + Z.of_nat (length out) -> cell (cache f) i = None))
       end.
Proof.
  intros O Ho Hr E. unfold read_bytes, journal_append in E. case_split_in E; [done|].
  destruct (kget (key path) (files fs)) as [f|] eqn:Ek.
  - pose proof (fk_files fs O _ _ Ek) as F. destruct (read_file f offset requested) as [out parents] eqn:Er.
    destruct (append _ _ _ _ _ _ _) as [[id j1]|] eqn:Ea; [|done]. injection E as <- <-. exists parents, id. split; [done|].
    exists out. split_and!; [done | |].
    + rewrite <- (read_file_bytes f offset requested F Ho Hr), Er. done.
    + intros Hne Hout. apply (read_file_parents f offset requested out parents); done.
  - destruct (append _ _ _ _ _ _ _) as [[id j1]|] eqn:Ea; [|done]. injection E as <- <-. exists [], id. done.
Qed.

(** Operations that neither sync nor move a path. *)
Definition keeps_saved (k : list byte) (op : fs_op) : Prop :=
  match op with
  | OWrite _ _ _ => True
  | OAllocate path | OFsyncPath path => k <> key path
  | ORename from to => k <> key from /\ k <> key to
  | OFsync | OCrash => False
  end.

Lemma keeps_saved_op k op v : keeps_saved k op -> saved_at v k <> None -> saved_at (spec_op op v) k = saved_at v k.
Proof.
  unfold saved_at. destruct op as [path offset bytes|path| |path|from to|]; cbn; intros Hk Hs; try done.
  - case_bool_decide; [|done]. subst k. destruct (v (key path)) as [f|] eqn:Ev; [|done]. cbn. case_bool_decide; done.
  - rewrite bool_decide_false by done. done.
  - rewrite bool_decide_false by done. done.
  - destruct Hk. case_bool_decide; [done|]. rewrite !bool_decide_false by done. done.
Qed.

(** The bytes a path held at its last sync are the bytes it holds after a crash, whatever was written
    since, to it or to other paths. *)
Theorem synced_bytes_survive_crash fs fs1 ops fs2 f path unique actor j id j1 : fs_ok fs ->
  kget (key path) (files fs) = Some f -> fsync_path blake3 unique fs j actor path = Ok (id, fs1, j1) ->
  fs_run fs1 ops fs2 -> Forall (keeps_saved (key path)) ops ->
  exists f', kget (key path) (files (crash_fs fs2)) = Some f' /\ contents f' = contents f.
Proof.
  intros O Ek Es Hr Hk. destruct (fsync_path_refines blake3 unique fs j actor path id fs1 j1 O Es) as [O1 V1].
  destruct (run_refines fs1 ops fs2 O1 Hr) as [O2 V2]. destruct (crash_refines blake3 fs2 O2) as [_ V3].
  assert (H1 : saved_at (view fs1) (key path) = Some (contents f)).
  { unfold saved_at. rewrite V1. cbn. rewrite bool_decide_true by done. unfold view. rewrite Ek. done. }
  assert (H2 : saved_at (view fs2) (key path) = Some (contents f)).
  { rewrite <- H1. unfold saved_at at 1. rewrite V2. fold (saved_at (spec_ops ops (view fs1)) (key path)).
    clear -Hk H1. unfold spec_ops. revert H1 Hk. generalize (view fs1). induction ops as [|op ops IH]; intros v H1 Hk; [done|].
    inversion_clear Hk. cbn [foldl]. assert (E : saved_at (spec_op op v) (key path) = saved_at v (key path)).
    { apply keeps_saved_op; [done | rewrite H1; done]. }
    rewrite IH; [exact E | rewrite E; done | done]. }
  specialize (V3 (key path)). cbn [SimFsProofs.spec_op] in V3. unfold saved_at in H2. destruct (view fs2 (key path)) as [a|]; [|done].
  unfold a_crash in V3. rewrite H2 in V3. cbn [option_map] in V3. unfold view in V3.
  destruct (kget (key path) (files (crash_fs fs2))) as [f'|]; [|done]. exists f'. split; [done|]. injection V3 as V3 _. done.
Qed.

(** A rename is durable at once: a crash right after it, with no sync, keeps the synced bytes under the new
    name and forgets the old one, and what was synced under the new name is gone. *)
Theorem rename_survives_crash unique fs j actor from to id fs' j' f s : fs_ok fs -> key from <> key to ->
  kget (key from) (files fs) = Some f -> a_saved (abs_file f) = Some s ->
  rename blake3 false unique fs j actor from to = Ok (id, fs', j') ->
  view (crash_fs fs') (key to) = Some (mkAFile s (Some s)) /\ view (crash_fs fs') (key from) = None.
Proof.
  intros O Hne Ek Hs E. destruct (rename_refines blake3 unique fs j actor from to id fs' j' O E) as [O' V].
  destruct (crash_refines blake3 fs' O') as [_ V']. rewrite !V'. cbn [SimFsProofs.spec_op]. rewrite !V. cbn [SimFsProofs.spec_op].
  rewrite !(bool_decide_false (key from = key to)) by done.
  rewrite !bool_decide_true by done. unfold view. rewrite Ek. cbn. unfold a_crash. rewrite Hs. done.
Qed.
End Runs.
