(* ===== verification/SimFsCrash.v ===== *)
(** * Crash operators and budgets of the simulated file system

    The targeted crash operators keep the file table sound, and the resident budget bounds what the
    page caches hold. *)

From Stdlib Require Import Sorting.Sorted.
From S2P Require Import Prelude Machine Cbor CborProofs Limits Path Hex Entry OrdMap Clock Dag Causal KeyMap SimFs SimFsCache SimFsProofs SimFsSpec.

Open Scope Z_scope.

(** ** Ranges that shrink in place *)

Definition shrinks (e e' : Z * ByteRange) : Prop := e'.1 = e.1 /\ range_len e'.2 <= range_len e.2.
Definition same_size (e e' : Z * ByteRange) : Prop := e'.1 = e.1 /\ range_len e'.2 = range_len e.2.

Lemma Forall2_In_r {A B} (R : A -> B -> Prop) l k y : Forall2 R l k -> In y k -> exists x, In x l /\ R x y.
Proof. induction 1 as [|x z l k Hxz _ IH]; [done|]. intros [<-|H]; [exists x; cbn; tauto|]. destruct (IH H) as (w & ? & ?). exists w. cbn. tauto. Qed.

Lemma shrinks_sound m m' : Forall2 shrinks m m' -> sound m -> sound m'.
Proof.
  intros HF [H1 H2 H3]. split.
  - clear H2 H3. induction HF as [|[s r] [s' r'] m m' [E _] HF IH]; [constructor|]. cbn in E. subst s'. apply ordered_cons in H1 as [Ho Ha].
    apply ordered_cons. split; [apply IH; done|]. unfold above in *. rewrite List.Forall_forall in *. intros e He.
    destruct (Forall2_In_r _ _ _ _ HF He) as (x & Hx & [-> _]). apply Ha, Hx.
  - intros e He. destruct (Forall2_In_r _ _ _ _ HF He) as (x & Hx & [E Hl]). destruct (H2 x Hx). unfold stop in *. rewrite E. lia.
  - intros e1 e2 He1 He2. destruct (Forall2_In_r _ _ _ _ HF He1) as (x1 & Hx1 & [E1 Hl1]), (Forall2_In_r _ _ _ _ HF He2) as (x2 & Hx2 & [E2 _]).
    rewrite E1, E2. intros Hlt. pose proof (H3 x1 x2 Hx1 Hx2 Hlt). unfold stop in *. rewrite E1. lia.
Qed.

Lemma same_size_max_end m m' : Forall2 same_size m m' -> max_end m' = max_end m.
Proof.
  unfold max_end. induction 1 as [|e e' m m' [E Hl] _ IH]; [done|]. cbn [foldr]. unfold range_end at 1 3. rewrite E, Hl. f_equal. exact IH.
Qed.

Lemma same_size_shrinks m m' : Forall2 same_size m m' -> Forall2 shrinks m m'.
Proof. apply Forall2_impl. intros e e' [? ?]. split; [done | lia]. Qed.

Lemma on_range_Forall2 (R : Z * ByteRange -> Z * ByteRange -> Prop) f w m m' : (forall e, R e e) ->
  (forall s r r', f r = Ok r' -> R (s, r) (s, r')) -> on_range f w m = Ok (Some m') -> Forall2 R m m'.
Proof.
  intros Hrefl Hf. assert (Hr : forall l, Forall2 R l l) by (induction l; constructor; auto).
  revert m'. induction m as [|[s r] m IH]; intros m' E; cbn in E; [done|]. case_bool_decide.
  - destruct (f r) as [r'|] eqn:Ef; [|done]. injection E as <-. constructor; [apply Hf; done | apply Hr].
  - destruct (on_range f w m) as [[m1|]|]; [|done|done]. injection E as <-. constructor; [apply Hrefl | apply IH; done].
Qed.

(** ** Tables of files under a change in place *)

Definition kept (a b : list byte * File) : Prop := b.1 = a.1 /\ (file_ok a.2 -> file_ok b.2).

Lemma kept_refl fl : Forall2 kept fl fl.
Proof. induction fl; constructor; [split; tauto | done]. Qed.

Lemma on_write_kept f (resize : bool) w fl fl' :
  (forall m m', on_range f w m = Ok (Some m') -> Forall2 (if resize then shrinks else same_size) m m') ->
  on_write f resize w fl = Ok fl' -> Forall2 kept fl fl'.
Proof.
  intros Hf. revert fl'. induction fl as [|[k file] fl IH]; intros fl' E; cbn in E; [done|].
  destruct (on_range f w (cache file)) as [[m'|]|] eqn:Er; cbn in E; [| |done].
  - injection E as <-. constructor; [|apply kept_refl]. split; [done|]. cbn. intros [H1 H2 H3]. specialize (Hf _ _ Er). destruct resize.
    + split; cbn; [apply (shrinks_sound _ _ Hf); done | done | done].
    + split; cbn; [apply (shrinks_sound (cache file)); [apply same_size_shrinks|]; done | done |]. rewrite H3. symmetry. apply same_size_max_end, Hf.
  - destruct (on_write f resize w fl) as [fl1|]; [|done]. injection E as <-. constructor; [split; tauto | apply IH; done].
Qed.

Lemma kept_get fl fl' k f' : Forall2 kept fl fl' -> kget k fl' = Some f' -> exists f, kget k fl = Some f /\ (file_ok f -> file_ok f').
Proof.
  induction 1 as [|[k1 a] [k2 b] fl fl' [E Hab] _ IH]; [done|]. cbn in *. subst k2.
  case_bool_decide; [intros [= <-]; eauto | apply IH].
Qed.

Lemma kept_ok fs fl' : fs_ok fs -> Forall2 kept (files fs) fl' -> fs_ok (with_files fs fl').
Proof.
  intros [H1 H2 H3] HF. split; cbn; [| |done].
  - clear H2. induction HF as [|a b fl fl' [E _] HF IH]; [constructor|]. apply ksorted_cons in H1 as [Hs Ha]. apply ksorted_cons.
    split; [apply IH; done|]. rewrite List.Forall_forall in *. intros x Hx. destruct (Forall2_In_r _ _ _ _ HF Hx) as (y & Hy & [Ey _]).
    rewrite E, Ey. apply Ha, Hy.
  - intros k f' Hk. destruct (kept_get _ _ _ _ HF Hk) as (f & Ef & H). apply H, (H2 _ _ Ef).
Qed.

Lemma on_write_ok f (resize : bool) w fs fl' : fs_ok fs ->
  (forall r r', f r = Ok r' -> if resize then range_len r' <= range_len r else range_len r' = range_len r) ->
  on_write f resize w (files fs) = Ok fl' -> fs_ok (with_files fs fl').
Proof.
  intros O Hf E. apply kept_ok; [done|]. eapply on_write_kept; [|exact E]. intros m m'. destruct resize.
  - apply on_range_Forall2; [intros e; split; [done | lia] | intros s r r' Er; split; [done | apply (Hf _ _ Er)]].
  - apply on_range_Forall2; [intros e; split; done | intros s r r' Er; split; [done | apply (Hf _ _ Er)]].
Qed.

Lemma tear_len n r r' : tear n r = Ok r' -> range_len r' <= range_len r.
Proof. unfold tear. case_split; [done|]. intros [= <-]. unfold range_len. cbn. rewrite length_take. lia. Qed.

Lemma length_xor_prefix l k : length (xor_prefix l k) = length l.
Proof. revert k. induction l as [|b l IH]; intros [|x k]; cbn; try done. rewrite IH. done. Qed.

Lemma corrupt_len offset k r r' : corrupt_at offset k r = Ok r' -> range_len r' = range_len r.
Proof.
  unfold corrupt_at. case_split; [done|]. intros [= <-]. unfold range_len. cbn. rewrite length_app, length_xor_prefix, length_take, length_drop. lia.
Qed.

Lemma drop_path_ok fs k : fs_ok fs -> fs_ok (with_files fs (drop_path (files fs) k)).
Proof.
  intros O. pose proof O as [H1 H2 H3]. unfold drop_path. destruct (kget k (files fs)) as [f|] eqn:Ek; [|destruct fs; done].
  destruct (drop_unsynced f) as [f'|] eqn:Ed; split; cbn; auto with mach; intros k' g.
  - rewrite kget_kmodify. case_bool_decide; [|apply H2]. subst k'. rewrite Ek. intros [= <-].
    apply (proj1 (drop_file_ok f (H2 _ _ Ek)) f' Ed).
  - rewrite kget_kdelete. case_bool_decide; [done | apply H2].
Qed.

Lemma drop_paths_ok fs keys : fs_ok fs -> fs_ok (with_files fs (foldl drop_path (files fs) keys)).
Proof.
  revert fs. induction keys as [|k keys IH]; intros fs O; [destruct fs; done|]. cbn [foldl].
  apply (IH (with_files fs (drop_path (files fs) k))), drop_path_ok, O.
Qed.

Lemma apply_crash_ok fs op fs' : fs_ok fs -> apply_crash_operation fs op = Ok fs' -> fs_ok fs'.
Proof.
  intros O E. destruct op as [|paths|w n|w offset k|w offset bit]; cbn in E.
  - injection E as <-. apply (crash_refines (fun b => b) fs O).
  - destruct (drop_keys [] paths) as [keys|]; [|done]. injection E as <-. apply drop_paths_ok, O.
  - destruct (on_write _ _ _ _) as [fl|] eqn:Ew; [|done]. injection E as <-. exact (on_write_ok _ true _ _ _ O (tear_len n) Ew).
  - destruct k; [done|]. destruct (on_write _ _ _ _) as [fl|] eqn:Ew; [|done]. injection E as <-.
    exact (on_write_ok _ false _ _ _ O (corrupt_len offset _) Ew).
  - case_split_in E; [done|]. destruct (on_write _ _ _ _) as [fl|] eqn:Ew; [|done]. injection E as <-.
    exact (on_write_ok _ false _ _ _ O (corrupt_len offset _) Ew).
Qed.

(** ** What the caches hold *)

Definition total (m : list (Z * ByteRange)) : Z := sum_Z (map (fun e => range_len e.2) m).

Lemma total_cons e m : total (e :: m) = range_len e.2 + total m.
Proof. done. Qed.

Lemma total_app m1 m2 : total (m1 ++ m2) = total m1 + total m2.
Proof. unfold total, sum_Z. induction m1 as [|e m1 IH]; [done|]. cbn [app map foldr]. lia. Qed.

Lemma total_nonneg m : 0 <= total m.
Proof. unfold total, sum_Z. induction m as [|e m IH]; [done|]. cbn [map foldr]. pose proof (range_len_nonneg e.2). lia. Qed.

Lemma total_oinsert k r m : total (oinsert k r m) <= total m + range_len r /\ (length (oinsert k r m) <= S (length m))%nat.
Proof.
  unfold total, sum_Z. induction m as [|[k1 r1] m IH]; cbn [oinsert map foldr length fst snd]; [lia|].
  pose proof (range_len_nonneg r1). case_split; [cbn [map foldr length snd]; lia|]. case_split; cbn [map foldr length snd]; lia.
Qed.

Lemma total_insert_all l m : total (foldl (fun m e => oinsert e.1 e.2 m) m l) <= total m + total l
  /\ (length (foldl (fun m e => oinsert e.1 e.2 m) m l) <= length m + length l)%nat.
Proof.
  revert m. induction l as [|e l IH]; intros m; cbn [foldl length].
  - change (total []) with 0. lia.
  - destruct (IH (oinsert e.1 e.2 m)). destruct (total_oinsert e.1 e.2 m). rewrite total_cons. lia.
Qed.

Lemma total_partition (p : Z * ByteRange -> bool) m :
  total (List.filter p m) + total (List.filter (fun e => negb (p e)) m) = total m
  /\ (length (List.filter p m) + length (List.filter (fun e => negb (p e)) m) = length m)%nat.
Proof. unfold total, sum_Z. induction m as [|e m IH]; [done|]. cbn [List.filter]. destruct (p e); cbn [negb map foldr length]; lia. Qed.

Lemma remove_all_filter (p : Z * ByteRange -> bool) m : ordered m ->
  foldl (fun m x => oremove x.1 m) m (List.filter p m) = List.filter (fun e => negb (p e)) m.
Proof.
  intros Ho. assert (O1 : ordered (foldl (fun m x => oremove x.1 m) m (List.filter p m))) by (apply ordered_remove_all; done).
  assert (O2 : ordered (List.filter (fun e => negb (p e)) m)) by (apply ordered_filter; done).
  apply ordered_ext; [done | done |]. intros k. apply option_eq. intros v. rewrite (oget_In k v _ O1), (oget_In k v _ O2).
  rewrite In_remove_all, List.filter_In. split.
  - intros [Hin Hn]. split; [done|]. destruct (p (k, v)) eqn:Ep; [|done]. destruct Hn. apply (in_map fst (List.filter p m) (k, v)), List.filter_In. done.
  - intros [Hin Hn]. split; [done|]. intros Hk. apply in_map_iff in Hk as (e & E & He). apply List.filter_In in He as [He Hp].
    rewrite (ordered_In_inj m (k, v) e Ho Hin He (eq_sym E)) in Hn. rewrite Hp in Hn. done.
Qed.

Lemma concat_total {A} (g : A -> list (Z * ByteRange)) (h : A -> Z) (c : A -> nat) l :
  (forall x, In x l -> total (g x) <= h x /\ (length (g x) <= c x)%nat) ->
  total (concat (map g l)) <= sum_Z (map h l) /\ (length (concat (map g l)) <= list_sum (map c l))%nat.
Proof.
  induction l as [|x l IH]; intros H; [done|]. cbn [map concat]. rewrite total_app, length_app. unfold sum_Z in *. cbn [foldr list_sum fold_right map].
  destruct (H x (or_introl eq_refl)). destruct IH as [I1 I2]; [intros y Hy; apply H; right; done|]. unfold list_sum in *. lia.
Qed.

Lemma single_count (q : Z * ByteRange -> bool) m : NoDup m -> (forall x y, In x m -> In y m -> q x = true -> q y = true -> x = y) ->
  (list_sum (map (fun e => if q e then 2 else 1) m) <= length m + 1)%nat.
Proof.
  intros Hn Hq. unfold list_sum. induction m as [|e m IH]; cbn [map fold_right length]; [lia|]. apply list.NoDup_cons in Hn as [Hnin Hn].
  destruct (q e) eqn:Eq.
  - assert (Hz : forall l, (forall x, In x l -> q x = false) -> fold_right Nat.add 0%nat (map (fun e => if q e then 2 else 1)%nat l) = length l).
    { induction l as [|x l IHl]; intros Hl; [done|]. cbn [map fold_right length]. rewrite (Hl x) by (left; done). rewrite IHl; [lia|].
      intros y Hy. apply Hl. right. done. }
    rewrite Hz; [lia|]. intros x Hx. destruct (q x) eqn:Ex; [|done]. destruct Hnin. apply list_elem_of_In.
    rewrite (Hq e x); [done | left; done | right; done | done | done].
  - specialize (IH Hn). assert (forall x y, In x m -> In y m -> q x = true -> q y = true -> x = y) by (intros; apply Hq; (right + idtac); done).
    specialize (IH H). lia.
Qed.

Lemma ordered_NoDup {V} (m : list (Z * V)) : ordered m -> NoDup m.
Proof.
  induction m as [|[k v] m IH]; intros Ho; [constructor|]. apply ordered_cons in Ho as [Ho Ha]. apply list.NoDup_cons. split; [|apply IH; done].
  intros Hin%list_elem_of_In. unfold above in Ha. rewrite List.Forall_forall in Ha. apply Ha in Hin. cbn in Hin. lia.
Qed.

(** A write adds at most its bytes and two ranges: the new one and the second part of one it splits. *)
Lemma write_cache_total m offset bytes id : sound m -> 0 <= offset -> bytes <> [] ->
  offset + Z.of_nat (length bytes) <= MAX_FILE_EXTENT_HARD ->
  total (write_cache m offset bytes id) <= total m + Z.of_nat (length bytes)
  /\ (length (write_cache m offset bytes id) <= length m + 2)%nat.
Proof.
  intros S Ho Hb He. pose proof (window_pos offset bytes Hb) as Hw. rewrite write_cache_foldl.
  set (w := offset + Z.of_nat (length bytes)) in *. set (hits := affected offset w m).
  assert (Hhit : forall e, In e hits -> In e m /\ e.1 < w /\ offset < stop e).
  { intros e H. apply In_affected in H; [exact H | done..]. }
  destruct (concat_total (rest_of offset bytes) (fun e => range_len e.2)
    (fun e => if (e.1 <? offset)%Z && (w <? stop e)%Z then 2 else 1)%nat hits) as [T1 T2].
  { intros e H. destruct (Hhit e H) as (Hin & H1 & H2). unfold rest_of, pieces. destruct e as [s r].
    rewrite (stop_end m) by done. fold w. unfold stop, range_len in *. cbn [fst snd] in *.
    destruct (Z.ltb_spec s offset), (Z.ltb_spec w (s + Z.of_nat (length (content r)))); cbn [andb app];
      repeat (case_split; [|try lia]); cbn [map length app]; unfold total, sum_Z, range_len; cbn [map foldr fst snd content];
      rewrite ?length_take, ?length_drop; lia. }
  assert (Hspan : (list_sum (map (fun e => if (e.1 <? offset)%Z && (w <? stop e)%Z then 2 else 1)%nat hits) <= length hits + 1)%nat).
  { apply single_count.
    - apply ordered_NoDup, ordered_filter, S.
    - intros x y Hx Hy Ex Ey. bool_hyps. destruct (Hhit x Hx) as (Ix & _), (Hhit y Hy) as (Iy & _).
      destruct (sound_cases m x y S Ix Iy) as [?|?]; [done | lia]. }
  destruct (total_partition (fun e => (e.1 <? Z.max w 1)%Z && (offset <? range_end e)%Z) m) as [P1 P2].
  unfold hits, affected in *. rewrite remove_all_filter by apply S. fold (affected offset w m) in *.
  destruct (total_insert_all (all_rests m offset bytes) (List.filter (fun e => negb ((e.1 <? Z.max w 1)%Z && (offset <? range_end e)%Z)) m)) as [I1 I2].
  match goal with |- total (oinsert ?k ?r ?m0) <= _ /\ _ => destruct (total_oinsert k r m0) as [J1 J2] end.
  unfold all_rests in *. fold w in I1, I2, J1, J2 |- *. unfold range_len at 1 in J1. cbn [content] in J1.
  change (sum_Z _) with (total (affected offset w m)) in T1. lia.
Qed.

(** ** The resident budget *)

Definition usage (fs : SimFs) : Z :=
  resident_content fs + RANGE_OVERHEAD * resident_nodes fs + PATH_OVERHEAD * Z.of_nat (length (files fs)).

Lemma sum_kinsert {V} (g : V -> Z) k v (fl : list (list byte * V)) : ksorted fl ->
  sum_Z (map (fun e => g e.2) (kinsert k v fl)) = sum_Z (map (fun e => g e.2) fl) - match kget k fl with Some v0 => g v0 | None => 0 end + g v.
Proof.
  unfold sum_Z. induction fl as [|[k1 v1] fl IH]; intros Hs; cbn [kinsert kget map foldr snd]; [lia|]. apply ksorted_cons in Hs as [Hs Ha].
  destruct (lex_compare k k1) eqn:E; cbn [map foldr snd].
  - apply lex_compare_eq in E as ->. rewrite bool_decide_true by done. lia.
  - rewrite bool_decide_false by (intros ->; rewrite lex_compare_refl in E; done). rewrite kget_lt; [lia|].
    eapply List.Forall_impl; [|exact Ha]. intros e He. cbn in He. exact (lex_compare_trans _ _ _ E He).
  - rewrite bool_decide_false by (intros ->; rewrite lex_compare_refl in E; done). rewrite IH by done. lia.
Qed.

Lemma length_kinsert {V} k (v : V) fl : ksorted fl ->
  Z.of_nat (length (kinsert k v fl)) = Z.of_nat (length fl) + match kget k fl with Some _ => 0 | None => 1 end.
Proof.
  intros Hs. pose proof (sum_kinsert (fun _ : V => 1) k v fl Hs) as H.
  assert (Hc : forall l : list (list byte * V), sum_Z (map (fun e => 1) l) = Z.of_nat (length l)).
  { unfold sum_Z. induction l as [|e l IH]; [done|]. cbn [map foldr length]. lia. }
  rewrite !Hc in H. rewrite H. destruct (kget k fl); lia.
Qed.

Lemma resident_nonneg fs : 0 <= resident_content fs /\ 0 <= resident_nodes fs.
Proof.
  unfold resident_content, resident_nodes, sum_Z. induction (files fs) as [|e fl IH]; [done|]. cbn [map foldr].
  pose proof (total_nonneg (cache e.2)). unfold total, sum_Z in *. lia.
Qed.

Lemma usage_insert fs k f : ksorted (files fs) -> usage (with_files fs (kinsert k f (files fs)))
  = usage fs + (total (cache f) - total (cache (file_at fs k)))
    + RANGE_OVERHEAD * (Z.of_nat (length (cache f)) - Z.of_nat (length (cache (file_at fs k))))
    + PATH_OVERHEAD * match kget k (files fs) with Some _ => 0 | None => 1 end.
Proof.
  intros Hs. unfold usage, resident_content, resident_nodes, file_at. cbn [files with_files].
  rewrite (sum_kinsert (fun f => sum_Z (map (fun e => range_len e.2) (cache f))) k f _ Hs).
  rewrite (sum_kinsert (fun f => Z.of_nat (length (cache f))) k f _ Hs), length_kinsert by done.
  unfold total. destruct (kget k (files fs)) as [f0|]; cbn [cache file_default map length]; unfold RANGE_OVERHEAD, PATH_OVERHEAD, sum_Z;
    cbn [foldr]; lia.
Qed.

(** Under a resident budget, a write that is accepted leaves the page caches, range nodes and paths within the
    budget and one range node: splitting a range adds a node that is not charged. *)
Theorem write_within_budget blake3 journaling unique fs j actor path offset bytes id fs' j' budget : fs_ok fs -> 0 <= offset ->
  max_resident_bytes fs = Some budget -> budget < u64_max -> bytes <> [] ->
  write_bytes blake3 journaling unique fs j actor path offset bytes = Ok (id, fs', j') -> usage fs' <= budget + RANGE_OVERHEAD.
Proof.
  intros O Ho Hbud Hmax Hb E. unfold write_bytes in E. case_split_in E; [done|]. unfold checked_add in E.
  destruct (Z.leb_spec (offset + Z.of_nat (length bytes)) u64_max); [|done]. cbn in E. case_split_in E; [done|].
  destruct (charge_resident _ _ _ _) as [u|] eqn:Ec; [|done]. cbn in E. destruct (journal_append _ _ _ _ _ _ _) as [[id0 j0]|]; [|done]. cbn in E.
  destruct (Z.eqb_spec (Z.of_nat (length bytes)) 0) as [Hz|Hz]; [destruct bytes; [done | cbn in Hz; lia]|].
  injection E as <- <- <-. bool_hyps. set (k := canonical_key blake3 path) in *. pose proof (fk_extent fs O).
  destruct (file_at_ok fs k O) as [F _].
  destruct (write_cache_total (cache (file_at fs k)) offset bytes id0 (fo_cache _ F) Ho Hb) as [T1 T2]; [lia|].
  unfold charge_resident in Ec. rewrite Hbud in Ec. case_split_in Ec; [done|]. clear Ec u. bool_hyps.
  pose proof (resident_nonneg fs) as [R1 R2]. set (W := write_cache (cache (file_at fs k)) offset bytes id0) in *.
  match goal with |- usage (if journaling then _ else ?g) <= _ =>
    replace (usage (if journaling then _ else g)) with (usage g) by (destruct journaling; reflexivity) end.
  rewrite usage_insert by apply O. cbn [cache]. fold W. unfold usage, saturating_add, saturating_mul, RANGE_OVERHEAD, PATH_OVERHEAD in *.
  rewrite (proj2 (Z.ltb_lt 0 _)), orb_true_r in * by lia. destruct (kget k (files fs)); cbn [negb] in *; lia.
Qed.

(** ** Every operation and every crash operator *)

Section Reach.
Variable blake3 : list byte -> list byte.

Inductive fs_reach : SimFs -> Prop :=
| fh_new extent resident : fs_reach (with_budgets extent resident)
| fh_op unique actor op fs j fs' j' : fs_reach fs -> op_ok op -> run_op blake3 false unique actor op fs j = Ok (fs', j') -> fs_reach fs'
| fh_crash fs op fs' : fs_reach fs -> apply_crash_operation fs op = Ok fs' -> fs_reach fs'.

(** In every state the simulator reaches, by operations and by any crash operator, the files are in path order,
    the ranges of each file are in offset order and disjoint within the hard extent, and its length is the furthest
    end of a range. *)
Theorem simfs_files_sound fs : fs_reach fs -> ksorted (files fs) /\ forall k f, kget k (files fs) = Some f ->
  flength f = max_end (cache f) /\ flength f <= MAX_FILE_EXTENT_HARD /\ ordered (cache f)
  /\ forall e1 e2, In e1 (cache f) -> In e2 (cache f) -> e1.1 < e2.1 -> e1.1 + range_len e1.2 <= e2.1.
Proof.
  intros H. assert (O : fs_ok fs).
  { induction H as [extent resident|unique actor op fs j fs' j' _ IH Hok E|fs op fs' _ IH E].
    - apply with_budgets_ok.
    - apply (run_op_refines blake3 unique actor op fs j fs' j' IH Hok E).
    - apply (apply_crash_ok fs op fs' IH E). }
  split; [apply O|]. intros k f Ek. pose proof (fk_files fs O k f Ek) as F. pose proof (fo_cache f F) as S.
  rewrite (fo_length f F). split_and!; [done | apply max_end_extent, S | apply S | apply S].
Qed.
End Reach.

(** ** Samples *)

Definition ran (r : result SimFsError (SimFs * JournalState)) : SimFs * JournalState :=
  match r with Ok p => p | Err _ => (fs_new, journal_new) end.

Definition path_a : list byte := [x2f; x61].
Definition path_b : list byte := [x2f; x62].
Definition fs0 : SimFs := with_budgets 1000 None.
Definition op1 : fs_op := OWrite path_a 0 [x01; x02; x03].
Definition run1 : SimFs * JournalState := ran (run_op roll_digest false true 1 op1 fs0 journal_new).
Definition run2 : SimFs * JournalState := ran (run_op roll_digest false true 1 (OFsyncPath path_a) run1.1 run1.2).
Definition op3 : fs_op := OWrite path_a 1 [x09].
Definition run3 : SimFs * JournalState := ran (run_op roll_digest false true 1 op3 run2.1 run2.2).

Lemma sample_run : fs_run roll_digest fs0 [op1; OFsyncPath path_a; op3] run3.1.
Proof.
  apply (fr_step roll_digest fs0 [op1; OFsyncPath path_a] run2.1 true 1 op3 run2.2 run3.1 run3.2); [|cbn; lia | vm_compute; reflexivity].
  apply (fr_step roll_digest fs0 [op1] run1.1 true 1 (OFsyncPath path_a) run1.2 run2.1 run2.2); [|exact I | vm_compute; reflexivity].
  apply (fr_step roll_digest fs0 [] fs0 true 1 op1 journal_new run1.1 run1.2); [constructor | cbn; lia | vm_compute; reflexivity].
Qed.

Lemma simfs_refines_witness : bytes_at (view run3.1) path_a = Some [x01; x09; x03] /\ saved_at (view run3.1) path_a = Some [x01; x02; x03].
Proof.
  destruct (simfs_refines roll_digest 1000 None [op1; OFsyncPath path_a; op3] run3.1 sample_run) as [Hv Hd].
  - intros before after E. destruct before as [|? [|? [|? [|? before]]]]; try discriminate E; done.
  - rewrite Hv, (Hd eq_refl). split; vm_compute; reflexivity.
Defined.

Lemma sample_ok : fs_ok run3.1.
Proof. apply (run_refines roll_digest fs0 _ run3.1 (with_budgets_ok 1000 None) sample_run). Qed.

Definition read1 : ObservedRead * JournalState :=
  match read_bytes roll_digest true run3.1 run3.2 1 path_a 1 1 with Ok p => p | Err _ => (Missing, journal_new) end.

(** The middle byte comes from the second write. *)
Lemma simfs_read_exact_witness : read1.1 = Present [x09].
Proof.
  destruct (simfs_read_exact roll_digest true run3.1 run3.2 1 path_a 1 1 read1.1 read1.2 sample_ok) as (parents & id & _ & H).
  - unfold is_u64, u64_max. lia.
  - lia.
  - vm_compute. reflexivity.
  - destruct (kget _ _) as [f|] eqn:Ek; [|vm_compute in Ek; discriminate Ek].
    destruct H as (out & -> & -> & _). vm_compute in Ek. injection Ek as <-. vm_compute. reflexivity.
Defined.

Lemma synced_bytes_survive_crash_witness : exists f f1,
  kget (canonical_key roll_digest path_a) (files run1.1) = Some f /\ contents f = [x01; x02; x03]
  /\ kget (canonical_key roll_digest path_a) (files (crash_fs run3.1)) = Some f1 /\ contents f1 = contents f.
Proof.
  destruct (kget (canonical_key roll_digest path_a) (files run1.1)) as [f|] eqn:Ek; [|vm_compute in Ek; discriminate Ek].
  destruct (synced_bytes_survive_crash roll_digest run1.1 run2.1 [op3] run3.1 f path_a true 1 run1.2
    (match fsync_path roll_digest true run1.1 run1.2 1 path_a with Ok p => p.1.1 | Err _ => [] end) run2.2) as (f1 & E1 & E2).
  - apply (run_op_refines roll_digest true 1 op1 fs0 journal_new run1.1 run1.2); [apply with_budgets_ok | cbn; lia | vm_compute; reflexivity].
  - exact Ek.
  - vm_compute. reflexivity.
  - apply (fr_step roll_digest run2.1 [] run2.1 true 1 op3 run2.2 run3.1 run3.2); [constructor | cbn; lia | vm_compute; reflexivity].
  - repeat constructor.
  - exists f, f1. split; [reflexivity|]. split; [|split; [exact E1 | exact E2]]. vm_compute in Ek. injection Ek as <-. vm_compute. reflexivity.
Defined.

Definition run4 : SimFs * JournalState := ran (run_op roll_digest false true 1 (ORename path_a path_b) run3.1 run3.2).

Lemma rename_survives_crash_witness :
  view (crash_fs run4.1) path_b = Some (mkAFile [x01; x02; x03] (Some [x01; x02; x03])) /\ view (crash_fs run4.1) path_a = None.
Proof.
  destruct (kget (canonical_key roll_digest path_a) (files run3.1)) as [f|] eqn:Ek; [|vm_compute in Ek; discriminate Ek].
  apply (rename_survives_crash roll_digest true run3.1 run3.2 1 path_a path_b
    (match rename roll_digest false true run3.1 run3.2 1 path_a path_b with Ok p => p.1.1 | Err _ => [] end) run4.1 run4.2 f).
  - exact sample_ok.
  - vm_compute. discriminate.
  - exact Ek.
  - vm_compute in Ek. injection Ek as <-. vm_compute. reflexivity.
  - vm_compute. reflexivity.
Defined.

(** A budget that the two writes above reach exactly: the second one, which splits the first, exceeds it by one node. *)
Definition tight : SimFs := with_budgets 1000 (Some 260).
Definition tight1 : SimFs * JournalState := ran (run_op roll_digest false true 1 op1 tight journal_new).
Definition tight2 : SimFs * JournalState := ran (run_op roll_digest false true 1 op3 tight1.1 tight1.2).

Lemma write_within_budget_witness : usage tight2.1 <= 260 + RANGE_OVERHEAD /\ 260 < usage tight2.1.
Proof.
  split; [|vm_compute; reflexivity].
  apply (write_within_budget roll_digest false true tight1.1 tight1.2 1 path_a 1 [x09]
    (match write_bytes roll_digest false true tight1.1 tight1.2 1 path_a 1 [x09] with Ok p => p.1.1 | Err _ => [] end) tight2.1 tight2.2 260).
  - apply (run_op_refines roll_digest true 1 op1 tight journal_new tight1.1 tight1.2); [apply with_budgets_ok | cbn; lia | vm_compute; reflexivity].
  - lia.
  - reflexivity.
  - unfold u64_max. lia.
  - discriminate.
  - vm_compute. reflexivity.
Defined.

Lemma simfs_files_sound_witness : forall f, kget path_a (files run1.1) = Some f -> flength f = max_end (cache f).
Proof.
  intros f Ek. apply (simfs_files_sound roll_digest run1.1) with (k := path_a); [|exact Ek].
  apply (fh_op roll_digest true 1 op1 fs0 journal_new run1.1 run1.2); [constructor | cbn; lia | vm_compute; reflexivity].
Defined.

Definition renamed : SimFs * JournalState :=
  ran (let? '(fs, j) := run_op roll_digest true true 1 op1 fs0 journal_new in
       let? '(fs, j) := run_op roll_digest true true 1 OFsync fs j in
       run_op roll_digest true true 1 (ORename path_a path_b) fs j).
Definition recreated : SimFs * JournalState := ran (run_op roll_digest true true 1 (OWrite path_a 0 [x07]) renamed.1 renamed.2).
Definition resynced : SimFs * JournalState := ran (run_op roll_digest true true 1 OFsync recreated.1 recreated.2).

(** With the journaling feature, syncing after a rename moves the old name again: a file created under the old
    name since then replaces the renamed one, whose synced bytes are lost. *)
Theorem journaled_rename_clobbers :
  option_map a_bytes (view renamed.1 path_b) = Some [x01; x02; x03]
  /\ run_op roll_digest true true 1 (OWrite path_a 0 [x07]) renamed.1 renamed.2 = Ok recreated
  /\ option_map a_bytes (view recreated.1 path_b) = Some [x01; x02; x03]
  /\ option_map a_bytes (view recreated.1 path_a) = Some [x07]
  /\ run_op roll_digest true true 1 OFsync recreated.1 recreated.2 = Ok resynced
  /\ option_map a_bytes (view resynced.1 path_b) = Some [x07] /\ view resynced.1 path_a = None.
Proof. split_and!; vm_compute; reflexivity. Qed.
