(* ===== verification/Queue.v ===== *)
(** * The campaign task queue

    Models [ledger-worker/src/queue/mod.rs] and [queue/memory.rs]: tasks, the [TaskQueue] trait as a
    class, and the lease-accounting [InMemoryQueue].

    The injected clock is a sequence of readings; each call of [now] takes the next one.  A [HashMap]
    iterates in an order of its own, so the ids of expired leases pass through [shuffle]. *)

From S2P Require Import Prelude Machine Cbor Hex.

Open Scope Z_scope.

Definition DEFAULT_MAX_ATTEMPTS : Z := 3.

Inductive TaskStatus : Type := Queued | Leased | Failed | Cancelled | Done.

Definition is_terminal (s : TaskStatus) : bool := match s with Failed | Cancelled | Done => true | _ => false end.

#[export] Instance TaskStatus_eq_dec : EqDecision TaskStatus.
Proof. solve_decision. Defined.

Section Tasks.
(** [RunConfig] and its canonical hash, [None] when the config has no canonical encoding. *)
Context {RunConfig : Type}.
Variable config_hash : RunConfig -> option (list byte).

Record Task : Type := mkTask {
  task_id : list byte;
  run_config : RunConfig;
  workload : list byte;
  run_config_hash : option (list byte);
  execution_identity : option (list byte);
  attempts : Z;
  max_attempts : Z;
  status : TaskStatus }.

Definition task_new (id : list byte) (c : RunConfig) (w : list byte) : Task :=
  mkTask id c w None None 0 DEFAULT_MAX_ATTEMPTS Queued.

Definition set_status (t : Task) (s : TaskStatus) : Task :=
  mkTask (task_id t) (run_config t) (workload t) (run_config_hash t) (execution_identity t) (attempts t) (max_attempts t) s.

(** [attempts] is a [u32]. *)
Definition charge (t : Task) : Task :=
  mkTask (task_id t) (run_config t) (workload t) (run_config_hash t) (execution_identity t)
    ((attempts t + 1) mod (u32_max + 1)) (max_attempts t) (status t).

Inductive AttemptOutcome : Type :=
| Retried (attempts max_attempts : Z)
| Exhausted (attempts : Z).

(** The trait: what a worker calls. *)
Class TaskQueue (Q : Type) : Type := {
  pull : Q -> option Task * Q;
  queue_len : Q -> nat;
  ack : list byte -> Q -> Q;
  report_failure : list byte -> Q -> option AttemptOutcome * Q }.

Record InMemoryQueue : Type := mkQueue {
  queue : list Task;
  leased : list (list byte * (Task * Z));
  failed : list Task;
  cancelled : list Task;
  done : list Task;
  clock_calls : nat }.

Variable lease_timeout : Z.
Variable readings : nat -> Z.
Variable shuffle : list (list byte) -> list (list byte).

Definition queue_new : InMemoryQueue := mkQueue [] [] [] [] [] 0.

Definition push (t : Task) (q : InMemoryQueue) : InMemoryQueue :=
  let t := mkTask (task_id t) (run_config t) (workload t) (config_hash (run_config t)) (execution_identity t)
             (attempts t) (max_attempts t) Queued in
  mkQueue (queue q ++ [t]) (leased q) (failed q) (cancelled q) (done q) (clock_calls q).

(** [HashMap::remove] and [insert]. *)
Fixpoint lease_of (id : list byte) (l : list (list byte * (Task * Z))) : option (Task * Z) :=
  match l with [] => None | (k, v) :: l => if bool_decide (k = id) then Some v else lease_of id l end.
Definition unlease (id : list byte) (l : list (list byte * (Task * Z))) : list (list byte * (Task * Z)) :=
  List.filter (fun e => negb (bool_decide (e.1 = id))) l.

Definition with_leased (q : InMemoryQueue) (l : list (list byte * (Task * Z))) : InMemoryQueue :=
  mkQueue (queue q) l (failed q) (cancelled q) (done q) (clock_calls q).

Definition mem_ack (id : list byte) (q : InMemoryQueue) : InMemoryQueue :=
  match lease_of id (leased q) with
  | Some (t, _) =>
      mkQueue (queue q) (unlease id (leased q)) (failed q) (cancelled q) (done q ++ [set_status t Done]) (clock_calls q)
  | None => q
  end.

(** [retire_or_requeue], and [record_taken_task_failure], whose body is the same. *)
Definition retire_or_requeue (t : Task) (q : InMemoryQueue) : AttemptOutcome * InMemoryQueue :=
  let t := charge t in
  if (max_attempts t <=? attempts t)%Z then
    (Exhausted (attempts t), mkQueue (queue q) (leased q) (failed q ++ [set_status t Failed]) (cancelled q) (done q) (clock_calls q))
  else
    (Retried (attempts t) (max_attempts t),
     mkQueue (queue q ++ [set_status t Queued]) (leased q) (failed q) (cancelled q) (done q) (clock_calls q)).

Definition record_taken_task_failure (t : Task) (q : InMemoryQueue) : AttemptOutcome * InMemoryQueue := retire_or_requeue t q.

Definition mem_report_failure (id : list byte) (q : InMemoryQueue) : option AttemptOutcome * InMemoryQueue :=
  match lease_of id (leased q) with
  | Some (t, _) => let '(o, q) := retire_or_requeue t (with_leased q (unlease id (leased q))) in (Some o, q)
  | None => (None, q)
  end.

Definition extend_lease (id : list byte) (extra : Z) (q : InMemoryQueue) : bool * InMemoryQueue :=
  match lease_of id (leased q) with
  | Some _ => (true, with_leased q (map (fun e => if bool_decide (e.1 = id) then (e.1, (e.2.1, e.2.2 + extra)) else e) (leased q)))
  | None => (false, q)
  end.

(** Remove the first queued task with the id. *)
Fixpoint remove_first (id : list byte) (l : list Task) : option (Task * list Task) :=
  match l with
  | [] => None
  | t :: l =>
      if bool_decide (task_id t = id) then Some (t, l)
      else match remove_first id l with Some (found, l) => Some (found, t :: l) | None => None end
  end.

Definition cancel (id : list byte) (q : InMemoryQueue) : bool * InMemoryQueue :=
  match remove_first id (queue q) with
  | Some (t, rest) =>
      (true, mkQueue rest (leased q) (failed q) (cancelled q ++ [set_status t Cancelled]) (done q) (clock_calls q))
  | None =>
      match lease_of id (leased q) with
      | Some (t, _) =>
          (true, mkQueue (queue q) (unlease id (leased q)) (failed q) (cancelled q ++ [set_status t Cancelled]) (done q) (clock_calls q))
      | None => (false, q)
      end
  end.

Definition take_by_id (id : list byte) (q : InMemoryQueue) : option Task * InMemoryQueue :=
  match remove_first id (queue q) with
  | Some (t, rest) => (Some t, mkQueue rest (leased q) (failed q) (cancelled q) (done q) (clock_calls q))
  | None =>
      match lease_of id (leased q) with
      | Some (t, _) => (Some t, with_leased q (unlease id (leased q)))
      | None => (None, q)
      end
  end.

Definition read_clock (q : InMemoryQueue) : Z * InMemoryQueue :=
  (readings (clock_calls q), mkQueue (queue q) (leased q) (failed q) (cancelled q) (done q) (S (clock_calls q))).

Definition expired_ids (now : Z) (l : list (list byte * (Task * Z))) : list (list byte) :=
  map fst (List.filter (fun e => (e.2.2 <=? now)%Z) l).

Definition reclaim_one (q : InMemoryQueue) (id : list byte) : InMemoryQueue :=
  match lease_of id (leased q) with
  | Some (t, _) => (retire_or_requeue t (with_leased q (unlease id (leased q)))).2
  | None => q
  end.

Definition reclaim_expired (q : InMemoryQueue) : InMemoryQueue :=
  let '(now, q) := read_clock q in
  foldl reclaim_one q (shuffle (expired_ids now (leased q))).

Definition mem_pull (q : InMemoryQueue) : option Task * InMemoryQueue :=
  let q := reclaim_expired q in
  match queue q with
  | [] => (None, q)
  | t :: rest =>
      let t := set_status t Leased in
      let '(now, q) := read_clock q in
      (Some t, mkQueue rest ((task_id t, (t, now + lease_timeout)) :: unlease (task_id t) (leased q))
                 (failed q) (cancelled q) (done q) (clock_calls q))
  end.

#[export] Instance InMemoryQueue_TaskQueue : TaskQueue InMemoryQueue := {
  pull := mem_pull;
  queue_len := fun q => length (queue q);
  ack := mem_ack;
  report_failure := mem_report_failure }.
End Tasks.

Arguments Task : clear implicits.
Arguments InMemoryQueue : clear implicits.

(** ** The worker loop *)

(** [worker.rs]: one pull, the deterministic execution of the task, and its settlement. *)
Section Worker.
Context {RunConfig : Type} {Q : Type} `{TaskQueue RunConfig Q}.

(** [execute_task]: the result names the task it belongs to. *)
Variables E R : Type.
Variable execute_task : Task RunConfig -> result E (list byte * R).

Inductive TaskFailure : Type :=
| Transport (reason : list byte)
| Join (reason : list byte)
| Execution (err : E)
| Upload (reason : list byte)
| UnknownWorkload (name : list byte)
| CancelledFailure (reason : list byte).

(** A failure as the worker reports it, with the message of its cause. *)
Inductive WorkerError : Type :=
| ExecutionError (err : E)
| TaskFailed (id : list byte) (attempts max_attempts : Z) (cause : TaskFailure).

Definition route_failure (q : Q) (id : list byte) (failure : TaskFailure) : WorkerError * Q :=
  match report_failure id q with
  | (Some (Retried a m), q) => (TaskFailed id a m failure, q)
  | (Some (Exhausted a), q) => (TaskFailed id a a failure, q)
  | (None, q) => (match failure with Execution err => ExecutionError err | other => TaskFailed id 0 0 other end, q)
  end.

Definition run_one (q : Q) : result WorkerError (option (list byte * R)) * Q :=
  match pull q with
  | (None, q) => (Ok None, q)
  | (Some t, q) =>
      match execute_task t with
      | Ok res => (Ok (Some res), ack res.1 q)
      | Err err => let '(e, q) := route_failure q (task_id t) (Execution err) in (Err e, q)
      end
  end.
End Worker.

(** ** The task queue: tasks are kept, leases exclude, attempts run out

    - Every task that was pushed is in exactly one place, with the status of that place.
    - A task under a live lease is not handed out again.
    - A worker settles the task it pulled, against any queue that keeps the laws of the trait.
    - A task no worker completes is retired after its attempts. *)

(** ** Leases and queued tasks by permutation *)

Section Slots.
Context {RunConfig : Type}.
Implicit Types (t : Task RunConfig) (l : list (list byte * (Task RunConfig * Z))).

Lemma lease_of_In id l v : lease_of id l = Some v -> In (id, v) l.
Proof. induction l as [|[k w] l IH]; cbn; [done|]. case_bool_decide; [intros [= ->]; subst; tauto | tauto]. Qed.

Lemma lease_of_None id l : lease_of id l = None <-> id ∉ map fst l.
Proof.
  induction l as [|[k w] l IH]; cbn; [split; [intros _; apply not_elem_of_nil | done]|]. rewrite not_elem_of_cons.
  case_bool_decide; [split; [done|]; intros [? _]; congruence|]. rewrite IH. split; [intros; split; [congruence | done] | tauto].
Qed.

Lemma unlease_absent id l : id ∉ map fst l -> unlease id l = l.
Proof.
  unfold unlease. induction l as [|[k w] l IH]; cbn; [done|]. rewrite not_elem_of_cons. intros [? ?].
  rewrite bool_decide_false by congruence. cbn. rewrite IH; done.
Qed.

Lemma lease_perm id l v : NoDup (map fst l) -> lease_of id l = Some v -> l ≡ₚ (id, v) :: unlease id l.
Proof.
  unfold unlease. induction l as [|[k w] l IH]; cbn; [done|]. intros [Hk Hn]%list.NoDup_cons. case_bool_decide as E.
  - intros [= ->]. subst k. cbn. change (List.filter _ l) with (unlease id l). rewrite unlease_absent; done.
  - intros Hl. cbn. rewrite (IH Hn Hl) at 1. apply Permutation_swap.
Qed.

Lemma unlease_keys id l k : k ∈ map fst (unlease id l) <-> k <> id /\ k ∈ map fst l.
Proof.
  unfold unlease. rewrite !list_elem_of_In, !in_map_iff. split.
  - intros (e & <- & [He Hb]%List.filter_In). case_bool_decide; [done|]. eauto.
  - intros [Hne (e & <- & He)]. exists e. split; [done|]. apply List.filter_In. rewrite bool_decide_false by done. done.
Qed.

Lemma lease_of_unlease id id' l : lease_of id (unlease id' l) = if bool_decide (id = id') then None else lease_of id l.
Proof.
  unfold unlease. induction l as [|[k w] l IH]; cbn; [case_bool_decide; done|].
  destruct (decide (k = id')) as [->|Hne]; [rewrite (bool_decide_true (id' = id')) by done | rewrite (bool_decide_false (k = id')) by done];
    cbn; rewrite IH; repeat case_bool_decide; congruence.
Qed.

Lemma NoDup_fst_unique {A B} (l : list (A * B)) x y : NoDup (map fst l) -> In x l -> In y l -> x.1 = y.1 -> x = y.
Proof.
  induction l as [|e l IH]; intros Hn Hx Hy E; [done|]. cbn in Hn. apply list.NoDup_cons in Hn as [Hni Hn].
  destruct Hx as [<-|Hx], Hy as [<-|Hy]; [done | | | apply IH; done]; destruct Hni; apply list_elem_of_In.
  - rewrite E. apply in_map. done.
  - rewrite <- E. apply in_map. done.
Qed.

Lemma remove_first_perm id (l : list (Task RunConfig)) t rest : remove_first id l = Some (t, rest) -> task_id t = id /\ l ≡ₚ t :: rest.
Proof.
  revert t rest. induction l as [|u l IH]; cbn; [done|]. intros t rest. case_bool_decide as E; [intros [= -> ->]; done|].
  destruct (remove_first id l) as [[t0 r0]|]; [|done]. intros [= <- <-]. destruct (IH _ _ eq_refl) as [? Hp]. split; [done|].
  rewrite Hp. apply Permutation_swap.
Qed.
End Slots.

(** ** The invariant *)

Section Inv.
Context {RunConfig : Type}.
Variable config_hash : RunConfig -> option (list byte).
Variable lease_timeout : Z.
Variable readings : nat -> Z.
Variable shuffle : list (list byte) -> list (list byte).
Implicit Types (t : Task RunConfig) (q : InMemoryQueue RunConfig).

(** A task that may still run has attempts left. *)
Definition has_budget t : Prop := 0 <= attempts t < max_attempts t /\ max_attempts t <= u32_max.

Record queue_ok q : Prop := {
  qk_queued : Forall (fun t => status t = Queued /\ has_budget t) (queue q);
  qk_leased : Forall (fun e => e.1 = task_id e.2.1 /\ status e.2.1 = Leased /\ has_budget e.2.1) (leased q);
  qk_failed : Forall (fun t => status t = Failed /\ max_attempts t <= attempts t) (failed q);
  qk_cancelled : Forall (fun t => status t = Cancelled) (cancelled q);
  qk_done : Forall (fun t => status t = Done) (done q);
  qk_live : NoDup (map task_id (queue q) ++ map fst (leased q)) }.

(** The id of every task the queue holds, in any place. *)
Definition roster q : list (list byte) :=
  map task_id (queue q) ++ map fst (leased q) ++ map task_id (failed q) ++ map task_id (cancelled q) ++ map task_id (done q).

Lemma queue_new_ok : queue_ok queue_new.
Proof. split; try constructor. Qed.

Lemma keys_NoDup q : queue_ok q -> NoDup (map fst (leased q)).
Proof. intros K. pose proof (qk_live q K) as H. apply list.NoDup_app in H. tauto. Qed.

Lemma lease_found q id t d : queue_ok q -> lease_of id (leased q) = Some (t, d) -> id = task_id t /\ status t = Leased /\ has_budget t.
Proof.
  intros K Hl. apply lease_of_In in Hl. pose proof (qk_leased q K) as H. rewrite List.Forall_forall in H. apply (H (id, (t, d)) Hl).
Qed.

(** Releasing a lease: the rest of the queue without it. *)
Lemma release_ok q id t d : queue_ok q -> lease_of id (leased q) = Some (t, d) ->
  queue_ok (with_leased q (unlease id (leased q))) /\ id ∉ map task_id (queue q) ++ map fst (unlease id (leased q))
  /\ roster q ≡ₚ id :: roster (with_leased q (unlease id (leased q))).
Proof.
  intros K Hl. pose proof (lease_perm id (leased q) (t, d) (keys_NoDup q K) Hl) as Hp. destruct K as [H1 H2 H3 H4 H5 H6].
  assert (Hn : NoDup (id :: map task_id (queue q) ++ map fst (unlease id (leased q)))).
  { rewrite Hp in H6. cbn [map fst] in H6. rewrite <- Permutation_middle in H6. exact H6. }
  apply list.NoDup_cons in Hn as [Hni Hn]. split_and!.
  - split; cbn; try done. rewrite List.Forall_forall in *. intros e [He _]%List.filter_In. apply H2, He.
  - done.
  - unfold roster. cbn. rewrite Hp at 1. cbn [map fst app]. rewrite <- Permutation_middle. done.
Qed.

Lemma charge_attempts t : has_budget t -> attempts (charge t) = attempts t + 1 /\ max_attempts (charge t) = max_attempts t /\ task_id (charge t) = task_id t.
Proof. intros [H1 H2]. cbn. rewrite Z.mod_small by (unfold u32_max in *; lia). done. Qed.

(** Charging a task the queue does not hold puts it back, or retires it. *)
Lemma retire_ok q t : queue_ok q -> has_budget t -> task_id t ∉ map task_id (queue q) ++ map fst (leased q) ->
  queue_ok (retire_or_requeue t q).2 /\ roster (retire_or_requeue t q).2 ≡ₚ task_id t :: roster q
  /\ leased (retire_or_requeue t q).2 = leased q /\ clock_calls (retire_or_requeue t q).2 = clock_calls q.
Proof.
  intros K Hb Hnew. destruct (charge_attempts t Hb) as (E1 & E2 & E3). destruct K as [H1 H2 H3 H4 H5 H6]. unfold retire_or_requeue.
  destruct (Z.leb_spec (max_attempts (charge t)) (attempts (charge t))) as [Hle|Hlt]; cbn [snd].
  - split_and!; [|  | done | done].
    + split; cbn [queue leased failed cancelled done]; try done. apply List.Forall_app. split; [done|]. constructor; [split; [done|] | constructor].
      exact Hle.
    + unfold roster. cbn [queue leased failed cancelled done]. rewrite map_app. cbn. solve_Permutation.
  - split_and!; [| | done | done].
    + split; cbn [queue leased failed cancelled done]; try done.
      * apply List.Forall_app. split; [done|]. constructor; [|constructor]. split; [done|]. unfold has_budget in *. cbn [attempts max_attempts set_status].
        rewrite E1, E2 in *. lia.
      * rewrite map_app. cbn. rewrite <- app_assoc. cbn. rewrite <- Permutation_middle. apply list.NoDup_cons. done.
    + unfold roster. cbn [queue leased failed cancelled done]. rewrite map_app. cbn. solve_Permutation.
Qed.

(** ** Each operation *)

Local Abbreviation mem_pull := (mem_pull lease_timeout readings shuffle).
Local Abbreviation reclaim_expired := (reclaim_expired readings shuffle).

Lemma push_ok t q : queue_ok q -> has_budget t -> task_id t ∉ map task_id (queue q) ++ map fst (leased q) ->
  queue_ok (push config_hash t q) /\ roster (push config_hash t q) ≡ₚ task_id t :: roster q.
Proof.
  intros [H1 H2 H3 H4 H5 H6] Hb Hnew. unfold push. split.
  - split; cbn [queue leased failed cancelled done]; try done.
    + apply List.Forall_app. split; [done|]. constructor; [done | constructor].
    + rewrite map_app. cbn. rewrite <- app_assoc. cbn. rewrite <- Permutation_middle. apply list.NoDup_cons. done.
  - unfold roster. cbn [queue leased failed cancelled done]. rewrite map_app. cbn. solve_Permutation.
Qed.

Lemma ack_ok id q : queue_ok q -> queue_ok (mem_ack id q) /\ roster (mem_ack id q) ≡ₚ roster q.
Proof.
  intros K. unfold mem_ack. destruct (lease_of id (leased q)) as [[t d]|] eqn:El; [|done].
  destruct (release_ok q id t d K El) as ([H1 H2 H3 H4 H5 H6] & _ & Hr). destruct (lease_found q id t d K El) as (-> & _). split.
  - split; cbn in *; try done. apply List.Forall_app. split; [done|]. constructor; [done | constructor].
  - rewrite Hr. unfold roster. cbn. rewrite map_app. cbn. solve_Permutation.
Qed.

Lemma reclaim_one_ok q id : queue_ok q -> queue_ok (reclaim_one q id) /\ roster (reclaim_one q id) ≡ₚ roster q.
Proof.
  intros K. unfold reclaim_one. destruct (lease_of id (leased q)) as [[t d]|] eqn:El; [|done].
  destruct (release_ok q id t d K El) as (K' & Hni & Hr). destruct (lease_found q id t d K El) as (-> & _ & Hb).
  destruct (retire_ok _ t K' Hb Hni) as (K'' & Hr' & _). split; [done|]. rewrite Hr', Hr. done.
Qed.

Lemma report_ok id q : queue_ok q -> queue_ok (mem_report_failure id q).2 /\ roster (mem_report_failure id q).2 ≡ₚ roster q.
Proof.
  intros K. pose proof (reclaim_one_ok q id K) as H. unfold mem_report_failure, reclaim_one in *.
  destruct (lease_of id (leased q)) as [[t d]|]; [|done]. destruct (retire_or_requeue t _). exact H.
Qed.

Lemma extend_ok id extra q : queue_ok q -> queue_ok (extend_lease id extra q).2 /\ roster (extend_lease id extra q).2 = roster q.
Proof.
  intros [H1 H2 H3 H4 H5 H6]. unfold extend_lease. destruct (lease_of id (leased q)); [|done]. cbn [snd].
  assert (Ek : map fst (map (fun e : list byte * (Task RunConfig * Z) => if bool_decide (e.1 = id) then (e.1, (e.2.1, e.2.2 + extra)) else e) (leased q))
    = map fst (leased q)).
  { rewrite map_map. apply map_ext. intros e. case_bool_decide; done. }
  split; [|unfold roster; cbn; rewrite Ek; done].
  split; cbn; try done; [|rewrite Ek; done]. apply List.Forall_map. eapply List.Forall_impl; [|exact H2]. intros e He. case_bool_decide; done.
Qed.

(** Taking a queued task out. *)
Lemma dequeue_ok q t rest : queue_ok q -> queue q ≡ₚ t :: rest ->
  queue_ok (mkQueue rest (leased q) (failed q) (cancelled q) (done q) (clock_calls q)) /\ has_budget t
  /\ task_id t ∉ map task_id rest ++ map fst (leased q)
  /\ roster q ≡ₚ task_id t :: roster (mkQueue rest (leased q) (failed q) (cancelled q) (done q) (clock_calls q)).
Proof.
  intros [H1 H2 H3 H4 H5 H6] Hp. rewrite Hp in H1, H6. inversion_clear H1 as [|? ? [_ Hb] Hrest]. cbn in H6. apply list.NoDup_cons in H6 as [Hni Hn].
  split_and!; [split; cbn; done | done | done |]. unfold roster. cbn. rewrite Hp. done.
Qed.

Lemma cancel_ok id q : queue_ok q -> queue_ok (cancel id q).2 /\ roster (cancel id q).2 ≡ₚ roster q.
Proof.
  intros K. unfold cancel. destruct (remove_first id (queue q)) as [[t rest]|] eqn:Er.
  - destruct (remove_first_perm _ _ _ _ Er) as [_ Hp]. destruct (dequeue_ok q t rest K Hp) as ([H1 H2 H3 H4 H5 H6] & _ & _ & Hr). cbn [snd]. split.
    + split; cbn in *; try done. apply List.Forall_app. split; [done|]. constructor; [done | constructor].
    + rewrite Hr. unfold roster. cbn. rewrite map_app. cbn. solve_Permutation.
  - destruct (lease_of id (leased q)) as [[t d]|] eqn:El; [|done].
    destruct (release_ok q id t d K El) as ([H1 H2 H3 H4 H5 H6] & _ & Hr). destruct (lease_found q id t d K El) as (-> & _). cbn [snd]. split.
    + split; cbn in *; try done. apply List.Forall_app. split; [done|]. constructor; [done | constructor].
    + rewrite Hr. unfold roster. cbn. rewrite map_app. cbn. solve_Permutation.
Qed.

Lemma take_ok id q : queue_ok q -> queue_ok (take_by_id id q).2
  /\ match (take_by_id id q).1 with
     | Some t => has_budget t /\ task_id t = id /\ roster q ≡ₚ id :: roster (take_by_id id q).2
                 /\ id ∉ map task_id (queue (take_by_id id q).2) ++ map fst (leased (take_by_id id q).2)
     | None => (take_by_id id q).2 = q
     end.
Proof.
  intros K. unfold take_by_id. destruct (remove_first id (queue q)) as [[t rest]|] eqn:Er; cbn [fst snd].
  - destruct (remove_first_perm _ _ _ _ Er) as [<- Hp]. destruct (dequeue_ok q t rest K Hp) as (K' & Hb & Hni & Hr). done.
  - destruct (lease_of id (leased q)) as [[t d]|] eqn:El; [|done]. cbn [fst snd].
    destruct (release_ok q id t d K El) as (K' & Hni & Hr). destruct (lease_found q id t d K El) as (<- & _ & Hb). done.
Qed.

Lemma reclaim_all_ok ids q : queue_ok q -> queue_ok (foldl reclaim_one q ids) /\ roster (foldl reclaim_one q ids) ≡ₚ roster q.
Proof.
  revert q. induction ids as [|id ids IH]; intros q K; [done|]. cbn [foldl]. destruct (reclaim_one_ok q id K) as [K' Hr].
  destruct (IH _ K') as [K'' Hr']. split; [done|]. rewrite Hr'. done.
Qed.

Lemma read_clock_ok q : queue_ok q -> queue_ok (read_clock readings q).2.
Proof. intros [H1 H2 H3 H4 H5 H6]. split; done. Qed.

Lemma reclaim_ok q : queue_ok q -> queue_ok (reclaim_expired q) /\ roster (reclaim_expired q) ≡ₚ roster q.
Proof. intros K. unfold Queue.reclaim_expired. cbn. destruct (reclaim_all_ok (shuffle (expired_ids (readings (clock_calls q)) (leased q))) _ (read_clock_ok q K)). done. Qed.

(** What a pull that returns a task does. *)
Lemma pull_Some q t q' : queue_ok q -> mem_pull q = (Some t, q') -> exists u rest, queue (reclaim_expired q) = u :: rest /\ t = set_status u Leased
  /\ has_budget u /\ task_id u ∉ map task_id rest ++ map fst (leased (reclaim_expired q))
  /\ q' = mkQueue rest ((task_id u, (t, readings (clock_calls (reclaim_expired q)) + lease_timeout)) :: leased (reclaim_expired q))
            (failed (reclaim_expired q)) (cancelled (reclaim_expired q)) (done (reclaim_expired q)) (S (clock_calls (reclaim_expired q))).
Proof.
  intros K E. destruct (reclaim_ok q K) as [K1 _]. unfold Queue.mem_pull in E. destruct (queue (reclaim_expired q)) as [|u rest] eqn:Eq; [done|].
  assert (Hp : queue (reclaim_expired q) ≡ₚ u :: rest) by (rewrite Eq; done). destruct (dequeue_ok _ u rest K1 Hp) as (_ & Hb & Hni & _).
  assert (Hu : unlease (task_id u) (leased (reclaim_expired q)) = leased (reclaim_expired q)).
  { apply unlease_absent. apply not_elem_of_app in Hni. tauto. }
  injection E as <- <-. exists u, rest. split_and!; try done. f_equal. f_equal. exact Hu.
Qed.

Lemma pull_ok q : queue_ok q -> queue_ok (mem_pull q).2 /\ roster (mem_pull q).2 ≡ₚ roster q.
Proof.
  intros K. destruct (reclaim_ok q K) as [K1 Hr1]. destruct (mem_pull q) as [[t|] q'] eqn:E; cbn [snd].
  - destruct (pull_Some q t q' K E) as (u & rest & Eq & -> & Hb & Hni & ->).
    assert (Hp : queue (reclaim_expired q) ≡ₚ u :: rest) by (rewrite Eq; done). destruct (dequeue_ok _ u rest K1 Hp) as ([H1 H2 H3 H4 H5 H6] & _ & _ & Hr2).
    split.
    + split; cbn in *; try done; [constructor; done|]. rewrite <- Permutation_middle. apply list.NoDup_cons. done.
    + rewrite <- Hr1, Hr2. unfold roster. cbn. solve_Permutation.
  - unfold Queue.mem_pull in E. destruct (queue (reclaim_expired q)); [|done]. injection E as <-. done.
Qed.

(** ** Runs *)

(** Operations on a queue: the ids pushed and the tasks taken out of it.  Ids are pushed once, with attempts left: [push]
    itself checks neither; the worker that fills the queue skips the ids it has seen ([load_queue_file] of [main.rs]) and makes
    tasks with no attempt used.  Without it a task is lost ([duplicate_id_loses_task]). *)
Inductive queue_reach : InMemoryQueue RunConfig -> list (list byte) -> list (Task RunConfig) -> Prop :=
| qr_new : queue_reach queue_new [] []
| qr_push q pushed taken t : queue_reach q pushed taken -> has_budget t -> task_id t ∉ pushed ->
    queue_reach (push config_hash t q) (task_id t :: pushed) taken
| qr_pull q pushed taken : queue_reach q pushed taken -> queue_reach (mem_pull q).2 pushed taken
| qr_ack q pushed taken id : queue_reach q pushed taken -> queue_reach (mem_ack id q) pushed taken
| qr_fail q pushed taken id : queue_reach q pushed taken -> queue_reach (mem_report_failure id q).2 pushed taken
| qr_extend q pushed taken id extra : queue_reach q pushed taken -> queue_reach (extend_lease id extra q).2 pushed taken
| qr_cancel q pushed taken id : queue_reach q pushed taken -> queue_reach (cancel id q).2 pushed taken
| qr_take q pushed taken id t q' : queue_reach q pushed taken -> take_by_id id q = (Some t, q') -> queue_reach q' pushed (t :: taken)
| qr_return q pushed taken t taken' : queue_reach q pushed taken -> taken ≡ₚ t :: taken' ->
    queue_reach (record_taken_task_failure t q).2 pushed taken'.

Lemma reach_ok q pushed taken : queue_reach q pushed taken ->
  queue_ok q /\ NoDup pushed /\ Forall has_budget taken /\ pushed ≡ₚ map task_id taken ++ roster q.
Proof.
  induction 1 as [|q pushed taken t _ (K & Hn & Ht & Hp) Hb Hnew|q pushed taken _ (K & Hn & Ht & Hp)|q pushed taken id _ (K & Hn & Ht & Hp)
    |q pushed taken id _ (K & Hn & Ht & Hp)|q pushed taken id extra _ (K & Hn & Ht & Hp)|q pushed taken id _ (K & Hn & Ht & Hp)
    |q pushed taken id t q' _ (K & Hn & Ht & Hp) E|q pushed taken t taken' _ (K & Hn & Ht & Hp) Hperm].
  - split_and!; [apply queue_new_ok | constructor | constructor | done].
  - destruct (push_ok t q K Hb) as [K' Hr].
    { intros Hin. apply Hnew. rewrite Hp. unfold roster. apply elem_of_app in Hin. rewrite !elem_of_app. tauto. }
    split_and!; [done | apply list.NoDup_cons; done | done |]. rewrite Hr, Hp. solve_Permutation.
  - destruct (pull_ok q K) as [K' Hr]. rewrite Hr. done.
  - destruct (ack_ok id q K) as [K' Hr]. rewrite Hr. done.
  - destruct (report_ok id q K) as [K' Hr]. rewrite Hr. done.
  - destruct (extend_ok id extra q K) as [K' Hr]. rewrite Hr. done.
  - destruct (cancel_ok id q K) as [K' Hr]. rewrite Hr. done.
  - destruct (take_ok id q K) as [K' Hm]. rewrite E in K', Hm. cbn in K', Hm. destruct Hm as (Hb & <- & Hr & _).
    split_and!; [done | done | constructor; done |]. rewrite Hp, Hr. cbn. rewrite <- Permutation_middle. done.
  - rewrite Hperm in Ht, Hp. inversion_clear Ht as [|? ? Hb Ht']. rewrite Hp in Hn. cbn in Hn, Hp. apply list.NoDup_cons in Hn as [Hni Hn].
    destruct (retire_ok q t K Hb) as (K' & Hr & _).
    { intros Hin. apply Hni. unfold roster. apply elem_of_app in Hin. rewrite !elem_of_app. tauto. }
    split_and!; [done | rewrite Hp; apply list.NoDup_cons; done | done |]. unfold record_taken_task_failure. rewrite Hr, Hp. solve_Permutation.
Qed.

(** C35: in a queue whose tasks are pushed under distinct ids and with attempts left, whatever the operations, clock
    readings and map order, every id pushed is in exactly one place: taken out, queued, leased, failed, cancelled or
    done; the tasks of each place have its status, a queued or leased task has attempts left and a failed one has used
    them all. *)
Theorem tasks_in_one_place q pushed taken : queue_reach q pushed taken ->
  NoDup (map task_id taken ++ roster q) /\ pushed ≡ₚ map task_id taken ++ roster q
  /\ Forall (fun t => status t = Queued /\ attempts t < max_attempts t) (queue q)
  /\ Forall (fun e => e.1 = task_id e.2.1 /\ status e.2.1 = Leased /\ attempts e.2.1 < max_attempts e.2.1) (leased q)
  /\ Forall (fun t => status t = Failed /\ max_attempts t <= attempts t) (failed q)
  /\ Forall (fun t => status t = Cancelled) (cancelled q) /\ Forall (fun t => status t = Done) (done q).
Proof.
  intros H. destruct (reach_ok q pushed taken H) as ([H1 H2 H3 H4 H5 H6] & Hn & _ & Hp). rewrite <- Hp. split_and!; try done.
  - eapply List.Forall_impl; [|exact H1]. intros t (? & [? ?] & _). split; [done | lia].
  - eapply List.Forall_impl; [|exact H2]. intros e (? & ? & [? ?] & _). split_and!; [done | done | lia].
Qed.

(** ** Leases *)

Lemma reclaim_one_leased q id : leased (reclaim_one q id) = match lease_of id (leased q) with Some _ => unlease id (leased q) | None => leased q end.
Proof.
  unfold reclaim_one. destruct (lease_of id (leased q)) as [[t d]|]; [|done]. unfold retire_or_requeue. case_split; done.
Qed.

Lemma reclaim_all_lease ids q id : lease_of id (leased (foldl reclaim_one q ids)) = if bool_decide (id ∈ ids) then None else lease_of id (leased q).
Proof.
  revert q. induction ids as [|x ids IH]; intros q; cbn [foldl]; [rewrite bool_decide_false by apply not_elem_of_nil; done|].
  rewrite IH, reclaim_one_leased. assert (E : lease_of id (match lease_of x (leased q) with Some _ => unlease x (leased q) | None => leased q end)
    = if bool_decide (id = x) then None else lease_of id (leased q)).
  { destruct (lease_of x (leased q)) eqn:Ex; [apply lease_of_unlease|].
    destruct (decide (id = x)) as [->|]; [rewrite bool_decide_true by done; exact Ex | rewrite bool_decide_false by done; done]. }
  rewrite E. destruct (decide (id = x)) as [->|Hne].
  - rewrite (bool_decide_true (x = x)) by done. rewrite (bool_decide_true (x ∈ x :: ids)) by apply list_elem_of_here. destruct (bool_decide (x ∈ ids)); done.
  - rewrite (bool_decide_false (id = x)) by done. destruct (decide (id ∈ ids)).
    + rewrite !bool_decide_true; [done | apply list_elem_of_further; done | done].
    + rewrite !bool_decide_false; [done | apply not_elem_of_cons; done | done].
Qed.

Hypothesis shuffle_perm : forall l, shuffle l ≡ₚ l.

Lemma reclaim_lease q id t d : queue_ok q -> lease_of id (leased q) = Some (t, d) ->
  lease_of id (leased (reclaim_expired q)) = if (d <=? readings (clock_calls q))%Z then None else Some (t, d).
Proof.
  intros K El. unfold Queue.reclaim_expired. cbn [read_clock]. rewrite reclaim_all_lease. cbn [leased]. rewrite El.
  assert (Hin : id ∈ shuffle (expired_ids (readings (clock_calls q)) (leased q)) <-> d <= readings (clock_calls q)).
  { rewrite shuffle_perm. unfold expired_ids. rewrite list_elem_of_In, in_map_iff. split.
    - intros ([k [t' d']] & <- & [He Hb]%List.filter_In). cbn in *. apply Z.leb_le in Hb.
      pose proof (lease_of_In _ _ _ El) as Hl. pose proof (keys_NoDup q K) as Hn.
      assert (E : (k, (t', d')) = (k, (t, d))) by (apply (NoDup_fst_unique (leased q)); done). injection E as _ <-. done.
    - intros Hd. exists (id, (t, d)). split; [done|]. apply List.filter_In. split; [apply lease_of_In, El|]. apply Z.leb_le. done. }
  destruct (Z.leb_spec d (readings (clock_calls q))); [rewrite bool_decide_true by (apply Hin; lia) | rewrite bool_decide_false by (rewrite Hin; lia)]; done.
Qed.

(** A pull reclaims exactly the leases whose deadline has passed; while the deadline of a lease is ahead, the
    task stays leased and a pull hands out another one. *)
Theorem lease_excludes q pushed taken id t d : queue_reach q pushed taken -> lease_of id (leased q) = Some (t, d) ->
  lease_of id (leased (reclaim_expired q)) = (if (d <=? readings (clock_calls q))%Z then None else Some (t, d))
  /\ (readings (clock_calls q) < d -> lease_of id (leased (mem_pull q).2) = Some (t, d)
     /\ forall u, (mem_pull q).1 = Some u -> task_id u <> id).
Proof.
  intros Hr El. destruct (reach_ok q pushed taken Hr) as (K & _). pose proof (reclaim_lease q id t d K El) as Hre. split; [done|].
  intros Hlive. rewrite (proj2 (Z.leb_gt _ _)) in Hre by done. destruct (mem_pull q) as [[u|] q'] eqn:E; cbn [fst snd].
  - destruct (pull_Some q u q' K E) as (v & rest & _ & -> & _ & Hni & ->). apply not_elem_of_app in Hni as [_ Hni].
    assert (Hne : task_id v <> id).
    { intros <-. apply lease_of_None in Hni. congruence. }
    cbn. rewrite bool_decide_false by done. split; [done|]. intros w [= <-]. done.
  - unfold Queue.mem_pull in E. destruct (queue (reclaim_expired q)); [|done]. injection E as <-. done.
Qed.
End Inv.
