(* ===== verification/WorkerProofs.v ===== *)
(** * The worker against the queue

    The laws a [TaskQueue] keeps towards a worker, the worker's theorem from those laws alone, the
    in-memory queue as an instance, and the end of the worker loop. *)

From S2P Require Import Prelude Machine Cbor Hex Queue.

Open Scope Z_scope.

(** ** The interface *)

Section Laws.
Context {RunConfig : Type}.

(** What the queue promises: a pulled task is held under its id, and acknowledging or failing a held
    task moves it to one place. *)
Class TaskQueueLaws (Q : Type) `{TaskQueue RunConfig Q} : Type := {
  tq_ok : Q -> Prop;
  tq_waiting : Q -> list (Task RunConfig);
  tq_held : Q -> list byte -> option (Task RunConfig);
  tq_failed : Q -> list (Task RunConfig);
  tq_done : Q -> list (Task RunConfig);
  tq_pull_none q q' : tq_ok q -> pull q = (None, q') -> tq_ok q' /\ tq_waiting q' = [];
  tq_pull_some q q' t : tq_ok q -> pull q = (Some t, q') -> tq_ok q' /\ tq_held q' (task_id t) = Some t;
  tq_ack q id t : tq_ok q -> tq_held q id = Some t ->
    tq_ok (ack id q) /\ tq_held (ack id q) id = None /\ tq_done (ack id q) = tq_done q ++ [set_status t Done]
    /\ tq_waiting (ack id q) = tq_waiting q /\ tq_failed (ack id q) = tq_failed q;
  tq_fail q id t o q' : tq_ok q -> tq_held q id = Some t -> report_failure id q = (o, q') ->
    tq_ok q' /\ tq_held q' id = None /\ tq_done q' = tq_done q
    /\ if (max_attempts t <=? attempts t + 1)%Z
       then o = Some (Exhausted (attempts t + 1)) /\ tq_failed q' = tq_failed q ++ [set_status (charge t) Failed]
            /\ tq_waiting q' = tq_waiting q
       else o = Some (Retried (attempts t + 1) (max_attempts t)) /\ tq_waiting q' = tq_waiting q ++ [set_status (charge t) Queued]
            /\ tq_failed q' = tq_failed q }.

Context {Q : Type} `{TaskQueueLaws Q}.
Context {E R : Type}.
Variable execute_task : Task RunConfig -> result E (list byte * R).
Hypothesis result_names_task : forall t res, execute_task t = Ok res -> res.1 = task_id t.

(** A worker settles what it pulls, over any queue that keeps the laws: an empty run leaves nothing waiting, a
    successful one ends with the task done, a failed one ends with the task charged one attempt, at the back of the
    queue or, when that was the last one, failed; in each case the task is no longer held. *)
Theorem worker_settles q r q' : tq_ok q -> run_one E R execute_task q = (r, q') ->
  tq_ok q' /\
  match r with
  | Ok None => tq_waiting q' = []
  | Ok (Some res) => exists t q1, pull q = (Some t, q1) /\ execute_task t = Ok res /\ tq_held q' (task_id t) = None
      /\ tq_done q' = tq_done q1 ++ [set_status t Done] /\ tq_waiting q' = tq_waiting q1 /\ tq_failed q' = tq_failed q1
  | Err e => exists t q1 err, pull q = (Some t, q1) /\ execute_task t = Err err /\ tq_held q' (task_id t) = None /\ tq_done q' = tq_done q1
      /\ if (max_attempts t <=? attempts t + 1)%Z
         then e = TaskFailed E (task_id t) (attempts t + 1) (attempts t + 1) (Execution E err)
              /\ tq_failed q' = tq_failed q1 ++ [set_status (charge t) Failed] /\ tq_waiting q' = tq_waiting q1
         else e = TaskFailed E (task_id t) (attempts t + 1) (max_attempts t) (Execution E err)
              /\ tq_waiting q' = tq_waiting q1 ++ [set_status (charge t) Queued] /\ tq_failed q' = tq_failed q1
  end.
Proof.
  intros K Er. unfold run_one in Er. destruct (pull q) as [[t|] q1] eqn:Ep.
  - destruct (tq_pull_some q q1 t K Ep) as [K1 Hh]. destruct (execute_task t) as [res|err] eqn:Ee.
    + injection Er as <- <-. rewrite (result_names_task t res Ee). destruct (tq_ack q1 (task_id t) t K1 Hh) as (K2 & ? & ? & ? & ?).
      split; [done|]. exists t, q1. done.
    + unfold route_failure in Er. destruct (report_failure (task_id t) q1) as [o q2] eqn:Ef.
      destruct (tq_fail q1 (task_id t) t o q2 K1 Hh Ef) as (K2 & Hn & Hd & Hs).
      destruct (Z.leb_spec (max_attempts t) (attempts t + 1)); destruct Hs as (-> & Hs1 & Hs2); injection Er as <- <-;
        (split; [done|]; exists t, q1, err; split_and!; try done).
      * rewrite (proj2 (Z.leb_le _ _)) by done. done.
      * rewrite (proj2 (Z.leb_gt _ _)) by done. done.
  - destruct (tq_pull_none q q1 K Ep) as [K1 Hw]. injection Er as <- <-. done.
Qed.
End Laws.

(** ** The in-memory queue keeps the laws *)

Section Memory.
Context {RunConfig : Type}.
Variable lease_timeout : Z.
Variable readings : nat -> Z.
Variable shuffle : list (list byte) -> list (list byte).
Implicit Types (t : Task RunConfig) (q : InMemoryQueue RunConfig).

Local Abbreviation mem_pull := (mem_pull lease_timeout readings shuffle).

Definition held_by q (id : list byte) : option (Task RunConfig) := option_map fst (lease_of id (leased q)).

Lemma held_lease q id t : held_by q id = Some t -> exists d, lease_of id (leased q) = Some (t, d).
Proof. unfold held_by. destruct (lease_of id (leased q)) as [[u d]|]; [|done]. intros [= ->]. eauto. Qed.

Lemma pull_none q q' : queue_ok q -> mem_pull q = (None, q') -> queue_ok q' /\ queue q' = [].
Proof.
  intros K E. destruct (pull_ok lease_timeout readings shuffle q K) as [K' _]. rewrite E in K'. split; [exact K'|].
  unfold Queue.mem_pull in E. destruct (queue (reclaim_expired readings shuffle q)) eqn:Eq; [|done]. injection E as <-. exact Eq.
Qed.

Lemma pull_some q q' t : queue_ok q -> mem_pull q = (Some t, q') -> queue_ok q' /\ held_by q' (task_id t) = Some t.
Proof.
  intros K E. destruct (pull_ok lease_timeout readings shuffle q K) as [K' _]. rewrite E in K'. split; [exact K'|].
  destruct (pull_Some lease_timeout readings shuffle q t q' K E) as (u & rest & _ & -> & _ & _ & ->). unfold held_by. cbn.
  rewrite bool_decide_true by done. done.
Qed.

Lemma ack_law q id t : queue_ok q -> held_by q id = Some t ->
  queue_ok (mem_ack id q) /\ held_by (mem_ack id q) id = None /\ done (mem_ack id q) = done q ++ [set_status t Done]
  /\ queue (mem_ack id q) = queue q /\ failed (mem_ack id q) = failed q.
Proof.
  intros K Hh. destruct (held_lease q id t Hh) as [d Hd]. split; [apply ack_ok; done|]. unfold mem_ack, held_by. rewrite Hd. cbn [leased done queue failed].
  rewrite lease_of_unlease, bool_decide_true by done. done.
Qed.

Lemma fail_law q id t o q' : queue_ok q -> held_by q id = Some t -> mem_report_failure id q = (o, q') ->
  queue_ok q' /\ held_by q' id = None /\ done q' = done q
  /\ if (max_attempts t <=? attempts t + 1)%Z
     then o = Some (Exhausted (attempts t + 1)) /\ failed q' = failed q ++ [set_status (charge t) Failed] /\ queue q' = queue q
     else o = Some (Retried (attempts t + 1) (max_attempts t)) /\ queue q' = queue q ++ [set_status (charge t) Queued] /\ failed q' = failed q.
Proof.
  intros K Hh E. destruct (held_lease q id t Hh) as [d Hd]. destruct (lease_found q id t d K Hd) as (_ & _ & Hb).
  destruct (charge_attempts t Hb) as (E1 & E2 & _).
  split; [pose proof (report_ok id q K) as [K' _]; rewrite E in K'; exact K'|].
  unfold mem_report_failure in E. rewrite Hd in E. unfold retire_or_requeue in E. rewrite E2 in E. rewrite E1 in E.
  destruct (Z.leb_spec (max_attempts t) (attempts t + 1)) as [Hle|Hgt]; injection E as <- <-; unfold held_by; cbn [leased done queue failed with_leased];
    rewrite lease_of_unlease, bool_decide_true by done; done.
Qed.

#[export] Instance InMemoryQueue_Laws : @TaskQueueLaws RunConfig (InMemoryQueue RunConfig) (InMemoryQueue_TaskQueue lease_timeout readings shuffle) := {
  tq_ok := queue_ok;
  tq_waiting := queue;
  tq_held := held_by;
  tq_failed := failed;
  tq_done := done;
  tq_pull_none := pull_none;
  tq_pull_some := pull_some;
  tq_ack := ack_law;
  tq_fail := fail_law }.

(** ** The loop ends *)

(** Attempts left in the tasks that may still run. *)
Definition attempts_left (l : list (Task RunConfig)) : Z := foldr (fun t acc => max_attempts t - attempts t + acc) 0 l.
Definition live_tasks q : list (Task RunConfig) := queue q ++ map (fun e => e.2.1) (leased q).
Definition work q : Z := attempts_left (live_tasks q).

#[local] Instance attempts_left_perm : Proper ((≡ₚ) ==> eq) attempts_left.
Proof. intros l k. unfold attempts_left. induction 1; cbn [foldr]; lia. Qed.

Lemma attempts_left_app l k : attempts_left (l ++ k) = attempts_left l + attempts_left k.
Proof. unfold attempts_left. induction l as [|t l IH]; cbn [foldr app]; lia. Qed.

Lemma work_nonneg q : queue_ok q -> 0 <= work q.
Proof.
  intros [H1 H2 _ _ _ _]. unfold work, live_tasks. rewrite attempts_left_app.
  assert (Ha : forall l, Forall has_budget l -> 0 <= attempts_left l).
  { unfold attempts_left. induction 1 as [|t l [? ?] _ IH]; cbn [foldr]; lia. }
  pose proof (Ha (queue q)). pose proof (Ha (map (fun e => e.2.1) (leased q))).
  assert (Forall has_budget (queue q)) by (eapply List.Forall_impl; [|exact H1]; intros ? [_ ?]; done).
  assert (Forall has_budget (map (fun e => e.2.1) (leased q))).
  { apply List.Forall_map. eapply List.Forall_impl; [|exact H2]. intros ? (_ & _ & ?). done. }
  specialize (H H3). specialize (H0 H4). lia.
Qed.

(** Releasing a lease, then charging its task or not. *)
Lemma release_work q id t d : queue_ok q -> lease_of id (leased q) = Some (t, d) ->
  work (with_leased q (unlease id (leased q))) = work q - (max_attempts t - attempts t).
Proof.
  intros K Hd. pose proof (lease_perm id (leased q) (t, d) (keys_NoDup q K) Hd) as Hp. unfold work, live_tasks. cbn [queue leased with_leased].
  rewrite (attempts_left_perm _ _ (Permutation_app_head (queue q) (Permutation_map (fun e => e.2.1) Hp))). cbn [map fst snd].
  rewrite !attempts_left_app. unfold attempts_left at 4. cbn [foldr]. fold (attempts_left (map (fun e => e.2.1) (unlease id (leased q)))). lia.
Qed.

Lemma retire_work q t : has_budget t -> work (retire_or_requeue t q).2 <= work q + (max_attempts t - attempts t) - 1.
Proof.
  intros Hb. destruct (charge_attempts t Hb) as (E1 & E2 & _). unfold retire_or_requeue.
  destruct (Z.leb_spec (max_attempts (charge t)) (attempts (charge t))); cbn [snd]; unfold work, live_tasks; cbn [queue leased].
  - destruct Hb. lia.
  - rewrite !attempts_left_app. unfold attempts_left at 2. cbn [foldr set_status attempts max_attempts].
    change (attempts (set_status (charge t) Queued)) with (attempts (charge t)).
    change (max_attempts (set_status (charge t) Queued)) with (max_attempts (charge t)). lia.
Qed.

Lemma charged_work q id t d : queue_ok q -> lease_of id (leased q) = Some (t, d) ->
  work (retire_or_requeue t (with_leased q (unlease id (leased q)))).2 <= work q - 1.
Proof.
  intros K Hd. pose proof (release_work q id t d K Hd). destruct (lease_found q id t d K Hd) as (_ & _ & Hb).
  pose proof (retire_work (with_leased q (unlease id (leased q))) t Hb). lia.
Qed.

Lemma reclaim_work q : queue_ok q -> work (reclaim_expired readings shuffle q) <= work q.
Proof.
  intros K. unfold reclaim_expired. cbn [read_clock]. set (q0 := mkQueue _ _ _ _ _ _).
  assert (K0 : queue_ok q0) by (apply (read_clock_ok readings q K)). change (work q) with (work q0). clearbody q0. clear K.
  generalize (shuffle (expired_ids (readings (clock_calls q)) (leased q0))) as ids. revert K0. intros K0 ids. revert q0 K0.
  induction ids as [|id ids IH]; intros q0 K0; [done|]. cbn [foldl]. destruct (reclaim_one_ok q0 id K0) as [K1 _]. specialize (IH _ K1).
  enough (work (reclaim_one q0 id) <= work q0) by lia. unfold reclaim_one.
  destruct (lease_of id (leased q0)) as [[t d]|] eqn:El; [|lia]. pose proof (charged_work q0 id t d K0 El). lia.
Qed.

Lemma pull_work q t q' : queue_ok q -> mem_pull q = (Some t, q') -> work q' <= work q.
Proof.
  intros K E. pose proof (reclaim_work q K) as Hr. destruct (pull_Some lease_timeout readings shuffle q t q' K E) as (u & rest & Eq & -> & _ & _ & ->).
  unfold work, live_tasks in *. rewrite Eq in Hr. cbn [queue leased map fst snd app] in *. rewrite <- Permutation_middle. exact Hr.
Qed.

Context {E R : Type}.
Variable execute_task : Task RunConfig -> result E (list byte * R).
Hypothesis result_names_task : forall t res, execute_task t = Ok res -> res.1 = task_id t.

Local Abbreviation run_one := (@run_one RunConfig (InMemoryQueue RunConfig) (InMemoryQueue_TaskQueue lease_timeout readings shuffle) E R execute_task).

Lemma run_one_work q : queue_ok q -> queue_ok (run_one q).2 /\ ((run_one q).1 = Ok None /\ queue (run_one q).2 = [] \/ work (run_one q).2 <= work q - 1).
Proof.
  intros K. unfold Queue.run_one. change (pull q) with (mem_pull q). destruct (mem_pull q) as [[t|] q1] eqn:Ep.
  - pose proof (pull_work q t q1 K Ep) as Hw. destruct (pull_some q q1 t K Ep) as [K1 Hh]. destruct (held_lease q1 _ t Hh) as [d Hd].
    destruct (execute_task t) as [res|err] eqn:Ee; cbn [fst snd].
    + rewrite (result_names_task t res Ee). split; [apply ack_ok; done|]. right. change (ack (task_id t) q1) with (mem_ack (task_id t) q1).
      unfold mem_ack. rewrite Hd. pose proof (release_work q1 (task_id t) t d K1 Hd) as Hl. destruct (lease_found q1 _ t d K1 Hd) as (_ & _ & [? ?]).
      unfold work, live_tasks in *. cbn [queue leased with_leased] in *. lia.
    + unfold route_failure. change (report_failure (task_id t) q1) with (mem_report_failure (task_id t) q1).
      pose proof (report_ok (task_id t) q1 K1) as [K2 _]. pose proof (charged_work q1 (task_id t) t d K1 Hd) as Hc.
      unfold mem_report_failure in *. rewrite Hd in *. destruct (retire_or_requeue t _) as [o q2]. cbn [snd] in *.
      destruct o as [a m|a]; cbn [fst snd]; (split; [done|]; right; lia).
  - destruct (pull_none q q1 K Ep) as [K1 Hq]. split; [done|]. left. done.
Qed.

Fixpoint run_many (n : nat) q : InMemoryQueue RunConfig := match n with O => q | S n => run_many n (run_one q).2 end.

(** C36: the worker loop drains the queue: whatever the executions do, after at most as many runs as there are
    attempts left in the queued and leased tasks, a run finds the queue empty. *)
Theorem worker_drains q : queue_ok q ->
  exists n, Z.of_nat n <= work q /\ (run_one (run_many n q)).1 = Ok None /\ queue (run_one (run_many n q)).2 = [].
Proof.
  intros K. remember (Z.to_nat (work q)) as k eqn:Ek. revert q K Ek. induction k as [k IH] using lt_wf_ind. intros q K ->.
  pose proof (work_nonneg q K). destruct (run_one_work q K) as [K' [[H1 H2]|Hw]].
  - exists 0%nat. done.
  - pose proof (work_nonneg _ K'). destruct (IH (Z.to_nat (work (run_one q).2))) with (q := (run_one q).2) as (n & Hn & Hr); [lia | done | done |].
    exists (S n). split; [lia | exact Hr].
Qed.
End Memory.

(** ** Samples *)

Definition no_hash (_ : unit) : option (list byte) := None.
Definition ticks (n : nat) : Z := Z.of_nat n.
Definition in_order (l : list (list byte)) : list (list byte) := l.
Definition task_a : Task unit := mkTask [x61] tt [] None None 0 2 Queued.
Definition task_b : Task unit := mkTask [x62] tt [] None None 0 2 Queued.
Definition two_tasks : InMemoryQueue unit := push no_hash task_b (push no_hash task_a queue_new).
Definition a_leased : InMemoryQueue unit := (mem_pull 10 ticks in_order two_tasks).2.

Lemma sample_budget (t : Task unit) : t = task_a \/ t = task_b -> has_budget t.
Proof. intros [-> | ->]; repeat split; cbn; unfold u32_max; lia. Qed.

Lemma two_tasks_reach : queue_reach no_hash 10 ticks in_order two_tasks [[x62]; [x61]] [].
Proof.
  apply (qr_push no_hash 10 ticks in_order (push no_hash task_a queue_new) [[x61]] [] task_b); [|apply sample_budget; tauto|].
  - apply (qr_push no_hash 10 ticks in_order queue_new [] [] task_a); [constructor | apply sample_budget; tauto | apply not_elem_of_nil].
  - intros H%list_elem_of_singleton. discriminate H.
Qed.

Lemma a_leased_reach : queue_reach no_hash 10 ticks in_order a_leased [[x62]; [x61]] [].
Proof. apply qr_pull, two_tasks_reach. Qed.

(** Pushing an id that is leased, and pulling it, overwrites the lease: of the two tasks pushed one is left. *)
Lemma duplicate_id_loses_task :
  roster (mem_pull 10 ticks in_order (push no_hash task_a (mem_pull 10 ticks in_order (push no_hash task_a queue_new)).2)).2 = [[x61]].
Proof. vm_compute. reflexivity. Qed.

Lemma tasks_in_one_place_witness :
  [[x62]; [x61]] ≡ₚ roster a_leased /\ map task_id (queue a_leased) = [[x62]] /\ map fst (leased a_leased) = [[x61]].
Proof.
  destruct (tasks_in_one_place no_hash 10 ticks in_order a_leased [[x62]; [x61]] [] a_leased_reach) as (_ & H & _).
  split; [exact H | split; reflexivity].
Defined.

(** The lease of the first task runs to 11; a pull at 2 hands out the second one. *)
Lemma lease_excludes_witness : exists t d,
  lease_of [x61] (leased a_leased) = Some (t, d) /\ lease_of [x61] (leased (mem_pull 10 ticks in_order a_leased).2) = Some (t, d).
Proof.
  exists (set_status task_a Leased), 11.
  split; [reflexivity|]. apply (lease_excludes no_hash 10 ticks in_order (fun l => Permutation_refl l) a_leased [[x62]; [x61]] []);
    [exact a_leased_reach | reflexivity | vm_compute; reflexivity].
Defined.

Definition always_fails (t : Task unit) : result unit (list byte * unit) := Err tt.

Lemma worker_settles_witness : exists e q',
  @run_one unit _ (InMemoryQueue_TaskQueue 10 ticks in_order) unit unit always_fails two_tasks = (Err e, q')
  /\ e = TaskFailed unit [x61] 1 2 (Execution unit tt) /\ held_by q' [x61] = None.
Proof.
  destruct (@run_one unit _ (InMemoryQueue_TaskQueue 10 ticks in_order) unit unit always_fails two_tasks) as [r q'] eqn:Er.
  pose proof (@worker_settles unit (InMemoryQueue unit) (InMemoryQueue_TaskQueue 10 ticks in_order) (InMemoryQueue_Laws 10 ticks in_order)
    unit unit always_fails (fun t res H => ltac:(discriminate H)) two_tasks r q') as Hs.
  destruct Hs as [_ Hs].
  - apply (reach_ok no_hash 10 ticks in_order _ _ _ two_tasks_reach).
  - exact Er.
  - vm_compute in Er. injection Er as <- <-. do 2 eexists. split; [reflexivity|].
    destruct Hs as (t & q1 & err & Hp & _ & Hn & _). split; [reflexivity|]. injection Hp as <- _. exact Hn.
Defined.

Lemma worker_drains_witness : exists n, Z.of_nat n <= 4
  /\ queue (@run_one unit _ (InMemoryQueue_TaskQueue 10 ticks in_order) unit unit always_fails
              (run_many 10 ticks in_order always_fails n two_tasks)).2 = [].
Proof.
  destruct (worker_drains 10 ticks in_order always_fails (fun t res H => ltac:(discriminate H)) two_tasks) as (n & Hn & _ & Hq).
  - apply (reach_ok no_hash 10 ticks in_order _ _ _ two_tasks_reach).
  - exists n. split; [exact Hn | exact Hq].
Defined.
