(* ===== verification/Flow.v ===== *)
(** * Durable workflows

    Models [ledger-flow/src/workflow.rs]: steps journaled before and after their effect, recovery of the state from a
    journal, and [resume], which skips completed steps and reruns interrupted ones.

    Step names are the UTF-8 bytes of the strings.  The effect closure is a function on a state of its own; the hash maps
    are only looked up.  [resume_async] awaits the same steps in the same order. *)

From stdpp Require Import gmap.
From S2P Require Import Prelude Machine Cbor Limits Value Path Hex Frame Entry OrdMap Clock Dag Causal.

Open Scope Z_scope.

Module Flow.

(** ** Text *)

(** The UTF-8 encoding of U+FFFD. *)
Definition replacement : list byte := [xef; xbf; xbd].

(** [String::from_utf8_lossy]: each longest prefix of an ill-formed sequence becomes one replacement character. *)
Fixpoint from_utf8_lossy (l : list byte) : list byte :=
  match l with
  | [] => []
  | b0 :: l0 =>
      if (b2z b0 <? 128)%Z then b0 :: from_utf8_lossy l0
      else
        match l0 with
        | [] => replacement
        | b1 :: l1 =>
            if in_range 194 223 b0 then
              if is_cont b1 then b0 :: b1 :: from_utf8_lossy l1 else replacement ++ from_utf8_lossy l0
            else if in_range 224 239 b0 then
              if utf8_lead3 b0 b1 then
                match l1 with
                | [] => replacement
                | b2 :: l2 =>
                    if is_cont b2 then b0 :: b1 :: b2 :: from_utf8_lossy l2 else replacement ++ from_utf8_lossy l1
                end
              else replacement ++ from_utf8_lossy l0
            else if in_range 240 244 b0 then
              if utf8_lead4 b0 b1 then
                match l1 with
                | [] => replacement
                | b2 :: l2 =>
                    if is_cont b2 then
                      match l2 with
                      | [] => replacement
                      | b3 :: l3 =>
                          if is_cont b3 then b0 :: b1 :: b2 :: b3 :: from_utf8_lossy l3 else replacement ++ from_utf8_lossy l2
                      end
                    else replacement ++ from_utf8_lossy l1
                end
              else replacement ++ from_utf8_lossy l0
            else replacement ++ from_utf8_lossy l0
        end
  end.

(** ** Data *)

Inductive FlowError (E : Type) : Type :=
| FlowJournal (e : JournalError)
| DuplicateStep (name : list byte)
| NoPlan
| ExecFailed (e : E).
Arguments FlowJournal {E} e.
Arguments DuplicateStep {E} name.
Arguments NoPlan {E}.
Arguments ExecFailed {E} e.

Inductive ResumeStatus : Type := Skipped | Rerun | Executed.

Record StepOutcome : Type := mkOutcome { o_name : list byte; o_status : ResumeStatus; o_result : Z }.

Definition WorkflowPlan : Type := list (list byte).

(** [WorkflowPlan::plan]; the loop over the names with the set of those seen. *)
Fixpoint plan_loop {E : Type} (seen : gset (list byte)) (steps : list (list byte)) : result (FlowError E) unit :=
  match steps with
  | [] => Ok tt
  | name :: steps => if bool_decide (name ∈ seen) then Err (DuplicateStep name) else plan_loop ({[name]} ∪ seen) steps
  end.

Definition plan_new {E : Type} (steps : list (list byte)) : result (FlowError E) WorkflowPlan :=
  let? _ := plan_loop ∅ steps in Ok steps.

Record WorkflowExecution : Type := mkWorkflow {
  w_actor : Z; step_counter : Z; completed_steps : list (list byte * Z); w_plan : option WorkflowPlan }.

Definition workflow_new (actor : Z) : WorkflowExecution := mkWorkflow actor 0 [] None.
Definition set_plan (w : WorkflowExecution) (p : WorkflowPlan) : WorkflowExecution :=
  mkWorkflow (w_actor w) (step_counter w) (completed_steps w) (Some p).

(** ** Evidence *)

Record StepEvidence : Type := mkEvidence {
  begins : gmap (list byte) EntryHash; begin_names : gmap (list byte) (list byte); ends : gmap (list byte) Z }.

Inductive StepPrior : Type :=
| Pending
| InProgress (begin_hash : EntryHash)
| PriorSkipped (result : Z).

Definition classify (name : list byte) (ev : StepEvidence) : StepPrior :=
  match begins ev !! name with
  | Some begin_hash => match ends ev !! begin_hash with Some r => PriorSkipped r | None => InProgress begin_hash end
  | None => Pending
  end.

(** One turn of the loop of [scan_step_evidence]. *)
Definition scan_entry (actor : Z) (ev : StepEvidence) (e : JEntry) : StepEvidence :=
  if negb (Entry.actor (edata e) =? actor)%Z then ev
  else
    match kind (edata e), payload (edata e) with
    | KStepBegin, PStepBegin b =>
        let name := from_utf8_lossy (step_name b) in
        mkEvidence (<[name := eid e]> (begins ev)) (<[eid e := name]> (begin_names ev)) (ends ev)
    | KStepEnd, PStepEnd (Completed _ (VUnsigned value)) =>
        match parents (edata e) with
        | parent :: _ => mkEvidence (begins ev) (begin_names ev) (<[parent := value]> (ends ev))
        | [] => ev
        end
    | _, _ => ev
    end.

Definition scan_step_evidence (j : JournalState) (actor : Z) : StepEvidence :=
  foldl (scan_entry actor) (mkEvidence ∅ ∅ ∅) (entries j).

(** The completed step an entry records, with its name. *)
Definition completed_at (actor : Z) (ev : StepEvidence) (e : JEntry) : option (list byte * Z) :=
  if negb (Entry.actor (edata e) =? actor)%Z then None
  else
    match kind (edata e), payload (edata e), parents (edata e) with
    | KStepEnd, PStepEnd (Completed _ (VUnsigned val)), parent :: _ =>
        match begin_names ev !! parent with Some name => Some (name, val) | None => None end
    | _, _, _ => None
    end.

Definition recover_from_journal (actor : Z) (j : JournalState) : WorkflowExecution :=
  let ev := scan_step_evidence j actor in
  mkWorkflow actor (Z.of_nat (size (begin_names ev))) (omap (completed_at actor ev) (entries j)) None.

(** ** Steps *)

Section Steps.
Variable blake3 : list byte -> list byte.
Variable base_unique : bool.

Definition step_begin (w : WorkflowExecution) (j : JournalState) (name : list byte) :
    result JournalError (EntryHash * WorkflowExecution * JournalState) :=
  let? '(hash, j) := append blake3 base_unique j KStepBegin (w_actor w) [] (PStepBegin (mkStepBegin (step_counter w) name None)) in
  Ok (hash, mkWorkflow (w_actor w) (step_counter w + 1) (completed_steps w) (w_plan w), j).

Definition step_end (w : WorkflowExecution) (j : JournalState) (name : list byte) (begin_hash : EntryHash) (value : Z) :
    result JournalError (EntryHash * WorkflowExecution * JournalState) :=
  let? '(end_hash, j) := append blake3 base_unique j KStepEnd (w_actor w) [begin_hash]
                           (PStepEnd (Completed (step_counter w) (VUnsigned value))) in
  Ok (end_hash, mkWorkflow (w_actor w) (step_counter w) (completed_steps w ++ [(name, value)]) (w_plan w), j).

Section Resume.
Context {S E : Type} (exec : list byte -> S -> result E Z * S).

(** The state a resume changes: the workflow, the journal and that of the effects. *)
Abbreviation machine := (WorkflowExecution * JournalState * S)%type.

(** The body of the loop of [resume]. *)
Definition resume_step (ev : StepEvidence) (name : list byte) (st : machine) : result (FlowError E) StepOutcome * machine :=
  let '(w, j, s) := st in
  match classify name ev with
  | PriorSkipped r => (Ok (mkOutcome name Skipped r), st)
  | InProgress begin_hash =>
      match exec name s with
      | (Err e, s) => (Err (ExecFailed e), (w, j, s))
      | (Ok value, s) =>
          match step_end w j name begin_hash value with
          | Err e => (Err (FlowJournal e), (w, j, s))
          | Ok (_, w, j) => (Ok (mkOutcome name Rerun value), (w, j, s))
          end
      end
  | Pending =>
      match step_begin w j name with
      | Err e => (Err (FlowJournal e), (w, j, s))
      | Ok (begin_hash, w, j) =>
          match exec name s with
          | (Err e, s) => (Err (ExecFailed e), (w, j, s))
          | (Ok value, s) =>
              match step_end w j name begin_hash value with
              | Err e => (Err (FlowJournal e), (w, j, s))
              | Ok (_, w, j) => (Ok (mkOutcome name Executed value), (w, j, s))
              end
          end
      end
  end.

Fixpoint resume_loop (ev : StepEvidence) (steps : list (list byte)) (st : machine) :
    result (FlowError E) (list StepOutcome) * machine :=
  match steps with
  | [] => (Ok [], st)
  | name :: steps =>
      match resume_step ev name st with
      | (Err e, st) => (Err e, st)
      | (Ok o, st) =>
          match resume_loop ev steps st with
          | (Ok os, st) => (Ok (o :: os), st)
          | (Err e, st) => (Err e, st)
          end
      end
  end.

Definition resume (st : machine) : result (FlowError E) (list StepOutcome) * machine :=
  let '(w, j, s) := st in
  match w_plan w with
  | None => (Err NoPlan, st)
  | Some steps => resume_loop (scan_step_evidence j (w_actor w)) steps st
  end.
End Resume.
End Steps.
End Flow.

(** ** Durable workflows: correctness of resumption

    The evidence in the journal decides what a resume does: completed steps are skipped, the interrupted one reruns and
    its end is paired with its old begin, the others run.  This holds as long as the interrupted step is the first
    unfinished one of the plan and its begin the last entry of the actor, which resuming one plan maintains. *)

Import Flow.

(** ** Text *)

Lemma lossy_valid l : from_utf8 l = true -> from_utf8_lossy l = l.
Proof.
  enough (H : forall n l, (length l <= n)%nat -> from_utf8 l = true -> from_utf8_lossy l = l) by (intros Hl; by eapply H).
  clear l. induction n as [|n IH]; intros l Hn Hl; destruct l as [|b0 l0]; try done; cbn [length] in Hn; [lia|].
  cbn [from_utf8 from_utf8_lossy] in *. destruct (b2z b0 <? 128)%Z; [f_equal; apply IH; [lia|done]|].
  destruct l0 as [|b1 l1]; [done|]. cbn [length] in Hn.
  destruct (in_range 194 223 b0).
  { apply andb_true_iff in Hl as [H1 H2]. rewrite H1. do 2 f_equal. apply IH; [lia|done]. }
  destruct l1 as [|b2 l2]; [done|]. cbn [length] in Hn.
  destruct (in_range 224 239 b0).
  { apply andb_true_iff in Hl as [Hl H3]. apply andb_true_iff in Hl as [H1 H2]. rewrite H1, H2. do 3 f_equal. apply IH; [lia|done]. }
  destruct l2 as [|b3 l3]; [done|]. cbn [length] in Hn.
  apply andb_true_iff in Hl as [Hl H4]. apply andb_true_iff in Hl as [Hl H3]. apply andb_true_iff in Hl as [H1 H2].
  assert (Hr : in_range 240 244 b0 = true).
  { unfold utf8_lead4, in_range in *. bool_hyps. rewrite ?orb_true_iff, ?andb_true_iff, ?Z.leb_le in H1. apply andb_true_iff. rewrite !Z.leb_le. lia. }
  rewrite Hr, H1, H2, H3. do 4 f_equal. apply IH; [lia|done].
Qed.

(** ** Plans *)

Lemma plan_loop_ok {E : Type} steps : forall seen,
  plan_loop (E := E) seen steps = Ok tt <-> NoDup steps /\ forall n, n ∈ steps -> n ∉ seen.
Proof.
  induction steps as [|name steps IH]; intros seen; cbn [plan_loop].
  - split; [|done]. intros _. split; [constructor|]. intros n Hn. by apply elem_of_nil in Hn.
  - case_bool_decide as Hs.
    + split; [done|]. intros [_ H]. destruct (H name); [left|done].
    + rewrite IH. rewrite list.NoDup_cons. split.
      * intros [H1 H2]. split_and!; [intros Hn; apply (H2 name Hn); set_solver|done|].
        intros n [->|Hn]%elem_of_cons; [done|]. specialize (H2 n Hn). set_solver.
      * intros [[H1 H2] H3]. split; [done|]. intros n Hn. specialize (H3 n ltac:(by right)). set_solver.
Qed.

(** ** Evidence of a log *)

Section Evidence.
Variable act : Z.

Definition evidence (log : list JEntry) : StepEvidence := foldl (scan_entry act) (mkEvidence ∅ ∅ ∅) log.
Abbreviation prior log name := (classify name (evidence log)).

Lemma evidence_snoc log e : evidence (log ++ [e]) = scan_entry act (evidence log) e.
Proof. unfold evidence. by rewrite foldl_snoc. Qed.

Lemma scan_evidence j log : represents j log -> scan_step_evidence j act = evidence log.
Proof. intros R. unfold scan_step_evidence. by rewrite (represents_entries j log R). Qed.

(** What the maps hold: begins name entries of the log, distinct names distinct ones, and ends are of entries of the log. *)
Record evidence_ok (log : list JEntry) : Prop := {
  ev_begins : forall n b, begins (evidence log) !! n = Some b -> begin_names (evidence log) !! b = Some n;
  ev_names : forall b n, begin_names (evidence log) !! b = Some n -> b ∈ map eid log;
  ev_ends : forall b v, ends (evidence log) !! b = Some v -> b ∈ map eid log }.

Definition begins_step (e : JEntry) (name : list byte) : Prop :=
  actor (edata e) = act /\ kind (edata e) = KStepBegin /\ exists c, payload (edata e) = PStepBegin (mkStepBegin c name None).

Definition ends_step (e : JEntry) (b : EntryHash) (v : Z) : Prop :=
  actor (edata e) = act /\ kind (edata e) = KStepEnd /\ (exists c, payload (edata e) = PStepEnd (Completed c (VUnsigned v)))
  /\ exists tl, parents (edata e) = b :: tl.

Lemma scan_begin ev e name : begins_step e name -> from_utf8 name = true ->
  scan_entry act ev e = mkEvidence (<[name := eid e]> (begins ev)) (<[eid e := name]> (begin_names ev)) (ends ev).
Proof.
  intros (Ha & Hk & c & Hp) Hu. unfold scan_entry. rewrite Ha, Z.eqb_refl, Hk, Hp. cbn [negb step_name]. by rewrite lossy_valid.
Qed.

Lemma scan_end ev e b v : ends_step e b v ->
  scan_entry act ev e = mkEvidence (begins ev) (begin_names ev) (<[b := v]> (ends ev)).
Proof. intros (Ha & Hk & (c & Hp) & tl & Hps). unfold scan_entry. by rewrite Ha, Z.eqb_refl, Hk, Hp, Hps. Qed.

Lemma scan_other ev e : actor (edata e) <> act -> scan_entry act ev e = ev.
Proof. intros Ha. unfold scan_entry. destruct (Z.eqb_spec (actor (edata e)) act); [done|]. done. Qed.

(** Any append keeps the maps sound. *)
Lemma evidence_ok_snoc log e : evidence_ok log -> eid e ∉ map eid log ->
  (forall p, p ∈ parents (edata e) -> p ∈ map eid log) -> evidence_ok (log ++ [e]).
Proof.
  intros [Hb Hn He] Hf Hp.
  assert (Hin : forall x, x ∈ map eid log -> x ∈ map eid (log ++ [e])) by (intros x Hx; rewrite map_app; set_solver).
  assert (Hme : eid e ∈ map eid (log ++ [e])) by (rewrite map_app; set_solver).
  assert (Hsame : evidence_ok log -> evidence (log ++ [e]) = evidence log -> evidence_ok (log ++ [e])).
  { intros _ Heq. split; rewrite Heq; eauto. }
  rewrite evidence_snoc in Hsame. pose proof (evidence_snoc log e) as Hsn.
  unfold scan_entry in *. destruct (negb _); [apply Hsame; [by split|done]|].
  destruct (kind (edata e)); try (apply Hsame; [by split|done]);
    destruct (payload (edata e)) as [| | | | | | | | | | | | | | | | | | | | | |s|s]; try (apply Hsame; [by split|done]).
  - split; rewrite Hsn; cbn; intros x y Hx.
    + apply lookup_insert_Some in Hx as [[<- <-]|[Hne Hx]]; [by rewrite lookup_insert_eq|].
      rewrite lookup_insert_ne; [by apply Hb|]. intros <-. apply Hb in Hx. by apply Hn in Hx.
    + apply lookup_insert_Some in Hx as [[<- <-]|[Hne Hx]]; [done|eauto].
    + eauto.
  - destruct s as [c [v| | | | | | | |]|c v|c v]; try (apply Hsame; [by split|done]).
    destruct (parents (edata e)) as [|p ps] eqn:Eps; [apply Hsame; [by split|done]|].
    split; rewrite Hsn; cbn; intros x y Hx; [by apply Hb|eauto|].
    apply lookup_insert_Some in Hx as [[<- <-]|[Hne Hx]]; [|eauto]. apply Hin, Hp. by left.
Qed.

(** *** How a begin and an end change the classification *)

Lemma prior_begin log e name : evidence_ok log -> begins_step e name -> from_utf8 name = true -> eid e ∉ map eid log ->
  prior (log ++ [e]) name = InProgress (eid e) /\ forall n, n <> name -> prior (log ++ [e]) n = prior log n.
Proof.
  intros [Hb Hn He] Hs Hu Hf. rewrite evidence_snoc, (scan_begin _ _ name) by done. unfold classify. cbn. split.
  - rewrite lookup_insert_eq. destruct (ends (evidence log) !! eid e) eqn:Ee; [|done]. by apply He in Ee.
  - intros n Hne. by rewrite lookup_insert_ne.
Qed.

Lemma prior_end log e b name v : evidence_ok log -> ends_step e b v -> prior log name = InProgress b ->
  prior (log ++ [e]) name = PriorSkipped v /\ forall n, n <> name -> prior (log ++ [e]) n = prior log n.
Proof.
  intros [Hb Hn He] Hs Hi. rewrite evidence_snoc, (scan_end _ _ b v) by done. unfold classify in *. cbn.
  destruct (begins (evidence log) !! name) as [b'|] eqn:Eb; [|done].
  destruct (ends (evidence log) !! b') eqn:Ee; [done|]. injection Hi as ->. split.
  - by rewrite lookup_insert_eq.
  - intros n Hne. destruct (begins (evidence log) !! n) as [b'|] eqn:En; [|done].
    rewrite lookup_insert_ne; [done|]. intros ->. apply Hb in Eb, En. congruence.
Qed.
End Evidence.

(** ** Resuming *)

Section Resume.
Variable blake3 : list byte -> list byte.
Variable base_unique : bool.
Variable act : Z.
Abbreviation evidence := (evidence act).
Abbreviation prior log name := (classify name (evidence log)).
Abbreviation log_reach := (log_reach blake3).

Lemma reach_evidence log : log_reach log -> evidence_ok act log.
Proof.
  induction 1 as [|log k a obs pl e Hl IH Ha Hf].
  - split; intros x y Hx; cbn in Hx; by rewrite lookup_empty in Hx.
  - apply evidence_ok_snoc; [done|by apply log_get_None|]. unfold log_append in Ha. cbv zeta in Ha.
    destruct (assemble_parents _ obs None) as [ps|]; [|done]. destruct (merge_parents _ [] ps) as [c|] eqn:Em; [|done].
    apply new_actor in Ha as [-> _]. cbn. intros p Hp. destruct (merge_parents_resolve _ _ _ _ Em p Hp) as [x Hx].
    apply log_get_In in Hx as [Hin <-]. apply list_elem_of_In, in_map. done.
Qed.

(** The step in progress is the first unfinished one, and its begin is the last entry of the actor. *)
Definition resumable (log : list JEntry) (steps : list (list byte)) : Prop :=
  forall pre name post b, steps = pre ++ name :: post -> prior log name = InProgress b ->
  Forall (fun n => exists r, prior log n = PriorSkipped r) pre /\ option_map eid (log_head log act) = Some b.

Lemma step_begin_jids w j name h w' j' : step_begin blake3 base_unique w j name = Ok (h, w', j') -> jids j `prefix_of` jids j'.
Proof.
  unfold step_begin. destruct (append _ _ _ _ _ _ _) as [[id j1]|] eqn:E; [|done]. intros H. simplify_eq.
  rewrite (append_jids _ _ _ _ _ _ _ _ _ E). by eexists.
Qed.

Lemma step_end_jids w j name b v h w' j' : step_end blake3 base_unique w j name b v = Ok (h, w', j') -> jids j `prefix_of` jids j'.
Proof.
  unfold step_end. destruct (append _ _ _ _ _ _ _) as [[id j1]|] eqn:E; [|done]. intros H. simplify_eq.
  rewrite (append_jids _ _ _ _ _ _ _ _ _ E). by eexists.
Qed.

(** *** The live counters are those of the evidence *)

Definition counted (log : list JEntry) (w : WorkflowExecution) : Prop :=
  step_counter w = Z.of_nat (size (begin_names (evidence log))) /\ completed_steps w = omap (completed_at act (evidence log)) log.

Lemma reach_parents log e p : log_reach log -> In e log -> p ∈ parents (edata e) -> p ∈ map eid log.
Proof.
  induction 1 as [|log k a obs pl x Hl IH Ha Hf]; intros He Hp; [done|]. rewrite map_app. apply elem_of_app. left.
  apply in_app_iff in He as [He|[->|[]]]; [by apply IH|]. unfold log_append in Ha. cbv zeta in Ha.
  destruct (assemble_parents _ obs None) as [ps|]; [|done]. destruct (merge_parents _ [] ps) as [c|] eqn:Em; [|done].
  apply new_actor in Ha as [Hdata _]. rewrite Hdata in Hp. destruct (merge_parents_resolve _ _ _ _ Em p Hp) as [y Hy].
  apply log_get_In in Hy as [Hin <-]. apply list_elem_of_In, in_map. done.
Qed.

Lemma completed_at_ext ev ev' log : (forall p, p ∈ map eid log -> begin_names ev' !! p = begin_names ev !! p) -> log_reach log ->
  omap (completed_at act ev') log = omap (completed_at act ev) log.
Proof.
  intros Hn Hl. assert (H : forall l, (forall e, In e l -> In e log) -> omap (completed_at act ev') l = omap (completed_at act ev) l).
  { induction l as [|e l IH]; intros Hin; [done|]. cbn [omap list_omap].
    replace (completed_at act ev' e) with (completed_at act ev e).
    - destruct (completed_at act ev e); [f_equal|]; apply IH; intros x Hx; apply Hin; by right.
    - pose proof (reach_parents log e) as Hpar. unfold completed_at. destruct (negb _); [done|].
      destruct (kind (edata e)); try done. destruct (payload (edata e)) as [| | | | | | | | | | | | | | | | | | | | | | |st]; try done.
      destruct st as [c [v| | | | | | | |]|c v|c v]; try done.
      destruct (parents (edata e)) as [|p ps]; [done|]. rewrite Hn; [done|]. apply Hpar; [done|apply Hin; by left|left]. }
  by apply H.
Qed.

Lemma counted_begin log e w name : log_reach log -> counted log w -> begins_step act e name -> from_utf8 name = true ->
  eid e ∉ map eid log -> counted (log ++ [e]) (mkWorkflow act (step_counter w + 1) (completed_steps w) (w_plan w)).
Proof.
  intros Hl [Hc Hs] Hb Hu Hf. pose proof (reach_evidence log Hl) as Hok. unfold counted. rewrite (evidence_snoc act log e).
  rewrite (scan_begin act _ e name) by done. cbn. split.
  - rewrite map_size_insert_None; [lia|]. destruct (begin_names (evidence log) !! eid e) eqn:En; [|done]. by apply (ev_names _ _ Hok) in En.
  - rewrite omap_app, Hs, <- (app_nil_r (omap _ log)) at 1. f_equal.
    + symmetry. apply completed_at_ext; [|done]. intros p Hp. cbn. apply lookup_insert_ne. by intros <-.
    + destruct Hb as (Ha & Hk & _). cbn. unfold completed_at. by rewrite Ha, Z.eqb_refl, Hk.
Qed.

Lemma counted_end log e w name b v : log_reach log -> counted log w -> ends_step act e b v -> prior log name = InProgress b ->
  counted (log ++ [e]) (mkWorkflow act (step_counter w) (completed_steps w ++ [(name, v)]) (w_plan w)).
Proof.
  intros Hl [Hc Hs] Hb Hi. pose proof (reach_evidence log Hl) as Hok. unfold counted. rewrite (evidence_snoc act log e).
  rewrite (scan_end act _ e b v) by done. cbn. split; [done|].
  rewrite omap_app, Hs. f_equal.
  destruct Hb as (Ha & Hk & (c & Hp) & tl & Hps). cbn. unfold completed_at. rewrite Ha, Z.eqb_refl, Hk, Hp, Hps. cbn.
  unfold classify in Hi. destruct (begins (evidence log) !! name) as [b'|] eqn:Eb; [|done].
  destruct (ends (evidence log) !! b'); [done|]. injection Hi as ->. by rewrite (ev_begins _ _ Hok _ _ Eb).
Qed.

Lemma counted_other log e w : log_reach log -> counted log w -> actor (edata e) <> act -> counted (log ++ [e]) w.
Proof.
  intros Hl [Hc Hs] Ha. unfold counted. rewrite (evidence_snoc act log e), scan_other by done. split; [done|].
  rewrite omap_app, Hs, <- (app_nil_r (omap _ log)) at 1. f_equal. cbn. unfold completed_at.
  by destruct (Z.eqb_spec (actor (edata e)) act).
Qed.

Lemma begin_logs w j name h w' j' log : represents j log -> log_reach log -> w_actor w = act -> from_utf8 name = true ->
  step_begin blake3 base_unique w j name = Ok (h, w', j') -> NoDup (jids j') ->
  exists e, represents j' (log ++ [e]) /\ log_reach (log ++ [e]) /\ prior (log ++ [e]) name = InProgress h
    /\ (forall n, n <> name -> prior (log ++ [e]) n = prior log n) /\ option_map eid (log_head (log ++ [e]) act) = Some h
    /\ w' = mkWorkflow act (step_counter w + 1) (completed_steps w) (w_plan w) /\ (counted log w -> counted (log ++ [e]) w').
Proof.
  intros R Hl Hw Hu H Hd. unfold step_begin in H. destruct (append _ _ _ _ _ _ _) as [[id j1]|] eqn:E; [|done].
  rewrite Hw in *. apply Ok_inj in H. injection H as <- <- <-.
  destruct (append_logs _ _ _ _ _ _ _ _ _ _ R Hl E Hd) as (e & [R' Hl' Hid _ Hk Hp Ha _ _ _] & Hf). 
  exists e. assert (Hb : begins_step act e name) by (split_and!; eauto).
  destruct (prior_begin act log e name (reach_evidence log Hl) Hb Hu) as [H1 H2]; [by rewrite Hid|].
  rewrite Hid in H1. split_and!; try done; [rewrite log_head_app, Ha, Z.eqb_refl; cbn; by rewrite Hid|].
  intros Hc. by apply (counted_begin log e w name); [..|rewrite Hid].
Qed.

Lemma end_logs w j name b v h w' j' log : represents j log -> log_reach log -> w_actor w = act ->
  prior log name = InProgress b -> option_map eid (log_head log act) = Some b ->
  step_end blake3 base_unique w j name b v = Ok (h, w', j') -> NoDup (jids j') ->
  exists e, represents j' (log ++ [e]) /\ log_reach (log ++ [e]) /\ prior (log ++ [e]) name = PriorSkipped v
    /\ (forall n, n <> name -> prior (log ++ [e]) n = prior log n)
    /\ w' = mkWorkflow act (step_counter w) (completed_steps w ++ [(name, v)]) (w_plan w) /\ (counted log w -> counted (log ++ [e]) w').
Proof.
  intros R Hl Hw Hi Hh H Hd. unfold step_end in H. destruct (append _ _ _ _ _ _ _) as [[id j1]|] eqn:E; [|done].
  rewrite Hw in *. apply Ok_inj in H. injection H as <- <- <-.
  destruct (append_logs _ _ _ _ _ _ _ _ _ _ R Hl E Hd) as (e & [R' Hl' Hid _ Hk Hp Ha _ Hhd _] & Hf).
  exists e. destruct (log_head log act) as [hd|]; [|done]. injection Hh as <-. destruct (Hhd hd eq_refl) as [tl Htl].
  assert (Hb : ends_step act e (eid hd) v) by (split_and!; eauto).
  destruct (prior_end act log e (eid hd) name v (reach_evidence log Hl) Hb Hi) as [H1 H2]. split_and!; try done.
  intros Hc. by apply (counted_end log e w name (eid hd)).
Qed.

Context {S E : Type} (exec : list byte -> S -> result E Z * S).

(** The effects of a resume: one call for each step that was not skipped, in order. *)
Inductive runs : S -> list StepOutcome -> S -> Prop :=
| runs_nil s : runs s [] s
| runs_skip s n v os s' : runs s os s' -> runs s (mkOutcome n Skipped v :: os) s'
| runs_exec s n st v s1 os s' : st <> Skipped -> exec n s = (Ok v, s1) -> runs s1 os s' -> runs s (mkOutcome n st v :: os) s'.

Definition status_of (p : StepPrior) : ResumeStatus :=
  match p with Pending => Executed | InProgress _ => Rerun | PriorSkipped _ => Skipped end.

(** What one turn of the loop leaves, on success and on failure. *)
Record turn (log log' : list JEntry) (name : list byte) (w w' : WorkflowExecution) (s s' : S) (r : result (FlowError E) StepOutcome) : Prop := {
  tn_actor : w_actor w' = act;
  tn_plan : w_plan w' = w_plan w;
  tn_counted : counted log w -> counted log' w';
  tn_others : forall n, n <> name -> prior log' n = prior log n;
  tn_done : forall v, prior log name = PriorSkipped v -> r = Ok (mkOutcome name Skipped v) /\ log' = log /\ s' = s;
  tn_ok : forall o, r = Ok o -> o_name o = name /\ prior log' name = PriorSkipped (o_result o) /\ o_status o = status_of (prior log name)
            /\ (o_status o <> Skipped -> exec name s = (Ok (o_result o), s'));
  tn_err : forall x b, r = Err x -> prior log' name = InProgress b -> option_map eid (log_head log' act) = Some b }.

Ltac turn_case := solve [done | auto | intros; congruence | intros ? ? _ ?; congruence].

Lemma resume_step_turn ev log name steps w j s r w' j' s' : represents j log -> log_reach log -> w_actor w = act ->
  from_utf8 name = true -> resumable log (name :: steps) -> classify name ev = prior log name ->
  resume_step blake3 base_unique exec ev name (w, j, s) = (r, (w', j', s')) -> NoDup (jids j') ->
  exists log', represents j' log' /\ log_reach log' /\ turn log log' name w w' s s' r.
Proof.
  intros R Hl Hw Hu Hres Hev H Hd. unfold resume_step in H. rewrite Hev in H. destruct (prior log name) as [|b|v] eqn:Ep.
  - destruct (step_begin _ _ w j name) as [[[h w1] j1]|x] eqn:Eb.
    + assert (Hd1 : NoDup (jids j1)).
      { destruct (exec name s) as [[v|e] s1]; [|by simplify_eq].
        destruct (step_end _ _ w1 j1 name h v) as [[[h2 w2] j2]|] eqn:Ee; simplify_eq; [|done].
        eapply NoDup_prefix; [by eapply step_end_jids|done]. }
      destruct (begin_logs w j name h w1 j1 log R Hl Hw Hu Eb Hd1) as (e & R1 & Hl1 & Hp1 & Ho1 & Hh1 & -> & Hc1).
      destruct (exec name s) as [[v|x] s1] eqn:Ex.
      * destruct (step_end _ _ _ j1 name h v) as [[[h2 w2] j2]|x] eqn:Ee; simplify_eq.
        -- destruct (end_logs (mkWorkflow act (step_counter w + 1) (completed_steps w) (w_plan w)) j1 name h v h2 w' j' _ R1 Hl1 eq_refl
             Hp1 Hh1 Ee Hd) as (e2 & R2 & Hl2 & Hp2 & Ho2 & -> & Hc2).
           exists ((log ++ [e]) ++ [e2]). split_and!; [done..|]. split; cbn; try turn_case.
           ++ intros n Hn. by rewrite Ho2, Ho1.
           ++ intros o [= <-]. cbn. by rewrite Ep.
        -- exists (log ++ [e]). split_and!; [done..|]. split; cbn; turn_case.
      * simplify_eq. exists (log ++ [e]). split_and!; [done..|]. split; cbn; turn_case.
    + simplify_eq. exists log. split_and!; [done..|]. split; turn_case.
  - destruct (Hres [] name steps b eq_refl Ep) as [_ Hh]. destruct (exec name s) as [[v|x] s1] eqn:Ex.
    + destruct (step_end _ _ w j name b v) as [[[h2 w2] j2]|x] eqn:Ee; simplify_eq.
      * destruct (end_logs w j name b v h2 w' j' log R Hl Hw Ep Hh Ee Hd) as (e2 & R2 & Hl2 & Hp2 & Ho2 & -> & Hc2).
        exists (log ++ [e2]). split_and!; [done..|]. split; cbn; try turn_case.
        intros o [= <-]. cbn. by rewrite Ep.
      * exists log. split_and!; [done..|]. split; turn_case.
    + simplify_eq. exists log. split_and!; [done..|]. split; turn_case.
  - simplify_eq. exists log. split_and!; [done..|]. split; try turn_case.
    + intros v' Hv'. split_and!; [congruence|done..].
    + intros o [= <-]. cbn. by rewrite Ep.
Qed.

Lemma resume_step_jids ev name w j s r w' j' s' : resume_step blake3 base_unique exec ev name (w, j, s) = (r, (w', j', s')) ->
  jids j `prefix_of` jids j'.
Proof.
  unfold resume_step. destruct (classify name ev) as [|b|v]; [| |by intros [= _ _ <- _]].
  - destruct (step_begin _ _ w j name) as [[[h w1] j1]|x] eqn:Eb; [|by intros [= _ _ <- _]]. apply step_begin_jids in Eb.
    destruct (exec name s) as [[v|x] s1]; [|by intros [= _ _ <- _]].
    destruct (step_end _ _ w1 j1 name h v) as [[[h2 w2] j2]|x] eqn:Ee; intros [= _ _ <- _]; [|done].
    apply step_end_jids in Ee. by etransitivity.
  - destruct (exec name s) as [[v|x] s1]; [|by intros [= _ _ <- _]].
    destruct (step_end _ _ w j name b v) as [[[h2 w2] j2]|x] eqn:Ee; intros [= _ _ <- _]; [|done]. by apply step_end_jids in Ee.
Qed.

Lemma resume_loop_jids ev steps : forall w j s r w' j' s', resume_loop blake3 base_unique exec ev steps (w, j, s) = (r, (w', j', s')) ->
  jids j `prefix_of` jids j'.
Proof.
  induction steps as [|name steps IH]; intros w j s r w' j' s' H; cbn [resume_loop] in H; [by simplify_eq|].
  destruct (resume_step _ _ _ ev name (w, j, s)) as [[o|x] [[w1 j1] s1]] eqn:Es; apply resume_step_jids in Es; [|by simplify_eq].
  destruct (resume_loop _ _ _ ev steps (w1, j1, s1)) as [[os|x] [[w2 j2] s2]] eqn:El; apply IH in El; simplify_eq; by etransitivity.
Qed.

(** What a resume leaves: the steps of the plan are resumable again and nothing completed is undone; when it succeeds,
    every step is completed with the reported result and only the unfinished ones ran. *)
Record resumed (log log' : list JEntry) (steps : list (list byte)) (w w' : WorkflowExecution) (s s' : S)
    (r : result (FlowError E) (list StepOutcome)) : Prop := {
  rs_actor : w_actor w' = act;
  rs_plan : w_plan w' = w_plan w;
  rs_counted : counted log w -> counted log' w';
  rs_others : forall n, n ∉ steps -> prior log' n = prior log n;
  rs_kept : forall n v, prior log n = PriorSkipped v -> prior log' n = PriorSkipped v;
  rs_resumable : resumable log' steps;
  rs_outcomes : forall os, r = Ok os -> map o_name os = steps /\ runs s os s'
    /\ Forall (fun o => prior log' (o_name o) = PriorSkipped (o_result o) /\ o_status o = status_of (prior log (o_name o))) os }.

Lemma resumable_tail log name steps v : resumable log (name :: steps) -> prior log name = PriorSkipped v -> resumable log steps.
Proof.
  intros H Hp pre n post b -> Hn. destruct (H (name :: pre) n post b eq_refl Hn) as [Hf Hh]. by inversion Hf.
Qed.

Lemma resume_loop_resumed ev steps : forall log w j s r w' j' s', represents j log -> log_reach log -> w_actor w = act ->
  NoDup steps -> Forall (fun n => from_utf8 n = true) steps -> resumable log steps ->
  (forall n, n ∈ steps -> classify n ev = prior log n) ->
  resume_loop blake3 base_unique exec ev steps (w, j, s) = (r, (w', j', s')) -> NoDup (jids j') ->
  exists log', represents j' log' /\ log_reach log' /\ resumed log log' steps w w' s s' r.
Proof.
  induction steps as [|name steps IH]; intros log w j s r w' j' s' R Hl Hw Hn Hu Hres Hev H Hd; cbn [resume_loop] in H.
  { simplify_eq. exists log. split_and!; [done..|]. split; try done. intros os [= <-]. split_and!; constructor. }
  apply list.NoDup_cons in Hn as [Hni Hn]. inversion Hu as [|? ? Hu1 Hu2]; subst.
  destruct (resume_step _ _ _ ev name (w, j, s)) as [[o|x] [[w1 j1] s1]] eqn:Es.
  - assert (Hd1 : NoDup (jids j1)).
    { destruct (resume_loop _ _ _ ev steps (w1, j1, s1)) as [r0 [[w2 j2] s2]] eqn:El. eapply NoDup_prefix; [by eapply resume_loop_jids|].
      by destruct r0; simplify_eq. }
    destruct (resume_step_turn ev log name steps w j s _ w1 j1 s1 R Hl Hw Hu1 Hres (Hev name ltac:(left)) Es Hd1)
      as (log1 & R1 & Hl1 & [Ha1 Hp1 Hc1 Ho1 Hdone1 Hok1 _]). destruct (Hok1 o eq_refl) as (Hname & Hsk & Hst & Hex).
    assert (Hres1 : resumable log1 steps).
    { intros pre n post b Est Hb. assert (Hnn : n <> name) by (intros ->; apply Hni; rewrite Est; set_solver).
      rewrite Ho1 in Hb by done. destruct (Hres (name :: pre) n post b ltac:(by rewrite Est) Hb) as [Hf Hh].
      inversion Hf as [|? ? [v Hv] Hf']; subst. destruct (Hdone1 v Hv) as (_ & -> & _). done. }
    assert (Hev1 : forall n, n ∈ steps -> classify n ev = prior log1 n).
    { intros n Hin. rewrite Ho1 by (intros ->; done). apply Hev. by right. }
    destruct (resume_loop _ _ _ ev steps (w1, j1, s1)) as [r0 [[w2 j2] s2]] eqn:El.
    assert (Heq : w2 = w' /\ j2 = j' /\ s2 = s') by (destruct r0; by simplify_eq). destruct Heq as (-> & -> & ->).
    destruct (IH log1 w1 j1 s1 r0 w' j' s' R1 Hl1 Ha1 Hn Hu2 Hres1 Hev1 El Hd) as (log2 & R2 & Hl2 & [Ha2 Hp2 Hc2 Ho2 Hk2 Hr2 Hos2]).
    exists log2. split_and!; [done..|]. assert (Hname2 : prior log2 name = PriorSkipped (o_result o)) by (by rewrite Ho2).
    split; [done|congruence|auto| | | |].
    + intros n Hnn. rewrite Ho2, Ho1; [done|intros ->; apply Hnn; left|intros Hi; apply Hnn; by right].
    + intros n v Hv. apply Hk2. destruct (decide (n = name)) as [->|Hne]; [|by rewrite Ho1].
      destruct (Hdone1 v Hv) as ([= ->] & _ & _). done.
    + intros [|x pre] n post b Est Hb; injection Est as -> Est; [congruence|].
      destruct (Hr2 pre n post b Est Hb) as [Hf Hh]. split; [|done]. constructor; [eauto|done].
    + intros os Hos. destruct r0 as [os0|]; [|congruence].
      assert (os = o :: os0) as -> by congruence. destruct (Hos2 os0 eq_refl) as (Hm & Hrun & Hall).
      split_and!; [cbn; by rewrite Hname, Hm| |].
      * clear -Hname Hst Hex Hdone1 Hrun. destruct o as [n st v]. cbn in Hname, Hst, Hex. subst n.
        destruct (prior log name) as [|b|v'] eqn:Epn; cbn in Hst; subst st; [eapply runs_exec; [done|by apply Hex|done]..|].
        destruct (Hdone1 v' eq_refl) as (_ & _ & ->). by constructor.
      * constructor; [by rewrite Hname|]. rewrite List.Forall_forall in *. intros o0 Hin. destruct (Hall o0 Hin) as [H1 H2]. split; [done|].
        rewrite H2, Ho1; [done|]. intros Hc. apply Hni. rewrite <- Hm, <- Hc. apply list_elem_of_In, in_map. done.
  - simplify_eq.
    destruct (resume_step_turn ev log name steps w j s _ w' j' s' R Hl Hw Hu1 Hres (Hev name ltac:(left)) Es Hd)
      as (log1 & R1 & Hl1 & [Ha1 Hp1 Hc1 Ho1 Hdone1 _ Herr1]).
    exists log1. split_and!; [done..|]. split; [done|done|done| | | |done].
    + intros n Hnn. apply Ho1. intros ->. apply Hnn. left.
    + intros n v Hv. destruct (decide (n = name)) as [->|Hne]; [by destruct (Hdone1 v Hv)|by rewrite Ho1].
    + intros [|y pre] n post b Est Hb; injection Est as <- Est; [split; [constructor|by eapply Herr1]|]. exfalso.
      assert (Hnn : n <> name) by (intros ->; apply Hni; rewrite Est; set_solver). rewrite Ho1 in Hb by done.
      destruct (Hres (name :: pre) n post b ltac:(by rewrite Est) Hb) as [Hf _]. inversion Hf as [|? ? [v Hv] _]; subst.
      by destruct (Hdone1 v Hv).
Qed.
End Resume.

(** ** One plan, interrupted and resumed *)

Section Workflow.
Variable blake3 : list byte -> list byte.
Variable base_unique : bool.
Variable act : Z.
Variable steps : list (list byte).

(** The life of one workflow: it starts on a journal where its actor has no step yet; it is resumed with any effects, that
    succeed or fail; other actors append; and after a restart the state is recovered from the journal. *)
Inductive flow_reach : WorkflowExecution -> JournalState -> Prop :=
| fl_start j : journal_reach blake3 j ->
    (forall e, In e (entries j) -> actor (edata e) = act -> kind (edata e) <> KStepBegin /\ kind (edata e) <> KStepEnd) ->
    flow_reach (set_plan (workflow_new act) steps) j
| fl_resume (S E : Type) (exec : list byte -> S -> result E Z * S) w j s r w' j' s' : flow_reach w j ->
    resume blake3 base_unique exec (w, j, s) = (r, (w', j', s')) -> NoDup (jids j') -> flow_reach w' j'
| fl_other w j k a obs pl id j' : flow_reach w j -> a <> act -> append blake3 base_unique j k a obs pl = Ok (id, j') ->
    NoDup (jids j') -> flow_reach w j'
| fl_recover w j : flow_reach w j -> flow_reach (set_plan (recover_from_journal act j) steps) j.

Definition flow_ok (w : WorkflowExecution) (j : JournalState) : Prop :=
  exists log, represents j log /\ log_reach blake3 log /\ resumable act log steps /\ counted act log w
    /\ w_actor w = act /\ w_plan w = Some steps.

Lemma no_steps_evidence log : (forall e, In e log -> actor (edata e) = act -> kind (edata e) <> KStepBegin /\ kind (edata e) <> KStepEnd) ->
  evidence act log = mkEvidence ∅ ∅ ∅ /\ omap (completed_at act (evidence act log)) log = [].
Proof.
  intros H. assert (He : evidence act log = mkEvidence ∅ ∅ ∅).
  { induction log as [|e log IH] using rev_ind; [done|]. rewrite evidence_snoc, IH by (intros x Hx; apply H, in_app_iff; by left).
    unfold scan_entry. destruct (Z.eqb_spec (actor (edata e)) act) as [Ha|]; [|done].
    destruct (H e) as [H1 H2]; [apply in_app_iff; right; by left|done|]. by destruct (kind (edata e)). }
  split; [done|]. rewrite He. clear He. induction log as [|e log IH]; [done|]. cbn [omap list_omap].
  rewrite IH by (intros x Hx; apply H; by right). replace (completed_at act _ e) with (@None (list byte * Z)); [done|].
  unfold completed_at. destruct (Z.eqb_spec (actor (edata e)) act) as [Ha|]; [|done].
  destruct (H e) as [H1 H2]; [by left|done|]. by destruct (kind (edata e)).
Qed.

Lemma resumable_other log e : resumable act log steps -> actor (edata e) <> act -> resumable act (log ++ [e]) steps.
Proof.
  intros H Ha pre n post b Est Hb. rewrite evidence_snoc, scan_other in * by done. rewrite log_head_app.
  destruct (Z.eqb_spec (actor (edata e)) act); [done|]. by eapply H.
Qed.

Hypothesis plan_ok : NoDup steps /\ Forall (fun n => from_utf8 n = true) steps.

Lemma resume_resumed {S E : Type} (exec : list byte -> S -> result E Z * S) w j s r w' j' s' log : represents j log -> log_reach blake3 log ->
  resumable act log steps -> w_actor w = act -> w_plan w = Some steps ->
  resume blake3 base_unique exec (w, j, s) = (r, (w', j', s')) -> NoDup (jids j') ->
  exists log', represents j' log' /\ log_reach blake3 log' /\ resumed act exec log log' steps w w' s s' r.
Proof.
  intros R Hl Hres Ha Hp H Hd. unfold resume in H. rewrite Hp, Ha, (scan_evidence act j log R) in H.
  destruct plan_ok as [Hn Hu]. by eapply resume_loop_resumed.
Qed.

Lemma flow_reach_ok w j : flow_reach w j -> flow_ok w j.
Proof.
  induction 1 as [j Hj Hno|S E exec w j s r w' j' s' _ (log & R & Hl & Hres & Hc & Ha & Hp) H Hd
                 |w j k a obs pl id j' _ (log & R & Hl & Hres & Hc & Ha & Hp) Hne H Hd|w j _ (log & R & Hl & Hres & Hc & Ha & Hp)].
  - destruct (journal_reach_represents blake3 j Hj) as (log & Hl & R). rewrite (represents_entries j log R) in Hno.
    destruct (no_steps_evidence log Hno) as [He Hom]. exists log. split_and!; try done.
    + intros pre n post b _ Hb. rewrite He in Hb. unfold classify in Hb. cbn in Hb. by rewrite lookup_empty in Hb.
    + unfold counted. by rewrite Hom, He.
  - destruct (resume_resumed exec w j s r w' j' s' log R Hl Hres Ha Hp H Hd) as (log' & R' & Hl' & [Ha' Hp' Hc' _ _ Hres' _]).
    exists log'. split_and!; [done..|by apply Hc'|done|congruence].
  - destruct (append_logs _ _ _ _ _ _ _ _ _ _ R Hl H Hd) as (e & [R' Hl' _ _ _ _ Hact _ _ _] & _).
    exists (log ++ [e]). split_and!; [done|done|apply resumable_other; [done|congruence]|apply (counted_other blake3); [done|done|congruence]|done|done].
  - exists log. split_and!; try done. unfold counted, recover_from_journal, set_plan. cbn.
    by rewrite (scan_evidence act j log R), (represents_entries j log R).
Qed.
End Workflow.

(** ** Theorems *)

(** C21: A durable workflow runs each step until it is recorded and never again, when its actor has one plan of distinct
    UTF-8 step names from the start and appends only by resuming it.  Whatever happened before (resumes that failed
    anywhere, restarts, other actors), when a resume succeeds it reports the steps in order; it ran the effects of
    exactly those that were not complete; every step is now recorded as complete with the reported result; and resuming
    again, with whatever effects, reports the same results, runs nothing and writes nothing.  With a second plan of the
    actor the last part fails ([rerun_not_recorded]). *)
Theorem workflow_resumes blake3 unique act steps {S E : Type} (exec : list byte -> S -> result E Z * S) w j s os w' j' s' :
  NoDup steps -> Forall (fun n => from_utf8 n = true) steps -> flow_reach blake3 unique act steps w j ->
  resume blake3 unique exec (w, j, s) = (Ok os, (w', j', s')) -> NoDup (jids j') ->
  map o_name os = steps /\ runs exec s os s'
  /\ Forall (fun o => o_status o = status_of (classify (o_name o) (scan_step_evidence j act))) os
  /\ forall (S2 E2 : Type) (exec2 : list byte -> S2 -> result E2 Z * S2) s2,
       resume blake3 unique exec2 (w', j', s2) = (Ok (map (fun o => mkOutcome (o_name o) Skipped (o_result o)) os), (w', j', s2)).
Proof.
  intros Hn Hu (log & R & Hl & Hres & Hc & Ha & Hp)%flow_reach_ok H Hd; [|done].
  destruct (resume_resumed blake3 unique act steps (conj Hn Hu) exec w j s _ w' j' s' log R Hl Hres Ha Hp H Hd)
    as (log' & R' & Hl' & [Ha' Hp' _ _ _ _ Hos]). destruct (Hos os eq_refl) as (Hm & Hr & Hall).
  split_and!; [done|done| |].
  - rewrite (scan_evidence act j log R). revert Hall. apply List.Forall_impl. by intros o [_ ?].
  - intros S2 E2 exec2 s2. unfold resume. rewrite Hp', Hp, Ha', (scan_evidence act j' log' R'). clear Hr H Hos. rewrite <- Hm. clear -Hall.
    induction Hall as [|o os [Ho _] _ IH]; [done|]. cbn [map resume_loop]. unfold resume_step. rewrite Ho. by rewrite IH.
Qed.

(** A restart loses nothing.  In every state of a workflow, recovering it from the journal gives the live step counter
    and the live list of completed steps with their results, in order. *)
Theorem recovery_exact blake3 unique act steps w j :
  NoDup steps -> Forall (fun n => from_utf8 n = true) steps -> flow_reach blake3 unique act steps w j ->
  recover_from_journal act j = mkWorkflow act (step_counter w) (completed_steps w) None.
Proof.
  intros Hn Hu (log & R & _ & _ & [Hc Hs] & _)%flow_reach_ok; [|done].
  unfold recover_from_journal. by rewrite (scan_evidence act j log R), (represents_entries j log R), Hc, Hs.
Qed.

(** ** Concrete workflows *)

Definition name_a : list byte := [x61].
Definition name_b : list byte := [x62].

(** Effects that count their calls; the second fails on the step [a]. *)
Definition works (_ : list byte) (n : nat) : result unit Z * nat := (Ok 7, S n).
Definition fails_on_a (name : list byte) (n : nat) : result unit Z * nat :=
  if bool_decide (name = name_a) then (Err tt, S n) else (Ok 7, S n).

Abbreviation sample_resume := (resume roll_digest true).
Definition start_w : WorkflowExecution := set_plan (workflow_new 1) [name_a; name_b].
Definition after_failure := (sample_resume fails_on_a (start_w, journal_new, 0%nat)).2.
Definition after_success := (sample_resume works (after_failure.1.1, after_failure.1.2, 0%nat)).2.

Lemma nodup_jids j : bool_decide (NoDup (jids j)) = true -> NoDup (jids j).
Proof. by intros H%bool_decide_eq_true. Qed.

Lemma failure_reach : flow_reach roll_digest true 1 [name_a; name_b] after_failure.1.1 after_failure.1.2.
Proof.
  eapply (fl_resume _ _ _ _ nat unit fails_on_a start_w journal_new 0%nat); [|vm_compute; reflexivity|apply nodup_jids; vm_compute; reflexivity].
  apply fl_start; [apply jr_new|]. intros e [].
Qed.

Lemma sample_plan_ok : NoDup [name_a; name_b] /\ Forall (fun n => from_utf8 n = true) [name_a; name_b].
Proof. split; [apply (bool_decide_eq_true (NoDup _)); vm_compute; reflexivity | repeat constructor]. Qed.

Lemma workflow_resumes_witness : map o_name [mkOutcome name_a Rerun 7; mkOutcome name_b Executed 7] = [name_a; name_b]
  /\ runs works 0%nat [mkOutcome name_a Rerun 7; mkOutcome name_b Executed 7] 2%nat.
Proof.
  destruct (workflow_resumes roll_digest true 1 [name_a; name_b] works after_failure.1.1 after_failure.1.2 0%nat
    [mkOutcome name_a Rerun 7; mkOutcome name_b Executed 7] after_success.1.1 after_success.1.2 2%nat) as (H1 & H2 & _).
  - apply sample_plan_ok.
  - apply sample_plan_ok.
  - apply failure_reach.
  - vm_compute. reflexivity.
  - apply nodup_jids. vm_compute. reflexivity.
  - exact (conj H1 H2).
Defined.

Lemma recovery_exact_witness : step_counter (recover_from_journal 1 after_failure.1.2) = 1.
Proof.
  rewrite (recovery_exact roll_digest true 1 [name_a; name_b] after_failure.1.1 after_failure.1.2 (proj1 sample_plan_ok)
    (proj2 sample_plan_ok) failure_reach). vm_compute. reflexivity.
Defined.

Definition try_a := sample_resume fails_on_a (set_plan (workflow_new 1) [name_a], journal_new, 0%nat).
Definition run_b := sample_resume works (set_plan try_a.2.1.1 [name_b], try_a.2.1.2, 0%nat).
Definition run_both := sample_resume works (set_plan run_b.2.1.1 [name_a; name_b], run_b.2.1.2, 0%nat).
Definition run_again := sample_resume works (run_both.2.1.1, run_both.2.1.2, 0%nat).

(** An interrupted step is not always completed by its rerun.  Step [a] fails after its begin, another plan of the actor
    then runs step [b]; resuming the plan of both reruns [a] and reports success, but the end of [a] is paired with the
    last entry of the actor instead of the begin of [a], so the next resume runs [a] again. *)
Theorem rerun_not_recorded :
  try_a.1 = Err (ExecFailed tt) /\ run_b.1 = Ok [mkOutcome name_b Executed 7]
  /\ run_both.1 = Ok [mkOutcome name_a Rerun 7; mkOutcome name_b Skipped 7]
  /\ run_again.1 = Ok [mkOutcome name_a Rerun 7; mkOutcome name_b Skipped 7].
Proof. split_and!; vm_compute; reflexivity. Qed.
