(* ===== verification/Backend.v ===== *)
(** * The simulation backend

    Models [ledger-sim/src/backend_sim.rs] and [origin.rs]: one actor's effect boundary over the virtual clock, the seeded
    random streams, the simulated network and file system and the journal.

    The BLAKE3 hash, its keyed and key-derivation modes and the words of a seeded ChaCha20 generator are parameters.  The
    mutexes only serialise a single thread and are left out; so is the sink that publishes the ticks to WASI. *)

From stdpp Require Import gmap pretty.
From stdpp Require Import gmap.
From S2P Require Import Prelude Machine Cbor Limits Value Path Hex Frame Entry OrdMap Order Clock Dag.
From S2P Require Import Causal Monitor KeyMap VirtualTime Net Scheduler SimFs.

Open Scope Z_scope.

Module Backend.

(** ** Effect origins *)

Record EffectOrigin : Type := mkOrigin { file : list byte; line : Z; column : Z }.

Inductive OriginSource : Type :=
| Source (o : EffectOrigin)
| Span (name trace_id : list byte)
| Unknown.

Record OriginLog : Type := mkOrigins { omap_ : gmap (list byte) OriginSource; oorder : list EntryHash }.

Definition origins_default : OriginLog := mkOrigins ∅ [].

Definition record (log : OriginLog) (id : EntryHash) (source : OriginSource) : OriginLog :=
  match source with
  | Unknown => log
  | _ => mkOrigins (<[id := source]> (omap_ log))
           (match omap_ log !! id with None => oorder log ++ [id] | Some _ => oorder log end)
  end.

Definition origin_get (log : OriginLog) (id : EntryHash) : option OriginSource := omap_ log !! id.

(** [snapshot]; indexing the map by an id of [order] panics when it is absent. *)
Definition snapshot (log : OriginLog) : option (list (EntryHash * OriginSource)) :=
  mapM (fun id => s ← omap_ log !! id; Some (id, s)) (oorder log).

(** ** State *)

Record SimBackend : Type := mkBackend {
  time : VirtualTime;
  journal : JournalState;
  journal_error : option JournalError;
  net : SimNet;
  fs : SimFs;
  b_actor : Z;
  rng_streams : gmap Z nat;  (** the number of words each created stream has drawn *)
  reorder_draw : bool;
  net_offset : Z;
  origins : OriginLog }.

Definition for_actor (a : Z) : SimBackend := mkBackend time_default journal_new None net_new fs_new a ∅ false 0 origins_default.
Definition backend_new : SimBackend := for_actor 0.

Definition with_journal (b : SimBackend) (j : JournalState) : SimBackend :=
  mkBackend (time b) j (journal_error b) (net b) (fs b) (b_actor b) (rng_streams b) (reorder_draw b) (net_offset b) (origins b).
Definition with_time (b : SimBackend) (t : VirtualTime) : SimBackend :=
  mkBackend t (journal b) (journal_error b) (net b) (fs b) (b_actor b) (rng_streams b) (reorder_draw b) (net_offset b) (origins b).
Definition with_net (b : SimBackend) (n : SimNet) : SimBackend :=
  mkBackend (time b) (journal b) (journal_error b) n (fs b) (b_actor b) (rng_streams b) (reorder_draw b) (net_offset b) (origins b).
Definition with_fs (b : SimBackend) (f : SimFs) : SimBackend :=
  mkBackend (time b) (journal b) (journal_error b) (net b) f (b_actor b) (rng_streams b) (reorder_draw b) (net_offset b) (origins b).
Definition with_streams (b : SimBackend) (s : gmap Z nat) : SimBackend :=
  mkBackend (time b) (journal b) (journal_error b) (net b) (fs b) (b_actor b) s (reorder_draw b) (net_offset b) (origins b).
Definition with_offset (b : SimBackend) (o : Z) : SimBackend :=
  mkBackend (time b) (journal b) (journal_error b) (net b) (fs b) (b_actor b) (rng_streams b) (reorder_draw b) o (origins b).
Definition with_origins (b : SimBackend) (o : OriginLog) : SimBackend :=
  mkBackend (time b) (journal b) (journal_error b) (net b) (fs b) (b_actor b) (rng_streams b) (reorder_draw b) (net_offset b) o.

Definition set_reorder_draw (b : SimBackend) (d : bool) : SimBackend :=
  mkBackend (time b) (journal b) (journal_error b) (net b) (fs b) (b_actor b) (rng_streams b) d (net_offset b) (origins b).

(** [record_first_journal_error]. *)
Definition record_error (b : SimBackend) (e : JournalError) : SimBackend :=
  mkBackend (time b) (journal b) (match journal_error b with None => Some e | Some _ => journal_error b end) (net b) (fs b)
    (b_actor b) (rng_streams b) (reorder_draw b) (net_offset b) (origins b).

Section Effects.
Variable blake3 : list byte -> list byte.
(** BLAKE3 keyed with the root seed, and deriving a key of the root seed from a context label. *)
Variable keyed_blake3 : list byte -> list byte.
Variable derive : list byte -> list byte.
(** The words of a ChaCha20 generator with a seed. *)
Variable chacha_word : list byte -> nat -> Z.
(** The feature [sim-fs-journaling] and whether the journal's base is unshared. *)
Variable journaling base_unique : bool.

(** [append] and [journal_append]. *)
Definition b_append (b : SimBackend) (k : EntryKind) (ps : list EntryHash) (p : EntryPayload) : option EntryHash * SimBackend :=
  match append blake3 base_unique (journal b) k (b_actor b) ps p with
  | Ok (id, j) => (Some id, with_journal b j)
  | Err e => (None, record_error b e)
  end.

(** ** Clock and random streams *)

Definition clock_now (b : SimBackend) : Z := now (time b).

Definition app_label (stream : Z) : list byte := bytes_of_string ("app/" ++ pretty (Z.to_N stream)).

(** [rng(stream).next_u64()]: the stream is created on first use and every draw is journaled. *)
Definition next_u64 (b : SimBackend) (stream : Z) : Z * SimBackend :=
  let drawn := default 0%nat (rng_streams b !! stream) in
  let value := chacha_word (derive (app_label stream)) drawn in
  let b := with_streams b (<[stream := S drawn]> (rng_streams b)) in
  (value, (b_append b KRngDraw [] (PRngDraw (mkRngDraw stream 0 (to_le_bytes 8 value)))).2).

(** ** Sleep *)

(** The loop over the timers that fired. *)
Fixpoint fire_all (b : SimBackend) (fired : list TimerFired) : SimBackend :=
  match fired with
  | [] => b
  | f :: fired =>
      let '(timer_fire, b) := b_append b KTimerFire (match fired_enabler f with Some p => [p] | None => [] end) (PTimerFire 0 0) in
      let b := match timer_fire with
               | Some id => (b_append b KWake [id] (PWake (TimerReady 0))).2
               | None => b
               end in
      fire_all b fired
  end.

Definition sleep (b : SimBackend) (ticks : Z) : SimBackend :=
  let '(timer_set, b) := b_append b KTimerSet [] (PTimerSet 0 ticks) in
  let t := set_with_enabler (time b) ticks (b_actor b) timer_set in
  let '(fired, t) := advance_with_enablers t in
  fire_all (with_time b t) fired.

(** ** Network *)

(** [usize as u32]. *)
Definition as_u32 (v : Z) : Z := v mod 2 ^ 32.

Definition with_send_id (m : Message) (id : EntryHash) : Message :=
  mkMessage (m_from m) (m_to m) (Net.content m) id (m_message_id m) (deliver_at m).

Definition send_impl (b : SimBackend) (m : Message) : bool * option EntryHash * SimBackend :=
  match b_append b KSend [] (PSend (mkSendFrame (m_message_id m) (as_u32 (m_from m)) (as_u32 (m_to m)) (Net.content m))) with
  | (None, b) => (false, None, b)
  | (Some id, b) =>
      let '(delivered, n) := send (net b) (with_send_id m id) in
      (delivered, Some id, with_net b n)
  end.

Definition net_send (b : SimBackend) (m : Message) : bool * SimBackend :=
  let '(delivered, _, b) := send_impl b m in (delivered, b).

Definition send_loc (b : SimBackend) (m : Message) (at_ : OriginSource) : bool * SimBackend :=
  let '(delivered, id, b) := send_impl b m in
  (delivered, match id with Some id => with_origins b (record (origins b) id at_) | None => b end).

(** The draw closure of [recv]: one word of the [net] stream at the offset, which advances. *)
Definition label_net : list byte := [x6e; x65; x74].
Definition net_draw (bound : Z) (offset : Z) : Z * Z := (draw_u64 keyed_blake3 label_net offset mod bound, offset + 1).

Definition net_recv (b : SimBackend) (task now : Z) : option Message * SimBackend :=
  let '(got, b) :=
    if reorder_draw b
    then let '(got, offset) := recv_at_drawn net_draw (net b) task now (net_offset b) in (got, with_offset b offset)
    else (recv_at (net b) task now, b) in
  match got with
  | None => (None, b)
  | Some (m, n) =>
      let b := with_net b n in
      let '(id, b) := b_append b KRecv [send_id m] (PRecv (mkRecvFrame (m_message_id m) (as_u32 (m_from m)) (as_u32 task) (Net.content m))) in
      let b := match id, origin_get (origins b) (send_id m) with
               | Some id, Some origin => with_origins b (record (origins b) id origin)
               | _, _ => b
               end in
      (Some m, b)
  end.

Definition net_has_ready (b : SimBackend) (task now : Z) : bool := has_ready_message (net b) task now.

(** ** File system *)

(** Write back the file system and the journal of a successful operation. *)
Definition write_back {E A} (b : SimBackend) (r : result E (A * SimFs * JournalState)) : result E A * SimBackend :=
  match r with
  | Ok (a, f, j) => (Ok a, with_fs (with_journal b j) f)
  | Err e => (Err e, b)
  end.

Definition write_impl (b : SimBackend) (path : list byte) (value : Z) : result ScalarError EntryHash * SimBackend :=
  write_back b (write blake3 journaling base_unique (fs b) (journal b) (b_actor b) path value).

Definition fsync_impl (b : SimBackend) : result SimFsError EntryHash * SimBackend :=
  write_back b (fsync blake3 journaling base_unique (fs b) (journal b) (b_actor b)).

(** [write_loc] and [fsync_loc]: the origin is recorded when the operation succeeds. *)
Definition located {E} (r : result E EntryHash * SimBackend) (at_ : OriginSource) : result E EntryHash * SimBackend :=
  match r with
  | (Ok id, b) => (Ok id, with_origins b (record (origins b) id at_))
  | (Err e, b) => (Err e, b)
  end.
Definition write_loc (b : SimBackend) (path : list byte) (value : Z) (at_ : OriginSource) := located (write_impl b path value) at_.
Definition fsync_loc (b : SimBackend) (at_ : OriginSource) := located (fsync_impl b) at_.

Definition fs_read (b : SimBackend) (path : list byte) : result ScalarError (option Z) * SimBackend :=
  match read blake3 base_unique (fs b) (journal b) (b_actor b) path with
  | Ok (v, j) => (Ok v, with_journal b j)
  | Err e => (Err e, b)
  end.

Definition fs_write_bytes (b : SimBackend) (path : list byte) (offset : Z) (bytes : list byte) :
    result SimFsError EntryHash * SimBackend :=
  write_back b (write_bytes blake3 journaling base_unique (fs b) (journal b) (b_actor b) path offset bytes).

Definition fs_read_bytes (b : SimBackend) (path : list byte) (offset len : Z) : result SimFsError ObservedRead * SimBackend :=
  match read_bytes blake3 base_unique (fs b) (journal b) (b_actor b) path offset len with
  | Ok (o, j) => (Ok o, with_journal b j)
  | Err e => (Err e, b)
  end.

Definition fs_sync_path (b : SimBackend) (path : list byte) : result SimFsError EntryHash * SimBackend :=
  write_back b (fsync_path blake3 base_unique (fs b) (journal b) (b_actor b) path).

Definition crash_impl (b : SimBackend) : option EntryHash * SimBackend :=
  let '(id, b) := b_append b KFault [] (PFault (CrashActor (b_actor b) DropAllUnsynced)) in
  (id, with_fs b (crash_fs (fs b))).

Definition crash_loc (b : SimBackend) (at_ : OriginSource) : SimBackend :=
  let '(id, b) := crash_impl b in
  match id with Some id => with_origins b (record (origins b) id at_) | None => b end.

End Effects.
End Backend.

(** ** The simulation backend: what it journals

    Every state of the backend keeps its journal and its simulated state together: a queued message names the [Send]
    entry that produced it, a stored byte range the [FsWrite] entry that wrote it, and between effects no timer is
    pending.  So the journal of a session passes the correctness monitor, up to reads of missing files. *)

Import Backend.

(** ** Files and ranges that keep a predicate *)

Lemma Forall_oinsert {V} (P : Z * V -> Prop) k v m : Forall P m -> P (k, v) -> Forall P (oinsert k v m).
Proof.
  intros Hm Hp. induction Hm as [|[k1 v1] m H1 Hm IH]; cbn [oinsert]; [by repeat constructor|].
  repeat case_split; repeat constructor; done.
Qed.

Lemma Forall_filter_keep {A} (P : A -> Prop) f l : Forall P l -> Forall P (List.filter f l).
Proof. rewrite !List.Forall_forall. intros H x [Hx _]%filter_In. by apply H. Qed.

Lemma Forall_foldl_keep {A B} (P : A -> Prop) (Q : B -> Prop) (f : A -> B -> A) l :
  (forall a b, P a -> Q b -> P (f a b)) -> Forall Q l -> forall a, P a -> P (foldl f a l).
Proof. intros Hf. induction 1; intros a Ha; [done|]. cbn. auto. Qed.

Section Files.
Context {V : Type} (P : V -> Prop).
Abbreviation all_vals := (Forall (fun e : list byte * V => P e.2)).

Lemma all_kinsert k v m : all_vals m -> P v -> all_vals (kinsert k v m).
Proof.
  intros Hm Hp. induction Hm as [|[k1 v1] m H1 Hm IH]; cbn [kinsert]; [by repeat constructor|].
  repeat case_split; repeat constructor; done.
Qed.

Lemma all_kdelete k m : all_vals m -> all_vals (kdelete k m).
Proof. apply Forall_filter_keep. Qed.

Lemma all_kmodify f k m : (forall v, P v -> P (f v)) -> all_vals m -> all_vals (kmodify f k m).
Proof.
  intros Hf. unfold kmodify. rewrite List.Forall_map. apply List.Forall_impl. intros [k1 v1] H1. cbn in *.
  case_bool_decide; cbn; auto.
Qed.

Lemma all_kmap f m : (forall v, P v -> P (f v)) -> all_vals m -> all_vals (kmap f m).
Proof. intros Hf. unfold kmap. rewrite List.Forall_map. apply List.Forall_impl. intros e. apply Hf. Qed.

Lemma all_kget k v m : all_vals m -> kget k m = Some v -> P v.
Proof. intros Hm Hg%kget_In. rewrite List.Forall_forall in Hm. apply (Hm (k, v) Hg). Qed.

Lemma all_komap f m : (forall v w, P v -> f v = Some w -> P w) -> all_vals m -> all_vals (komap f m).
Proof.
  intros Hf. unfold komap. induction 1 as [|[k1 v1] m H1 Hm IH]; cbn; [constructor|].
  destruct (f v1) eqn:E; cbn; [constructor; [by eapply Hf|done]|done].
Qed.
End Files.

(** ** Provenance *)

(** The log has an entry of this kind under the id. *)
Definition made (log : list JEntry) (k : EntryKind) (id : EntryHash) : Prop :=
  exists e, log_get log id = Some e /\ kind (edata e) = k.

Definition ranges_made (log : list JEntry) (m : list (Z * ByteRange)) : Prop :=
  Forall (fun e => made log KFsWrite (write_id e.2)) m.

Record file_made (log : list JEntry) (f : File) : Prop := {
  fm_created : exists c, created_by f = Some c /\ made log KFsWrite c;
  fm_cache : ranges_made log (cache f);
  fm_durable : ranges_made log (durable f) }.

Definition files_made (log : list JEntry) (fl : list (list byte * File)) : Prop := Forall (fun e => file_made log e.2) fl.

(** A read that found no file: what the monitor has no producer for. *)
Definition missing_read (e : JEntry) : Prop :=
  kind (edata e) = KFsRead /\ exists path offset len, payload (edata e) = PFsRead (mkFsRead path offset len Missing).

Lemma made_mono log k id new : made log k id -> made (log ++ new) k id.
Proof. intros (e & He & Hk). exists e. rewrite log_get_app, He. done. Qed.

Lemma ranges_mono log m new : ranges_made log m -> ranges_made (log ++ new) m.
Proof. apply List.Forall_impl. intros e. apply made_mono. Qed.

Lemma file_mono log f new : file_made log f -> file_made (log ++ new) f.
Proof.
  intros [(c & Hc & Hm) H2 H3]. split; [exists c; split; [done|by apply made_mono] | by apply ranges_mono..].
Qed.

Lemma files_mono log fl new : files_made log fl -> files_made (log ++ new) fl.
Proof. apply List.Forall_impl. intros e. apply file_mono. Qed.

Lemma enabled_mono log e new : enabled (log_get log) e -> enabled (log_get (log ++ new)) e.
Proof.
  intros H x Hx. destruct (H x Hx) as (p & pe & Hp & Hg & Hk). exists p, pe. rewrite log_get_app, Hg. done.
Qed.

Lemma write_cache_made log m offset bytes id : ranges_made log m -> made log KFsWrite id ->
  ranges_made log (write_cache m offset bytes id).
Proof.
  intros Hm Hid. unfold write_cache. apply Forall_oinsert; [|done].
  apply (Forall_foldl_keep (ranges_made log) (fun p => made log KFsWrite p.1.2)).
  - intros a p Ha Hp. by apply Forall_oinsert.
  - apply List.Forall_concat. rewrite List.Forall_map. apply (Forall_filter_keep _ _ m).
    revert Hm. apply List.Forall_impl. intros [s r] Hr. cbn in Hr. unfold pieces.
    apply List.Forall_app. split; repeat case_split; repeat constructor; done.
  - apply (Forall_foldl_keep (ranges_made log) (fun _ => True)); [|by apply List.Forall_forall|done].
    intros a e Ha _. by apply Forall_filter_keep.
Qed.

Lemma persist_made log f : file_made log f -> file_made log (persist f).
Proof. intros [H1 H2 H3]. split; [done..|]. cbn. unfold ranges_made. rewrite List.Forall_map. done. Qed.

Lemma settle_made log ranges f : file_made log f -> file_made log (settle_file ranges f).
Proof.
  intros [H1 H2 H3]. split; [done| |done]. cbn. unfold settle_ranges.
  apply (Forall_foldl_keep (ranges_made log) (fun _ => True)); [|by apply List.Forall_forall|done].
  intros m w Hm _. unfold ranges_made. rewrite List.Forall_map. revert Hm. apply List.Forall_impl.
  intros e He. by case_split.
Qed.

Lemma drop_made log f f' : file_made log f -> drop_unsynced f = Some f' -> file_made log f'.
Proof. intros [H1 H2 H3] H. unfold drop_unsynced in H. run_match H. by split. Qed.

Lemma commit_made log fs : files_made log (files fs) -> files_made log (files (commit_journal fs)).
Proof.
  intros H. unfold commit_journal. cbn [files].
  apply (Forall_foldl_keep (files_made log) (fun _ => True)); [|by apply List.Forall_forall|].
  - intros fl r Hfl _. destruct (kget r.1 fl) eqn:E; [|done].
    apply (all_kinsert (file_made log)); [by apply all_kdelete | by eapply (all_kget (file_made log))].
  - apply (Forall_foldl_keep (files_made log) (fun _ => True)); [|by apply List.Forall_forall|done].
    intros fl p Hfl _. apply (all_kmodify (file_made log)); [|done]. intros v. apply settle_made.
Qed.

Lemma crash_made log fs : files_made log (files fs) -> files_made log (files (crash_fs fs)).
Proof.
  intros H. unfold crash_fs. cbn. apply (all_komap (file_made log)); [|done]. intros v w. apply drop_made.
Qed.

(** The writers a read names: at least one, each an [FsWrite] entry. *)
Lemma read_file_made log f offset len out ps : file_made log f -> read_file f offset len = (out, ps) ->
  exists p, p ∈ ps /\ made log KFsWrite p.
Proof.
  intros [(c & Hc & Hm) H2 _]. unfold read_file. cbv zeta.
  set (cached := List.filter _ _).
  destruct (foldl _ _ _) as [[out0 parents] cursor] eqn:E. intros [= _ <-].
  assert (Hp : Forall (made log KFsWrite) (kset_elems parents)).
  { change parents with (out0, parents, cursor).1.2. rewrite <- E.
    apply (Forall_foldl_keep (fun acc : list byte * list (list byte * unit) * Z => Forall (made log KFsWrite) (kset_elems acc.1.2))
      (fun e => made log KFsWrite (write_id e.2))); [|by apply Forall_filter_keep|constructor].
    intros [[o ps] cu] [s r] Hps Hr. cbn in *. repeat case_split; cbn; try done;
      apply List.Forall_forall; intros x [->|Hx]%kset_insert_elems; try done;
      rewrite List.Forall_forall in Hps; auto. }
  destruct (kset_elems parents) as [|p ps] eqn:Ep.
  - rewrite Hc. exists c. split; [left|done].
  - exists p. inversion Hp; subst. split; [left|done].
Qed.

(** ** Appends *)

Section Reachable.
Variable blake3 keyed_blake3 derive : list byte -> list byte.
Variable chacha_word : list byte -> nat -> Z.
Variable journaling base_unique : bool.

(** ** The invariant *)

Record backend_ok (log : list JEntry) (b : SimBackend) : Prop := {
  bo_represents : represents (journal b) log;
  bo_reach : log_reach blake3 log;
  bo_timers : timers (time b) = [];
  bo_net : Forall (fun m => made log KSend (Net.send_id m)) (queue (net b));
  bo_fs : files_made log (files (fs b));
  bo_enabled : Forall (fun e => missing_read e \/ enabled (log_get log) e) log;
  bo_actor : Forall (fun e => actor (edata e) = b_actor b) log }.

(** The producer an entry of a kind needs is among its observed parents. *)
Definition produced (log : list JEntry) (k : EntryKind) (obs : list EntryHash) (pl : EntryPayload) : Prop :=
  (k = KFsRead /\ exists path offset len, pl = PFsRead (mkFsRead path offset len Missing))
  \/ forall expected, expected_parent k = Some expected ->
       exists p pk, p ∈ obs /\ made log pk p /\ parent_kind_ok expected pk = true.

(** The journal part of the invariant after an append. *)
Lemma append_ok bu b log k obs pl id j : backend_ok log b -> produced log k obs pl ->
  append blake3 bu (journal b) k (b_actor b) obs pl = Ok (id, j) -> NoDup (jids j) ->
  exists e, backend_ok (log ++ [e]) (with_journal b j) /\ made (log ++ [e]) k id.
Proof.
  intros [R Hl Ht Hn Hf He Hac] Hp Ha Hd. destruct (append_logs blake3 bu _ log k _ obs pl id j R Hl Ha Hd)
    as (e & [R' Hl' _ Hg Hk Hpl Hact Hobs _ _] & _).
  exists e. split; [|by exists e]. split; cbn; try done.
  - revert Hn. apply List.Forall_impl. intros m. apply made_mono.
  - by apply files_mono.
  - apply List.Forall_app. split.
    + revert He. apply List.Forall_impl. intros x [Hx|Hx]; [by left|right; by apply enabled_mono].
    + apply List.Forall_cons; [|constructor]. destruct Hp as [[-> (path & offset & len & ->)]|Hp].
      * left. split; [done|]. eauto.
      * right. intros x Hx. rewrite Hk in Hx. destruct (Hp x Hx) as (p & pk & Hin & (pe & Hpe & <-) & Hok).
        exists p, pe. split; [auto|]. rewrite log_get_app, Hpe. done.
  - apply List.Forall_app. split; [done|]. by constructor.
Qed.

Lemma record_error_ok log b x : backend_ok log b -> backend_ok log (record_error b x).
Proof. intros [? ? ? ? ? ? ?]. by split. Qed.

Lemma b_append_jids b k obs pl oid b' : b_append blake3 base_unique b k obs pl = (oid, b') ->
  jids (journal b) `prefix_of` jids (journal b').
Proof.
  unfold b_append. destruct (append _ _ _ _ _ _ _) as [[id j]|] eqn:E; intros [= <- <-]; [|done].
  cbn. rewrite (append_jids _ _ _ _ _ _ _ _ _ E). by eexists.
Qed.

Lemma b_append_ok b log k obs pl oid b' : backend_ok log b -> produced log k obs pl ->
  b_append blake3 base_unique b k obs pl = (oid, b') -> NoDup (jids (journal b')) ->
  exists new, backend_ok (log ++ new) b' /\ (forall id, oid = Some id -> made (log ++ new) k id)
    /\ net b' = net b /\ fs b' = fs b /\ time b' = time b /\ origins b' = origins b /\ b_actor b' = b_actor b
    /\ rng_streams b' = rng_streams b /\ net_offset b' = net_offset b /\ reorder_draw b' = reorder_draw b.
Proof.
  intros Hb Hp H Hd. unfold b_append in H. destruct (append _ _ _ _ _ _ _) as [[id j]|x] eqn:E; simplify_eq.
  - destruct (append_ok _ _ _ _ _ _ _ _ Hb Hp E Hd) as (e & He & Hm). exists [e].
    split_and!; [done| |done..]. intros id' [= <-]. done.
  - exists []. rewrite app_nil_r. split_and!; [by apply record_error_ok|done..].
Qed.

Lemma produced_free log k obs pl : expected_parent k = None -> produced log k obs pl.
Proof. intros Hk. right. intros x Hx. congruence. Qed.

Lemma produced_by log k obs pl p pk : (forall expected, expected_parent k = Some expected -> parent_kind_ok expected pk = true) ->
  p ∈ obs -> made log pk p -> produced log k obs pl.
Proof. intros Hk Hp Hm. right. intros x Hx. exists p, pk. auto. Qed.
(** ** Field updates *)

Lemma with_net_ok log b n : backend_ok log b -> Forall (fun m => made log KSend (Net.send_id m)) (queue n) ->
  backend_ok log (with_net b n).
Proof. intros [? ? ? ? ? ? ?] H. by split. Qed.

Lemma with_fs_ok log b f : backend_ok log b -> files_made log (files f) -> backend_ok log (with_fs b f).
Proof. intros [? ? ? ? ? ? ?] H. by split. Qed.

Lemma with_time_ok log b t : backend_ok log b -> timers t = [] -> backend_ok log (with_time b t).
Proof. intros [? ? ? ? ? ? ?] H. by split. Qed.

Lemma with_streams_ok log b s : backend_ok log b -> backend_ok log (with_streams b s).
Proof. intros [? ? ? ? ? ? ?]. by split. Qed.

Lemma with_offset_ok log b o : backend_ok log b -> backend_ok log (with_offset b o).
Proof. intros [? ? ? ? ? ? ?]. by split. Qed.

Lemma with_origins_ok log b o : backend_ok log b -> backend_ok log (with_origins b o).
Proof. intros [? ? ? ? ? ? ?]. by split. Qed.

Lemma with_draw_ok log b d : backend_ok log b -> backend_ok log (set_reorder_draw b d).
Proof. intros [? ? ? ? ? ? ?]. by split. Qed.

(** ** Effects *)

Abbreviation keeps b b' := (forall log, backend_ok log b -> NoDup (jids (journal b')) -> exists log', backend_ok log' b').

Lemma next_u64_ok b stream : keeps b (next_u64 blake3 derive chacha_word base_unique b stream).2.
Proof.
  intros log Hb Hd. unfold next_u64 in *. cbn [snd] in *. destruct (b_append _ _ _ _ _ _) as [oid b'] eqn:E.
  apply (b_append_ok _ log) in E as (new & Hb' & _); [eauto|by apply with_streams_ok|by apply produced_free|done].
Qed.

(** A sleep fires its own timer alone: the clock moves by the ticks and three entries are chained. *)
Lemma sleep_fires b log ticks : backend_ok log b ->
  sleep blake3 base_unique b ticks =
  let '(timer_set, b1) := b_append blake3 base_unique b KTimerSet [] (PTimerSet 0 ticks) in
  let t := mkTime (saturating_add (now (time b)) ticks) (v_sequence (time b) + 1) [] in
  fire_all blake3 base_unique (with_time b1 t) [mkFired (b_actor b) timer_set].
Proof.
  intros [_ _ Ht _ _ _ _]. unfold sleep. destruct (b_append _ _ _ _ _ _) as [oid b1] eqn:E.
  assert (Hb1 : time b1 = time b /\ b_actor b1 = b_actor b).
  { unfold b_append in E. destruct (append _ _ _ _ _ _ _) as [[id j]|x]; by simplify_eq. }
  destruct Hb1 as [-> ->]. unfold set_with_enabler. rewrite Ht. unfold advance_with_enablers. cbn. by rewrite Z.eqb_refl.
Qed.

Lemma fire_ok b log task en : backend_ok log b ->
  NoDup (jids (journal (fire_all blake3 base_unique b [mkFired task en]))) ->
  exists log', backend_ok log' (fire_all blake3 base_unique b [mkFired task en]).
Proof.
  intros Hb Hd. cbn [fire_all fired_enabler] in *.
  destruct (b_append _ _ _ KTimerFire _ _) as [tf b1] eqn:E1.
  destruct tf as [id|]; [|apply (b_append_ok _ log) in E1 as (? & ? & _); [eauto|done|by apply produced_free|done]].
  destruct (b_append _ _ b1 KWake _ _) as [w b2] eqn:E2. cbn [snd] in *.
  pose proof (NoDup_prefix _ _ (b_append_jids _ _ _ _ _ _ E2) Hd) as Hd1.
  apply (b_append_ok _ log) in E1 as (new & Hb1 & Hm & _); [|done|by apply produced_free|done].
  apply (b_append_ok _ (log ++ new)) in E2 as (new2 & Hb2 & _); [eauto|done| |done].
  eapply produced_by; [|left|by apply Hm]. by intros x [= <-].
Qed.

Lemma fire_all_jids fired : forall b, jids (journal b) `prefix_of` jids (journal (fire_all blake3 base_unique b fired)).
Proof.
  induction fired as [|f fired IH]; intros b; [done|]. cbn [fire_all].
  destruct (b_append _ _ _ KTimerFire _ _) as [tf b1] eqn:E1. etransitivity; [by eapply b_append_jids|].
  etransitivity; [|apply IH]. destruct tf as [id|]; [|done].
  destruct (b_append _ _ b1 KWake _ _) as [w b2] eqn:E2. by eapply b_append_jids.
Qed.

Lemma sleep_ok b ticks : keeps b (sleep blake3 base_unique b ticks).
Proof.
  intros log Hb Hd. rewrite (sleep_fires _ log) in * by done.
  destruct (b_append _ _ _ _ _ _) as [oid b1] eqn:E.
  pose proof (NoDup_prefix _ _ (fire_all_jids _ _) Hd) as Hd1. cbn [journal with_time] in Hd1.
  apply (b_append_ok _ log) in E as (new & Hb1 & _ & _); [|done|by apply produced_free|done].
  eapply fire_ok; [|done]. by apply with_time_ok.
Qed.

Lemma send_impl_ok b m delivered oid b' log : send_impl blake3 base_unique b m = (delivered, oid, b') -> backend_ok log b ->
  NoDup (jids (journal b')) -> exists log', backend_ok log' b'.
Proof.
  unfold send_impl. intros H Hb Hd. destruct (b_append _ _ _ _ _ _) as [[id|] b1] eqn:E.
  - destruct (send (net b1) (with_send_id m id)) as [d n] eqn:En. simplify_eq. cbn [journal with_net] in Hd.
    apply (b_append_ok _ log) in E as (new & Hb1 & Hm & _); [|done|by apply produced_free|done].
    exists (log ++ new). apply with_net_ok; [done|]. pose proof (bo_net _ _ Hb1) as Hn.
    unfold send, try_send in En. destruct (is_partitioned _ _ _); [by simplify_eq/=|].
    destruct (check_capacity _ _ _); simplify_eq/=; [|done].
    apply List.Forall_app. split; [done|]. apply List.Forall_cons; [|constructor]. by apply Hm.
  - simplify_eq. apply (b_append_ok _ log) in E as (new & Hb1 & _); [eauto|done|by apply produced_free|done].
Qed.

Lemma net_recv_ok b task now : keeps b (net_recv blake3 keyed_blake3 base_unique b task now).2.
Proof.
  intros log Hb Hd. unfold net_recv in *.
  set (got := if reorder_draw b then _ else _) in *.
  assert (Hg : exists b0 o, got = (o, b0) /\ backend_ok log b0 /\ (forall m n, o = Some (m, n) ->
    made log KSend (Net.send_id m) /\ Forall (fun m => made log KSend (Net.send_id m)) (queue n))).
  { assert (Hrm : forall i m n, remove_at (net b) i = Some (m, n) ->
      made log KSend (Net.send_id m) /\ Forall (fun m => made log KSend (Net.send_id m)) (queue n)).
    { intros i m n Hr. unfold remove_at in Hr. destruct (queue (net b) !! i) eqn:Ei; [|done]. simplify_eq. cbn.
      pose proof (bo_net _ _ Hb) as Hq. split; [by apply (Forall_lookup_1 _ _ _ _ Hq Ei)|by apply Forall_delete]. }
    subst got. destruct (reorder_draw b).
    - destruct (recv_at_drawn _ _ _ _ _) as [o offset] eqn:Er. eexists _, _. split; [done|]. split; [by apply with_offset_ok|].
      intros m n ->. apply drawn_removes in Er as [i Hi]. by eapply Hrm.
    - eexists _, _. split; [done|]. split; [done|]. intros m n Hr. apply recv_removes in Hr as [i Hi]. by eapply Hrm. }
  destruct Hg as (b0 & o & -> & Hb0 & Ho). destruct o as [[m n]|]; [|eauto].
  destruct (Ho m n eq_refl) as [Hm Hn]. destruct (b_append _ _ _ _ _ _) as [oid b1] eqn:E. cbn [snd] in *.
  assert (Hd1 : NoDup (jids (journal b1))) by (destruct oid; [destruct (origin_get _ _)|]; exact Hd).
  apply (b_append_ok _ log) in E as (new & Hb1 & _); [|by apply with_net_ok| |done].
  - exists (log ++ new). destruct oid; [destruct (origin_get _ _)|]; [by apply with_origins_ok|done..].
  - eapply produced_by; [|left|done]. by intros x [= <-].
Qed.
(** ** Storage effects *)

(** A storage operation journals one entry that needs no producer and keeps the provenance of the files. *)
Lemma stored_ok b log k pl id j f : backend_ok log b -> expected_parent k = None ->
  journal_append blake3 base_unique (journal b) k (b_actor b) [] pl = Ok (id, j) -> NoDup (jids j) ->
  (forall e, made (log ++ [e]) k id -> files_made (log ++ [e]) (files (fs b)) -> files_made (log ++ [e]) (files f)) ->
  exists log', backend_ok log' (with_fs (with_journal b j) f).
Proof.
  intros Hb Hk Ha Hd Hf. unfold journal_append in Ha. destruct (append _ _ _ _ _ _ _) as [[id0 j0]|] eqn:E; [|done].
  cbn in Ha. simplify_eq. apply (append_ok _ _ log) in E as (e & He & Hm); [|done|by apply produced_free|done].
  exists (log ++ [e]). apply with_fs_ok; [done|]. apply Hf; [done|]. apply (bo_fs _ _ He).
Qed.

Lemma write_files_made log fs key f id : files_made log (files fs) -> made log KFsWrite id ->
  cache f = cache (file_at fs key) \/ (exists o b, cache f = write_cache (cache (file_at fs key)) o b id) ->
  durable f = durable (file_at fs key) ->
  created_by f = (if match kget key (files fs) with Some _ => true | None => false end then created_by (file_at fs key) else Some id) ->
  files_made log (kinsert key f (files fs)).
Proof.
  intros Hfs Hid Hc Hdu Hcr. apply (all_kinsert (file_made log)); [done|].
  assert (Hat : ranges_made log (cache (file_at fs key)) /\ ranges_made log (durable (file_at fs key))).
  { unfold file_at. destruct (kget key (files fs)) as [g|] eqn:Eg; [|by repeat constructor].
    by destruct (all_kget (file_made log) _ _ _ Hfs Eg). }
  destruct Hat as [Ha1 Ha2]. split; [rewrite Hcr|destruct Hc as [->|(o & b & ->)]; [done|by apply write_cache_made]|by rewrite Hdu].
  unfold file_at. destruct (kget key (files fs)) as [g|] eqn:Eg; [|eauto].
  by destruct (all_kget (file_made log) _ _ _ Hfs Eg).
Qed.

Lemma write_bytes_ok b path offset bytes id f j log : backend_ok log b ->
  write_bytes blake3 journaling base_unique (fs b) (journal b) (b_actor b) path offset bytes = Ok (id, f, j) ->
  NoDup (jids j) -> exists log', backend_ok log' (with_fs (with_journal b j) f).
Proof.
  intros Hb H Hd. unfold write_bytes in H. cbv zeta in H.
  case_split_in H; [done|]. destruct (ok_or _ _) as [we|]; [|done]. case_split_in H; [done|].
  destruct (charge_resident _ _ _ _); [|done]. destruct (journal_append _ _ _ _ _ _ _) as [[id0 j0]|] eqn:Ej; [|done].
  case_split_in H; simplify_eq.
  - eapply stored_ok; [done| |done..]. done.
  - eapply stored_ok; [done| |done|done|]; [done|]. intros e Hm Hfs.
    assert (Hk : files_made (log ++ [e]) (kinsert (canonical_key blake3 path)
        (mkFile (write_cache (cache (file_at (fs b) (canonical_key blake3 path))) offset bytes id)
           (durable (file_at (fs b) (canonical_key blake3 path))) (Z.max (flength (file_at (fs b) (canonical_key blake3 path))) we)
           (if match kget (canonical_key blake3 path) (files (fs b)) with Some _ => true | None => false end
            then created_by (file_at (fs b) (canonical_key blake3 path)) else Some id)
           (durable_exists (file_at (fs b) (canonical_key blake3 path)))) (files (fs b)))).
    { eapply write_files_made; [done|done|right; eauto|done..]. }
    destruct journaling; exact Hk.
Qed.

Lemma fsync_ok b id f j log : backend_ok log b ->
  fsync blake3 journaling base_unique (fs b) (journal b) (b_actor b) = Ok (id, f, j) ->
  NoDup (jids j) -> exists log', backend_ok log' (with_fs (with_journal b j) f).
Proof.
  intros Hb H Hd. unfold fsync in H. destruct (journal_append _ _ _ _ _ _ _) as [[id0 j0]|] eqn:Ej; [|done].
  simplify_eq. eapply stored_ok; [done| |done|done|]; [done|]. intros e Hm Hfs. cbn.
  apply (all_kmap (file_made (log ++ [e]))); [intros v; apply persist_made|]. destruct journaling; [by apply commit_made|done].
Qed.

Lemma fsync_path_ok b path id f j log : backend_ok log b ->
  fsync_path blake3 base_unique (fs b) (journal b) (b_actor b) path = Ok (id, f, j) ->
  NoDup (jids j) -> exists log', backend_ok log' (with_fs (with_journal b j) f).
Proof.
  intros Hb H Hd. unfold fsync_path in H. destruct (kget _ _); [|done].
  destruct (journal_append _ _ _ _ _ _ _) as [[id0 j0]|] eqn:Ej; [|done].
  simplify_eq. eapply stored_ok; [done| |done|done|]; [done|]. intros e Hm Hfs. cbn.
  apply (all_kmodify (file_made (log ++ [e]))); [|done]. intros v; apply persist_made.
Qed.

Lemma read_bytes_ok b path offset len o j log : backend_ok log b ->
  read_bytes blake3 base_unique (fs b) (journal b) (b_actor b) path offset len = Ok (o, j) ->
  NoDup (jids j) -> exists log', backend_ok log' (with_journal b j).
Proof.
  intros Hb H Hd. unfold read_bytes in H. case_split_in H; [done|]. unfold journal_append in H.
  destruct (kget _ _) as [f|] eqn:Ef.
  - destruct (read_file f offset len) as [out ps] eqn:Er.
    destruct (append _ _ _ _ _ _ _) as [[id0 j0]|] eqn:Ej; [|done]. cbn in H. simplify_eq.
    apply (append_ok _ _ log) in Ej as (e & He & _); [eauto|done| |done].
    destruct (read_file_made log f offset len out ps) as (p & Hp & Hm);
      [by apply (all_kget (file_made log) _ _ _ (bo_fs _ _ Hb) Ef) | done |].
    eapply produced_by; [|done|done]. by intros x [= <-].
  - destruct (append _ _ _ _ _ _ _) as [[id0 j0]|] eqn:Ej; [|done]. cbn in H. simplify_eq.
    apply (append_ok _ _ log) in Ej as (e & He & _); [eauto|done| |done]. left. eauto 6.
Qed.

Lemma crash_ok b : keeps b (crash_impl blake3 base_unique b).2.
Proof.
  intros log Hb Hd. unfold crash_impl in *. destruct (b_append _ _ _ _ _ _) as [oid b1] eqn:E. cbn [snd] in *.
  apply (b_append_ok _ log) in E as (new & Hb1 & _); [|done|by apply produced_free|done].
  exists (log ++ new). apply with_fs_ok; [done|]. apply crash_made, (bo_fs _ _ Hb1).
Qed.

(** ** Steps *)

(** One effect of the backend, with its success or failure left open. *)
Inductive effect_step (b : SimBackend) : SimBackend -> Prop :=
| st_rng stream : effect_step b (next_u64 blake3 derive chacha_word base_unique b stream).2
| st_sleep ticks : effect_step b (sleep blake3 base_unique b ticks)
| st_send m : effect_step b (net_send blake3 base_unique b m).2
| st_send_loc m at_ : effect_step b (send_loc blake3 base_unique b m at_).2
| st_recv task now : effect_step b (net_recv blake3 keyed_blake3 base_unique b task now).2
| st_write path v : effect_step b (write_impl blake3 journaling base_unique b path v).2
| st_write_loc path v at_ : effect_step b (write_loc blake3 journaling base_unique b path v at_).2
| st_fsync : effect_step b (fsync_impl blake3 journaling base_unique b).2
| st_fsync_loc at_ : effect_step b (fsync_loc blake3 journaling base_unique b at_).2
| st_read path : effect_step b (fs_read blake3 base_unique b path).2
| st_write_bytes path offset bytes : effect_step b (fs_write_bytes blake3 journaling base_unique b path offset bytes).2
| st_read_bytes path offset len : effect_step b (fs_read_bytes blake3 base_unique b path offset len).2
| st_sync_path path : effect_step b (fs_sync_path blake3 base_unique b path).2
| st_crash : effect_step b (crash_impl blake3 base_unique b).2
| st_crash_loc at_ : effect_step b (crash_loc blake3 base_unique b at_)
| st_reorder d : effect_step b (set_reorder_draw b d)
| st_journal k obs pl : expected_parent k = None -> effect_step b (b_append blake3 base_unique b k obs pl).2.

Lemma write_impl_ok b path v : keeps b (write_impl blake3 journaling base_unique b path v).2.
Proof.
  intros log Hb Hd. unfold write_impl, write in *. destruct (write_bytes _ _ _ _ _ _ _ _ _) as [[[id f] j]|] eqn:E; cbn in *; [|eauto].
  by eapply write_bytes_ok.
Qed.

Lemma fsync_impl_ok b : keeps b (fsync_impl blake3 journaling base_unique b).2.
Proof.
  intros log Hb Hd. unfold fsync_impl in *. destruct (fsync _ _ _ _ _ _) as [[[id f] j]|] eqn:E; cbn in *; [|eauto].
  by eapply fsync_ok.
Qed.

Lemma located_ok {E} b (r : result E EntryHash * SimBackend) at_ : keeps b r.2 -> keeps b (located r at_).2.
Proof.
  intros Hk log Hb Hd. destruct r as [[id|e] b']; [|by apply (Hk log)]. cbn in *. destruct (Hk log Hb Hd) as [log' H'].
  exists log'. by apply with_origins_ok.
Qed.

Lemma effect_step_ok b b' : effect_step b b' -> keeps b b'.
Proof.
  intros H. destruct H as [stream|ticks|m|m at_|task now0|path v|path v at_| |at_|path|path offset bytes|path offset len|path| |at_|d|k obs pl Hk].
  - apply next_u64_ok.
  - apply sleep_ok.
  - intros log Hb Hd. unfold net_send in *. destruct (send_impl _ _ _ _) as [[d oid] b1] eqn:E. by eapply send_impl_ok.
  - intros log Hb Hd. unfold send_loc in *. destruct (send_impl _ _ _ _) as [[d oid] b1] eqn:E. cbn [snd] in *.
    destruct (send_impl_ok _ _ _ _ _ log E Hb) as [log' H']; [by destruct oid|]. exists log'. destruct oid; [by apply with_origins_ok|done].
  - apply net_recv_ok.
  - apply write_impl_ok.
  - apply located_ok, write_impl_ok.
  - apply fsync_impl_ok.
  - apply located_ok, fsync_impl_ok.
  - intros log Hb Hd. unfold fs_read, read in *. destruct (read_bytes _ _ _ _ _ _ _ _) as [[o j]|] eqn:E; cbn in *; [|eauto].
    destruct o; by eapply read_bytes_ok.
  - intros log Hb Hd. unfold fs_write_bytes in *. destruct (write_bytes _ _ _ _ _ _ _ _ _) as [[[id f] j]|] eqn:E; cbn in *; [|eauto].
    by eapply write_bytes_ok.
  - intros log Hb Hd. unfold fs_read_bytes in *. destruct (read_bytes _ _ _ _ _ _ _ _) as [[o j]|] eqn:E; cbn in *; [|eauto].
    by eapply read_bytes_ok.
  - intros log Hb Hd. unfold fs_sync_path in *. destruct (fsync_path _ _ _ _ _ _) as [[[id f] j]|] eqn:E; cbn in *; [|eauto].
    by eapply fsync_path_ok.
  - apply crash_ok.
  - intros log Hb Hd. unfold crash_loc in *. destruct (crash_impl _ _ _) as [oid b1] eqn:E.
    destruct (crash_ok b log Hb) as [log' H']; rewrite E in *; cbn in *; [by destruct oid|]. exists log'. destruct oid; [by apply with_origins_ok|done].
  - intros log Hb _. exists log. by apply with_draw_ok.
  - intros log Hb Hd. destruct (b_append _ _ _ _ _ _) as [oid b1] eqn:E. cbn [snd] in *.
    apply (b_append_ok _ log) in E as (new & H' & _); [eauto|done|by apply produced_free|done].
Qed.

(** *** The actor of a backend never changes *)

Lemma b_append_actor b k obs pl oid b' : b_append blake3 base_unique b k obs pl = (oid, b') -> b_actor b' = b_actor b.
Proof. unfold b_append. destruct (append _ _ _ _ _ _ _) as [[]|]; by intros [= _ <-]. Qed.

Lemma next_u64_actor b stream : b_actor (next_u64 blake3 derive chacha_word base_unique b stream).2 = b_actor b.
Proof. unfold next_u64. cbn [snd]. destruct (b_append _ _ _ _ _ _) eqn:E. by apply b_append_actor in E. Qed.

Lemma fire_all_actor fired : forall b, b_actor (fire_all blake3 base_unique b fired) = b_actor b.
Proof.
  induction fired as [|f fired IH]; intros b; [done|]. cbn [fire_all].
  destruct (b_append _ _ b KTimerFire _ _) as [tf b1] eqn:E1. rewrite IH. apply b_append_actor in E1 as <-.
  destruct tf as [id|]; [|done]. destruct (b_append _ _ b1 KWake _ _) eqn:E2. by apply b_append_actor in E2.
Qed.

Lemma sleep_actor b ticks : b_actor (sleep blake3 base_unique b ticks) = b_actor b.
Proof.
  unfold sleep. destruct (b_append _ _ _ _ _ _) as [o b1] eqn:E. destruct (advance_with_enablers _).
  rewrite fire_all_actor. by apply b_append_actor in E.
Qed.

Lemma send_impl_actor b m d oid b' : send_impl blake3 base_unique b m = (d, oid, b') -> b_actor b' = b_actor b.
Proof.
  unfold send_impl. destruct (b_append _ _ _ _ _ _) as [[id|] b1] eqn:E; apply b_append_actor in E.
  - destruct (send _ _). by intros [= _ _ <-].
  - by intros [= _ _ <-].
Qed.

Lemma net_recv_actor b task now : b_actor (net_recv blake3 keyed_blake3 base_unique b task now).2 = b_actor b.
Proof.
  unfold net_recv. set (got := if reorder_draw b then _ else _).
  assert (Hg : b_actor got.2 = b_actor b) by (subst got; destruct (reorder_draw b); [by destruct (recv_at_drawn _ _ _ _ _)|done]).
  destruct got as [[[m n]|] b0]; [|done]. cbn [snd] in *. destruct (b_append _ _ _ _ _ _) as [oid b1] eqn:E.
  apply b_append_actor in E. cbn in E. rewrite <- Hg, <- E. destruct oid; [by destruct (origin_get _ _)|done].
Qed.

Lemma stored_actor {X A} b (r : result X (A * SimFs * JournalState)) : b_actor (write_back b r).2 = b_actor b.
Proof. by destruct r as [[[]]|]. Qed.

Lemma located_actor {X} (r : result X EntryHash * SimBackend) at_ : b_actor (located r at_).2 = b_actor r.2.
Proof. by destruct r as [[]]. Qed.

Lemma crash_actor b oid b' : crash_impl blake3 base_unique b = (oid, b') -> b_actor b' = b_actor b.
Proof.
  unfold crash_impl. destruct (b_append _ _ _ _ _ _) eqn:E. apply b_append_actor in E. by intros [= _ <-].
Qed.

Lemma effect_step_actor b b' : effect_step b b' -> b_actor b' = b_actor b.
Proof.
  intros H. destruct H as [stream|ticks|m|m at_|task now0|path v|path v at_| |at_|path|path offset bytes|path offset len|path| |at_|d|k obs pl Hk].
  - apply next_u64_actor.
  - apply sleep_actor.
  - unfold net_send. destruct (send_impl _ _ _ _) as [[]] eqn:E. by apply send_impl_actor in E.
  - unfold send_loc. destruct (send_impl _ _ _ _) as [[? oid]] eqn:E. apply send_impl_actor in E. by destruct oid.
  - apply net_recv_actor.
  - apply stored_actor.
  - unfold write_loc. rewrite located_actor. apply stored_actor.
  - apply stored_actor.
  - unfold fsync_loc. rewrite located_actor. apply stored_actor.
  - unfold fs_read. by destruct (read _ _ _ _ _ _) as [[]|].
  - apply stored_actor.
  - unfold fs_read_bytes. by destruct (read_bytes _ _ _ _ _ _ _ _) as [[]|].
  - apply stored_actor.
  - destruct (crash_impl _ _ _) eqn:E. by apply crash_actor in E.
  - unfold crash_loc. destruct (crash_impl _ _ _) as [oid b1] eqn:E. apply crash_actor in E. by destruct oid.
  - done.
  - destruct (b_append _ _ _ _ _ _) eqn:E. by apply b_append_actor in E.
Qed.

(** The states of a session: every content address is new. *)
Inductive backend_reach : SimBackend -> Prop :=
| br_new a : backend_reach (for_actor a)
| br_step b b' : backend_reach b -> effect_step b b' -> NoDup (jids (journal b')) -> backend_reach b'.

Lemma backend_reach_ok b : backend_reach b -> exists log, backend_ok log b.
Proof.
  induction 1 as [a|b b' _ [log IH] Hs Hd].
  - exists []. split; cbn; try constructor; try done. by constructor.
  - by apply (effect_step_ok b b' Hs log).
Qed.
End Reachable.

(** ** Theorems *)

(** C37: the journal of every session is consistent.  Whatever effects a session makes, in any order and whether they
    fail or not, as long as no content address repeats and raw journal appends are of kinds that need no producer, the
    correctness monitor finds nothing in the journal but reads of files that did not exist; without such a read [verify]
    accepts it. *)
Theorem session_journal_verifies blake3 keyed derive word journaling unique b :
  backend_reach blake3 keyed derive word journaling unique b -> Z.of_nat (length (entries (journal b))) <= u64_max ->
  (forall i, In i (audit (journal b)) -> exists e expected actual, In e (entries (journal b)) /\ missing_read e
     /\ i = ParentKindMismatch (eid e) expected actual)
  /\ ((forall e, In e (entries (journal b)) -> ~ missing_read e) -> exists report, verify blake3 (journal b) = Ok report).
Proof.
  intros (log & Hb)%backend_reach_ok Hlen. pose proof (bo_represents _ _ _ Hb) as R.
  rewrite (represents_entries _ _ R) in *.
  assert (Hi : forall i, In i (audit (journal b)) -> exists e expected actual, In e log /\ missing_read e
     /\ i = ParentKindMismatch (eid e) expected actual).
  { intros i Hin. destruct (reach_issues blake3 _ log i R (bo_reach _ _ _ Hb) Hlen Hin) as (e & expected & actual & He & Hne & ->).
    pose proof (bo_enabled _ _ _ Hb) as Hen. rewrite List.Forall_forall in Hen. destruct (Hen e He) as [Hm|Hm]; [eauto 8|].
    destruct Hne. intros x Hx. destruct (Hm x Hx) as (p & pe & Hp & Hg & Hk). exists p, pe. by rewrite (r_lookup _ _ R). }
  split; [done|]. intros Hno. unfold verify. destruct (audit (journal b)) as [|i iss] eqn:Ea; [eauto|].
  destruct (Hi i) as (e & ? & ? & He & Hm & _); [by left|]. by destruct (Hno e He).
Qed.

(** In every state of a session a sleep advances the clock by its ticks, saturating, and leaves no timer pending. *)
Theorem sleep_exact blake3 keyed derive word journaling unique b ticks :
  backend_reach blake3 keyed derive word journaling unique b ->
  clock_now (sleep blake3 unique b ticks) = saturating_add (clock_now b) ticks /\ timers (time (sleep blake3 unique b ticks)) = [].
Proof.
  intros (log & Hb)%backend_reach_ok. rewrite (sleep_fires blake3 unique b log ticks Hb).
  destruct (b_append _ _ _ _ _ _) as [oid b1]. cbn [fire_all fired_enabler].
  assert (Ht : forall b k obs pl, time (b_append blake3 unique b k obs pl).2 = time b).
  { intros b0 k obs pl. unfold b_append. by destruct (append _ _ _ _ _ _ _) as [[]|]. }
  destruct (b_append _ _ _ KTimerFire _ _) as [tf b2] eqn:E. pose proof (Ht (with_time b1
    (mkTime (saturating_add (now (time b)) ticks) (v_sequence (time b) + 1) [])) KTimerFire
    (match oid with Some p => [p] | None => [] end) (PTimerFire 0 0)) as H2. rewrite E in H2. cbn [snd] in H2.
  unfold clock_now. destruct tf as [id|]; [rewrite (Ht b2)|]; by rewrite H2.
Qed.

(** ** Concrete sessions *)

Definition no_word (_ : list byte) (_ : nat) : Z := 7.
Abbreviation sample_step := (effect_step roll_digest roll_digest roll_digest no_word false true).
Abbreviation sample_session := (backend_reach roll_digest roll_digest roll_digest no_word false true).

Definition greeting : Message := mkMessage 3 3 [x68; x69] [] (mkMessageId 3 0) 0.

(** A session that draws, sends to itself, receives, writes, syncs, reads and sleeps. *)
Definition s1 := (next_u64 roll_digest roll_digest no_word true (for_actor 3) 1).2.
Definition s2 := (net_send roll_digest true s1 greeting).2.
Definition s3 := (net_recv roll_digest roll_digest true s2 3 0).2.
Definition s4 := (fs_write_bytes roll_digest false true s3 [x2f; x61] 0 [x01; x02]).2.
Definition s5 := (fs_read_bytes roll_digest true s4 [x2f; x61] 0 2).2.
Definition s6 := sleep roll_digest true s5 10.

Lemma s5_reach : sample_session s5.
Proof.
  assert (Hd : forall l : list EntryHash, bool_decide (NoDup l) = true -> NoDup l) by (intros l H; by apply bool_decide_eq_true in H).
  eapply br_step; [| apply st_read_bytes |]; [|apply Hd; vm_compute; reflexivity].
  eapply br_step; [| apply st_write_bytes |]; [|apply Hd; vm_compute; reflexivity].
  eapply br_step; [| apply st_recv |]; [|apply Hd; vm_compute; reflexivity].
  eapply br_step; [| apply st_send |]; [|apply Hd; vm_compute; reflexivity].
  eapply br_step; [| apply st_rng |]; [|apply Hd; vm_compute; reflexivity].
  apply br_new.
Qed.

Lemma s6_reach : sample_session s6.
Proof.
  eapply br_step; [apply s5_reach | apply st_sleep |]. apply (bool_decide_eq_true (NoDup _)). vm_compute. reflexivity.
Qed.

Lemma session_journal_verifies_witness : length (entries (journal s6)) = 8%nat /\ exists report, verify roll_digest (journal s6) = Ok report.
Proof.
  split; [vm_compute; reflexivity|].
  apply (session_journal_verifies roll_digest roll_digest roll_digest no_word false true s6 s6_reach);
    [vm_compute; discriminate|].
  assert (Hn : forallb (fun e => match payload (edata e) with PFsRead r => match observed r with Missing => false | _ => true end | _ => true end)
    (entries (journal s6)) = true) by (vm_compute; reflexivity).
  rewrite forallb_forall in Hn. intros e He (_ & path & offset & len & Hp). specialize (Hn e He). rewrite Hp in Hn. discriminate Hn.
Defined.

Lemma sleep_exact_witness : clock_now s6 = 10.
Proof.
  destruct (sleep_exact _ _ _ _ _ _ s5 10 s5_reach) as [H _]. unfold s6. rewrite H. vm_compute. reflexivity.
Defined.

(** A read of a file that does not exist makes the monitor reject the session: the read is journaled with no
    [FsWrite] parent, so the audit of a session whose first effect is such a read reports it and [verify] fails. *)
Theorem missing_read_rejected :
  exists j id, fs_read_bytes roll_digest true (for_actor 3) [x2f; x61] 0 8 = (Ok Missing, j)
  /\ audit (journal j) = [ParentKindMismatch id "FsWrite" "none"]
  /\ verify roll_digest (journal j) = Err (InvariantViolation "entry requires another parent").
Proof.
  eexists _, _. split; [vm_compute; reflexivity|]. split; vm_compute; reflexivity.
Qed.
