(* ===== verification/RtProto.v ===== *)
(** * Runtime wire protocol

    Models [ldgr-rt/src/proto/mod.rs], [codec.rs] and [msg.rs]: the frames and messages a program under test
    exchanges with the engine. A [String] is its UTF-8 bytes, an [EntryHash] its 32 bytes, and the cursor of the
    message reader is the list of bytes after it. *)

From S2P Require Import Prelude Machine Limits.

Open Scope Z_scope.

Module Proto.

(** ** Constants *)

Definition PROTOCOL_VERSION : Z := 2.
Definition MAGIC : list byte := [x4c; x44; x52; x50].
Definition MAX_FRAME_BYTES : Z := 1024 * 1024.
Definition MAX_PATH_BYTES : Z := 4096.
Definition MAX_PAYLOAD_BYTES : Z := 1024 * 1024.
Definition MAX_RANDOM_COUNT : Z := 4096.
Definition MAX_ACTOR : Z := Z.shiftl 1 20.
Definition FRAME_HEADER_LEN : nat := 20.

(** ** Errors *)

Inductive DecodeError : Type :=
| TruncatedHeader
| TruncatedBody
| BadMagic
| UnsupportedVersion (v : Z)
| ReservedNonZero
| BodyTooLarge (n : Z)
| UnexpectedEof
| BadTag (t : Z)
| PathTooLong
| PayloadTooLong
| InvalidUtf8
| BadCount (n : Z)
| BadActor (a : Z)
| BadHash.

(** [CodecError::BodyTooLarge], the only encoding error. *)
Inductive CodecError : Type :=
| EncodeTooLarge (n : Z).

(** ** Messages *)

Inductive RejectReason : Type :=
| Identity
| Overload
| Protocol.

Inductive Effect : Type :=
| EClock
| ESleep (ticks : Z)
| ERandom (stream count : Z)
| ESend (to : Z) (payload : list byte)
| ERecv
| EFsWrite (path : list byte) (offset : Z) (bytes : list byte)
| EFsRead (path : list byte) (offset len : Z)
| EFsSync (path : list byte).

Inductive EffectResult : Type :=
| RClock (ticks : Z)
| ROk
| RRandom (words : list byte)
| RRecv (payload : option (list byte))
| RFsRead (observed : list byte).

Inductive Message : Type :=
| Hello (identity : EntryHash) (actor : Z)
| Welcome (actor : Z)
| Reject (reason : RejectReason) (detail : list byte)
| EffectRequest (effect : Effect)
| EffectResponse (result : EffectResult)
| Finish
| Goodbye (root : EntryHash) (entries : Z).

(** ** Frames *)

Definition encode_frame (seq : Z) (body : list byte) : result CodecError (list byte) :=
  if (MAX_FRAME_BYTES <? Z.of_nat (length body))%Z then Err (EncodeTooLarge (Z.of_nat (length body)))
  else Ok (MAGIC ++ to_le_bytes 2 PROTOCOL_VERSION ++ to_le_bytes 2 0
             ++ to_le_bytes 4 (Z.of_nat (length body)) ++ to_le_bytes 8 seq ++ body).

(** [input[a..a+n]] as a little-endian integer. *)
Definition le_at (a n : nat) (input : list byte) : Z := from_le_bytes (take n (drop a input)).

Definition parse_header (input : list byte) : result DecodeError (Z * Z) :=
  if (length input <? FRAME_HEADER_LEN)%nat then Err TruncatedHeader
  else if negb (bool_decide (take 4 input = MAGIC)) then Err BadMagic
  else
    let version := le_at 4 2 input in
    if negb (version =? PROTOCOL_VERSION)%Z then Err (UnsupportedVersion version)
    else
      let reserved := le_at 6 2 input in
      if negb (reserved =? 0)%Z then Err ReservedNonZero
      else
        let body_len := le_at 8 4 input in
        if (MAX_FRAME_BYTES <? body_len)%Z then Err (BodyTooLarge body_len)
        else Ok (le_at 12 8 input, body_len).

Definition decode_frame (input : list byte) : result DecodeError (Z * list byte) :=
  if (length input <? FRAME_HEADER_LEN)%nat then Err TruncatedHeader
  else if negb (bool_decide (take 4 input = MAGIC)) then Err BadMagic
  else
    let version := le_at 4 2 input in
    if negb (version =? PROTOCOL_VERSION)%Z then Err (UnsupportedVersion version)
    else
      let reserved := le_at 6 2 input in
      if negb (reserved =? 0)%Z then Err ReservedNonZero
      else
        let body_len := le_at 8 4 input in
        if (MAX_FRAME_BYTES <? body_len)%Z then Err (BodyTooLarge body_len)
        else
          let seq := le_at 12 8 input in
          let? finish := ok_or (checked_add (Z.of_nat FRAME_HEADER_LEN) body_len) TruncatedBody in
          if (Z.of_nat (length input) <? finish)%Z then Err TruncatedBody
          else Ok (seq, take (Z.to_nat body_len) (drop FRAME_HEADER_LEN input)).

(** ** Message encoder *)

Definition write_len_u32 (len : Z) : result CodecError (list byte) :=
  match u32_try_from len with
  | Some wide => Ok (to_le_bytes 4 wide)
  | None => Err (EncodeTooLarge len)
  end.

(** A length prefix and the bytes: [write_len_u32] then [extend_from_slice]. *)
Definition encode_bytes (bytes : list byte) : result CodecError (list byte) :=
  let? len := write_len_u32 (Z.of_nat (length bytes)) in
  Ok (len ++ bytes).

Definition encode_path (path : list byte) : result CodecError (list byte) := encode_bytes path.

Definition encode_framed_hash (hash : EntryHash) : list byte := to_framed_bytes hash.

Definition reason_byte (reason : RejectReason) : Z :=
  match reason with Identity => 1 | Overload => 2 | Protocol => 3 end.

Definition tag (t : Z) : list byte := [z2b t].

Definition encode_effect (effect : Effect) : result CodecError (list byte) :=
  match effect with
  | EClock => Ok (tag 1)
  | ESleep ticks => Ok (tag 2 ++ to_le_bytes 8 ticks)
  | ERandom stream count => Ok (tag 3 ++ to_le_bytes 4 stream ++ to_le_bytes 4 count)
  | ESend to payload =>
      let? p := encode_bytes payload in
      Ok (tag 4 ++ to_le_bytes 4 to ++ p)
  | ERecv => Ok (tag 5)
  | EFsWrite path offset bytes =>
      let? p := encode_path path in
      let? b := encode_bytes bytes in
      Ok (tag 6 ++ p ++ to_le_bytes 8 offset ++ b)
  | EFsRead path offset len =>
      let? p := encode_path path in
      Ok (tag 7 ++ p ++ to_le_bytes 8 offset ++ to_le_bytes 8 len)
  | EFsSync path =>
      let? p := encode_path path in
      Ok (tag 8 ++ p)
  end.

Definition encode_result (r : EffectResult) : result CodecError (list byte) :=
  match r with
  | RClock ticks => Ok (tag 1 ++ to_le_bytes 8 ticks)
  | ROk => Ok (tag 2)
  | RRandom words => let? w := encode_bytes words in Ok (tag 3 ++ w)
  | RRecv (Some bytes) => let? b := encode_bytes bytes in Ok (tag 4 ++ tag 1 ++ b)
  | RRecv None => Ok (tag 4 ++ tag 0)
  | RFsRead observed => let? o := encode_bytes observed in Ok (tag 5 ++ o)
  end.

Definition encode_message (message : Message) : result CodecError (list byte) :=
  match message with
  | Hello identity actor => Ok (tag 1 ++ encode_framed_hash identity ++ to_le_bytes 4 actor)
  | Welcome actor => Ok (tag 2 ++ to_le_bytes 4 actor)
  | Reject reason detail =>
      let? d := encode_bytes detail in
      Ok (tag 3 ++ tag (reason_byte reason) ++ d)
  | EffectRequest effect => let? e := encode_effect effect in Ok (tag 4 ++ e)
  | EffectResponse r => let? e := encode_result r in Ok (tag 5 ++ e)
  | Finish => Ok (tag 6)
  | Goodbye root entries => Ok (tag 7 ++ encode_framed_hash root ++ to_le_bytes 8 entries)
  end.

(** ** Message decoder

    A read returns its value and the bytes after it. *)

Definition Reader : Type := list byte.

Definition rtake (n : Z) (r : Reader) : result DecodeError (list byte * Reader) :=
  if (Z.of_nat (length r) <? n)%Z then Err UnexpectedEof
  else Ok (take (Z.to_nat n) r, drop (Z.to_nat n) r).

Definition r_u8 (r : Reader) : result DecodeError (Z * Reader) :=
  let? '(b, r) := rtake 1 r in Ok (from_le_bytes b, r).

Definition r_u32 (r : Reader) : result DecodeError (Z * Reader) :=
  let? '(b, r) := rtake 4 r in Ok (from_le_bytes b, r).

Definition r_u64 (r : Reader) : result DecodeError (Z * Reader) :=
  let? '(b, r) := rtake 8 r in Ok (from_le_bytes b, r).

Definition hash_framed (r : Reader) : result DecodeError (EntryHash * Reader) :=
  let? '(b, r) := rtake (Z.of_nat FRAMED_HASH_LEN) r in
  let? h := map_err (fun _ => BadHash) (from_framed_bytes b) in
  Ok (h, r).

Definition bounded_bytes (r : Reader) : result DecodeError (list byte * Reader) :=
  let? '(len, r) := r_u32 r in
  if (MAX_PAYLOAD_BYTES <? len)%Z then Err PayloadTooLong else rtake len r.

Definition bounded_string (r : Reader) : result DecodeError (list byte * Reader) :=
  let? '(len, r) := r_u32 r in
  if (MAX_PATH_BYTES <? len)%Z then Err PathTooLong
  else
    let? '(bytes, r) := rtake len r in
    if from_utf8 bytes then Ok (bytes, r) else Err InvalidUtf8.

Definition r_finish (r : Reader) : result DecodeError unit :=
  match r with [] => Ok tt | _ => Err UnexpectedEof end.

Definition reason_from_byte (b : Z) : result DecodeError RejectReason :=
  if (b =? 1)%Z then Ok Identity
  else if (b =? 2)%Z then Ok Overload
  else if (b =? 3)%Z then Ok Protocol
  else Err (BadTag b).

Definition decode_effect (r : Reader) : result DecodeError (Effect * Reader) :=
  let? '(t, r) := r_u8 r in
  if (t =? 1)%Z then Ok (EClock, r)
  else if (t =? 2)%Z then
    let? '(ticks, r) := r_u64 r in Ok (ESleep ticks, r)
  else if (t =? 3)%Z then
    let? '(stream, r) := r_u32 r in
    let? '(count, r) := r_u32 r in
    if (MAX_RANDOM_COUNT <? count)%Z then Err (BadCount count) else Ok (ERandom stream count, r)
  else if (t =? 4)%Z then
    let? '(to_raw, r) := r_u32 r in
    if (MAX_ACTOR <? to_raw)%Z then Err (BadActor to_raw)
    else let? '(payload, r) := bounded_bytes r in Ok (ESend to_raw payload, r)
  else if (t =? 5)%Z then Ok (ERecv, r)
  else if (t =? 6)%Z then
    let? '(path, r) := bounded_string r in
    let? '(offset, r) := r_u64 r in
    let? '(bytes, r) := bounded_bytes r in
    Ok (EFsWrite path offset bytes, r)
  else if (t =? 7)%Z then
    let? '(path, r) := bounded_string r in
    let? '(offset, r) := r_u64 r in
    let? '(len, r) := r_u64 r in
    Ok (EFsRead path offset len, r)
  else if (t =? 8)%Z then
    let? '(path, r) := bounded_string r in Ok (EFsSync path, r)
  else Err (BadTag t).

Definition decode_result (r : Reader) : result DecodeError (EffectResult * Reader) :=
  let? '(t, r) := r_u8 r in
  if (t =? 1)%Z then let? '(ticks, r) := r_u64 r in Ok (RClock ticks, r)
  else if (t =? 2)%Z then Ok (ROk, r)
  else if (t =? 3)%Z then let? '(words, r) := bounded_bytes r in Ok (RRandom words, r)
  else if (t =? 4)%Z then
    let? '(present, r) := r_u8 r in
    if (present =? 0)%Z then Ok (RRecv None, r)
    else if (present =? 1)%Z then let? '(b, r) := bounded_bytes r in Ok (RRecv (Some b), r)
    else Err (BadTag present)
  else if (t =? 5)%Z then let? '(observed, r) := bounded_bytes r in Ok (RFsRead observed, r)
  else Err (BadTag t).

Definition decode_message (body : list byte) : result DecodeError Message :=
  let? '(t, r) := r_u8 body in
  if (t =? 1)%Z then
    let? '(identity, r) := hash_framed r in
    let? '(actor_raw, r) := r_u32 r in
    if (MAX_ACTOR <? actor_raw)%Z then Err (BadActor actor_raw)
    else let? _ := r_finish r in Ok (Hello identity actor_raw)
  else if (t =? 2)%Z then
    let? '(actor, r) := r_u32 r in
    let? _ := r_finish r in Ok (Welcome actor)
  else if (t =? 3)%Z then
    let? '(b, r) := r_u8 r in
    let? reason := reason_from_byte b in
    let? '(detail, r) := bounded_string r in
    let? _ := r_finish r in Ok (Reject reason detail)
  else if (t =? 4)%Z then
    let? '(effect, r) := decode_effect r in
    let? _ := r_finish r in Ok (EffectRequest effect)
  else if (t =? 5)%Z then
    let? '(res, r) := decode_result r in
    let? _ := r_finish r in Ok (EffectResponse res)
  else if (t =? 6)%Z then
    let? _ := r_finish r in Ok Finish
  else if (t =? 7)%Z then
    let? '(root, r) := hash_framed r in
    let? '(entries, r) := r_u64 r in
    let? _ := r_finish r in Ok (Goodbye root entries)
  else Err (BadTag t).

End Proto.

(** ** The runtime wire protocol is an exact codec

    The decoder of [RtProto] accepts exactly the encodings of the messages within the documented caps, and the
    frame reader exactly the frames the frame writer emits. *)

Import Proto.

(** ** Messages within the caps *)

Definition u32b (v : Z) : bool := (0 <=? v)%Z && (v <=? u32_max)%Z.
Definition u64b (v : Z) : bool := (0 <=? v)%Z && (v <=? u64_max)%Z.
Definition actor_ok (v : Z) : bool := (0 <=? v)%Z && (v <=? MAX_ACTOR)%Z.
Definition payload_ok (b : list byte) : bool := (Z.of_nat (length b) <=? MAX_PAYLOAD_BYTES)%Z.
Definition path_ok (b : list byte) : bool := from_utf8 b && (Z.of_nat (length b) <=? MAX_PATH_BYTES)%Z.

Definition effect_ok (e : Effect) : bool :=
  match e with
  | EClock | ERecv => true
  | ESleep ticks => u64b ticks
  | ERandom stream count => u32b stream && (0 <=? count)%Z && (count <=? MAX_RANDOM_COUNT)%Z
  | ESend to payload => actor_ok to && payload_ok payload
  | EFsWrite path offset bytes => path_ok path && u64b offset && payload_ok bytes
  | EFsRead path offset len => path_ok path && u64b offset && u64b len
  | EFsSync path => path_ok path
  end.

Definition reply_ok (r : EffectResult) : bool :=
  match r with
  | RClock ticks => u64b ticks
  | ROk | RRecv None => true
  | RRandom b | RRecv (Some b) | RFsRead b => payload_ok b
  end.

Definition message_ok (m : Message) : bool :=
  match m with
  | Hello identity actor => hash_wf identity && actor_ok actor
  | Welcome actor => u32b actor
  | Reject _ detail => path_ok detail
  | EffectRequest e => effect_ok e
  | EffectResponse r => reply_ok r
  | Finish => true
  | Goodbye root entries => hash_wf root && u64b entries
  end.

(** ** The reader primitives *)

Lemma rtake_app n (b r : list byte) : Z.of_nat (length b) = n -> rtake n (b ++ r) = Ok (b, r).
Proof.
  intros <-. unfold rtake. rewrite length_app, Nat2Z.id.
  destruct (Z.ltb_spec (Z.of_nat (length b + length r)) (Z.of_nat (length b))); [lia|].
  by rewrite take_app_prefix, drop_app_prefix.
Qed.

Lemma rtake_inv n r b r' : 0 <= n -> rtake n r = Ok (b, r') -> r = b ++ r' /\ Z.of_nat (length b) = n.
Proof.
  unfold rtake. intros Hn H. run_match H. bool_hyps. rewrite take_drop. split; [done|].
  rewrite length_take. lia.
Qed.

Lemma le_read_app n v r : 0 <= v < 256 ^ Z.of_nat n ->
  (let? '(b, r) := rtake (Z.of_nat n) (to_le_bytes n v ++ r) in @Ok DecodeError _ (from_le_bytes b, r)) = Ok (v, r).
Proof.
  intros Hv. rewrite rtake_app by (rewrite length_to_le_bytes; done). cbn.
  by rewrite from_to_le_bytes.
Qed.

Lemma le_read_inv n r v r' :
  (let? '(b, r) := rtake (Z.of_nat n) r in @Ok DecodeError _ (from_le_bytes b, r)) = Ok (v, r') ->
  r = to_le_bytes n v ++ r' /\ 0 <= v < 256 ^ Z.of_nat n.
Proof.
  intros H. destruct (rtake _ r) as [[b k]|] eqn:E; [|done]. simplify_eq.
  apply rtake_inv in E as [-> Hl]; [|lia]. apply Nat2Z.inj in Hl. subst n.
  rewrite to_from_le_bytes. split; [done|apply from_le_bytes_range].
Qed.

Lemma r_u8_tag t r : 0 <= t < 256 -> r_u8 (tag t ++ r) = Ok (t, r).
Proof. intros Ht. apply (le_read_app 1 t r Ht). Qed.
Lemma r_u32_app v r : 0 <= v <= u32_max -> r_u32 (to_le_bytes 4 v ++ r) = Ok (v, r).
Proof. intros Hv. apply (le_read_app 4 v r). widths. lia. Qed.
Lemma r_u64_app v r : 0 <= v <= u64_max -> r_u64 (to_le_bytes 8 v ++ r) = Ok (v, r).
Proof. intros Hv. apply (le_read_app 8 v r). widths. lia. Qed.

Lemma r_u8_inv r v r' : r_u8 r = Ok (v, r') -> r = tag v ++ r'.
Proof. intros H. by apply (le_read_inv 1) in H as [-> _]. Qed.
Lemma r_u32_inv r v r' : r_u32 r = Ok (v, r') -> r = to_le_bytes 4 v ++ r' /\ 0 <= v <= u32_max.
Proof. intros H. apply (le_read_inv 4) in H as [-> Hv]. split; [done|widths; lia]. Qed.
Lemma r_u64_inv r v r' : r_u64 r = Ok (v, r') -> r = to_le_bytes 8 v ++ r' /\ 0 <= v <= u64_max.
Proof. intros H. apply (le_read_inv 8) in H as [-> Hv]. split; [done|widths; lia]. Qed.

Lemma hash_framed_app h r : hash_wf h = true -> hash_framed (encode_framed_hash h ++ r) = Ok (h, r).
Proof.
  intros Hh. unfold hash_framed, encode_framed_hash. rewrite rtake_app.
  - by rewrite from_to_framed_bytes.
  - unfold hash_wf, to_framed_bytes, FRAMED_HASH_LEN in *. bool_hyps. cbn [length]. lia.
Qed.

Lemma hash_framed_inv r h r' : hash_framed r = Ok (h, r') -> r = encode_framed_hash h ++ r' /\ hash_wf h = true.
Proof.
  unfold hash_framed. intros H. destruct (rtake _ r) as [[b k]|] eqn:E; [|done].
  destruct (from_framed_bytes b) eqn:Eb; [|done]. cbn in H. simplify_eq.
  apply rtake_inv in E as [-> _]; [|done]. by apply from_framed_bytes_inv in Eb as [-> ?].
Qed.

(** ** Length-prefixed fields *)

Lemma encode_bytes_small b : Z.of_nat (length b) <= u32_max ->
  encode_bytes b = Ok (to_le_bytes 4 (Z.of_nat (length b)) ++ b).
Proof. intros H. unfold encode_bytes, write_len_u32. rewrite u32_try_from_ok; [done|widths; lia]. Qed.

Lemma encode_bytes_payload b : payload_ok b = true -> exists p, encode_bytes b = Ok p.
Proof.
  unfold payload_ok, MAX_PAYLOAD_BYTES. intros H. bool_hyps.
  rewrite encode_bytes_small by (widths; lia). eauto.
Qed.

Lemma encode_path_ok b : path_ok b = true -> exists p, encode_path b = Ok p.
Proof.
  unfold path_ok, MAX_PATH_BYTES. intros H. bool_hyps. unfold encode_path.
  rewrite encode_bytes_small by (widths; lia). eauto.
Qed.

Lemma bounded_bytes_app b p r : payload_ok b = true -> encode_bytes b = Ok p -> bounded_bytes (p ++ r) = Ok (b, r).
Proof.
  unfold payload_ok, MAX_PAYLOAD_BYTES. intros H He. bool_hyps.
  rewrite encode_bytes_small in He by (widths; lia). apply Ok_inj in He as <-.
  unfold bounded_bytes, MAX_PAYLOAD_BYTES. rewrite <- app_assoc, r_u32_app by (widths; lia).
  destruct (Z.ltb_spec (1024 * 1024) (Z.of_nat (length b))); [lia|]. by apply rtake_app.
Qed.

Lemma bounded_bytes_inv r b r' : bounded_bytes r = Ok (b, r') ->
  payload_ok b = true /\ exists p, encode_bytes b = Ok p /\ r = p ++ r'.
Proof.
  unfold bounded_bytes, payload_ok, MAX_PAYLOAD_BYTES. intros H.
  destruct (r_u32 r) as [[len k]|] eqn:E; [|done]. run_match H. bool_hyps.
  apply r_u32_inv in E as [-> Hv]. apply rtake_inv in H as [-> Hl]; [|lia]. subst len.
  split; [apply Z.leb_le; lia|]. rewrite encode_bytes_small by lia. (eexists; split; [done|]; by rewrite <- app_assoc).
Qed.

Lemma bounded_string_app b p r : path_ok b = true -> encode_path b = Ok p -> bounded_string (p ++ r) = Ok (b, r).
Proof.
  unfold path_ok, MAX_PATH_BYTES, encode_path. intros H He. bool_hyps.
  rewrite encode_bytes_small in He by (widths; lia). apply Ok_inj in He as <-.
  unfold bounded_string, MAX_PATH_BYTES. rewrite <- app_assoc, r_u32_app by (widths; lia).
  destruct (Z.ltb_spec 4096 (Z.of_nat (length b))); [lia|]. rewrite rtake_app by done.
  by match goal with H : from_utf8 _ = true |- _ => rewrite H end.
Qed.

Lemma bounded_string_inv r b r' : bounded_string r = Ok (b, r') ->
  path_ok b = true /\ exists p, encode_path b = Ok p /\ r = p ++ r'.
Proof.
  unfold bounded_string, path_ok, encode_path, MAX_PATH_BYTES. intros H.
  destruct (r_u32 r) as [[len k]|] eqn:E; [|done]. run_match H. bool_hyps.
  apply r_u32_inv in E as [-> Hv]. match goal with H : rtake _ _ = _ |- _ => apply rtake_inv in H as [-> Hl]; [|lia] end.
  subst len. rewrite encode_bytes_small by lia. split.
  - apply andb_true_iff. split; [done|apply Z.leb_le; lia].
  - (eexists; split; [done|]; by rewrite <- app_assoc).
Qed.

(** Rewrite a decoder on an encoding with the lemmas above, or invert its success. *)
Ltac enc_match H := repeat (case_split_in H; try discriminate H); apply Ok_inj in H as <-.
Ltac in_range :=
  unfold u32b, u64b, actor_ok, MAX_RANDOM_COUNT in *; change MAX_ACTOR with 1048576 in *; bool_hyps; widths; lia.
Ltac dec_step :=
  first
  [ rewrite r_u8_tag by lia
  | rewrite r_u32_app by in_range
  | rewrite r_u64_app by in_range
  | rewrite hash_framed_app by done
  | erewrite bounded_string_app by eassumption
  | erewrite bounded_bytes_app by eassumption ].
Ltac inv_step :=
  match goal with
  | H : r_u8 _ = Ok _ |- _ => apply r_u8_inv in H as ->
  | H : r_u32 _ = Ok _ |- _ => apply r_u32_inv in H as [-> ?]
  | H : r_u64 _ = Ok _ |- _ => apply r_u64_inv in H as [-> ?]
  | H : hash_framed _ = Ok _ |- _ => apply hash_framed_inv in H as [-> ?]
  | H : bounded_bytes _ = Ok _ |- _ => apply bounded_bytes_inv in H as (? & ? & ? & ->)
  | H : bounded_string _ = Ok _ |- _ => apply bounded_string_inv in H as (? & ? & ? & ->)
  | H : encode_bytes _ = Ok _ |- _ => rewrite H
  | H : encode_path _ = Ok _ |- _ => rewrite H
  | H : r_finish ?r = Ok _ |- _ => destruct r; [clear H|done]
  end.

(** Split a boolean conjunction to prove and close its range conjuncts. *)
Ltac ok_goal := rewrite ?andb_true_iff; repeat split; try done; try apply Z.leb_le; try in_range.

(** ** Effects and results *)

Lemma decode_effect_app e p r : effect_ok e = true -> encode_effect e = Ok p -> decode_effect (p ++ r) = Ok (e, r).
Proof.
  intros He Hp. destruct e; cbn [encode_effect effect_ok] in *; enc_match Hp; bool_hyps;
    unfold decode_effect; rewrite <- ?app_assoc; repeat (dec_step; cbn [Z.eqb Pos.eqb]); try done;
    (case_split; [exfalso; in_range|]); repeat dec_step; done.
Qed.

Lemma decode_effect_inv r e r' : decode_effect r = Ok (e, r') ->
  effect_ok e = true /\ exists p, encode_effect e = Ok p /\ r = p ++ r'.
Proof.
  unfold decode_effect. intros H. run_match H; bool_hyps; subst; repeat inv_step;
    cbn [effect_ok encode_effect];
    (split; [ok_goal | repeat inv_step; eexists; split; [done|by rewrite <- ?app_assoc]]).
Qed.

Lemma decode_result_app e p r : reply_ok e = true -> encode_result e = Ok p -> decode_result (p ++ r) = Ok (e, r).
Proof.
  intros He Hp. destruct e as [| | |[]|]; cbn [encode_result reply_ok] in *; enc_match Hp;
    unfold decode_result; rewrite <- ?app_assoc; by repeat (dec_step; cbn [Z.eqb Pos.eqb]).
Qed.

Lemma decode_result_inv r e r' : decode_result r = Ok (e, r') ->
  reply_ok e = true /\ exists p, encode_result e = Ok p /\ r = p ++ r'.
Proof.
  unfold decode_result. intros H. run_match H; bool_hyps; subst; repeat inv_step;
    cbn [reply_ok encode_result];
    (split; [ok_goal | repeat inv_step; eexists; split; [done|by rewrite <- ?app_assoc]]).
Qed.

Lemma reason_round_trip reason : reason_from_byte (reason_byte reason) = Ok reason.
Proof. by destruct reason. Qed.

Lemma reason_from_byte_inv b reason : reason_from_byte b = Ok reason -> b = reason_byte reason.
Proof. unfold reason_from_byte. intros H. run_match H; by bool_hyps. Qed.

(** ** Messages *)

Lemma decode_message_app m p : message_ok m = true -> encode_message m = Ok p -> decode_message p = Ok m.
Proof.
  intros Hm Hp. destruct m; cbn [encode_message message_ok] in *; enc_match Hp; bool_hyps; unfold decode_message;
    repeat (dec_step; cbn [Z.eqb Pos.eqb]); try done.
  - rewrite <- (app_nil_r (to_le_bytes 4 actor)). dec_step. case_split; [exfalso; in_range|done].
  - rewrite <- (app_nil_r (to_le_bytes 4 actor)). by dec_step.
  - rewrite r_u8_tag by (destruct reason; done). rewrite reason_round_trip, <- (app_nil_r a). by dec_step.
  - rewrite <- (app_nil_r a). by erewrite decode_effect_app.
  - rewrite <- (app_nil_r a). by erewrite decode_result_app.
  - rewrite <- (app_nil_r (to_le_bytes 8 entries)). by dec_step.
Qed.

Lemma decode_message_inv p m : decode_message p = Ok m -> message_ok m = true /\ encode_message m = Ok p.
Proof.
  unfold decode_message. intros H. run_match H; bool_hyps; subst; repeat inv_step; cbn [message_ok encode_message].
  all: repeat match goal with
    | H : decode_effect _ = Ok _ |- _ => apply decode_effect_inv in H as (? & ? & -> & ->)
    | H : decode_result _ = Ok _ |- _ => apply decode_result_inv in H as (? & ? & -> & ->)
    | H : reason_from_byte _ = Ok _ |- _ => apply reason_from_byte_inv in H as ->
    end.
  all: unfold encode_path in *; repeat inv_step; rewrite ?app_nil_r; split; [ok_goal|done].
Qed.

(** The message decoder accepts exactly the encodings of the messages within the documented caps: what it
    accepts is within the caps and re-encodes to the same bytes, and every such message is decoded back from its
    encoding, so no message has two encodings and no bytes have two readings. *)
Theorem message_codec_exact body m :
  decode_message body = Ok m <-> message_ok m = true /\ encode_message m = Ok body.
Proof. split; [apply decode_message_inv|]. intros [Hm He]. by apply decode_message_app. Qed.

(** Every message within the caps encodes. *)
Lemma encode_message_total m : message_ok m = true -> exists body, encode_message m = Ok body.
Proof.
  intros H. destruct m as [| |? d|e|r| |]; cbn [message_ok encode_message] in *; eauto.
  - destruct (encode_path_ok d H) as [p E]. unfold encode_path in E. rewrite E. eexists. reflexivity.
  - destruct e; cbn [effect_ok encode_effect] in *; bool_hyps; eauto;
      repeat match goal with
        | H : path_ok ?b = true |- _ => destruct (encode_path_ok b H) as [? ->]; clear H
        | H : payload_ok ?b = true |- _ => destruct (encode_bytes_payload b H) as [? ->]; clear H
        end; eexists; reflexivity.
  - destruct r as [| |b|[b|]|b]; cbn [reply_ok encode_result] in *; eauto;
      destruct (encode_bytes_payload b H) as [? ->]; eexists; reflexivity.
Qed.

(** ** Frames *)

Definition frame_header (seq len : Z) : list byte :=
  MAGIC ++ to_le_bytes 2 PROTOCOL_VERSION ++ to_le_bytes 2 0 ++ to_le_bytes 4 len ++ to_le_bytes 8 seq.

Lemma length_frame_header seq len : length (frame_header seq len) = FRAME_HEADER_LEN.
Proof. unfold frame_header. rewrite !length_app, !length_to_le_bytes. done. Qed.

Lemma encode_frame_eq seq body : encode_frame seq body =
  if (MAX_FRAME_BYTES <? Z.of_nat (length body))%Z then Err (EncodeTooLarge (Z.of_nat (length body)))
  else Ok (frame_header seq (Z.of_nat (length body)) ++ body).
Proof. unfold encode_frame, frame_header. rewrite <- !app_assoc. done. Qed.

(** The streaming reader and the buffer reader agree: the body is cut after the header is parsed. *)
Lemma decode_frame_header input : decode_frame input =
  let? '(seq, len) := parse_header input in
  if (Z.of_nat (length input) <? 20 + len)%Z then Err TruncatedBody
  else Ok (seq, take (Z.to_nat len) (drop FRAME_HEADER_LEN input)).
Proof.
  unfold decode_frame, parse_header. do 5 (case_split; [done|]). bool_hyps.
  assert (0 <= le_at 8 4 input) by (unfold le_at; pose proof (from_le_bytes_range (take 4 (drop 8 input))); lia).
  unfold MAX_FRAME_BYTES in *. unfold checked_add.
  destruct (Z.leb_spec (Z.of_nat FRAME_HEADER_LEN + le_at 8 4 input) u64_max) as [|Hover]; [done|].
  unfold FRAME_HEADER_LEN in Hover. widths. lia.
Qed.

Lemma le_at_app a n pre v rest : length pre = a -> 0 <= v < 256 ^ Z.of_nat n ->
  le_at a n (pre ++ to_le_bytes n v ++ rest) = v.
Proof.
  intros <- Hv. unfold le_at. rewrite drop_app_prefix, <- (length_to_le_bytes n v) at 1.
  rewrite take_app_prefix. by apply from_to_le_bytes.
Qed.

Lemma le_at_split a n input : (a + n <= length input)%nat ->
  drop a input = to_le_bytes n (le_at a n input) ++ drop (a + n) input /\
  0 <= le_at a n input < 256 ^ Z.of_nat n.
Proof.
  intros H. unfold le_at. assert (Hl : length (take n (drop a input)) = n) by (rewrite length_take, length_drop; lia).
  pose proof (to_from_le_bytes (take n (drop a input))) as E. rewrite Hl in E. rewrite E.
  pose proof (from_le_bytes_range (take n (drop a input))) as Hr. rewrite Hl in Hr. split; [|done].
  by rewrite <- drop_drop, take_drop.
Qed.

Lemma parse_header_app seq len rest : is_u64 seq -> 0 <= len <= MAX_FRAME_BYTES ->
  parse_header (frame_header seq len ++ rest) = Ok (seq, len).
Proof.
  intros Hs Hl. unfold parse_header. rewrite length_app, length_frame_header.
  destruct (Nat.ltb_spec (FRAME_HEADER_LEN + length rest) FRAME_HEADER_LEN); [lia|].
  unfold frame_header, MAX_FRAME_BYTES in *. rewrite <- !app_assoc.
  rewrite (le_at_app 4 2 MAGIC) by (done || (unfold PROTOCOL_VERSION; lia)).
  rewrite (app_assoc MAGIC (to_le_bytes 2 _)), (le_at_app 6 2 (MAGIC ++ to_le_bytes 2 PROTOCOL_VERSION)) by (done || lia).
  rewrite (app_assoc (MAGIC ++ _)), (le_at_app 8 4) by (rewrite ?length_app, ?length_to_le_bytes; (done || lia)).
  rewrite (app_assoc ((MAGIC ++ _) ++ _)), (le_at_app 12 8)
    by (rewrite ?length_app, ?length_to_le_bytes; widths; (done || lia)).
  destruct (Z.ltb_spec (1024 * 1024) len); [lia|]. done.
Qed.

Lemma parse_header_inv input seq len : parse_header input = Ok (seq, len) ->
  input = frame_header seq len ++ drop FRAME_HEADER_LEN input /\ is_u64 seq /\ 0 <= len <= MAX_FRAME_BYTES.
Proof.
  unfold parse_header, FRAME_HEADER_LEN. intros H. run_match H. bool_hyps.
  destruct (le_at_split 4 2 input ltac:(lia)) as [E1 _], (le_at_split 6 2 input ltac:(lia)) as [E2 _],
    (le_at_split 8 4 input ltac:(lia)) as [E3 R3], (le_at_split 12 8 input ltac:(lia)) as [E4 R4].
  split; [|unfold is_u64; widths; lia].
  unfold frame_header. rewrite <- !app_assoc. rewrite <- (take_drop 4 input) at 1.
  match goal with H : bool_decide (take 4 input = MAGIC) = true |- _ => apply bool_decide_eq_true in H; rewrite H end.
  f_equal. cbn [Nat.add] in *. rewrite E1, E2, E3, E4. congruence.
Qed.

Lemma decode_frame_inv input seq body : decode_frame input = Ok (seq, body) ->
  is_u64 seq /\ exists frame rest, encode_frame seq body = Ok frame /\ input = frame ++ rest.
Proof.
  rewrite decode_frame_header. intros H. destruct (parse_header input) as [[s len]|] eqn:E; [|done].
  apply parse_header_inv in E as (E & Hs & Hl). run_match H. bool_hyps. split; [done|].
  assert (Hlen : length (take (Z.to_nat len) (drop FRAME_HEADER_LEN input)) = Z.to_nat len)
    by (rewrite length_take, length_drop; unfold FRAME_HEADER_LEN; lia).
  rewrite encode_frame_eq, Hlen, Z2Nat.id by lia. destruct (Z.ltb_spec MAX_FRAME_BYTES len); [lia|].
  do 2 eexists. split; [done|]. rewrite <- app_assoc, take_drop. done.
Qed.

Lemma decode_frame_app seq body frame rest : is_u64 seq -> encode_frame seq body = Ok frame ->
  decode_frame (frame ++ rest) = Ok (seq, body).
Proof.
  intros Hs He. rewrite decode_frame_header. rewrite encode_frame_eq in He.
  destruct (Z.ltb_spec MAX_FRAME_BYTES (Z.of_nat (length body))); [done|]. apply Ok_inj in He as <-.
  rewrite <- app_assoc, parse_header_app by (done || lia).
  destruct (Z.ltb_spec (Z.of_nat (length (frame_header seq (Z.of_nat (length body)) ++ body ++ rest)))
    (20 + Z.of_nat (length body))) as [Hlt|_].
  { rewrite !length_app, length_frame_header in Hlt. unfold FRAME_HEADER_LEN in Hlt. lia. }
  rewrite <- (length_frame_header seq (Z.of_nat (length body))), drop_app_prefix, Nat2Z.id, take_app_prefix. done.
Qed.

(** The frame reader accepts exactly the frames the frame writer emits for that sequence number and body,
    followed by any bytes; so the body has at most 1 MiB, and a stream of frames splits in one way. *)
Theorem frame_codec_exact input seq body :
  decode_frame input = Ok (seq, body) <->
  is_u64 seq /\ exists frame rest, encode_frame seq body = Ok frame /\ input = frame ++ rest.
Proof. split; [apply decode_frame_inv|]. intros (Hs & frame & rest & He & ->). by apply decode_frame_app. Qed.
