(* ===== verification/RtSession.v ===== *)
(** * Engine sessions over the wire

    Models the server session of [rt-server/src/lib.rs] ([Session::serve], [apply]) and the client of
    [ldgr-rt/src/shim.rs] ([EngineSession]).  Each side is a function of the bytes it reads that returns the bytes it
    writes; a socket delivers them in order.  A write to the socket does not fail.

    The server is written against an interface of the engine state, [EffectBackend]; its instance is the simulation backend
    with the send counter of the session. *)

From stdpp Require Import gmap.
From S2P Require Import Prelude Machine Limits Entry Dag Causal Monitor VirtualTime Net SimFs Backend RtProto.
Import Backend Proto.

Open Scope Z_scope.

(** ** The engine behind a session *)

Class EffectBackend (B E : Type) : Type := {
  apply_effect : B -> Z -> Effect -> result E EffectResult * B;
  journal_root : B -> EntryHash;
  journal_count : B -> Z }.

(** ** Streams *)

(** The [io::Error]s: the stream ends in a read, a message does not encode, an effect of the engine fails. *)
Inductive IoCause (E : Type) : Type :=
| EndOfStream
| InvalidData (e : CodecError)
| EffectFailed (e : E).
Arguments EndOfStream {E}.
Arguments InvalidData {E} e.
Arguments EffectFailed {E} e.

(** [read_exact]. *)
Definition read_exact {E} (n : nat) (input : list byte) : result (IoCause E) (list byte * list byte) :=
  if (length input <? n)%nat then Err EndOfStream else Ok (take n input, drop n input).

Section Streams.
Context {E Err' : Type} (io : IoCause E -> Err') (protocol : DecodeError -> Err').

Definition read_message (input : list byte) : result Err' (Z * Message * list byte) :=
  let? '(header, rest) := map_err io (read_exact FRAME_HEADER_LEN input) in
  let? '(_, body_len) := map_err protocol (parse_header header) in
  let? '(full, rest) :=
    if (0 <? body_len)%Z
    then let? '(body, rest) := map_err io (read_exact (Z.to_nat body_len) rest) in Ok (header ++ body, rest)
    else Ok (header, rest) in
  let? '(seq, body) := map_err protocol (decode_frame full) in
  let? message := map_err protocol (decode_message body) in
  Ok (seq, message, rest).

Definition write_message (seq : Z) (message : Message) : result Err' (list byte) :=
  let? body := map_err (fun e => io (InvalidData e)) (encode_message message) in
  map_err (fun e => io (InvalidData e)) (encode_frame seq body).
End Streams.

(** ** The server *)

Inductive ServerError (E : Type) : Type :=
| SIo (cause : IoCause E)
| SProtocol (e : DecodeError)
| SRejected (reason : RejectReason).
Arguments SIo {E} cause.
Arguments SProtocol {E} e.
Arguments SRejected {E} reason.

Record Session (B : Type) : Type := mkSession { backend : B; s_actor : option Z; expected_identity : EntryHash }.
Arguments mkSession {B} _ _ _.
Arguments backend {B} _.
Arguments s_actor {B} _.
Arguments expected_identity {B} _.

Section Server.
Context {B E : Type} `{EffectBackend B E}.
(** The [Debug] text of a message, part of a rejection. *)
Variable debug : Message -> list byte.

Abbreviation outcome := (list byte * result (ServerError E) (EntryHash * Z) * Session B)%type.

Definition server_read := read_message (SIo (E := E)) SProtocol.
Definition server_write := write_message (SIo (E := E)).

Definition reject (s : Session B) (reason : RejectReason) (detail : list byte) : outcome :=
  match server_write 0 (Reject reason detail) with
  | Ok frame => (frame, Err (SRejected reason), s)
  | Err e => ([], Err e, s)
  end.

(** [apply]: a session without an actor is a protocol violation. *)
Definition apply (s : Session B) (effect : Effect) : result (ServerError E) EffectResult * Session B :=
  match s_actor s with
  | None => (Err (SRejected Protocol), s)
  | Some actor =>
      let '(r, b) := apply_effect (backend s) actor effect in
      (map_err (fun e => SIo (EffectFailed e)) r, mkSession b (s_actor s) (expected_identity s))
  end.

(** The effect loop of [serve]; [None] when the fuel is spent. *)
Fixpoint serve_loop (fuel : nat) (next_seq : Z) (s : Session B) (input : list byte) : option outcome :=
  match fuel with
  | O => None
  | S fuel =>
      match server_read input with
      | Err e => Some ([], Err e, s)
      | Ok (seq, frame, rest) =>
          if negb (seq =? next_seq)%Z then Some (reject s Protocol (bytes_of_string "sequence gap or repeat"))
          else
            match checked_add next_seq 1 with
            | None => Some ([], Err (SRejected Protocol), s)
            | Some next =>
                match frame with
                | EffectRequest effect =>
                    match apply s effect with
                    | (Err e, s) => Some ([], Err e, s)
                    | (Ok r, s) =>
                        match server_write seq (EffectResponse r) with
                        | Err e => Some ([], Err e, s)
                        | Ok out =>
                            match serve_loop fuel next s rest with
                            | Some (more, r, s) => Some (out ++ more, r, s)
                            | None => None
                            end
                        end
                    end
                | Finish =>
                    let goodbye := (journal_root (backend s), journal_count (backend s)) in
                    match server_write seq (Goodbye goodbye.1 goodbye.2) with
                    | Err e => Some ([], Err e, s)
                    | Ok out => Some (out, Ok goodbye, s)
                    end
                | other => Some (reject s Protocol (bytes_of_string "unexpected message in effect loop: " ++ debug other))
                end
            end
      end
  end.

Definition serve (s : Session B) (input : list byte) : option outcome :=
  match server_read input with
  | Err e => Some ([], Err e, s)
  | Ok (hello_seq, hello, rest) =>
      if negb (hello_seq =? 0)%Z then Some (reject s Protocol (bytes_of_string "first frame is not hello"))
      else
        match hello with
        | Hello identity actor =>
            if negb (bool_decide (identity = expected_identity s))
            then Some (reject s Identity (bytes_of_string "session identity mismatch"))
            else if (MAX_ACTOR <? actor)%Z then Some (reject s Protocol (bytes_of_string "actor over the protocol cap"))
            else
              let s := mkSession (backend s) (Some actor) (expected_identity s) in
              match server_write hello_seq (Welcome actor) with
              | Err e => Some ([], Err e, s)
              | Ok out =>
                  match serve_loop (S (length rest)) 1 s rest with
                  | Some (more, r, s) => Some (out ++ more, r, s)
                  | None => None
                  end
              end
        | _ => Some (reject s Protocol (bytes_of_string "expected hello"))
        end
  end.
End Server.

(** ** The client *)

Inductive ShimError : Type :=
| CIo (cause : IoCause Empty_set)
| CProtocol (e : DecodeError)
| CRejected (reason : RejectReason) (detail : list byte)
| UnexpectedReply
| SequenceMismatch
| InvalidActor (actor max : Z).

Record EngineSession : Type := mkClient { next_seq : Z; c_actor : Z }.

Definition client_read := read_message CIo CProtocol.
Definition client_write := write_message CIo.

(** Each call returns the bytes it wrote, its result and the input left. *)
Definition connect (identity : EntryHash) (actor : Z) (input : list byte) :
    list byte * result ShimError (EngineSession * list byte) :=
  if (MAX_ACTOR <? actor)%Z then ([], Err (InvalidActor actor MAX_ACTOR))
  else
    match client_write 0 (Hello identity actor) with
    | Err e => ([], Err e)
    | Ok out =>
        (out,
         let? '(seq, reply, rest) := client_read input in
         if negb (seq =? 0)%Z then Err UnexpectedReply
         else
           match reply with
           | Welcome assigned =>
               if negb (assigned =? actor)%Z then Err UnexpectedReply else Ok (mkClient 1 assigned, rest)
           | Reject reason detail => Err (CRejected reason detail)
           | _ => Err UnexpectedReply
           end)
    end.

Definition effect (c : EngineSession) (e : Effect) (input : list byte) :
    list byte * result ShimError (EffectResult * list byte) * EngineSession :=
  let seq := next_seq c in
  match checked_add seq 1 with
  | None => ([], Err SequenceMismatch, c)
  | Some next =>
      let c := mkClient next (c_actor c) in
      match client_write seq (EffectRequest e) with
      | Err err => ([], Err err, c)
      | Ok out =>
          (out,
           let? '(reply_seq, reply, rest) := client_read input in
           if negb (reply_seq =? seq)%Z then Err SequenceMismatch
           else match reply with EffectResponse r => Ok (r, rest) | _ => Err UnexpectedReply end,
           c)
      end
  end.

Definition finish (c : EngineSession) (input : list byte) : list byte * result ShimError (EntryHash * Z) :=
  let seq := next_seq c in
  match client_write seq Finish with
  | Err e => ([], Err e)
  | Ok out =>
      (out,
       let? '(reply_seq, reply, _) := client_read input in
       if negb (reply_seq =? seq)%Z then Err SequenceMismatch
       else match reply with Goodbye root n => Ok (root, n) | _ => Err UnexpectedReply end)
  end.

(** ** The simulation backend as the engine *)

Record Engine : Type := mkEngine { sim : SimBackend; send_sequence : Z }.

Section SimEngine.
Variable blake3 keyed_blake3 derive : list byte -> list byte.
Variable chacha_word : list byte -> nat -> Z.
Variable journaling base_unique : bool.

Definition SESSION_IDENTITY_DOMAIN : list byte := bytes_of_string "ldgr.d1.session" ++ [x00].
Definition session_identity (seed : EntryHash) : EntryHash := blake3 (SESSION_IDENTITY_DOMAIN ++ seed).

(** [Session::new]: the backend of actor 0. *)
Definition engine_new : Engine := mkEngine backend_new 0.

(** The loop of [Effect::Random]: [count] words, little-endian. *)
Fixpoint draw_words (b : SimBackend) (stream : Z) (count : nat) : list byte * SimBackend :=
  match count with
  | O => ([], b)
  | S count =>
      let '(value, b) := next_u64 blake3 derive chacha_word base_unique b stream in
      let '(words, b) := draw_words b stream count in
      (to_le_bytes 8 value ++ words, b)
  end.

(** [rng(stream)] creates the stream before the first word is drawn. *)
Definition touch_stream (b : SimBackend) (stream : Z) : SimBackend :=
  with_streams b (<[stream := default 0%nat (rng_streams b !! stream)]> (rng_streams b)).

(** The body of [Session::apply] once the actor is known. *)
Definition apply_sim (g : Engine) (actor : Z) (e : Effect) : result SimFsError EffectResult * Engine :=
  let b := sim g in
  let keep (b : SimBackend) := mkEngine b (send_sequence g) in
  match e with
  | EClock => (Ok (RClock (clock_now b)), g)
  | ESleep ticks => (Ok ROk, keep (sleep blake3 base_unique b ticks))
  | ERandom stream count =>
      let '(words, b) := draw_words (touch_stream b stream) stream (Z.to_nat count) in (Ok (RRandom words), keep b)
  | ESend to payload =>
      let m := mkMessage actor to payload (repeat x00 32) (mkMessageId actor (send_sequence g)) 0 in
      let '(_, b) := net_send blake3 base_unique b m in
      (Ok ROk, mkEngine b (saturating_add (send_sequence g) 1))
  | ERecv =>
      let '(m, b) := net_recv blake3 keyed_blake3 base_unique b actor (clock_now b) in
      (Ok (RRecv (option_map Net.content m)), keep b)
  | EFsWrite path offset bytes =>
      let '(r, b) := fs_write_bytes blake3 journaling base_unique b path offset bytes in
      (let? _ := r in Ok ROk, keep b)
  | EFsRead path offset len =>
      let '(r, b) := fs_read_bytes blake3 base_unique b path offset len in
      (let? o := r in Ok (RFsRead (match o with Missing => [] | Present content => content end)), keep b)
  | EFsSync path =>
      let '(r, b) := fs_sync_path blake3 base_unique b path in
      (let? _ := r in Ok ROk, keep b)
  end.

#[export] Instance SimEngine_Backend : EffectBackend Engine SimFsError := {
  apply_effect := apply_sim;
  journal_root g := root_hash blake3 (journal (sim g));
  journal_count g := Z.of_nat (journal_len (journal (sim g))) }.
End SimEngine.

(** ** Engine sessions: what crosses the wire

    - A program that talks to the engine through the client and the server observes what it would observe calling the
      engine directly.
    - The server ends on every input and applies exactly the requests numbered 1, 2, ... that follow a valid hello.
    - A rejection after the handshake does not reach the program as one, and a session journals as actor 0. *)

(** ** Messages on the wire *)

(** The frame of a message. *)
Definition wire (seq : Z) (m : Message) (f : list byte) : Prop :=
  exists body, encode_message m = Ok body /\ encode_frame seq body = Ok f.

(** Within the caps and small enough for a frame. *)
Definition sendable (m : Message) : Prop :=
  message_ok m = true /\ exists body, encode_message m = Ok body /\ Z.of_nat (length body) <= MAX_FRAME_BYTES.

Lemma sendable_wire seq m : sendable m -> exists f, wire seq m f.
Proof.
  intros (_ & body & He & Hl). unfold wire. rewrite He. exists (frame_header seq (Z.of_nat (length body)) ++ body), body.
  split; [done|]. rewrite encode_frame_eq. destruct (Z.ltb_spec MAX_FRAME_BYTES (Z.of_nat (length body))); [lia|done].
Qed.

Lemma wire_shape seq m f : wire seq m f -> exists body, encode_message m = Ok body
  /\ f = frame_header seq (Z.of_nat (length body)) ++ body /\ encode_frame seq body = Ok f /\ Z.of_nat (length body) <= MAX_FRAME_BYTES.
Proof.
  intros (body & He & Hf). exists body. pose proof Hf as Hf'. rewrite encode_frame_eq in Hf'.
  destruct (Z.ltb_spec MAX_FRAME_BYTES (Z.of_nat (length body))); [done|]. apply Ok_inj in Hf' as <-. done.
Qed.

Lemma wire_length seq m f : wire seq m f -> (20 <= length f)%nat.
Proof. intros (body & _ & -> & _)%wire_shape. rewrite length_app, length_frame_header. unfold FRAME_HEADER_LEN. lia. Qed.

Section Streams.
Context {E X : Type} (io : IoCause E -> X) (protocol : DecodeError -> X).

Lemma write_wire seq m f : wire seq m f -> write_message io seq m = Ok f.
Proof. intros (body & He & Hf). unfold write_message. rewrite He. cbn. by rewrite Hf. Qed.

Lemma read_exact_app n (a r : list byte) : length a = n -> read_exact n (a ++ r) = @Ok (IoCause E) _ (a, r).
Proof.
  intros <-. unfold read_exact. rewrite length_app. destruct (Nat.ltb_spec (length a + length r) (length a)); [lia|].
  by rewrite take_app_prefix, drop_app_prefix.
Qed.

Lemma read_wire seq m f rest : wire seq m f -> message_ok m = true -> is_u64 seq ->
  read_message io protocol (f ++ rest) = Ok (seq, m, rest).
Proof.
  intros (body & He & -> & Hf & Hl)%wire_shape Hm Hs. unfold read_message.
  rewrite <- app_assoc, read_exact_app by apply length_frame_header. cbn [map_err].
  rewrite <- (app_nil_r (frame_header _ _)), parse_header_app, app_nil_r by (done || lia). cbn [map_err].
  set (full := if (0 <? _)%Z then _ else _).
  assert (Hfull : full = Ok (frame_header seq (Z.of_nat (length body)) ++ body, rest)).
  { subst full. destruct (Z.ltb_spec 0 (Z.of_nat (length body))).
    - by rewrite Nat2Z.id, read_exact_app.
    - destruct body; [by rewrite app_nil_r|cbn in *; lia]. }
  rewrite Hfull. rewrite <- (app_nil_r (frame_header _ _ ++ _)), (decode_frame_app seq body) by done. cbn [map_err].
  by rewrite (decode_message_app m body).
Qed.

Lemma read_message_inv input seq m rest : read_message io protocol input = Ok (seq, m, rest) ->
  exists f, wire seq m f /\ input = f ++ rest /\ message_ok m = true /\ is_u64 seq.
Proof.
  unfold read_message, read_exact. intros H. destruct (Nat.ltb_spec (length input) FRAME_HEADER_LEN); [done|]. cbn [map_err] in H.
  destruct (parse_header _) as [[s len]|] eqn:Eh; [|done]. cbn [map_err] in H.
  set (full := if (0 <? len)%Z then _ else _) in H. destruct full as [[fl rest']|] eqn:Ef; [|done]. subst full.
  destruct (decode_frame fl) as [[seq' body]|] eqn:Ed; [|done]. cbn [map_err] in H.
  destruct (decode_message body) eqn:Em; [|done]. cbn in H. simplify_eq.
  apply decode_message_inv in Em as [Hm He]. pose proof Ed as Ed'.
  apply decode_frame_inv in Ed as (Hs & frame & tail & Hf & ->). exists frame. split; [by exists body|].
  assert (Hin : input = (frame ++ tail) ++ rest /\ length (frame ++ tail) = (20 + Z.to_nat len)%nat).
  { pose proof (take_drop FRAME_HEADER_LEN input) as Ht.
    assert (Hh : length (take FRAME_HEADER_LEN input) = 20%nat) by (rewrite length_take; unfold FRAME_HEADER_LEN in *; lia).
    destruct (Z.ltb_spec 0 len) as [Hp|Hp].
    - destruct (Nat.ltb_spec (length (drop FRAME_HEADER_LEN input)) (Z.to_nat len)); [done|]. cbn [map_err] in Ef.
      apply Ok_inj in Ef. injection Ef as <- <-.
      rewrite <- app_assoc, take_drop, take_drop. split; [done|]. rewrite length_app, Hh, length_take. lia.
    - apply Ok_inj in Ef. injection Ef as <- <-. split; [done|]. rewrite Hh. apply parse_header_inv in Eh as (_ & _ & Hl). lia. }
  destruct Hin as [-> Hlen]. destruct (wire_shape seq m frame) as (body' & He' & Hsh & _ & _); [by exists body|].
  assert (body' = body) by congruence. subst body'.
  (* the header fixes the length of the body, so nothing is left of the buffer *)
  assert (Hl : len = Z.of_nat (length body)).
  { rewrite Hsh in Eh. rewrite <- !app_assoc, <- (length_frame_header seq (Z.of_nat (length body))), take_app_prefix in Eh.
    rewrite <- (app_nil_r (frame_header _ _)), parse_header_app in Eh; [by simplify_eq|done|].
    rewrite encode_frame_eq in Hf. destruct (Z.ltb_spec MAX_FRAME_BYTES (Z.of_nat (length body))); [done|lia]. }
  assert (tail = []) as ->.
  { apply length_zero_iff_nil. rewrite length_app, Hsh, length_app, length_frame_header in Hlen. unfold FRAME_HEADER_LEN in Hlen. lia. }
  by rewrite app_nil_r.
Qed.
End Streams.

(** ** The server *)

Section Server.
Context {B E : Type} `{EffectBackend B E}.
Variable debug : Message -> list byte.

Lemma server_read_shorter input seq m rest : server_read (E := E) input = Ok (seq, m, rest) -> (length rest < length input)%nat.
Proof. intros (f & Hw & -> & _)%read_message_inv. apply wire_length in Hw. rewrite length_app. lia. Qed.

Lemma serve_loop_total fuel : forall next (s : Session B) input, (length input < fuel)%nat ->
  serve_loop debug fuel next s input <> None.
Proof.
  induction fuel as [|fuel IH]; intros next s input Hf; [lia|]. cbn [serve_loop].
  destruct (server_read input) as [[[seq m] rest]|] eqn:Er; [|done]. apply server_read_shorter in Er.
  case_split; [done|]. destruct (checked_add next 1) as [n|]; [|done]. destruct m; try done.
  - destruct (apply s effect0) as [[r|e] s']; [|done]. destruct (server_write seq (EffectResponse r)); [|done].
    specialize (IH n s' rest). destruct (serve_loop debug fuel n s' rest) as [[[]]|]; [done|]. intros _. apply IH; [lia|done].
  - by destruct (server_write seq _).
Qed.

Lemma serve_total_aux (s : Session B) input : serve debug s input <> None.
Proof.
  unfold serve. destruct (server_read input) as [[[seq m] rest]|]; [|done]. case_split; [done|]. destruct m; try done.
  repeat (case_split; [done|]). destruct (server_write seq _); [|done].
  pose proof (serve_loop_total (S (length rest)) 1 (mkSession (backend s) (Some actor) (expected_identity s)) rest ltac:(lia)) as Ht.
  by destruct (serve_loop _ _ _ _ rest) as [[[]]|].
Qed.

(** *** What the engine sees *)

(** The frames of requests numbered from a sequence number on. *)
Inductive request_frames : Z -> list Effect -> list byte -> Prop :=
| rf_nil seq : request_frames seq [] []
| rf_cons seq e es f fs : wire seq (EffectRequest e) f -> request_frames (seq + 1) es fs -> request_frames seq (e :: es) (f ++ fs).

Definition after (b : B) (actor : Z) (es : list Effect) : B := foldl (fun b e => (apply_effect b actor e).2) b es.

Lemma apply_engine (s : Session B) actor e : s_actor s = Some actor ->
  (apply s e).2 = mkSession (after (backend s) actor [e]) (Some actor) (expected_identity s).
Proof. intros Ha. unfold apply. rewrite Ha. cbn. by destruct (apply_effect (backend s) actor e). Qed.

Lemma serve_loop_prefix fuel : forall next (s : Session B) input out r s' actor, s_actor s = Some actor ->
  serve_loop debug fuel next s input = Some (out, r, s') ->
  exists es fs rest, input = fs ++ rest /\ request_frames next es fs /\ backend s' = after (backend s) actor es.
Proof.
  assert (Hstop : forall next (s : Session B) actor input, exists es fs rest,
    input = fs ++ rest /\ request_frames next es fs /\ backend s = after (backend s) actor es).
  { intros next s actor input. exists [], [], input. split; [done|]. split; [constructor|done]. }
  assert (Hrej : forall s r d out res (s' : Session B), Some (reject (E := E) s r d) = Some (out, res, s') -> s' = s).
  { intros s r d out res s' Hr%(inj Some). unfold reject in Hr. destruct (server_write _ _); congruence. }
  induction fuel as [|fuel IH]; intros next s input out r s' actor Ha Hs; [done|]. cbn [serve_loop] in Hs.
  destruct (server_read input) as [[[seq m] rest]|] eqn:Er; [|simplify_eq; apply Hstop].
  apply read_message_inv in Er as (f & Hw & -> & _ & _).
  destruct (Z.eqb_spec seq next) as [->|Hn]; cbn [negb] in Hs; [|apply Hrej in Hs as ->; apply Hstop].
  destruct (checked_add next 1) as [n|] eqn:Ec; [|simplify_eq; apply Hstop].
  assert (n = next + 1) as -> by (unfold checked_add in Ec; by case_split_in Ec; simplify_eq).
  destruct m; try (apply Hrej in Hs as ->; apply Hstop).
  - assert (Hstep : forall s1, s1 = (apply s effect0).2 -> forall es fs rest0, rest = fs ++ rest0 ->
      request_frames (next + 1) es fs -> backend s' = after (backend s1) actor es ->
      exists es fs rest0, f ++ rest = fs ++ rest0 /\ request_frames next es fs /\ backend s' = after (backend s) actor es).
    { intros s1 -> es fs rest0 -> Hfs Hb. rewrite (apply_engine s actor effect0 Ha) in Hb.
      exists (effect0 :: es), (f ++ fs), rest0. rewrite app_assoc. split; [done|]. split; [by constructor|done]. }
    assert (Ha1 : s_actor (apply s effect0).2 = Some actor) by (by rewrite (apply_engine s actor effect0 Ha)).
    destruct (apply s effect0) as [[v|x] s1]; cbn [snd] in *.
    + assert (Hone : Some (out, r, s') = Some (out, r, s1) -> exists es fs rest0,
        f ++ rest = fs ++ rest0 /\ request_frames next es fs /\ backend s' = after (backend s) actor es).
      { intros [= ->]. eapply (Hstep s1 eq_refl [] []); [done|constructor|done]. }
      destruct (server_write next (EffectResponse v)); [|simplify_eq; by apply Hone].
      destruct (serve_loop debug fuel (next + 1) s1 rest) as [[[more r1] s2]|] eqn:El; [|done]. simplify_eq.
      destruct (IH _ _ _ _ _ _ actor Ha1 El) as (es & fs & rest0 & -> & Hfs & Hb). by eapply Hstep.
    + simplify_eq. by eapply (Hstep s' eq_refl [] []); [|constructor|].
  - destruct (server_write next _); simplify_eq; apply Hstop.
Qed.

(** *** Programs *)

(** A program asks for its next effect given the results so far, or ends. *)
Abbreviation program := (list EffectResult -> option Effect).

(** What the program and the engine do when the program calls the engine directly, until the program ends or an effect
    fails; every message fits the wire. *)
Inductive local_run (prog : program) (actor : Z) :
    B -> list EffectResult -> list (Effect * EffectResult) -> option E -> B -> Prop :=
| lr_done b hist : prog hist = None -> local_run prog actor b hist [] None b
| lr_fail b hist e x b1 : prog hist = Some e -> apply_effect b actor e = (Err x, b1) ->
    sendable (EffectRequest e) -> local_run prog actor b hist [] (Some x) b1
| lr_step b hist e r b1 tr failure b2 : prog hist = Some e -> apply_effect b actor e = (Ok r, b1) ->
    sendable (EffectRequest e) -> sendable (EffectResponse r) ->
    local_run prog actor b1 (hist ++ [r]) tr failure b2 -> local_run prog actor b hist ((e, r) :: tr) failure b2.
End Server.

(** The program over the client: the bytes written, and the results with the final root and count. *)
Fixpoint run_program (fuel : nat) (prog : list EffectResult -> option Effect) (c : EngineSession) (hist : list EffectResult)
    (input : list byte) : option (list byte * result ShimError (list EffectResult * (EntryHash * Z))) :=
  match fuel with
  | O => None
  | S fuel =>
      match prog hist with
      | None => let '(out, r) := finish c input in Some (out, let? g := r in Ok (hist, g))
      | Some e =>
          let '(out, r, c) := effect c e input in
          match r with
          | Err x => Some (out, Err x)
          | Ok (v, rest) =>
              match run_program fuel prog c (hist ++ [v]) rest with
              | Some (more, r) => Some (out ++ more, r)
              | None => None
              end
          end
      end
  end.

Definition run_session (fuel : nat) (prog : list EffectResult -> option Effect) (identity : EntryHash) (actor : Z) (input : list byte) :
    option (list byte * result ShimError (list EffectResult * (EntryHash * Z))) :=
  let '(out, r) := connect identity actor input in
  match r with
  | Err x => Some (out, Err x)
  | Ok (c, rest) =>
      match run_program fuel prog c [] rest with
      | Some (more, r) => Some (out ++ more, r)
      | None => None
      end
  end.

(** ** Both sides together *)

Section Transparency.
Context {B E : Type} `{EffectBackend B E}.
Variable debug : Message -> list byte.
Variable prog : list EffectResult -> option Effect.
Variables (identity : EntryHash) (actor : Z).

(** How a session ends on either side when the program ends, or the engine fails, in state [b]: the server reports
    the failure and stops, and the client finds the stream closed. *)
Definition served (failure : option E) (b : B) : result (ServerError E) (EntryHash * Z) :=
  match failure with None => Ok (journal_root b, journal_count b) | Some x => Err (SIo (EffectFailed x)) end.
Definition observed_by_client (failure : option E) (b : B) (results : list EffectResult) :
    result ShimError (list EffectResult * (EntryHash * Z)) :=
  match failure with None => Ok (results, (journal_root b, journal_count b)) | Some _ => Err (CIo EndOfStream) end.

Definition farewell (b : B) : Message := Goodbye (journal_root b) (journal_count b).

Lemma checked_next seq : 0 <= seq < u64_max -> checked_add seq 1 = Some (seq + 1).
Proof. intros Hs. unfold checked_add. destruct (Z.leb_spec (seq + 1) u64_max); [done|lia]. Qed.

Lemma finish_sendable : sendable Finish.
Proof. split; [done|]. eexists. split; [done|]. by vm_compute. Qed.

(** One request and its response. *)
Lemma exchange seq e r b b1 : 0 <= seq < u64_max -> apply_effect b actor e = (Ok r, b1) ->
  sendable (EffectRequest e) -> sendable (EffectResponse r) ->
  exists cf sf, (20 <= length cf)%nat
  /\ (forall fuel input, serve_loop debug (S fuel) seq (mkSession b (Some actor) identity) (cf ++ input) =
        match serve_loop debug fuel (seq + 1) (mkSession b1 (Some actor) identity) input with
        | Some (more, res, s) => Some (sf ++ more, res, s)
        | None => None
        end)
  /\ (forall input, effect (mkClient seq actor) e (sf ++ input) = (cf, Ok (r, input), mkClient (seq + 1) actor)).
Proof.
  intros Hs Ha He Hr. destruct (sendable_wire seq _ He) as [cf Hc], (sendable_wire seq _ Hr) as [sf Hsf].
  assert (Hu : is_u64 seq) by (unfold is_u64; lia).
  exists cf, sf. split; [by eapply wire_length|]. split.
  - intros fuel input. cbn [serve_loop]. unfold server_read. rewrite (read_wire _ _ seq _ cf input Hc (proj1 He) Hu).
    rewrite Z.eqb_refl, checked_next by done. cbn [negb]. unfold apply. cbn [s_actor backend expected_identity]. rewrite Ha. cbn [map_err].
    unfold server_write. by rewrite (write_wire _ seq _ sf Hsf).
  - intros input. unfold effect, client_write, client_read. cbn [next_seq c_actor]. rewrite checked_next by done.
    rewrite (write_wire _ seq _ cf Hc), (read_wire _ _ seq _ sf input Hsf (proj1 Hr) Hu). cbn. by rewrite Z.eqb_refl.
Qed.

Lemma run_loop b hist tr failure b' : local_run prog actor b hist tr failure b' -> sendable (farewell b') -> forall seq,
  0 <= seq -> seq + Z.of_nat (length tr) < u64_max ->
  exists c_out s_out, (length tr < length c_out)%nat
  /\ (forall fuel, (length tr < fuel)%nat -> serve_loop debug fuel seq (mkSession b (Some actor) identity) c_out =
        Some (s_out, served failure b', mkSession b' (Some actor) identity))
  /\ run_program (S (length tr)) prog (mkClient seq actor) hist s_out =
        Some (c_out, observed_by_client failure b' (hist ++ map snd tr)).
Proof.
  intros Hrun Hbye. induction Hrun as [b hist Hp|b hist e x b1 Hp Ha He|b hist e r b1 tr failure b2 Hp Ha He Hr _ IH];
    intros seq H0 Hs; cbn [length] in *.
  - destruct (sendable_wire seq _ finish_sendable) as [cf Hc], (sendable_wire seq _ Hbye) as [sf Hsf].
    assert (Hu : is_u64 seq) by (unfold is_u64; lia). exists cf, sf. split; [apply wire_length in Hc; lia|]. split.
    + intros [|fuel] Hf; [lia|]. cbn [serve_loop]. unfold server_read. rewrite <- (app_nil_r cf).
      rewrite (read_wire _ _ seq _ cf [] Hc (proj1 finish_sendable) Hu), Z.eqb_refl, checked_next by lia. cbn [negb fst snd backend].
      unfold server_write. by rewrite (write_wire _ seq _ sf Hsf).
    + cbn [run_program]. rewrite Hp. unfold finish, client_write, client_read. cbn [next_seq].
      rewrite (write_wire _ seq _ cf Hc). rewrite <- (app_nil_r sf), (read_wire _ _ seq _ sf [] Hsf (proj1 Hbye) Hu).
      rewrite Z.eqb_refl. cbn. by rewrite app_nil_r.
  - destruct (sendable_wire seq _ He) as [cf Hc]. assert (Hu : is_u64 seq) by (unfold is_u64; lia).
    exists cf, []. split; [apply wire_length in Hc; lia|]. split.
    + intros [|fuel] Hf; [lia|]. cbn [serve_loop]. unfold server_read. rewrite <- (app_nil_r cf).
      rewrite (read_wire _ _ seq _ cf [] Hc (proj1 He) Hu), Z.eqb_refl, checked_next by lia. cbn [negb].
      unfold apply. cbn [s_actor backend expected_identity]. rewrite Ha. done.
    + cbn [run_program]. rewrite Hp. unfold effect, client_write, client_read. cbn [next_seq c_actor].
      rewrite checked_next by lia. rewrite (write_wire _ seq _ cf Hc). done.
  - destruct (exchange seq e r b b1 ltac:(lia) Ha He Hr) as (cf & sf & Hl & Hsrv & Hcli).
    destruct (IH Hbye (seq + 1) ltac:(lia) ltac:(lia)) as (c_out & s_out & Hlen & IHs & IHc).
    exists (cf ++ c_out), (sf ++ s_out). split; [rewrite length_app; lia|]. split.
    + intros [|fuel] Hf; [lia|]. by rewrite Hsrv, (IHs fuel) by lia.
    + set (n := S (length tr)) in *. cbn [run_program]. rewrite Hp, Hcli, IHc. cbn [map snd]. by rewrite <- app_assoc.
Qed.
End Transparency.

(** ** Theorems *)

(** C20: the engine is reached as if it were called directly.  For every engine behind the interface and every program
    whose next effect may depend on the earlier results, as long as the messages of the run fit the wire: let the program
    calling the engine perform the effects [tr] and then end, or see an effect fail, with the engine in state [b'].  The
    server fed the bytes the client writes and the client fed the bytes the server writes then both stop with the engine
    in [b'].  When the program ended, the client has the results of [tr] with the root and count of [b']; when an effect
    failed, the server reports that failure and the client only sees the end of the stream. *)
Theorem session_transparent {B E} `{EffectBackend B E} debug prog identity actor (b b' : B) tr failure :
  local_run prog actor b [] tr failure b' -> hash_wf identity = true -> actor_ok actor = true -> sendable (farewell b') ->
  Z.of_nat (length tr) + 1 < u64_max ->
  exists c_out s_out,
    serve debug (mkSession b None identity) c_out = Some (s_out, served failure b', mkSession b' (Some actor) identity)
    /\ run_session (S (length tr)) prog identity actor s_out = Some (c_out, observed_by_client failure b' (map snd tr)).
Proof.
  intros Hrun Hid Ha Hbye Hlen. destruct (run_loop debug prog identity actor b [] tr failure b' Hrun Hbye 1 ltac:(lia) ltac:(lia))
    as (c_out & s_out & Hc & Hs & Hp).
  assert (Hhello : sendable (Hello identity actor)).
  { split; [by apply andb_true_iff|]. eexists. split; [done|]. unfold tag, encode_framed_hash, to_framed_bytes.
    rewrite !length_app, length_to_le_bytes. unfold hash_wf in Hid. bool_hyps. cbn [length]. unfold MAX_FRAME_BYTES. lia. }
  assert (Hwelcome : sendable (Welcome actor)).
  { split; [cbn; unfold actor_ok, u32b in *; change MAX_ACTOR with 1048576 in *; bool_hyps; widths; apply andb_true_iff; split; apply Z.leb_le; lia|].
    eexists. split; [done|]. by vm_compute. }
  destruct (sendable_wire 0 _ Hhello) as [hf Hh], (sendable_wire 0 _ Hwelcome) as [wf Hw].
  assert (Hcap : (MAX_ACTOR <? actor)%Z = false) by (unfold actor_ok in Ha; bool_hyps; apply Z.ltb_ge; lia).
  assert (H0 : is_u64 0) by (unfold is_u64, u64_max; lia).
  exists (hf ++ c_out), (wf ++ s_out). split.
  - unfold serve, server_read. rewrite (read_wire _ _ 0 _ hf c_out Hh (proj1 Hhello) H0). cbn [Z.eqb negb expected_identity backend].
    rewrite bool_decide_true, Hcap by done. cbn [negb]. unfold server_write. rewrite (write_wire _ 0 _ wf Hw).
    by rewrite Hs by lia.
  - unfold run_session, connect, client_write, client_read. rewrite Hcap, (write_wire _ 0 _ hf Hh).
    rewrite (read_wire _ _ 0 _ wf s_out Hw (proj1 Hwelcome) H0). cbn [Z.eqb negb]. rewrite Z.eqb_refl. cbn [negb]. by rewrite Hp.
Qed.

(** The server ends on every input, and whatever the input the engine is either untouched or the input starts with a
    hello of the expected identity for some actor and the engine has applied, as that actor, exactly the effects of the
    request frames numbered 1, 2, ... that follow it. *)
Theorem server_applies_numbered_requests {B E} `{EffectBackend B E} debug (b : B) identity input :
  exists out r s, serve debug (mkSession b None identity) input = Some (out, r, s)
  /\ (backend s = b \/ exists actor es hello frames rest, input = hello ++ frames ++ rest /\ wire 0 (Hello identity actor) hello
        /\ actor_ok actor = true /\ request_frames 1 es frames /\ backend s = after b actor es).
Proof.
  pose proof (serve_total_aux debug (mkSession b None identity) input) as Ht.
  destruct (serve debug (mkSession b None identity) input) as [[[out r] s]|] eqn:Es; [|done].
  exists out, r, s. split; [done|]. clear Ht. unfold serve in Es.
  assert (Hrej : forall s0 r0 d, Some (reject (E := E) s0 r0 d) = Some (out, r, s) -> backend s = backend s0).
  { intros s0 r0 d Hr%(inj Some). unfold reject in Hr. destruct (server_write _ _); congruence. }
  destruct (server_read input) as [[[seq m] rest]|] eqn:Er; [|left; by simplify_eq].
  apply read_message_inv in Er as (f & Hw & -> & Hm & _).
  destruct (Z.eqb_spec seq 0) as [->|]; cbn [negb] in Es; [|apply Hrej in Es; by left].
  destruct m as [id actor| | | | | |]; try (apply Hrej in Es; by left).
  destruct (bool_decide_reflect (id = expected_identity (mkSession b None identity))) as [->|]; cbn [negb] in Es;
    [|apply Hrej in Es; by left].
  destruct (MAX_ACTOR <? actor)%Z eqn:Hcap; [apply Hrej in Es; by left|].
  destruct (server_write 0 _) eqn:Ew; [|left; by simplify_eq].
  destruct (serve_loop _ _ _ _ rest) as [[[more r'] s']|] eqn:El; [|done].
  apply (serve_loop_prefix debug _ _ _ _ _ _ _ actor) in El as (es & fs & rest' & -> & Hfs & Hb); [|done]. right.
  cbn [message_ok] in Hm. bool_hyps. simplify_eq/=. by exists actor, es, f, fs, rest'.
Qed.

(** A rejection after the handshake is lost.  Every frame [reject] writes carries sequence number 0, so a client
    waiting for the answer to a request, whose number is 1 or more, reports a sequence mismatch and neither the reason
    nor the text of the rejection. *)
Theorem late_reject_unseen {B} (s : Session B) reason detail c e out r s' rest :
  reject (E := SimFsError) s reason detail = (out, r, s') -> path_ok detail = true -> sendable (EffectRequest e) -> 1 <= next_seq c < u64_max ->
  r = Err (SRejected reason) /\ exists sent c', effect c e (out ++ rest) = (sent, Err SequenceMismatch, c').
Proof.
  intros Hr Hd He Hc. assert (Hs : sendable (Reject reason detail)).
  { split; [done|]. cbn [encode_message]. destruct (encode_path_ok _ Hd) as [p Hp]. unfold encode_path in Hp. rewrite Hp.
    eexists. split; [done|]. unfold path_ok, MAX_PATH_BYTES, MAX_FRAME_BYTES in *. bool_hyps.
    rewrite encode_bytes_small in Hp by (widths; lia). apply Ok_inj in Hp as <-. rewrite !length_app, length_to_le_bytes. unfold tag. cbn [length]. lia. }
  destruct (sendable_wire 0 _ Hs) as [f Hf]. unfold reject, server_write in Hr. rewrite (write_wire _ 0 _ f Hf) in Hr. simplify_eq.
  split; [done|]. destruct (sendable_wire (next_seq c) _ He) as [cf Hcf]. unfold effect, client_write, client_read.
  rewrite checked_next by lia. rewrite (write_wire _ _ _ cf Hcf), (read_wire _ _ 0 _ out rest Hf (proj1 Hs)) by (unfold is_u64, u64_max; lia).
  destruct (Z.eqb_spec 0 (next_seq c)); [lia|]. cbn [negb]. eauto.
Qed.

(** ** Sessions of the simulation backend *)

Section SimSessions.
Variable blake3 keyed_blake3 derive : list byte -> list byte.
Variable chacha_word : list byte -> nat -> Z.
Variable journaling base_unique : bool.
Abbreviation apply_sim := (apply_sim blake3 keyed_blake3 derive chacha_word journaling base_unique).
Abbreviation draw_words := (draw_words blake3 derive chacha_word base_unique).
Abbreviation backend_ok := (backend_ok blake3).

(** The states of sessions, whatever actors their hellos name; every content address is new. *)
Inductive engine_reach : Engine -> Prop :=
| er_new : engine_reach engine_new
| er_apply g actor e : engine_reach g -> NoDup (jids (journal (sim (apply_sim g actor e).2))) -> engine_reach (apply_sim g actor e).2.

Lemma next_u64_jids b stream : jids (journal b) `prefix_of` jids (journal (next_u64 blake3 derive chacha_word base_unique b stream).2).
Proof.
  unfold next_u64. cbn [snd]. destruct (b_append _ _ _ _ _ _) as [oid b'] eqn:E. apply b_append_jids in E. exact E.
Qed.

Lemma draw_words_jids stream n : forall b, jids (journal b) `prefix_of` jids (journal (draw_words b stream n).2).
Proof.
  induction n as [|m IH]; intros b; [done|]. cbn [RtSession.draw_words]. pose proof (next_u64_jids b stream) as Hn.
  destruct (next_u64 _ _ _ _ b stream) as [v b1]. specialize (IH b1). destruct (draw_words b1 stream m) as [w b2].
  cbn [snd] in *. by etransitivity.
Qed.

Lemma draw_words_ok stream n : forall b log, backend_ok log b -> NoDup (jids (journal (draw_words b stream n).2)) ->
  (exists log', backend_ok log' (draw_words b stream n).2) /\ b_actor (draw_words b stream n).2 = b_actor b.
Proof.
  induction n as [|m IH]; intros b log Hb Hd; [eauto|]. cbn [RtSession.draw_words] in *.
  pose proof (next_u64_ok blake3 derive chacha_word base_unique b stream log Hb) as Hn.
  pose proof (next_u64_actor blake3 derive chacha_word base_unique b stream) as Ha.
  destruct (next_u64 _ _ _ _ b stream) as [v b1]. cbn [snd] in *. specialize (IH b1). pose proof (draw_words_jids stream m b1) as Hp.
  destruct (draw_words b1 stream m) as [w b2]. cbn [snd] in *.
  destruct Hn as [log' Hb1]; [by eapply NoDup_prefix|]. destruct (IH log' Hb1 Hd) as [? ->]. done.
Qed.

Lemma apply_sim_ok g actor e log : backend_ok log (sim g) -> NoDup (jids (journal (sim (apply_sim g actor e).2))) ->
  (exists log', backend_ok log' (sim (apply_sim g actor e).2)) /\ b_actor (sim (apply_sim g actor e).2) = b_actor (sim g).
Proof.
  intros Hb Hd.
  assert (Hstep : forall b', effect_step blake3 keyed_blake3 derive chacha_word journaling base_unique (sim g) b' ->
    NoDup (jids (journal b')) -> (exists log', backend_ok log' b') /\ b_actor b' = b_actor (sim g)).
  { intros b' Hs Hn. split; [by eapply effect_step_ok | by eapply effect_step_actor]. }
  destruct e as [|ticks|stream count|to payload| |path offset bytes|path offset len|path]; cbn [RtSession.apply_sim] in *.
  - eauto.
  - apply Hstep; [apply st_sleep|exact Hd].
  - destruct (draw_words _ _ _) as [w b'] eqn:Ew. cbn [snd sim] in *.
    destruct (draw_words_ok stream (Z.to_nat count) (touch_stream (sim g) stream) log) as [H1 H2];
      [by apply with_streams_ok | by rewrite Ew | by rewrite Ew in *].
  - match goal with |- context [net_send _ _ ?b ?m] =>
      pose proof (st_send blake3 keyed_blake3 derive chacha_word journaling base_unique b m) as Hs end.
    destruct (net_send _ _ _ _) as [d b']. by apply Hstep.
  - pose proof (st_recv blake3 keyed_blake3 derive chacha_word journaling base_unique (sim g) actor (clock_now (sim g))) as Hs.
    destruct (net_recv _ _ _ _ _ _) as [m b']. by apply Hstep.
  - pose proof (st_write_bytes blake3 keyed_blake3 derive chacha_word journaling base_unique (sim g) path offset bytes) as Hs.
    destruct (fs_write_bytes _ _ _ _ _ _ _) as [m b']. by apply Hstep.
  - pose proof (st_read_bytes blake3 keyed_blake3 derive chacha_word journaling base_unique (sim g) path offset len) as Hs.
    destruct (fs_read_bytes _ _ _ _ _ _) as [m b']. by apply Hstep.
  - pose proof (st_sync_path blake3 keyed_blake3 derive chacha_word journaling base_unique (sim g) path) as Hs.
    destruct (fs_sync_path _ _ _ _) as [m b']. by apply Hstep.
Qed.

Lemma engine_reach_ok g : engine_reach g -> (exists log, backend_ok log (sim g)) /\ b_actor (sim g) = 0.
Proof.
  induction 1 as [|g actor e _ [[log IH] Ha] Hd].
  - split; [|done]. apply (backend_reach_ok blake3 keyed_blake3 derive chacha_word journaling base_unique). apply br_new.
  - destruct (apply_sim_ok g actor e log IH Hd) as [? ->]. done.
Qed.
End SimSessions.

(** A session journals as actor 0.  Whatever actor the hello names and the effects are applied as, every entry of the
    journal of a session belongs to actor 0, the actor [SimBackend::new] creates the backend for. *)
Theorem session_entries_actor_zero blake3 keyed derive word journaling unique g e :
  engine_reach blake3 keyed derive word journaling unique g -> In e (entries (journal (sim g))) -> actor (edata e) = 0.
Proof.
  intros [[log Hb] Ha]%engine_reach_ok Hin. rewrite (represents_entries _ _ (bo_represents _ _ _ Hb)) in Hin.
  pose proof (bo_actor _ _ _ Hb) as Hac. rewrite List.Forall_forall in Hac. by rewrite (Hac e Hin).
Qed.

(** ** Concrete sessions *)

Abbreviation sample_apply := (apply_sim roll_digest roll_digest roll_digest no_word false true).
#[local] Instance sample_backend : EffectBackend Engine SimFsError :=
  SimEngine_Backend roll_digest roll_digest roll_digest no_word false true.

(** A program that draws a word, sends it to itself and receives. *)
Definition echo (hist : list EffectResult) : option Effect :=
  match hist with
  | [] => Some (ERandom 1 1)
  | [RRandom words] => Some (ESend 3 words)
  | [_; _] => Some ERecv
  | _ => None
  end.

Definition e1 := (sample_apply engine_new 3 (ERandom 1 1)).2.
Definition e2 := (sample_apply e1 3 (ESend 3 (to_le_bytes 8 7))).2.
Definition e3 := (sample_apply e2 3 ERecv).2.

Definition echo_trace : list (Effect * EffectResult) :=
  [(ERandom 1 1, RRandom (to_le_bytes 8 7)); (ESend 3 (to_le_bytes 8 7), ROk); (ERecv, RRecv (Some (to_le_bytes 8 7)))].

Ltac sendable_now := split; [vm_compute; reflexivity | eexists; split; [vm_compute; reflexivity | vm_compute; discriminate]].

Lemma echo_run : local_run echo 3 engine_new [] echo_trace None e3.
Proof.
  unfold echo_trace. eapply (lr_step _ _ _ _ _ _ e1 _ None); [reflexivity | vm_compute; reflexivity | sendable_now | sendable_now |].
  eapply (lr_step _ _ _ _ _ _ e2 _ None); [vm_compute; reflexivity | vm_compute; reflexivity | sendable_now | sendable_now |].
  eapply (lr_step _ _ _ _ _ _ e3 _ None); [vm_compute; reflexivity | vm_compute; reflexivity | sendable_now | sendable_now |].
  constructor. reflexivity.
Qed.

Lemma session_transparent_witness : exists c_out s_out s r,
  serve (fun _ => []) (mkSession engine_new None (repeat x01 32)) c_out = Some (s_out, Ok r, s)
  /\ run_session 4 echo (repeat x01 32) 3 s_out = Some (c_out, Ok (map snd echo_trace, r)).
Proof.
  destruct (session_transparent (fun _ => []) echo (repeat x01 32) 3 engine_new e3 echo_trace None echo_run) as (c & s & Hs & Hc);
    [reflexivity | reflexivity | sendable_now | vm_compute; reflexivity |].
  exists c, s. eexists _, _. split; [exact Hs | exact Hc].
Defined.

Lemma late_reject_unseen_witness : exists sent c',
  effect (mkClient 5 3) EClock ((reject (E := SimFsError) (mkSession engine_new (Some 3) []) Protocol []).1.1 ++ []) = (sent, Err SequenceMismatch, c').
Proof.
  apply (late_reject_unseen (mkSession engine_new (Some 3) []) Protocol [] (mkClient 5 3) EClock _
    (Err (SRejected Protocol)) (mkSession engine_new (Some 3) []) []); [reflexivity | reflexivity | sendable_now | cbn; unfold u64_max; lia].
Defined.

Lemma session_entries_actor_zero_witness : length (entries (journal (sim e2))) = 2%nat
  /\ forall e, In e (entries (journal (sim e2))) -> actor (edata e) = 0.
Proof.
  split; [vm_compute; reflexivity|]. intros e.
  apply (session_entries_actor_zero roll_digest roll_digest roll_digest no_word false true e2 e).
  apply er_apply; [apply er_apply; [constructor|]|]; apply (bool_decide_eq_true (NoDup _)); vm_compute; reflexivity.
Defined.
