(* ===== verification/Ddmin.v ===== *)
(** * Delta debugging

    [ledger-explorer/src/minimizer/ddmin.rs]: the [ddmin] loop over a stateful failure predicate
    (Rust's [FnMut(&[T]) -> bool]), its termination, and how minimal its result is. *)

From S2P Require Import Prelude.

Section Ddmin.
Context {A St : Type}.
Variable fails : St -> list A -> bool * St.

(** [usize::div_ceil]. *)
Definition div_ceil (a b : nat) : nat := (a + b - 1) / b.

(** The inner [while index < partitions] loop, [rest] being [partitions - index]: the first
    complement of a chunk that fails, if any. *)
Fixpoint try_chunks (rest : nat) (s : St) (current : list A) (chunk index : nat) : option (list A) * St :=
  match rest with
  | O => (None, s)
  | S rest =>
      let start := (index * chunk)%nat in
      if (length current <=? start)%nat then (None, s)
      else
        let stop := Nat.min (start + chunk) (length current) in
        let candidate := take start current ++ drop stop current in
        let '(failed, s) := fails s candidate in
        if failed then (Some candidate, s) else try_chunks rest s current chunk (index + 1)
  end.

(** The outer [while current.len() >= 2] loop; [None] would be a loop longer than the fuel. *)
Fixpoint ddmin_loop (fuel : nat) (s : St) (current : list A) (partitions : nat) : option (list A * St) :=
  if (length current <? 2)%nat then Some (current, s)
  else
    match fuel with
    | O => None
    | S fuel =>
        let chunk := div_ceil (length current) partitions in
        match try_chunks partitions s current chunk 0 with
        | (Some candidate, s) => ddmin_loop fuel s candidate (Nat.max (partitions - 1) 2)
        | (None, s) =>
            if (partitions =? length current)%nat then Some (current, s)
            else ddmin_loop fuel s current (Nat.min (partitions * 2) (length current))
        end
    end.

Definition ddmin_fuel (len : nat) : nat := (len * len + len)%nat.

Definition ddmin (s : St) (input : list A) : option (list A * St) :=
  if (length input <? 2)%nat then Some (input, s)
  else
    let '(failed, s) := fails s input in
    if failed then ddmin_loop (ddmin_fuel (length input)) s input 2 else Some (input, s).

End Ddmin.

(** ** The chunk arithmetic *)

Lemma div_ceil_bounds a b : (0 < b)%nat -> (b <= a)%nat ->
  (a <= div_ceil a b * b)%nat /\ (div_ceil a b * b < a + b)%nat /\ (1 <= div_ceil a b)%nat.
Proof.
  intros Hb Ha. unfold div_ceil.
  pose proof (Nat.div_mod_eq (a + b - 1) b) as E. pose proof (Nat.mod_upper_bound (a + b - 1) b ltac:(lia)) as Hm.
  set (q := ((a + b - 1) / b)%nat) in *. set (m := ((a + b - 1) mod b)%nat) in *. nia.
Qed.

Lemma div_ceil_self a : (0 < a)%nat -> div_ceil a a = 1%nat.
Proof. intros H. destruct (div_ceil_bounds a a H ltac:(lia)) as (? & ? & ?). nia. Qed.

(** With at least two partitions no chunk is the whole list, and removing one leaves at least
    [partitions - 1] elements. *)
Lemma chunk_bounds len p : (2 <= p <= len)%nat ->
  (1 <= div_ceil len p)%nat /\ (div_ceil len p + p <= len + 1)%nat.
Proof. intros H. destruct (div_ceil_bounds len p) as (? & ? & ?); [lia..|]. nia. Qed.

Section Correct.
Context {A St : Type}.
Variable fails : St -> list A -> bool * St.
(** The predicate keeps an invariant of its state, under which its answers depend only on the
    candidate. *)
Variable Inv : St -> Prop.
Variable P : list A -> bool.
Hypothesis fails_spec : forall s l, Inv s -> (fails s l).1 = P l /\ Inv (fails s l).2.

(** ** One round *)

Definition complement (current : list A) (chunk index : nat) : list A :=
  take (index * chunk) current ++ drop (Nat.min (index * chunk + chunk) (length current)) current.

Lemma complement_length current chunk index : (index * chunk < length current)%nat -> (1 <= chunk)%nat ->
  (length (complement current chunk index) < length current
   /\ length current <= length (complement current chunk index) + chunk)%nat.
Proof. intros H1 H2. unfold complement. rewrite length_app, length_take, length_drop. lia. Qed.

Lemma complement_sublist current chunk index : complement current chunk index `sublist_of` current.
Proof.
  unfold complement. trans (take (index * chunk) current ++ drop (index * chunk) current);
    [|rewrite take_drop; done].
  apply sublist_app; [done|].
  destruct (decide (index * chunk <= length current)%nat) as [H|H].
  - replace (Nat.min _ _) with ((index * chunk) + Nat.min chunk (length current - index * chunk))%nat by lia.
    rewrite <- drop_drop. apply sublist_drop.
  - rewrite !drop_ge by lia. done.
Qed.

(** A round returns the complement of a chunk that fails, or has tried every chunk. *)
Lemma try_chunks_spec rest s current chunk index : Inv s ->
  Inv (try_chunks fails rest s current chunk index).2
  /\ match (try_chunks fails rest s current chunk index).1 with
     | Some c => exists i, (i * chunk < length current)%nat /\ c = complement current chunk i /\ P c = true
     | None => forall i, (index <= i < index + rest)%nat -> (i * chunk < length current)%nat ->
                 P (complement current chunk i) = false
     end.
Proof.
  revert s index. induction rest as [|rest IH]; cbn; intros s index Hs; [split; [done|lia]|].
  destruct (Nat.leb_spec (length current) (index * chunk)) as [Hl|Hl]; [split; [done | cbn; nia]|].
  destruct (fails_spec s (complement current chunk index) Hs) as [HP HI]. unfold complement in HP, HI at 1.
  destruct (fails s _) as [b s1]. cbn in HP, HI. destruct b.
  - split; [done|]. exists index. done.
  - destruct (IH s1 (index + 1)%nat HI) as [H1 H2]. split; [done|].
    destruct (try_chunks _ _ _ _ _ _).1; [exact H2|]. intros i Hi Hil.
    destruct (decide (i = index)) as [->|]; [symmetry; exact HP | apply H2; lia].
Qed.

(** ** The loop ends *)

(** Decreases at every turn: a reduction shortens the list, and a doubling brings the partitions
    closer to the length. *)
Definition ddmin_measure (len p : nat) : nat := (len * len + (len - p))%nat.

Definition one_minimal (r : list A) : Prop := forall i, (i < length r)%nat -> P (delete i r) = false.

Lemma ddmin_loop_spec fuel : forall s current p, Inv s -> P current = true ->
  (2 <= p)%nat -> ((2 <= length current)%nat -> (p <= length current)%nat) ->
  (ddmin_measure (length current) p < fuel)%nat -> (1 <= length current)%nat ->
  exists r s', ddmin_loop fails fuel s current p = Some (r, s') /\ Inv s' /\ r `sublist_of` current
    /\ (1 <= length r)%nat /\ P r = true /\ ((2 <= length r)%nat -> one_minimal r).
Proof.
  induction fuel as [|fuel IH]; intros s current p Hs HP Hp Hle Hf H1; [lia|]. cbn [ddmin_loop].
  destruct (Nat.ltb_spec (length current) 2) as [Hl|Hl].
  { exists current, s. split_and!; [done..|intros; lia]. }
  specialize (Hle Hl). destruct (chunk_bounds (length current) p ltac:(lia)) as [Hc1 Hc2].
  destruct (try_chunks_spec p s current (div_ceil (length current) p) 0 Hs) as [HI Hr].
  destruct (try_chunks _ _ _ _ _ _) as [[c|] s1]; cbn in HI, Hr.
  - destruct Hr as (i & Hi & -> & HPc). destruct (complement_length current _ i Hi Hc1) as [Hl1 Hl2].
    edestruct (IH s1 (complement current (div_ceil (length current) p) i) (Nat.max (p - 1) 2))
      as (r & s' & -> & HI' & Hsub & ?); [done | done | lia | lia | unfold ddmin_measure in *; nia | lia |].
    exists r, s'. split_and!; try tauto. etrans; [exact Hsub | apply complement_sublist].
  - destruct (Nat.eqb_spec p (length current)) as [->|Hne].
    + exists current, s1. split_and!; [done..|]. intros _ i Hi. rewrite div_ceil_self in Hr by lia.
      specialize (Hr i). unfold complement in Hr. rewrite Nat.mul_1_r in Hr.
      rewrite delete_take_drop. replace (Nat.min (i + 1) (length current)) with (S i) in Hr by lia.
      apply Hr; lia.
    + edestruct (IH s1 current (Nat.min (p * 2) (length current))) as (r & s' & -> & ?);
        [done | done | lia | lia | unfold ddmin_measure in *; nia | lia |]. eauto.
Qed.

Lemma ddmin_spec s input : Inv s ->
  exists r s', ddmin fails s input = Some (r, s') /\ Inv s' /\ r `sublist_of` input /\ P r = P input
    /\ ((length input < 2)%nat \/ P input = false -> r = input)
    /\ ((2 <= length input)%nat -> (1 <= length r)%nat
        /\ (P input = true -> (2 <= length r)%nat -> one_minimal r)).
Proof.
  intros Hs. unfold ddmin. destruct (Nat.ltb_spec (length input) 2) as [Hl|Hl].
  { exists input, s. split_and!; try done; lia. }
  destruct (fails_spec s input Hs) as [HP HI]. destruct (fails s input) as [b s1]. cbn in HP, HI. subst b.
  destruct (P input) eqn:E; [|exists input, s1; split_and!; done || lia].
  destruct (ddmin_loop_spec (ddmin_fuel (length input)) s1 input 2)
    as (r & s' & -> & HI' & Hsub & Hr1 & Hr & Hmin);
    [done | done | lia | lia | unfold ddmin_measure, ddmin_fuel; lia | lia |].
  exists r, s'. split_and!; auto. intros [?|?]; [lia|done].
Qed.
End Correct.

(** ** Theorems *)

(** C31: [ddmin] minimises.  When the predicate keeps an invariant of its state under which its
    answers depend only on the candidate, [ddmin] ends within its fuel and returns a subsequence of
    the input on which the predicate answers as on the input.  An input that is short or does not
    fail is returned unchanged; otherwise the result is not empty and, if two or more elements are
    left, removing any one of them makes the failure disappear. *)
Theorem ddmin_minimises {A St} (fails : St -> list A -> bool * St) (Inv : St -> Prop) P s input :
  (forall s l, Inv s -> (fails s l).1 = P l /\ Inv (fails s l).2) -> Inv s ->
  exists r s', ddmin fails s input = Some (r, s') /\ Inv s' /\ r `sublist_of` input /\ P r = P input
    /\ ((length input < 2)%nat \/ P input = false -> r = input)
    /\ ((2 <= length input)%nat -> (1 <= length r)%nat
        /\ (P input = true -> (2 <= length r)%nat ->
            forall i, (i < length r)%nat -> P (delete i r) = false)).
Proof. intros H Hs. exact (ddmin_spec fails Inv P H s input Hs). Qed.

(** A predicate that counts its calls and fails on lists holding 3 and 5. *)
Definition wants_3_and_5 (calls : nat) (l : list Z) : bool * nat :=
  (existsb (Z.eqb 3) l && existsb (Z.eqb 5) l, S calls).

Lemma ddmin_minimises_witness : exists s', ddmin wants_3_and_5 0%nat [1; 2; 3; 4; 5; 6] = Some ([3; 5], s').
Proof.
  destruct (ddmin_minimises wants_3_and_5 (fun _ => True) (fun l => existsb (Z.eqb 3) l && existsb (Z.eqb 5) l) 0%nat
    [1; 2; 3; 4; 5; 6]) as (r & s' & H & _); [done | done |].
  exists s'. vm_compute in H. injection H as <- <-. reflexivity.
Defined.

(** The result of [ddmin] need not be one-minimal.  The loop stops at one element without
    testing the empty list, and an input of one element is never tested: with a predicate that
    always fails, one element survives although removing it keeps the failure. *)
Theorem ddmin_not_one_minimal :
  let always (_ : unit) (_ : list Z) := (true, tt) in
  ddmin always tt [1; 2; 3] = Some ([3], tt) /\ ddmin always tt [1] = Some ([1], tt)
  /\ (always tt (delete 0%nat [3])).1 = true.
Proof. vm_compute. done. Qed.
