(* ===== verification/Minimize.v ===== *)
(** * The minimization pipeline

    [ledger-explorer/src/minimizer/]: the memoized replay of candidate journals ([memo.rs],
    [candidate_journal] of [mod.rs]) and the four-stage pipeline [minimize_full] ([pipeline.rs],
    [input.rs]) on top of [ddmin] and the journal's slices and subgraphs.  The oracle's verdict on
    a journal, and on the simulated replays of a schedule and of an input, are arguments. *)

From stdpp Require Import gmap.
From S2P Require Import Prelude Machine Limits Value Path Hex Entry OrdMap Clock Dag Causal Slice Ddmin.

Inductive MemoError : Type :=
| PrefixMismatch (caller state : EntryHash)
| UnknownBatchEntry
| NonContiguousBatch.

Record MemoizedReplay : Type := mkMemo {
  cache : gmap (list byte * list byte) JournalState;
  prefix_roots : gmap (list byte * nat) EntryHash;
  orders : gmap (list byte) (list EntryHash);
  batch_hashes : gmap (list byte * nat * nat) EntryHash;
  hits : nat;
  misses : nat }.

Definition memo_new : MemoizedReplay := mkMemo ∅ ∅ ∅ ∅ 0 0.

Definition CANDIDATE_REPLAY_BATCH : nat := 8.

(** [iter().position(|id| *id == x)]. *)
Fixpoint position (x : EntryHash) (l : list EntryHash) : option nat :=
  match l with
  | [] => None
  | y :: l => if decide (y = x) then Some 0%nat else option_map S (position x l)
  end.

(** [entries().map(|entry| entry.id)]. *)
Definition entry_ids (st : JournalState) : list EntryHash := map eid (entries st).

Section Replay.
Variable blake3 : list byte -> list byte.

Definition hash_batch (next_batch : list EntryHash) : EntryHash := blake3 (concat next_batch).

(** The [entry(key).or_insert_with(..)] and get-or-insert lookups of the memo. *)
Definition order_of (memo : MemoizedReplay) (source_root : EntryHash) (source : JournalState) :
    list EntryHash * MemoizedReplay :=
  match orders memo !! source_root with
  | Some order => (order, memo)
  | None =>
      let order := entry_ids source in
      (order, mkMemo (cache memo) (prefix_roots memo) (<[source_root := order]> (orders memo))
                (batch_hashes memo) (hits memo) (misses memo))
  end.

Definition prefix_root_of (memo : MemoizedReplay) (source_root : EntryHash) (first : nat)
    (order : list EntryHash) (source : JournalState) : EntryHash * MemoizedReplay :=
  match prefix_roots memo !! (source_root, first) with
  | Some root => (root, memo)
  | None =>
      let root := root_hash blake3 (subgraph source (take first order)) in
      (root, mkMemo (cache memo) (<[(source_root, first) := root]> (prefix_roots memo)) (orders memo)
               (batch_hashes memo) (hits memo) (misses memo))
  end.

Definition batch_hash_of (memo : MemoizedReplay) (source_root : EntryHash) (first : nat)
    (next_batch : list EntryHash) : EntryHash * MemoizedReplay :=
  match batch_hashes memo !! (source_root, first, length next_batch) with
  | Some h => (h, memo)
  | None =>
      let h := hash_batch next_batch in
      (h, mkMemo (cache memo) (prefix_roots memo) (orders memo)
            (<[(source_root, first, length next_batch) := h]> (batch_hashes memo)) (hits memo) (misses memo))
  end.

(** Where the batch starts in the source order, if it is a contiguous run of it. *)
Definition locate_batch (order : list EntryHash) (b0 : EntryHash) (next_batch : list EntryHash) :
    result MemoError nat :=
  let? start := ok_or (position b0 order) UnknownBatchEntry in
  let len := length next_batch in
  if (start + len <=? length order)%nat && bool_decide (take len (drop start order) = next_batch)
  then Ok start else Err NonContiguousBatch.

Definition replay_with_root (memo : MemoizedReplay) (source_root prefix_root_hash : EntryHash)
    (next_batch : list EntryHash) (source : JournalState) : result MemoError JournalState * MemoizedReplay :=
  let '(order, memo) := order_of memo source_root source in
  match next_batch with
  | [] =>
      if decide (source_root = prefix_root_hash) then (Ok source, memo)
      else (Err (PrefixMismatch prefix_root_hash source_root), memo)
  | b0 :: _ =>
      match locate_batch order b0 next_batch with
      | Err e => (Err e, memo)
      | Ok first =>
          let '(prefix_root, memo) := prefix_root_of memo source_root first order source in
          if decide (prefix_root = prefix_root_hash) then
            let len := length next_batch in
            let '(batch_hash, memo) := batch_hash_of memo source_root first next_batch in
            match cache memo !! (prefix_root, batch_hash) with
            | Some journal =>
                (Ok journal, mkMemo (cache memo) (prefix_roots memo) (orders memo) (batch_hashes memo)
                               (hits memo + 1) (misses memo))
            | None =>
                let journal := subgraph source (take (first + len) order) in
                (Ok journal, mkMemo (<[(prefix_root, batch_hash) := journal]> (cache memo))
                               (prefix_roots memo) (orders memo) (batch_hashes memo)
                               (hits memo) (misses memo + 1))
            end
          else (Err (PrefixMismatch prefix_root_hash prefix_root), memo)
      end
  end.

Definition replay_memo (memo : MemoizedReplay) (prefix_root_hash : EntryHash) (next_batch : list EntryHash)
    (source : JournalState) : result MemoError JournalState * MemoizedReplay :=
  replay_with_root memo (root_hash blake3 source) prefix_root_hash next_batch source.

Definition source_prefix_len (source : JournalState) (candidate : list EntryHash) : option nat :=
  match candidate with
  | [] => Some 0%nat
  | _ :: _ =>
      let ids := entry_ids source in
      if (length candidate <=? length ids)%nat && bool_decide (take (length candidate) ids = candidate)
      then Some (length candidate) else None
  end.

(** The [while offset < prefix_len] loop; [None] would be a loop longer than the fuel. *)
Fixpoint replay_batches (fuel : nat) (memo : MemoizedReplay) (source : JournalState)
    (source_root : EntryHash) (order : list EntryHash) (prefix_len : nat)
    (prefix_root : EntryHash) (journal : JournalState) (offset : nat) :
    option (result MemoError JournalState) * MemoizedReplay :=
  if (prefix_len <=? offset)%nat then (Some (Ok journal), memo)
  else
    match fuel with
    | O => (None, memo)
    | S fuel =>
        let stop := Nat.min (offset + CANDIDATE_REPLAY_BATCH) prefix_len in
        match replay_with_root memo source_root prefix_root (take (stop - offset) (drop offset order)) source with
        | (Ok journal, memo) =>
            replay_batches fuel memo source source_root order prefix_len (root_hash blake3 journal) journal stop
        | (Err e, memo) => (Some (Err e), memo)
        end
    end.

Definition candidate_journal (memo : MemoizedReplay) (source : JournalState) (candidate : list EntryHash) :
    option (result MemoError JournalState) * MemoizedReplay :=
  match source_prefix_len source candidate with
  | Some (S _ as prefix_len) =>
      replay_batches prefix_len memo source (root_hash blake3 source) (entry_ids source) prefix_len
        (root_hash blake3 journal_new) journal_new 0
  | _ => (Some (Ok (subgraph source candidate)), memo)
  end.

(** ** The pipeline *)

(** [oracle.check(&run_for_check(journal)).violated]. *)
Variable violated : JournalState -> bool.

(** The closure of the event stage: a candidate that cannot be rebuilt does not fail. *)
Definition candidate_fails (source : JournalState) (memo : MemoizedReplay) (candidate : list EntryHash) :
    bool * MemoizedReplay :=
  match candidate_journal memo source candidate with
  | (Some (Ok journal), memo) => (violated journal, memo)
  | (_, memo) => (false, memo)
  end.

(** The slice stage: the slice is kept only when its journal still violates the oracle. *)
Definition slice_stage (run : JournalState) (witnesses : list EntryHash) : list EntryHash * JournalState :=
  match witnesses with
  | [] => (entry_ids run, run)
  | _ :: _ =>
      match causal_slice_forward run witnesses with
      | Some (Ok ((_ :: _) as ids)) =>
          let journal := subgraph run ids in
          if violated journal then (ids, journal) else (entry_ids run, run)
      | _ => (entry_ids run, run)
      end
  end.

(** [journal_inputs], given the id of the generator. *)
Definition journal_inputs (run : JournalState) (generator_id : Z) : list Z :=
  omap (fun e =>
    match payload (edata e) with
    | PInputStep step =>
        if bool_decide (kind (edata e) = KInputStep) && (generator step =? generator_id)
        then match input_value step with VUnsigned v => Some v | _ => None end else None
    | _ => None
    end) (entries run).

(** A pure [Fn] closure as a stateful predicate. *)
Definition pure_fails {A} (f : A -> bool) (s : unit) (a : A) : bool * unit := (f a, s).

(** [minimize_schedule]: the minimized decisions of its report. *)
Definition minimize_schedule (oracle_check : list nat -> bool) (decisions : list nat) : option (list nat) :=
  option_map fst (ddmin (pure_fails oracle_check) tt decisions).

(** [minimize_input]: the inputs, and whether they still violate. *)
Definition minimize_input (input_fails : list Z -> bool) (full : list Z) : option (list Z * bool) :=
  if input_fails full
  then option_map (fun r => (r.1, true)) (ddmin (pure_fails input_fails) tt full)
  else Some (full, false).

Record MinimizedRepro : Type := mkRepro {
  repro_journal : JournalState;
  repro_decisions : list nat;
  repro_inputs : list Z;
  slice_kept : nat;
  slice_total : nat;
  violations_preserved : bool;
  inputs_preserved : bool }.

(** [minimize_full]: [generator] is [None] for the empty name; [schedule_fails] and [input_fails] are
    the oracle's verdicts on replaying a schedule and an input. *)
Definition minimize_full (schedule_fails : list nat -> bool) (input_fails : list Z -> bool)
    (run : JournalState) (decisions : list nat) (witnesses : list EntryHash) (generator : option Z) :
    option MinimizedRepro :=
  let '(slice, slice_journal) := slice_stage run witnesses in
  match ddmin (candidate_fails slice_journal) memo_new slice,
        minimize_schedule schedule_fails decisions,
        match generator with None => Some ([], true) | Some g => minimize_input input_fails (journal_inputs run g) end
  with
  | Some (minimal_ids, _), Some schedule, Some (inputs, preserved) =>
      let journal := subgraph run minimal_ids in
      Some (mkRepro journal schedule inputs (length slice) (journal_len run) (violated journal) preserved)
  | _, _, _ => None
  end.
End Replay.

(** ** The minimization pipeline: correctness

    - Subgraphs are determined by the selected entries, so they compose.
    - The memoized replay answers exactly what rebuilding the candidate's subgraph answers.
    - [minimize_full] preserves the violation and returns a one-minimal journal. *)

(** ** Subgraphs as sublogs *)

(** Two states with everything in the base that represent the same log are the same state. *)
Lemma frozen_eq s t log : overlay s = ∅ -> overlay t = ∅ -> overlay_order s = [] -> overlay_order t = [] ->
  represents s log -> represents t log -> s = t.
Proof.
  destruct s as [b1 o1 h1 r1 v1], t as [b2 o2 h2 r2 v2]. cbn. intros -> -> -> -> [A1 A2 A3 _] [B1 B2 B3 _].
  cbn in A1, B1. rewrite app_nil_r in A1, B1. f_equal.
  - apply map_eq. intros id. specialize (A2 id). specialize (B2 id). unfold state_lookup in A2, B2.
    cbn in A2, B2. rewrite lookup_empty in A2, B2. exact (eq_trans A2 (eq_sym B2)).
  - apply map_eq. intros a. specialize (A3 a). specialize (B3 a). cbn in A3, B3. congruence.
  - congruence.
Qed.

Lemma subgraph_frozen st hashes : overlay (subgraph st hashes) = ∅ /\ overlay_order (subgraph st hashes) = [].
Proof. unfold subgraph. destruct (foldl _ _ _) as [[h m] o]. done. Qed.

Lemma subgraph_determined s t log log' h h' : represents s log -> represents t log' ->
  sublog (list_to_set h) log = sublog (list_to_set h') log' -> subgraph s h = subgraph t h'.
Proof.
  intros Rs Rt E. destruct (subgraph_frozen s h), (subgraph_frozen t h').
  eapply frozen_eq; [done..|apply subgraph_represents; exact Rs|]. rewrite E. apply subgraph_represents. exact Rt.
Qed.

Lemma sublog_all set log : (forall e, In e log -> eid e ∈ set) -> sublog set log = log.
Proof.
  intros H. unfold sublog. induction log as [|e log IH]; [done|]. cbn.
  rewrite bool_decide_true by (apply H; left; done). f_equal. apply IH. intros x Hx. apply H. right. done.
Qed.

Lemma sublog_none set log : (forall e, In e log -> eid e ∉ set) -> sublog set log = [].
Proof.
  intros H. unfold sublog. induction log as [|e log IH]; [done|]. cbn.
  rewrite bool_decide_false by (apply H; left; done). apply IH. intros x Hx. apply H. right. done.
Qed.

Lemma sublog_sublist set log : sublog set log `sublist_of` log.
Proof.
  unfold sublog. induction log as [|e log IH]; cbn; [done|].
  destruct (bool_decide _); [apply sublist_skip | apply sublist_cons]; done.
Qed.

Lemma sublog_ext set set' log : (forall e, In e log -> eid e ∈ set <-> eid e ∈ set') -> sublog set log = sublog set' log.
Proof.
  intros H. unfold sublog. apply filter_ext_in. intros e He. apply bool_decide_ext. apply H. done.
Qed.

Lemma sublog_sublog set set' log : (forall id, id ∈ set -> id ∈ set') -> sublog set (sublog set' log) = sublog set log.
Proof.
  intros H. unfold sublog. induction log as [|e log IH]; cbn; [done|].
  destruct (bool_decide_reflect (eid e ∈ set')) as [H1|H1]; cbn; rewrite IH; [done|].
  rewrite bool_decide_false; [done|]. intros ?. apply H1, H. done.
Qed.

Lemma sublog_app set l k : sublog set (l ++ k) = sublog set l ++ sublog set k.
Proof. apply List.filter_app. Qed.

(** The ids of a sublog are the selected ids, in the log's order. *)
Lemma sublog_ids (l : list EntryHash) log : NoDup (map eid log) -> l `sublist_of` map eid log ->
  map eid (sublog (list_to_set l) log) = l.
Proof.
  revert l. induction log as [|e log IH]; cbn [map]; intros l Hn Hl.
  - apply sublist_nil_r in Hl as ->. done.
  - apply list.NoDup_cons in Hn as [Hn1 Hn2]. apply sublist_cons_r in Hl as [Hl|(k & -> & Hk)].
    + unfold sublog. cbn [List.filter]. rewrite bool_decide_false; [apply IH; done|].
      rewrite elem_of_list_to_set. intros He. apply Hn1. eapply sublist_subseteq; done.
    + unfold sublog. cbn [List.filter]. rewrite bool_decide_true by (rewrite elem_of_list_to_set; left).
      cbn [map]. f_equal.
      trans (map eid (sublog (list_to_set k) log)); [|apply IH; done]. f_equal. apply (sublog_ext (list_to_set (eid e :: k))).
      intros x Hx. rewrite !elem_of_list_to_set, elem_of_cons. split; [intros [E|?]|]; [|tauto..].
      exfalso. apply Hn1. rewrite <- E. apply list_elem_of_In, in_map. done.
Qed.

Lemma sublog_take n log : NoDup (map eid log) -> sublog (list_to_set (take n (map eid log))) log = take n log.
Proof.
  intros Hn. rewrite <- (take_drop n log) at 2. rewrite sublog_app.
  rewrite sublog_all, sublog_none, app_nil_r; [done| |].
  - intros e He. rewrite elem_of_list_to_set. intros Ht. rewrite <- (take_drop n log), map_app in Hn.
    apply list.NoDup_app in Hn as (_ & Hd & _). apply (Hd (eid e)); [|apply list_elem_of_In, in_map; done].
    rewrite firstn_map in Ht. done.
  - intros e He. rewrite elem_of_list_to_set, firstn_map. apply list_elem_of_In, in_map. done.
Qed.

(** ** The memoized replay *)

Lemma position_nth l i x : NoDup l -> l !! i = Some x -> position x l = Some i.
Proof.
  revert i. induction l as [|y l IH]; intros i Hn Hi; [done|]. apply list.NoDup_cons in Hn as [Hn1 Hn2].
  destruct i as [|i]; cbn in *; [simplify_eq; rewrite decide_True; done|].
  rewrite decide_False by (intros ->; apply Hn1; eapply list_elem_of_lookup_2; exact Hi).
  rewrite (IH i) by done. done.
Qed.

(** No two subsequences of [ids] have the same digest of their concatenation. *)
Definition collision_free (blake3 : list byte -> list byte) (ids : list EntryHash) : Prop :=
  forall l1 l2, l1 `sublist_of` ids -> l2 `sublist_of` ids ->
    blake3 (concat l1) = blake3 (concat l2) -> l1 = l2.

Lemma collision_free_sublist blake3 l ids : l `sublist_of` ids -> collision_free blake3 ids -> collision_free blake3 l.
Proof. intros Hs H l1 l2 H1 H2. apply H; etrans; done. Qed.

Section Memo.
Variable blake3 : list byte -> list byte.
Variable source : JournalState.
Variable log : list JEntry.
Hypothesis rep : represents source log.
Hypothesis cf : collision_free blake3 (map eid log).

(** The run of [len] ids from [first], and the digest of the first ids. *)
Definition run_of (first len : nat) : list EntryHash := take len (drop first (map eid log)).
Definition root_of (n : nat) : EntryHash := blake3 (concat (run_of 0 n)).

Lemma entry_ids_log : entry_ids source = map eid log.
Proof. unfold entry_ids. rewrite (represents_entries source log rep). done. Qed.

Lemma run_of_sublist first len : run_of first len `sublist_of` map eid log.
Proof. unfold run_of. etrans; [apply sublist_take | apply sublist_drop]. Qed.

Lemma run_of_length first len : (first + len <= length log)%nat -> length (run_of first len) = len.
Proof. intros H. unfold run_of. rewrite length_take, length_drop, length_map. lia. Qed.

Lemma subgraph_root n : root_hash blake3 (subgraph source (take n (map eid log))) = root_of n.
Proof.
  unfold root_hash, root_of, run_of. rewrite drop_0.
  pose proof (subgraph_represents source log (take n (map eid log)) rep) as R.
  rewrite (r_order _ _ R), (sublog_take n log (r_nodup _ _ rep)), firstn_map. done.
Qed.

(** The runs a cache key stands for determine how much of the source was replayed. *)
Lemma key_determines f l f' l' : (f + l <= length log)%nat -> (f' + l' <= length log)%nat ->
  root_of f = root_of f' -> hash_batch blake3 (run_of f l) = hash_batch blake3 (run_of f' l') ->
  (f + l = f' + l')%nat.
Proof.
  intros H H' E1 E2. unfold root_of, hash_batch in *. apply cf in E1, E2; try apply run_of_sublist.
  apply (f_equal length) in E1, E2. rewrite !run_of_length in E1, E2 by lia. lia.
Qed.

Record memo_ok (memo : MemoizedReplay) : Prop := {
  mo_orders : forall o, orders memo !! root_hash blake3 source = Some o -> o = map eid log;
  mo_roots : forall f r, prefix_roots memo !! (root_hash blake3 source, f) = Some r -> r = root_of f;
  mo_batches : forall f l h, (f + l <= length log)%nat ->
    batch_hashes memo !! (root_hash blake3 source, f, l) = Some h -> h = hash_batch blake3 (run_of f l);
  mo_cache : forall p h j, cache memo !! (p, h) = Some j -> exists f l, (f + l <= length log)%nat
    /\ p = root_of f /\ h = hash_batch blake3 (run_of f l) /\ j = subgraph source (take (f + l) (map eid log)) }.

Lemma memo_new_ok : memo_ok memo_new.
Proof. split; cbn; intros *; rewrite ?lookup_empty; done. Qed.

Lemma order_of_ok memo : memo_ok memo ->
  (order_of memo (root_hash blake3 source) source).1 = map eid log
  /\ memo_ok (order_of memo (root_hash blake3 source) source).2.
Proof.
  intros M. unfold order_of. destruct (orders memo !! _) as [o|] eqn:E; cbn.
  - split; [eapply mo_orders; done | done].
  - split; [apply entry_ids_log|]. destruct M as [_ M2 M3 M4]. split; cbn; auto.
    intros o. rewrite lookup_insert_eq. intros [= <-]. apply entry_ids_log.
Qed.

Lemma prefix_root_of_ok memo first : memo_ok memo ->
  (prefix_root_of blake3 memo (root_hash blake3 source) first (map eid log) source).1 = root_of first
  /\ memo_ok (prefix_root_of blake3 memo (root_hash blake3 source) first (map eid log) source).2.
Proof.
  intros M. unfold prefix_root_of. destruct (prefix_roots memo !! _) as [r|] eqn:E; cbn.
  - split; [eapply mo_roots; done | done].
  - split; [apply subgraph_root|]. destruct M as [M1 M2 M3 M4]. split; cbn; auto.
    intros f r. destruct (decide (f = first)) as [->|Hne].
    + rewrite lookup_insert_eq. intros [= <-]. apply subgraph_root.
    + rewrite lookup_insert_ne by congruence. apply M2.
Qed.

Lemma batch_hash_of_ok memo first len : memo_ok memo -> (first + len <= length log)%nat ->
  (batch_hash_of blake3 memo (root_hash blake3 source) first (run_of first len)).1
    = hash_batch blake3 (run_of first len)
  /\ memo_ok (batch_hash_of blake3 memo (root_hash blake3 source) first (run_of first len)).2.
Proof.
  intros M Hl. unfold batch_hash_of. rewrite run_of_length by done.
  destruct (batch_hashes memo !! _) as [h|] eqn:E; cbn.
  - split; [eapply mo_batches; done | done].
  - split; [done|]. destruct M as [M1 M2 M3 M4]. split; cbn; auto.
    intros f l h Hfl. destruct (decide ((f, l) = (first, len))) as [[= -> ->]|Hne].
    + rewrite lookup_insert_eq. intros [= <-]. done.
    + rewrite lookup_insert_ne by congruence. apply M3. done.
Qed.

Lemma locate_run first len b0 batch : (first + len <= length log)%nat -> run_of first len = b0 :: batch ->
  locate_batch (map eid log) b0 (run_of first len) = Ok first.
Proof.
  intros Hl E. unfold locate_batch. rewrite (position_nth _ first).
  - cbn. rewrite run_of_length, length_map by done. rewrite (proj2 (Nat.leb_le _ _) Hl), bool_decide_true; done.
  - apply rep.
  - replace first with (first + 0)%nat by lia. rewrite <- lookup_drop.
    pose proof (f_equal (fun l => l !! 0%nat) E) as H. cbn in H. unfold run_of in H.
    destruct len as [|len]; [done|]. rewrite lookup_take_lt in H by lia. exact H.
Qed.

Lemma replay_with_root_ok memo first len : memo_ok memo -> (first + S len <= length log)%nat ->
  (replay_with_root blake3 memo (root_hash blake3 source) (root_of first) (run_of first (S len)) source).1
    = Ok (subgraph source (take (first + S len) (map eid log)))
  /\ memo_ok (replay_with_root blake3 memo (root_hash blake3 source) (root_of first) (run_of first (S len)) source).2.
Proof.
  intros M Hl. unfold replay_with_root.
  destruct (order_of_ok memo M) as [Ho M1]. destruct (order_of _ _ _) as [order m1]. cbn in Ho, M1. subst order.
  destruct (run_of first (S len)) as [|b0 batch] eqn:Er.
  { exfalso. pose proof (run_of_length first (S len) Hl) as H. rewrite Er in H. done. }
  rewrite <- Er. rewrite (locate_run first (S len) b0 batch Hl Er).
  destruct (prefix_root_of_ok m1 first M1) as [Hp M2].
  destruct (prefix_root_of _ _ _ _ _ _) as [p m2]. cbn in Hp, M2. subst p. rewrite decide_True by done.
  destruct (batch_hash_of_ok m2 first (S len) M2 Hl) as [Hb M3].
  destruct (batch_hash_of _ _ _ _ _) as [h m3]. cbn in Hb, M3. subst h. rewrite run_of_length by done.
  destruct (cache m3 !! _) as [j|] eqn:Ec; cbn.
  - destruct (mo_cache _ M3 _ _ _ Ec) as (f & l & Hfl & E1 & E2 & ->).
    rewrite (key_determines first (S len) f l Hl Hfl E1 E2). split; [done|]. destruct M3. split; done.
  - split; [done|]. destruct M3 as [N1 N2 N3 N4]. split; cbn; auto. intros p h j.
    destruct (decide ((p, h) = (root_of first, hash_batch blake3 (run_of first (S len))))) as [[= -> ->]|Hne].
    + rewrite lookup_insert_eq. intros [= <-]. exists first, (S len). done.
    + rewrite lookup_insert_ne by congruence. apply N4.
Qed.

Lemma replay_batches_ok n : (n <= length log)%nat -> forall fuel memo journal offset, memo_ok memo ->
  (offset <= n)%nat -> (n - offset <= fuel)%nat -> root_hash blake3 journal = root_of offset ->
  (offset = n -> journal = subgraph source (take n (map eid log))) ->
  (replay_batches blake3 fuel memo source (root_hash blake3 source) (map eid log) n (root_hash blake3 journal) journal offset).1
    = Some (Ok (subgraph source (take n (map eid log))))
  /\ memo_ok (replay_batches blake3 fuel memo source (root_hash blake3 source) (map eid log) n (root_hash blake3 journal) journal offset).2.
Proof.
  intros Hn. induction fuel as [|fuel IH]; intros memo journal offset M Ho Hf Hj He; cbn [replay_batches];
    destruct (Nat.leb_spec n offset) as [Hle|Hlt]; try lia;
    try (split; [cbn; rewrite He by lia; done | exact M]).
  unfold CANDIDATE_REPLAY_BATCH. set (stop := Nat.min (offset + 8) n).
  destruct (stop - offset)%nat as [|len] eqn:El; [lia|].
  assert (Hs : stop = (offset + S len)%nat) by lia. rewrite Hj, Hs.
  destruct (replay_with_root_ok memo offset len M ltac:(lia)) as [Hr M'].
  unfold run_of in Hr, M'. destruct (replay_with_root _ _ _ _ _ _) as [r m']. cbn in Hr, M'. subst r.
  apply IH; [done | lia | lia | apply subgraph_root | congruence].
Qed.

Lemma candidate_journal_ok memo candidate : memo_ok memo ->
  (candidate_journal blake3 memo source candidate).1 = Some (Ok (subgraph source candidate))
  /\ memo_ok (candidate_journal blake3 memo source candidate).2.
Proof.
  intros M. unfold candidate_journal, source_prefix_len. rewrite entry_ids_log.
  destruct candidate as [|c candidate]; [done|].
  destruct (_ && _) eqn:E; [|done]. cbn [length]. apply andb_true_iff in E as [E1 E2].
  apply Nat.leb_le in E1. apply bool_decide_eq_true in E2. rewrite length_map in E1.
  change (S (length candidate)) with (length (c :: candidate)).
  destruct (replay_batches_ok (length (c :: candidate)) E1 (length (c :: candidate)) memo journal_new 0)
    as [Hr M']; [done | lia | lia | done | done |]. rewrite E2 in Hr. done.
Qed.
End Memo.

(** ** Slices and candidates *)

Lemma causal_slice_sublist st targets ids : causal_slice st targets = Some (Ok ids) -> ids `sublist_of` all_ids st.
Proof. unfold causal_slice. intros H. run_match H. apply keep_sublist. Qed.

Lemma causal_slice_forward_sublist st targets ids :
  causal_slice_forward st targets = Some (Ok ids) -> ids `sublist_of` all_ids st.
Proof.
  unfold causal_slice_forward. destruct (causal_slice st targets) as [[b|]|]; [|done..]. apply causal_slice_sublist.
Qed.

Lemma represents_obs s t log : represents s log -> represents t log -> s ≈ t.
Proof.
  intros [A1 A2 A3 _] [B1 B2 B3 _]. split; [congruence| |congruence].
  apply map_eq. intros a. rewrite A3, B3. done.
Qed.

Lemma subgraph_all st log : represents st log -> subgraph st (map eid log) ≈ st.
Proof.
  intros R. apply (represents_obs _ _ log); [|done].
  pose proof (subgraph_represents st log (map eid log) R) as H. rewrite sublog_all in H; [done|].
  intros e He. rewrite elem_of_list_to_set. apply list_elem_of_In, in_map. done.
Qed.

Lemma subgraph_subgraph st log h h' : represents st log -> (forall id, id ∈ h' -> id ∈ h) ->
  subgraph (subgraph st h) h' = subgraph st h'.
Proof.
  intros R H. eapply subgraph_determined; [apply subgraph_represents; exact R | exact R |].
  apply sublog_sublog. intros id. rewrite !elem_of_list_to_set. apply H.
Qed.

Section Stages.
Variable blake3 : list byte -> list byte.
Variable violated : JournalState -> bool.
Hypothesis violated_obs : forall s t, s ≈ t -> violated s = violated t.

(** The journal of the slice stage: its ids are the slice, it still violates, and selecting
    candidates of the slice from it is selecting them from the run. *)
Lemma slice_stage_ok run log witnesses : represents run log -> violated run = true ->
  exists log', represents (slice_stage violated run witnesses).2 log'
    /\ (slice_stage violated run witnesses).1 = map eid log' /\ map eid log' `sublist_of` map eid log
    /\ violated (slice_stage violated run witnesses).2 = true
    /\ forall c, c `sublist_of` map eid log' ->
         subgraph (slice_stage violated run witnesses).2 c = subgraph run c.
Proof.
  intros R Hv. assert (Hall : exists log', represents run log' /\ entry_ids run = map eid log'
    /\ map eid log' `sublist_of` map eid log /\ violated run = true
    /\ forall c, c `sublist_of` map eid log' -> subgraph run c = subgraph run c).
  { exists log. split_and!; try done. apply entry_ids_log. done. }
  unfold slice_stage. destruct witnesses as [|w ws]; [exact Hall|].
  destruct (causal_slice_forward run (w :: ws)) as [[ids|]|] eqn:E; [|exact Hall..].
  destruct ids as [|i ids]; [exact Hall|].
  remember (i :: ids) as sl eqn:Esl. clear Esl i ids.
  destruct (violated (subgraph run sl)) eqn:Ev; [|exact Hall]. clear Hall. cbn [fst snd].
  apply causal_slice_forward_sublist in E. unfold all_ids in E. rewrite (r_order _ _ R) in E.
  pose proof (sublog_ids sl log (r_nodup _ _ R) E) as Hids.
  exists (sublog (list_to_set sl) log). rewrite Hids. split_and!; try done.
  - apply subgraph_represents. done.
  - intros c Hc. cbn. eapply subgraph_subgraph; [exact R|]. intros id Hid. eapply sublist_subseteq; done.
Qed.

(** The closure of the event stage answers the oracle's verdict on the candidate's subgraph. *)
Lemma candidate_fails_ok source log memo c : represents source log -> collision_free blake3 (map eid log) ->
  memo_ok blake3 source log memo ->
  (candidate_fails blake3 violated source memo c).1 = violated (subgraph source c)
  /\ memo_ok blake3 source log (candidate_fails blake3 violated source memo c).2.
Proof.
  intros R Hcf M. unfold candidate_fails. destruct (candidate_journal_ok blake3 source log R Hcf memo c M) as [H1 H2].
  destruct (candidate_journal _ _ _ _) as [r m]. cbn in H1, H2. subst r. done.
Qed.

Lemma pure_ddmin {A} (f : list A -> bool) input :
  exists r, option_map fst (ddmin (pure_fails f) tt input) = Some r /\ r `sublist_of` input /\ f r = f input.
Proof.
  destruct (ddmin_spec (pure_fails f) (fun _ => True) f (fun _ _ _ => conj eq_refl I) tt input I)
    as (r & s & -> & _ & Hs & Hf & _). exists r. done.
Qed.

Lemma input_stage f full : exists inputs, minimize_input f full = Some (inputs, f full)
  /\ inputs `sublist_of` full /\ f inputs = f full.
Proof.
  unfold minimize_input. destruct (f full) eqn:Ei; [|eauto].
  destruct (pure_ddmin f full) as (ins & Ed & Hi & Hf).
  destruct (ddmin (pure_fails f) tt full) as [[d u]|]; [|done]. cbn in *. simplify_eq. exists ins. split_and!; congruence.
Qed.

(** The event stage. *)
Lemma event_stage run log witnesses : represents run log -> collision_free blake3 (map eid log) ->
  violated run = true -> let sl := slice_stage violated run witnesses in
  exists r memo, ddmin (candidate_fails blake3 violated sl.2) memo_new sl.1 = Some (r, memo)
    /\ r `sublist_of` map eid log /\ violated (subgraph run r) = true
    /\ ((2 <= length r)%nat -> forall i, (i < length r)%nat -> violated (subgraph run (delete i r)) = false).
Proof.
  intros R Hcf Hv sl. destruct (slice_stage_ok run log witnesses R Hv) as (log' & R' & E & Hsub & Hv' & Hc).
  fold sl in R', E, Hv', Hc. rewrite E.
  pose proof (collision_free_sublist _ _ _ Hsub Hcf) as Hcf'.
  destruct (ddmin_spec (candidate_fails blake3 violated sl.2) (memo_ok blake3 sl.2 log')
    (fun c => violated (subgraph sl.2 c))
    (fun m c M => candidate_fails_ok sl.2 log' m c R' Hcf' M) memo_new (map eid log'))
    as (r & m & -> & _ & Hr & Hp & Hid & Hmin); [apply memo_new_ok; done|].
  assert (Hin : violated (subgraph sl.2 (map eid log')) = true).
  { rewrite <- Hv'. apply violated_obs, subgraph_all. done. }
  exists r, m. split_and!; [done | etrans; done | rewrite <- Hc by done; congruence |].
  intros H2 i Hi. destruct (decide (2 <= length (map eid log'))%nat) as [Hl|Hl].
  - rewrite <- Hc by (etrans; [apply sublist_delete | done]). apply Hmin; done.
  - rewrite Hid in H2 by (left; lia). lia.
Qed.
End Stages.

(** ** Theorems *)

(** The memo after replaying a sequence of candidates. *)
Definition memo_after (blake3 : list byte -> list byte) (source : JournalState) (candidates : list (list EntryHash)) :
    MemoizedReplay :=
  foldl (fun memo c => (candidate_journal blake3 memo source c).2) memo_new candidates.

(** Memoized replay is transparent.  On a reachable journal whose id sequences do not collide
    under the digest, whatever candidates were replayed before, [candidate_journal] never fails and
    returns exactly the subgraph of the candidate, prefix runs and cache hits included. *)
Theorem memoized_replay_transparent blake3 source before candidate : journal_reach blake3 source ->
  collision_free blake3 (entry_ids source) ->
  (candidate_journal blake3 (memo_after blake3 source before) source candidate).1
  = Some (Ok (subgraph source candidate)).
Proof.
  intros (log & _ & R)%journal_reach_represents Hcf. rewrite (entry_ids_log source log R) in Hcf.
  apply (candidate_journal_ok blake3 source log R Hcf). unfold memo_after.
  generalize (memo_new_ok blake3 source log). generalize memo_new.
  induction before as [|c before IH]; intros memo M; [exact M|]. cbn. apply IH.
  apply candidate_journal_ok; done.
Qed.

(** C30: the pipeline preserves the violation.  For a violating run of a reachable journal whose id
    sequences do not collide, and an oracle that does not see how the journal is stored,
    [minimize_full] returns a repro whose journal still violates, selects its entries from the
    run's in order, and is one-minimal when it has two entries or more; the schedule and the inputs
    are subsequences on which the verdicts are those of the originals. *)
Theorem minimize_full_preserves blake3 violated schedule_fails input_fails run decisions witnesses g :
  journal_reach blake3 run -> collision_free blake3 (entry_ids run) ->
  (forall s t, s ≈ t -> violated s = violated t) -> violated run = true ->
  exists repro, minimize_full blake3 violated schedule_fails input_fails run decisions witnesses (Some g) = Some repro
    /\ violations_preserved repro = true /\ violated (repro_journal repro) = true
    /\ entries (repro_journal repro) `sublist_of` entries run
    /\ ((2 <= length (entries (repro_journal repro)))%nat ->
        forall i, (i < length (entries (repro_journal repro)))%nat ->
          violated (subgraph run (delete i (entry_ids (repro_journal repro)))) = false)
    /\ repro_decisions repro `sublist_of` decisions
    /\ schedule_fails (repro_decisions repro) = schedule_fails decisions
    /\ repro_inputs repro `sublist_of` journal_inputs run g
    /\ inputs_preserved repro = input_fails (journal_inputs run g)
    /\ input_fails (repro_inputs repro) = input_fails (journal_inputs run g).
Proof.
  intros (log & _ & R)%journal_reach_represents Hcf Hobs Hv. rewrite (entry_ids_log run log R) in Hcf.
  destruct (event_stage blake3 violated Hobs run log witnesses R Hcf Hv) as (r & memo & E & Hr & Hv' & Hmin).
  unfold minimize_full. destruct (slice_stage violated run witnesses) as [slice sj]. cbn [fst snd] in E. rewrite E.
  destruct (pure_ddmin schedule_fails decisions) as (sched & Es & Hs & Hsf). unfold minimize_schedule. rewrite Es.
  destruct (input_stage input_fails (journal_inputs run g)) as (inputs & -> & Hi1 & Hi2).
 eexists. split; [reflexivity|]. cbn [repro_journal violations_preserved
    repro_decisions repro_inputs inputs_preserved].
  pose proof (subgraph_represents run log r R) as Rr. pose proof (sublog_ids r log (r_nodup _ _ R) Hr) as Hids.
  assert (Hlen : length (entries (subgraph run r)) = length r).
  { rewrite (represents_entries _ _ Rr), <- (length_map eid), Hids. done. }
  rewrite (entry_ids_log _ _ Rr), Hids, Hlen. split_and!; try done.
  rewrite (represents_entries _ _ Rr), (represents_entries _ _ R). apply sublog_sublist.
Qed.

(** *** The two-entry journal *)

Lemma sublist_two {A} (a b : A) l : l `sublist_of` [a; b] -> l = [] \/ l = [a] \/ l = [b] \/ l = [a; b].
Proof.
  intros [H|(k & -> & H)]%sublist_cons_r.
  - apply sublist_cons_r in H as [->%sublist_nil_r|(k & -> & ->%sublist_nil_r)]; tauto.
  - apply sublist_cons_r in H as [->%sublist_nil_r|(k' & -> & ->%sublist_nil_r)]; tauto.
Qed.

Lemma sample_collision_free : collision_free roll_digest [eid first_entry; eid second_entry].
Proof.
  intros l1 l2 H1%sublist_two H2%sublist_two E.
  destruct H1 as [->|[->|[->| ->]]], H2 as [->|[->|[->| ->]]]; try reflexivity; vm_compute in E; discriminate E.
Qed.

Lemma memoized_replay_transparent_witness : exists source, journal_reach roll_digest source
  /\ (candidate_journal roll_digest (memo_after roll_digest source [[eid first_entry]]) source [eid first_entry]).1
     = Some (Ok (subgraph source [eid first_entry])).
Proof.
  destruct sample_reach as (st & Hr & He). exists st. split; [exact Hr|].
  apply (memoized_replay_transparent roll_digest st [[eid first_entry]] [eid first_entry] Hr).
  unfold entry_ids. rewrite He. exact sample_collision_free.
Defined.

(** An oracle that looks for the second entry. *)
Definition has_second (st : JournalState) : bool := bool_decide (eid second_entry ∈ order st ++ overlay_order st).

Lemma minimize_full_preserves_witness : exists run repro, journal_reach roll_digest run
  /\ minimize_full roll_digest has_second (fun d => (2 <=? length d)%nat) (fun _ => false) run [0; 1; 2]%nat
       [eid second_entry] (Some 7) = Some repro
  /\ violations_preserved repro = true.
Proof.
  destruct sample_reach as (st & Hr & He). exists st.
  destruct (minimize_full_preserves roll_digest has_second (fun d => (2 <=? length d)%nat) (fun _ => false) st
    [0; 1; 2]%nat [eid second_entry] 7 Hr) as (repro & E & Hp & _).
  - unfold entry_ids. rewrite He. exact sample_collision_free.
  - intros s t [_ _ H]. unfold has_second. rewrite H. reflexivity.
  - destruct (journal_reach_represents _ _ Hr) as (log & _ & R). pose proof (represents_entries st log R) as Hl.
    rewrite He in Hl. subst log. unfold has_second. rewrite (r_order _ _ R). reflexivity.
  - exists repro. split; [exact Hr|]. split; [exact E | exact Hp].
Defined.
