(* ===== verification/OSet.v ===== *)
(** * Ordered sets

    Rust's [BTreeSet] over a total order, as strictly ascending lists: iteration order is list order, so the derived
    [Ord] and [Eq] of sets are those of the lists.  Also [Vec::dedup] and the lexicographic order of digests. *)

From Stdlib Require Import Sorting.Sorted.
From S2P Require Import Prelude Machine Limits Order.

Open Scope Z_scope.

#[export] Instance cmp_list_total {A} (cmp : A -> A -> comparison) `{!TotalOrder cmp} : TotalOrder (cmp_list cmp).
Proof.
  split.
  - intros l. induction l as [|x l IH]; intros [|y k]; [done..|]. cbn. unfold then_cmp.
    rewrite (cmp_opp (cmp := cmp) x y), IH. destruct (cmp x y); done.
  - intros l. induction l as [|x l IH]; intros [|y k]; [done..|]. cbn. unfold then_cmp.
    destruct (cmp x y) eqn:E; [|done..]. intros H. apply (cmp_eq (cmp := cmp)) in E as ->. f_equal. apply IH, H.
  - intros l. induction l as [|x l IH]; intros [|y k] [|z m]; try done. cbn. unfold then_cmp. intros H1 H2.
    destruct (cmp x y) eqn:E1; [apply (cmp_eq (cmp := cmp)) in E1 as ->| |done].
    + destruct (cmp y z) eqn:E2; [eapply IH; eassumption | done..].
    + destruct (cmp y z) eqn:E2; [apply (cmp_eq (cmp := cmp)) in E2 as <-; rewrite E1; done| |done].
      rewrite (cmp_trans (cmp := cmp) x y z) by done. done.
Qed.

Definition cmp_byte (a b : byte) : comparison := (b2z a ?= b2z b)%Z.

#[export] Instance cmp_byte_total : TotalOrder cmp_byte.
Proof.
  split; unfold cmp_byte.
  - intros x y. apply Z.compare_antisym.
  - intros x y H. apply b2z_inj, Z.compare_eq_iff, H.
  - intros x y z. rewrite !Z.compare_lt_iff. lia.
Qed.

(** [EntryHash]'s derived [Ord]. *)
Definition cmp_hash : EntryHash -> EntryHash -> comparison := cmp_list cmp_byte.

#[export] Instance cmp_hash_total : TotalOrder cmp_hash.
Proof. apply cmp_list_total, _. Qed.

(** [Vec::dedup]: drop an element equal to the last one kept. *)
Fixpoint dedup {A} `{EqDecision A} (l : list A) : list A :=
  match l with
  | [] => []
  | x :: l => match l with
              | y :: _ => if decide (x = y) then dedup l else x :: dedup l
              | [] => [x]
              end
  end.

Lemma dedup_In {A} `{EqDecision A} (l : list A) x : In x (dedup l) <-> In x l.
Proof.
  induction l as [|y [|z l] IH]; [done..|]. cbn [dedup]. destruct (decide (y = z)) as [->|]; [rewrite IH; cbn; tauto|].
  cbn [In] in *. rewrite IH. tauto.
Qed.

Lemma dedup_length {A} `{EqDecision A} (l : list A) : (length (dedup l) <= length l)%nat.
Proof.
  induction l as [|x [|y l] IH]; [done..|].
  change (dedup (x :: y :: l)) with (if decide (x = y) then dedup (y :: l) else x :: dedup (y :: l)).
  destruct (decide _); cbn [length] in *; lia.
Qed.
Section OSet.
Context {A : Type} (cmp : A -> A -> comparison) `{!TotalOrder cmp}.
Implicit Types (x y : A) (s t : list A).

(** [BTreeSet::insert], [collect], [contains], [remove] and [is_subset]. *)
Fixpoint sinsert x s : list A :=
  match s with
  | [] => [x]
  | y :: s' => match cmp x y with Lt => x :: s | Eq => s | Gt => y :: sinsert x s' end
  end.

Definition scollect (l : list A) : list A := foldl (fun s x => sinsert x s) [] l.

Definition smem x s : bool := existsb (fun y => match cmp x y with Eq => true | _ => false end) s.

Fixpoint sremove x s : list A :=
  match s with
  | [] => []
  | y :: s' => match cmp x y with Eq => s' | _ => y :: sremove x s' end
  end.

Definition is_subset s t : bool := forallb (fun x => smem x t) s.

Definition oset s : Prop := StronglySorted (fun x y => cmp x y = Lt) s.

Lemma cmp_refl x : cmp x x = Eq.
Proof. pose proof (cmp_opp (cmp := cmp) x x) as H. destruct (cmp x x); done. Qed.

Lemma oset_cons x s : oset (x :: s) <-> oset s /\ (forall y, In y s -> cmp x y = Lt).
Proof.
  split.
  - intros H. inversion_clear H as [|? ? Hs Hf]. rewrite List.Forall_forall in Hf. done.
  - intros [Hs Hf]. constructor; [done|]. apply List.Forall_forall, Hf.
Qed.

Lemma oset_nil : oset [].
Proof. constructor. Qed.

Lemma smem_spec x s : smem x s = true <-> In x s.
Proof.
  unfold smem. rewrite existsb_exists. split.
  - intros (y & Hy & H). destruct (cmp x y) eqn:E; [|done..]. apply (cmp_eq (cmp := cmp)) in E as ->. done.
  - intros H. exists x. rewrite cmp_refl. done.
Qed.

Lemma is_subset_spec s t : is_subset s t = true <-> (forall x, In x s -> In x t).
Proof.
  unfold is_subset. rewrite forallb_forall. split; intros H x Hx; apply smem_spec, H, Hx.
Qed.

Lemma sinsert_In x s y : In y (sinsert x s) <-> y = x \/ In y s.
Proof.
  induction s as [|z s IH]; cbn; [intuition congruence|]. destruct (cmp x z) eqn:E; cbn.
  - apply (cmp_eq (cmp := cmp)) in E as ->. intuition congruence.
  - intuition congruence.
  - rewrite IH. intuition congruence.
Qed.

Lemma sinsert_oset x s : oset s -> oset (sinsert x s).
Proof.
  induction s as [|z s IH]; intros H; cbn; [apply oset_cons; split; [exact H | done]|].
  apply oset_cons in H as [Hs Hz]. destruct (cmp x z) eqn:E.
  - apply oset_cons. done.
  - apply oset_cons. split; [apply oset_cons; done|]. intros y [<-|Hy]; [done|].
    eapply cmp_trans; [exact E | apply Hz, Hy].
  - apply oset_cons. split; [apply IH, Hs|]. intros y Hy. apply sinsert_In in Hy as [->|Hy]; [|apply Hz, Hy].
    rewrite (cmp_opp (cmp := cmp) x z), E. done.
Qed.

Lemma foldl_sinsert l s : (forall y, In y (foldl (fun s x => sinsert x s) s l) <-> In y l \/ In y s) /\
  (oset s -> oset (foldl (fun s x => sinsert x s) s l)).
Proof.
  revert s. induction l as [|x l IH]; intros s; cbn; [tauto|]. destruct (IH (sinsert x s)) as [H1 H2]. split.
  - intros y. rewrite H1, sinsert_In. intuition congruence.
  - intros Hs. apply H2, sinsert_oset, Hs.
Qed.

Lemma scollect_In l x : In x (scollect l) <-> In x l.
Proof. unfold scollect. rewrite (proj1 (foldl_sinsert l [])). cbn. tauto. Qed.

Lemma scollect_oset l : oset (scollect l).
Proof. apply foldl_sinsert, oset_nil. Qed.

(** Sets with the same elements are the same list. *)
Lemma oset_ext s t : oset s -> oset t -> (forall x, In x s <-> In x t) -> s = t.
Proof.
  revert t. induction s as [|x s IH]; intros [|y t] Hs Ht H.
  - done.
  - destruct (proj2 (H y)). left. done.
  - destruct (proj1 (H x)). left. done.
  - apply oset_cons in Hs as [Hs Hx], Ht as [Ht Hy].
    assert (x = y) as ->.
    { destruct (proj1 (H x) (or_introl eq_refl)) as [|Hin]; [done|]. destruct (proj2 (H y) (or_introl eq_refl)) as [|Hin']; [done|].
      apply Hy in Hin. apply Hx in Hin'. rewrite (cmp_opp (cmp := cmp) x y), Hin' in Hin. done. }
    f_equal. apply IH; [done..|]. intros z. specialize (H z). cbn in H. split; intros Hz.
    + destruct (proj1 H (or_intror Hz)) as [<-|]; [|done]. apply Hx in Hz. rewrite cmp_refl in Hz. done.
    + destruct (proj2 H (or_intror Hz)) as [<-|]; [|done]. apply Hy in Hz. rewrite cmp_refl in Hz. done.
Qed.

Lemma oset_subset_antisym s t : oset s -> oset t -> is_subset s t = true -> is_subset t s = true -> s = t.
Proof. rewrite !is_subset_spec. intros Hs Ht H1 H2. apply oset_ext; [done..|]. intros x. split; auto. Qed.

Lemma oset_NoDup s : oset s -> List.NoDup s.
Proof.
  induction s as [|x s IH]; intros H; [constructor|]. apply oset_cons in H as [Hs Hx]. constructor; [|auto].
  intros Hin. apply Hx in Hin. rewrite cmp_refl in Hin. done.
Qed.

Lemma scollect_id s : oset s -> scollect s = s.
Proof. intros H. apply oset_ext; [apply scollect_oset | done | apply scollect_In]. Qed.

(** Sorting a set without repetitions gives it in ascending order; here for what is already ascending. *)
Lemma oset_le s : oset s -> StronglySorted (cmp_le cmp) s.
Proof.
  induction 1 as [|x s Hs IH Hx]; constructor; [done|]. eapply List.Forall_impl; [|exact Hx]. unfold cmp_le. congruence.
Qed.

Lemma sort_oset s : oset s -> sort_by cmp s = s.
Proof.
  induction s as [|x s IH]; intros H; [done|]. apply oset_cons in H as [Hs Hx]. cbn. fold (sort_by cmp s). rewrite IH by done.
  destruct s as [|y s]; [done|]. cbn. rewrite (Hx y) by (left; done). done.
Qed.

Lemma sort_dedup_oset `{EqDecision A} l : oset (dedup (sort_by cmp l)).
Proof.
  pose proof (sort_by_sorted cmp l) as H. revert H. generalize (sort_by cmp l) as k.
  induction k as [|x [|y k] IH]; intros H; [apply oset_nil | apply oset_cons; split; [apply oset_nil | done]|].
  change (dedup (x :: y :: k)) with (if decide (x = y) then dedup (y :: k) else x :: dedup (y :: k)).
  inversion_clear H as [|? ? Hs Hf]. destruct (decide (x = y)) as [->|Hn]; [auto|].
  apply oset_cons. split; [auto|]. intros z Hz. rewrite dedup_In in Hz.
  rewrite List.Forall_forall in Hf. pose proof (Hf z Hz) as Hxz. pose proof (Hf y (or_introl eq_refl)) as Hxy.
  unfold cmp_le in *. destruct (cmp x z) eqn:E; [|done..]. apply (cmp_eq (cmp := cmp)) in E as <-. exfalso.
  destruct Hz as [->|Hz]; [done|]. inversion_clear Hs as [|? ? _ Hf']. rewrite List.Forall_forall in Hf'.
  apply Hf' in Hz. unfold cmp_le in Hz. rewrite (cmp_opp (cmp := cmp) x y) in Hz.
  destruct (cmp x y) eqn:E; [apply (cmp_eq (cmp := cmp)) in E; done | done..].
Qed.

Lemma sorted_NoDup_oset l : StronglySorted (cmp_le cmp) l -> List.NoDup l -> oset l.
Proof.
  induction 1 as [|x l Hl IH Hx]; intros Hn; [apply oset_nil|]. inversion_clear Hn as [|? ? Hni Hn'].
  apply oset_cons. split; [auto|]. intros y Hy. rewrite List.Forall_forall in Hx. apply Hx in Hy as Hxy.
  unfold cmp_le in Hxy. destruct (cmp x y) eqn:E; [|done..]. apply (cmp_eq (cmp := cmp)) in E as ->. done.
Qed.

End OSet.

Create HintDb oset.
#[export] Hint Resolve sinsert_oset scollect_oset oset_nil sort_dedup_oset : oset.
