(* ===== verification/Verdict.v ===== *)
(** * Verdicts

    The verdict of an oracle ([Verdict] of [ledger-explorer/src/oracle.rs]) and the operations of a history.  The wording
    of a reason is represented by its format string's constructor and arguments. *)

From S2P Require Import Prelude Machine Limits Entry.

Open Scope Z_scope.

(** An abstract operation of a workload's history. *)
Inductive HistoryOperation : Type :=
| HWrite (key : list byte) (value : Z) (witness : EntryHash)
| HRead (key : list byte) (value : Z) (witness : EntryHash)
| HPush (value : Z) (witness : EntryHash)
| HPop (value : Z) (witness : EntryHash).

Inductive Reason : Type :=
| SpecificationSatisfied
| Message (text : string)
| DuplicateApply (value : Z) (times : nat) (positions : list nat)
| TornApply (outcome last_input : Z)
| ReadMismatch (key : list byte) (value expected : Z)
| HistoryBounded (bound count : nat)
| MissingInvoke
| MissingResponse
| NoSerialOrder
| NonLinearizable (index : nat) (operation : HistoryOperation) (chain : list (nat * list byte)) (why : Reason)
| AssertionAt (actor : Z)
| AssertionText (msg : list byte)
| RegisterMismatch (l r : list Z)
| OutputDivergence (index : nat) (l r : Z * Z)
| OutputCount (l r : nat)
| FaultMismatch (l r : list EntryHash)
| RootDivergence
| PropertyViolated (name : string)
| GapExceeds (gap max_gap : nat) (expected : EntryKind)
| GapAtMax (gap max_gap : nat) (expected : EntryKind)
| TrailingGap (gap max_gap : nat) (expected : EntryKind)
| TrailingGapAtMax (max_gap : nat) (expected : EntryKind)
| Named (monitor : string) (why : Reason)
| AtQuiescence (monitor : string) (why : Reason)
| Joined (reasons : list Reason)
| StepBudgetExhausted (steps : nat)
| MonitorHalted (why : Reason).

Record Verdict : Type := mkVerdict { violated : bool; witnesses : list EntryHash; reason : Reason }.

Definition verdict_pass : Verdict := mkVerdict false [] SpecificationSatisfied.
Definition verdict_fail (ws : list EntryHash) (r : Reason) : Verdict := mkVerdict true ws r.

Definition history_witness (op : HistoryOperation) : EntryHash :=
  match op with HWrite _ _ w | HRead _ _ w | HPush _ w | HPop _ w => w end.
