(* ===== verification/Hitting.v ===== *)
(** * Fault solvers: data, costs and minimal hitting sets

    [ledger-explorer/src/solver/config.rs], the enumeration of minimal hitting sets of [solver/mod.rs] and the free
    functions of [solver/hitting_set.rs].  A set of events is an ordered set of digests.  The wording of an
    explanation is represented by its format string's constructor and arguments. *)

From stdpp Require Import gmap.
From Stdlib Require Import Sorting.Sorted.
From S2P Require Import Prelude Machine Limits Entry OrdMap Order Clock Dag Causal Slice OSet Verdict.

Open Scope Z_scope.

(** ** Data *)

Inductive SolverEngine : Type := Auto | Builtin | Cadical.

#[global] Instance SolverEngine_eq_dec : EqDecision SolverEngine.
Proof. solve_decision. Defined.

Inductive SolverStateError : Type :=
| StateJournal (err : JournalError)
| MissingMagic
| Truncated (offset : nat)
| UnsupportedFormatVersion (version : Z)
| UnknownEngineByte (byte : Z)
| UnknownRunConfigFlag (flag : Z)
| UnresolvedEngine
| StateLengthOverflow (field : string) (declared : Z) (remaining : nat)
| StateTrailingBytes
| EngineMismatch (expected found : SolverEngine)
| RunConfigMismatch (expected found : option EntryHash)
| StateKeyMismatch (expected found : EntryHash)
| HypothesisNotCovered (key event : EntryHash).

Inductive SolverError : Type :=
| SolverJournal (err : JournalError)
| SolverState (err : SolverStateError)
| EmptyProvenance
| BudgetExhausted (what : string)
| Unsupported.

Record SolverConfig : Type := mkSolverConfig {
  max_horizon : option nat;
  oracle_version : option Z;
  input_class : option Z;
  max_faults : option nat;
  engine : SolverEngine;
  run_config_hash : option EntryHash;
  support_version : option Z;
  support_digest : option EntryHash }.

(** [SolverConfig::default]. *)
Definition solver_config_default : SolverConfig := mkSolverConfig None None None None Auto None None None.

Record FaultableEvent : Type := mkFaultable { fe_event : EntryHash; fe_kind : EntryKind; fe_cost : Z }.

(** The explanations a solver gives, one constructor per format string. *)
Inductive Explanation : Type :=
| MinimumCut (faults paths : nat)
| BoundedCut (faults paths horizon : nat)
| HeuristicCut (faults paths : nat)
| IncrementalCut (faults clauses : nat)
| BoundedIncremental (faults clauses horizon : nat)
| HeuristicIncremental (faults clauses : nat)
| MaxSatMinimum (faults clauses : nat) (lower : Z)
| MaxSatBounded (faults clauses horizon : nat) (lower : Z)
| MaxSatHeuristic (faults clauses : nat) (lower : Z)
| ResumedHypothesis (faults : nat).

#[global] Instance Explanation_eq_dec : EqDecision Explanation.
Proof. solve_decision. Defined.

Record FaultHypothesis : Type := mkHypothesis { events : list EntryHash; total_cost : Z; explanation : Explanation }.

#[global] Instance FaultHypothesis_eq_dec : EqDecision FaultHypothesis.
Proof. solve_decision. Defined.

(** [Iterator::sum::<u64>], wrapping as in a release build. *)
Definition u64_sum (l : list Z) : Z := foldl Z.add 0 l mod 2 ^ 64.

(** ** Minimal hitting sets *)

Definition MAX_HITTING_SET_PATHS : nat := 256 * 256.
Definition MAX_HITTING_SET_CANDIDATES : nat := 256 * 256.

(** A [BTreeSet<EntryHash>]. *)
Abbreviation HashSet_ := (list EntryHash).
Abbreviation hset := (oset cmp_hash).
Abbreviation hmem := (smem cmp_hash).
Abbreviation hsub := (is_subset cmp_hash).

(** One candidate against one path: kept when it hits the path, else extended by every event of the path. *)
Definition extend_candidate (path_hashes current : HashSet_) : list HashSet_ :=
  if existsb (fun hash => hmem hash path_hashes) current then [current]
  else map (fun hash => sinsert cmp_hash hash current) path_hashes.

(** One set of [prune_supersets]: skipped when it contains a kept one, else it replaces its supersets. *)
Definition prune_step (minimal : list HashSet_) (set : HashSet_) : list HashSet_ :=
  if existsb (fun existing => hsub existing set) minimal then minimal
  else List.filter (fun existing => negb (hsub set existing)) minimal ++ [set].

Definition cmp_len {A} (a b : list A) : comparison := Nat.compare (length a) (length b).

Definition prune_supersets (sets : list HashSet_) : list HashSet_ :=
  let sets := sort_by cmp_len (dedup (sort_by (cmp_list cmp_hash) sets)) in
  sort_by (cmp_list cmp_hash) (foldl prune_step [] sets).

Definition path_set (path : list FaultableEvent) : HashSet_ := scollect cmp_hash (map fe_event path).

Fixpoint hitting_loop (candidate_sets : list HashSet_) (paths : list (list FaultableEvent)) :
    result SolverError (list HashSet_) :=
  match paths with
  | [] => Ok candidate_sets
  | path :: paths =>
      let next_candidates := concat (map (extend_candidate (path_set path)) candidate_sets) in
      if (MAX_HITTING_SET_CANDIDATES <? length next_candidates)%nat
      then Err (BudgetExhausted "hitting-set candidate sets exceed the budget")
      else hitting_loop (prune_supersets next_candidates) paths
  end.

Definition compute_minimal_hitting_sets (paths : list (list FaultableEvent)) : result SolverError (list HashSet_) :=
  if (MAX_HITTING_SET_PATHS <? length paths)%nat
  then Err (BudgetExhausted "derivation paths exceed the hitting-set budget")
  else hitting_loop [[]] paths.

(** ** Faultable events and their cost *)

Definition is_faultable (k : EntryKind) : bool :=
  match k with KSend | KRecv | KFsRead | KFsWrite | KTimerFire | KTimerSet => true | _ => false end.

Definition event_fault_cost (j : JournalState) (hash : EntryHash) : Z :=
  match state_lookup j hash with
  | Some entry =>
      match kind (edata entry) with
      | KSend | KRecv => 2
      | KTimerFire | KTimerSet => 3
      | KFsRead | KFsWrite => 4
      | _ => 5
      end
  | None => 10
  end.

(** ** Pruning of symmetric hypotheses *)

Definition cmp_hyp (a b : FaultHypothesis) : comparison :=
  then_cmp (then_cmp (total_cost a ?= total_cost b)%Z (cmp_len (events a) (events b)))
    (cmp_list cmp_hash (events a) (events b)).

(** [clock_cache.get(event)]: the cache holds the clock of every event of a hypothesis the journal has. *)
Definition cached_clock (j : JournalState) (event : EntryHash) : option VectorClock :=
  option_map eclock (state_lookup j event).

Definition not_in (l : list EntryHash) (event : EntryHash) : bool := negb (bool_decide (event ∈ l)).

(** The body of the loop over [pruned]: the two hypotheses differ by one swap of concurrent events. *)
Definition swap_dominated (j : JournalState) (hyp existing : FaultHypothesis) : bool :=
  if negb (length (events existing) =? length (events hyp))%nat then false
  else
    match List.filter (not_in (events hyp)) (events existing), List.filter (not_in (events existing)) (events hyp) with
    | [a], [b] =>
        match cached_clock j a, cached_clock j b with
        | Some ca, Some cb => concurrent_with ca cb
        | _, _ => false
        end
    | _, _ => false
    end.

Definition samc_step (j : JournalState) (pruned : list FaultHypothesis) (hyp : FaultHypothesis) : list FaultHypothesis :=
  if existsb (swap_dominated j hyp) pruned then pruned
  else if existsb (fun e => bool_decide (events e = events hyp)) pruned then pruned
  else pruned ++ [hyp].

Definition samc_prune (j : JournalState) (hypotheses : list FaultHypothesis) : list FaultHypothesis :=
  if (length hypotheses <=? 1)%nat then hypotheses
  else foldl (samc_step j) [] (sort_by cmp_hyp hypotheses).

(** ** Bounded causal closure *)

(** The [while let Some((id, depth)) = frontier.pop()] loop; the top of the stack is the head of the list. *)
Fixpoint horizon_loop (fuel : nat) (get : EntryHash -> option JEntry) (max_depth : nat) (seen : gset (list byte))
    (frontier : list (EntryHash * nat)) : option (gset (list byte)) :=
  match frontier with
  | [] => Some seen
  | (id, depth) :: frontier =>
      match fuel with
      | O => None
      | S fuel =>
          if decide (id ∈ seen) then horizon_loop fuel get max_depth seen frontier
          else
            let seen := {[id]} ∪ seen in
            if (max_depth <=? depth)%nat then horizon_loop fuel get max_depth seen frontier
            else
              match get id with
              | Some entry =>
                  let fresh := List.filter (fun parent => negb (bool_decide (parent ∈ seen))) (parents (edata entry)) in
                  horizon_loop fuel get max_depth seen (rev (map (fun parent => (parent, S depth)) fresh) ++ frontier)
              | None => horizon_loop fuel get max_depth seen frontier
              end
      end
  end.

(** [causal_closure_with_horizon]; [None] would be a loop that does not end within the fuel. *)
Definition causal_closure_with_horizon (j : JournalState) (targets : list EntryHash) (max_depth : nat) :
    option (result JournalError (list EntryHash)) :=
  match missing_target j targets with
  | Some t => Some (Err (MissingParent t))
  | None =>
      match horizon_loop (slice_fuel j targets) (state_lookup j) max_depth ∅ (rev (map (fun id => (id, O)) targets)) with
      | Some seen => Some (Ok (map eid (List.filter (fun e => bool_decide (eid e ∈ seen)) (entries j))))
      | None => None
      end
  end.

(** ** Minimal hitting sets are exact

    - [compute_minimal_hitting_sets] returns exactly the inclusion-minimal hitting sets of the paths, in ascending
      order, or reports an exhausted budget.
    - [samc_prune] keeps the cheapest hypothesis of every class it merges.
    - The bounded causal closure ends, and what it misses. *)

(** A set of events breaks every path. *)
Definition hits (s : list EntryHash) (paths : list (list EntryHash)) : Prop :=
  forall p, In p paths -> exists x, In x s /\ In x p.

(** An inclusion-minimal hitting set. *)
Definition minimal_hitting (s : list EntryHash) (paths : list (list EntryHash)) : Prop :=
  hset s /\ hits s paths /\ (forall t, hset t -> hits t paths -> (forall x, In x t -> In x s) -> t = s).

Definition event_paths (paths : list (list FaultableEvent)) : list (list EntryHash) := map (map fe_event) paths.

Lemma hits_snoc s paths p : hits s (paths ++ [p]) <-> hits s paths /\ exists x, In x s /\ In x p.
Proof.
  unfold hits. split.
  - intros H. split; intros; apply H, in_or_app; cbn; tauto.
  - intros [H1 H2] q Hq. apply in_app_or in Hq as [Hq|[<-|[]]]; auto.
Qed.

(** What the candidates are: hitting sets, one below every hitting set, none below another. *)
Record candidates (cands : list (list EntryHash)) (paths : list (list EntryHash)) : Prop := {
  cand_set : forall c, In c cands -> hset c /\ hits c paths;
  cand_below : forall t, hits t paths -> exists c, In c cands /\ (forall x, In x c -> In x t);
  cand_anti : forall c d, In c cands -> In d cands -> (forall x, In x c -> In x d) -> c = d;
  cand_order : oset (cmp_list cmp_hash) cands }.

Lemma candidates_minimal cands paths : candidates cands paths -> forall s, In s cands <-> minimal_hitting s paths.
Proof.
  intros [Hs Hb Ha _] s. split.
  - intros H. destruct (Hs s H) as [H1 H2]. split; [done|]. split; [done|]. intros t Ht Hh Hsub.
    destruct (Hb t Hh) as (c & Hc & Hct). assert (c = s) as -> by (apply Ha; auto).
    apply (oset_ext cmp_hash); [done..|]. intros x. split; auto.
  - intros (H1 & H2 & H3). destruct (Hb s H2) as (c & Hc & Hcs). destruct (Hs c Hc) as [H4 H5].
    rewrite <- (H3 c H4 H5 Hcs). done.
Qed.

(** ** Pruning supersets *)

Record pruned_of (m l : list (list EntryHash)) : Prop := {
  pr_in : forall s, In s m -> In s l;
  pr_below : forall s, In s l -> exists t, In t m /\ (forall x, In x t -> In x s);
  pr_anti : forall s t, In s m -> In t m -> (forall x, In x s -> In x t) -> s = t;
  pr_nodup : List.NoDup m }.

Lemma prune_step_spec m l set : pruned_of m l -> pruned_of (prune_step m set) (l ++ [set]).
Proof.
  intros [Hi Hb Ha Hnd]. unfold prune_step. destruct (existsb _ m) eqn:E.
  - apply existsb_exists in E as (e & He & Hsub). rewrite is_subset_spec in Hsub by apply _. split.
    + intros s Hs. apply in_or_app. auto.
    + intros s Hs. apply in_app_or in Hs as [Hs|[<-|[]]]; [auto|]. exists e. done.
    + exact Ha.
    + exact Hnd.
  - assert (Hno : forall e, In e m -> ~ (forall x, In x e -> In x set)).
    { intros e He Hsub. assert (existsb (fun existing => hsub existing set) m = true) as E'; [|congruence].
      apply existsb_exists. exists e. split; [done|]. apply (is_subset_spec cmp_hash), Hsub. }
    assert (Hf : forall s, In s (List.filter (fun existing => negb (hsub set existing)) m) <->
      In s m /\ ~ (forall x, In x set -> In x s)).
    { intros s. rewrite filter_In, <- (is_subset_spec cmp_hash). destruct (hsub set s); cbn; intuition congruence. }
    split.
    + intros s Hs. apply in_app_or in Hs as [Hs|[<-|[]]]; apply in_or_app; [left; apply Hi, Hf, Hs | right; left; done].
    + intros s Hs. apply in_app_or in Hs as [Hs|[<-|[]]].
      * destruct (Hb s Hs) as (t & Ht & Hts). destruct (hsub set t) eqn:Est.
        -- rewrite is_subset_spec in Est by apply _. exists set. split; [apply in_or_app; right; left; done | auto].
        -- exists t. split; [|done]. apply in_or_app. left. apply filter_In. rewrite Est. done.
      * exists set. split; [apply in_or_app; right; left; done | done].
    + intros s t Hs Ht Hst. apply in_app_or in Hs as [Hs|[<-|[]]], Ht as [Ht|[<-|[]]].
      * apply Ha; [apply Hf, Hs | apply Hf, Ht | done].
      * apply Hf in Hs as [Hs _]. destruct (Hno s Hs Hst).
      * apply Hf in Ht as [_ Hn]. destruct (Hn Hst).
      * done.
    + apply List.NoDup_app; [apply NoDup_filter, Hnd | repeat constructor; intros [] |].
      intros s Hs [<-|[]]. apply Hf in Hs as [Hs _]. apply (Hno set Hs). done.
Qed.

Lemma prune_fold_spec k m l : pruned_of m l -> pruned_of (foldl prune_step m k) (l ++ k).
Proof.
  revert m l. induction k as [|s k IH]; intros m l H; [rewrite app_nil_r; exact H|].
  cbn [foldl]. replace (l ++ s :: k) with ((l ++ [s]) ++ k) by (rewrite <- app_assoc; done). apply IH, prune_step_spec, H.
Qed.

Lemma prune_supersets_spec sets : pruned_of (prune_supersets sets) sets.
Proof.
  unfold prune_supersets. set (k := sort_by cmp_len _).
  assert (Hk : forall s, In s k <-> In s sets) by (intros s; unfold k; rewrite sort_by_In, dedup_In, sort_by_In; done).
  assert (H0 : pruned_of [] []) by (split; [intros ? [] | intros ? [] | intros ? ? [] | constructor]). apply (prune_fold_spec k) in H0. cbn [app] in H0.
  destruct H0 as [Hi Hb Ha Hnd]. split.
  - intros s Hs. rewrite sort_by_In in Hs. apply Hk, Hi, Hs.
  - intros s Hs. apply Hk, Hb in Hs as (t & Ht & Hts). exists t. rewrite sort_by_In. done.
  - intros s t. rewrite !sort_by_In. apply Ha.
  - eapply Permutation_NoDup; [|exact Hnd]. symmetry. apply sort_by_perm.
Qed.

(** ** The enumeration *)

Lemma extend_candidate_In p c e : In e (extend_candidate p c) <->
  ((exists x, In x c /\ In x p) /\ e = c) \/
  (~ (exists x, In x c /\ In x p) /\ exists h, In h p /\ e = sinsert cmp_hash h c).
Proof.
  unfold extend_candidate. destruct (existsb _ c) eqn:E.
  - apply existsb_exists in E as (x & Hx & Hm). rewrite smem_spec in Hm by apply _. cbn.
    split; [intros [<-|[]]; left; eauto|]. intros [[_ ->]|[[] _]]; eauto.
  - assert (Hno : ~ (exists x, In x c /\ In x p)).
    { intros (x & Hx & Hp). assert (existsb (fun hash => hmem hash p) c = true) as E'; [|congruence].
      apply existsb_exists. exists x. split; [done|]. apply (smem_spec cmp_hash), Hp. }
    rewrite in_map_iff. split.
    + intros (h & <- & Hh). right. eauto.
    + intros [[H _]|[_ (h & Hh & ->)]]; [done | eauto].
Qed.

Lemma candidates_step cands paths (path : list FaultableEvent) : candidates cands paths ->
  candidates (prune_supersets (concat (map (extend_candidate (path_set path)) cands))) (paths ++ [map fe_event path]).
Proof.
  intros [Hs Hb Ha _]. set (next := concat _). destruct (prune_supersets_spec next) as [Hpi Hpb Hpa Hpn].
  assert (Hn : forall e, In e next <-> exists c, In c cands /\ In e (extend_candidate (path_set path) c)).
  { intros e. unfold next. rewrite in_concat. setoid_rewrite in_map_iff. split.
    - intros (l & (c & <- & Hc) & He). eauto.
    - intros (c & Hc & He). eauto. }
  assert (Hp : forall x, In x (path_set path) <-> In x (map fe_event path)) by (intros x; apply (scollect_In cmp_hash)).
  split.
  - intros e He. apply Hpi, Hn in He as (c & Hc & He). destruct (Hs c Hc) as [H1 H2]. rewrite hits_snoc.
    apply extend_candidate_In in He as [[(x & Hx & Hxp) ->]|[_ (h & Hh & ->)]].
    + split; [done|]. split; [done|]. exists x. rewrite <- Hp. done.
    + split; [apply sinsert_oset; [apply _ | done]|]. split.
      * intros q Hq. destruct (H2 q Hq) as (x & Hx & Hxq). exists x. rewrite sinsert_In by apply _. auto.
      * exists h. rewrite sinsert_In by apply _. rewrite <- Hp. auto.
  - intros t Ht. apply hits_snoc in Ht as [Ht (h & Hh & Hhp)]. destruct (Hb t Ht) as (c & Hc & Hct).
    assert (Hd : (exists x, In x c /\ In x (path_set path)) \/ ~ (exists x, In x c /\ In x (path_set path))).
    { destruct (existsb (fun x => hmem x (path_set path)) c) eqn:E.
      - left. apply existsb_exists in E as (x & Hx & Hm). rewrite smem_spec in Hm by apply _. eauto.
      - right. intros (x & Hx & Hm). apply (smem_spec cmp_hash) in Hm.
        assert (existsb (fun x => hmem x (path_set path)) c = true); [|congruence]. apply existsb_exists. eauto. }
    assert (exists e, In e next /\ (forall x, In x e -> In x t)) as (e & He & Het).
    { destruct Hd as [Hd|Hd].
      - exists c. split; [|done]. apply Hn. exists c. split; [done|]. apply extend_candidate_In. auto.
      - exists (sinsert cmp_hash h c). split.
        + apply Hn. exists c. split; [done|]. apply extend_candidate_In. right. split; [done|]. exists h. rewrite Hp. done.
        + intros x. rewrite sinsert_In by apply _. intros [->|Hx]; auto. }
    apply Hpb in He as (c' & Hc' & Hsub). exists c'. auto.
  - exact Hpa.
  - apply (sorted_NoDup_oset (cmp_list cmp_hash)); [apply sort_by_sorted, _ | exact Hpn].
Qed.

Lemma hitting_loop_spec rest : forall cands paths r, candidates cands paths -> hitting_loop cands rest = Ok r ->
  candidates r (paths ++ event_paths rest).
Proof.
  induction rest as [|path rest IH]; intros cands paths r H E; cbn [hitting_loop] in E.
  - apply Ok_inj in E as <-. cbn. rewrite app_nil_r. exact H.
  - destruct (_ <? _)%nat; [done|]. eapply IH in E; [|apply candidates_step, H]. rewrite <- app_assoc in E. exact E.
Qed.

Lemma candidates_empty : candidates [[]] [].
Proof.
  split.
  - intros c [<-|[]]. split; [apply oset_nil | intros ? []].
  - intros t _. exists []. split; [left; done | intros ? []].
  - intros c d [<-|[]] [<-|[]] _. done.
  - apply oset_cons. split; [apply oset_nil | intros ? []].
Qed.

Lemma compute_candidates paths r : compute_minimal_hitting_sets paths = Ok r -> candidates r (event_paths paths).
Proof.
  unfold compute_minimal_hitting_sets. destruct (_ <? _)%nat; [done|]. intros E.
  eapply hitting_loop_spec in E; [|apply candidates_empty]. exact E.
Qed.

(** ** The budgets *)

Lemma prune_fold_length k : forall m, (length (foldl prune_step m k) <= length m + length k)%nat.
Proof.
  induction k as [|s k IH]; intros m; cbn [foldl length]; [lia|]. etrans; [apply IH|].
  unfold prune_step. destruct (existsb _ m); [lia|]. rewrite length_app.
  pose proof (List.filter_length_le (fun existing => negb (hsub s existing)) m). cbn [length]. lia.
Qed.

Lemma prune_length sets : (length (prune_supersets sets) <= length sets)%nat.
Proof.
  unfold prune_supersets. rewrite sort_by_perm. etrans; [apply prune_fold_length|]. cbn [length].
  rewrite sort_by_perm. etrans; [apply dedup_length|]. rewrite sort_by_perm. done.
Qed.

Lemma extend_length p cands : (length (concat (map (extend_candidate p) cands)) <= length cands * Nat.max 1 (length p))%nat.
Proof.
  induction cands as [|c cands IH]; cbn [map concat length]; [lia|]. rewrite length_app.
  assert (length (extend_candidate p c) <= Nat.max 1 (length p))%nat; [|lia].
  unfold extend_candidate. destruct (existsb _ c); [cbn; lia | rewrite length_map; lia].
Qed.

(** The number of ways to choose one event per path. *)
Definition choices (paths : list (list FaultableEvent)) : nat :=
  foldr (fun p n => (Nat.max 1 (length (path_set p)) * n)%nat) 1%nat paths.

Lemma choices_pos paths : (1 <= choices paths)%nat.
Proof. induction paths as [|p paths IH]; cbn; [lia|]. fold (choices paths). nia. Qed.

Lemma hitting_loop_err rest : forall cands e, hitting_loop cands rest = Err e ->
  e = BudgetExhausted "hitting-set candidate sets exceed the budget" /\
  (MAX_HITTING_SET_CANDIDATES < length cands * choices rest)%nat.
Proof.
  induction rest as [|path rest IH]; intros cands e E; cbn [hitting_loop choices foldr] in *; [done|].
  fold (choices rest). pose proof (extend_length (path_set path) cands) as Hl. pose proof (choices_pos rest) as Hc.
  revert E Hl. set (n := Nat.max 1 (length (path_set path))). set (next := concat _).
  clearbody n. intros E Hl.
  destruct (MAX_HITTING_SET_CANDIDATES <? length next)%nat eqn:El; bool_hyps.
  - split; [congruence|]. nia.
  - apply IH in E as [-> E]. split; [done|]. pose proof (prune_length next). nia.
Qed.

Lemma compute_err paths e : compute_minimal_hitting_sets paths = Err e ->
  (exists what, e = BudgetExhausted what) /\
  (MAX_HITTING_SET_PATHS < length paths \/ MAX_HITTING_SET_CANDIDATES < choices paths)%nat.
Proof.
  unfold compute_minimal_hitting_sets. intros E. destruct (_ <? _)%nat eqn:El.
  - injection E as <-. split; [eauto|]. left. apply Nat.ltb_lt, El.
  - apply hitting_loop_err in E as [-> E]. split; [eauto|]. right. cbn [length] in E. rewrite Nat.mul_1_l in E. exact E.
Qed.

(** C13: the enumeration of fault cuts is exact: when it succeeds it returns, in strictly ascending order, exactly the
    inclusion-minimal sets of events that break every path, and every set that breaks them contains one of these; it
    fails only with an exhausted budget, when there are more than 65536 paths or more than 65536 ways to choose one
    event per path. *)
Theorem minimal_hitting_sets_exact paths :
  match compute_minimal_hitting_sets paths with
  | Ok sets =>
      oset (cmp_list cmp_hash) sets /\
      (forall s, In s sets <-> minimal_hitting s (event_paths paths)) /\
      (forall t, hits t (event_paths paths) -> exists s, In s sets /\ (forall x, In x s -> In x t))
  | Err e =>
      (exists what, e = BudgetExhausted what) /\
      (MAX_HITTING_SET_PATHS < length paths \/ MAX_HITTING_SET_CANDIDATES < choices paths)%nat
  end.
Proof.
  destruct (compute_minimal_hitting_sets paths) as [sets|e] eqn:E.
  - apply compute_candidates in E. split; [apply cand_order in E; exact E|].
    split; [apply candidates_minimal, E | apply cand_below, E].
  - apply compute_err, E.
Qed.

(** ** Pruning of symmetric hypotheses *)

Definition hyp_key (h : FaultHypothesis) : Z * nat * list EntryHash := (total_cost h, length (events h), events h).

Lemma hyp_sorted l : StronglySorted (fun a b => total_cost a <= total_cost b) (sort_by cmp_hyp l).
Proof.
  apply (sorted_impl (cmp_le cmp_hyp)).
  - intros a b H. unfold cmp_le, cmp_hyp, then_cmp in H. destruct (Z.compare_spec (total_cost a) (total_cost b)); [lia..|done].
  - apply (sort_by_sorted_key hyp_key cmp_hyp (cmp_pair (cmp_pair Z.compare Nat.compare) (cmp_list cmp_hash))). done.
Qed.

(** [k] stands for [h]: the same events, or one event swapped for a concurrent one. *)
Definition stands_for (j : JournalState) (h k : FaultHypothesis) : Prop :=
  events k = events h \/ swap_dominated j h k = true.

Lemma samc_fold j rest : forall done_ pruned,
  StronglySorted (fun a b => total_cost a <= total_cost b) (done_ ++ rest) ->
  (forall k, In k pruned -> In k done_) ->
  (forall h, In h done_ -> exists k, In k pruned /\ stands_for j h k /\ total_cost k <= total_cost h) ->
  (forall k, In k (foldl (samc_step j) pruned rest) -> In k (done_ ++ rest)) /\
  (forall h, In h (done_ ++ rest) -> exists k, In k (foldl (samc_step j) pruned rest) /\ stands_for j h k /\ total_cost k <= total_cost h).
Proof.
  induction rest as [|h rest IH]; intros dn pruned Hs Hin Hdom; cbn [foldl]; [rewrite app_nil_r; auto|].
  assert (Hle : forall k, In k pruned -> total_cost k <= total_cost h).
  { intros k Hk. apply Hin in Hk. clear -Hs Hk. induction dn as [|d dn IH]; [done|]. cbn [app] in Hs.
    inversion_clear Hs as [|? ? Hs' Hf]. destruct Hk as [->|Hk]; [|auto].
    rewrite List.Forall_forall in Hf. apply Hf, in_or_app. right. left. done. }
  assert (Hrep : exists k, In k (samc_step j pruned h) /\ stands_for j h k /\ total_cost k <= total_cost h).
  { unfold samc_step. destruct (existsb _ pruned) eqn:E1.
    - apply existsb_exists in E1 as (k & Hk & Hd). exists k. unfold stands_for. auto.
    - destruct (existsb (fun e => _) pruned) eqn:E2.
      + apply existsb_exists in E2 as (k & Hk & Hd). apply bool_decide_eq_true in Hd. exists k. unfold stands_for. auto.
      + exists h. split; [apply in_or_app; right; left; done|]. split; [left; done | lia]. }
  assert (Hsup : forall k, In k pruned -> In k (samc_step j pruned h)).
  { intros k Hk. unfold samc_step. repeat (destruct (existsb _ pruned)); [done..|]. apply in_or_app. auto. }
  replace (dn ++ h :: rest) with ((dn ++ [h]) ++ rest) in * by (rewrite <- app_assoc; done).
  apply IH; [exact Hs| |].
  - intros k Hk. unfold samc_step in Hk. apply in_or_app.
    repeat (destruct (existsb _ pruned)); [left; auto..|]. apply in_app_or in Hk as [Hk|Hk]; auto.
  - intros h' Hh'. apply in_app_or in Hh' as [Hh'|[<-|[]]]; [|exact Hrep].
    destruct (Hdom h' Hh') as (k & Hk & Hrest). eauto.
Qed.

(** Pruning symmetric hypotheses loses no cheap one: what is kept was given, and every hypothesis given is kept or
    stands behind a kept one that costs no more and differs by one event swapped for a concurrent one. *)
Theorem samc_prune_keeps_cheapest j hyps :
  (forall k, In k (samc_prune j hyps) -> In k hyps) /\
  (forall h, In h hyps -> exists k, In k (samc_prune j hyps) /\ stands_for j h k /\ total_cost k <= total_cost h).
Proof.
  unfold samc_prune. destruct (_ <=? _)%nat.
  - split; [done|]. intros h Hh. exists h. split; [done|]. split; [left; done | lia].
  - destruct (samc_fold j (sort_by cmp_hyp hyps) [] []) as [H1 H2]; [apply hyp_sorted | done..|]. cbn [app] in *. split.
    + intros k Hk. apply (sort_by_In cmp_hyp), H1, Hk.
    + intros h Hh. apply H2, sort_by_In, Hh.
Qed.

(** ** The bounded causal closure *)

(** Reachable by at most [n] parent links. *)
Inductive ancestor_within (get : EntryHash -> option JEntry) (a : EntryHash) : nat -> EntryHash -> Prop :=
| aw_refl n : ancestor_within get a n a
| aw_step n id e p : get id = Some e -> In p (parents (edata e)) -> ancestor_within get a n p ->
    ancestor_within get a (S n) id.

Section Horizon.
Variables (get : EntryHash -> option JEntry) (max_depth : nat).

Lemma horizon_loop_spec fuel : forall seen frontier out, horizon_loop fuel get max_depth seen frontier = Some out ->
  (forall x, x ∈ seen -> x ∈ out) /\ (forall x d, In (x, d) frontier -> x ∈ out) /\
  (forall x, x ∈ out -> x ∈ seen \/ exists t d, In (t, d) frontier /\ ancestor_within get x (max_depth - d) t).
Proof.
  induction fuel as [|fuel IH]; intros seen frontier out H; (destruct frontier as [|[id depth] frontier]; cbn [horizon_loop] in H;
    [simplify_eq; split_and!; [done | intros ? ? [] | auto]|]); [done|].
  assert (Hskip : forall s', (s' = seen \/ s' = {[id]} ∪ seen) -> id ∈ s' -> horizon_loop fuel get max_depth s' frontier = Some out ->
    (forall x, x ∈ seen -> x ∈ out) /\ (forall x d, In (x, d) ((id, depth) :: frontier) -> x ∈ out) /\
    (forall x, x ∈ out -> x ∈ seen \/ exists t d, In (t, d) ((id, depth) :: frontier) /\ ancestor_within get x (max_depth - d) t)).
  { intros s' Hs' Hid H'. apply IH in H' as (H1 & H2 & H3). split_and!.
    - intros x Hx. apply H1. set_solver.
    - intros x d [[= <- <-]|Hx]; [auto | eauto].
    - intros x Hx. destruct (H3 x Hx) as [Hx'|(t & d & Ht & Ha)]; [|right; exists t, d; split; [right|]; done].
      destruct Hs' as [->| ->]; [auto|]. apply elem_of_union in Hx' as [->%elem_of_singleton|Hx']; [|auto].
      right. exists id, depth. split; [left; done | constructor]. }
  case_decide as Hd; [eapply Hskip; [| |exact H]; auto|].
  destruct (max_depth <=? depth)%nat eqn:El; [eapply Hskip; [| |exact H]; set_solver|].
  destruct (get id) as [e|] eqn:E; [|eapply Hskip; [| |exact H]; set_solver]. bool_hyps.
  apply IH in H as (H1 & H2 & H3). split_and!.
  - intros x Hx. apply H1. set_solver.
  - intros x d [[= <- <-]|Hx]; [apply H1; set_solver|]. apply (H2 x d), in_or_app. auto.
  - intros x Hx. destruct (H3 x Hx) as [Hx'|(t & d & Ht & Ha)].
    + apply elem_of_union in Hx' as [->%elem_of_singleton|Hx']; [|auto]. right. exists id, depth. split; [left; done | constructor].
    + apply in_app_or in Ht as [Ht|Ht]; [|right; exists t, d; split; [right|]; done].
      rewrite <- in_rev, in_map_iff in Ht. destruct Ht as (p & [= <- <-] & Hp). apply filter_In in Hp as [Hp _].
      right. exists id, depth. split; [left; done|]. replace (max_depth - depth)%nat with (S (max_depth - S depth)) by lia.
      eapply aw_step; eauto.
Qed.

Variable log : list JEntry.
Hypothesis Hget : forall id, get id = log_get log id.
Hypothesis Hnodup : NoDup (map eid log).

Lemma horizon_loop_ends fuel : forall seen frontier, (length frontier + pending log seen <= fuel)%nat ->
  exists out, horizon_loop fuel get max_depth seen frontier = Some out.
Proof.
  induction fuel as [|fuel IH]; intros seen frontier Hf.
  - destruct frontier; [eexists; done | cbn in Hf; lia].
  - destruct frontier as [|[id depth] frontier]; [eexists; done|]. cbn [horizon_loop length] in *.
    case_decide as Hd; [apply IH; lia|].
    assert (Hskip : exists out, horizon_loop fuel get max_depth ({[id]} ∪ seen) frontier = Some out).
    { apply IH. eapply Nat.le_trans; [apply Nat.add_le_mono_l, pending_mono | lia]. }
    destruct (_ <=? _)%nat; [done|]. rewrite Hget. destruct (log_get log id) as [e|] eqn:E; [|done].
    apply IH. rewrite length_app, length_rev, length_map. apply log_get_In in E as [Hin <-].
    rewrite (pending_add log seen e Hnodup Hin Hd) in Hf.
    pose proof (List.filter_length_le (fun parent => negb (bool_decide (parent ∈ {[eid e]} ∪ seen))) (parents (edata e))). lia.
Qed.
End Horizon.

(** The bounded closure ends and stays within its horizon.  On a reachable journal it fails only for a target that is
    not in the journal; otherwise it returns entries of the journal, every target among them, each reached from a
    target by at most [max_depth] parent links. *)
Theorem horizon_closure_bounded blake3 j targets max_depth : journal_reach blake3 j ->
  match causal_closure_with_horizon j targets max_depth with
  | None => False
  | Some (Err x) => exists t, x = MissingParent t /\ t ∈ targets /\ state_lookup j t = None
  | Some (Ok ids) => (forall t, t ∈ targets -> In t ids) /\
      forall id, In id ids -> exists t, t ∈ targets /\ ancestor_within (state_lookup j) id max_depth t
  end.
Proof.
  intros (log & _ & R)%journal_reach_represents. unfold causal_closure_with_horizon.
  pose proof (missing_target_spec j targets) as Hm. destruct (missing_target j targets) as [t|]; [exists t; done|].
  destruct (horizon_loop_ends (state_lookup j) max_depth log (r_lookup _ _ R) (r_nodup _ _ R) (slice_fuel j targets) ∅
    (rev (map (fun id => (id, O)) targets))) as [out Hout].
  { rewrite length_rev, length_map. unfold slice_fuel. rewrite (represents_entries _ _ R). apply Nat.add_le_mono_l, pending_le. }
  rewrite Hout. apply horizon_loop_spec in Hout as (_ & H2 & H3).
  assert (Hf : forall t d, In (t, d) (rev (map (fun id => (id, O)) targets)) <-> d = O /\ t ∈ targets).
  { intros t d. rewrite <- in_rev, in_map_iff, list_elem_of_In. naive_solver. }
  split.
  - intros t Ht. destruct (Hm t Ht) as [e He]. rewrite (r_lookup _ _ R) in He. apply log_get_In in He as [Hin <-].
    apply in_map, filter_In. rewrite (represents_entries _ _ R), bool_decide_eq_true. split; [done|].
    apply (H2 _ O), Hf. done.
  - intros id Hid. apply in_map_iff in Hid as (e & <- & He). apply filter_In in He as [_ He%bool_decide_eq_true].
    destruct (H3 _ He) as [Hs|(t & d & Ht & Ha)]; [set_solver|]. apply Hf in Ht as [-> Ht].
    exists t. rewrite Nat.sub_0_r in Ha. done.
Qed.

(** ** Concrete journals *)

(** Append to a sample journal, keeping the ids. *)
Definition grow (s : list EntryHash * JournalState) (k : EntryKind) (a : Z) (obs : list nat) (p : EntryPayload) :
    list EntryHash * JournalState :=
  match append roll_digest true s.2 k a (omap (fun i => s.1 !! i) obs) p with
  | Ok (id, j) => (s.1 ++ [id], j)
  | Err _ => s
  end.

(** The appended entry is new. *)
Definition grows (s : list EntryHash * JournalState) (k : EntryKind) (a : Z) (obs : list nat) (p : EntryPayload) : bool :=
  match append roll_digest true s.2 k a (omap (fun i => s.1 !! i) obs) p with
  | Ok (id, _) => match state_lookup s.2 id with Some _ => false | None => true end
  | Err _ => true
  end.

Lemma grow_reach s k a obs p : journal_reach roll_digest s.2 -> grows s k a obs p = true -> journal_reach roll_digest (grow s k a obs p).2.
Proof.
  unfold grow, grows. intros Hr H. destruct (append _ _ _ _ _ _ _) as [[id j]|] eqn:E; [|exact Hr].
  eapply jr_append; [exact Hr | exact E |]. destruct (state_lookup s.2 id); [done | reflexivity].
Qed.

(** Entry 0; 1 after 0; 2 after 1; 3 after 1 and 2. *)
Definition diamond : list EntryHash * JournalState :=
  grow (grow (grow (grow ([], journal_new) KEpoch 1 [] (PEpoch 1)) KEpoch 2 [0%nat] (PEpoch 2)) KEpoch 3 [1%nat] (PEpoch 3))
    KEpoch 4 [1%nat; 2%nat] (PEpoch 4).

Definition closure_positions (max_depth : nat) : option (list nat) :=
  match causal_closure_with_horizon diamond.2 (option_list (diamond.1 !! 3%nat)) max_depth with
  | Some (Ok ids) => Some (map (fun id => list_sum (map (fun i => if bool_decide (diamond.1 !! i = Some id) then i else O) (seq 0 4))) ids)
  | _ => None
  end.

(** The bounded closure is not complete: the walk marks an entry at the depth of the first path to it and ignores a
    shorter one, so entry 0, two links above entry 3, is missing at depth 2 and there at depth 3. *)
Theorem horizon_closure_incomplete :
  closure_positions 2 = Some [1%nat; 2%nat; 3%nat] /\ closure_positions 3 = Some [0%nat; 1%nat; 2%nat; 3%nat].
Proof. split; vm_compute; reflexivity. Qed.

Lemma horizon_closure_bounded_witness : exists st ids, journal_reach roll_digest st
  /\ causal_closure_with_horizon st [eid second_entry] 1 = Some (Ok ids) /\ In (eid second_entry) ids.
Proof.
  destruct sample_reach as (st & Hr & He). exists st.
  pose proof (horizon_closure_bounded roll_digest st [eid second_entry] 1 Hr) as H.
  destruct (causal_closure_with_horizon st [eid second_entry] 1) as [[ids|x]|] eqn:E; [| |contradiction].
  - exists ids. split; [exact Hr|]. split; [reflexivity|]. apply H. left.
  - exfalso. destruct H as (t & _ & Ht & Hn). apply list_elem_of_singleton in Ht as ->.
    destruct (journal_reach_represents _ _ Hr) as (log & _ & R). rewrite (r_lookup _ _ R) in Hn.
    assert (H2 : In second_entry log) by (rewrite <- (represents_entries _ _ R), He; right; left; reflexivity).
    rewrite (log_get_self log _ (r_nodup _ _ R) H2) in Hn. discriminate Hn.
Defined.
