(* ===== verification/Support.v ===== *)
(** * Support expressions

    [ledger-explorer/src/support.rs]: what must hold for an outcome, as joint requirements and alternatives, the hard
    clauses a fault cut must break, and the provider that pins an expression in cache keys.

    A set of events breaks every hard clause exactly when the support is never satisfied without them. *)

From stdpp Require Import gmap.
From S2P Require Import Prelude Machine Limits Entry OrdMap Clock Dag Order OSet Verdict Hitting.

Open Scope Z_scope.

Inductive SupportError : Type := EmptyAllOf | EmptyAnyOf.

Inductive SupportOutcome : Type := Satisfied | NotSatisfied | Unknown.

#[global] Instance SupportOutcome_eq_dec : EqDecision SupportOutcome.
Proof. solve_decision. Defined.

Inductive SupportExpr : Type :=
| AllOf (ids : HashSet_)
| AnyOf (branches : list SupportExpr)
| Opaque_.

Definition all_of (ids : HashSet_) : result SupportError SupportExpr :=
  match ids with [] => Err EmptyAllOf | _ :: _ => Ok (AllOf ids) end.

Definition any_of (branches : list SupportExpr) : result SupportError SupportExpr :=
  match branches with [] => Err EmptyAnyOf | _ :: _ => Ok (AnyOf branches) end.

Fixpoint is_strong (e : SupportExpr) : bool :=
  match e with
  | AllOf _ => true
  | AnyOf branches => forallb is_strong branches
  | Opaque_ => false
  end.

(** The loop over the branches of [AnyOf]: the first satisfied one decides. *)
Fixpoint any_outcome (outcomes : list SupportOutcome) (saw_unknown : bool) : SupportOutcome :=
  match outcomes with
  | [] => if saw_unknown then Unknown else NotSatisfied
  | Satisfied :: _ => Satisfied
  | Unknown :: outcomes => any_outcome outcomes true
  | NotSatisfied :: outcomes => any_outcome outcomes saw_unknown
  end.

(** [eval_depth] over the entries that are present. *)
Fixpoint eval_depth (present : EntryHash -> bool) (horizon : option nat) (depth : nat) (e : SupportExpr) : SupportOutcome :=
  if match horizon with Some limit => (limit <? depth)%nat | None => false end then Unknown
  else
    match e with
    | Opaque_ => Unknown
    | AllOf ids => if forallb present ids then Satisfied else NotSatisfied
    | AnyOf branches => any_outcome (map (eval_depth present horizon (S depth)) branches) false
    end.

Definition in_journal (j : JournalState) (id : EntryHash) : bool :=
  match state_lookup j id with Some _ => true | None => false end.

Definition evaluate_with_horizon (e : SupportExpr) (j : JournalState) (horizon : option nat) : SupportOutcome :=
  eval_depth (in_journal j) horizon 0 e.

Definition evaluate (e : SupportExpr) (j : JournalState) : SupportOutcome := evaluate_with_horizon e j None.

(** [encode_into]. *)
Fixpoint support_bytes (e : SupportExpr) : list byte :=
  match e with
  | AllOf ids => x00 :: concat ids
  | AnyOf branches => x01 :: concat (map support_bytes branches)
  | Opaque_ => [x02]
  end.

Section Provider.
Variable blake3 : list byte -> list byte.

Definition support_expr_digest (e : SupportExpr) : EntryHash := blake3 (support_bytes e).

Record StaticSupportProvider : Type := mkProvider {
  provider_version : Z; provider_expression : SupportExpr; provider_digest : EntryHash }.

Definition provider_new (version : Z) (expression : SupportExpr) : StaticSupportProvider :=
  mkProvider version expression (blake3 (to_le_bytes 8 version ++ support_expr_digest expression)).
End Provider.

Definition entry_ids_by (j : JournalState) (k : EntryKind) (a : Z) : HashSet_ :=
  scollect cmp_hash (map eid (List.filter (fun e => bool_decide (kind (edata e) = k) && (actor (edata e) =? a)%Z) (entries j))).

Definition all_of_ids (ids : list EntryHash) : SupportExpr :=
  match all_of (scollect cmp_hash ids) with Ok e => e | Err _ => Opaque_ end.

Fixpoint hard_clauses_from_support (e : SupportExpr) : list (list EntryHash) :=
  match e with
  | AllOf ids => match ids with [] => [] | _ :: _ => [ids] end
  | AnyOf branches => concat (map hard_clauses_from_support branches)
  | Opaque_ => []
  end.

(** The branches [support_from_paths] collects: one [AllOf] per path that has an event. *)
Definition path_branches (paths : list (list EntryHash)) : list SupportExpr :=
  omap (fun path => result_ok (all_of (scollect cmp_hash path))) paths.

Definition support_from_paths (paths : list (list EntryHash)) (truncated : bool) : SupportExpr :=
  let branches := path_branches paths ++ (if truncated then [Opaque_] else []) in
  match branches with
  | [] => Opaque_
  | b :: more =>
      if (length branches =? 1)%nat && negb truncated then b
      else match any_of branches with Ok e => e | Err _ => Opaque_ end
  end.

(** ** Induction over branches *)

Section SupportInd.
Variable P : SupportExpr -> Prop.
Hypothesis HAll : forall ids, P (AllOf ids).
Hypothesis HAny : forall branches, (forall b, In b branches -> P b) -> P (AnyOf branches).
Hypothesis HOpaque : P Opaque_.

Fixpoint support_ind (e : SupportExpr) : P e :=
  match e with
  | AllOf ids => HAll ids
  | AnyOf branches =>
      HAny branches ((fix go l : forall b, In b l -> P b :=
        match l with
        | [] => fun b H => match H with end
        | x :: l => fun b H => match H with or_introl E => eq_ind x P (support_ind x) b E | or_intror H => go l b H end
        end) branches)
  | Opaque_ => HOpaque
  end.
End SupportInd.

(** ** What the clauses say *)

(** No joint requirement is empty: what [all_of] guarantees. *)
Fixpoint support_wf (e : SupportExpr) : bool :=
  match e with
  | AllOf ids => match ids with [] => false | _ :: _ => true end
  | AnyOf branches => forallb support_wf branches
  | Opaque_ => true
  end.

Lemma any_outcome_satisfied l saw : any_outcome l saw = Satisfied <-> In Satisfied l.
Proof.
  revert saw. induction l as [|[| |] l IH]; intros saw; cbn; [destruct saw; intuition congruence | intuition | rewrite IH; intuition congruence..].
Qed.

Lemma any_outcome_unknown l saw : any_outcome l saw = Unknown <-> ~ In Satisfied l /\ (saw = true \/ In Unknown l).
Proof.
  revert saw. induction l as [|[| |] l IH]; intros saw; cbn.
  - destruct saw; intuition congruence.
  - intuition congruence.
  - rewrite IH. intuition congruence.
  - rewrite IH. intuition congruence.
Qed.

(** The support holds for the entries present exactly when some hard clause is present as a whole. *)
Lemma eval_clauses present e d : support_wf e = true ->
  eval_depth present None d e = Satisfied <-> exists c, In c (hard_clauses_from_support e) /\ forall x, In x c -> present x = true.
Proof.
  revert d. induction e as [ids|branches IH|] using support_ind; intros d Hwf.
  - cbn in *. destruct ids as [|i ids]; [done|]. destruct (forallb present (i :: ids)) eqn:E.
    + split; [|done]. intros _. exists (i :: ids). rewrite forallb_forall in E. split; [left; done | exact E].
    + split; [done|]. intros (c & [<-|[]] & Hc). assert (forallb present (i :: ids) = true); [|congruence].
      apply forallb_forall, Hc.
  - cbn [support_wf] in Hwf. rewrite forallb_forall in Hwf. cbn. rewrite any_outcome_satisfied, in_map_iff.
    setoid_rewrite in_concat. setoid_rewrite in_map_iff. split.
    + intros (b & Hb & Hin). apply (IH b Hin) in Hb as (c & Hc & Hp); [|auto]. exists c. split; [|exact Hp]. eauto.
    + intros (c & (l & (b & <- & Hin) & Hc) & Hp). exists b. split; [|done]. apply (IH b Hin); [auto|]. eauto.
  - cbn. split; [done|]. intros (c & [] & _).
Qed.

Lemma eval_strong present e d : is_strong e = true -> eval_depth present None d e <> Unknown.
Proof.
  revert d. induction e as [ids|branches IH|] using support_ind; intros d Hs; cbn in *.
  - destruct (forallb _ _); done.
  - rewrite any_outcome_unknown, !in_map_iff. intros [_ [?|(b & Hb & Hin)]]; [done|]. rewrite forallb_forall in Hs.
    exact (IH b Hin (S d) (Hs b Hin) Hb).
  - done.
Qed.

(** Removing events from what is present. *)
Definition without (cut : list EntryHash) (id : EntryHash) : bool := not_in cut id.

(** Fault cuts and support agree: a set of events breaks every hard clause exactly when the support is not satisfied
    by any journal that lacks these events; for a strong support it then evaluates to a definite no. *)
Theorem cut_breaks_support e cut : support_wf e = true ->
  (hits cut (hard_clauses_from_support e) <->
   forall present, (forall x, In x cut -> present x = false) -> eval_depth present None 0 e <> Satisfied)
  /\ (is_strong e = true -> hits cut (hard_clauses_from_support e) -> eval_depth (without cut) None 0 e = NotSatisfied).
Proof.
  intros Hwf. assert (Hw : forall x, In x cut -> without cut x = false).
  { intros x Hx. unfold without, not_in. rewrite bool_decide_true; [done | apply list_elem_of_In, Hx]. }
  assert (H1 : hits cut (hard_clauses_from_support e) -> forall present, (forall x, In x cut -> present x = false) ->
    eval_depth present None 0 e <> Satisfied).
  { intros Hh present Hp Hs. destruct (proj1 (eval_clauses present e 0 Hwf) Hs) as (c & Hc & Hpc).
    destruct (Hh c Hc) as (x & Hx & Hxc). specialize (Hpc x Hxc). rewrite (Hp x Hx) in Hpc. done. }
  split; [split; [exact H1|]|].
  - intros H c Hc. destruct (existsb (fun x => hmem x cut) c) eqn:E.
    + apply existsb_exists in E as (x & Hx & Hd). rewrite smem_spec in Hd by apply _. eauto.
    + exfalso. apply (H (without cut) Hw). apply eval_clauses; [done|]. exists c. split; [done|]. intros x Hx.
      unfold without, not_in. rewrite bool_decide_false; [done|]. intros Hin%list_elem_of_In.
      assert (existsb (fun x => hmem x cut) c = true); [|congruence].
      apply existsb_exists. exists x. split; [done|]. apply (smem_spec cmp_hash), Hin.
  - intros Hs Hh. specialize (H1 Hh (without cut) Hw). pose proof (eval_strong (without cut) e 0 Hs).
    destruct (eval_depth _ _ _ _); done.
Qed.

Lemma cut_breaks_support_witness :
  hits [[x01]] (hard_clauses_from_support (AnyOf [AllOf [[x01]; [x02]]; AllOf [[x01]]])) /\
  eval_depth (without [[x01]]) None 0 (AnyOf [AllOf [[x01]; [x02]]; AllOf [[x01]]]) = NotSatisfied.
Proof.
  destruct (cut_breaks_support (AnyOf [AllOf [[x01]; [x02]]; AllOf [[x01]]]) [[x01]] eq_refl) as [H1 H2].
  assert (Hh : hits [[x01]] (hard_clauses_from_support (AnyOf [AllOf [[x01]; [x02]]; AllOf [[x01]]]))).
  { apply H1. intros present Hp. cbn. rewrite Hp; [done | left; done]. }
  split; [exact Hh | apply H2; [reflexivity | exact Hh]].
Defined.

(** ** Support from paths *)

(** The clauses of the paths that have an event. *)
Definition path_clauses (paths : list (list EntryHash)) : list (list EntryHash) :=
  map (scollect cmp_hash) (List.filter (fun p => match p with [] => false | _ :: _ => true end) paths).

Lemma scollect_nil p : scollect cmp_hash p = [] <-> p = [].
Proof.
  split; [|intros ->; done]. intros H. destruct p as [|x p]; [done|].
  assert (Hx : In x (scollect cmp_hash (x :: p))) by (apply (scollect_In cmp_hash); left; done). rewrite H in Hx. done.
Qed.

Lemma path_branches_clauses paths : path_branches paths = map AllOf (path_clauses paths).
Proof.
  unfold path_branches, path_clauses. induction paths as [|p paths IH]; [done|]. cbn [omap list_omap List.filter map].
  destruct p as [|x p]; [exact IH|]. cbn [map]. destruct (scollect cmp_hash (x :: p)) as [|y s] eqn:E.
  - apply (proj1 (scollect_nil _)) in E. discriminate E.
  - cbn [all_of result_ok]. f_equal. exact IH.
Qed.

Lemma clauses_nonempty paths c : In c (path_clauses paths) -> c <> [].
Proof.
  unfold path_clauses. intros (p & <- & Hp)%in_map_iff. apply filter_In in Hp as [_ Hp].
  rewrite scollect_nil. destruct p; done.
Qed.

Lemma hard_clauses_branches l : (forall c, In c l -> c <> []) -> concat (map hard_clauses_from_support (map AllOf l)) = l.
Proof.
  induction l as [|c l IH]; intros H; [done|]. cbn [map concat hard_clauses_from_support].
  destruct c as [|x c]; [destruct (H []); [left|]; done|]. cbn [app]. f_equal. apply IH. intros d Hd. apply H. right. done.
Qed.

(** The hard clauses of walked paths are the event sets of the paths that have one, whether the walk was truncated or
    not: truncation does not reach the clauses. *)
Lemma support_path_clauses paths truncated : hard_clauses_from_support (support_from_paths paths truncated) = path_clauses paths.
Proof.
  unfold support_from_paths. rewrite path_branches_clauses. pose proof (clauses_nonempty paths) as Hne.
  pose proof (hard_clauses_branches (path_clauses paths) Hne) as Hb.
  destruct truncated.
  - destruct (path_clauses paths) as [|c l]; [done|]. cbn [map app negb]. rewrite andb_false_r. cbn [any_of].
    change (concat (map hard_clauses_from_support (map AllOf (c :: l) ++ [Opaque_])) = c :: l).
    rewrite map_app, concat_app, Hb. apply app_nil_r.
  - rewrite app_nil_r. destruct (path_clauses paths) as [|c l]; [done|]. cbn [map negb]. rewrite andb_true_r.
    destruct (_ =? 1)%nat eqn:E; [|exact Hb]. bool_hyps. cbn [length] in E. destruct l; [|done].
    cbn [map concat] in Hb. rewrite app_nil_r in Hb. exact Hb.
Qed.

Lemma support_paths_wf paths truncated : support_wf (support_from_paths paths truncated) = true.
Proof.
  unfold support_from_paths. rewrite path_branches_clauses. pose proof (clauses_nonempty paths) as Hne.
  assert (Hb : forallb support_wf (map AllOf (path_clauses paths) ++ if truncated then [Opaque_] else []) = true).
  { apply forallb_forall. intros e He. apply in_app_or in He as [(c & <- & Hc)%in_map_iff|He].
    - specialize (Hne c Hc). destruct c; done.
    - destruct truncated; [destruct He as [<-|[]]|]; done. }
  destruct (_ ++ _) as [|b more] eqn:E; [done|]. destruct (_ && _); [|exact Hb].
  cbn in Hb. apply andb_true_iff in Hb as [Hb _]. exact Hb.
Qed.

(** A support from paths is strong exactly when the walk was not truncated and some path has an event. *)
Lemma support_paths_strong paths truncated :
  is_strong (support_from_paths paths truncated) = negb truncated && match path_clauses paths with [] => false | _ => true end.
Proof.
  unfold support_from_paths. rewrite path_branches_clauses. destruct (path_clauses paths) as [|c l]; [destruct truncated; done|].
  assert (Hs : forall k, forallb is_strong (map AllOf k) = true) by (induction k; done).
  destruct truncated; cbn [map app negb].
  - rewrite andb_false_r. cbn [any_of]. change (forallb is_strong (map AllOf (c :: l) ++ [Opaque_]) = false).
    rewrite forallb_app, Hs. done.
  - rewrite app_nil_r, andb_true_r. destruct (_ =? 1)%nat; [done|]. apply (Hs (c :: l)).
Qed.

(** The canonical bytes do not separate nested alternatives. *)
Lemma support_bytes_collide a b : support_bytes (AnyOf [AnyOf [a]; b]) = support_bytes (AnyOf [AnyOf [a; b]]).
Proof. cbn. rewrite !app_nil_r. done. Qed.
