(* ===== verification/SolverCache.v ===== *)
(** * Content-addressed solver caches

    [ledger-explorer/src/solver_cache.rs] and the state key [fingerprint] of [solver_state.rs]: clauses, the cache they
    are kept in and the bytes its keys hash.  BLAKE3 is a parameter. *)

From stdpp Require Import gmap.
From S2P Require Import Prelude Machine Limits Order OSet Verdict Hitting.

Open Scope Z_scope.

Definition BUILTIN : byte := x00.
Definition CADICAL : byte := x01.

Record WeightedClause : Type := mkClause { literals : list EntryHash; weight : Z }.

#[global] Instance WeightedClause_eq_dec : EqDecision WeightedClause.
Proof. solve_decision. Defined.

(** [ClauseCache::inner]. *)
Abbreviation ClauseCache := (gmap (list byte) (list WeightedClause)).

Definition cmp_clause (a b : WeightedClause) : comparison :=
  then_cmp (cmp_list cmp_hash (literals a) (literals b)) (weight a ?= weight b)%Z.

(** [Option<u64>] and [Option<EntryHash>] behind a presence byte. *)
Definition opt_u64 (v : option Z) : list byte := match v with Some v => x01 :: to_le_bytes 8 v | None => [x00] end.
Definition opt_hash (h : option EntryHash) : list byte := match h with Some h => x01 :: h | None => [x00] end.

Definition config_fields (config : SolverConfig) :=
  (max_horizon config, oracle_version config, input_class config, max_faults config, run_config_hash config,
   support_version config, support_digest config).

(** What [compute_key] feeds the hasher. *)
Definition key_bytes (closure : EntryHash) (engine_tag : byte) (config : SolverConfig) : list byte :=
  closure ++ [xfe]
  ++ match max_horizon config with Some h => to_le_bytes 8 (Z.of_nat h) | None => [xff; xff] end ++ [xfd]
  ++ opt_u64 (oracle_version config) ++ [xfc]
  ++ opt_u64 (input_class config) ++ [xfb]
  ++ opt_u64 (option_map Z.of_nat (max_faults config)) ++ [xfa]
  ++ [engine_tag] ++ [xf9]
  ++ opt_hash (run_config_hash config) ++ [xf8]
  ++ opt_u64 (support_version config) ++ [xf7]
  ++ opt_hash (support_digest config).

Definition engine_byte (e : SolverEngine) : byte :=
  match e with Builtin => BUILTIN | Cadical => CADICAL | Auto => xfe end.

Definition COST_MODEL_VERSION : byte := x01.

Definition FINGERPRINT_DOMAIN : list byte :=
  bytes_of_string "ldgr.solver_state.config.fingerprint.v2".

(** What [fingerprint] feeds the hasher. *)
Definition fingerprint_bytes (config : SolverConfig) (resolved_engine : SolverEngine) : list byte :=
  FINGERPRINT_DOMAIN ++ [x00] ++ [COST_MODEL_VERSION] ++ [x01]
  ++ match max_horizon config with Some v => x01 :: to_le_bytes 8 (Z.of_nat v) | None => [x00; xff; xff] end ++ [x02]
  ++ opt_u64 (oracle_version config) ++ [x03]
  ++ opt_u64 (input_class config) ++ [x04]
  ++ opt_u64 (option_map Z.of_nat (max_faults config)) ++ [x05]
  ++ [engine_byte resolved_engine] ++ [x06]
  ++ opt_hash (run_config_hash config) ++ [x07]
  ++ opt_u64 (support_version config) ++ [x08]
  ++ opt_hash (support_digest config).

Section Keys.
Variable blake3 : list byte -> list byte.

Definition closure_hash (sorted_ids : list EntryHash) : EntryHash := blake3 (concat (sort_by cmp_hash sorted_ids)).

Definition clauses_hash (clauses : list WeightedClause) : EntryHash :=
  let sorted := map (fun c => mkClause (sort_by cmp_hash (literals c)) (weight c)) clauses in
  blake3 (concat (map (fun c => to_le_bytes 8 (weight c) ++ concat (literals c) ++ [xff]) (sort_by cmp_clause sorted))).

Definition compute_key (closure : EntryHash) (engine_tag : byte) (config : SolverConfig) : EntryHash :=
  blake3 (key_bytes closure engine_tag config).

Definition fingerprint (config : SolverConfig) (resolved_engine : SolverEngine) : EntryHash :=
  blake3 (fingerprint_bytes config resolved_engine).
End Keys.

(** ** Keys separate *)

(** The widths of the fields. *)
Definition opt_all {A} (P : A -> Prop) (o : option A) : Prop := match o with Some a => P a | None => True end.
Definition digest_ok (h : EntryHash) : Prop := length h = 32%nat.

Record config_wf (c : SolverConfig) : Prop := {
  cw_horizon : opt_all (fun h => Z.of_nat h <= u64_max) (max_horizon c);
  cw_oracle : opt_all is_u64 (oracle_version c);
  cw_class : opt_all is_u64 (input_class c);
  cw_faults : opt_all (fun h => Z.of_nat h <= u64_max) (max_faults c);
  cw_run : opt_all digest_ok (run_config_hash c);
  cw_version : opt_all is_u64 (support_version c);
  cw_digest : opt_all digest_ok (support_digest c) }.

Lemma le8_inj a b : is_u64 a -> is_u64 b -> to_le_bytes 8 a = to_le_bytes 8 b -> a = b.
Proof.
  intros Ha Hb H. rewrite <- (from_to_le_bytes 8 a), <- (from_to_le_bytes 8 b), H; [done|..].
  all: change (256 ^ Z.of_nat 8) with (u64_max + 1); unfold is_u64 in *; lia.
Qed.

Lemma le8_app_inj a b x y : is_u64 a -> is_u64 b -> to_le_bytes 8 a ++ x = to_le_bytes 8 b ++ y -> a = b /\ x = y.
Proof.
  intros Ha Hb H. apply app_inj_1 in H as [H ->]; [|rewrite !length_to_le_bytes; done]. split; [|done]. apply le8_inj; done.
Qed.

Lemma opt_u64_app_inj a b x y : opt_all is_u64 a -> opt_all is_u64 b -> opt_u64 a ++ x = opt_u64 b ++ y -> a = b /\ x = y.
Proof.
  destruct a as [a|], b as [b|]; unfold opt_u64; cbn [opt_all]; intros Ha Hb H.
  - rewrite <- !app_comm_cons in H. apply (f_equal tail) in H. cbn [tail] in H.
    apply le8_app_inj in H as [-> ->]; done.
  - apply (f_equal head) in H. discriminate H.
  - apply (f_equal head) in H. discriminate H.
  - apply (f_equal tail) in H. cbn in H. done.
Qed.

Lemma opt_hash_app_inj a b x y : opt_all digest_ok a -> opt_all digest_ok b -> opt_hash a ++ x = opt_hash b ++ y -> a = b /\ x = y.
Proof.
  destruct a as [a|], b as [b|]; unfold opt_hash; cbn [opt_all]; intros Ha Hb H.
  - rewrite <- !app_comm_cons in H. apply (f_equal tail) in H. cbn [tail] in H.
    apply app_inj_1 in H as [-> ->]; [done | congruence].
  - apply (f_equal head) in H. discriminate H.
  - apply (f_equal head) in H. discriminate H.
  - apply (f_equal tail) in H. cbn in H. done.
Qed.

Lemma opt_u64_length v : exists k, length (opt_u64 v) = (1 + 8 * k)%nat.
Proof. destruct v; [exists 1%nat | exists O]; cbn [opt_u64 length]; rewrite ?length_to_le_bytes; done. Qed.

Lemma opt_hash_length h : opt_all digest_ok h -> exists k, length (opt_hash h) = (1 + 8 * k)%nat.
Proof. destruct h as [h|]; intros H; [exists 4%nat; cbn in *; rewrite H; done | exists O; done]. Qed.

Lemma opt_nat_u64 o : opt_all (fun h => Z.of_nat h <= u64_max) o -> opt_all is_u64 (option_map Z.of_nat o).
Proof. destruct o; cbn; unfold is_u64; lia. Qed.

Lemma option_map_of_nat_inj a b : option_map Z.of_nat a = option_map Z.of_nat b -> a = b.
Proof. destruct a, b; cbn; intros; simplify_eq; [f_equal; lia | done]. Qed.

(** Drop the separator both sides start with. *)
Lemma sep_inj {A} (a : A) x y : [a] ++ x = [a] ++ y -> x = y.
Proof. intros H. injection H as ->. done. Qed.

(** The fields after the horizon, separated by [s1] to [s6]. *)
Definition field_bytes (s1 s2 s3 s4 s5 s6 : byte) (tag : byte) (c : SolverConfig) : list byte :=
  opt_u64 (oracle_version c) ++ [s1] ++ opt_u64 (input_class c) ++ [s2]
  ++ opt_u64 (option_map Z.of_nat (max_faults c)) ++ [s3] ++ [tag] ++ [s4]
  ++ opt_hash (run_config_hash c) ++ [s5] ++ opt_u64 (support_version c) ++ [s6] ++ opt_hash (support_digest c).

Lemma field_bytes_inj s1 s2 s3 s4 s5 s6 t1 t2 c1 c2 : config_wf c1 -> config_wf c2 ->
  field_bytes s1 s2 s3 s4 s5 s6 t1 c1 = field_bytes s1 s2 s3 s4 s5 s6 t2 c2 ->
  t1 = t2 /\ oracle_version c1 = oracle_version c2 /\ input_class c1 = input_class c2 /\ max_faults c1 = max_faults c2
  /\ run_config_hash c1 = run_config_hash c2 /\ support_version c1 = support_version c2 /\ support_digest c1 = support_digest c2.
Proof.
  intros [_ O1 I1 F1 R1 V1 D1] [_ O2 I2 F2 R2 V2 D2] H. unfold field_bytes in H.
  apply opt_u64_app_inj in H as [-> H%sep_inj]; [|done..].
  apply opt_u64_app_inj in H as [-> H%sep_inj]; [|done..].
  apply opt_u64_app_inj in H as [Hf%option_map_of_nat_inj H%sep_inj]; [|apply opt_nat_u64; done..].
  cbn [app] in H. injection H as -> H.
  apply opt_hash_app_inj in H as [-> H%sep_inj]; [|done..].
  apply opt_u64_app_inj in H as [-> H%sep_inj]; [|done..].
  rewrite <- (app_nil_r (opt_hash (support_digest c1))), <- (app_nil_r (opt_hash (support_digest c2))) in H.
  apply opt_hash_app_inj in H as [-> _]; [|done..]. done.
Qed.

Lemma field_bytes_length s1 s2 s3 s4 s5 s6 t c : config_wf c -> exists k, length (field_bytes s1 s2 s3 s4 s5 s6 t c) = (13 + 8 * k)%nat.
Proof.
  intros [_ O I F R V D]. unfold field_bytes. rewrite !length_app. cbn [length].
  destruct (opt_u64_length (oracle_version c)) as [k1 ->], (opt_u64_length (input_class c)) as [k2 ->],
    (opt_u64_length (option_map Z.of_nat (max_faults c))) as [k3 ->], (opt_hash_length _ R) as [k4 ->],
    (opt_u64_length (support_version c)) as [k5 ->], (opt_hash_length _ D) as [k6 ->].
  exists (k1 + k2 + k3 + k4 + k5 + k6)%nat. lia.
Qed.

(** The hashed bytes determine the closure, the tag and every field but the requested engine: a horizon has eight
    bytes and its absence two, which the length of the whole tells apart. *)
Lemma key_bytes_inj h1 t1 c1 h2 t2 c2 : digest_ok h1 -> digest_ok h2 -> config_wf c1 -> config_wf c2 ->
  key_bytes h1 t1 c1 = key_bytes h2 t2 c2 -> h1 = h2 /\ t1 = t2 /\ config_fields c1 = config_fields c2.
Proof.
  intros Hh1 Hh2 W1 W2 H. unfold key_bytes in H. apply app_inj_1 in H as [-> H%sep_inj]; [|congruence].
  fold (field_bytes xfc xfb xfa xf9 xf8 xf7 t1 c1) (field_bytes xfc xfb xfa xf9 xf8 xf7 t2 c2) in H.
  destruct (field_bytes_length xfc xfb xfa xf9 xf8 xf7 t1 c1 W1) as [k1 L1], (field_bytes_length xfc xfb xfa xf9 xf8 xf7 t2 c2 W2) as [k2 L2].
  assert (Hm : max_horizon c1 = max_horizon c2 /\ field_bytes xfc xfb xfa xf9 xf8 xf7 t1 c1 = field_bytes xfc xfb xfa xf9 xf8 xf7 t2 c2).
  { pose proof (f_equal length H) as Hl. rewrite !length_app in Hl. cbn [length] in Hl. rewrite L1, L2 in Hl.
    pose proof (cw_horizon _ W1) as B1. pose proof (cw_horizon _ W2) as B2.
    destruct (max_horizon c1) as [m1|], (max_horizon c2) as [m2|]; rewrite ?length_to_le_bytes in Hl; cbn [length] in Hl; [|lia..|].
    - cbn in B1, B2. apply le8_app_inj in H as [Hm H%sep_inj]; [|unfold is_u64; lia..]. split; [f_equal; lia | exact H].
    - apply (app_inv_head [xff; xff]) in H. apply sep_inj in H. done. }
  destruct Hm as [Hm Hf]. apply field_bytes_inj in Hf as (-> & E1 & E2 & E3 & E4 & E5 & E6); [|done..].
  unfold config_fields. rewrite Hm, E1, E2, E3, E4, E5, E6. done.
Qed.

Lemma fingerprint_bytes_inj c1 e1 c2 e2 : config_wf c1 -> config_wf c2 ->
  fingerprint_bytes c1 e1 = fingerprint_bytes c2 e2 -> e1 = e2 /\ config_fields c1 = config_fields c2.
Proof.
  intros W1 W2 H. unfold fingerprint_bytes in H. apply app_inv_head in H. do 3 apply sep_inj in H.
  fold (field_bytes x03 x04 x05 x06 x07 x08 (engine_byte e1) c1) (field_bytes x03 x04 x05 x06 x07 x08 (engine_byte e2) c2) in H.
  assert (Hm : max_horizon c1 = max_horizon c2 /\
    field_bytes x03 x04 x05 x06 x07 x08 (engine_byte e1) c1 = field_bytes x03 x04 x05 x06 x07 x08 (engine_byte e2) c2).
  { pose proof (cw_horizon _ W1) as B1. pose proof (cw_horizon _ W2) as B2.
    destruct (max_horizon c1) as [m1|], (max_horizon c2) as [m2|].
    - rewrite <- !app_comm_cons in H. apply (f_equal tail) in H. cbn [tail] in H. cbn in B1, B2.
      apply le8_app_inj in H as [Hm H%sep_inj]; [|unfold is_u64; lia..]. split; [f_equal; lia | exact H].
    - apply (f_equal head) in H. discriminate H.
    - apply (f_equal head) in H. discriminate H.
    - apply (app_inv_head [x00; xff; xff]) in H. apply sep_inj in H. done. }
  destruct Hm as [Hm Hf]. apply field_bytes_inj in Hf as (He & E1 & E2 & E3 & E4 & E5 & E6); [|done..].
  split; [destruct e1, e2; done|]. unfold config_fields. rewrite Hm, E1, E2, E3, E4, E5, E6. done.
Qed.

(** Solver caches never mix.  Two cache keys that are equal were computed for the same closure hash, the same engine
    tag and the same configuration (the requested engine apart, which the tag stands for), or they exhibit two inputs
    with the same BLAKE3 digest; the same holds of the state key of persisted artifacts. *)
Theorem cache_keys_separate blake3 h1 t1 c1 h2 t2 c2 e1 e2 :
  digest_ok h1 -> digest_ok h2 -> config_wf c1 -> config_wf c2 ->
  (compute_key blake3 h1 t1 c1 = compute_key blake3 h2 t2 c2 ->
   (h1 = h2 /\ t1 = t2 /\ config_fields c1 = config_fields c2) \/ exists x y, x <> y /\ blake3 x = blake3 y) /\
  (fingerprint blake3 c1 e1 = fingerprint blake3 c2 e2 ->
   (e1 = e2 /\ config_fields c1 = config_fields c2) \/ exists x y, x <> y /\ blake3 x = blake3 y).
Proof.
  intros H1 H2 W1 W2. unfold compute_key, fingerprint. split; intros H.
  - destruct (decide (key_bytes h1 t1 c1 = key_bytes h2 t2 c2)) as [E|]; [left; apply key_bytes_inj; done | eauto].
  - destruct (decide (fingerprint_bytes c1 e1 = fingerprint_bytes c2 e2)) as [E|]; [left; apply fingerprint_bytes_inj; done | eauto].
Qed.

Lemma cache_keys_separate_witness :
  let c := mkSolverConfig (Some 64%nat) None (Some 3) (Some 2%nat) Auto None (Some 1) (Some (repeat x05 32)) in
  config_wf c /\ (compute_key (fun b => b) (repeat x01 32) BUILTIN c = compute_key (fun b => b) (repeat x01 32) BUILTIN c ->
    (repeat x01 32 = repeat x01 32 /\ BUILTIN = BUILTIN /\ config_fields c = config_fields c) \/ exists x y, x <> y /\ (fun b : list byte => b) x = y).
Proof.
  assert (W : config_wf (mkSolverConfig (Some 64%nat) None (Some 3) (Some 2%nat) Auto None (Some 1) (Some (repeat x05 32)))).
  { split; cbn; unfold is_u64, u64_max, digest_ok; try reflexivity; lia. }
  split; [exact W|].
  exact (proj1 (cache_keys_separate (fun b => b) (repeat x01 32) BUILTIN _ (repeat x01 32) BUILTIN _ Builtin Builtin
    eq_refl eq_refl W W)).
Defined.

(** The closure hash of witnesses does not depend on their order, nor the clause hash on the order of clauses and literals. *)
Lemma closure_hash_perm blake3 l k : l ≡ₚ k -> closure_hash blake3 l = closure_hash blake3 k.
Proof. intros H. unfold closure_hash. rewrite (sort_by_unique cmp_hash l k H). done. Qed.
