(* ===== verification/Lineage.v ===== *)
(** * Lineage of a verdict

    [ledger-explorer/src/lineage.rs]: the walks from the witnesses of a verdict to the roots of the journal, the cached
    index of derivation paths and its refresh.  The unbounded walk is an explicit stack of frames under a node budget;
    it recurses on the budget and, once that is used up, on the stack. *)

From stdpp Require Import gmap.
From S2P Require Import Prelude Machine Limits Entry OrdMap Order Clock Dag Causal Slice OSet Verdict Hitting.
From S2P Require Import Hitting Support SolverCache.

Open Scope Z_scope.

(** What a walk has gathered. *)
Record Walk : Type := mkWalk { w_paths : list (list EntryHash); w_closure : gset (list byte); w_truncated : bool }.

Definition walk_new : Walk := mkWalk [] ∅ false.

(** [if !current_path.is_empty() { paths.push(current_path.clone()) }]. *)
Definition push_path (current_path : list EntryHash) (w : Walk) : Walk :=
  match current_path with
  | [] => w
  | _ :: _ => mkWalk (w_paths w ++ [current_path]) (w_closure w) (w_truncated w)
  end.

Definition truncate_walk (w : Walk) : Walk := mkWalk (w_paths w) (w_closure w) true.
Definition visit_entry (id : EntryHash) (w : Walk) : Walk := mkWalk (w_paths w) ({[id]} ∪ w_closure w) (w_truncated w).

Definition extend_path (current_path : list EntryHash) (id : EntryHash) (e : JEntry) : list EntryHash :=
  if is_faultable (kind (edata e)) then current_path ++ [id] else current_path.

(** [collect_bounded_hash] with [remaining = max_depth + 1 - depth]. *)
Fixpoint collect_bounded_hash (get : EntryHash -> option JEntry) (remaining : nat) (current : EntryHash)
    (current_path : list EntryHash) (w : Walk) : Walk :=
  match remaining with
  | O => push_path current_path (truncate_walk w)
  | S remaining =>
      match get current with
      | None => w
      | Some entry =>
          let w := visit_entry current w in
          let current_path := extend_path current_path current entry in
          match parents (edata entry) with
          | [] => push_path current_path w
          | ps => foldl (fun w parent => collect_bounded_hash get remaining parent current_path w) w ps
          end
      end
  end.

Definition LINEAGE_WALK_NODE_BUDGET : nat := 1000 * 1000.

Inductive Frame_ : Type :=
| Enter (id : EntryHash)
| Exit (pushed : bool).

(** The loop of [collect_hash]; the top of the stack is the head of the list. *)
Definition collect_hash_loop (get : EntryHash -> option JEntry) : nat -> list Frame_ -> list EntryHash -> Walk -> Walk :=
  fix outer (budget : nat) : list Frame_ -> list EntryHash -> Walk -> Walk :=
    fix inner (stack : list Frame_) (current_path : list EntryHash) (w : Walk) {struct stack} : Walk :=
      match stack with
      | [] => w
      | Exit pushed :: stack => inner stack (if pushed then removelast current_path else current_path) w
      | Enter current :: stack =>
          match budget with
          | O => inner stack current_path (push_path current_path (truncate_walk w))
          | S budget =>
              match get current with
              | None => outer budget stack current_path w
              | Some entry =>
                  let w := visit_entry current w in
                  let pushed := is_faultable (kind (edata entry)) in
                  let current_path := extend_path current_path current entry in
                  match parents (edata entry) with
                  | [] => outer budget (Exit pushed :: stack) current_path (push_path current_path w)
                  | ps => outer budget (rev (map Enter ps) ++ Exit pushed :: stack) current_path w
                  end
              end
          end
      end.

Definition collect_hash (get : EntryHash -> option JEntry) (start : EntryHash) (w : Walk) : Walk :=
  collect_hash_loop get LINEAGE_WALK_NODE_BUDGET [Enter start] [] w.

Definition walk_witness (get : EntryHash -> option JEntry) (config : SolverConfig) (w : Walk) (witness : EntryHash) : Walk :=
  match max_horizon config with
  | Some h => collect_bounded_hash get (S h) witness [] w
  | None => collect_hash get witness w
  end.

(** [collect_lineage]: closure, paths and the number of entries walked. *)
Definition collect_lineage (j : JournalState) (witnesses : list EntryHash) (config : SolverConfig) :
    gset (list byte) * list (list EntryHash) * nat :=
  let w := foldl (walk_witness (state_lookup j) config) walk_new witnesses in
  let bounded_cut := w_truncated w && match max_horizon config with Some _ => true | None => false end in
  let paths := hard_clauses_from_support (support_from_paths (w_paths w) bounded_cut) in
  let paths :=
    match paths with
    | [] =>
        let raw_paths := dedup (sort_by (cmp_list cmp_hash) (w_paths w)) in
        let filtered := List.filter (fun s => match s with [] => false | _ :: _ => true end) (map (scollect cmp_hash) raw_paths) in
        dedup (sort_by (cmp_list cmp_hash) filtered)
    | _ :: _ => dedup (sort_by (cmp_list cmp_hash) (map (sort_by cmp_hash) paths))
    end in
  (w_closure w, paths, size (w_closure w)).

Record LineageIndex : Type := mkLineage {
  closure : gset (list byte);
  lpaths : list (list EntryHash);
  journal_len_at_build : nat;
  config_fingerprint : EntryHash;
  walked_entries : nat }.

Section Index.
Variable blake3 : list byte -> list byte.

Definition lineage_build (j : JournalState) (witnesses : list EntryHash) (config : SolverConfig) (resolved : SolverEngine) :
    LineageIndex :=
  let '(closure, paths, walked) := collect_lineage j witnesses config in
  mkLineage closure paths (journal_len j) (fingerprint blake3 config resolved) walked.

(** The clauses of an explicit support that name faultable entries of the journal. *)
Definition faultable_in (j : JournalState) (h : EntryHash) : bool :=
  match state_lookup j h with Some e => is_faultable (kind (edata e)) | None => false end.

Definition support_clauses (j : JournalState) (support : SupportExpr) : list (list EntryHash) :=
  map (sort_by cmp_hash)
    (List.filter (fun c => match c with [] => false | _ :: _ => true end)
      (map (List.filter (faultable_in j)) (hard_clauses_from_support support))).

Definition build_with_support (j : JournalState) (witnesses : list EntryHash) (config : SolverConfig)
    (resolved : SolverEngine) (support : SupportExpr) : LineageIndex :=
  let clauses := support_clauses j support in
  let closure : gset (list byte) := list_to_set (concat clauses) ∪ list_to_set witnesses in
  mkLineage closure (dedup (sort_by (cmp_list cmp_hash) clauses)) (journal_len j) (fingerprint blake3 config resolved)
    (size closure).

(** [refresh]: whether something was walked, and the index. *)
Definition refresh (l : LineageIndex) (j : JournalState) (witnesses : list EntryHash) (config : SolverConfig)
    (resolved : SolverEngine) : bool * LineageIndex :=
  let new_fp := fingerprint blake3 config resolved in
  if negb (bool_decide (new_fp = config_fingerprint l)) then
    let '(closure, paths, walked) := collect_lineage j witnesses config in
    (true, mkLineage closure paths (journal_len j) new_fp walked)
  else
    match List.filter (fun w => negb (bool_decide (w ∈ closure l))) witnesses with
    | [] => (false, mkLineage (closure l) (lpaths l) (journal_len j) (config_fingerprint l) 0)
    | new_witnesses =>
        let '(new_closure, new_paths, walked) := collect_lineage j new_witnesses config in
        (true, mkLineage (new_closure ∪ closure l) (dedup (sort_by (cmp_list cmp_hash) (lpaths l ++ new_paths)))
                 (journal_len j) new_fp walked)
    end.
End Index.

(** ** Lineage walks find exactly the derivation paths

    - The bounded and the unbounded walk gather the event sequences of the paths from an entry to the roots, cut at the
      horizon.
    - The index lists exactly the event sets of these paths.
    - A refreshed index also answers for the witnesses of earlier calls. *)

(** The event an entry contributes to a path through it. *)
Definition own (id : EntryHash) (e : JEntry) : list EntryHash := if is_faultable (kind (edata e)) then [id] else [].

(** One link further from the witness. *)
Definition closer (r : option nat) : option nat := option_map pred r.

(** The events on a path from an entry to a root, or to the entry where the horizon cuts it. *)
Inductive derives (get : EntryHash -> option JEntry) : option nat -> EntryHash -> list EntryHash -> Prop :=
| dv_cut id : derives get (Some O) id []
| dv_root r id e : r <> Some O -> get id = Some e -> parents (edata e) = [] -> derives get r id (own id e)
| dv_step r id e p q : r <> Some O -> get id = Some e -> In p (parents (edata e)) -> derives get (closer r) p q ->
    derives get r id (own id e ++ q).

(** The paths of a set of witnesses under a configuration. *)
Definition derivation (j : JournalState) (config : SolverConfig) (ws : list EntryHash) (p : list EntryHash) : Prop :=
  exists w, In w ws /\ derives (state_lookup j) (option_map S (max_horizon config)) w p.

Definition nonempty {A} (l : list (list A)) : list (list A) :=
  List.filter (fun p => match p with [] => false | _ :: _ => true end) l.

Lemma nonempty_app {A} (l k : list (list A)) : nonempty (l ++ k) = nonempty l ++ nonempty k.
Proof. apply List.filter_app. Qed.

Lemma nonempty_In {A} (l : list (list A)) p : In p (nonempty l) <-> In p l /\ p <> [].
Proof. unfold nonempty. rewrite filter_In. destruct p; intuition congruence. Qed.

Lemma extend_own cp id e : extend_path cp id e = cp ++ own id e.
Proof. unfold extend_path, own. destruct (is_faultable _); [done | rewrite app_nil_r; done]. Qed.

Lemma push_path_nonempty cp w : push_path cp w = mkWalk (w_paths w ++ nonempty [cp]) (w_closure w) (w_truncated w).
Proof. destruct cp, w; cbn; rewrite ?app_nil_r; done. Qed.

Lemma map_prefix {A} (cp o : list A) l : map (app cp) (map (app o) l) = map (app (cp ++ o)) l.
Proof. rewrite map_map. apply map_ext. intros q. apply app_assoc. Qed.

Section Walks.
Variable get : EntryHash -> option JEntry.

(** ** The bounded walk *)

Fixpoint bpaths (r : nat) (id : EntryHash) : list (list EntryHash) :=
  match r with
  | O => [[]]
  | S r =>
      match get id with
      | None => []
      | Some e => map (app (own id e)) (match parents (edata e) with [] => [[]] | ps => concat (map (bpaths r) ps) end)
      end
  end.

Lemma bpaths_derives r : forall id p, In p (bpaths r id) <-> derives get (Some r) id p.
Proof.
  induction r as [|r IH]; intros id p.
  - cbn. split; [intros [<-|[]]; constructor|]. intros H. inversion H; subst; auto; done.
  - cbn [bpaths]. destruct (get id) as [e|] eqn:E.
    + rewrite in_map_iff. split.
      * intros (q & <- & Hq). destruct (parents (edata e)) as [|p0 ps] eqn:Ep.
        -- destruct Hq as [<-|[]]. rewrite app_nil_r. by apply dv_root.
        -- rewrite <- Ep in Hq. apply in_concat in Hq as (l & Hl & Hq). apply in_map_iff in Hl as (p' & <- & Hp').
           eapply dv_step; [done | done | exact Hp' |]. apply IH, Hq.
      * intros H. inversion H as [|? ? e' _ He Hp|? ? e' p' q _ He Hp Hd]; subst; rewrite E in He; injection He as <-.
        -- rewrite Hp. exists []. rewrite app_nil_r. split; [done | left; done].
        -- exists q. split; [done|]. destruct (parents (edata e)) as [|p0 ps] eqn:Ep; [done|].
           apply in_concat. exists (bpaths r p'). split; [apply in_map, Hp | apply IH, Hd].
    + split; [done|]. intros H. inversion H; congruence.
Qed.

Lemma bounded_paths r : forall id cp w,
  w_paths (collect_bounded_hash get r id cp w) = w_paths w ++ nonempty (map (app cp) (bpaths r id)).
Proof.
  induction r as [|r IH]; intros id cp w; cbn [collect_bounded_hash bpaths].
  - rewrite push_path_nonempty. cbn [w_paths truncate_walk map]. rewrite app_nil_r. done.
  - destruct (get id) as [e|]; [|cbn; rewrite app_nil_r; done]. rewrite map_prefix, extend_own.
    destruct (parents (edata e)) as [|p0 ps].
    + rewrite push_path_nonempty. cbn [w_paths visit_entry map]. rewrite app_nil_r. done.
    + generalize (p0 :: ps) as l. set (c := cp ++ own id e). clearbody c.
      assert (Hf : forall l w, w_paths (foldl (fun w parent => collect_bounded_hash get r parent c w) w l)
        = w_paths w ++ nonempty (map (app c) (concat (map (bpaths r) l)))).
      { induction l as [|p l IHl]; intros w'; cbn [foldl map concat]; [rewrite app_nil_r; done|].
        rewrite IHl, IH, map_app, nonempty_app, app_assoc. done. }
      intros l. rewrite Hf. done.
Qed.

(** ** The unbounded walk *)

Variable rank : EntryHash -> nat.
Hypothesis Hrank : forall id e p, get id = Some e -> In p (parents (edata e)) -> (rank p < rank id)%nat.

Fixpoint upaths (n : nat) (id : EntryHash) : list (list EntryHash) :=
  match n with
  | O => []
  | S n =>
      match get id with
      | None => []
      | Some e => map (app (own id e)) (match parents (edata e) with [] => [[]] | ps => concat (map (upaths n) (rev ps)) end)
      end
  end.

(** The entries a walk visits, each as often as there are paths to it. *)
Fixpoint tree_nodes (n : nat) (id : EntryHash) : nat :=
  match n with
  | O => O
  | S n => S (match get id with None => O | Some e => list_sum (map (tree_nodes n) (rev (parents (edata e)))) end)
  end.

Fixpoint tree_closure (n : nat) (id : EntryHash) : gset (list byte) :=
  match n with
  | O => ∅
  | S n =>
      match get id with
      | None => ∅
      | Some e => ⋃ (map (tree_closure n) (rev (parents (edata e)))) ∪ {[id]}
      end
  end.

Lemma upaths_derives n : forall id p, (rank id < n)%nat -> In p (upaths n id) <-> derives get None id p.
Proof.
  induction n as [|n IH]; intros id p Hn; [lia|]. cbn [upaths]. destruct (get id) as [e|] eqn:E.
  - rewrite in_map_iff. split.
    + intros (q & <- & Hq). destruct (parents (edata e)) as [|p0 ps] eqn:Ep.
      * destruct Hq as [<-|[]]. rewrite app_nil_r. by apply dv_root.
      * rewrite <- Ep in Hq. apply in_concat in Hq as (l & Hl & Hq). apply in_map_iff in Hl as (p' & <- & Hp').
        apply in_rev in Hp'. eapply dv_step; [done | done | exact Hp' |]. pose proof (Hrank id e p' E Hp').
        apply IH; [lia | exact Hq].
    + intros H. inversion H as [|? ? e' _ He Hp|? ? e' p' q _ He Hp Hd]; subst; rewrite E in He; injection He as <-.
      * rewrite Hp. exists []. rewrite app_nil_r. split; [done | left; done].
      * exists q. split; [done|]. pose proof (Hrank id e p' E Hp). destruct (parents (edata e)) as [|p0 ps] eqn:Ep; [done|].
        apply in_concat. exists (upaths n p'). split; [apply in_map, in_rev; rewrite rev_involutive; exact Hp | apply IH; [lia | exact Hd]].
  - split; [done|]. intros H. inversion H; congruence.
Qed.

(** What the walk below one entry adds. *)
Definition walked (cp : list EntryHash) (n : nat) (id : EntryHash) (w : Walk) : Walk :=
  mkWalk (w_paths w ++ nonempty (map (app cp) (upaths n id))) (tree_closure n id ∪ w_closure w) (w_truncated w).

Definition walked_all (cp : list EntryHash) (n : nat) (ids : list EntryHash) (w : Walk) : Walk :=
  mkWalk (w_paths w ++ nonempty (map (app cp) (concat (map (upaths n) ids)))) (⋃ (map (tree_closure n) ids) ∪ w_closure w) (w_truncated w).

Lemma loop_exit b pushed stack cp w : collect_hash_loop get b (Exit pushed :: stack) cp w
  = collect_hash_loop get b stack (if pushed then removelast cp else cp) w.
Proof. destruct b; done. Qed.

Lemma loop_nil b cp w : collect_hash_loop get b [] cp w = w.
Proof. destruct b; done. Qed.

Lemma exit_own cp id e : (if is_faultable (kind (edata e)) then removelast (cp ++ own id e) else cp ++ own id e) = cp.
Proof. unfold own. destruct (is_faultable _); [apply removelast_last | apply app_nil_r]. Qed.

Lemma walked_all_cons cp n p ids w : walked_all cp n (p :: ids) w = walked_all cp n ids (walked cp n p w).
Proof.
  unfold walked_all, walked. cbn [map concat w_paths w_closure w_truncated]. rewrite map_app, nonempty_app, app_assoc. f_equal.
  cbn [union_list foldr]. set_solver.
Qed.

Lemma loop_enter n : forall id stack cp w b, (rank id < n)%nat -> (tree_nodes n id <= b)%nat ->
  collect_hash_loop get b (Enter id :: stack) cp w = collect_hash_loop get (b - tree_nodes n id) stack cp (walked cp n id w).
Proof.
  induction n as [|n IH]; intros id stack cp w b Hn Hb; [lia|].
  assert (Hall : forall ids stack cp w b, (forall p, In p ids -> (rank p < n)%nat) -> (list_sum (map (tree_nodes n) ids) <= b)%nat ->
    collect_hash_loop get b (map Enter ids ++ stack) cp w
    = collect_hash_loop get (b - list_sum (map (tree_nodes n) ids)) stack cp (walked_all cp n ids w)).
  { induction ids as [|p ids IHids]; intros stack' cp' w' b' Hr Hb'.
    - cbn. rewrite Nat.sub_0_r. f_equal. unfold walked_all. destruct w'. cbn. rewrite app_nil_r. f_equal. set_solver.
    - cbn [map app] in *. rewrite list_sum_cons in *. rewrite IH by (auto with lia || (apply Hr; left; done)).
      rewrite IHids; [|intros; apply Hr; right; done | lia]. rewrite walked_all_cons. f_equal. lia. }
  cbn [tree_nodes] in *. destruct b as [|b]; [lia|]. cbn [collect_hash_loop]. fold (collect_hash_loop get).
  unfold walked. cbn [upaths tree_closure]. destruct (get id) as [e|] eqn:E.
  - rewrite extend_own, map_prefix. destruct (parents (edata e)) as [|p0 ps] eqn:Ep.
    + cbn [rev map list_sum foldr]. rewrite loop_exit, exit_own, Nat.sub_succ, Nat.sub_0_r. f_equal.
      rewrite push_path_nonempty. cbn [w_paths visit_entry w_closure w_truncated map union_list foldr]. rewrite app_nil_r. f_equal. set_solver.
    + rewrite <- Ep in *. rewrite <- map_rev, Hall; [|intros p Hp%in_rev; pose proof (Hrank id e p E Hp); lia | lia].
      rewrite loop_exit, exit_own, Nat.sub_succ. f_equal. unfold walked_all. cbn [visit_entry w_paths w_closure w_truncated]. f_equal. set_solver.
  - rewrite Nat.sub_succ, Nat.sub_0_r. f_equal. destruct w. cbn. rewrite app_nil_r. f_equal. set_solver.
Qed.
End Walks.

(** ** Positions in a log rank its entries *)

Fixpoint lrank (log : list JEntry) (id : EntryHash) : nat :=
  match log with
  | [] => O
  | e :: log => if decide (eid e = id) then O else S (lrank log id)
  end.

Lemma lrank_in l k id : id ∈ map eid l -> lrank (l ++ k) id = lrank l id /\ (lrank l id < length l)%nat.
Proof.
  induction l as [|x l IH]; intros H; [set_solver|]. cbn [lrank app length map] in *. destruct (decide (eid x = id)); [lia|].
  apply elem_of_cons in H as [?|H]; [congruence|]. destruct (IH H). lia.
Qed.

Lemma lrank_out l x : eid x ∉ map eid l -> lrank (l ++ [x]) (eid x) = length l.
Proof.
  induction l as [|y l IH]; intros H; cbn [lrank app length map] in *; [rewrite decide_True; done|].
  destruct (decide (eid y = eid x)); [set_solver|]. rewrite IH; set_solver.
Qed.

Lemma lrank_bound l id : (lrank l id <= length l)%nat.
Proof. induction l as [|x l IH]; cbn; [lia|]. destruct (decide _); lia. Qed.

Lemma lrank_parent blake3 l : log_ok blake3 l -> forall id e p, log_get l id = Some e -> In p (parents (edata e)) ->
  (lrank l p < lrank l id)%nat.
Proof.
  induction 1 as [|l x Hl IH Hx Hf]; intros id e p He Hp; [done|]. rewrite log_get_app in He.
  pose proof (proj1 (log_get_None _ _) Hf) as Hnew.
  assert (Hin : forall p pe, log_get l p = Some pe -> p ∈ map eid l).
  { intros q qe [Hq <-]%log_get_In. apply list_elem_of_In, in_map, Hq. }
  destruct (log_get l id) as [e0|] eqn:E.
  - injection He as <-. destruct (ok_parent_in blake3 l e0 p Hl) as [pe Hpe]; [apply log_get_In in E; tauto | apply list_elem_of_In, Hp|].
    rewrite (proj1 (lrank_in l [x] p (Hin _ _ Hpe))), (proj1 (lrank_in l [x] id (Hin _ _ E))). eapply IH; eauto.
  - cbn in He. case_bool_decide as Hid; [|done]. subst id. injection He as <-.
    destruct (ok_parents _ _ _ Hx p) as [pe Hpe]; [apply list_elem_of_In, Hp|].
    destruct (lrank_in l [x] p (Hin _ _ Hpe)) as [-> Hlt]. rewrite lrank_out by done. exact Hlt.
Qed.

(** ** The index *)

(** The walk from every witness stays within the node budget. *)
Definition within_budget (j : JournalState) (config : SolverConfig) (ws : list EntryHash) : Prop :=
  max_horizon config = None ->
  forall w, In w ws -> (tree_nodes (state_lookup j) (S (length (entries j))) w <= LINEAGE_WALK_NODE_BUDGET)%nat.

Section Index.
Variables (blake3 : list byte -> list byte) (j : JournalState) (log : list JEntry).
Hypothesis R : represents j log.
Hypothesis Hok : log_ok blake3 log.

Lemma state_rank id e p : state_lookup j id = Some e -> In p (parents (edata e)) -> (lrank log p < lrank log id)%nat.
Proof. rewrite (r_lookup _ _ R). apply lrank_parent with blake3, Hok. Qed.

Lemma walk_witness_paths config w acc : within_budget j config [w] ->
  exists ps, w_paths (walk_witness (state_lookup j) config acc w) = w_paths acc ++ nonempty ps
  /\ forall p, In p ps <-> derives (state_lookup j) (option_map S (max_horizon config)) w p.
Proof.
  intros Hb. unfold walk_witness. destruct (max_horizon config) as [h|] eqn:Eh; cbn [option_map].
  - exists (bpaths (state_lookup j) (S h) w). rewrite bounded_paths. split; [|intros p; apply bpaths_derives].
    f_equal. f_equal. rewrite <- (map_id (bpaths _ _ _)) at 2. done.
  - exists (upaths (state_lookup j) (S (length (entries j))) w). 
    assert (Hl : (lrank log w < S (length (entries j)))%nat).
    { rewrite (represents_entries _ _ R). pose proof (lrank_bound log w). lia. }
    unfold collect_hash.
    rewrite (loop_enter _ (lrank log) state_rank (S (length (entries j)))); [|lia | apply Hb; [done | left; done]].
    rewrite loop_nil. cbn [walked w_paths]. split; [f_equal; f_equal; rewrite <- (map_id (upaths _ _ _)) at 2; done|].
    intros p. apply (upaths_derives _ (lrank log) state_rank). lia.
Qed.

Lemma walk_paths config ws : within_budget j config ws -> forall acc,
  exists ps, w_paths (foldl (walk_witness (state_lookup j) config) acc ws) = w_paths acc ++ nonempty ps
  /\ forall p, In p ps <-> derivation j config ws p.
Proof.
  induction ws as [|w ws IH]; intros Hb acc; cbn [foldl].
  - exists []. split; [cbn; rewrite app_nil_r; done|]. intros p. split; [done|]. intros (w & [] & _).
  - destruct (walk_witness_paths config w acc) as (ps & Hps & Hd).
    { intros Hh w' [<-|[]]. apply Hb; [done | left; done]. }
    destruct (IH (fun Hh w' Hw' => Hb Hh w' (or_intror Hw')) (walk_witness (state_lookup j) config acc w)) as (qs & Hqs & Hd').
    exists (ps ++ qs). rewrite Hqs, Hps, nonempty_app, app_assoc. split; [done|]. intros p. rewrite in_app_iff, Hd, Hd'.
    unfold derivation. split.
    + intros [H|(w' & Hw' & H)]; [exists w; split; [left|]; done | exists w'; split; [right|]; done].
    + intros (w' & [<-|Hw'] & H); [left; done | right; eauto].
Qed.

Lemma collect_lineage_paths config ws : within_budget j config ws ->
  oset (cmp_list cmp_hash) (collect_lineage j ws config).1.2 /\
  forall c, In c (collect_lineage j ws config).1.2 <->
    exists p, p <> [] /\ derivation j config ws p /\ c = scollect cmp_hash p.
Proof.
  intros Hb. unfold collect_lineage. destruct (walk_paths config ws Hb walk_new) as (ps & Hps & Hd).
  set (w := foldl _ _ _) in *. cbn [w_paths walk_new app] in Hps. cbn [fst snd]. rewrite support_path_clauses.
  assert (Hraw : forall c, In c (path_clauses (w_paths w)) <-> exists p, p <> [] /\ derivation j config ws p /\ c = scollect cmp_hash p).
  { intros c. unfold path_clauses. rewrite in_map_iff. fold (nonempty (w_paths w)). rewrite Hps. split.
    - intros (p & <- & Hp). apply nonempty_In in Hp as [Hp Hne]. apply nonempty_In in Hp as [Hp _]. exists p. rewrite <- Hd. done.
    - intros (p & Hne & Hp & ->). exists p. split; [done|]. rewrite !nonempty_In, Hd. done. }
  destruct (path_clauses (w_paths w)) as [|c0 l] eqn:El.
  - split; [apply sort_dedup_oset, _|]. intros c. rewrite dedup_In, sort_by_In, <- Hraw. split; [|done].
    intros (Hc & Hne)%nonempty_In. apply in_map_iff in Hc as (p & <- & Hp). rewrite dedup_In, sort_by_In in Hp.
    assert (Hin : In (scollect cmp_hash p) (path_clauses (w_paths w))); [|rewrite El in Hin; done].
    apply in_map, nonempty_In. split; [done|]. intros ->. done.
  - split; [apply sort_dedup_oset, _|]. intros c. rewrite dedup_In, sort_by_In, <- Hraw.
    assert (Hid : map (sort_by cmp_hash) (c0 :: l) = c0 :: l); [|rewrite Hid; done].
    apply map_id_in. intros x Hx. rewrite <- El in Hx. unfold path_clauses in Hx. apply in_map_iff in Hx as (p & <- & _).
    apply (sort_oset cmp_hash), scollect_oset, _.
Qed.
End Index.

(** The lineage index is exact: within the node budget of the unbounded walk, the paths of a fresh index are, in strictly
    ascending order, exactly the sets of faultable events on the paths from a witness to the roots of the journal, cut
    at the horizon when there is one. *)
Theorem lineage_exact blake3 j ws config resolved : journal_reach blake3 j -> Z.of_nat (length (entries j)) <= u64_max ->
  within_budget j config ws ->
  oset (cmp_list cmp_hash) (lpaths (lineage_build blake3 j ws config resolved)) /\
  forall c, In c (lpaths (lineage_build blake3 j ws config resolved)) <->
    exists p, p <> [] /\ derivation j config ws p /\ c = scollect cmp_hash p.
Proof.
  intros (log & Hl & R)%journal_reach_represents Hlen Hb. rewrite (represents_entries _ _ R) in Hlen.
  apply log_reach_ok in Hl; [|done]. pose proof (collect_lineage_paths blake3 j log R Hl config ws Hb) as H.
  unfold lineage_build. destruct (collect_lineage j ws config) as [[c p] n]. exact H.
Qed.
