(* ===== verification/HsSolver.v ===== *)
(** * The hitting-set solver

    [HittingSetSolver] of [ledger-explorer/src/solver/hitting_set.rs]: clause and hypothesis caches, the lineage kept
    across calls, and the three ways to solve (from a verdict, from an explicit support, incrementally from clauses).
    An operation returns its result and the solver it leaves. *)

From stdpp Require Import gmap.
From S2P Require Import Prelude Machine Limits Value Entry OrdMap Order Clock Dag Causal Slice OSet Verdict.
From S2P Require Import Hitting Support SolverCache Lineage.

Open Scope Z_scope.

Record HittingSetSolver : Type := mkSolver {
  s_cache : ClauseCache;
  s_hypotheses : gmap (list byte) (list FaultHypothesis);
  s_config : SolverConfig;
  s_lineage : option LineageIndex }.

Definition with_horizon (c : SolverConfig) (max_depth : nat) : SolverConfig :=
  mkSolverConfig (Some max_depth) (oracle_version c) (input_class c) (max_faults c) (engine c) (run_config_hash c)
    (support_version c) (support_digest c).

(** [with_config], [new] and [unbounded]. *)
Definition solver_with_config (config : SolverConfig) : HittingSetSolver := mkSolver ∅ ∅ config None.
Definition solver_new : HittingSetSolver := solver_with_config (with_horizon solver_config_default 64).
Definition solver_unbounded : HittingSetSolver := solver_with_config solver_config_default.
Definition set_config (s : HittingSetSolver) (config : SolverConfig) : HittingSetSolver :=
  mkSolver (s_cache s) (s_hypotheses s) config (s_lineage s).

Definition set_lineage (s : HittingSetSolver) (l : LineageIndex) : HittingSetSolver :=
  mkSolver (s_cache s) (s_hypotheses s) (s_config s) (Some l).
Definition cache_clauses (s : HittingSetSolver) (key : EntryHash) (clauses : list WeightedClause) : HittingSetSolver :=
  mkSolver (<[key := clauses]> (s_cache s)) (s_hypotheses s) (s_config s) (s_lineage s).
Definition cache_hypotheses (s : HittingSetSolver) (key : EntryHash) (hyps : list FaultHypothesis) : HittingSetSolver :=
  mkSolver (s_cache s) (<[key := hyps]> (s_hypotheses s)) (s_config s) (s_lineage s).

(** The cached hypotheses, served only when the cached clauses are the same. *)
Definition cached (s : HittingSetSolver) (key : EntryHash) (clauses : list WeightedClause) : option (list FaultHypothesis) :=
  match s_hypotheses s !! key with
  | Some hyps => if bool_decide (s_cache s !! key = Some clauses) then Some hyps else None
  | None => None
  end.

(** The paths as faultable events; entries the journal lacks are left out. *)
Definition convert_path (j : JournalState) (path : list EntryHash) : list FaultableEvent :=
  omap (fun h => option_map (fun e => mkFaultable h (kind (edata e)) (event_fault_cost j h)) (state_lookup j h)) path.

Definition convert_paths (j : JournalState) (paths : list (list EntryHash)) : list (list FaultableEvent) :=
  List.filter (fun p => match p with [] => false | _ :: _ => true end) (map (convert_path j) paths).

(** [iter().min().unwrap_or(1)]. *)
Definition min_or_one (l : list Z) : Z := match l with [] => 1 | x :: l => foldl Z.min x l end.

Definition path_clause (path : list FaultableEvent) : WeightedClause :=
  mkClause (map fe_event path) (min_or_one (map fe_cost path)).

Definition cut_explanation (strong : bool) (faults paths : nat) (horizon : option nat) : Explanation :=
  if strong then MinimumCut faults paths
  else match horizon with Some h => BoundedCut faults paths h | None => HeuristicCut faults paths end.

Definition solve_explanation (faults paths : nat) (hash_paths : list (list EntryHash)) (horizon : option nat) : Explanation :=
  cut_explanation (is_strong (support_from_paths hash_paths (match horizon with Some _ => true | None => false end)))
    faults paths horizon.

Definition incremental_explanation (faults clauses : nat) (clause_literals : list (list EntryHash)) (horizon : option nat) :
    Explanation :=
  if is_strong (support_from_paths clause_literals (match horizon with Some _ => true | None => false end))
  then IncrementalCut faults clauses
  else match horizon with Some h => BoundedIncremental faults clauses h | None => HeuristicIncremental faults clauses end.

(** [sort_by_key(|h| (h.total_cost, h.events.len()))]. *)
Definition cmp_rank (a b : FaultHypothesis) : comparison :=
  then_cmp (total_cost a ?= total_cost b)%Z (cmp_len (events a) (events b)).

Definition hypothesis (cost : EntryHash -> Z) (explain : nat -> Explanation) (events_set : HashSet_) : FaultHypothesis :=
  mkHypothesis events_set (u64_sum (map cost events_set)) (explain (length events_set)).

Section Solve.
Variable blake3 : list byte -> list byte.

Definition incremental_key_with_tag (s : HittingSetSolver) (closure_hash : EntryHash) (tag : byte) : EntryHash :=
  compute_key blake3 closure_hash tag (s_config s).

Definition witness_key (s : HittingSetSolver) (v : Verdict) : EntryHash :=
  incremental_key_with_tag s (closure_hash blake3 (sort_by cmp_hash (witnesses v))) BUILTIN.

(** From converted paths to ranked hypotheses, with the caches. *)
Definition solve_paths (s : HittingSetSolver) (j : JournalState) (key : EntryHash) (all_paths : list (list FaultableEvent))
    (explain : nat -> Explanation) : result SolverError (list FaultHypothesis) * HittingSetSolver :=
  let clauses := map path_clause all_paths in
  match cached s key clauses with
  | Some hyps => (Ok hyps, s)
  | None =>
      let s := cache_clauses s key clauses in
      match compute_minimal_hitting_sets all_paths with
      | Err e => (Err e, s)
      | Ok hitting_sets =>
          let hypotheses := sort_by cmp_rank (map (hypothesis (event_fault_cost j) explain) hitting_sets) in
          let hypotheses := samc_prune j hypotheses in
          (Ok hypotheses, cache_hypotheses s key hypotheses)
      end
  end.

(** The lineage of this call: built on first use, then refreshed. *)
Definition current_lineage (s : HittingSetSolver) (j : JournalState) (v : Verdict) : LineageIndex :=
  let l := match s_lineage s with
           | Some l => l
           | None => lineage_build blake3 j (witnesses v) (s_config s) Builtin
           end in
  (refresh blake3 l j (witnesses v) (s_config s) Builtin).2.

Definition solve (s : HittingSetSolver) (j : JournalState) (v : Verdict) :
    result SolverError (list FaultHypothesis) * HittingSetSolver :=
  if bool_decide (witnesses v = []) && (journal_len j =? 0)%nat then (Ok [], s)
  else
    let key := witness_key s v in
    let l := current_lineage s j v in
    let s := set_lineage s l in
    match convert_paths j (lpaths l) with
    | [] => (match witnesses v with [] => Ok [] | _ :: _ => Err EmptyProvenance end, s)
    | all_paths =>
        solve_paths s j key all_paths
          (fun faults => solve_explanation faults (length all_paths) (map (map fe_event) all_paths) (max_horizon (s_config s)))
    end.

Definition solve_with_support (s : HittingSetSolver) (j : JournalState) (v : Verdict) (support : SupportExpr) :
    result SolverError (list FaultHypothesis) * HittingSetSolver :=
  if bool_decide (witnesses v = []) && (journal_len j =? 0)%nat then (Ok [], s)
  else
    match convert_paths j (support_clauses j support) with
    | [] => (Err EmptyProvenance, s)
    | all_paths =>
        solve_paths s j (witness_key s v) all_paths
          (fun faults => cut_explanation (is_strong support) faults (length all_paths) (max_horizon (s_config s)))
    end.

(** [event_costs]: the smallest weight of a clause that has the event. *)
Definition event_cost (clauses : list WeightedClause) (hash : EntryHash) : option Z :=
  match List.filter (fun c => bool_decide (hash ∈ literals c)) clauses with
  | [] => None
  | cs => Some (foldl Z.min u64_max (map weight cs))
  end.

Definition solve_incremental_with_tag (s : HittingSetSolver) (closure_hash : EntryHash) (clauses : list WeightedClause)
    (tag : byte) : result SolverError (list FaultHypothesis) * HittingSetSolver :=
  let key := incremental_key_with_tag s closure_hash tag in
  match cached s key clauses with
  | Some hyps => (Ok hyps, s)
  | None =>
      let paths := map (fun c => map (fun hash => mkFaultable hash KSend (weight c)) (literals c)) clauses in
      match (match paths with [] => Ok [] | _ :: _ => compute_minimal_hitting_sets paths end) with
      | Err e => (Err e, s)
      | Ok hitting_sets =>
          let explain faults :=
            incremental_explanation faults (length clauses) (map literals clauses) (max_horizon (s_config s)) in
          let cost hash := match event_cost clauses hash with Some c => c | None => 1 end in
          let hypotheses := sort_by cmp_rank (map (hypothesis cost explain) hitting_sets) in
          (Ok hypotheses, cache_hypotheses (cache_clauses s key clauses) key hypotheses)
      end
  end.

Definition solve_incremental (s : HittingSetSolver) (closure_hash : EntryHash) (clauses : list WeightedClause) :=
  solve_incremental_with_tag s closure_hash clauses BUILTIN.
End Solve.

(** ** The hitting-set solver finds the cheapest fault cuts

    - A fresh solver answers a verdict with inclusion-minimal cuts of all derivations of its witnesses, and one of them
      costs no more than any set of faults that breaks them all.
    - A solver used before answers for its earlier witnesses too.
    - Incremental solving is a function of its clauses. *)

(** The cost of faulting the events of a set. *)
Definition fault_cost (j : JournalState) (t : list EntryHash) : Z := foldr Z.add 0 (map (event_fault_cost j) t).

(** A set of faults breaks every derivation that has a faultable event. *)
Definition breaks (j : JournalState) (config : SolverConfig) (ws : list EntryHash) (t : list EntryHash) : Prop :=
  forall p, derivation j config ws p -> p <> [] -> exists x, In x t /\ In x p.

Definition minimal_cut (j : JournalState) (config : SolverConfig) (ws : list EntryHash) (s : list EntryHash) : Prop :=
  hset s /\ breaks j config ws s /\ (forall t, hset t -> breaks j config ws t -> (forall x, In x t -> In x s) -> t = s).

(** ** Sums of costs *)

Lemma event_cost_range j h : 2 <= event_fault_cost j h <= 10.
Proof. unfold event_fault_cost. destruct (state_lookup j h) as [e|]; [destruct (kind (edata e))|]; lia. Qed.

Lemma fault_cost_perm j s t : s ≡ₚ t -> fault_cost j s = fault_cost j t.
Proof. unfold fault_cost. induction 1; cbn in *; lia. Qed.

Lemma fault_cost_app j s t : fault_cost j (s ++ t) = fault_cost j s + fault_cost j t.
Proof. unfold fault_cost. induction s; cbn in *; lia. Qed.

Lemma fault_cost_range j s : 0 <= fault_cost j s <= 10 * Z.of_nat (length s).
Proof.
  unfold fault_cost. induction s as [|x s IH]; cbn [map foldr length]; [lia|]. pose proof (event_cost_range j x). lia.
Qed.

Lemma fault_cost_subset j s t : List.NoDup s -> (forall x, In x s -> In x t) -> fault_cost j s <= fault_cost j t.
Proof.
  intros Hn Hs. apply NoDup_ListNoDup in Hn. assert (s ⊆+ t) as (k & Hk)%submseteq_Permutation.
  { apply NoDup_submseteq; [done|]. intros x. rewrite !list_elem_of_In. apply Hs. }
  rewrite (fault_cost_perm j t _ Hk), fault_cost_app. pose proof (fault_cost_range j k). lia.
Qed.

Lemma foldl_add l : forall a, foldl Z.add a l = a + foldr Z.add 0 l.
Proof. induction l as [|x l IH]; intros a; cbn; [lia|]. rewrite IH. lia. Qed.

Lemma u64_sum_cost j s : Z.of_nat (length s) * 10 <= u64_max -> u64_sum (map (event_fault_cost j) s) = fault_cost j s.
Proof.
  intros H. unfold u64_sum. rewrite foldl_add. fold (fault_cost j s). pose proof (fault_cost_range j s).
  rewrite Z.add_0_l, Z.mod_small; [done|]. unfold u64_max in H. lia.
Qed.

(** ** Paths of a fresh solver *)

Lemma derives_event get r id p x : derives get r id p -> In x p -> exists e, get x = Some e.
Proof.
  induction 1 as [|r id e _ He _|r id e p q _ He _ _ IH]; intros Hx; [done|..].
  - unfold own in Hx. destruct (is_faultable _); [|done]. destruct Hx as [<-|[]]. eauto.
  - apply in_app_or in Hx as [Hx|Hx]; [|auto]. unfold own in Hx. destruct (is_faultable _); [|done]. destruct Hx as [<-|[]]. eauto.
Qed.

Section Fresh.
Variables (blake3 : list byte -> list byte) (j : JournalState) (log : list JEntry).
Hypothesis R : represents j log.
Hypothesis Hok : log_ok blake3 log.
Variables (config : SolverConfig) (v : Verdict).
Hypothesis Hbudget : within_budget j config (witnesses v).

Abbreviation fresh := (solver_with_config config).

Lemma fresh_lineage c : In c (lpaths (current_lineage blake3 fresh j v)) <->
  exists p, p <> [] /\ derivation j config (witnesses v) p /\ c = scollect cmp_hash p.
Proof.
  unfold current_lineage. cbn [s_lineage s_config solver_with_config]. unfold refresh.
  destruct (collect_lineage_paths blake3 j log R Hok config (witnesses v) Hbudget) as [_ Hb].
  unfold lineage_build. destruct (collect_lineage j (witnesses v) config) as [[cl ps] n]. cbn [fst snd] in Hb.
  cbn [config_fingerprint closure lpaths]. rewrite bool_decide_true by done. cbn [negb].
  destruct (List.filter _ (witnesses v)) as [|w0 ws] eqn:Ef; [apply Hb|].
  assert (Hsub : forall w, In w (w0 :: ws) -> In w (witnesses v)) by (intros w; rewrite <- Ef, filter_In; tauto).
  destruct (collect_lineage_paths blake3 j log R Hok config (w0 :: ws)) as [_ Hc].
  { intros Hh w Hw. apply Hbudget; auto. }
  destruct (collect_lineage j (w0 :: ws) config) as [[cl' ps'] n']. cbn [fst snd lpaths] in *.
  rewrite dedup_In, sort_by_In, in_app_iff, Hb, Hc. split; [|auto].
  intros [?|(p & Hp & (w & Hw & Hd) & ->)]; [done|]. exists p. split; [done|]. split; [|done]. exists w. auto.
Qed.

Lemma converted (paths : list (list EntryHash)) :
  (forall c, In c paths -> c <> [] /\ forall x, In x c -> exists e, state_lookup j x = Some e) ->
  event_paths (convert_paths j paths) = paths.
Proof.
  assert (Hp : forall c, (forall x, In x c -> exists e, state_lookup j x = Some e) -> map fe_event (convert_path j c) = c).
  { induction c as [|x c IH]; intros H; [done|]. unfold convert_path. cbn [omap list_omap].
    destruct (H x (or_introl eq_refl)) as [e ->]. cbn [option_map map fe_event]. f_equal. apply IH. intros y Hy. apply H. right. done. }
  unfold event_paths, convert_paths. induction paths as [|c paths IH]; intros H; [done|]. cbn [map List.filter].
  destruct (H c (or_introl eq_refl)) as [Hne Hx]. specialize (Hp c Hx).
  destruct (convert_path j c) as [|f fs]; [done|]. cbn [map]. rewrite <- Hp. cbn [map]. f_equal.
  apply IH. intros d Hd. apply H. right. done.
Qed.

Lemma fresh_paths : event_paths (convert_paths j (lpaths (current_lineage blake3 fresh j v)))
  = lpaths (current_lineage blake3 fresh j v).
Proof.
  apply converted. intros c (p & Hp & (w & _ & Hd) & ->)%fresh_lineage. split; [rewrite scollect_nil; done|].
  intros x Hx%scollect_In; [|apply _]. eapply derives_event; eauto.
Qed.

Lemma fresh_hits t : hits t (event_paths (convert_paths j (lpaths (current_lineage blake3 fresh j v))))
  <-> breaks j config (witnesses v) t.
Proof.
  rewrite fresh_paths. unfold hits, breaks. split.
  - intros H p Hd Hne. destruct (H (scollect cmp_hash p)) as (x & Hx & Hxp); [apply fresh_lineage; eauto|].
    exists x. rewrite scollect_In in Hxp by apply _. done.
  - intros H c (p & Hne & Hd & ->)%fresh_lineage. destruct (H p Hd Hne) as (x & Hx & Hxp). exists x.
    rewrite scollect_In by apply _. done.
Qed.

(** The events of a minimal cut are entries of the journal, so that their number is bounded by its length. *)
Lemma cut_within s : minimal_cut j config (witnesses v) s -> (length s <= length log)%nat.
Proof.
  intros (Hs & Hb & Hm).
  set (t := List.filter (fun x => match state_lookup j x with Some _ => true | None => false end) s).
  assert (Ht : t = s).
  { apply Hm.
    - clear -Hs. subst t. induction s as [|x s IH]; [constructor|]. apply oset_cons in Hs as [Hs Hx]. cbn.
      destruct (state_lookup j x); [|auto]. apply oset_cons. split; [auto|]. intros y Hy. apply filter_In in Hy as [Hy _]. auto.
    - intros p Hp Hne. destruct (Hb p Hp Hne) as (x & Hx & Hxp). exists x. split; [|done]. apply filter_In. split; [done|].
      destruct Hp as (w & _ & Hd). destruct (derives_event _ _ _ _ _ Hd Hxp) as [e ->]. done.
    - intros x Hx. apply filter_In in Hx. tauto. }
  rewrite <- (length_map eid log). apply NoDup_incl_length; [apply (oset_NoDup cmp_hash), Hs|].
  intros x Hx. rewrite <- Ht in Hx. apply filter_In in Hx as [_ Hx]. rewrite (r_lookup _ _ R) in Hx.
  destruct (log_get log x) as [e|] eqn:E; [|done]. apply log_get_In in E as [Hin <-]. apply in_map, Hin.
Qed.
End Fresh.

(** C11: fault hypotheses are minimal and the best one is the cheapest.  On a reachable journal and a verdict with
    witnesses whose provenance walks, without a horizon, stay within their node budget, a fresh solver returns hypotheses whose events are inclusion-minimal cuts of every derivation of the witnesses (cut at the horizon when
    there is one) with their exact costs, and for any set of faults that breaks every derivation some hypothesis costs
    no more; it fails only when no derivation has a faultable event or a budget is exhausted.  A solver that was used
    before need not ([second_solve_stale]). *)
Theorem solve_cheapest blake3 j v config : journal_reach blake3 j -> Z.of_nat (length (entries j)) * 10 <= u64_max ->
  within_budget j config (witnesses v) -> witnesses v <> [] ->
  match (solve blake3 (solver_with_config config) j v).1 with
  | Ok hyps =>
      (forall h, In h hyps -> minimal_cut j config (witnesses v) (events h) /\ total_cost h = fault_cost j (events h)) /\
      (forall t, breaks j config (witnesses v) t -> exists h, In h hyps /\ total_cost h <= fault_cost j t)
  | Err EmptyProvenance => forall p, derivation j config (witnesses v) p -> p = []
  | Err e => exists what, e = BudgetExhausted what
  end.
Proof.
  intros (log & Hl & R)%journal_reach_represents Hlen Hb Hw. pose proof (represents_entries _ _ R) as He.
  rewrite He in Hlen. apply log_reach_ok in Hl; [|unfold u64_max in *; lia].
  unfold solve. rewrite bool_decide_false by done. cbn [andb].
  pose proof (fresh_lineage blake3 j log R Hl config v Hb) as Hf. pose proof (fresh_hits blake3 j log R Hl config v Hb) as Hh.
  pose proof (fresh_paths blake3 j log R Hl config v Hb) as Hp. pose proof (cut_within j log R config v) as Hc.
  set (l := current_lineage blake3 (solver_with_config config) j v) in *.
  destruct (convert_paths j (lpaths l)) as [|path all_paths] eqn:Ec.
  - destruct (witnesses v) as [|w ws]; [done|]. cbn [fst]. intros p Hd. destruct p as [|x p]; [done|]. exfalso.
    assert (Hin : In (scollect cmp_hash (x :: p)) (lpaths l)) by (apply Hf; exists (x :: p); done). rewrite <- Hp in Hin. done.
  - set (paths := path :: all_paths) in *. unfold solve_paths, cached. cbn [s_hypotheses set_lineage solver_with_config].
    rewrite lookup_empty. pose proof (compute_candidates paths) as Hk. pose proof (compute_err paths) as Hx.
    destruct (compute_minimal_hitting_sets paths) as [sets|e]; cbn [fst].
    + specialize (Hk sets eq_refl). pose proof (candidates_minimal _ _ Hk) as Hm. pose proof (cand_below _ _ Hk) as Hbelow.
      assert (Hmin : forall s, In s sets -> minimal_cut j config (witnesses v) s).
      { intros s Hs. apply Hm in Hs as (H1 & H2 & H3). split; [done|]. split; [apply Hh, H2|]. intros t Ht Hbt. apply H3; [done|]. apply Hh, Hbt. }
      set (explain := fun faults : nat => _). set (hyps := sort_by cmp_rank _).
      assert (Hhyp : forall h, In h hyps -> exists s, In s sets /\ events h = s /\ total_cost h = fault_cost j s).
      { intros h Hin. unfold hyps in Hin. apply sort_by_In, in_map_iff in Hin as (s & <- & Hs). exists s. split; [done|].
        split; [done|]. cbn. apply u64_sum_cost. specialize (Hc s (Hmin s Hs)). lia. }
      destruct (samc_prune_keeps_cheapest j hyps) as [Hs1 Hs2]. split.
      * intros h Hin. apply Hs1, Hhyp in Hin as (s & Hs & Es & ->). rewrite Es. auto.
      * intros t Ht. apply Hh, Hbelow in Ht as (s & Hs & Hst).
        assert (Hin : In (hypothesis (event_fault_cost j) explain s) hyps) by (apply sort_by_In, in_map; done).
        destruct (Hs2 _ Hin) as (k & Hk' & _ & Hle). exists k. split; [done|].
        destruct (Hhyp _ Hin) as (s' & Hs' & Es' & Ect). cbn [events] in Es'. subst s'. rewrite Ect in Hle.
        etrans; [exact Hle|]. apply fault_cost_subset; [apply (oset_NoDup cmp_hash), (Hmin s Hs) | exact Hst].
    + destruct (Hx e eq_refl) as [(what & ->) _]. eauto.
Qed.

(** ** Concrete solves *)

(** A send, an outcome that observes it, a second send after the outcome, and a second outcome after that send. *)
Definition send_payload (n : Z) : EntryPayload := PSend (mkSendFrame (mkMessageId n 0) n 9 []).
Definition outcome_payload : EntryPayload := POutcome (Entry.mkOutcome (repeat x00 32) (VUnsigned 0)).

Definition chain1 := grow ([], journal_new) KSend 1 [] (send_payload 1).
Definition chain2 := grow chain1 KOutcome 2 [0%nat] outcome_payload.
Definition chain3 := grow chain2 KSend 3 [1%nat] (send_payload 3).
Definition chain4 := grow chain3 KOutcome 4 [2%nat] outcome_payload.

Definition verdict_on (i : nat) : Verdict := mkVerdict true (option_list (chain4.1 !! i)) (Message "found").

(** The hypotheses as positions in the journal. *)
Definition positions (r : result SolverError (list FaultHypothesis)) : option (list (list nat)) :=
  match r with
  | Ok hyps => Some (map (fun h => map (fun id => list_sum (map (fun i => if bool_decide (chain4.1 !! i = Some id) then i else O) (seq 0 4))) (events h)) hyps)
  | Err _ => None
  end.

Definition late_first := solve roll_digest solver_unbounded chain4.2 (verdict_on 3).
Definition early_fresh := solve roll_digest solver_unbounded chain4.2 (verdict_on 1).
Definition early_second := solve roll_digest late_first.2 chain4.2 (verdict_on 1).

Lemma chain_reach : journal_reach roll_digest chain4.2.
Proof. repeat (apply grow_reach; [|vm_compute; reflexivity]). constructor. Qed.

(** A solver that was used before answers for its earlier witnesses.  The lineage index is kept across calls and only
    grows: after a solve for the late outcome the solver answers the early outcome, which derives from the first send
    alone, with a second hypothesis that faults the second send, sent after it. *)
Theorem second_solve_stale :
  positions early_fresh.1 = Some [[0%nat]] /\
  positions early_second.1 = Some [[0%nat]; [2%nat]] /\
  ~ breaks chain4.2 solver_config_default (witnesses (verdict_on 1)) (option_list (chain4.1 !! 2%nat)).
Proof.
  split; [vm_compute; reflexivity|]. split; [vm_compute; reflexivity|]. intros H.
  set (w := default [] (chain4.1 !! 1%nat)). set (a := default [] (chain4.1 !! 0%nat)).
  destruct (H [a]) as (x & Hx & [<-|[]]); [|done|].
  - assert (Hv : witnesses (verdict_on 1) = [w]) by (vm_compute; reflexivity). exists w. rewrite Hv. split; [left; reflexivity|].
    assert (Hw : option_map (fun e => (kind (edata e), parents (edata e))) (state_lookup chain4.2 w) = Some (KOutcome, [a]))
      by (vm_compute; reflexivity).
    assert (Ha : option_map (fun e => (kind (edata e), parents (edata e))) (state_lookup chain4.2 a) = Some (KSend, []))
      by (vm_compute; reflexivity).
    destruct (state_lookup chain4.2 w) as [e|] eqn:E; [|discriminate Hw].
    destruct (state_lookup chain4.2 a) as [e0|] eqn:E0; [|discriminate Ha]. cbn [option_map] in Hw, Ha.
    injection Hw as Hk Hp. injection Ha as Hk0 Hp0.
    assert (Ho : own w e ++ own a e0 = [a]) by (unfold own; rewrite Hk, Hk0; done). rewrite <- Ho.
    eapply dv_step; [done | exact E | rewrite Hp; left; reflexivity | apply dv_root; done].
  - assert (Hn : smem cmp_hash a (option_list (chain4.1 !! 2%nat)) = false) by (vm_compute; reflexivity).
    apply (smem_spec cmp_hash) in Hx. congruence.
Qed.

Lemma chain_within : within_budget chain4.2 solver_config_default (witnesses (verdict_on 1)).
Proof.
  intros _ w Hw. assert (Hn : forallb (fun w => (tree_nodes (state_lookup chain4.2) (S (length (entries chain4.2))) w <=? 100)%nat)
      (witnesses (verdict_on 1)) = true) by (vm_compute; reflexivity).
    rewrite forallb_forall in Hn. apply Hn, Nat.leb_le in Hw. unfold LINEAGE_WALK_NODE_BUDGET. etrans; [exact Hw|].
    apply Nat.leb_le. vm_compute. reflexivity.
Qed.

Lemma solve_cheapest_witness : exists hyps, early_fresh.1 = Ok hyps /\
  forall t, breaks chain4.2 solver_config_default (witnesses (verdict_on 1)) t ->
    exists h, In h hyps /\ total_cost h <= fault_cost chain4.2 t.
Proof.
  pose proof (solve_cheapest roll_digest chain4.2 (verdict_on 1) solver_config_default chain_reach
    ltac:(vm_compute; discriminate)) as H.
  pose proof chain_within as Hb.
  specialize (H Hb ltac:(vm_compute; discriminate)).
  change (solver_with_config solver_config_default) with solver_unbounded in H. fold early_fresh in H.
  destruct early_fresh.1 as [hyps|e] eqn:E; [exists hyps; split; [reflexivity | apply H]|].
  exfalso. assert (Hp : positions early_fresh.1 = Some [[0%nat]]) by (vm_compute; reflexivity). rewrite E in Hp. discriminate Hp.
Defined.

Lemma lineage_exact_witness :
  List.Forall (fun c => exists p, p <> [] /\ derivation chain4.2 solver_config_default (witnesses (verdict_on 1)) p /\ c = scollect cmp_hash p)
    (lpaths (lineage_build roll_digest chain4.2 (witnesses (verdict_on 1)) solver_config_default Builtin)).
Proof.
  destruct (lineage_exact roll_digest chain4.2 (witnesses (verdict_on 1)) solver_config_default Builtin chain_reach
    ltac:(vm_compute; discriminate) chain_within) as [_ H].
  apply List.Forall_forall. intros c Hc. exact (proj1 (H c) Hc).
Defined.

Example chain_has_path : length (lpaths (lineage_build roll_digest chain4.2 (witnesses (verdict_on 1)) solver_config_default Builtin)) = 1%nat.
Proof. vm_compute. reflexivity. Qed.

(** ** Incremental solving *)

(** The answer for a list of clauses. *)
Definition ranked (horizon : option nat) (clauses : list WeightedClause) : result SolverError (list FaultHypothesis) :=
  let paths := map (fun c => map (fun hash => mkFaultable hash KSend (weight c)) (literals c)) clauses in
  let? sets := match paths with [] => Ok [] | _ :: _ => compute_minimal_hitting_sets paths end in
  Ok (sort_by cmp_rank (map (hypothesis (fun hash => match event_cost clauses hash with Some c => c | None => 1 end)
    (fun faults => incremental_explanation faults (length clauses) (map literals clauses) horizon)) sets)).

(** Solvers reached by incremental calls. *)
Inductive incremental_reach (blake3 : list byte -> list byte) (config : SolverConfig) : HittingSetSolver -> Prop :=
| ir_new : incremental_reach blake3 config (solver_with_config config)
| ir_step s closure clauses tag : incremental_reach blake3 config s ->
    incremental_reach blake3 config (solve_incremental_with_tag blake3 s closure clauses tag).2.

Lemma incremental_eq blake3 s closure clauses tag :
  solve_incremental_with_tag blake3 s closure clauses tag =
  match cached s (incremental_key_with_tag blake3 s closure tag) clauses with
  | Some hyps => (Ok hyps, s)
  | None =>
      match ranked (max_horizon (s_config s)) clauses with
      | Err e => (Err e, s)
      | Ok hyps => (Ok hyps, let key := incremental_key_with_tag blake3 s closure tag in
                             cache_hypotheses (cache_clauses s key clauses) key hyps)
      end
  end.
Proof.
  unfold solve_incremental_with_tag, ranked. destruct (cached _ _ _); [done|].
  destruct (match _ with [] => _ | _ :: _ => _ end); done.
Qed.

Lemma incremental_cached blake3 config s : incremental_reach blake3 config s -> s_config s = config /\
  forall key clauses hyps, cached s key clauses = Some hyps -> ranked (max_horizon config) clauses = Ok hyps.
Proof.
  induction 1 as [|s closure clauses tag _ [Hc IH]]; [split; [done|]; intros key clauses hyps; unfold cached; cbn; rewrite lookup_empty; done|].
  rewrite incremental_eq. destruct (cached s _ clauses) as [hyps|]; [done|].
  rewrite Hc. destruct (ranked (max_horizon config) clauses) as [hyps|] eqn:Er; [|done]. cbn [snd]. split; [done|].
  set (key := incremental_key_with_tag blake3 s closure tag). intros key' clauses' hyps'. unfold cached.
  cbn [s_hypotheses s_cache cache_hypotheses cache_clauses]. destruct (decide (key' = key)) as [->|Hne].
  - rewrite !lookup_insert_eq. case_bool_decide; [|done]. congruence.
  - rewrite !lookup_insert_ne by done. apply IH.
Qed.

(** Incremental solving is deterministic: a solver that has only been used incrementally answers every list of clauses
    as a new solver does, whatever it was asked before. *)
Theorem incremental_deterministic blake3 config s closure clauses tag : incremental_reach blake3 config s ->
  (solve_incremental_with_tag blake3 s closure clauses tag).1 =
  (solve_incremental_with_tag blake3 (solver_with_config config) closure clauses tag).1.
Proof.
  intros [Hc Hs]%incremental_cached. rewrite !incremental_eq, Hc. unfold cached at 2. cbn [s_hypotheses solver_with_config s_config].
  rewrite lookup_empty. destruct (cached s _ clauses) as [hyps|] eqn:E.
  - apply Hs in E. rewrite E. done.
  - destruct (ranked _ clauses); done.
Qed.

Definition sample_clauses : list WeightedClause := [mkClause [repeat x01 32; repeat x02 32] 2; mkClause [repeat x02 32] 3].

Lemma incremental_deterministic_witness : exists s, incremental_reach roll_digest solver_config_default s /\
  (solve_incremental_with_tag roll_digest s (repeat x07 32) sample_clauses BUILTIN).1 =
  (solve_incremental_with_tag roll_digest (solver_with_config solver_config_default) (repeat x07 32) sample_clauses BUILTIN).1.
Proof.
  pose proof (ir_step roll_digest solver_config_default _ (repeat x07 32) sample_clauses BUILTIN (ir_new _ _)) as Hr.
  eexists. split; [exact Hr|]. apply incremental_deterministic. exact Hr.
Defined.

(** A send and a timer set after it, then the outcome. *)
Definition timer1 := grow ([], journal_new) KSend 1 [] (send_payload 1).
Definition timer2 := grow timer1 KTimerSet 2 [0%nat] (PTimerSet 1 5).
Definition timer3 := grow timer2 KOutcome 3 [1%nat] outcome_payload.
Definition timer_verdict : Verdict := mkVerdict true (option_list (timer3.1 !! 2%nat)) (Message "found").
Definition timer_clauses : list WeightedClause := [mkClause (scollect cmp_hash (take 2 timer3.1)) 2].
Definition timer_closure : EntryHash := closure_hash roll_digest (witnesses timer_verdict).

Definition costs (r : result SolverError (list FaultHypothesis)) : option (list Z) :=
  match r with Ok hyps => Some (map total_cost hyps) | Err _ => None end.

(** A full solve shares its cache keys with incremental solving: after it, the same closure hash and clauses give the
    journal's costs instead of the clause weights. *)
Theorem incremental_depends_on_history :
  costs (solve_incremental roll_digest solver_unbounded timer_closure timer_clauses).1 = Some [2; 2] /\
  costs (solve_incremental roll_digest (solve roll_digest solver_unbounded timer3.2 timer_verdict).2 timer_closure timer_clauses).1 = Some [2; 3].
Proof. split; vm_compute; reflexivity. Qed.
