(* ===== verification/MaxSat.v ===== *)
(** * Weighted MaxSAT fault cuts

    [ledger-explorer/src/maxsat.rs] and [solver/maxsat.rs]: the hazard encoding of a verdict (hard clauses from the
    derivation paths, soft costs per event, an optional bound on the number of faults), the branch-and-bound search
    with its greedy start and lower bound, and the solver around them.  The CaDiCaL back end is a third-party solver
    behind a feature that is off by default; the model is of the default build. *)

From stdpp Require Import gmap.
From S2P Require Import Prelude Machine Limits Value Entry OrdMap Order Clock Dag Causal Slice OSet Verdict.
From S2P Require Import Hitting Support SolverCache Lineage HsSolver.

Open Scope Z_scope.

Record CardinalityBound : Type := mkBound { cb_literals : list EntryHash; max_true : nat }.

Record HazardEncoding : Type := mkEncoding {
  hard : list (list EntryHash);
  soft : list (list EntryHash * Z);
  cardinality : option CardinalityBound }.

(** [MaxSatSolution] with the cost of its [LowerBoundProof]; the method tag is a constant. *)
Record MaxSatSolution : Type := mkSolution { cut : list EntryHash; ms_cost : Z; unsat_core_cost : Z }.

(** ** The hazard walks *)

Definition HAZARD_WALK_CELL_BUDGET : Z := 4000000.

Abbreviation Memo := (gmap (list byte) (list (list EntryHash))).

(** The inner loop of phase 1 over the paths of one parent. *)
Fixpoint append_paths (faultable : bool) (cur : EntryHash) (sub : list (list EntryHash)) (cells : Z) (paths : list (list EntryHash)) :
    Z * list (list EntryHash) * bool :=
  match sub with
  | [] => (cells, paths, false)
  | path :: sub =>
      if (HAZARD_WALK_CELL_BUDGET <? cells)%Z then (cells, paths, true)
      else
        let path := if faultable then path ++ [cur] else path in
        append_paths faultable cur sub (cells + Z.of_nat (length path) + 1) (paths ++ [path])
  end.

(** The ['append] loop over the parents; the flag tells that the budget broke it. *)
Fixpoint append_parents (memo : Memo) (faultable : bool) (cur : EntryHash) (ps : list EntryHash) (cells : Z)
    (paths : list (list EntryHash)) : Z * list (list EntryHash) * bool :=
  match ps with
  | [] => (cells, paths, false)
  | p :: ps =>
      match memo !! p with
      | None => append_parents memo faultable cur ps cells paths
      | Some sub =>
          let '(cells, paths, broke) := append_paths faultable cur sub cells paths in
          if broke then (cells, paths, true) else append_parents memo faultable cur ps cells paths
      end
  end.

(** The [while let Some((cur, phase)) = stack.pop()] loop of [collect_memo]; the flag of a frame is its phase. *)
Fixpoint memo_loop (fuel : nat) (get : EntryHash -> option JEntry) (stack : list (EntryHash * bool)) (memo : Memo) (cells : Z)
    (truncated : bool) : option (Memo * bool) :=
  match stack with
  | [] => Some (memo, truncated)
  | (cur, phase) :: stack =>
      match fuel with
      | O => None
      | S fuel =>
          match phase, get cur with
          | false, got =>
              if bool_decide (is_Some (memo !! cur)) then memo_loop fuel get stack memo cells truncated
              else
                match got with
                | None => memo_loop fuel get stack (<[cur := []]> memo) cells truncated
                | Some entry =>
                    match parents (edata entry) with
                    | [] =>
                        let paths := if is_faultable (kind (edata entry)) then [[cur]] else [[]] in
                        memo_loop fuel get stack (<[cur := paths]> memo) cells truncated
                    | ps => memo_loop fuel get (rev (map (fun p => (p, false)) ps) ++ (cur, true) :: stack) memo cells truncated
                    end
                end
          | true, None =>
              memo_loop fuel get stack (match memo !! cur with Some _ => memo | None => <[cur := []]> memo end) cells truncated
          | true, Some entry =>
              let '(cells, paths, broke) :=
                append_parents memo (is_faultable (kind (edata entry))) cur (parents (edata entry)) cells [] in
              memo_loop fuel get stack (<[cur := paths]> memo) cells (truncated || broke)
          end
      end
  end.

(** One frame per entry and phase, and one per parent link. *)
Definition memo_fuel (j : JournalState) : nat := (1 + 2 * length (entries j) + parent_links (entries j))%nat.

(** [collect_memo]: the paths of [start], the memo and the truncation flag. *)
Definition collect_memo (j : JournalState) (start : EntryHash) (memo : Memo) (truncated : bool) :
    option (list (list EntryHash) * Memo * bool) :=
  match memo_loop (memo_fuel j) (state_lookup j) [(start, false)] memo 0 truncated with
  | Some (memo, truncated) => Some (default [] (memo !! start), memo, truncated)
  | None => None
  end.

Abbreviation BoundedMemo := (gmap (list byte * nat) (list (list EntryHash))).

(** [collect_bounded_memo] with [remaining = limit + 1 - depth], which stands for the depth in the memo. *)
Fixpoint collect_bounded_memo (get : EntryHash -> option JEntry) (remaining : nat) (cur : EntryHash) (memo : BoundedMemo)
    (truncated : bool) : list (list EntryHash) * BoundedMemo * bool :=
  match remaining with
  | O => ([[]], memo, true)
  | S below =>
      match memo !! (cur, remaining) with
      | Some cached => (cached, memo, truncated)
      | None =>
          match get cur with
          | None => ([], memo, truncated)
          | Some entry =>
              let faultable := is_faultable (kind (edata entry)) in
              let '(paths, memo, truncated) :=
                match parents (edata entry) with
                | [] => ([if faultable then [cur] else []], memo, truncated)
                | ps =>
                    foldl (fun acc p =>
                      let '(paths, memo, truncated) := acc in
                      let '(sub, memo, truncated) := collect_bounded_memo get below p memo truncated in
                      (paths ++ map (fun path => if faultable then path ++ [cur] else path) sub, memo, truncated))
                      ([], memo, truncated) ps
                end in
              (paths, <[(cur, remaining) := paths]> memo, truncated)
          end
      end
  end.

(** The paths of one witness that have an event, added to those of the earlier ones. *)
Definition keep_nonempty (all paths : list (list EntryHash)) : list (list EntryHash) :=
  all ++ List.filter (fun p => match p with [] => false | _ :: _ => true end) paths.

Fixpoint hazard_bounded (j : JournalState) (limit : nat) (ws : list EntryHash) (all : list (list EntryHash)) (memo : BoundedMemo)
    (truncated : bool) : list (list EntryHash) * bool :=
  match ws with
  | [] => (all, truncated)
  | w :: ws =>
      let '(paths, memo, truncated) := collect_bounded_memo (state_lookup j) (S limit) w memo truncated in
      hazard_bounded j limit ws (keep_nonempty all paths) memo truncated
  end.

Fixpoint hazard_unbounded (j : JournalState) (ws : list EntryHash) (all : list (list EntryHash)) (memo : Memo) (truncated : bool) :
    option (list (list EntryHash) * bool) :=
  match ws with
  | [] => Some (all, truncated)
  | w :: ws =>
      match collect_memo j w memo truncated with
      | Some (paths, memo, truncated) => hazard_unbounded j ws (keep_nonempty all paths) memo truncated
      | None => None
      end
  end.

Definition hazard_walk (j : JournalState) (ws : list EntryHash) (config : SolverConfig) : option (list (list EntryHash) * bool) :=
  match max_horizon config with
  | Some limit => Some (hazard_bounded j limit ws [] ∅ false)
  | None => hazard_unbounded j ws [] ∅ false
  end.

(** ** The encoding *)

(** Soft clauses and the bound on faults over the events of the hard clauses. *)
Definition encoding_of (j : JournalState) (config : SolverConfig) (hard : list (list EntryHash)) : HazardEncoding :=
  let distinct := scollect cmp_hash (concat hard) in
  let soft := sort_by (fun a b => cmp_list cmp_hash a.1 b.1) (map (fun h => ([h], event_fault_cost j h)) distinct) in
  mkEncoding hard soft (option_map (mkBound distinct) (max_faults config)).

Definition encode_hazard (j : JournalState) (v : Verdict) (config : SolverConfig) : option (result SolverError HazardEncoding) :=
  match missing_target j (witnesses v) with
  | Some w => Some (Err (SolverJournal (MissingParent w)))
  | None =>
      match hazard_walk j (witnesses v) config with
      | None => None
      | Some (all, truncated) =>
          let support_clauses := hard_clauses_from_support (support_from_paths all truncated) in
          if bool_decide (support_clauses = []) && negb (bool_decide (witnesses v = [])) then Some (Err EmptyProvenance)
          else
            let hard := List.filter (fun s => match s with [] => false | _ :: _ => true end)
                          (map (scollect cmp_hash) support_clauses) in
            if bool_decide (hard = []) && negb (bool_decide (witnesses v = [])) then Some (Err EmptyProvenance)
            else Some (Ok (encoding_of j config (dedup (sort_by (cmp_list cmp_hash) hard))))
      end
  end.

Definition encode_hazard_with_support (j : JournalState) (v : Verdict) (config : SolverConfig) (support : SupportExpr) :
    result SolverError HazardEncoding :=
  match missing_target j (witnesses v) with
  | Some w => Err (SolverJournal (MissingParent w))
  | None =>
      let hard := dedup (sort_by (cmp_list cmp_hash) (support_clauses j support)) in
      if bool_decide (hard = []) && negb (bool_decide (witnesses v = [])) then Err EmptyProvenance
      else if bool_decide (hard = []) && violated v then Err EmptyProvenance
      else Ok (encoding_of j config hard)
  end.

(** ** The search *)

Abbreviation Weights := (gmap (list byte) Z).

(** [weights.insert] over the soft clauses: a later weight replaces an earlier one. *)
Definition weights_of (soft : list (list EntryHash * Z)) : Weights :=
  foldl (fun m sw => foldl (fun m h => <[h := sw.2]> m) m sw.1) ∅ soft.

(** [weights.get(h).copied().unwrap_or(1)]. *)
Definition weight_or_one (w : Weights) (h : EntryHash) : Z := default 1 (w !! h).

Definition clause_min_cost (c : list EntryHash) (w : Weights) : Z := min_or_one (omap (fun h => w !! h) c).

Definition cmp_disjoint (w : Weights) (a b : list EntryHash) : comparison :=
  then_cmp (then_cmp (clause_min_cost a w ?= clause_min_cost b w)%Z (cmp_len a b)) (cmp_list cmp_hash a b).

Definition disjoint_step (w : Weights) (acc : gset (list byte) * Z) (cl : list EntryHash) : gset (list byte) * Z :=
  let '(used, sum) := acc in
  if existsb (fun h => bool_decide (h ∈ used)) cl then acc
  else (list_to_set cl ∪ used, saturating_add sum (clause_min_cost cl w)).

Definition disjoint_lower (hard : list (list EntryHash)) (w : Weights) : Z :=
  (foldl (disjoint_step w) (∅, 0) (sort_by (cmp_disjoint w) hard)).2.

(** [Iterator::min_by]: the first of the smallest. *)
Definition min_by {A} (cmp : A -> A -> comparison) (l : list A) : option A :=
  match l with
  | [] => None
  | x :: l => Some (foldl (fun m y => match cmp m y with Gt => y | _ => m end) x l)
  end.

(** The greedy choice: covers most clauses, costs least, comes first. *)
Definition greedy_weight (w : Weights) (h : EntryHash) : Z := Z.max (weight_or_one w h) 1.

Definition coverage (uncovered : list HashSet_) (h : EntryHash) : nat := length (List.filter (hmem h) uncovered).

Definition cmp_greedy (w : Weights) (uncovered : list HashSet_) (a b : EntryHash) : comparison :=
  then_cmp (then_cmp (Nat.compare (coverage uncovered b) (coverage uncovered a)) (greedy_weight w a ?= greedy_weight w b)%Z)
    (cmp_hash a b).

Definition greedy_pick (w : Weights) (uncovered : list HashSet_) : option EntryHash :=
  min_by (cmp_greedy w uncovered) (scollect cmp_hash (concat uncovered)).

(** The [while !uncovered.is_empty()] loop; [None] is the [break] that leaves clauses uncovered. *)
Fixpoint greedy_loop (fuel : nat) (w : Weights) (uncovered : list HashSet_) (chosen : HashSet_) (cost : Z) : option (HashSet_ * Z) :=
  match uncovered with
  | [] => Some (chosen, cost)
  | _ :: _ =>
      match fuel, greedy_pick w uncovered with
      | S fuel, Some literal =>
          greedy_loop fuel w (List.filter (fun c => negb (hmem literal c)) uncovered) (sinsert cmp_hash literal chosen)
            (saturating_add cost (greedy_weight w literal))
      | _, _ => None
      end
  end.

Definition greedy_incumbent (hard_sets : list HashSet_) (w : Weights) : option (HashSet_ * Z) :=
  greedy_loop (length hard_sets) w hard_sets [] 0.

Record Search : Type := mkSearch { best_cut : HashSet_; best_cost : Z; nodes_visited : Z }.

Section Dfs.
Variables (w : Weights) (bound : option CardinalityBound) (max_nodes : Z).

(** The entry of [dfs]: count the node, then prune by cost and by the number of faults. *)
Definition dfs_enter (body : HashSet_ -> Z -> Search -> result SolverError Search) (cur : HashSet_) (cur_cost : Z) (st : Search) :
    result SolverError Search :=
  let st := mkSearch (best_cut st) (best_cost st) (saturating_add (nodes_visited st) 1) in
  if (max_nodes <? nodes_visited st)%Z then Err (BudgetExhausted "branch-and-bound node budget")
  else if (best_cost st <=? cur_cost)%Z then Ok st
  else if match bound with Some b => (max_true b <? length cur)%nat | None => false end then Ok st
  else body cur cur_cost st.

(** The loop over the literals of the first uncovered clause. *)
Fixpoint dfs_literals (body : HashSet_ -> Z -> Search -> result SolverError Search) (lits : list (EntryHash * Z)) (cur : HashSet_)
    (cur_cost : Z) (st : Search) : result SolverError Search :=
  match lits with
  | [] => Ok st
  | (h, wt) :: lits =>
      let nxt := saturating_add cur_cost wt in
      if hmem h cur || (best_cost st <=? nxt)%Z then dfs_literals body lits cur cur_cost st
      else
        let? st := dfs_enter body (sinsert cmp_hash h cur) nxt st in
        dfs_literals body lits cur cur_cost st
  end.

Definition clause_literals (clause : HashSet_) : list (EntryHash * Z) :=
  sort_by (fun a b => then_cmp (a.2 ?= b.2)%Z (cmp_hash a.1 b.1)) (map (fun h => (h, weight_or_one w h)) clause).

(** The body of [dfs] over the clauses from [start_clause] on: skip the covered ones, branch on the first other. *)
Fixpoint dfs (clauses : list HashSet_) (cur : HashSet_) (cur_cost : Z) (st : Search) : result SolverError Search :=
  match clauses with
  | [] => Ok (if (cur_cost <? best_cost st)%Z then mkSearch cur cur_cost (nodes_visited st) else st)
  | clause :: clauses =>
      if existsb (fun h => hmem h cur) clause then dfs clauses cur cur_cost st
      else dfs_literals (dfs clauses) (clause_literals clause) cur cur_cost st
  end.
End Dfs.

Definition MAXSAT_BNB_MAX_CLAUSES : Z := 2000000.
Definition MAXSAT_BNB_MAX_COST_UNITS : Z := 10000000.
Definition MAXSAT_BNB_MAX_NODES : Z := 10000000.

Definition cmp_set (a b : HashSet_) : comparison := then_cmp (cmp_len a b) (cmp_list cmp_hash a b).

Definition hard_sets_of (hard : list (list EntryHash)) : list HashSet_ :=
  sort_by cmp_set (List.filter (fun s => match s with [] => false | _ :: _ => true end) (map (scollect cmp_hash) hard)).

Definition solve_maxsat_bnb_with_budget (enc : HazardEncoding) (max_clauses max_cost_units : Z) (max_nodes : Z) :
    result SolverError MaxSatSolution :=
  match hard enc with
  | [] => Ok (mkSolution [] 0 0)
  | _ :: _ =>
      if (max_clauses <? Z.of_nat (length (hard enc)))%Z then Err (BudgetExhausted "hard clause count exceeds budget")
      else
        let weights := weights_of (soft enc) in
        if (max_cost_units <? u64_sum (map snd (map_to_list weights)))%Z then Err (BudgetExhausted "cost units exceed budget")
        else
          let hard_sets := hard_sets_of (hard enc) in
          let '(best_cut0, best_cost0) := default ([], u64_max) (greedy_incumbent hard_sets weights) in
          let? st := dfs_enter (cardinality enc) max_nodes (dfs weights (cardinality enc) max_nodes hard_sets) [] 0
                       (mkSearch best_cut0 best_cost0 0) in
          if (best_cost st =? u64_max)%Z then Err Unsupported
          else Ok (mkSolution (best_cut st) (best_cost st) (Z.min (disjoint_lower (hard enc) weights) (best_cost st)))
  end.

Definition solve_maxsat_bnb (enc : HazardEncoding) : result SolverError MaxSatSolution :=
  solve_maxsat_bnb_with_budget enc MAXSAT_BNB_MAX_CLAUSES MAXSAT_BNB_MAX_COST_UNITS MAXSAT_BNB_MAX_NODES.

(** [solve_maxsat] of the default build. *)
Definition solve_maxsat : HazardEncoding -> result SolverError MaxSatSolution := solve_maxsat_bnb.

(** ** The solver *)

Record MaxSatSolver : Type := mkMaxSat { inner : HittingSetSolver; cache_hits : nat; resolved_engine : SolverEngine }.

(** [initial_resolution] and [resolve_backend] without the CaDiCaL feature. *)
Definition initial_resolution (config_engine : SolverEngine) : SolverEngine := Builtin.

Definition maxsat_with_config (config : SolverConfig) : MaxSatSolver :=
  mkMaxSat (solver_with_config config) 0 (initial_resolution (engine config)).
Definition maxsat_new : MaxSatSolver := mkMaxSat solver_new 0 (initial_resolution Auto).

Definition resolve_backend (s : MaxSatSolver) (hard_clauses : nat) : byte * bool * MaxSatSolver :=
  (BUILTIN, false, mkMaxSat (inner s) (cache_hits s) Builtin).

Definition maxsat_explanation (faults hard_clauses : nat) (lower : Z) (hard : list (list EntryHash)) (horizon : option nat) :
    Explanation :=
  if is_strong (support_from_paths hard (match horizon with Some _ => true | None => false end))
  then MaxSatMinimum faults hard_clauses lower
  else match horizon with Some h => MaxSatBounded faults hard_clauses h lower | None => MaxSatHeuristic faults hard_clauses lower end.

(** [RecordedSolverData] as the solver fills it in. *)
Record RecordedSolverData : Type := mkRecorded {
  rec_cut : list EntryHash; rec_cost : Z; rec_horizon : option nat; rec_support_version : option Z; rec_witnesses : list EntryHash;
  rec_reproduced : bool; rec_baseline_passed : bool }.

Section MaxSatSolve.
Variable blake3 : list byte -> list byte.

Definition solve_with_certificate (s : MaxSatSolver) (j : JournalState) (v : Verdict) :
    option (result SolverError (list FaultHypothesis * option RecordedSolverData) * MaxSatSolver) :=
  if bool_decide (witnesses v = []) && (journal_len j =? 0)%nat then Some (Ok ([], None), s)
  else
    match encode_hazard j v (s_config (inner s)) with
    | None => None
    | Some (Err e) => Some (Err e, s)
    | Some (Ok encoding) =>
        let '(tag, _, s) := resolve_backend s (length (hard encoding)) in
        let key := incremental_key_with_tag blake3 (inner s) (closure_hash blake3 (sort_by cmp_hash (witnesses v))) tag in
        let hits := match s_hypotheses (inner s) !! key with Some _ => S (cache_hits s) | None => cache_hits s end in
        let clauses := map (fun c => mkClause c (min_or_one (map (event_fault_cost j) c))) (hard encoding) in
        let solver := cache_clauses (inner s) key clauses in
        match solve_maxsat_bnb encoding with
        | Err e => Some (Err e, mkMaxSat solver hits (resolved_engine s))
        | Ok solution =>
            let explanation :=
              maxsat_explanation (length (cut solution)) (length (hard encoding)) (unsat_core_cost solution) (hard encoding)
                (max_horizon (s_config solver)) in
            let hypotheses := samc_prune j [mkHypothesis (cut solution) (ms_cost solution) explanation] in
            let solver_data :=
              match cut solution with
              | [] => None
              | _ :: _ => Some (mkRecorded (cut solution) (ms_cost solution) (max_horizon (s_config solver))
                                  (support_version (s_config solver)) (witnesses v) false false)
              end in
            Some (Ok (hypotheses, solver_data), mkMaxSat (cache_hypotheses solver key hypotheses) hits (resolved_engine s))
        end
    end.

Definition maxsat_solve_incremental (s : MaxSatSolver) (closure_hash : EntryHash) (clauses : list WeightedClause) :
    result SolverError (list FaultHypothesis) * MaxSatSolver :=
  let '(tag, _, s) := resolve_backend s (length clauses) in
  let key := incremental_key_with_tag blake3 (inner s) closure_hash tag in
  let hits := match cached (inner s) key clauses with Some _ => S (cache_hits s) | None => cache_hits s end in
  let '(r, solver) := solve_incremental_with_tag blake3 (inner s) closure_hash clauses tag in
  (r, mkMaxSat solver hits (resolved_engine s)).
End MaxSatSolve.

(** ** The branch-and-bound search is optimal

    - The search returns a cheapest cut among those within the bound on faults, with its exact cost and a lower bound
      that holds of every cut.
    - The greedy start ignores the bound, so the cut may exceed it. *)

(** The weight of a set of events. *)
Definition set_cost (w : Weights) (t : list EntryHash) : Z := foldr Z.add 0 (map (weight_or_one w) t).

(** Sets within the bound on faults. *)
Definition allowed (bound : option CardinalityBound) (t : list EntryHash) : Prop :=
  match bound with Some b => (length t <= max_true b)%nat | None => True end.

Lemma set_cost_perm w s t : s ≡ₚ t -> set_cost w s = set_cost w t.
Proof. unfold set_cost. induction 1; cbn in *; lia. Qed.

Lemma set_cost_app w s t : set_cost w (s ++ t) = set_cost w s + set_cost w t.
Proof. unfold set_cost. induction s; cbn in *; lia. Qed.

Lemma set_cost_insert w h s : ~ In h s -> hset s -> set_cost w (sinsert cmp_hash h s) = set_cost w s + weight_or_one w h.
Proof.
  intros Hn Hs. assert (Hp : sinsert cmp_hash h s ≡ₚ h :: s).
  { clear Hs. induction s as [|x s IH]; [done|]. cbn. destruct (cmp_hash h x) eqn:E.
    - apply (cmp_eq (cmp := cmp_hash)) in E as ->. destruct Hn. left. done.
    - done.
    - rewrite IH by (intros H; apply Hn; right; done). apply Permutation_swap. }
  rewrite (set_cost_perm _ _ _ Hp). unfold set_cost. cbn. lia.
Qed.

Lemma sinsert_length h s : ~ In h s -> length (sinsert cmp_hash h s) = S (length s).
Proof.
  induction s as [|x s IH]; intros Hn; [done|]. cbn. destruct (cmp_hash h x) eqn:E; cbn; [|done|].
  - apply (cmp_eq (cmp := cmp_hash)) in E as ->. destruct Hn. left. done.
  - rewrite IH; [done|]. intros H. apply Hn. right. done.
Qed.

Section Optimal.
Variables (w : Weights) (bound : option CardinalityBound) (max_nodes : Z).
Hypothesis Hpos : forall h, 0 <= weight_or_one w h.

Lemma set_cost_nonneg s : 0 <= set_cost w s.
Proof. unfold set_cost. induction s as [|x s IH]; cbn; [lia|]. specialize (Hpos x). lia. Qed.

Lemma set_cost_subset s t : List.NoDup s -> (forall x, In x s -> In x t) ->
  set_cost w s <= set_cost w t /\ (length s <= length t)%nat.
Proof.
  intros Hn Hs. split; [|apply NoDup_incl_length; done].
  apply NoDup_ListNoDup in Hn. assert (s ⊆+ t) as (k & Hk)%submseteq_Permutation.
  { apply NoDup_submseteq; [done|]. intros x. rewrite !list_elem_of_In. apply Hs. }
  rewrite (set_cost_perm w t _ Hk), set_cost_app. pose proof (set_cost_nonneg k). lia.
Qed.

(** What a stretch of the search guarantees: the incumbent only improves, a new one is a cut of the clauses that
    extends the current set, within the bound, and no allowed cut that extends it is cheaper. *)
Record explored (clauses : list HashSet_) (cur : HashSet_) (st st' : Search) : Prop := {
  ex_better : best_cost st' <= best_cost st;
  ex_cut : (best_cut st' = best_cut st /\ best_cost st' = best_cost st) \/
    (hset (best_cut st') /\ hits (best_cut st') clauses /\ (forall x, In x cur -> In x (best_cut st')) /\
     best_cost st' = set_cost w (best_cut st') /\ allowed bound (best_cut st')) }.

(** No allowed cut above [cur] is cheaper than the incumbent. *)
Definition beats (clauses : list HashSet_) (cur : HashSet_) (st : Search) : Prop :=
  forall t, hits t clauses -> (forall x, In x cur -> In x t) -> allowed bound t -> best_cost st <= set_cost w t.

Definition body_ok (clauses : list HashSet_) (body : HashSet_ -> Z -> Search -> result SolverError Search) : Prop :=
  forall cur cost st st', hset cur -> cost = set_cost w cur -> allowed bound cur -> best_cost st <= u64_max ->
  body cur cost st = Ok st' -> explored clauses cur st st' /\ beats clauses cur st'.

Lemma enter_ok clauses body cur cost st st' : body_ok clauses body -> hset cur -> cost = set_cost w cur -> best_cost st <= u64_max ->
  dfs_enter bound max_nodes body cur cost st = Ok st' -> explored clauses cur st st' /\ beats clauses cur st'.
Proof.
  intros Hb Hs Hc Hu H. unfold dfs_enter in H. cbn [best_cost best_cut nodes_visited] in H.
  set (st1 := mkSearch (best_cut st) (best_cost st) (saturating_add (nodes_visited st) 1)) in H.
  destruct (_ <? _)%Z; [done|].
  assert (Hsame : explored clauses cur st st1) by (split; [cbn; lia | left; done]).
  destruct (_ <=? _)%Z eqn:E1; bool_hyps.
  { apply Ok_inj in H as <-. split; [exact Hsame|]. intros t _ Hsub _. cbn. subst cost.
    destruct (set_cost_subset cur t) as [Hle _]; [apply (oset_NoDup cmp_hash), Hs | exact Hsub | lia]. }
  destruct (match bound with Some b => _ | None => _ end) eqn:E2.
  - apply Ok_inj in H as <-. split; [exact Hsame|]. intros t _ Hsub Ha. exfalso. unfold allowed in Ha. destruct bound as [b|]; [|done].
    bool_hyps. destruct (set_cost_subset cur t) as [_ Hle]; [apply (oset_NoDup cmp_hash), Hs | exact Hsub | lia].
  - apply Hb in H as [[H1 H2] H3]; [|done..| |done].
    + split; [split; [cbn in H1; lia | cbn in H2; exact H2] | exact H3].
    + unfold allowed. destruct bound; [bool_hyps; lia | done].
Qed.

Lemma literals_ok clauses clause body : body_ok clauses body -> forall lits cur cost st st',
  hset cur -> cost = set_cost w cur -> best_cost st <= u64_max -> (forall h, In h clause -> ~ In h cur) ->
  (forall h wt, In (h, wt) lits -> In h clause /\ wt = weight_or_one w h) ->
  dfs_literals bound max_nodes body lits cur cost st = Ok st' ->
  explored (clause :: clauses) cur st st' /\
  (forall t h wt, In (h, wt) lits -> In h t -> hits t clauses -> (forall x, In x cur -> In x t) -> allowed bound t -> best_cost st' <= set_cost w t).
Proof.
  intros Hb. induction lits as [|[h wt] lits IH]; intros cur cost st st' Hs Hc Hu Hno Hl H; cbn [dfs_literals] in H.
  - apply Ok_inj in H as <-. split; [split; [lia | left; done] | done].
  - destruct (Hl h wt (or_introl eq_refl)) as [Hin ->].
    assert (Hl' : forall h wt, In (h, wt) lits -> In h clause /\ wt = weight_or_one w h) by (intros; apply Hl; right; done).
    assert (Hnew : ~ In h cur) by (apply Hno, Hin).
    assert (Hm : hmem h cur = false).
    { destruct (hmem h cur) eqn:E; [|done]. rewrite smem_spec in E by apply _. done. }
    rewrite Hm in H. cbn [orb] in H.
    assert (Hext : forall t, In h t -> (forall x, In x cur -> In x t) -> (forall x, In x (sinsert cmp_hash h cur) -> In x t)).
    { intros t Ht Hsub x. rewrite sinsert_In by apply _. intros [->|]; auto. }
    assert (Hs' : hset (sinsert cmp_hash h cur)) by (apply sinsert_oset; [apply _ | done]).
    pose proof (set_cost_insert w h cur Hnew Hs) as Hcost.
    destruct (best_cost st <=? saturating_add cost (weight_or_one w h))%Z eqn:E; bool_hyps.
    + destruct (IH _ _ _ _ Hs Hc Hu Hno Hl' H) as [[H1 H2] H3]. split; [split; done|].
      intros t h' wt' [[= <- <-]|Hin'] Ht Hhit Hsub Ha; [|eauto].
      destruct (set_cost_subset (sinsert cmp_hash h cur) t) as [Hle _]; [apply (oset_NoDup cmp_hash), Hs' | apply Hext; done|].
      unfold saturating_add in E. lia.
    + destruct (dfs_enter _ _ _ _ _ st) as [st1|] eqn:Ee; [|done].
      assert (Hsum : saturating_add cost (weight_or_one w h) = set_cost w (sinsert cmp_hash h cur)) by (unfold saturating_add in *; lia).
      destruct (enter_ok clauses body _ _ _ _ Hb Hs' Hsum Hu Ee) as [[H1 H2] H3].
      assert (Hu1 : best_cost st1 <= u64_max) by lia.
      destruct (IH _ _ _ _ Hs Hc Hu1 Hno Hl' H) as [[H4 H5] H6]. split; [split; [lia|]|].
      * destruct H5 as [[E1 E2]|H5]; [|right; done]. rewrite E1, E2. destruct H2 as [H2|(Ha & Hh & Hsub & Hco & Hal)]; [left; done|].
        right. split; [done|]. split; [|split; [|done]].
        -- intros p [<-|Hp]; [exists h; split; [apply Hsub, sinsert_In; [apply _ | left; done] | done] | apply Hh, Hp].
        -- intros x Hx. apply Hsub, sinsert_In; [apply _ | right; done].
      * intros t h' wt' [[= <- <-]|Hin'] Ht Hhit Hsub Ha; [|eauto].
        specialize (H3 t Hhit (Hext t Ht Hsub) Ha). lia.
Qed.

Lemma dfs_ok clauses : body_ok clauses (dfs w bound max_nodes clauses).
Proof.
  induction clauses as [|clause clauses IH]; intros cur cost st st' Hs Hc Ha Hu H; cbn [dfs] in H.
  - apply Ok_inj in H as <-. destruct (cost <? best_cost st)%Z eqn:E; bool_hyps.
    + split; [split; [cbn; lia | right; cbn; split_and!; [done | intros ? [] | done..]]|].
      intros t _ Hsub _. cbn. subst cost. apply set_cost_subset; [apply (oset_NoDup cmp_hash), Hs | done].
    + split; [split; [lia | left; done]|]. intros t _ Hsub _. subst cost.
      destruct (set_cost_subset cur t) as [Hle _]; [apply (oset_NoDup cmp_hash), Hs | done | lia].
  - destruct (existsb _ clause) eqn:E.
    + apply existsb_exists in E as (h & Hh & Hm). rewrite smem_spec in Hm by apply _.
      destruct (IH _ _ _ _ Hs Hc Ha Hu H) as [[H1 H2] H3]. split.
      * split; [done|]. destruct H2 as [H2|(? & Hhit & Hsub & ?)]; [left; done|]. right. split; [done|]. split; [|done].
        intros p [<-|Hp]; [exists h; auto | apply Hhit, Hp].
      * intros t Ht. apply H3. intros p Hp. apply Ht. right. done.
    + assert (Hno : forall h, In h clause -> ~ In h cur).
      { intros h Hh Hin. assert (existsb (fun h => hmem h cur) clause = true); [|congruence]. apply existsb_exists. exists h.
        rewrite smem_spec by apply _. done. }
      assert (Hl : forall h wt, In (h, wt) (clause_literals w clause) <-> In h clause /\ wt = weight_or_one w h).
      { intros h wt. unfold clause_literals. rewrite sort_by_In, in_map_iff. naive_solver. }
      destruct (literals_ok clauses clause _ IH _ _ _ _ _ Hs Hc Hu Hno (fun h wt => proj1 (Hl h wt)) H) as [H1 H2].
      split; [done|]. intros t Ht Hsub Hal. destruct (Ht clause (or_introl eq_refl)) as (h & Hh & Hin).
      eapply (H2 t h (weight_or_one w h)); [apply Hl; done | done | intros p Hp; apply Ht; right; done | done..].
Qed.
End Optimal.

(** ** The greedy start *)

Lemma min_by_In {A} (cmp : A -> A -> comparison) l x : min_by cmp l = Some x -> In x l.
Proof.
  unfold min_by. destruct l as [|y l]; [done|]. intros [= <-]. revert y. induction l as [|z l IH]; intros y; [left; done|].
  cbn [foldl]. destruct (cmp y z); [destruct (IH y); cbn in *; tauto..|]. specialize (IH z). cbn in *. tauto.
Qed.

Lemma greedy_ok w : (forall h, 1 <= weight_or_one w h) -> forall fuel uncovered chosen cost,
  (length uncovered <= fuel)%nat -> (forall c, In c uncovered -> c <> [] /\ forall h, In h c -> ~ In h chosen) ->
  hset chosen -> cost = Z.min u64_max (set_cost w chosen) ->
  exists cut, greedy_loop fuel w uncovered chosen cost = Some (cut, Z.min u64_max (set_cost w cut)) /\ hset cut /\ hits cut uncovered
    /\ (forall x, In x chosen -> In x cut) /\ (forall x, In x cut -> In x chosen \/ In x (concat uncovered)).
Proof.
  intros Hpos. induction fuel as [|fuel IH]; intros uncovered chosen cost Hf Hu Hs Hc.
  - destruct uncovered; [|cbn in Hf; lia]. exists chosen. subst cost. split_and!; [done..| intros ? [] | done | auto].
  - destruct uncovered as [|c0 uncovered]; [exists chosen; subst cost; split_and!; [done..| intros ? [] | done | auto]|].
    cbn [greedy_loop]. set (un := c0 :: uncovered) in *. destruct (greedy_pick w un) as [l|] eqn:E.
    + apply min_by_In in E. rewrite scollect_In in E by apply _.
      assert (Hl : ~ In l chosen) by (apply in_concat in E as (c & Hc' & Hlc); apply (Hu c Hc'), Hlc).
      set (rest := List.filter _ un).
      assert (Hlen : (length rest < length un)%nat).
      { apply in_concat in E as (c & Hc' & Hlc). subst rest. clear -Hc' Hlc. induction un as [|d un IH]; [done|]. cbn.
        pose proof (List.filter_length_le (fun c => negb (hmem l c)) un).
        destruct Hc' as [->|Hc']; [apply (smem_spec cmp_hash) in Hlc; rewrite Hlc; cbn; lia|].
        specialize (IH Hc'). destruct (negb _); cbn; lia. }
      destruct (IH rest (sinsert cmp_hash l chosen) (saturating_add cost (greedy_weight w l))) as (cut & Hg & Hsc & Hhit & Hsub & Hin).
      * cbn [length] in *. lia.
      * intros c Hc'. unfold rest in Hc'. apply filter_In in Hc' as [Hc' Hn]. destruct (Hu c Hc') as [Hne Hd]. split; [done|].
        intros h Hh. rewrite sinsert_In by apply _. intros [->|Hh']; [|apply (Hd h Hh), Hh'].
        apply (smem_spec cmp_hash) in Hh. rewrite Hh in Hn. done.
      * apply sinsert_oset; [apply _ | done].
      * rewrite set_cost_insert by done. unfold greedy_weight, saturating_add. pose proof (Hpos l). lia.
      * exists cut. split; [done|]. split; [done|]. split; [|split].
        -- intros c Hc'. destruct (hmem l c) eqn:Em.
           ++ exists l. rewrite smem_spec in Em by apply _. split; [|done]. apply Hsub, sinsert_In; [apply _ | auto].
           ++ apply Hhit, filter_In. rewrite Em. done.
        -- intros x Hx. apply Hsub, sinsert_In; [apply _ | auto].
        -- intros x Hx. apply Hin in Hx as [Hx|Hx].
           ++ rewrite sinsert_In in Hx by apply _. destruct Hx as [->|Hx]; auto.
           ++ right. apply in_concat in Hx as (c & Hc' & Hxc). unfold rest in Hc'. apply filter_In in Hc' as [Hc' _].
              apply in_concat. eauto.
    + exfalso. destruct (Hu c0 (or_introl eq_refl)) as [Hne _]. destruct c0 as [|x c0]; [done|].
      assert (Hx : In x (scollect cmp_hash (concat un))) by (apply (scollect_In cmp_hash); left; done).
      unfold greedy_pick, min_by in E. destruct (scollect cmp_hash (concat un)); done.
Qed.

(** ** The lower bound *)

Definition used_cost (w : Weights) (used : gset (list byte)) (t : list EntryHash) : Z :=
  set_cost w (List.filter (fun x => bool_decide (x ∈ used)) t).

Lemma used_cost_mono w used cl t x : (forall h, 0 <= weight_or_one w h) -> In x t -> In x cl -> x ∉ used ->
  used_cost w used t + weight_or_one w x <= used_cost w (list_to_set cl ∪ used) t.
Proof.
  intros Hpos Hx Hcl Hu. unfold used_cost, set_cost.
  assert (Hm : forall t, foldr Z.add 0 (map (weight_or_one w) (List.filter (fun y => bool_decide (y ∈ used)) t)) <=
    foldr Z.add 0 (map (weight_or_one w) (List.filter (fun y => bool_decide (y ∈ list_to_set (C := gset (list byte)) cl ∪ used)) t))).
  { induction t0 as [|y t0 IH]; [done|]. cbn [List.filter]. specialize (Hpos y). case_bool_decide as H1.
    - rewrite bool_decide_true by set_solver. cbn. lia.
    - case_bool_decide; cbn; lia. }
  induction t as [|y t IH]; [done|]. cbn [List.filter]. destruct Hx as [->|Hx].
  - rewrite (bool_decide_false (x ∈ used)) by done.
    rewrite (bool_decide_true (x ∈ list_to_set (C := gset (list byte)) cl ∪ used)); [cbn; specialize (Hm t); lia|].
    apply elem_of_union. left. apply elem_of_list_to_set, list_elem_of_In, Hcl.
  - specialize (IH Hx). specialize (Hpos y). case_bool_decide as H1.
    + rewrite bool_decide_true by set_solver. cbn. lia.
    + case_bool_decide; cbn; lia.
Qed.

Lemma min_or_one_le l x : In x l -> min_or_one l <= x.
Proof.
  unfold min_or_one. destruct l as [|y l]; [done|].
  assert (Hf : forall l a, foldl Z.min a l <= a /\ forall z, In z l -> foldl Z.min a l <= z).
  { induction l0 as [|z l0 IH]; intros a; cbn; [split; [lia | done]|]. destruct (IH (Z.min a z)) as [H1 H2]. split; [lia|].
    intros z' [<-|Hz]; [lia | auto]. }
  destruct (Hf l y) as [H1 H2]. intros [<-|Hx]; auto.
Qed.

Lemma disjoint_ok w t : (forall h, 0 <= weight_or_one w h) -> forall clauses used sum,
  (forall c, In c clauses -> (forall h, In h c -> is_Some (w !! h)) /\ exists x, In x t /\ In x c) ->
  sum <= used_cost w used t -> (foldl (disjoint_step w) (used, sum) clauses).2 <= set_cost w t.
Proof.
  intros Hpos. induction clauses as [|c clauses IH]; intros used sum Hc Hs.
  - cbn. etrans; [exact Hs|]. unfold used_cost, set_cost. clear -Hpos. induction t as [|x t IH]; [done|]. cbn [List.filter map foldr].
    specialize (Hpos x). destruct (bool_decide _); cbn; lia.
  - cbn [foldl disjoint_step]. assert (Hc' : forall d, In d clauses -> (forall h, In h d -> is_Some (w !! h)) /\ exists x, In x t /\ In x d)
      by (intros; apply Hc; right; done).
    destruct (existsb _ c) eqn:E; [apply IH; done|]. apply IH; [done|].
    destruct (Hc c (or_introl eq_refl)) as [Hw (x & Hx & Hxc)].
    assert (Hu : x ∉ used).
    { intros Hin. assert (existsb (fun h => bool_decide (h ∈ used)) c = true); [|congruence]. apply existsb_exists. exists x.
      rewrite bool_decide_eq_true. done. }
    pose proof (used_cost_mono w used c t x Hpos Hx Hxc Hu) as Hm.
    assert (Hmin : clause_min_cost c w <= weight_or_one w x).
    { unfold clause_min_cost, weight_or_one. destruct (Hw x Hxc) as [wx Hwx]. rewrite Hwx. cbn [default]. apply min_or_one_le.
      apply list_elem_of_In, list_elem_of_omap. exists x. split; [apply list_elem_of_In, Hxc | done]. }
    unfold saturating_add. lia.
Qed.

(** ** The whole search *)

(** What [encoding_of] gives: nonempty clauses over events with positive weights whose sum fits. *)
Record encoding_ok (enc : HazardEncoding) : Prop := {
  eo_clauses : forall c, In c (hard enc) -> c <> [] /\ forall h, In h c -> is_Some (weights_of (soft enc) !! h);
  eo_weights : forall h x, weights_of (soft enc) !! h = Some x -> 1 <= x;
  eo_total : foldr Z.add 0 (map snd (map_to_list (weights_of (soft enc)))) < u64_max }.

Lemma soft_weight_pos enc h : encoding_ok enc -> 1 <= weight_or_one (weights_of (soft enc)) h.
Proof.
  intros H. unfold weight_or_one. destruct (weights_of (soft enc) !! h) as [x|] eqn:E; [apply (eo_weights _ H h x E) | cbn; lia].
Qed.

Lemma sum_app l k : foldr Z.add 0 (l ++ k) = foldr Z.add 0 l + foldr Z.add 0 k.
Proof. induction l as [|x l IH]; cbn; lia. Qed.

Lemma total_bounds w s : (forall h x, w !! h = Some x -> 0 <= x) -> List.NoDup s -> (forall h, In h s -> is_Some (w !! h)) ->
  set_cost w s <= foldr Z.add 0 (map snd (map_to_list w)).
Proof.
  intros Hpos Hn Hs. set (f := fun h => (h, weight_or_one w h)).
  assert (map f s ⊆+ map_to_list w) as (k & Hk)%submseteq_Permutation.
  { apply NoDup_submseteq.
    - assert (Hinj : Inj eq eq f) by (intros x y [= -> _]; done). apply (NoDup_fmap_2 f), NoDup_ListNoDup, Hn.
    - intros [h x] Hin. apply list_elem_of_In, in_map_iff in Hin as (y & [= -> <-] & Hy). apply elem_of_map_to_list.
      destruct (Hs h Hy) as [x Hx]. unfold weight_or_one. rewrite Hx. done. }
  assert (Hp : foldr Z.add 0 (map snd (map_to_list w)) = foldr Z.add 0 (map snd (map f s)) + foldr Z.add 0 (map snd k)).
  { assert (Hperm : forall l l' : list (list byte * Z), l ≡ₚ l' -> foldr Z.add 0 (map snd l) = foldr Z.add 0 (map snd l'))
      by (induction 1; cbn in *; lia).
    etrans; [apply (Hperm _ _ Hk)|]. rewrite map_app. apply sum_app. }
  assert (Hk0 : 0 <= foldr Z.add 0 (map snd k)).
  { assert (Hin : forall e, In e k -> 0 <= e.2).
    { intros [h x] He. apply (Hpos h). apply elem_of_map_to_list. rewrite Hk. apply elem_of_app. right. apply list_elem_of_In, He. }
    clear -Hin. induction k as [|e k IH]; [done|]. cbn. pose proof (Hin e (or_introl eq_refl)).
    assert (forall e, In e k -> 0 <= e.2) by (intros; apply Hin; right; done). specialize (IH ltac:(done)). lia. }
  assert (Hf : map snd (map f s) = map (weight_or_one w) s) by (rewrite map_map; done).
  rewrite Hf in Hp. unfold set_cost. etrans; [|apply Z.eq_le_incl; symmetry; exact Hp]. lia.
Qed.

Lemma hard_sets_In hard c : In c (hard_sets_of hard) <-> c <> [] /\ exists d, In d hard /\ c = scollect cmp_hash d.
Proof.
  unfold hard_sets_of. rewrite sort_by_In, filter_In, in_map_iff. split.
  - intros [(d & <- & Hd) Hne]. split; [intros E; rewrite E in Hne; done|]. eauto.
  - intros [Hne (d & Hd & ->)]. split; [eauto|]. destruct (scollect cmp_hash d); done.
Qed.

Lemma hits_hard_sets enc t : encoding_ok enc -> hits t (hard_sets_of (hard enc)) <-> hits t (hard enc).
Proof.
  intros Hok. unfold hits. setoid_rewrite hard_sets_In. split.
  - intros H d Hd. destruct (H (scollect cmp_hash d)) as (x & Hx & Hxd).
    { split; [|eauto]. rewrite scollect_nil. apply (eo_clauses _ Hok d Hd). }
    exists x. rewrite scollect_In in Hxd by apply _. done.
  - intros H c [_ (d & Hd & ->)]. destruct (H d Hd) as (x & Hx & Hxd). exists x. rewrite scollect_In by apply _. done.
Qed.

Lemma enter_err bound max_nodes body cur cost st e :
  (forall cur cost st e, body cur cost st = Err e -> exists what, e = BudgetExhausted what) ->
  dfs_enter bound max_nodes body cur cost st = Err e -> exists what, e = BudgetExhausted what.
Proof.
  intros Hb H. unfold dfs_enter in H. destruct (_ <? _)%Z; [injection H as <-; eauto|]. destruct (_ <=? _)%Z; [done|].
  destruct (match bound with Some b => _ | None => _ end); [done | eauto].
Qed.

Lemma literals_err bound max_nodes body lits : forall cur cost st e,
  (forall cur cost st e, body cur cost st = Err e -> exists what, e = BudgetExhausted what) ->
  dfs_literals bound max_nodes body lits cur cost st = Err e -> exists what, e = BudgetExhausted what.
Proof.
  induction lits as [|[h wt] lits IH]; intros cur cost st e Hb H; cbn [dfs_literals] in H; [done|].
  destruct (_ || _); [eapply IH; eauto|]. destruct (dfs_enter _ _ _ _ _ st) as [st1|] eqn:E; [eapply IH; eauto|].
  injection H as <-. eapply enter_err; eauto.
Qed.

Lemma dfs_err w bound max_nodes clauses : forall cur cost st e, dfs w bound max_nodes clauses cur cost st = Err e ->
  exists what, e = BudgetExhausted what.
Proof.
  induction clauses as [|c clauses IH]; intros cur cost st e H; cbn [dfs] in H; [done|].
  destruct (existsb _ c); [eauto|]. eapply literals_err; eauto.
Qed.

(** The search of the whole encoding, before the lower bound. *)
Lemma search_ok enc max_nodes : encoding_ok enc ->
  let w := weights_of (soft enc) in
  let sets := hard_sets_of (hard enc) in
  let '(cut0, cost0) := default ([], u64_max) (greedy_incumbent sets w) in
  match dfs_enter (cardinality enc) max_nodes (dfs w (cardinality enc) max_nodes sets) [] 0 (mkSearch cut0 cost0 0) with
  | Ok st => hset (best_cut st) /\ hits (best_cut st) (hard enc) /\ best_cost st = set_cost w (best_cut st) /\ best_cost st < u64_max
      /\ forall t, hits t (hard enc) -> allowed (cardinality enc) t -> best_cost st <= set_cost w t
  | Err e => exists what, e = BudgetExhausted what
  end.
Proof.
  intros Hok w sets. pose proof (fun h => soft_weight_pos enc h Hok) as Hpos. fold w in Hpos.
  assert (Hin : forall c h, In c sets -> In h c -> is_Some (w !! h)).
  { intros c h Hc Hh. apply hard_sets_In in Hc as [_ (d & Hd & ->)]. rewrite scollect_In in Hh by apply _. apply (eo_clauses _ Hok d Hd), Hh. }
  destruct (greedy_ok w Hpos (length sets) sets [] 0) as (cut0 & Hg & Hs0 & Hh0 & _ & Hsub); [lia | | apply oset_nil | done |].
  { intros c Hc. apply hard_sets_In in Hc as [Hne _]. split; [done | intros h _ []]. }
  unfold greedy_incumbent. rewrite Hg. cbn [default from_option id]. cbv beta iota.
  assert (Hlt : set_cost w cut0 < u64_max).
  { eapply Z.le_lt_trans; [|apply (eo_total _ Hok)]. apply total_bounds.
    - intros h x Hx. pose proof (eo_weights _ Hok h x Hx). lia.
    - apply (oset_NoDup cmp_hash), Hs0.
    - intros h Hh. apply Hsub in Hh as [[]|Hh]. apply in_concat in Hh as (c & Hc & Hh). eauto. }
  rewrite Z.min_r by lia.
  assert (Hpos0 : forall h, 0 <= weight_or_one w h) by (intros h; specialize (Hpos h); lia).
  destruct (dfs_enter _ _ _ _ _ _) as [st|e] eqn:Ed; [|eapply enter_err; [apply dfs_err | exact Ed]].
  apply (enter_ok w (cardinality enc) max_nodes Hpos0 sets) in Ed as [[H1 H2] H3]; [|apply dfs_ok, Hpos0 | apply oset_nil | done | cbn; lia].
  cbn [best_cost best_cut] in H1, H2.
  assert (Hopt : forall t, hits t (hard enc) -> allowed (cardinality enc) t -> best_cost st <= set_cost w t).
  { intros t Ht Ha. apply H3; [apply hits_hard_sets; done | intros ? [] | done]. }
  destruct H2 as [[-> E]|(Ha & Hb & _ & Hc & _)].
  - split_and!; [done | apply hits_hard_sets; done | lia | lia | done].
  - split_and!; [done | apply hits_hard_sets; done | done | lia | done].
Qed.

Lemma bnb_optimal enc max_clauses max_cost_units max_nodes : encoding_ok enc ->
  match solve_maxsat_bnb_with_budget enc max_clauses max_cost_units max_nodes with
  | Ok sol =>
      hits (cut sol) (hard enc) /\ ms_cost sol = set_cost (weights_of (soft enc)) (cut sol) /\
      (forall t, hits t (hard enc) -> allowed (cardinality enc) t -> ms_cost sol <= set_cost (weights_of (soft enc)) t) /\
      (forall t, hits t (hard enc) -> unsat_core_cost sol <= set_cost (weights_of (soft enc)) t)
  | Err e => exists what, e = BudgetExhausted what
  end.
Proof.
  intros Hok. pose proof (search_ok enc max_nodes Hok) as Hs. unfold solve_maxsat_bnb_with_budget.
  assert (Hpos : forall h, 0 <= weight_or_one (weights_of (soft enc)) h) by (intros h; pose proof (soft_weight_pos enc h Hok); lia).
  destruct (hard enc) as [|c0 cs] eqn:Eh.
  - cbn [cut ms_cost unsat_core_cost]. split_and!; [intros ? [] | done | intros t _ _ | intros t _]; apply set_cost_nonneg, Hpos.
  - rewrite <- Eh in *. destruct (_ <? _)%Z; [eauto|]. destruct (_ <? _)%Z; [eauto|]. cbn zeta in Hs.
    destruct (default _ _) as [cut0 cost0]. destruct (dfs_enter _ _ _ _ _ _) as [st|e]; [|exact Hs].
    destruct Hs as (_ & Hh & Hc & Hlt & Hopt). destruct (Z.eqb_spec (best_cost st) u64_max); [lia|]. cbn [cut ms_cost unsat_core_cost].
    split_and!; [done..|]. intros t Ht. apply Z.min_le_iff. left. apply disjoint_ok; [done | |].
    + intros c Hc'. apply sort_by_In in Hc'. split; [apply (eo_clauses _ Hok c Hc') | apply Ht, Hc'].
    + unfold used_cost. apply set_cost_nonneg, Hpos.
Qed.

(** Branch and bound is optimal.  On an encoding with positive weights, when the search succeeds its cut breaks every
    hard clause, its cost is the weight of the cut, no cut within the bound on the number of faults is cheaper, and the
    certified lower bound holds of every cut, allowed or not; it fails only with an exhausted budget. *)
Theorem maxsat_optimal enc max_clauses max_cost_units max_nodes : encoding_ok enc ->
  match solve_maxsat_bnb_with_budget enc max_clauses max_cost_units max_nodes with
  | Ok sol =>
      hits (cut sol) (hard enc) /\ ms_cost sol = set_cost (weights_of (soft enc)) (cut sol) /\
      (forall t, hits t (hard enc) -> allowed (cardinality enc) t -> ms_cost sol <= set_cost (weights_of (soft enc)) t) /\
      (forall t, hits t (hard enc) -> unsat_core_cost sol <= set_cost (weights_of (soft enc)) t)
  | Err e => exists what, e = BudgetExhausted what
  end.
Proof. apply bnb_optimal. Qed.

(** ** Concrete encodings *)

Definition ev (b : byte) : EntryHash := repeat b 32.

(** Two paths that share an event of weight 3, which the two others cost less than together with a third path. *)
Definition sample_encoding : HazardEncoding :=
  mkEncoding [[ev x01; ev x02]; [ev x01; ev x03]] [([ev x01], 3); ([ev x02], 2); ([ev x03], 2)] None.

Lemma sample_encoding_ok : encoding_ok sample_encoding.
Proof.
  assert (Hw : weights_of (soft sample_encoding) = <[ev x03 := 2]> (<[ev x02 := 2]> {[ev x01 := 3]})) by reflexivity.
  split.
  - intros c Hc. cbn in Hc. rewrite Hw. destruct Hc as [<-|[<-|[]]]; (split; [discriminate|]); intros h Hh;
      destruct Hh as [<-|[<-|[]]]; vm_compute; eexists; reflexivity.
  - rewrite Hw. intros h x Hx. apply lookup_insert_Some in Hx as [[_ <-]|[_ Hx]]; [lia|].
    apply lookup_insert_Some in Hx as [[_ <-]|[_ Hx]]; [lia|]. apply lookup_singleton_Some in Hx as [_ <-]. lia.
  - vm_compute. reflexivity.
Qed.

Lemma maxsat_optimal_witness : exists sol, solve_maxsat_bnb sample_encoding = Ok sol /\ cut sol = [ev x01] /\
  forall t, hits t (hard sample_encoding) -> ms_cost sol <= set_cost (weights_of (soft sample_encoding)) t.
Proof.
  pose proof (maxsat_optimal sample_encoding MAXSAT_BNB_MAX_CLAUSES MAXSAT_BNB_MAX_COST_UNITS MAXSAT_BNB_MAX_NODES sample_encoding_ok) as H.
  assert (E : solve_maxsat_bnb_with_budget sample_encoding MAXSAT_BNB_MAX_CLAUSES MAXSAT_BNB_MAX_COST_UNITS MAXSAT_BNB_MAX_NODES
    = Ok (mkSolution [ev x01] 3 2)) by (vm_compute; reflexivity).
  exists (mkSolution [ev x01] 3 2). split; [exact E|]. split; [reflexivity|]. rewrite E in H. destruct H as (_ & _ & H & _).
  intros t Ht. apply H; [exact Ht | exact I].
Defined.

(** The bound on the number of faults is not enforced on the greedy start: with two disjoint paths and at most one
    fault no cut is allowed, and the search returns the greedy cut of two faults instead of failing. *)
Theorem maxsat_exceeds_bound :
  solve_maxsat_bnb (mkEncoding [[ev x01]; [ev x02]] [([ev x01], 2); ([ev x02], 2)] (Some (mkBound [ev x01; ev x02] 1)))
  = Ok (mkSolution [ev x01; ev x02] 4 4).
Proof. vm_compute. reflexivity. Qed.
