(* ===== verification/HazardProofs.v ===== *)
(** * The hazard encoding is exact

    - The memoized walks end and gather the derivation paths of the witnesses, events in causal order.
    - The hard clauses are the event sets of these paths, the same the lineage index lists.
    - The MaxSAT solver returns a cheapest cut of every derivation. *)

From stdpp Require Import gmap.
From S2P Require Import Prelude Machine Limits Value Entry OrdMap Clock Dag Causal Slice Order OSet Verdict Hitting.
From S2P Require Import Support SolverCache Lineage HsSolver MaxSat.

Open Scope Z_scope.

Lemma rev_own id e : rev (own id e) = own id e.
Proof. unfold own. destruct (is_faultable _); done. Qed.

Lemma push_own path cur e : (if is_faultable (kind (edata e)) then path ++ [cur] else path) = path ++ own cur e.
Proof. unfold own. destruct (is_faultable _); [done | rewrite app_nil_r; done]. Qed.

(** ** The memoized walk *)

Lemma append_paths_spec f cur sub : forall cells paths cells' paths', append_paths f cur sub cells paths = (cells', paths', false) ->
  paths' = paths ++ map (fun path => if f then path ++ [cur] else path) sub.
Proof.
  induction sub as [|path sub IH]; intros cells paths cells' paths' H; cbn [append_paths] in H.
  - injection H as _ <-. rewrite app_nil_r. done.
  - destruct (_ <? _)%Z; [done|]. apply IH in H as ->. rewrite <- app_assoc. done.
Qed.

Lemma append_parents_spec (memo : Memo) f cur ps : (forall p : EntryHash, In p ps -> is_Some (memo !! p)) -> forall cells paths cells' paths',
  append_parents memo f cur ps cells paths = (cells', paths', false) ->
  paths' = paths ++ concat (map (fun p => map (fun path => if f then path ++ [cur] else path) (default [] (memo !! p))) ps).
Proof.
  induction ps as [|p ps IH]; intros Hin cells paths cells' paths' H; cbn [append_parents] in H.
  - injection H as _ <-. cbn. rewrite app_nil_r. done.
  - destruct (Hin p (or_introl eq_refl)) as [sub Hs]. rewrite Hs in H. destruct (append_paths _ _ sub _ _) as [[c1 p1] b1] eqn:E.
    destruct b1; [done|]. apply append_paths_spec in E as ->. apply IH in H as ->; [|intros; apply Hin; right; done].
    cbn [map concat]. rewrite Hs. cbn [default]. rewrite <- app_assoc. done.
Qed.

Section Memo.
Variables (get : EntryHash -> option JEntry) (log : list JEntry) (rank : EntryHash -> nat).
Hypothesis Hget : forall id, get id = log_get log id.
Hypothesis Hnodup : NoDup (map eid log).
Hypothesis Hrank : forall id e p, get id = Some e -> In p (parents (edata e)) -> (rank p < rank id)%nat.

(** Steps still to pay: two frames per entry not yet in the memo and one per parent link. *)
Definition debt (M : Memo) : nat :=
  list_sum (map (fun e => 2 + length (parents (edata e)))%nat (List.filter (fun e => bool_decide (M !! eid e = None)) log)).

Lemma debt_insert (M : Memo) e v : In e log -> M !! eid e = None ->
  debt M = (2 + length (parents (edata e)) + debt (<[eid e := v]> M))%nat.
Proof.
  unfold debt. clear Hget Hrank. induction log as [|x l IH]; intros Hin Hm; [done|].
  cbn [map] in Hnodup. apply list.NoDup_cons in Hnodup as [Hx Hn]. cbn [List.filter]. destruct Hin as [->|Hin].
  - rewrite bool_decide_true, (bool_decide_false (<[eid e := v]> M !! eid e = None)) by (rewrite ?lookup_insert_eq; done).
    cbn [map]. rewrite list_sum_cons. f_equal. f_equal. f_equal. apply filter_ext_in. intros y Hy. apply bool_decide_ext.
    rewrite lookup_insert_ne; [done|]. intros Heq. apply Hx. rewrite Heq. apply list_elem_of_In, in_map. done.
  - assert (Hne : eid e <> eid x).
    { intros Heq. apply Hx. rewrite <- Heq. apply list_elem_of_In, in_map. done. }
    rewrite (bool_decide_ext (<[eid e := v]> M !! eid x = None) (M !! eid x = None)) by (rewrite lookup_insert_ne; done).
    specialize (IH Hn Hin Hm). destruct (bool_decide (M !! eid x = None)); cbn [map]; rewrite ?list_sum_cons; lia.
Qed.

Lemma debt_mono (M : Memo) (x : EntryHash) v : (debt (<[x := v]> M) <= debt M)%nat.
Proof.
  unfold debt. clear Hget Hrank Hnodup. induction log as [|y l IH]; [done|]. cbn [List.filter].
  destruct (decide (x = eid y)) as [->|Hne].
  - rewrite lookup_insert_eq, bool_decide_false by done. destruct (bool_decide _); cbn [map]; rewrite ?list_sum_cons; lia.
  - rewrite lookup_insert_ne by done. destruct (bool_decide _); cbn [map]; rewrite ?list_sum_cons; lia.
Qed.

(** The memo holds the paths of its keys. *)
Definition memo_ok (M : Memo) : Prop := forall (x : EntryHash) ps, M !! x = Some ps -> forall p, In p ps <-> derives get None x (rev p).

Record memo_step (ids : list EntryHash) (bound : nat) (M : Memo) (t : bool) (M' : Memo) (t' : bool) : Prop := {
  ms_keep : forall (x : EntryHash) ps, M !! x = Some ps -> M' !! x = Some ps;
  ms_has : forall x, In x ids -> is_Some (M' !! x);
  ms_new : forall (x : EntryHash), is_Some (M' !! x) -> M !! x = None -> (rank x <= bound)%nat;
  ms_ok : (t = false -> memo_ok M) -> t' = false -> t = false /\ memo_ok M' }.

Lemma memo_insert_step (M : Memo) t id ps (t' : bool) : M !! id = None -> (t' = false -> t = false) ->
  ((t = false -> memo_ok M) -> t' = false -> forall p, In p ps <-> derives get None id (rev p)) ->
  memo_step [id] (rank id) M t (<[id := ps]> M) t'.
Proof.
  intros Hm Ht Hps. split.
  - intros x qs Hx. rewrite lookup_insert_ne; [done|]. intros Heq. subst x. rewrite Hm in Hx. done.
  - intros x [<-|[]]. rewrite lookup_insert_eq. eauto.
  - intros x Hx Hn. destruct (decide (x = id)) as [->|]; [lia|]. rewrite lookup_insert_ne in Hx by done. rewrite Hn in Hx. destruct Hx. done.
  - intros Hok H. split; [auto|]. intros x qs Hx. apply lookup_insert_Some in Hx as [[<- <-]|[_ Hx]]; [auto | apply Hok; auto].
Qed.

Lemma derives_missing id p : get id = None -> ~ derives get None id p.
Proof. intros E H. inversion H; congruence. Qed.

Lemma derives_root id e p : get id = Some e -> parents (edata e) = [] -> derives get None id p <-> p = own id e.
Proof.
  intros E Ep. split.
  - intros H. inversion H as [|? ? e' _ He Hp|? ? e' q r _ He Hp Hd]; subst; rewrite E in He; injection He as <-; [done|]. rewrite Ep in Hp. done.
  - intros ->. apply dv_root; done.
Qed.

Lemma derives_node id e p : get id = Some e -> parents (edata e) <> [] ->
  derives get None id p <-> exists q r, In q (parents (edata e)) /\ derives get None q r /\ p = own id e ++ r.
Proof.
  intros E Ep. split.
  - intros H. inversion H as [|? ? e' _ He Hp|? ? e' q r _ He Hp Hd]; subst; rewrite E in He; injection He as <-; [done|]. eauto.
  - intros (q & r & Hq & Hr & ->). by eapply dv_step; eauto.
Qed.

(** What the frames of one entry do, and what they cost. *)
Definition runs_to (stack : list (EntryHash * bool)) (M : Memo) (c : Z) (t : bool) (used : nat)
    (stack' : list (EntryHash * bool)) (M' : Memo) (c' : Z) (t' : bool) : Prop :=
  forall fuel, memo_loop (used + fuel) get stack M c t = memo_loop fuel get stack' M' c' t'.

Lemma memo_enter n : forall id stack M c t, (rank id < n)%nat ->
  exists used M' c' t', (1 <= used)%nat /\ (used + debt M' <= 1 + debt M)%nat /\ runs_to ((id, false) :: stack) M c t used stack M' c' t'
  /\ memo_step [id] (rank id) M t M' t'.
Proof.
  induction n as [|n IH]; intros id stack M c t Hn; [lia|].
  destruct (M !! id) as [ps0|] eqn:Em.
  { exists 1%nat, M, c, t. split; [lia|]. split; [lia|]. split.
    - intros fuel. cbn [memo_loop Nat.add]. rewrite bool_decide_true by (rewrite Em; eauto). done.
    - split; [done | intros x [<-|[]]; eauto | intros x Hx Hn'; rewrite Hn' in Hx; destruct Hx; done | auto]. }
  assert (Hd : bool_decide (is_Some (M !! id)) = false) by (apply bool_decide_false; rewrite Em; intros [? ?]; done).
  destruct (get id) as [e|] eqn:E.
  2: { exists 1%nat, (<[id := []]> M), c, t. split; [lia|]. split; [pose proof (debt_mono M id []); lia|]. split.
    - intros fuel. cbn [memo_loop Nat.add]. rewrite Hd, E. done.
    - apply memo_insert_step; [done..|]. intros _ _ p. split; [done | apply derives_missing, E]. }
  assert (Hlog : In e log /\ eid e = id) by (rewrite Hget in E; apply log_get_In, E). destruct Hlog as [Hlog Heid].
  destruct (parents (edata e)) as [|p0 ps] eqn:Ep.
  { exists 1%nat, (<[id := if is_faultable (kind (edata e)) then [[id]] else [[]]]> M), c, t.
    split; [lia|]. split; [pose proof (debt_mono M id (if is_faultable (kind (edata e)) then [[id]] else [[]])); lia|]. split.
    - intros fuel. cbn [memo_loop Nat.add]. rewrite Hd, E, Ep. done.
    - apply memo_insert_step; [done..|]. intros _ _ p. rewrite (derives_root id e) by done.
      unfold own. destruct (is_faultable _); cbn; (split; [intros [<-|[]]; done|]); intros Hr; left;
        rewrite <- (rev_involutive p), Hr; done. }
  (* the parents first *)
  assert (Hall : forall ids stack M c t, (forall p, In p ids -> (rank p < n)%nat /\ (rank p < rank id)%nat) ->
    exists used M' c' t', (used + debt M' <= length ids + debt M)%nat
    /\ runs_to (map (fun p => (p, false)) ids ++ stack) M c t used stack M' c' t' /\ memo_step ids (rank id - 1) M t M' t').
  { clear -IH. induction ids as [|p ids IHids]; intros stack M c t Hr.
    - exists O, M, c, t. split; [cbn; lia|]. split; [intros fuel; done|].
      split; [done | intros ? [] | intros x Hx Hn'; rewrite Hn' in Hx; destruct Hx; done | auto].
    - destruct (Hr p (or_introl eq_refl)) as [Hp Hpi].
      destruct (IH p (map (fun p => (p, false)) ids ++ stack) M c t Hp) as (u1 & M1 & c1 & t1 & _ & Hu1 & R1 & S1).
      destruct (IHids stack M1 c1 t1) as (u2 & M2 & c2 & t2 & Hu2 & R2 & S2); [intros; apply Hr; right; done|].
      exists (u1 + u2)%nat, M2, c2, t2. split; [cbn [length]; lia|]. split.
      + intros fuel. cbn [map app]. rewrite <- Nat.add_assoc, R1, R2. done.
      + destruct S1 as [K1 H1 N1 O1], S2 as [K2 H2 N2 O2]. split.
        * auto.
        * intros x [<-|Hx]; [|auto]. destruct (H1 p) as [v Hv]; [left; done|]. rewrite (K2 _ _ Hv). eauto.
        * intros x Hx Hn'. destruct (M1 !! x) as [v|] eqn:Ex; [|apply N2; done].
          specialize (N1 x ltac:(eauto) Hn'). lia.
        * intros Hok Ht. destruct (O2 (fun Ht1 => proj2 (O1 Hok Ht1)) Ht) as [Ht1 Hm2]. destruct (O1 Hok Ht1). done. }
  destruct (Hall (rev (parents (edata e))) ((id, true) :: stack) M c t) as (u & M1 & c1 & t1 & Hu & R1 & [K1 H1 N1 O1]).
  { intros p Hp%in_rev. pose proof (Hrank id e p E Hp). lia. }
  assert (Hid : M1 !! id = None).
  { destruct (M1 !! id) as [v|] eqn:Ei; [|done]. specialize (N1 id ltac:(eauto) Em). 
    pose proof (Hrank id e p0 E ltac:(rewrite Ep; left; done)). lia. }
  destruct (append_parents M1 (is_faultable (kind (edata e))) id (parents (edata e)) c1 []) as [[c2 paths] broke] eqn:Ea.
  exists (S (u + 1)), (<[id := paths]> M1), c2, (t1 || broke). split; [lia|]. split; [|split].
  - pose proof (debt_insert M1 e paths Hlog) as Hdi. rewrite Heid in Hdi. specialize (Hdi Hid). rewrite length_rev in Hu. lia.
  - intros fuel. cbn [memo_loop Nat.add]. rewrite Hd, E. rewrite Ep. rewrite <- Ep, <- map_rev, <- Nat.add_assoc, R1.
    cbn [memo_loop Nat.add]. rewrite E, Ea. done.
  - assert (Hins : memo_step [id] (rank id) M1 t1 (<[id := paths]> M1) (t1 || broke)).
    { apply memo_insert_step; [done | intros [-> _]%orb_false_iff; done|]. intros Hok [Ht1 ->]%orb_false_iff p.
      assert (Hpar : forall q, In q (parents (edata e)) -> is_Some (M1 !! q)) by (intros q Hq; apply H1, in_rev; rewrite rev_involutive; done).
      apply append_parents_spec in Ea; [|exact Hpar]. cbn [app] in Ea. subst paths.
      rewrite (derives_node id e) by (done || rewrite Ep; done). rewrite in_concat. split.
      - intros (l & Hl & Hp). apply in_map_iff in Hl as (q & <- & Hq). apply in_map_iff in Hp as (path & <- & Hpath).
        destruct (Hpar q Hq) as [sub Hs]. rewrite Hs in Hpath. cbn [default] in Hpath. exists q, (rev path).
        rewrite push_own, rev_app_distr, rev_own. split; [done|]. split; [|done]. apply (Hok Ht1 q sub Hs), Hpath.
      - intros (q & r & Hq & Hr & Hp). destruct (Hpar q Hq) as [sub Hs]. eexists. split; [apply in_map, Hq|].
        rewrite Hs. cbn [default]. apply in_map_iff. exists (rev r). rewrite push_own. split.
        + rewrite <- (rev_involutive p), Hp, rev_app_distr, rev_own. done.
        + apply (Hok Ht1 q sub Hs). rewrite rev_involutive. done. }
    destruct Hins as [K2 H2 N2 O2]. split; [auto | done | |].
    + intros x Hx Hn'. destruct (M1 !! x) as [v|] eqn:Ex; [specialize (N1 x ltac:(eauto) Hn'); lia | apply N2; done].
    + intros Hok Ht. destruct (O2 (fun Ht1 => proj2 (O1 Hok Ht1)) Ht) as [Ht1 Hm2]. destruct (O1 Hok Ht1). done.
Qed.
End Memo.

(** ** The bounded walk *)

Definition bmemo_ok (get : EntryHash -> option JEntry) (M : BoundedMemo) : Prop :=
  forall (x : list byte) (r : nat) ps, M !! (x, r) = Some ps -> forall p, In p ps <-> derives get (Some r) x (rev p).

Lemma bounded_memo_ok get r : forall id M t paths M' t', bmemo_ok get M ->
  collect_bounded_memo get r id M t = (paths, M', t') ->
  bmemo_ok get M' /\ forall p, In p paths <-> derives get (Some r) id (rev p).
Proof.
  induction r as [|r IH]; intros id M t paths M' t' Hok H; cbn [collect_bounded_memo] in H.
  - injection H as <- <- _. split; [done|]. intros p. split; [intros [<-|[]]; constructor|]. intros Hd. left.
    assert (Hrp : rev p = []) by (inversion Hd; congruence). rewrite <- (rev_involutive p), Hrp. done.
  - destruct (M !! (id, S r)) as [ps|] eqn:Em; [injection H as <- <- _; split; [done | apply (Hok id (S r) ps Em)]|].
    destruct (get id) as [e|] eqn:E; [|injection H as <- <- _; split; [done|]; intros p; split; [done|]; intros Hd; inversion Hd; congruence].
    assert (Hins : forall M1 ps, bmemo_ok get M1 -> (forall p, In p ps <-> derives get (Some (S r)) id (rev p)) ->
      bmemo_ok get (<[(id, S r) := ps]> M1)).
    { intros M1 ps H1 Hps x r' qs Hx. apply lookup_insert_Some in Hx as [[[= <- <-] <-]|[_ Hx]]; [exact Hps | apply (H1 x r' qs Hx)]. }
    destruct (parents (edata e)) as [|p0 ps] eqn:Ep.
    + injection H as <- <- _. assert (Hps : forall p, In p [if is_faultable (kind (edata e)) then [id] else []] <-> derives get (Some (S r)) id (rev p)).
      { intros p. fold (own id e). split.
        - intros [<-|[]]. rewrite rev_own. apply dv_root; done.
        - intros Hd. left. rewrite <- (rev_involutive p).
          inversion Hd as [|? ? e' _ He Hp Hq|? ? e' q l _ He Hp _ Hq]; rewrite E in He; injection He as <-; [rewrite rev_own; done | rewrite Ep in Hp; done]. }
      split; [apply Hins; done | exact Hps].
    + rewrite <- Ep in H. set (f := fun acc p => _) in H.
      assert (Hf : forall l paths M t paths' M' t', bmemo_ok get M -> foldl f (paths, M, t) l = (paths', M', t') ->
        bmemo_ok get M' /\ forall p, In p paths' <-> In p paths \/ exists q l', In q l /\ derives get (Some r) q l' /\ rev p = own id e ++ l').
      { clear -IH. induction l as [|q l IHl]; intros paths M t paths' M' t' Hok H; cbn [foldl] in H.
        - injection H as <- <- _. split; [done|]. intros p. split; [auto|]. intros [?|(q & l' & [] & _)]; done.
        - unfold f at 2 in H. destruct (collect_bounded_memo get r q M t) as [[sub M1] t1] eqn:Ec.
          destruct (IH _ _ _ _ _ _ Hok Ec) as [Hok1 Hsub]. destruct (IHl _ _ _ _ _ _ Hok1 H) as [Hok2 Hp]. split; [done|].
          intros p. rewrite Hp, in_app_iff, in_map_iff. split.
          + intros [[?|(path & <- & Hin)]|(q' & l' & Hq' & Hd & Hr)]; [auto | | right; exists q', l'; split; [right|]; done].
            right. exists q, (rev path). split; [left; done|]. split; [apply Hsub, Hin|]. rewrite push_own, rev_app_distr, rev_own. done.
          + intros [?|(q' & l' & [<-|Hq'] & Hd & Hr)]; [auto | | right; eauto 6].
            left. right. exists (rev l'). split; [|apply Hsub; rewrite rev_involutive; done].
            rewrite push_own, <- (rev_involutive p), Hr, rev_app_distr, rev_own. done. }
      destruct (foldl f ([], M, t) (parents (edata e))) as [[ps1 M1] t1] eqn:Efold. injection H as <- <- _.
      destruct (Hf _ _ _ _ _ _ _ Hok Efold) as [Hok1 Hp].
      assert (Hps : forall p, In p ps1 <-> derives get (Some (S r)) id (rev p)).
      { intros p. rewrite Hp. split.
        - intros [[]|(q & l' & Hq & Hd & ->)]. eapply dv_step; [done | exact E | exact Hq | exact Hd].
        - intros Hd. right. inversion Hd as [|? ? e' _ He Hpar Hq|? ? e' q l' _ He Hpar Hdq Hq]; rewrite E in He; injection He as <-; [congruence|].
          exists q, l'. done. }
      split; [apply Hins; done | exact Hps].
Qed.

(** ** The paths of all witnesses *)

(** The walk was not cut short by its cell budget. *)
Definition hazard_complete (j : JournalState) (config : SolverConfig) (ws : list EntryHash) : Prop :=
  max_horizon config = None -> forall all t, hazard_walk j ws config = Some (all, t) -> t = false.

Lemma keep_nonempty_In all ps p : In p (keep_nonempty all ps) <-> In p all \/ In p ps /\ p <> [].
Proof. unfold keep_nonempty. rewrite in_app_iff. fold (nonempty ps). rewrite nonempty_In. done. Qed.

Section Encoding.
Variables (blake3 : list byte -> list byte) (j : JournalState) (log : list JEntry).
Hypothesis R : represents j log.
Hypothesis Hok : log_ok blake3 log.

Lemma hazard_bounded_ok limit ws : forall all M t, bmemo_ok (state_lookup j) M ->
  forall p, In p (hazard_bounded j limit ws all M t).1 <->
    In p all \/ p <> [] /\ exists w, In w ws /\ derives (state_lookup j) (Some (S limit)) w (rev p).
Proof.
  induction ws as [|w ws IH]; intros all M t HM p; cbn [hazard_bounded]; [split; [auto|]; intros [?|(_ & w & [] & _)]; done|].
  destruct (collect_bounded_memo _ _ _ _ _) as [[paths M1] t1] eqn:E. destruct (bounded_memo_ok _ _ _ _ _ _ _ _ HM E) as [HM1 Hp].
  rewrite (IH _ _ _ HM1), keep_nonempty_In, Hp. split.
  - intros [[?|[Hd Hne]]|(Hne & w' & Hw' & Hd)]; [auto | right; split; [done|]; exists w; split; [left|]; done | right; split; [done|]; exists w'; split; [right|]; done].
  - intros [?|(Hne & w' & [<-|Hw'] & Hd)]; [auto.. | right; eauto].
Qed.

Lemma debt_empty : debt log ∅ = (2 * length log + parent_links log)%nat.
Proof.
  unfold debt, parent_links. clear. induction log as [|e l IH]; [done|]. cbn [List.filter]. rewrite bool_decide_true by done.
  cbn [map length]. rewrite !list_sum_cons. lia.
Qed.

Lemma collect_memo_ok w M t : (t = false -> memo_ok (state_lookup j) M) -> (debt log M <= 2 * length log + parent_links log)%nat ->
  exists paths M' t', collect_memo j w M t = Some (paths, M', t') /\ (debt log M' <= 2 * length log + parent_links log)%nat
  /\ (t' = false -> t = false /\ memo_ok (state_lookup j) M' /\ forall p, In p paths <-> derives (state_lookup j) None w (rev p)).
Proof.
  intros HM Hd. pose proof (state_rank blake3 j log R Hok) as Hr.
  destruct (memo_enter (state_lookup j) log (lrank log) (r_lookup _ _ R) (r_nodup _ _ R) Hr (S (lrank log w)) w [] M 0 t)
    as (used & M' & c' & t' & Hu1 & Hu & Hrun & [K H N O]); [lia|].
  unfold collect_memo, memo_fuel. rewrite (represents_entries _ _ R).
  replace (1 + 2 * length log + parent_links log)%nat with (used + (1 + 2 * length log + parent_links log - used))%nat by lia.
  rewrite Hrun. exists (default [] (M' !! w)), M', t'. split; [destruct (1 + 2 * length log + parent_links log - used)%nat; done|].
  split; [lia|]. intros Ht. destruct (O HM Ht) as [Ht0 HM']. split; [done|]. split; [done|].
  destruct (H w) as [ps Hps]; [left; done|]. rewrite Hps. cbn [default]. apply (HM' w ps Hps).
Qed.

Lemma hazard_unbounded_ok ws : forall all M t, (t = false -> memo_ok (state_lookup j) M) ->
  (debt log M <= 2 * length log + parent_links log)%nat ->
  exists all' t', hazard_unbounded j ws all M t = Some (all', t') /\ (t' = false -> t = false /\
    forall p, In p all' <-> In p all \/ p <> [] /\ exists w, In w ws /\ derives (state_lookup j) None w (rev p)).
Proof.
  induction ws as [|w ws IH]; intros all M t HM Hd; cbn [hazard_unbounded].
  - exists all, t. split; [done|]. intros Ht. split; [done|]. intros p. split; [auto|]. intros [?|(_ & w & [] & _)]; done.
  - destruct (collect_memo_ok w M t HM Hd) as (paths & M1 & t1 & E & Hd1 & H1). rewrite E.
    destruct (IH (keep_nonempty all paths) M1 t1) as (all' & t' & E' & H2); [intros Ht1; apply H1, Ht1 | done|].
    exists all', t'. split; [done|]. intros Ht. destruct (H2 Ht) as [Ht1 Hp]. destruct (H1 Ht1) as (Ht0 & _ & Hps). split; [done|].
    intros p. rewrite Hp, keep_nonempty_In, Hps. split.
    + intros [[?|[Hd' Hne]]|(Hne & w' & Hw' & Hd')]; [auto | right; split; [done|]; exists w; split; [left|]; done | right; split; [done|]; exists w'; split; [right|]; done].
    + intros [?|(Hne & w' & [<-|Hw'] & Hd')]; [auto.. | right; eauto].
Qed.

Lemma hazard_walk_ok config ws : exists all t, hazard_walk j ws config = Some (all, t) /\
  (hazard_complete j config ws -> forall p, In p all <-> p <> [] /\ derivation j config ws (rev p)).
Proof.
  unfold hazard_complete, derivation, hazard_walk. destruct (max_horizon config) as [limit|]; cbn [option_map].
  - destruct (hazard_bounded j limit ws [] ∅ false) as [all t] eqn:E. exists all, t. split; [done|]. intros _ p.
    assert (H0 : bmemo_ok (state_lookup j) ∅) by (intros x r ps Hx; rewrite lookup_empty in Hx; done).
    pose proof (hazard_bounded_ok limit ws [] ∅ false H0 p) as H. rewrite E in H. cbn [fst] in H. rewrite H. cbn. tauto.
  - assert (H0 : memo_ok (state_lookup j) ∅) by (intros x ps Hx; rewrite lookup_empty in Hx; done).
    destruct (hazard_unbounded_ok ws [] ∅ false (fun _ => H0)) as (all & t & E & H); [rewrite debt_empty; lia|].
    exists all, t. split; [done|]. intros Hc p. specialize (Hc eq_refl all t E). destruct (H Hc) as [_ Hp]. rewrite Hp. cbn. tauto.
Qed.
End Encoding.

(** ** The weights of an encoding *)

Lemma weights_of_singles (f : EntryHash -> Z) (l : list (list EntryHash * Z)) : (forall s, In s l -> exists h, s = ([h], f h)) ->
  forall (h : EntryHash) x, weights_of l !! h = Some x <-> x = f h /\ In [h] (map fst l).
Proof.
  intros Hl h x. unfold weights_of.
  enough (H : forall m : Weights, foldl (fun m sw => foldl (fun m h => <[h := sw.2]> m) m sw.1) m l !! h = Some x <->
    (x = f h /\ In [h] (map fst l)) \/ (m !! h = Some x /\ ~ In [h] (map fst l))).
  { rewrite H, lookup_empty. intuition congruence. }
  induction l as [|s l IH]; intros m; cbn [foldl map].
  - cbn. intuition congruence.
  - destruct (Hl s (or_introl eq_refl)) as [h' ->]. rewrite IH by (intros; apply Hl; right; done).
    cbn [foldl fst snd In]. destruct (decide (h' = h)) as [->|Hne].
    + rewrite lookup_insert_eq. destruct (decide ([h] ∈ map fst l)) as [Hi|Hi]; rewrite list_elem_of_In in Hi; intuition congruence.
    + rewrite lookup_insert_ne by done. assert ([h'] <> [h]) by congruence. intuition congruence.
Qed.

Section EncodingOf.
Variables (j : JournalState) (log : list JEntry) (config : SolverConfig) (clauses : list (list EntryHash)).
Hypothesis R : represents j log.
Hypothesis Hlen : Z.of_nat (length log) * 10 < u64_max.
Hypothesis Hcl : forall c, In c clauses -> c <> [] /\ forall x, In x c -> exists e, state_lookup j x = Some e.

Lemma encoding_weights h x : weights_of (soft (encoding_of j config clauses)) !! h = Some x <-> x = event_fault_cost j h /\ In h (concat clauses).
Proof.
  rewrite (weights_of_singles (event_fault_cost j)).
  - cbn [soft encoding_of]. rewrite in_map_iff. setoid_rewrite sort_by_In. setoid_rewrite in_map_iff. setoid_rewrite scollect_In; [|apply _].
    split.
    + intros [-> (s & Hs & h' & <- & Hin)]. cbn in Hs. injection Hs as ->. done.
    + intros [-> Hin]. split; [done|]. eexists. split; [|eauto]. done.
  - intros s Hs. cbn [soft encoding_of] in Hs. apply sort_by_In, in_map_iff in Hs as (h' & <- & _). eauto.
Qed.

Lemma clauses_in_log h : In h (concat clauses) -> In h (map eid log).
Proof.
  intros (c & Hc & Hh)%in_concat. destruct (proj2 (Hcl c Hc) h Hh) as [e He]. rewrite (r_lookup _ _ R) in He.
  apply log_get_In in He as [He <-]. apply in_map, He.
Qed.

Lemma encoding_of_ok : encoding_ok (encoding_of j config clauses).
Proof.
  split.
  - intros c Hc. split; [apply (Hcl c Hc)|]. intros h Hh. eexists. apply encoding_weights. split; [done|]. apply in_concat. eauto.
  - intros h x [-> _]%encoding_weights. pose proof (event_cost_range j h). lia.
  - set (w := weights_of _). assert (Hl : (length (map_to_list w) <= length log)%nat).
    { rewrite <- (length_map eid log), <- (length_map fst (map_to_list w)). apply NoDup_incl_length.
      - apply NoDup_ListNoDup, NoDup_fst_map_to_list.
      - intros h Hh. apply in_map_iff in Hh as ([h' x] & <- & Hin). apply list_elem_of_In, elem_of_map_to_list, encoding_weights in Hin as [_ Hin].
        apply clauses_in_log, Hin. }
    assert (Hb : forall e, In e (map_to_list w) -> e.2 <= 10).
    { intros [h x] Hin. apply list_elem_of_In, elem_of_map_to_list, encoding_weights in Hin as [-> _]. apply event_cost_range. }
    assert (Hs : forall l : list (list byte * Z), (forall e, In e l -> e.2 <= 10) -> foldr Z.add 0 (map snd l) <= 10 * Z.of_nat (length l)).
    { induction l as [|e l IH]; intros He; cbn [map foldr length]; [lia|]. pose proof (He e (or_introl eq_refl)).
      assert (forall e, In e l -> e.2 <= 10) by (intros; apply He; right; done). specialize (IH ltac:(done)). lia. }
    specialize (Hs _ Hb). eapply Z.le_lt_trans; [exact Hs|]. lia.
Qed.

(** The weight of a set is at most what faulting its events costs, and exactly that for events of the clauses. *)
Lemma encoding_cost t : set_cost (weights_of (soft (encoding_of j config clauses))) t <= fault_cost j t /\
  ((forall x, In x t -> In x (concat clauses)) -> set_cost (weights_of (soft (encoding_of j config clauses))) t = fault_cost j t).
Proof.
  unfold set_cost, fault_cost. set (w := weights_of _).
  assert (Hx : forall x, weight_or_one w x <= event_fault_cost j x /\ (In x (concat clauses) -> weight_or_one w x = event_fault_cost j x)).
  { intros x. unfold weight_or_one. pose proof (event_cost_range j x). destruct (w !! x) as [y|] eqn:E; cbn.
    - apply encoding_weights in E as [-> _]. lia.
    - split; [lia|]. intros Hin. assert (w !! x = Some (event_fault_cost j x)) by (apply encoding_weights; done). congruence. }
  induction t as [|x t [IH1 IH2]]; [done|]. cbn [map foldr]. destruct (Hx x) as [H1 H2]. split; [lia|].
  intros Hin. rewrite H2 by (apply Hin; left; done). rewrite IH2 by (intros; apply Hin; right; done). done.
Qed.
End EncodingOf.

Lemma scollect_rev p : scollect cmp_hash (rev p) = scollect cmp_hash p.
Proof. apply (oset_ext cmp_hash); [apply scollect_oset, _..|]. intros x. rewrite !scollect_In by apply _. rewrite <- in_rev. done. Qed.

(** What a successful encoding holds. *)
Lemma encode_hazard_ok blake3 j log v config : represents j log -> log_ok blake3 log -> hazard_complete j config (witnesses v) ->
  match encode_hazard j v config with
  | None => False
  | Some (Err (SolverJournal (MissingParent w))) => w ∈ witnesses v /\ state_lookup j w = None
  | Some (Err EmptyProvenance) => witnesses v <> [] /\ forall p, derivation j config (witnesses v) p -> p = []
  | Some (Err _) => False
  | Some (Ok enc) => exists clauses, enc = encoding_of j config clauses /\ oset (cmp_list cmp_hash) clauses
      /\ (forall c, In c clauses <-> exists p, p <> [] /\ derivation j config (witnesses v) p /\ c = scollect cmp_hash p)
      /\ (witnesses v <> [] -> clauses <> [])
  end.
Proof.
  intros R Hok Hc. unfold encode_hazard. pose proof (missing_target_spec j (witnesses v)) as Hm.
  destruct (missing_target j (witnesses v)) as [w|]; [done|].
  destruct (hazard_walk_ok blake3 j log R Hok config (witnesses v)) as (all & t & E & Hp). rewrite E. specialize (Hp Hc).
  rewrite support_path_clauses. set (hard := List.filter _ _).
  assert (Hpc : forall c, In c (path_clauses all) <-> exists p, p <> [] /\ derivation j config (witnesses v) p /\ c = scollect cmp_hash p).
  { intros c. unfold path_clauses. rewrite in_map_iff. fold (nonempty all). setoid_rewrite nonempty_In. setoid_rewrite Hp. split.
    - intros (p & <- & [Hne Hd] & _). exists (rev p). rewrite scollect_rev. split; [|done]. intros Hr. apply Hne.
      rewrite <- (rev_involutive p), Hr. done.
    - intros (p & Hne & Hd & ->). exists (rev p). rewrite scollect_rev, rev_involutive. split; [done|].
      assert (rev p <> []); [|done]. intros Hr. apply Hne. rewrite <- (rev_involutive p), Hr. done. }
  assert (Hh : forall c, In c hard <-> In c (path_clauses all)).
  { intros c. unfold hard. fold (nonempty (map (scollect cmp_hash) (path_clauses all))). rewrite nonempty_In.
    assert (Hid : map (scollect cmp_hash) (path_clauses all) = path_clauses all).
    { apply map_id_in. intros x Hx. apply Hpc in Hx as (p & _ & _ & ->). apply (scollect_id cmp_hash), scollect_oset, _. }
    rewrite Hid. split; [tauto|]. intros Hin. split; [done|]. apply (clauses_nonempty all), Hin. }
  assert (Hnone : forall l : list (list EntryHash), (forall c, In c l <-> In c (path_clauses all)) -> l = [] -> forall p, derivation j config (witnesses v) p -> p = []).
  { intros l Hl -> p Hd. destruct p as [|x p]; [done|]. exfalso. apply (Hl (scollect cmp_hash (x :: p))), Hpc. exists (x :: p). done. }
  destruct (bool_decide_reflect (path_clauses all = [])) as [E1|E1], (bool_decide_reflect (witnesses v = [])) as [E2|E2]; cbn [andb negb];
    try (split; [done | apply (Hnone (path_clauses all)); done]).
  all: destruct (bool_decide_reflect (hard = [])) as [E3|E3]; cbn [andb negb]; try (split; [done | apply (Hnone hard); done]).
  all: eexists; split; [done|]; (split; [apply sort_dedup_oset, _|]); (split; [intros c; rewrite dedup_In, sort_by_In, Hh; apply Hpc|]).
  all: intros Hw; try done.
  intros Hd. destruct hard as [|c hard']; [done|]. assert (Hin : In c (dedup (sort_by (cmp_list cmp_hash) (c :: hard')))) by (rewrite dedup_In, sort_by_In; left; done).
  rewrite Hd in Hin. done.
Qed.

(** ** Theorems *)

(** Two walks, one answer: for a reachable journal and within the budgets of both walks, the hard clauses of the hazard
    encoding are the paths of the lineage index, in the same order. *)
Theorem encoders_agree blake3 j v config resolved enc : journal_reach blake3 j -> Z.of_nat (length (entries j)) <= u64_max ->
  within_budget j config (witnesses v) -> hazard_complete j config (witnesses v) ->
  encode_hazard j v config = Some (Ok enc) -> hard enc = lpaths (lineage_build blake3 j (witnesses v) config resolved).
Proof.
  intros (log & Hl & R)%journal_reach_represents Hlen Hb Hc E. rewrite (represents_entries _ _ R) in Hlen.
  apply log_reach_ok in Hl; [|done]. pose proof (encode_hazard_ok blake3 j log v config R Hl Hc) as H. rewrite E in H.
  destruct H as (clauses & -> & Ho & Hin & _). cbn [hard encoding_of].
  destruct (collect_lineage_paths blake3 j log R Hl config (witnesses v) Hb) as [Ho' Hin'].
  unfold lineage_build. destruct (collect_lineage j (witnesses v) config) as [[cl ps] n]. cbn [lpaths fst snd] in *.
  apply (oset_ext (cmp_list cmp_hash)); [done..|]. intros c. rewrite Hin, Hin'. done.
Qed.

(** A cheapest cut uses only events of the clauses. *)
Lemma optimal_within w clauses s : (forall h, 1 <= weight_or_one w h) -> hits s clauses ->
  (forall t, hits t clauses -> set_cost w s <= set_cost w t) -> forall x, In x s -> In x (concat clauses).
Proof.
  intros Hpos Hh Hopt. set (f := fun x => hmem x (scollect cmp_hash (concat clauses))).
  assert (Hf : forall x, f x = true <-> In x (concat clauses)).
  { intros x. unfold f. rewrite smem_spec by apply _. apply scollect_In, _. }
  assert (Ht : hits (List.filter f s) clauses).
  { intros c Hc. destruct (Hh c Hc) as (x & Hx & Hxc). exists x. split; [|done]. apply filter_In. split; [done|]. apply Hf, in_concat. eauto. }
  specialize (Hopt _ Ht).
  assert (Hsplit : forall l, set_cost w (List.filter f l) <= set_cost w l /\
    (set_cost w l <= set_cost w (List.filter f l) -> forall x, In x l -> f x = true)).
  { induction l as [|y l [IH1 IH2]]; [split; [done | intros _ ? []]|]. unfold set_cost in *. cbn [List.filter map foldr].
    specialize (Hpos y). destruct (f y) eqn:E; cbn [map foldr].
    - split; [lia|]. intros Hle x [<-|Hx]; [done|]. apply IH2; [lia | done].
    - split; [lia|]. intros Hle. lia. }
  intros x Hx. apply Hf. apply (proj2 (Hsplit s) Hopt x Hx).
Qed.

(** C12: the MaxSAT solver returns a cheapest cut.  On a reachable journal and a verdict with witnesses, with no bound on the
    number of faults and, without a horizon, a walk that its cell budget does not truncate, a fresh solver returns one hypothesis whose events break every derivation of the
    witnesses at their exact cost, and no set of faults that breaks them all is cheaper; it fails only for an absent
    witness, for witnesses no derivation of which has a faultable event, or with an exhausted budget. *)
Theorem maxsat_cheapest blake3 j v config : journal_reach blake3 j -> Z.of_nat (length (entries j)) * 10 < u64_max ->
  max_faults config = None -> hazard_complete j config (witnesses v) -> witnesses v <> [] ->
  match solve_with_certificate blake3 (maxsat_with_config config) j v with
  | None => False
  | Some (Ok (hyps, _), _) => exists h, hyps = [h] /\ breaks j config (witnesses v) (events h)
      /\ total_cost h = fault_cost j (events h) /\ forall t, breaks j config (witnesses v) t -> total_cost h <= fault_cost j t
  | Some (Err (SolverJournal (MissingParent w)), _) => w ∈ witnesses v /\ state_lookup j w = None
  | Some (Err EmptyProvenance, _) => forall p, derivation j config (witnesses v) p -> p = []
  | Some (Err e, _) => exists what, e = BudgetExhausted what
  end.
Proof.
  intros (log & Hl & R)%journal_reach_represents Hlen Hf Hc Hw. rewrite (represents_entries _ _ R) in Hlen.
  apply log_reach_ok in Hl; [|lia]. pose proof (encode_hazard_ok blake3 j log v config R Hl Hc) as H.
  unfold solve_with_certificate. rewrite bool_decide_false by done. cbn [andb inner maxsat_with_config s_config solver_with_config].
  destruct (encode_hazard j v config) as [[enc|e]|]; [|destruct e as [[]| | | |]; tauto | done].
  destruct H as (clauses & -> & _ & Hin & _). cbn [resolve_backend].
  assert (Hcl : forall c, In c clauses -> c <> [] /\ forall x, In x c -> exists e, state_lookup j x = Some e).
  { intros c (p & Hne & (w & _ & Hd) & ->)%Hin. split; [rewrite scollect_nil; done|]. intros x Hx. rewrite scollect_In in Hx by apply _.
    eapply derives_event; eauto. }
  assert (Hhits : forall t, hits t clauses <-> breaks j config (witnesses v) t).
  { intros t. unfold hits, breaks. setoid_rewrite Hin. split.
    - intros H p Hd Hne. destruct (H (scollect cmp_hash p)) as (x & Hx & Hxp); [eauto|]. exists x. rewrite scollect_In in Hxp by apply _. done.
    - intros H c (p & Hne & Hd & ->). destruct (H p Hd Hne) as (x & Hx & Hxp). exists x. rewrite scollect_In by apply _. done. }
  pose proof (encoding_of_ok j log config clauses R Hlen Hcl) as Hok.
  pose proof (bnb_optimal (encoding_of j config clauses) MAXSAT_BNB_MAX_CLAUSES MAXSAT_BNB_MAX_COST_UNITS MAXSAT_BNB_MAX_NODES Hok) as Hopt.
  fold (solve_maxsat_bnb (encoding_of j config clauses)) in Hopt.
  destruct (solve_maxsat_bnb (encoding_of j config clauses)) as [sol|e]; [|destruct Hopt as (what & ->); eauto].
  destruct Hopt as (Hh & Hcost & Hbest & _). cbn [hard encoding_of cardinality] in *. rewrite Hf in Hbest. cbn [option_map allowed] in Hbest.
  eexists. split; [done|]. cbn [events total_cost]. split; [apply Hhits, Hh|].
  assert (Hwithin : forall x, In x (cut sol) -> In x (concat clauses)).
  { apply (optimal_within (weights_of (soft (encoding_of j config clauses)))); [intros h; apply soft_weight_pos, Hok | done|].
    intros t Ht. rewrite <- Hcost. apply Hbest; done. }
  split; [rewrite Hcost; eapply encoding_cost; eassumption|].
  intros t Ht. etrans; [apply Hbest; [apply Hhits, Ht | done]|]. eapply encoding_cost; eassumption.
Qed.

Lemma encoders_agree_witness : exists enc, encode_hazard chain4.2 (verdict_on 3) solver_config_default = Some (Ok enc) /\
  hard enc = lpaths (lineage_build roll_digest chain4.2 (witnesses (verdict_on 3)) solver_config_default Builtin).
Proof.
  destruct (encode_hazard chain4.2 (verdict_on 3) solver_config_default) as [[enc|]|] eqn:E.
  - exists enc. split; [reflexivity|]. apply (encoders_agree roll_digest chain4.2 (verdict_on 3) solver_config_default Builtin enc);
      [apply chain_reach | vm_compute; discriminate | | | exact E].
    + intros _ w Hw. assert (Hn : forallb (fun w => (tree_nodes (state_lookup chain4.2) (S (length (entries chain4.2))) w <=? 100)%nat)
        (witnesses (verdict_on 3)) = true) by (vm_compute; reflexivity).
      rewrite forallb_forall in Hn. apply Hn, Nat.leb_le in Hw. unfold LINEAGE_WALK_NODE_BUDGET. etrans; [exact Hw|].
      apply Nat.leb_le. vm_compute. reflexivity.
    + intros _ all t Ht. assert (Hs : option_map snd (hazard_walk chain4.2 (witnesses (verdict_on 3)) solver_config_default) = Some false)
        by (vm_compute; reflexivity). rewrite Ht in Hs. cbn in Hs. congruence.
  - exfalso. assert (Hs : match encode_hazard chain4.2 (verdict_on 3) solver_config_default with Some (Ok _) => true | _ => false end = true)
      by (vm_compute; reflexivity). rewrite E in Hs. discriminate Hs.
  - exfalso. assert (Hs : match encode_hazard chain4.2 (verdict_on 3) solver_config_default with Some (Ok _) => true | _ => false end = true)
      by (vm_compute; reflexivity). rewrite E in Hs. discriminate Hs.
Defined.

Lemma maxsat_cheapest_witness : exists h, forall t, breaks chain4.2 solver_config_default (witnesses (verdict_on 3)) t ->
  total_cost h <= fault_cost chain4.2 t.
Proof.
  pose proof (maxsat_cheapest roll_digest chain4.2 (verdict_on 3) solver_config_default chain_reach
    ltac:(vm_compute; reflexivity) eq_refl) as H.
  assert (Hc : hazard_complete chain4.2 solver_config_default (witnesses (verdict_on 3))).
  { intros _ all t Ht. assert (Hs : option_map snd (hazard_walk chain4.2 (witnesses (verdict_on 3)) solver_config_default) = Some false)
      by (vm_compute; reflexivity). rewrite Ht in Hs. cbn in Hs. congruence. }
  specialize (H Hc ltac:(vm_compute; discriminate)).
  assert (Hs : match solve_with_certificate roll_digest (maxsat_with_config solver_config_default) chain4.2 (verdict_on 3) with
    | Some (Ok _, _) => true | _ => false end = true) by (vm_compute; reflexivity).
  destruct (solve_with_certificate roll_digest (maxsat_with_config solver_config_default) chain4.2 (verdict_on 3)) as [[[[hyps d]|e] s]|];
    [|discriminate Hs | contradiction].
  destruct H as (h & _ & _ & _ & H). exists h. exact H.
Defined.
