(* ===== verification/SolverState.v ===== *)
(** * Persisted solver state

    [ledger-explorer/src/solver_state.rs]: the artifact of a solver's caches, its binary form, saving it in and loading
    it from the journal, and resuming a solver from it.  The cursor is the bytes left and the offset reached; both
    checks of an offset or count against overflow fail as the check against the bytes left does. *)

From stdpp Require Import gmap.
From S2P Require Import Prelude Machine Limits Value Entry OrdMap Order Clock Dag Causal Slice OSet Verdict.
From S2P Require Import Hitting Support SolverCache Lineage HsSolver.

Open Scope Z_scope.

Definition STATE_MAGIC : list byte := bytes_of_string "LDGRSSV1".
Definition STATE_FORMAT_VERSION : byte := x02.

Record PersistedHypothesis : Type := mkPersisted { ph_events : list EntryHash; ph_cost : Z }.

Record PersistedClosure : Type := mkClosure {
  pc_key : EntryHash; pc_clauses : list WeightedClause; pc_hypotheses : list PersistedHypothesis }.

Record SolverStateArtifact : Type := mkArtifact {
  closures : list PersistedClosure;
  a_fingerprint : EntryHash;
  a_run_config : option EntryHash;
  a_engine : SolverEngine }.

#[export] Instance persisted_eq_dec : EqDecision PersistedHypothesis.
Proof. solve_decision. Defined.
#[export] Instance closure_eq_dec : EqDecision PersistedClosure.
Proof. solve_decision. Defined.
#[export] Instance artifact_eq_dec : EqDecision SolverStateArtifact.
Proof. solve_decision. Defined.

(** ** Encoding *)

(** A count and the items. *)
Definition encode_counted {A} (enc : A -> list byte) (l : list A) : list byte :=
  to_le_bytes 8 (Z.of_nat (length l)) ++ concat (map enc l).

Definition encode_clause (c : WeightedClause) : list byte := encode_counted id (literals c) ++ to_le_bytes 8 (weight c).
Definition encode_hypothesis (h : PersistedHypothesis) : list byte := encode_counted id (ph_events h) ++ to_le_bytes 8 (ph_cost h).
Definition encode_closure (c : PersistedClosure) : list byte :=
  pc_key c ++ encode_counted encode_clause (pc_clauses c) ++ encode_counted encode_hypothesis (pc_hypotheses c).

Definition encode_artifact (a : SolverStateArtifact) : result SolverStateError (list byte) :=
  match a_engine a with
  | Auto => Err UnresolvedEngine
  | e => Ok (STATE_MAGIC ++ [STATE_FORMAT_VERSION] ++ [engine_byte e] ++ opt_hash (a_run_config a) ++ a_fingerprint a
             ++ encode_counted encode_closure (closures a))
  end.

(** ** Decoding *)

(** The bytes left and the offset. *)
Abbreviation Cursor := (list byte * nat)%type.
Abbreviation creader A := (Cursor -> result SolverStateError (A * Cursor)).

Definition c_take (length_ : nat) : creader (list byte) := fun c =>
  if (length c.1 <? length_)%nat then Err (Truncated c.2)
  else Ok (take length_ c.1, (drop length_ c.1, (c.2 + length_)%nat)).

Definition c_u64 : creader Z := fun c => let? '(b, c) := c_take 8 c in Ok (from_le_bytes b, c).
Definition c_hash : creader EntryHash := c_take 32.

Definition bounded_count (c : Cursor) (declared : Z) (elem_bytes : Z) (field : string) : result SolverStateError nat :=
  if (Z.of_nat (length c.1) <? declared * elem_bytes)%Z then Err (StateLengthOverflow field declared (length c.1))
  else Ok (Z.to_nat declared).

(** The [for _ in 0..n] loops. *)
Fixpoint read_times {A} (n : nat) (read : creader A) : creader (list A) := fun c =>
  match n with
  | O => Ok ([], c)
  | S n => let? '(x, c) := read c in let? '(l, c) := read_times n read c in Ok (x :: l, c)
  end.

Definition read_counted {A} (elem_bytes : Z) (field : string) (read : creader A) : creader (list A) := fun c =>
  let? '(declared, c) := c_u64 c in
  let? n := bounded_count c declared elem_bytes field in
  read_times n read c.

Definition read_clause : creader WeightedClause := fun c =>
  let? '(lits, c) := read_counted 32 "literal" c_hash c in
  let? '(w, c) := c_u64 c in Ok (mkClause lits w, c).

Definition read_hypothesis : creader PersistedHypothesis := fun c =>
  let? '(evs, c) := read_counted 32 "event" c_hash c in
  let? '(cost, c) := c_u64 c in Ok (mkPersisted evs cost, c).

Definition read_closure : creader PersistedClosure := fun c =>
  let? '(key, c) := c_hash c in
  let? '(clauses, c) := read_counted 16 "clause" read_clause c in
  let? '(hyps, c) := read_counted 16 "hypothesis" read_hypothesis c in
  Ok (mkClosure key clauses hyps, c).

Definition read_engine (b : byte) : result SolverStateError SolverEngine :=
  if bool_decide (b = BUILTIN) then Ok Builtin
  else if bool_decide (b = CADICAL) then Ok Cadical else Err (UnknownEngineByte (b2z b)).

Definition read_run_config (b : byte) : creader (option EntryHash) := fun c =>
  if bool_decide (b = x00) then Ok (None, c)
  else if bool_decide (b = x01) then let? '(h, c) := c_hash c in Ok (Some h, c)
  else Err (UnknownRunConfigFlag (b2z b)).

(** [cursor.take(1)?[0]]. *)
Definition c_byte : creader byte := fun c => let? '(b, c) := c_take 1 c in Ok (hd x00 b, c).

Definition decode_artifact (bytes : list byte) : result SolverStateError SolverStateArtifact :=
  if (length bytes <? 51)%nat then Err (Truncated 0)
  else if negb (bool_decide (take 8 bytes = STATE_MAGIC)) then Err MissingMagic
  else
    let? '(version, c) := c_byte (drop 8 bytes, 8%nat) in
    if negb (bool_decide (version = STATE_FORMAT_VERSION)) then Err (UnsupportedFormatVersion (b2z version))
    else
      let? '(eb, c) := c_byte c in
      let? resolved := read_engine eb in
      let? '(flag, c) := c_byte c in
      let? '(run, c) := read_run_config flag c in
      let? '(fp, c) := c_hash c in
      let? '(cls, c) := read_counted 48 "closures" read_closure c in
      match c.1 with
      | [] => Ok (mkArtifact cls fp run resolved)
      | _ :: _ => Err StateTrailingBytes
      end.

(** ** The journal *)

(** [EntryPayload::Outcome] of a byte string. *)
Definition outcome_bytes (e : JEntry) : option (list byte) :=
  match payload (edata e) with
  | POutcome o => match outcome_value o with VBytes b => Some b | _ => None end
  | _ => None
  end.

Section Persist.
Variable blake3 : list byte -> list byte.

Definition save (base_unique : bool) (j : JournalState) (actor : Z) (a : SolverStateArtifact) :
    result SolverStateError (EntryHash * JournalState) :=
  let? bytes := encode_artifact a in
  match List.find (fun e => bool_decide (outcome_bytes e = Some bytes)) (entries j) with
  | Some e => Ok (eid e, j)
  | None => map_err StateJournal
      (append blake3 base_unique j KOutcome actor [] (POutcome (mkOutcome (repeat x00 32) (VBytes bytes))))
  end.

(** [payload.starts_with(MAGIC)]. *)
Definition is_state (b : list byte) : bool := bool_decide (take 8 b = STATE_MAGIC).

Fixpoint load_loop (es : list JEntry) : result SolverError (list SolverStateArtifact) :=
  match es with
  | [] => Ok []
  | e :: es =>
      match outcome_bytes e with
      | Some b =>
          if is_state b then
            let? a := map_err SolverState (decode_artifact b) in
            let? l := load_loop es in Ok (a :: l)
          else load_loop es
      | None => load_loop es
      end
  end.

Definition load (j : JournalState) : result SolverError (list SolverStateArtifact) := load_loop (entries j).

(** ** Snapshot and resume *)

Definition persist_hypothesis (h : FaultHypothesis) : PersistedHypothesis := mkPersisted (sort_by cmp_hash (events h)) (total_cost h).

Definition persist_closure (s : HittingSetSolver) (key : EntryHash) : PersistedClosure :=
  mkClosure key (default [] (s_cache s !! key)) (map persist_hypothesis (default [] (s_hypotheses s !! key))).

Definition snapshot_artifact (s : HittingSetSolver) (resolved : SolverEngine) : SolverStateArtifact :=
  let keys := scollect cmp_hash (map fst (map_to_list (s_hypotheses s)) ++ map fst (map_to_list (s_cache s))) in
  mkArtifact (map (persist_closure s) keys) (fingerprint blake3 (s_config s) resolved) (run_config_hash (s_config s)) resolved.

(** The first event of a hypothesis that no clause has. *)
Definition uncovered_event (c : PersistedClosure) : option EntryHash :=
  List.find (fun event => negb (bool_decide (event ∈ concat (map literals (pc_clauses c))))) (concat (map ph_events (pc_hypotheses c))).

Fixpoint validate_closures (cs : list PersistedClosure) : result SolverStateError unit :=
  match cs with
  | [] => Ok tt
  | c :: cs => match uncovered_event c with Some event => Err (HypothesisNotCovered (pc_key c) event) | None => validate_closures cs end
  end.

Definition resumed_hypothesis (h : PersistedHypothesis) : FaultHypothesis :=
  mkHypothesis (ph_events h) (ph_cost h) (ResumedHypothesis (length (ph_events h))).

Definition restore_closure (s : HittingSetSolver) (c : PersistedClosure) : HittingSetSolver :=
  let s := cache_clauses s (pc_key c) (pc_clauses c) in
  match pc_hypotheses c, pc_clauses c with
  | _ :: _, _ :: _ => cache_hypotheses s (pc_key c) (map resumed_hypothesis (pc_hypotheses c))
  | _, _ => s
  end.

Definition resume_solver (s : HittingSetSolver) (a : SolverStateArtifact) (resolved : SolverEngine) :
    result SolverError unit * HittingSetSolver :=
  if negb (bool_decide (a_engine a = resolved)) then (Err (SolverState (EngineMismatch resolved (a_engine a))), s)
  else if negb (bool_decide (a_run_config a = run_config_hash (s_config s)))
  then (Err (SolverState (RunConfigMismatch (run_config_hash (s_config s)) (a_run_config a))), s)
  else if negb (bool_decide (a_fingerprint a = fingerprint blake3 (s_config s) resolved))
  then (Err (SolverState (StateKeyMismatch (fingerprint blake3 (s_config s) resolved) (a_fingerprint a))), s)
  else
    match validate_closures (closures a) with
    | Err e => (Err (SolverState e), s)
    | Ok _ => (Ok tt, foldl restore_closure s (closures a))
    end.

(** [persist_state]; of the errors that are not the journal's, saving has only the unresolved engine. *)
Definition persist_state (base_unique : bool) (s : HittingSetSolver) (j : JournalState) (actor : Z) :
    result JournalError (EntryHash * JournalState) :=
  map_err (fun e => match e with
                    | StateJournal err => err
                    | _ => InvariantViolation "artifact engine is unresolved Auto; resolve before persisting"
                    end)
    (save base_unique j actor (snapshot_artifact s Builtin)).
End Persist.

(** ** Persisted solver state round trips

    - The artifact codec is exact.
    - An artifact saved in the journal is loaded back.
    - A solver resumed_hypothesis from a snapshot serves what the snapshot's solver served. *)

(** ** Exact readers *)

(** A reader that accepts exactly the encodings of the values that are within bounds. *)
Class Exact {A} (ok : A -> Prop) (enc : A -> list byte) (read : creader A) : Prop := {
  exact_complete : forall x rest off, ok x -> read (enc x ++ rest, off) = Ok (x, (rest, (off + length (enc x))%nat));
  exact_sound : forall b off x rest off', read (b, off) = Ok (x, (rest, off')) -> ok x /\ b = enc x ++ rest /\ off' = (off + length (enc x))%nat }.

Lemma take_exact n : Exact (fun b => length b = n) id (c_take n).
Proof.
  split.
  - intros x rest off Hx. unfold c_take. cbn [fst snd id]. rewrite length_app, Hx.
    destruct (Nat.ltb_spec (n + length rest) n); [lia|]. rewrite <- Hx, take_app_prefix, drop_app_prefix. done.
  - intros b off x rest off' H. unfold c_take in H. cbn [fst snd] in H. destruct (Nat.ltb_spec (length b) n); [done|].
    injection H as <- <- <-. cbn [id]. rewrite take_drop, length_take. split_and!; [lia | done | lia].
Qed.

#[export] Instance hash_exact : Exact digest_ok id c_hash.
Proof. apply take_exact. Qed.

#[export] Instance u64_exact : Exact is_u64 (to_le_bytes 8) c_u64.
Proof.
  split.
  - intros x rest off Hx. unfold c_u64. pose proof (exact_complete (Exact := take_exact 8) (to_le_bytes 8 x) rest off (length_to_le_bytes 8 x)) as H.
    cbn [id] in H. rewrite H. rewrite from_to_le_bytes; [done|]. change (256 ^ Z.of_nat 8) with (u64_max + 1). unfold is_u64 in Hx. lia.
  - intros b off x rest off' H. unfold c_u64 in H. destruct (c_take 8 (b, off)) as [[b8 [r o]]|] eqn:E; [|done].
    apply (exact_sound (Exact := take_exact 8)) in E as (Hl & -> & ->). cbn [id] in *. injection H as <- <- <-.
    pose proof (from_le_bytes_range b8) as Hr. rewrite Hl in Hr. change (256 ^ Z.of_nat 8) with (u64_max + 1) in Hr.
    split; [unfold is_u64; lia|]. pose proof (to_from_le_bytes b8) as Ht. rewrite Hl in Ht. rewrite Ht. done.
Qed.

Lemma times_complete {A} {ok : A -> Prop} {enc read} `{!Exact ok enc read} l : forall rest off, Forall ok l ->
  read_times (length l) read (concat (map enc l) ++ rest, off) = Ok (l, (rest, (off + length (concat (map enc l)))%nat)).
Proof.
  induction l as [|x l IH]; intros rest off Hl; cbn [read_times length map concat]; [rewrite Nat.add_0_r; done|].
  inversion_clear Hl as [|? ? Hx Hl']. rewrite <- app_assoc, exact_complete by done. rewrite IH by done.
  rewrite length_app, Nat.add_assoc. done.
Qed.

Lemma times_sound {A} {ok : A -> Prop} {enc read} `{!Exact ok enc read} n : forall b off l rest off',
  read_times n read (b, off) = Ok (l, (rest, off')) ->
  length l = n /\ Forall ok l /\ b = concat (map enc l) ++ rest /\ off' = (off + length (concat (map enc l)))%nat.
Proof.
  induction n as [|n IH]; intros b off l rest off' H; cbn [read_times] in H.
  - injection H as <- <- <-. cbn. rewrite Nat.add_0_r. done.
  - destruct (read (b, off)) as [[x [r1 o1]]|] eqn:E; [|done]. apply exact_sound in E as (Hx & -> & ->).
    destruct (read_times n read _) as [[l1 [r2 o2]]|] eqn:E2; [|done]. injection H as <- <- <-.
    apply IH in E2 as (Hl & Hf & -> & ->). cbn [length map concat]. rewrite length_app, <- app_assoc, Nat.add_assoc.
    split_and!; [lia | constructor; done | done..].
Qed.

Lemma counted_exact {A} (ok : A -> Prop) enc read elem field `{!Exact ok enc read} : 0 < elem ->
  (forall x, ok x -> elem <= Z.of_nat (length (enc x))) ->
  Exact (fun l => Forall ok l /\ Z.of_nat (length l) <= u64_max) (encode_counted enc) (read_counted elem field read).
Proof.
  intros He Hmin. split.
  - intros l rest off [Hl Hn]. unfold read_counted, encode_counted. rewrite <- app_assoc, exact_complete by (unfold is_u64; lia).
    unfold bounded_count. cbn [fst].
    assert (Hlen : Z.of_nat (length l) * elem <= Z.of_nat (length (concat (map enc l)))).
    { clear Hn. induction Hl as [|x l Hx _ IH]; [done|]. cbn [map concat length]. rewrite length_app. specialize (Hmin x Hx). lia. }
    destruct (Z.ltb_spec (Z.of_nat (length (concat (map enc l) ++ rest))) (Z.of_nat (length l) * elem)) as [Hlt|_].
    { rewrite length_app in Hlt. lia. }
    rewrite Nat2Z.id, times_complete by done. rewrite length_app, Nat.add_assoc. done.
  - intros b off l rest off' H. unfold read_counted in H. destruct (c_u64 (b, off)) as [[n [r1 o1]]|] eqn:E; [|done].
    apply exact_sound in E as (Hu & -> & ->). unfold bounded_count in H. destruct (_ <? _)%Z; [done|].
    apply times_sound in H as (Hlen & Hf & -> & ->). unfold is_u64 in Hu.
    assert (n = Z.of_nat (length l)) as -> by lia. unfold encode_counted. rewrite <- app_assoc, length_app, Nat.add_assoc.
    split_and!; [done | lia | done..].
Qed.

(** ** The artifact *)

Definition digests_ok (l : list EntryHash) : Prop := Forall digest_ok l /\ Z.of_nat (length l) <= u64_max.
Definition clause_ok (c : WeightedClause) : Prop := digests_ok (literals c) /\ is_u64 (weight c).
Definition persisted_ok (h : PersistedHypothesis) : Prop := digests_ok (ph_events h) /\ is_u64 (ph_cost h).
Definition closure_ok (c : PersistedClosure) : Prop := digest_ok (pc_key c)
  /\ (Forall clause_ok (pc_clauses c) /\ Z.of_nat (length (pc_clauses c)) <= u64_max)
  /\ (Forall persisted_ok (pc_hypotheses c) /\ Z.of_nat (length (pc_hypotheses c)) <= u64_max).

Record artifact_ok (a : SolverStateArtifact) : Prop := {
  ao_closures : Forall closure_ok (closures a) /\ Z.of_nat (length (closures a)) <= u64_max;
  ao_fingerprint : digest_ok (a_fingerprint a);
  ao_run : opt_all digest_ok (a_run_config a) }.

#[local] Instance digests_exact field : Exact digests_ok (encode_counted id) (read_counted 32 field c_hash).
Proof. apply counted_exact; [apply _ | lia | intros x Hx; unfold id; rewrite Hx; lia]. Qed.

Lemma length_counted {A} (enc : A -> list byte) l : (8 <= length (encode_counted enc l))%nat.
Proof. unfold encode_counted. rewrite length_app, length_to_le_bytes. lia. Qed.

(** Step a reader through a value it accepts, or invert one that succeeded. *)
Ltac read_step := rewrite <- ?app_assoc, exact_complete by done; cbv beta iota.
Ltac read_inv H :=
  match type of H with
  | match ?r with Ok _ => _ | Err _ => _ end = Ok _ =>
      let E := fresh "E" in destruct r as [[? [? ?]]|] eqn:E; [|discriminate H]; apply exact_sound in E as (? & -> & ->)
  end.

#[local] Instance clause_exact : Exact clause_ok encode_clause read_clause.
Proof.
  split.
  - intros [lits w] rest off [H1 H2]. cbn [literals weight] in H1, H2. unfold read_clause, encode_clause. cbn [literals weight]. do 2 read_step.
    rewrite length_app, Nat.add_assoc. done.
  - intros b off [lits w] rest off' H. unfold read_clause in H. do 2 read_inv H. injection H as <- <- <- <-.
    unfold encode_clause, clause_ok. cbn [literals weight]. rewrite <- app_assoc, length_app, Nat.add_assoc. done.
Qed.

#[local] Instance persisted_exact : Exact persisted_ok encode_hypothesis read_hypothesis.
Proof.
  split.
  - intros [evs c] rest off [H1 H2]. cbn [ph_events ph_cost] in H1, H2. unfold read_hypothesis, encode_hypothesis. cbn [ph_events ph_cost]. do 2 read_step.
    rewrite length_app, Nat.add_assoc. done.
  - intros b off [evs c] rest off' H. unfold read_hypothesis in H. do 2 read_inv H. injection H as <- <- <- <-.
    unfold encode_hypothesis, persisted_ok. cbn [ph_events ph_cost]. rewrite <- app_assoc, length_app, Nat.add_assoc. done.
Qed.

#[local] Instance clauses_exact : Exact (fun l => Forall clause_ok l /\ Z.of_nat (length l) <= u64_max)
  (encode_counted encode_clause) (read_counted 16 "clause" read_clause).
Proof.
  apply counted_exact; [apply _ | lia|]. intros x _. unfold encode_clause. rewrite length_app, length_to_le_bytes.
  pose proof (length_counted id (literals x)). lia.
Qed.

#[local] Instance persisteds_exact : Exact (fun l => Forall persisted_ok l /\ Z.of_nat (length l) <= u64_max)
  (encode_counted encode_hypothesis) (read_counted 16 "hypothesis" read_hypothesis).
Proof.
  apply counted_exact; [apply _ | lia|]. intros x _. unfold encode_hypothesis. rewrite length_app, length_to_le_bytes.
  pose proof (length_counted id (ph_events x)). lia.
Qed.

#[local] Instance closure_exact : Exact closure_ok encode_closure read_closure.
Proof.
  split.
  - intros [k cs hs] rest off (H1 & H2 & H3). cbn [pc_key pc_clauses pc_hypotheses] in *. unfold read_closure, encode_closure.
    cbn [pc_key pc_clauses pc_hypotheses]. change k with (id k) at 1. do 3 read_step. rewrite !length_app. cbn [id].
    rewrite !Nat.add_assoc. done.
  - intros b off [k cs hs] rest off' H. unfold read_closure in H. do 3 read_inv H. injection H as <- <- <- <- <-.
    unfold encode_closure, closure_ok. cbn [pc_key pc_clauses pc_hypotheses]. rewrite !length_app, <- !app_assoc. unfold id.
    split; [done | split; [done|]]. rewrite !Nat.add_assoc. reflexivity.
Qed.

#[local] Instance closures_exact : Exact (fun l => Forall closure_ok l /\ Z.of_nat (length l) <= u64_max)
  (encode_counted encode_closure) (read_counted 48 "closures" read_closure).
Proof.
  apply counted_exact; [apply _ | lia|]. intros x (Hk & _). unfold encode_closure. rewrite !length_app, Hk.
  pose proof (length_counted encode_clause (pc_clauses x)). pose proof (length_counted encode_hypothesis (pc_hypotheses x)). lia.
Qed.

Lemma byte_exact : Exact (fun _ => True) (fun b => [b]) c_byte.
Proof.
  split.
  - intros x rest off _. unfold c_byte, c_take. cbn [fst snd app length]. destruct (Nat.ltb_spec (S (length rest)) 1); [lia|]. done.
  - intros b off x rest off' H. unfold c_byte in H. destruct (c_take 1 (b, off)) as [[l [r o]]|] eqn:E; [|done].
    apply (exact_sound (Exact := take_exact 1)) in E as (Hl & -> & ->). unfold id in *. injection H as <- <- <-.
    destruct l as [|y [|]]; done.
Qed.

Definition read_run : creader (option EntryHash) := fun c => let? '(flag, c) := c_byte c in read_run_config flag c.

Lemma run_exact : Exact (opt_all digest_ok) opt_hash read_run.
Proof.
  split.
  - intros [h|] rest off H; unfold read_run, opt_hash.
    + change ((x01 :: h) ++ rest) with ([x01] ++ (h ++ rest)). rewrite (exact_complete (Exact := byte_exact)) by done.
      unfold read_run_config. cbn [bool_decide]. rewrite bool_decide_false, bool_decide_true by done.
      change (h ++ rest) with (id h ++ rest). rewrite exact_complete by exact H. unfold id. cbn [length]. do 2 f_equal. f_equal. lia.
    + rewrite (exact_complete (Exact := byte_exact)) by done. unfold read_run_config. rewrite bool_decide_true by done. done.
  - intros b off x rest off' H. unfold read_run in H. destruct (c_byte (b, off)) as [[f [r o]]|] eqn:E; [|done].
    apply (exact_sound (Exact := byte_exact)) in E as (_ & -> & ->). unfold read_run_config in H.
    case_bool_decide as E0; [injection H as <- <- <-; subst f; done|]. case_bool_decide as E1; [|done]. subst f.
    destruct (c_hash _) as [[h [r1 o1]]|] eqn:Eh; [|done]. apply exact_sound in Eh as (Hh & -> & ->). injection H as <- <- <-.
    unfold opt_hash, id. cbn [length app]. split_and!; [done..|lia].
Qed.

Lemma engine_exact b e : read_engine b = Ok e <-> e <> Auto /\ b = engine_byte e.
Proof.
  unfold read_engine. split.
  - repeat case_bool_decide; intros E; try done; injection E as <-; done.
  - destruct e; intros [He ->]; done.
Qed.

(** The body after the engine byte. *)
Definition read_body : creader (option EntryHash * EntryHash * list PersistedClosure) := fun c =>
  let? '(run, c) := read_run c in
  let? '(fp, c) := c_hash c in
  let? '(cls, c) := read_counted 48 "closures" read_closure c in
  Ok ((run, fp, cls), c).

Definition encode_body (x : option EntryHash * EntryHash * list PersistedClosure) : list byte :=
  opt_hash x.1.1 ++ x.1.2 ++ encode_counted encode_closure x.2.

Definition body_ok (x : option EntryHash * EntryHash * list PersistedClosure) : Prop :=
  opt_all digest_ok x.1.1 /\ digest_ok x.1.2 /\ (Forall closure_ok x.2 /\ Z.of_nat (length x.2) <= u64_max).

Lemma body_exact : Exact body_ok encode_body read_body.
Proof.
  split.
  - intros [[run fp] cls] rest off (H1 & H2 & H3). unfold read_body, encode_body. cbn [fst snd] in *.
    rewrite <- !app_assoc, (exact_complete (Exact := run_exact)) by done. change fp with (id fp) at 1. do 2 read_step.
    rewrite !length_app, !Nat.add_assoc. done.
  - intros b off [[run fp] cls] rest off' H. unfold read_body in H.
    destruct (read_run (b, off)) as [[run' [r o]]|] eqn:E; [|done]. apply (exact_sound (Exact := run_exact)) in E as (H1 & -> & ->).
    do 2 read_inv H. injection H as <- <- <- <- <-. unfold encode_body, body_ok. cbn [fst snd]. rewrite !length_app, <- !app_assoc. unfold id.
    split; [done | split; [done|]]. rewrite !Nat.add_assoc. reflexivity.
Qed.

Lemma decode_artifact_eq bytes : decode_artifact bytes =
  if (length bytes <? 51)%nat then Err (Truncated 0)
  else if negb (bool_decide (take 8 bytes = STATE_MAGIC)) then Err MissingMagic
  else
    let? '(version, c) := c_byte (drop 8 bytes, 8%nat) in
    if negb (bool_decide (version = STATE_FORMAT_VERSION)) then Err (UnsupportedFormatVersion (b2z version))
    else
      let? '(eb, c) := c_byte c in
      let? resolved := read_engine eb in
      let? '((run, fp, cls), c) := read_body c in
      match c.1 with
      | [] => Ok (mkArtifact cls fp run resolved)
      | _ :: _ => Err StateTrailingBytes
      end.
Proof.
  unfold decode_artifact, read_body, read_run.
  repeat (case_match; try done; simplify_eq/=).
Qed.

Lemma artifact_bytes a b : encode_artifact a = Ok b <-> a_engine a <> Auto /\
  b = STATE_MAGIC ++ [STATE_FORMAT_VERSION] ++ [engine_byte (a_engine a)] ++ encode_body (a_run_config a, a_fingerprint a, closures a).
Proof.
  unfold encode_artifact, encode_body. cbn [fst snd].
  destruct (a_engine a); (split; [intros H; try done; injection H as <-; done | intros [H ->]; done]).
Qed.

Lemma artifact_body_ok a : artifact_ok a <-> body_ok (a_run_config a, a_fingerprint a, closures a).
Proof. unfold body_ok. cbn [fst snd]. split; [intros [H1 H2 H3]; done | intros (H1 & H2 & H3); split; done]. Qed.

Lemma decode_encode_artifact a b : artifact_ok a -> encode_artifact a = Ok b -> decode_artifact b = Ok a.
Proof.
  intros Ha [He ->]%artifact_bytes. apply artifact_body_ok in Ha. set (x := (a_run_config a, a_fingerprint a, closures a)) in *.
  rewrite decode_artifact_eq.
  assert (Hlen : (41 <= length (encode_body x))%nat).
  { unfold encode_body. rewrite !length_app. pose proof (length_counted encode_closure x.2).
    assert (length x.1.2 = 32)%nat as -> by apply Ha. unfold opt_hash. destruct x.1.1; cbn [length]; lia. }
  destruct (Nat.ltb_spec (length (STATE_MAGIC ++ [STATE_FORMAT_VERSION] ++ [engine_byte (a_engine a)] ++ encode_body x)) 51) as [Hl|_].
  { rewrite !length_app in Hl. change (length STATE_MAGIC) with 8%nat in Hl. cbn [length] in Hl. lia. }
  rewrite (take_app_length' STATE_MAGIC), (drop_app_length' STATE_MAGIC) by done. rewrite bool_decide_true by done. cbn [negb].
  rewrite (exact_complete (Exact := byte_exact)) by done. rewrite bool_decide_true by done. cbn [negb].
  rewrite (exact_complete (Exact := byte_exact)) by done. rewrite (proj2 (engine_exact _ _) (conj He eq_refl)).
  pose proof (exact_complete (Exact := body_exact) x [] (8 + length [STATE_FORMAT_VERSION] + length [engine_byte (a_engine a)]) Ha) as Hb.
  rewrite app_nil_r in Hb. rewrite Hb. subst x. destruct a; done.
Qed.

Lemma decode_artifact_sound b a : decode_artifact b = Ok a -> artifact_ok a /\ encode_artifact a = Ok b.
Proof.
  rewrite decode_artifact_eq. destruct (_ <? _)%nat; [done|]. case_bool_decide as Hm; [|done]. cbn [negb].
  destruct (c_byte _) as [[v [r o]]|] eqn:E1; [|done]. apply (exact_sound (Exact := byte_exact)) in E1 as (_ & Hb & ->).
  case_bool_decide as Hv; [|done]. cbn [negb]. subst v.
  destruct (c_byte _) as [[e [r1 o1]]|] eqn:E2; [|done]. apply (exact_sound (Exact := byte_exact)) in E2 as (_ & -> & ->).
  destruct (read_engine e) as [eng|] eqn:E3; [|done]. apply engine_exact in E3 as [Hne ->].
  destruct (read_body _) as [[[[run fp] cls] [r2 o2]]|] eqn:E4; [|done].
  apply (exact_sound (Exact := body_exact)) in E4 as (Hok & -> & ->). cbn [fst]. destruct r2; [|done]. intros H. injection H as <-.
  split; [apply artifact_body_ok; exact Hok|]. apply artifact_bytes. cbn [a_engine a_run_config a_fingerprint closures]. split; [done|].
  rewrite app_nil_r in Hb. rewrite <- (take_drop 8 b), Hm, Hb. done.
Qed.

(** The artifact codec is exact: decoding accepts exactly the encodings of the artifacts whose digests have 32 bytes and
    whose counts and costs fit 64 bits, and gives the artifact encoded.  So two byte strings never decode to the same
    artifact, and a truncated, extended or otherwise changed file either is refused or is another artifact. *)
Theorem artifact_codec_exact b a : decode_artifact b = Ok a <-> artifact_ok a /\ encode_artifact a = Ok b.
Proof. split; [apply decode_artifact_sound | intros [Ha He]; eapply decode_encode_artifact; done]. Qed.

(** ** Saving and loading *)

(** The artifacts among the entries of a journal that loads. *)
Lemma load_loop_In es l : load_loop es = Ok l -> forall a, In a l <->
  exists e b, In e es /\ outcome_bytes e = Some b /\ decode_artifact b = Ok a.
Proof.
  revert l. induction es as [|e es IH]; intros l H a; cbn [load_loop] in H; [injection H as <-; split; [done | intros (? & ? & [] & _)]|].
  assert (Hnone : (forall b, outcome_bytes e = Some b -> decode_artifact b <> Ok a) -> forall l', load_loop es = Ok l' ->
    In a l' <-> exists e' b, In e' (e :: es) /\ outcome_bytes e' = Some b /\ decode_artifact b = Ok a).
  { intros Hno l' Hl'. rewrite (IH l' Hl' a). split.
    - intros (e' & b & H1 & H2). exists e', b. split; [right; done | done].
    - intros (e' & b & [<-|H1] & H2 & H3); [destruct (Hno b H2 H3)|]. exists e', b. done. }
  destruct (outcome_bytes e) as [b|] eqn:Eb; [|apply Hnone; done].
  destruct (is_state b) eqn:Es.
  - destruct (decode_artifact b) as [a'|] eqn:Ed; [|done]. cbn [map_err] in H. destruct (load_loop es) as [l'|] eqn:El; [|done].
    injection H as <-. cbn [In]. rewrite (IH l' eq_refl a). split.
    + intros [<-|(e' & b' & H1 & H2)]; [exists e, b; split; [left|]; done|]. exists e', b'. split; [right; done | done].
    + intros (e' & b' & [<-|H1] & H2 & H3); [left; congruence|]. right. exists e', b'. done.
  - apply Hnone; [|done]. intros b' E Hd. injection E as <-. unfold is_state in Es. apply bool_decide_eq_false in Es.
    unfold decode_artifact in Hd. destruct (_ <? _)%nat; [done|]. rewrite bool_decide_false in Hd by done. done.
Qed.

Lemma load_loop_app es l e b a : load_loop es = Ok l -> outcome_bytes e = Some b -> decode_artifact b = Ok a ->
  load_loop (es ++ [e]) = Ok (l ++ [a]).
Proof.
  intros H Hb Hd. revert l H. induction es as [|e' es IH]; intros l H; cbn [load_loop app] in *.
  - injection H as <-. rewrite Hb, Hd. assert (is_state b = true) as ->; [|done].
    unfold decode_artifact in Hd. destruct (_ <? _)%nat; [done|]. unfold is_state. case_bool_decide; done.
  - destruct (outcome_bytes e') as [b'|]; [|apply IH; done]. destruct (is_state b'); [|apply IH; done].
    destruct (map_err _ _) as [a'|]; [|done]. destruct (load_loop es) as [l'|]; [|done]. injection H as <-.
    rewrite (IH l' eq_refl). done.
Qed.

(** Saving adds to a set: when the journal loads to [l], saving an artifact within bounds makes it load to [l] with the
    artifact added at the end, or leaves it as it was when the artifact is in [l] already.  A new entry's identity is not
    in the journal. *)
Theorem save_load_roundtrip blake3 bu j actor a id j' l : journal_reach blake3 j -> artifact_ok a ->
  (forall o id j', append blake3 bu j KOutcome actor [] o = Ok (id, j') -> state_lookup j id = None) ->
  load j = Ok l -> save blake3 bu j actor a = Ok (id, j') ->
  load j' = Ok (if bool_decide (a ∈ l) then l else l ++ [a]).
Proof.
  intros (log & _ & R)%journal_reach_represents Ha Hfresh Hl. unfold save.
  destruct (encode_artifact a) as [b|] eqn:Eb; [|done]. pose proof (decode_encode_artifact a b Ha Eb) as Hd.
  assert (Hin : a ∈ l <-> exists e, In e (entries j) /\ outcome_bytes e = Some b).
  { rewrite list_elem_of_In, (load_loop_In _ _ Hl a). split; [|intros (e & H1 & H2); exists e, b; done].
    intros (e & b' & H1 & H2 & H3). exists e. split; [done|]. apply decode_artifact_sound in H3 as [_ H3]. congruence. }
  destruct (List.find _ _) as [e|] eqn:Ef.
  - apply List.find_some in Ef as [H1 H2%bool_decide_eq_true]. intros E. injection E as <- <-.
    rewrite bool_decide_true by (apply Hin; exists e; done). done.
  - rewrite bool_decide_false.
    2:{ intros (e & H1 & H2)%Hin. pose proof (List.find_none _ _ Ef e H1) as H3. cbv beta in H3. rewrite bool_decide_true in H3; done. }
    destruct (append _ _ _ _ _ _ _) as [[i s]|] eqn:Ea; [|done]. intros E. injection E as <- <-. specialize (Hfresh _ _ _ Ea).
    pose proof (append_refines blake3 bu j log KOutcome actor [] (POutcome (mkOutcome (repeat x00 32) (VBytes b))) R) as H.
    destruct (log_append _ _ _ _ _ _) as [e|] eqn:En; [|congruence]. destruct H as (s' & H1 & H2). rewrite Ea in H1. simplify_eq.
    rewrite (r_lookup _ _ R) in Hfresh. specialize (H2 Hfresh). unfold load in *. rewrite (represents_entries _ _ H2).
    rewrite (represents_entries _ _ R) in Hl. eapply load_loop_app; [done| |done].
    unfold log_append in En. cbv zeta in En. run_match En;
      apply new_actor in En as [Hd' _]; unfold outcome_bytes; rewrite Hd'; done.
Qed.

(** ** Resuming *)

(** What a hypothesis says, without how it was found. *)
Definition finding (h : FaultHypothesis) : list EntryHash * Z := (events h, total_cost h).

Definition findings (r : result SolverError (list FaultHypothesis)) : result SolverError (list (list EntryHash * Z)) :=
  let? l := r in Ok (map finding l).

(** The answers to a sequence of incremental queries, each against the solver the one before left. *)
Fixpoint answers (blake3 : list byte -> list byte) (s : HittingSetSolver) (qs : list (EntryHash * list WeightedClause * byte)) :
    list (result SolverError (list (list EntryHash * Z))) :=
  match qs with
  | [] => []
  | (closure, clauses, tag) :: qs =>
      let '(r, s) := solve_incremental_with_tag blake3 s closure clauses tag in findings r :: answers blake3 s qs
  end.

(** The caches hold only answers: the clauses and hypotheses under a key belong together. *)
Definition faithful (config : SolverConfig) (s : HittingSetSolver) : Prop := s_config s = config /\
  forall key clauses hyps, cached s key clauses = Some hyps ->
    findings (Ok hyps) = findings (ranked (max_horizon config) clauses).

Lemma faithful_step blake3 config s closure clauses tag : faithful config s ->
  findings (solve_incremental_with_tag blake3 s closure clauses tag).1 = findings (ranked (max_horizon config) clauses)
  /\ faithful config (solve_incremental_with_tag blake3 s closure clauses tag).2.
Proof.
  intros [Hc Hs]. rewrite incremental_eq, Hc. destruct (cached s _ clauses) as [hyps|] eqn:E; [split; [eapply Hs; exact E | done]|].
  destruct (ranked (max_horizon config) clauses) as [hyps|] eqn:Er; [|done]. split; [done|]. split; [done|].
  set (key := incremental_key_with_tag blake3 s closure tag). intros key' clauses' hyps'. unfold cached.
  cbn [snd s_hypotheses s_cache cache_hypotheses cache_clauses]. destruct (decide (key' = key)) as [->|Hne].
  - rewrite !lookup_insert_eq. case_bool_decide; [|done]. intros. simplify_eq. rewrite Er. done.
  - rewrite !lookup_insert_ne by done. apply Hs.
Qed.

Lemma faithful_answers blake3 config qs : forall s, faithful config s ->
  answers blake3 s qs = map (fun q => findings (ranked (max_horizon config) q.1.2)) qs.
Proof.
  induction qs as [|[[closure clauses] tag] qs IH]; intros s Hs; [done|]. cbn [answers map].
  pose proof (faithful_step blake3 config s closure clauses tag Hs) as [H1 H2].
  destruct (solve_incremental_with_tag _ _ _ _ _) as [r s']. cbn [fst snd] in *. rewrite H1, IH by done. done.
Qed.

(** The caches of a solver used incrementally. *)
Lemma incremental_paired blake3 config s : incremental_reach blake3 config s -> s_config s = config /\
  forall key : EntryHash,
    match s_cache s !! key, s_hypotheses s !! key with
    | Some clauses, Some hyps => ranked (max_horizon config) clauses = Ok hyps
    | None, None => True
    | _, _ => False
    end.
Proof.
  induction 1 as [|s closure clauses tag _ [Hc IH]]; [split; [done|]; intros key; cbn; rewrite !lookup_empty; done|].
  rewrite incremental_eq. destruct (cached s _ clauses) as [hyps|]; [done|].
  rewrite Hc. destruct (ranked (max_horizon config) clauses) as [hyps|] eqn:Er; [|done]. cbn [snd]. split; [done|].
  set (key := incremental_key_with_tag blake3 s closure tag). intros key'.
  cbn [s_hypotheses s_cache cache_hypotheses cache_clauses]. destruct (decide (key' = key)) as [->|Hne].
  - rewrite !lookup_insert_eq. done.
  - rewrite !lookup_insert_ne by done. apply IH.
Qed.

(** A minimal hitting set has only events of the paths. *)
Lemma minimal_hitting_covered s paths x : minimal_hitting s paths -> In x s -> In x (concat paths).
Proof.
  intros (Ho & Hh & Hm) Hx. set (t := List.filter (fun y => bool_decide (y ∈ concat paths)) s).
  assert (Ht : forall y, In y t <-> In y s /\ In y (concat paths)).
  { intros y. unfold t. rewrite filter_In, bool_decide_eq_true, list_elem_of_In. done. }
  assert (t = s) as E.
  { apply Hm.
    - unfold t. clear -Ho. induction Ho as [|y s Hs IH Hy]; cbn [List.filter]; [constructor|].
      destruct (bool_decide _); [|done]. constructor; [done|]. apply List.Forall_forall. intros z Hz%filter_In.
      rewrite List.Forall_forall in Hy. apply Hy, Hz.
    - intros p Hp. destruct (Hh p Hp) as (y & H1 & H2). exists y. split; [|done]. apply Ht. split; [done|]. apply in_concat. exists p. done.
    - intros y Hy. apply Ht, Hy. }
  rewrite <- E in Hx. apply Ht, Hx.
Qed.

Lemma ranked_hypothesis horizon clauses hyps h : ranked horizon clauses = Ok hyps -> In h hyps ->
  hset (events h) /\ forall x, In x (events h) -> In x (concat (map literals clauses)).
Proof.
  unfold ranked. set (paths := map (fun c => map (fun hash => mkFaultable hash KSend (weight c)) (literals c)) clauses).
  intros H Hh. destruct (match paths with [] => Ok [] | _ :: _ => compute_minimal_hitting_sets paths end) as [sets|] eqn:Es; [|done].
  injection H as <-. apply sort_by_In, in_map_iff in Hh as (s & <- & Hs). cbn [events hypothesis].
  assert (minimal_hitting s (event_paths paths)) as Hm.
  { destruct paths; [injection Es as <-; done|]. apply compute_candidates in Es. apply (candidates_minimal _ _ Es), Hs. }
  split; [apply Hm|]. intros x Hx. pose proof (minimal_hitting_covered s _ x Hm Hx) as Hc.
  replace (event_paths paths) with (map literals clauses) in Hc; [done|].
  unfold event_paths, paths. rewrite map_map. apply map_ext. intros c. rewrite map_map. cbn. rewrite map_id. done.
Qed.

Lemma restore_cache s c : s_cache (restore_closure s c) = <[pc_key c := pc_clauses c]> (s_cache s).
Proof. unfold restore_closure. destruct (pc_hypotheses c); [done|]. destruct (pc_clauses c); done. Qed.

Lemma restore_rest s c : s_config (restore_closure s c) = s_config s /\
  (s_hypotheses (restore_closure s c) = s_hypotheses s \/
   s_hypotheses (restore_closure s c) = <[pc_key c := map resumed_hypothesis (pc_hypotheses c)]> (s_hypotheses s)).
Proof.
  unfold restore_closure. destruct (pc_hypotheses c); [split; [done | left; done]|].
  destruct (pc_clauses c); split; [done | left; done | done | right; done].
Qed.

Lemma restored s s0 keys : forall k : EntryHash,
  s_config (foldl restore_closure s0 (map (persist_closure s) keys)) = s_config s0 /\
  (k ∈ keys -> s_cache (foldl restore_closure s0 (map (persist_closure s) keys)) !! k = Some (default [] (s_cache s !! k))) /\
  (s_hypotheses (foldl restore_closure s0 (map (persist_closure s) keys)) !! k = s_hypotheses s0 !! k \/
   k ∈ keys /\ s_hypotheses (foldl restore_closure s0 (map (persist_closure s) keys)) !! k
     = Some (map resumed_hypothesis (map persist_hypothesis (default [] (s_hypotheses s !! k))))).
Proof.
  intros k. induction keys as [|key keys IH] using rev_ind; [split_and!; [done | intros H; inversion H | left; done]|].
  rewrite map_app, foldl_app. cbn [map foldl]. set (t := foldl restore_closure s0 (map (persist_closure s) keys)) in *.
  destruct IH as (Hc & H1 & H2). rewrite elem_of_app, list_elem_of_singleton.
  assert (E : s_cache (restore_closure t (persist_closure s key)) = <[key := default [] (s_cache s !! key)]> (s_cache t)).
  { apply restore_cache. }
  rewrite E. split_and!.
  - destruct (restore_rest t (persist_closure s key)) as [-> _]. done.
  - intros Hk. destruct (decide (k = key)) as [->|Hne]; [rewrite lookup_insert_eq; done|]. rewrite lookup_insert_ne by done.
    apply H1. destruct Hk; done.
  - destruct (restore_rest t (persist_closure s key)) as [_ [-> | ->]]; cbn [persist_closure pc_key pc_hypotheses].
    + destruct H2 as [H2|[H2 H3]]; [left; done | right; split; [left|]; done].
    + destruct (decide (k = key)) as [->|Hne]; [right; split; [right; done|]; rewrite lookup_insert_eq; done|].
      rewrite lookup_insert_ne by done. destruct H2 as [H2|[H2 H3]]; [left; done | right; split; [left|]; done].
Qed.

Definition snapshot_keys (s : HittingSetSolver) : list EntryHash :=
  scollect cmp_hash (map fst (map_to_list (s_hypotheses s)) ++ map fst (map_to_list (s_cache s))).

Lemma snapshot_validates config s keys :
  (forall key : EntryHash,
    match s_cache s !! key, s_hypotheses s !! key with
    | Some clauses, Some hyps => ranked (max_horizon config) clauses = Ok hyps
    | None, None => True
    | _, _ => False
    end) -> validate_closures (map (persist_closure s) keys) = Ok tt.
Proof.
  intros H. induction keys as [|key keys IH]; [done|]. cbn [map validate_closures].
  assert (uncovered_event (persist_closure s key) = None) as ->; [|done].
  unfold uncovered_event. destruct (List.find _ _) as [x|] eqn:E; [|done].
  apply List.find_some in E as [Hx Hn]. apply negb_true_iff, bool_decide_eq_false in Hn. exfalso. apply Hn. clear Hn.
  cbn [persist_closure pc_clauses pc_hypotheses] in *. specialize (H key).
  apply in_concat in Hx as (evs & Hevs & Hx). apply in_map_iff in Hevs as (p & <- & Hp). apply in_map_iff in Hp as (h & <- & Hh).
  destruct (s_cache s !! key) as [clauses|], (s_hypotheses s !! key) as [hyps|]; cbn [default from_option id] in *; try done.
  apply list_elem_of_In. eapply (ranked_hypothesis _ _ _ h); [exact H | exact Hh|]. apply sort_by_In in Hx. exact Hx.
Qed.

Lemma restored_faithful blake3 config s : incremental_reach blake3 config s ->
  faithful config (foldl restore_closure (solver_with_config config) (map (persist_closure s) (snapshot_keys s))).
Proof.
  intros [Hc Hp]%incremental_paired. split; [apply (restored s (solver_with_config config) _ []) |].
  intros key clauses hyps. destruct (restored s (solver_with_config config) (snapshot_keys s) key) as (_ & H1 & H2).
  unfold cached. destruct H2 as [->|[Hk ->]]; [cbn; rewrite lookup_empty; done|]. rewrite (H1 Hk). case_bool_decide as E; [|done].
  intros Hh. injection E as <-. injection Hh as <-. specialize (Hp key).
  assert (is_Some (s_hypotheses s !! key) \/ is_Some (s_cache s !! key)) as Hin.
  { unfold snapshot_keys in Hk. rewrite list_elem_of_In, (scollect_In cmp_hash), in_app_iff, !in_map_iff in Hk.
    destruct Hk as [([k v] & <- & Hkv)|([k v] & <- & Hkv)]; rewrite <- list_elem_of_In, elem_of_map_to_list in Hkv;
      [left | right]; exists v; exact Hkv. }
  destruct (s_cache s !! key) as [clauses|], (s_hypotheses s !! key) as [hyps|]; cbn [default from_option id]; try done.
  rewrite Hp. unfold findings. cbv beta iota. f_equal. rewrite !map_map. apply map_ext_in. intros h Hh.
  unfold finding, resumed_hypothesis, persist_hypothesis. cbn [events total_cost ph_events ph_cost].
  rewrite (sort_oset cmp_hash) by apply (ranked_hypothesis _ _ _ h Hp Hh). done.
Qed.

(** C25: resuming is transparent for incremental solving: a new solver of the same configuration accepts the snapshot of a
    solver that was used only through incremental queries, and from then on answers every sequence of incremental queries
    as the solver snapshotted does, with the same events and costs. *)
Theorem resume_parity blake3 config s resolved qs : incremental_reach blake3 config s ->
  let '(r, s') := resume_solver blake3 (solver_with_config config) (snapshot_artifact blake3 s resolved) resolved in
  r = Ok tt /\ answers blake3 s' qs = answers blake3 s qs.
Proof.
  intros Hr. pose proof (restored_faithful _ _ _ Hr) as Hf. apply incremental_cached in Hr as Hs. apply incremental_paired in Hr as [Hc Hp].
  unfold resume_solver, snapshot_artifact. fold (snapshot_keys s). cbn [a_engine a_run_config a_fingerprint closures s_config solver_with_config].
  rewrite Hc, !bool_decide_true by done. cbn [negb]. rewrite (snapshot_validates config) by exact Hp. split; [done|].
  rewrite !(faithful_answers _ config); [done| |done]. split; [done|].
  intros key clauses hyps E. destruct Hs as [_ Hs]. rewrite (Hs _ _ _ E). done.
Qed.

Definition sample_config : SolverConfig := solver_config_default.
Definition sample_query : EntryHash * list WeightedClause * byte := (repeat x07 32, sample_clauses, BUILTIN).
Definition sample_solver : HittingSetSolver :=
  (solve_incremental_with_tag roll_digest (solver_with_config sample_config) (repeat x07 32) sample_clauses BUILTIN).2.

Lemma resume_parity_witness : incremental_reach roll_digest sample_config sample_solver /\
  (let '(r, s') := resume_solver roll_digest (solver_with_config sample_config) (snapshot_artifact roll_digest sample_solver Builtin) Builtin in
   r = Ok tt /\ answers roll_digest s' [sample_query] = answers roll_digest sample_solver [sample_query]).
Proof.
  assert (Hr : incremental_reach roll_digest sample_config sample_solver) by (apply ir_step, ir_new).
  split; [exact Hr|]. exact (resume_parity roll_digest sample_config sample_solver Builtin [sample_query] Hr).
Defined.

Definition sample_artifact : SolverStateArtifact :=
  mkArtifact [mkClosure (repeat x01 32) sample_clauses [mkPersisted [repeat x02 32] 2]] (repeat x03 32) None Builtin.

Definition saved_sample : JournalState :=
  match save roll_digest false journal_new 1 sample_artifact with Ok (_, j) => j | Err _ => journal_new end.

Lemma save_load_roundtrip_witness : load saved_sample = Ok [sample_artifact].
Proof.
  assert (E : exists id, save roll_digest false journal_new 1 sample_artifact = Ok (id, saved_sample)).
  { unfold saved_sample. destruct (save _ _ _ _ _) as [[id j]|] eqn:E; [exists id; done|]. exfalso. revert E. vm_compute. discriminate. }
  destruct E as [id E].
  apply (save_load_roundtrip roll_digest false journal_new 1 sample_artifact id saved_sample []).
  - constructor.
  - split; [split; [|vm_compute; discriminate]|done|done]. repeat constructor; vm_compute; discriminate.
  - intros o i j' _. done.
  - done.
  - exact E.
Defined.
