(* ===== verification/Ldfi.v ===== *)
(** * From fault hypotheses to fault schedules

    [hypothesis_to_schedule] of [ledger-explorer/src/ldfi.rs] with the duplicate evidence of [lineage.rs], the faults of
    [ledger-sim/src/config.rs], and how the executor looks a fault up ([schedule_injection_for] of
    [ledger-sim/src/executor/effects.rs]). *)

From stdpp Require Import gmap.
From S2P Require Import Prelude Machine Limits Value Path Entry OrdMap Order Clock Dag Causal Slice SimFs.
From S2P Require Import OSet Verdict Hitting Support SolverCache Lineage HsSolver.

Open Scope Z_scope.

Inductive SimFault : Type :=
| Drop (send : EntryHash)
| Delay (send : EntryHash) (ticks : Z)
| SPartition (src dst : Z)
| Crash (write : EntryHash)
| Corrupt (write : EntryHash) (xor_mask : Z)
| CrashState (write : EntryHash) (state : Z)
| Duplicate (send : EntryHash).

#[global] Instance SimFault_eq_dec : EqDecision SimFault.
Proof. solve_decision. Defined.

(** ** Duplicate evidence *)

#[global] Instance MessageId_eq_dec : EqDecision MessageId.
Proof. solve_decision. Defined.

Definition sends_message (m : MessageId) (e : JEntry) : bool :=
  bool_decide (kind (edata e) = KSend)
  && match payload (edata e) with PSend f => bool_decide (send_id f = m) | _ => false end.

(** [send_ids]: the first send of a message. *)
Definition first_send (es : list JEntry) (m : MessageId) : option EntryHash := option_map eid (List.find (sends_message m) es).

Definition duplicated_message (e : JEntry) : option MessageId :=
  if bool_decide (kind (edata e) = KFault) then
    match payload (edata e) with PFault (DuplicateMessage m _) => Some m | _ => None end
  else None.

Definition duplicate_senders (j : JournalState) : HashSet_ :=
  scollect cmp_hash (omap (first_send (entries j)) (omap duplicated_message (entries j))).

(** ** The schedule *)

Definition parent_of_kind (k : EntryKind) (parents_ : list EntryHash) (j : JournalState) : option EntryHash :=
  List.find (fun p => match state_lookup j p with Some e => bool_decide (kind (edata e) = k) | None => false end) parents_.
Definition send_parent := parent_of_kind KSend.
Definition fs_write_parent := parent_of_kind KFsWrite.

(** The faults pushed for one event of the hypothesis, in order. *)
Definition event_injections (j : JournalState) (duplicates : HashSet_) (event : EntryHash) : list SimFault :=
  match state_lookup j event with
  | None => []
  | Some entry =>
      let d := edata entry in
      match kind d with
      | KSend =>
          if hmem event duplicates then [Duplicate event]
          else [Drop event; Delay event 1]
               ++ match payload d with PSend f => [SPartition (actor d) (send_to f)] | _ => [] end
      | KRecv =>
          match send_parent (parents d) j with
          | None => []
          | Some parent =>
              if hmem parent duplicates then [Duplicate parent]
              else [Drop parent; Delay parent 1]
                   ++ match state_lookup j parent with Some s => [SPartition (actor (edata s)) (actor d)] | None => [] end
          end
      | KFsWrite => [Corrupt event 1; CrashState event 0]
      | KFsRead =>
          match fs_write_parent (parents d) j with
          | None => []
          | Some parent => [Corrupt parent 1; CrashState parent 0]
          end
      | KTimerFire => [Delay event 1]
      | _ => []
      end
  end.

Section Schedule.
Variable blake3 : list byte -> list byte.

(** [crash_operation_for]; [None] for faults that crash nothing, [Err] for an unknown crash state. *)
Definition crash_operation_for (f : SimFault) (write_path : list byte) : option (result Z CrashOperation) :=
  match f with
  | Crash _ => Some (Ok DropAllUnsynced)
  | Corrupt w xor_mask => Some (Ok (CorruptRange w 0 (to_le_bytes 8 xor_mask)))
  | CrashState w state => Some (
      if (state =? 0)%Z then Ok DropAllUnsynced
      else if (state =? 1)%Z then Ok (DropPaths [path_ref blake3 write_path])
      else if (state =? 2)%Z then Ok (TornWrite w 0)
      else Err state)
  | _ => None
  end.

Definition injection_key (f : SimFault) : Z * EntryHash :=
  match f with
  | Drop id => (0, id)
  | Delay id _ => (1, id)
  | Crash id => (2, id)
  | Corrupt id _ => (3, id)
  | CrashState id _ => (4, id)
  | Duplicate id => (6, id)
  | SPartition src dst => (5, blake3 (to_le_bytes 4 src ++ to_le_bytes 4 dst))
  end.

(** [push_fault]: the schedule and the keys seen. *)
Definition push_fault (st : list SimFault * gset (Z * list byte)) (f : SimFault) : list SimFault * gset (Z * list byte) :=
  if decide (injection_key f ∈ st.2) then st else (st.1 ++ [f], {[injection_key f]} ∪ st.2).

(** The events in order, each once. *)
Fixpoint schedule_loop (j : JournalState) (duplicates : HashSet_) (seen : gset (list byte)) (evs : list EntryHash)
    (st : list SimFault * gset (Z * list byte)) : list SimFault * gset (Z * list byte) :=
  match evs with
  | [] => st
  | event :: evs =>
      if decide (event ∈ seen) then schedule_loop j duplicates seen evs st
      else schedule_loop j duplicates ({[event]} ∪ seen) evs (foldl push_fault st (event_injections j duplicates event))
  end.

Definition hypothesis_to_schedule (hyp : FaultHypothesis) (j : JournalState) : list SimFault :=
  (schedule_loop j (duplicate_senders j) ∅ (events hyp) ([], ∅)).1.
End Schedule.

(** ** The executor's lookup *)

Definition fault_target (f : SimFault) : option EntryHash :=
  match f with
  | Drop id | Delay id _ | Duplicate id | Crash id | Corrupt id _ | CrashState id _ => Some id
  | SPartition _ _ => None
  end.

Definition schedule_injection_for (schedule : list SimFault) (id : EntryHash) : option SimFault :=
  List.find (fun f => bool_decide (fault_target f = Some id)) schedule.

Definition duplicate_targets (schedule : list SimFault) (id : EntryHash) : bool :=
  existsb (fun f => match f with Duplicate s => bool_decide (s = id) | _ => false end) schedule.

(** ** Fault schedules of hypotheses

    - A schedule has exactly the faults of the hypothesis' events, each class and target once.
    - Every fault of it targets an entry of the kind the fault is for.
    - Of the faults on one send or one write the executor applies only the first.
    - A cut through a timer that was set has an empty schedule. *)

(** The faults a schedule can have: of one class and target there is one. *)
Definition scheduled_form (f : SimFault) : bool :=
  match f with
  | Delay _ t => (t =? 1)%Z
  | Corrupt _ m => (m =? 1)%Z
  | CrashState _ s => (s =? 0)%Z
  | Crash _ => false
  | Drop _ | Duplicate _ | SPartition _ _ => true
  end.

Lemma event_injections_form j d event f : f ∈ event_injections j d event -> scheduled_form f = true.
Proof.
  unfold event_injections. intros H. repeat case_match; rewrite ?elem_of_app in H; set_unfold; naive_solver.
Qed.

Lemma same_key blake3 f g : scheduled_form f = true -> scheduled_form g = true -> injection_key blake3 f = injection_key blake3 g ->
  fault_target f <> None -> f = g.
Proof.
  destruct f, g; cbn; intros Hf Hg E Ht; try done; injection E as E; try done; bool_hyps; subst; try done;
    repeat match goal with H : (_ =? _)%Z = true |- _ => apply Z.eqb_eq in H end; subst; done.
Qed.

(** ** The loop *)

Section Loop.
Variable blake3 : list byte -> list byte.
Variable j : JournalState.
Variable d : HashSet_.
Abbreviation key := (injection_key blake3).
Abbreviation state := (list SimFault * gset (Z * list byte))%type.

(** The keys seen are those of the schedule, each once. *)
Record keyed (st : state) : Prop := {
  k_keys : forall k, k ∈ st.2 <-> exists f, f ∈ st.1 /\ key f = k;
  k_nodup : NoDup (map key st.1) }.

Lemma keyed_push st f : keyed st -> keyed (push_fault blake3 st f).
Proof.
  intros [Hk Hn]. unfold push_fault. destruct (decide _) as [|Hf]; [done|]. split; cbn [fst snd].
  - intros k. rewrite elem_of_union, elem_of_singleton, Hk. split.
    + intros [->|(g & Hg & <-)]; [exists f | exists g]; rewrite elem_of_app, list_elem_of_singleton; auto.
    + intros (g & [Hg| ->%list_elem_of_singleton]%elem_of_app & <-); [right; exists g; done | left; done].
  - rewrite map_app. apply list.NoDup_app. split; [done|]. split; [|cbn; apply list.NoDup_singleton].
    intros k Hin ->%list_elem_of_singleton. apply Hf, Hk. apply list_elem_of_fmap in Hin as (g & -> & Hg). exists g. done.
Qed.

(** A fault pushed is in the schedule, or one with its key is. *)
Lemma push_elem st f g : g ∈ (push_fault blake3 st f).1 -> g ∈ st.1 \/ g = f.
Proof. unfold push_fault. destruct (decide _); [auto|]. cbn [fst]. rewrite elem_of_app, list_elem_of_singleton. auto. Qed.

Lemma push_mono st f g : g ∈ st.1 -> g ∈ (push_fault blake3 st f).1.
Proof. unfold push_fault. destruct (decide _); [auto|]. cbn [fst]. rewrite elem_of_app. auto. Qed.

Lemma push_present st f : keyed st -> exists g, g ∈ (push_fault blake3 st f).1 /\ key g = key f.
Proof.
  intros [Hk _]. unfold push_fault. destruct (decide _) as [Hin|]; [apply Hk, Hin|]. exists f. cbn [fst].
  rewrite elem_of_app, list_elem_of_singleton. auto.
Qed.

Record pushed (st st' : state) (l : list SimFault) : Prop := {
  p_keyed : keyed st';
  p_mono : forall g, g ∈ st.1 -> g ∈ st'.1;
  p_elem : forall g, g ∈ st'.1 -> g ∈ st.1 \/ g ∈ l;
  p_present : forall f, f ∈ l -> exists g, g ∈ st'.1 /\ key g = key f }.

Lemma push_all l : forall st, keyed st -> pushed st (foldl (push_fault blake3) st l) l.
Proof.
  induction l as [|f l IH]; intros st Hst; cbn [foldl]; [split; [done | done | auto | intros f H; inversion H]|].
  destruct (IH (push_fault blake3 st f) (keyed_push _ _ Hst)) as [H1 H2 H3 H4]. split; [done| | |].
  - intros g Hg. apply H2, push_mono, Hg.
  - intros g [[Hg| ->]%push_elem|Hg]%H3; [auto | right; left | right; right; done].
  - intros g [->|Hg]%elem_of_cons; [|auto]. destruct (push_present st f Hst) as (g' & Hg' & E). exists g'. auto.
Qed.

Lemma schedule_loop_spec evs : forall seen st, keyed st ->
  let st' := schedule_loop blake3 j d seen evs st in
  keyed st' /\ (forall g, g ∈ st.1 -> g ∈ st'.1)
  /\ (forall g, g ∈ st'.1 -> g ∈ st.1 \/ exists e, e ∈ evs /\ g ∈ event_injections j d e)
  /\ (forall e f, e ∈ evs -> e ∉ seen -> f ∈ event_injections j d e -> exists g, g ∈ st'.1 /\ key g = key f).
Proof.
  induction evs as [|e evs IH]; intros seen st Hst; cbn [schedule_loop];
    [split_and!; [done | done | auto | intros e f H; inversion H]|].
  destruct (decide (e ∈ seen)) as [Hin|Hni].
  - destruct (IH seen st Hst) as (H1 & H2 & H3 & H4). split_and!; [done | done | |].
    + intros g [|(e' & He & Hg)]%H3; [auto | right; exists e'; split; [right; done | done]].
    + intros e' f [->|He]%elem_of_cons Hs; [done | eauto].
  - destruct (push_all (event_injections j d e) st Hst) as [P1 P2 P3 P4].
    destruct (IH ({[e]} ∪ seen) _ P1) as (H1 & H2 & H3 & H4). split_and!; [done | auto | |].
    + intros g [[Hg|Hg]%P3|(e' & He & Hg)]%H3; [auto | right; exists e; split; [left | done] | right; exists e'; split; [right; done | done]].
    + intros e' f He Hs Hf. destruct (decide (e' = e)) as [->|Hne].
      * destruct (P4 f Hf) as (g & Hg & E). exists g. auto.
      * apply elem_of_cons in He as [->|He]; [done|]. eapply H4; [exact He | set_solver | exact Hf].
Qed.

Lemma keyed_empty : keyed ([], ∅).
Proof. split; [|apply base.NoDup_nil_2]. intros k. split; [set_solver | intros (f & H & _); inversion H]. Qed.
End Loop.

(** A schedule is exact: no class and target twice; every fault comes from an event of the hypothesis; and every fault of
    every event is in it, a partition up to a link with the same digest. *)
Theorem schedule_exact blake3 hyp j :
  let s := hypothesis_to_schedule blake3 hyp j in
  NoDup (map (injection_key blake3) s) /\
  (forall f, f ∈ s -> exists event, event ∈ events hyp /\ f ∈ event_injections j (duplicate_senders j) event) /\
  (forall event f, event ∈ events hyp -> f ∈ event_injections j (duplicate_senders j) event ->
     exists g, g ∈ s /\ injection_key blake3 g = injection_key blake3 f /\ (fault_target f <> None -> g = f)).
Proof.
  destruct (schedule_loop_spec blake3 j (duplicate_senders j) (events hyp) ∅ ([], ∅) (keyed_empty blake3)) as ([_ H1] & _ & H3 & H4).
  assert (H5 : forall f, f ∈ hypothesis_to_schedule blake3 hyp j ->
    exists event, event ∈ events hyp /\ f ∈ event_injections j (duplicate_senders j) event).
  { intros f [H|H]%H3; [inversion H | exact H]. }
  split_and!; [exact H1 | exact H5|]. intros event f He Hf. destruct (H4 event f He) as (g & Hg & E); [set_solver | done|].
  exists g. split_and!; [exact Hg | exact E|]. intros Ht. destruct (H5 g Hg) as (e' & _ & Hg'). symmetry.
  eapply same_key; eauto using event_injections_form.
Qed.

(** ** Targets *)

Definition has_kind (j : JournalState) (k : EntryKind) (x : EntryHash) : Prop :=
  exists e, state_lookup j x = Some e /\ kind (edata e) = k.

(** What each fault needs of its target. *)
Definition well_targeted (j : JournalState) (f : SimFault) : Prop :=
  match f with
  | Drop x | Duplicate x => has_kind j KSend x
  | Delay x _ => has_kind j KSend x \/ has_kind j KTimerFire x
  | Corrupt x _ | CrashState x _ => has_kind j KFsWrite x
  | SPartition src dst => exists x e, state_lookup j x = Some e /\ kind (edata e) = KSend /\ actor (edata e) = src
  | Crash _ => False
  end.

Lemma parent_of_kind_Some k ps j p : parent_of_kind k ps j = Some p -> p ∈ ps /\ has_kind j k p.
Proof.
  intros [H1 H2]%List.find_some. split; [apply list_elem_of_In; done|]. destruct (state_lookup j p) as [e|] eqn:E; [|done].
  exists e. split; [done|]. apply bool_decide_eq_true in H2. done.
Qed.

Lemma event_injections_targeted j d event f : f ∈ event_injections j d event -> well_targeted j f.
Proof.
  unfold event_injections. destruct (state_lookup j event) as [e|] eqn:He; [|intros H; inversion H].
  assert (Hk : has_kind j (kind (edata e)) event) by (exists e; done).
  destruct (kind (edata e)) eqn:Ek; try (intros H; inversion H; fail).
  - intros ->%list_elem_of_singleton. right. exact Hk.
  - destruct (hmem event d); [intros ->%list_elem_of_singleton; exact Hk|].
    intros [H|H]%elem_of_app; [set_unfold in H; destruct H as [->|[->|[]]]; cbn; auto|].
    destruct (payload (edata e)); try (inversion H; fail). apply list_elem_of_singleton in H as ->. exists event, e. done.
  - unfold send_parent. destruct (parent_of_kind KSend _ j) as [p|] eqn:Ep; [|intros H; inversion H].
    apply parent_of_kind_Some in Ep as [_ Hp]. destruct (hmem p d); [intros ->%list_elem_of_singleton; exact Hp|].
    intros [H|H]%elem_of_app; [set_unfold in H; destruct H as [->|[->|[]]]; cbn; auto|].
    destruct (state_lookup j p) as [s|] eqn:Es; [|inversion H]. apply list_elem_of_singleton in H as ->. exists p, s.
    destruct Hp as (s' & E & ?). rewrite Es in E. injection E as <-. done.
  - intros H. set_unfold in H. destruct H as [->|[->|[]]]; exact Hk.
  - unfold fs_write_parent. destruct (parent_of_kind KFsWrite _ j) as [p|] eqn:Ep; [|intros H; inversion H].
    apply parent_of_kind_Some in Ep as [_ Hp]. intros H. set_unfold in H. destruct H as [->|[->|[]]]; exact Hp.
Qed.

(** ** The executor's choice *)

(** The first fault on a send drops or duplicates it, the first on a write corrupts it. *)
Definition first_faults (j : JournalState) (s : list SimFault) : Prop := forall id,
  (has_kind j KSend id -> schedule_injection_for s id ∈ [None; Some (Drop id); Some (Duplicate id)]) /\
  (has_kind j KFsWrite id -> schedule_injection_for s id ∈ [None; Some (Corrupt id 1)]).

Lemma injection_app s f id : schedule_injection_for (s ++ [f]) id =
  match schedule_injection_for s id with
  | Some g => Some g
  | None => if bool_decide (fault_target f = Some id) then Some f else None
  end.
Proof.
  unfold schedule_injection_for. induction s as [|g s IH]; cbn [List.find app]; [done|]. destruct (bool_decide (fault_target g = Some id)); [done | exact IH].
Qed.

Lemma injection_None s id : schedule_injection_for s id = None -> forall f, f ∈ s -> fault_target f <> Some id.
Proof.
  intros H f Hf E. apply list_elem_of_In in Hf. pose proof (List.find_none _ _ H f Hf) as E'. cbv beta in E'.
  rewrite bool_decide_true in E'; done.
Qed.

Section Choice.
Variable blake3 : list byte -> list byte.
Variable j : JournalState.

(** A push_fault changes the choice only for a target that had none. *)
Lemma push_choice st f id : schedule_injection_for (push_fault blake3 st f).1 id = schedule_injection_for st.1 id \/
  schedule_injection_for st.1 id = None /\ fault_target f = Some id /\ schedule_injection_for (push_fault blake3 st f).1 id = Some f.
Proof.
  unfold push_fault. destruct (decide _); [auto|]. cbn [fst]. rewrite injection_app.
  destruct (schedule_injection_for st.1 id) as [g|]; [auto|]. case_bool_decide; auto.
Qed.

(** A target is chosen once a fault of a class that has one fault per target was pushed. *)
Lemma push_chosen st f id : keyed blake3 st -> (forall g, injection_key blake3 g = injection_key blake3 f -> fault_target g = Some id) ->
  schedule_injection_for (push_fault blake3 st f).1 id <> None.
Proof.
  intros Hst Hf E. destruct (push_present blake3 st f Hst) as (g & Hg & Ek). exact (injection_None _ _ E g Hg (Hf g Ek)).
Qed.

Lemma push_first st f : first_faults j st.1 ->
  match f with
  | Delay x _ => ~ has_kind j KSend x /\ ~ has_kind j KFsWrite x \/ schedule_injection_for st.1 x <> None
  | CrashState x _ => schedule_injection_for st.1 x <> None
  | Drop x | Duplicate x => has_kind j KSend x
  | Corrupt x m => has_kind j KFsWrite x /\ m = 1
  | SPartition _ _ => True
  | Crash _ => False
  end -> first_faults j (push_fault blake3 st f).1.
Proof.
  intros H Hf id. specialize (H id). destruct (push_choice st f id) as [->|(E1 & E2 & ->)]; [exact H|].
  destruct f; cbn [fault_target] in E2; try done; injection E2 as ->.
  - split; [set_solver|]. intros (e & He & Hk). destruct Hf as (e' & He' & Hk'). congruence.
  - destruct Hf as [[H1 H2]|]; [split; intros ?; tauto | congruence].
  - destruct Hf as [Hw ->]. split; [|set_solver]. intros (e & He & Hk). destruct Hw as (e' & He' & Hk'). congruence.
  - congruence.
  - split; [set_solver|]. intros (e & He & Hk). destruct Hf as (e' & He' & Hk'). congruence.
Qed.

Lemma first_send_faults st x tail : keyed blake3 st -> first_faults j st.1 -> has_kind j KSend x -> Forall (fun f => fault_target f = None) tail ->
  first_faults j (foldl (push_fault blake3) st ([Drop x; Delay x 1] ++ tail)).1.
Proof.
  intros Hst H Hx Ht. cbn [app foldl].
  assert (first_faults j (push_fault blake3 (push_fault blake3 st (Drop x)) (Delay x 1)).1) as H2.
  { apply push_first; [apply push_first; done|]. right. apply push_chosen; [done|]. intros g E. destruct g; cbn in *; congruence. }
  revert H2. generalize (push_fault blake3 (push_fault blake3 st (Drop x)) (Delay x 1)). induction Ht as [|f tail Hf _ IH]; intros st' H2; [exact H2|].
  cbn [foldl]. apply IH. intros id. destruct (push_choice st' f id) as [->|(_ & E & _)]; [apply H2 | congruence].
Qed.

Lemma first_write_faults st x : keyed blake3 st -> first_faults j st.1 -> has_kind j KFsWrite x ->
  first_faults j (foldl (push_fault blake3) st [Corrupt x 1; CrashState x 0]).1.
Proof.
  intros Hst H Hx. cbn [foldl]. apply push_first; [apply push_first; done|].
  apply push_chosen; [done|]. intros g E. destruct g; cbn in *; congruence.
Qed.

Lemma first_event_faults d event st : keyed blake3 st -> first_faults j st.1 ->
  first_faults j (foldl (push_fault blake3) st (event_injections j d event)).1.
Proof.
  intros Hst H. unfold event_injections. destruct (state_lookup j event) as [e|] eqn:He; [|exact H].
  assert (Hk : has_kind j (kind (edata e)) event) by (exists e; done).
  destruct (kind (edata e)) eqn:Ek; try exact H.
  - apply push_first; [done|]. left. split; intros (e' & He' & Hk'); congruence.
  - destruct (hmem event d); [apply push_first; done|]. apply first_send_faults; [done..|].
    destruct (payload (edata e)); repeat constructor.
  - unfold send_parent. destruct (parent_of_kind KSend _ j) as [p|] eqn:Ep; [|exact H].
    apply parent_of_kind_Some in Ep as [_ Hp]. destruct (hmem p d); [apply push_first; done|].
    apply first_send_faults; [done..|]. destruct (state_lookup j p); repeat constructor.
  - apply first_write_faults; done.
  - unfold fs_write_parent. destruct (parent_of_kind KFsWrite _ j) as [p|] eqn:Ep; [|exact H].
    apply parent_of_kind_Some in Ep as [_ Hp]. apply first_write_faults; done.
Qed.

Lemma schedule_first d evs : forall seen st, keyed blake3 st -> first_faults j st.1 ->
  first_faults j (schedule_loop blake3 j d seen evs st).1.
Proof.
  induction evs as [|e evs IH]; intros seen st Hst H; cbn [schedule_loop]; [exact H|].
  destruct (decide _); [apply IH; done|]. apply IH; [apply push_all; done | apply first_event_faults; done].
Qed.
End Choice.

(** Every fault of a schedule targets an entry of the kind it is for; and of the faults scheduled on one entry the executor
    injects only the first, so the delays and crash states a schedule lists for sends and writes never take effect: a send
    is dropped or duplicated, a write corrupted. *)
Theorem schedule_effects blake3 hyp j :
  let s := hypothesis_to_schedule blake3 hyp j in
  (forall f, f ∈ s -> well_targeted j f) /\
  (forall id, has_kind j KSend id -> schedule_injection_for s id ∈ [None; Some (Drop id); Some (Duplicate id)]) /\
  (forall id, has_kind j KFsWrite id -> schedule_injection_for s id ∈ [None; Some (Corrupt id 1)]).
Proof.
  cbv zeta. split_and!.
  - intros f Hf.
    destruct (schedule_loop_spec blake3 j (duplicate_senders j) (events hyp) ∅ ([], ∅) (keyed_empty blake3)) as (_ & _ & H & _).
    destruct (H f Hf) as [H0|(e & _ & He)]; [inversion H0 | eapply event_injections_targeted, He].
  - apply schedule_first; [apply keyed_empty|]. intros id. split; intros _; left.
  - apply schedule_first; [apply keyed_empty|]. intros id. split; intros _; left.
Qed.

(** A timer that was set is faultable and the solver returns the cut through it, but no fault is scheduled for it: the
    second hypothesis of this verdict, which the solver says breaks every derivation, is an empty schedule. *)
Theorem timer_cut_unschedulable :
  match (solve roll_digest solver_unbounded timer3.2 timer_verdict).1 with
  | Ok [send_cut; timer_cut] =>
      timer3.1 !! 1%nat = head (events timer_cut) /\ length (events timer_cut) = 1%nat /\
      hypothesis_to_schedule roll_digest timer_cut timer3.2 = [] /\
      length (hypothesis_to_schedule roll_digest send_cut timer3.2) = 3%nat
  | _ => False
  end.
Proof. vm_compute. done. Qed.
