(* ===== verification/Oracle.v ===== *)
(** * Oracles

    [ledger-explorer/src/oracle.rs]: verdicts over completed runs.  Of a run the oracles read the journal, the registers
    and the faults applied.  A workload's history is a parameter, as the trait that extracts it is the user's. *)

From stdpp Require Import gmap.
From S2P Require Import Prelude Machine Limits Value Entry OrdMap Clock Dag Causal Order OSet Verdict.

Open Scope Z_scope.

Record RunResult : Type := mkRun { journal : JournalState; registers : list Z; applied_faults : list EntryHash }.

Definition Oracle : Type := RunResult -> Verdict.

(** ** Exactly once *)

(** A numeric input step, and a numeric outcome. *)
Definition numeric_input (e : JEntry) : option Z :=
  match payload (edata e) with
  | PInputStep s => match input_value s with VUnsigned v => Some v | _ => None end
  | _ => None
  end.

Definition outcome_number (e : JEntry) : option Z :=
  match payload (edata e) with
  | POutcome o => match outcome_value o with VUnsigned v => Some v | _ => None end
  | _ => None
  end.

Record OnceScan : Type := mkScan { input_values : gmap Z (list nat); last_input : option Z; last_numeric_outcome : option EntryHash }.

Definition once_step (s : OnceScan) (index : nat) (e : JEntry) : OnceScan :=
  match payload (edata e) with
  | PInputStep step =>
      match input_value step with
      | VUnsigned value =>
          mkScan (<[value := default [] (input_values s !! value) ++ [index]]> (input_values s)) (Some value) (last_numeric_outcome s)
      | _ => s
      end
  | _ =>
      match outcome_number e with
      | Some _ => if bool_decide (kind (edata e) = KOutcome) then mkScan (input_values s) (last_input s) (Some (eid e)) else s
      | None => s
      end
  end.

Fixpoint once_scan (s : OnceScan) (index : nat) (es : list JEntry) : OnceScan :=
  match es with [] => s | e :: es => once_scan (once_step s index e) (S index) es end.

Definition witnesses_from_journal (j : JournalState) : list EntryHash :=
  omap (fun e => match kind (edata e) with KOutcome | KAssert => Some (eid e) | _ => None end) (entries j).

(** The smallest value applied more than once. *)
Definition first_duplicate (m : gmap Z (list nat)) : option (Z * list nat) :=
  head (sort_by (fun a b => (a.1 ?= b.1)%Z) (List.filter (fun p => (1 <? length p.2)%nat) (map_to_list m))).

Definition exactly_once_check : Oracle := fun run =>
  let s := once_scan (mkScan ∅ None None) 0 (entries (journal run)) in
  match first_duplicate (input_values s) with
  | Some (value, positions) => verdict_fail (witnesses_from_journal (journal run)) (DuplicateApply value (length positions) positions)
  | None =>
      match last_input s, last_numeric_outcome s with
      | Some last_value, Some id =>
          match state_lookup (journal run) id with
          | Some e =>
              match outcome_number e with
              | Some outcome => if (outcome =? last_value)%Z then verdict_pass else verdict_fail [id] (TornApply outcome last_value)
              | None => verdict_pass
              end
          | None => verdict_pass
          end
      | _, _ => verdict_pass
      end
  end.

(** ** Composition *)

Definition compose_oracles (oracles : list Oracle) : Oracle := fun run =>
  let verdicts := map (fun oracle => oracle run) oracles in
  if existsb violated verdicts
  then mkVerdict true (concat (map witnesses verdicts)) (Joined (map reason (List.filter violated verdicts)))
  else verdict_pass.

(** ** Histories *)

(** A sequential specification: its states and its operations, which may refuse. *)
Class SequentialSpec (S : Type) : Type := { spec_apply : S -> HistoryOperation -> result Reason S }.

Record KeyValueSpec : Type := mkKv { kv_values : gmap (list byte) Z }.

#[global] Instance kv_spec : SequentialSpec KeyValueSpec := {
  spec_apply s op :=
    match op with
    | HWrite key value _ => Ok (mkKv (<[key := value]> (kv_values s)))
    | HRead key value _ =>
        let expected := default 0 (kv_values s !! key) in
        if (expected =? value)%Z then Ok s else Err (ReadMismatch key value expected)
    | _ => Ok s
    end }.

Section Spec.
Context {S : Type} `{!SequentialSpec S}.

Fixpoint history_loop (specification : S) (history : list HistoryOperation) : Verdict :=
  match history with
  | [] => verdict_pass
  | op :: history =>
      match spec_apply specification op with
      | Err why => verdict_fail [history_witness op] why
      | Ok specification => history_loop specification history
      end
  end.

Definition history_check (history : RunResult -> list HistoryOperation) (specification : S) : Oracle :=
  fun run => history_loop specification (history run).

(** ** Linearizability *)

Record LinOperation : Type := mkLin { invoke : EntryHash; response : EntryHash; lin_operation : HistoryOperation }.

Record LinFailure : Type := mkLinFailure { lf_prefix : list nat; lf_index : nat; lf_reason : Reason }.

Definition DEFAULT_LIN_BOUND : nat := 12.

Section Search.
Variable operations : list HistoryOperation.
Variable predecessors : list (list nat).

Definition is_pending (pending : list bool) (index : nat) : bool := default false (pending !! index).

(** Open, and everything before it done. *)
Definition op_ready (pending : list bool) (index : nat) : bool :=
  is_pending pending index && forallb (fun earlier => negb (is_pending pending earlier)) (default [] (predecessors !! index)).

Definition apply_at (state : S) (index : nat) : option (result Reason S) := option_map (spec_apply state) (operations !! index).

(** The first loop: each ready operation the specification accepts is tried, with the rest of the search [recur]. *)
Fixpoint try_ready (recur : S -> list bool -> list nat -> option LinFailure -> bool * option LinFailure) (indices : list nat)
    (state : S) (pending : list bool) (serialized : list nat) (failure : option LinFailure) : bool * option LinFailure :=
  match indices with
  | [] => (false, failure)
  | index :: indices =>
      if op_ready pending index then
        match apply_at state index with
        | Some (Ok next) =>
            let '(found, failure) := recur next (<[index := false]> pending) (serialized ++ [index]) failure in
            if found then (true, failure) else try_ready recur indices state pending serialized failure
        | _ => try_ready recur indices state pending serialized failure
        end
      else try_ready recur indices state pending serialized failure
  end.

(** The second loop: the first ready operation the specification refuses. *)
Fixpoint first_rejected (indices : list nat) (state : S) (pending : list bool) (serialized : list nat) : option LinFailure :=
  match indices with
  | [] => None
  | index :: indices =>
      if op_ready pending index then
        match apply_at state index with
        | Some (Err why) => Some (mkLinFailure serialized index why)
        | _ => first_rejected indices state pending serialized
        end
      else first_rejected indices state pending serialized
  end.

(** The fuel bounds the depth of the recursion, which closes one operation per level. *)
Fixpoint find_serialization (fuel : nat) (state : S) (pending : list bool) (serialized : list nat) (failure : option LinFailure) :
    bool * option LinFailure :=
  match fuel with
  | O => (false, failure)
  | Datatypes.S fuel =>
      if negb (existsb (fun open => open) pending) then (true, failure)
      else
        let indices := seq 0 (length operations) in
        let '(found, failure) := try_ready (find_serialization fuel) indices state pending serialized failure in
        if found then (true, failure)
        else (false, match failure with Some f => Some f | None => first_rejected indices state pending serialized end)
  end.
End Search.

(** The clocks of the invocations and responses, or the verdict on the first entry missing. *)
Fixpoint operation_clocks (j : JournalState) (operations : list LinOperation) : result Verdict (list (VectorClock * VectorClock)) :=
  match operations with
  | [] => Ok []
  | op :: operations =>
      match state_lookup j (invoke op) with
      | None => Err (verdict_fail [invoke op] MissingInvoke)
      | Some i =>
          match state_lookup j (response op) with
          | None => Err (verdict_fail [response op] MissingResponse)
          | Some r => let? clocks := operation_clocks j operations in Ok ((eclock i, eclock r) :: clocks)
          end
      end
  end.

Definition earlier_than (clocks : list (VectorClock * VectorClock)) (earlier later : nat) : bool :=
  match clocks !! earlier, clocks !! later with
  | Some e, Some l => negb (earlier =? later)%nat && happens_before e.2 l.1
  | _, _ => false
  end.

Definition real_time_order (clocks : list (VectorClock * VectorClock)) : list (list nat) :=
  map (fun later => List.filter (fun earlier => earlier_than clocks earlier later) (seq 0 (length clocks))) (seq 0 (length clocks)).

Definition non_linearizable (operations : list LinOperation) (failure : option LinFailure) : Verdict :=
  let f := default (mkLinFailure [] 0 NoSerialOrder) failure in
  let chain := omap (fun i => option_map (fun op => (i, take 4 (invoke op))) (operations !! i)) (lf_prefix f) in
  match operations !! lf_index f with
  | Some op => verdict_fail [invoke op; response op] (NonLinearizable (lf_index f) (lin_operation op) chain (lf_reason f))
  | None => verdict_fail [] NoSerialOrder
  end.

Definition check_operations (bound : nat) (specification : S) (j : JournalState) (operations : list LinOperation) : Verdict :=
  let count := length operations in
  if (bound <? count)%nat then mkVerdict false [] (HistoryBounded bound count)
  else
    match operation_clocks j operations with
    | Err v => v
    | Ok clocks =>
        let '(found, failure) := find_serialization (map lin_operation operations) (real_time_order clocks) (Datatypes.S count)
          specification (repeat true count) [] None in
        if found then verdict_pass else non_linearizable operations failure
    end.

Definition linearizability_check (lin_history : RunResult -> list LinOperation) (specification : S) : Oracle :=
  fun run => check_operations DEFAULT_LIN_BOUND specification (journal run) (lin_history run).
End Spec.

(** ** Assertions *)

Definition FAIL_PREFIX : list byte := bytes_of_string "fail".

Fixpoint assertion_loop (es : list JEntry) : Verdict :=
  match es with
  | [] => verdict_pass
  | e :: es =>
      match kind (edata e), payload (edata e) with
      | KAssert, PAssert a =>
          if negb (passed a) then verdict_fail [eid e] (AssertionAt (actor (edata e)))
          else
            match detail a with
            | VText msg => if bool_decide (take 4 msg = FAIL_PREFIX) then verdict_fail [eid e] (AssertionText msg) else assertion_loop es
            | _ => assertion_loop es
            end
      | _, _ => assertion_loop es
      end
  end.

Definition assertion_check : Oracle := fun run => assertion_loop (entries (journal run)).

(** ** Two runs *)

Definition observable_outputs (run : RunResult) : list (Z * Z) :=
  omap (fun e => if bool_decide (kind (edata e) = KOutcome) then option_map (pair (actor (edata e))) (outcome_number e) else None)
    (entries (journal run)).

Fixpoint output_mismatch (index : nat) (ls rs : list (Z * Z)) : option Reason :=
  match ls, rs with
  | l :: ls, r :: rs => if decide (l = r) then output_mismatch (S index) ls rs else Some (OutputDivergence index l r)
  | _, _ => None
  end.

Definition output_divergence_reason (ls rs : list (Z * Z)) : option Reason :=
  match output_mismatch 0 ls rs with
  | Some why => Some why
  | None => if (length ls =? length rs)%nat then None else Some (OutputCount (length ls) (length rs))
  end.

Section Hashed.
Variable blake3 : list byte -> list byte.

Definition differential_compare (l r : RunResult) : Verdict :=
  if negb (bool_decide (registers l = registers r)) then verdict_fail [] (RegisterMismatch (registers l) (registers r))
  else
    match output_divergence_reason (observable_outputs l) (observable_outputs r) with
    | Some why => verdict_fail [] why
    | None =>
        if negb (bool_decide (applied_faults l = applied_faults r))
        then verdict_fail [] (FaultMismatch (applied_faults l) (applied_faults r))
        else if negb (bool_decide (root_hash blake3 (journal l) = root_hash blake3 (journal r)))
        then verdict_fail [] RootDivergence
        else verdict_pass
    end.

(** ** Properties *)

Definition property_check (property : JournalState -> bool) (name : string) : Oracle := fun run =>
  if property (journal run) then verdict_pass
  else verdict_fail (witnesses_from_journal (journal run)) (PropertyViolated name).

Definition predicate_version (name : string) (counter : Z) : Z :=
  from_le_bytes (take 8 (blake3 (bytes_of_string name ++ to_le_bytes 8 counter))).

Record CachedPropertyOracle : Type := mkCachedOracle {
  co_property : JournalState -> bool;
  co_name : string;
  co_version : Z;
  co_cache : gmap (Z * list byte) Verdict;
  co_evaluations : nat }.

Definition cached_with_version (property : JournalState -> bool) (name : string) (version : Z) : CachedPropertyOracle :=
  mkCachedOracle property name version ∅ 0.
Definition cached_new (property : JournalState -> bool) (name : string) : CachedPropertyOracle :=
  cached_with_version property name (predicate_version name 0).

Definition check_cached (o : CachedPropertyOracle) (run : RunResult) : Verdict * CachedPropertyOracle :=
  let key := (co_version o, root_hash blake3 (journal run)) in
  match co_cache o !! key with
  | Some v => (v, o)
  | None =>
      let v := property_check (co_property o) (co_name o) run in
      (v, mkCachedOracle (co_property o) (co_name o) (co_version o) (<[key := v]> (co_cache o)) (S (co_evaluations o)))
  end.
End Hashed.
