(* ===== verification/OracleProofs.v ===== *)
(** * What the oracles decide

    - The linearizability checker is exact: within its bound it accepts exactly the histories that have a serial order
      which the specification accepts and which extends the causal order of responses and invocations.
    - The exactly-once oracle accepts exactly the journals whose inputs are distinct and whose last output is the last input.
    - Composition, comparison of runs and the verdict cache. *)

From stdpp Require Import gmap.
From S2P Require Import Prelude Machine Limits Value Entry OrdMap Clock Dag Causal Slice Order OSet Verdict Hitting Oracle.

Open Scope Z_scope.

Section Lin.
Context {S : Type} `{!SequentialSpec S}.

(** ** The search *)

Section Search.
Variable ops : list HistoryOperation.
Variable preds : list (list nat).

(** The serial orders the search tries: each operation ready and accepted in its turn. *)
Inductive serial : S -> list bool -> list nat -> Prop :=
| serial_done st p : existsb (fun open => open) p = false -> serial st p []
| serial_step st p i order st' : op_ready preds p i = true -> apply_at ops st i = Some (Ok st') ->
    serial st' (<[i := false]> p) order -> serial st p (i :: order).

Lemma try_ready_sound recur indices st p ser f f' : try_ready ops preds recur indices st p ser f = (true, f') ->
  exists i st' g g', op_ready preds p i = true /\ apply_at ops st i = Some (Ok st')
    /\ recur st' (<[i := false]> p) (ser ++ [i]) g = (true, g').
Proof.
  revert f. induction indices as [|i indices IH]; intros f; cbn [try_ready]; [done|].
  destruct (op_ready preds p i) eqn:Er; [|apply IH]. destruct (apply_at ops st i) as [[st'|]|] eqn:Ea; [|apply IH..].
  destruct (recur st' _ _ f) as [[] g] eqn:Ec; [|apply IH]. intros _. exists i, st', f, g. done.
Qed.

Lemma try_ready_complete recur indices st p ser f i st' : In i indices -> op_ready preds p i = true ->
  apply_at ops st i = Some (Ok st') -> (forall g, (recur st' (<[i := false]> p) (ser ++ [i]) g).1 = true) ->
  (try_ready ops preds recur indices st p ser f).1 = true.
Proof.
  intros Hin Hr Ha Hc. revert f. induction indices as [|k indices IH]; intros f; [destruct Hin|]. cbn [try_ready].
  destruct Hin as [->|Hin].
  - rewrite Hr, Ha. specialize (Hc f). destruct (recur st' _ _ f) as [found g]. cbn [fst] in Hc. subst found. done.
  - destruct (op_ready preds p k); [|apply IH, Hin]. destruct (apply_at ops st k) as [[s|]|]; [|apply IH, Hin..].
    destruct (recur s _ _ f) as [[] g]; [done | apply IH, Hin].
Qed.

Lemma find_sound fuel : forall st p ser f f', find_serialization ops preds fuel st p ser f = (true, f') -> exists order, serial st p order.
Proof.
  induction fuel as [|fuel IH]; intros st p ser f f'; cbn [find_serialization]; [done|].
  destruct (existsb _ p) eqn:Ep; cbn [negb]; [|intros _; exists []; constructor; done].
  destruct (try_ready _ _ _ _ _ _ _ _) as [[] g] eqn:Et; [|done]. intros _.
  apply try_ready_sound in Et as (i & st' & g1 & g2 & Hr & Ha & (order & Ho)%IH). exists (i :: order). econstructor; done.
Qed.

Lemma find_complete fuel : forall st p order ser f, serial st p order -> (length order < fuel)%nat ->
  (find_serialization ops preds fuel st p ser f).1 = true.
Proof.
  induction fuel as [|fuel IH]; intros st p order ser f Hs Hl; [lia|]. cbn [find_serialization].
  destruct Hs as [st p Hd|st p i order st' Hr Ha Hs]; [rewrite Hd; done|].
  destruct (existsb _ p); cbn [negb]; [|done]. cbn [length] in Hl.
  assert ((try_ready ops preds (find_serialization ops preds fuel) (seq 0 (length ops)) st p ser f).1 = true) as E.
  { eapply (try_ready_complete _ _ st p ser f i st'); [|done|done|].
    - apply in_seq. unfold apply_at in Ha. destruct (ops !! i) as [op|] eqn:E; [|done]. apply lookup_lt_Some in E. lia.
    - intros g. eapply IH; [exact Hs | lia]. }
  destruct (try_ready _ _ _ _ _ _ _ _) as [found g]. cbn [fst] in E. subst found. done.
Qed.

(** ** Serial orders declaratively *)

Fixpoint accepts (st : S) (order : list nat) : Prop :=
  match order with
  | [] => True
  | i :: order => match apply_at ops st i with Some (Ok st') => accepts st' order | _ => False end
  end.

Definition in_order (order : list nat) : Prop := forall l i r, order = l ++ i :: r ->
  forall e, e ∈ default [] (preds !! i) -> e ∈ l.

Lemma pending_insert p i k : is_pending (<[i := false]> p) k = is_pending p k && negb (k =? i)%nat.
Proof.
  unfold is_pending. destruct (Nat.eqb_spec k i) as [->|Hne].
  - rewrite andb_false_r. destruct (decide (i < length p)%nat).
    + rewrite list_lookup_insert_eq by done. done.
    + rewrite list_insert_ge by lia. rewrite lookup_ge_None_2 by lia. done.
  - rewrite andb_true_r, list_lookup_insert_ne by done. done.
Qed.

Lemma none_pending p : existsb (fun open => open) p = false <-> forall i, is_pending p i = false.
Proof.
  unfold is_pending. split.
  - intros H i. destruct (p !! i) as [b|] eqn:E; [|done]. cbn. destruct b; [|done].
    rewrite <- not_true_iff_false, existsb_exists in H. exfalso. apply H. exists true. split; [|done].
    eapply list_elem_of_In, list_elem_of_lookup_2, E.
  - intros H. rewrite <- not_true_iff_false, existsb_exists. intros (b & Hb & ->). apply list_elem_of_In, list_elem_of_lookup in Hb as [i Hi].
    specialize (H i). rewrite Hi in H. done.
Qed.

Lemma serial_iff order : forall st p, serial st p order <->
  accepts st order /\ NoDup order /\ (forall i, i ∈ order <-> is_pending p i = true) /\
  (forall l i r, order = l ++ i :: r -> forall e, e ∈ default [] (preds !! i) -> is_pending p e = true -> e ∈ l).
Proof.
  induction order as [|i order IH]; intros st p; split.
  - inversion 1 as [? ? Hd|]; subst. rewrite none_pending in Hd. split_and!; [done | constructor | |].
    + intros i. rewrite Hd. split; [intros H'; inversion H' | done].
    + intros l i r E. destruct l; done.
  - intros (_ & _ & H & _). constructor. apply none_pending. intros i. apply not_true_iff_false. rewrite <- H. intros H'. inversion H'.
  - inversion 1 as [|? ? ? ? st' Hr Ha Hs]; subst. apply IH in Hs as (H1 & H2 & H3 & H4).
    unfold op_ready in Hr. apply andb_true_iff in Hr as [Hp Hr]. rewrite forallb_forall in Hr.
    assert (Hni : i ∉ order). { rewrite H3, pending_insert, Nat.eqb_refl, andb_false_r. done. }
    split_and!; [cbn [accepts]; rewrite Ha; done | constructor; done | |].
    + intros k. rewrite elem_of_cons, H3, pending_insert. destruct (Nat.eqb_spec k i) as [->|Hne]; [tauto|].
      rewrite andb_true_r. tauto.
    + intros [|x l] k r E e He Hpe; cbn in E; injection E as <- E.
      * apply list_elem_of_In, Hr in He. rewrite Hpe in He. done.
      * rewrite elem_of_cons. destruct (decide (e = i)) as [->|Hne]; [auto|]. right. eapply H4; [exact E | exact He|].
        rewrite pending_insert, Hpe. destruct (Nat.eqb_spec e i); done.
  - intros (H1 & H2 & H3 & H4). cbn [accepts] in H1. destruct (apply_at ops st i) as [[st'|]|] eqn:Ea; [|done..].
    inversion_clear H2 as [|? ? Hni Hn].
    econstructor; [|exact Ea|apply IH; split_and!; [exact H1 | exact Hn| |]].
    + unfold op_ready. rewrite (proj1 (H3 i)) by left. cbn [andb]. apply forallb_forall. intros e He%list_elem_of_In.
      apply negb_true_iff, not_true_iff_false. intros Hpe. pose proof (H4 [] i order eq_refl e He Hpe) as H. inversion H.
    + intros k. rewrite pending_insert. specialize (H3 k). rewrite elem_of_cons in H3. destruct (Nat.eqb_spec k i) as [->|Hne].
      * rewrite andb_false_r. split; done.
      * rewrite andb_true_r, <- H3. tauto.
    + intros l k r -> e He. rewrite pending_insert. intros [Hpe Hne]%andb_true_iff. apply negb_true_iff, Nat.eqb_neq in Hne.
      specialize (H4 (i :: l) k r eq_refl e He Hpe). apply elem_of_cons in H4 as [|]; done.
Qed.
End Search.

(** ** The real-time order *)

Lemma real_time_order_elem clocks e i : e ∈ default [] (real_time_order clocks !! i) <-> earlier_than clocks e i = true.
Proof.
  unfold real_time_order. rewrite list_lookup_fmap. destruct (decide (i < length clocks)%nat) as [Hi|Hi].
  - rewrite lookup_seq_lt by done. rewrite Nat.add_0_l. cbv [fmap option_fmap option_map default from_option id].
    rewrite list_elem_of_In, filter_In. split; [tauto|]. intros H. split; [|exact H]. apply in_seq. unfold earlier_than in H.
    destruct (clocks !! e) as [x|] eqn:E; [|done]. apply lookup_lt_Some in E. lia.
  - rewrite lookup_seq_ge by lia. cbn. split; [intros H; inversion H|]. unfold earlier_than.
    rewrite (lookup_ge_None_2 clocks i) by lia. destruct (clocks !! e); done.
Qed.

Lemma operation_clocks_ok j ops clocks : operation_clocks j ops = Ok clocks ->
  Forall2 (fun op c => exists i r, state_lookup j (invoke op) = Some i /\ state_lookup j (response op) = Some r
    /\ c = (eclock i, eclock r)) ops clocks.
Proof.
  revert clocks. induction ops as [|op ops IH]; intros clocks; cbn [operation_clocks]; [intros [= <-]; constructor|].
  destruct (state_lookup j (invoke op)) as [i|] eqn:Ei; [|done]. destruct (state_lookup j (response op)) as [r|] eqn:Er; [|done].
  destruct (operation_clocks j ops) as [cs|]; [|done]. intros [= <-]. constructor; [exists i, r; done | apply IH; done].
Qed.

Lemma operation_clocks_present j ops :
  (forall op, op ∈ ops -> is_Some (state_lookup j (invoke op)) /\ is_Some (state_lookup j (response op))) ->
  exists clocks, operation_clocks j ops = Ok clocks.
Proof.
  induction ops as [|op ops IH]; intros H; cbn [operation_clocks]; [eauto|].
  destruct (H op ltac:(left)) as [[i ->] [r ->]]. destruct IH as [cs ->]; [intros o Ho; apply H; right; done|]. eauto.
Qed.

(** Whether one operation has returned, causally, before another is invoked. *)
Definition returned_before (j : JournalState) (a b : LinOperation) : Prop :=
  exists r i, state_lookup j (response a) = Some r /\ state_lookup j (invoke b) = Some i /\ precedes (entries j) r i /\ r <> i.

Lemma clock_inj blake3 l f e : log_ok blake3 l -> In f l -> In e l -> eclock f = eclock e -> f = e.
Proof.
  intros Hl. revert f e. induction Hl as [|l x Hl IH Hx Hf]; intros f e Hin Hin' E; [done|].
  assert (Hne : forall g, In g l -> eclock g <> eclock x).
  { intros g Hg Eg. pose proof (clock_le_count blake3 l g (actor (edata x)) Hl Hg) as H1. rewrite Eg in H1.
    pose proof (clock_self blake3 (l ++ [x]) x (ok_snoc _ _ _ Hl Hx Hf) ltac:(apply in_or_app; right; left; done)) as H2.
    rewrite (ok_sequence _ _ _ Hx) in H2. lia. }
  apply in_app_iff in Hin as [Hin|[<-|[]]], Hin' as [Hin'|[<-|[]]]; [auto| | |done].
  - destruct (Hne f Hin E).
  - destruct (Hne e Hin' (eq_sym E)).
Qed.

Lemma returned_before_clock blake3 j a b ra ib : journal_reach blake3 j -> Z.of_nat (length (entries j)) <= u64_max ->
  state_lookup j (response a) = Some ra -> state_lookup j (invoke b) = Some ib ->
  returned_before j a b <-> happens_before (eclock ra) (eclock ib) = true.
Proof.
  intros (log & Hl & R)%journal_reach_represents Hlen Hr Hi. rewrite (represents_entries _ _ R) in Hlen.
  apply log_reach_ok in Hl; [|done]. unfold returned_before. rewrite (represents_entries _ _ R).
  assert (Hin : forall x e, state_lookup j x = Some e -> In e log) by (intros x e E; rewrite (r_lookup _ _ R) in E; apply log_get_In in E; tauto).
  unfold happens_before. rewrite andb_true_iff, negb_true_iff, bool_decide_eq_false, <- (causality _ _ _ _ Hl (Hin _ _ Hr) (Hin _ _ Hi)). split.
  - intros (r & i & Er & Ei & Hp & Hne). rewrite Hr in Er. rewrite Hi in Ei. simplify_eq. split; [done|]. contradict Hne.
    eapply clock_inj; eauto.
  - intros [Hp Hne]. exists ra, ib. split_and!; [done..|]. congruence.
Qed.

(** ** The checker *)

Definition op_at (ops : list LinOperation) (order : list nat) : list HistoryOperation :=
  omap (fun i => option_map lin_operation (ops !! i)) order.

(** A history is linearizable: some order of its operations is accepted by the specification, and every operation that
    returned before another was invoked comes first. *)
Definition linearizable (specification : S) (j : JournalState) (ops : list LinOperation) : Prop :=
  exists order, order ≡ₚ seq 0 (length ops)
    /\ violated (history_loop specification (op_at ops order)) = false
    /\ (forall a b opa opb, ops !! a = Some opa -> ops !! b = Some opb -> a <> b -> returned_before j opa opb ->
         exists l m r, order = l ++ a :: m ++ b :: r).

Lemma accepts_history ops order : (forall i, i ∈ order -> (i < length ops)%nat) -> forall st,
  accepts (map lin_operation ops) st order <-> violated (history_loop st (op_at ops order)) = false.
Proof.
  induction order as [|i order IH]; intros Hi st; [done|]. cbn [accepts]. unfold op_at, apply_at. cbn [omap list_omap].
  rewrite list_lookup_fmap. destruct (lookup_lt_is_Some_2 ops i (Hi i ltac:(left))) as [op ->]. cbn [fmap option_fmap option_map].
  cbn [history_loop]. destruct (spec_apply st (lin_operation op)); [|done]. apply IH. intros k Hk. apply Hi. right. done.
Qed.

Lemma NoDup_split {A} (l r l' r' : list A) i : NoDup (l ++ i :: r) -> l ++ i :: r = l' ++ i :: r' -> l = l'.
Proof.
  intros Hn E. assert (length l = length l') as Hl.
  { eapply (NoDup_lookup _ _ _ i Hn); [apply list_lookup_middle; done|]. rewrite E. apply list_lookup_middle. done. }
  apply app_inj_1 in E; [tauto | exact Hl].
Qed.

Lemma in_order_pairs (preds : list (list nat)) (order : list nat) : NoDup order -> (forall i e, e ∈ default [] (preds !! i) -> i ∈ order) ->
  (forall l i r, order = l ++ i :: r -> forall e, e ∈ default [] (preds !! i) -> e ∈ l) <->
  (forall a b, a ∈ default [] (preds !! b) -> exists l m r, order = l ++ a :: m ++ b :: r).
Proof.
  intros Hn Hin. split.
  - intros H a b Ha. destruct (list_elem_of_split _ _ (Hin b a Ha)) as (l & r & E).
    destruct (list_elem_of_split _ _ (H l b r E a Ha)) as (l1 & m & ->). exists l1, m, r. rewrite E, <- app_assoc. done.
  - intros H l i r E e He. destruct (H e i He) as (l1 & m & r1 & E1). rewrite app_comm_cons, app_assoc in E1.
    assert (l = l1 ++ e :: m) as ->; [|set_solver]. eapply NoDup_split; [|rewrite <- E; exact E1]. rewrite <- E. done.
Qed.

Lemma pending_all n i : is_pending (repeat true n) i = true <-> (i < n)%nat.
Proof.
  unfold is_pending. revert i. induction n as [|n IH]; intros [|i]; cbn; [lia.. | lia|]. rewrite IH. lia.
Qed.

Lemma earlier_lt clocks a b : earlier_than clocks a b = true -> (a < length clocks)%nat /\ (b < length clocks)%nat.
Proof.
  intros H. unfold earlier_than in H. destruct (clocks !! a) eqn:Ea, (clocks !! b) eqn:Eb; try done.
  apply lookup_lt_Some in Ea, Eb. lia.
Qed.

Section History.
Variables (blake3 : list byte -> list byte) (j : JournalState) (ops : list LinOperation) (clocks : list (VectorClock * VectorClock)).
Hypothesis Hj : journal_reach blake3 j.
Hypothesis Hlen : Z.of_nat (length (entries j)) <= u64_max.
Hypothesis Hc : operation_clocks j ops = Ok clocks.

Lemma clocks_length : length clocks = length ops.
Proof. symmetry. eapply Forall2_length, operation_clocks_ok, Hc. Qed.

Lemma earlier_iff a b opa opb : ops !! a = Some opa -> ops !! b = Some opb ->
  earlier_than clocks a b = true <-> a <> b /\ returned_before j opa opb.
Proof.
  pose proof (operation_clocks_ok _ _ _ Hc) as Hf. intros Ha Hb.
  destruct (Forall2_lookup_l _ _ _ _ _ Hf Ha) as (ca & Ea & ia & ra & H1 & H2 & ->).
  destruct (Forall2_lookup_l _ _ _ _ _ Hf Hb) as (cb & Eb & ib & rb & H3 & H4 & ->).
  unfold earlier_than. rewrite Ea, Eb. cbn [fst snd]. rewrite andb_true_iff, negb_true_iff, Nat.eqb_neq.
  rewrite (returned_before_clock blake3 j opa opb ra ib) by done. done.
Qed.

(** An order of all operations respects the real-time order exactly when it does so pair by pair. *)
Lemma respects_iff order : NoDup order -> (forall i, i ∈ order <-> (i < length ops)%nat) ->
  (forall l i r, order = l ++ i :: r -> forall e, e ∈ default [] (real_time_order clocks !! i) -> e ∈ l) <->
  (forall a b opa opb, ops !! a = Some opa -> ops !! b = Some opb -> a <> b -> returned_before j opa opb ->
     exists l m r, order = l ++ a :: m ++ b :: r).
Proof.
  intros Hn Hi. rewrite in_order_pairs; [|exact Hn|].
  2:{ intros i e He%real_time_order_elem%earlier_lt. rewrite clocks_length in He. apply Hi. tauto. }
  split.
  - intros H a b opa opb Ha Hb Hne Hr. apply H, real_time_order_elem, (earlier_iff a b opa opb Ha Hb). done.
  - intros H a b Hab%real_time_order_elem. destruct (earlier_lt _ _ _ Hab) as [H1 H2]. rewrite clocks_length in H1, H2.
    destruct (lookup_lt_is_Some_2 _ _ H1) as [opa Ha], (lookup_lt_is_Some_2 _ _ H2) as [opb Hb].
    apply (earlier_iff a b opa opb Ha Hb) in Hab as [Hne Hr]. eapply H; eauto.
Qed.

Lemma serial_linear specification order :
  serial (map lin_operation ops) (real_time_order clocks) specification (repeat true (length ops)) order <->
  order ≡ₚ seq 0 (length ops) /\ violated (history_loop specification (op_at ops order)) = false
  /\ (forall a b opa opb, ops !! a = Some opa -> ops !! b = Some opb -> a <> b -> returned_before j opa opb ->
       exists l m r, order = l ++ a :: m ++ b :: r).
Proof.
  rewrite serial_iff. split.
  - intros (H1 & H2 & H3 & H4). assert (Hi : forall i, i ∈ order <-> (i < length ops)%nat) by (intros i; rewrite H3, pending_all; done).
    split_and!.
    + apply list.NoDup_Permutation; [exact H2 | apply NoDup_ListNoDup, seq_NoDup|]. intros i. rewrite Hi, elem_of_seq. lia.
    + apply accepts_history; [intros i; apply Hi | done].
    + apply respects_iff; [done..|]. intros l i r E e He. eapply H4; [done..|]. apply pending_all.
      apply real_time_order_elem, earlier_lt in He. rewrite clocks_length in He. tauto.
  - intros (H1 & H2 & H3). assert (Hn : NoDup order) by (rewrite H1; apply NoDup_ListNoDup, seq_NoDup).
    assert (Hi : forall i, i ∈ order <-> (i < length ops)%nat) by (intros i; rewrite H1, elem_of_seq; lia).
    split_and!; [apply accepts_history; [intros i; apply Hi | done] | done | intros i; rewrite Hi, pending_all; done|].
    intros l i r E e He _. eapply (proj2 (respects_iff order Hn Hi)); done.
Qed.

(** The search finds a serial order exactly when the history is linearizable. *)
Lemma search_exact specification :
  (find_serialization (map lin_operation ops) (real_time_order clocks) (Datatypes.S (length ops)) specification
     (repeat true (length ops)) [] None).1 = true <-> linearizable specification j ops.
Proof.
  split.
  - destruct (find_serialization _ _ _ _ _ _ _) as [found f] eqn:E. cbn [fst]. intros ->. apply find_sound in E as (order & Ho).
    exists order. apply serial_linear, Ho.
  - intros (order & Ho). apply serial_linear in Ho as Hs. eapply find_complete; [exact Hs|]. destruct Ho as [Ho _].
    rewrite Ho, length_seq. lia.
Qed.
End History.

(** ** The failure reported *)

Section Failure.
Variable ops : list HistoryOperation.
Variable preds : list (list nat).

Definition in_range (f : option LinFailure) : Prop := match f with Some f => (lf_index f < length ops)%nat | None => True end.

Lemma first_rejected_range indices st p ser : in_range (first_rejected ops preds indices st p ser).
Proof.
  induction indices as [|i indices IH]; [done|]. cbn [first_rejected]. destruct (op_ready preds p i); [|done].
  unfold apply_at. destruct (ops !! i) as [op|] eqn:E; cbn [option_map]; [|done]. destruct (spec_apply st op); [done|].
  cbn. apply lookup_lt_Some in E. exact E.
Qed.

Lemma try_ready_range recur indices : (forall st p ser f, in_range f -> in_range (recur st p ser f).2) ->
  forall st p ser f, in_range f -> in_range (try_ready ops preds recur indices st p ser f).2.
Proof.
  intros Hrec. induction indices as [|i indices IH]; intros st p ser f Hf; [exact Hf|]. cbn [try_ready].
  destruct (op_ready preds p i); [|auto]. destruct (apply_at ops st i) as [[st'|]|]; [|auto..].
  specialize (Hrec st' (<[i := false]> p) (ser ++ [i]) f Hf). destruct (recur _ _ _ f) as [[] g]; [exact Hrec | auto].
Qed.

Lemma find_range fuel : forall st p ser f, in_range f -> in_range (find_serialization ops preds fuel st p ser f).2.
Proof.
  induction fuel as [|fuel IH]; intros st p ser f Hf; cbn [find_serialization]; [exact Hf|].
  destruct (negb _); [exact Hf|]. pose proof (try_ready_range _ (seq 0 (length ops)) IH st p ser f Hf) as H.
  destruct (try_ready _ _ _ _ _ _ _ _) as [[] g]; [exact H|]. destruct g; [exact H | apply first_rejected_range].
Qed.
End Failure.

(** C10: the linearizability checker is exact within its bound.  In a reachable journal of fewer than 2^64 entries, a history
    of at most [bound] operations whose entries the journal has passes exactly when it is linearizable: some order of its
    operations is accepted by the sequential specification and keeps every operation that had causally returned before
    another was invoked in front of it.  Otherwise the verdict is a violation witnessed by the entries of one of its
    operations.  A longer history is not searched: the verdict reports no violation and names the bound as its reason. *)
Theorem linearizability_exact blake3 j bound specification ops : journal_reach blake3 j ->
  Z.of_nat (length (entries j)) <= u64_max ->
  (forall op, op ∈ ops -> is_Some (state_lookup j (invoke op)) /\ is_Some (state_lookup j (response op))) ->
  let v := check_operations bound specification j ops in
  if (bound <? length ops)%nat then v = mkVerdict false [] (HistoryBounded bound (length ops))
  else
    (violated v = false <-> linearizable specification j ops) /\
    (violated v = true -> exists op, op ∈ ops /\ witnesses v = [invoke op; response op]).
Proof.
  intros Hj Hlen Hp. destruct (operation_clocks_present j ops Hp) as [clocks Hc]. cbv zeta. unfold check_operations.
  destruct (Nat.ltb_spec bound (length ops)); [done|]. rewrite Hc.
  pose proof (search_exact blake3 j ops clocks Hj Hlen Hc specification) as Hs.
  pose proof (find_range (map lin_operation ops) (real_time_order clocks) (Datatypes.S (length ops)) specification (repeat true (length ops)) [] None I) as Hr.
  destruct (find_serialization _ _ _ _ _ _ _) as [[] failure] eqn:E; cbn [fst snd] in *; [split; [tauto | done]|].
  assert (Hi : (lf_index (default (mkLinFailure [] 0 NoSerialOrder) failure) < length ops)%nat).
  { destruct failure as [f|]; [unfold in_range in Hr; rewrite List.length_map in Hr; exact Hr|]. destruct ops as [|op l]; [|cbn; lia].
    cbn in E. discriminate E. }
  unfold non_linearizable. destruct (lookup_lt_is_Some_2 _ _ Hi) as [op Hop]. rewrite Hop. cbn [violated witnesses verdict_fail].
  split; [split; [done | intros H'%Hs; done]|]. intros _. exists op. split; [eapply list_elem_of_lookup_2, Hop | done].
Qed.
End Lin.

(** Three entries in a chain; a read of the first write's value, which happens before the second write. *)
Definition lin_payload (v : Z) : EntryPayload := POutcome (Entry.mkOutcome (repeat x00 32) (VUnsigned v)).
Definition lin1 := grow ([], journal_new) KOutcome 1 [] (lin_payload 1).
Definition lin2 := grow lin1 KOutcome 2 [0%nat] (lin_payload 2).
Definition lin3 := grow lin2 KOutcome 3 [1%nat] (lin_payload 3).
Definition lin_id (i : nat) : EntryHash := default [] (lin3.1 !! i).
Definition lin_ops (seen : Z) : list LinOperation :=
  [mkLin (lin_id 2) (lin_id 2) (HWrite [x01] 2 []); mkLin (lin_id 1) (lin_id 1) (HRead [x01] seen []);
   mkLin (lin_id 0) (lin_id 0) (HWrite [x01] 1 [])].

Lemma lin3_reach : journal_reach roll_digest lin3.2.
Proof. repeat (apply grow_reach; [|vm_compute; reflexivity]). constructor. Qed.

(** Reading the first value is linearizable, reading the second is not. *)
Lemma linearizability_exact_witness :
  linearizable (mkKv ∅) lin3.2 (lin_ops 1) /\ ~ linearizable (mkKv ∅) lin3.2 (lin_ops 2).
Proof.
  assert (Hl : Z.of_nat (length (entries lin3.2)) <= u64_max) by (vm_compute; discriminate).
  assert (Hp : forall seen op, op ∈ lin_ops seen -> is_Some (state_lookup lin3.2 (invoke op)) /\ is_Some (state_lookup lin3.2 (response op))).
  { assert (Hs : forall i, (i < 3)%nat -> is_Some (state_lookup lin3.2 (lin_id i))).
    { intros i Hi. destruct (state_lookup lin3.2 (lin_id i)) eqn:E; [eauto|]. exfalso. revert E.
      destruct i as [|[|[|]]]; [| | |lia]; vm_compute; discriminate. }
    intros seen op Hop. unfold lin_ops in Hop. rewrite !elem_of_cons in Hop.
    destruct Hop as [->|[->|[->|Hop]]]; [| | |inversion Hop]; cbn [invoke response]; split; apply Hs; lia. }
  split.
  - apply (linearizability_exact roll_digest lin3.2 12 (mkKv ∅) (lin_ops 1) lin3_reach Hl (Hp 1)). vm_compute. reflexivity.
  - intros H. apply (linearizability_exact roll_digest lin3.2 12 (mkKv ∅) (lin_ops 2) lin3_reach Hl (Hp 2)) in H.
    revert H. vm_compute. discriminate.
Defined.

(** ** Exactly once *)

Definition inputs (es : list JEntry) : list Z := omap numeric_input es.

(** The numbers a run outputs, in order. *)
Definition outputs (run : RunResult) : list Z := map snd (observable_outputs run).

Definition numeric_outcome (e : JEntry) : bool :=
  bool_decide (kind (edata e) = KOutcome) && match outcome_number e with Some _ => true | None => false end.

Record scanned (es : list JEntry) (s : OnceScan) : Prop := {
  sc_values : forall v, length (default [] (input_values s !! v)) = count_occ Z.eq_dec (inputs es) v;
  sc_last : last_input s = list.last (inputs es);
  sc_outcome : last_numeric_outcome s = option_map eid (list.last (List.filter numeric_outcome es)) }.

Lemma once_scan_app es e : forall s i, once_scan s i (es ++ [e]) = once_step (once_scan s i es) (i + length es) e.
Proof.
  induction es as [|x es IH]; intros s i; cbn [once_scan app length]; [rewrite Nat.add_0_r; done|].
  rewrite IH. f_equal. lia.
Qed.

Lemma once_step_scanned es s i e : scanned es s -> scanned (es ++ [e]) (once_step s i e).
Proof.
  intros [H1 H2 H3].
  assert (Hout : List.filter numeric_outcome (es ++ [e]) = List.filter numeric_outcome es ++ if numeric_outcome e then [e] else []).
  { rewrite List.filter_app. cbn [List.filter]. done. }
  assert (Hin : inputs (es ++ [e]) = inputs es ++ option_list (numeric_input e)).
  { unfold inputs. rewrite omap_app. cbn [omap list_omap]. destruct (numeric_input e); done. }
  assert (Hskip : numeric_outcome e = false -> numeric_input e = None -> scanned (es ++ [e]) s).
  { intros E1 E2. rewrite E1, app_nil_r in Hout. rewrite E2 in Hin. change (option_list (@None Z)) with (@nil Z) in Hin. rewrite app_nil_r in Hin.
    split; rewrite ?Hin, ?Hout; done. }
  unfold once_step. unfold numeric_outcome, numeric_input, outcome_number in Hskip |- *.
  destruct (payload (edata e)) as [| | | | | | | | | | | |o| | | |step| | | | | | |] eqn:Ep;
    try (apply Hskip; [rewrite andb_false_r|]; done).
  - destruct (outcome_value o) eqn:Ev; try (apply Hskip; [rewrite andb_false_r|]; done).
    destruct (bool_decide (kind (edata e) = KOutcome)) eqn:Ek; [|apply Hskip; done].
    assert (numeric_outcome e = true) as En by (unfold numeric_outcome, outcome_number; rewrite Ek, Ep, Ev; done).
    assert (numeric_input e = None) as Ei by (unfold numeric_input; rewrite Ep; done).
    rewrite En in Hout. rewrite Ei in Hin. change (option_list (@None Z)) with (@nil Z) in Hin. rewrite app_nil_r in Hin.
    split; rewrite ?Hin, ?Hout, ?last_snoc; done.
  - destruct (input_value step) as [v| | | | | | | |] eqn:Ev; try (apply Hskip; [rewrite andb_false_r|]; done).
    assert (numeric_outcome e = false) as En by (unfold numeric_outcome, outcome_number; rewrite Ep, andb_false_r; done).
    assert (numeric_input e = Some v) as Ei by (unfold numeric_input; rewrite Ep, Ev; done).
    rewrite En, app_nil_r in Hout. rewrite Ei in Hin. change (option_list (Some v)) with [v] in Hin.
    split; rewrite ?Hin, ?Hout, ?last_snoc; cbn [input_values last_input last_numeric_outcome]; [|done..].
    intros w. rewrite count_occ_app. cbn [count_occ]. destruct (Z.eq_dec v w) as [->|Hne].
    + rewrite lookup_insert_eq. cbn [default from_option]. unfold id. rewrite length_app, <- (H1 w). done.
    + rewrite lookup_insert_ne by done. rewrite H1. lia.
Qed.

Lemma once_scan_scanned es i : scanned es (once_scan (mkScan ∅ None None) i es).
Proof.
  induction es as [|e es IH] using rev_ind; [split; done|]. rewrite once_scan_app. apply once_step_scanned, IH.
Qed.

Lemma first_duplicate_None m : first_duplicate m = None <-> forall v, (length (default [] (m !! v)) <= 1)%nat.
Proof.
  unfold first_duplicate. rewrite head_None, sort_by_nil. split.
  - intros H v. destruct (m !! v) as [ps|] eqn:E; cbn [default from_option]; [|cbn; lia].
    destruct (Nat.le_gt_cases (length ps) 1) as [|Hlt]; [done|]. exfalso.
    assert (In (v, ps) (List.filter (fun p => (1 <? length p.2)%nat) (map_to_list m))) as Hin; [|rewrite H in Hin; done].
    apply filter_In. split; [apply list_elem_of_In, elem_of_map_to_list, E | apply Nat.ltb_lt; exact Hlt].
  - intros H. destruct (List.filter _ _) as [|[v ps] l] eqn:E; [done|]. exfalso.
    assert (In (v, ps) (List.filter (fun p => (1 <? length p.2)%nat) (map_to_list m))) as Hin by (rewrite E; left; done).
    apply filter_In in Hin as [Hin Hlt]. apply list_elem_of_In, elem_of_map_to_list in Hin. apply Nat.ltb_lt in Hlt.
    specialize (H v). rewrite Hin in H. cbn in *. lia.
Qed.

Lemma outputs_last run : list.last (outputs run) = list.last (List.filter numeric_outcome (entries (journal run))) ≫= outcome_number.
Proof.
  unfold outputs, observable_outputs. induction (entries (journal run)) as [|e es IH] using rev_ind; [done|].
  rewrite omap_app, List.filter_app, map_app. cbn [omap list_omap List.filter]. unfold numeric_outcome at 2.
  destruct (bool_decide (kind (edata e) = KOutcome)); cbn [andb]; [|rewrite !app_nil_r; exact IH].
  destruct (outcome_number e) as [w|] eqn:E; cbn [option_map]; [|rewrite !app_nil_r; exact IH].
  cbn [map]. rewrite !last_snoc. cbn. rewrite E. done.
Qed.

(** The exactly-once oracle is exact: a run passes when no two of its numeric inputs are equal and its last numeric output,
    if it has inputs and outputs, is its last input. *)
Theorem exactly_once_exact blake3 run : journal_reach blake3 (journal run) ->
  violated (exactly_once_check run) = false <->
  NoDup (inputs (entries (journal run))) /\
  (forall v w, list.last (inputs (entries (journal run))) = Some v -> list.last (outputs run) = Some w -> w = v).
Proof.
  intros (log & _ & R)%journal_reach_represents. unfold exactly_once_check.
  destruct (once_scan_scanned (entries (journal run)) 0) as [H1 H2 H3]. set (s := once_scan _ _ _) in *.
  rewrite outputs_last, <- H2, NoDup_ListNoDup, (NoDup_count_occ Z.eq_dec).
  destruct (first_duplicate (input_values s)) as [[v ps]|] eqn:Ed.
  { split; [done|]. intros [Hn _]. exfalso. enough (first_duplicate (input_values s) = None) by congruence.
    apply first_duplicate_None. intros w. rewrite H1. apply Hn. }
  rewrite first_duplicate_None in Ed. assert (Hn : forall x, (count_occ Z.eq_dec (inputs (entries (journal run))) x <= 1)%nat).
  { intros x. rewrite <- H1. apply Ed. }
  rewrite H3. destruct (last_input s) as [v|]; [|split; [split; [done|]; intros; done | done]].
  destruct (list.last (List.filter _ _)) as [e|] eqn:El; cbn [option_map]; [|split; [split; [done|]; intros ? ? ? [=] | done]].
  assert (In e (entries (journal run)) /\ numeric_outcome e = true) as [Hin He].
  { apply last_Some in El as [l El]. apply filter_In. rewrite El. apply in_or_app. right. left. done. }
  rewrite (represents_entries _ _ R) in Hin. rewrite (r_lookup _ _ R), (log_get_self log e (r_nodup _ _ R) Hin).
  cbn [mbind option_bind]. unfold numeric_outcome in He. destruct (outcome_number e) as [w|]; [|rewrite andb_false_r in He; done].
  destruct (Z.eqb_spec w v) as [->|Hne]; split; try done.
  - split; [done|]. intros ? ? [= ->] [= ->]. done.
  - intros [_ H]. destruct Hne. apply H; done.
Qed.

(** Two distinct inputs and the second output; then a repeated input. *)
Definition once_input (v : Z) : EntryPayload := PInputStep (mkInputStep 0 0 (VUnsigned v)).
Definition once1 := grow ([], journal_new) KInputStep 1 [] (once_input 5).
Definition once2 := grow once1 KInputStep 1 [] (once_input 7).
Definition once3 := grow once2 KOutcome 1 [] (lin_payload 7).
Definition once4 := grow once3 KInputStep 1 [] (once_input 5).

Definition once_ok (j : JournalState) : Prop := NoDup (inputs (entries j)) /\
  (forall v w, list.last (inputs (entries j)) = Some v -> list.last (outputs (mkRun j [] [])) = Some w -> w = v).

Lemma exactly_once_exact_witness : once_ok once3.2 /\ ~ once_ok once4.2.
Proof.
  assert (H3 : journal_reach roll_digest once3.2) by (repeat (apply grow_reach; [|vm_compute; reflexivity]); constructor).
  assert (H4 : journal_reach roll_digest once4.2) by (apply grow_reach; [exact H3 | vm_compute; reflexivity]).
  split.
  - apply (exactly_once_exact roll_digest (mkRun once3.2 [] []) H3). vm_compute. reflexivity.
  - intros H. apply (exactly_once_exact roll_digest (mkRun once4.2 [] []) H4) in H. revert H. vm_compute. discriminate.
Defined.

(** ** Composition and comparison *)

Lemma compose_violated oracles run : violated (compose_oracles oracles run) = true <-> exists o, o ∈ oracles /\ violated (o run) = true.
Proof.
  unfold compose_oracles. destruct (existsb violated _) eqn:E.
  - apply existsb_exists in E as (v & Hin & Hv). apply in_map_iff in Hin as (o & <- & Ho). split; [|done].
    intros _. exists o. split; [apply list_elem_of_In, Ho | exact Hv].
  - split; [done|]. intros (o & Ho & Hv). rewrite <- not_true_iff_false, existsb_exists in E. destruct E.
    exists (o run). split; [apply in_map_iff; exists o; split; [done | apply list_elem_of_In, Ho] | exact Hv].
Qed.

Lemma output_mismatch_None ls : forall rs i, output_mismatch i ls rs = None -> length ls = length rs -> ls = rs.
Proof.
  induction ls as [|l ls IH]; intros [|r rs] i; cbn [output_mismatch length]; try done.
  destruct (decide (l = r)) as [->|]; [|done]. intros H [= Hl]. f_equal. eapply IH; eauto.
Qed.

Lemma output_mismatch_refl ls : forall i, output_mismatch i ls ls = None.
Proof. induction ls as [|l ls IH]; intros i; cbn [output_mismatch]; [done|]. rewrite decide_True by done. apply IH. Qed.

(** Two runs compare equal exactly when their registers, outputs, applied faults and journal roots are equal. *)
Lemma differential_exact blake3 l r : violated (differential_compare blake3 l r) = false <->
  registers l = registers r /\ observable_outputs l = observable_outputs r /\ applied_faults l = applied_faults r
  /\ root_hash blake3 (journal l) = root_hash blake3 (journal r).
Proof.
  unfold differential_compare, output_divergence_reason. case_bool_decide as H1; cbn [negb]; [|split; [done | tauto]].
  destruct (output_mismatch 0 _ _) as [why|] eqn:E; [split; [done|]; intros (_ & H & _); rewrite H, output_mismatch_refl in E; done|].
  destruct (Nat.eqb_spec (length (observable_outputs l)) (length (observable_outputs r))) as [Hl|Hl];
    [|split; [done|]; intros (_ & H & _); rewrite H in Hl; done].
  apply output_mismatch_None in E; [|exact Hl]. case_bool_decide as H3; cbn [negb]; [|split; [done | tauto]].
  case_bool_decide as H4; cbn [negb]; split; try done; tauto.
Qed.

(** ** The verdict cache *)

Section Cache.
Variable blake3 : list byte -> list byte.

Fixpoint check_each (o : CachedPropertyOracle) (runs : list RunResult) : list Verdict * CachedPropertyOracle :=
  match runs with
  | [] => ([], o)
  | run :: runs =>
      let '(v, o) := check_cached blake3 o run in
      let '(vs, o) := check_each o runs in (v :: vs, o)
  end.

Definition roots (runs : list RunResult) : gset (list byte) := list_to_set (map (fun r => root_hash blake3 (journal r)) runs).

(** The cache after some runs: one verdict per root. *)
Record caches (property : JournalState -> bool) (name : string) (version : Z) (seen : list RunResult) (o : CachedPropertyOracle) : Prop := {
  ca_property : co_property o = property;
  ca_name : co_name o = name;
  ca_version : co_version o = version;
  ca_hit : forall root v, co_cache o !! (version, root) = Some v ->
    exists r, r ∈ seen /\ root_hash blake3 (journal r) = root /\ v = property_check property name r;
  ca_seen : forall r, r ∈ seen -> is_Some (co_cache o !! (version, root_hash blake3 (journal r)));
  ca_count : co_evaluations o = size (roots seen) }.

Lemma check_cached_caches property name version seen o run : caches property name version seen o ->
  (forall r r', r ∈ run :: seen -> r' ∈ run :: seen -> root_hash blake3 (journal r) = root_hash blake3 (journal r') ->
     property_check property name r = property_check property name r') ->
  (check_cached blake3 o run).1 = property_check property name run /\
  caches property name version (run :: seen) (check_cached blake3 o run).2.
Proof.
  intros [H1 H2 H3 H4 H5 H6] Hd. unfold check_cached. rewrite H1, H2, H3.
  set (root := root_hash blake3 (journal run)) in *.
  assert (Hroots : roots (run :: seen) = {[root]} ∪ roots seen) by done.
  destruct (co_cache o !! (version, root)) as [v|] eqn:E; cbn [fst snd].
  - destruct (H4 _ _ E) as (r & Hr & Er & ->). split; [apply Hd; [right; done | left | done]|]. split; [done..| | |].
    + intros root' v' (r' & Hr' & E')%H4. exists r'. split; [right|]; done.
    + intros r' [->|Hr']%elem_of_cons; [exists (property_check property name r); done | auto].
    + rewrite H6. f_equal. rewrite Hroots. apply leibniz_equiv. symmetry. apply subseteq_union. apply singleton_subseteq_l.
      unfold roots. apply elem_of_list_to_set, list_elem_of_fmap. exists r. done.
  - split; [done|]. split; cbn [co_property co_name co_version co_cache co_evaluations]; [done..| | |].
    + intros root' v'. destruct (decide (root' = root)) as [->|Hne].
      * rewrite lookup_insert_eq. intros [= <-]. exists run. split; [left | done].
      * rewrite lookup_insert_ne by congruence. intros (r' & Hr' & E')%H4. exists r'. split; [right|]; done.
    + intros r' Hr'. destruct (decide (root_hash blake3 (journal r') = root)) as [Heq|Hne]; [rewrite Heq, lookup_insert_eq; eauto|].
      rewrite lookup_insert_ne by congruence. apply elem_of_cons in Hr' as [->|Hr']; [done | auto].
    + rewrite H6, Hroots, size_union, size_singleton; [lia|]. apply disjoint_singleton_l. unfold roots.
      rewrite elem_of_list_to_set, list_elem_of_fmap. intros (r & Er & Hr). destruct (H5 r Hr) as [v Hv]. congruence.
Qed.
End Cache.

(** The verdict cache is transparent: checking runs one after the other gives the verdicts of checking each afresh, when runs
    with the same journal root get the same verdict, and the predicate runs once per distinct root. *)
Theorem cached_oracle_transparent blake3 property name version runs :
  (forall r r', r ∈ runs -> r' ∈ runs -> root_hash blake3 (journal r) = root_hash blake3 (journal r') ->
     property_check property name r = property_check property name r') ->
  let '(vs, o) := check_each blake3 (cached_with_version property name version) runs in
  vs = map (property_check property name) runs /\ co_evaluations o = size (roots blake3 runs).
Proof.
  assert (H : forall runs seen o, caches blake3 property name version seen o ->
    (forall r r', r ∈ runs ++ seen -> r' ∈ runs ++ seen -> root_hash blake3 (journal r) = root_hash blake3 (journal r') ->
       property_check property name r = property_check property name r') ->
    let '(vs, o') := check_each blake3 o runs in
    vs = map (property_check property name) runs /\ co_evaluations o' = size (roots blake3 (rev runs ++ seen))).
  { clear runs. induction runs as [|run runs IH]; intros seen o Ho Hd; cbn [check_each]; [split; [done | apply Ho]|].
    destruct (check_cached_caches blake3 property name version seen o run Ho) as [E Ho'].
    { intros r r' Hr Hr'. apply Hd; set_solver. }
    destruct (check_cached blake3 o run) as [v o']. cbn [fst snd] in *. subst v.
    specialize (IH (run :: seen) o' Ho'). destruct (check_each blake3 o' runs) as [vs o''].
    destruct IH as [-> E]; [intros r r' Hr Hr'; apply Hd; set_solver|]. split; [done|]. cbn [rev]. rewrite <- app_assoc. exact E. }
  intros Hd. specialize (H runs [] (cached_with_version property name version)).
  destruct (check_each _ _ _) as [vs o]. destruct H as [-> E].
  - split; try done. intros r Hr. inversion Hr.
  - rewrite app_nil_r. exact Hd.
  - split; [done|]. rewrite E, app_nil_r. f_equal. apply leibniz_equiv. intros x. unfold roots.
    rewrite !elem_of_list_to_set, !list_elem_of_In, !in_map_iff. split; intros (r & Er & Hr); exists r; (split; [exact Er|]); apply in_rev; [|rewrite rev_involutive]; exact Hr.
Qed.

Lemma cached_oracle_transparent_witness :
  let runs := [mkRun once3.2 [] []; mkRun once4.2 [] []; mkRun once3.2 [] []] in
  let property j := (length (entries j) <? 4)%nat in
  let '(vs, o) := check_each roll_digest (cached_with_version property "short" 1) runs in
  vs = map (property_check property "short") runs /\ co_evaluations o = size (roots roll_digest runs).
Proof.
  apply (cached_oracle_transparent roll_digest (fun j => (length (entries j) <? 4)%nat) "short" 1).
  assert (root_hash roll_digest once3.2 <> root_hash roll_digest once4.2) as Hne by (vm_compute; discriminate).
  intros r r' Hr Hr' E. rewrite !elem_of_cons in Hr, Hr'.
  destruct Hr as [->|[->|[->|Hr]]], Hr' as [->|[->|[->|Hr']]]; try (inversion Hr; fail); try (inversion Hr'; fail); try reflexivity;
    cbn [journal] in E; congruence.
Defined.
