(* ===== verification/OnlineMonitor.v ===== *)
(** * Online monitors

    [ledger-explorer/src/monitor.rs]: monitors that see the journal entry by entry, fed step by step while a run goes on
    or replayed over the whole journal by an oracle afterwards.  A boxed monitor is its state with its operations. *)

From S2P Require Import Prelude Machine Limits Value Entry OrdMap Order Clock Dag Causal Slice OSet Verdict.
From S2P Require Import Hitting Oracle OracleProofs.

Open Scope Z_scope.

Inductive MonitorAction : Type :=
| Continue
| Warn (why : Reason)
| Halt (why : Reason).

Inductive OnlineAction : Type :=
| OnlineContinue
| OnlineHalt (why : Reason).

(** [Box<dyn OnlineMonitor>]. *)
Record OnlineMonitor : Type := mkMonitor {
  m_state : Type;
  m_on_entry : m_state -> JEntry -> MonitorAction * m_state;
  m_on_quiescence : m_state -> MonitorAction * m_state;
  m_reset : m_state -> m_state;
  m_name : string;
  m_current : m_state }.

Definition with_state (m : OnlineMonitor) (s : m_state m) : OnlineMonitor :=
  mkMonitor (m_state m) (m_on_entry m) (m_on_quiescence m) (m_reset m) (m_name m) s.

Definition on_entry (m : OnlineMonitor) (e : JEntry) : MonitorAction * OnlineMonitor :=
  let '(a, s) := m_on_entry m (m_current m) e in (a, with_state m s).
Definition on_quiescence (m : OnlineMonitor) : MonitorAction * OnlineMonitor :=
  let '(a, s) := m_on_quiescence m (m_current m) in (a, with_state m s).
Definition reset (m : OnlineMonitor) : OnlineMonitor := with_state m (m_reset m (m_current m)).

(** ** While the run goes on *)

(** One entry to every monitor; the first halt ends the feed. *)
Fixpoint feed_entry (ms : list OnlineMonitor) (e : JEntry) : option Reason * list OnlineMonitor :=
  match ms with
  | [] => (None, [])
  | m :: ms =>
      let '(a, m) := on_entry m e in
      match a with
      | Halt why => (Some (Named (m_name m) why), m :: ms)
      | _ => let '(halt, ms) := feed_entry ms e in (halt, m :: ms)
      end
  end.

Fixpoint feed_entries (ms : list OnlineMonitor) (es : list JEntry) : option Reason * list OnlineMonitor :=
  match es with
  | [] => (None, ms)
  | e :: es =>
      let '(halt, ms) := feed_entry ms e in
      match halt with
      | Some why => (Some why, ms)
      | None => feed_entries ms es
      end
  end.

(** The closure of [to_step_monitor] and [monitors_to_step_monitor]: the entries from [start] on. *)
Definition step_monitor (ms : list OnlineMonitor) (j : JournalState) (start : nat) : OnlineAction * list OnlineMonitor :=
  let '(halt, ms) := feed_entries ms (drop start (entries j)) in
  (match halt with Some why => OnlineHalt why | None => OnlineContinue end, ms).

(** ** After the run *)

Record MonitorOracle : Type := mkMonitorOracle { mo_monitors : list OnlineMonitor; mo_warnings : list Reason }.

Definition monitor_oracle_new : MonitorOracle := mkMonitorOracle [] [].
Definition with_monitor (o : MonitorOracle) (m : OnlineMonitor) : MonitorOracle := mkMonitorOracle (mo_monitors o ++ [m]) (mo_warnings o).
Definition reset_all (o : MonitorOracle) : MonitorOracle := mkMonitorOracle (map reset (mo_monitors o)) (mo_warnings o).

(** What a replay collects. *)
Record Collected : Type := mkCollected { c_witnesses : list EntryHash; c_reasons : list Reason; c_warns : list Reason }.

Definition warned (c : Collected) (why : Reason) : Collected := mkCollected (c_witnesses c) (c_reasons c) (c_warns c ++ [why]).

Fixpoint collect_entry (ms : list OnlineMonitor) (e : JEntry) (c : Collected) : Collected * list OnlineMonitor :=
  match ms with
  | [] => (c, [])
  | m :: ms =>
      let '(a, m) := on_entry m e in
      let c := match a with
               | Continue => c
               | Warn why => warned c (Named (m_name m) why)
               | Halt why => mkCollected (c_witnesses c ++ [eid e]) (c_reasons c ++ [Named (m_name m) why]) (c_warns c)
               end in
      let '(c, ms) := collect_entry ms e c in (c, m :: ms)
  end.

Fixpoint collect_entries (ms : list OnlineMonitor) (es : list JEntry) (c : Collected) : Collected * list OnlineMonitor :=
  match es with
  | [] => (c, ms)
  | e :: es => let '(c, ms) := collect_entry ms e c in collect_entries ms es c
  end.

Fixpoint collect_quiescence (ms : list OnlineMonitor) (last_id : option EntryHash) (c : Collected) : Collected * list OnlineMonitor :=
  match ms with
  | [] => (c, [])
  | m :: ms =>
      let '(a, m) := on_quiescence m in
      let c := match a with
               | Continue => c
               | Warn why => warned c (AtQuiescence (m_name m) why)
               | Halt why =>
                   mkCollected (match c_witnesses c, last_id with [], Some id => [id] | ws, _ => ws end)
                     (c_reasons c ++ [AtQuiescence (m_name m) why]) (c_warns c)
               end in
      let '(c, ms) := collect_quiescence ms last_id c in (c, m :: ms)
  end.

Definition monitor_check (o : MonitorOracle) (run : RunResult) : Verdict * MonitorOracle :=
  let es := entries (journal run) in
  let '(c, ms) := collect_entries (map reset (mo_monitors o)) es (mkCollected [] [] []) in
  let '(c, ms) := collect_quiescence ms (option_map eid (list.last es)) c in
  (match c_reasons c with
   | [] => verdict_pass
   | _ :: _ => mkVerdict true (c_witnesses c) (Joined (c_reasons c))
   end, mkMonitorOracle ms (c_warns c)).

(** ** The monitors provided *)

Definition safety_monitor (invariant : JEntry -> bool) (message : string) (name : string) : OnlineMonitor :=
  mkMonitor unit (fun s e => (if invariant e then Continue else Halt (Message message), s)) (fun s => (Continue, s)) id name tt.

Definition liveness_on_entry (expected_kind : EntryKind) (max_gap_steps : nat) (steps_since : nat) (e : JEntry) : MonitorAction * nat :=
  if bool_decide (kind (edata e) = expected_kind) then (Continue, 0%nat)
  else
    let steps := S steps_since in
    (if (max_gap_steps <? steps)%nat then Halt (GapExceeds steps max_gap_steps expected_kind)
     else if (steps =? max_gap_steps)%nat then Warn (GapAtMax steps max_gap_steps expected_kind)
     else Continue, steps).

Definition liveness_on_quiescence (expected_kind : EntryKind) (max_gap_steps : nat) (steps_since : nat) : MonitorAction * nat :=
  (if (max_gap_steps <? steps_since)%nat then Halt (TrailingGap steps_since max_gap_steps expected_kind)
   else if (steps_since =? max_gap_steps)%nat && (0 <? max_gap_steps)%nat then Warn (TrailingGapAtMax max_gap_steps expected_kind)
   else Continue, steps_since).

Definition liveness_monitor (expected_kind : EntryKind) (max_gap_steps : nat) (name : string) : OnlineMonitor :=
  mkMonitor nat (liveness_on_entry expected_kind max_gap_steps) (liveness_on_quiescence expected_kind max_gap_steps)
    (fun _ => 0%nat) name 0%nat.

(** ** Merging with the user's oracle *)

Definition merge_monitor_verdict (primary monitored : Verdict) : Verdict :=
  if negb (violated monitored) then primary
  else
    let monitor_reason := Named "monitor" (reason monitored) in
    mkVerdict true (witnesses primary ++ witnesses monitored)
      (if violated primary then Joined [reason primary; monitor_reason] else monitor_reason).

(** ** Online monitoring agrees with replay

    - Feeding the journal in steps halts exactly when the replay of the whole journal finds a violation at an entry, for
      the same reason and at the same entry.
    - The liveness monitor finds exactly the gaps longer than its bound. *)

(** ** One entry *)

(** A replay only adds to what it has collected, a witness for each reason. *)
Record adds (c c' : Collected) (ws : list EntryHash) (rs : list Reason) : Prop := {
  a_witnesses : c_witnesses c' = c_witnesses c ++ ws;
  a_reasons : c_reasons c' = c_reasons c ++ rs;
  a_length : length ws = length rs }.

Lemma adds_nil c : adds c c [] [].
Proof. split; rewrite ?app_nil_r; done. Qed.

Lemma adds_trans c c1 c2 ws rs ws' rs' : adds c c1 ws rs -> adds c1 c2 ws' rs' -> adds c c2 (ws ++ ws') (rs ++ rs').
Proof. intros [H1 H2 H3] [H4 H5 H6]. split; rewrite ?H4, ?H5, ?H1, ?H2, ?app_assoc, ?length_app; congruence. Qed.

Lemma collect_entry_adds ms e : forall c, exists ws rs, adds c (collect_entry ms e c).1 ws rs.
Proof.
  induction ms as [|m ms IH]; intros c; cbn [collect_entry]; [exists [], []; apply adds_nil|].
  destruct (on_entry m e) as [a m'].
  assert (exists ws rs, adds c (match a with
      | Continue => c
      | Warn why => warned c (Named (m_name m') why)
      | Halt why => mkCollected (c_witnesses c ++ [eid e]) (c_reasons c ++ [Named (m_name m') why]) (c_warns c)
      end) ws rs) as (ws & rs & H1).
  { destruct a; [exists [], []; apply adds_nil | exists [], []; split; cbn; rewrite ?app_nil_r; done | eexists [_], [_]; split; done]. }
  destruct (IH (match a with
      | Continue => c
      | Warn why => warned c (Named (m_name m') why)
      | Halt why => mkCollected (c_witnesses c ++ [eid e]) (c_reasons c ++ [Named (m_name m') why]) (c_warns c)
      end)) as (ws' & rs' & H2).
  destruct (collect_entry ms e _) as [c' ms']. eexists _, _. eapply adds_trans; eauto.
Qed.

Lemma collect_entries_adds es : forall ms c, exists ws rs, adds c (collect_entries ms es c).1 ws rs.
Proof.
  induction es as [|e es IH]; intros ms c; cbn [collect_entries]; [exists [], []; apply adds_nil|].
  destruct (collect_entry_adds ms e c) as (ws & rs & H1). destruct (collect_entry ms e c) as [c1 ms1].
  destruct (IH ms1 c1) as (ws' & rs' & H2). eexists _, _. eapply adds_trans; eauto.
Qed.

(** The feed and the replay agree up to the first halt. *)
Lemma feed_entry_collect ms e : forall c,
  match feed_entry ms e with
  | (None, ms') => (collect_entry ms e c).2 = ms' /\ adds c (collect_entry ms e c).1 [] []
  | (Some why, _) => exists ws rs, adds c (collect_entry ms e c).1 (eid e :: ws) (why :: rs)
  end.
Proof.
  induction ms as [|m ms IH]; intros c; cbn [feed_entry collect_entry]; [split; [done | apply adds_nil]|].
  destruct (on_entry m e) as [a m']. destruct a as [|why|why].
  - specialize (IH c). destruct (feed_entry ms e) as [[why|] ms1], (collect_entry ms e c) as [c1 ms2]; cbn [fst snd] in *; [done|].
    destruct IH as [-> H]. done.
  - specialize (IH (warned c (Named (m_name m') why))).
    assert (adds c (warned c (Named (m_name m') why)) [] []) as Hw by (split; cbn; rewrite ?app_nil_r; done).
    destruct (feed_entry ms e) as [[r|] ms1], (collect_entry ms e _) as [c1 ms2]; cbn [fst snd] in *.
    + destruct IH as (ws & rs & H). exists ws, rs. exact (adds_trans _ _ _ _ _ _ _ Hw H).
    + destruct IH as [-> H]. split; [done | exact (adds_trans _ _ _ _ _ _ _ Hw H)].
  - destruct (collect_entry_adds ms e (mkCollected (c_witnesses c ++ [eid e]) (c_reasons c ++ [Named (m_name m') why]) (c_warns c))) as (ws & rs & H).
    destruct (collect_entry ms e _) as [c1 ms2]. cbn [fst] in *. exists ws, rs.
    apply (adds_trans c (mkCollected (c_witnesses c ++ [eid e]) (c_reasons c ++ [Named (m_name m') why]) (c_warns c)) c1 [_] [_] ws rs); [split; done | exact H].
Qed.

Lemma feed_entries_collect es : forall ms c,
  match feed_entries ms es with
  | (None, ms') => (collect_entries ms es c).2 = ms' /\ adds c (collect_entries ms es c).1 [] []
  | (Some why, _) => exists e ws rs, In e es /\ adds c (collect_entries ms es c).1 (eid e :: ws) (why :: rs)
  end.
Proof.
  induction es as [|e es IH]; intros ms c; cbn [feed_entries collect_entries]; [split; [done | apply adds_nil]|].
  pose proof (feed_entry_collect ms e c) as H. destruct (feed_entry ms e) as [[why|] ms1].
  - destruct H as (ws & rs & H). destruct (collect_entry ms e c) as [c1 ms2]. cbn [fst] in H.
    destruct (collect_entries_adds es ms2 c1) as (ws' & rs' & H'). exists e, (ws ++ ws'), (rs ++ rs'). split; [left; done|].
    exact (adds_trans _ _ _ _ _ _ _ H H').
  - destruct H as [E H]. destruct (collect_entry ms e c) as [c1 ms2]. cbn [fst snd] in *. subst ms2. specialize (IH ms1 c1).
    destruct (feed_entries ms1 es) as [[why|] ms3].
    + destruct IH as (e' & ws & rs & Hin & H'). exists e', ws, rs. split; [right; done | exact (adds_trans _ _ _ _ _ _ _ H H')].
    + destruct IH as [E' H']. split; [exact E' | exact (adds_trans _ _ _ _ _ _ _ H H')].
Qed.

(** ** A run in steps *)

(** The calls of the step monitor along a run: each sees the journal so far and starts where the one before ended. *)
Fixpoint watch (ms : list OnlineMonitor) (start : nat) (js : list JournalState) : OnlineAction * list OnlineMonitor :=
  match js with
  | [] => (OnlineContinue, ms)
  | j :: js =>
      let '(a, ms) := step_monitor ms j start in
      match a with
      | OnlineHalt why => (OnlineHalt why, ms)
      | OnlineContinue => watch ms (length (entries j)) js
      end
  end.

(** Each journal extends the one before, up to the entries [es]. *)
Fixpoint growing (before : list JEntry) (js : list JournalState) (es : list JEntry) : Prop :=
  match js with
  | [] => before = es
  | j :: js => (exists d, entries j = before ++ d) /\ growing (entries j) js es
  end.

Lemma growing_prefix before js es : growing before js es -> exists d, es = before ++ d.
Proof.
  revert before. induction js as [|j js IH]; intros before; cbn [growing]; [intros ->; exists []; rewrite app_nil_r; done|].
  intros [[d Hd] H]. destruct (IH _ H) as [d' ->]. exists (d ++ d'). rewrite Hd, app_assoc. done.
Qed.

Lemma watch_collect js : forall ms before es c d, growing before js es -> es = before ++ d ->
  match watch ms (length before) js with
  | (OnlineContinue, _) => adds c (collect_entries ms d c).1 [] []
  | (OnlineHalt why, _) => exists e ws rs, In e d /\ adds c (collect_entries ms d c).1 (eid e :: ws) (why :: rs)
  end.
Proof.
  assert (Happ : forall d1 d2 ms c, collect_entries ms (d1 ++ d2) c = let '(c, ms) := collect_entries ms d1 c in collect_entries ms d2 c).
  { induction d1 as [|e d1 IH]; intros d2 ms c; cbn [collect_entries app]; [done|]. destruct (collect_entry ms e c). apply IH. }
  induction js as [|j js IH]; intros ms before es c d Hg ->; cbn [growing watch] in *.
  - assert (d = []) as -> by (rewrite <- (app_nil_r before) in Hg at 1; apply app_inv_head in Hg; congruence). apply adds_nil.
  - destruct Hg as [[d1 E1] Hg]. destruct (growing_prefix _ _ _ Hg) as [d2 E2]. rewrite E1, <- app_assoc in E2. apply app_inv_head in E2 as ->.
    unfold step_monitor. rewrite E1, drop_app_length. rewrite Happ.
    pose proof (feed_entries_collect d1 ms c) as H. destruct (feed_entries ms d1) as [[why|] ms1].
    + destruct H as (e & ws & rs & Hin & H). destruct (collect_entries ms d1 c) as [c1 ms2]. cbn [fst] in *.
      destruct (collect_entries_adds d2 ms2 c1) as (ws' & rs' & H'). exists e, (ws ++ ws'), (rs ++ rs').
      split; [apply in_or_app; left; done | exact (adds_trans _ _ _ _ _ _ _ H H')].
    + destruct H as [E H]. destruct (collect_entries ms d1 c) as [c1 ms2]. cbn [fst snd] in *. subst ms2.
      specialize (IH ms1 (entries j) _ c1 d2 Hg ltac:(rewrite E1, <- app_assoc; done)). rewrite E1 in IH.
      destruct (watch ms1 _ js) as [[|why] ms3].
      * exact (adds_trans _ _ _ _ _ _ _ H IH).
      * destruct IH as (e & ws & rs & Hin & H'). exists e, ws, rs. split; [apply in_or_app; right; done | exact (adds_trans _ _ _ _ _ _ _ H H')].
Qed.

Definition at_quiescence (r : Reason) : Prop := match r with AtQuiescence _ _ => True | _ => False end.

Lemma collect_quiescence_adds ms last_id : forall c, exists qs, Forall at_quiescence qs
  /\ c_reasons (collect_quiescence ms last_id c).1 = c_reasons c ++ qs
  /\ (c_witnesses c <> [] -> c_witnesses (collect_quiescence ms last_id c).1 = c_witnesses c).
Proof.
  induction ms as [|m ms IH]; intros c; cbn [collect_quiescence]; [exists []; rewrite app_nil_r; done|].
  destruct (on_quiescence m) as [a m'].
  set (c1 := match a with Continue => c | Warn why => _ | Halt why => _ end).
  assert (exists q, Forall at_quiescence q /\ c_reasons c1 = c_reasons c ++ q /\ (c_witnesses c <> [] -> c_witnesses c1 = c_witnesses c)) as (q & H1 & H2 & H3).
  { subst c1. destruct a as [|why|why]; [exists []; rewrite app_nil_r; done | exists []; cbn; rewrite app_nil_r; done|].
    exists [AtQuiescence (m_name m') why]. cbn [c_reasons c_witnesses]. split_and!; [repeat constructor | done|].
    destruct (c_witnesses c); done. }
  destruct (IH c1) as (qs & H4 & H5 & H6). destruct (collect_quiescence ms last_id c1) as [c2 ms2]. cbn [fst] in *.
  exists (q ++ qs). rewrite H5, H2, app_assoc. split_and!; [apply Forall_app; done | done|].
  intros Hw. rewrite H6; [apply H3, Hw | rewrite H3; done].
Qed.

(** C24: online monitoring agrees with replay, however a run's journal is cut into steps: when the step monitor halts, the replay of
    the whole journal by the same oracle is a violation whose first reason is the one the monitor halted for and whose
    first witness is an entry of the run; when it never halts, every reason the replay has is one of quiescence. *)
Theorem online_agrees_with_replay o js run : growing [] js (entries (journal run)) ->
  let v := (monitor_check o run).1 in
  match (watch (map reset (mo_monitors o)) 0 js).1 with
  | OnlineHalt why => violated v = true /\ (exists rs, reason v = Joined (why :: rs))
      /\ exists e ws, In e (entries (journal run)) /\ witnesses v = eid e :: ws
  | OnlineContinue => v = verdict_pass \/ exists q, Forall at_quiescence q /\ reason v = Joined q
  end.
Proof.
  intros Hg. cbv zeta. unfold monitor_check. set (ms := map reset (mo_monitors o)). set (es := entries (journal run)) in *.
  pose proof (watch_collect js ms [] es (mkCollected [] [] []) es Hg eq_refl) as H. cbn [length] in H.
  destruct (collect_entries ms es _) as [c ms1]. cbn [fst] in H.
  destruct (collect_quiescence_adds ms1 (option_map eid (list.last es)) c) as (qs & Hq & Hr & Hw).
  destruct (collect_quiescence ms1 _ c) as [c2 ms2]. cbn [fst] in *.
  destruct (watch ms 0 js) as [[|why] ms3]; cbn [fst].
  - destruct H as [_ Hrs _]. cbn in Hrs. rewrite Hrs in Hr. cbn in Hr. rewrite Hr. destruct qs as [|q qs]; [left; done|].
    right. exists (q :: qs). done.
  - destruct H as (e & ws & rs & Hin & [Hws Hrs _]). cbn in Hws, Hrs. rewrite Hrs in Hr. rewrite Hr.
    rewrite Hws in Hw. rewrite Hw by done. cbn [app violated reason witnesses]. split; [done|]. split; [eauto|].
    exists e, ws. done.
Qed.

(** ** Liveness *)

Section Liveness.
Variables (expected : EntryKind) (max_gap : nat).

(** More than [max_gap] entries in a row without the expected kind. *)
Definition silent (w : list JEntry) : Prop := (max_gap < length w)%nat /\ Forall (fun e => kind (edata e) <> expected) w.

(** Whether the monitor halts, from a gap of [s]. *)
Fixpoint gap_exceeded (s : nat) (es : list JEntry) : bool :=
  match es with
  | [] => false
  | e :: es => if bool_decide (kind (edata e) = expected) then gap_exceeded 0 es else (max_gap <? S s)%nat || gap_exceeded (S s) es
  end.

Lemma gap_exceeded_iff es : forall s, gap_exceeded s es = true <->
  (exists w r, w <> [] /\ es = w ++ r /\ (max_gap < s + length w)%nat /\ Forall (fun e => kind (edata e) <> expected) w) \/
  (exists l w r, es = l ++ w ++ r /\ silent w).
Proof.
  induction es as [|e es IH]; intros s; cbn [gap_exceeded].
  - split; [done|]. intros [(w & r & Hw & E & _)|(l & w & r & E & Hs & _)]; [destruct w; done|].
    destruct l; [|done]. destruct w; [cbn in Hs; lia | done].
  - case_bool_decide as Hk.
    + rewrite IH. split.
      * intros [(w & r & _ & -> & Hl & Hf)|(l & w & r & -> & Hs)]; right; [exists [e], w, r | exists (e :: l), w, r]; done.
      * intros [(w & r & Hw & E & _ & Hf)|(l & w & r & E & Hs)].
        -- destruct w as [|x w]; [done|]. injection E as <- _. inversion_clear Hf. done.
        -- right. destruct l as [|x l]; [|injection E as <- ->; exists l, w, r; done].
           destruct w as [|x w]; [destruct Hs; cbn in *; lia|]. destruct Hs as [_ Hf]. injection E as <- _. inversion_clear Hf. done.
    + rewrite orb_true_iff, Nat.ltb_lt, IH. split.
      * intros [H|[(w & r & _ & -> & Hl & Hf)|(l & w & r & -> & Hs)]].
        -- left. exists [e], es. split_and!; [done | done | cbn; lia | constructor; [done | constructor]].
        -- left. exists (e :: w), r. split_and!; [done | done | cbn; lia | constructor; done].
        -- right. exists (e :: l), w, r. done.
      * assert (Hhead : forall w r t, e :: es = w ++ r -> w <> [] -> (max_gap < t + length w)%nat -> (t <= s)%nat ->
          Forall (fun e => kind (edata e) <> expected) w -> (max_gap < S s)%nat \/
          (exists w r, w <> [] /\ es = w ++ r /\ (max_gap < S s + length w)%nat /\ Forall (fun e => kind (edata e) <> expected) w)).
        { intros [|x [|y w]] r t E Hw Hl Ht Hf; [done | left; cbn in Hl; lia|]. right. injection E as <- ->. inversion_clear Hf.
          exists (y :: w), r. split_and!; [done | done | cbn in *; lia | done]. }
        intros [(w & r & Hw & E & Hl & Hf)|(l & w & r & E & Hs)]; [destruct (Hhead w r s E Hw Hl ltac:(lia) Hf); auto|].
        destruct l as [|x l]; [|injection E as <- ->; right; right; exists l, w, r; done].
        destruct Hs as [Hl Hf]. destruct (Hhead w r 0%nat E) as [|]; auto; [destruct w; [cbn in Hl; lia | done] | lia].
Qed.

Variable name : string.
Abbreviation monitor_at s := (with_state (liveness_monitor expected max_gap name) s).

Lemma on_entry_liveness (s : nat) e : on_entry (monitor_at s) e =
  let '(a, s') := liveness_on_entry expected max_gap s e in (a, monitor_at s').
Proof. reflexivity. Qed.

Lemma on_quiescence_liveness (s : nat) : on_quiescence (monitor_at s) =
  let '(a, s') := liveness_on_quiescence expected max_gap s in (a, monitor_at s').
Proof. reflexivity. Qed.

Lemma liveness_collect es : forall s c, exists s', (collect_entries [monitor_at s] es c).2 = [monitor_at s'] /\
  (c_reasons (collect_entries [monitor_at s] es c).1 = [] <-> c_reasons c = [] /\ gap_exceeded s es = false) /\
  ((s <= max_gap)%nat -> gap_exceeded s es = false -> (s' <= max_gap)%nat).
Proof.
  induction es as [|e es IH]; intros s c; cbn [collect_entries gap_exceeded]; [exists s; split_and!; [done | tauto | done]|].
  cbn [collect_entry]. rewrite on_entry_liveness. unfold liveness_on_entry.
  destruct (bool_decide (kind (edata e) = expected)).
  - destruct (IH 0%nat c) as (s' & H1 & H2 & H3). exists s'. split_and!; [exact H1 | exact H2|]. intros _ Hg. apply H3; [lia | done].
  - cbv zeta. destruct (Nat.ltb_spec max_gap (S s)) as [Hlt|Hge].
    + destruct (IH (S s) (mkCollected (c_witnesses c ++ [eid e]) (c_reasons c ++ [Named name (GapExceeds (S s) max_gap expected)]) (c_warns c))) as (s' & H1 & H2 & _).
      exists s'. split_and!; [exact H1 | | done]. rewrite H2. cbn [c_reasons orb]. split; [intros [H _]; destruct (c_reasons c); done | intros [_ H]; done].
    + destruct (S s =? max_gap)%nat;
        [destruct (IH (S s) (warned c (Named name (GapAtMax (S s) max_gap expected)))) as (s' & H1 & H2 & H3) | destruct (IH (S s) c) as (s' & H1 & H2 & H3)];
        exists s'; (split_and!; [exact H1 | exact H2|]); intros _ Hg; apply H3; [lia | done | lia | done].
Qed.
End Liveness.

(** The liveness monitor is exact: a run is a violation exactly when its journal has more than [max_gap] consecutive
    entries without the expected kind. *)
Theorem liveness_exact expected max_gap name run :
  violated (monitor_check (with_monitor monitor_oracle_new (liveness_monitor expected max_gap name)) run).1 = true <->
  exists l w r, entries (journal run) = l ++ w ++ r /\ silent expected max_gap w.
Proof.
  unfold monitor_check. cbn [with_monitor monitor_oracle_new mo_monitors app map].
  change (reset (liveness_monitor expected max_gap name)) with (with_state (liveness_monitor expected max_gap name) 0%nat).
  destruct (liveness_collect expected max_gap name (entries (journal run)) 0%nat (mkCollected [] [] [])) as (s' & H1 & H2 & H3).
  destruct (collect_entries _ _ _) as [c ms1]. cbn [fst snd] in *. subst ms1.
  cbn [collect_quiescence]. rewrite on_quiescence_liveness. unfold liveness_on_quiescence.
  transitivity (gap_exceeded expected max_gap 0 (entries (journal run)) = true).
  - destruct (gap_exceeded _ _ 0 _) eqn:Eg.
    + assert (Hne : c_reasons c <> []) by (rewrite H2; intros [_ ?]; done).
      destruct (_ <? _)%nat; [|destruct (_ && _)]; cbn; destruct (c_reasons c); done.
    + rewrite (proj2 H2) by done. specialize (H3 ltac:(lia) eq_refl). destruct (Nat.ltb_spec max_gap s'); [lia|].
      destruct (_ && _); cbn; rewrite (proj2 H2) by done; done.
  - rewrite gap_exceeded_iff. split; [|auto]. intros [(w & r & _ & -> & Hl & Hf)|H]; [|exact H]. exists [], w, r. done.
Qed.

(** A safety monitor that refuses the third actor, fed in two steps. *)
Definition sample_oracle : MonitorOracle :=
  with_monitor monitor_oracle_new (safety_monitor (fun e => negb (actor (edata e) =? 3)%Z) "no third actor" "safety").

Lemma online_agrees_with_replay_witness :
  (watch (map reset (mo_monitors sample_oracle)) 0 [lin1.2; lin3.2]).1 = OnlineHalt (Named "safety" (Message "no third actor")) /\
  violated (monitor_check sample_oracle (mkRun lin3.2 [] [])).1 = true.
Proof.
  assert (Hg : growing [] [lin1.2; lin3.2] (entries (journal (mkRun lin3.2 [] [])))).
  { cbn [growing journal]. split; [exists (entries lin1.2); reflexivity|]. split; [|reflexivity].
    exists (drop 1 (entries lin3.2)). vm_compute. reflexivity. }
  assert (Hw : (watch (map reset (mo_monitors sample_oracle)) 0 [lin1.2; lin3.2]).1 = OnlineHalt (Named "safety" (Message "no third actor")))
    by (vm_compute; reflexivity).
  split; [exact Hw|]. pose proof (online_agrees_with_replay sample_oracle [lin1.2; lin3.2] (mkRun lin3.2 [] []) Hg) as H.
  rewrite Hw in H. apply H.
Defined.
