(* ===== verification/Config.v ===== *)
(** * Run configurations and their canonical bytes

    [RunConfig] of [ledger-sim/src/config.rs] and the versioned encoding of [config_canonical.rs].  Doubles of a
    configuration are IEEE values, those of CBOR their bits.  [journaling] says whether the build has the
    [sim-fs-journaling] feature; without it the mode of a configuration is absent.  On a 64-bit target every [u64] is a
    [usize]. *)

From stdpp Require Import gmap.
From Stdlib Require Import SpecFloat.
From S2P Require Import Prelude Machine Floats Cbor CborProofs Limits Value Path Hex Frame Entry OrdMap Clock Dag.
From S2P Require Import Order Net Scheduler SimFs OSet Verdict Hitting Ldfi.

Open Scope Z_scope.

(** ** Doubles *)

Definition sf_to_bits (v : spec_float) : Z :=
  match v with
  | S754_zero s => pack64 s 0 0
  | S754_infinity s => pack64 s 2047 0
  | S754_nan => pack64 false 2047 (2 ^ 51)
  | S754_finite s m e => if (Zpos m <? 2 ^ 52)%Z then pack64 s 0 (Zpos m) else pack64 s (e + 1075) (Zpos m - 2 ^ 52)
  end.

Definition sf_of_bits (bits : Z) : spec_float :=
  let s := f64_is_sign_negative bits in
  let e := f64_exp bits in
  let m := f64_mant bits in
  if (e =? 2047)%Z then if (m =? 0)%Z then S754_infinity s else S754_nan
  else if (e =? 0)%Z then match m with Zpos p => S754_finite s p (-1074) | _ => S754_zero s end
  else match m + 2 ^ 52 with Zpos p => S754_finite s p (e - 1075) | _ => S754_nan end.

Definition is_finite (v : spec_float) : bool :=
  match v with S754_zero _ | S754_finite _ _ _ => true | _ => false end.

(** ** Configurations *)

Record SwarmConfig : Type := mkSwarm {
  drop_probability : spec_float;
  delay_probability : spec_float;
  max_delay_ticks : Z;
  crash_probability : spec_float;
  fault_classes_per_run : Z }.

Definition swarm_default : SwarmConfig := mkSwarm f64_zero f64_zero 0 f64_zero 2.

Record RunConfig : Type := mkConfig {
  cfg_seed : EntryHash;
  cfg_policy : Policy;
  cfg_max_steps : Z;
  cfg_dropped_events : list EntryHash;
  cfg_swarm : SwarmConfig;
  cfg_links : list (Z * Z * LinkConfig);
  cfg_dns : DnsTable;
  cfg_fault_schedule : list SimFault;
  cfg_fs_journaling : option JournalingMode;
  cfg_monitor : bool;
  cfg_reorder_draw : bool;
  cfg_max_file_extent : option Z;
  cfg_max_resident_bytes : option Z }.

Definition config_default : RunConfig :=
  mkConfig (repeat x00 32) Random 10000 [] swarm_default [] ∅ [] None true false None None.

(** ** Errors *)

Inductive ConfigCanonicalError : Type :=
| CfgCbor (err : CborError)
| UnsupportedVersion (version : Z)
| WrongDocumentShape
| UnknownField (name : list byte)
| MissingField (name : string)
| WrongFieldType (field : string)
| InvalidHashLength (field : string) (len : nat)
| InvalidPolicyTag (tag : Z)
| InvalidFaultTag (tag : Z)
| InvalidFsJournalingTag (tag : Z)
| FsJournalingNotSupported
| NonFiniteFloat (field : string)
| IntegerOutOfRange (field : string)
| InvalidMaxDelayTicks (ticks : Z)
| InvalidLinkJitter (jitter : Z)
| CfgInvalidReorderWindow (window : Z)
| InvalidQueuePolicyTag (tag : Z)
| DnsNameTooLong (len : nat)
| DuplicateDnsName (name : list byte)
| ProbabilityOutOfRange (field : string).

Abbreviation cres := (result ConfigCanonicalError).

Definition CONFIG_FORMAT_VERSION : Z := 2.
Definition MAX_DNS_NAME_LEN : nat := 255.

(** ** Encoding *)

Definition float_value (value : spec_float) (field : string) : cres CborValue :=
  if negb (is_finite value) then Err (NonFiniteFloat field) else Ok (CFloat (sf_to_bits value)).

Definition hash_value (h : EntryHash) : CborValue := CBytes (to_framed_bytes h).

Definition link_value (l : LinkConfig) : cres CborValue :=
  if (jitter l =? u64_max)%Z then Err (InvalidLinkJitter (jitter l))
  else if (MAX_REORDER_WINDOW <? link_window l)%Z then Err (CfgInvalidReorderWindow (link_window l))
  else
    let? loss := float_value (loss_probability l) "links.loss_probability" in
    let queue := match capacity l, queue_full l with
                 | None, QDrop => []
                 | cap, policy =>
                     [match cap with Some c => CUnsigned c | None => CNull end; CUnsigned (match policy with QDrop => 0 | QBlock => 1 end)]
                 end in
    Ok (CArray ([CUnsigned (base_delay l); CUnsigned (jitter l); loss; CUnsigned (link_window l)] ++ queue)).

Definition link_entry (x : Z * Z * LinkConfig) : cres CborValue :=
  let? l := link_value x.2 in Ok (CArray [CUnsigned x.1.1; CUnsigned x.1.2; l]).

Definition swarm_value (s : SwarmConfig) : cres CborValue :=
  if (max_delay_ticks s =? u64_max)%Z then Err (InvalidMaxDelayTicks (max_delay_ticks s))
  else
    let? drop := float_value (drop_probability s) "swarm.drop_probability" in
    let? delay := float_value (delay_probability s) "swarm.delay_probability" in
    let? crash := float_value (crash_probability s) "swarm.crash_probability" in
    Ok (CArray [drop; delay; CUnsigned (max_delay_ticks s); crash; CUnsigned (fault_classes_per_run s)]).

Definition policy_value (p : Policy) : cres CborValue :=
  match p with
  | Random => Ok (CArray [CUnsigned 0])
  | Pct n => Ok (CArray [CUnsigned 1; CUnsigned (Z.of_nat n)])
  | Bandit exploration mix =>
      let? exploration := float_value exploration "policy.bandit.exploration_constant" in
      let? mix := float_value mix "policy.bandit.pct_mix" in
      Ok (CArray [CUnsigned 2; exploration; mix])
  | Replay => Ok (CArray [CUnsigned 3])
  | Dpor => Ok (CArray [CUnsigned 4])
  end.

Definition fault_value (f : SimFault) : CborValue :=
  CArray (match f with
          | Drop id => [CUnsigned 0; hash_value id]
          | Delay s ticks => [CUnsigned 1; hash_value s; CUnsigned ticks]
          | SPartition src dst => [CUnsigned 2; CUnsigned src; CUnsigned dst]
          | Crash id => [CUnsigned 3; hash_value id]
          | Corrupt w xor_mask => [CUnsigned 4; hash_value w; CUnsigned xor_mask]
          | CrashState w state => [CUnsigned 5; hash_value w; CUnsigned state]
          | Duplicate s => [CUnsigned 6; hash_value s]
          end).

Definition fs_journaling_value (journaling : bool) (c : RunConfig) : CborValue :=
  if journaling then
    match cfg_fs_journaling c with
    | None => CNull
    | Some Writeback => CUnsigned 0
    | Some Ordered => CUnsigned 1
    | Some Data => CUnsigned 2
    end
  else CNull.

Definition optional_value (v : option Z) : CborValue := match v with Some v => CUnsigned v | None => CNull end.

(** [DnsTable::iter]: the names in order. *)
Definition dns_entries (t : DnsTable) : list (list byte * Z) := sort_by (fun a b => cmp_hash a.1 b.1) (map_to_list t).

Definition dns_value (t : DnsTable) : CborValue := CArray (map (fun e => CArray [CText e.1; CUnsigned e.2]) (dns_entries t)).

Definition named (name : string) (v : CborValue) : CborValue * CborValue := (CText (bytes_of_string name), v).

Definition fields (journaling : bool) (c : RunConfig) : cres (list (CborValue * CborValue)) :=
  let? links := traverse link_entry (cfg_links c) in
  let? swarm := swarm_value (cfg_swarm c) in
  let? policy := policy_value (cfg_policy c) in
  Ok [named "dns" (dns_value (cfg_dns c));
      named "seed" (hash_value (cfg_seed c));
      named "links" (CArray links);
      named "swarm" swarm;
      named "policy" policy;
      named "monitor" (CBool (cfg_monitor c));
      named "max_steps" (CUnsigned (cfg_max_steps c));
      named "dropped_events" (CArray (map hash_value (cfg_dropped_events c)));
      named "fs_journaling" (fs_journaling_value journaling c);
      named "fault_schedule" (CArray (map fault_value (cfg_fault_schedule c)));
      named "reorder_draw" (CBool (cfg_reorder_draw c));
      named "max_file_extent" (optional_value (cfg_max_file_extent c));
      named "max_resident_bytes" (optional_value (cfg_max_resident_bytes c))].

Definition config_to_bytes (journaling : bool) (c : RunConfig) : cres (list byte) :=
  let? fs := fields journaling c in
  map_err CfgCbor (Cbor.to_canonical_bytes (CArray [CUnsigned CONFIG_FORMAT_VERSION; CMap fs])).

Definition canonical_hash (blake3 : list byte -> list byte) (journaling : bool) (c : RunConfig) : cres EntryHash :=
  let? b := config_to_bytes journaling c in Ok (blake3 b).

(** ** Decoding *)

Definition bool_of (v : CborValue) (field : string) : cres bool :=
  match v with CBool b => Ok b | _ => Err (WrongFieldType field) end.
Definition u64_of (v : CborValue) (field : string) : cres Z :=
  match v with CUnsigned n => Ok n | _ => Err (WrongFieldType field) end.
Definition usize_of := u64_of.
Definition optional_u64 (v : CborValue) (field : string) : cres (option Z) :=
  match v with CNull => Ok None | CUnsigned n => Ok (Some n) | _ => Err (WrongFieldType field) end.
Definition u32_of (v : CborValue) (field : string) : cres Z :=
  match v with
  | CUnsigned n => if (n <=? u32_max)%Z then Ok n else Err (IntegerOutOfRange field)
  | _ => Err (WrongFieldType field)
  end.

Definition finite_float_of (v : CborValue) (field : string) : cres spec_float :=
  match v with
  | CFloat bits => let f := sf_of_bits bits in if is_finite f then Ok f else Err (NonFiniteFloat field)
  | _ => Err (WrongFieldType field)
  end.

Definition probability_of (v : CborValue) (field : string) : cres spec_float :=
  match v with
  | CFloat bits =>
      let f := sf_of_bits bits in
      if negb (is_finite f) then Err (NonFiniteFloat field)
      else map_err (fun _ => ProbabilityOutOfRange field) (probability_new f)
  | _ => Err (WrongFieldType field)
  end.

Definition decode_config_hash (v : CborValue) (field : string) : cres EntryHash :=
  match v with
  | CBytes b => map_err (fun _ => InvalidHashLength field (length b)) (from_framed_bytes b)
  | _ => Err (WrongFieldType field)
  end.

Definition decode_hash_list (v : CborValue) (field : string) : cres (list EntryHash) :=
  match v with CArray items => traverse (fun i => decode_config_hash i field) items | _ => Err (WrongFieldType field) end.

Definition decode_policy (v : CborValue) : cres Policy :=
  match v with
  | CArray (CUnsigned tag :: rest) =>
      if (tag =? 0)%Z then match rest with [] => Ok Random | _ => Err (WrongFieldType "policy") end
      else if (tag =? 1)%Z then
        match rest with
        | [n] => let? n := usize_of n "policy.pct.priority_changes" in Ok (Pct (Z.to_nat n))
        | _ => Err (WrongFieldType "policy")
        end
      else if (tag =? 2)%Z then
        match rest with
        | [e; p] =>
            let? e := finite_float_of e "policy.bandit.exploration_constant" in
            let? p := probability_of p "policy.bandit.pct_mix" in Ok (Bandit e p)
        | _ => Err (WrongFieldType "policy")
        end
      else if (tag =? 3)%Z then match rest with [] => Ok Replay | _ => Err (WrongFieldType "policy") end
      else if (tag =? 4)%Z then match rest with [] => Ok Dpor | _ => Err (WrongFieldType "policy") end
      else Err (InvalidPolicyTag tag)
  | _ => Err (WrongFieldType "policy")
  end.

Definition decode_swarm (v : CborValue) : cres SwarmConfig :=
  match v with
  | CArray [p1; p2; ticks; p3; classes] =>
      let? ticks := u64_of ticks "swarm.max_delay_ticks" in
      if (ticks =? u64_max)%Z then Err (InvalidMaxDelayTicks ticks)
      else
        let? p1 := probability_of p1 "swarm.drop_probability" in
        let? p2 := probability_of p2 "swarm.delay_probability" in
        let? p3 := probability_of p3 "swarm.crash_probability" in
        let? classes := usize_of classes "swarm.fault_classes_per_run" in
        Ok (mkSwarm p1 p2 ticks p3 classes)
  | _ => Err (WrongFieldType "swarm")
  end.

Definition decode_capacity (v : CborValue) : cres (option Z) :=
  match v with CNull => Ok None | CUnsigned c => Ok (Some c) | _ => Err (WrongFieldType "links.capacity") end.

Definition decode_queue_policy (v : CborValue) : cres QueueFullPolicy :=
  match v with
  | CUnsigned tag => if (tag =? 0)%Z then Ok QDrop else if (tag =? 1)%Z then Ok QBlock else Err (InvalidQueuePolicyTag tag)
  | _ => Err (WrongFieldType "links.queue_policy")
  end.

Definition decode_queue (rest : list CborValue) : cres (option Z * QueueFullPolicy) :=
  match rest with
  | [cap; policy] => let? cap := decode_capacity cap in let? policy := decode_queue_policy policy in Ok (cap, policy)
  | _ => Ok (None, QDrop)
  end.

(** The items of a link after the check of their number. *)
Definition decode_link_items (from to base jit loss window : CborValue) (rest : list CborValue) : cres (Z * Z * LinkConfig) :=
  let? jit := u64_of jit "links.jitter" in
  if (jit =? u64_max)%Z then Err (InvalidLinkJitter jit)
  else
    let? window := usize_of window "links.reorder_window" in
    if (MAX_REORDER_WINDOW <? window)%Z then Err (CfgInvalidReorderWindow window)
    else
      let? '(cap, policy) := decode_queue rest in
      let? from := usize_of from "links.from" in
      let? to := usize_of to "links.to" in
      let? base := u64_of base "links.base_delay" in
      let? loss := probability_of loss "links.loss_probability" in
      Ok (from, to, mkLink base jit loss window cap policy).

Definition decode_link (v : CborValue) : cres (Z * Z * LinkConfig) :=
  match v with
  | CArray [from; to; CArray (base :: jit :: loss :: window :: rest)] =>
      match rest with
      | [] | [_; _] => decode_link_items from to base jit loss window rest
      | _ => Err (WrongFieldType "links")
      end
  | _ => Err (WrongFieldType "links")
  end.

Definition decode_links (v : CborValue) : cres (list (Z * Z * LinkConfig)) :=
  match v with CArray items => traverse decode_link items | _ => Err (WrongFieldType "links") end.

Fixpoint dns_loop (items : list CborValue) (table : DnsTable) : cres DnsTable :=
  match items with
  | [] => Ok table
  | item :: items =>
      match item with
      | CArray [name; act] =>
          match name with
          | CText name =>
              if (MAX_DNS_NAME_LEN <? length name)%nat then Err (DnsNameTooLong (length name))
              else
                let? act := usize_of act "dns.actor" in
                let '(replaced, table) := dns_insert table name act in
                if replaced then Err (DuplicateDnsName name) else dns_loop items table
          | _ => Err (WrongFieldType "dns.name")
          end
      | _ => Err (WrongFieldType "dns")
      end
  end.

Definition decode_dns (v : CborValue) : cres DnsTable :=
  match v with CArray items => dns_loop items ∅ | _ => Err (WrongFieldType "dns") end.

Definition decode_fault (v : CborValue) : cres SimFault :=
  match v with
  | CArray (CUnsigned tag :: rest) =>
      let bad := Err (WrongFieldType "fault_schedule") in
      if (tag =? 0)%Z then
        match rest with [a] => let? a := decode_config_hash a "fault_schedule.drop.id" in Ok (Drop a) | _ => bad end
      else if (tag =? 1)%Z then
        match rest with
        | [a; b] => let? a := decode_config_hash a "fault_schedule.delay.send" in let? b := u64_of b "fault_schedule.delay.ticks" in Ok (Delay a b)
        | _ => bad
        end
      else if (tag =? 2)%Z then
        match rest with
        | [a; b] => let? a := u32_of a "fault_schedule.partition.src" in let? b := u32_of b "fault_schedule.partition.dst" in Ok (SPartition a b)
        | _ => bad
        end
      else if (tag =? 3)%Z then
        match rest with [a] => let? a := decode_config_hash a "fault_schedule.crash.id" in Ok (Crash a) | _ => bad end
      else if (tag =? 4)%Z then
        match rest with
        | [a; b] => let? a := decode_config_hash a "fault_schedule.corrupt.write" in let? b := u64_of b "fault_schedule.corrupt.xor_mask" in Ok (Corrupt a b)
        | _ => bad
        end
      else if (tag =? 5)%Z then
        match rest with
        | [a; b] => let? a := decode_config_hash a "fault_schedule.crash_state.write" in let? b := u64_of b "fault_schedule.crash_state.state" in Ok (CrashState a b)
        | _ => bad
        end
      else if (tag =? 6)%Z then
        match rest with [a] => let? a := decode_config_hash a "fault_schedule.duplicate.send" in Ok (Duplicate a) | _ => bad end
      else Err (InvalidFaultTag tag)
  | _ => Err (WrongFieldType "fault_schedule")
  end.

Definition decode_faults (v : CborValue) : cres (list SimFault) :=
  match v with CArray items => traverse decode_fault items | _ => Err (WrongFieldType "fault_schedule") end.

Definition decode_fs_journaling (journaling : bool) (v : CborValue) : cres (option JournalingMode) :=
  match v with
  | CNull => Ok None
  | CUnsigned tag =>
      let mode := if (tag =? 0)%Z then Some Writeback else if (tag =? 1)%Z then Some Ordered
                  else if (tag =? 2)%Z then Some Data else None in
      match mode with
      | Some mode => if journaling then Ok (Some mode) else Err FsJournalingNotSupported
      | None => Err (InvalidFsJournalingTag tag)
      end
  | _ => Err (WrongFieldType "fs_journaling")
  end.

(** *** The field loop *)

Inductive Field : Type :=
| FDns | FSeed | FLinks | FSwarm | FPolicy | FMonitor | FMaxSteps | FFsJournaling | FDropped | FFaults | FReorder | FExtent | FResident.

Definition FIELD_INDEX : list (string * Field) :=
  [("dns", FDns); ("seed", FSeed); ("links", FLinks); ("swarm", FSwarm); ("policy", FPolicy); ("monitor", FMonitor);
   ("max_steps", FMaxSteps); ("fs_journaling", FFsJournaling); ("dropped_events", FDropped); ("fault_schedule", FFaults);
   ("reorder_draw", FReorder); ("max_file_extent", FExtent); ("max_resident_bytes", FResident)]%string.

Definition field_of_name (name : list byte) : option Field :=
  option_map snd (List.find (fun e => bool_decide (bytes_of_string e.1 = name)) FIELD_INDEX).

(** The fields seen so far. *)
Record Decoded : Type := mkDecoded {
  d_dns : option DnsTable;
  d_seed : option EntryHash;
  d_links : option (list (Z * Z * LinkConfig));
  d_swarm : option SwarmConfig;
  d_policy : option Policy;
  d_monitor : option bool;
  d_max_steps : option Z;
  d_fs : option (option JournalingMode);
  d_dropped : option (list EntryHash);
  d_faults : option (list SimFault);
  d_reorder : option bool;
  d_extent : option (option Z);
  d_resident : option (option Z) }.

Definition decoded_new : Decoded := mkDecoded None None None None None None None None None None None None None.

Definition decode_field (journaling : bool) (d : Decoded) (f : Field) (v : CborValue) : cres Decoded :=
  let '(mkDecoded dns seed links swarm policy monitor steps fs dropped faults reorder extent resident) := d in
  match f with
  | FDns => let? x := decode_dns v in Ok (mkDecoded (Some x) seed links swarm policy monitor steps fs dropped faults reorder extent resident)
  | FSeed => let? x := decode_config_hash v "seed" in Ok (mkDecoded dns (Some x) links swarm policy monitor steps fs dropped faults reorder extent resident)
  | FLinks => let? x := decode_links v in Ok (mkDecoded dns seed (Some x) swarm policy monitor steps fs dropped faults reorder extent resident)
  | FSwarm => let? x := decode_swarm v in Ok (mkDecoded dns seed links (Some x) policy monitor steps fs dropped faults reorder extent resident)
  | FPolicy => let? x := decode_policy v in Ok (mkDecoded dns seed links swarm (Some x) monitor steps fs dropped faults reorder extent resident)
  | FMonitor => let? x := bool_of v "monitor" in Ok (mkDecoded dns seed links swarm policy (Some x) steps fs dropped faults reorder extent resident)
  | FMaxSteps => let? x := usize_of v "max_steps" in Ok (mkDecoded dns seed links swarm policy monitor (Some x) fs dropped faults reorder extent resident)
  | FFsJournaling => let? x := decode_fs_journaling journaling v in Ok (mkDecoded dns seed links swarm policy monitor steps (Some x) dropped faults reorder extent resident)
  | FDropped => let? x := decode_hash_list v "dropped_events" in Ok (mkDecoded dns seed links swarm policy monitor steps fs (Some x) faults reorder extent resident)
  | FFaults => let? x := decode_faults v in Ok (mkDecoded dns seed links swarm policy monitor steps fs dropped (Some x) reorder extent resident)
  | FReorder => let? x := bool_of v "reorder_draw" in Ok (mkDecoded dns seed links swarm policy monitor steps fs dropped faults (Some x) extent resident)
  | FExtent => let? x := optional_u64 v "max_file_extent" in Ok (mkDecoded dns seed links swarm policy monitor steps fs dropped faults reorder (Some x) resident)
  | FResident => let? x := optional_u64 v "max_resident_bytes" in Ok (mkDecoded dns seed links swarm policy monitor steps fs dropped faults reorder extent (Some x))
  end.

Fixpoint field_loop (journaling : bool) (fs : list (CborValue * CborValue)) (d : Decoded) : cres Decoded :=
  match fs with
  | [] => Ok d
  | (key, value) :: fs =>
      match key with
      | CText name =>
          match field_of_name name with
          | Some f => let? d := decode_field journaling d f value in field_loop journaling fs d
          | None => Err (UnknownField name)
          end
      | _ => Err (WrongFieldType "map key")
      end
  end.

(** The required fields in the order they are looked for, then the configuration. *)
Definition finish_config (d : Decoded) : cres RunConfig :=
  let? dns := ok_or (d_dns d) (MissingField "dns") in
  let? seed := ok_or (d_seed d) (MissingField "seed") in
  let? links := ok_or (d_links d) (MissingField "links") in
  let? swarm := ok_or (d_swarm d) (MissingField "swarm") in
  let? policy := ok_or (d_policy d) (MissingField "policy") in
  let? monitor := ok_or (d_monitor d) (MissingField "monitor") in
  let? steps := ok_or (d_max_steps d) (MissingField "max_steps") in
  let? fs := ok_or (d_fs d) (MissingField "fs_journaling") in
  let? dropped := ok_or (d_dropped d) (MissingField "dropped_events") in
  let? faults := ok_or (d_faults d) (MissingField "fault_schedule") in
  Ok (mkConfig seed policy steps dropped swarm links dns faults fs monitor (default false (d_reorder d))
        (default None (d_extent d)) (default None (d_resident d))).

Definition config_from_bytes (journaling : bool) (input : list byte) : cres RunConfig :=
  let? document := map_err CfgCbor (Cbor.from_canonical_bytes input) in
  match document with
  | CArray [CUnsigned version; body] =>
      if negb (version =? CONFIG_FORMAT_VERSION)%Z then Err (UnsupportedVersion version)
      else
        match body with
        | CMap fs => let? d := field_loop journaling fs decoded_new in finish_config d
        | _ => Err WrongDocumentShape
        end
  | _ => Err WrongDocumentShape
  end.
