(* ===== verification/ConfigProofs.v ===== *)
(** * Run configurations round trip

    - Every configuration within bounds has canonical bytes, and they decode to it.
    - What decodes is within bounds, so it can be encoded again and decodes to itself.
    - The bytes of a configuration do not depend on the build.
    - Documents that decode are not unique, and a long host name encodes but does not decode. *)

From stdpp Require Import gmap.
From Stdlib Require Import SpecFloat.
From S2P Require Import Prelude Machine Floats Cbor CborProofs Limits Value Path Hex Frame Entry OrdMap Clock Dag.
From S2P Require Import Order Net Scheduler SimFs OSet Verdict Hitting Ldfi Config.

Open Scope Z_scope.

(** ** Doubles *)

(** The representable doubles: normal with a full mantissa, or subnormal. *)
Definition f64_valid (v : spec_float) : bool :=
  match v with
  | S754_finite _ m e =>
      (2 ^ 52 <=? Zpos m)%Z && (Zpos m <? 2 ^ 53)%Z && (-1074 <=? e)%Z && (e <=? 971)%Z
      || (Zpos m <? 2 ^ 52)%Z && (e =? -1074)%Z
  | _ => true
  end.

Lemma pack64_u64 s e m : 0 <= e < 2048 -> 0 <= m < 2 ^ 52 -> is_u64 (pack64 s e m).
Proof. unfold pack64. widths. pow_consts. destruct s; lia. Qed.

Record float_bits (v : spec_float) (b : Z) : Prop := {
  fb_u64 : is_u64 b;
  fb_back : sf_of_bits b = v;
  fb_nan : f64_is_nan b = false;
  fb_zero : f64_is_zero b = match v with S754_zero _ => true | _ => false end;
  fb_sign : f64_is_sign_negative b = match v with S754_zero s | S754_finite s _ _ | S754_infinity s => s | S754_nan => false end }.

Lemma float_to_bits v : f64_valid v = true -> is_finite v = true -> float_bits v (sf_to_bits v).
Proof.
  destruct v as [s|s| |s m e]; intros Hv Hf; try done; cbn [sf_to_bits].
  - destruct (f64_fields s 0 0) as (H1 & H2 & H3); [lia | pow_consts; lia|].
    split; [apply pack64_u64; pow_consts; lia | | | |exact H3]; unfold sf_of_bits, f64_is_nan, f64_is_zero; rewrite H1, H2, ?H3; done.
  - unfold f64_valid in Hv. apply orb_true_iff in Hv as [Hv|Hv].
    + rewrite !andb_true_iff, !Z.leb_le, Z.ltb_lt in Hv. destruct (Z.ltb_spec (Zpos m) (2 ^ 52)) as [Hlt|_]; [lia|].
      change (2 ^ 53) with (2 * 2 ^ 52) in Hv.
      destruct (f64_fields s (e + 1075) (Zpos m - 2 ^ 52)) as (H1 & H2 & H3); [lia | lia|].
      split; [apply pack64_u64; lia | | | |exact H3]; unfold sf_of_bits, f64_is_nan, f64_is_zero; rewrite H1, H2, ?H3.
      * destruct (Z.eqb_spec (e + 1075) 2047); [lia|]. destruct (Z.eqb_spec (e + 1075) 0); [lia|].
        replace (Zpos m - 2 ^ 52 + 2 ^ 52) with (Zpos m) by lia. f_equal. lia.
      * destruct (Z.eqb_spec (e + 1075) 2047); [lia | done].
      * destruct (Z.eqb_spec (e + 1075) 0); [lia | done].
    + rewrite andb_true_iff, Z.ltb_lt, Z.eqb_eq in Hv. destruct Hv as [Hm ->]. destruct (Z.ltb_spec (Zpos m) (2 ^ 52)); [|lia].
      destruct (f64_fields s 0 (Zpos m)) as (H1 & H2 & H3); [lia | lia|].
      split; [apply pack64_u64; lia | | | |exact H3]; unfold sf_of_bits, f64_is_nan, f64_is_zero; rewrite H1, H2, ?H3; done.
Qed.

Lemma bits_valid b : is_u64 b -> f64_valid (sf_of_bits b) = true.
Proof.
  intros Hb. unfold sf_of_bits.
  assert (0 <= f64_mant b < 2 ^ 52) as Hm by (unfold f64_mant; apply Z.mod_pos_bound; lia).
  assert (0 <= f64_exp b < 2048) as He by (unfold f64_exp; apply Z.mod_pos_bound; lia).
  destruct (Z.eqb_spec (f64_exp b) 2047); [destruct (_ =? _)%Z; done|].
  destruct (Z.eqb_spec (f64_exp b) 0).
  - destruct (f64_mant b) as [|p|p] eqn:E; [done | | done]. cbn [f64_valid]. apply orb_true_iff. right.
    rewrite andb_true_iff, Z.ltb_lt, Z.eqb_eq. lia.
  - destruct (f64_mant b + 2 ^ 52) as [|p|p] eqn:E; [done | | lia]. cbn [f64_valid]. apply orb_true_iff. left.
    change (2 ^ 53) with (2 * 2 ^ 52). rewrite !andb_true_iff, !Z.leb_le, Z.ltb_lt. lia.
Qed.

Lemma bits_neg_zero b : is_u64 b -> f64_is_neg_zero b = false -> sf_of_bits b <> S754_zero true.
Proof.
  intros Hb Hn E. unfold sf_of_bits in E. unfold f64_is_neg_zero in Hn.
  destruct (Z.eqb_spec (f64_exp b) 2047) as [|He]; [destruct (_ =? _)%Z; done|].
  destruct (Z.eqb_spec (f64_exp b) 0) as [Hz|]; [|destruct (f64_mant b + 2 ^ 52); done].
  destruct (f64_mant b) as [|p|p] eqn:Em; try done; injection E as Es; rewrite Es in Hn; cbn [andb] in Hn.
  - unfold f64_eqb, f64_is_nan, f64_is_zero in Hn. rewrite Hz, Em in Hn. cbn in Hn. rewrite orb_true_r in Hn. done.
  - unfold f64_mant in Em. pose proof (Z.mod_pos_bound b (2 ^ 52)). lia.
Qed.

(** ** Values of the encoding *)

(** A value that survives the CBOR codec as it is. *)
Record clean (n : nat) (v : CborValue) : Prop := {
  cl_wf : cbor_wf v = true;
  cl_depth : (cbor_depth v <= n)%nat;
  cl_canon : canon v = v;
  cl_encodes : exists b, try_encode v = Ok b }.

Lemma clean_weaken n n' v : clean n v -> (n <= n')%nat -> clean n' v.
Proof. intros [H1 H2 H3 H4] Hn. split; [done | lia | done | done]. Qed.

Lemma clean_unsigned n x : is_u64 x -> clean n (CUnsigned x).
Proof. intros H. split; [apply u64b_spec; done | cbn; lia | done | eexists; reflexivity]. Qed.

Lemma clean_bool n b : clean n (CBool b).
Proof. split; [done | cbn; lia | done | eexists; reflexivity]. Qed.

Lemma clean_null n : clean n CNull.
Proof. split; [done | cbn; lia | done | eexists; reflexivity]. Qed.

Lemma clean_hash n h : hash_wf h = true -> clean n (hash_value h).
Proof.
  intros H. split; [|cbn; lia | done | eexists; reflexivity]. cbn [hash_value cbor_wf]. apply u64b_spec.
  unfold hash_wf in H. apply Nat.eqb_eq in H. unfold to_framed_bytes. cbn [length]. rewrite H. widths. lia.
Qed.

Lemma clean_text n s : from_utf8 s = true -> Z.of_nat (length s) <= u64_max -> clean n (CText s).
Proof.
  intros H1 H2. split; [|cbn; lia | done | eexists; reflexivity]. cbn [cbor_wf]. rewrite H1. apply u64b_spec. widths. lia.
Qed.

Lemma clean_array n items : Forall (clean n) items -> Z.of_nat (length items) <= u64_max -> clean (S n) (CArray items).
Proof.
  intros H Hl. split.
  - cbn [cbor_wf]. apply andb_true_iff. split; [apply u64b_spec; widths; lia|]. apply forallb_forall. rewrite Forall_forall in H.
    intros v Hv. apply H, Hv.
  - cbn [cbor_depth]. clear Hl. induction H as [|v items Hv _ IH]; [cbn; lia|].
    change (max_over (fun x => S (cbor_depth x)) (v :: items)) with (S (cbor_depth v) `max` max_over (fun x => S (cbor_depth x)) items)%nat.
    pose proof (cl_depth _ _ Hv). lia.
  - cbn [canon]. f_equal. clear Hl. induction H as [|v items Hv _ IH]; [done|]. cbn [map]. rewrite (cl_canon _ _ Hv), IH. done.
  - cbn [try_encode]. clear Hl. assert (exists bs, traverse try_encode items = Ok bs) as [bs ->]; [|eexists; reflexivity].
    induction H as [|v items Hv _ [bs IH]]; [exists []; done|]. destruct (cl_encodes _ _ Hv) as [b Hb].
    exists (b :: bs). apply Forall2_traverse. constructor; [exact Hb | apply traverse_Forall2, IH].
Qed.

(** ** Components within bounds *)

Definition probability_ok (p : spec_float) : Prop := f64_valid p = true /\ probability_new p = Ok p.

Definition finite_ok (v : spec_float) : Prop := f64_valid v = true /\ is_finite v = true /\ v <> S754_zero true.

Lemma probability_finite p : probability_ok p -> finite_ok p.
Proof. intros [H1 H2]. destruct p as [[]|s| |s m e]; done. Qed.

(** A value the CBOR decoder can return. *)
Definition readable (v : CborValue) : Prop := cbor_wf v = true /\ exists b, try_encode v = Ok b.

(** An encoder and a decoder of one kind of value: what is within bounds is encoded as a value that decodes to it, and
    what decodes is within bounds. *)
Class Codec {A} (n : nat) (ok : A -> Prop) (enc : A -> cres CborValue) (dec : CborValue -> cres A) : Prop := {
  codec_complete : forall x, ok x -> exists v, enc x = Ok v /\ clean n v /\ dec v = Ok x;
  codec_sound : forall v x, readable v -> dec v = Ok x -> ok x }.

Lemma clean_float n v : finite_ok v -> clean n (CFloat (sf_to_bits v)) /\ sf_of_bits (sf_to_bits v) = v.
Proof.
  intros (H1 & H2 & H3). destruct (float_to_bits v H1 H2) as [Hu Hb Hn Hz Hs]. split; [|exact Hb].
  split; [apply u64b_spec, Hu | cbn; lia | done|]. cbn [try_encode]. rewrite Hn.
  assert (f64_is_neg_zero (sf_to_bits v) = false) as ->; [|eexists; reflexivity].
  unfold f64_is_neg_zero, f64_eqb. rewrite Hs. destruct v as [[]|s| |[] m e]; try done. cbn [andb].
  rewrite Hn, Hz. destruct (Z.eqb_spec (sf_to_bits (S754_finite true m e)) 0) as [E|]; [rewrite E in Hz|]; done.
Qed.

#[local] Instance probability_codec field : Codec 0 probability_ok (fun p => float_value p field) (fun v => probability_of v field).
Proof.
  split.
  - intros p Hp. pose proof (probability_finite p Hp) as Hf. destruct (clean_float 0 p Hf) as [Hc Hb]. destruct Hf as (_ & Hf & _).
    exists (CFloat (sf_to_bits p)). unfold float_value, probability_of. rewrite Hb, Hf. cbn [negb]. destruct Hp as [_ Hp]. rewrite Hp. done.
  - intros [] x [Hw He] Hd; try done. unfold probability_of in Hd. destruct (negb _) eqn:Ef; [done|].
    destruct (probability_new (sf_of_bits bits)) as [y|] eqn:E; [|done]. cbn in Hd. injection Hd as <-.
    assert (y = sf_of_bits bits) as -> by (unfold probability_new in E; destruct (sf_of_bits bits); repeat case_match; congruence).
    split; [apply bits_valid, u64b_spec, Hw | exact E].
Qed.

#[local] Instance u64_codec field : Codec 0 is_u64 (fun x => Ok (CUnsigned x)) (fun v => u64_of v field).
Proof.
  split; [intros x Hx; exists (CUnsigned x); split_and!; [done | apply clean_unsigned, Hx | done]|].
  intros [] x [Hw He] Hd; try done. injection Hd as <-. apply u64b_spec, Hw.
Qed.

#[local] Instance optional_codec field : Codec 0 (fun o => match o with Some x => is_u64 x | None => True end)
  (fun o => Ok (optional_value o)) (fun v => optional_u64 v field).
Proof.
  split.
  - intros [x|] Hx; [exists (CUnsigned x) | exists CNull]; split_and!; try done; [apply clean_unsigned, Hx | apply clean_null].
  - intros [] x [Hw He] Hd; try done; injection Hd as <-; [apply u64b_spec, Hw | done].
Qed.

#[local] Instance bool_codec field : Codec 0 (fun _ => True) (fun b => Ok (CBool b)) (fun v => bool_of v field).
Proof. split; [intros x _; exists (CBool x); split_and!; [done | apply clean_bool | done] | done]. Qed.

#[local] Instance hash_codec field : Codec 0 (fun h => hash_wf h = true) (fun h => Ok (hash_value h)) (fun v => decode_config_hash v field).
Proof.
  split.
  - intros h Hh. exists (hash_value h). split_and!; [done | apply clean_hash, Hh|].
    unfold decode_config_hash, hash_value. rewrite from_to_framed_bytes by done. done.
  - intros [] x [Hw He] Hd; try done. unfold decode_config_hash in Hd. destruct (from_framed_bytes b) as [h|] eqn:E; [|done]. cbn in Hd. injection Hd as <-.
    apply from_framed_bytes_inv in E as [_ H]. exact H.
Qed.

Lemma list_codec {A} n (ok : A -> Prop) enc dec `{!Codec n ok enc dec} l :
  (Forall ok l -> exists vs, traverse enc l = Ok vs /\ Forall (clean n) vs /\ traverse dec vs = Ok l /\ length vs = length l) /\
  (forall vs, Forall readable vs -> traverse dec vs = Ok l -> Forall ok l /\ length l = length vs).
Proof.
  split.
  - induction 1 as [|x l Hx _ (vs & H1 & H2 & H3 & H4)]; [exists []; repeat constructor|].
    destruct (codec_complete x Hx) as (v & Ev & Hv & Dv). exists (v :: vs).
    split_and!; [apply Forall2_traverse; constructor; [exact Ev | apply traverse_Forall2, H1] | constructor; done | | cbn; lia].
    apply Forall2_traverse. constructor; [exact Dv | apply traverse_Forall2, H3].
  - intros vs Hw Hd. apply traverse_Forall2 in Hd. revert Hw.
    induction Hd as [|v x vs l Hv _ IH]; intros Hw; [split; constructor|]. inversion_clear Hw as [|? ? Hr Hw'].
    destruct (IH Hw') as [H1 H2]. split; [|cbn; lia]. constructor; [|exact H1]. eapply codec_sound; [exact Hr | exact Hv].
Qed.

Lemma readable_array vs : readable (CArray vs) -> Forall readable vs /\ Z.of_nat (length vs) <= u64_max.
Proof.
  intros [Hw [b Hb]]. cbn [cbor_wf] in Hw. apply andb_true_iff in Hw as [H1 H2]. apply u64b_spec in H1. split; [|widths; lia].
  cbn [try_encode] in Hb. destruct (traverse try_encode vs) as [bs|] eqn:E; [|done]. apply traverse_Forall2 in E.
  clear Hb H1. revert H2. induction E as [|v y vs bs Hv _ IH]; intros H2; [constructor|]. cbn [forallb] in H2.
  apply andb_true_iff in H2 as [H3 H4]. constructor; [split; [done | eexists; exact Hv] | apply IH, H4].
Qed.

Definition list_ok {A} (ok : A -> Prop) (l : list A) : Prop := Forall ok l /\ Z.of_nat (length l) <= u64_max.

Lemma array_codec {A} n (ok : A -> Prop) enc dec wrong `{!Codec n ok enc dec} :
  Codec (S n) (list_ok ok) (fun l => let? vs := traverse enc l in Ok (CArray vs))
    (fun v => match v with CArray items => traverse dec items | _ => Err wrong end).
Proof.
  split.
  - intros l [Hl Hn]. destruct (proj1 (list_codec n ok enc dec l) Hl) as (vs & H1 & H2 & H3 & H4). rewrite H1.
    exists (CArray vs). split_and!; [done | apply clean_array; [done | rewrite H4; done] | exact H3].
  - intros [] l Hw Hd; try done. apply readable_array in Hw as [Hw Hn]. apply (list_codec n ok enc dec l) in Hd as [H1 H2]; [|done].
    split; [done | rewrite H2; done].
Qed.

#[local] Instance finite_codec field : Codec 0 finite_ok (fun v => float_value v field) (fun v => finite_float_of v field).
Proof.
  split.
  - intros v Hv. destruct (clean_float 0 v Hv) as [Hc Hb]. exists (CFloat (sf_to_bits v)). destruct Hv as (_ & Hf & _).
    unfold float_value, finite_float_of. rewrite Hb, Hf. done.
  - intros [] x [Hw Hb] Hd; try done. destruct Hb as [bs He]. unfold finite_float_of in Hd. destruct (is_finite _) eqn:Ef; [|done]. injection Hd as <-.
    cbn [cbor_wf] in Hw. apply u64b_spec in Hw. split_and!; [apply bits_valid, Hw | exact Ef|]. apply bits_neg_zero; [exact Hw|].
    cbn [try_encode] in He. repeat case_match; done.
Qed.

(** Read one component of a value: encode it, or take what decoding it gives. *)
Ltac encode x H dec :=
  let v := fresh "v" in let E := fresh "E" in let C := fresh "C" in let D := fresh "D" in
  destruct (codec_complete (dec := dec) x H) as (v & E & C & D).
Ltac small := cbn [length]; widths; lia.
Ltac item := first [eapply clean_weaken; [eassumption | lia] | apply clean_unsigned; widths; lia | apply clean_null | apply clean_bool | apply clean_hash; assumption].
Ltac items := repeat (apply List.Forall_cons; [item|]); try apply List.Forall_nil.

Definition policy_ok (p : Policy) : Prop :=
  match p with
  | Pct n => Z.of_nat n <= u64_max
  | Bandit exploration mix => finite_ok exploration /\ probability_ok mix
  | _ => True
  end.

#[local] Instance policy_codec : Codec 1 policy_ok policy_value decode_policy.
Proof.
  split.
  - intros p Hp. destruct p as [|n|e p| |]; cbn [policy_value].
    1, 4, 5: eexists; split_and!; [reflexivity | apply clean_array; [items | small] | reflexivity].
    + cbn [policy_ok] in Hp. eexists. split_and!; [reflexivity | apply clean_array; [items | small]|].
      change (Ok (Pct (Z.to_nat (Z.of_nat n))) = (Ok (Pct n) : cres Policy)). rewrite Nat2Z.id. done.
    + destruct Hp as [He Hp]. encode e He (fun v => finite_float_of v "policy.bandit.exploration_constant").
      encode p Hp (fun v => probability_of v "policy.bandit.pct_mix"). cbv beta in *. rewrite E, E0. eexists.
      split_and!; [reflexivity | apply clean_array; [items | small]|]. unfold decode_policy. change (2 =? 0)%Z with false. change (2 =? 1)%Z with false. change (2 =? 2)%Z with true.
      cbv beta iota. rewrite D, D0. done.
  - intros v x Hr Hd. destruct v as [| | | |items| | | | |]; try done. apply readable_array in Hr as [Hr _].
    destruct items as [|[tag| | | | | | | | |] rest]; try done. unfold decode_policy in Hd. inversion_clear Hr as [|? ? _ Hr'].
    destruct (tag =? 0)%Z; [destruct rest; simplify_eq; done|].
    destruct (tag =? 1)%Z.
    { destruct rest as [|a [|]]; try done. inversion_clear Hr' as [|? ? Ra _]. unfold usize_of in Hd.
      destruct (u64_of a _) as [n|] eqn:E; [|done]. apply (codec_sound (Codec := u64_codec _)) in E; [|done]. injection Hd as <-. cbn. widths. lia. }
    destruct (tag =? 2)%Z.
    { destruct rest as [|a [|c [|]]]; try done. inversion_clear Hr' as [|? ? Ra Hr]. inversion_clear Hr as [|? ? Rc _].
      destruct (finite_float_of a _) as [e|] eqn:E1; [|done]. destruct (probability_of c _) as [p|] eqn:E2; [|done].
      apply (codec_sound (Codec := finite_codec _)) in E1; [|done]. apply (codec_sound (Codec := probability_codec _)) in E2; [|done].
      injection Hd as <-. done. }
    destruct (tag =? 3)%Z; [destruct rest; simplify_eq; done|]. destruct (tag =? 4)%Z; [destruct rest; simplify_eq; done | done].
Qed.

Record swarm_ok (s : SwarmConfig) : Prop := {
  so_drop : probability_ok (drop_probability s);
  so_delay : probability_ok (delay_probability s);
  so_ticks : 0 <= max_delay_ticks s < u64_max;
  so_crash : probability_ok (crash_probability s);
  so_classes : is_u64 (fault_classes_per_run s) }.

#[local] Instance swarm_codec : Codec 1 swarm_ok swarm_value decode_swarm.
Proof.
  split.
  - intros [p1 p2 t p3 k] [H1 H2 H3 H4 H5]. cbn [drop_probability delay_probability max_delay_ticks crash_probability fault_classes_per_run] in *.
    encode p1 H1 (fun v => probability_of v "swarm.drop_probability"). encode p2 H2 (fun v => probability_of v "swarm.delay_probability").
    encode p3 H4 (fun v => probability_of v "swarm.crash_probability"). cbv beta in *.
    unfold swarm_value. cbn [drop_probability delay_probability max_delay_ticks crash_probability fault_classes_per_run].
    rewrite (proj2 (Z.eqb_neq _ _)) by lia. rewrite E, E0, E1. eexists.
    split_and!; [reflexivity | apply clean_array; [items | small]|]. unfold decode_swarm, u64_of, usize_of.
    rewrite (proj2 (Z.eqb_neq _ _)) by lia. rewrite D, D0, D1. done.
  - intros v x Hr Hd. destruct v as [| | | |items| | | | |]; try done. apply readable_array in Hr as [Hr _].
    destruct items as [|a [|b [|c [|d [|e [|]]]]]]; try done.
    inversion_clear Hr as [|? ? Ra Hr']. inversion_clear Hr' as [|? ? Rb Hr]. inversion_clear Hr as [|? ? Rc Hr'].
    inversion_clear Hr' as [|? ? Rd Hr]. inversion_clear Hr as [|? ? Re _].
    unfold decode_swarm, usize_of in Hd.
    destruct (u64_of c _) as [t|] eqn:E1; [|done]. destruct (Z.eqb_spec t u64_max) as [|Hne]; [done|].
    destruct (probability_of a _) as [p1|] eqn:E2; [|done]. destruct (probability_of b _) as [p2|] eqn:E3; [|done].
    destruct (probability_of d _) as [p3|] eqn:E4; [|done]. destruct (u64_of e _) as [k|] eqn:E5; [|done].
    apply (codec_sound (Codec := u64_codec _)) in E1, E5; [|done..].
    apply (codec_sound (Codec := probability_codec _)) in E2, E3, E4; [|done..]. injection Hd as <-.
    split; try done. cbn. widths. lia.
Qed.

Record link_ok (l : LinkConfig) : Prop := {
  lo_base : is_u64 (base_delay l);
  lo_jitter : 0 <= jitter l < u64_max;
  lo_loss : probability_ok (loss_probability l);
  lo_window : 0 <= link_window l <= MAX_REORDER_WINDOW;
  lo_capacity : match capacity l with Some c => is_u64 c | None => True end }.

Definition link_entry_ok (x : Z * Z * LinkConfig) : Prop := is_u64 x.1.1 /\ is_u64 x.1.2 /\ link_ok x.2.

#[local] Instance link_codec : Codec 2 link_entry_ok link_entry decode_link.
Proof.
  split.
  - intros [[f t] [b jt p w cap q]] (Hf & Ht & [H1 H2 H3 H4 H5]). cbn [fst snd base_delay jitter loss_probability link_window capacity] in *.
    encode p H3 (fun v => probability_of v "links.loss_probability"). cbv beta in *.
    unfold link_entry, link_value. cbn [fst snd base_delay jitter loss_probability link_window capacity queue_full].
    rewrite (proj2 (Z.eqb_neq _ _)) by lia. rewrite (proj2 (Z.ltb_ge _ _)) by lia. rewrite E.
    assert (Hw : is_u64 w) by (unfold MAX_REORDER_WINDOW in H4; widths; lia).
    assert (Hd : forall rest, rest = [] \/ (exists a b, rest = [a; b]) -> decode_queue rest = Ok (cap, q) ->
      decode_link (CArray [CUnsigned f; CUnsigned t; CArray ([CUnsigned b; CUnsigned jt; v; CUnsigned w] ++ rest)]) = Ok (f, t, mkLink b jt p w cap q)).
    { intros rest Hrest Hq. cbn [app decode_link].
      assert (decode_link_items (CUnsigned f) (CUnsigned t) (CUnsigned b) (CUnsigned jt) v (CUnsigned w) rest = Ok (f, t, mkLink b jt p w cap q)) as Hi.
      { unfold decode_link_items, usize_of, u64_of. rewrite (proj2 (Z.eqb_neq _ _)) by lia.
        rewrite (proj2 (Z.ltb_ge _ _)) by lia. rewrite Hq, D. done. }
      destruct Hrest as [->|(a & b' & ->)]; exact Hi. }
    assert (Hc : forall rest, Forall (clean 0) rest -> (length rest <= 2)%nat ->
      clean 2 (CArray [CUnsigned f; CUnsigned t; CArray ([CUnsigned b; CUnsigned jt; v; CUnsigned w] ++ rest)])).
    { intros rest Hrest Hl. assert (clean 1 (CArray ([CUnsigned b; CUnsigned jt; v; CUnsigned w] ++ rest))) as Hi.
      { apply clean_array; [apply Forall_app; split; [items | exact Hrest]|]. rewrite length_app. cbn [length]. widths. lia. }
      apply clean_array; [items | small]. }
    destruct cap as [c|], q; eexists; (split_and!; [reflexivity | apply Hc; [items | cbn; lia] | apply Hd; [|reflexivity]]); eauto.
  - intros v x Hr Hd.
    assert (exists f t b jt p w rest, v = CArray [f; t; CArray (b :: jt :: p :: w :: rest)] /\ decode_link_items f t b jt p w rest = Ok x)
      as (f & t & b & jt & p & w & rest & -> & Hi).
    { unfold decode_link in Hd. repeat case_match; try done; simplify_eq; repeat eexists; exact Hd. }
    apply readable_array in Hr as [Hr _]. inversion_clear Hr as [|? ? Rf Hr']. inversion_clear Hr' as [|? ? Rt Hr]. inversion_clear Hr as [|? ? Rl _].
    apply readable_array in Rl as [Hr _]. inversion_clear Hr as [|? ? Rb Hr']. inversion_clear Hr' as [|? ? Rj Hr].
    inversion_clear Hr as [|? ? Rp Hr']. inversion_clear Hr' as [|? ? Rw Hr].
    unfold decode_link_items, usize_of in Hi.
    destruct (u64_of jt _) as [jz|] eqn:E1; [|done]. destruct (Z.eqb_spec jz u64_max) as [|Hne]; [done|].
    destruct (u64_of w _) as [wz|] eqn:E2; [|done]. destruct (Z.ltb_spec MAX_REORDER_WINDOW wz) as [|Hw]; [done|].
    destruct (decode_queue rest) as [[cap q]|] eqn:E3; [|done]. destruct (u64_of f _) as [fz|] eqn:E4; [|done].
    destruct (u64_of t _) as [tz|] eqn:E5; [|done]. destruct (u64_of b _) as [bz|] eqn:E6; [|done].
    destruct (probability_of p _) as [pz|] eqn:E7; [|done]. injection Hi as <-.
    apply (codec_sound (Codec := u64_codec _)) in E1, E2, E4, E5, E6; [|done..].
    apply (codec_sound (Codec := probability_codec _)) in E7; [|done].
    split; [done|]. split; [done|]. cbn [snd]. split; cbn [base_delay jitter loss_probability link_window capacity]; try done; [widths; lia | widths; lia|].
    unfold decode_queue in E3. destruct rest as [|c [|d [|]]]; try (injection E3 as <- <-; done).
    inversion_clear Hr as [|? ? Rc _]. destruct (decode_capacity c) as [cz|] eqn:Ec; [|done]. destruct (decode_queue_policy d); [|done].
    injection E3 as <- <-. destruct Rc as [Rc _]. destruct c; try done; injection Ec as <-; [apply u64b_spec, Rc | done].
Qed.

Definition fault_ok (f : SimFault) : Prop :=
  match f with
  | Drop h | Crash h | Duplicate h => hash_wf h = true
  | Delay h n | Corrupt h n | CrashState h n => hash_wf h = true /\ is_u64 n
  | SPartition src dst => is_u32 src /\ is_u32 dst
  end.

Lemma u32_back n field : is_u32 n -> u32_of (CUnsigned n) field = Ok n.
Proof. intros H. unfold u32_of. widths. rewrite (proj2 (Z.leb_le _ _)); [done | lia]. Qed.

Lemma u32_sound v field n : readable v -> u32_of v field = Ok n -> is_u32 n.
Proof.
  intros [Hw _] H. destruct v; try done. unfold u32_of in H. destruct (Z.leb_spec v u32_max); [|done]. injection H as <-.
  cbn [cbor_wf] in Hw. apply u64b_spec in Hw. widths. lia.
Qed.

Lemma hash_back h field : hash_wf h = true -> decode_config_hash (hash_value h) field = Ok h.
Proof. intros H. unfold decode_config_hash, hash_value. rewrite from_to_framed_bytes by done. done. Qed.

#[local] Instance fault_codec : Codec 1 fault_ok (fun f => Ok (fault_value f)) decode_fault.
Proof.
  split.
  - intros f Hf. exists (fault_value f). split; [done|]. unfold fault_value.
    destruct f; cbn [fault_ok] in Hf; (split; [apply clean_array; [match type of Hf with _ /\ _ => destruct Hf | _ => idtac end; items | small]|]);
      cbn -[decode_config_hash hash_value u32_of]; rewrite ?hash_back by tauto; rewrite ?u32_back by tauto; done.
  - intros v x Hr Hd. destruct v as [| | | |its| | | | |]; try done. apply readable_array in Hr as [Hr _].
    destruct its as [|[tag| | | | | | | | |] rest]; try done. unfold decode_fault in Hd. cbv zeta in Hd. inversion_clear Hr as [|? ? _ Hr'].
    assert (H1 : forall a field h, rest = [a] -> decode_config_hash a field = Ok h -> hash_wf h = true).
    { intros a field h -> H. inversion_clear Hr' as [|? ? Ra _]. apply (codec_sound (Codec := hash_codec _)) in H; done. }
    assert (H2 : forall a b fa fb h n, rest = [a; b] -> decode_config_hash a fa = Ok h -> u64_of b fb = Ok n -> hash_wf h = true /\ is_u64 n).
    { intros a b fa fb h n -> Ha Hb. inversion_clear Hr' as [|? ? Ra Hr]. inversion_clear Hr as [|? ? Rb _].
      apply (codec_sound (Codec := hash_codec _)) in Ha; [|done]. apply (codec_sound (Codec := u64_codec _)) in Hb; done. }
    assert (H3 : forall a b fa fb h n, rest = [a; b] -> u32_of a fa = Ok h -> u32_of b fb = Ok n -> is_u32 h /\ is_u32 n).
    { intros a b fa fb h n -> Ha Hb. inversion_clear Hr' as [|? ? Ra Hr]. inversion_clear Hr as [|? ? Rb _]. eauto using u32_sound. }
    repeat case_match; try done; simplify_eq; cbn [fault_ok]; eauto.
Qed.

Definition journaling_ok (journaling : bool) (m : option JournalingMode) : Prop := journaling = false -> m = None.

Definition journaling_value (journaling : bool) (m : option JournalingMode) : CborValue :=
  fs_journaling_value journaling (mkConfig [] Random 0 [] swarm_default [] ∅ [] m false false None None).

#[local] Instance journaling_codec journaling :
  Codec 0 (journaling_ok journaling) (fun m => Ok (journaling_value journaling m)) (decode_fs_journaling journaling).
Proof.
  split.
  - intros m Hm. eexists. split; [reflexivity|]. unfold journaling_value, fs_journaling_value. cbn [cfg_fs_journaling].
    destruct journaling; [|rewrite (Hm eq_refl); split; [apply clean_null | done]].
    destruct m as [[]|]; (split; [first [apply clean_null | apply clean_unsigned; widths; lia] | done]).
  - intros v m _ Hd Hj. subst journaling. unfold decode_fs_journaling in Hd. repeat case_match; congruence.
Qed.

(** *** Host names *)

Definition dns_entry_ok (e : list byte * Z) : Prop := from_utf8 e.1 = true /\ (length e.1 <= MAX_DNS_NAME_LEN)%nat /\ is_u64 e.2.

Definition dns_ok (t : DnsTable) : Prop := map_Forall (fun name act => dns_entry_ok (name, act)) t /\ Z.of_nat (size t) <= u64_max.

Lemma dns_entries_perm t : dns_entries t ≡ₚ map_to_list t.
Proof. apply sort_by_perm. Qed.

Definition dns_item (e : list byte * Z) : CborValue := CArray [CText e.1; CUnsigned e.2].

(** Decoding distinct entries inserts them all. *)
Lemma dns_loop_insert l : forall t, NoDup l.*1 -> Forall (fun e => (length e.1 <= MAX_DNS_NAME_LEN)%nat) l ->
  (forall e, e ∈ l -> t !! e.1 = None) -> dns_loop (map dns_item l) t = Ok (list_to_map l ∪ t).
Proof.
  induction l as [|[name act] l IH]; intros t Hn Hl Ht; cbn [map dns_loop dns_item fst snd]; [rewrite list_to_map_nil, (left_id_L ∅ (∪)); done|].
  inversion_clear Hl as [|? ? Hlen Hl']. cbn [fst] in Hlen. rewrite fmap_cons in Hn. inversion_clear Hn as [|? ? Hni Hn'].
  destruct (Nat.ltb_spec MAX_DNS_NAME_LEN (length name)); [lia|]. unfold usize_of, u64_of, dns_insert.
  pose proof (Ht (name, act) ltac:(left)) as E. cbn [fst] in E. rewrite E. rewrite IH; [|done..|].
  - f_equal. rewrite list_to_map_cons. rewrite <- insert_union_l. rewrite insert_union_r; [done|].
    apply not_elem_of_list_to_map_1. exact Hni.
  - intros e He. rewrite lookup_insert_ne; [apply Ht; right; done|]. intros ->. apply Hni. apply list_elem_of_fmap. exists e. done.
Qed.

Lemma dns_loop_sound items : forall t0 t, Forall readable items -> dns_loop items t0 = Ok t ->
  map_Forall (fun name act => dns_entry_ok (name, act)) t0 ->
  map_Forall (fun name act => dns_entry_ok (name, act)) t /\ size t = (size t0 + length items)%nat.
Proof.
  induction items as [|item items IH]; intros t0 t Hr H Ht0; cbn [dns_loop] in H; [injection H as <-; split; [done | cbn; lia]|].
  inversion_clear Hr as [|? ? Ri Hr']. destruct item as [| | | |its| | | | |]; try done. destruct its as [|name [|act [|]]]; try done.
  destruct name as [| | |name| | | | | |]; try done. apply readable_array in Ri as [Ri _]. inversion_clear Ri as [|? ? [Rn _] Ri'].
  inversion_clear Ri' as [|? ? Ra _]. destruct (Nat.ltb_spec MAX_DNS_NAME_LEN (length name)) as [|Hlen]; [done|].
  unfold usize_of in H. destruct (u64_of act _) as [a|] eqn:Ea; [|done]. apply (codec_sound (Codec := u64_codec _)) in Ea; [|done].
  unfold dns_insert in H. destruct (t0 !! name) eqn:Et; [done|]. cbn [cbor_wf] in Rn. apply andb_true_iff in Rn as [Ru _].
  apply IH in H as [H1 H2]; [|done|].
  - split; [done|]. rewrite H2, map_size_insert_None by done. cbn [length]. lia.
  - apply map_Forall_insert_2; [split_and!; done | done].
Qed.

#[local] Instance dns_codec : Codec 2 dns_ok (fun t => Ok (dns_value t)) decode_dns.
Proof.
  split.
  - intros t [Ht Hn]. exists (dns_value t). split; [done|]. unfold dns_value.
    assert (Hl : length (dns_entries t) = size t) by (rewrite dns_entries_perm; apply length_map_to_list).
    assert (Hin : forall e, e ∈ dns_entries t -> dns_entry_ok e).
    { intros [n a] He. rewrite dns_entries_perm, elem_of_map_to_list in He. exact (Ht n a He). }
    split.
    + apply clean_array; [|rewrite List.length_map, Hl; exact Hn]. apply List.Forall_map, List.Forall_forall. intros e He%list_elem_of_In%Hin.
      destruct He as (H1 & H2 & H3). apply clean_array; [|small].
      apply List.Forall_cons; [apply clean_text; [done | unfold MAX_DNS_NAME_LEN in H2; widths; lia]|]. items.
    + unfold decode_dns. change (map (fun e => CArray [CText e.1; CUnsigned e.2]) (dns_entries t)) with (map dns_item (dns_entries t)).
      rewrite dns_loop_insert.
      * f_equal. rewrite (right_id_L ∅ (∪)). rewrite <- (list_to_map_to_list t) at 2. apply list_to_map_proper; [|apply dns_entries_perm].
        rewrite dns_entries_perm. apply NoDup_fst_map_to_list.
      * rewrite dns_entries_perm. apply NoDup_fst_map_to_list.
      * apply List.Forall_forall. intros e He%list_elem_of_In%Hin. apply He.
      * intros e _. apply lookup_empty.
  - intros v t Hr Hd. destruct v as [| | | |its| | | | |]; try done. apply readable_array in Hr as [Hr Hn].
    apply dns_loop_sound in Hd as [H1 H2]; [|done|apply map_Forall_empty]. split; [done|]. rewrite H2, map_size_empty. lia.
Qed.

(** ** The document *)

Definition FIELD_NAMES : list string :=
  ["dns"; "seed"; "links"; "swarm"; "policy"; "monitor"; "max_steps"; "dropped_events"; "fs_journaling"; "fault_schedule";
   "reorder_draw"; "max_file_extent"; "max_resident_bytes"]%string.

Definition entries_of (names : list string) (vs : list CborValue) : list (CborValue * CborValue) := zip_with named names vs.

Lemma names_wf : forallb (fun n => cbor_wf (CText (bytes_of_string n))) FIELD_NAMES = true.
Proof. vm_compute. reflexivity. Qed.

Lemma entries_wf names vs : forallb (fun n => cbor_wf (CText (bytes_of_string n))) names = true -> forallb cbor_wf vs = true ->
  forallb (fun e => cbor_wf e.1 && cbor_wf e.2) (entries_of names vs) = true.
Proof.
  revert vs. induction names as [|n names IH]; intros [|v vs] Hn Hv; try done. cbn [forallb] in Hn, Hv.
  apply andb_true_iff in Hn as [H1 H2], Hv as [H3 H4]. change (forallb (fun e => cbor_wf e.1 && cbor_wf e.2) (named n v :: entries_of names vs) = true).
  cbn [forallb named fst snd]. rewrite H1, H3. apply IH; done.
Qed.

Lemma entries_depth n names vs : Forall (clean n) vs -> (max_over (fun e => S (cbor_depth e.1 `max` cbor_depth e.2)) (entries_of names vs) <= S n)%nat.
Proof.
  intros H. revert names. induction H as [|v vs Hv _ IH]; intros [|m names]; try (cbn; lia).
  change (max_over (fun e => S (cbor_depth e.1 `max` cbor_depth e.2)) (entries_of (m :: names) (v :: vs)))
    with (S (0 `max` cbor_depth v) `max` max_over (fun e => S (cbor_depth e.1 `max` cbor_depth e.2)) (entries_of names vs))%nat.
  specialize (IH names). pose proof (cl_depth _ _ Hv). lia.
Qed.

Lemma entries_canon n names vs : Forall (clean n) vs ->
  map (fun '(k, x) => (encoded_or_nil k, (canon k, canon x))) (entries_of names vs) =
  zip_with (fun m v => (text (bytes_of_string m), named m v)) names vs.
Proof.
  intros H. revert names. induction H as [|v vs Hv _ IH]; intros [|m names]; try done.
  change (entries_of (m :: names) (v :: vs)) with (named m v :: entries_of names vs). cbn [map zip_with]. rewrite IH. unfold named at 1.
  rewrite (cl_canon _ _ Hv). done.
Qed.

Lemma entries_encode n names vs : Forall (clean n) vs -> exists bs, length bs = length vs /\
  traverse (fun '(key, val) => let? key_bytes := try_encode key in let? val_bytes := try_encode val in Ok (key_bytes, val_bytes)) (entries_of names vs) =
  Ok (zip_with (fun m b => (text (bytes_of_string m), b)) names bs).
Proof.
  intros H. revert names. induction H as [|v vs Hv _ IH]; intros names; [exists []; destruct names; done|].
  destruct (cl_encodes _ _ Hv) as [b Hb]. destruct names as [|m names]; [exists (b :: repeat [] (length vs)); split; [cbn; rewrite repeat_length; done | done]|].
  destruct (IH names) as (bs & Hl & E). exists (b :: bs). split; [cbn; congruence|].
  apply Forall2_traverse. constructor; [|apply traverse_Forall2, E]. cbn [named try_encode]. rewrite Hb. done.
Qed.

Definition document (vs : list CborValue) : CborValue := CArray [CUnsigned CONFIG_FORMAT_VERSION; CMap (entries_of FIELD_NAMES vs)].

(** The document as the decoder reads it: the names by length, then bytewise. *)
Definition read_order (dns seed links swarm policy monitor steps dropped fs faults reorder extent resident : CborValue) : list (CborValue * CborValue) :=
  [named "dns" dns; named "seed" seed; named "links" links; named "swarm" swarm; named "policy" policy; named "monitor" monitor;
   named "max_steps" steps; named "reorder_draw" reorder; named "fs_journaling" fs; named "dropped_events" dropped;
   named "fault_schedule" faults; named "max_file_extent" extent; named "max_resident_bytes" resident].

Lemma document_reads dns seed links swarm policy monitor steps dropped fs faults reorder extent resident :
  let vs := [dns; seed; links; swarm; policy; monitor; steps; dropped; fs; faults; reorder; extent; resident] in
  Forall (clean 3) vs -> exists b, to_canonical_bytes (document vs) = Ok b /\
    from_canonical_bytes b =
    Ok (CArray [CUnsigned CONFIG_FORMAT_VERSION; CMap (read_order dns seed links swarm policy monitor steps dropped fs faults reorder extent resident)]).
Proof.
  intros vs Hvs. destruct (entries_encode 3 FIELD_NAMES vs Hvs) as (bs & Hl & E).
  assert (H1 : exists b, to_canonical_bytes (document vs) = Ok b).
  { unfold to_canonical_bytes, document. cbn [try_encode traverse]. cbn [traverse] in E. rewrite E.
    do 13 (destruct bs as [|? bs]; [done|]). destruct bs; [|done]. destruct (has_duplicate_key _) eqn:Ed; [vm_compute in Ed; done|].
    eexists. reflexivity. }
  destruct H1 as [b Hb]. exists b. split; [exact Hb|].
  assert (forallb cbor_wf vs = true) as Hw by (apply forallb_forall; intros v Hv; rewrite List.Forall_forall in Hvs; apply Hvs, Hv).
  erewrite from_to_canonical; [|..|exact Hb].
  - unfold document. cbn [canon map]. rewrite (entries_canon 3) by done. reflexivity.
  - unfold document. cbn [cbor_wf forallb length]. rewrite (entries_wf FIELD_NAMES vs names_wf Hw). reflexivity.
  - pose proof (entries_depth 3 FIELD_NAMES vs Hvs). unfold document. cbn [cbor_depth max_over foldr]. unfold MAX_DEPTH. lia.
Qed.

(** ** Configurations within bounds *)

Definition option_u64 (o : option Z) : Prop := match o with Some x => is_u64 x | None => True end.

(** What [ConfigCanonical] can carry: representable integers, valid probabilities, names of at most 255 bytes, a
    journaling mode only in builds that have journaling. *)
Record config_ok (journaling : bool) (c : RunConfig) : Prop := {
  co_seed : hash_wf (cfg_seed c) = true;
  co_policy : policy_ok (cfg_policy c);
  co_steps : is_u64 (cfg_max_steps c);
  co_dropped : list_ok (fun h => hash_wf h = true) (cfg_dropped_events c);
  co_swarm : swarm_ok (cfg_swarm c);
  co_links : list_ok link_entry_ok (cfg_links c);
  co_dns : dns_ok (cfg_dns c);
  co_faults : list_ok fault_ok (cfg_fault_schedule c);
  co_fs : journaling_ok journaling (cfg_fs_journaling c);
  co_extent : option_u64 (cfg_max_file_extent c);
  co_resident : option_u64 (cfg_max_resident_bytes c) }.

#[local] Instance links_codec : Codec 3 (list_ok link_entry_ok) (fun l => let? vs := traverse link_entry l in Ok (CArray vs)) decode_links :=
  array_codec 2 link_entry_ok link_entry decode_link _.

Lemma traverse_map {A B E} (f : A -> B) (l : list A) : traverse (fun x => Ok (f x)) l = Ok (E := E) (map f l).
Proof. induction l as [|x l IH]; [done|]. cbn [map]. apply Forall2_traverse. constructor; [done | apply traverse_Forall2, IH]. Qed.

Lemma codec_ext {A} n (ok : A -> Prop) enc enc' dec : (forall x, enc x = enc' x) -> Codec n ok enc dec -> Codec n ok enc' dec.
Proof.
  intros H C. split; [|exact (codec_sound (Codec := C))]. intros x Hx. destruct (codec_complete (Codec := C) x Hx) as (v & E & Hv). exists v. rewrite <- H. done.
Qed.

#[local] Instance faults_codec : Codec 2 (list_ok fault_ok) (fun l => Ok (CArray (map fault_value l))) decode_faults.
Proof.
  eapply codec_ext; [|apply (array_codec 1 fault_ok (fun f => Ok (fault_value f)) decode_fault (WrongFieldType "fault_schedule"))].
  intros l. cbv beta. rewrite traverse_map. done.
Qed.

#[local] Instance hashes_codec field : Codec 1 (list_ok (fun h => hash_wf h = true)) (fun l => Ok (CArray (map hash_value l))) (fun v => decode_hash_list v field).
Proof.
  eapply codec_ext; [|apply (array_codec 0 (fun h => hash_wf h = true) (fun h => Ok (hash_value h)) (fun v => decode_config_hash v field) (WrongFieldType field))].
  intros l. cbv beta. rewrite traverse_map. done.
Qed.

Lemma field_loop_cons journaling name f v d d' rest : field_of_name (bytes_of_string name) = Some f -> decode_field journaling d f v = Ok d' ->
  field_loop journaling (named name v :: rest) d = field_loop journaling rest d'.
Proof. intros H1 H2. unfold named. cbn [field_loop]. rewrite H1, H2. done. Qed.

(** Read the first field of the loop with the given decoding. *)
Ltac field_step D := erewrite field_loop_cons; [|vm_compute; reflexivity | cbn [decode_field]; rewrite D; reflexivity].
Ltac plain_field := erewrite field_loop_cons; [|vm_compute; reflexivity | reflexivity].

Lemma config_survives journaling c : config_ok journaling c ->
  exists b, config_to_bytes journaling c = Ok b /\ config_from_bytes journaling b = Ok c.
Proof.
  intros [Hseed Hpolicy Hsteps Hdropped Hswarm Hlinks Hdns Hfaults Hfs Hextent Hresident].
  destruct c as [seed policy steps dropped swarm links dns faults fs monitor reorder extent resident]. cbn [cfg_seed cfg_policy cfg_max_steps cfg_dropped_events cfg_swarm cfg_links cfg_dns cfg_fault_schedule cfg_fs_journaling cfg_max_file_extent cfg_max_resident_bytes] in *.
  destruct (codec_complete (dec := decode_links) links Hlinks) as (vl & El & Cl & Dl).
  destruct (traverse link_entry links) as [ls|] eqn:Els; [|done]. cbn in El. injection El as <-.
  destruct (codec_complete (dec := decode_swarm) swarm Hswarm) as (vs & Es & Cs & Ds).
  destruct (codec_complete (dec := decode_policy) policy Hpolicy) as (vp & Ep & Cp & Dp).
  destruct (codec_complete (dec := decode_dns) dns Hdns) as (vd & [= <-] & Cd & Dd).
  destruct (codec_complete (dec := decode_faults) faults Hfaults) as (vf & [= <-] & Cf & Df).
  destruct (codec_complete (dec := fun v => decode_hash_list v "dropped_events") dropped Hdropped) as (vh & [= <-] & Ch & Dh).
  destruct (codec_complete (dec := decode_fs_journaling journaling) fs Hfs) as (vj & [= <-] & Cj & Dj).
  destruct (codec_complete (dec := fun v => decode_config_hash v "seed") seed Hseed) as (v1 & [= <-] & C1 & D1).
  destruct (codec_complete (dec := fun v => optional_u64 v "max_file_extent") extent Hextent) as (v2 & [= <-] & C2 & D2).
  destruct (codec_complete (dec := fun v => optional_u64 v "max_resident_bytes") resident Hresident) as (v3 & [= <-] & C3 & D3).
  destruct (document_reads (dns_value dns) (hash_value seed) (CArray ls) vs vp (CBool monitor) (CUnsigned steps) (CArray (map hash_value dropped))
    (journaling_value journaling fs) (CArray (map fault_value faults)) (CBool reorder) (optional_value extent) (optional_value resident)) as (b & Hb & Hr).
  { items. }
  exists b. unfold config_to_bytes, fields. cbn [cfg_links cfg_swarm cfg_policy]. rewrite Els, Es, Ep. split.
  - change (map_err CfgCbor (to_canonical_bytes (document [dns_value dns; hash_value seed; CArray ls; vs; vp; CBool monitor; CUnsigned steps;
      CArray (map hash_value dropped); journaling_value journaling fs; CArray (map fault_value faults); CBool reorder; optional_value extent;
      optional_value resident])) = Ok b). rewrite Hb. done.
  - unfold config_from_bytes. rewrite Hr. cbn [map_err negb]. change (negb (CONFIG_FORMAT_VERSION =? CONFIG_FORMAT_VERSION)%Z) with false.
    unfold read_order, decoded_new. field_step Dd. field_step D1. field_step Dl. field_step Ds. field_step Dp.
    do 3 plain_field. field_step Dj. field_step Dh. field_step Df. field_step D2. field_step D3. done.
Qed.

(** C26: A run configuration survives its canonical encoding.  Every configuration within bounds has canonical bytes, and
    decoding them gives the same configuration, in builds with and without file-system journaling. *)
Theorem config_roundtrip journaling c : config_ok journaling c ->
  exists b, config_to_bytes journaling c = Ok b /\ config_from_bytes journaling b = Ok c.
Proof. apply config_survives. Qed.

(** A configuration that uses every field. *)
Definition sample_config : RunConfig :=
  mkConfig (repeat x07 32) (Bandit (sf_of_bits 4609047870845172685) (sf_of_bits 4602678819172646912)) 10000 [repeat x01 32]
    (mkSwarm (sf_of_bits 4598175219545276416) f64_zero 5 f64_zero 2)
    [(0, 1, mkLink 1 2 (sf_of_bits 4598175219545276416) 3 (Some 4) QBlock); (1, 0, mkLink 1 0 f64_zero 0 None QDrop)]
    {[ [x61; x62] := 1 ]}
    [Drop (repeat x02 32); Delay (repeat x03 32) 4; SPartition 0 1; Crash (repeat x04 32); Corrupt (repeat x05 32) 255;
     CrashState (repeat x06 32) 1; Duplicate (repeat x07 32)]
    (Some Ordered) true true (Some 4096) None.

Lemma sample_config_ok : config_ok true sample_config.
Proof.
  assert (P : forall b, f64_valid (sf_of_bits b) = true -> probability_new (sf_of_bits b) = Ok (sf_of_bits b) -> probability_ok (sf_of_bits b)) by done.
  assert (Z0 : probability_ok f64_zero) by (split; reflexivity).
  assert (H32 : forall b, hash_wf (repeat b 32) = true) by reflexivity.
  split; cbn [sample_config cfg_seed cfg_policy cfg_max_steps cfg_dropped_events cfg_swarm cfg_links cfg_dns cfg_fault_schedule cfg_fs_journaling cfg_max_file_extent cfg_max_resident_bytes].
  - apply H32.
  - split; [split_and!; [vm_compute; done..|vm_compute; discriminate] | apply P; vm_compute; reflexivity].
  - widths. lia.
  - split; [repeat constructor; apply H32 | widths; cbn; lia].
  - split; cbn; first [exact Z0 | widths; lia | apply P; vm_compute; reflexivity].
  - split; [|widths; cbn; lia]. repeat constructor; cbn; first [exact Z0 | widths; unfold MAX_REORDER_WINDOW; lia | apply P; vm_compute; reflexivity].
  - split; [apply map_Forall_singleton; split_and!; [vm_compute; reflexivity | unfold MAX_DNS_NAME_LEN; cbn; lia | widths; cbn; lia]|].
    rewrite map_size_singleton. widths. lia.
  - split; [|widths; cbn; lia]. repeat constructor; cbn [fault_ok]; first [apply H32 | widths; lia].
  - done.
  - cbn. widths. lia.
  - done.
Qed.

Lemma config_roundtrip_witness : exists b, config_to_bytes true sample_config = Ok b /\ config_from_bytes true b = Ok sample_config.
Proof. apply config_roundtrip, sample_config_ok. Defined.

(** ** What decodes *)

Record decoded_ok (journaling : bool) (d : Decoded) : Prop := {
  do_dns : from_option dns_ok True (d_dns d);
  do_seed : from_option (fun h => hash_wf h = true) True (d_seed d);
  do_links : from_option (list_ok link_entry_ok) True (d_links d);
  do_swarm : from_option swarm_ok True (d_swarm d);
  do_policy : from_option policy_ok True (d_policy d);
  do_steps : from_option is_u64 True (d_max_steps d);
  do_fs : from_option (journaling_ok journaling) True (d_fs d);
  do_dropped : from_option (list_ok (fun h => hash_wf h = true)) True (d_dropped d);
  do_faults : from_option (list_ok fault_ok) True (d_faults d);
  do_extent : from_option option_u64 True (d_extent d);
  do_resident : from_option option_u64 True (d_resident d) }.

Lemma decode_field_ok journaling d f v d' : readable v -> decoded_ok journaling d -> decode_field journaling d f v = Ok d' -> decoded_ok journaling d'.
Proof.
  intros Hr [] H. destruct d. destruct f; cbn [decode_field] in H;
    match type of H with (match ?x with _ => _ end = _) => destruct x eqn:E; [|done] end;
    first [apply (codec_sound (Codec := dns_codec)) in E | apply (codec_sound (Codec := hash_codec _)) in E
          | apply (codec_sound (Codec := links_codec)) in E | apply (codec_sound (Codec := swarm_codec)) in E
          | apply (codec_sound (Codec := policy_codec)) in E | apply (codec_sound (Codec := u64_codec _)) in E
          | apply (codec_sound (Codec := journaling_codec _)) in E | apply (codec_sound (Codec := hashes_codec _)) in E
          | apply (codec_sound (Codec := faults_codec)) in E | apply (codec_sound (Codec := optional_codec _)) in E | idtac];
    try exact Hr; cbn in H; injection H as <-; split; done.
Qed.

Lemma field_loop_ok journaling fs : forall d d', Forall (fun e => readable e.2) fs -> decoded_ok journaling d ->
  field_loop journaling fs d = Ok d' -> decoded_ok journaling d'.
Proof.
  induction fs as [|[k v] fs IH]; intros d d' Hr Hd H; cbn [field_loop] in H; [congruence|]. inversion_clear Hr as [|? ? Rv Hr'].
  destruct k as [| | |name| | | | | |]; try done. destruct (field_of_name name) as [f|]; [|done].
  destruct (decode_field journaling d f v) as [d1|] eqn:E; [|done]. eapply IH; [exact Hr' | | exact H]. eapply decode_field_ok; [exact Rv | exact Hd | exact E].
Qed.

Lemma finish_ok journaling d c : decoded_ok journaling d -> finish_config d = Ok c -> config_ok journaling c.
Proof.
  intros [] H. destruct d as [dns seed links swarm policy monitor steps fs dropped faults reorder extent resident]. unfold finish_config in H.
  cbn [d_dns d_seed d_links d_swarm d_policy d_monitor d_max_steps d_fs d_dropped d_faults d_extent d_resident d_reorder] in *.
  destruct dns, seed, links, swarm, policy, monitor, steps, fs, dropped, faults; try done. cbn in H. injection H as <-.
  split; cbn; try done; [destruct extent | destruct resident]; done.
Qed.

Lemma readable_map fs : readable (CMap fs) -> Forall (fun e => readable e.2) fs.
Proof.
  intros [Hw [b Hb]]. cbn [cbor_wf] in Hw. apply andb_true_iff in Hw as [_ Hw]. cbn [try_encode] in Hb.
  destruct (traverse _ fs) as [bs|] eqn:E; [|done]. apply traverse_Forall2 in E. clear Hb. revert Hw.
  induction E as [|[k v] y fs bs Hv _ IH]; intros Hw; [constructor|]. cbn [forallb fst snd] in Hw. apply andb_true_iff in Hw as [H1 H2].
  apply andb_true_iff in H1 as [_ H1]. constructor; [|apply IH, H2]. split; [exact H1|]. cbn [snd].
  destruct (try_encode k); [|done]. destruct (try_encode v) as [bv|] eqn:Ev; [exists bv; done | done].
Qed.

Lemma config_from_bytes_ok journaling input c : Z.of_nat (length input) <= u64_max ->
  config_from_bytes journaling input = Ok c -> config_ok journaling c.
Proof.
  intros Hl H. unfold config_from_bytes in H. destruct (from_canonical_bytes input) as [doc|] eqn:E; [|done]. cbn [map_err] in H.
  assert (readable doc) as Hd.
  { unfold from_canonical_bytes in E. destruct (decode_value _ input) as [[v rest]|] eqn:Ev; [|done].
    apply decode_value_inverts in Ev as (b & _ & He & Hw & _); [|exact Hl]. destruct rest; [|done]. injection E as <-. split; [done | eexists; exact He]. }
  destruct doc as [| | | |items| | | | |]; try done. apply readable_array in Hd as [Hd _].
  destruct items as [|ver [|body [|]]]; try done; try (destruct ver; done). destruct ver as [ver| | | | | | | | |]; try done.
  inversion_clear Hd as [|? ? _ Hd']. inversion_clear Hd' as [|? ? Hb _]. destruct (negb _); [done|].
  destruct body as [| | | | |fs| | | |]; try done. apply readable_map in Hb.
  destruct (field_loop journaling fs decoded_new) as [d|] eqn:Ef; [|done]. eapply finish_ok; [|exact H].
  eapply field_loop_ok; [exact Hb | | exact Ef]. split; done.
Qed.

(** C39: what decodes is a proper configuration.  Whatever bytes decode to a configuration, every probability in it is a
    number between zero and one, its delays, windows and host names keep their bounds, and its own canonical bytes
    decode to it again: decoding then encoding normalises a document. *)
Theorem config_decode_sound journaling input c : Z.of_nat (length input) <= u64_max ->
  config_from_bytes journaling input = Ok c ->
  config_ok journaling c /\ exists b, config_to_bytes journaling c = Ok b /\ config_from_bytes journaling b = Ok c.
Proof.
  intros Hl H. pose proof (config_from_bytes_ok journaling input c Hl H) as Hc. split; [exact Hc | apply config_survives, Hc].
Qed.

(** The bytes of a configuration, for examples. *)
Definition bytes_or_nil (r : cres (list byte)) : list byte := match r with Ok b => b | Err _ => [] end.

(** The document of the default configuration without its three optional fields. *)
Definition short_document : CborValue :=
  CArray [CUnsigned CONFIG_FORMAT_VERSION; CMap (take 10 (match fields false config_default with Ok fs => fs | Err _ => [] end))].

Definition short_bytes : list byte := encoded_or_nil short_document.

Lemma config_decode_sound_witness :
  config_ok false config_default /\ exists b, config_to_bytes false config_default = Ok b /\ config_from_bytes false b = Ok config_default.
Proof. apply (config_decode_sound false short_bytes); [vm_compute; discriminate | vm_compute; reflexivity]. Defined.

(** Two byte strings can decode to the same configuration: the optional fields may be left out. *)
Theorem documents_not_unique : exists b b', b <> b' /\ config_from_bytes false b = Ok config_default /\ config_from_bytes false b' = Ok config_default.
Proof.
  exists short_bytes, (bytes_or_nil (config_to_bytes false config_default)). split_and!; [vm_compute; discriminate | vm_compute; reflexivity..].
Qed.

Definition long_name : list byte := repeat x61 256.

(** A host name of 256 bytes is encoded, but the bytes are refused when they are read back. *)
Theorem long_dns_name_unreadable : exists b,
  config_to_bytes false (mkConfig (repeat x00 32) Random 10000 [] swarm_default [] {[ long_name := 0 ]} [] None true false None None) = Ok b /\
  config_from_bytes false b = Err (DnsNameTooLong 256).
Proof. eexists. split; [vm_compute; reflexivity | vm_compute; reflexivity]. Qed.

(** The identity of a configuration does not depend on the build.  A configuration without a journaling mode has the
    same canonical bytes, and so the same canonical hash, in builds with and without file-system journaling. *)
Theorem config_hash_build_independent blake3 c : cfg_fs_journaling c = None ->
  config_to_bytes true c = config_to_bytes false c /\ canonical_hash blake3 true c = canonical_hash blake3 false c.
Proof.
  intros H. assert (E : config_to_bytes true c = config_to_bytes false c).
  { unfold config_to_bytes, fields, fs_journaling_value. rewrite H. done. }
  split; [exact E|]. unfold canonical_hash. rewrite E. done.
Qed.
