(* ===== verification/Executor.v ===== *)
(** * The deterministic executor

    Models [ledger-sim/src/executor/mod.rs], [executor/effects.rs], [executor/storage.rs], [adapter.rs] and
    [runtime.rs]: tasks polled one at a time by scheduling decision, the effect boundary they call, and instruction
    programs as futures.

    The shared state is one record, threaded by a state monad; the [RefCell]s and [Rc]s only share it.  A future is a value
    of the parameter [F] with a [poll] function on the shared state; [Program] is the instance of the adapter.  [None] is
    a panic.  The process belt that [run] activates first is operating-system state and left out, as is the debug
    assertion of [record_journal_error].  The BLAKE3 modes, the words of ChaCha20 and the logarithm are parameters; the
    configuration is the run's [RunConfig]. *)

From stdpp Require Import gmap.
From Stdlib Require Import SpecFloat.
From S2P Require Import Prelude Machine Cbor Limits Value Path Hex Frame Entry OrdMap Order Clock Dag.
From S2P Require Import Causal Monitor KeyMap VirtualTime Net Scheduler SimFs Backend OSet Verdict Hitting Ldfi OnlineMonitor Config.

Open Scope Z_scope.

(** ** State *)

Inductive BlockedOn : Type := OnTimer | OnMessage.

#[global] Instance BlockedOn_eq_dec : EqDecision BlockedOn.
Proof. solve_decision. Defined.

(** The first failure of the journal slot: an error of the journal, or one of the [InvalidPayload] texts. *)
Inductive RunError : Type :=
| XJournal (e : JournalError)
| XScalar (e : ScalarError)
| XMessageTooLarge (len : nat)
| XSwarmCrash (e : SimFsError)
| XUnknownCrashState (identifier : Z)
| XCrashRejected (e : SimFsError)
| XNoOperation.

Definition SCHED_ACTOR : Z := 2 ^ 32 - 1.
Definition SCHED_STREAM : Z := 0.
Definition MAX_MESSAGE_BYTES : Z := 1048576.

Definition OUTCOME_SCHEMA : EntryHash :=
  [x67; xc9; x3d; x0f; xb1; x85; x81; x56; xad; xf7; x35; x4e; x3e; x31; xc7; x8b;
   xae; xba; x7f; x50; x63; x62; xce; xbf; xf5; x90; x43; x64; x6a; xf2; x01; xbc].
Definition ASSERT_SCHEMA : EntryHash :=
  [x2b; x60; xdd; xa5; xdb; x69; x7b; x0a; x05; xe0; x85; xf2; x38; xdd; xa7; x58;
   xfb; x08; x94; x91; x78; xd4; x7a; xb6; xb0; x00; x70; x76; x06; xda; x35; x26].

(** [task as u32]. *)
Definition actor_of (task : nat) : Z := Z.of_nat task mod 2 ^ 32.

Section State.
Context {F : Type}.

Record TaskEntry : Type := mkTask {
  te_future : option F;
  te_blocked : option BlockedOn;
  te_done : bool;
  te_register : Z;
  te_timer_fired : bool;
  te_streams : gmap Z nat  (** words drawn of each created stream *) }.

Definition make_task_entry (future : F) : TaskEntry := mkTask (Some future) None false 0 false ∅.

Record ExecutorShared : Type := mkShared {
  x_journal : JournalState;
  x_time : VirtualTime;
  x_net : SimNet;
  x_fs : SimFs;
  x_scheduler : Scheduler;
  x_tasks : list TaskEntry;
  x_ready : list nat;
  x_net_offset : Z;
  x_fs_offset : Z;
  x_send_seq : list Z;
  x_coverage : gmap Z Z;
  x_fault_classes : gset Z;
  x_applied : list EntryHash;
  x_origins : Backend.OriginLog;
  x_error : option RunError }.

Definition set_journal (x : ExecutorShared) (v : JournalState) : ExecutorShared :=
  mkShared v (x_time x) (x_net x) (x_fs x) (x_scheduler x) (x_tasks x) (x_ready x) (x_net_offset x) (x_fs_offset x)
    (x_send_seq x) (x_coverage x) (x_fault_classes x) (x_applied x) (x_origins x) (x_error x).
Definition set_time (x : ExecutorShared) (v : VirtualTime) : ExecutorShared :=
  mkShared (x_journal x) v (x_net x) (x_fs x) (x_scheduler x) (x_tasks x) (x_ready x) (x_net_offset x) (x_fs_offset x)
    (x_send_seq x) (x_coverage x) (x_fault_classes x) (x_applied x) (x_origins x) (x_error x).
Definition set_net (x : ExecutorShared) (v : SimNet) : ExecutorShared :=
  mkShared (x_journal x) (x_time x) v (x_fs x) (x_scheduler x) (x_tasks x) (x_ready x) (x_net_offset x) (x_fs_offset x)
    (x_send_seq x) (x_coverage x) (x_fault_classes x) (x_applied x) (x_origins x) (x_error x).
Definition set_fs (x : ExecutorShared) (v : SimFs) : ExecutorShared :=
  mkShared (x_journal x) (x_time x) (x_net x) v (x_scheduler x) (x_tasks x) (x_ready x) (x_net_offset x) (x_fs_offset x)
    (x_send_seq x) (x_coverage x) (x_fault_classes x) (x_applied x) (x_origins x) (x_error x).
Definition set_scheduler (x : ExecutorShared) (v : Scheduler) : ExecutorShared :=
  mkShared (x_journal x) (x_time x) (x_net x) (x_fs x) v (x_tasks x) (x_ready x) (x_net_offset x) (x_fs_offset x)
    (x_send_seq x) (x_coverage x) (x_fault_classes x) (x_applied x) (x_origins x) (x_error x).
Definition set_tasks (x : ExecutorShared) (v : list TaskEntry) : ExecutorShared :=
  mkShared (x_journal x) (x_time x) (x_net x) (x_fs x) (x_scheduler x) v (x_ready x) (x_net_offset x) (x_fs_offset x)
    (x_send_seq x) (x_coverage x) (x_fault_classes x) (x_applied x) (x_origins x) (x_error x).
Definition set_ready (x : ExecutorShared) (v : list nat) : ExecutorShared :=
  mkShared (x_journal x) (x_time x) (x_net x) (x_fs x) (x_scheduler x) (x_tasks x) v (x_net_offset x) (x_fs_offset x)
    (x_send_seq x) (x_coverage x) (x_fault_classes x) (x_applied x) (x_origins x) (x_error x).
Definition set_net_offset (x : ExecutorShared) (v : Z) : ExecutorShared :=
  mkShared (x_journal x) (x_time x) (x_net x) (x_fs x) (x_scheduler x) (x_tasks x) (x_ready x) v (x_fs_offset x)
    (x_send_seq x) (x_coverage x) (x_fault_classes x) (x_applied x) (x_origins x) (x_error x).
Definition set_fs_offset (x : ExecutorShared) (v : Z) : ExecutorShared :=
  mkShared (x_journal x) (x_time x) (x_net x) (x_fs x) (x_scheduler x) (x_tasks x) (x_ready x) (x_net_offset x) v
    (x_send_seq x) (x_coverage x) (x_fault_classes x) (x_applied x) (x_origins x) (x_error x).
Definition set_send_seq (x : ExecutorShared) (v : list Z) : ExecutorShared :=
  mkShared (x_journal x) (x_time x) (x_net x) (x_fs x) (x_scheduler x) (x_tasks x) (x_ready x) (x_net_offset x) (x_fs_offset x)
    v (x_coverage x) (x_fault_classes x) (x_applied x) (x_origins x) (x_error x).
Definition set_coverage (x : ExecutorShared) (v : gmap Z Z) : ExecutorShared :=
  mkShared (x_journal x) (x_time x) (x_net x) (x_fs x) (x_scheduler x) (x_tasks x) (x_ready x) (x_net_offset x) (x_fs_offset x)
    (x_send_seq x) v (x_fault_classes x) (x_applied x) (x_origins x) (x_error x).
Definition set_fault_classes (x : ExecutorShared) (v : gset Z) : ExecutorShared :=
  mkShared (x_journal x) (x_time x) (x_net x) (x_fs x) (x_scheduler x) (x_tasks x) (x_ready x) (x_net_offset x) (x_fs_offset x)
    (x_send_seq x) (x_coverage x) v (x_applied x) (x_origins x) (x_error x).
Definition set_applied (x : ExecutorShared) (v : list EntryHash) : ExecutorShared :=
  mkShared (x_journal x) (x_time x) (x_net x) (x_fs x) (x_scheduler x) (x_tasks x) (x_ready x) (x_net_offset x) (x_fs_offset x)
    (x_send_seq x) (x_coverage x) (x_fault_classes x) v (x_origins x) (x_error x).
Definition set_origins (x : ExecutorShared) (v : Backend.OriginLog) : ExecutorShared :=
  mkShared (x_journal x) (x_time x) (x_net x) (x_fs x) (x_scheduler x) (x_tasks x) (x_ready x) (x_net_offset x) (x_fs_offset x)
    (x_send_seq x) (x_coverage x) (x_fault_classes x) (x_applied x) v (x_error x).
Definition set_error (x : ExecutorShared) (v : option RunError) : ExecutorShared :=
  mkShared (x_journal x) (x_time x) (x_net x) (x_fs x) (x_scheduler x) (x_tasks x) (x_ready x) (x_net_offset x) (x_fs_offset x)
    (x_send_seq x) (x_coverage x) (x_fault_classes x) (x_applied x) (x_origins x) v.

(** ** The state monad *)

Definition M (A : Type) : Type := ExecutorShared -> A * ExecutorShared.
Definition ret {A} (a : A) : M A := fun x => (a, x).
Definition bind {A B} (m : M A) (k : A -> M B) : M B := fun x => let '(a, x) := m x in k a x.
Definition gets {A} (f : ExecutorShared -> A) : M A := fun x => (f x, x).
Definition modify (f : ExecutorShared -> ExecutorShared) : M unit := fun x => (tt, f x).
End State.

Arguments TaskEntry : clear implicits.
Arguments ExecutorShared : clear implicits.
Arguments M : clear implicits.

Declare Scope exec_scope.
Delimit Scope exec_scope with exec.
Notation "'let*' x := m 'in' k" := (bind m (fun x => k)) (at level 200, x name, m at level 100, k at level 200, right associativity) : exec_scope.
Notation "'do*' m 'then' k" := (bind m (fun _ => k)) (at level 200, m at level 100, k at level 200, right associativity) : exec_scope.
(** Bind with [?]: an error ends the function. *)
Notation "'let*?' x := m 'in' k" :=
  (bind m (fun r => match r with Ok x => k | Err e => ret (Err e) end))
  (at level 200, x name, m at level 100, k at level 200, right associativity) : exec_scope.
Open Scope exec_scope.

(** ** The boundary *)

Section Boundary.
Context {F : Type}.
Variable blake3 : list byte -> list byte.
(** BLAKE3 keyed with the root seed, and deriving a key of the root seed from a context label. *)
Variable keyed_blake3 : list byte -> list byte.
Variable derive : list byte -> list byte.
(** The words of a ChaCha20 generator with a seed. *)
Variable chacha_word : list byte -> nat -> Z.
(** The feature [sim-fs-journaling] and whether the journal's base is unshared. *)
Variable journaling base_unique : bool.
Variable config : RunConfig.

Abbreviation M := (M F).
Abbreviation jres A := (result RunError A).

(** *** [storage.rs] *)

Definition count_actor (actor : Z) : M unit :=
  modify (fun x => set_coverage x (<[actor := default 0 (x_coverage x !! actor) + 1]> (x_coverage x))).

Definition journal_append (actor : Z) (k : EntryKind) (ps : list EntryHash) (p : EntryPayload) : M (jres EntryHash) := fun x =>
  match append blake3 base_unique (x_journal x) k actor ps p with
  | Ok (id, j) => (do* count_actor actor then ret (Ok id)) (set_journal x j)
  | Err e => (Err (XJournal e), x)
  end.

Definition journal_append_batch (batch : list BatchEntry) : M (jres (list EntryHash)) := fun x =>
  let '(r, _, j) := append_batch blake3 base_unique (x_journal x) batch in
  let x := set_journal x j in
  match r with
  | Ok ids => (Ok ids, foldl (fun x a => (count_actor a x).2) x (map b_actor batch))
  | Err e => (Err (XJournal e), x)
  end.

Definition entry_vc_signature (x : ExecutorShared F) (id : EntryHash) : option Z :=
  match state_lookup (x_journal x) id with
  | Some e => Some (from_le_bytes (take 8 (blake3 (clock_encode (eclock e)))))
  | None => None
  end.

Definition notify_entry (actor : Z) (k : EntryKind) (task : nat) (id : option EntryHash) : M unit := modify (fun x =>
  if novelty_active (x_scheduler x)
  then set_scheduler x (on_entry_emitted (x_scheduler x) actor k task (id ≫= entry_vc_signature x))
  else x).

Definition record_journal_error (e : RunError) : M unit := modify (fun x =>
  match x_error x with None => set_error x (Some e) | Some _ => x end).

Definition draw_net (bound : Z) (offset : Z) : Z * Z := (draw_u64 keyed_blake3 Backend.label_net offset mod bound, offset + 1).

Definition recv_at_effective (task : nat) (now : Z) : M (option Net.Message) := fun x =>
  if negb (cfg_reorder_draw config) then
    match recv_at (x_net x) (Z.of_nat task) now with
    | Some (m, n) => (Some m, set_net x n)
    | None => (None, x)
    end
  else
    let '(got, offset) := recv_at_drawn draw_net (x_net x) (Z.of_nat task) now (x_net_offset x) in
    let x := set_net_offset x offset in
    match got with Some (m, n) => (Some m, set_net x n) | None => (None, x) end.

(** *** Journaling *)

Definition b_append (task : nat) (k : EntryKind) (ps : list EntryHash) (p : EntryPayload) : M (jres EntryHash) :=
  let*? id := journal_append (actor_of task) k ps p in
  do* notify_entry (actor_of task) k task (Some id) then ret (Ok id).

(** [if let Err(error) = self.append(..) { record_journal_error(error) }], with the id. *)
Definition append_recorded (task : nat) (k : EntryKind) (ps : list EntryHash) (p : EntryPayload) : M (option EntryHash) :=
  let* r := b_append task k ps p in
  match r with
  | Ok id => ret (Some id)
  | Err e => do* record_journal_error e then ret None
  end.

(** *** Draws *)

Definition label_fs : list byte := [x66; x73].

Definition net_word : M Z := fun x =>
  (draw_u64 keyed_blake3 Backend.label_net (x_net_offset x), set_net_offset x (x_net_offset x + 1)).
Definition fs_word : M Z := fun x =>
  (draw_u64 keyed_blake3 label_fs (x_fs_offset x), set_fs_offset x (x_fs_offset x + 1)).

Definition unit_interval (v : Z) : spec_float := f64_div (f64_of v) (f64_of u64_max).
Definition net_draw : M spec_float := let* v := net_word in ret (unit_interval v).
Definition fs_draw : M spec_float := let* v := fs_word in ret (unit_interval v).

Definition net_draw_delay (max_delay_ticks : Z) : M Z :=
  let* v := net_word in
  ret (if (max_delay_ticks =? u64_max)%Z then v else v mod (max_delay_ticks + 1)).

(** *** Sending *)

Inductive SwarmAction : Type := SwDeliver | SwDelay (ticks : Z) | SwDrop.

Definition swarm_drops : M bool :=
  let p := drop_probability (cfg_swarm config) in
  if SFltb f64_zero p then let* d := net_draw in ret (SFltb d p) else ret false.

Definition swarm_delays : M bool :=
  let s := cfg_swarm config in
  if SFltb f64_zero (delay_probability s) && (0 <? max_delay_ticks s)%Z
  then let* d := net_draw in ret (SFltb d (delay_probability s)) else ret false.

Definition swarm_send_policy (task : nat) (send_id : EntryHash) (message_id : MessageId) : M SwarmAction :=
  let* drops := swarm_drops in
  if drops : bool then do* append_recorded task KFault [send_id] (PFault (DropMessage message_id)) then ret SwDrop
  else
    let* delays := swarm_delays in
    if delays : bool then let* d := net_draw_delay (max_delay_ticks (cfg_swarm config)) in ret (SwDelay d)
    else ret SwDeliver.

Definition mark_fault_applied (id : EntryHash) : M unit := modify (fun x =>
  if bool_decide (id ∈ x_applied x) then x else set_applied x (x_applied x ++ [id])).

(** [inject_send_fault]: [Some None] dropped, [Some (Some ticks)] delayed. *)
Definition inject_send_fault (task : nat) (send_id : EntryHash) (message_id : MessageId) : M (option (option Z)) :=
  match schedule_injection_for (cfg_fault_schedule config) send_id with
  | Some (Drop _) =>
      do* mark_fault_applied send_id then
      do* append_recorded task KFault [send_id] (PFault (DropMessage message_id)) then ret (Some None)
  | Some (Delay send ticks) => do* mark_fault_applied send then ret (Some (Some ticks))
  | _ => ret None
  end.

Inductive SendOutcome : Type := Queued (delivered : bool) | QueueIsFull.

Definition sent (x : ExecutorShared F) (r : result NetError (bool * SimNet)) : SendOutcome * ExecutorShared F :=
  match r with
  | Ok (delivered, n) => (Queued delivered, set_net x n)
  | Err (QueueFull _ _ _ _) => (QueueIsFull, x)
  | Err (InvalidReorderWindow _) => (Queued false, x)
  end.

Definition send_via_link_checked (m : Net.Message) (now delay : Z) : M SendOutcome := fun x =>
  let '(r, offset) := try_send_via_link (fun bound => draw_net (Z.max bound 1)) (x_net x) m now delay (x_net_offset x) in
  sent (set_net_offset x offset) r.

Definition transmit_once (task : nat) (to : Z) (content : list byte) (message_id : MessageId) (send_id : EntryHash)
    (now delay : Z) : M SendOutcome := fun x =>
  let m := mkMessage (Z.of_nat task) to content send_id message_id now in
  match links (x_net x) !! (Z.of_nat task, to) with
  | Some _ => send_via_link_checked m now delay x
  | None => sent x (try_send_at_with_identity (x_net x) m now delay)
  end.

Definition journal_queue_full (task : nat) (send_id : EntryHash) (to : Z) (message_id : MessageId) : M unit :=
  let* policy := gets (fun x => queue_policy (x_net x) (Z.of_nat task) to) in
  match policy with
  | QDrop => do* append_recorded task KFault [send_id] (PFault (DropMessage message_id)) then ret tt
  | QBlock => do* append_recorded task KBlock [send_id] (PBlock Yield) then ret tt
  end.

Definition journal_net_loss (task : nat) (send_id : EntryHash) (to : Z) (message_id : MessageId) : M unit :=
  let* partitioned := gets (fun x => is_partitioned (x_net x) (Z.of_nat task) to) in
  do* append_recorded task KFault [send_id]
        (PFault (if partitioned : bool then Partition (actor_of task) (to mod 2 ^ 32) true else DropMessage message_id)) then ret tt.

Definition next_message_id (task : nat) : M MessageId := fun x =>
  let seqs := x_send_seq x ++ replicate (S task - length (x_send_seq x)) 0 in
  let sequence := default 0 (seqs !! task) in
  (mkMessageId (actor_of task) sequence, set_send_seq x (<[task := sequence + 1]> seqs)).

Definition when (b : bool) (m : M unit) : M unit := if b then m else ret tt.

(** The fate of a transmission that is not duplicated. *)
Definition settle (task : nat) (send_id : EntryHash) (to : Z) (message_id : MessageId) (o : SendOutcome) : M bool :=
  match o with
  | Queued delivered => do* when (negb delivered) (journal_net_loss task send_id to message_id) then ret delivered
  | QueueIsFull => do* journal_queue_full task send_id to message_id then ret false
  end.

(** After the first transmission: the duplicate, if the send has one and was not refused. *)
Definition finish_send (task : nat) (to : Z) (content : list byte) (message_id : MessageId) (id : EntryHash) (now delay : Z)
    (o : SendOutcome) : M bool :=
  match o with
  | Queued first_delivered =>
      if duplicate_targets (cfg_fault_schedule config) id then
        do* mark_fault_applied id then
        do* append_recorded task KFault [id] (PFault (DuplicateMessage message_id 1)) then
        let* second := transmit_once task to content message_id id now delay in
        do* when (negb first_delivered) (journal_net_loss task id to message_id) then
        let* delivered := settle task id to message_id second in
        ret (first_delivered || delivered)
      else settle task id to message_id o
  | QueueIsFull => settle task id to message_id o
  end.

(** After the [Send] entry: dropped events, scheduled faults, swarm faults, transmission. *)
Definition dispatch_send (task : nat) (to : Z) (content : list byte) (message_id : MessageId) (id : EntryHash) (now base_delay : Z) : M bool :=
  if bool_decide (id ∈ cfg_dropped_events config) then
    do* append_recorded task KFault [id] (PFault (DropMessage message_id)) then ret true
  else
    let* injected := inject_send_fault task id message_id in
    match injected with
    | Some None => ret true
    | _ =>
        let injected_delay := match injected with Some (Some ticks) => ticks | _ => 0 end in
        let* swarm := swarm_send_policy task id message_id in
        match swarm with
        | SwDrop => ret true
        | _ =>
            let delay := match swarm with
                         | SwDelay extra => saturating_add (saturating_add base_delay extra) injected_delay
                         | _ => saturating_add base_delay injected_delay
                         end in
            let* o := transmit_once task to content message_id id now delay in
            finish_send task to content message_id id now delay o
        end
    end.

Definition send_bytes_inner (task : nat) (to : Z) (content : list byte) (base_delay : Z) (at_ : option Backend.OriginSource) : M bool :=
  let* now := gets (fun x => now (x_time x)) in
  let* message_id := next_message_id task in
  if (MAX_MESSAGE_BYTES <? Z.of_nat (length content))%Z then
    do* record_journal_error (XMessageTooLarge (length content)) then ret false
  else
    let* id := append_recorded task KSend [] (PSend (mkSendFrame message_id (actor_of task) (to mod 2 ^ 32) content)) in
    match id with
    | None => ret false
    | Some id =>
        do* match at_ with
            | Some origin => modify (fun x => set_origins x (Backend.record (x_origins x) id origin))
            | None => ret tt
            end then
        dispatch_send task to content message_id id now base_delay
    end.

Definition send_core (task : nat) (to payload base_delay : Z) (at_ : option Backend.OriginSource) : M bool :=
  send_bytes_inner task to (to_le_bytes 8 payload) base_delay at_.
Definition b_send (task : nat) (to payload : Z) : M bool := send_core task to payload 0 None.
Definition send_tracked (task : nat) (to payload : Z) (caller : Backend.OriginSource) : M bool := send_core task to payload 0 (Some caller).
Definition send_timed (task : nat) (to payload delay : Z) : M bool := send_core task to payload delay None.

Definition apply_partition (task : nat) (src dst : Z) : M (jres EntryHash) :=
  let*? id := b_append task KFault [] (PFault (Partition (src mod 2 ^ 32) (dst mod 2 ^ 32) true)) in
  do* modify (fun x => set_net x (apply_fault (x_net x) (FPartition (src mod 2 ^ 32) (dst mod 2 ^ 32))).2) then ret (Ok id).

(** *** Storage faults *)

Definition lift_fs (f : SimFs -> SimFs) : M unit := modify (fun x => set_fs x (f (x_fs x))).

Definition fs_crash : M unit :=
  lift_fs (match (if journaling then cfg_fs_journaling config else None) with Some _ => crash_journaled | None => crash_fs end).

(** [apply_crash_operation] on the shared file system. *)
Definition crash_operation (op : CrashOperation) : M (result SimFsError unit) := fun x =>
  match apply_crash_operation (x_fs x) op with
  | Ok fs => (Ok tt, set_fs x fs)
  | Err e => (Err e, x)
  end.

Definition crash_entry (task : nat) (op : CrashOperation) : M (jres unit) :=
  let*? _ := b_append task KFault [] (PFault (CrashActor (actor_of task) op)) in ret (Ok tt).

(** [crash_operation_for] of the injection that names the write. *)
Definition write_operation (write_id : EntryHash) (path : list byte) : jres (option CrashOperation) :=
  match schedule_injection_for (cfg_fault_schedule config) write_id ≫= fun f => crash_operation_for blake3 f path with
  | Some (Ok op) => Ok (Some op)
  | Some (Err identifier) => Err (XUnknownCrashState identifier)
  | None => Ok None
  end.

Definition rejected (r : result SimFsError unit) : jres unit := map_err XCrashRejected r.

Definition inject_write_fault (task : nat) (write_id : EntryHash) (path : list byte) : M (jres unit) :=
  match write_operation write_id path with
  | Err e => ret (Err e)
  | Ok operation =>
      match schedule_injection_for (cfg_fault_schedule config) write_id with
      | Some (Crash _) =>
          do* mark_fault_applied write_id then
          do* fs_crash then
          crash_entry task DropAllUnsynced
      | Some (Corrupt _ _) =>
          match operation with
          | None => ret (Err XNoOperation)
          | Some op =>
              do* mark_fault_applied write_id then
              let* r := crash_operation op in
              match rejected r with Err e => ret (Err e) | Ok _ => crash_entry task op end
          end
      | Some (CrashState w _) =>
          do* mark_fault_applied w then
          match operation with
          | None => ret (Err XNoOperation)
          | Some op =>
              let* r := crash_operation op in
              match rejected r with Err e => ret (Err e) | Ok _ => crash_entry task op end
          end
      | _ => ret (Ok tt)
      end
  end.

(** The operator of a swarm crash, by the choice draw, and its class. *)
Definition swarm_operation (choice : Z) (path : list byte) (write_id : EntryHash) : CrashOperation :=
  match choice mod 4 with
  | 0 => DropAllUnsynced
  | 1 => DropPaths [path_ref blake3 path]
  | 2 => TornWrite write_id 4
  | _ => BitFlip write_id 0 0
  end.
Definition state_index (op : CrashOperation) : Z :=
  match op with
  | DropAllUnsynced => 0 | DropPaths _ => 1 | TornWrite _ _ => 2 | CorruptRange _ _ _ => 3 | BitFlip _ _ _ => 4
  end.

(** The class budget: full, or the class is recorded. *)
Definition claim_class (op : CrashOperation) : M bool := fun x =>
  if (Z.max (fault_classes_per_run (cfg_swarm config)) 1 <=? Z.of_nat (size (x_fault_classes x)))%Z then (false, x)
  else (true, set_fault_classes x ({[state_index op]} ∪ x_fault_classes x)).

Definition maybe_crash_on_write (task : nat) (path : list byte) (write_id : EntryHash) : M (jres unit) :=
  let p := crash_probability (cfg_swarm config) in
  if SFleb p f64_zero then ret (Ok tt)
  else
    let* d := fs_draw in
    if SFleb p d then ret (Ok tt)
    else
      let* choice := fs_word in
      let op := swarm_operation choice path write_id in
      let* claimed := claim_class op in
      if negb claimed then ret (Ok tt)
      else
        let* r := crash_operation op in
        match r with
        | Err e => do* record_journal_error (XSwarmCrash e) then ret (Ok tt)
        | Ok _ => crash_entry task op
        end.

(** *** Storage *)

(** A file-system call that journals for the task: its state is written back and its entry counted. *)
Definition note_write {A} (task : nat) (r : jres (A * SimFs * JournalState)) : M (jres A) := fun x =>
  match r with
  | Ok (a, f, j) => (Ok a, (count_actor (actor_of task) (set_fs (set_journal x j) f)).2)
  | Err e => (Err e, x)
  end.

Definition fs_write (task : nat) (path : list byte) (value : Z) : M (jres EntryHash) :=
  let*? id := (fun x => note_write task (map_err XScalar (write blake3 journaling base_unique (x_fs x) (x_journal x) (actor_of task) path value)) x) in
  do* notify_entry (actor_of task) KFsWrite task (Some id) then
  let*? _ := inject_write_fault task id path in
  let*? _ := maybe_crash_on_write task path id in
  ret (Ok id).

Definition fs_error (e : SimFsError) : RunError := match e with FsJournal e => XJournal e | _ => XScalar (InvalidPayloadText e) end.

Definition fs_fsync (task : nat) : M (jres EntryHash) :=
  let*? id := (fun x => note_write task (map_err fs_error (fsync blake3 journaling base_unique (x_fs x) (x_journal x) (actor_of task))) x) in
  do* notify_entry (actor_of task) KFsFsync task (Some id) then ret (Ok id).

Definition fs_read (task : nat) (path : list byte) : M (jres (option Z)) :=
  let*? v := (fun x => note_write task
                (match read blake3 base_unique (x_fs x) (x_journal x) (actor_of task) path with
                 | Ok (v, j) => Ok (v, x_fs x, j)
                 | Err e => Err (XScalar e)
                 end) x) in
  let* read_id := gets (fun x => head_for_actor (x_journal x) (actor_of task)) in
  do* notify_entry (actor_of task) KFsRead task read_id then ret (Ok v).

Definition crash_impl (task : nat) : M (option EntryHash) :=
  let* id := append_recorded task KFault [] (PFault (CrashActor (actor_of task) DropAllUnsynced)) in
  do* fs_crash then ret id.

(** [write_loc] and [fsync_loc]: the origin is recorded when the call succeeds; [crash_loc]: when it was journaled. *)
Definition record_origin (id : EntryHash) (at_ : Backend.OriginSource) : M unit :=
  modify (fun x => set_origins x (Backend.record (x_origins x) id at_)).
Definition located (m : M (jres EntryHash)) (at_ : Backend.OriginSource) : M (jres EntryHash) :=
  let*? id := m in do* record_origin id at_ then ret (Ok id).
Definition crash_loc (task : nat) (at_ : Backend.OriginSource) : M unit :=
  let* id := crash_impl task in
  match id with Some id => record_origin id at_ | None => ret tt end.

(** *** Parking *)

Definition update_task (task : nat) (f : TaskEntry F -> TaskEntry F) : M unit :=
  modify (fun x => set_tasks x (alter f task (x_tasks x))).
Definition set_blocked (b : option BlockedOn) (t : TaskEntry F) : TaskEntry F :=
  mkTask (te_future t) b (te_done t) (te_register t) (te_timer_fired t) (te_streams t).
Definition set_timer_fired (b : bool) (t : TaskEntry F) : TaskEntry F :=
  mkTask (te_future t) (te_blocked t) (te_done t) (te_register t) b (te_streams t).
Definition set_future (f : option F) (t : TaskEntry F) : TaskEntry F :=
  mkTask f (te_blocked t) (te_done t) (te_register t) (te_timer_fired t) (te_streams t).
Definition set_done (t : TaskEntry F) : TaskEntry F :=
  mkTask (te_future t) (te_blocked t) true (te_register t) (te_timer_fired t) (te_streams t).

Definition park_sleep (task : nat) (ticks : Z) : M (jres unit) :=
  let*? timer_set := b_append task KTimerSet [] (PTimerSet 0 ticks) in
  do* modify (fun x => set_time x (set_with_enabler (x_time x) ticks (Z.of_nat task) (Some timer_set))) then
  do* update_task task (fun t => set_blocked (Some OnTimer) (set_timer_fired false t)) then
  ret (Ok tt).

Definition park_message (task : nat) : M (jres unit) :=
  let*? _ := b_append task KBlock [] (PBlock Yield) in
  do* update_task task (set_blocked (Some OnMessage)) then ret (Ok tt).

Definition yield_block (task : nat) : M (jres unit) := let*? _ := b_append task KBlock [] (PBlock Yield) in ret (Ok tt).

(** [Effects::sleep] before its await, and [SleepFuture::poll]. *)
Definition sleep_start (task : nat) (ticks : Z) : M unit :=
  let* timer_set := append_recorded task KTimerSet [] (PTimerSet 0 ticks) in
  do* modify (fun x => set_time x (set_with_enabler (x_time x) ticks (Z.of_nat task) timer_set)) then
  update_task task (set_blocked (Some OnTimer)).

Definition sleep_poll (task : nat) : M bool :=
  let* fired := gets (fun x => match x_tasks x !! task with Some t => te_timer_fired t | None => false end) in
  do* when fired (update_task task (set_timer_fired false)) then ret fired.

(** *** Clock, inputs, outcomes *)

Definition read_clock (task : nat) : M (jres Z) :=
  let* now := gets (fun x => now (x_time x)) in
  let*? _ := b_append task KClockRead [] (PClockRead now) in ret (Ok now).

Definition input_step (task : nat) (generator replay value : Z) : M (jres unit) :=
  let*? _ := b_append task KInputStep [] (PInputStep (mkInputStep generator replay (VUnsigned value))) in ret (Ok tt).

Definition assert_entry (task : nat) (passed : bool) : M (jres unit) :=
  let*? _ := b_append task KAssert [] (PAssert (mkAssert ASSERT_SCHEMA passed (VUnsigned (if passed then 1 else 0)))) in ret (Ok tt).

Definition outcome (task : nat) (value : Z) : M (jres EntryHash) :=
  b_append task KOutcome [] (POutcome (mkOutcome OUTCOME_SCHEMA (VUnsigned value))).

Definition outcome_done (task : nat) : M (jres unit) :=
  let*? _ := b_append task KOutcome [] (POutcome (mkOutcome OUTCOME_SCHEMA (VText (bytes_of_string "done")))) in ret (Ok tt).

Definition set_register (task : nat) (value : Z) : M unit :=
  update_task task (fun t => mkTask (te_future t) (te_blocked t) (te_done t) value (te_timer_fired t) (te_streams t)).
Definition register (task : nat) : M Z := gets (fun x => match x_tasks x !! task with Some t => te_register t | None => 0 end).

(** *** Receiving *)

(** A [Recv] entry for a message and the origin of its send. *)
Definition journal_recv (task : nat) (m : Net.Message) : M unit :=
  let* id := append_recorded task KRecv [send_id m]
               (PRecv (mkRecvFrame (m_message_id m) (m_from m mod 2 ^ 32) (actor_of task) (Net.content m))) in
  modify (fun x => match id, Backend.origin_get (x_origins x) (send_id m) with
                   | Some id, Some origin => set_origins x (Backend.record (x_origins x) id origin)
                   | _, _ => x
                   end).

Definition recv_now (task : nat) : M (option Z) :=
  let* now := gets (fun x => now (x_time x)) in
  let* m := recv_at_effective task now in
  match m with
  | None => ret None
  | Some m => do* journal_recv task m then ret (Some (message_payload m))
  end.

(** [Net::recv] of the boundary of [self_] for any task. *)
Definition net_recv (self_ task : nat) (now : Z) : M (option Net.Message) :=
  let* m := recv_at_effective task now in
  match m with
  | None => ret None
  | Some m => do* journal_recv self_ m then ret (Some m)
  end.

(** [RecvFuture::poll]: the park proceeds when its entry cannot be appended. *)
Definition recv_poll (task : nat) : M (option Z) :=
  let* got := recv_now task in
  match got with
  | Some v => ret (Some v)
  | None =>
      do* append_recorded task KBlock [] (PBlock Yield) then
      do* update_task task (set_blocked (Some OnMessage)) then ret None
  end.

Definition b_has_ready_message (task : nat) : M bool := gets (fun x => has_ready_message (x_net x) (Z.of_nat task) (now (x_time x))).
Definition resolve (name : list byte) : option Z := dns_resolve (cfg_dns config) name.

(** *** Random streams and spawning *)

Definition next_u64 (task : nat) (stream : Z) : M Z :=
  let* drawn := gets (fun x => match x_tasks x !! task with Some t => default 0%nat (te_streams t !! stream) | None => 0%nat end) in
  let value := chacha_word (derive (Backend.app_label stream)) drawn in
  do* update_task task (fun t => mkTask (te_future t) (te_blocked t) (te_done t) (te_register t) (te_timer_fired t)
                                   (<[stream := S drawn]> (te_streams t))) then
  do* append_recorded task KRngDraw [] (PRngDraw (mkRngDraw stream 0 (to_le_bytes 8 value))) then ret value.

Definition spawn_task (future : F) : M nat :=
  let* id := gets (fun x => length (x_tasks x)) in
  do* modify (fun x => set_tasks x (x_tasks x ++ [make_task_entry future])) then
  let* r := journal_append (actor_of id) KSpawn [] (PSpawn (actor_of id)) in
  do* match r with Ok _ => ret tt | Err e => record_journal_error e end then
  do* modify (fun x => set_ready x (x_ready x ++ [id])) then ret id.
End Boundary.

(** ** The executor *)

Inductive RunOutcome : Type :=
| Completed
| BudgetExhausted
| Blocked
| MonitorHalt (why : Reason).

(** [StepLimit] is kept for the facade and never returned; [Belt] belongs to the process belt. *)
Inductive RuntimeError : Type :=
| RtJournal (e : RunError)
| RtStepLimit (limit : Z)
| RtStrictReplay (v : ReplayViolation).

Record RunReport : Type := mkReport {
  rr_journal : JournalState;
  rr_decisions : list nat;
  rr_trace : list StepTrace;
  rr_registers : list Z;
  rr_steps : nat;
  rr_outcome : RunOutcome;
  rr_monitor_issues : list MonitorIssue;
  rr_applied_faults : list EntryHash;
  rr_origins : option (list (EntryHash * Backend.OriginSource)) }.

Section Run.
Context {F : Type}.
Variable blake3 : list byte -> list byte.
Variable keyed_blake3 : list byte -> list byte.
Variable ln : spec_float -> spec_float.
Variable journaling base_unique : bool.
Variable config : RunConfig.
(** Poll a future once: whether it is ready, and the future and the state after. *)
Variable poll : nat -> F -> ExecutorShared F -> bool * F * ExecutorShared F.
(** The iteration order of the hash maps of the coverage check. *)
Variable iter : gmap Z Z -> list (Z * Z).

Abbreviation M := (M F).
Abbreviation jres A := (result RunError A).

Definition initial_net : SimNet :=
  let n := foldl (fun n l => set_link n l.1.1 l.1.2 l.2) net_new (cfg_links config) in
  foldl (fun n f => match f with SPartition src dst => partition n src dst | _ => n end) n (cfg_fault_schedule config).

Definition initial_fs : SimFs :=
  let fs := with_budgets (default MAX_FILE_EXTENT_HARD (cfg_max_file_extent config)) (cfg_max_resident_bytes config) in
  match (if journaling then cfg_fs_journaling config else None) with Some mode => set_journaling_mode fs mode | None => fs end.

(** The state before the first step: one task per future, all ready. *)
Definition executor_with (scheduler : Scheduler) (futures : list F) : ExecutorShared F :=
  mkShared journal_new time_default initial_net initial_fs scheduler (map make_task_entry futures) (seq 0 (length futures))
    0 0 [] ∅ ∅ [] Backend.origins_default None.

Definition with_replay_and_fallback (replay : list nat) (fallback : Policy) (futures : list F) : ExecutorShared F :=
  executor_with (with_fallback (cfg_policy config) replay fallback) futures.

(** Strict replay forces the replay policy. *)
Definition with_replay_strict (replay : list nat) (futures : list F) : ExecutorShared F :=
  executor_with (with_fallback_strict Replay replay Random) futures.

Fixpoint spawn_loop (tasks : list nat) : M (jres unit) :=
  match tasks with
  | [] => ret (Ok tt)
  | t :: tasks =>
      let*? _ := journal_append blake3 base_unique (actor_of t) KSpawn [] (PSpawn (actor_of t)) in
      spawn_loop tasks
  end.

Definition journal_spawns : M (jres unit) :=
  let* n := gets (fun x => length (x_tasks x)) in spawn_loop (seq 0 n).

Definition journal_rng_draw (choice : nat) : M (jres unit) :=
  let*? _ := journal_append blake3 base_unique SCHED_ACTOR KRngDraw []
               (PRngDraw (mkRngDraw SCHED_STREAM 0 (to_le_bytes 8 (Z.of_nat choice)))) in ret (Ok tt).

(** *** Waking *)

Definition waits_for_message (x : ExecutorShared F) (task : nat) : bool :=
  match x_tasks x !! task with
  | Some t => bool_decide (te_blocked t = Some OnMessage) && has_ready_message (x_net x) (Z.of_nat task) (now (x_time x))
  | None => false
  end.

Definition wake_one (now : Z) (task : nat) : M (jres unit) :=
  let* send_id := gets (fun x => peek_ready_send_id (x_net x) (Z.of_nat task) now) in
  let*? wake_id := journal_append blake3 base_unique (actor_of task) KWake (match send_id with Some id => [id] | None => [] end)
                     (PWake (MessageReady (mkMessageId (actor_of task) 0))) in
  do* notify_entry blake3 (actor_of task) KWake task (Some wake_id) then
  do* update_task task (set_blocked None) then
  do* modify (fun x => set_ready x (x_ready x ++ [task])) then ret (Ok tt).

Fixpoint wake_loop (now : Z) (tasks : list nat) : M (jres unit) :=
  match tasks with
  | [] => ret (Ok tt)
  | t :: tasks => let*? _ := wake_one now t in wake_loop now tasks
  end.

Definition wake_blocked_with_messages : M (jres unit) := fun x =>
  wake_loop (now (x_time x)) (List.filter (waits_for_message x) (seq 0 (length (x_tasks x)))) x.

(** *** Timers *)

Definition timer_batch (fired : list TimerFired) : list BatchEntry :=
  concat (map (fun f =>
    [mkBatchEntry KTimerFire (fired_task f mod 2 ^ 32) (match fired_enabler f with Some p => [p] | None => [] end) false (PTimerFire 0 0);
     mkBatchEntry KWake (fired_task f mod 2 ^ 32) [] true (PWake (TimerReady 0))]) fired).

(** The loop over the fired timers and the pairs of their ids. *)
Fixpoint fire_loop (fired : list TimerFired) (ids : list EntryHash) : M unit :=
  match fired, ids with
  | f :: fired, fire_id :: wake_id :: ids =>
      let task := Z.to_nat (fired_task f) in
      do* notify_entry blake3 (fired_task f mod 2 ^ 32) KTimerFire task (Some fire_id) then
      do* notify_entry blake3 (fired_task f mod 2 ^ 32) KWake task (Some wake_id) then
      do* update_task task (fun t => set_blocked None (set_timer_fired true t)) then
      do* modify (fun x => set_ready x (x_ready x ++ [task])) then
      fire_loop fired ids
  | _, _ => ret tt
  end.

Definition fire_timers (fired : list TimerFired) : M (jres unit) :=
  match fired with
  | [] => ret (Ok tt)
  | _ :: _ => let*? ids := journal_append_batch blake3 base_unique (timer_batch fired) in do* fire_loop fired ids then ret (Ok tt)
  end.

Definition target_time (x : ExecutorShared F) : option Z :=
  match next_deadline (x_time x), earliest_delivery_time (x_net x) with
  | Some t, Some n => Some (Z.min t n)
  | Some t, None => Some t
  | None, Some n => Some n
  | None, None => None
  end.

(** Time moves to the target, or to the next timer when the target is not in the future. *)
Definition advance_time (target : Z) : M (list TimerFired) := fun x =>
  let '(fired, t) :=
    if (now (x_time x) <? target)%Z
    then match advance_to_with_enablers (x_time x) target with Some r => r | None => ([], x_time x) end
    else advance_with_enablers (x_time x) in
  (fired, set_time x t).

Definition advance_quiescent : M (jres unit) :=
  let* target := gets target_time in
  match target with
  | None => wake_blocked_with_messages
  | Some target =>
      let* fired := advance_time target in
      let*? _ := fire_timers fired in
      wake_blocked_with_messages
  end.

(** *** One step *)

Definition runnable (x : ExecutorShared F) (task : nat) : option F :=
  match x_tasks x !! task with
  | Some t => if te_done t || match te_blocked t with Some _ => true | None => false end then None else te_future t
  | None => None
  end.

(** [poll_task]: whether the task was polled, which counts a step. *)
Definition poll_task (task : nat) : M bool := fun x =>
  match runnable x task with
  | None => (false, x)
  | Some future =>
      let x := (update_task task (set_future None) x).2 in
      let '(ready, future, x) := poll task future x in
      let x := (update_task task (set_future (Some future)) x).2 in
      (true,
       if ready : bool then (update_task task set_done x).2
       else match x_tasks x !! task with
            | Some t => if negb (te_done t) && match te_blocked t with None => true | Some _ => false end
                        then set_ready x (x_ready x ++ [task]) else x
            | None => x
            end)
  end.

Definition all_tasks_done (x : ExecutorShared F) : bool := forallb te_done (x_tasks x).

(** [Vec::swap_remove]. *)
Definition swap_remove (l : list nat) (i : nat) : list nat :=
  match list.last l with
  | None => l
  | Some z => take (length l - 1) (<[i := z]> l)
  end.

(** What a quiescent state does: [Some outcome] ends the loop. *)
Definition quiesce : M (jres (option RunOutcome)) :=
  let* idle := gets (fun x => bool_decide (x_ready x = [])) in
  if negb idle then ret (Ok None)
  else
    let*? _ := advance_quiescent in
    let* idle := gets (fun x => bool_decide (x_ready x = [])) in
    if negb idle then ret (Ok None)
    else
      let* finished := gets all_tasks_done in
      if finished : bool then ret (Ok (Some Completed))
      else
        let* earliest := gets (fun x => earliest_delivery_time (x_net x)) in
        let* time := gets (fun x => now (x_time x)) in
        let*? _ :=
          match earliest with
          | Some earliest =>
              if (time <? earliest)%Z then
                do* modify (fun x => set_time x (default (x_time x) (advance_to (x_time x) earliest))) then wake_blocked_with_messages
              else ret (Ok tt)
          | None => ret (Ok tt)
          end in
        let* idle := gets (fun x => bool_decide (x_ready x = [])) in
        ret (Ok (if idle : bool then Some Blocked else None)).

(** The decision of a step, journaled: [None] is a panic of the scheduler. *)
Definition decide_step (steps : nat) (x : ExecutorShared F) : option (result RuntimeError (nat * ExecutorShared F)) :=
  match choose keyed_blake3 ln (x_scheduler x) (x_ready x) steps with
  | None => None
  | Some (choice, s) =>
      let '(violation, s) := take_violation s in
      let x := set_scheduler x s in
      match violation with
      | Some v => Some (Err (RtStrictReplay v))
      | None =>
          match journal_rng_draw choice x with
          | (Err e, _) => Some (Err (RtJournal e))
          | (Ok _, x) => Some (Ok (choice, x))
          end
      end
  end.

(** The mid-run monitors over the entries from [start] on. *)
Definition observe (ms : option (list OnlineMonitor)) (x : ExecutorShared F) (start : nat) : option Reason * option (list OnlineMonitor) :=
  match ms with
  | None => (None, None)
  | Some ms =>
      let '(action, ms) := step_monitor ms (x_journal x) start in
      (match action with OnlineHalt why => Some why | OnlineContinue => None end, Some ms)
  end.

Definition note_trace (x : ExecutorShared F) : ExecutorShared F :=
  if trace_enabled (x_scheduler x) then set_scheduler x (note_step_journal_len (x_scheduler x) (journal_len (x_journal x))) else x.

(** The [while] loop; the fuel bounds the iterations. *)
Fixpoint run_loop (fuel : nat) (ms : option (list OnlineMonitor)) (steps : nat) (x : ExecutorShared F) :
    option (result RuntimeError (RunOutcome * nat * ExecutorShared F)) :=
  if negb (Z.of_nat steps <? cfg_max_steps config)%Z then Some (Ok (BudgetExhausted, steps, x))
  else
    match fuel with
    | O => None
    | S fuel =>
        let start := journal_len (x_journal x) in
        match (let*? _ := wake_blocked_with_messages in quiesce) x with
        | (Err e, _) => Some (Err (RtJournal e))
        | (Ok (Some o), x) => Some (Ok (o, steps, x))
        | (Ok None, x) =>
            match decide_step steps x with
            | None => None
            | Some (Err e) => Some (Err e)
            | Some (Ok (choice, x)) =>
                match x_ready x !! choice with
                | None => None
                | Some task =>
                    let x := set_ready x (swap_remove (x_ready x) choice) in
                    let '(polled, x) := poll_task task x in
                    let steps := if polled : bool then S steps else steps in
                    match observe ms x start with
                    | (Some why, _) => Some (Ok (MonitorHalt why, steps, x))
                    | (None, ms) => run_loop fuel ms steps (note_trace x)
                    end
                end
            end
        end
    end.

Definition boundary_entries (x : ExecutorShared F) : list (Z * Z) :=
  sort_by (cmp_pair Z.compare Z.compare) (map_to_list (x_coverage x)).

Definition issues (x : ExecutorShared F) : list MonitorIssue :=
  if cfg_monitor config then audit (x_journal x) ++ check_coverage iter (x_journal x) (boundary_entries x) else [].

(** After the loop: trailing decisions, the error slot, the outcome and the report. *)
Definition report (o : RunOutcome) (steps : nat) (x : ExecutorShared F) : result RuntimeError RunReport :=
  let '(violation, s) := check_trailing (x_scheduler x) (length (decisions (x_scheduler x))) in
  match violation with
  | Some v => Err (RtStrictReplay v)
  | None =>
      match x_error x with
      | Some e => Err (RtJournal e)
      | None =>
          let o := match o with BudgetExhausted => if all_tasks_done x then Completed else o | _ => o end in
          Ok (mkReport (x_journal x) (decisions s) (trace s) (map te_register (x_tasks x)) steps o (issues x) (x_applied x)
                (Backend.snapshot (x_origins x)))
      end
  end.

(** The spawns, the monitors' look at them, and the loop: the outcome, the steps and the state they end in. *)
Definition run_to_end (fuel : nat) (ms : option (list OnlineMonitor)) (x : ExecutorShared F) :
    option (result RuntimeError (RunOutcome * nat * ExecutorShared F)) :=
  match journal_spawns x with
  | (Err e, _) => Some (Err (RtJournal e))
  | (Ok _, x) =>
      let '(early, ms) := if (journal_len (x_journal x) =? 0)%nat then (None, ms) else observe ms x 0 in
      match early with
      | Some why => Some (Ok (MonitorHalt why, 0%nat, x))
      | None => run_loop fuel ms 0 x
      end
  end.

Definition run (fuel : nat) (ms : option (list OnlineMonitor)) (x : ExecutorShared F) : option (result RuntimeError RunReport) :=
  match run_to_end fuel ms x with
  | None => None
  | Some (Err e) => Some (Err e)
  | Some (Ok (o, steps, x)) => Some (report o steps x)
  end.
End Run.

(** ** Instruction programs *)

Inductive Instruction : Type :=
| IYield
| ISleep (ticks : Z)
| ISend (to payload : Z)
| ISendTimed (to payload delay : Z)
| IReceive
| ISet (value : Z)
| IInput (generator replay value : Z)
| IReadClock
| IFsWrite (path : list byte) (value : Z)
| IFsFsync
| IFsRead (path : list byte)
| IFsCrash
| IAssert (passed : bool)
| IOutcome
| IDone.

#[global] Instance Instruction_eq_dec : EqDecision Instruction.
Proof. solve_decision. Defined.

(** The rest of a program, the state of its future. *)
Definition Program : Type := list Instruction.

Inductive Step : Type := StepContinue | StepParked | StepFinished.

Section Programs.
Variable blake3 : list byte -> list byte.
Variable keyed_blake3 : list byte -> list byte.
Variable ln : spec_float -> spec_float.
Variable journaling base_unique : bool.
Variable config : RunConfig.
Variable iter : gmap Z Z -> list (Z * Z).

Abbreviation M := (M Program).
Abbreviation jres A := (result RunError A).

(** An error of a storage call is recorded and the program goes on. *)
Definition recorded {A} (m : M (jres A)) : M (option A) :=
  let* r := m in
  match r with Ok a => ret (Some a) | Err e => do* record_journal_error e then ret None end.

(** One instruction that is not a receive. *)
Definition execute (task : nat) (i : Instruction) : M (jres Step) :=
  match i with
  | IYield => let*? _ := yield_block blake3 base_unique task in ret (Ok StepContinue)
  | ISleep ticks => let*? _ := park_sleep blake3 base_unique task ticks in ret (Ok StepParked)
  | ISend to payload => do* b_send blake3 keyed_blake3 base_unique config task to payload then ret (Ok StepContinue)
  | ISendTimed to payload delay => do* send_timed blake3 keyed_blake3 base_unique config task to payload delay then ret (Ok StepContinue)
  | IReceive => ret (Ok StepContinue)
  | ISet value =>
      let*? _ := input_step blake3 base_unique task 0 0 value in
      do* set_register task value then ret (Ok StepContinue)
  | IInput generator replay value =>
      let*? _ := input_step blake3 base_unique task generator replay value in
      do* set_register task value then ret (Ok StepContinue)
  | IReadClock =>
      let*? now := read_clock blake3 base_unique task in
      do* set_register task now then ret (Ok StepContinue)
  | IFsWrite path value =>
      do* recorded (fs_write blake3 keyed_blake3 journaling base_unique config task path value) then ret (Ok StepContinue)
  | IFsFsync => do* recorded (fs_fsync blake3 journaling base_unique task) then ret (Ok StepContinue)
  | IFsRead path =>
      let* v := recorded (fs_read blake3 base_unique task path) in
      do* match v with Some (Some value) => set_register task value | _ => ret tt end then ret (Ok StepContinue)
  | IFsCrash => do* crash_impl blake3 journaling base_unique config task then ret (Ok StepContinue)
  | IAssert passed => let*? _ := assert_entry blake3 base_unique task passed in ret (Ok StepContinue)
  | IOutcome =>
      let* value := register task in
      do* recorded (outcome blake3 base_unique task value) then ret (Ok StepContinue)
  | IDone => let*? _ := outcome_done blake3 base_unique task in ret (Ok StepFinished)
  end.

(** [execute_one]: the step and the rest of the program. *)
Definition execute_one (task : nat) (program : Program) : M (jres Step * Program) :=
  match program with
  | [] => ret (Ok StepFinished, [])
  | IReceive :: rest =>
      let* got := recv_now blake3 keyed_blake3 base_unique config task in
      match got with
      | Some value => do* set_register task value then ret (Ok StepContinue, rest)
      | None =>
          let* parked := park_message blake3 base_unique task in
          ret (match parked with Ok _ => Ok StepParked | Err e => Err e end, IReceive :: rest)
      end
  | i :: rest => let* r := execute task i in ret (r, rest)
  end.

(** [ProgramFuture::poll]; a failed append ends the program. *)
Definition program_poll (task : nat) (program : Program) (x : ExecutorShared Program) : bool * Program * ExecutorShared Program :=
  match execute_one task program x with
  | ((Ok StepFinished, rest), x) => (true, rest, x)
  | ((Ok _, rest), x) => (false, rest, x)
  | ((Err e, rest), x) => (true, rest, (record_journal_error e x).2)
  end.

(** [Simulation::run] on programs. *)
Definition simulate (fuel : nat) (ms : option (list OnlineMonitor)) (x : ExecutorShared Program) : option (result RuntimeError RunReport) :=
  run blake3 keyed_blake3 ln base_unique config program_poll iter fuel ms x.

Definition simulation_with_replay_and_fallback (replay : list nat) (fallback : Policy) (programs : list Program) : ExecutorShared Program :=
  with_replay_and_fallback journaling config replay fallback programs.
Definition simulation_new (programs : list Program) : ExecutorShared Program := simulation_with_replay_and_fallback [] Random programs.
Definition simulation_strict (replay : list nat) (programs : list Program) : ExecutorShared Program :=
  with_replay_strict journaling config replay programs.
End Programs.
