(* ===== verification/ExecutorProofs.v ===== *)
(** * The executor: replay

    - Effects do not look at the scheduler: what they do to the rest of the state, and what they tell the scheduler, does
      not depend on it.
    - A run can be replayed: the decisions a run records, given to a replaying scheduler, strict or lenient, lead through
      the same states to the same journal. *)

From stdpp Require Import gmap.
From Stdlib Require Import SpecFloat.
From S2P Require Import Prelude Machine Cbor Limits Value Path Hex Frame Entry OrdMap Order Clock Dag.
From S2P Require Import Causal Monitor KeyMap VirtualTime Net Scheduler SimFs Backend OSet Verdict Hitting Ldfi OnlineMonitor Config Executor.

Open Scope Z_scope.
Open Scope exec_scope.

(** ** Blindness *)

Abbreviation emission := (Z * EntryKind * nat * option Z)%type.

(** What the scheduler is told when it listens. *)
Definition emit_if (s : Scheduler) (es : list emission) : Scheduler := if novelty_active s then emit s es else s.

Lemma emit_active s es : novelty_active (emit s es) = novelty_active s.
Proof. unfold novelty_active. destruct (emit_control s es) as (-> & _ & _ & _ & _ & -> & _). done. Qed.

Lemma emit_if_app s a b : emit_if (emit_if s a) b = emit_if s (a ++ b).
Proof.
  unfold emit_if. destruct (novelty_active s) eqn:E; [rewrite emit_active, E|rewrite E; done]. unfold emit. rewrite foldl_app. done.
Qed.

Lemma emit_if_nil s : emit_if s [] = s.
Proof. unfold emit_if. destruct (novelty_active s); done. Qed.

(** The effect is the same function of the rest of the state under every scheduler, and tells it the same. *)
Definition Blind {F A} (m : M F A) : Prop := forall x, exists es, forall s,
  m (set_scheduler x s) = ((m x).1, set_scheduler (m x).2 (emit_if s es)).

Create HintDb blind.

Section Blind.
Context {F : Type}.
Implicit Types x : ExecutorShared F.

Lemma set_scheduler_same x : set_scheduler x (x_scheduler x) = x.
Proof. destruct x; done. Qed.
Lemma set_scheduler_twice x s t : set_scheduler (set_scheduler x s) t = set_scheduler x t.
Proof. done. Qed.

(** An effect that leaves the scheduler alone. *)
Lemma blind_silent {A} (m : M F A) : (forall x s, m (set_scheduler x s) = ((m x).1, set_scheduler (m x).2 s)) -> Blind m.
Proof. intros H x. exists []. intros s. rewrite emit_if_nil. apply H. Qed.

Lemma blind_ret {A} (a : A) : Blind (F := F) (ret a).
Proof. apply blind_silent. done. Qed.

Lemma blind_gets {A} (f : ExecutorShared F -> A) : (forall x s, f (set_scheduler x s) = f x) -> Blind (gets f).
Proof. intros H. apply blind_silent. intros x s. unfold gets. rewrite H. done. Qed.

Lemma blind_modify (f : ExecutorShared F -> ExecutorShared F) :
  (forall x s, f (set_scheduler x s) = set_scheduler (f x) s) -> Blind (modify f).
Proof. intros H. apply blind_silent. intros x s. unfold modify. rewrite H. done. Qed.

Lemma blind_bind {A B} (m : M F A) (k : A -> M F B) : Blind m -> (forall a, Blind (k a)) -> Blind (bind m k).
Proof.
  intros Hm Hk x. destruct (Hm x) as [es He]. destruct (m x) as [a x1] eqn:E. destruct (Hk a x1) as [es' He'].
  exists (es ++ es'). intros s. unfold bind. rewrite He, E. cbn [fst snd]. rewrite He', emit_if_app. done.
Qed.

Lemma blind_ext {A} (m m' : M F A) : (forall x, m x = m' x) -> Blind m -> Blind m'.
Proof. intros E H x. destruct (H x) as [es He]. exists es. intros s. rewrite <- !E. apply He. Qed.
End Blind.

#[export] Hint Resolve blind_ret : blind.

(** Split an effect into the calls it makes. *)
Ltac blind_step :=
  lazymatch goal with
  | |- Blind (bind _ _) => apply blind_bind; [|intros ?]
  | |- Blind (gets _) => apply blind_gets; intros ? ?; reflexivity
  | |- Blind (modify _) => apply blind_modify; intros ? ?; first [reflexivity | cbn; case_match; reflexivity]
  | |- Blind (ret _) => apply blind_ret
  | |- Blind (when _ _) => unfold when
  | |- Blind (if ?b then _ else _) => destruct b
  | |- Blind (match ?r with _ => _ end) => destruct r
  | |- _ => solve [auto with blind]
  end.
Ltac blind := repeat blind_step.
(** An effect written on the state: every lookup but the scheduler's is unchanged. *)
Ltac silent := apply blind_silent; intros x s; cbv beta; cbn; repeat (case_match; cbn); simplify_eq; try reflexivity; try done.

Section Boundary.
Context {F : Type}.
Variables (blake3 keyed_blake3 derive : list byte -> list byte) (chacha_word : list byte -> nat -> Z).
Variables (journaling base_unique : bool) (config : RunConfig).

Lemma notify_blind actor k task id : Blind (F := F) (notify_entry blake3 actor k task id).
Proof.
  intros x. exists [(actor, k, task, id ≫= entry_vc_signature blake3 x)]. intros s. unfold notify_entry, modify, emit_if. cbn [fst snd x_scheduler set_scheduler].
  destruct (novelty_active (x_scheduler x)), (novelty_active s); done.
Qed.
Hint Resolve notify_blind : blind.

Lemma journal_append_blind actor k ps p : Blind (F := F) (journal_append blake3 base_unique actor k ps p).
Proof.
  apply blind_silent. intros x s. unfold journal_append. cbn [x_journal set_scheduler].
  destruct (append _ _ _ _ _ _ _) as [[id j]|e]; done.
Qed.
Hint Resolve journal_append_blind : blind.

Lemma count_fold_blind actors : Blind (F := F) (fun x => (tt, foldl (fun x a => (count_actor a x).2) x actors)).
Proof.
  apply blind_silent. induction actors as [|a actors IH]; intros x s; [done|]. cbn [foldl fst snd].
  specialize (IH (count_actor a x).2 s). cbn [fst snd] in IH. rewrite <- IH. done.
Qed.

Lemma journal_append_batch_blind batch : Blind (F := F) (journal_append_batch blake3 base_unique batch).
Proof.
  apply blind_silent. intros x s. unfold journal_append_batch. cbn [x_journal set_scheduler].
  destruct (append_batch _ _ _ _) as [[[ids|e] fr] j]; [|done]. cbn [fst snd].
  destruct (count_fold_blind (map b_actor batch) (set_journal x j)) as [es H]. cbn [fst snd] in H. f_equal.
  change (set_journal (set_scheduler x s) j) with (set_scheduler (set_journal x j) s).
  generalize (set_journal x j). clear. induction (map b_actor batch) as [|a l IH]; intros x; [done|]. cbn [foldl]. rewrite <- IH. done.
Qed.
Hint Resolve journal_append_batch_blind : blind.

Lemma record_error_blind e : Blind (F := F) (record_journal_error e).
Proof. apply blind_modify. intros x s. cbn. destruct (x_error x); done. Qed.
Hint Resolve record_error_blind : blind.

Lemma recv_at_effective_blind task now : Blind (F := F) (recv_at_effective keyed_blake3 config task now).
Proof.
  apply blind_silent. intros x s. unfold recv_at_effective. cbn [x_net x_net_offset set_scheduler]. destruct (negb _).
  - destruct (recv_at _ _ _) as [[m n]|]; done.
  - destruct (recv_at_drawn _ _ _ _ _) as [[[m n]|] o]; done.
Qed.
Hint Resolve recv_at_effective_blind : blind.

Lemma b_append_blind task k ps p : Blind (F := F) (b_append blake3 base_unique task k ps p).
Proof. unfold b_append. blind. Qed.
Hint Resolve b_append_blind : blind.

Lemma append_recorded_blind task k ps p : Blind (F := F) (append_recorded blake3 base_unique task k ps p).
Proof. unfold append_recorded. blind. Qed.
Hint Resolve append_recorded_blind : blind.

Lemma net_word_blind : Blind (F := F) (net_word keyed_blake3).
Proof. apply blind_silent. done. Qed.
Lemma fs_word_blind : Blind (F := F) (fs_word keyed_blake3).
Proof. apply blind_silent. done. Qed.
Hint Resolve net_word_blind fs_word_blind : blind.

Lemma swarm_send_policy_blind task id m : Blind (F := F) (swarm_send_policy blake3 keyed_blake3 base_unique config task id m).
Proof. unfold swarm_send_policy, swarm_drops, swarm_delays, net_draw, net_draw_delay. blind. Qed.
Hint Resolve swarm_send_policy_blind : blind.

Lemma mark_fault_blind id : Blind (F := F) (mark_fault_applied id).
Proof. apply blind_modify. intros x s. cbn. case_match; done. Qed.
Hint Resolve mark_fault_blind : blind.

Lemma inject_send_fault_blind task id m : Blind (F := F) (inject_send_fault blake3 base_unique config task id m).
Proof. unfold inject_send_fault. blind. Qed.
Hint Resolve inject_send_fault_blind : blind.

Lemma sent_scheduler (x : ExecutorShared F) s r : sent (set_scheduler x s) r = ((sent x r).1, set_scheduler (sent x r).2 s).
Proof. destruct r as [[]|[]]; done. Qed.

Lemma transmit_once_blind task to c m id now delay : Blind (F := F) (transmit_once keyed_blake3 task to c m id now delay).
Proof.
  apply blind_silent. intros x s. unfold transmit_once, send_via_link_checked. cbn [x_net x_net_offset set_scheduler].
  destruct (_ !! _); [|apply sent_scheduler]. destruct (try_send_via_link _ _ _ _ _ _) as [r o]. apply (sent_scheduler (set_net_offset x o)).
Qed.
Hint Resolve transmit_once_blind : blind.

Lemma journal_queue_full_blind task id to m : Blind (F := F) (journal_queue_full blake3 base_unique task id to m).
Proof. unfold journal_queue_full. blind. Qed.
Lemma journal_net_loss_blind task id to m : Blind (F := F) (journal_net_loss blake3 base_unique task id to m).
Proof. unfold journal_net_loss. blind. Qed.
Lemma next_message_id_blind task : Blind (F := F) (next_message_id task).
Proof. apply blind_silent. done. Qed.
Hint Resolve journal_queue_full_blind journal_net_loss_blind next_message_id_blind : blind.

Lemma settle_blind task id to m o : Blind (F := F) (settle blake3 base_unique task id to m o).
Proof. unfold settle. blind. Qed.
Hint Resolve settle_blind : blind.

Lemma finish_send_blind task to c m id now delay o : Blind (F := F) (finish_send blake3 keyed_blake3 base_unique config task to c m id now delay o).
Proof. unfold finish_send. blind. Qed.
Hint Resolve finish_send_blind : blind.

Lemma dispatch_send_blind task to c m id now delay : Blind (F := F) (dispatch_send blake3 keyed_blake3 base_unique config task to c m id now delay).
Proof. unfold dispatch_send. blind. Qed.
Hint Resolve dispatch_send_blind : blind.

Lemma send_bytes_inner_blind task to c delay at_ : Blind (F := F) (send_bytes_inner blake3 keyed_blake3 base_unique config task to c delay at_).
Proof. unfold send_bytes_inner. blind. Qed.
Hint Resolve send_bytes_inner_blind : blind.

Lemma fs_crash_blind : Blind (F := F) (fs_crash journaling config).
Proof. unfold fs_crash, lift_fs. blind. Qed.
Lemma crash_operation_blind op : Blind (F := F) (crash_operation op).
Proof. apply blind_silent. intros x s. unfold crash_operation. cbn [x_fs set_scheduler]. destruct (apply_crash_operation _ _); done. Qed.
Lemma crash_entry_blind task op : Blind (F := F) (crash_entry blake3 base_unique task op).
Proof. unfold crash_entry. blind. Qed.
Hint Resolve fs_crash_blind crash_operation_blind crash_entry_blind : blind.

Lemma inject_write_fault_blind task id path : Blind (F := F) (inject_write_fault blake3 journaling base_unique config task id path).
Proof. unfold inject_write_fault. blind. Qed.
Hint Resolve inject_write_fault_blind : blind.

Lemma claim_class_blind op : Blind (F := F) (claim_class config op).
Proof. apply blind_silent. intros x s. unfold claim_class. cbn [x_fault_classes set_scheduler]. destruct (_ <=? _); done. Qed.
Hint Resolve claim_class_blind : blind.

Lemma maybe_crash_blind task path id : Blind (F := F) (maybe_crash_on_write blake3 keyed_blake3 base_unique config task path id).
Proof. unfold maybe_crash_on_write, fs_draw. blind. Qed.
Hint Resolve maybe_crash_blind : blind.

(** A file-system call on the shared state. *)
Lemma note_write_blind {A} task (call : ExecutorShared F -> result RunError (A * SimFs * JournalState)) :
  (forall x s, call (set_scheduler x s) = call x) -> Blind (F := F) (fun x => note_write task (call x) x).
Proof.
  intros H. apply blind_silent. intros x s. rewrite H. unfold note_write. destruct (call x) as [[[a f] j]|e]; done.
Qed.

Lemma fs_write_blind task path v : Blind (F := F) (fs_write blake3 keyed_blake3 journaling base_unique config task path v).
Proof. unfold fs_write. apply blind_bind; [apply note_write_blind; done | intros ?]. blind. Qed.
Lemma fs_fsync_blind task : Blind (F := F) (fs_fsync blake3 journaling base_unique task).
Proof. unfold fs_fsync. apply blind_bind; [apply note_write_blind; done | intros ?]. blind. Qed.
Lemma fs_read_blind task path : Blind (F := F) (fs_read blake3 base_unique task path).
Proof. unfold fs_read. apply blind_bind; [apply note_write_blind; done | intros ?]. blind. Qed.
Lemma crash_impl_blind task : Blind (F := F) (crash_impl blake3 journaling base_unique config task).
Proof. unfold crash_impl. blind. Qed.
Lemma update_task_blind task f : Blind (F := F) (update_task task f).
Proof. apply blind_modify. done. Qed.
Hint Resolve fs_write_blind fs_fsync_blind fs_read_blind crash_impl_blind update_task_blind : blind.

Lemma park_sleep_blind task ticks : Blind (F := F) (park_sleep blake3 base_unique task ticks).
Proof. unfold park_sleep. blind. Qed.
Lemma park_message_blind task : Blind (F := F) (park_message blake3 base_unique task).
Proof. unfold park_message. blind. Qed.
Lemma journal_recv_blind task m : Blind (F := F) (journal_recv blake3 base_unique task m).
Proof.
  unfold journal_recv. blind. apply blind_modify. intros x s. cbn [x_origins set_scheduler].
  repeat match goal with |- context [match ?o with Some _ => _ | None => _ end] => destruct o end; done.
Qed.
Hint Resolve park_sleep_blind park_message_blind journal_recv_blind : blind.

Lemma recv_now_blind task : Blind (F := F) (recv_now blake3 keyed_blake3 base_unique config task).
Proof. unfold recv_now. blind. Qed.
Hint Resolve recv_now_blind : blind.

(** The calls of asynchronous tasks. *)
Lemma net_recv_blind self_ task now : Blind (F := F) (net_recv blake3 keyed_blake3 base_unique config self_ task now).
Proof. unfold net_recv. blind. Qed.
Lemma recv_poll_blind task : Blind (F := F) (recv_poll blake3 keyed_blake3 base_unique config task).
Proof. unfold recv_poll. blind. Qed.
Lemma sleep_start_blind task ticks : Blind (F := F) (sleep_start blake3 base_unique task ticks).
Proof. unfold sleep_start. blind. Qed.
Lemma sleep_poll_blind task : Blind (F := F) (sleep_poll task).
Proof. unfold sleep_poll. blind. Qed.
Lemma next_u64_blind task stream : Blind (F := F) (next_u64 blake3 derive chacha_word base_unique task stream).
Proof. unfold next_u64. blind. Qed.
Lemma spawn_task_blind future : Blind (F := F) (spawn_task blake3 base_unique future).
Proof. unfold spawn_task. blind. Qed.
Lemma apply_partition_blind task src dst : Blind (F := F) (apply_partition blake3 base_unique task src dst).
Proof. unfold apply_partition. blind. Qed.
End Boundary.

#[export] Hint Resolve notify_blind journal_append_blind journal_append_batch_blind record_error_blind b_append_blind
  append_recorded_blind send_bytes_inner_blind fs_write_blind fs_fsync_blind fs_read_blind crash_impl_blind update_task_blind
  park_sleep_blind park_message_blind recv_now_blind : blind.

(** Programs are blind. *)
Lemma execute_blind blake3 keyed_blake3 journaling base_unique config task i :
  Blind (execute blake3 keyed_blake3 journaling base_unique config task i).
Proof.
  unfold execute, recorded, yield_block, input_step, read_clock, assert_entry, outcome_done, outcome, set_register, register, b_send,
    send_timed, send_core. blind.
Qed.

Lemma program_poll_blind blake3 keyed_blake3 journaling base_unique config task program :
  Blind (program_poll blake3 keyed_blake3 journaling base_unique config task program).
Proof.
  assert (H : Blind (execute_one blake3 keyed_blake3 journaling base_unique config task program)).
  { unfold execute_one, set_register. pose proof (execute_blind blake3 keyed_blake3 journaling base_unique config task) as He. blind; apply He. }
  eapply blind_ext; [|apply (blind_bind _ (fun r => match r with
    | (Ok StepFinished, rest) => ret (true, rest)
    | (Ok _, rest) => ret (false, rest)
    | (Err e, rest) => do* record_journal_error e then ret (true, rest)
    end) H)].
  - intros x. unfold bind, program_poll. destruct (execute_one _ _ _ _ _ _ _ _) as [[[[]|e] rest] x1]; done.
  - intros [[[]|e] rest]; blind.
Qed.

(** ** The executor *)

Section Executor.
Context {F : Type}.
Variables (blake3 keyed_blake3 : list byte -> list byte) (ln : spec_float -> spec_float).
Variables (base_unique : bool) (config : RunConfig).
Variable poll : nat -> F -> ExecutorShared F -> bool * F * ExecutorShared F.
Variable iter : gmap Z Z -> list (Z * Z).
Hypothesis poll_blind : forall task f, Blind (A := bool * F) (poll task f).
Implicit Types x y : ExecutorShared F.

Lemma spawn_loop_blind tasks : Blind (F := F) (spawn_loop blake3 base_unique tasks).
Proof. induction tasks as [|t tasks IH]; cbn [spawn_loop]; blind. Qed.

Lemma wake_one_blind now task : Blind (F := F) (wake_one blake3 base_unique now task).
Proof. unfold wake_one. blind. Qed.
Hint Resolve wake_one_blind : blind.

Lemma wake_loop_blind now tasks : Blind (F := F) (wake_loop blake3 base_unique now tasks).
Proof. induction tasks as [|t tasks IH]; cbn [wake_loop]; blind. Qed.

(** An effect chosen by what it sees of the state. *)
Lemma blind_by {A B} (f : ExecutorShared F -> B) (m : B -> M F A) :
  (forall x s, f (set_scheduler x s) = f x) -> (forall b, Blind (m b)) -> Blind (fun x => m (f x) x).
Proof. intros Hf Hm x. destruct (Hm (f x) x) as [es H]. exists es. intros s. rewrite Hf. apply H. Qed.

Lemma wake_blocked_blind : Blind (F := F) (wake_blocked_with_messages blake3 base_unique).
Proof.
  apply (blind_by (fun x => (now (x_time x), List.filter (waits_for_message x) (seq 0 (length (x_tasks x)))))
    (fun p => wake_loop blake3 base_unique p.1 p.2)); [done|]. intros p. apply wake_loop_blind.
Qed.
Hint Resolve wake_blocked_blind : blind.

Lemma fire_loop_blind fired : forall ids, Blind (F := F) (fire_loop blake3 fired ids).
Proof. induction fired as [|f fired IH]; intros [|a [|b ids]]; cbn [fire_loop]; blind. Qed.
Hint Resolve fire_loop_blind : blind.

Lemma fire_timers_blind fired : Blind (F := F) (fire_timers blake3 base_unique fired).
Proof. unfold fire_timers. blind. Qed.
Lemma advance_time_blind target : Blind (F := F) (advance_time target).
Proof. apply blind_silent. intros x s. unfold advance_time. cbn [x_time set_scheduler]. destruct (if _ <? _ then _ else _) as [f t]; done. Qed.
Hint Resolve fire_timers_blind advance_time_blind : blind.

Lemma advance_quiescent_blind : Blind (F := F) (advance_quiescent blake3 base_unique).
Proof. unfold advance_quiescent. blind. Qed.
Hint Resolve advance_quiescent_blind : blind.

Lemma settle_step_blind : Blind (F := F) (let*? _ := wake_blocked_with_messages blake3 base_unique in quiesce blake3 base_unique).
Proof. unfold quiesce. blind. Qed.

Lemma rng_draw_blind choice : Blind (F := F) (journal_rng_draw blake3 base_unique choice).
Proof. unfold journal_rng_draw. blind. Qed.

Lemma poll_task_blind task : Blind (F := F) (poll_task poll task).
Proof.
  apply (blind_ext (let* r := gets (fun x => runnable x task) in
    match r with
    | None => ret false
    | Some future =>
        do* update_task task (set_future None) then
        let* r := poll task future in
        do* update_task task (set_future (Some r.2)) then
        do* (if r.1 then update_task task set_done
             else modify (fun x => match x_tasks x !! task with
                  | Some t => if negb (te_done t) && match te_blocked t with None => true | Some _ => false end
                              then set_ready x (x_ready x ++ [task]) else x
                  | None => x
                  end)) then ret true
    end)).
  - intros x. unfold poll_task, bind, gets, ret, modify, update_task. destruct (runnable x task) as [f|]; [|done]. cbn [fst snd modify].
    destruct (poll task f _) as [[ready f'] x1]. cbn [fst snd]. destruct ready; done.
  - blind. apply blind_modify. intros x s. cbn [x_tasks set_scheduler].
    destruct (x_tasks x !! task) as [t|]; [|done]. destruct (negb (te_done t) && _); done.
Qed.

(** ** Replay *)

(** A scheduler that replays [cs], after [choices], and keeps no trace. *)
Record replays (strictly : bool) (cs choices : list nat) (s : Scheduler) : Prop := {
  rs_replaying : replaying strictly cs choices s;
  rs_trace : trace s = [];
  rs_silent : trace_enabled s = false }.

Lemma emit_trace s es : trace (emit s es) = trace s /\ trace_enabled (emit s es) = trace_enabled s.
Proof. unfold emit. revert s. induction es as [|[[[a k] t] vc] es IH]; intros s; [done|]. cbn [foldl]. destruct (IH (on_entry_emitted s a k t vc)) as [-> ->]. done. Qed.

Lemma replays_emit strictly cs choices s es : replays strictly cs choices s -> replays strictly cs choices (emit_if s es).
Proof.
  intros [H1 H2 H3]. unfold emit_if. destruct (novelty_active s); [|done]. destruct (emit_trace s es) as [E1 E2].
  split; [apply replaying_emit, H1 | congruence..].
Qed.

Lemma replays_choose strictly cs choices i s ready : replays strictly cs choices s -> cs !! length choices = Some i ->
  (i < length ready)%nat -> exists s', choose keyed_blake3 ln s ready (length choices) = Some (i, s') /\ replays strictly cs (choices ++ [i]) s'.
Proof.
  intros [[H1 H2 H3 H4 H5] H6 H7] Hi Hlt. unfold choose. destruct ready as [|t ready]; [cbn in Hlt; lia|]. rewrite H1, H2, H3, Hi.
  assert (Hs : replays strictly cs (choices ++ [i]) (with_decision s (t :: ready) (length choices) i)).
  { split; [split; cbn; congruence | cbn; rewrite H7; done | done]. }
  destruct strictly; [rewrite (proj2 (Nat.leb_gt _ _)) by done | rewrite Nat.mod_small by done]; eexists; (split; [reflexivity | exact Hs]).
Qed.

Lemma decided_with s : violation s = None -> with_violation s None = s.
Proof. intros H. unfold with_violation. rewrite <- H. destruct s; done. Qed.

(** What a decision of the recorded run does, and the same decision replayed. *)
Lemma decide_replays strictly cs (x : ExecutorShared F) i x1 steps s : strict (x_scheduler x) = false -> violation (x_scheduler x) = None ->
  length (decisions (x_scheduler x)) = steps -> cs !! steps = Some i -> replays strictly cs (decisions (x_scheduler x)) s ->
  decide_step blake3 keyed_blake3 ln base_unique steps x = Some (Ok (i, x1)) ->
  exists s', decide_step blake3 keyed_blake3 ln base_unique steps (set_scheduler x s) = Some (Ok (i, set_scheduler x1 s'))
    /\ replays strictly cs (decisions (x_scheduler x) ++ [i]) s' .
Proof.
  intros Hs Hv Hl Hi Hr H. unfold decide_step in *. cbn [x_scheduler x_ready set_scheduler].
  destruct (choose keyed_blake3 ln (x_scheduler x) (x_ready x) steps) as [[c s1]|] eqn:E; [|done].
  unfold take_violation in H. destruct (violation s1); [done|]. pose proof (choose_lt _ _ _ _ _ _ _ E) as Hlt.
  pose proof (rng_draw_blind c (set_scheduler x (with_violation s1 None))) as [es Hes].
  destruct (journal_rng_draw _ _ c _) as [[u|e] x2] eqn:Ej; [|done]. injection H as -> ->.
  subst steps. destruct (replays_choose strictly cs _ i s (x_ready x) Hr Hi Hlt) as (s' & Ec & Hs'). rewrite Ec. unfold take_violation.
  rewrite (rp_violation _ _ _ _ (rs_replaying _ _ _ _ Hs')), (decided_with s') by apply Hs'.
  specialize (Hes s'). cbn [fst snd] in Hes. rewrite set_scheduler_twice in Hes. rewrite set_scheduler_twice, Hes. cbn [fst snd].
  eexists. split; [reflexivity|]. apply replays_emit, Hs'.
Qed.

(** The control state of a scheduler that is not strict: its decisions, and no violation. *)
Definition control (ds : list nat) (s : Scheduler) : Prop := strict s = false /\ violation s = None /\ decisions s = ds.

Lemma control_emit ds s es : control ds s -> control ds (emit_if s es).
Proof.
  intros (H1 & H2 & H3). unfold emit_if. destruct (novelty_active s); [|done].
  destruct (emit_control s es) as (_ & E2 & _ & E4 & E5 & _). unfold control. rewrite E2, E4, E5. done.
Qed.

(** A blind effect keeps the control state. *)
Lemma blind_control {A} (m : M F A) ds x : Blind m -> control ds (x_scheduler x) -> control ds (x_scheduler (m x).2).
Proof.
  intros Hm Hc. destruct (Hm x) as [es H]. specialize (H (x_scheduler x)). rewrite set_scheduler_same in H.
  apply (f_equal snd) in H. cbn [snd] in H. rewrite H. apply control_emit, Hc.
Qed.

Lemma decide_control steps ds x i x1 : control ds (x_scheduler x) ->
  decide_step blake3 keyed_blake3 ln base_unique steps x = Some (Ok (i, x1)) -> control (ds ++ [i]) (x_scheduler x1).
Proof.
  intros (Hs & Hv & <-) H. unfold decide_step in H. destruct (choose _ _ _ _ _) as [[c s1]|] eqn:E; [|done].
  apply choose_decisions in E as (E1 & E2 & _); [|done]. unfold take_violation in H. destruct (violation s1); [done|].
  destruct (journal_rng_draw _ _ c _) as [[u|e] x2] eqn:Ej; [|done]. injection H as -> ->.
  pose proof (blind_control _ (decisions (x_scheduler x) ++ [i]) (set_scheduler x (with_violation s1 None)) (rng_draw_blind i)) as Hc.
  rewrite Ej in Hc. apply Hc. done.
Qed.

Lemma note_trace_control ds x : control ds (x_scheduler x) -> control ds (x_scheduler (note_trace x)).
Proof. intros H. unfold note_trace. destruct (trace_enabled _); done. Qed.

(** The loop only adds decisions, at least one for each step. *)
Lemma run_loop_decisions fuel : forall ms steps x ds o n x', control ds (x_scheduler x) ->
  run_loop blake3 keyed_blake3 ln base_unique config poll fuel ms steps x = Some (Ok (o, n, x')) ->
  exists more, control (ds ++ more) (x_scheduler x') /\ (n <= steps + length more)%nat.
Proof.
  induction fuel as [|fuel IH]; intros ms steps x ds o n x' Hc H; cbn [run_loop] in H;
    (destruct (negb _); [injection H as <- <- <-; exists []; rewrite app_nil_r; split; [done | cbn; lia]|]); [done|].
  pose proof (blind_control _ ds x settle_step_blind Hc) as Hc1.
  destruct ((let*? _ := wake_blocked_with_messages blake3 base_unique in quiesce blake3 base_unique) x) as [[[o1|]|e] x1]; [| |done].
  - injection H as <- <- <-. exists []. rewrite app_nil_r. split; [exact Hc1 | cbn; lia].
  - destruct (decide_step _ _ _ _ _ _) as [[[i x2]|e]|] eqn:Ed; [|done|done]. apply (decide_control _ ds) in Ed; [|exact Hc1].
    destruct (x_ready x2 !! i) as [task|]; [|done].
    pose proof (blind_control _ (ds ++ [i]) (set_ready x2 (swap_remove (x_ready x2) i)) (poll_task_blind task) Ed) as Hc3.
    destruct (poll_task poll task _) as [polled x3]. cbn [snd] in Hc3.
    destruct (observe ms x3 _) as [[why|] ms'].
    + injection H as <- <- <-. exists [i]. split; [exact Hc3 | destruct polled; cbn; lia].
    + apply (IH _ _ _ (ds ++ [i])) in H as (more & Hm & Hn); [|apply note_trace_control, Hc3].
      exists (i :: more). rewrite <- app_assoc in Hm. split; [exact Hm|]. destruct polled; cbn; lia.
Qed.

Lemma note_trace_silent x s : trace_enabled s = false -> note_trace (set_scheduler x s) = set_scheduler x s.
Proof. intros H. unfold note_trace. cbn [x_scheduler set_scheduler]. rewrite H. done. Qed.

Lemma note_trace_forget x s : set_scheduler (note_trace x) s = set_scheduler x s.
Proof. unfold note_trace. destruct (trace_enabled _); done. Qed.

Lemma observe_scheduler ms x s start : observe ms (set_scheduler x s) start = observe ms x start.
Proof. done. Qed.

(** The loop replayed: the same iterations, with a scheduler that follows the decisions. *)
Lemma run_loop_replays strictly fuel : forall ms steps x ds cs s o n x', control ds (x_scheduler x) -> length ds = steps ->
  run_loop blake3 keyed_blake3 ln base_unique config poll fuel ms steps x = Some (Ok (o, n, x')) ->
  control cs (x_scheduler x') -> length cs = n -> replays strictly cs ds s ->
  exists s', run_loop blake3 keyed_blake3 ln base_unique config poll fuel ms steps (set_scheduler x s) = Some (Ok (o, n, set_scheduler x' s'))
    /\ replays strictly cs cs s'.
Proof.
  induction fuel as [|fuel IH]; intros ms steps x ds cs s o n x' Hc Hl H Hcs Hn Hr; cbn [run_loop] in H |- *;
    assert (Hstop : control ds (x_scheduler x') -> cs = ds) by (intros (_ & _ & E1); destruct Hcs as (_ & _ & E2); congruence);
    (destruct (negb _); [injection H as <- <- <-; assert (cs = ds) as -> by exact (Hstop Hc); exists s; done|]); [done|].
  pose proof (blind_control _ ds x settle_step_blind Hc) as Hc1. destruct (settle_step_blind x) as [es Hes]. rewrite Hes.
  destruct ((let*? _ := wake_blocked_with_messages blake3 base_unique in quiesce blake3 base_unique) x) as [[[o1|]|e] x1]; cbn [fst snd] in *; [| |done].
  - injection H as <- <- <-. exists (emit_if s es). split; [done|]. assert (cs = ds) as -> by exact (Hstop Hc1). apply replays_emit, Hr.
  - destruct (decide_step _ _ _ _ _ x1) as [[[i x2]|e]|] eqn:Ed; [|done|done].
    pose proof (decide_control _ ds _ _ _ Hc1 Ed) as Hc2. destruct (x_ready x2 !! i) as [task|] eqn:Et; [|done].
    pose proof (blind_control _ (ds ++ [i]) (set_ready x2 (swap_remove (x_ready x2) i)) (poll_task_blind task) Hc2) as Hc3.
    destruct (poll_task_blind task (set_ready x2 (swap_remove (x_ready x2) i))) as [es' Hp].
    destruct (poll_task poll task (set_ready x2 _)) as [polled x3] eqn:Epoll. cbn [snd fst] in Hc3, Hp.
    assert (Hi : cs !! steps = Some i /\ polled = true).
    { assert (Hex : exists more, cs = (ds ++ [i]) ++ more /\ (n <= (if polled then S steps else steps) + length more)%nat).
      { destruct (observe ms x3 _) as [[why|] ms'].
        - injection H as <- <- <-. exists []. destruct Hcs as (_ & _ & <-). destruct Hc3 as (_ & _ & ->). rewrite app_nil_r. split; [done | cbn; lia].
        - apply (run_loop_decisions _ _ _ _ (ds ++ [i])) in H as (more & (_ & _ & Hm) & Hle); [|apply note_trace_control, Hc3].
          exists more. destruct Hcs as (_ & _ & <-). done. }
      destruct Hex as (more & -> & Hle). rewrite !length_app in Hn. cbn [length] in Hn. split; [|destruct polled; [done | lia]].
      rewrite <- app_assoc, lookup_app_r, Hl, Nat.sub_diag by lia. done. }
    destruct Hi as [Hi ->]. destruct Hc1 as (Hs1 & Hv1 & Hd1).
    destruct (decide_replays strictly cs x1 i x2 steps (emit_if s es) Hs1 Hv1 ltac:(congruence) Hi) as (s2 & Ed2 & Hs2);
      [rewrite Hd1; apply replays_emit, Hr | exact Ed |]. rewrite Ed2. cbn [x_ready set_scheduler]. rewrite Et.
    change (set_ready (set_scheduler x2 s2) (swap_remove (x_ready x2) i)) with (set_scheduler (set_ready x2 (swap_remove (x_ready x2) i)) s2).
    rewrite Hp.
    rewrite Hd1 in Hs2. apply (replays_emit _ _ _ _ es') in Hs2. cbn [x_journal set_scheduler]. rewrite observe_scheduler.
    destruct (observe ms x3 _) as [[why|] ms'].
    + injection H as <- <- <-. exists (emit_if s2 es'). split; [done|].
      assert (cs = ds ++ [i]) as -> by (destruct Hcs as (_ & _ & <-), Hc3 as (_ & _ & E); exact E). exact Hs2.
    + rewrite note_trace_silent by apply Hs2. rewrite <- (note_trace_forget x3).
      eapply IH; [apply note_trace_control, Hc3 | rewrite length_app; cbn; lia | exact H | exact Hcs | exact Hn | exact Hs2].
Qed.

(** The report without the trace, which only the partial-order policy keeps. *)
Definition untraced (r : RunReport) : RunReport :=
  mkReport (rr_journal r) (rr_decisions r) [] (rr_registers r) (rr_steps r) (rr_outcome r) (rr_monitor_issues r)
    (rr_applied_faults r) (rr_origins r).

Lemma report_control ds o steps x r : control ds (x_scheduler x) -> report config iter o steps x = Ok r ->
  rr_decisions r = ds /\ rr_steps r = steps.
Proof.
  intros (Hs & _ & Hd) H. unfold report, check_trailing in H. rewrite Hs in H. cbn [andb] in H. destruct (x_error x); [done|].
  injection H as <-. done.
Qed.

Lemma report_replays strictly cs o steps x r s : control cs (x_scheduler x) -> replays strictly cs cs s ->
  report config iter o steps x = Ok r -> report config iter o steps (set_scheduler x s) = Ok (untraced r).
Proof.
  intros (Hs & _ & Hd) [[R1 R2 R3 R4 R5] R6 _] H. unfold report, check_trailing in *. rewrite Hs in H. cbn [andb] in H.
  cbn [x_scheduler set_scheduler x_error]. rewrite R3, R5, Nat.ltb_irrefl, andb_false_r. destruct (x_error x); [done|].
  injection H as <-. unfold untraced. cbn. rewrite R5, R6, Hd. done.
Qed.

Lemma run_replays_aux x r fuel ms strictly s : control [] (x_scheduler x) ->
  run blake3 keyed_blake3 ln base_unique config poll iter fuel ms x = Some (Ok r) -> rr_steps r = length (rr_decisions r) ->
  replays strictly (rr_decisions r) [] s ->
  run blake3 keyed_blake3 ln base_unique config poll iter fuel ms (set_scheduler x s) = Some (Ok (untraced r)).
Proof.
  intros Hc H Hn Hr. unfold run, run_to_end in *.
  assert (Hb : Blind (F := F) (journal_spawns blake3 base_unique)) by (unfold journal_spawns; blind; apply spawn_loop_blind).
  pose proof (blind_control _ [] x Hb Hc) as Hc1. destruct (Hb x) as [es Hes]. rewrite Hes.
  destruct (journal_spawns blake3 base_unique x) as [[u|e] x1]; [|done]. cbn [fst snd x_journal set_scheduler] in *.
  rewrite observe_scheduler. apply (replays_emit _ _ _ _ es) in Hr.
  destruct (if (journal_len (x_journal x1) =? 0)%nat then _ else _) as [[why|] ms'].
  - injection H as H. destruct (report_control _ _ _ _ _ Hc1 H) as [E1 E2]. rewrite E1 in *.
    rewrite (report_replays strictly [] _ _ _ r _ Hc1 Hr H). done.
  - destruct (run_loop _ _ _ _ _ _ _ _ _ x1) as [[[[o n] x2]|e]|] eqn:El; [|done|done]. injection H as H.
    destruct (run_loop_decisions _ _ _ _ _ _ _ _ Hc1 El) as (cs & Hcs & _). cbn [app] in Hcs.
    destruct (report_control _ _ _ _ _ Hcs H) as [E1 E2]. rewrite E1 in *.
    destruct (run_loop_replays strictly _ _ 0%nat _ [] cs (emit_if s es) _ _ _ Hc1 eq_refl El Hcs ltac:(congruence) Hr) as (s' & Hl & Hs').
    rewrite Hl. rewrite (report_replays strictly cs _ _ _ r _ Hcs Hs' H). done.
Qed.
End Executor.

(** Replay reproduces a run of any futures whose polls do not look at the scheduler: with the decisions of a finished run
    that polled a task at every decision, a replaying scheduler, strict or lenient and with any fallback, gives the same
    report, the trace apart. *)
Theorem futures_replay {F} blake3 keyed_blake3 ln journaling base_unique config (poll : nat -> F -> ExecutorShared F -> bool * F * ExecutorShared F)
    iter fuel ms p replay fb futures r :
  (forall task f, Blind (A := bool * F) (poll task f)) ->
  run blake3 keyed_blake3 ln base_unique config poll iter fuel ms (executor_with journaling config (with_fallback p replay fb) futures) = Some (Ok r) ->
  rr_steps r = length (rr_decisions r) -> forall strictly fb',
  run blake3 keyed_blake3 ln base_unique config poll iter fuel ms
    (executor_with journaling config (scheduler_with Replay (rr_decisions r) fb' strictly) futures) = Some (Ok (untraced r)).
Proof.
  intros Hb H Hn strictly fb'. apply (run_replays_aux _ _ _ _ _ _ _ Hb _ r fuel ms strictly (scheduler_with Replay (rr_decisions r) fb' strictly)) in H;
    [exact H | done | exact Hn | done].
Qed.
