(* ===== verification/ExecutorTasks.v ===== *)
(** * The executor: tasks

    - Under instruction programs the ready list holds exactly the tasks that are neither finished nor parked, and the
      timers belong to the sleeping tasks; so every decision polls a task and counts a step.
    - A run of programs can be replayed.
    - What a run that ends [Blocked] means, and that it can end so with a timer pending. *)

From stdpp Require Import gmap.
From Stdlib Require Import SpecFloat.
From S2P Require Import Prelude Machine Cbor Limits Value Path Hex Frame Entry OrdMap Order Clock Dag.
From S2P Require Import Causal Monitor KeyMap VirtualTime Net Scheduler SimFs Backend OSet Verdict Hitting Ldfi OnlineMonitor Config Executor.
From S2P Require Import ExecutorProofs.

Open Scope Z_scope.
Open Scope exec_scope.

(** ** What effects leave alone *)

Definition Keeps {F A B} (f : ExecutorShared F -> B) (m : M F A) : Prop := forall x, f (m x).2 = f x.

Lemma keeps_bind {F A B C} (f : ExecutorShared F -> C) (m : M F A) (k : A -> M F B) : Keeps f m -> (forall a, Keeps f (k a)) -> Keeps f (bind m k).
Proof. intros Hm Hk x. unfold bind. pose proof (Hm x) as H. destruct (m x) as [a x1]. cbn [snd] in H. rewrite <- H. apply Hk. Qed.

(** The tasks, the ready list and the clock with its timers. *)
Definition control_of {F} (x : ExecutorShared F) : list (TaskEntry F) * list nat * VirtualTime := (x_tasks x, x_ready x, x_time x).

(** An effect that only journals, sends, draws or writes. *)
Abbreviation Quiet m := (Keeps control_of m).

Create HintDb quiet.

Ltac quiet_step :=
  lazymatch goal with
  | |- Keeps _ (bind _ _) => apply keeps_bind; [|intros ?]
  | |- Keeps _ (gets _) => intros ?; reflexivity
  | |- Keeps _ (modify _) => intros ?; first [reflexivity | unfold modify; cbn; case_match; reflexivity]
  | |- Keeps _ (ret _) => intros ?; reflexivity
  | |- Keeps _ (when _ _) => unfold when
  | |- Keeps _ (if ?b then _ else _) => destruct b
  | |- Keeps _ (match ?r with _ => _ end) => destruct r
  | |- _ => solve [auto with quiet]
  end.
Ltac quiet := repeat quiet_step.

Section Quiet.
Context {F : Type}.
Variables (blake3 keyed_blake3 : list byte -> list byte).
Variables (journaling base_unique : bool) (config : RunConfig).

Lemma notify_quiet actor k task id : Quiet (notify_entry (F := F) blake3 actor k task id).
Proof. intros x. unfold notify_entry, modify. cbn [snd]. destruct (novelty_active _); done. Qed.

Lemma journal_append_quiet actor k ps p : Quiet (journal_append (F := F) blake3 base_unique actor k ps p).
Proof. intros x. unfold journal_append. destruct (append _ _ _ _ _ _ _) as [[id j]|e]; done. Qed.

Lemma journal_append_batch_quiet batch : Quiet (journal_append_batch (F := F) blake3 base_unique batch).
Proof.
  intros x. unfold journal_append_batch. destruct (append_batch _ _ _ _) as [[[ids|e] fr] j]; [|done]. cbn [snd].
  change (control_of x) with (control_of (set_journal x j)). generalize (set_journal x j). clear.
  induction (map b_actor batch) as [|a l IH]; intros x; [done|]. cbn [foldl]. rewrite IH. done.
Qed.

Lemma record_error_quiet e : Quiet (record_journal_error (F := F) e).
Proof. intros x. unfold record_journal_error, modify. cbn [snd]. destruct (x_error x); done. Qed.
Hint Resolve notify_quiet journal_append_quiet journal_append_batch_quiet record_error_quiet : quiet.

Lemma recv_at_effective_quiet task now : Quiet (recv_at_effective (F := F) keyed_blake3 config task now).
Proof.
  intros x. unfold recv_at_effective. destruct (negb _).
  - destruct (recv_at _ _ _) as [[m n]|]; done.
  - destruct (recv_at_drawn _ _ _ _ _) as [[[m n]|] o]; done.
Qed.
Hint Resolve recv_at_effective_quiet : quiet.

Lemma b_append_quiet task k ps p : Quiet (b_append (F := F) blake3 base_unique task k ps p).
Proof. unfold b_append. quiet. Qed.
Hint Resolve b_append_quiet : quiet.

Lemma append_recorded_quiet task k ps p : Quiet (append_recorded (F := F) blake3 base_unique task k ps p).
Proof. unfold append_recorded. quiet. Qed.
Hint Resolve append_recorded_quiet : quiet.

Lemma sent_quiet (x : ExecutorShared F) r : control_of (sent x r).2 = control_of x.
Proof. destruct r as [[]|[]]; done. Qed.

Lemma transmit_once_quiet task to c m id now delay : Quiet (transmit_once (F := F) keyed_blake3 task to c m id now delay).
Proof.
  intros x. unfold transmit_once, send_via_link_checked. destruct (_ !! _); [|apply sent_quiet].
  destruct (try_send_via_link _ _ _ _ _ _) as [r o]. rewrite sent_quiet. done.
Qed.
Hint Resolve transmit_once_quiet : quiet.

Lemma net_word_quiet : Quiet (net_word (F := F) keyed_blake3).
Proof. done. Qed.
Lemma fs_word_quiet : Quiet (fs_word (F := F) keyed_blake3).
Proof. done. Qed.
Lemma mark_fault_quiet id : Quiet (mark_fault_applied (F := F) id).
Proof. intros x. unfold mark_fault_applied, modify. cbn [snd]. destruct (bool_decide _); done. Qed.
Hint Resolve net_word_quiet fs_word_quiet mark_fault_quiet : quiet.

Lemma send_bytes_inner_quiet task to c delay at_ : Quiet (send_bytes_inner (F := F) blake3 keyed_blake3 base_unique config task to c delay at_).
Proof.
  assert (Hl : forall id to m, Quiet (journal_net_loss (F := F) blake3 base_unique task id to m)) by (intros; unfold journal_net_loss; quiet).
  assert (Hs : forall id to m o, Quiet (settle (F := F) blake3 base_unique task id to m o)).
  { intros. unfold settle, journal_queue_full. quiet. }
  assert (Hw : forall id m, Quiet (swarm_send_policy (F := F) blake3 keyed_blake3 base_unique config task id m)).
  { intros. unfold swarm_send_policy, swarm_drops, swarm_delays, net_draw, net_draw_delay. quiet. }
  assert (Hi : forall id m, Quiet (inject_send_fault (F := F) blake3 base_unique config task id m)) by (intros; unfold inject_send_fault; quiet).
  unfold send_bytes_inner, dispatch_send, finish_send. quiet.
Qed.
Hint Resolve send_bytes_inner_quiet : quiet.

Lemma note_write_quiet {A} task (call : ExecutorShared F -> result RunError (A * SimFs * JournalState)) :
  Quiet (fun x => note_write task (call x) x).
Proof. intros x. unfold note_write. destruct (call x) as [[[a f] j]|e]; done. Qed.

Lemma fs_write_quiet task path v : Quiet (fs_write (F := F) blake3 keyed_blake3 journaling base_unique config task path v).
Proof.
  assert (Hc : forall op, Quiet (crash_operation (F := F) op)).
  { intros op x. unfold crash_operation. destruct (apply_crash_operation _ _); done. }
  assert (He : forall op, Quiet (crash_entry (F := F) blake3 base_unique task op)) by (intros; unfold crash_entry; quiet).
  assert (Hk : forall op, Quiet (claim_class (F := F) config op)).
  { intros op x. unfold claim_class. destruct (_ <=? _); done. }
  unfold fs_write. apply keeps_bind; [apply note_write_quiet | intros ?].
  unfold inject_write_fault, maybe_crash_on_write, fs_crash, lift_fs, fs_draw. quiet.
Qed.

Lemma fs_fsync_quiet task : Quiet (fs_fsync (F := F) blake3 journaling base_unique task).
Proof. unfold fs_fsync. apply keeps_bind; [apply note_write_quiet | intros ?]. quiet. Qed.
Lemma fs_read_quiet task path : Quiet (fs_read (F := F) blake3 base_unique task path).
Proof. unfold fs_read. apply keeps_bind; [apply note_write_quiet | intros ?]. quiet. Qed.
Lemma crash_impl_quiet task : Quiet (crash_impl (F := F) blake3 journaling base_unique config task).
Proof. unfold crash_impl, fs_crash, lift_fs. quiet. Qed.
Lemma journal_recv_quiet task m : Quiet (journal_recv (F := F) blake3 base_unique task m).
Proof.
  unfold journal_recv. quiet. intros x. unfold modify. cbn [snd].
  repeat match goal with |- context [match ?o with Some _ => _ | None => _ end] => destruct o end; done.
Qed.
Hint Resolve journal_recv_quiet : quiet.
Lemma recv_now_quiet task : Quiet (recv_now (F := F) blake3 keyed_blake3 base_unique config task).
Proof. unfold recv_now. quiet. Qed.
End Quiet.

#[export] Hint Resolve notify_quiet journal_append_quiet journal_append_batch_quiet record_error_quiet b_append_quiet append_recorded_quiet
  send_bytes_inner_quiet fs_write_quiet fs_fsync_quiet fs_read_quiet crash_impl_quiet recv_now_quiet : quiet.

(** ** Lists *)

Lemma swap_remove_perm l i t : l !! i = Some t -> l ≡ₚ t :: swap_remove l i.
Proof.
  intros H. unfold swap_remove. destruct (list.last l) as [z|] eqn:El; [|destruct l as [|a l]; [done|]; apply last_None in El; done].
  apply last_Some in El as [l' ->]. rewrite length_app. cbn [length]. replace (length l' + 1 - 1)%nat with (length l') by lia.
  destruct (decide (i < length l')%nat) as [Hi|Hi].
  - rewrite insert_app_l, take_app_length' by (rewrite ?length_insert; lia).
    rewrite lookup_app_l in H by done. rewrite (Permutation_app_comm l' [z]). cbn [app].
    rewrite <- (take_drop_middle l' i t H) at 1. rewrite (insert_take_drop l' i z Hi).
    rewrite !Permutation_middle. cbn. apply Permutation_app_head. constructor.
  - rewrite lookup_app_r in H by lia. assert (i - length l' = 0)%nat as E by (apply lookup_lt_Some in H; cbn in H; lia).
    rewrite E in H. injection H as ->. rewrite insert_app_r_alt by lia. rewrite take_app_length' by done. rewrite Permutation_app_comm. done.
Qed.

Lemma fire_while_split due fuel : forall l, exists out, (fire_while due fuel l).1 = map (fun t => mkFired (task t) (enabler t)) out
  /\ l ≡ₚ out ++ (fire_while due fuel l).2.
Proof.
  induction fuel as [|fuel IH]; intros l; [exists []; done|]. cbn [fire_while]. destruct (heap_pop l) as [[t rest]|] eqn:E; [|exists []; done].
  destruct (due t); [|exists []; done]. destruct (IH rest) as (out & E1 & E2). destruct (fire_while due fuel rest) as [fired rest']. cbn in *.
  exists (t :: out). subst fired. split; [done|]. rewrite (heap_pop_perm l t rest E), E2. done.
Qed.

Lemma batch_ids blake3 batch : forall st ids frames, match (batch_loop blake3 st ids frames batch).1.1 with
  | Ok r => length r = (length ids + length batch)%nat | Err _ => True end.
Proof.
  induction batch as [|spec batch IH]; intros st ids frames; cbn [batch_loop]; [cbn; lia|].
  destruct (batch_step _ _ _ _) as [[[id frame] st']|e]; [|done]. specialize (IH st' (ids ++ [id]) (frames ++ [frame])).
  destruct (batch_loop _ _ _ _ _) as [[[r|e] fr] st2]; [|done]. cbn in *. rewrite IH, length_app. cbn. lia.
Qed.

Lemma append_batch_ids blake3 bu st batch ids fr st' : append_batch blake3 bu st batch = (Ok ids, fr, st') -> length ids = length batch.
Proof.
  unfold append_batch. destruct batch as [|b batch]; [intros [= <- _ _]; done|]. pose proof (batch_ids blake3 (b :: batch) st [] []) as H.
  destruct (batch_loop _ _ _ _ _) as [[[r|e] fr0] st0]; [|done]. intros [= <- _ _]. exact H.
Qed.

(** ** The task invariant *)

Section Tasks.
Context {F : Type}.
Implicit Types (x : ExecutorShared F) (e : TaskEntry F).

(** Neither finished nor parked. *)
Definition can_run x (t : nat) : Prop := exists e, x_tasks x !! t = Some e /\ te_done e = false /\ te_blocked e = None.
Definition parked_on x (b : BlockedOn) (t : nat) : Prop := exists e, x_tasks x !! t = Some e /\ te_done e = false /\ te_blocked e = Some b.

(** The ready list and the running task are the tasks that can run; the timers, and the fired timers still to be handled,
    are those of the sleeping tasks. *)
Record tasks_ok (running : list nat) (waking : list Z) x : Prop := {
  ok_distinct : NoDup (running ++ x_ready x);
  ok_ready : forall t, t ∈ running ++ x_ready x <-> can_run x t;
  ok_future : forall t e, x_tasks x !! t = Some e -> is_Some (te_future e);
  ok_parked : forall t e, x_tasks x !! t = Some e -> te_blocked e <> None -> te_done e = false;
  ok_timers : NoDup (waking ++ map task (timers (x_time x)));
  ok_sleeping : forall z, z ∈ waking ++ map task (timers (x_time x)) <-> exists t, z = Z.of_nat t /\ parked_on x OnTimer t }.

Lemma tasks_ok_ext running waking x y : control_of x = control_of y -> tasks_ok running waking x -> tasks_ok running waking y.
Proof. intros E. unfold control_of in E. injection E as E1 E2 E3. intros []. split; unfold can_run, parked_on in *; rewrite <- ?E1, <- ?E2, <- ?E3; done. Qed.

(** One task changed, the others as they were. *)
Lemma lookup_alter_task (f : TaskEntry F -> TaskEntry F) t (l : list (TaskEntry F)) u :
  alter f t l !! u = if decide (u = t) then f <$> (l !! u) else l !! u.
Proof. destruct (decide (u = t)) as [->|H]; [apply list_lookup_alter_eq | apply list_lookup_alter_ne; done]. Qed.

Definition wakes (f : TaskEntry F -> TaskEntry F) : Prop :=
  forall e, te_done (f e) = te_done e /\ te_blocked (f e) = None /\ te_future (f e) = te_future e.

(** Waking a parked task; a sleeping one is among the fired timers. *)
Lemma tasks_ok_wake running waking x t b f : wakes f -> parked_on x b t ->
  tasks_ok running (match b with OnTimer => Z.of_nat t :: waking | OnMessage => waking end) x ->
  tasks_ok running waking (set_ready (set_tasks x (alter f t (x_tasks x))) (x_ready x ++ [t])).
Proof.
  intros Hf (e & He & Hdone & Hb) [H1 H2 H3 H4 H5 H6]. destruct (Hf e) as (F1 & F2 & F3).
  assert (Hnot : t ∉ running ++ x_ready x) by (rewrite H2; intros (e' & He' & _ & Hb'); congruence).
  split; unfold can_run, parked_on; cbn [x_ready x_tasks x_time set_ready set_tasks].
  - rewrite app_assoc. apply list.NoDup_app. split; [done|]. split; [|apply list.NoDup_singleton]. intros u Hu ->%list_elem_of_singleton. done.
  - intros u. rewrite app_assoc, elem_of_app, list_elem_of_singleton, H2, lookup_alter_task. unfold can_run. destruct (decide (u = t)) as [->|Hne].
    + split; [|auto]. intros _. rewrite He. exists (f e). rewrite F1, F2. done.
    + split; [intros [?|?]; done | auto].
  - intros u e'. rewrite lookup_alter_task. destruct (decide (u = t)) as [->|Hne]; [|apply H3]. rewrite He. intros [= <-]. rewrite F3. eapply H3, He.
  - intros u e'. rewrite lookup_alter_task. destruct (decide (u = t)) as [->|Hne]; [|apply H4]. rewrite He. intros [= <-]. congruence.
  - destruct b; [|done]. cbn [app] in H5. apply list.NoDup_cons in H5 as [_ H5]. done.
  - intros z. assert (Hs : (exists u, z = Z.of_nat u /\ exists e', alter f t (x_tasks x) !! u = Some e' /\ te_done e' = false /\ te_blocked e' = Some OnTimer) <->
      z <> Z.of_nat t /\ exists u, z = Z.of_nat u /\ parked_on x OnTimer u).
    { split.
      - intros (u & -> & e' & He' & Hd' & Hb'). rewrite lookup_alter_task in He'. destruct (decide (u = t)) as [->|Hne].
        + rewrite He in He'. injection He' as <-. congruence.
        + split; [lia|]. exists u. split; [done|]. exists e'. done.
      - intros (Hz & u & -> & e' & He' & Hp). exists u. split; [done|]. exists e'. rewrite lookup_alter_task, decide_False by congruence. done. }
    rewrite Hs, <- H6. destruct b; cbn [app] in *.
    + rewrite elem_of_cons. apply list.NoDup_cons in H5 as [H5 _]. split; [|tauto]. intros Hz. split; [|auto]. intros ->. done.
    + split; [|tauto]. intros Hz. split; [|done]. intros ->. apply H6 in Hz as (u & Eu & e' & He' & _ & Hb'). assert (u = t) as -> by lia. congruence.
Qed.

(** The running task ends its step: finished, ready again, waiting, or asleep. *)
Inductive poll_end (t : nat) x : ExecutorShared F -> Prop :=
| se_done f : (forall e, te_done (f e) = true /\ te_blocked (f e) = te_blocked e /\ is_Some (te_future (f e))) ->
    poll_end t x (set_tasks x (alter f t (x_tasks x)))
| se_ready f : (forall e, te_done (f e) = te_done e /\ te_blocked (f e) = te_blocked e /\ is_Some (te_future (f e))) ->
    poll_end t x (set_ready (set_tasks x (alter f t (x_tasks x))) (x_ready x ++ [t]))
| se_wait f : (forall e, te_done (f e) = te_done e /\ te_blocked (f e) = Some OnMessage /\ is_Some (te_future (f e))) ->
    poll_end t x (set_tasks x (alter f t (x_tasks x)))
| se_sleep f ticks en : (forall e, te_done (f e) = te_done e /\ te_blocked (f e) = Some OnTimer /\ is_Some (te_future (f e))) ->
    poll_end t x (set_time (set_tasks x (alter f t (x_tasks x))) (set_with_enabler (x_time x) ticks (Z.of_nat t) en)).

(** The running task altered: who can run and who sleeps afterwards. *)
Lemma running_altered x t f e : x_tasks x !! t = Some e -> te_done e = false -> te_blocked e = None -> tasks_ok [t] [] x ->
  (forall u, can_run (set_tasks x (alter f t (x_tasks x))) u <-> u ∈ x_ready x \/ u = t /\ te_done (f e) = false /\ te_blocked (f e) = None) /\
  (forall b u, parked_on (set_tasks x (alter f t (x_tasks x))) b u <->
     parked_on x b u \/ u = t /\ te_done (f e) = false /\ te_blocked (f e) = Some b) /\
  (is_Some (te_future (f e)) -> forall u e', alter f t (x_tasks x) !! u = Some e' -> is_Some (te_future e')) /\
  ((te_blocked (f e) <> None -> te_done (f e) = false) -> forall u e', alter f t (x_tasks x) !! u = Some e' -> te_blocked e' <> None -> te_done e' = false).
Proof.
  intros He Hd Hb [H1 H2 H3 H4 _ _]. cbn [app] in *. apply list.NoDup_cons in H1 as [Hnot _].
  assert (Hl : forall u, alter f t (x_tasks x) !! u = if decide (u = t) then Some (f e) else x_tasks x !! u).
  { intros u. rewrite lookup_alter_task. destruct (decide (u = t)) as [->|]; [rewrite He|]; done. }
  split_and!.
  - intros u. unfold can_run. cbn [x_tasks set_tasks]. setoid_rewrite Hl. destruct (decide (u = t)) as [->|Hne].
    + split; [intros (e' & [= <-] & ? & ?); auto | intros [Hu|(_ & ? & ?)]; [done | exists (f e); done]].
    + rewrite <- (H2 u : u ∈ t :: x_ready x <-> exists e, _), elem_of_cons. split; [intros [->|?]; auto; done | intros [?|[? _]]; auto; done].
  - intros b u. unfold parked_on. cbn [x_tasks set_tasks]. setoid_rewrite Hl. destruct (decide (u = t)) as [->|Hne].
    + split; [intros (e' & [= <-] & ? & ?); auto | intros [(e' & He' & _ & Hb')|(_ & ? & ?)]; [congruence | exists (f e); done]].
    + split; [auto | intros [?|[? _]]; done].
  - intros Hf u e'. rewrite Hl. destruct (decide (u = t)); [intros [= <-]; done | apply H3].
  - intros Hf u e'. rewrite Hl. destruct (decide (u = t)); [intros [= <-]; done | apply H4].
Qed.

Lemma poll_end_ok t x y : tasks_ok [t] [] x -> poll_end t x y -> tasks_ok [] [] y.
Proof.
  intros Hok Hs. pose proof (proj1 (ok_ready _ _ _ Hok t) ltac:(left)) as (e & He & Hd & Hb).
  pose proof (ok_distinct _ _ _ Hok) as Hn. cbn [app] in Hn. apply list.NoDup_cons in Hn as [Hnot Hnd].
  pose proof (ok_timers _ _ _ Hok) as Ht. pose proof (ok_sleeping _ _ _ Hok) as Hsl. cbn [app] in Ht, Hsl.
  assert (Hout : ~ parked_on x OnTimer t) by (intros (e' & He' & _ & Hb'); congruence).
  assert (Hnt : Z.of_nat t ∉ map task (timers (x_time x))).
  { rewrite Hsl. intros (u & E & Hu). assert (u = t) as -> by lia. done. }
  destruct Hs as [f Hf|f Hf|f Hf|f ticks en Hf]; destruct (Hf e) as (F1 & F2 & F3); rewrite ?Hd, ?Hb in F1, F2;
    destruct (running_altered x t f e He Hd Hb Hok) as (R1 & R2 & R3 & R4).
  - split; cbn [app x_ready x_tasks x_time set_tasks]; [done | intros u; rewrite R1, F1; naive_solver | apply R3, F3
      | apply R4; congruence | done | intros z; rewrite Hsl; setoid_rewrite R2; rewrite F1; naive_solver].
  - assert (R1' : forall u, can_run (set_ready (set_tasks x (alter f t (x_tasks x))) (x_ready x ++ [t])) u <-> u ∈ x_ready x \/ u = t).
    { intros u. etransitivity; [apply R1|]. rewrite F1, F2. naive_solver. }
    split; cbn [app x_ready x_tasks x_time set_tasks set_ready].
    + apply list.NoDup_app. split; [done|]. split; [|apply list.NoDup_singleton]. intros u Hu ->%list_elem_of_singleton. done.
    + intros u. rewrite R1', elem_of_app, list_elem_of_singleton. done.
    + apply R3, F3.
    + apply R4. congruence.
    + done.
    + intros z. rewrite Hsl. split; intros (u & -> & Hu); exists u; (split; [done|]); [apply R2; auto | apply R2 in Hu as [?|(_ & _ & ?)]; [done | congruence]].
  - split; cbn [app x_ready x_tasks x_time set_tasks]; [done | intros u; rewrite R1, F2; naive_solver | apply R3, F3
      | apply R4; congruence | done | intros z; rewrite Hsl; setoid_rewrite R2; rewrite F2; naive_solver].
  - assert (R2' : forall u, parked_on (set_time (set_tasks x (alter f t (x_tasks x))) (set_with_enabler (x_time x) ticks (Z.of_nat t) en)) OnTimer u
      <-> parked_on x OnTimer u \/ u = t) by (intros u; etransitivity; [apply R2|]; rewrite F1, F2; naive_solver).
    split; cbn [app x_ready x_tasks x_time set_tasks set_time set_with_enabler timers map task].
    + done.
    + intros u. etransitivity; [|symmetry; apply R1]. rewrite F2. naive_solver.
    + apply R3, F3.
    + apply R4. congruence.
    + apply list.NoDup_cons. done.
    + intros z. rewrite elem_of_cons, Hsl. setoid_rewrite R2'. naive_solver.
Qed.
End Tasks.

(** ** What a poll of a program does to its task *)

Section Programs.
Variables (blake3 keyed_blake3 : list byte -> list byte) (ln : spec_float -> spec_float).
Variables (journaling base_unique : bool) (config : RunConfig) (iter : gmap Z Z -> list (Z * Z)).
Implicit Types (x : ExecutorShared Program) (e : TaskEntry Program).

Definition plain (g : TaskEntry Program -> TaskEntry Program) : Prop := forall e, te_done (g e) = te_done e /\ te_blocked (g e) = te_blocked e.

(** Only fields of the task itself other than its state change. *)
Definition Plain {A} (t : nat) (m : M Program A) : Prop := forall x, exists g, plain g /\ control_of (m x).2 = (alter g t (x_tasks x), x_ready x, x_time x).

Lemma alter_id (l : list (TaskEntry Program)) t : alter (fun e => e) t l = l.
Proof. apply list_alter_id. done. Qed.

Lemma quiet_plain {A} t (m : M Program A) : Quiet m -> Plain t m.
Proof. intros H x. exists (fun e => e). split; [done|]. rewrite H, alter_id. done. Qed.

Lemma plain_bind {A B} t (m : M Program A) (k : A -> M Program B) : Plain t m -> (forall a, Plain t (k a)) -> Plain t (bind m k).
Proof.
  intros Hm Hk x. destruct (Hm x) as (g & Hg & E). unfold bind. destruct (m x) as [a x1]. cbn [snd] in E. destruct (Hk a x1) as (g' & Hg' & E').
  unfold control_of in E. injection E as E1 E2 E3. rewrite E1, E2, E3, list_alter_alter_eq in E'. exists (g' ∘ g). split; [|exact E'].
  intros e. cbn. destruct (Hg' (g e)) as [-> ->]. apply Hg.
Qed.

Lemma set_register_plain t v : Plain t (set_register (F := Program) t v).
Proof. intros x. eexists. split; [|reflexivity]. done. Qed.

Ltac plain_step :=
  lazymatch goal with
  | |- Plain _ (bind _ _) => apply plain_bind; [|intros ?]
  | |- Plain _ (set_register _ _) => apply set_register_plain
  | |- Plain _ (if ?b then _ else _) => destruct b
  | |- Plain _ (match ?r with _ => _ end) => destruct r
  | |- Plain _ _ => apply quiet_plain; quiet
  end.
Ltac plain := repeat plain_step.

Definition sleeps (i : Instruction) : bool := match i with ISleep _ => true | _ => false end.

Lemma execute_plain t i : sleeps i = false -> Plain t (execute blake3 keyed_blake3 journaling base_unique config t i).
Proof.
  destruct i; intros H; try done; unfold execute, recorded, yield_block, input_step, read_clock, assert_entry, outcome_done, outcome, register, b_send,
    send_timed, send_core; plain.
Qed.

Inductive poll_effect (t : nat) (ready : bool) x (x' : ExecutorShared Program) : Prop :=
| pe_plain g : plain g -> control_of x' = (alter g t (x_tasks x), x_ready x, x_time x) -> poll_effect t ready x x'
| pe_wait g : ready = false -> (forall e, te_done (g e) = te_done e /\ te_blocked (g e) = Some OnMessage) ->
    control_of x' = (alter g t (x_tasks x), x_ready x, x_time x) -> poll_effect t ready x x'
| pe_sleep g ticks en : ready = false -> (forall e, te_done (g e) = te_done e /\ te_blocked (g e) = Some OnTimer) ->
    control_of x' = (alter g t (x_tasks x), x_ready x, set_with_enabler (x_time x) ticks (Z.of_nat t) en) -> poll_effect t ready x x'.

Lemma park_sleep_effect t ticks x : match park_sleep blake3 base_unique t ticks x with
  | (Ok _, x') => exists en, control_of x' = (alter (fun e => set_blocked (Some OnTimer) (set_timer_fired false e)) t (x_tasks x), x_ready x,
                     set_with_enabler (x_time x) ticks (Z.of_nat t) (Some en))
  | (Err _, x') => control_of x' = control_of x
  end.
Proof.
  unfold park_sleep, bind. pose proof (b_append_quiet (F := Program) blake3 base_unique t KTimerSet [] (PTimerSet 0 ticks) x) as Hq.
  destruct (b_append _ _ _ _ _ _ x) as [[id|e] x1]; cbn [snd] in Hq; [|exact Hq]. unfold control_of in Hq. injection Hq as E1 E2 E3.
  exists id. unfold control_of. cbn. rewrite E1, E2, E3. done.
Qed.

Lemma park_message_effect t x : match park_message blake3 base_unique t x with
  | (Ok _, x') => control_of x' = (alter (set_blocked (Some OnMessage)) t (x_tasks x), x_ready x, x_time x)
  | (Err _, x') => control_of x' = control_of x
  end.
Proof.
  unfold park_message, bind. pose proof (b_append_quiet (F := Program) blake3 base_unique t KBlock [] (PBlock Yield) x) as Hq.
  destruct (b_append _ _ _ _ _ _ x) as [[id|e] x1]; cbn [snd] in Hq; [|exact Hq]. unfold control_of in Hq. injection Hq as E1 E2 E3.
  unfold control_of. cbn. rewrite E1, E2, E3. done.
Qed.

(** One instruction: parked on a timer or a message, or only the register changed. *)
Lemma execute_one_effect t p x : exists r rest x', execute_one blake3 keyed_blake3 journaling base_unique config t p x = (r, rest, x') /\
  forall ready, (r = Ok StepParked -> ready = false) -> poll_effect t ready x x'.
Proof.
  assert (Hid : forall r x1, control_of x1 = control_of x -> poll_effect t r x x1).
  { intros r x1 E. apply pe_plain with (fun e => e); [done|]. rewrite alter_id, E. done. }
  destruct p as [|i rest]; [eexists _, _, _; split; [reflexivity|]; intros; apply Hid; done|].
  destruct (decide (i = IReceive)) as [->|Hne].
  - cbn [execute_one]. unfold bind. pose proof (recv_now_quiet (F := Program) blake3 keyed_blake3 base_unique config t x) as Hq.
    destruct (recv_now _ _ _ _ _ x) as [[v|] x1]; cbn [snd] in Hq.
    + eexists _, _, _. split; [reflexivity|]. intros ready _. destruct (set_register_plain t v x1) as (g & Hg & E). apply pe_plain with g; [done|].
      unfold control_of in Hq. injection Hq as E1 E2 E3. rewrite <- E1, <- E2, <- E3. exact E.
    + pose proof (park_message_effect t x1) as Hp. destruct (park_message _ _ _ x1) as [[u|e] x2]; eexists _, _, _; (split; [reflexivity|]).
      * intros ready ->; [|done]. apply pe_wait with (set_blocked (Some OnMessage)); [done | done |].
        unfold control_of in Hq. injection Hq as E1 E2 E3. rewrite <- E1, <- E2, <- E3. exact Hp.
      * intros ready _. apply Hid. rewrite Hp. exact Hq.
  - assert (E : execute_one blake3 keyed_blake3 journaling base_unique config t (i :: rest) =
      (let* r := execute blake3 keyed_blake3 journaling base_unique config t i in ret (r, rest))) by (destruct i; done).
    rewrite E. unfold bind. destruct (sleeps i) eqn:Es.
    + destruct i; try done. cbn [execute]. unfold bind. pose proof (park_sleep_effect t ticks x) as Hp.
      destruct (park_sleep _ _ _ _ x) as [[u|e] x1]; eexists _, _, _; (split; [reflexivity|]).
      * intros ready ->; [|done]. destruct Hp as [en Hp]. eapply pe_sleep; [done | | exact Hp]. done.
      * intros ready _. apply Hid, Hp.
    + destruct (execute_plain t i Es x) as (g & Hg & Hc). destruct (execute _ _ _ _ _ _ _ x) as [r0 x1].
      eexists _, _, _. split; [reflexivity|]. intros ready _. apply pe_plain with g; done.
Qed.

Lemma program_poll_effect t p x : exists ready rest x', program_poll blake3 keyed_blake3 journaling base_unique config t p x = (ready, rest, x')
  /\ poll_effect t ready x x'.
Proof.
  unfold program_poll. destruct (execute_one_effect t p x) as (r & rest & x1 & E & H). rewrite E.
  destruct r as [[]|e]; eexists _, _, _; (split; [reflexivity|]); [apply H; done..|].
  assert (Hq : control_of (record_journal_error (F := Program) e x1).2 = control_of x1) by apply record_error_quiet.
  destruct (H true ltac:(done)) as [g Hg Hc|g Hf|g tk en Hf]; [|done|done]. apply pe_plain with g; [done | congruence].
Qed.

(** A polled task ends its step. *)
Lemma poll_task_end t x : can_run x t -> (forall e, x_tasks x !! t = Some e -> is_Some (te_future e)) ->
  exists y x', poll_task (program_poll blake3 keyed_blake3 journaling base_unique config) t x = (true, x') /\ poll_end t x y /\ control_of x' = control_of y.
Proof.
  intros (e & He & Hd & Hb) Hf. destruct (Hf e He) as [p Hp]. unfold poll_task, runnable. rewrite He, Hd, Hb. cbn [orb]. rewrite Hp.
  set (x0 := (update_task t (set_future None) x).2). destruct (program_poll_effect t p x0) as (ready & rest & x1 & -> & He1).
  assert (T0 : x_tasks x0 = alter (set_future None) t (x_tasks x)) by done. assert (R0 : x_ready x0 = x_ready x) by done.
  assert (C0 : x_time x0 = x_time x) by done. clearbody x0.
  assert (Hgo : forall g tm, control_of x1 = (alter g t (x_tasks x0), x_ready x0, tm) ->
    x_tasks x1 = alter (g ∘ set_future None) t (x_tasks x) /\ x_ready x1 = x_ready x /\ x_time x1 = tm).
  { intros g tm E. unfold control_of in E. injection E as -> -> ->. rewrite T0, R0, list_alter_alter_eq. done. }
  assert (Hlook : forall g, x_tasks x1 = alter (g ∘ set_future None) t (x_tasks x) ->
    x_tasks (update_task t (set_future (Some rest)) x1).2 !! t = Some (set_future (Some rest) (g (set_future None e)))).
  { intros g E. cbn. rewrite E, list_alter_alter_eq, list_lookup_alter_eq, He. done. }
  destruct He1 as [g Hg E|g -> Hg E|g ticks en -> Hg E]; rewrite ?C0 in E; apply Hgo in E as (E1 & E2 & E3); pose proof (Hlook g E1) as L.
  - destruct ready.
    + eexists _, _. split; [reflexivity|]. split; [apply (se_done t x (set_done ∘ set_future (Some rest) ∘ g ∘ set_future None))|].
      * intros e'. destruct (Hg (set_future None e')) as [_ G]. cbn. rewrite G. done.
      * unfold control_of. cbn. rewrite E1, E2, E3, !list_alter_alter_eq. done.
    + rewrite L. cbn [te_done te_blocked set_future]. destruct (Hg (set_future None e)) as [-> ->]. cbn [te_done te_blocked set_future]. rewrite Hd, Hb.
      eexists _, _. split; [reflexivity|]. split; [apply (se_ready t x (set_future (Some rest) ∘ g ∘ set_future None))|].
      * intros e'. destruct (Hg (set_future None e')) as [G1 G2]. cbn. rewrite G1, G2. done.
      * unfold control_of. cbn. rewrite E1, E2, E3, !list_alter_alter_eq. done.
  - rewrite L. cbn [te_done te_blocked set_future]. destruct (Hg (set_future None e)) as [-> ->]. rewrite andb_false_r.
    eexists _, _. split; [reflexivity|]. split; [apply (se_wait t x (set_future (Some rest) ∘ g ∘ set_future None))|].
    + intros e'. destruct (Hg (set_future None e')) as [G1 G2]. cbn. rewrite G1, G2. done.
    + unfold control_of. cbn. rewrite E1, E2, E3, !list_alter_alter_eq. done.
  - rewrite L. cbn [te_done te_blocked set_future]. destruct (Hg (set_future None e)) as [-> ->]. rewrite andb_false_r.
    eexists _, _. split; [reflexivity|]. split; [eapply (se_sleep t x (set_future (Some rest) ∘ g ∘ set_future None))|].
    + intros e'. destruct (Hg (set_future None e')) as [G1 G2]. cbn. rewrite G1, G2. done.
    + unfold control_of. cbn. rewrite E1, E2, E3, !list_alter_alter_eq. done.
Qed.

(** Popping a ready task makes it the running one. *)
Lemma tasks_ok_pop x i t : x_ready x !! i = Some t -> tasks_ok [] [] x -> tasks_ok [t] [] (set_ready x (swap_remove (x_ready x) i)).
Proof.
  intros Hi [H1 H2 H3 H4 H5 H6]. pose proof (swap_remove_perm _ _ _ Hi) as Hp. split; try done; cbn [x_ready set_ready app] in *.
  - rewrite <- Hp. done.
  - intros u. rewrite <- Hp. apply H2.
Qed.

Lemma poll_task_ok t x : tasks_ok [t] [] x -> exists x', poll_task (program_poll blake3 keyed_blake3 journaling base_unique config) t x = (true, x')
  /\ tasks_ok [] [] x'.
Proof.
  intros Hok. destruct (poll_task_end t x) as (y & x' & E & Hy & Hc); [apply Hok; left | apply Hok |].
  exists x'. split; [done|]. eapply tasks_ok_ext; [symmetry; exact Hc|]. eapply poll_end_ok; done.
Qed.
End Programs.

(** ** Waking, timers and quiescence *)

(** Run a read of the state. *)
Ltac step_gets H :=
  lazymatch type of H with bind (gets ?f) ?k ?x = ?r => change (k (f x) x = r) in H; cbv beta in H end.

Section Loop.
Context {F : Type}.
Variables (blake3 : list byte -> list byte) (base_unique : bool).
Implicit Types (x y : ExecutorShared F).

(** A bind whose first part is quiet and fallible. *)
Lemma quiet_bind_Ok {A B} (m : M F (result RunError A)) (k : A -> M F (result RunError B)) x b x2 : Quiet m ->
  (let*? a := m in k a) x = (Ok b, x2) -> exists a x1, m x = (Ok a, x1) /\ control_of x1 = control_of x /\ k a x1 = (Ok b, x2).
Proof.
  intros Hq H. unfold bind in H. specialize (Hq x). destruct (m x) as [[a|e] x1]; [|done]. exists a, x1. done.
Qed.

Lemma notify_then {B} actor k task id (m : M F B) x :
  (do* notify_entry blake3 actor k task id then m) x = m (notify_entry blake3 actor k task id x).2.
Proof. done. Qed.

Lemma wake_one_ok t running waking x time u x' : parked_on x OnMessage t -> tasks_ok running waking x ->
  wake_one blake3 base_unique time t x = (Ok u, x') ->
  tasks_ok running waking x' /\ t ∈ x_ready x' /\ x_ready x ⊆ x_ready x' /\ (forall v, v <> t -> parked_on x OnMessage v -> parked_on x' OnMessage v).
Proof.
  intros Hp Hok H. unfold wake_one in H. step_gets H.
  apply quiet_bind_Ok in H as (id & x1 & _ & Hc & H); [|auto with quiet].
  rewrite notify_then in H. pose proof (notify_quiet (F := F) blake3 (actor_of t) KWake t (Some id) x1) as Hc2. rewrite Hc in Hc2.
  destruct (notify_entry _ _ _ _ _ _) as [n x2]. cbn [snd] in H, Hc2. injection H as _ <-. clear x1 Hc.
  apply (tasks_ok_ext _ _ _ x2) in Hok; [|done]. assert (Hp2 : parked_on x2 OnMessage t).
  { unfold control_of in Hc2. injection Hc2 as E1 _ _. unfold parked_on. rewrite E1. done. }
  pose proof (tasks_ok_wake running waking x2 t OnMessage (set_blocked None) ltac:(done) Hp2 Hok) as Hok'. split; [exact Hok'|].
  unfold control_of in Hc2. injection Hc2 as E1 E2 E3. unfold update_task, modify, parked_on. cbn -[alter]. rewrite E2. split_and!.
  - apply elem_of_app. right. left.
  - intros z Hz. apply elem_of_app. auto.
  - intros v Hv (e & He & Hr). exists e. rewrite E1, lookup_alter_task, decide_False by done. done.
Qed.

Lemma wake_loop_ok running waking time ts : forall x u x', NoDup ts -> (forall t, t ∈ ts -> parked_on x OnMessage t) -> tasks_ok running waking x ->
  wake_loop blake3 base_unique time ts x = (Ok u, x') -> tasks_ok running waking x' /\ ts ⊆ x_ready x' /\ x_ready x ⊆ x_ready x'.
Proof.
  induction ts as [|t ts IH]; intros x u x' Hn Hp Hok H; cbn [wake_loop] in H.
  { injection H as _ <-. split_and!; [done | intros z Hz; inversion Hz | done]. }
  apply list.NoDup_cons in Hn as [Hnot Hn]. unfold bind in H. destruct (wake_one _ _ _ _ _) as [[v|e] x1] eqn:E; [|done].
  destruct (wake_one_ok t running waking x time v x1) as (Hok1 & H1 & H2 & H3); [apply Hp; left | done | done |].
  destruct (IH x1 u x' Hn) as (Hok2 & H4 & H5); [|done..|].
  - intros w Hw. apply H3; [intros ->; done | apply Hp; right; done].
  - split_and!; [done| |set_solver]. intros w. rewrite elem_of_cons. intros [->|Hw]; auto.
Qed.

Lemma waits_parked running waking x t : tasks_ok running waking x -> waits_for_message x t = true -> parked_on x OnMessage t
  /\ has_ready_message (x_net x) (Z.of_nat t) (now (x_time x)) = true.
Proof.
  intros Hok H. unfold waits_for_message in H. destruct (x_tasks x !! t) as [e|] eqn:He; [|done].
  apply andb_true_iff in H as [H1%bool_decide_eq_true H2]. split; [|done]. exists e. split_and!; [done | | done].
  eapply (ok_parked _ _ _ Hok); [done | congruence].
Qed.

Lemma wake_blocked_ok running waking x u x' : tasks_ok running waking x ->
  wake_blocked_with_messages blake3 base_unique x = (Ok u, x') ->
  tasks_ok running waking x' /\ x_ready x ⊆ x_ready x' /\ (forall t, waits_for_message x t = true -> t ∈ x_ready x').
Proof.
  intros Hok H. unfold wake_blocked_with_messages in H. apply wake_loop_ok with (running := running) (waking := waking) in H as (H1 & H2 & H3); [| | |done].
  - split_and!; [done..|]. intros t Ht. apply H2. apply list_elem_of_In, List.filter_In. split; [|done]. apply in_seq. unfold waits_for_message in Ht.
    destruct (x_tasks x !! t) eqn:E; [|done]. apply lookup_lt_Some in E. lia.
  - apply NoDup_ListNoDup, List.NoDup_filter, seq_NoDup.
  - intros t Ht. apply list_elem_of_In, List.filter_In in Ht as [_ Ht]. apply (waits_parked _ _ _ _ Hok Ht).
Qed.

(** *** Timers *)

Lemma fire_loop_ok fired : forall waking ids x, length ids = (2 * length fired)%nat -> map fired_task fired = waking -> tasks_ok [] waking x ->
  tasks_ok [] [] (fire_loop blake3 fired ids x).2 /\ x_ready (fire_loop blake3 fired ids x).2 = x_ready x ++ map (fun f => Z.to_nat (fired_task f)) fired.
Proof.
  induction fired as [|f fired IH]; intros waking ids x Hl Hw Hok; cbn [map] in Hw; subst waking; cbn in Hl; [cbn; rewrite app_nil_r; done|].
  destruct ids as [|a [|b ids]]; [done | cbn in Hl; lia |]. cbn [fire_loop]. cbn in Hl.
  pose proof (proj1 (ok_sleeping _ _ _ Hok (fired_task f)) ltac:(left)) as (t & Et & Hp). rewrite Et, Nat2Z.id in *.
  rewrite !notify_then. set (x2 := (notify_entry _ _ _ _ _ (notify_entry _ _ _ _ _ x).2).2).
  assert (Hc2 : control_of x2 = control_of x) by (unfold x2; rewrite !notify_quiet; done). clearbody x2.
  apply (tasks_ok_ext _ _ _ x2) in Hok; [|done]. unfold control_of in Hc2. injection Hc2 as E1 E2 E3.
  assert (Hp2 : parked_on x2 OnTimer t) by (unfold parked_on; rewrite E1; done).
  pose proof (tasks_ok_wake [] (map fired_task fired) x2 t OnTimer (fun e => set_blocked None (set_timer_fired true e)) ltac:(done) Hp2 Hok) as Hok'.
  destruct (IH (map fired_task fired) ids _ ltac:(lia) eq_refl Hok') as [G1 G2]. split; [exact G1|]. etransitivity; [exact G2|].
  cbn [x_ready set_ready set_tasks]. rewrite E2, <- app_assoc. cbn. rewrite Et, Nat2Z.id. done.
Qed.

Lemma timer_batch_length fired : length (timer_batch fired) = (2 * length fired)%nat.
Proof. unfold timer_batch. induction fired as [|f fired IH]; [done|]. cbn in *. lia. Qed.

Lemma fire_timers_ok fired x u x' : tasks_ok [] (map fired_task fired) x -> fire_timers blake3 base_unique fired x = (Ok u, x') ->
  tasks_ok [] [] x' /\ x_ready x' = x_ready x ++ map (fun f => Z.to_nat (fired_task f)) fired.
Proof.
  intros Hok H. destruct fired as [|f fired]; [injection H as _ <-; cbn; rewrite app_nil_r; done|]. unfold fire_timers, bind in H.
  pose proof (journal_append_batch_quiet (F := F) blake3 base_unique (timer_batch (f :: fired)) x) as Hq.
  destruct (journal_append_batch _ _ _ x) as [[ids|e] x1] eqn:E; [|done]. cbn [snd] in Hq.
  assert (Hl : length ids = (2 * length (f :: fired))%nat).
  { unfold journal_append_batch in E. destruct (append_batch _ _ _ _) as [[[r|e] fr] j] eqn:Eb; [|done]. injection E as <- _.
    rewrite (append_batch_ids _ _ _ _ _ _ _ Eb). apply timer_batch_length. }
  destruct (fire_loop_ok (f :: fired) _ ids x1 Hl eq_refl) as [G1 G2]; [eapply tasks_ok_ext; [symmetry; exact Hq | exact Hok]|].
  destruct (fire_loop _ _ _ x1) as [u2 x2]. injection H as _ <-. split; [exact G1|]. cbn [snd] in G2. rewrite G2.
  unfold control_of in Hq. injection Hq as _ -> _. done.
Qed.

(** Waking that leaves the ready list empty did nothing. *)
Lemma wake_blocked_idle x u x' : tasks_ok [] [] x -> wake_blocked_with_messages blake3 base_unique x = (Ok u, x') -> x_ready x' = [] ->
  x' = x /\ forall t, waits_for_message x t = false.
Proof.
  intros Hok H Hr. destruct (wake_blocked_ok _ _ _ _ _ Hok H) as (_ & _ & Hw).
  assert (Hn : forall t, waits_for_message x t = false).
  { intros t. destruct (waits_for_message x t) eqn:E; [|done]. specialize (Hw t E). rewrite Hr in Hw. inversion Hw. }
  split; [|done]. unfold wake_blocked_with_messages in H. rewrite (List.filter_ext _ (fun _ => false)), List.filter_false in H by done.
  injection H as _ <-. done.
Qed.

Lemma fire_first due fuel l t rest : heap_pop l = Some (t, rest) -> due t = true -> (fire_while due (S fuel) l).1 <> [].
Proof. intros E Hd. cbn [fire_while]. rewrite E, Hd. destruct (fire_while due fuel rest). done. Qed.

Lemma peek_pop v : match heap_pop (timers v) with Some (t, _) => next_deadline v = Some (deadline t) | None => next_deadline v = None /\ timers v = [] end.
Proof.
  unfold next_deadline, peek. destruct (heap_pop (timers v)) as [[t rest]|] eqn:E; [done|]. apply heap_pop_None in E. done.
Qed.

Lemma advance_split v target fired v' :
  (if (now v <? target)%Z then match advance_to_with_enablers v target with Some r => r | None => ([], v) end else advance_with_enablers v) = (fired, v') ->
  exists out, fired = map (fun t => mkFired (task t) (enabler t)) out /\ timers v ≡ₚ out ++ timers v'.
Proof.
  unfold advance_to_with_enablers, advance_with_enablers. intros H.
  destruct (now v <? target)%Z; [destruct (target <? now v)%Z; [injection H as <- <-; exists []; done|] |
    destruct (peek (timers v)) as [next|]; [|injection H as <- <-; exists []; done]].
  1: destruct (fire_while_split (fun t => (deadline t <=? target)%Z) (length (timers v)) (timers v)) as (out & E1 & E2).
  2: destruct (fire_while_split (fun t => (deadline t =? deadline next)%Z) (length (timers v)) (timers v)) as (out & E1 & E2).
  all: destruct (fire_while _ _ _) as [f r]; injection H as <- <-; exists out; done.
Qed.

Lemma advance_time_ok target x : tasks_ok [] [] x -> exists fired v', advance_time target x = (fired, set_time x v') /\ tasks_ok [] (map fired_task fired) (set_time x v').
Proof.
  intros [H1 H2 H3 H4 H5 H6]. unfold advance_time. destruct (if now (x_time x) <? target then _ else _) as [fired v'] eqn:E. exists fired, v'. split; [done|].
  apply advance_split in E as (out & -> & Hp). rewrite map_map. cbn [fired_task].
  assert (Hp' : map task (timers (x_time x)) ≡ₚ map task out ++ map task (timers v')) by (rewrite <- map_app; apply Permutation_map, Hp).
  split; [done.. | |]; cbn [app x_time set_time] in *.
  - rewrite <- Hp'. done.
  - intros z. etransitivity; [|apply H6]. rewrite Hp'. done.
Qed.

(** No timer fires only when a message is due first, or nothing is pending. *)
Lemma advance_silent x target v' : target_time x = Some target -> advance_time target x = ([], set_time x v') ->
  exists d, earliest_delivery_time (x_net x) = Some d /\ d <= now v'.
Proof.
  unfold target_time, advance_time. pose proof (peek_pop (x_time x)) as Hp. intros Ht H.
  assert (Hlen : forall t rest, heap_pop (timers (x_time x)) = Some (t, rest) -> exists n, length (timers (x_time x)) = S n).
  { intros t rest E. apply heap_pop_perm, Permutation_length in E. cbn in E. eauto. }
  destruct (Z.ltb_spec (now (x_time x)) target) as [Hlt|Hge].
  - unfold advance_to_with_enablers in H. rewrite (proj2 (Z.ltb_ge _ _)) in H by lia.
    destruct (heap_pop (timers (x_time x))) as [[t rest]|] eqn:E.
    + rewrite Hp in Ht. destruct (Hlen _ _ eq_refl) as [n El]. rewrite El in H.
      pose proof (fire_first (fun t => (deadline t <=? target)%Z) n _ t rest E) as Hf. destruct (fire_while _ _ _) as [f r].
      injection H as -> <-. cbn [fst now] in *.
      destruct (earliest_delivery_time (x_net x)) as [d|]; injection Ht as <-.
      * exists d. split; [done|]. destruct (Z.le_gt_cases (deadline t) d) as [Hle|Hgt]; [|lia]. exfalso. apply Hf; [|done]. apply Z.leb_le. lia.
      * exfalso. apply Hf; [|done]. apply Z.leb_le. lia.
    + destruct Hp as [Hp _]. rewrite Hp in Ht. destruct (earliest_delivery_time (x_net x)) as [d|]; [|done]. injection Ht as <-.
      destruct (fire_while _ _ _) as [f r]. injection H as _ <-. exists d. cbn. split; [done | lia].
  - unfold advance_with_enablers in H. destruct (heap_pop (timers (x_time x))) as [[t rest]|] eqn:E.
    + unfold peek in H. rewrite E in H. cbn in H. destruct (Hlen _ _ eq_refl) as [n El]. rewrite El in H.
      pose proof (fire_first (fun u => (deadline u =? deadline t)%Z) n _ t rest E (Z.eqb_refl _)) as Hf.
      destruct (fire_while _ _ _) as [f r]. injection H as -> _. done.
    + destruct Hp as [Hp _]. rewrite Hp in Ht. destruct (earliest_delivery_time (x_net x)) as [d|]; [|done]. injection Ht as <-.
      unfold peek in H. rewrite E in H. cbn in H. injection H as <-. exists d. split; [done | lia].
Qed.

(** What [Blocked] promises: nothing is ready, a task is unfinished, no task waits for a message that is due; and either nothing
    at all is pending or the earliest queued message is due, and undeliverable. *)
Record deadlocked x : Prop := {
  dl_idle : x_ready x = [];
  dl_unfinished : all_tasks_done x = false;
  dl_waiting : forall t, waits_for_message x t = false;
  dl_pending : timers (x_time x) = [] /\ earliest_delivery_time (x_net x) = None
               \/ exists d, earliest_delivery_time (x_net x) = Some d /\ d <= now (x_time x) }.

Lemma advance_quiescent_ok x u x' : tasks_ok [] [] x -> advance_quiescent blake3 base_unique x = (Ok u, x') -> tasks_ok [] [] x' /\
  (x_ready x' = [] -> (forall t, waits_for_message x' t = false) /\
     (timers (x_time x') = [] /\ earliest_delivery_time (x_net x') = None
      \/ exists d, earliest_delivery_time (x_net x') = Some d /\ d <= now (x_time x'))).
Proof.
  intros Hok H. unfold advance_quiescent in H. step_gets H. destruct (target_time x) as [target|] eqn:Et.
  - destruct (advance_time_ok target x Hok) as (fired & v' & Ea & Hok1). unfold bind in H. rewrite Ea in H.
    destruct (fire_timers _ _ fired _) as [[w|e] x1] eqn:Ef; [|done]. destruct (fire_timers_ok _ _ _ _ Hok1 Ef) as [Hok2 Hr].
    destruct (wake_blocked_ok _ _ _ _ _ Hok2 H) as (Hok3 & Hsub & _). split; [done|]. intros Hnil.
    destruct (wake_blocked_idle _ _ _ Hok2 H Hnil) as [-> Hw]. split; [done|]. right. rewrite Hnil in Hr.
    destruct fired as [|f fired]; [|symmetry in Hr; apply app_eq_nil in Hr as [_ Hr]; done].
    injection Ef as _ <-. cbn [x_net x_time set_time]. apply (advance_silent x target v' Et Ea).
  - destruct (wake_blocked_ok _ _ _ _ _ Hok H) as (Hok3 & _). split; [done|]. intros Hnil.
    destruct (wake_blocked_idle _ _ _ Hok H Hnil) as [-> Hw]. split; [done|]. left. unfold target_time in Et. pose proof (peek_pop (x_time x)) as Hp.
    destruct (heap_pop _) as [[t rest]|]; [rewrite Hp in Et; destruct (earliest_delivery_time _); done|]. destruct Hp as [Hp ->]. rewrite Hp in Et.
    destruct (earliest_delivery_time _); done.
Qed.

Lemma quiesce_ok x r x' : tasks_ok [] [] x -> quiesce blake3 base_unique x = (Ok r, x') -> tasks_ok [] [] x' /\
  match r with None => x_ready x' <> [] | Some Completed => all_tasks_done x' = true | Some Blocked => deadlocked x' | Some _ => False end.
Proof.
  intros Hok H. unfold quiesce in H. step_gets H. destruct (decide (x_ready x = [])) as [Hr|Hr].
  2:{ rewrite bool_decide_eq_false_2 in H by done. injection H as <- <-. done. }
  rewrite bool_decide_eq_true_2 in H by done. cbn [negb] in H. unfold bind at 1 in H.
  destruct (advance_quiescent _ _ x) as [[u|e] x1] eqn:Ea; [|done]. destruct (advance_quiescent_ok _ _ _ Hok Ea) as [Hok1 Hq]. step_gets H.
  destruct (decide (x_ready x1 = [])) as [Hr1|Hr1].
  2:{ rewrite bool_decide_eq_false_2 in H by done. injection H as <- <-. done. }
  rewrite bool_decide_eq_true_2 in H by done. cbn [negb] in H. step_gets H. destruct (Hq Hr1) as [Hw Hp].
  destruct (all_tasks_done x1) eqn:Ed; [injection H as <- <-; done|]. step_gets H. step_gets H.
  assert (Hend : forall y, tasks_ok [] [] y -> all_tasks_done y = false -> (x_ready y = [] -> (forall t, waits_for_message y t = false) /\
     (timers (x_time y) = [] /\ earliest_delivery_time (x_net y) = None
      \/ exists d, earliest_delivery_time (x_net y) = Some d /\ d <= now (x_time y))) ->
     (let* idle := gets (fun x => bool_decide (x_ready x = [])) in ret (Ok (if idle : bool then Some Blocked else None))) y = (Ok (A := option RunOutcome) (E := RunError) r, x') ->
     tasks_ok [] [] x' /\ match r with None => x_ready x' <> [] | Some Completed => all_tasks_done x' = true | Some Blocked => deadlocked x' | Some _ => False end).
  { intros y Hy Hdy Hqy Hl. injection Hl as <- <-. split; [done|]. destruct (decide (x_ready y = [])) as [E|E].
    - rewrite bool_decide_eq_true_2 by done. destruct (Hqy E). split; done.
    - rewrite bool_decide_eq_false_2 by done. done. }
  destruct (earliest_delivery_time (x_net x1)) as [d|] eqn:El; [destruct (Z.ltb_spec (now (x_time x1)) d) as [Hlt|Hge]|]; [exfalso| |].
  - destruct Hp as [[_ ?]|(d' & [= <-] & Hd)]; [done | lia].
  - apply (Hend x1 Hok1 Ed); [rewrite El; exact Hq | exact H].
  - apply (Hend x1 Hok1 Ed); [rewrite El; exact Hq | exact H].
Qed.
End Loop.
