(* ===== verification/ExecutorRuns.v ===== *)
(** * The executor: runs of programs

    - Every decision of a run of programs polls a task, so a run ends within the step budget, and its recorded decisions
      replay it.
    - What the outcome of a run says about the tasks, the timers and the network.
    - A run can end [Blocked] with a timer pending. *)

From stdpp Require Import gmap.
From Stdlib Require Import SpecFloat.
From S2P Require Import Prelude Machine Cbor Limits Value Path Hex Frame Entry OrdMap Order Clock Dag.
From S2P Require Import Causal Monitor KeyMap VirtualTime Net Scheduler SimFs Backend OSet Verdict Hitting Ldfi OnlineMonitor Config Executor.
From S2P Require Import ExecutorProofs ExecutorTasks.

Open Scope Z_scope.
Open Scope exec_scope.

(** ** Policies that always choose *)

Definition not_bandit (p : Policy) : Prop := match p with Bandit _ _ => False | _ => True end.
Definition steady (s : Scheduler) : Prop := not_bandit (policy s) /\ not_bandit (fallback s).

Lemma fallback_steady keyed_blake3 ln s ready step p : not_bandit p -> exists i s', select_fallback keyed_blake3 ln s ready step p = Some (i, s')
  /\ policy s' = policy s /\ fallback s' = fallback s.
Proof.
  destruct p; intros H; try done; cbn [select_fallback]; [|unfold select_pct; case_match|..]; eexists _, _; (split; [reflexivity | done]).
Qed.

Lemma choose_steady keyed_blake3 ln s ready step : steady s -> ready <> [] ->
  exists i s', choose keyed_blake3 ln s ready step = Some (i, s') /\ steady s'.
Proof.
  intros [H1 H2] Hr. destruct ready as [|t l]; [done|]. unfold choose.
  assert (Hf : forall p, not_bandit p -> exists i s', match select_fallback keyed_blake3 ln s (t :: l) step p with
      | Some (choice, s) => Some (choice, with_decision s (t :: l) step choice) | None => None end = Some (i, s') /\ steady s').
  { intros p Hp. destruct (fallback_steady keyed_blake3 ln s (t :: l) step p Hp) as (i & s' & -> & E1 & E2). eexists _, _. split; [reflexivity|].
    unfold steady. cbn. rewrite E1, E2. done. }
  unfold steady in *. destruct (policy s) as [|k|e mix| |] eqn:Ep; [| |done| |]; destruct (strict s); try (apply (Hf Random); done); try (apply (Hf (Pct k)); done).
  - destruct (replay_decisions s !! step); [case_match|]; eexists _, _; (split; [reflexivity | cbn; rewrite Ep; done]).
  - destruct (replay_decisions s !! step); [eexists _, _; split; [reflexivity | cbn; rewrite Ep; done]|]. apply Hf, H2.
Qed.

Section Runs.
Variables (blake3 keyed_blake3 : list byte -> list byte) (ln : spec_float -> spec_float).
Variables (journaling base_unique : bool) (config : RunConfig) (iter : gmap Z Z -> list (Z * Z)).
Implicit Types (x y : ExecutorShared Program).

Abbreviation poll := (program_poll blake3 keyed_blake3 journaling base_unique config).
Abbreviation decides := (decide_step (F := Program) blake3 keyed_blake3 ln base_unique).
Abbreviation loops := (run_loop blake3 keyed_blake3 ln base_unique config poll).
Abbreviation settles := (let*? _ := wake_blocked_with_messages (F := Program) blake3 base_unique in quiesce blake3 base_unique).

(** ** One iteration *)

Lemma settles_ok x r x' : tasks_ok [] [] x -> settles x = (Ok r, x') -> tasks_ok [] [] x' /\
  match r with None => x_ready x' <> [] | Some Completed => all_tasks_done x' = true | Some Blocked => deadlocked x' | Some _ => False end.
Proof.
  intros Hok H. unfold bind in H. destruct (wake_blocked_with_messages _ _ x) as [[u|e] x1] eqn:E; [|done].
  apply (wake_blocked_ok _ _ [] []) in E as (Hok1 & _); [|done]. eapply quiesce_ok; done.
Qed.

Lemma rng_draw_quiet c : Quiet (journal_rng_draw (F := Program) blake3 base_unique c).
Proof. unfold journal_rng_draw. quiet. Qed.

Lemma decide_quiet steps x i x' : decides steps x = Some (Ok (i, x')) -> control_of x' = control_of x /\ is_Some (x_ready x' !! i).
Proof.
  unfold decide_step. destruct (choose _ _ _ _ _) as [[c s]|] eqn:E; [|done]. apply choose_lt in E. unfold take_violation. destruct (violation s); [done|].
  pose proof (rng_draw_quiet c (set_scheduler x (with_violation s None))) as Hq. destruct (journal_rng_draw _ _ c _) as [[u|e] x2]; [|done].
  intros [= <- <-]. cbn [snd] in Hq. unfold control_of in *. cbn in Hq. injection Hq as E1 E2 E3. rewrite E1, E2, E3.
  split; [done|]. apply lookup_lt_is_Some. done.
Qed.

Lemma note_trace_quiet x : control_of (note_trace x) = control_of x.
Proof. unfold note_trace. destruct (trace_enabled _); done. Qed.

(** A decision polls the task it chose, and every task is where it belongs again. *)
Lemma decided_polls steps x i x' t : tasks_ok [] [] x -> decides steps x = Some (Ok (i, x')) -> x_ready x' !! i = Some t ->
  exists x2, poll_task poll t (set_ready x' (swap_remove (x_ready x') i)) = (true, x2) /\ tasks_ok [] [] x2.
Proof.
  intros Hok H Ht. apply decide_quiet in H as [Hc _]. apply poll_task_ok. apply tasks_ok_pop; [done|].
  eapply tasks_ok_ext; [symmetry; exact Hc | done].
Qed.

(** ** Outcomes *)

(** What an outcome says of the state a run of programs ends in. *)
Definition outcome_ok (o : RunOutcome) (n : nat) x : Prop :=
  match o with
  | Completed => all_tasks_done x = true
  | BudgetExhausted => cfg_max_steps config <= Z.of_nat n
  | Blocked => deadlocked x
  | MonitorHalt _ => True
  end.

Lemma loop_ok fuel : forall ms steps x ds o n x', tasks_ok [] [] x -> control ds (x_scheduler x) -> length ds = steps ->
  loops fuel ms steps x = Some (Ok (o, n, x')) ->
  tasks_ok [] [] x' /\ outcome_ok o n x' /\ length (decisions (x_scheduler x')) = n /\ Z.of_nat n <= Z.max (Z.of_nat steps) (cfg_max_steps config).
Proof.
  pose proof (program_poll_blind blake3 keyed_blake3 journaling base_unique config) as Hb.
  induction fuel as [|fuel IH]; intros ms steps x ds o n x' Hok Hc Hl H; cbn [run_loop] in H;
    (destruct (Z.ltb_spec (Z.of_nat steps) (cfg_max_steps config)) as [Hlt|Hge]; cbn [negb] in H;
     [|injection H as <- <- <-; destruct Hc as (_ & _ & <-); split_and!; [done..|lia]]); [done|].
  pose proof (blind_control _ ds x (settle_step_blind blake3 base_unique) Hc) as Hc1.
  destruct (settles x) as [[r|e] x1] eqn:Es; [|done]. destruct (settles_ok _ _ _ Hok Es) as [Hok1 Hr]. cbn [snd] in Hc1.
  destruct r as [o1|].
  { injection H as <- <- <-. destruct Hc1 as (_ & _ & <-). split_and!; [done| |done|lia]. destruct o1; done. }
  destruct (decides steps x1) as [[[i x2]|e]|] eqn:Ed; [|done|done]. pose proof (decide_control _ _ _ _ _ ds _ _ _ Hc1 Ed) as Hc2.
  destruct (x_ready x2 !! i) as [t|] eqn:Et; [|done]. destruct (decided_polls _ _ _ _ _ Hok1 Ed Et) as (x3 & Ep & Hok3).
  pose proof (blind_control _ (ds ++ [i]) (set_ready x2 (swap_remove (x_ready x2) i)) (poll_task_blind poll Hb t) Hc2) as Hc3.
  rewrite Ep in H, Hc3. cbn [snd] in Hc3. destruct (observe ms x3 _) as [[why|] ms'].
  - injection H as <- <- <-. destruct Hc3 as (_ & _ & ->). rewrite length_app. cbn. split_and!; [done..|lia|lia].
  - replace (Z.max (Z.of_nat steps) (cfg_max_steps config)) with (Z.max (Z.of_nat (S steps)) (cfg_max_steps config)) by lia.
    apply (IH ms' (S steps) (note_trace x3) (ds ++ [i])); [|apply note_trace_control, Hc3 | rewrite length_app; cbn; lia | exact H].
    eapply tasks_ok_ext; [symmetry; apply note_trace_quiet | done].
Qed.

(** ** Termination *)

Lemma blind_steady {A} (m : M Program A) x : Blind m -> steady (x_scheduler x) -> steady (x_scheduler (m x).2).
Proof.
  intros Hm Hs. destruct (Hm x) as [es H]. specialize (H (x_scheduler x)). rewrite set_scheduler_same in H. apply (f_equal snd) in H.
  cbn [snd] in H. rewrite H. cbn. unfold emit_if. destruct (novelty_active _); [|done].
  destruct (emit_control (x_scheduler x) es) as (E1 & _ & _ & _ & _ & E2 & _). unfold steady. rewrite E1, E2. done.
Qed.

Lemma decide_total steps x : steady (x_scheduler x) -> x_ready x <> [] ->
  exists r, decides steps x = Some r /\ match r with Ok (_, x') => steady (x_scheduler x') | Err _ => True end.
Proof.
  intros Hs Hr. unfold decide_step. destruct (choose_steady keyed_blake3 ln _ _ steps Hs Hr) as (i & s & -> & Hs').
  unfold take_violation. destruct (violation s); [eexists; done|].
  pose proof (blind_steady _ (set_scheduler x (with_violation s None)) (rng_draw_blind blake3 base_unique i) Hs') as Hq.
  destruct (journal_rng_draw _ _ i _) as [[u|e] x2]; eexists; done.
Qed.

Lemma loop_total fuel : forall ms steps x, tasks_ok [] [] x -> steady (x_scheduler x) -> cfg_max_steps config <= Z.of_nat (steps + fuel) ->
  loops fuel ms steps x <> None.
Proof.
  pose proof (program_poll_blind blake3 keyed_blake3 journaling base_unique config) as Hb.
  induction fuel as [|fuel IH]; intros ms steps x Hok Hs Hf; cbn [run_loop];
    (destruct (Z.ltb_spec (Z.of_nat steps) (cfg_max_steps config)) as [Hlt|Hge]; cbn [negb]; [|done]); [lia|].
  pose proof (blind_steady _ x (settle_step_blind blake3 base_unique) Hs) as Hs1.
  destruct (settles x) as [[r|e] x1] eqn:Es; [|done]. destruct (settles_ok _ _ _ Hok Es) as [Hok1 Hr]. destruct r as [o1|]; [done|].
  destruct (decide_total steps x1 Hs1 Hr) as (r & Ed & Hs2). rewrite Ed. destruct r as [[i x2]|e]; [|done].
  destruct (decide_quiet _ _ _ _ Ed) as [_ [t Et]]. rewrite Et. destruct (decided_polls _ _ _ _ _ Hok1 Ed Et) as (x3 & Ep & Hok3).
  pose proof (blind_steady _ (set_ready x2 (swap_remove (x_ready x2) i)) (poll_task_blind poll Hb t) Hs2) as Hs3. rewrite Ep in Hs3 |- *.
  destruct (observe ms x3 _) as [[why|] ms']; [done|]. apply IH; [|unfold note_trace; destruct (trace_enabled _); done | lia].
  eapply tasks_ok_ext; [symmetry; apply note_trace_quiet | done].
Qed.

(** ** From the start *)

Lemma start_ok s (programs : list Program) : tasks_ok [] [] (executor_with journaling config s programs).
Proof.
  assert (Hl : forall t e, map make_task_entry programs !! t = Some e -> (t < length programs)%nat /\ exists p, e = make_task_entry p).
  { intros t e H. apply list_lookup_fmap_Some in H as (p & -> & H). apply lookup_lt_Some in H. eauto. }
  split; unfold can_run, parked_on; cbn [app executor_with x_ready x_tasks x_time timers time_default map].
  - apply NoDup_ListNoDup, seq_NoDup.
  - intros t. rewrite list_elem_of_In, in_seq. split.
    + intros [_ Ht]. destruct (lookup_lt_is_Some_2 programs t ltac:(lia)) as [p Hp]. exists (make_task_entry p). rewrite list_lookup_fmap, Hp. done.
    + intros (e & He & _). apply Hl in He. lia.
  - intros t e He. apply Hl in He as (_ & p & ->). cbn. eauto.
  - intros t e He. apply Hl in He as (_ & p & ->). done.
  - constructor.
  - intros z. split; [intros H; inversion H|]. intros (t & _ & e & He & _ & Hb). apply Hl in He as (_ & p & ->). done.
Qed.

Lemma spawns_quiet : Quiet (journal_spawns (F := Program) blake3 base_unique).
Proof.
  unfold journal_spawns. apply keeps_bind; [intros x; done|]. intros n. generalize (seq 0 n). intros l. induction l as [|t l IH]; cbn [spawn_loop]; quiet.
Qed.

Lemma spawns_blind : Blind (F := Program) (journal_spawns blake3 base_unique).
Proof. unfold journal_spawns. blind. apply spawn_loop_blind. Qed.

Abbreviation runs_to_end := (run_to_end blake3 keyed_blake3 ln base_unique config poll).

Lemma run_ok fuel ms p replay fb programs o n x : runs_to_end fuel ms (executor_with journaling config (with_fallback p replay fb) programs) = Some (Ok (o, n, x)) ->
  tasks_ok [] [] x /\ outcome_ok o n x /\ length (decisions (x_scheduler x)) = n /\ Z.of_nat n <= Z.max 0 (cfg_max_steps config).
Proof.
  unfold run_to_end. set (x0 := executor_with _ _ _ _). intros H. pose proof (start_ok (with_fallback p replay fb) programs) as Hok. fold x0 in Hok.
  pose proof (spawns_quiet x0) as Hq. pose proof (blind_control _ [] x0 spawns_blind ltac:(done)) as Hc.
  destruct (journal_spawns _ _ x0) as [[u|e] x1]; [|done]. cbn [snd] in Hq, Hc. apply (tasks_ok_ext _ _ _ x1) in Hok; [|done].
  destruct (if (journal_len (x_journal x1) =? 0)%nat then _ else _) as [[why|] ms'].
  - injection H as <- <- <-. destruct Hc as (_ & _ & ->). split_and!; [done..|cbn; lia].
  - apply (loop_ok fuel ms' 0%nat x1 []) in H; done.
Qed.

Lemma report_counts o n x r : report config iter o n x = Ok r -> rr_steps r = n /\ rr_decisions r = decisions (x_scheduler x).
Proof.
  unfold report, check_trailing. destruct (strict _ && _); [done|]. destruct (x_error x); [done|]. intros [= <-]. done.
Qed.

Lemma run_split fuel ms x r : simulate blake3 keyed_blake3 ln journaling base_unique config iter fuel ms x = Some (Ok r) ->
  exists o n x', runs_to_end fuel ms x = Some (Ok (o, n, x')) /\ report config iter o n x' = Ok r.
Proof.
  unfold simulate, run. destruct (runs_to_end fuel ms x) as [[[[o n] x']|e]|]; [|done|done]. intros [= H]. exists o, n, x'. done.
Qed.

Lemma program_replays fuel ms replay fb programs r :
  simulate blake3 keyed_blake3 ln journaling base_unique config iter fuel ms (simulation_with_replay_and_fallback journaling config replay fb programs)
    = Some (Ok r) ->
  forall strictly fb', simulate blake3 keyed_blake3 ln journaling base_unique config iter fuel ms
    (executor_with journaling config (scheduler_with Replay (rr_decisions r) fb' strictly) programs) = Some (Ok (untraced r)).
Proof.
  intros H. pose proof (program_poll_blind blake3 keyed_blake3 journaling base_unique config) as Hb.
  destruct (run_split _ _ _ _ H) as (o & n & x & He & Hr). apply run_ok in He as (_ & _ & Hn & _). apply report_counts in Hr as [E1 E2].
  exact (futures_replay blake3 keyed_blake3 ln journaling base_unique config poll iter fuel ms (cfg_policy config) replay fb programs r Hb H ltac:(congruence)).
Qed.

(** *** Theorems *)

(** C18: replay reproduces a simulation: the decisions recorded by a finished run of programs under any policy and configuration,
    replayed, strictly or leniently, give the same report, with the same journal, registers, outcome and monitor issues;
    only the trace the partial-order policy keeps is missing. *)
Theorem simulation_replays fuel ms replay fb programs r :
  simulate blake3 keyed_blake3 ln journaling base_unique config iter fuel ms (simulation_with_replay_and_fallback journaling config replay fb programs)
    = Some (Ok r) ->
  simulate blake3 keyed_blake3 ln journaling base_unique config iter fuel ms (simulation_strict journaling config (rr_decisions r) programs)
    = Some (Ok (untraced r)) /\
  forall fb', simulate blake3 keyed_blake3 ln journaling base_unique config iter fuel ms
    (executor_with journaling config (with_fallback Replay (rr_decisions r) fb') programs) = Some (Ok (untraced r)).
Proof.
  intros H. split; [exact (program_replays _ _ _ _ _ _ H true Random) | exact (program_replays _ _ _ _ _ _ H false)].
Qed.

(** C38: A simulation ends: with a policy other than the bandit and as much fuel as the step budget, a run of programs returns a
    report or an error, and a report counts at most as many steps as the budget and one recorded decision for each. *)
Theorem simulation_ends fuel ms replay fb programs : 0 <= cfg_max_steps config <= Z.of_nat fuel -> not_bandit (cfg_policy config) -> not_bandit fb ->
  exists res, simulate blake3 keyed_blake3 ln journaling base_unique config iter fuel ms
      (simulation_with_replay_and_fallback journaling config replay fb programs) = Some res /\
    forall r, res = Ok r -> Z.of_nat (rr_steps r) <= cfg_max_steps config /\ length (rr_decisions r) = rr_steps r.
Proof.
  intros [H0 Hf] Hp Hfb. destruct (simulate _ _ _ _ _ _ _ _ _ _) as [res|] eqn:E.
  - exists res. split; [done|]. intros r ->. apply run_split in E as (o & n & x & He & Hr). apply run_ok in He as (_ & _ & Hn & Hle).
    apply report_counts in Hr as [-> ->]. split; [lia | done].
  - exfalso. unfold simulate, run, run_to_end in E. set (x0 := simulation_with_replay_and_fallback _ _ _ _ _) in E.
    pose proof (start_ok (with_fallback (cfg_policy config) replay fb) programs) as Hok.
    change (executor_with _ _ _ _) with x0 in Hok. pose proof (spawns_quiet x0) as Hq.
    pose proof (blind_steady _ x0 spawns_blind (conj Hp Hfb)) as Hs. destruct (journal_spawns _ _ x0) as [[u|e] x1]; [|done]. cbn [snd] in Hq, Hs.
    apply (tasks_ok_ext _ _ _ x1) in Hok; [|done]. destruct (if (journal_len (x_journal x1) =? 0)%nat then _ else _) as [[why|] ms']; [done|].
    pose proof (loop_total fuel ms' 0%nat x1 Hok Hs ltac:(lia)) as Ht. destruct (loops fuel ms' 0%nat x1) as [[[[o n] x]|e]|]; done.
Qed.

(** C19: what the end of a run means, for programs: the ready list holds exactly the tasks that can run and the timers are those of
    the sleeping ones; [Completed] means all tasks finished; [BudgetExhausted], that the steps are used up; [Blocked], that no
    task can run, some are unfinished, none waits for a message that is due, and nothing is pending or the message due first
    has no receiver. *)
Theorem outcome_exact fuel ms replay fb programs o n x :
  runs_to_end fuel ms (simulation_with_replay_and_fallback journaling config replay fb programs) = Some (Ok (o, n, x)) ->
  tasks_ok [] [] x /\ outcome_ok o n x.
Proof. intros H. apply run_ok in H as (H1 & H2 & _). done. Qed.
End Runs.

(** ** Samples *)

(** A cheap digest without collisions on the journals below. *)
Definition tail_digest (b : list byte) : list byte := take 32 (rev b ++ repeat x00 32).
Definition plain_ln (v : spec_float) : spec_float := v.

(** The default configuration with a budget of 40 steps. *)
Definition short_config : RunConfig := mkConfig (repeat x00 32) Random 40 [] swarm_default [] ∅ [] None true false None None.

Abbreviation sample_runs := (simulate tail_digest tail_digest plain_ln false true short_config map_to_list 40 None).
Abbreviation sample_end := (run_to_end tail_digest tail_digest plain_ln true short_config
  (program_poll tail_digest tail_digest false true short_config) 40 None).
Abbreviation sample_start := (simulation_new false short_config).

(** Two tasks that exchange messages; the second is asleep when the first message arrives. *)
Definition relay : list Program := [[ISend 1 7; IReceive; IOutcome; IDone]; [ISleep 5; IReceive; ISend 0 8; IDone]].

(** A message that arrives at time 5 at a task asleep until time 10. *)
Definition late_sleeper : list Program := [[ISendTimed 1 8 5; IDone]; [ISleep 10; IReceive; IDone]].

Lemma simulation_replays_witness : exists r, sample_runs (sample_start relay) = Some (Ok r) /\ rr_outcome r = Completed /\
  sample_runs (simulation_strict false short_config (rr_decisions r) relay) = Some (Ok (untraced r)).
Proof.
  assert (Hc : match sample_runs (sample_start relay) with Some (Ok r) => rr_outcome r = Completed | _ => False end) by (vm_compute; reflexivity).
  destruct (sample_runs (sample_start relay)) as [[r|e]|] eqn:E; [|destruct Hc..]. exists r. split; [reflexivity|]. split; [exact Hc|].
  exact (proj1 (simulation_replays _ _ _ _ _ _ _ _ _ [] Random relay r E)).
Defined.

Lemma simulation_ends_witness : exists res, sample_runs (sample_start late_sleeper) = Some res.
Proof.
  destruct (simulation_ends tail_digest tail_digest plain_ln false true short_config map_to_list 40 None [] Random late_sleeper) as (res & E & _);
    [cbn [cfg_max_steps short_config]; lia | exact I | exact I |]. exists res. exact E.
Defined.

Lemma outcome_exact_witness : exists n x, sample_end (sample_start late_sleeper) = Some (Ok (Blocked, n, x)) /\ deadlocked x.
Proof.
  assert (Hc : match sample_end (sample_start late_sleeper) with Some (Ok (o, _, _)) => o = Blocked | _ => False end) by (vm_compute; reflexivity).
  destruct (sample_end (sample_start late_sleeper)) as [[[[o n] x]|e]|] eqn:E; [|destruct Hc..]. subst o. exists n, x. split; [reflexivity|].
  exact (proj2 (outcome_exact _ _ _ _ _ _ _ _ [] Random late_sleeper _ _ _ E)).
Defined.

(** A run can end [Blocked] although a timer is pending: a message due before the timer of the task it is for stops the
    clock, because it is the earliest event and nobody is waiting for it. *)
Theorem blocked_with_timer_pending : match sample_end (sample_start late_sleeper) with
  | Some (Ok (Blocked, _, x)) => now (x_time x) = 5 /\ map deadline (timers (x_time x)) = [10] /\ map te_done (x_tasks x) = [true; false]
  | _ => False
  end.
Proof. vm_compute. split_and!; reflexivity. Qed.

(** A message to a finished task also hides a later one: the second message, for a task that waits for it, is never delivered. *)
Theorem blocked_with_message_pending :
  match sample_end (sample_start [[ISend 1 7; ISendTimed 2 8 10; IDone]; [IDone]; [IReceive; IDone]]) with
  | Some (Ok (Blocked, _, x)) => map (fun m => (m_to m, deliver_at m)) (queue (x_net x)) = [(1, 0); (2, 10)]
      /\ map te_done (x_tasks x) = [true; true; false] /\ parked_on x OnMessage 2
  | _ => False
  end.
Proof. vm_compute. split_and!; [reflexivity | reflexivity | eexists; split_and!; reflexivity]. Qed.
