(* ===== verification/Dpor.v ===== *)
(** * Partial-order exploration

    Models [ledger-sim/src/dpor.rs]: one base run, then one run for every alternative to a decision of the base run that the
    sleep-set test does not prune, forced by a replay prefix.

    - A flip run makes the decisions of the base run up to its branch point and there the alternative.
    - The campaign stays within its budget of runs and explores no flip twice.

    Hash sets and maps are only looked up; [None] is a panic: an index out of range or one of the runs. *)

From stdpp Require Import gmap.
From Stdlib Require Import SpecFloat.
From S2P Require Import Prelude Machine Cbor Limits Value Path Hex Frame Entry OrdMap Order Clock Dag.
From S2P Require Import Causal Monitor KeyMap VirtualTime Net Scheduler SimFs Backend OSet Verdict Hitting Ldfi OnlineMonitor Config Executor.
From S2P Require Import ExecutorProofs ExecutorTasks ExecutorRuns.

Open Scope Z_scope.
Open Scope exec_scope.

Record DporConfig : Type := mkDporConfig { dc_seed : EntryHash; dc_max_steps : Z; dc_max_runs : Z }.

Record DporRun : Type := mkDporRun { dr_root_hash : EntryHash; dr_decisions : list nat; dr_forced_prefix_len : nat }.

Record DporReport : Type := mkDporReport {
  dp_runs : list DporRun;
  dp_distinct_roots : nat;
  dp_explored_flips : nat;
  dp_explored_flip_keys : list (nat * nat) }.

(** The builder with a seed, a policy and a step budget. *)
Definition dpor_run_config (cfg : DporConfig) (p : Policy) : RunConfig :=
  mkConfig (dc_seed cfg) p (dc_max_steps cfg) [] swarm_default [] ∅ [] None true false None None.

Definition sleep_set_pruned (task_last_vc : gmap Z VectorClock) (chosen_task alt : nat) : bool :=
  match task_last_vc !! actor_of chosen_task, task_last_vc !! actor_of alt with
  | Some chosen, Some alt => happens_before chosen alt || happens_before alt chosen
  | _, _ => false
  end.

Section Dpor.
Variables (blake3 keyed_blake3 : list byte -> list byte) (ln : spec_float -> spec_float) (journaling base_unique : bool).
Variable iter : gmap Z Z -> list (Z * Z).
(** The fuel of each run. *)
Variable fuel : nat.
Variables (programs : list Program) (cfg : DporConfig).

Abbreviation rres A := (option (result RuntimeError A)).

Definition dpor_simulate (p : Policy) (replay : list nat) (fb : Policy) : rres RunReport :=
  let config := dpor_run_config cfg p in
  simulate blake3 keyed_blake3 ln journaling base_unique config iter fuel None
    (simulation_with_replay_and_fallback journaling config replay fb programs).

(** The report so far, and the set of explored keys. *)
Record Exploration : Type := mkExploration { ex_runs : list DporRun; ex_keys : list (nat * nat); ex_explored : gset (nat * nat) }.

(** [report.runs.len() >= cfg.max_runs]. *)
Definition spent (e : Exploration) : bool := (dc_max_runs cfg <=? Z.of_nat (length (ex_runs e)))%Z.

(** One alternative: the flip's run, and whether the loop over the flips breaks. *)
Definition explore_flip (base : RunReport) (vc : gmap Z VectorClock) (t : StepTrace) (chosen_task alt_pos alt : nat) (e : Exploration) :
    rres (bool * Exploration) :=
  if (alt_pos =? st_chosen t)%nat then Some (Ok (false, e))
  else if sleep_set_pruned vc chosen_task alt then Some (Ok (false, e))
  else if bool_decide ((st_step t, alt) ∈ ex_explored e) then Some (Ok (false, e))
  else
    let e := mkExploration (ex_runs e) (ex_keys e) ({[(st_step t, alt)]} ∪ ex_explored e) in
    if spent e then Some (Ok (true, e))
    else if (length (rr_decisions base) <? st_step t)%nat then None
    else
      match dpor_simulate Replay (take (st_step t) (rr_decisions base) ++ [alt_pos]) Random with
      | None => None
      | Some (Err err) => Some (Err err)
      | Some (Ok run) =>
          let e := mkExploration (ex_runs e ++ [mkDporRun (root_hash blake3 (rr_journal run)) (rr_decisions run) (S (st_step t))])
                     (ex_keys e ++ [(st_step t, alt)]) (ex_explored e) in
          Some (Ok (spent e, e))
      end.

Fixpoint explore_ready (base : RunReport) (vc : gmap Z VectorClock) (t : StepTrace) (chosen_task alt_pos : nat) (alts : list nat) (e : Exploration) :
    rres (bool * Exploration) :=
  match alts with
  | [] => Some (Ok (false, e))
  | alt :: alts =>
      match explore_flip base vc t chosen_task alt_pos alt e with
      | Some (Ok (false, e)) => explore_ready base vc t chosen_task (S alt_pos) alts e
      | r => r
      end
  end.

(** The clocks after the entries from [idx] to the step's boundary; [None] is an index out of range. *)
Definition advance_clocks (js : list JEntry) (vc : gmap Z VectorClock) (idx len : nat) : option (gmap Z VectorClock * nat) :=
  if (len <=? idx)%nat then Some (vc, idx)
  else if (length js <? len)%nat then None
  else Some (foldl (fun vc e => <[actor (edata e) := eclock e]> vc) vc (take (len - idx) (drop idx js)), len).

Fixpoint explore_trace (base : RunReport) (js : list JEntry) (vc : gmap Z VectorClock) (idx : nat) (ts : list StepTrace) (e : Exploration) :
    rres Exploration :=
  match ts with
  | [] => Some (Ok e)
  | t :: ts =>
      match st_ready t !! st_chosen t with
      | None => None
      | Some chosen_task =>
          match explore_ready base vc t chosen_task 0 (st_ready t) e with
          | None => None
          | Some (Err err) => Some (Err err)
          | Some (Ok (true, e)) => Some (Ok e)
          | Some (Ok (false, e)) =>
              match advance_clocks js vc idx (st_journal_len t) with
              | None => None
              | Some (vc, idx) => explore_trace base js vc idx ts e
              end
          end
      end
  end.

Definition run_dpor : rres DporReport :=
  match dpor_simulate Dpor [] Random with
  | None => None
  | Some (Err err) => Some (Err err)
  | Some (Ok base) =>
      let first := mkDporRun (root_hash blake3 (rr_journal base)) (rr_decisions base) 0 in
      match explore_trace base (entries (rr_journal base)) ∅ 0 (rr_trace base) (mkExploration [first] [] ∅) with
      | None => None
      | Some (Err err) => Some (Err err)
      | Some (Ok e) =>
          Some (Ok (mkDporReport (ex_runs e) (size (list_to_set (C := gset EntryHash) (map dr_root_hash (ex_runs e)))) (length (ex_keys e)) (ex_keys e)))
      end
  end.
End Dpor.

(** ** Traces *)

(** What a trace entry records of its decision. *)
Definition decision_of (t : StepTrace) : nat * list nat * nat := (st_step t, st_ready t, st_chosen t).

Lemma note_len_decisions s len : map decision_of (trace (note_step_journal_len s len)) = map decision_of (trace s).
Proof.
  unfold note_step_journal_len. cbn [trace]. destruct (rev (trace s)) as [|t earlier] eqn:E.
  - rewrite <- (rev_involutive (trace s)), E. done.
  - rewrite <- (rev_involutive (trace s)), E. cbn [rev]. rewrite !map_app. done.
Qed.

Lemma select_trace keyed_blake3 ln s ready step p i s' : select_fallback keyed_blake3 ln s ready step p = Some (i, s') ->
  trace s' = trace s /\ trace_enabled s' = trace_enabled s.
Proof.
  unfold select_fallback. destruct p; try (intros [= <- <-]; done).
  - unfold select_pct. case_match; intros [= <- <-]; done.
  - case_match; [intros [= <- <-]; done|]. destruct (select_bandit _ _ _ _ _ _); [intros [= <- <-]; done | done].
Qed.

Lemma choose_trace keyed_blake3 ln s ready step i s' : strict s = false -> choose keyed_blake3 ln s ready step = Some (i, s') ->
  trace_enabled s' = trace_enabled s /\ (trace_enabled s = true -> trace s' = trace s ++ [mkStep step ready i 0]).
Proof.
  intros Hs. destruct ready as [|t l]; [done|]. unfold choose. rewrite Hs.
  assert (Hf : forall p, match select_fallback keyed_blake3 ln s (t :: l) step p with
      | Some (choice, s) => Some (choice, with_decision s (t :: l) step choice) | None => None end = Some (i, s') ->
    trace_enabled s' = trace_enabled s /\ (trace_enabled s = true -> trace s' = trace s ++ [mkStep step (t :: l) i 0])).
  { intros p H. destruct (select_fallback _ _ _ _ _ _) as [[c s1]|] eqn:E; [|done]. apply select_trace in E as [E1 E2]. injection H as <- <-. cbn.
    rewrite E2. split; [done|]. intros ->. congruence. }
  destruct (policy s) as [|k|e mix| |]; [apply (Hf Random) | apply (Hf (Pct k)) | apply (Hf (Bandit e mix)) | | apply (Hf Dpor)].
  destruct (replay_decisions s !! step); [|apply Hf]. intros [= <- <-]. cbn. split; [done|]. intros ->. done.
Qed.

Section Follow.
Variables (blake3 keyed_blake3 : list byte -> list byte) (ln : spec_float -> spec_float).
Variables (journaling base_unique : bool) (config : RunConfig).
Implicit Types (x y : ExecutorShared Program).

Abbreviation poll := (program_poll blake3 keyed_blake3 journaling base_unique config).
Abbreviation decides := (decide_step (F := Program) blake3 keyed_blake3 ln base_unique).
Abbreviation loops := (run_loop blake3 keyed_blake3 ln base_unique config poll).
Abbreviation settles := (let*? _ := wake_blocked_with_messages (F := Program) blake3 base_unique in quiesce blake3 base_unique).

Lemma blind_trace {A} (m : M Program A) x : Blind m ->
  trace (x_scheduler (m x).2) = trace (x_scheduler x) /\ trace_enabled (x_scheduler (m x).2) = trace_enabled (x_scheduler x).
Proof.
  intros Hm. destruct (Hm x) as [es H]. specialize (H (x_scheduler x)). rewrite set_scheduler_same in H. apply (f_equal snd) in H.
  cbn [snd] in H. rewrite H. cbn. unfold emit_if. destruct (novelty_active _); [apply emit_trace | done].
Qed.

Lemma decide_trace steps x i x' : strict (x_scheduler x) = false -> trace_enabled (x_scheduler x) = true -> decides steps x = Some (Ok (i, x')) ->
  trace (x_scheduler x') = trace (x_scheduler x) ++ [mkStep steps (x_ready x) i 0] /\ trace_enabled (x_scheduler x') = true.
Proof.
  intros Hs Ht. unfold decide_step. destruct (choose _ _ _ _ _) as [[c s]|] eqn:E; [|done]. apply choose_trace in E as [E1 E2]; [|done].
  unfold take_violation. destruct (violation s); [done|].
  pose proof (blind_trace _ (set_scheduler x (with_violation s None)) (rng_draw_blind blake3 base_unique c)) as [F1 F2].
  destruct (journal_rng_draw _ _ c _) as [[u|e] x2]; [|done]. intros [= <- <-]. cbn [snd] in F1, F2. rewrite F1, F2. cbn. rewrite E1, E2; done.
Qed.

(** The decisions a loop adds to the trace, and those it adds to the decisions. *)
Definition traces (x : ExecutorShared Program) : list (nat * list nat * nat) := map decision_of (trace (x_scheduler x)).

Lemma note_traces x : traces (note_trace x) = traces x /\ trace_enabled (x_scheduler (note_trace x)) = trace_enabled (x_scheduler x).
Proof. unfold note_trace, traces. destruct (trace_enabled _) eqn:E; [split; [apply note_len_decisions | done] | done]. Qed.

(** One iteration of the base loop that decides. *)
Lemma iteration fuel steps x o n x' ds : tasks_ok [] [] x -> control ds (x_scheduler x) -> length ds = steps ->
  loops (S fuel) None steps x = Some (Ok (o, n, x')) ->
  (exists x1, x' = x1 /\ traces x1 = traces x /\ control ds (x_scheduler x1)) \/
  exists x1 i x2 t x3, settles x = (Ok None, x1) /\ decides steps x1 = Some (Ok (i, x2)) /\ x_ready x2 !! i = Some t /\
    poll_task poll t (set_ready x2 (swap_remove (x_ready x2) i)) = (true, x3) /\ tasks_ok [] [] (note_trace x3) /\
    control ds (x_scheduler x1) /\ control (ds ++ [i]) (x_scheduler (note_trace x3)) /\ traces x1 = traces x /\
    trace_enabled (x_scheduler x1) = trace_enabled (x_scheduler x) /\
    (trace_enabled (x_scheduler x) = true -> traces (note_trace x3) = traces x ++ [(steps, x_ready x1, i)] /\
       trace_enabled (x_scheduler (note_trace x3)) = true) /\
    loops fuel None (S steps) (note_trace x3) = Some (Ok (o, n, x')).
Proof.
  intros Hok Hc Hl H. pose proof (program_poll_blind blake3 keyed_blake3 journaling base_unique config) as Hb. cbn [run_loop] in H.
  destruct (negb _); [injection H as <- <- <-; left; eauto|].
  pose proof (blind_control _ ds x (settle_step_blind blake3 base_unique) Hc) as Hc1.
  destruct (blind_trace _ x (settle_step_blind blake3 base_unique)) as [T1 T2].
  destruct (settles x) as [[r|e] x1] eqn:Es; [|done]. cbn [snd] in *. assert (Ht1 : traces x1 = traces x) by (unfold traces; congruence).
  destruct (settles_ok _ _ _ _ _ Hok Es) as [Hok1 _]. destruct r as [o1|]; [injection H as <- <- <-; left; eauto|]. right.
  destruct (decides steps x1) as [[[i x2]|e]|] eqn:Ed; [|done|done]. pose proof (decide_control _ _ _ _ _ ds _ _ _ Hc1 Ed) as Hc2.
  destruct (x_ready x2 !! i) as [t|] eqn:Et; [|done]. destruct (decided_polls _ _ _ journaling _ config _ _ _ _ _ Hok1 Ed Et) as (x3 & Ep & Hok3).
  pose proof (blind_control _ (ds ++ [i]) (set_ready x2 (swap_remove (x_ready x2) i)) (poll_task_blind poll Hb t) Hc2) as Hc3.
  destruct (blind_trace _ (set_ready x2 (swap_remove (x_ready x2) i)) (poll_task_blind poll Hb t)) as [T3 T4]. rewrite Ep in H, Hc3, T3, T4.
  cbn [snd] in Hc3, T3, T4. destruct (note_traces x3) as [N1 N2]. exists x1, i, x2, t, x3. split_and!; try done.
  - eapply tasks_ok_ext; [symmetry; apply note_trace_quiet | done].
  - apply note_trace_control, Hc3.
  - intros He. destruct (decide_trace steps x1 i x2) as [D1 D2]; [apply Hc1 | congruence | done |]. cbn in T3, T4. rewrite N1, N2, T4. split; [|done].
    unfold traces. rewrite T3, D1, map_app, T1. done.
Qed.

(** The trace of a loop extends the trace before it, and its decisions the decisions before. *)
Lemma loop_traces fuel : forall steps x ds o n x', tasks_ok [] [] x -> control ds (x_scheduler x) -> length ds = steps ->
  trace_enabled (x_scheduler x) = true -> loops fuel None steps x = Some (Ok (o, n, x')) ->
  traces x `prefix_of` traces x' /\ ds `prefix_of` decisions (x_scheduler x').
Proof.
  induction fuel as [|fuel IH]; intros steps x ds o n x' Hok Hc Hl He H.
  - cbn [run_loop] in H. destruct (negb _); [|done]. injection H as <- <- <-. destruct Hc as (_ & _ & ->). done.
  - destruct (iteration _ _ _ _ _ _ _ Hok Hc Hl H) as [(x1 & -> & -> & (_ & _ & ->))|(x1 & i & x2 & t & x3 & _ & _ & _ & _ & Hok3 & _ & Hc3 & _ & _ & Ht & Hl3)]; [done|].
    destruct (Ht He) as [Ht3 He3]. destruct (IH (S steps) _ (ds ++ [i]) _ _ _ Hok3 Hc3 ltac:(rewrite length_app; cbn; lia) He3 Hl3) as [P1 P2]. rewrite Ht3 in P1.
    split; (etransitivity; [|eassumption]); apply prefix_app_r; done.
Qed.

Lemma lookup_prefix_of {A} (l k : list A) i a : l `prefix_of` k -> l !! i = Some a -> k !! i = Some a.
Proof. intros [m ->] H. apply lookup_app_l_Some. done. Qed.

(** A scheduler that replays is not strict here, and keeps no violation. *)
Lemma replays_control rs ds s : replays false rs ds s -> control ds s.
Proof. intros [[R1 R2 R3 R4 R5] _ _]. done. Qed.

(** The decisions of any run extend those before it. *)
Lemma loop_decisions fuel steps x ds o n x' : control ds (x_scheduler x) -> loops fuel None steps x = Some (Ok (o, n, x')) ->
  ds `prefix_of` decisions (x_scheduler x').
Proof.
  intros Hc H. pose proof (program_poll_blind blake3 keyed_blake3 journaling base_unique config) as Hb.
  destruct (run_loop_decisions _ _ _ _ _ _ Hb _ _ _ _ ds _ _ _ Hc H) as (more & (_ & _ & ->) & _). apply prefix_app_r. done.
Qed.

(** A decision of the flip run that the replay prescribes. *)
Lemma flip_decides rs steps x ds s i j y : replays false rs ds s -> length ds = steps -> rs !! steps = Some i -> (i < length (x_ready x))%nat ->
  decides steps (set_scheduler x s) = Some (Ok (j, y)) -> j = i.
Proof.
  intros Hr Hl Hi Hlt H. unfold decide_step in H. cbn [x_scheduler x_ready set_scheduler] in H. subst steps.
  destruct (replays_choose keyed_blake3 ln false rs ds i s (x_ready x) Hr Hi Hlt) as (s' & E & Hs'). rewrite E in H. unfold take_violation in H.
  rewrite (rp_violation _ _ _ _ (rs_replaying _ _ _ _ Hs')) in H. destruct (journal_rng_draw _ _ _ _) as [[u|e] x3]; [|done]. injection H as <- <-. done.
Qed.

(** After a decision the rest of the loop keeps the decisions made. *)
Lemma rest_extends fuel k x i ds o n x' start : control ds (x_scheduler x) ->
  match x_ready x !! i with
  | None => None
  | Some task =>
      let x := set_ready x (swap_remove (x_ready x) i) in
      let '(polled, x) := poll_task poll task x in
      let steps := if polled : bool then S k else k in
      match observe None x start with
      | (Some why, _) => Some (Ok (MonitorHalt why, steps, x))
      | (None, ms) => loops fuel ms steps (note_trace x)
      end
  end = Some (Ok (o, n, x')) -> ds `prefix_of` decisions (x_scheduler x').
Proof.
  intros Hc H. pose proof (program_poll_blind blake3 keyed_blake3 journaling base_unique config) as Hb. destruct (x_ready x !! i) as [t|]; [|done].
  pose proof (blind_control _ ds (set_ready x (swap_remove (x_ready x) i)) (poll_task_blind poll Hb t) Hc) as Hc1. cbv zeta in H.
  destruct (poll_task poll t _) as [polled x1]. cbn [snd observe] in *. eapply loop_decisions; [|exact H]. apply note_trace_control, Hc1.
Qed.

(** The flip run follows the base run to the branch point and takes the alternative there. *)
Lemma loop_follows fuel : forall steps x ds o n x' s k alt ready c o2 n2 x2, tasks_ok [] [] x -> control ds (x_scheduler x) -> length ds = steps ->
  trace_enabled (x_scheduler x) = true -> length (traces x) = steps -> loops fuel None steps x = Some (Ok (o, n, x')) ->
  traces x' !! k = Some (k, ready, c) -> (alt < length ready)%nat -> (steps <= k)%nat ->
  replays false (take k (decisions (x_scheduler x')) ++ [alt]) ds s ->
  loops fuel None steps (set_scheduler x s) = Some (Ok (o2, n2, x2)) ->
  take k (decisions (x_scheduler x')) ++ [alt] `prefix_of` decisions (x_scheduler x2).
Proof.
  induction fuel as [|fuel IH]; intros steps x ds o n x' s k alt ready c o2 n2 x2 Hok Hc Hl He Hlt H Hk Ha Hle Hr H2.
  { cbn [run_loop] in H. destruct (negb _); [|done]. injection H as <- <- <-. apply lookup_lt_Some in Hk. lia. }
  pose proof H as H'. destruct (iteration _ _ _ _ _ _ _ Hok Hc Hl H) as [(x1 & -> & E1 & _)|
    (x1 & i & x3 & t & x4 & Es & Ed & Et & Ep & Hok4 & Hc1 & Hc4 & _ & _ & Ht & Hl4)].
  { rewrite E1 in Hk. apply lookup_lt_Some in Hk. lia. }
  destruct (Ht He) as [Ht4 He4]. destruct (loop_traces _ (S steps) _ (ds ++ [i]) _ _ _ Hok4 Hc4 ltac:(rewrite length_app; cbn; lia) He4 Hl4) as [P1 Hds].
  cbn [run_loop] in H', H2. destruct (negb _) eqn:En; [injection H' as <- <- <-; apply lookup_lt_Some in Hk; lia|].
  destruct (settle_step_blind blake3 base_unique x) as [es Hes]. rewrite Hes, Es in H2. cbn [fst snd] in H2.
  apply (replays_emit _ _ _ _ es) in Hr. destruct (decide (steps = k)) as [->|Hne].
  - assert (Hready : ready = x_ready x1).
    { apply (lookup_prefix_of (traces (note_trace x4)) _ k (k, x_ready x1, i)) in P1; [rewrite P1 in Hk; injection Hk as <- _; done|].
      rewrite Ht4, lookup_app_r, Hlt, Nat.sub_diag by lia. done. }
    subst ready. assert (Htk : take k (decisions (x_scheduler x')) = ds).
    { destruct Hds as [more ->]. rewrite <- app_assoc, take_app_length' by lia. done. }
    rewrite Htk in *. destruct (decides k (set_scheduler x1 (emit_if s es))) as [[[j y]|e]|] eqn:Ed2; [|done|done].
    assert (j = alt) as -> by (apply (flip_decides _ k x1 ds _ alt j y Hr Hl); [rewrite lookup_app_r, Hl, Nat.sub_diag by lia; done | done | done]).
    apply (decide_control _ _ _ _ _ ds) in Ed2; [|exact (replays_control _ _ _ Hr)]. exact (rest_extends fuel k y alt _ _ _ _ 0%nat Ed2 H2).
  - set (rs := take k (decisions (x_scheduler x')) ++ [alt]) in *.
    assert (Hi : rs !! steps = Some i).
    { assert (Hs : decisions (x_scheduler x') !! steps = Some i).
      { apply (lookup_prefix_of _ _ steps i Hds). rewrite lookup_app_r, Hl, Nat.sub_diag by lia. done. }
      unfold rs. apply lookup_app_l_Some. rewrite lookup_take_lt by lia. exact Hs. }
    destruct Hc1 as (Hs1 & Hv1 & Hd1).
    destruct (decide_replays blake3 keyed_blake3 ln base_unique false rs x1 i x3 steps (emit_if s es) Hs1 Hv1 ltac:(congruence) Hi) as (s2 & Ed2 & Hs2);
      [rewrite Hd1; exact Hr | exact Ed |]. rewrite Ed2 in H2. cbn [x_ready set_scheduler] in H2. rewrite Et in H2. cbv zeta in H2.
    change (set_ready (set_scheduler x3 s2) (swap_remove (x_ready x3) i)) with (set_scheduler (set_ready x3 (swap_remove (x_ready x3) i)) s2) in H2.
    destruct (poll_task_blind poll (program_poll_blind _ _ _ _ _) t (set_ready x3 (swap_remove (x_ready x3) i))) as [es2 Hp]. rewrite Hp, Ep in H2.
    cbn [fst snd observe] in H2. rewrite Hd1 in Hs2. apply (replays_emit _ _ _ _ es2) in Hs2.
    rewrite note_trace_silent, <- (note_trace_forget x4) in H2 by apply Hs2.
    eapply (IH (S steps) (note_trace x4) (ds ++ [i])); [done | done | rewrite length_app; cbn; lia | done | rewrite Ht4, length_app; cbn; lia | done
      | exact Hk | exact Ha | lia | exact Hs2 | exact H2].
Qed.

(** The trace of a run: an entry for every decision, with its index, the choice and the ready list it is in. *)
Record indexed (ds : list nat) x : Prop := {
  ix_length : length (traces x) = length ds;
  ix_entry : forall k s r c, traces x !! k = Some (s, r, c) -> s = k /\ ds !! k = Some c /\ (c < length r)%nat }.

Lemma loop_indexed fuel : forall steps x ds o n x', tasks_ok [] [] x -> control ds (x_scheduler x) -> length ds = steps ->
  trace_enabled (x_scheduler x) = true -> indexed ds x -> loops fuel None steps x = Some (Ok (o, n, x')) -> indexed (decisions (x_scheduler x')) x'.
Proof.
  induction fuel as [|fuel IH]; intros steps x ds o n x' Hok Hc Hl He Hi H.
  - cbn [run_loop] in H. destruct (negb _); [|done]. injection H as <- <- <-. destruct Hc as (_ & _ & ->). done.
  - destruct (iteration _ _ _ _ _ _ _ Hok Hc Hl H) as [(x1 & -> & E & (_ & _ & ->))|(x1 & i & x2 & t & x3 & _ & Ed & Et & _ & Hok3 & _ & Hc3 & _ & _ & Ht & Hl3)].
    { destruct Hi as [H1 H2]. split; rewrite E; done. }
    destruct (Ht He) as [Ht3 He3]. apply (IH (S steps) (note_trace x3) (ds ++ [i]) o n x'); try done; [rewrite length_app; cbn; lia|].
    destruct Hi as [H1 H2]. split; [rewrite Ht3, !length_app, H1; done|]. intros k s r c Hk. rewrite Ht3 in Hk. apply lookup_app_Some in Hk as [Hk|[Hge Hk]].
    + destruct (H2 _ _ _ _ Hk) as (-> & Hd & Hlt). split_and!; [done | apply lookup_app_l_Some; done | done].
    + destruct (k - length (traces x))%nat eqn:E; [|done]. injection Hk as <- <- <-. assert (k = length ds) as -> by lia.
      split_and!; [lia | rewrite lookup_app_r, Nat.sub_diag by lia; done|].
      apply decide_quiet in Ed as [Hc' _]. unfold control_of in Hc'. injection Hc' as _ <- _. apply lookup_lt_Some in Et. exact Et.
Qed.
End Follow.

(** ** Runs of a campaign *)

Section Campaign.
Variables (blake3 keyed_blake3 : list byte -> list byte) (ln : spec_float -> spec_float) (journaling base_unique : bool).
Variable iter : gmap Z Z -> list (Z * Z).
Variables (fuel : nat) (programs : list Program) (cfg : DporConfig).

Abbreviation sims := (dpor_simulate blake3 keyed_blake3 ln journaling base_unique iter fuel programs cfg).
Abbreviation ends p := (run_to_end blake3 keyed_blake3 ln base_unique (dpor_run_config cfg p) (program_poll blake3 keyed_blake3 journaling base_unique (dpor_run_config cfg p)) fuel None).

(** The run loop does not look at the policy of the configuration. *)
Lemma policy_free p x : ends p x = ends Dpor x.
Proof. reflexivity. Qed.

Lemma sims_split p replay fb r : sims p replay fb = Some (Ok r) -> exists o n x,
  ends Dpor (executor_with journaling (dpor_run_config cfg p) (with_fallback p replay fb) programs) = Some (Ok (o, n, x)) /\
  rr_decisions r = decisions (x_scheduler x) /\ rr_trace r = trace (x_scheduler x).
Proof.
  intros H. apply run_split in H as (o & n & x & H & Hr). exists o, n, x. split; [exact H|]. unfold report, check_trailing in Hr.
  destruct (strict _ && _); [done|]. destruct (x_error x); [done|]. injection Hr as <-. done.
Qed.

(** A run of a campaign after its spawns. *)
Lemma ends_loop p replay fb o n x : ends Dpor (executor_with journaling (dpor_run_config cfg p) (with_fallback p replay fb) programs) = Some (Ok (o, n, x)) ->
  exists x1 es, control_of x1 = control_of (executor_with journaling (dpor_run_config cfg p) (with_fallback p replay fb) programs) /\
    x_scheduler x1 = emit_if (with_fallback p replay fb) es /\
    (forall s, (journal_spawns blake3 base_unique (set_scheduler (executor_with journaling (dpor_run_config cfg p) (with_fallback p replay fb) programs) s)).2
       = set_scheduler x1 (emit_if s es)) /\
    run_loop blake3 keyed_blake3 ln base_unique (dpor_run_config cfg Dpor) (program_poll blake3 keyed_blake3 journaling base_unique (dpor_run_config cfg Dpor)) fuel None 0 x1
      = Some (Ok (o, n, x)).
Proof.
  unfold run_to_end. set (x0 := executor_with _ _ _ _). intros H. pose proof (spawns_quiet blake3 base_unique x0) as Hq.
  destruct (spawns_blind blake3 base_unique x0) as [es Hes]. exists (journal_spawns blake3 base_unique x0).2, es. split_and!.
  - exact Hq.
  - specialize (Hes (x_scheduler x0)). rewrite set_scheduler_same in Hes. apply (f_equal snd) in Hes. cbn [snd] in Hes. rewrite Hes. done.
  - intros s. rewrite Hes. done.
  - destruct (journal_spawns _ _ x0) as [[u|e] x1]; [|done]. cbn [snd]. destruct (_ =? 0)%nat; exact H.
Qed.

(** The trace of the base run lists its decisions in order. *)
Lemma base_indexed base k t : sims Dpor [] Random = Some (Ok base) -> rr_trace base !! k = Some t ->
  st_step t = k /\ rr_decisions base !! k = Some (st_chosen t) /\ (st_chosen t < length (st_ready t))%nat.
Proof.
  intros H Ht. apply sims_split in H as (o & n & x & H & -> & Et). apply ends_loop in H as (x1 & es & Hc & Hs & _ & H). rewrite Et in Ht.
  assert (Hok : tasks_ok [] [] x1) by (eapply tasks_ok_ext; [symmetry; exact Hc | apply start_ok]).
  assert (He : trace_enabled (x_scheduler x1) = true) by (rewrite Hs; unfold emit_if; destruct (novelty_active _); [rewrite (proj2 (emit_trace _ _))|]; done).
  assert (Hn : traces x1 = []) by (unfold traces; rewrite Hs; unfold emit_if; destruct (novelty_active _); [rewrite (proj1 (emit_trace _ _))|]; done).
  apply (loop_indexed _ _ _ _ _ _ _ _ _ []) in H; [|done | rewrite Hs; apply control_emit; done | done | done |].
  - apply (ix_entry _ _ H k). unfold traces. rewrite list_lookup_fmap, Ht. done.
  - split; rewrite Hn; [done|]. intros j s r c Hj. done.
Qed.

(** A flip run makes the decisions of the base run before its branch point, and the alternative there. *)
Lemma flip_follows base run k t alt : sims Dpor [] Random = Some (Ok base) -> rr_trace base !! k = Some t -> (alt < length (st_ready t))%nat ->
  sims Replay (take k (rr_decisions base) ++ [alt]) Random = Some (Ok run) -> take k (rr_decisions base) ++ [alt] `prefix_of` rr_decisions run.
Proof.
  intros H Ht Ha H2. destruct (base_indexed _ _ _ H Ht) as (Hst & _ & _).
  apply sims_split in H as (o & n & x & H & Ed & Et). rewrite Et in Ht. rewrite Ed in *.
  apply sims_split in H2 as (o2 & n2 & x2 & H2 & -> & _).
  apply ends_loop in H as (x1 & es & Hc & Hs & Hsp & H). set (rs := take k (decisions (x_scheduler x)) ++ [alt]) in *.
  assert (Hok : tasks_ok [] [] x1) by (eapply tasks_ok_ext; [symmetry; exact Hc | apply start_ok]).
  assert (He : trace_enabled (x_scheduler x1) = true) by (rewrite Hs; unfold emit_if; destruct (novelty_active _); [rewrite (proj2 (emit_trace _ _))|]; done).
  assert (Hn : traces x1 = []) by (unfold traces; rewrite Hs; unfold emit_if; destruct (novelty_active _); [rewrite (proj1 (emit_trace _ _))|]; done).
  eapply (loop_follows _ _ _ _ _ _ fuel 0%nat x1 [] o n x (emit_if (with_fallback Replay rs Random) es) k alt);
    [done | rewrite Hs; apply control_emit; done | done | done | rewrite Hn; done | exact H | unfold traces; rewrite list_lookup_fmap, Ht; unfold decision_of; cbn; rewrite Hst; reflexivity
    | exact Ha | lia | apply replays_emit; split; [split; done | done | done] |].
  rewrite <- Hsp. unfold run_to_end in H2.
  change (set_scheduler (executor_with journaling (dpor_run_config cfg Dpor) _ programs) (with_fallback Replay rs Random))
    with (executor_with journaling (dpor_run_config cfg Replay) (with_fallback Replay rs Random) programs).
  destruct (journal_spawns _ _ (executor_with _ _ _ _)) as [[u|e] x3]; [|done]. cbn [snd]. destruct (_ =? 0)%nat; exact H2.
Qed.

(** *** The exploration *)

(** The clocks of the tasks at a branch point: the entries journaled by the steps before it. *)
Definition clocks_at (js : list JEntry) (ts : list StepTrace) : option (gmap Z VectorClock * nat) :=
  foldl (fun acc t => acc ≫= fun p => advance_clocks js p.1 p.2 (st_journal_len t)) (Some (∅, 0%nat)) ts.

(** A flip of the base run: the task [key.2], ready but not chosen at step [key.1], forced there after the base run's decisions. *)
Definition is_flip (base : RunReport) (key : nat * nat) (run : DporRun) : Prop :=
  exists t pos, rr_trace base !! key.1 = Some t /\ st_ready t !! pos = Some key.2 /\ pos <> st_chosen t /\
    dr_forced_prefix_len run = S key.1 /\ take (S key.1) (dr_decisions run) = take key.1 (rr_decisions base) ++ [pos].

Record explored_ok (base : RunReport) (first : DporRun) (e : Exploration) : Prop := {
  eo_flips : exists flips, ex_runs e = first :: flips /\ Forall2 (is_flip base) (ex_keys e) flips;
  eo_keys : NoDup (ex_keys e);
  eo_known : forall key, key ∈ ex_keys e -> key ∈ ex_explored e;
  eo_budget : Z.of_nat (length (ex_runs e)) <= Z.max 1 (dc_max_runs cfg) }.

(** The loops go on only while every explored key has its run. *)
Definition going (b : bool) (e : Exploration) : Prop :=
  if b then spent cfg e = true else forall key, key ∈ ex_explored e -> key ∈ ex_keys e.

Abbreviation flips := (explore_flip blake3 keyed_blake3 ln journaling base_unique iter fuel programs cfg).
Abbreviation readies := (explore_ready blake3 keyed_blake3 ln journaling base_unique iter fuel programs cfg).
Abbreviation explores := (explore_trace blake3 keyed_blake3 ln journaling base_unique iter fuel programs cfg).

Lemma explore_flip_ok base first vc k t chosen pos alt e b e' : sims Dpor [] Random = Some (Ok base) -> rr_trace base !! k = Some t ->
  st_ready t !! pos = Some alt -> explored_ok base first e -> going false e -> flips base vc t chosen pos alt e = Some (Ok (b, e')) ->
  explored_ok base first e' /\ going b e' /\ ex_keys e ⊆ ex_keys e' /\
  (b = false -> pos = st_chosen t \/ sleep_set_pruned vc chosen alt = true \/ (k, alt) ∈ ex_keys e').
Proof.
  intros Hb Ht Hp [(fs & Er & Hf) Hn Hk Hm] Hg H. destruct (base_indexed _ _ _ Hb Ht) as (Hst & _ & _). unfold explore_flip in H. rewrite Hst in H.
  destruct (Nat.eqb_spec pos (st_chosen t)) as [Ep|Ep]; [injection H as <- <-; split_and!; [split; eauto | done | done | auto]|].
  destruct (sleep_set_pruned vc chosen alt) eqn:Es; [injection H as <- <-; split_and!; [split; eauto | done | done | auto]|].
  destruct (bool_decide_reflect ((k, alt) ∈ ex_explored e)) as [Hin|Hin]; [injection H as <- <-; split_and!; [split; eauto | done | done | auto]|].
  destruct (spent cfg _) eqn:Esp.
  { injection H as <- <-. split_and!; [|done|done|done]. split; cbn; [eauto | done | | done]. intros key Hkey. set_solver. }
  destruct (_ <? k)%nat; [done|]. destruct (sims Replay _ Random) as [[run|err]|] eqn:Er2; [|done|done]. injection H as <- <-.
  pose proof (flip_follows base run k t pos Hb Ht (lookup_lt_Some _ _ _ Hp) Er2) as Hpre.
  assert (Hnew : (k, alt) ∉ ex_keys e) by (intros Hx; apply Hin, Hk, Hx). split_and!.
  - split; cbn [ex_runs ex_keys ex_explored].
    + exists (fs ++ [mkDporRun (root_hash blake3 (rr_journal run)) (rr_decisions run) (S k)]). rewrite Er. split; [done|]. apply Forall2_app; [done|].
      constructor; [|constructor]. exists t, pos. split_and!; [done | done | done | done|]. cbn [fst dr_decisions]. destruct Hpre as [more ->].
      destruct (base_indexed _ _ _ Hb Ht) as (_ & Hd & _). apply lookup_lt_Some in Hd.
      rewrite take_app_length'; [done|]. rewrite length_app, length_take. cbn. lia.
    + apply list.NoDup_app. split; [done|]. split; [|apply list.NoDup_singleton]. intros key Hkey ->%list_elem_of_singleton. done.
    + intros key Hkey. apply elem_of_app in Hkey as [Hkey| ->%list_elem_of_singleton]; [apply elem_of_union_r, Hk, Hkey | set_solver].
    + unfold spent in Esp. cbn in Esp. apply Z.leb_gt in Esp. rewrite length_app. cbn. lia.
  - unfold going. case_match; [done|]. intros key Hkey. cbn in *. apply elem_of_union in Hkey as [Hkey|Hkey].
    + apply elem_of_singleton in Hkey as ->. apply elem_of_app. right. left.
    + apply elem_of_app. left. apply Hg, Hkey.
  - cbn. intros key Hkey. apply elem_of_app. auto.
  - intros _. right. right. cbn. apply elem_of_app. right. left.
Qed.

Lemma explore_ready_ok base first vc k t chosen alts : forall pos e b e', sims Dpor [] Random = Some (Ok base) -> rr_trace base !! k = Some t ->
  (forall j a, alts !! j = Some a -> st_ready t !! (pos + j)%nat = Some a) -> explored_ok base first e -> going false e ->
  readies base vc t chosen pos alts e = Some (Ok (b, e')) ->
  explored_ok base first e' /\ going b e' /\ ex_keys e ⊆ ex_keys e' /\
  (b = false -> forall j a, alts !! j = Some a -> (pos + j)%nat = st_chosen t \/ sleep_set_pruned vc chosen a = true \/ (k, a) ∈ ex_keys e').
Proof.
  induction alts as [|alt alts IH]; intros pos e b e' Hb Ht Hp Hok Hg H; cbn [explore_ready] in H.
  { injection H as <- <-. done. }
  destruct (flips base vc t chosen pos alt e) as [[[b1 e1]|err]|] eqn:E; [|done|done].
  assert (Hp0 : st_ready t !! pos = Some alt) by (rewrite <- (Nat.add_0_r pos); apply (Hp 0%nat); done).
  destruct (explore_flip_ok _ first _ k _ _ _ _ _ _ _ Hb Ht Hp0 Hok Hg E) as (Hok1 & Hg1 & Hs1 & Hc1).
  destruct b1; [injection H as <- <-; done|].
  destruct (IH (S pos) e1 b e' Hb Ht) as (Hok2 & Hg2 & Hs2 & Hc2); [|done..|].
  { intros j a Hj. rewrite Nat.add_succ_comm. apply (Hp (S j)). done. }
  split_and!; [done | done | set_solver |]. intros -> j a Hj. destruct j as [|j].
  - injection Hj as ->. rewrite Nat.add_0_r. destruct (Hc1 eq_refl) as [?|[?|?]]; auto.
  - rewrite <- Nat.add_succ_comm. apply Hc2; done.
Qed.

(** Every alternative of the steps before is pruned or explored. *)
Definition covered (base : RunReport) (keys : list (nat * nat)) (n : nat) : Prop :=
  forall k t vc idx chosen pos alt, (k < n)%nat -> rr_trace base !! k = Some t -> clocks_at (entries (rr_journal base)) (take k (rr_trace base)) = Some (vc, idx) ->
    st_ready t !! st_chosen t = Some chosen -> st_ready t !! pos = Some alt -> pos <> st_chosen t ->
    sleep_set_pruned vc chosen alt = true \/ (k, alt) ∈ keys.

Lemma explore_trace_ok base first ts : forall n vc idx e e', sims Dpor [] Random = Some (Ok base) -> drop n (rr_trace base) = ts -> (n <= length (rr_trace base))%nat ->
  clocks_at (entries (rr_journal base)) (take n (rr_trace base)) = Some (vc, idx) -> explored_ok base first e -> going false e -> covered base (ex_keys e) n ->
  explores base (entries (rr_journal base)) vc idx ts e = Some (Ok e') ->
  explored_ok base first e' /\ (covered base (ex_keys e') (length (rr_trace base)) \/ spent cfg e' = true).
Proof.
  induction ts as [|t ts IH]; intros n vc idx e e' Hb Hd Hn Hvc Hok Hg Hcov H; cbn [explore_trace] in H.
  { injection H as <-. split; [done|]. left. apply (f_equal length) in Hd. rewrite length_drop in Hd. cbn in Hd. replace (length (rr_trace base)) with n by lia. done. }
  assert (Ht : rr_trace base !! n = Some t) by (rewrite <- (Nat.add_0_r n), <- lookup_drop, Hd; done).
  destruct (st_ready t !! st_chosen t) as [chosen|] eqn:Ec; [|done]. destruct (readies base vc t chosen 0 _ e) as [[[b e1]|err]|] eqn:E; [|done|done].
  destruct (explore_ready_ok base first vc n t chosen (st_ready t) 0%nat e b e1 Hb Ht (fun j a H => H) Hok Hg E) as (Hok1 & Hg1 & Hs1 & Hc1).
  destruct b; [injection H as <-; auto|]. destruct (advance_clocks _ vc idx _) as [[vc1 idx1]|] eqn:Ea; [|done].
  apply (IH (S n) vc1 idx1 e1 e'); try done.
  - rewrite <- (drop_drop (rr_trace base) n 1), Hd || (replace (S n) with (n + 1)%nat by lia; rewrite <- drop_drop, Hd). done.
  - apply lookup_lt_Some in Ht. lia.
  - rewrite (take_S_r _ _ _ Ht). unfold clocks_at in *. rewrite foldl_app, Hvc. exact Ea.
  - intros k t' vc' idx' chosen' pos alt Hk Ht' Hvc' Hch Hpos Hne. destruct (decide (k = n)) as [->|Hkn].
    + rewrite Ht in Ht'. injection Ht' as <-. rewrite Hvc in Hvc'. injection Hvc' as <- <-. rewrite Ec in Hch. injection Hch as <-.
      destruct (Hc1 eq_refl pos alt Hpos) as [?|?]; [done | done].
    + destruct (Hcov k t' vc' idx' chosen' pos alt ltac:(lia) Ht' Hvc' Hch Hpos Hne) as [?|?]; auto.
Qed.

(** C27: A campaign does what it reports: the base run first; then, for every explored key, one run that makes the base run's
    decisions up to the branch point and there schedules the alternative task; no key twice and no more runs than the budget
    (one when it is zero); and unless the budget is used up, every ready task that was not chosen at a step of the base run is
    explored there or was pruned because its clock and the chosen task's are ordered. *)
Theorem dpor_exact rep : run_dpor blake3 keyed_blake3 ln journaling base_unique iter fuel programs cfg = Some (Ok rep) ->
  exists base fs, sims Dpor [] Random = Some (Ok base) /\
    dp_runs rep = mkDporRun (root_hash blake3 (rr_journal base)) (rr_decisions base) 0 :: fs /\
    Forall2 (is_flip base) (dp_explored_flip_keys rep) fs /\ NoDup (dp_explored_flip_keys rep) /\ dp_explored_flips rep = length fs /\
    Z.of_nat (length (dp_runs rep)) <= Z.max 1 (dc_max_runs cfg) /\
    (Z.of_nat (length (dp_runs rep)) < dc_max_runs cfg -> covered base (dp_explored_flip_keys rep) (length (rr_trace base))).
Proof.
  unfold run_dpor. destruct (sims Dpor [] Random) as [[base|err]|] eqn:Eb; [|done|done]. set (first := mkDporRun _ _ 0).
  destruct (explores base _ ∅ 0 _ _) as [[e|err]|] eqn:E; [|done|done]. intros [= <-]. cbn.
  apply (explore_trace_ok base first _ 0%nat) in E as ([(fs & Er & Hf) Hn _ Hm] & Hc); [|done | done | lia | done | | done |].
  - exists base, fs. split_and!; [done..| |done|]; [exact (Forall2_length Hf)|]. intros Hlt. destruct Hc as [Hc|Hc]; [done|].
    unfold spent in Hc. apply Z.leb_le in Hc. lia.
  - split; cbn; [exists []; done | constructor | intros key Hk; inversion Hk | lia].
  - intros k t vc idx chosen pos alt Hk. lia.
Qed.
End Campaign.

(** Two tasks that do not meet: flips are explored and runs are left over. *)
Definition apart : list Program := [[ISet 1; IDone]; [ISet 2; IDone]].
Definition apart_config : DporConfig := mkDporConfig (repeat x00 32) 10 8.

Abbreviation sample_campaign := (run_dpor tail_digest tail_digest plain_ln false true map_to_list 10 apart apart_config).

Lemma dpor_exact_witness : exists rep base fs, sample_campaign = Some (Ok rep) /\ (1 < length (dp_runs rep))%nat /\
  dp_runs rep = mkDporRun (root_hash tail_digest (rr_journal base)) (rr_decisions base) 0 :: fs /\
  Forall2 (is_flip base) (dp_explored_flip_keys rep) fs.
Proof.
  assert (Hc : match sample_campaign with Some (Ok rep) => (1 <? length (dp_runs rep))%nat = true | _ => False end) by (vm_compute; reflexivity).
  destruct sample_campaign as [[rep|e]|] eqn:E; [|destruct Hc..]. apply Nat.ltb_lt in Hc.
  destruct (dpor_exact _ _ _ _ _ _ _ _ _ rep E) as (base & fs & _ & H1 & H2 & _). exists rep, base, fs. split; [reflexivity|]. split; [exact Hc|]. split; [exact H1 | exact H2].
Defined.
