(* ===== verification/FaultSpec.v ===== *)
(** * Failure specifications

    Models [ledger-faultspec/src/parser.rs], [compiler.rs], [library.rs] and [ledger-explorer/src/faultspec_bridge.rs]: the
    line-oriented language of failure scenarios, its compilation to fault entries and a schedule of injections, the actor
    registry, and the conversion of a schedule to engine faults.

    Text is a list of UTF-8 bytes.  The patterns the parser searches for are ASCII, so positions in bytes and in the lowered
    text agree; white space is the Unicode property, in its UTF-8 encodings.  Errors that carry a formatted message are
    constructors with the values in the message. *)

From stdpp Require Import gmap.
From S2P Require Import Prelude Machine Limits Value Path Hex Entry OrdMap Order Clock Dag Net Ldfi.

Open Scope Z_scope.

Abbreviation text := (list byte).
Abbreviation lit s := (bytes_of_string s%string).

(** ** Text *)

Definition to_ascii_lowercase (s : text) : text := map (fun b => if (65 <=? b2z b) && (b2z b <=? 90) then z2b (b2z b + 32) else b) s.

Definition starts_with (p s : text) : bool := bool_decide (take (length p) s = p).

(** [str::find] and [str::rfind]. *)
Fixpoint find_from (p s : text) (i : nat) : option nat :=
  if starts_with p s then Some i else match s with [] => None | _ :: s => find_from p s (S i) end.
Definition text_find (p s : text) : option nat := find_from p s 0.

Fixpoint rfind_from (p s : text) (i : nat) (last : option nat) : option nat :=
  let last := if starts_with p s then Some i else last in
  match s with [] => last | _ :: s => rfind_from p s (S i) last end.
Definition text_rfind (p s : text) : option nat := rfind_from p s 0 None.

Definition contains (p s : text) : bool := match text_find p s with Some _ => true | None => false end.

Definition strip_suffix (p s : text) : option text :=
  if (length p <=? length s)%nat && bool_decide (drop (length s - length p) s = p) then Some (take (length s - length p) s) else None.

(** The length in bytes of the white space at the head of the text, or zero. *)
Definition ws_len (s : text) : nat :=
  match map b2z (take 3 s) with
  | a :: rest =>
      if ((9 <=? a) && (a <=? 13)) || (a =? 32) then 1%nat
      else
        match rest with
        | b :: rest =>
            if (a =? 194) && ((b =? 133) || (b =? 160)) then 2%nat
            else
              match rest with
              | [c] =>
                  if ((a =? 225) && (b =? 154) && (c =? 128))
                     || ((a =? 226) && (b =? 128) && (((128 <=? c) && (c <=? 138)) || (c =? 168) || (c =? 169) || (c =? 175)))
                     || ((a =? 226) && (b =? 129) && (c =? 159))
                     || ((a =? 227) && (b =? 128) && (c =? 128))
                  then 3%nat else 0%nat
              | _ => 0%nat
              end
        | [] => 0%nat
        end
  | [] => 0%nat
  end.

(** The same at the end of the text. *)
Definition ws_len_end (s : text) : nat :=
  let at_ n := if (n <=? length s)%nat && (ws_len (drop (length s - n) s) =? n)%nat then n else 0%nat in
  Nat.max (at_ 1%nat) (Nat.max (at_ 2%nat) (at_ 3%nat)).

(** [trim_start]; [skip] bytes belong to white space already seen. *)
Fixpoint trim_start (skip : nat) (s : text) : text :=
  match s with
  | [] => []
  | _ :: rest =>
      match skip with
      | S k => trim_start k rest
      | O => match ws_len s with O => s | S k => trim_start k rest end
      end
  end.

Fixpoint trim_end (fuel : nat) (s : text) : text :=
  match fuel with
  | O => s
  | S fuel => match ws_len_end s with O => s | n => trim_end fuel (take (length s - n) s) end
  end.

Definition trim (s : text) : text := let s := trim_start 0 s in trim_end (length s) s.

(** [trim_end_matches] of one character. *)
Fixpoint trim_end_matches_rev (c : byte) (r : text) : text :=
  match r with b :: r' => if bool_decide (b = c) then trim_end_matches_rev c r' else r | [] => [] end.
Definition trim_end_matches (c : byte) (s : text) : text := rev (trim_end_matches_rev c (rev s)).

Definition flush (cur : text) : list text := match cur with [] => [] | _ => [cur] end.

(** [split_whitespace]. *)
Fixpoint words (skip : nat) (cur s : text) : list text :=
  match s with
  | [] => flush cur
  | b :: rest =>
      match skip with
      | S k => words k cur rest
      | O => match ws_len s with O => words 0 (cur ++ [b]) rest | S k => flush cur ++ words k [] rest end
      end
  end.
Definition split_whitespace (s : text) : list text := words 0 [] s.

Definition strip_cr (s : text) : text := default s (strip_suffix [x0d] s).

(** [str::lines]: the text before each line feed, less a carriage return, and what follows the last one. *)
Fixpoint lines_from (cur s : text) : list text :=
  match s with
  | [] => flush cur
  | b :: s => if bool_decide (b = x0a) then strip_cr cur :: lines_from [] s else lines_from (cur ++ [b]) s
  end.
Definition text_lines (s : text) : list text := lines_from [] s.

(** ** Numbers *)

Inductive IntErrorKind : Type := IntEmpty | InvalidDigit | PosOverflow.

Definition digit_of (radix : Z) (b : byte) : option Z :=
  match hex_val b with Some d => if d <? radix then Some d else None | None => None end.

Fixpoint parse_digits (radix max acc : Z) (s : text) : result IntErrorKind Z :=
  match s with
  | [] => Ok acc
  | b :: s =>
      match digit_of radix b with
      | None => Err InvalidDigit
      | Some d => if max <? acc * radix + d then Err PosOverflow else parse_digits radix max (acc * radix + d) s
      end
  end.

(** [from_str_radix] of an unsigned type: an optional plus sign and at least one digit. *)
Definition parse_uint (radix max : Z) (s : text) : result IntErrorKind Z :=
  match s with
  | [] => Err IntEmpty
  | b :: rest =>
      match rest with
      | [] => if bool_decide (b = x2b) || bool_decide (b = x2d) then Err InvalidDigit else parse_digits radix max 0 s
      | _ => if bool_decide (b = x2b) then parse_digits radix max 0 rest else parse_digits radix max 0 s
      end
  end.

(** ** Scenarios *)

Definition MAX_NAME_LEN : Z := 64.

Inductive Block : Type :=
| BDrop (percent : Z) (src dst : text) (duration_ticks period_ticks : Z)
| BCrashRestart (actor after : text)
| BCorrupt (range : Z * Z) (segment : text)
| BTornWrite (flag : text)
| BPartition (src dst : text)
| BClockSkew (actor : text) (skew_ticks : Z)
| BBoundedLatency (src dst : text) (delay_ticks : Z)
| BDuplicate (src dst : text).

Record Scenario : Type := mkScenario { sc_name : text; sc_blocks : list Block }.

Inductive ScenarioError : Type :=
| EmptyInput
| InvalidSyntax (line : text)
| NameTooLong (name : text)
| ActorNameLength (name : text)
| EmptyCrashName (actor after : text)
| EmptyFlag
| NegativeSkew (actor : text) (skew : Z)
| InvalidPercent (percent : Z)
| InvalidRange (start end_ : Z)
| DuplicateTarget (key : text)
| InvalidDuration (token : text)
| SkewOutOfRange (token : text)
| InvalidNumber (token : text) (source : IntErrorKind)
| InvalidHex (token : text) (source : IntErrorKind)
| TooManyFaults (count : nat)
| ActorStorm (actor : text)
| UnknownActor (name : text)
| ActorCollision (first second : text) (id : Z)
| InvalidActorId (name : text) (id : Z).

Abbreviation sres := (result ScenarioError).

Definition check_name_len (name : text) : sres unit :=
  if MAX_NAME_LEN <? Z.of_nat (length name) then Err (NameTooLong name) else Ok tt.

Definition checked_mul (a b : Z) : option Z := if u64_max <? a * b then None else Some (a * b).

(** The number before a unit, scaled. *)
Definition scaled (s number : text) (unit_ : Z) : sres Z :=
  let? value := map_err (InvalidNumber s) (parse_uint 10 u64_max number) in
  ok_or (checked_mul value unit_) (InvalidDuration s).

Definition parse_duration_ticks (s : text) : sres Z :=
  let t := trim_end_matches x2e (trim_end_matches x2c (trim s)) in
  if bool_decide (t = []) then Err (InvalidDuration s)
  else
    match strip_suffix (lit "ms") t with
    | Some number => scaled s number 1000
    | None =>
        match strip_suffix (lit "us") t with
        | Some number => map_err (InvalidNumber s) (parse_uint 10 u64_max number)
        | None =>
            match strip_suffix (lit "s") t with
            | Some number => scaled s number 1000000
            | None => map_err (InvalidNumber s) (parse_uint 10 u64_max t)
            end
        end
    end.

Definition parse_hex_u64 (s : text) : sres Z :=
  let t := trim s in
  let hex := if starts_with (lit "0x") t || starts_with (lit "0X") t then drop 2 t else t in
  map_err (InvalidHex s) (parse_uint 16 u64_max hex).

(** The first token with a percent sign that holds a number. *)
Fixpoint percent_of (line : text) (toks : list text) : sres Z :=
  match toks with
  | [] => Err (InvalidSyntax line)
  | tok :: toks =>
      match strip_suffix (lit "%") tok with
      | Some number => map_err (InvalidNumber number) (parse_uint 10 255 number)
      | None =>
          match text_find (lit "%") tok with
          | Some p => match parse_uint 10 255 (take p tok) with Ok v => Ok v | Err _ => percent_of line toks end
          | None => percent_of line toks
          end
      end
  end.
Definition extract_percent (line : text) : sres Z := percent_of line (split_whitespace line).

Fixpoint link_of (line : text) (toks : list text) : sres (text * text) :=
  match toks with
  | [] => Err (InvalidSyntax line)
  | tok :: toks =>
      match text_find (lit "->") tok with
      | Some pos =>
          let s := trim (take pos tok) in
          let d := trim_end_matches x2c (trim (drop (pos + 2) tok)) in
          if negb (bool_decide (s = [])) && negb (bool_decide (d = [])) then
            let? _ := check_name_len s in
            let? _ := check_name_len d in
            Ok (s, d)
          else link_of line toks
      | None => link_of line toks
      end
  end.
Definition extract_link (line : text) : sres (text * text) := link_of line (split_whitespace line).

Definition extract_duration_after (line kw : text) : sres (option Z) :=
  match text_find (lit " " ++ kw ++ lit " ") (to_ascii_lowercase line) with
  | None => Ok None
  | Some pos =>
      match split_whitespace (drop (pos + length kw + 2) line) with
      | [] => Ok None
      | token :: _ => let? ticks := parse_duration_ticks token in Ok (Some ticks)
      end
  end.

Definition parse_drop (line : text) : sres Block :=
  let? p := extract_percent line in
  let? '(s, d) := extract_link line in
  if 100 <? p then Err (InvalidPercent p)
  else
    let? duration := extract_duration_after line (lit "for") in
    let? period := extract_duration_after line (lit "every") in
    Ok (BDrop p s d (default 0 duration) (default 0 period)).

Definition parse_crash_restart (line : text) : sres Block :=
  let r := trim (drop 13 line) in
  if bool_decide (r = []) then Err (InvalidSyntax line)
  else
    match text_find (lit " after ") (to_ascii_lowercase r) with
    | Some pos =>
        let a := trim (take pos r) in
        let af := trim (drop (pos + 7) r) in
        if bool_decide (a = []) || bool_decide (af = []) then Err (InvalidSyntax line)
        else
          let? _ := check_name_len a in
          let? _ := check_name_len af in
          Ok (BCrashRestart a af)
    | None => let? _ := check_name_len r in Ok (BCrashRestart r (lit "FsFsync"))
    end.

Definition parse_corrupt (line : text) : sres Block :=
  let? lb := ok_or (text_find (lit "[") line) (InvalidSyntax line) in
  let? co := ok_or (text_find (lit ",") (drop lb line)) (InvalidSyntax line) in
  let co := (co + lb)%nat in
  let? rb := ok_or (text_find (lit ")") (drop co line)) (InvalidSyntax line) in
  let rb := (rb + co)%nat in
  let? st := parse_hex_u64 (trim (take (co - S lb) (drop (S lb) line))) in
  let? en := parse_hex_u64 (trim (take (rb - S co) (drop (S co) line))) in
  if en <=? st then Err (InvalidRange st en)
  else
    let? p := ok_or (text_rfind (lit " of ") (to_ascii_lowercase line)) (InvalidSyntax line) in
    let seg := trim (drop (p + 4) line) in
    if bool_decide (seg = []) then Err (InvalidSyntax line)
    else let? _ := check_name_len seg in Ok (BCorrupt (st, en) seg).

Definition parse_torn_write (line : text) : sres Block :=
  let? flag :=
    match text_find (lit " on ") (to_ascii_lowercase line) with
    | Some pos => Ok (trim (drop (pos + 4) line))
    | None => let rest := trim (drop 10 line) in if bool_decide (rest = []) then Err (InvalidSyntax line) else Ok rest
    end in
  if bool_decide (flag = []) then Err (InvalidSyntax line)
  else let? _ := check_name_len flag in Ok (BTornWrite flag).

Definition parse_partition (line : text) : sres Block :=
  let? '(s, d) := extract_link (trim (drop 9 line)) in Ok (BPartition s d).
Definition parse_duplicate (line : text) : sres Block :=
  let? '(s, d) := extract_link (trim (drop 9 line)) in Ok (BDuplicate s d).

Definition i64_max : Z := 2 ^ 63 - 1.

Definition parse_clock_skew (line : text) : sres Block :=
  let rest := trim (drop 10 line) in
  let '(actor, dur_s) :=
    match text_find (lit " by ") (to_ascii_lowercase rest) with
    | Some pos => (trim (take pos rest), trim (drop (pos + 4) rest))
    | None => match split_whitespace rest with [] => ([], []) | [a] => (a, []) | a :: d :: _ => (a, d) end
    end in
  if bool_decide (actor = []) || bool_decide (dur_s = []) then Err (InvalidSyntax line)
  else
    let? _ := check_name_len actor in
    let neg := starts_with (lit "-") dur_s in
    let raw := if neg then drop 1 dur_s else dur_s in
    let? ticks := parse_duration_ticks raw in
    if i64_max <? ticks then Err (SkewOutOfRange dur_s)
    else Ok (BClockSkew actor (if neg then - ticks else ticks)).

Definition parse_bounded_latency (line : text) : sres Block :=
  let rest := if starts_with (lit "delay ") (to_ascii_lowercase line) then trim (drop 5 line) else trim (drop 15 line) in
  let? '(s, d) := extract_link rest in
  let? delay :=
    match text_find (lit " by ") (to_ascii_lowercase rest) with
    | Some pos => parse_duration_ticks (trim (drop (pos + 4) rest))
    | None =>
        let last := default [] (list.last (split_whitespace rest)) in
        if contains (lit "ms") last || contains (lit "s") last then parse_duration_ticks last else Ok 0
    end in
  Ok (BBoundedLatency s d delay).

Definition parse_block (line : text) : sres Block :=
  let l := to_ascii_lowercase line in
  if starts_with (lit "drop ") l then parse_drop line
  else if starts_with (lit "crash-restart ") l then parse_crash_restart line
  else if starts_with (lit "corrupt ") l then parse_corrupt line
  else if bool_decide (l = lit "torn-write") || starts_with (lit "torn-write ") l then parse_torn_write line
  else if starts_with (lit "partition ") l then parse_partition line
  else if starts_with (lit "duplicate ") l then parse_duplicate line
  else if starts_with (lit "clock-skew ") l then parse_clock_skew line
  else if starts_with (lit "delay ") l || starts_with (lit "bounded-latency ") l then parse_bounded_latency line
  else Err (InvalidSyntax line).

Fixpoint parse_blocks (ls : list text) : sres (list Block) :=
  match ls with
  | [] => Ok []
  | l :: ls => let? b := parse_block l in let? bs := parse_blocks ls in Ok (b :: bs)
  end.

(** The lines that say something. *)
Definition content_lines (input : text) : list text :=
  List.filter (fun t => negb (bool_decide (t = [])) && negb (starts_with (lit "#") t)) (map trim (text_lines input)).

Definition parse_scenario (input : text) : sres Scenario :=
  match content_lines input with
  | [] => Err EmptyInput
  | (l0 :: rest) as ls =>
      let? '(name, ls) :=
        if starts_with (lit "scenario ") (to_ascii_lowercase l0) then
          let n := trim (drop 9 l0) in
          if bool_decide (n = []) then Ok (lit "default", rest) else let? _ := check_name_len n in Ok (n, rest)
        else Ok (lit "default", ls) in
      let? blocks := parse_blocks ls in
      if bool_decide (name = lit "default") && bool_decide (blocks = []) then Err EmptyInput
      else Ok (mkScenario name blocks)
  end.

#[global] Instance Block_eq_dec : EqDecision Block.
Proof. solve_decision. Defined.

(** ** The actor registry *)

Definition MAX_REGISTRY_ACTOR_ID : Z := 2 ^ 20.

Record ActorRegistry : Type := mkRegistry { by_name : gmap text Z; by_id : gmap Z text }.

Definition registry_new : ActorRegistry := mkRegistry ∅ ∅.

Definition bad_name_len (name : text) : bool := bool_decide (name = []) || (MAX_NAME_LEN <? Z.of_nat (length name)).

Definition register_actor (r : ActorRegistry) (name : text) (id : Z) : sres ActorRegistry :=
  if bad_name_len name then Err (ActorNameLength name)
  else if MAX_REGISTRY_ACTOR_ID <? id then Err (InvalidActorId name id)
  else
    match by_name r !! name with
    | Some known => if known =? id then Ok r else Err (ActorCollision name name id)
    | None =>
        match by_id r !! id with
        | Some owner => Err (ActorCollision owner name id)
        | None => Ok (mkRegistry (<[name := id]> (by_name r)) (<[id := name]> (by_id r)))
        end
    end.

(** [let _ = registry.register(..)]. *)
Definition register_silently (r : ActorRegistry) (name : text) (id : Z) : ActorRegistry :=
  match register_actor r name id with Ok r => r | Err _ => r end.

Definition with_known : ActorRegistry :=
  register_silently (register_silently registry_new (lit "leader") 3002) (lit "replica") 4633.

(** The number after the last of a separator. *)
Definition suffix_after (sep name : text) : option Z :=
  match text_rfind sep name with Some pos => result_ok (parse_uint 10 (2 ^ 32 - 1) (drop (S pos) name)) | None => None end.

Definition numeric_suffix (name : text) : option Z :=
  match suffix_after (lit "-") name with Some n => Some n | None => suffix_after (lit ":") name end.

Definition check_numeric_id (name : text) (id : Z) : sres Z :=
  if MAX_REGISTRY_ACTOR_ID <? id then Err (InvalidActorId name id) else Ok id.

Definition resolve_actor (r : ActorRegistry) (name : text) : sres Z :=
  if bad_name_len name then Err (ActorNameLength name)
  else
    match numeric_suffix name with
    | Some n => check_numeric_id name n
    | None => ok_or (by_name r !! name) (UnknownActor name)
    end.

Definition actor_id (name : text) : sres Z := resolve_actor with_known name.

Definition opaque_actor_id (name : text) : Z :=
  let h := foldl (fun h b => (h * 31 + b2z b) mod 2 ^ 32) 0 name in
  if h =? 0 then 1 else h mod 10000 + 1.

Fixpoint register_names (r : ActorRegistry) (names : list text) : sres ActorRegistry :=
  match names with
  | [] => Ok r
  | name :: names =>
      if bad_name_len name then Err (ActorNameLength name)
      else
        match numeric_suffix name, by_name r !! name with
        | None, None => let? r := register_actor r name (opaque_actor_id name) in register_names r names
        | _, _ => register_names r names
        end
  end.

Definition scenario_registry (names : list text) : sres ActorRegistry := register_names with_known names.

(** ** The compiler *)

Inductive FaultInjection : Type :=
| InjDrop (src dst : text) (percent duration_ticks period_ticks : Z)
| InjPartition (src dst : text)
| InjCrash (actor after : text)
| InjCorrupt (segment : text) (range : Z * Z)
| InjTornWrite (flag : text)
| InjClockSkew (actor : text) (skew_ticks : Z)
| InjDelay (src dst : text) (ticks : Z)
| InjDuplicate (src dst : text).

Record CompiledScenario : Type := mkCompiled {
  cs_name : text;
  cs_faults : list (EntryKind * FaultSpec);
  cs_schedule : list FaultInjection }.

Definition actors_for_block (b : Block) : list text :=
  match b with
  | BDrop _ src dst _ _ => [src; dst]
  | BCrashRestart actor _ => [actor]
  | BCorrupt _ segment => [segment]
  | BTornWrite flag => [flag]
  | BPartition src dst => [src; dst]
  | BClockSkew actor _ => [actor]
  | BBoundedLatency src dst _ => [src; dst]
  | BDuplicate src dst => [src; dst]
  end.

Definition actor_names_for_block (b : Block) : list text :=
  match b with BCorrupt _ _ | BTornWrite _ => [] | _ => actors_for_block b end.

(** The per-actor counts; more than three appearances are a storm. *)
Fixpoint count_actors (counts : gmap text Z) (names : list text) : sres (gmap text Z) :=
  match names with
  | [] => Ok counts
  | a :: names =>
      let counter := default 0 (counts !! a) + 1 in
      if 3 <? counter then Err (ActorStorm a) else count_actors (<[a := counter]> counts) names
  end.

Definition resolve_link (r : ActorRegistry) (src dst : text) : sres (Z * Z) :=
  let? src_id := resolve_actor r src in
  let? dst_id := resolve_actor r dst in
  if (src_id =? dst_id) && negb (bool_decide (src = dst)) then Err (ActorCollision src dst src_id) else Ok (src_id, dst_id).

Definition compile_block (r : ActorRegistry) (b : Block) : sres (list (EntryKind * FaultSpec) * FaultInjection) :=
  match b with
  | BDrop percent src dst duration period =>
      if 100 <? percent then Err (InvalidPercent percent)
      else Ok ([(KSend, FDrop)], InjDrop src dst percent duration period)
  | BCrashRestart actor after =>
      if bool_decide (actor = []) || bool_decide (after = []) then Err (EmptyCrashName actor after)
      else Ok ([(KFsWrite, FCrash)], InjCrash actor after)
  | BCorrupt range segment =>
      if range.2 <=? range.1 then Err (InvalidRange range.1 range.2)
      else Ok ([(KFsWrite, FCorrupt)], InjCorrupt segment range)
  | BTornWrite flag =>
      if bool_decide (flag = []) then Err EmptyFlag else Ok ([(KFsWrite, FCrashState 2)], InjTornWrite flag)
  | BPartition src dst =>
      let? '(src_id, dst_id) := resolve_link r src dst in Ok ([(KSend, FPartition src_id dst_id)], InjPartition src dst)
  | BClockSkew actor skew =>
      if skew <? 0 then Err (NegativeSkew actor skew) else Ok ([(KTimerFire, FDelay skew)], InjClockSkew actor skew)
  | BBoundedLatency src dst delay => Ok ([(KSend, FDelay delay)], InjDelay src dst delay)
  | BDuplicate src dst => let? _ := resolve_link r src dst in Ok ([(KSend, FDuplicate)], InjDuplicate src dst)
  end.

Definition claim_id (r : ActorRegistry) (owners : gmap Z text) (name : text) : sres (gmap Z text) :=
  let? id := resolve_actor r name in
  match owners !! id with
  | Some owner => if bool_decide (owner = name) then Ok owners else Err (ActorCollision owner name id)
  | None => Ok (<[id := name]> owners)
  end.

Definition check_partition_collision (inj : FaultInjection) (r : ActorRegistry) (owners : gmap Z text) : sres (gmap Z text) :=
  match inj with
  | InjPartition src dst | InjDuplicate src dst => let? owners := claim_id r owners src in claim_id r owners dst
  | _ => Ok owners
  end.

Definition link_key (kind src dst : text) : text := kind ++ src ++ lit "->" ++ dst.

Definition target_key (b : Block) : text :=
  match b with
  | BDrop _ src dst _ _ => link_key (lit "drop:") src dst
  | BCrashRestart actor _ => lit "crash:" ++ actor
  | BCorrupt _ segment => lit "corrupt:" ++ segment
  | BTornWrite flag => lit "torn:" ++ flag
  | BPartition src dst => link_key (lit "partition:") src dst
  | BClockSkew actor _ => lit "clock:" ++ actor
  | BBoundedLatency src dst _ => link_key (lit "latency:") src dst
  | BDuplicate src dst => link_key (lit "duplicate:") src dst
  end.

(** The loop over the blocks. *)
Fixpoint compile_blocks (r : ActorRegistry) (seen : gset text) (owners : gmap Z text) (bs : list Block) :
    sres (list (EntryKind * FaultSpec) * list FaultInjection) :=
  match bs with
  | [] => Ok ([], [])
  | b :: bs =>
      if bool_decide (target_key b ∈ seen) then Err (DuplicateTarget (target_key b))
      else
        let? '(entries, inj) := compile_block r b in
        let? owners := check_partition_collision inj r owners in
        let? '(faults, schedule) := compile_blocks r ({[target_key b]} ∪ seen) owners bs in
        Ok (entries ++ faults, inj :: schedule)
  end.

Definition compile (s : Scenario) : sres CompiledScenario :=
  if (5 <? length (sc_blocks s))%nat then Err (TooManyFaults (length (sc_blocks s)))
  else
    let? _ := count_actors ∅ (concat (map actors_for_block (sc_blocks s))) in
    let? r := scenario_registry (concat (map actor_names_for_block (sc_blocks s))) in
    let? '(faults, schedule) := compile_blocks r ∅ ∅ (sc_blocks s) in
    Ok (mkCompiled (sc_name s) faults schedule).

(** ** The bridge to engine faults *)

Definition injection_actor_names (i : FaultInjection) : list text :=
  match i with
  | InjDrop src dst _ _ _ | InjPartition src dst | InjDelay src dst _ | InjDuplicate src dst => [src; dst]
  | InjCrash actor _ | InjClockSkew actor _ => [actor]
  | InjCorrupt _ _ | InjTornWrite _ => []
  end.

(** [{:x}] of a u64. *)
Fixpoint hex_digits (fuel : nat) (n : Z) : text :=
  match fuel with
  | O => []
  | S fuel => if n <? 16 then [hex_digit n] else hex_digits fuel (n / 16) ++ [hex_digit (n mod 16)]
  end.
Definition lower_hex (n : Z) : text := hex_digits 16 n.

(** What [block_hash] feeds to the hasher. *)
Definition block_preimage (scenario_name : text) (index : nat) (label : text) : text :=
  scenario_name ++ [xff] ++ to_le_bytes 8 (Z.of_nat index) ++ [xff] ++ label.

Definition injection_label (i : FaultInjection) : text :=
  match i with
  | InjDrop src dst _ _ _ => link_key (lit "drop:") src dst
  | InjPartition _ _ => []
  | InjCrash actor _ => lit "crash:" ++ actor
  | InjCorrupt segment range => lit "corrupt:" ++ segment ++ lit ":" ++ lower_hex range.1 ++ lit "-" ++ lower_hex range.2
  | InjTornWrite flag => lit "torn:" ++ flag
  | InjClockSkew actor _ => lit "clock:" ++ actor
  | InjDelay src dst _ => link_key (lit "delay:") src dst
  | InjDuplicate src dst => link_key (lit "duplicate:") src dst
  end.

Section Bridge.
Variable blake3 : list byte -> list byte.

Definition block_hash (scenario_name : text) (index : nat) (label : text) : EntryHash := blake3 (block_preimage scenario_name index label).

Definition sim_injection (r : ActorRegistry) (name : text) (index : nat) (i : FaultInjection) : sres SimFault :=
  let h := block_hash name index (injection_label i) in
  match i with
  | InjDrop _ _ _ _ _ => Ok (Drop h)
  | InjPartition src dst =>
      let? s := resolve_actor r src in
      let? d := resolve_actor r dst in
      Ok (SPartition s d)
  | InjCrash _ _ => Ok (Crash h)
  | InjCorrupt _ range => Ok (Corrupt h (Z.lxor range.1 range.2))
  | InjTornWrite _ => Ok (CrashState h 2)
  | InjClockSkew _ skew => Ok (Delay h (Z.abs skew))
  | InjDelay _ _ ticks => Ok (Delay h ticks)
  | InjDuplicate _ _ => Ok (Duplicate h)
  end.

Fixpoint sim_injections (r : ActorRegistry) (name : text) (index : nat) (schedule : list FaultInjection) : sres (list SimFault) :=
  match schedule with
  | [] => Ok []
  | i :: schedule =>
      let? f := sim_injection r name index i in
      let? fs := sim_injections r name (S index) schedule in
      Ok (f :: fs)
  end.

Definition to_sim_injections (c : CompiledScenario) : sres (list SimFault) :=
  let? r := scenario_registry (concat (map injection_actor_names (cs_schedule c))) in
  sim_injections r (cs_name c) 0 (cs_schedule c).

Definition compile_and_convert (dsl : text) : sres (list SimFault) :=
  let? s := parse_scenario dsl in
  let? c := compile s in
  to_sim_injections c.
End Bridge.

(** ** The library *)

Inductive ScenarioId : Type := SPartitionId | SCrashRestartId | SCorruptionId | SClockSkewId | STornWriteId | SBoundedLatencyId | SLeaderStepdownId | SMembershipChurnId.

Definition newline : text := [x0a].

Definition dsl_for (id : ScenarioId) : text :=
  match id with
  | SPartitionId => lit "scenario partition" ++ newline ++ lit "partition leader->replica"
  | SCrashRestartId => lit "scenario crash-restart" ++ newline ++ lit "crash-restart replica-2 after FsFsync"
  | SCorruptionId => lit "scenario corruption" ++ newline ++ lit "corrupt sector range [0x800,0x1000) of log-seg-7"
  | SClockSkewId => lit "scenario clock-skew" ++ newline ++ lit "clock-skew replica-2 by 500ms"
  | STornWriteId => lit "scenario torn-write" ++ newline ++ lit "torn-write on O_APPEND"
  | SBoundedLatencyId => lit "scenario bounded-latency" ++ newline ++ lit "delay leader->replica by 100ms"
  | SLeaderStepdownId => lit "scenario leader-stepdown" ++ newline ++ lit "crash-restart leader after FsFsync"
  | SMembershipChurnId => lit "scenario membership-churn" ++ newline ++ lit "crash-restart replica-3 after FsFsync"
  end.

Definition library_ids : list ScenarioId :=
  [SPartitionId; SCrashRestartId; SCorruptionId; SClockSkewId; STornWriteId; SBoundedLatencyId; SLeaderStepdownId; SMembershipChurnId].

Fixpoint parse_library (ids : list ScenarioId) : sres (list (ScenarioId * Scenario)) :=
  match ids with
  | [] => Ok []
  | id :: ids => let? s := parse_scenario (dsl_for id) in let? rest := parse_library ids in Ok ((id, s) :: rest)
  end.
Definition canonical_library_with_ids : sres (list (ScenarioId * Scenario)) := parse_library library_ids.
