(* ===== verification/FaultSpecProofs.v ===== *)
(** * Failure specifications: correctness

    - Whatever the parser accepts is a scenario of well-formed blocks.
    - A compiled scenario has one fault entry and one injection per block in order, distinct targets, and distinct actors for
      the distinct endpoints of its partitions and duplicates; it always converts to engine faults.
    - The hashes that target the faults are over distinct texts.
    - Two corners of the language. *)

From stdpp Require Import gmap.
From S2P Require Import Prelude Machine Limits Value Path Hex Entry OrdMap Order Clock Dag Net Ldfi FaultSpec.

Open Scope Z_scope.

(** ** The parser *)

Definition name_ok (n : text) : Prop := n <> [] /\ Z.of_nat (length n) <= MAX_NAME_LEN.

Definition block_ok (b : Block) : Prop :=
  match b with
  | BDrop p s d duration period => 0 <= p <= 100 /\ name_ok s /\ name_ok d /\ is_u64 duration /\ is_u64 period
  | BCrashRestart a after => name_ok a /\ name_ok after
  | BCorrupt (st, en) seg => 0 <= st < en /\ en <= u64_max /\ name_ok seg
  | BTornWrite flag => name_ok flag
  | BPartition s d | BDuplicate s d => name_ok s /\ name_ok d
  | BClockSkew a skew => name_ok a /\ - i64_max <= skew <= i64_max
  | BBoundedLatency s d ticks => name_ok s /\ name_ok d /\ is_u64 ticks
  end.

Lemma digit_of_nonneg radix b d : digit_of radix b = Some d -> 0 <= d.
Proof.
  unfold digit_of, hex_val. intros H. run_match H; bool_hyps; lia.
Qed.

Lemma parse_digits_range radix max s : forall acc v, 0 < radix -> 0 <= acc <= max -> parse_digits radix max acc s = Ok v -> 0 <= v <= max.
Proof.
  induction s as [|b s IH]; intros acc v Hr Ha H; cbn in H; [injection H as <-; done|].
  destruct (digit_of radix b) as [d|] eqn:Ed; [|done]. apply digit_of_nonneg in Ed. destruct (Z.ltb_spec max (acc * radix + d)); [done|].
  eapply IH; [done | | exact H]. split; [|lia]. apply Z.add_nonneg_nonneg; [apply Z.mul_nonneg_nonneg|]; lia.
Qed.

Lemma parse_uint_range radix max s v : 0 < radix -> 0 <= max -> parse_uint radix max s = Ok v -> 0 <= v <= max.
Proof.
  intros Hr Hm H. unfold parse_uint in H. destruct s as [|b [|c s]]; [done| |]; case_split_in H; try done; eapply parse_digits_range; try eassumption; lia.
Qed.

Lemma u64_max_nonneg : 0 <= u64_max.
Proof. unfold u64_max. lia. Qed.

Lemma scaled_range s number unit_ v : 0 <= unit_ -> scaled s number unit_ = Ok v -> is_u64 v.
Proof.
  intros Hu H. unfold scaled in H. destruct (map_err _ _) as [n|] eqn:E; [|done]. apply map_err_Ok, parse_uint_range in E; [|done|apply u64_max_nonneg].
  unfold checked_mul in H. destruct (Z.ltb_spec u64_max (n * unit_)); [done|]. injection H as <-. unfold is_u64. nia.
Qed.

Lemma duration_range s v : parse_duration_ticks s = Ok v -> is_u64 v.
Proof.
  unfold parse_duration_ticks. intros H. case_split_in H; [done|].
  repeat (case_split_in H; [first [eapply scaled_range; [|exact H]; done | apply map_err_Ok, parse_uint_range in H; [exact H | done | apply u64_max_nonneg]]|]).
  apply map_err_Ok, parse_uint_range in H; [exact H | done | apply u64_max_nonneg].
Qed.

Lemma hex_range s v : parse_hex_u64 s = Ok v -> 0 <= v <= u64_max.
Proof. intros H. unfold parse_hex_u64 in H. apply map_err_Ok, parse_uint_range in H; [exact H | done | apply u64_max_nonneg]. Qed.

Lemma name_len_ok n u : n <> [] -> check_name_len n = Ok u -> name_ok n.
Proof. intros Hn H. unfold check_name_len in H. destruct (Z.ltb_spec MAX_NAME_LEN (Z.of_nat (length n))); [done|]. split; done. Qed.

Lemma percent_range line toks p : percent_of line toks = Ok p -> 0 <= p <= 255.
Proof.
  induction toks as [|t toks IH]; intros H; cbn [percent_of] in H; [done|]. destruct (strip_suffix _ t) as [n|].
  { apply map_err_Ok, parse_uint_range in H; [exact H | done | done]. }
  destruct (text_find _ t) as [pos|]; [|auto]. destruct (parse_uint 10 255 _) as [v|e] eqn:E; [|auto]. injection H as <-.
  apply parse_uint_range in E; [exact E | done | done].
Qed.

Lemma link_names line toks s d : link_of line toks = Ok (s, d) -> name_ok s /\ name_ok d.
Proof.
  induction toks as [|t toks IH]; intros H; cbn [link_of] in H; [done|]. destruct (text_find _ t) as [pos|]; [|auto]. cbv zeta in H.
  destruct (negb _ && negb _) eqn:E; [|auto]. apply andb_true_iff in E as [E1%negb_true_iff%bool_decide_eq_false E2%negb_true_iff%bool_decide_eq_false].
  destruct (check_name_len (trim (take pos t))) eqn:C1; [|done]. destruct (check_name_len (trim_end_matches _ _)) eqn:C2; [|done]. injection H as <- <-.
  split; eapply name_len_ok; done.
Qed.

Lemma duration_after_range line kw o : extract_duration_after line kw = Ok o -> is_u64 (default 0 o).
Proof.
  assert (H0 : is_u64 0) by (split; [done | apply u64_max_nonneg]). unfold extract_duration_after. intros H. case_split_in H; [|injection H as <-; done].
  case_split_in H; [injection H as <-; done|]. case_split_in H; [|done]. injection H as <-. eapply duration_range. eassumption.
Qed.
Create HintDb faultspec.
#[export] Hint Resolve percent_range link_names duration_after_range duration_range hex_range name_len_ok : faultspec.

Lemma parse_drop_ok line b : parse_drop line = Ok b -> block_ok b.
Proof.
  unfold parse_drop. destruct (extract_percent line) as [p|] eqn:Ep; [|done]. destruct (extract_link line) as [[s d]|] eqn:El; [|done].
  destruct (Z.ltb_spec 100 p); [done|]. destruct (extract_duration_after line (lit "for")) as [o1|] eqn:E1; [|done].
  destruct (extract_duration_after line (lit "every")) as [o2|] eqn:E2; [|done]. intros [= <-]. apply percent_range in Ep. apply link_names in El as [? ?].
  cbn. split_and!; [lia | lia | done | done | eauto with faultspec..].
Qed.

Lemma parse_crash_ok line b : parse_crash_restart line = Ok b -> block_ok b.
Proof.
  unfold parse_crash_restart. intros H. destruct (bool_decide_reflect (trim (drop 13 line) = [])) as [|Hr]; [done|]. case_split_in H.
  - destruct (bool_decide _ || bool_decide _) eqn:E; [done|]. apply orb_false_iff in E as [E1%bool_decide_eq_false E2%bool_decide_eq_false].
    run_match H. split; eapply name_len_ok; done.
  - run_match H. split; [eapply name_len_ok; done|]. split; [done | vm_compute; done].
Qed.

Lemma parse_corrupt_ok line b : parse_corrupt line = Ok b -> block_ok b.
Proof.
  unfold parse_corrupt. intros H. destruct (ok_or _ _) as [lb|]; [|done]. destruct (ok_or _ _) as [co|]; [|done]. cbv zeta in H.
  destruct (ok_or _ _) as [rb|]; [|done]. destruct (parse_hex_u64 (trim (take (co + lb - S lb) _))) as [st|] eqn:E1; [|done].
  destruct (parse_hex_u64 _) as [en|] eqn:E2 in H; [|done]. apply hex_range in E1, E2. destruct (Z.leb_spec en st); [done|].
  destruct (ok_or _ _) as [p|]; [|done]. destruct (bool_decide_reflect (trim (drop (p + 4) line) = [])) as [|Hs]; [done|]. run_match H.
  split_and!; [lia | lia | lia | eapply name_len_ok; done].
Qed.

Lemma parse_torn_ok line b : parse_torn_write line = Ok b -> block_ok b.
Proof.
  unfold parse_torn_write. intros H. destruct (match text_find _ _ with Some _ => _ | None => _ end) as [flag|]; [|done].
  destruct (bool_decide_reflect (flag = [])); [done|]. run_match H. eapply name_len_ok; done.
Qed.

Lemma parse_skew_ok line b : parse_clock_skew line = Ok b -> block_ok b.
Proof.
  unfold parse_clock_skew. intros H. cbv zeta in H. destruct (match text_find _ _ with Some _ => _ | None => _ end) as [actor dur].
  destruct (bool_decide _ || bool_decide _) eqn:E; [done|]. apply orb_false_iff in E as [E1%bool_decide_eq_false _].
  destruct (check_name_len actor) eqn:En; [|done]. destruct (parse_duration_ticks _) as [ticks|] eqn:Et; [|done]. apply duration_range in Et.
  destruct (Z.ltb_spec i64_max ticks); [done|]. injection H as <-. split; [eapply name_len_ok; done|]. unfold is_u64 in Et. destruct (starts_with _ _); lia.
Qed.

Lemma parse_latency_ok line b : parse_bounded_latency line = Ok b -> block_ok b.
Proof.
  unfold parse_bounded_latency. intros H. cbv zeta in H. set (rest := if starts_with _ _ then _ else _) in H.
  destruct (extract_link rest) as [[s d]|] eqn:El; [|done]. apply link_names in El as [? ?].
  destruct (match text_find _ _ with Some _ => _ | None => _ end) as [delay|] eqn:E; [|done]. injection H as <-. split_and!; [done..|].
  all: case_split_in E; [apply duration_range in E; apply E|]; case_split_in E; [apply duration_range in E; apply E | injection E as <-; try done; apply u64_max_nonneg].
Qed.

Lemma parse_block_ok line b : parse_block line = Ok b -> block_ok b.
Proof.
  unfold parse_block. intros H. cbv zeta in H.
  case_split_in H; [apply (parse_drop_ok _ _ H)|]. case_split_in H; [apply (parse_crash_ok _ _ H)|]. case_split_in H; [apply (parse_corrupt_ok _ _ H)|].
  case_split_in H; [apply (parse_torn_ok _ _ H)|].
  case_split_in H; [unfold parse_partition in H; run_match H; eapply link_names; eassumption|].
  case_split_in H; [unfold parse_duplicate in H; run_match H; eapply link_names; eassumption|].
  case_split_in H; [apply (parse_skew_ok _ _ H)|]. case_split_in H; [apply (parse_latency_ok _ _ H) | done].
Qed.

Lemma parse_blocks_ok ls bs : parse_blocks ls = Ok bs -> Forall block_ok bs.
Proof.
  revert bs. induction ls as [|l ls IH]; intros bs H; cbn [parse_blocks] in H; [injection H as <-; constructor|].
  destruct (parse_block l) as [b|] eqn:E; [|done]. destruct (parse_blocks ls) as [rest|]; [|done]. injection H as <-.
  constructor; [eapply parse_block_ok; exact E | auto].
Qed.

(** What the parser accepts is well-formed: the name has at most 64 bytes and every block percentages up to 100, non-empty
    ranges, non-empty names of at most 64 bytes, tick counts of 64 bits and skews of 63 bits and a sign. *)
Theorem parsed_scenario_ok input s : parse_scenario input = Ok s -> name_ok (sc_name s) /\ Forall block_ok (sc_blocks s).
Proof.
  assert (Hd : name_ok (lit "default")) by (split; [done | vm_compute; done]).
  unfold parse_scenario. destruct (content_lines input) as [|l0 rest]; [done|]. intros H.
  destruct (if starts_with _ _ then _ else _) as [[name ls]|] eqn:E; [|done]. destruct (parse_blocks ls) as [bs|] eqn:Eb; [|done].
  destruct (bool_decide _ && bool_decide _); [done|]. injection H as <-. split; [|apply (parse_blocks_ok _ _ Eb)]. cbn.
  case_split_in E; [|injection E as <- _; done]. cbv zeta in E. destruct (bool_decide_reflect (trim (drop 9 l0) = [])); [injection E as <- _; done|].
  destruct (check_name_len _) eqn:En; [|done]. injection E as <- _. eapply name_len_ok; done.
Qed.

(** ** The compiler *)

(** The injection and the kind of fault entry of a block. *)
Definition injection_of (b : Block) : FaultInjection :=
  match b with
  | BDrop percent src dst duration period => InjDrop src dst percent duration period
  | BCrashRestart actor after => InjCrash actor after
  | BCorrupt range segment => InjCorrupt segment range
  | BTornWrite flag => InjTornWrite flag
  | BPartition src dst => InjPartition src dst
  | BClockSkew actor skew => InjClockSkew actor skew
  | BBoundedLatency src dst delay => InjDelay src dst delay
  | BDuplicate src dst => InjDuplicate src dst
  end.

(** The fault entry a block compiles to. *)
Definition entry_of (r : ActorRegistry) (b : Block) (e : EntryKind * FaultSpec) : Prop :=
  match b with
  | BDrop _ _ _ _ _ => e = (KSend, FDrop)
  | BCrashRestart _ _ => e = (KFsWrite, FCrash)
  | BCorrupt _ _ => e = (KFsWrite, FCorrupt)
  | BTornWrite _ => e = (KFsWrite, FCrashState 2)
  | BPartition src dst => exists s d, resolve_actor r src = Ok s /\ resolve_actor r dst = Ok d /\ e = (KSend, FPartition s d)
  | BClockSkew _ skew => 0 <= skew /\ e = (KTimerFire, FDelay skew)
  | BBoundedLatency _ _ delay => e = (KSend, FDelay delay)
  | BDuplicate src dst => e = (KSend, FDuplicate)
  end.

Lemma resolve_link_Ok r src dst p : resolve_link r src dst = Ok p -> resolve_actor r src = Ok p.1 /\ resolve_actor r dst = Ok p.2.
Proof. unfold resolve_link. intros H. run_match H. done. Qed.

Lemma compile_block_Ok r b es inj : compile_block r b = Ok (es, inj) -> inj = injection_of b /\ exists e, es = [e] /\ entry_of r b e.
Proof.
  destruct b; cbn [compile_block]; intros H; try (run_match H; bool_hyps; split; [done|]; eexists; split; [reflexivity|]; cbn; first [done | split; [lia | done]]).
  destruct (resolve_link r src dst) as [[s d]|] eqn:E; [|done]. injection H as <- <-. apply resolve_link_Ok in E as [E1 E2]. split; [done|].
  eexists. split; [reflexivity|]. exists s, d. done.
Qed.

(** The endpoints whose actors must differ. *)
Definition endpoints (i : FaultInjection) : list text := match i with InjPartition src dst | InjDuplicate src dst => [src; dst] | _ => [] end.

(** Every claimed name owns the id it resolves to. *)
Definition owned (r : ActorRegistry) (owners : gmap Z text) (n : text) : Prop := exists id, resolve_actor r n = Ok id /\ owners !! id = Some n.

Lemma claim_Ok r owners name owners' : claim_id r owners name = Ok owners' -> owned r owners' name /\ forall n, owned r owners n -> owned r owners' n.
Proof.
  unfold claim_id. destruct (resolve_actor r name) as [id|] eqn:E; [|done]. destruct (owners !! id) as [owner|] eqn:Eo.
  - destruct (bool_decide_reflect (owner = name)) as [->|]; [|done]. intros [= <-]. split; [exists id; done | done].
  - intros [= <-]. split; [exists id; rewrite lookup_insert_eq; done|]. intros n (i & Hi & Ho). exists i. split; [done|].
    rewrite lookup_insert_ne by congruence. done.
Qed.

Lemma collision_Ok r inj owners owners' : check_partition_collision inj r owners = Ok owners' ->
  (forall n, n ∈ endpoints inj -> owned r owners' n) /\ forall n, owned r owners n -> owned r owners' n.
Proof.
  assert (Hlink : forall src dst, (let? owners := claim_id r owners src in claim_id r owners dst) = Ok owners' ->
    (forall n, n ∈ [src; dst] -> owned r owners' n) /\ forall n, owned r owners n -> owned r owners' n).
  { intros src dst H. destruct (claim_id r owners src) as [o1|] eqn:E1; [|done]. apply claim_Ok in E1 as [A1 A2]. apply claim_Ok in H as [B1 B2].
    split; [|auto]. intros n. rewrite !elem_of_cons. intros [->|[->|Hn]]; [auto | auto | inversion Hn]. }
  destruct inj; cbn [check_partition_collision endpoints]; intros H; try exact (Hlink _ _ H); injection H as <-; (split; [|done]); intros n Hn; inversion Hn.
Qed.

Lemma compile_blocks_Ok r bs : forall seen owners fs sch, compile_blocks r seen owners bs = Ok (fs, sch) ->
  sch = map injection_of bs /\ Forall2 (entry_of r) bs fs /\ NoDup (map target_key bs) /\ (forall b, b ∈ bs -> target_key b ∉ seen) /\
  exists owners', (forall n, n ∈ concat (map endpoints sch) -> owned r owners' n) /\ (forall n, owned r owners n -> owned r owners' n).
Proof.
  induction bs as [|b bs IH]; intros seen owners fs sch H; cbn [compile_blocks] in H.
  { injection H as <- <-. split_and!; [done | constructor | constructor | intros b Hb; inversion Hb | exists owners; split; [intros n Hn; inversion Hn | done]]. }
  destruct (bool_decide_reflect (target_key b ∈ seen)) as [|Hns]; [done|]. destruct (compile_block r b) as [[es inj]|] eqn:Eb; [|done].
  apply compile_block_Ok in Eb as (-> & e & -> & He). destruct (check_partition_collision _ r owners) as [o1|] eqn:Ec; [|done].
  apply collision_Ok in Ec as [C1 C2]. destruct (compile_blocks r _ o1 bs) as [[fs1 sch1]|] eqn:Er; [|done]. injection H as <- <-.
  apply IH in Er as (-> & Hf & Hn & Hseen & o2 & O1 & O2). split_and!.
  - done.
  - constructor; done.
  - cbn. apply list.NoDup_cons. split; [|done]. intros Hin. apply list_elem_of_fmap in Hin as (b' & Hk & Hb'). apply (Hseen b' Hb'). rewrite Hk. set_solver.
  - intros b' Hb'. apply elem_of_cons in Hb' as [->|Hb']; [done|]. specialize (Hseen b' Hb'). set_solver.
  - exists o2. split; [|auto]. intros n. cbn. rewrite elem_of_app. intros [Hn'|Hn']; auto.
Qed.

Lemma injection_names bs : map injection_actor_names (map injection_of bs) = map actor_names_for_block bs.
Proof. rewrite map_map. apply map_ext. intros []; done. Qed.

(** A compiled scenario: at most five blocks with distinct targets, one fault entry and one injection for each in order, and
    endpoints of partitions and duplicates that resolve, distinct names to distinct actors. *)
Theorem compile_exact s c : compile s = Ok c -> cs_name c = sc_name s /\ cs_schedule c = map injection_of (sc_blocks s) /\
  (length (sc_blocks s) <= 5)%nat /\ NoDup (map target_key (sc_blocks s)) /\
  exists r, scenario_registry (concat (map injection_actor_names (cs_schedule c))) = Ok r /\ Forall2 (entry_of r) (sc_blocks s) (cs_faults c) /\
    forall n1 n2, n1 ∈ concat (map endpoints (cs_schedule c)) -> n2 ∈ concat (map endpoints (cs_schedule c)) ->
      exists i1 i2, resolve_actor r n1 = Ok i1 /\ resolve_actor r n2 = Ok i2 /\ (i1 = i2 -> n1 = n2).
Proof.
  unfold compile. destruct (5 <? length (sc_blocks s))%nat eqn:El; [done|]. destruct (count_actors _ _); [|done].
  destruct (scenario_registry _) as [r|] eqn:Er; [|done]. destruct (compile_blocks r ∅ ∅ (sc_blocks s)) as [[fs sch]|] eqn:Eb; [|done]. intros [= <-].
  apply compile_blocks_Ok in Eb as (-> & Hf & Hn & _ & o & Ho & _). cbn. bool_hyps. split_and!; [done | done | done | done|].
  exists r. rewrite injection_names. split_and!; [done | done|]. intros n1 n2 H1 H2. destruct (Ho n1 H1) as (i1 & R1 & O1), (Ho n2 H2) as (i2 & R2 & O2).
  exists i1, i2. split_and!; [done | done|]. intros ->. congruence.
Qed.

(** ** The bridge *)

Section Bridge.
Variable blake3 : list byte -> list byte.

(** The engine fault of the block at an index: hash-targeted by the block's label, or the partition of the resolved actors. *)
Definition fault_of (r : ActorRegistry) (name : text) (index : nat) (b : Block) (f : SimFault) : Prop :=
  let h := block_hash blake3 name index (injection_label (injection_of b)) in
  match b with
  | BDrop _ _ _ _ _ => f = Drop h
  | BCrashRestart _ _ => f = Crash h
  | BCorrupt range _ => f = Corrupt h (Z.lxor range.1 range.2)
  | BTornWrite _ => f = CrashState h 2
  | BPartition src dst => exists s d, resolve_actor r src = Ok s /\ resolve_actor r dst = Ok d /\ f = SPartition s d
  | BClockSkew _ skew => f = Delay h skew
  | BBoundedLatency _ _ delay => f = Delay h delay
  | BDuplicate _ _ => f = Duplicate h
  end.

Lemma sim_injections_total r name bs es : Forall2 (entry_of r) bs es -> forall index, exists fs,
  sim_injections blake3 r name index (map injection_of bs) = Ok fs /\ length fs = length bs /\
  forall i b, bs !! i = Some b -> exists f, fs !! i = Some f /\ fault_of r name (index + i) b f.
Proof.
  induction 1 as [|b e bs es He _ IH]; intros index; [exists []; split_and!; [done | done | intros i b Hi; done]|].
  destruct (IH (S index)) as (fs & E & Hl & Hf). assert (Hb : exists f, sim_injection blake3 r name index (injection_of b) = Ok f /\ fault_of r name index b f).
  { destruct b; cbn [sim_injection injection_of]; try (eexists; split; [reflexivity|]; done).
    - destruct He as (s & d & Es & Ed & _). rewrite Es, Ed. eexists. split; [reflexivity|]. exists s, d. done.
    - destruct He as [Hs _]. eexists. split; [reflexivity|]. unfold fault_of. rewrite Z.abs_eq by done. done. }
  destruct Hb as (f & Ef & Hb). exists (f :: fs). cbn [map sim_injections]. rewrite Ef, E. split_and!; [done | cbn; lia|].
  intros [|i] b' Hi; [injection Hi as <-; exists f; rewrite Nat.add_0_r; done|]. rewrite Nat.add_succ_r, <- Nat.add_succ_l. apply Hf, Hi.
Qed.

(** C33: A compiled scenario always converts: one engine fault per block in order, each the fault the block describes. *)
Theorem compiled_converts s c : compile s = Ok c -> exists fs r, to_sim_injections blake3 c = Ok fs /\
  scenario_registry (concat (map injection_actor_names (cs_schedule c))) = Ok r /\ length fs = length (sc_blocks s) /\
  forall i b, sc_blocks s !! i = Some b -> exists f, fs !! i = Some f /\ fault_of r (cs_name c) i b f.
Proof.
  unfold compile. destruct (5 <? length (sc_blocks s))%nat; [done|]. destruct (count_actors _ _); [|done].
  destruct (scenario_registry _) as [r|] eqn:Er; [|done]. destruct (compile_blocks r ∅ ∅ (sc_blocks s)) as [[es sch]|] eqn:Eb; [|done]. intros [= <-].
  apply compile_blocks_Ok in Eb as (-> & Hf & _). unfold to_sim_injections. cbn [cs_schedule cs_name]. rewrite injection_names, Er.
  destruct (sim_injections_total r (sc_name s) _ _ Hf 0%nat) as (fs & E & Hl & Hi). exists fs, r. done.
Qed.
End Bridge.

(** The texts hashed for two blocks of any scenarios differ unless name, index and label agree: UTF-8 never holds the
    separator byte, and the index has a fixed width. *)
Theorem block_preimage_injective n1 i1 l1 n2 i2 l2 : xff ∉ n1 -> xff ∉ n2 -> Z.of_nat i1 <= u64_max -> Z.of_nat i2 <= u64_max ->
  block_preimage n1 i1 l1 = block_preimage n2 i2 l2 -> n1 = n2 /\ i1 = i2 /\ l1 = l2.
Proof.
  intros H1 H2 B1 B2. unfold block_preimage. revert n2 H2. induction n1 as [|b n1 IH]; intros [|b' n2] H2 E.
  - apply (app_inv_head [xff]) in E. apply app_inj_1 in E as [Et Ed]; [|rewrite !length_to_le_bytes; done]. apply (app_inv_head [xff]) in Ed as ->.
    apply (f_equal from_le_bytes) in Et. rewrite !from_to_le_bytes in Et by (unfold u64_max in *; cbn; lia). split_and!; [done | lia | done].
  - injection E as <- _. exfalso. apply H2. left.
  - injection E as -> _. exfalso. apply H1. left.
  - injection E as -> E. destruct (IH ltac:(set_solver) n2 ltac:(set_solver) E) as (-> & ? & ?). done.
Qed.

(** ** Corners *)

(** The registry accepts the actor id zero, which its error message excludes. *)
Lemma actor_zero_accepted : actor_id (lit "node-0") = Ok 0.
Proof. vm_compute. reflexivity. Qed.

(** A delay without a duration is zero, unless the link's last token holds the letter s: then it is read as a duration. *)
Lemma delay_depends_on_names :
  parse_scenario (lit "delay a->b") = Ok (mkScenario (lit "default") [BBoundedLatency (lit "a") (lit "b") 0]) /\
  parse_scenario (lit "delay a->servers") = Err (InvalidNumber (lit "a->servers") InvalidDigit).
Proof. split; vm_compute; reflexivity. Qed.

(** ** Samples *)

Definition sample_dsl : text :=
  lit "scenario x" ++ newline ++ lit "drop 10% of a->b Msgs for 1s every 10s" ++ newline ++ lit "partition replica-2->replica-7" ++ newline ++
  lit "corrupt sector range [0x10,0x20) of seg-1".

Definition sample_scenario : Scenario :=
  mkScenario (lit "x") [BDrop 10 (lit "a") (lit "b") 1000000 10000000; BPartition (lit "replica-2") (lit "replica-7"); BCorrupt (16, 32) (lit "seg-1")].

Lemma parsed_scenario_ok_witness : parse_scenario sample_dsl = Ok sample_scenario /\ Forall block_ok (sc_blocks sample_scenario).
Proof. assert (H : parse_scenario sample_dsl = Ok sample_scenario) by (vm_compute; reflexivity). split; [exact H | exact (proj2 (parsed_scenario_ok _ _ H))]. Defined.

Definition sample_compiled : CompiledScenario :=
  mkCompiled (lit "x") [(KSend, FDrop); (KSend, FPartition 2 7); (KFsWrite, FCorrupt)] (map injection_of (sc_blocks sample_scenario)).

Lemma compile_exact_witness : compile sample_scenario = Ok sample_compiled /\ NoDup (map target_key (sc_blocks sample_scenario)).
Proof.
  assert (H : compile sample_scenario = Ok sample_compiled) by (vm_compute; reflexivity). split; [exact H|].
  destruct (compile_exact _ _ H) as (_ & _ & _ & Hn & _). exact Hn.
Defined.

Lemma compiled_converts_witness : compile sample_scenario = Ok sample_compiled /\ exists fs, to_sim_injections (fun b => b) sample_compiled = Ok fs /\ length fs = 3%nat.
Proof.
  assert (H : compile sample_scenario = Ok sample_compiled) by (vm_compute; reflexivity). split; [exact H|].
  destruct (compiled_converts (fun b => b) _ _ H) as (fs & r & E & _ & Hl & _). exists fs. split; [exact E | exact Hl].
Defined.
