(* ===== verification/Identity.v ===== *)
(** * Execution identities

    Models [ledger-journal/src/identity.rs]: the canonical binding of a run to its build, with its bytes, their decoder and the
    digest.

    - An identity within its limits is decoded from its canonical bytes, its input digests sorted.
    - The decoder accepts only identities within the limits, and only the bytes of the decoded identity but for the order of the
      digests.
    - Canonical bytes stay within the bound the encoder reserves; equal bytes mean equal identities but for the order of the
      input digests.

    Strings are their UTF-8 bytes.  The decoder's cursor is the list of bytes after its position. *)

From S2P Require Import Prelude Machine Cbor CborProofs Limits Value Path Entry OrdMap Order OSet.

Open Scope Z_scope.

Definition MAX_IDENTITY_FIELD_BYTES : Z := 4096.
Definition MAX_IDENTITY_INPUT_DIGESTS : Z := 4096.

(** The texts of [InvalidPayload]. *)
Inductive IdentityError : Type :=
| FieldExceedsLimit (field : string)
| DigestsExceedLimit
| IdTruncated (field : string)
| NotBool (field : string)
| InvalidPresence (field : string)
| ExceedsU32 (field : string)
| IdNotUtf8 (field : string)
| IdBadHash (e : CborError)
| DigestsTruncated
| IdTrailing.

Abbreviation ires := (result IdentityError).

Record ExecutionIdentity : Type := mkIdentity {
  engine_revision : option (list byte);
  engine_dirty : bool;
  engine_version : list byte;
  toolchain : list byte;
  target_triple : list byte;
  build_profile : list byte;
  features : list byte;
  lockfile_digest : option EntryHash;
  sut_revision : option (list byte);
  sut_dirty : bool;
  sut_artifact_digest : option EntryHash;
  guest_digest : option EntryHash;
  workload_id : list byte;
  program_digest : EntryHash;
  input_digests : list EntryHash;
  backend : list byte;
  runtime_profile : list byte;
  run_config_digest : EntryHash;
  seed_tree_root : EntryHash;
  faultspec_digest : option EntryHash;
  oracle_version : option Z;
  support_provider_version : option Z;
  journal_format_version : Z;
  crash_semantics_version : Z;
  resource_limits : Z  (** [ResourceLimits { max_steps }] *) }.

Definition is_some {A} (o : option A) : bool := match o with Some _ => true | None => false end.
Definition nonempty (s : list byte) : bool := match s with [] => false | _ => true end.

Definition is_complete (i : ExecutionIdentity) : bool :=
  is_some (engine_revision i) && is_some (lockfile_digest i) && nonempty (engine_version i) && nonempty (toolchain i)
  && nonempty (target_triple i) && nonempty (build_profile i).

Definition is_publish_ready (i : ExecutionIdentity) : bool := is_complete i && is_some (sut_revision i) && nonempty (workload_id i).

(** ** Encoding *)

Definition check_str_len (field : string) (value : list byte) : ires unit :=
  if MAX_IDENTITY_FIELD_BYTES <? Z.of_nat (length value) then Err (FieldExceedsLimit field) else Ok tt.
Definition check_opt_str_len (field : string) (value : option (list byte)) : ires unit :=
  match value with Some s => check_str_len field s | None => Ok tt end.

Definition encode_u64 (v : Z) : list byte := to_le_bytes 8 v.
Definition encode_u32 (v : Z) : list byte := to_le_bytes 8 v.
Definition encode_len (n : nat) : list byte := to_le_bytes 8 (Z.of_nat n).
Definition encode_bool (b : bool) : list byte := [if b then x01 else x00].

(** A present value after 1, an absent one as 0. *)
Definition encode_opt {A} (enc : A -> list byte) (o : option A) : list byte := match o with Some a => x01 :: enc a | None => [x00] end.

Definition str_bytes (s : list byte) : list byte := encode_len (length s) ++ s.
Definition encode_str (s : list byte) : ires (list byte) := let? _ := check_str_len "field" s in Ok (str_bytes s).
Definition encode_opt_str (o : option (list byte)) : ires (list byte) :=
  match o with Some s => let? b := encode_str s in Ok (x01 :: b) | None => Ok [x00] end.
Definition encode_hash (h : EntryHash) : list byte := to_framed_bytes h.

Definition sorted_digests (hs : list EntryHash) : list EntryHash := sort_by cmp_hash hs.
Definition encode_hashes (hs : list EntryHash) : ires (list byte) :=
  if MAX_IDENTITY_INPUT_DIGESTS <? Z.of_nat (length hs) then Err DigestsExceedLimit
  else Ok (encode_len (length (sorted_digests hs)) ++ concat (map encode_hash (sorted_digests hs))).

Definition canonical_bytes (i : ExecutionIdentity) : ires (list byte) :=
  let? _ := check_str_len "engine_version" (engine_version i) in
  let? _ := check_str_len "toolchain" (toolchain i) in
  let? _ := check_str_len "target_triple" (target_triple i) in
  let? _ := check_str_len "build_profile" (build_profile i) in
  let? _ := check_str_len "features" (features i) in
  let? _ := check_str_len "workload_id" (workload_id i) in
  let? _ := check_str_len "backend" (backend i) in
  let? _ := check_str_len "runtime_profile" (runtime_profile i) in
  let? _ := check_opt_str_len "engine_revision" (engine_revision i) in
  let? _ := check_opt_str_len "sut_revision" (sut_revision i) in
  if MAX_IDENTITY_INPUT_DIGESTS <? Z.of_nat (length (input_digests i)) then Err DigestsExceedLimit
  else
    let? f1 := encode_opt_str (engine_revision i) in
    let f2 := encode_bool (engine_dirty i) in
    let? f3 := encode_str (engine_version i) in
    let? f4 := encode_str (toolchain i) in
    let? f5 := encode_str (target_triple i) in
    let? f6 := encode_str (build_profile i) in
    let? f7 := encode_str (features i) in
    let f8 := encode_opt encode_hash (lockfile_digest i) in
    let? f9 := encode_opt_str (sut_revision i) in
    let f10 := encode_bool (sut_dirty i) in
    let f11 := encode_opt encode_hash (sut_artifact_digest i) in
    let f12 := encode_opt encode_hash (guest_digest i) in
    let? f13 := encode_str (workload_id i) in
    let f14 := encode_hash (program_digest i) in
    let? f15 := encode_hashes (input_digests i) in
    let? f16 := encode_str (backend i) in
    let? f17 := encode_str (runtime_profile i) in
    let f18 := encode_hash (run_config_digest i) in
    let f19 := encode_hash (seed_tree_root i) in
    let f20 := encode_opt encode_hash (faultspec_digest i) in
    let f21 := encode_opt encode_u64 (oracle_version i) in
    let f22 := encode_opt encode_u64 (support_provider_version i) in
    let f23 := encode_u32 (journal_format_version i) in
    let f24 := encode_u32 (crash_semantics_version i) in
    let f25 := encode_u64 (resource_limits i) in
    Ok (f1 ++ f2 ++ f3 ++ f4 ++ f5 ++ f6 ++ f7 ++ f8 ++ f9 ++ f10 ++ f11 ++ f12 ++ f13 ++ f14 ++ f15 ++ f16 ++ f17 ++ f18 ++ f19
        ++ f20 ++ f21 ++ f22 ++ f23 ++ f24 ++ f25).

Definition capped (n : nat) : Z := Z.min (Z.of_nat n) MAX_IDENTITY_FIELD_BYTES.
Definition opt_len (o : option (list byte)) : nat := match o with Some s => length s | None => 0%nat end.

Definition encoded_len_bound (i : ExecutionIdentity) : Z :=
  let strs := [engine_version i; toolchain i; target_triple i; build_profile i; features i; workload_id i; backend i; runtime_profile i] in
  let opts := [engine_revision i; sut_revision i] in
  let bound := 2 + 8 * 4 + 9 + 1 + 8 + 7 * Z.of_nat FRAMED_HASH_LEN + 3 + 8 * 3 in
  let bound := foldl (fun b s => b + (8 + capped (length s))) bound strs in
  let bound := foldl (fun b o => b + (1 + 8 + capped (opt_len o))) bound opts in
  bound + (8 + Z.min (Z.of_nat (length (input_digests i))) MAX_IDENTITY_INPUT_DIGESTS * Z.of_nat FRAMED_HASH_LEN).

(** The digest: BLAKE3 keyed with the domain key, of complete identities only. *)
Definition digest (keyed_blake3 : list byte -> list byte) (i : ExecutionIdentity) : ires (option EntryHash) :=
  if negb (is_complete i) then Ok None
  else let? bytes := canonical_bytes i in Ok (Some (keyed_blake3 bytes)).

(** ** Decoding *)

Abbreviation read A := (list byte -> ires (A * list byte)).

Definition take_bytes (count : nat) (field : string) : read (list byte) := fun b =>
  if (length b <? count)%nat then Err (IdTruncated field) else Ok (take count b, drop count b).

Definition read_byte (field : string) : read byte := fun b =>
  let? '(s, b) := take_bytes 1 field b in match s with [x] => Ok (x, b) | _ => Err (IdTruncated field) end.

Definition read_bool (field : string) : read bool := fun b =>
  let? '(x, b) := read_byte field b in
  match b2z x with 0 => Ok (false, b) | 1 => Ok (true, b) | _ => Err (NotBool field) end.
Definition read_presence (field : string) : read bool := fun b =>
  let? '(x, b) := read_byte field b in
  match b2z x with 0 => Ok (false, b) | 1 => Ok (true, b) | _ => Err (InvalidPresence field) end.

Definition read_u64 (field : string) : read Z := fun b => let? '(s, b) := take_bytes 8 field b in Ok (from_le_bytes s, b).
Definition read_u32 (field : string) : read Z := fun b =>
  let? '(v, b) := read_u64 field b in if 2 ^ 32 - 1 <? v then Err (ExceedsU32 field) else Ok (v, b).
Definition read_len (field : string) (cap : Z) : read nat := fun b =>
  let? '(v, b) := read_u64 field b in if cap <? v then Err (FieldExceedsLimit field) else Ok (Z.to_nat v, b).

Definition read_str (field : string) : read (list byte) := fun b =>
  let? '(len, b) := read_len field MAX_IDENTITY_FIELD_BYTES b in
  let? '(s, b) := take_bytes len field b in
  if from_utf8 s then Ok (s, b) else Err (IdNotUtf8 field).

(** [read_opt_str], [read_opt_u64] and [read_opt_hash]. *)
Definition read_opt {A} (rd : read A) (field : string) : read (option A) := fun b =>
  let? '(present, b) := read_presence field b in
  if present then let? '(a, b) := rd b in Ok (Some a, b) else Ok (None, b).

Definition read_hash (field : string) : read EntryHash := fun b =>
  let? '(s, b) := take_bytes FRAMED_HASH_LEN field b in
  let? h := map_err IdBadHash (from_framed_bytes s) in Ok (h, b).

Fixpoint read_hashes_loop (count : nat) : read (list EntryHash) := fun b =>
  match count with
  | O => Ok ([], b)
  | S count =>
      let? '(h, b) := read_hash "input_digests" b in
      let? '(hs, b) := read_hashes_loop count b in
      Ok (h :: hs, b)
  end.
Definition read_hashes : read (list EntryHash) := fun b =>
  let? '(count, b) := read_len "input_digests" MAX_IDENTITY_INPUT_DIGESTS b in
  if (length b / FRAMED_HASH_LEN <? count)%nat then Err DigestsTruncated else read_hashes_loop count b.

Definition reject_trailing (b : list byte) : ires unit := match b with [] => Ok tt | _ => Err IdTrailing end.

Definition identity_from_canonical_bytes (bytes : list byte) : ires ExecutionIdentity :=
  let? '(f1, b) := read_opt (read_str "engine_revision") "engine_revision" bytes in
  let? '(f2, b) := read_bool "engine_dirty" b in
  let? '(f3, b) := read_str "engine_version" b in
  let? '(f4, b) := read_str "toolchain" b in
  let? '(f5, b) := read_str "target_triple" b in
  let? '(f6, b) := read_str "build_profile" b in
  let? '(f7, b) := read_str "features" b in
  let? '(f8, b) := read_opt (read_hash "lockfile_digest") "lockfile_digest" b in
  let? '(f9, b) := read_opt (read_str "sut_revision") "sut_revision" b in
  let? '(f10, b) := read_bool "sut_dirty" b in
  let? '(f11, b) := read_opt (read_hash "sut_artifact_digest") "sut_artifact_digest" b in
  let? '(f12, b) := read_opt (read_hash "guest_digest") "guest_digest" b in
  let? '(f13, b) := read_str "workload_id" b in
  let? '(f14, b) := read_hash "program_digest" b in
  let? '(f15, b) := read_hashes b in
  let? '(f16, b) := read_str "backend" b in
  let? '(f17, b) := read_str "runtime_profile" b in
  let? '(f18, b) := read_hash "run_config_digest" b in
  let? '(f19, b) := read_hash "seed_tree_root" b in
  let? '(f20, b) := read_opt (read_hash "faultspec_digest") "faultspec_digest" b in
  let? '(f21, b) := read_opt (read_u64 "oracle_version") "oracle_version" b in
  let? '(f22, b) := read_opt (read_u64 "support_provider_version") "support_provider_version" b in
  let? '(f23, b) := read_u32 "journal_format_version" b in
  let? '(f24, b) := read_u32 "crash_semantics_version" b in
  let? '(f25, b) := read_u64 "resource_limits.max_steps" b in
  let? _ := reject_trailing b in
  Ok (mkIdentity f1 f2 f3 f4 f5 f6 f7 f8 f9 f10 f11 f12 f13 f14 f15 f16 f17 f18 f19 f20 f21 f22 f23 f24 f25).

(** ** Codecs *)

(** A reader that reads back what an encoder wrote of acceptable values, and nothing else. *)
Class Codec {A} (rd : read A) (enc : A -> list byte) (ok : A -> Prop) : Prop := {
  c_enc : forall a rest, ok a -> rd (enc a ++ rest) = Ok (a, rest);
  c_dec : forall b a rest, rd b = Ok (a, rest) -> ok a /\ b = enc a ++ rest }.
#[global] Hint Mode Codec + + - - : typeclass_instances.

Lemma take_bytes_enc s field rest : take_bytes (length s) field (s ++ rest) = Ok (s, rest).
Proof.
  unfold take_bytes. rewrite length_app. destruct (Nat.ltb_spec (length s + length rest) (length s)); [lia|].
  rewrite take_app_length, drop_app_length. done.
Qed.

Lemma take_bytes_dec n field b s rest : take_bytes n field b = Ok (s, rest) -> length s = n /\ b = s ++ rest.
Proof.
  unfold take_bytes. destruct (Nat.ltb_spec (length b) n); [done|]. intros [= <- <-]. rewrite length_take, take_drop. split; [lia | done].
Qed.

#[export] Instance u64_codec field : Codec (read_u64 field) encode_u64 is_u64.
Proof.
  split; unfold read_u64, encode_u64.
  - intros v rest Hv. pose proof (take_bytes_enc (to_le_bytes 8 v) field rest) as H. rewrite length_to_le_bytes in H. rewrite H.
    rewrite from_to_le_bytes by (unfold is_u64, u64_max in Hv; cbn; lia). done.
  - intros b v rest H. destruct (take_bytes 8 field b) as [[s b']|] eqn:E; [|done]. injection H as <- <-. apply take_bytes_dec in E as [Hl ->].
    pose proof (from_le_bytes_range s) as Hr. rewrite Hl in Hr. split; [unfold is_u64, u64_max; cbn in Hr; lia|]. rewrite <- Hl, to_from_le_bytes. done.
Qed.

#[export] Instance u32_codec field : Codec (read_u32 field) encode_u32 (fun v => 0 <= v <= 2 ^ 32 - 1).
Proof.
  split; unfold read_u32.
  - intros v rest Hv. change (encode_u32 v) with (encode_u64 v). rewrite (c_enc (Codec := u64_codec field)) by (unfold is_u64, u64_max; lia). destruct (Z.ltb_spec (2 ^ 32 - 1) v); [lia | done].
  - intros b v rest H. destruct (read_u64 field b) as [[v' b']|] eqn:E; [|done]. apply (c_dec (Codec := u64_codec field)) in E as [Hv ->]. destruct (Z.ltb_spec (2 ^ 32 - 1) v'); [done|].
    injection H as <- <-. split; [unfold is_u64 in Hv; lia | done].
Qed.

Lemma read_byte_enc x field rest : read_byte field (x :: rest) = Ok (x, rest).
Proof. done. Qed.
Lemma read_byte_dec field b x rest : read_byte field b = Ok (x, rest) -> b = x :: rest.
Proof.
  unfold read_byte. destruct (take_bytes 1 field b) as [[s b']|] eqn:E; [|done]. apply take_bytes_dec in E as [Hl ->].
  destruct s as [|y [|z s]]; try done. intros [= <- <-]. done.
Qed.

Lemma flag_byte x : (b2z x = 0 -> x = x00) /\ (b2z x = 1 -> x = x01).
Proof. split; intros H; apply (f_equal z2b) in H; rewrite z2b_b2z in H; exact H. Qed.

#[export] Instance bool_codec field : Codec (read_bool field) encode_bool (fun _ => True).
Proof.
  split; unfold read_bool, encode_bool; [intros [] rest _; done|]. intros b v rest H. destruct (read_byte field b) as [[x b']|] eqn:E; [|done].
  apply read_byte_dec in E as ->. destruct (flag_byte x) as [F0 F1]. destruct (b2z x) as [|[]|]; try done; injection H as <- <-; rewrite ?F0, ?F1 by done; done.
Qed.

#[export] Instance opt_codec {A} (rd : read A) enc ok field : Codec rd enc ok ->
  Codec (read_opt rd field) (encode_opt enc) (fun o => match o with Some a => ok a | None => True end).
Proof.
  intros HC. split; unfold read_opt.
  - intros [a|] rest Ha; [|done]. cbn [encode_opt app]. unfold read_presence. rewrite read_byte_enc. change (b2z x01) with 1. cbv beta iota. rewrite (c_enc (Codec := HC)) by done. done.
  - intros b o rest H. unfold read_presence in H. destruct (read_byte field b) as [[x b']|] eqn:E; [|done]. apply read_byte_dec in E as ->.
    destruct (flag_byte x) as [F0 F1]. destruct (b2z x) as [|[]|]; try done.
    + injection H as <- <-. rewrite F0 by done. done.
    + destruct (rd b') as [[a b2]|] eqn:E; [|done]. apply (c_dec (Codec := HC)) in E as [Ha ->]. injection H as <- <-. rewrite F1 by done. done.
Qed.

Definition str_ok (s : list byte) : Prop := Z.of_nat (length s) <= MAX_IDENTITY_FIELD_BYTES /\ from_utf8 s = true.

Lemma read_len_enc field cap n rest : Z.of_nat n <= cap -> cap <= u64_max -> read_len field cap (encode_len n ++ rest) = Ok (n, rest).
Proof.
  intros Hn Hc. unfold read_len. change (encode_len n) with (encode_u64 (Z.of_nat n)). rewrite (c_enc (Codec := u64_codec field)) by (unfold is_u64; lia).
  destruct (Z.ltb_spec cap (Z.of_nat n)); [lia|]. rewrite Nat2Z.id. done.
Qed.
Lemma read_len_dec field cap b n rest : read_len field cap b = Ok (n, rest) -> Z.of_nat n <= cap /\ b = encode_len n ++ rest.
Proof.
  unfold read_len. destruct (read_u64 field b) as [[v b']|] eqn:E; [|done]. apply (c_dec (Codec := u64_codec field)) in E as [Hv ->]. destruct (Z.ltb_spec cap v); [done|]. intros [= <- <-].
  unfold is_u64 in Hv. unfold encode_len. rewrite Z2Nat.id by lia. split; [lia | done].
Qed.

#[export] Instance str_codec field : Codec (read_str field) str_bytes str_ok.
Proof.
  split; unfold read_str, str_bytes.
  - intros s rest [Hl Hu]. rewrite <- app_assoc, read_len_enc by done. rewrite take_bytes_enc, Hu. done.
  - intros b s rest H. destruct (read_len field _ b) as [[n b']|] eqn:E; [|done]. apply read_len_dec in E as [Hn ->].
    destruct (take_bytes n field b') as [[s' b2]|] eqn:E; [|done]. apply take_bytes_dec in E as [Hs ->]. destruct (from_utf8 s') eqn:Eu; [|done].
    injection H as <- <-. rewrite <- app_assoc, Hs. split; [split; [lia | done] | done].
Qed.

Lemma length_framed_digest h : hash_wf h = true -> length (to_framed_bytes h) = FRAMED_HASH_LEN.
Proof. intros H%Nat.eqb_eq. cbn. rewrite H. done. Qed.

#[export] Instance hash_codec field : Codec (read_hash field) encode_hash (fun h => hash_wf h = true).
Proof.
  split; unfold read_hash, encode_hash.
  - intros h rest Hh. rewrite <- (length_framed_digest h Hh), take_bytes_enc, from_to_framed_bytes by done. done.
  - intros b h rest H. destruct (take_bytes _ field b) as [[s b']|] eqn:E; [|done]. apply take_bytes_dec in E as [_ ->].
    destruct (from_framed_bytes s) as [h'|] eqn:Eh; [|done]. injection H as <- <-. apply from_framed_bytes_inv in Eh as [-> Hw]. done.
Qed.

(** The digests as given, without the sorting of the encoder. *)
Definition hashes_bytes (hs : list EntryHash) : list byte := encode_len (length hs) ++ concat (map encode_hash hs).
Definition hashes_ok (hs : list EntryHash) : Prop := Z.of_nat (length hs) <= MAX_IDENTITY_INPUT_DIGESTS /\ Forall (fun h => hash_wf h = true) hs.

Lemma length_hashes hs : Forall (fun h => hash_wf h = true) hs -> length (concat (map encode_hash hs)) = (length hs * FRAMED_HASH_LEN)%nat.
Proof. induction 1 as [|h hs Hh _ IH]; [done|]. cbn [map concat length]. rewrite length_app, IH. unfold encode_hash. rewrite length_framed_digest by done. lia. Qed.

Lemma hashes_loop_enc hs rest : Forall (fun h => hash_wf h = true) hs -> read_hashes_loop (length hs) (concat (map encode_hash hs) ++ rest) = Ok (hs, rest).
Proof.
  induction 1 as [|h hs Hh _ IH]; [done|]. cbn [map concat length read_hashes_loop]. rewrite <- app_assoc, (c_enc (Codec := hash_codec "input_digests")) by done. rewrite IH. done.
Qed.
Lemma hashes_loop_dec n : forall b hs rest, read_hashes_loop n b = Ok (hs, rest) ->
  length hs = n /\ Forall (fun h => hash_wf h = true) hs /\ b = concat (map encode_hash hs) ++ rest.
Proof.
  induction n as [|n IH]; intros b hs rest H; cbn [read_hashes_loop] in H; [injection H as <- <-; done|].
  destruct (read_hash _ b) as [[h b']|] eqn:E; [|done]. apply (c_dec (Codec := hash_codec "input_digests")) in E as [Hh ->]. destruct (read_hashes_loop n b') as [[hs' b2]|] eqn:E; [|done].
  injection H as <- <-. apply IH in E as (Hl & Hw & ->). cbn. rewrite <- app_assoc. split_and!; [lia | constructor; done | done].
Qed.

#[export] Instance hashes_codec : Codec read_hashes hashes_bytes hashes_ok.
Proof.
  split; unfold read_hashes, hashes_bytes.
  - intros hs rest [Hl Hw]. rewrite <- app_assoc, read_len_enc by done. rewrite length_app, length_hashes by done.
    destruct (Nat.ltb_spec ((length hs * FRAMED_HASH_LEN + length rest) / FRAMED_HASH_LEN) (length hs)) as [Hlt|_]; [|apply hashes_loop_enc, Hw].
    exfalso. rewrite Nat.div_add_l in Hlt by done. lia.
  - intros b hs rest H. destruct (read_len _ _ b) as [[n b']|] eqn:E; [|done]. apply read_len_dec in E as [Hn ->]. destruct (_ <? n)%nat; [done|].
    apply hashes_loop_dec in H as (<- & Hw & ->). rewrite <- app_assoc. done.
Qed.

(** ** Identities *)

Definition opt_ok {A} (ok : A -> Prop) (o : option A) : Prop := match o with Some a => ok a | None => True end.
Abbreviation wf := (fun h => hash_wf h = true).

(** Within the limits and the ranges of the types. *)
Record identity_ok (i : ExecutionIdentity) : Prop := {
  io1 : opt_ok str_ok (engine_revision i);
  io3 : str_ok (engine_version i);
  io4 : str_ok (toolchain i);
  io5 : str_ok (target_triple i);
  io6 : str_ok (build_profile i);
  io7 : str_ok (features i);
  io8 : opt_ok wf (lockfile_digest i);
  io9 : opt_ok str_ok (sut_revision i);
  io11 : opt_ok wf (sut_artifact_digest i);
  io12 : opt_ok wf (guest_digest i);
  io13 : str_ok (workload_id i);
  io14 : hash_wf (program_digest i) = true;
  io15 : hashes_ok (input_digests i);
  io16 : str_ok (backend i);
  io17 : str_ok (runtime_profile i);
  io18 : hash_wf (run_config_digest i) = true;
  io19 : hash_wf (seed_tree_root i) = true;
  io20 : opt_ok wf (faultspec_digest i);
  io21 : opt_ok is_u64 (oracle_version i);
  io22 : opt_ok is_u64 (support_provider_version i);
  io23 : 0 <= journal_format_version i <= 2 ^ 32 - 1;
  io24 : 0 <= crash_semantics_version i <= 2 ^ 32 - 1;
  io25 : is_u64 (resource_limits i) }.

(** The fields in order, the digests as given. *)
Definition raw_bytes (i : ExecutionIdentity) : list byte :=
  encode_opt str_bytes (engine_revision i) ++ encode_bool (engine_dirty i) ++ str_bytes (engine_version i) ++ str_bytes (toolchain i)
  ++ str_bytes (target_triple i) ++ str_bytes (build_profile i) ++ str_bytes (features i) ++ encode_opt encode_hash (lockfile_digest i)
  ++ encode_opt str_bytes (sut_revision i) ++ encode_bool (sut_dirty i) ++ encode_opt encode_hash (sut_artifact_digest i)
  ++ encode_opt encode_hash (guest_digest i) ++ str_bytes (workload_id i) ++ encode_hash (program_digest i) ++ hashes_bytes (input_digests i)
  ++ str_bytes (backend i) ++ str_bytes (runtime_profile i) ++ encode_hash (run_config_digest i) ++ encode_hash (seed_tree_root i)
  ++ encode_opt encode_hash (faultspec_digest i) ++ encode_opt encode_u64 (oracle_version i) ++ encode_opt encode_u64 (support_provider_version i)
  ++ encode_u32 (journal_format_version i) ++ encode_u32 (crash_semantics_version i) ++ encode_u64 (resource_limits i).

(** The identity with its digests in canonical order. *)
Definition canonical (i : ExecutionIdentity) : ExecutionIdentity :=
  mkIdentity (engine_revision i) (engine_dirty i) (engine_version i) (toolchain i) (target_triple i) (build_profile i) (features i)
    (lockfile_digest i) (sut_revision i) (sut_dirty i) (sut_artifact_digest i) (guest_digest i) (workload_id i) (program_digest i)
    (sorted_digests (input_digests i)) (backend i) (runtime_profile i) (run_config_digest i) (seed_tree_root i) (faultspec_digest i)
    (oracle_version i) (support_provider_version i) (journal_format_version i) (crash_semantics_version i) (resource_limits i).

(** Read one field of what was written. *)
Ltac read_field :=
  match goal with
  | |- context [read_bool ?f _] => rewrite (c_enc (Codec := bool_codec f)) by done
  | |- context [read_opt (read_str ?g) ?f _] => rewrite (c_enc (Codec := opt_codec (read_str g) _ _ f _)) by assumption
  | |- context [read_opt (read_hash ?g) ?f _] => rewrite (c_enc (Codec := opt_codec (read_hash g) _ _ f _)) by assumption
  | |- context [read_opt (read_u64 ?g) ?f _] => rewrite (c_enc (Codec := opt_codec (read_u64 g) _ _ f _)) by assumption
  | |- context [read_str ?f _] => rewrite (c_enc (Codec := str_codec f)) by assumption
  | |- context [read_hash ?f _] => rewrite (c_enc (Codec := hash_codec f)) by assumption
  | |- context [read_hashes _] => rewrite (c_enc (Codec := hashes_codec)) by assumption
  | |- context [read_u32 ?f _] => rewrite (c_enc (Codec := u32_codec f)) by assumption
  | |- context [read_u64 ?f _] => rewrite (c_enc (Codec := u64_codec f)) by assumption
  end; cbv beta iota.

Lemma raw_decodes i : identity_ok i -> identity_from_canonical_bytes (raw_bytes i) = Ok i.
Proof.
  intros []. unfold raw_bytes. rewrite <- (app_nil_r (encode_u64 (resource_limits i))). unfold identity_from_canonical_bytes.
  do 25 read_field. destruct i. done.
Qed.

(** Recover one field from what was read. *)
Ltac unread_field H :=
  let take_up c := (let E := fresh "E" in destruct c as [[? ?]|] eqn:E; [|discriminate H]) in
  match type of H with
  | context [read_bool ?f ?b] => take_up (read_bool f b); match goal with E : read_bool f b = _ |- _ => apply (c_dec (Codec := bool_codec f)) in E as [_ ->] end
  | context [read_opt (read_str ?g) ?f ?b] => take_up (read_opt (read_str g) f b);
      match goal with E : read_opt _ f b = _ |- _ => apply (c_dec (Codec := opt_codec (read_str g) _ _ f _)) in E as [? ->] end
  | context [read_opt (read_hash ?g) ?f ?b] => take_up (read_opt (read_hash g) f b);
      match goal with E : read_opt _ f b = _ |- _ => apply (c_dec (Codec := opt_codec (read_hash g) _ _ f _)) in E as [? ->] end
  | context [read_opt (read_u64 ?g) ?f ?b] => take_up (read_opt (read_u64 g) f b);
      match goal with E : read_opt _ f b = _ |- _ => apply (c_dec (Codec := opt_codec (read_u64 g) _ _ f _)) in E as [? ->] end
  | context [read_str ?f ?b] => take_up (read_str f b); match goal with E : read_str f b = _ |- _ => apply (c_dec (Codec := str_codec f)) in E as [? ->] end
  | context [read_hash ?f ?b] => take_up (read_hash f b); match goal with E : read_hash f b = _ |- _ => apply (c_dec (Codec := hash_codec f)) in E as [? ->] end
  | context [read_hashes ?b] => take_up (read_hashes b); match goal with E : read_hashes b = _ |- _ => apply (c_dec (Codec := hashes_codec)) in E as [? ->] end
  | context [read_u32 ?f ?b] => take_up (read_u32 f b); match goal with E : read_u32 f b = _ |- _ => apply (c_dec (Codec := u32_codec f)) in E as [? ->] end
  | context [read_u64 ?f ?b] => take_up (read_u64 f b); match goal with E : read_u64 f b = _ |- _ => apply (c_dec (Codec := u64_codec f)) in E as [? ->] end
  end; cbv beta iota in H.

Lemma raw_decoded b i : identity_from_canonical_bytes b = Ok i -> identity_ok i /\ b = raw_bytes i.
Proof.
  unfold identity_from_canonical_bytes. intros H. do 25 unread_field H.
  match type of H with context [reject_trailing ?r] => destruct r; [|discriminate H] end.
  cbv beta iota delta [reject_trailing] in H. injection H as <-. unfold raw_bytes. rewrite app_nil_r. split; [constructor; assumption | reflexivity].
Qed.

Lemma sorted_digests_ok hs : hashes_ok hs <-> hashes_ok (sorted_digests hs).
Proof.
  pose proof (sort_by_perm cmp_hash hs) as Hp. unfold hashes_ok, sorted_digests. rewrite (Permutation_length Hp). apply and_iff_compat_l.
  split; intros H; (eapply Permutation_Forall; [|exact H]); [symmetry|]; exact Hp.
Qed.

Lemma canonical_ok i : identity_ok i -> identity_ok (canonical i).
Proof. intros []. constructor; try assumption. apply (proj1 (sorted_digests_ok _)). assumption. Qed.

Lemma check_str_fits field s : str_ok s -> check_str_len field s = Ok tt.
Proof. intros [H _]. unfold check_str_len. destruct (Z.ltb_spec MAX_IDENTITY_FIELD_BYTES (Z.of_nat (length s))); [lia | done]. Qed.
Lemma encode_str_fits s : str_ok s -> encode_str s = Ok (str_bytes s).
Proof. intros H. unfold encode_str. rewrite check_str_fits by done. done. Qed.
Lemma check_opt_str_fits field o : opt_ok str_ok o -> check_opt_str_len field o = Ok tt.
Proof. destruct o; [apply check_str_fits | done]. Qed.
Lemma encode_opt_str_fits o : opt_ok str_ok o -> encode_opt_str o = Ok (encode_opt str_bytes o).
Proof. destruct o; [|done]. intros H. cbn. rewrite encode_str_fits by exact H. done. Qed.
Lemma digests_fit hs : hashes_ok hs -> (MAX_IDENTITY_INPUT_DIGESTS <? Z.of_nat (length hs)) = false.
Proof. intros [H _]. destruct (Z.ltb_spec MAX_IDENTITY_INPUT_DIGESTS (Z.of_nat (length hs))); [lia | done]. Qed.

Lemma canonical_bytes_ok i : identity_ok i -> canonical_bytes i = Ok (raw_bytes (canonical i)).
Proof.
  intros []. unfold canonical_bytes. rewrite !check_str_fits, !check_opt_str_fits, !encode_str_fits, !encode_opt_str_fits by assumption.
  unfold encode_hashes. rewrite digests_fit by assumption. reflexivity.
Qed.

(** Equal to its own canonical form. *)
Lemma canonical_id i : canonical i = i <-> sorted_digests (input_digests i) = input_digests i.
Proof. split; [intros H; apply (f_equal input_digests) in H; exact H | intros H; unfold canonical; rewrite H; destruct i; done]. Qed.

(** Only the order of the digests is forgotten. *)
Lemma canonical_eq i j : canonical i = canonical j ->
  input_digests i ≡ₚ input_digests j /\ j = mkIdentity (engine_revision i) (engine_dirty i) (engine_version i) (toolchain i) (target_triple i)
    (build_profile i) (features i) (lockfile_digest i) (sut_revision i) (sut_dirty i) (sut_artifact_digest i) (guest_digest i) (workload_id i)
    (program_digest i) (input_digests j) (backend i) (runtime_profile i) (run_config_digest i) (seed_tree_root i) (faultspec_digest i)
    (oracle_version i) (support_provider_version i) (journal_format_version i) (crash_semantics_version i) (resource_limits i).
Proof.
  intros H. split.
  - apply (f_equal input_digests) in H. cbn in H. rewrite <- (sort_by_perm cmp_hash (input_digests i)), <- (sort_by_perm cmp_hash (input_digests j)).
    unfold sorted_digests in H. rewrite H. done.
  - destruct i, j. unfold canonical in H. cbn in *. injection H. intros. subst. done.
Qed.

(** ** Lengths *)

Lemma length_encode_opt {A} (enc : A -> list byte) o : length (encode_opt enc o) = S (match o with Some a => length (enc a) | None => 0%nat end).
Proof. destruct o; done. Qed.
Lemma length_str_bytes s : length (str_bytes s) = (8 + length s)%nat.
Proof. unfold str_bytes, encode_len. rewrite length_app, length_to_le_bytes. done. Qed.
Lemma opt_str_length o : opt_ok str_ok o -> Z.of_nat (length (encode_opt str_bytes o)) <= 1 + 8 + capped (opt_len o).
Proof. rewrite length_encode_opt. destruct o as [s|]; cbn [opt_ok opt_len]; [intros [H _]; rewrite length_str_bytes | intros _]; unfold capped, MAX_IDENTITY_FIELD_BYTES in *; lia. Qed.
Lemma str_length s : str_ok s -> Z.of_nat (length (str_bytes s)) = 8 + capped (length s).
Proof. intros [H _]. rewrite length_str_bytes. unfold capped. lia. Qed.
Lemma length_opt_hash o : opt_ok wf o -> (length (encode_opt encode_hash o) <= 1 + FRAMED_HASH_LEN)%nat.
Proof. rewrite length_encode_opt. destruct o as [h|]; cbn [opt_ok]; [|lia]. intros H. unfold encode_hash. rewrite length_framed_digest by exact H. lia. Qed.
Lemma length_opt_u64 o : (length (encode_opt encode_u64 o) <= 9)%nat.
Proof. rewrite length_encode_opt. destruct o; [unfold encode_u64; rewrite length_to_le_bytes|]; lia. Qed.
Lemma hashes_length hs : hashes_ok hs -> Z.of_nat (length (hashes_bytes hs)) = 8 + Z.min (Z.of_nat (length hs)) MAX_IDENTITY_INPUT_DIGESTS * Z.of_nat FRAMED_HASH_LEN.
Proof. intros [H Hw]. unfold hashes_bytes, encode_len. rewrite length_app, length_hashes, length_to_le_bytes by exact Hw. change FRAMED_HASH_LEN with 34%nat. lia. Qed.

Lemma raw_length i : identity_ok i -> Z.of_nat (length (raw_bytes i)) <= encoded_len_bound i.
Proof.
  intros []. unfold raw_bytes. rewrite !length_app.
  repeat match goal with H : opt_ok str_ok _ |- _ => apply opt_str_length in H | H : str_ok _ |- _ => apply str_length in H | H : opt_ok wf _ |- _ => apply length_opt_hash in H
    | H : hashes_ok _ |- _ => apply hashes_length in H | H : hash_wf _ = true |- _ => apply length_framed_digest in H end.
  pose proof (length_opt_u64 (oracle_version i)). pose proof (length_opt_u64 (support_provider_version i)).
  unfold encoded_len_bound. cbn [foldl]. unfold encode_bool, encode_hash, encode_u32, encode_u64. rewrite !length_to_le_bytes.
  unfold encode_hash, encode_u64 in *. change FRAMED_HASH_LEN with 34%nat in *. cbn [length]. lia.
Qed.

Lemma canonical_bound i : encoded_len_bound (canonical i) = encoded_len_bound i.
Proof. unfold encoded_len_bound. cbn [canonical input_digests]. unfold sorted_digests. rewrite (Permutation_length (sort_by_perm cmp_hash (input_digests i))). done. Qed.

(** ** Theorems *)

(** C34: the canonical bytes of an identity within its limits exist, fit the reserved length and decode to the identity, its digests in
    canonical order; the decoder accepts exactly the field bytes of identities within the limits. *)
Theorem identity_codec_exact :
  (forall i, identity_ok i -> exists b, canonical_bytes i = Ok b /\ identity_from_canonical_bytes b = Ok (canonical i)
     /\ Z.of_nat (length b) <= encoded_len_bound i)
  /\ (forall b i, identity_from_canonical_bytes b = Ok i <-> identity_ok i /\ b = raw_bytes i)
  /\ (forall b i, identity_from_canonical_bytes b = Ok i -> (canonical_bytes i = Ok b <-> sorted_digests (input_digests i) = input_digests i)).
Proof.
  split_and!.
  - intros i Hi. exists (raw_bytes (canonical i)). split_and!; [apply canonical_bytes_ok, Hi | apply raw_decodes, canonical_ok, Hi|].
    rewrite <- canonical_bound. apply raw_length, canonical_ok, Hi.
  - intros b i. split; [apply raw_decoded | intros [Hi ->]; apply raw_decodes, Hi].
  - intros b i [Hi ->]%raw_decoded. rewrite canonical_bytes_ok, <- canonical_id by exact Hi. split; [|intros ->; done].
    intros [= H]. apply (f_equal identity_from_canonical_bytes) in H. rewrite !raw_decodes in H by (try apply canonical_ok; exact Hi).
    congruence.
Qed.

(** Two identities have one byte string, and so one digest input, exactly when they differ at most in the order of their input
    digests. *)
Theorem identity_bytes_bind i j : identity_ok i -> identity_ok j -> (canonical_bytes i = canonical_bytes j <-> canonical i = canonical j).
Proof.
  intros Hi Hj. rewrite !canonical_bytes_ok by done. split; [|intros ->; done]. intros [= H]. apply (f_equal identity_from_canonical_bytes) in H.
  rewrite !raw_decodes in H by (apply canonical_ok; done). congruence.
Qed.

(** The limits of the encoder. *)
Definition within_limits (i : ExecutionIdentity) : bool :=
  let fits (s : list byte) := Z.of_nat (length s) <=? MAX_IDENTITY_FIELD_BYTES in
  forallb fits [engine_version i; toolchain i; target_triple i; build_profile i; features i; workload_id i; backend i; runtime_profile i]
  && forallb (fun o => match o with Some s => fits s | None => true end) [engine_revision i; sut_revision i]
  && (Z.of_nat (length (input_digests i)) <=? MAX_IDENTITY_INPUT_DIGESTS).

Lemma check_str_len_cases field s : check_str_len field s = if Z.of_nat (length s) <=? MAX_IDENTITY_FIELD_BYTES then Ok tt else Err (FieldExceedsLimit field).
Proof. unfold check_str_len. rewrite Z.leb_antisym. destruct (_ <? _); done. Qed.
Lemma encode_str_cases s : encode_str s = if Z.of_nat (length s) <=? MAX_IDENTITY_FIELD_BYTES then Ok (str_bytes s) else Err (FieldExceedsLimit "field").
Proof. unfold encode_str. rewrite check_str_len_cases. destruct (_ <=? _); done. Qed.

(** One field over its limit. *)
Ltac over s := destruct (Z.of_nat (length s) <=? MAX_IDENTITY_FIELD_BYTES); cbn [andb]; [|split; intros H; [destruct H; discriminate | discriminate H]].

Lemma canonical_bytes_limits i : (exists b, canonical_bytes i = Ok b) <-> within_limits i = true.
Proof.
  unfold canonical_bytes, within_limits, check_opt_str_len, encode_opt_str, encode_hashes. rewrite !check_str_len_cases, !encode_str_cases. cbn [forallb]. cbv beta zeta.
  rewrite (Z.leb_antisym MAX_IDENTITY_INPUT_DIGESTS (Z.of_nat (length (input_digests i)))).
  over (engine_version i). over (toolchain i). over (target_triple i). over (build_profile i). over (features i). over (workload_id i). over (backend i).
  over (runtime_profile i). destruct (engine_revision i) as [r|], (sut_revision i) as [u|]; rewrite ?check_str_len_cases, ?encode_str_cases; cbn [andb];
    try over r; try over u; destruct (MAX_IDENTITY_INPUT_DIGESTS <? _); cbn [negb andb]; split; intros H; first [done | destruct H; discriminate | eauto].
Qed.

(** C40: an identity has canonical bytes exactly when every text field and the number of digests are within their limits.  An
    incomplete identity has no digest; a complete one within the limits has the keyed hash of its bytes; a complete one
    over a limit fails with the error of its encoding. *)
Theorem identity_fails_closed keyed i :
  ((exists b, canonical_bytes i = Ok b) <-> within_limits i = true)
  /\ (is_complete i = false -> digest keyed i = Ok None)
  /\ (is_complete i = true -> within_limits i = true -> exists b, canonical_bytes i = Ok b /\ digest keyed i = Ok (Some (keyed b)))
  /\ (is_complete i = true -> within_limits i = false -> exists e, canonical_bytes i = Err e /\ digest keyed i = Err e).
Proof.
  assert (Hiff : (exists b, canonical_bytes i = Ok b) <-> within_limits i = true) by apply canonical_bytes_limits.
  split; [exact Hiff|]. unfold digest. split_and!.
  - intros ->. done.
  - intros -> Hw. apply Hiff in Hw as [b ->]. exists b. done.
  - intros -> Hw. destruct (canonical_bytes i) as [b|e]; [|exists e; done]. assert (within_limits i = true) by (apply Hiff; eauto). congruence.
Qed.

(** ** Witnesses *)

Definition sample_identity : ExecutionIdentity :=
  let h b := repeat b 32 in
  mkIdentity (Some (bytes_of_string "r1")) false (bytes_of_string "0.1.0") (bytes_of_string "stable") (bytes_of_string "x86_64") (bytes_of_string "debug") (bytes_of_string "std") (Some (h x01)) (Some (bytes_of_string "s1")) true None
    (Some (h x02)) (bytes_of_string "kv") (h x03) [h x05; h x04] (bytes_of_string "sim") (bytes_of_string "host") (h x06) (h x07) None (Some 3) None 1 1 1000.
Definition swapped_identity : ExecutionIdentity := canonical sample_identity.

Ltac identity_fits := constructor; cbn; repeat split; vm_compute; first [reflexivity | discriminate | repeat constructor].
Lemma sample_identity_ok : identity_ok sample_identity.
Proof. identity_fits. Qed.

(** An identity and its canonical form have one byte string, though their digests are in other orders. *)
Lemma identity_bytes_bind_witness : sample_identity <> swapped_identity /\ canonical_bytes sample_identity = canonical_bytes swapped_identity.
Proof.
  split; [vm_compute; discriminate|]. apply (proj2 (identity_bytes_bind sample_identity swapped_identity sample_identity_ok (canonical_ok _ sample_identity_ok))). vm_compute. reflexivity.
Defined.

(** The decoder accepts digests in any order, so two byte strings decode to identities of one digest. *)
Theorem unsorted_digests_accepted : exists b, identity_from_canonical_bytes b = Ok sample_identity /\ canonical_bytes sample_identity <> Ok b.
Proof.
  exists (raw_bytes sample_identity). split; [apply raw_decodes, sample_identity_ok|]. rewrite canonical_bytes_ok by exact sample_identity_ok. vm_compute. discriminate.
Qed.
