(* ===== verification/Campaign.v ===== *)
(** * Campaigns

    Models the search of [ledger-explorer]: [search/mod.rs], [search/campaign.rs], [search/quad.rs], [search/bandit.rs],
    [search/input_axis.rs], [search/replay.rs], the fault ladder of [search/feedback.rs], [memo.rs], [pbt.rs] and [diagnosis.rs].

    - Every attempt of a campaign is one simulation under a seed of its own; what varies besides is drawn from streams of the base
      seed, or chosen by a bandit.
    - A memo keyed by a digest of all that an attempt depends on skips attempts already made.
    - A finding is replayed by its seed and decisions, with or without faults, and compared entry by entry.

    BLAKE3 keyed with a seed and its key derivation, ChaCha20 and [powf] are parameters.  [None] is a simulation or a draw that is
    out of fuel.  The text of a variant is represented by its arguments. *)

From stdpp Require Import gmap pretty.
From Stdlib Require Import SpecFloat.
From S2P Require Import Prelude Machine Floats Cbor Limits Value Path Hex Frame Entry OrdMap Order Clock Dag.
From S2P Require Import Causal Monitor KeyMap VirtualTime Net Scheduler SimFs Backend OSet Verdict Hitting Ldfi Oracle OnlineMonitor Config Executor Flow.

Open Scope Z_scope.

#[global] Instance PathRef_eq_dec : EqDecision PathRef.
Proof. solve_decision. Defined.
#[global] Instance CrashOperation_eq_dec : EqDecision CrashOperation.
Proof. solve_decision. Defined.

(** ** Memo *)

Record MemoEntry : Type := mkMemoEntry { me_run_config_hash : EntryHash; me_journal_root : EntryHash; me_distinct : bool }.

Definition CampaignMemo : Type := gmap (list byte) MemoEntry.

Definition policy_bytes (p : Policy) : list byte :=
  match p with
  | Random => [x00]
  | Pct priority_changes => x01 :: to_le_bytes 8 (Z.of_nat priority_changes)
  | Bandit exploration_constant pct_mix => x02 :: to_le_bytes 8 (sf_to_bits exploration_constant) ++ to_le_bytes 8 (sf_to_bits pct_mix)
  | Replay => [x03]
  | Dpor => [x04]
  end.

Definition swarm_bytes (s : SwarmConfig) : list byte :=
  to_le_bytes 8 (sf_to_bits (drop_probability s)) ++ to_le_bytes 8 (sf_to_bits (delay_probability s)) ++ to_le_bytes 8 (max_delay_ticks s)
  ++ to_le_bytes 8 (sf_to_bits (crash_probability s)) ++ to_le_bytes 8 (fault_classes_per_run s).

Definition fault_bytes (f : SimFault) : list byte :=
  match f with
  | Drop id => x00 :: id
  | Delay send ticks => x01 :: send ++ to_le_bytes 8 ticks
  | SPartition src dst => x02 :: to_le_bytes 4 src ++ to_le_bytes 4 dst
  | Crash id => x03 :: id
  | Corrupt write xor_mask => x04 :: write ++ to_le_bytes 8 xor_mask
  | CrashState write state => x05 :: write ++ to_le_bytes 8 state
  | Duplicate send => x06 :: send
  end.

Definition canonical_variant_bytes (p : Policy) (s : SwarmConfig) (faults : list SimFault) : list byte :=
  policy_bytes p ++ swarm_bytes s ++ to_le_bytes 8 (Z.of_nat (length faults)) ++ concat (map fault_bytes faults).

Definition decisions_bytes (ds : list nat) : list byte :=
  to_le_bytes 8 (Z.of_nat (length ds)) ++ concat (map (fun d => to_le_bytes 8 (Z.of_nat d)) ds).

(** What [memo_key] hashes, after the digest of the variant. *)
Definition memo_preimage (variant_digest : list byte) (input_hash : option EntryHash) (replay : option (list nat)) (seed : option EntryHash) : list byte :=
  variant_digest ++ [xa0]
  ++ match input_hash with Some h => h ++ [xa1] | None => [x00] end
  ++ match replay with Some ds => decisions_bytes ds ++ [xa2] | None => [x01] end
  ++ match seed with Some s => s ++ [xa3] | None => [x02] end.

(** ** Escalation *)

Definition escalate (f : SimFault) : option SimFault :=
  match f with
  | Drop id => Some (Crash id)
  | Delay send ticks =>
      let next := Z.max (Z.min (ticks * 2) u64_max) 1 in
      let capped := Z.min next 32 in
      if (capped =? ticks)%Z then None else Some (Delay send capped)
  | Corrupt write xor_mask =>
      let next_mask :=
        if (xor_mask =? 1)%Z then 255
        else if (xor_mask =? 255)%Z then 65535
        else if (xor_mask =? 65535)%Z then 4294967295
        else if (xor_mask =? 4294967295)%Z then u64_max
        else wrap64 (wrap64 (xor_mask * 2) + 1) in
      if (next_mask =? xor_mask)%Z then None else Some (Corrupt write next_mask)
  | CrashState write state =>
      let next := Z.min (Z.min (state + 1) u64_max) 2 in
      if (next =? state)%Z then None else Some (CrashState write next)
  | Crash _ | SPartition _ _ | Duplicate _ => None
  end.

(** The derived order: declaration order of the variants, then of their fields. *)
Definition fault_rank (f : SimFault) : Z :=
  match f with
  | Drop _ => 0 | Delay _ _ => 1 | SPartition _ _ => 2 | Crash _ => 3 | Corrupt _ _ => 4 | CrashState _ _ => 5 | Duplicate _ => 6
  end.
Definition fault_fields (f : SimFault) : list byte * (Z * Z) :=
  match f with
  | Drop id | Crash id | Duplicate id => (id, (0, 0))
  | Delay id v | Corrupt id v | CrashState id v => (id, (v, 0))
  | SPartition src dst => ([], (src, dst))
  end.
Definition cmp_fault (f g : SimFault) : comparison :=
  cmp_pair Z.compare (cmp_pair cmp_hash (cmp_pair Z.compare Z.compare)) (fault_rank f, fault_fields f) (fault_rank g, fault_fields g).

(** The loop over the schedule: the targets seen and the faults kept. *)
Fixpoint rebuild_loop (escalated : gmap (list byte) SimFault) (seen : gset (list byte)) (base : list SimFault) : list SimFault :=
  match base with
  | [] => []
  | f :: base =>
      match fault_target f with
      | Some hash =>
          match escalated !! hash with
          | Some esc =>
              if bool_decide (hash ∈ seen) then rebuild_loop escalated seen base
              else esc :: rebuild_loop escalated ({[hash]} ∪ seen) base
          | None =>
              if bool_decide (hash ∈ seen) then rebuild_loop escalated seen base
              else f :: rebuild_loop escalated ({[hash]} ∪ seen) base
          end
      | None => f :: rebuild_loop escalated seen base
      end
  end.

(** The [BTreeMap] in the order of its keys. *)
Definition escalated_entries (escalated : gmap (list byte) SimFault) : list (list byte * SimFault) :=
  sort_by (fun a b => cmp_hash a.1 b.1) (map_to_list escalated).

Definition rebuild_schedule (base : list SimFault) (suppressed : gset (list byte)) (voided : list SimFault) (escalated : gmap (list byte) SimFault) :
    list SimFault :=
  let base := List.filter (fun f => match fault_target f with
                                    | Some hash => negb (bool_decide (hash ∈ suppressed))
                                    | None => negb (bool_decide (f ∈ voided))
                                    end) base in
  let rebuilt := rebuild_loop escalated ∅ base in
  let rebuilt := foldl (fun rebuilt '(hash, esc) =>
      let present := existsb (fun f => bool_decide (fault_target f = Some hash)) rebuilt in
      if negb present && negb (bool_decide (hash ∈ suppressed)) then rebuilt ++ [esc] else rebuilt) rebuilt (escalated_entries escalated) in
  dedup (sort_by cmp_fault rebuilt).

(** ** Comparing journals *)

Definition entries_in_vc_order (j : JournalState) : list JEntry :=
  sort_by (fun a b => cmp_pair Z.compare Z.compare (Entry.actor (edata a), Entry.sequence (edata a)) (Entry.actor (edata b), Entry.sequence (edata b))) (entries j).

Inductive Divergence : Type :=
| Identical
| Diverged (l r : JEntry)
| Truncated (l r : option JEntry).

Fixpoint divergence_loop (ls rs : list JEntry) : Divergence :=
  match ls, rs with
  | [], [] => Identical
  | l :: ls, r :: rs => if bool_decide (eid l = eid r) then divergence_loop ls rs else Diverged l r
  | l :: _, [] => Truncated (Some l) None
  | [], r :: _ => Truncated None (Some r)
  end.

Definition first_divergence (l r : JournalState) : Divergence := divergence_loop (entries_in_vc_order l) (entries_in_vc_order r).

Inductive JournalDiff : Type :=
| JIdentical
| JDiverged (l r : EntryHash)
| JTruncated (l r : option EntryHash).

Definition diff (l r : RunReport) : JournalDiff :=
  match first_divergence (rr_journal l) (rr_journal r) with
  | Identical => JIdentical
  | Diverged l r => JDiverged (eid l) (eid r)
  | Truncated l r => JTruncated (option_map eid l) (option_map eid r)
  end.

(** ** Verdicts and findings *)

(** What an oracle sees of a run. *)
Definition run_result (r : RunReport) : RunResult := mkRun (rr_journal r) (rr_registers r) (rr_applied_faults r).

(** A run that did not complete is a liveness violation. *)
Definition effective_verdict (r : RunReport) (verdict : Verdict) : Verdict :=
  let stalled why :=
    let ws := witnesses_from_journal (rr_journal r) in
    verdict_fail (match ws with [] => tail_ids (rr_journal r) 8 | _ => ws end) why in
  match rr_outcome r with
  | Completed => verdict
  | BudgetExhausted => stalled (StepBudgetExhausted (rr_steps r))
  | Blocked => stalled (Message "liveness violation: run quiesced with pending tasks")
  | MonitorHalt why => stalled (MonitorHalted why)
  end.

Record Finding : Type := mkFinding { fd_seed : EntryHash; fd_run : RunReport; fd_verdict : Verdict }.

(** The text of a variant: [describe_variant] and the formats of the joint and the feedback campaign. *)
Inductive Variant : Type :=
| Described (attempt : nat) (policy : Policy) (swarm : SwarmConfig) (faults : list SimFault) (input : option (list byte))
| JointSearch (attempt : nat)
| JointPerturbed (attempt : nat)
| FeedbackSearch (attempt : nat)
| FeedbackRound (round applied voided : nat) (escalated : list (list byte)) (suppressed : nat)
| StrictViolation (round voided suppressed : nat).

Record CampaignReport : Type := mkCampaign {
  runs_executed : nat; distinct_roots : nat; findings : list Finding; variants : list Variant; monitors : list string; memo_hits : nat }.

(** [Workload]: its programs, as they are and rebuilt with inputs. *)
Record Workload : Type := mkWorkload { programs : list Program; with_inputs : list Z -> list Program }.

Inductive EnergyDistribution : Type := Uniform | Power (exponent : spec_float).
Inductive PbtError : Type := EmptyRange | InvalidExponent (exponent : spec_float).

Record QuadMutation : Type := mkMutation {
  policies : list Policy;
  use_swarm : bool;
  swarm_budget : Z;
  fault_library : list SimFault;
  max_faults_per_run : nat;
  input_generator : option (list byte);
  input_energy : option EnergyDistribution }.

Record CrashMismatch : Type := mkMismatch { cm_fault : SimFault; cm_requested : CrashOperation; cm_journaled : option CrashOperation }.
Inductive FaultReplayError : Type :=
| FrStrictReplay (v : ReplayViolation)
| CrashSemanticsMismatch (m : CrashMismatch)
| FrRuntime (e : RuntimeError).

Inductive SearchError : Type :=
| SearchSimulation (e : RuntimeError)
| SearchSolver (e : SolverError)
| SearchCanonical (e : ConfigCanonicalError)
| SearchReplay (e : FaultReplayError)
| SearchProbability (e : ProbabilityError)
| SearchPbt (e : PbtError)
| UnknownArm (arm : Z).

(** *** The setters of [RunConfig] *)

Definition cfg_with_seed (c : RunConfig) (seed : EntryHash) : RunConfig :=
  mkConfig seed (cfg_policy c) (cfg_max_steps c) (cfg_dropped_events c) (cfg_swarm c) (cfg_links c) (cfg_dns c) (cfg_fault_schedule c)
    (cfg_fs_journaling c) (cfg_monitor c) (cfg_reorder_draw c) (cfg_max_file_extent c) (cfg_max_resident_bytes c).
Definition cfg_with_policy (c : RunConfig) (p : Policy) : RunConfig :=
  mkConfig (cfg_seed c) p (cfg_max_steps c) (cfg_dropped_events c) (cfg_swarm c) (cfg_links c) (cfg_dns c) (cfg_fault_schedule c)
    (cfg_fs_journaling c) (cfg_monitor c) (cfg_reorder_draw c) (cfg_max_file_extent c) (cfg_max_resident_bytes c).
Definition cfg_with_swarm (c : RunConfig) (s : SwarmConfig) : RunConfig :=
  mkConfig (cfg_seed c) (cfg_policy c) (cfg_max_steps c) (cfg_dropped_events c) s (cfg_links c) (cfg_dns c) (cfg_fault_schedule c)
    (cfg_fs_journaling c) (cfg_monitor c) (cfg_reorder_draw c) (cfg_max_file_extent c) (cfg_max_resident_bytes c).
Definition cfg_with_faults (c : RunConfig) (fs : list SimFault) : RunConfig :=
  mkConfig (cfg_seed c) (cfg_policy c) (cfg_max_steps c) (cfg_dropped_events c) (cfg_swarm c) (cfg_links c) (cfg_dns c) fs
    (cfg_fs_journaling c) (cfg_monitor c) (cfg_reorder_draw c) (cfg_max_file_extent c) (cfg_max_resident_bytes c).

(** *** Random streams *)

(** A ChaCha20 generator: its seed and the words drawn. *)
Record Rng : Type := mkRng { rng_seed : EntryHash; rng_drawn : nat }.

Definition SWARM_FAULT_CLASSES_PER_RUN : Z := 2.
Definition SWARM_CRASH_CEILING : spec_float := f64_tenth.
Definition SWARM_CAMPAIGN_MAX_DELAY_BUDGET : Z := 8.
Definition INPUT_SAMPLE_RANGE : Z := 100.
Definition INPUT_AXIS_SAMPLE : nat := 16.
Definition BANDIT_SWARM_SAMPLES : nat := 4.
Definition BANDIT_FAULT_SAMPLES : nat := 4.

(** [format!("{name}{index}")]. *)
Definition label (name : string) (index : nat) : list byte := bytes_of_string (name ++ pretty (N.of_nat index)).

Definition obind {E A B} (m : option (result E A)) (k : A -> option (result E B)) : option (result E B) :=
  match m with None => None | Some (Err e) => Some (Err e) | Some (Ok a) => k a end.
Definition omap_err {E F A} (f : E -> F) (m : option (result E A)) : option (result F A) := option_map (map_err f) m.
Declare Scope campaign_scope.
Notation "'let!' x := m 'in' k" := (obind m (fun x => k)) (at level 10, x name, m at level 200, k at level 200) : campaign_scope.
Notation "'let!' ' pat := m 'in' k" := (obind m (fun pat => k)) (at level 10, pat strict pattern, m at level 200, k at level 200) : campaign_scope.
Open Scope campaign_scope.

Section Campaign.
Variable blake3 : list byte -> list byte.
(** BLAKE3 keyed with a seed, and the key derived of a seed under a label. *)
Variable keyed : EntryHash -> list byte -> list byte.
Variable derive : EntryHash -> list byte -> EntryHash.
Variable chacha_word : EntryHash -> nat -> Z.
Variable powf : spec_float -> spec_float -> spec_float.
Variable ln : spec_float -> spec_float.
Variable journaling base_unique : bool.
Variable iter : gmap Z Z -> list (Z * Z).
(** The fuel of each simulation and of each draw that may be repeated. *)
Variables fuel draws : nat.

Abbreviation rres A := (option (result RuntimeError A)).
Abbreviation sres A := (option (result SearchError A)).

Definition hash_inputs (inputs : list Z) : EntryHash :=
  blake3 (to_le_bytes 8 (Z.of_nat (length inputs)) ++ concat (map (to_le_bytes 8) inputs)).

Definition memo_key (p : Policy) (s : SwarmConfig) (faults : list SimFault) (input_hash : option EntryHash) (replay : option (list nat))
    (seed : option EntryHash) : EntryHash :=
  blake3 (memo_preimage (blake3 (canonical_variant_bytes p s faults)) input_hash replay seed).

(** [Simulation::new(config, programs).run()] and the replays. *)
Definition run_new (config : RunConfig) (ps : list Program) : rres RunReport :=
  simulate blake3 (keyed (cfg_seed config)) ln journaling base_unique config iter fuel None (simulation_new journaling config ps).
Definition run_strict (config : RunConfig) (ps : list Program) (decisions : list nat) : rres RunReport :=
  simulate blake3 (keyed (cfg_seed config)) ln journaling base_unique config iter fuel None (simulation_strict journaling config decisions ps).
Definition run_replay (config : RunConfig) (ps : list Program) (decisions : list nat) : rres RunReport :=
  simulate blake3 (keyed (cfg_seed config)) ln journaling base_unique config iter fuel None
    (simulation_with_replay_and_fallback journaling config decisions Random ps).

(** *** Draws *)

Definition seed_rng (seed : EntryHash) (name : list byte) : Rng := mkRng (derive seed name) 0.
Definition rng_next (r : Rng) : Z * Rng := (chacha_word (rng_seed r) (rng_drawn r), mkRng (rng_seed r) (S (rng_drawn r))).

(** The rejection loop. *)
Fixpoint unbiased_loop (fuel : nat) (threshold limit : Z) (r : Rng) : option (Z * Rng) :=
  match fuel with
  | O => None
  | S fuel =>
      let '(value, r) := rng_next r in
      if (value <? threshold)%Z then Some (value mod limit, r) else unbiased_loop fuel threshold limit r
  end.
Definition unbiased_range (r : Rng) (bound : Z) : option (Z * Rng) :=
  if (bound =? u64_max)%Z then Some (rng_next r)
  else
    let limit := bound + 1 in
    let threshold := u64_max - u64_max mod limit in
    unbiased_loop draws threshold limit r.

Definition draw_swarm (seed : EntryHash) (name : list byte) (budget : Z) (crash_ceiling : spec_float) : sres SwarmConfig :=
  let r := seed_rng seed name in
  let '(v, r) := rng_next r in
  match probability_new (unit_interval v) with
  | Err e => Some (Err (SearchProbability e))
  | Ok drop_probability =>
      let '(v, r) := rng_next r in
      match probability_new (unit_interval v) with
      | Err e => Some (Err (SearchProbability e))
      | Ok delay_probability =>
          let '(v, r) := rng_next r in
          match probability_new (f64_mul (unit_interval v) crash_ceiling) with
          | Err e => Some (Err (SearchProbability e))
          | Ok crash_probability =>
              match unbiased_range r budget with
              | None => None
              | Some (ticks, _) => Some (Ok (mkSwarm drop_probability delay_probability ticks crash_probability SWARM_FAULT_CLASSES_PER_RUN))
              end
          end
      end
  end.

(** The [while] loop: draw indices until [count] faults are chosen. *)
Fixpoint subset_loop (fuel : nat) (library : list SimFault) (count : nat) (chosen : list SimFault) (used : gset nat) (r : Rng) :
    option (list SimFault * Rng) :=
  if negb (length chosen <? count)%nat then Some (chosen, r)
  else
    match fuel with
    | O => None
    | S fuel =>
        match unbiased_range r (Z.of_nat (length library) - 1) with
        | None => None
        | Some (index, r) =>
            let index := Z.to_nat index in
            if bool_decide (index ∈ used) then subset_loop fuel library count chosen used r
            else
              match library !! index with
              | None => None
              | Some f => subset_loop fuel library count (chosen ++ [f]) ({[index]} ∪ used) r
              end
        end
    end.
Definition draw_fault_subset (library : list SimFault) (max_per_run : nat) (r : Rng) : option (list SimFault * Rng) :=
  let cap := Nat.min max_per_run (length library) in
  match unbiased_range r (Z.of_nat cap) with
  | None => None
  | Some (count, r) => subset_loop draws library (Z.to_nat count) [] ∅ r
  end.

(** [PbtBridge]. *)
Definition bridge_new (name : list byte) (seed : EntryHash) : Rng := seed_rng seed (bytes_of_string "gen/" ++ name).
Definition uniform_mod (r : Rng) (modulus : Z) : Z * Rng := let '(v, r) := rng_next r in (v mod modulus, r).
Definition sample_range (r : Rng) (lo hi : Z) : Z * Rng := let '(v, r) := uniform_mod r (hi - lo) in (lo + v, r).
Definition sample_energy (r : Rng) (range : Z) (dist : EnergyDistribution) : result PbtError (Z * Rng) :=
  if (range =? 0)%Z then Err EmptyRange
  else
    match dist with
    | Uniform => Ok (uniform_mod r range)
    | Power exponent =>
        if negb (is_finite exponent) || SFleb exponent f64_zero then Err (InvalidExponent exponent)
        else
          let '(v, r) := rng_next r in
          let powered := powf (unit_interval v) exponent in
          let raw := f64_as_u64 (f64_mul (f64_of range) powered) in
          Ok (if (range <=? raw)%Z then range - 1 else raw, r)
    end.

Fixpoint inputs_loop (count : nat) (dist : option EnergyDistribution) (r : Rng) : result PbtError (list Z) :=
  match count with
  | O => Ok []
  | S count =>
      let? '(value, r) := match dist with
                          | None | Some Uniform => Ok (sample_range r 0 INPUT_SAMPLE_RANGE)
                          | Some (Power e) => sample_energy r INPUT_SAMPLE_RANGE (Power e)
                          end in
      let? values := inputs_loop count dist r in Ok (value :: values)
  end.
Definition draw_inputs (generator : list byte) (attempt_seed : EntryHash) (dist : option EnergyDistribution) : result SearchError (list Z) :=
  map_err SearchPbt (inputs_loop INPUT_AXIS_SAMPLE dist (bridge_new generator attempt_seed)).

(** *** Seed campaigns *)

(** The base seed with the attempt in its first eight bytes. *)
Definition attempt_seed (base : RunConfig) (attempt : nat) : EntryHash := to_le_bytes 8 (Z.of_nat attempt) ++ drop 8 (cfg_seed base).
Definition attempt_config (base : RunConfig) (attempt : nat) : RunConfig := cfg_with_seed base (attempt_seed base attempt).

Definition judge (oracle : Oracle) (r : RunReport) : Verdict := effective_verdict r (oracle (run_result r)).

Section Search.
Variables (w : Workload) (oracle : Oracle) (base : RunConfig).

Fixpoint find_loop (budget attempt : nat) : sres (option Finding * nat) :=
  match budget with
  | O => Some (Ok (None, attempt))
  | S budget =>
      let config := attempt_config base attempt in
      let! run := omap_err SearchSimulation (run_new config (programs w)) in
      let verdict := judge oracle run in
      if violated verdict then Some (Ok (Some (mkFinding (cfg_seed config) run verdict), S attempt))
      else find_loop budget (S attempt)
  end.
Definition find_first_violation (budget : nat) : sres (option Finding * nat) := find_loop budget 0.
Definition search (attempts : nat) : sres (option Finding) := let! '(finding, _) := find_first_violation attempts in Some (Ok finding).

(** One attempt: the roots and findings grow. *)
Definition add_run (check : RunReport -> Verdict) (seed : EntryHash) (run : RunReport) (st : gset (list byte) * list Finding) : gset (list byte) * list Finding :=
  let '(roots, found) := st in
  let roots := {[root_hash blake3 (rr_journal run)]} ∪ roots in
  let verdict := check run in
  (roots, if violated verdict then found ++ [mkFinding seed run verdict] else found).

Fixpoint campaign_loop (attempts attempt : nat) (st : gset (list byte) * list Finding) : sres (gset (list byte) * list Finding) :=
  match attempts with
  | O => Some (Ok st)
  | S attempts =>
      let config := attempt_config base attempt in
      let! run := omap_err SearchSimulation (run_new config (programs w)) in
      campaign_loop attempts (S attempt) (add_run (judge oracle) (cfg_seed config) run st)
  end.
Definition run_campaign (attempts : nat) : sres CampaignReport :=
  let! '(roots, found) := campaign_loop attempts 0 (∅, []) in
  Some (Ok (mkCampaign attempts (size roots) found [] [] 0)).

(** *** Swarm and quadruple campaigns *)

Definition describe (config : RunConfig) (attempt : nat) (input : option (list byte)) : Variant :=
  Described attempt (cfg_policy config) (cfg_swarm config) (cfg_fault_schedule config) input.

Fixpoint swarm_loop (attempts attempt : nat) (st : gset (list byte) * list Finding) (vs : list Variant) :
    sres (gset (list byte) * list Finding * list Variant) :=
  match attempts with
  | O => Some (Ok (st, vs))
  | S attempts =>
      let! swarm := draw_swarm (cfg_seed base) (label "swarm/" attempt) SWARM_CAMPAIGN_MAX_DELAY_BUDGET SWARM_CRASH_CEILING in
      let config := cfg_with_swarm (attempt_config base attempt) swarm in
      let! run := omap_err SearchSimulation (run_new config (programs w)) in
      swarm_loop attempts (S attempt) (add_run (fun r => oracle (run_result r)) (cfg_seed config) run st) (vs ++ [describe config attempt None])
  end.
Definition run_swarm_campaign (attempts : nat) : sres CampaignReport :=
  let! '(roots, found, vs) := swarm_loop attempts 0 (∅, []) [] in
  Some (Ok (mkCampaign attempts (size roots) found vs [] 0)).

(** A memoised attempt: on a hit only the root is reused. *)
Record QuadState : Type := mkQuad { q_roots : gset (list byte); q_findings : list Finding; q_variants : list Variant; q_memo : CampaignMemo }.

Definition attempt_key (config : RunConfig) (input_hash : option EntryHash) : EntryHash :=
  memo_key (cfg_policy config) (cfg_swarm config) (cfg_fault_schedule config) input_hash None (Some (cfg_seed config)).

Definition memo_attempt (check : RunReport -> Verdict) (config : RunConfig) (ps : list Program) (input_hash : option EntryHash) (v : Variant)
    (q : QuadState) : sres (bool * QuadState) :=
  let key := attempt_key config input_hash in
  match q_memo q !! key with
  | Some entry => Some (Ok (false, mkQuad ({[me_journal_root entry]} ∪ q_roots q) (q_findings q) (q_variants q ++ [v]) (q_memo q)))
  | None =>
      let! run := omap_err SearchSimulation (run_new config ps) in
      let root := root_hash blake3 (rr_journal run) in
      let distinct := negb (bool_decide (root ∈ q_roots q)) in
      let verdict := check run in
      Some (Ok (violated verdict,
        mkQuad ({[root]} ∪ q_roots q) (if violated verdict then q_findings q ++ [mkFinding (cfg_seed config) run verdict] else q_findings q)
          (q_variants q ++ [v]) (<[key := mkMemoEntry key root distinct]> (q_memo q))))
  end.

(** The programs of an attempt, with the label and the hash of its inputs. *)
Definition attempt_inputs (m : QuadMutation) (name : string) (attempt : nat) : result SearchError (list Program * option (list byte) * option EntryHash) :=
  match input_generator m with
  | Some generator =>
      let lab := label name attempt in
      let? inputs := draw_inputs generator (derive (cfg_seed base) lab) (input_energy m) in
      Ok (with_inputs w inputs, Some lab, Some (hash_inputs inputs))
  | None => Ok (programs w, None, None)
  end.

Definition quad_config (m : QuadMutation) (attempt : nat) : sres RunConfig :=
  let config := attempt_config base attempt in
  let config :=
    match policies m with
    | [] => cfg_with_policy config (cfg_policy base)
    | p0 :: _ =>
        let draw := from_le_bytes (take 8 (derive (cfg_seed base) (label "quad-policy/" attempt))) in
        cfg_with_policy config (default p0 (policies m !! modulo draw (length (policies m))))
    end in
  let! config :=
    (if use_swarm m then
       let! swarm := draw_swarm (cfg_seed base) (label "quad-swarm/" attempt) (swarm_budget m) SWARM_CRASH_CEILING in
       Some (Ok (cfg_with_swarm config swarm))
     else Some (Ok config)) in
  match fault_library m with
  | [] => Some (Ok config)
  | _ =>
      match draw_fault_subset (fault_library m) (max_faults_per_run m) (seed_rng (cfg_seed base) (label "quad-faults/" attempt)) with
      | None => None
      | Some (schedule, _) => Some (Ok (cfg_with_faults config schedule))
      end
  end.

Fixpoint quad_loop (m : QuadMutation) (attempts attempt : nat) (q : QuadState) : sres QuadState :=
  match attempts with
  | O => Some (Ok q)
  | S attempts =>
      let! config := quad_config m attempt in
      let! '(ps, lab, input_hash) := Some (attempt_inputs m "quad-input/" attempt) in
      let! '(_, q) := memo_attempt (fun r => oracle (run_result r)) config ps input_hash (describe config attempt lab) q in
      quad_loop m attempts (S attempt) q
  end.
Definition run_campaign_quad (m : QuadMutation) (attempts : nat) : sres CampaignReport :=
  let! q := quad_loop m attempts 0 (mkQuad ∅ [] [] ∅) in
  Some (Ok (mkCampaign attempts (size (q_roots q)) (q_findings q) (q_variants q) [] 0)).

(** *** The input axis *)

Fixpoint input_loop (generator : list byte) (energy : option EnergyDistribution) (attempts attempt : nat) : sres (option Finding) :=
  match attempts with
  | O => Some (Ok None)
  | S attempts =>
      let seed := derive (cfg_seed base) (label "input-axis/" attempt) in
      let! inputs := Some (draw_inputs generator seed energy) in
      let! run := omap_err SearchSimulation (run_new base (with_inputs w inputs)) in
      let verdict := judge oracle run in
      if violated verdict then Some (Ok (Some (mkFinding seed run verdict))) else input_loop generator energy attempts (S attempt)
  end.
Definition search_input_energy (generator : list byte) (energy : option EnergyDistribution) (attempts : nat) : sres (option Finding) :=
  input_loop generator energy attempts 0.
Definition search_input (generator : list byte) (attempts : nat) : sres (option Finding) := search_input_energy generator None attempts.

(** *** The bandit *)

(** Arms by their hash; registration is not a pull. *)
Record QuadBandit : Type := mkBandit { pulls : gmap Z nat; rewards : gmap Z spec_float; total : nat; candidates : list Z }.
Definition bandit_new : QuadBandit := mkBandit ∅ ∅ 0 [].

Definition register (b : QuadBandit) (variant : Z) : QuadBandit :=
  if bool_decide (variant ∈ candidates b) then b else mkBandit (pulls b) (rewards b) (total b) (candidates b ++ [variant]).

Definition variant_hash (p : Policy) (s : SwarmConfig) (faults : list SimFault) : Z :=
  from_le_bytes (take 8 (blake3 (canonical_variant_bytes p s faults))).

Definition arm_score (b : QuadBandit) (exploration : spec_float) (variant : Z) : spec_float :=
  match default 0%nat (pulls b !! variant) with
  | O => f64_infinity
  | n =>
      let average := f64_div (default f64_zero (rewards b !! variant)) (f64_of (Z.of_nat n)) in
      f64_add average (f64_mul exploration (f64_sqrt (f64_div (ln (f64_of (Z.of_nat (total b)))) (f64_of (Z.of_nat n)))))
  end.

Definition arm (b : QuadBandit) (exploration : spec_float) : Z :=
  let step best variant :=
    let score := arm_score b exploration variant in
    match best with
    | None => Some (score, variant)
    | Some (best_score, best_variant) =>
        if SFltb best_score score || (SFeqb score best_score && (variant <? best_variant)%Z) then Some (score, variant) else best
    end in
  match foldl step None (candidates b) with Some (_, variant) => variant | None => 0 end.

Definition reward (b : QuadBandit) (variant : Z) (r : spec_float) : QuadBandit :=
  mkBandit (<[variant := S (default 0%nat (pulls b !! variant))]> (pulls b))
    (<[variant := f64_add (default f64_zero (rewards b !! variant)) r]> (rewards b)) (S (total b)) (candidates b).

Record QuadVariant : Type := mkQuadVariant { qv_policy : Policy; qv_swarm : SwarmConfig; qv_faults : list SimFault }.

Fixpoint swarm_samples (m : QuadMutation) (indices : list nat) : sres (list SwarmConfig) :=
  match indices with
  | [] => Some (Ok [])
  | i :: indices =>
      let! s := draw_swarm (cfg_seed base) (label "bandit-swarm/" i) (swarm_budget m) SWARM_CRASH_CEILING in
      let! ss := swarm_samples m indices in
      Some (Ok (s :: ss))
  end.
Fixpoint fault_samples (m : QuadMutation) (indices : list nat) : option (list (list SimFault)) :=
  match indices with
  | [] => Some []
  | i :: indices =>
      match draw_fault_subset (fault_library m) (max_faults_per_run m) (seed_rng (cfg_seed base) (label "bandit-faults/" i)) with
      | None => None
      | Some (fs, _) => option_map (cons fs) (fault_samples m indices)
      end
  end.

Definition enumerate_variants (m : QuadMutation) : sres (list QuadVariant) :=
  let ps := match policies m with [] => [cfg_policy base] | ps => ps end in
  let! ss := if use_swarm m then swarm_samples m (seq 0 BANDIT_SWARM_SAMPLES) else Some (Ok [cfg_swarm base]) in
  match (match fault_library m with [] => Some [[]] | _ => fault_samples m (seq 0 BANDIT_FAULT_SAMPLES) end) with
  | None => None
  | Some fss => Some (Ok (flat_map (fun p => flat_map (fun s => map (mkQuadVariant p s) fss) ss) ps))
  end.

Definition qv_hash (v : QuadVariant) : Z := variant_hash (qv_policy v) (qv_swarm v) (qv_faults v).
Definition register_all (vs : list QuadVariant) : QuadBandit * gmap Z QuadVariant :=
  foldl (fun '(b, m) v => (register b (qv_hash v), <[qv_hash v := v]> m)) (bandit_new, ∅) vs.

Definition bandit_config (v : QuadVariant) (attempt : nat) : RunConfig :=
  cfg_with_faults (cfg_with_swarm (cfg_with_policy (attempt_config base attempt) (qv_policy v)) (qv_swarm v)) (qv_faults v).

Fixpoint bandit_loop (m : QuadMutation) (variant_of : gmap Z QuadVariant) (exploration : spec_float) (attempts attempt : nat) (b : QuadBandit)
    (q : QuadState) : sres QuadState :=
  match attempts with
  | O => Some (Ok q)
  | S attempts =>
      let a := arm b exploration in
      match variant_of !! a with
      | None => Some (Err (UnknownArm a))
      | Some v =>
          let! '(ps, lab, input_hash) := Some (attempt_inputs m "bandit-input/" attempt) in
          let config := bandit_config v attempt in
          let! '(found, q) := memo_attempt (judge oracle) config ps input_hash (describe config attempt lab) q in
          bandit_loop m variant_of exploration attempts (S attempt) (reward b a (if found : bool then f64_one else f64_zero)) q
      end
  end.
Definition run_bandit_campaign (m : QuadMutation) (exploration : spec_float) (attempts : nat) : sres CampaignReport :=
  let! vs := enumerate_variants m in
  let '(b, variant_of) := register_all vs in
  let! q := bandit_loop m variant_of exploration attempts 0 b (mkQuad ∅ [] [] ∅) in
  Some (Ok (mkCampaign attempts (size (q_roots q)) (q_findings q) (q_variants q) [] 0)).
End Search.

(** *** Replay *)

(** The builder with a seed, the replay policy, a schedule and a budget of 256 steps beyond the decisions. *)
Definition replay_config (seed : EntryHash) (decisions : list nat) (schedule : list SimFault) : RunConfig :=
  mkConfig seed Replay (Z.min (Z.of_nat (length decisions) + 256) u64_max) [] swarm_default [] ∅ schedule None true false None None.

Definition replay_strict (w : Workload) (seed : EntryHash) (decisions : list nat) : rres RunReport :=
  run_strict (replay_config seed decisions []) (programs w) decisions.
Definition replay (w : Workload) (seed : EntryHash) (decisions : list nat) : rres RunReport := replay_strict w seed decisions.
Definition replay_prefix (w : Workload) (seed : EntryHash) (decisions : list nat) : rres RunReport :=
  run_replay (replay_config seed decisions []) (programs w) decisions.

Record FaultReplayReport : Type := mkFaultReport { fr_run : RunReport; fr_applied : list SimFault; fr_voided : list SimFault; fr_prefix_ok : bool }.

Definition journaled_crash_operations (r : RunReport) : list CrashOperation :=
  omap (fun e => match payload (edata e) with PFault (CrashActor _ op) => Some op | _ => None end) (entries (rr_journal r)).

Definition write_path_of (r : RunReport) (write_id : EntryHash) : option (list byte) :=
  head (omap (fun e => if bool_decide (eid e = write_id)
                       then match payload (edata e) with PFsWrite (FsWriteAt p _ _) => Some (Flow.from_utf8_lossy (canonical_path p)) | _ => None end
                       else None) (entries (rr_journal r))).

(** The schedule split into the first injection of each applied event and the rest. *)
Fixpoint split_applied (applied_set seen : gset (list byte)) (schedule : list SimFault) : list SimFault * list SimFault :=
  match schedule with
  | [] => ([], [])
  | f :: schedule =>
      match fault_target f with
      | Some id =>
          if bool_decide (id ∈ applied_set) && negb (bool_decide (id ∈ seen))
          then let '(a, v) := split_applied applied_set ({[id]} ∪ seen) schedule in (f :: a, v)
          else let '(a, v) := split_applied applied_set seen schedule in (a, f :: v)
      | None => let '(a, v) := split_applied applied_set seen schedule in (a, f :: v)
      end
  end.

(** The position of the earliest applied fault in the base run. *)
Definition first_fault_position (applied base_ids : list EntryHash) : nat :=
  match omap (fun id => list_find (fun b => b = id) base_ids) applied with
  | [] => length base_ids
  | p :: ps => foldl Nat.min p.1 (map fst ps)
  end.
Definition prefix_matches (n : nat) (base_ids replay_ids : list EntryHash) : bool :=
  (n <=? length base_ids)%nat && (n <=? length replay_ids)%nat && forallb (fun '(b, r) => bool_decide (b = r)) (take n (zip base_ids replay_ids)).

(** Every applied crash fault has its operation journaled. *)
Fixpoint check_crashes (r : RunReport) (journaled : list CrashOperation) (applied : list SimFault) : result FaultReplayError unit :=
  match applied with
  | [] => Ok tt
  | f :: applied =>
      match (write ← fault_target f; path ← write_path_of r write; crash_operation_for blake3 f path) with
      | None => check_crashes r journaled applied
      | Some (Err _) => Err (CrashSemanticsMismatch (mkMismatch f DropAllUnsynced None))
      | Some (Ok requested) =>
          if bool_decide (requested ∈ journaled) then check_crashes r journaled applied
          else Err (CrashSemanticsMismatch (mkMismatch f requested None))
      end
  end.

Definition replay_with_faults (w : Workload) (base : JournalState) (seed : EntryHash) (decisions : list nat) (schedule : list SimFault) :
    option (result FaultReplayError FaultReplayReport) :=
  let! run := omap_err (fun e => match e with RtStrictReplay v => FrStrictReplay v | e => FrRuntime e end)
    (run_strict (replay_config seed decisions schedule) (programs w) decisions) in
  let '(applied, voided) := split_applied (list_to_set (rr_applied_faults run)) ∅ schedule in
  let base_ids := map eid (entries base) in
  let replay_ids := map eid (entries (rr_journal run)) in
  let prefix_ok := prefix_matches (first_fault_position (rr_applied_faults run) base_ids) base_ids replay_ids in
  let! _ := Some (check_crashes run (journaled_crash_operations run) applied) in
  Some (Ok (mkFaultReport run applied voided prefix_ok)).
End Campaign.
