(* ===== verification/CampaignAxes.v ===== *)
(** * Campaigns: faults, memo and draws

    - A replay with faults accounts for every fault of its schedule, and applies exactly those the executor uses.
    - Escalation ends, and rebuilt schedules hold one fault for each target left.
    - The memo's keys separate the attempts of a campaign, and the bandit only picks arms it has.
    - Draws stay within their bounds. *)

From stdpp Require Import gmap pretty.
From Stdlib Require Import SpecFloat.
From S2P Require Import Prelude Machine Floats Cbor CborProofs Limits Value Path Hex Frame Entry OrdMap Order Clock Dag.
From S2P Require Import Causal Monitor KeyMap VirtualTime Net Scheduler SimFs Backend OSet Verdict Hitting Ldfi Oracle OnlineMonitor Config Executor Flow.
From S2P Require Import ConfigProofs ExecutorProofs ExecutorTasks ExecutorRuns Campaign CampaignProofs.

Open Scope Z_scope.

(** ** Applied and voided faults *)

Lemma ex_iff {A} (P Q : A -> Prop) : (forall x, P x <-> Q x) -> (exists x, P x) <-> exists x, Q x.
Proof. intros H. split; intros (x & Hx); exists x; apply H, Hx. Qed.

Lemma or_iff_compat (A B C D : Prop) : (A <-> C) -> (B <-> D) -> A \/ B <-> C \/ D.
Proof. tauto. Qed.

Lemma injection_cons f s id : schedule_injection_for (f :: s) id = if bool_decide (fault_target f = Some id) then Some f else schedule_injection_for s id.
Proof. reflexivity. Qed.

Lemma split_applied_perm A s : forall seen, let '(a, v) := split_applied A seen s in a ++ v ≡ₚ s.
Proof.
  induction s as [|f s IH]; intros seen; cbn [split_applied]; [done|]. destruct (fault_target f) as [id|].
  - destruct (_ && _); [specialize (IH ({[id]} ∪ seen)) | specialize (IH seen)]; destruct (split_applied _ _ s) as [a v]; cbn [app].
    + rewrite IH. done.
    + rewrite <- Permutation_middle, IH. done.
  - specialize (IH seen). destruct (split_applied _ _ s) as [a v]. rewrite <- Permutation_middle, IH. done.
Qed.

Lemma split_applied_In A s : forall seen f, In f (split_applied A seen s).1 <->
  exists id, id ∈ A /\ id ∉ seen /\ schedule_injection_for s id = Some f.
Proof.
  induction s as [|g s IH]; intros seen f; cbn [split_applied]; [split; [done | intros (id & _ & _ & [=])]|].
  destruct (fault_target g) as [id|] eqn:Et.
  - destruct (bool_decide_reflect (id ∈ A)) as [HA|HA]; [destruct (bool_decide_reflect (id ∈ seen)) as [Hs|Hs]|]; cbn [andb negb].
    + pose proof (IH seen f) as H. destruct (split_applied A seen s) as [a v]. cbn [fst] in *. rewrite H. apply ex_iff.
      intros id'. rewrite injection_cons, Et. case_bool_decide as E; [|done]. injection E as ->. split; [intros (_ & H1 & _); done | intros (_ & H1 & _); done].
    + pose proof (IH ({[id]} ∪ seen) f) as H. destruct (split_applied A _ s) as [a v]. cbn [fst] in *. cbn [In]. rewrite H. split.
      * intros [->|(id' & H1 & H2 & H3)]; [exists id; rewrite injection_cons, Et, bool_decide_true by done; done|].
        exists id'. rewrite injection_cons, Et, bool_decide_false by set_solver. set_solver.
      * intros (id' & H1 & H2 & H3). rewrite injection_cons, Et in H3. case_bool_decide as E; [left; congruence|]. right. exists id'. set_solver.
    + pose proof (IH seen f) as H. destruct (split_applied A seen s) as [a v]. cbn [fst] in *. rewrite H. apply ex_iff.
      intros id'. rewrite injection_cons, Et. case_bool_decide as E; [|done]. injection E as ->. split; [intros (H1 & _); done | intros (H1 & _); done].
  - pose proof (IH seen f) as H. destruct (split_applied A seen s) as [a v]. cbn [fst] in *. rewrite H. apply ex_iff.
    intros id'. rewrite injection_cons, Et, bool_decide_false by done. done.
Qed.

Lemma injection_target s id f : schedule_injection_for s id = Some f -> fault_target f = Some id.
Proof. intros H. apply List.find_some in H as [_ H]. apply bool_decide_eq_true in H. exact H. Qed.

Lemma split_applied_NoDup A s : forall seen, NoDup (map fault_target (split_applied A seen s).1).
Proof.
  induction s as [|f s IH]; intros seen; cbn [split_applied]; [constructor|]. destruct (fault_target f) as [id|] eqn:Et.
  - destruct (_ && _).
    + specialize (IH ({[id]} ∪ seen)). pose proof (split_applied_In A s ({[id]} ∪ seen)) as Hin. destruct (split_applied A _ s) as [a v]. cbn [fst map] in *.
      constructor; [|exact IH]. rewrite Et. intros H. apply list_elem_of_fmap in H as (g & Hg & Hga). apply list_elem_of_In, Hin in Hga as (id' & _ & Hn & Hi).
      apply injection_target in Hi. rewrite Hi in Hg. injection Hg as <-. set_solver.
    + specialize (IH seen). destruct (split_applied A seen s) as [a v]. exact IH.
  - specialize (IH seen). destruct (split_applied A seen s) as [a v]. exact IH.
Qed.

(** The earliest position of an applied event. *)
Lemma foldl_min (l : list nat) : forall p, (foldl Nat.min p l = p \/ In (foldl Nat.min p l) l) /\ (foldl Nat.min p l <= p)%nat /\ forall q, In q l -> (foldl Nat.min p l <= q)%nat.
Proof.
  induction l as [|q l IH]; intros p; cbn [foldl]; [split_and!; [auto | lia | done]|].
  destruct (IH (Nat.min p q)) as (H1 & H2 & H3). split_and!.
  - destruct H1 as [->|H1]; [destruct (Nat.min_spec p q) as [[_ ->]|[_ ->]]; [left; done | right; left; done] | right; right; exact H1].
  - lia.
  - intros q' [<-|Hq]; [lia | apply H3, Hq].
Qed.

Lemma first_fault_spec applied ids : let n := first_fault_position applied ids in
  (forall i x, ids !! i = Some x -> (i < n)%nat -> x ∉ applied) /\ (n = length ids \/ exists x, ids !! n = Some x /\ x ∈ applied).
Proof.
  cbv zeta. unfold first_fault_position. set (ps := omap _ applied).
  assert (Hps : forall p, In p ps -> ids !! p.1 = Some p.2 /\ p.2 ∈ applied).
  { intros [i x] Hp. apply list_elem_of_In, list_elem_of_omap in Hp as (id & Hid & Hp). apply list_find_Some in Hp as (H1 & -> & _). done. }
  assert (Hcover : forall i x, ids !! i = Some x -> x ∈ applied -> exists p, In p ps /\ (p.1 <= i)%nat).
  { intros i x Hi Hx. destruct (list_find (fun b => b = x) ids) as [[k y]|] eqn:E.
    - exists (k, y). split; [apply list_elem_of_In, list_elem_of_omap; eauto|]. apply list_find_Some in E as (_ & _ & Hmin). cbn.
      destruct (decide (k <= i)%nat); [done|]. exfalso. apply (Hmin i x Hi); [lia | done].
    - exfalso. apply list_find_None in E. rewrite Forall_forall in E. apply (E x); [apply list_elem_of_In, list_elem_of_lookup; eauto | done]. }
  destruct ps as [|p ps].
  - split; [|left; done]. intros i x Hi _ Hx. destruct (Hcover i x Hi Hx) as (q & [] & _).
  - destruct (foldl_min (map fst ps) p.1) as (H1 & H2 & H3). split.
    + intros i x Hi Hlt Hx. destruct (Hcover i x Hi Hx) as (q & [<-|Hq] & Hle); [lia|]. pose proof (H3 q.1 (in_map fst ps q Hq)). lia.
    + right. destruct H1 as [->|H1]; [exists p.2; apply Hps; left; done|]. apply in_map_iff in H1 as (q & <- & Hq). exists q.2. apply Hps. right. exact Hq.
Qed.

Lemma first_fault_le applied ids : (first_fault_position applied ids <= length ids)%nat.
Proof. destruct (first_fault_spec applied ids) as [_ [->|(x & H & _)]]; [lia | apply lookup_lt_Some in H; lia]. Qed.

Lemma prefix_matches_iff n (b r : list EntryHash) : (n <= length b)%nat -> prefix_matches n b r = true <-> take n b = take n r.
Proof.
  intros Hn. unfold prefix_matches. rewrite !andb_true_iff, !Nat.leb_le. revert b r Hn. induction n as [|n IH]; intros [|x b] [|y r] Hn; cbn [length] in *; try lia.
  - cbn. split; [done | intros _; split_and!; lia || done].
  - cbn. split; [done | intros _; split_and!; lia || done].
  - cbn. split; [done | intros _; split_and!; lia || done].
  - cbn. split; [done | intros _; split_and!; lia || done].
  - cbn. split; [intros [[_ H] _]; lia | done].
  - cbn [zip zip_with take forallb]. rewrite andb_true_iff, bool_decide_eq_true. specialize (IH b r ltac:(lia)). split.
    + intros ([H1 H2] & -> & H3). f_equal. apply IH. split_and!; [lia | lia | exact H3].
    + intros [= -> H]. apply IH in H as [[H1 H2] H3]. split_and!; [lia | lia | done | exact H3].
Qed.

(** A replay with faults accounts for all of its schedule: what it calls applied are exactly the faults the executor looks up for the
    events it applied, one for each event; the rest is voided; and the prefix is sound exactly when the replay made the entries
    of the base run up to the first event that was hit by a fault. *)
Theorem fault_replay_exact blake3 keyed ln journaling base_unique iter fuel w base seed decisions schedule rep :
  replay_with_faults blake3 keyed ln journaling base_unique iter fuel w base seed decisions schedule = Some (Ok rep) ->
  let applied := rr_applied_faults (fr_run rep) in
  let n := first_fault_position applied (map eid (entries base)) in
  run_strict blake3 keyed ln journaling base_unique iter fuel (replay_config seed decisions schedule) (programs w) decisions = Some (Ok (fr_run rep))
  /\ fr_applied rep ++ fr_voided rep ≡ₚ schedule
  /\ (forall f, In f (fr_applied rep) <-> exists id, In id applied /\ schedule_injection_for schedule id = Some f)
  /\ NoDup (map fault_target (fr_applied rep))
  /\ (fr_prefix_ok rep = true <-> take n (map eid (entries base)) = take n (map eid (entries (rr_journal (fr_run rep)))))
  /\ (forall i x, map eid (entries base) !! i = Some x -> (i < n)%nat -> x ∉ applied).
Proof.
  unfold replay_with_faults. intros H. destruct (run_strict _ _ _ _ _ _ _ _ _ _) as [[run|e]|]; cbn [omap_err option_map map_err obind] in H; [|done..].
  pose proof (split_applied_perm (list_to_set (rr_applied_faults run)) schedule ∅) as Hp. pose proof (split_applied_In (list_to_set (rr_applied_faults run)) schedule ∅) as Hi.
  pose proof (split_applied_NoDup (list_to_set (rr_applied_faults run)) schedule ∅) as Hd.
  destruct (split_applied _ ∅ schedule) as [a v]. destruct (check_crashes _ _ _ _) as [u|e]; cbn [obind] in H; [|done]. injection H as <-.
  cbv zeta. cbn [fr_run fr_applied fr_voided fr_prefix_ok fst] in *. split_and!; [done | exact Hp | | exact Hd | apply prefix_matches_iff, first_fault_le | apply first_fault_spec].
  intros f. rewrite Hi. apply ex_iff. intros id. rewrite elem_of_list_to_set, list_elem_of_In. set_solver.
Qed.

(** ** Escalation *)

(** The rungs above a fault: [None] once [n] steps do not reach the top. *)
Fixpoint climb (n : nat) (f : SimFault) : option SimFault :=
  match n with
  | O => None
  | S n => match escalate f with None => Some f | Some g => climb n g end
  end.

Lemma climb_step f n : (exists top, climb (S n) f = Some top) <-> escalate f = None \/ exists g, escalate f = Some g /\ exists top, climb n g = Some top.
Proof.
  cbn [climb]. destruct (escalate f) as [g|].
  - split; [intros H; right; exists g; done | intros [[=]|(g' & [= <-] & H)]; exact H].
  - split; [left; done | eauto].
Qed.

(** The [k] low bits of a mask are ones. *)
Definition low_ones (k : nat) (m : Z) : Prop := m mod 2 ^ Z.of_nat k = 2 ^ Z.of_nat k - 1.

Lemma ones_low (j n : nat) : (j <= n)%nat -> low_ones j (2 ^ Z.of_nat n - 1).
Proof.
  intros H. unfold low_ones. replace (2 ^ Z.of_nat n) with (2 ^ Z.of_nat (n - j) * 2 ^ Z.of_nat j) by (rewrite <- Z.pow_add_r by lia; f_equal; lia).
  assert (0 < 2 ^ Z.of_nat j) by (apply Z.pow_pos_nonneg; lia). symmetry. apply (Z.mod_unique _ _ (2 ^ Z.of_nat (n - j) - 1)); lia.
Qed.

Lemma low_ones_bound (k n : nat) m : 0 <= m < 2 ^ Z.of_nat n -> low_ones k m -> (k <= n)%nat.
Proof.
  intros [H0 Hm] H. unfold low_ones in H. destruct (decide (k <= n)%nat) as [|Hn]; [done|]. exfalso.
  assert (2 ^ Z.of_nat n * 2 <= 2 ^ Z.of_nat k).
  { rewrite <- (Z.pow_1_r 2) at 2. rewrite <- Z.pow_add_r by lia. apply Z.pow_le_mono_r; lia. }
  rewrite Z.mod_small in H by lia. assert (0 < 2 ^ Z.of_nat n) by (apply Z.pow_pos_nonneg; lia). lia.
Qed.

Lemma low_ones_shift (k : nat) m : (k < 64)%nat -> low_ones k m -> low_ones (S k) (wrap64 (wrap64 (m * 2) + 1)).
Proof.
  intros Hk H. unfold low_ones, wrap64 in *. rewrite Z.add_mod_idemp_l by done. assert (Hp : 0 < 2 ^ Z.of_nat k) by (apply Z.pow_pos_nonneg; lia).
  replace (Z.of_nat (S k)) with (Z.of_nat k + 1) by lia. rewrite Z.pow_add_r, Z.pow_1_r by lia.
  assert (Hd : (2 ^ Z.of_nat k * 2 | 2 ^ 64)).
  { exists (2 ^ (63 - Z.of_nat k)). replace (2 ^ 64) with (2 ^ (63 - Z.of_nat k + (Z.of_nat k + 1))) by (f_equal; lia). rewrite !Z.pow_add_r by lia. lia. }
  rewrite Z.mod_mod_divide by exact Hd. pose proof (Z.div_mod m (2 ^ Z.of_nat k) ltac:(lia)) as Hdm. rewrite H in Hdm.
  symmetry. apply (Z.mod_unique _ _ (m `div` 2 ^ Z.of_nat k)); lia.
Qed.

(** One step on the ladder of masks. *)
Lemma mask_step (k : nat) w m g : 0 <= m <= u64_max -> low_ones k m -> escalate (Corrupt w m) = Some g ->
  exists m', g = Corrupt w m' /\ 0 <= m' <= u64_max /\ (k < 64)%nat /\ low_ones (S k) m'.
Proof.
  intros Hm Hk H. assert (Hk64 : (k < 64)%nat).
  { pose proof (low_ones_bound k 64 m ltac:(unfold u64_max in Hm; lia) Hk). destruct (decide (k = 64)%nat) as [->|]; [|lia]. exfalso.
    unfold low_ones in Hk. rewrite Z.mod_small in Hk by (unfold u64_max in Hm; lia). rewrite Hk in H. discriminate H. }
  unfold escalate in H. cbv zeta in H.
  assert (Hjump : forall n n', m < 2 ^ Z.of_nat n -> (n < n')%nat -> (n' <= 64)%nat -> low_ones (S k) (2 ^ Z.of_nat n' - 1)).
  { intros n n' Hn Hnn _. apply ones_low. pose proof (low_ones_bound k n m ltac:(lia) Hk). lia. }
  repeat match type of H with context [(m =? ?c)%Z] => destruct (Z.eqb_spec m c) as [E|]; [subst m; cbn in H; injection H as <-; eexists; split_and!;
    [reflexivity | unfold u64_max; lia | unfold u64_max; lia | exact Hk64 |] |] end.
  - apply (Hjump 1%nat 8%nat); lia.
  - apply (Hjump 8%nat 16%nat); lia.
  - apply (Hjump 16%nat 32%nat); lia.
  - apply (Hjump 32%nat 64%nat); lia.
  - destruct (_ =? m)%Z; [discriminate H|]. injection H as <-. exists (wrap64 (wrap64 (m * 2) + 1)). split_and!; [done | | | exact Hk64 | apply low_ones_shift; done];
      unfold wrap64, u64_max; pose proof (Z.mod_pos_bound ((m * 2) mod 2 ^ 64 + 1) (2 ^ 64) ltac:(lia)); lia.
Qed.

Lemma climb_mask w n : forall (k : nat) m, 0 <= m <= u64_max -> low_ones k m -> (64 <= k + n)%nat -> exists top, climb (S n) (Corrupt w m) = Some top.
Proof.
  induction n as [|n IH]; intros k m Hm Hk Hn; apply climb_step; (destruct (escalate (Corrupt w m)) as [g|] eqn:E; [|left; done]);
    destruct (mask_step k w m g Hm Hk E) as (m' & -> & Hm' & Hk64 & Hk'); [lia|].
  right. eexists. split; [done|]. apply (IH (S k)); [done | done | lia].
Qed.

Lemma escalate_target f g : escalate f = Some g -> fault_target g = fault_target f.
Proof. destruct f; cbn; try discriminate; repeat case_match; intros [= <-]; done. Qed.

Lemma climb_top n : forall f top, climb n f = Some top -> escalate top = None /\ fault_target top = fault_target f.
Proof.
  induction n as [|n IH]; intros f top H; cbn [climb] in H; [done|]. destruct (escalate f) as [g|] eqn:E; [|injection H as <-; done].
  apply IH in H as [H1 H2]. split; [done|]. rewrite H2. apply escalate_target, E.
Qed.

Lemma climb_mono n k f top : climb n f = Some top -> climb (n + k) f = Some top.
Proof. revert f. induction n as [|n IH]; intros f H; [done|]. cbn [climb Nat.add] in *. destruct (escalate f); [apply IH, H | exact H]. Qed.

(** The integer fields of a fault are [u64]. *)
Definition fault_range (f : SimFault) : Prop :=
  match f with Delay _ v | Corrupt _ v | CrashState _ v => is_u64 v | _ => True end.

Lemma climb_small send : Forall (fun t => exists top, climb 8 (Delay send t) = Some top) (seqZ 0 33).
Proof. repeat (constructor; [eexists; reflexivity|]). constructor. Qed.

(** Escalation ends: from any fault at most 65 escalations lead to one that cannot be escalated, and it hits the event of the
    first. *)
Theorem escalation_ends f : fault_range f -> exists top, climb 66 f = Some top /\ escalate top = None /\ fault_target top = fault_target f.
Proof.
  intros Hf. enough (exists n top, (n <= 66)%nat /\ climb n f = Some top) as (n & top & Hn & H).
  { exists top. replace 66%nat with (n + (66 - n))%nat by lia. rewrite (climb_mono _ _ _ _ H). split; [done|]. apply (climb_top n), H. }
  destruct f as [id|id t|a b|id|id m|id s|id]; try (exists 2%nat; eexists; split; [lia | reflexivity]).
  - destruct (decide (t <= 32)) as [Ht|Ht].
    + pose proof (climb_small id) as H. rewrite Forall_forall in H. destruct (H t) as (top & Htop); [apply list_elem_of_In, elem_of_seqZ; unfold fault_range, is_u64 in Hf; lia|].
      exists 8%nat, top. split; [lia | exact Htop].
    + exists 2%nat. eexists. split; [lia|]. unfold fault_range, is_u64 in Hf. cbn [climb escalate]. cbv zeta.
      replace (Z.min (Z.max (Z.min (t * 2) u64_max) 1) 32) with 32 by (unfold u64_max in *; lia). destruct (Z.eqb_spec 32 t); [lia|]. reflexivity.
  - destruct (climb_mask id 64 0 m) as (top & H); [exact Hf | unfold low_ones; rewrite Z.mod_1_r; done | lia|]. exists 65%nat, top. split; [lia | exact H].
  - destruct (decide (s <= 2)) as [Hs|Hs].
    + unfold fault_range, is_u64 in Hf. assert (s = 0 \/ s = 1 \/ s = 2) as [->|[->| ->]] by lia; exists 4%nat; eexists; (split; [lia | reflexivity]).
    + exists 2%nat. eexists. split; [lia|]. unfold fault_range, is_u64 in Hf. cbn [climb escalate]. cbv zeta.
      replace (Z.min (Z.min (s + 1) u64_max) 2) with 2 by (unfold u64_max in *; lia). destruct (Z.eqb_spec 2 s); [lia|]. reflexivity.
Qed.

(** ** Rebuilt schedules *)

Lemma key_total {A B} (key : A -> B) cmp : TotalOrder cmp -> (forall x y, key x = key y -> x = y) -> TotalOrder (fun x y => cmp (key x) (key y)).
Proof.
  intros HT Hk. split; [intros x y; apply (cmp_opp (cmp := cmp)) | intros x y H; apply Hk, (cmp_eq (cmp := cmp)), H|].
  intros x y z. apply (cmp_trans (cmp := cmp)).
Qed.

#[export] Instance cmp_fault_total : TotalOrder cmp_fault.
Proof. unfold cmp_fault. apply (key_total (fun f => (fault_rank f, fault_fields f))); [apply _|]. intros [] []; cbn; congruence. Qed.

Section Rebuild.
Variable escalated : gmap (list byte) SimFault.

(** What the loop keeps for a target. *)
Definition kept (s : list SimFault) (h : list byte) : option SimFault :=
  match schedule_injection_for s h with Some g => Some (default g (escalated !! h)) | None => None end.

Lemma kept_cons f s h : kept (f :: s) h = if bool_decide (fault_target f = Some h) then Some (default f (escalated !! h)) else kept s h.
Proof. unfold kept. rewrite injection_cons. destruct (bool_decide _); reflexivity. Qed.

Lemma rebuild_loop_In f s : forall seen, In f (rebuild_loop escalated seen s) <->
  (fault_target f = None /\ In f s) \/ exists h, h ∉ seen /\ kept s h = Some f.
Proof.
  induction s as [|g s IH]; intros seen; [cbn; split; [done | intros [[_ []]|(h & _ & [=])]]|].
  cbn [rebuild_loop]. destruct (fault_target g) as [h|] eqn:Et.
  - assert (Hskip : h ∈ seen -> (fault_target f = None /\ In f (g :: s)) \/ (exists h', h' ∉ seen /\ kept (g :: s) h' = Some f) <->
      (fault_target f = None /\ In f s) \/ exists h', h' ∉ seen /\ kept s h' = Some f).
    { intros Hs. apply or_iff_compat; [split; [intros [? [<-|?]]; [congruence | done] | intros [? ?]; split; [done | right; done]]|].
      apply ex_iff. intros h'. rewrite kept_cons, Et. case_bool_decide as E; [|done]. injection E as <-. split; intros [? _]; done. }
    assert (Hkeep : forall e, default g (escalated !! h) = e -> h ∉ seen ->
      In f (e :: rebuild_loop escalated ({[h]} ∪ seen) s) <-> (fault_target f = None /\ In f (g :: s)) \/ exists h', h' ∉ seen /\ kept (g :: s) h' = Some f).
    { intros e He Hn. cbn [In]. rewrite IH. split.
      - intros [<-|[[H1 H2]|(h' & H1 & H2)]]; [right; exists h; rewrite kept_cons, Et, bool_decide_true by done; split; [done | f_equal; exact He] | left; auto|].
        right. exists h'. rewrite kept_cons, Et, bool_decide_false by set_solver. set_solver.
      - intros [[H1 [<-|H2]]|(h' & H1 & H2)]; [congruence | right; left; done|]. rewrite kept_cons, Et in H2. case_bool_decide as E.
        + injection E as <-. left. injection H2 as H2. rewrite <- H2. symmetry. exact He.
        + right. right. exists h'. set_solver. }
    destruct (escalated !! h) as [e|]; case_bool_decide as Hs; first [rewrite IH; symmetry; apply Hskip, Hs | apply Hkeep; done].
  - cbn [In]. rewrite IH. split.
    + intros [<-|[[H1 H2]|(h' & H1 & H2)]]; [left; auto | left; auto|]. right. exists h'. rewrite kept_cons, Et, bool_decide_false by done. done.
    + intros [[H1 [<-|H2]]|(h' & H1 & H2)]; [left; done | right; left; done|]. rewrite kept_cons, Et, bool_decide_false in H2 by done. right. right. eauto.
Qed.

(** The escalations whose target is not yet in the schedule. *)
Lemma escalate_missing_In (suppressed : gset (list byte)) (l : list (list byte * SimFault)) f : forall rebuilt, NoDup (map fst l) -> (forall h g, In (h, g) l -> fault_target g = Some h) ->
  In f (foldl (fun rebuilt '(hash, esc) =>
      let present := existsb (fun f => bool_decide (fault_target f = Some hash)) rebuilt in
      if negb present && negb (bool_decide (hash ∈ suppressed)) then rebuilt ++ [esc] else rebuilt) rebuilt l) <->
  In f rebuilt \/ exists h, In (h, f) l /\ h ∉ suppressed /\ forall g, In g rebuilt -> fault_target g <> Some h.
Proof.
  induction l as [|[h e] l IH]; intros rebuilt Hnd Ht; cbn [foldl]; [split; [auto | intros [?|(h & [] & _)]; done]|].
  cbn [map fst] in Hnd. inversion_clear Hnd as [|? ? Hh Hnd']. assert (He : fault_target e = Some h) by (apply Ht; left; done).
  assert (Hnl : forall h' g, In (h', g) l -> h' <> h) by (intros h' g Hg ->; apply Hh, list_elem_of_In, (in_map fst l (h, g) Hg)).
  rewrite IH by (try exact Hnd'; intros h' g Hg; apply Ht; right; exact Hg). cbv zeta.
  set (present := existsb _ rebuilt). assert (Hp : present = true <-> exists g, In g rebuilt /\ fault_target g = Some h).
  { unfold present. rewrite existsb_exists. apply ex_iff. intros g. rewrite bool_decide_eq_true. done. }
  destruct present; cbn [negb andb].
  - destruct (proj1 Hp eq_refl) as (g & Hg & Hgt). apply or_iff_compat; [done|]. apply ex_iff. intros h'. split.
    + intros (H1 & H2 & H3). split_and!; [right; done | done | done].
    + intros ([[= <- <-]|H1] & H2 & H3); [exfalso; exact (H3 g Hg Hgt) | done].
  - assert (Hno : forall g, In g rebuilt -> fault_target g <> Some h) by (intros g Hg Hgt; assert (false = true) by (apply Hp; eauto); done).
    case_bool_decide as Hsup; cbn [negb].
    + apply or_iff_compat; [done|]. apply ex_iff. intros h'. split.
      * intros (H1 & H2 & H3). split_and!; [right; done | done | done].
      * intros ([[= <- <-]|H1] & H2 & H3); done.
    + rewrite in_app_iff. cbn [In]. split.
      * intros [[H|[<-|[]]]|(h' & H1 & H2 & H3)]; [left; done | right; exists h; auto|]. right. exists h'. split_and!; [right; done | done|].
        intros g Hg. apply H3. apply in_or_app. left. exact Hg.
      * intros [H|(h' & [[= <- <-]|H1] & H2 & H3)]; [left; left; done | left; right; left; done|]. right. exists h'. split_and!; [done | done|].
        intros g [Hg|[<-|[]]]%in_app_or; [apply H3, Hg|]. rewrite He. intros [= <-]. exact (Hnl _ _ H1 eq_refl).
Qed.

Lemma injection_filter (suppressed : gset (list byte)) (voided s : list SimFault) (h : list byte) : h ∉ suppressed ->
  schedule_injection_for (List.filter (fun f => match fault_target f with
                                    | Some hash => negb (bool_decide (hash ∈ suppressed))
                                    | None => negb (bool_decide (f ∈ voided))
                                    end) s) h = schedule_injection_for s h.
Proof.
  intros Hh. induction s as [|f s IH]; [done|]. cbn [List.filter]. rewrite injection_cons. destruct (bool_decide_reflect (fault_target f = Some h)) as [E|E].
  - rewrite E, (bool_decide_false (h ∈ suppressed)), (bool_decide_true (Some h = Some h)) by done. cbn [negb]. rewrite injection_cons, bool_decide_true by exact E. reflexivity.
  - rewrite (bool_decide_false (fault_target f = Some h)) by exact E.
    destruct (match fault_target f with Some _ => _ | None => _ end); [rewrite injection_cons, bool_decide_false by exact E|]; exact IH.
Qed.

Lemma injection_Some_In s h g : schedule_injection_for s h = Some g -> In g s.
Proof. intros H. apply List.find_some in H as [H _]. exact H. Qed.
Lemma injection_ex s h g : In g s -> fault_target g = Some h -> exists g', schedule_injection_for s h = Some g'.
Proof.
  intros Hg Ht. destruct (schedule_injection_for s h) as [g'|] eqn:E; [eauto|]. exfalso. exact (injection_None s h E g (proj2 (list_elem_of_In _ _) Hg) Ht).
Qed.

(** The fault for a target: its escalation, or the first of the schedule. *)
Definition wanted (s : list SimFault) (h : list byte) : option SimFault :=
  match escalated !! h with Some e => Some e | None => schedule_injection_for s h end.

(** A rebuilt schedule is in canonical order without repetition, keeps every partition not voided, and holds for each target not
    suppressed exactly one fault: its escalation, or else the first fault the solver's schedule has for it. *)
Theorem rebuilt_schedule_exact base suppressed voided : (forall h f, escalated !! h = Some f -> fault_target f = Some h) ->
  let rebuilt := rebuild_schedule base suppressed voided escalated in
  oset cmp_fault rebuilt /\
  forall f, In f rebuilt <->
    match fault_target f with
    | None => In f base /\ f ∉ voided
    | Some h => h ∉ suppressed /\ wanted base h = Some f
    end.
Proof.
  intros He. cbv zeta. unfold rebuild_schedule. split; [apply sort_dedup_oset, _|]. intros f. rewrite dedup_In, sort_by_In.
  set (kb := List.filter _ base).
  rewrite escalate_missing_In.
  2:{ unfold escalated_entries. rewrite (Permutation_map fst (sort_by_perm _ (map_to_list escalated))). apply NoDup_fst_map_to_list. }
  2:{ intros h g Hg. unfold escalated_entries in Hg. rewrite sort_by_In in Hg. apply list_elem_of_In, elem_of_map_to_list in Hg. apply He, Hg. }
  assert (Hents : forall h, In (h, f) (escalated_entries escalated) <-> escalated !! h = Some f).
  { intros h. unfold escalated_entries. rewrite sort_by_In, <- list_elem_of_In, elem_of_map_to_list. done. }
  assert (Hkb : forall g, In g kb <-> In g base /\ match fault_target g with Some h => h ∉ suppressed | None => g ∉ voided end).
  { intros g. unfold kb. rewrite filter_In. destruct (fault_target g); rewrite negb_true_iff, bool_decide_eq_false; done. }
  assert (Hkept : forall h g, kept kb h = Some g -> fault_target g = Some h /\ h ∉ suppressed /\ wanted base h = Some g).
  { intros h g Hk. unfold kept in Hk. destruct (schedule_injection_for kb h) as [g'|] eqn:Eg; [|done].
    assert (Hgt : fault_target g' = Some h) by (apply injection_target in Eg; exact Eg).
    assert (Hns : h ∉ suppressed) by (apply injection_Some_In, Hkb in Eg as [_ Hg]; rewrite Hgt in Hg; exact Hg).
    unfold kb in Eg. rewrite injection_filter in Eg by exact Hns. unfold wanted.
    destruct (escalated !! h) as [e|] eqn:Ee; injection Hk as <-; split_and!; [apply He, Ee | done | done | exact Hgt | done | exact Eg]. }
  rewrite rebuild_loop_In. destruct (fault_target f) as [h|] eqn:Et.
  - split.
    + intros [[[[=] _]|(h' & _ & Hk)]|(h' & Hin & Hs & _)].
      * apply Hkept in Hk as (Ht & Hns & Hw). rewrite Et in Ht. injection Ht as <-. done.
      * apply Hents in Hin. pose proof (He _ _ Hin) as Ht. rewrite Et in Ht. injection Ht as <-. unfold wanted. rewrite Hin. done.
    + intros [Hns Hm]. unfold wanted in Hm. destruct (schedule_injection_for kb h) as [g|] eqn:Eg.
      * left. right. exists h. split; [set_solver|]. unfold kept. rewrite Eg. unfold kb in Eg. rewrite injection_filter in Eg by exact Hns.
        destruct (escalated !! (h : list byte)) as [e|]; [exact Hm | cbn; congruence].
      * right. exists h. unfold kb in Eg. rewrite injection_filter in Eg by exact Hns. destruct (escalated !! (h : list byte)) as [e|] eqn:Ee; [|congruence].
        injection Hm as ->. split_and!; [apply Hents, Ee | exact Hns|]. intros g Hg Hgt. apply rebuild_loop_In in Hg as [[Hg _]|(h' & _ & Hk)]; [congruence|].
        pose proof Hk as Hk'. apply Hkept in Hk as (Ht & _). rewrite Hgt in Ht. injection Ht as <-. unfold kept, kb in Hk'. rewrite injection_filter, Eg in Hk' by exact Hns. done.
  - split.
    + intros [[[_ Hf]|(h & _ & Hk)]|(h & Hin & _)].
      * apply Hkb in Hf as [Hf Hv]. rewrite Et in Hv. done.
      * exfalso. apply Hkept in Hk as (Ht & _). congruence.
      * exfalso. apply Hents, He in Hin. congruence.
    + intros [Hf Hv]. left. left. split; [done|]. apply Hkb. rewrite Et. done.
Qed.
End Rebuild.

(** ** Comparing journals *)

Lemma sort_by_agree {A} (cmp cmp' : A -> A -> comparison) l : (forall x y, In x l -> In y l -> cmp x y = cmp' x y) -> sort_by cmp l = sort_by cmp' l.
Proof.
  assert (Hins : forall x k, (forall y, In y k -> cmp x y = cmp' x y) -> insert_by cmp x k = insert_by cmp' x k).
  { intros x k. induction k as [|y k IH]; intros H; [done|]. cbn. rewrite (H y) by (left; done). destruct (cmp' x y); [done | done|]. f_equal. apply IH. intros z Hz. apply H. right. done. }
  induction l as [|x l IH]; intros H; [done|]. cbn. fold (sort_by cmp l). fold (sort_by cmp' l). rewrite IH by (intros y z Hy Hz; apply H; right; done).
  apply Hins. intros y Hy. rewrite sort_by_In in Hy. apply H; [left; done | right; done].
Qed.

(** An entry is determined by its actor and sequence number. *)
Lemma chain_unique blake3 log e f : log_ok blake3 log -> In e log -> In f log -> Entry.actor (edata e) = Entry.actor (edata f) ->
  Entry.sequence (edata e) = Entry.sequence (edata f) -> e = f.
Proof.
  intros Hl. revert e f. induction Hl as [|l x Hl IH Hx Hf]; intros e f He Hff Ha Hs; [done|].
  assert (Hlt : forall y, In y l -> Entry.actor (edata y) = Entry.actor (edata x) -> Entry.sequence (edata y) < Entry.sequence (edata x)).
  { intros y Hy Hya. pose proof (clock_self blake3 l y Hl Hy) as H1. pose proof (clock_le_count blake3 l y (Entry.actor (edata y)) Hl Hy) as H2.
    rewrite (ok_sequence _ _ _ Hx). rewrite <- Hya. lia. }
  apply in_app_or in He as [He|[<-|[]]]; apply in_app_or in Hff as [Hff|[<-|[]]]; [apply IH; done | | | done].
  - specialize (Hlt e He Ha). lia.
  - specialize (Hlt f Hff ltac:(congruence)). lia.
Qed.

Definition chain_key (e : JEntry) : Z * Z := (Entry.actor (edata e), Entry.sequence (edata e)).
Definition full_key (e : JEntry) : Z * Z * list byte := (chain_key e, eid e).
Definition cmp_full : Z * Z * list byte -> Z * Z * list byte -> comparison := cmp_pair (cmp_pair Z.compare Z.compare) cmp_hash.

Lemma vc_order_full blake3 st log : log_ok blake3 log -> entries st = log -> map full_key (entries_in_vc_order st) = sort_by cmp_full (map full_key log).
Proof.
  intros Hl He. unfold entries_in_vc_order. rewrite He. rewrite (sort_by_map full_key (fun a b => cmp_full (full_key a) (full_key b)) cmp_full) by done. f_equal.
  apply sort_by_agree. intros x y Hx Hy. unfold cmp_full, full_key, cmp_pair at 2. cbn [fst snd]. fold (chain_key x). fold (chain_key y).
  destruct (cmp_pair Z.compare Z.compare (chain_key x) (chain_key y)) eqn:E; [|done..]. apply (cmp_eq (cmp := cmp_pair Z.compare Z.compare)) in E as E'.
  injection E' as Ha Hs. rewrite (chain_unique blake3 log x y Hl Hx Hy Ha Hs). cbn. symmetry. apply (OSet.cmp_refl cmp_hash).
Qed.

Lemma divergence_iff l : forall r, divergence_loop l r = Identical <-> map eid l = map eid r.
Proof.
  induction l as [|x l IH]; intros [|y r]; cbn; [done | done | done|]. case_bool_decide as E; [|split; [done | intros [= H _]; done]].
  rewrite IH. split; [intros ->; congruence | intros [= _ H]; exact H].
Qed.

(** Two journals compare as identical exactly when they hold the same entries, however their appends were interleaved. *)
Theorem diff_exact blake3 (l r : RunReport) : journal_reach blake3 (rr_journal l) -> journal_reach blake3 (rr_journal r) ->
  Z.of_nat (length (entries (rr_journal l))) <= u64_max -> Z.of_nat (length (entries (rr_journal r))) <= u64_max ->
  (forall e f, In e (entries (rr_journal l)) -> In f (entries (rr_journal r)) -> eid e = eid f -> edata e = edata f) ->
  diff l r = JIdentical <-> forall id, In id (map eid (entries (rr_journal l))) <-> In id (map eid (entries (rr_journal r))).
Proof.
  intros (gl & Hgl & Rl)%journal_reach_represents (gr & Hgr & Rr)%journal_reach_represents Nl Nr Hdata.
  rewrite (represents_entries _ _ Rl), (represents_entries _ _ Rr) in *. apply log_reach_ok in Hgl; [|done]. apply log_reach_ok in Hgr; [|done].
  assert (Hd : diff l r = JIdentical <-> map eid (entries_in_vc_order (rr_journal l)) = map eid (entries_in_vc_order (rr_journal r))).
  { rewrite <- divergence_iff. unfold diff, first_divergence. destruct (divergence_loop _ _); done. }
  assert (Hs : forall st id, In id (map eid (entries_in_vc_order st)) <-> In id (map eid (entries st))).
  { intros st id. unfold entries_in_vc_order. rewrite !in_map_iff. apply ex_iff. intros e. rewrite sort_by_In. done. }
  rewrite Hd. split.
  - intros H id. pose proof (Hs (rr_journal l) id) as H1. pose proof (Hs (rr_journal r) id) as H2. rewrite H, (represents_entries _ _ Rl) in H1.
    rewrite (represents_entries _ _ Rr) in H2. rewrite <- H1, <- H2. done.
  - intros H. assert (Hp : map full_key gl ≡ₚ map full_key gr).
    { apply NoDup_Permutation.
      - apply (NoDup_fmap_1 snd). change (snd <$> map full_key gl) with (map snd (map full_key gl)). rewrite map_map. apply (log_ok_nodup blake3), Hgl.
      - apply (NoDup_fmap_1 snd). change (snd <$> map full_key gr) with (map snd (map full_key gr)). rewrite map_map. apply (log_ok_nodup blake3), Hgr.
      - intros k. rewrite !list_elem_of_In, !in_map_iff. assert (Hkey : forall e f, eid e = eid f -> edata e = edata f -> full_key e = full_key f).
        { intros e f H1 H2. unfold full_key, chain_key. rewrite H1, H2. done. }
        split; intros (e & <- & He).
        + destruct (proj1 (in_map_iff _ _ _) (proj1 (H (eid e)) (in_map eid _ _ He))) as (f & Hf & Hin). exists f. split; [|done]. apply Hkey; [done|]. symmetry. apply Hdata; done.
        + destruct (proj1 (in_map_iff _ _ _) (proj2 (H (eid e)) (in_map eid _ _ He))) as (f & Hf & Hin). exists f. split; [|done]. apply Hkey; [done|]. apply Hdata; done. }
    assert (Hsort : map full_key (entries_in_vc_order (rr_journal l)) = map full_key (entries_in_vc_order (rr_journal r))).
    { rewrite (vc_order_full blake3 _ gl Hgl (represents_entries _ _ Rl)), (vc_order_full blake3 _ gr Hgr (represents_entries _ _ Rr)).
      apply sort_by_unique; [unfold cmp_full; apply _ | exact Hp]. }
    apply (f_equal (map snd)) in Hsort. rewrite !map_map in Hsort. exact Hsort.
Qed.

(** ** Memo keys *)

(** An encoder whose output determines the value, whatever follows. *)
Definition prefix_free {A} (ok : A -> Prop) (enc : A -> list byte) : Prop :=
  forall a b r r', ok a -> ok b -> enc a ++ r = enc b ++ r' -> a = b /\ r = r'.

Lemma prefix_free_bytes n : prefix_free (fun s : list byte => length s = n) (fun s => s).
Proof. intros a b r r' Ha Hb H. apply app_inj_1 in H; [done | congruence]. Qed.

Lemma prefix_free_le n : prefix_free (fun v => 0 <= v < 256 ^ Z.of_nat n) (to_le_bytes n).
Proof.
  intros a b r r' Ha Hb H. apply app_inj_1 in H as [H ->]; [|rewrite !length_to_le_bytes; done]. split; [|done].
  apply (f_equal from_le_bytes) in H. rewrite !from_to_le_bytes in H by done. exact H.
Qed.

Lemma prefix_free_seq {A B} (okA : A -> Prop) (okB : B -> Prop) encA encB : prefix_free okA encA -> prefix_free okB encB ->
  prefix_free (fun p => okA p.1 /\ okB p.2) (fun p => encA p.1 ++ encB p.2).
Proof.
  intros HA HB [a b] [a' b'] r r' [H1 H2] [H1' H2'] H. cbn in *. rewrite <- !app_assoc in H. apply HA in H as [-> H]; [|done..].
  apply HB in H as [-> ->]; done.
Qed.

Lemma prefix_free_map {A B} (ok : A -> Prop) (okB : B -> Prop) (f : B -> A) enc : prefix_free ok enc -> (forall b, okB b -> ok (f b)) ->
  (forall b b', okB b -> okB b' -> f b = f b' -> b = b') -> prefix_free okB (fun b => enc (f b)).
Proof. intros H Hok Hinj a b r r' Ha Hb E. apply H in E as [E ->]; [|auto..]. split; [apply Hinj; done | done]. Qed.

(** A count, then the elements. *)
Lemma prefix_free_list {A} (ok : A -> Prop) enc : prefix_free ok enc ->
  prefix_free (fun l => Forall ok l /\ Z.of_nat (length l) <= u64_max) (fun l => to_le_bytes 8 (Z.of_nat (length l)) ++ concat (map enc l)).
Proof.
  intros Henc l k r r' [Hl Nl] [Hk Nk] H. rewrite <- !app_assoc in H. apply (prefix_free_le 8) in H as [Hn H]; [|unfold u64_max in *; cbn; lia..].
  apply Nat2Z.inj in Hn. clear Nl Nk. revert k r r' Hk H Hn. induction Hl as [|a l Ha _ IH]; intros [|b k] r r' Hk H Hn; try discriminate Hn; [done|].
  inversion_clear Hk as [|? ? Hb Hk']. cbn [map concat] in H. rewrite <- !app_assoc in H. apply Henc in H as [-> H]; [|done..].
  apply IH in H as [-> ->]; [done | done | cbn in Hn; lia].
Qed.

Lemma le8_preimage_inj a b r r' : is_u64 a -> is_u64 b -> to_le_bytes 8 a ++ r = to_le_bytes 8 b ++ r' -> a = b /\ r = r'.
Proof. intros Ha Hb. apply (prefix_free_le 8); unfold is_u64, u64_max in *; cbn; lia. Qed.
Lemma le4_inj a b r r' : is_u32 a -> is_u32 b -> to_le_bytes 4 a ++ r = to_le_bytes 4 b ++ r' -> a = b /\ r = r'.
Proof. intros Ha Hb. apply (prefix_free_le 4); unfold is_u32, u32_max in *; cbn; lia. Qed.
Lemma bits_inj a b r r' : finite_ok a -> finite_ok b -> to_le_bytes 8 (sf_to_bits a) ++ r = to_le_bytes 8 (sf_to_bits b) ++ r' -> a = b /\ r = r'.
Proof.
  intros (A1 & A2 & _) (B1 & B2 & _) H. destruct (float_to_bits a A1 A2) as [Ua Ba _ _ _]. destruct (float_to_bits b B1 B2) as [Ub Bb _ _ _].
  apply le8_preimage_inj in H as [H ->]; [|done..]. split; [congruence | done].
Qed.
Lemma hash_inj (a b r r' : list byte) : hash_wf a = true -> hash_wf b = true -> a ++ r = b ++ r' -> a = b /\ r = r'.
Proof. intros Ha Hb. apply Nat.eqb_eq in Ha, Hb. apply (prefix_free_bytes 32); done. Qed.

Lemma policy_prefix_free : prefix_free policy_ok policy_bytes.
Proof.
  intros p q r r' Hp Hq H. destruct p, q; cbn [policy_bytes app] in H; try discriminate H; apply (f_equal tl) in H; cbn [tl] in H.
  - subst r'. done.
  - apply le8_preimage_inj in H as [H ->]; [|unfold policy_ok, is_u64 in *; lia..]. apply Nat2Z.inj in H as ->. done.
  - destruct Hp as [P1 P2], Hq as [Q1 Q2]. rewrite <- !app_assoc in H. apply bits_inj in H as [-> H]; [|done..].
    apply bits_inj in H as [-> ->]; [done | apply probability_finite; done..].
  - subst r'. done.
  - subst r'. done.
Qed.

Lemma swarm_prefix_free : prefix_free swarm_ok swarm_bytes.
Proof.
  intros [a1 a2 a3 a4 a5] [b1 b2 b3 b4 b5] r r' [H1 H2 H3 H4 H5] [K1 K2 K3 K4 K5] H. unfold swarm_bytes in H. cbn in H1, H2, H3, H4, H5, K1, K2, K3, K4, K5.
  cbn [drop_probability delay_probability max_delay_ticks crash_probability fault_classes_per_run] in H. rewrite <- !app_assoc in H.
  apply bits_inj in H as [-> H]; [|apply probability_finite; done..]. apply bits_inj in H as [-> H]; [|apply probability_finite; done..].
  apply le8_preimage_inj in H as [-> H]; [|unfold is_u64; lia..]. apply bits_inj in H as [-> H]; [|apply probability_finite; done..]. apply le8_preimage_inj in H as [-> ->]; done.
Qed.

Lemma fault_prefix_free : prefix_free fault_ok fault_bytes.
Proof.
  intros f g r r' Hf Hg H.
  assert (Hone : forall a b : list byte, hash_wf a = true -> hash_wf b = true -> a ++ r = b ++ r' -> a = b /\ r = r') by (intros a b; apply hash_inj).
  assert (Htwo : forall (a b : list byte) v v', hash_wf a = true -> hash_wf b = true -> is_u64 v -> is_u64 v' -> (a ++ to_le_bytes 8 v) ++ r = (b ++ to_le_bytes 8 v') ++ r' -> a = b /\ v = v' /\ r = r').
  { intros a b v v' Ha Hb Hv Hv' E. rewrite <- !app_assoc in E. apply hash_inj in E as [-> E]; [|done..]. apply le8_preimage_inj in E as [-> ->]; done. }
  destruct f, g; cbn [fault_bytes app] in H; try discriminate H; apply (f_equal tl) in H; cbn [tl] in H; cbn [fault_ok] in Hf, Hg;
    try (apply Hone in H as [-> ->]; done); try (destruct Hf, Hg; apply Htwo in H as (-> & -> & ->); done).
  destruct Hf, Hg. rewrite <- !app_assoc in H. apply le4_inj in H as [-> H]; [|done..]. apply le4_inj in H as [-> ->]; done.
Qed.

Definition variant_ok (p : Policy) (s : SwarmConfig) (fs : list SimFault) : Prop :=
  policy_ok p /\ swarm_ok s /\ Forall fault_ok fs /\ Z.of_nat (length fs) <= u64_max.

Lemma variant_inj p s fs p' s' fs' : variant_ok p s fs -> variant_ok p' s' fs' -> canonical_variant_bytes p s fs = canonical_variant_bytes p' s' fs' ->
  p = p' /\ s = s' /\ fs = fs'.
Proof.
  intros (P & S & F & N) (P' & S' & F' & N') H. unfold canonical_variant_bytes in H.
  apply policy_prefix_free in H as [-> H]; [|done..]. apply swarm_prefix_free in H as [-> H]; [|done..].
  pose proof (prefix_free_list fault_ok fault_bytes fault_prefix_free fs fs' [] []) as HL. rewrite !app_nil_r in HL. destruct (HL (conj F N) (conj F' N') H) as [-> _]. done.
Qed.

Lemma decisions_prefix_free : prefix_free (fun ds => Forall (fun d : nat => Z.of_nat d <= u64_max) ds /\ Z.of_nat (length ds) <= u64_max) decisions_bytes.
Proof.
  apply (prefix_free_list (fun d : nat => Z.of_nat d <= u64_max) (fun d => to_le_bytes 8 (Z.of_nat d))).
  intros a b r r' Ha Hb H. apply le8_preimage_inj in H as [H ->]; [|unfold is_u64; lia..]. apply Nat2Z.inj in H as ->. done.
Qed.

Definition opt_wf (h : option EntryHash) : Prop := match h with Some h => hash_wf h = true | None => True end.
(** Decisions below 2^56: the high byte of each is zero. *)
Definition small_decisions (ds : option (list nat)) : Prop :=
  match ds with Some ds => Forall (fun d : nat => Z.of_nat d < 2 ^ 56) ds /\ Z.of_nat (length ds) <= u64_max | None => True end.

Lemma small_ok ds : small_decisions (Some ds) -> Forall (fun d : nat => Z.of_nat d <= u64_max) ds /\ Z.of_nat (length ds) <= u64_max.
Proof. intros [H N]. split; [|exact N]. revert H. apply List.Forall_impl. unfold u64_max. lia. Qed.

Lemma high_byte v : 0 <= v < 2 ^ 56 -> exists lo, to_le_bytes 8 v = lo ++ [x00] /\ length lo = 7%nat.
Proof.
  intros Hv. exists (to_le_bytes 7 v). split; [|apply length_to_le_bytes].
  assert (Hd : forall n u, to_le_bytes (S n) u = to_le_bytes n u ++ [z2b (u / 256 ^ Z.of_nat n)]).
  { induction n as [|n IH]; intros u; [cbn; rewrite Z.div_1_r; done|]. cbn [to_le_bytes] in *. rewrite IH. cbn [app]. do 3 f_equal.
    rewrite Z.div_div by lia. do 2 f_equal. rewrite Nat2Z.inj_succ, Z.pow_succ_r by lia. lia. }
  rewrite Hd. do 2 f_equal. rewrite Z.div_small by (cbn; lia). done.
Qed.

(** A sequence of small decisions does not read as one after the hash of inputs. *)
Lemma inputs_apart (h : list byte) ds ds' : hash_wf h = true -> small_decisions (Some ds) -> [x00] ++ decisions_bytes ds = (h ++ [xa1]) ++ decisions_bytes ds' -> False.
Proof.
  intros Hh [Hd N] H. apply Nat.eqb_eq in Hh.
  assert (Hlen : forall k, length (decisions_bytes k) = (8 + 8 * length k)%nat).
  { intros k. unfold decisions_bytes. rewrite length_app, length_to_le_bytes. f_equal. induction k as [|d k IH]; [done|]. cbn [map concat length]. rewrite length_app, length_to_le_bytes, IH. lia. }
  assert (Hl := f_equal length H). rewrite !length_app, !Hlen in Hl. cbn [length] in Hl.
  destruct ds as [|d0 [|d1 [|d2 ds]]]; cbn [length] in Hl; try lia.
  inversion_clear Hd as [|? ? _ Hd1]. inversion_clear Hd1 as [|? ? _ Hd2]. inversion_clear Hd2 as [|? ? H2 _].
  destruct (high_byte (Z.of_nat d2)) as (lo & E & Hlo); [lia|]. unfold decisions_bytes at 1 in H. cbn [map concat] in H. rewrite E in H.
  apply (f_equal (fun l => l !! 32%nat)) in H. rewrite <- !app_assoc, (lookup_app_r h) in H by lia. rewrite Hh in H.
  rewrite (lookup_app_r [x00]) in H by (cbn; lia). do 3 (rewrite lookup_app_r in H by (rewrite length_to_le_bytes; cbn; lia); rewrite length_to_le_bytes in H).
  cbn [length Nat.sub] in H. rewrite lookup_app_r in H by lia. rewrite Hlo in H. cbn in H. discriminate H.
Qed.

(** The memo's key material separates what it depends on: equal bytes come of equal variant digests, input hashes, decisions
    and seeds, present or not. *)
Theorem memo_preimage_separates vd vd' (i i' : option EntryHash) ds ds' (s s' : option EntryHash) :
  length vd = length vd' -> opt_wf i -> opt_wf i' -> small_decisions ds -> small_decisions ds' -> opt_wf s -> opt_wf s' ->
  memo_preimage vd i ds s = memo_preimage vd' i' ds' s' -> vd = vd' /\ i = i' /\ ds = ds' /\ s = s'.
Proof.
  intros Hv Hi Hi' Hd Hd' Hs Hs' H. unfold memo_preimage in H. apply app_inj_1 in H as [-> H]; [|done]. apply (f_equal tl) in H. cbn [tl app] in H.
  assert (Hseed : s = s' /\ match i with Some h => h ++ [xa1] | None => [x00] end ++ match ds with Some ds => decisions_bytes ds ++ [xa2] | None => [x01] end =
                  match i' with Some h => h ++ [xa1] | None => [x00] end ++ match ds' with Some ds => decisions_bytes ds ++ [xa2] | None => [x01] end).
  { destruct s as [s|], s' as [s'|]; rewrite !app_assoc in H; apply app_inj_tail in H as [H E]; try discriminate E; [|done].
    apply Nat.eqb_eq in Hs, Hs'. apply app_inj_2 in H as [H ->]; [done | congruence]. }
  clear H. destruct Hseed as [-> H]. destruct ds as [ds|], ds' as [ds'|]; rewrite ?app_assoc in H; apply app_inj_tail in H as [H E]; try discriminate E.
  - destruct i as [h|], i' as [h'|].
    + rewrite <- !app_assoc in H. apply hash_inj in H as [-> H]; [|done..]. apply (f_equal tl) in H. cbn [tl app] in H.
      pose proof (decisions_prefix_free ds ds' [] [] (small_ok _ Hd) (small_ok _ Hd')) as HD. rewrite !app_nil_r in HD. destruct (HD H) as [-> _]. done.
    + exfalso. symmetry in H. exact (inputs_apart h ds' ds Hi Hd' H).
    + exfalso. exact (inputs_apart h' ds ds' Hi' Hd H).
    + apply (f_equal tl) in H. cbn [tl app] in H.
      pose proof (decisions_prefix_free ds ds' [] [] (small_ok _ Hd) (small_ok _ Hd')) as HD. rewrite !app_nil_r in HD. destruct (HD H) as [-> _]. done.
  - destruct i as [h|], i' as [h'|]; try (apply Nat.eqb_eq in Hi); try (apply Nat.eqb_eq in Hi').
    + apply app_inj_tail in H as [-> _]. done.
    + exfalso. apply (f_equal length) in H. rewrite length_app in H. cbn in H, Hi. lia.
    + exfalso. apply (f_equal length) in H. rewrite length_app in H. cbn in H, Hi'. lia.
    + done.
Qed.

(** ** The memo within a campaign *)

Section Quad.
Variable blake3 : list byte -> list byte.
Variable keyed : EntryHash -> list byte -> list byte.
Variable derive : EntryHash -> list byte -> EntryHash.
Variable chacha_word : EntryHash -> nat -> Z.
Variable powf : spec_float -> spec_float -> spec_float.
Variable ln : spec_float -> spec_float.
Variable journaling base_unique : bool.
Variable iter : gmap Z Z -> list (Z * Z).
Variables fuel draws : nat.
Variables (w : Workload) (oracle : Oracle) (base : RunConfig) (m : QuadMutation).

Abbreviation config_at := (quad_config derive chacha_word draws base m).
Abbreviation inputs_at := (attempt_inputs blake3 derive chacha_word powf w base m "quad-input/").
Abbreviation key c h := (attempt_key blake3 c h).

(** What the key of an attempt hashes. *)
Definition key_material (c : RunConfig) (h : option EntryHash) : list byte :=
  memo_preimage (blake3 (canonical_variant_bytes (cfg_policy c) (cfg_swarm c) (cfg_fault_schedule c))) h None (Some (cfg_seed c)).

Lemma quad_seed i c : config_at i = Some (Ok c) -> cfg_seed c = attempt_seed base i.
Proof.
  unfold quad_config. intros H. set (c1 := match policies m with [] => _ | _ => _ end) in H.
  assert (H1 : cfg_seed c1 = attempt_seed base i) by (unfold c1; destruct (policies m); done). clearbody c1.
  assert (H2 : forall c2, (if use_swarm m then obind (draw_swarm derive chacha_word draws (cfg_seed base) (label "quad-swarm/" i) (swarm_budget m) SWARM_CRASH_CEILING)
      (fun swarm => Some (Ok (cfg_with_swarm c1 swarm))) else Some (Ok c1)) = Some (Ok c2) -> cfg_seed c2 = attempt_seed base i).
  { intros c2. destruct (use_swarm m); [|intros [= <-]; exact H1]. destruct (draw_swarm _ _ _ _ _ _ _) as [[s|]|]; [|done..]. intros [= <-]. exact H1. }
  destruct (if use_swarm m then _ else _) as [[c2|]|]; [|done..]. specialize (H2 c2 eq_refl). cbn [obind] in H.
  destruct (fault_library m); [injection H as <-; exact H2|]. destruct (draw_fault_subset _ _ _ _ _) as [[sch rg]|]; [|done]. injection H as <-. exact H2.
Qed.

(** No two attempts have one seed. *)
Lemma attempt_seed_inj i j : Z.of_nat i <= u64_max -> Z.of_nat j <= u64_max -> attempt_seed base i = attempt_seed base j -> i = j.
Proof. intros Hi Hj H. apply le8_preimage_inj in H as [H _]; [lia | unfold is_u64; lia..]. Qed.

Lemma key_material_seed c c' h h' : length (cfg_seed c) = length (cfg_seed c') -> key_material c h = key_material c' h' -> cfg_seed c = cfg_seed c'.
Proof.
  intros Hl H. unfold key_material, memo_preimage in H. rewrite !app_assoc in H. apply app_inj_tail in H as [H _]. apply app_inj_2 in H as [_ H]; done.
Qed.

(** An attempt and its run. *)
Definition quad_ran (i : nat) (r : RunReport) : Prop := exists c ps lab h, config_at i = Some (Ok c) /\ inputs_at i = Ok (ps, lab, h)
  /\ run_new blake3 keyed ln journaling base_unique iter fuel c ps = Some (Ok r).
Definition ran_from (i : nat) (runs : list RunReport) : Prop := forall k r, runs !! k = Some r -> quad_ran (i + k) r.

Variable n : nat.
Hypothesis Hn : Z.of_nat n <= u64_max.
(** BLAKE3 does not collide on the keys of the campaign. *)
Hypothesis no_collision : forall i j c c' ps ps' lab lab' h h', (i < n)%nat -> (j < n)%nat -> config_at i = Some (Ok c) -> config_at j = Some (Ok c') ->
  inputs_at i = Ok (ps, lab, h) -> inputs_at j = Ok (ps', lab', h') -> key c h = key c' h' -> key_material c h = key_material c' h'.

(** The memo holds keys of earlier attempts only. *)
Definition memo_from (i : nat) (memo : CampaignMemo) : Prop := forall k e, memo !! k = Some e ->
  exists j c ps lab h, (j < i)%nat /\ config_at j = Some (Ok c) /\ inputs_at j = Ok (ps, lab, h) /\ k = key c h.

Lemma memo_fresh i c ps lab h memo : memo_from i memo -> (i < n)%nat -> config_at i = Some (Ok c) -> inputs_at i = Ok (ps, lab, h) -> memo !! key c h = None.
Proof.
  intros Hm Hi Hc Hh. destruct (memo !! key c h) as [e|] eqn:E; [|done]. exfalso. apply Hm in E as (j & c' & ps' & lab' & h' & Hj & Hc' & Hh' & Ek).
  pose proof (no_collision i j c c' ps ps' lab lab' h h' Hi ltac:(lia) Hc Hc' Hh Hh' Ek) as Hk.
  apply key_material_seed in Hk; rewrite (quad_seed i c Hc), (quad_seed j c' Hc') in *; [|unfold attempt_seed; rewrite !length_app, !length_to_le_bytes; done].
  apply attempt_seed_inj in Hk; lia.
Qed.

Lemma quad_loop_spec k : forall i q q', (i + k = n)%nat -> memo_from i (q_memo q) ->
  quad_loop blake3 keyed derive chacha_word powf ln journaling base_unique iter fuel draws w oracle base m k i q = Some (Ok q') ->
  exists runs, length runs = k /\ ran_from i runs /\ q_roots q' = roots_of blake3 runs ∪ q_roots q
    /\ map fd_run (q_findings q') = map fd_run (q_findings q) ++ List.filter (fun r => violated (oracle (run_result r))) runs.
Proof.
  induction k as [|k IH]; intros i q q' Hik Hm H; cbn [quad_loop] in H.
  - injection H as <-. exists []. split_and!; [done | intros j r; done | set_solver | cbn; rewrite app_nil_r; done].
  - destruct (config_at i) as [[c|]|] eqn:Ec; cbn [obind] in H; [|done..]. destruct (inputs_at i) as [[[ps lab] h]|] eqn:Eh; cbn [obind] in H; [|done].
    unfold memo_attempt in H. rewrite (memo_fresh i c ps lab h (q_memo q) Hm ltac:(lia) Ec Eh) in H.
    destruct (run_new _ _ _ _ _ _ _ c ps) as [[r|]|] eqn:Er; cbn [omap_err option_map map_err obind] in H; [|done..].
    apply IH in H as (runs & Hl & Hr & Hroots & Hf); [| lia |].
    + exists (r :: runs). split_and!; [cbn; lia | | |].
      * intros [|j] r' Hj; [injection Hj as <-; rewrite Nat.add_0_r; exists c, ps, lab, h; done|]. replace (i + S j)%nat with (S i + j)%nat by lia. apply Hr, Hj.
      * rewrite Hroots. cbn [q_roots]. unfold roots_of. cbn [map list_to_set]. set_solver.
      * rewrite Hf. cbn [q_findings List.filter]. destruct (violated (oracle (run_result r))); [rewrite map_app, <- app_assoc; done | done].
    + cbn [q_memo]. intros k' e Hk. destruct (decide (key c h = k')) as [<-|Hne].
      * exists i, c, ps, lab, h. split_and!; [lia | done..].
      * pose proof (eq_trans (eq_sym (lookup_insert_ne (q_memo q) (key c h) k' _ Hne)) Hk) as Hk'. apply Hm in Hk' as (j & c' & ps' & lab' & h' & Hj & Hrest). exists j, c', ps', lab', h'. split; [lia | exact Hrest].
Qed.

(** The memo of a quadruple campaign never hits, because the seed of the attempt is part of its key: every attempt is run, and the
    report counts the roots and lists the violations of all of them. *)
Theorem quad_runs_every_attempt rep :
  run_campaign_quad blake3 keyed derive chacha_word powf ln journaling base_unique iter fuel draws w oracle base m n = Some (Ok rep) ->
  exists runs, length runs = n /\ ran_from 0 runs /\ distinct_roots rep = size (roots_of blake3 runs)
    /\ map fd_run (findings rep) = List.filter (fun r => violated (oracle (run_result r))) runs.
Proof.
  unfold run_campaign_quad. intros H. destruct (quad_loop _ _ _ _ _ _ _ _ _ _ _ _ _ _ _ n 0 _) as [[q|]|] eqn:E; cbn [obind] in H; [|done..]. injection H as <-.
  apply quad_loop_spec in E as (runs & Hl & Hr & Hroots & Hf); [|lia|intros k e He; discriminate (eq_trans (eq_sym (lookup_empty (M := gmap (list byte)) k)) He)].
  exists runs. cbn [distinct_roots findings]. rewrite Hroots. cbn [q_roots q_findings] in *. rewrite (right_id_L ∅ (∪)). split_and!; done.
Qed.
End Quad.

(** ** The bandit *)

Section Bandit.
Variable blake3 : list byte -> list byte.
Variable keyed : EntryHash -> list byte -> list byte.
Variable derive : EntryHash -> list byte -> EntryHash.
Variable chacha_word : EntryHash -> nat -> Z.
Variable powf : spec_float -> spec_float -> spec_float.
Variable ln : spec_float -> spec_float.
Variable journaling base_unique : bool.
Variable iter : gmap Z Z -> list (Z * Z).
Variables fuel draws : nat.
Variables (w : Workload) (oracle : Oracle) (base : RunConfig) (m : QuadMutation).

(** The pick is one of the candidates. *)
Lemma arm_In b exploration : candidates b <> [] -> In (arm ln b exploration) (candidates b).
Proof.
  intros Hb. unfold arm. set (step := fun best variant => _).
  assert (H : forall l best, (forall s v, best = Some (s, v) -> In v (candidates b)) -> (forall v, In v l -> In v (candidates b)) -> (best <> None \/ l <> []) ->
    match foldl step best l with Some (_, v) => In v (candidates b) | None => False end).
  { induction l as [|v l IH]; intros best Hbest Hl Hne; cbn [foldl].
    - destruct best as [[s v]|]; [eapply Hbest; done | destruct Hne as [[]|[]]; done].
    - apply IH; [|intros v' Hv'; apply Hl; right; done | left; unfold step; destruct best as [[s v']|]; [destruct (_ || _)|]; done].
      intros s v' Hs. unfold step in Hs. destruct best as [[s0 v0]|]; [destruct (_ || _)|]; injection Hs as <- <-; first [apply Hl; left; done | eapply Hbest; done]. }
  specialize (H (candidates b) None ltac:(done) ltac:(auto) ltac:(auto)). destruct (foldl step None (candidates b)) as [[s v]|]; [exact H | destruct H].
Qed.

Definition arms_known (b : QuadBandit) (variant_of : gmap Z QuadVariant) : Prop := forall a, In a (candidates b) -> is_Some (variant_of !! a).

Lemma register_all_known vs : let '(b, variant_of) := register_all blake3 vs in arms_known b variant_of /\ (vs <> [] -> candidates b <> []).
Proof.
  unfold register_all. induction vs as [|v vs IH] using rev_ind; [cbn; split; [intros a [] | done]|]. rewrite foldl_app. cbn [foldl].
  destruct (foldl _ _ vs) as [b variant_of]. destruct IH as [IH _]. unfold register. case_bool_decide as Hin.
  - split; [|intros _ Hb; rewrite Hb in Hin; set_solver]. intros a Ha. destruct (decide (qv_hash blake3 v = a)) as [<-|Hne]; [rewrite lookup_insert_eq; eauto|].
    rewrite lookup_insert_ne by exact Hne. apply IH, Ha.
  - cbn [candidates]. split; [|intros _; destruct (candidates b); done]. intros a Ha. destruct (decide (qv_hash blake3 v = a)) as [<-|Hne]; [rewrite lookup_insert_eq; eauto|].
    rewrite lookup_insert_ne by exact Hne. apply IH. apply in_app_or in Ha as [Ha|[Ha|[]]]; done.
Qed.

Abbreviation unknown r := (exists a, r = Some (Err (UnknownArm a))).

Lemma memo_attempt_known check c ps h v q : ~ unknown (memo_attempt blake3 keyed ln journaling base_unique iter fuel check c ps h v q).
Proof.
  intros [a H]. unfold memo_attempt in H. destruct (q_memo q !! _); [done|]. unfold omap_err in H. destruct (run_new _ _ _ _ _ _ _ c ps) as [[r|]|]; done.
Qed.

Lemma inputs_known name i : ~ unknown (Some (attempt_inputs blake3 derive chacha_word powf w base m name i)).
Proof.
  intros [a H]. unfold attempt_inputs, draw_inputs in H. destruct (input_generator m); [|done]. destruct (inputs_loop _ _ _ _ _); done.
Qed.

Lemma bandit_loop_known variant_of exploration k : forall i b q, arms_known b variant_of -> candidates b <> [] ->
  ~ unknown (bandit_loop blake3 keyed derive chacha_word powf ln journaling base_unique iter fuel w oracle base m variant_of exploration k i b q).
Proof.
  induction k as [|k IH]; intros i b q Hb Hne [a H]; cbn [bandit_loop] in H; [done|].
  destruct (Hb _ (arm_In b exploration Hne)) as [v Hv]. rewrite Hv in H. pose proof (inputs_known "bandit-input/" i) as Hi.
  destruct (attempt_inputs _ _ _ _ _ _ _ _ i) as [[[ps lab] h]|e]; cbn [obind] in H; [|injection H as ->; apply Hi; eauto].
  pose proof (memo_attempt_known (judge oracle) (bandit_config base v i) ps h (describe (bandit_config base v i) i lab) q) as Hm.
  destruct (memo_attempt _ _ _ _ _ _ _ _ _ _ _ _ _) as [[[found q']|e]|]; cbn [obind] in H; [|injection H as ->; apply Hm; eauto | done].
  apply (IH (S i) (reward b (arm ln b exploration) (if found : bool then f64_one else f64_zero)) q' Hb Hne). exists a. exact H.
Qed.

Lemma draw_swarm_known seed name budget ceiling : ~ unknown (draw_swarm derive chacha_word draws seed name budget ceiling).
Proof. intros [a H]. unfold draw_swarm, rng_next in H. repeat case_match; try discriminate H; injection H as H; discriminate H. Qed.

Lemma swarm_samples_known indices : ~ unknown (swarm_samples derive chacha_word draws base m indices) /\
  forall ss, swarm_samples derive chacha_word draws base m indices = Some (Ok ss) -> length ss = length indices.
Proof.
  induction indices as [|i indices [IH1 IH2]]; cbn [swarm_samples]; [split; [intros [a [=]] | intros ss [= <-]; done]|].
  pose proof (draw_swarm_known (cfg_seed base) (label "bandit-swarm/" i) (swarm_budget m) SWARM_CRASH_CEILING) as Hd.
  destruct (draw_swarm _ _ _ _ _ _ _) as [[s|e]|]; cbn [obind]; [|split; [intros [a [= ->]]; apply Hd; eauto | done] | split; [intros [a [=]] | done]].
  destruct (swarm_samples _ _ _ _ _ indices) as [[ss|e]|]; cbn [obind]; [| split; [intros [a [= ->]]; apply IH1; eauto | done] | split; [intros [a [=]] | done]].
  split; [intros [a [=]]|]. intros ss' [= <-]. cbn. rewrite (IH2 ss) by done. done.
Qed.

Lemma fault_samples_length indices : forall fss, fault_samples derive chacha_word draws base m indices = Some fss -> length fss = length indices.
Proof.
  induction indices as [|i indices IH]; cbn [fault_samples]; intros fss H; [injection H as <-; done|]. destruct (draw_fault_subset _ _ _ _ _) as [[fs r]|]; [|done].
  destruct (fault_samples _ _ _ _ _ indices) as [fss'|]; [|done]. injection H as <-. cbn. rewrite (IH fss') by done. done.
Qed.

Lemma enumerate_known : ~ unknown (enumerate_variants derive chacha_word draws base m) /\
  forall vs, enumerate_variants derive chacha_word draws base m = Some (Ok vs) -> vs <> [].
Proof.
  unfold enumerate_variants. set (ps := match policies m with [] => _ | _ => _ end).
  assert (Hps : ps <> []) by (unfold ps; destruct (policies m); done). clearbody ps.
  assert (Hss : ~ unknown (if use_swarm m then swarm_samples derive chacha_word draws base m (seq 0 BANDIT_SWARM_SAMPLES) else Some (Ok [cfg_swarm base])) /\
    forall ss, (if use_swarm m then swarm_samples derive chacha_word draws base m (seq 0 BANDIT_SWARM_SAMPLES) else Some (Ok [cfg_swarm base])) = Some (Ok ss) -> ss <> []).
  { destruct (use_swarm m); [|split; [intros [a [=]] | intros ss [= <-]; done]]. destruct (swarm_samples_known (seq 0 BANDIT_SWARM_SAMPLES)) as [H1 H2].
    split; [exact H1|]. intros ss Hs ->. apply H2 in Hs. done. }
  destruct (if use_swarm m then _ else _) as [[ss|e]|]; cbn [obind]; [|split; [intros [a [= ->]]; apply Hss; eauto | done] | split; [intros [a [=]] | done]].
  destruct Hss as [_ Hss]. specialize (Hss ss eq_refl).
  assert (Hfs : forall fss, match fault_library m with [] => Some [[]] | _ => fault_samples derive chacha_word draws base m (seq 0 BANDIT_FAULT_SAMPLES) end = Some fss -> fss <> []).
  { intros fss. destruct (fault_library m); [intros [= <-]; done|]. intros H ->. apply fault_samples_length in H. done. }
  destruct (match fault_library m with [] => _ | _ => _ end) as [fss|]; [|split; [intros [a [=]] | done]]. specialize (Hfs fss eq_refl).
  split; [intros [a [=]]|]. intros vs [= <-]. destruct ps; [done|]. destruct ss; [done|]. destruct fss; [done|]. done.
Qed.

(** The bandit never picks an arm without a variant. *)
Theorem bandit_arms_known exploration n a :
  run_bandit_campaign blake3 keyed derive chacha_word powf ln journaling base_unique iter fuel draws w oracle base m exploration n <> Some (Err (UnknownArm a)).
Proof.
  unfold run_bandit_campaign. destruct enumerate_known as [H1 H2]. destruct (enumerate_variants _ _ _ _ _) as [[vs|e]|]; cbn [obind]; [|intros [= ->]; apply H1; eauto | done].
  pose proof (register_all_known vs) as Hr. destruct (register_all blake3 vs) as [b variant_of]. destruct Hr as [Hk Hne].
  pose proof (bandit_loop_known variant_of exploration n 0 b (mkQuad ∅ [] [] ∅) Hk (Hne (H2 vs eq_refl))) as Hl.
  destruct (bandit_loop _ _ _ _ _ _ _ _ _ _ _ _ _ _ _ _ n 0 b _) as [[q|e]|]; cbn [obind]; [done | intros [= ->]; apply Hl; eauto | done].
Qed.
End Bandit.

(** ** Draws *)

Section Draws.
Variable derive : EntryHash -> list byte -> EntryHash.
Variable chacha_word : EntryHash -> nat -> Z.
Variable powf : spec_float -> spec_float -> spec_float.
Variable draws : nat.
Hypothesis words : forall s k, is_u64 (chacha_word s k).

Lemma unbiased_loop_spec fuel threshold limit : 0 < limit -> forall r v r', unbiased_loop chacha_word fuel threshold limit r = Some (v, r') ->
  exists word, 0 <= word < threshold /\ v = word mod limit.
Proof.
  intros Hl. induction fuel as [|fuel IH]; intros r v r' H; cbn [unbiased_loop] in H; [done|]. unfold rng_next in H.
  destruct (Z.ltb_spec (chacha_word (rng_seed r) (rng_drawn r)) threshold) as [Hlt|_]; [|apply IH in H; exact H].
  injection H as <- <-. exists (chacha_word (rng_seed r) (rng_drawn r)). pose proof (words (rng_seed r) (rng_drawn r)) as [H0 _]. split; [lia | done].
Qed.

(** A draw is within its bound, and every value in it stands for the same number of words the loop accepts. *)
Lemma unbiased_range_bound r bound v r' : is_u64 bound -> unbiased_range chacha_word draws r bound = Some (v, r') -> 0 <= v <= bound.
Proof.
  intros Hb H. unfold unbiased_range in H. destruct (Z.eqb_spec bound u64_max) as [->|Hne].
  - injection H as <- _. apply words.
  - unfold is_u64 in Hb. apply unbiased_loop_spec in H as (word & _ & ->); [|lia]. pose proof (Z.mod_pos_bound word (bound + 1) ltac:(lia)). lia.
Qed.

Lemma unbiased_share bound : 0 <= bound -> (bound + 1 | u64_max - u64_max mod (bound + 1)).
Proof. intros H. exists (u64_max / (bound + 1)). pose proof (Z.div_mod u64_max (bound + 1) ltac:(lia)). lia. Qed.

Lemma subset_loop_spec library count fuel : Z.of_nat (length library) <= u64_max -> forall chosen used r fs r',
  (exists ix, NoDup ix /\ mapM (fun i => library !! i) ix = Some chosen /\ (forall i, i ∈ used <-> i ∈ ix)) -> (length chosen <= count)%nat ->
  subset_loop chacha_word draws fuel library count chosen used r = Some (fs, r') ->
  length fs = count /\ exists ix, NoDup ix /\ mapM (fun i => library !! i) ix = Some fs.
Proof.
  intros HL. induction fuel as [|fuel IH]; intros chosen used r fs r' (ix & Hnd & Hm & Hu) Hle H; cbn [subset_loop] in H;
    (destruct (Nat.ltb_spec (length chosen) count) as [Hlt|Hge]; cbn [negb] in H; [|injection H as <- _; split; [lia | eauto]]); [done|].
  destruct (unbiased_range _ _ _ _) as [[index r1]|]; [|done]. case_bool_decide as Hin; [apply IH in H; [exact H | exists ix; done | lia]|].
  destruct (library !! Z.to_nat index) as [f|] eqn:Ef; [|done]. apply IH in H; [exact H | | rewrite length_app; cbn; lia].
  exists (ix ++ [Z.to_nat index]). split_and!.
  - apply list.NoDup_app. split_and!; [done | | apply list.NoDup_singleton]. intros i Hi Hi2. apply list_elem_of_singleton in Hi2 as ->. apply Hin, Hu, Hi.
  - apply mapM_Some. apply mapM_Some in Hm. apply Forall2_app; [exact Hm|]. constructor; [exact Ef | constructor].
  - intros i. set_solver.
Qed.

(** The faults of a run are drawn from distinct places of the library, at most as many as allowed. *)
Theorem fault_subset_exact library max_per_run r fs r' : Z.of_nat (length library) <= u64_max ->
  draw_fault_subset chacha_word draws library max_per_run r = Some (fs, r') ->
  (length fs <= Nat.min max_per_run (length library))%nat /\ exists ix, NoDup ix /\ mapM (fun i => library !! i) ix = Some fs.
Proof.
  intros HL H. unfold draw_fault_subset in H. destruct (unbiased_range _ _ _ _) as [[count r1]|] eqn:E; [|done].
  apply unbiased_range_bound in E; [|unfold is_u64; lia]. apply subset_loop_spec in H as [Hl Hi]; [|done | exists []; split_and!; [constructor | done | set_solver] | cbn; lia].
  split; [lia | exact Hi].
Qed.

Lemma sample_energy_bound r range dist v r' : 0 < range -> sample_energy chacha_word powf r range dist = Ok (v, r') -> 0 <= v < range.
Proof.
  intros Hr H. unfold sample_energy, uniform_mod, rng_next in H. destruct (Z.eqb_spec range 0); [lia|]. destruct dist as [|e].
  - injection H as <- _. apply Z.mod_pos_bound. lia.
  - destruct (_ || _); [done|]. injection H as <- _. set (raw := f64_as_u64 _). assert (0 <= raw).
    { unfold raw, f64_as_u64. repeat case_match; unfold u64_max; try lia. apply Z.min_glb; [lia|]. apply Z.shiftl_nonneg. lia. }
    destruct (Z.leb_spec range raw); lia.
Qed.

Lemma inputs_loop_bound dist k : forall r vs, inputs_loop chacha_word powf k dist r = Ok vs -> length vs = k /\ Forall (fun v => 0 <= v < INPUT_SAMPLE_RANGE) vs.
Proof.
  induction k as [|k IH]; intros r vs H; cbn [inputs_loop] in H; [injection H as <-; done|].
  assert (Hv : forall v r', match dist with None | Some Uniform => Ok (sample_range chacha_word r 0 INPUT_SAMPLE_RANGE)
      | Some (Power e) => sample_energy chacha_word powf r INPUT_SAMPLE_RANGE (Power e) end = Ok (v, r') -> 0 <= v < INPUT_SAMPLE_RANGE).
  { assert (Hu : forall v r', Ok (sample_range chacha_word r 0 INPUT_SAMPLE_RANGE) = Ok (E := PbtError) (v, r') -> 0 <= v < INPUT_SAMPLE_RANGE).
    { intros v r' E. unfold sample_range, uniform_mod, rng_next in E. injection E as <- _. pose proof (Z.mod_pos_bound (chacha_word (rng_seed r) (rng_drawn r)) (INPUT_SAMPLE_RANGE - 0) ltac:(done)).
      unfold INPUT_SAMPLE_RANGE in *. lia. }
    destruct dist as [[|e]|]; intros v r'; [apply Hu | apply sample_energy_bound; done | apply Hu]. }
  destruct (match dist with None => _ | _ => _ end) as [[v r1]|]; [|done]. destruct (inputs_loop _ _ k dist r1) as [vs'|] eqn:E; [|done]. injection H as <-.
  apply IH in E as [Hl Hf]. split; [cbn; lia | constructor; [eapply Hv; done | exact Hf]].
Qed.

(** An attempt draws sixteen inputs, each below the sample range. *)
Theorem inputs_bounded generator seed dist vs : draw_inputs derive chacha_word powf generator seed dist = Ok vs ->
  length vs = INPUT_AXIS_SAMPLE /\ Forall (fun v => 0 <= v < INPUT_SAMPLE_RANGE) vs.
Proof.
  unfold draw_inputs. destruct (inputs_loop _ _ _ _ _) as [vs'|] eqn:E; [|done]. intros [= <-]. exact (inputs_loop_bound _ _ _ _ E).
Qed.
End Draws.

(** ** Samples *)

(** A message nobody waits for. *)
Definition one_way : list Program := [[ISend 1 7; IDone]; [IYield; IDone]].
Definition one_way_run : option (result RuntimeError RunReport) :=
  run_new tail_digest sample_keyed plain_ln false true map_to_list 40 (budget_config 40) one_way.
Definition sent_ids (r : RunReport) : list EntryHash := map eid (List.filter (fun e => bool_decide (kind (edata e) = KSend)) (entries (rr_journal r))).
Definition faults_on (id : EntryHash) : list SimFault := [Drop id; Delay id 3; Crash (repeat x09 32); SPartition 0 1].
Definition replay_one_way (r : RunReport) (schedule : list SimFault) :=
  replay_with_faults tail_digest sample_keyed plain_ln false true map_to_list 400 (fixed one_way) (rr_journal r) (repeat x00 32) (rr_decisions r) schedule.

(** The first of two faults on the message is applied, the other three are voided. *)
Lemma fault_replay_exact_witness : exists r id rep, one_way_run = Some (Ok r) /\ sent_ids r = [id] /\ replay_one_way r (faults_on id) = Some (Ok rep)
  /\ In (Drop id) (fr_applied rep) /\ fr_applied rep ++ fr_voided rep ≡ₚ faults_on id.
Proof.
  assert (Hc : match one_way_run with
    | Some (Ok r) => match sent_ids r with
        | [id] => match replay_one_way r (faults_on id) with Some (Ok rep) => existsb (fun x => bool_decide (x = id)) (rr_applied_faults (fr_run rep)) = true | _ => False end
        | _ => False end
    | _ => False end) by (vm_compute; reflexivity).
  destruct one_way_run as [[r|]|]; [|destruct Hc..]. destruct (sent_ids r) as [|id [|]] eqn:Es; [destruct Hc| |destruct Hc].
  destruct (replay_one_way r (faults_on id)) as [[rep|]|] eqn:E; [|destruct Hc..].
  destruct (fault_replay_exact _ _ _ _ _ _ _ _ _ _ _ _ _ E) as (_ & Hp & Ha & _).
  exists r, id, rep. split_and!; [reflexivity | exact Es | exact E | | exact Hp]. apply Ha. exists id. split.
  - apply existsb_exists in Hc as (x & Hx & Hb). apply bool_decide_eq_true in Hb. subst x. exact Hx.
  - unfold faults_on. rewrite injection_cons, bool_decide_true by reflexivity. reflexivity.
Defined.

Definition h_of (b : byte) : list byte := repeat b 32.
Definition sample_escalated : gmap (list byte) SimFault := {[ h_of x01 := Crash (h_of x01) ]}.
Definition sample_schedule : list SimFault := [Duplicate (h_of x02); Drop (h_of x01); Delay (h_of x02) 4; SPartition 0 1; Drop (h_of x03)].

(** One target escalated, one suppressed, one with two faults. *)
Lemma rebuilt_schedule_exact_witness :
  In (Duplicate (h_of x02)) (rebuild_schedule sample_schedule {[h_of x03]} [] sample_escalated)
  /\ ~ In (Drop (h_of x01)) (rebuild_schedule sample_schedule {[h_of x03]} [] sample_escalated)
  /\ rebuild_schedule sample_schedule {[h_of x03]} [] sample_escalated = [SPartition 0 1; Crash (h_of x01); Duplicate (h_of x02)].
Proof.
  assert (He : forall h f, sample_escalated !! h = Some f -> fault_target f = Some h).
  { intros h f H. unfold sample_escalated in H. apply lookup_singleton_Some in H as [<- <-]. reflexivity. }
  pose proof (rebuilt_schedule_exact sample_escalated sample_schedule {[h_of x03]} [] He) as [_ H].
  assert (Hw : wanted sample_escalated sample_schedule (h_of x01) = Some (Crash (h_of x01))) by (vm_compute; reflexivity). split_and!.
  - refine (proj2 (H (Duplicate (h_of x02))) _). split; [rewrite elem_of_singleton; discriminate | vm_compute; reflexivity].
  - intros Hd. pose proof (proj1 (H (Drop (h_of x01))) Hd) as [_ Hx]. rewrite Hw in Hx. discriminate Hx.
  - vm_compute. reflexivity.
Defined.

(** The finding of a search along the input axis names the seed of its inputs, not the root seed its run was made with. *)
Theorem input_finding_seed blake3 keyed derive chacha_word powf ln journaling base_unique iter fuel w oracle base generator energy n f :
  search_input_energy blake3 keyed derive chacha_word powf ln journaling base_unique iter fuel w oracle base generator energy n = Some (Ok (Some f)) ->
  exists i inputs, fd_seed f = derive (cfg_seed base) (label "input-axis/" i) /\
    run_new blake3 keyed ln journaling base_unique iter fuel base (with_inputs w inputs) = Some (Ok (fd_run f)).
Proof.
  unfold search_input_energy. generalize 0%nat as i. induction n as [|n IH]; intros i H; cbn [input_loop] in H; [done|].
  destruct (draw_inputs _ _ _ _ _ _) as [inputs|e]; cbn [obind] in H; [|done]. unfold omap_err in H.
  destruct (run_new _ _ _ _ _ _ _ _ (with_inputs w inputs)) as [[r|e]|] eqn:E; cbn [option_map map_err obind] in H; [|done..].
  destruct (violated (judge oracle r)); [|apply IH in H; exact H]. injection H as <-. exists i, inputs. done.
Qed.
