(* ===== verification/Feedback.v ===== *)
(** * Joint and feedback campaigns

    Models [search/joint.rs] and [search/feedback.rs] without shared state, as [run_joint_campaign] and [run_feedback_campaign]
    run them: a search for a first finding, the solver's cut of its hazard turned into faults, and runs under those faults;
    the feedback campaign drops the faults that did not apply and escalates those that did without effect.

    - Both campaigns keep to their number of attempts.
    - A feedback round never injects at an event where a fault was voided before.

    Without the feature [solver-cadical] the automatic choice of engine is the hitting-set solver. *)

From stdpp Require Import gmap pretty.
From Stdlib Require Import SpecFloat.
From S2P Require Import Prelude Machine Floats Cbor Limits Value Path Hex Frame Entry OrdMap Order Clock Dag.
From S2P Require Import Causal Monitor KeyMap VirtualTime Net Scheduler SimFs Backend OSet Verdict Hitting Support SolverCache Lineage HsSolver MaxSat.
From S2P Require Import Ldfi Oracle OnlineMonitor Config Executor Flow ExecutorRuns Campaign CampaignProofs CampaignAxes.

Open Scope Z_scope.
Open Scope campaign_scope.

Definition injection_kind (f : SimFault) : string :=
  match f with
  | Drop _ => "Drop" | Delay _ _ => "Delay" | SPartition _ _ => "Partition" | Crash _ => "Crash" | Corrupt _ _ => "Corrupt"
  | CrashState _ _ => "CrashState" | Duplicate _ => "Duplicate"
  end.

(** The state of the rounds. *)
Record Feedback : Type := mkFeedback {
  fb_schedule : list SimFault;
  fb_suppressed : gset (list byte);
  fb_voided : list SimFault;
  fb_escalated : gmap (list byte) SimFault }.

(** Voided faults suppress their target, or themselves when they have none. *)
Definition suppress (fs : list SimFault) (suppressed : gset (list byte)) (voided : list SimFault) : gset (list byte) * list SimFault :=
  foldl (fun '(s, v) f => match fault_target f with Some hash => ({[hash]} ∪ s, v) | None => (s, f :: v) end) (suppressed, voided) fs.

(** The escalations of the applied faults, by their target. *)
Definition escalate_all (applied : list SimFault) (escalated : gmap (list byte) SimFault) : gmap (list byte) SimFault :=
  foldl (fun m f => match escalate f with
                    | None => m
                    | Some esc => match fault_target esc with
                                  | Some target => <[target := esc]> m
                                  | None => match fault_target f with Some orig => <[orig := esc]> m | None => m end
                                  end
                    end) escalated applied.
Definition escalated_descs (applied : list SimFault) : list (list byte) :=
  dedup (sort_by cmp_hash (omap (fun f => option_map (fun esc => bytes_of_string (injection_kind f ++ "->" ++ injection_kind esc)) (escalate f)) applied)).

(** The root that stands for a round whose replay drifted. *)
Definition synthetic_root (round : nat) : EntryHash := to_le_bytes 8 (Z.of_nat round) ++ repeat x00 24.

Section Feedback.
Variable blake3 : list byte -> list byte.
Variable keyed : EntryHash -> list byte -> list byte.
Variable derive : EntryHash -> list byte -> EntryHash.
Variable chacha_word : EntryHash -> nat -> Z.
Variable ln : spec_float -> spec_float.
Variable journaling base_unique : bool.
Variable iter : gmap Z Z -> list (Z * Z).
Variable fuel : nat.
Variables (w : Workload) (oracle : Oracle) (base : RunConfig).

Abbreviation sres A := (option (result SearchError A)).

(** [select_solver] and one [solve] of it. *)
Definition solve_fresh (cfg : SolverConfig) (j : JournalState) (v : Verdict) : sres (list FaultHypothesis) :=
  Some (map_err SearchSolver (HsSolver.solve blake3 (solver_with_config cfg) j v).1).

Definition schedule_of (hyps : list FaultHypothesis) (j : JournalState) : list SimFault :=
  match hyps with hyp :: _ => hypothesis_to_schedule blake3 hyp j | [] => [] end.

(** The hypotheses without a suppressed event, and the schedule rebuilt from the first. *)
Definition next_schedule (cfg : SolverConfig) (f : Finding) (suppressed : gset (list byte)) (voided : list SimFault) (escalated : gmap (list byte) SimFault) :
    sres (list SimFault) :=
  let! hyps := solve_fresh cfg (rr_journal (fd_run f)) (fd_verdict f) in
  let kept := List.filter (fun hyp => negb (existsb (fun e => bool_decide (e ∈ suppressed)) (events hyp))) hyps in
  Some (Ok (rebuild_schedule (schedule_of kept (rr_journal (fd_run f))) suppressed voided escalated)).

(** *** Phase 0 *)

(** The state of a search: roots, findings, variants, runs and the finding that ends it. *)
Record Phase0 : Type := mkPhase0 {
  p_roots : gset (list byte); p_findings : list Finding; p_variants : list Variant; p_runs : nat; p_finding : option Finding }.

Fixpoint phase0_loop (budget attempts : nat) (todo attempt : nat) (p : Phase0) : sres Phase0 :=
  match todo with
  | O => Some (Ok p)
  | S todo =>
      if (budget <=? p_runs p)%nat && (0 <? budget)%nat then Some (Ok p)
      else
        let config := attempt_config base attempt in
        let! run := omap_err SearchSimulation (run_new blake3 keyed ln journaling base_unique iter fuel config (programs w)) in
        let roots := {[root_hash blake3 (rr_journal run)]} ∪ p_roots p in
        let vs := p_variants p ++ [FeedbackSearch attempt] in
        let runs := S (p_runs p) in
        let verdict := judge oracle run in
        if violated verdict then
          let finding := mkFinding (cfg_seed config) run verdict in
          Some (Ok (mkPhase0 roots (p_findings p ++ [finding]) vs runs (Some finding)))
        else
          let p := mkPhase0 roots (p_findings p) vs runs None in
          if (attempts <=? runs)%nat then Some (Ok p) else phase0_loop budget attempts todo (S attempt) p
  end.

(** *** Phase 1 *)

(** One round: what is reported, whether the loop breaks, and the next state. *)
Record Round : Type := mkRound { r_root : EntryHash; r_finding : option Finding; r_variant : Variant; r_state : option Feedback }.

Definition feedback_round (cfg : SolverConfig) (f : Finding) (round : nat) (st : Feedback) : sres Round :=
  match replay_with_faults blake3 keyed ln journaling base_unique iter fuel w (rr_journal (fd_run f)) (fd_seed f) (rr_decisions (fd_run f)) (fb_schedule st) with
  | None => None
  | Some (Err (FrStrictReplay _)) =>
      let '(suppressed, voided) := suppress (fb_schedule st) (fb_suppressed st) (fb_voided st) in
      let! schedule := next_schedule cfg f suppressed voided (fb_escalated st) in
      Some (Ok (mkRound (synthetic_root round) None (StrictViolation round (length (fb_schedule st)) (size suppressed))
                  (Some (mkFeedback schedule suppressed voided (fb_escalated st)))))
  | Some (Err e) => Some (Err (SearchReplay e))
  | Some (Ok report) =>
      let '(suppressed, voided) := suppress (fr_voided report) (fb_suppressed st) (fb_voided st) in
      let verdict := oracle (run_result (fr_run report)) in
      let root := root_hash blake3 (rr_journal (fr_run report)) in
      let round_variant := FeedbackRound round (length (fr_applied report)) (length (fr_voided report))
                             (if violated verdict then [] else escalated_descs (fr_applied report)) (size suppressed) in
      if violated verdict then Some (Ok (mkRound root (Some (mkFinding (fd_seed f) (fr_run report) verdict)) round_variant None))
      else
        let escalated := escalate_all (fr_applied report) (fb_escalated st) in
        let! schedule := next_schedule cfg f suppressed voided escalated in
        Some (Ok (mkRound root None round_variant (Some (mkFeedback schedule suppressed voided escalated))))
  end.

Fixpoint feedback_loop (cfg : SolverConfig) (f : Finding) (remaining round : nat) (st : Feedback) : sres (list Round) :=
  match remaining with
  | O => Some (Ok [])
  | S remaining =>
      let! r := feedback_round cfg f round st in
      match r_state r with
      | None => Some (Ok [r])
      | Some st => let! rs := feedback_loop cfg f remaining (S round) st in Some (Ok (r :: rs))
      end
  end.

Definition feedback_config (hash : EntryHash) : SolverConfig := mkSolverConfig (Some 64%nat) None None None Auto (Some hash) None None.

Definition run_feedback_campaign (attempts : nat) : sres CampaignReport :=
  match attempts with
  | O => Some (Ok (mkCampaign 0 0 [] [] [] 0))
  | _ =>
      let budget := (attempts / 2)%nat in
      let! p := phase0_loop budget attempts (if (budget =? 0)%nat then 1 else budget)%nat 0 (mkPhase0 ∅ [] [] 0 None) in
      let ended := Some (Ok (mkCampaign (p_runs p) (size (p_roots p)) (p_findings p) (p_variants p) [] 0)) in
      match p_finding p with
      | None => ended
      | Some f =>
          let remaining := (attempts - p_runs p)%nat in
          match remaining with
          | O => ended
          | _ =>
              let! hash := Some (map_err SearchCanonical (canonical_hash blake3 journaling base)) in
              let cfg := feedback_config hash in
              let! _ := omap_err SearchSolver (encode_hazard (rr_journal (fd_run f)) (fd_verdict f) cfg) in
              let! hyps := solve_fresh cfg (rr_journal (fd_run f)) (fd_verdict f) in
              let schedule := dedup (sort_by cmp_fault (schedule_of hyps (rr_journal (fd_run f)))) in
              let! rounds := feedback_loop cfg f remaining 0 (mkFeedback schedule ∅ [] ∅) in
              Some (Ok (mkCampaign (p_runs p + length rounds) (size (list_to_set (map r_root rounds) ∪ p_roots p))
                          (p_findings p ++ omap r_finding rounds) (p_variants p ++ map r_variant rounds) [] 0))
          end
      end
  end.

(** *** Joint campaigns *)

Definition gen_id (generator : list byte) : Z := from_le_bytes (take 8 (blake3 generator)).
Definition joint_config (hash : EntryHash) : SolverConfig :=
  mkSolverConfig (Some 64%nat) None (Some (gen_id (bytes_of_string "joint"))) None Auto (Some hash) None None.

Fixpoint sample_many (count : nat) (r : Rng) : list Z :=
  match count with O => [] | S count => let '(v, r) := sample_range chacha_word r 0 INPUT_SAMPLE_RANGE in v :: sample_many count r end.

(** Two neighbouring decisions exchanged, near the witness. *)
Definition perturb (decisions : list nat) (witness_position : nat) : list nat :=
  if (2 <=? length decisions)%nat then
    let pivot := Nat.min witness_position (length decisions - 2) in
    match decisions !! pivot, decisions !! S pivot with
    | Some a, Some b => <[S pivot := a]> (<[pivot := b]> decisions)
    | _, _ => decisions
    end
  else decisions.

Definition witness_index (f : Finding) : nat :=
  match witnesses (fd_verdict f) with
  | [] => 0
  | x :: _ => match list_find (fun id => id = x) (map eid (entries (rr_journal (fd_run f)))) with Some (i, _) => i | None => 0 end
  end%nat.

Record Joint : Type := mkJoint { j_roots : gset (list byte); j_findings : list Finding; j_variants : list Variant; j_memo : CampaignMemo; j_hits : nat }.

Definition joint_run_config (seed : EntryHash) (schedule : list SimFault) (perturbed : list nat) : RunConfig :=
  let c := cfg_with_faults (cfg_with_policy (cfg_with_seed base seed) Replay) schedule in
  mkConfig (cfg_seed c) (cfg_policy c) (Z.min (Z.of_nat (length perturbed) + 256) u64_max) (cfg_dropped_events c) (cfg_swarm c) (cfg_links c) (cfg_dns c)
    (cfg_fault_schedule c) (cfg_fs_journaling c) (cfg_monitor c) (cfg_reorder_draw c) (cfg_max_file_extent c) (cfg_max_resident_bytes c).

Fixpoint joint_loop (schedule : list SimFault) (decisions : list nat) (witness_position search_runs : nat) (todo offset : nat) (st : Joint) : sres Joint :=
  match todo with
  | O => Some (Ok st)
  | S todo =>
      let attempt := (search_runs + offset)%nat in
      let seed := derive (cfg_seed base) (label "joint-input/" offset) in
      let inputs := sample_many INPUT_AXIS_SAMPLE (bridge_new derive (bytes_of_string "joint") seed) in
      let perturbed := perturb decisions witness_position in
      let config := joint_run_config seed schedule perturbed in
      let key := memo_key blake3 Replay (cfg_swarm config) schedule (Some (hash_inputs blake3 inputs)) (Some perturbed) (Some (cfg_seed config)) in
      match j_memo st !! key with
      | Some entry =>
          joint_loop schedule decisions witness_position search_runs todo (S offset)
            (mkJoint ({[me_journal_root entry]} ∪ j_roots st) (j_findings st) (j_variants st ++ [JointPerturbed attempt]) (j_memo st) (S (j_hits st)))
      | None =>
          let! run := omap_err SearchSimulation (run_replay blake3 keyed ln journaling base_unique iter fuel config (with_inputs w inputs) perturbed) in
          let root := root_hash blake3 (rr_journal run) in
          let distinct := negb (bool_decide (root ∈ j_roots st)) in
          let verdict := judge oracle run in
          joint_loop schedule decisions witness_position search_runs todo (S offset)
            (mkJoint ({[root]} ∪ j_roots st) (if violated verdict then j_findings st ++ [mkFinding seed run verdict] else j_findings st)
               (j_variants st ++ [JointPerturbed attempt]) (<[key := mkMemoEntry key root distinct]> (j_memo st)) (j_hits st))
      end
  end.

(** The cut of the finding's hazard as faults. *)
Definition joint_schedule (f : Finding) : sres (list SimFault) :=
  let! hash := Some (map_err SearchCanonical (canonical_hash blake3 journaling base)) in
  let cfg := joint_config hash in
  let! _ := omap_err SearchSolver (encode_hazard (rr_journal (fd_run f)) (fd_verdict f) cfg) in
  let! hyps := solve_fresh cfg (rr_journal (fd_run f)) (fd_verdict f) in
  Some (Ok (schedule_of hyps (rr_journal (fd_run f)))).

Definition run_joint_campaign (attempts : nat) : sres CampaignReport :=
  let! '(found, search_runs) := find_first_violation blake3 keyed ln journaling base_unique iter fuel w oracle base attempts in
  let roots := match found with Some f => {[root_hash blake3 (rr_journal (fd_run f))]} | None => ∅ end in
  let fs := match found with Some f => if violated (fd_verdict f) then [f] else [] | None => [] end in
  let vs := map JointSearch (seq 0 search_runs) in
  let! schedule := match found with Some f => joint_schedule f | None => Some (Ok []) end in
  let decisions := match found with Some f => rr_decisions (fd_run f) | None => [] end in
  let witness_position := match found with Some f => witness_index f | None => 0%nat end in
  let joint_runs := (attempts - search_runs)%nat in
  let! st := joint_loop schedule decisions witness_position search_runs joint_runs 0 (mkJoint roots fs vs ∅ 0) in
  Some (Ok (mkCampaign (search_runs + joint_runs) (size (j_roots st)) (j_findings st) (j_variants st) [] (j_hits st))).

(** ** Proofs *)

(** *** Attempts *)

Lemma find_loop_runs n : forall i f k, find_loop blake3 keyed ln journaling base_unique iter fuel w oracle base n i = Some (Ok (f, k)) -> (i <= k <= i + n)%nat.
Proof.
  induction n as [|n IH]; intros i f k H; cbn [find_loop] in H; [injection H as <- <-; lia|]. unfold omap_err in H.
  destruct (run_new _ _ _ _ _ _ _ _ _) as [[r|e]|]; cbn [option_map map_err obind] in H; [|done..].
  destruct (violated (judge oracle r)); [injection H as <- <-; lia|]. apply IH in H. lia.
Qed.

Lemma joint_loop_variants schedule decisions wp sr todo : forall offset st st',
  joint_loop schedule decisions wp sr todo offset st = Some (Ok st') -> j_variants st' = j_variants st ++ map (fun i => JointPerturbed (sr + i)) (seq offset todo).
Proof.
  induction todo as [|todo IH]; intros offset st st' H; cbn [joint_loop] in H; [injection H as <-; cbn; rewrite app_nil_r; done|].
  destruct (j_memo st !! _); [apply IH in H; rewrite H; cbn; rewrite <- app_assoc; done|].
  unfold omap_err in H. destruct (run_replay _ _ _ _ _ _ _ _ _ _) as [[r|e]|]; cbn [option_map map_err obind] in H; [|done..].
  apply IH in H. rewrite H. cbn. rewrite <- app_assoc. done.
Qed.

Lemma seq_offset k m : forall o, map (fun i => (k + i)%nat) (seq o m) = seq (k + o) m.
Proof. induction m as [|m IH]; intros o; [done|]. cbn [seq map]. rewrite IH. f_equal. f_equal. lia. Qed.

(** A joint campaign makes exactly its attempts: those of the search, numbered from zero, then the perturbed ones. *)
Theorem joint_attempts attempts rep : run_joint_campaign attempts = Some (Ok rep) ->
  runs_executed rep = attempts /\ length (variants rep) = attempts
  /\ exists k, (k <= attempts)%nat /\ variants rep = map JointSearch (seq 0 k) ++ map JointPerturbed (seq k (attempts - k)).
Proof.
  unfold run_joint_campaign. intros H. destruct (find_first_violation _ _ _ _ _ _ _ _ _ _ _) as [[[f k]|e]|] eqn:E; cbn [obind] in H; [|done..].
  apply find_loop_runs in E. destruct (match f with Some f => joint_schedule f | None => _ end) as [[s|e]|]; cbn [obind] in H; [|done..].
  destruct (joint_loop _ _ _ _ _ _ _) as [[st|e]|] eqn:El; cbn [obind] in H; [|done..]. injection H as <-. apply joint_loop_variants in El.
  cbn [runs_executed variants j_variants] in *.
  assert (Hm : map (fun i => JointPerturbed (k + i)) (seq 0 (attempts - k)) = map JointPerturbed (seq k (attempts - k))).
  { rewrite <- (map_map (fun i => (k + i)%nat) JointPerturbed), (seq_offset k), Nat.add_0_r. done. }
  rewrite El, Hm. split_and!; [lia | rewrite length_app, !length_map, !length_seq; lia | exists k; split; [lia | done]].
Qed.

(** *** Voided faults *)

Lemma suppress_spec fs : forall s v, let '(s', v') := suppress fs s v in
  (forall h, h ∈ s' <-> h ∈ s \/ exists f, In f fs /\ fault_target f = Some h) /\ (forall f, f ∈ v' <-> f ∈ v \/ (In f fs /\ fault_target f = None)).
Proof using Type.
  unfold suppress. induction fs as [|f fs IH]; intros s v; cbn [foldl]; [split; intros x; split; [auto | intros [?|(? & [] & _)]; done | auto | intros [?|[[] _]]; done]|].
  destruct (fault_target f) as [h|] eqn:Et.
  - specialize (IH ({[h]} ∪ s) v). destruct (foldl _ _ fs) as [s' v']. destruct IH as [IH1 IH2]. split.
    + intros h'. rewrite IH1, elem_of_union, elem_of_singleton. split.
      * intros [[->|?]|(g & ? & ?)]; [right; exists f; split; [left|]; done | left; done | right; exists g; split; [right|]; done].
      * intros [?|(g & [<-|?] & ?)]; [left; right; done | left; left; congruence | right; eauto].
    + intros g. rewrite IH2. split; [intros [?|[? ?]]; [left; done | right; split; [right|]; done] | intros [?|[[<-|?] ?]]; [left; done | congruence | right; done]].
  - specialize (IH s (f :: v)). destruct (foldl _ _ fs) as [s' v']. destruct IH as [IH1 IH2]. split.
    + intros h'. rewrite IH1. split; [intros [?|(g & ? & ?)]; [left; done | right; exists g; split; [right|]; done] | intros [?|(g & [<-|?] & ?)]; [left; done | congruence | right; eauto]].
    + intros g. rewrite IH2, elem_of_cons. split; [intros [[->|?]|[? ?]]; [right; split; [left|]; done | left; done | right; split; [right|]; done]
        | intros [?|[[<-|?] ?]]; [left; right; done | left; left; done | right; done]].
Qed.

Definition targets_ok (m : gmap (list byte) SimFault) : Prop := forall h f, m !! h = Some f -> fault_target f = Some h.

Lemma escalate_all_ok applied : forall m, targets_ok m -> targets_ok (escalate_all applied m).
Proof using Type.
  unfold escalate_all. induction applied as [|f fs IH]; intros m Hm; cbn [foldl]; [done|]. apply IH. destruct (escalate f) as [g|] eqn:Eg; [|done]. apply escalate_target in Eg.
  assert (Hins : forall h, fault_target g = Some h -> targets_ok (<[h := g]> m)).
  { intros h Hg h' f' H. destruct (decide (h = h')) as [<-|Hne].
    - pose proof (eq_trans (eq_sym (lookup_insert_eq m h g)) H) as E. injection E as <-. exact Hg.
    - apply Hm. exact (eq_trans (eq_sym (lookup_insert_ne m h h' g Hne)) H). }
  destruct (fault_target g) as [h|]; [apply Hins; done|]. rewrite <- Eg. done.
Qed.

(** Between the rounds: escalations stand under their targets, and the schedule is canonical and hits nothing that was voided. *)
Record feedback_ok (st : Feedback) : Prop := {
  fo_escalated : targets_ok (fb_escalated st);
  fo_canonical : oset cmp_fault (fb_schedule st);
  fo_targets : forall f h, In f (fb_schedule st) -> fault_target f = Some h -> h ∉ fb_suppressed st;
  fo_links : forall f, In f (fb_schedule st) -> fault_target f = None -> f ∉ fb_voided st }.

Lemma next_schedule_ok cfg f s v m sch : targets_ok m -> next_schedule cfg f s v m = Some (Ok sch) -> feedback_ok (mkFeedback sch s v m).
Proof using Type.
  intros Hm H. unfold next_schedule, solve_fresh in H. destruct (HsSolver.solve _ _ _ _) as [[hyps|e] s']; cbn [fst map_err obind] in H; [|done]. injection H as <-.
  set (b := schedule_of _ _). pose proof (rebuilt_schedule_exact m b s v Hm) as [Ho Hin]. split; cbn [fb_escalated fb_schedule fb_suppressed fb_voided]; [exact Hm | exact Ho | |].
  - intros g h Hg Ht. apply Hin in Hg. rewrite Ht in Hg. exact (proj1 Hg).
  - intros g Hg Ht. apply Hin in Hg. rewrite Ht in Hg. exact (proj2 Hg).
Qed.

(** The faults a round voids: all of its schedule when the replay drifted, else what the replay reports. *)
Definition round_voids (f : Finding) (st : Feedback) : list SimFault :=
  match replay_with_faults blake3 keyed ln journaling base_unique iter fuel w (rr_journal (fd_run f)) (fd_seed f) (rr_decisions (fd_run f)) (fb_schedule st) with
  | Some (Ok report) => fr_voided report
  | _ => fb_schedule st
  end.

Lemma round_step cfg f round st r st' : targets_ok (fb_escalated st) -> feedback_round cfg f round st = Some (Ok r) -> r_state r = Some st' ->
  feedback_ok st' /\ fb_suppressed st ⊆ fb_suppressed st'
  /\ forall g h, In g (round_voids f st) -> fault_target g = Some h -> h ∈ fb_suppressed st'.
Proof using Type.
  intros Hm H Hst. unfold feedback_round in H. unfold round_voids. destruct (replay_with_faults _ _ _ _ _ _ _ _ _ _ _ _) as [[report|e]|]; [| |done].
  - pose proof (suppress_spec (fr_voided report) (fb_suppressed st) (fb_voided st)) as Hs. destruct (suppress _ _ _) as [s v]. destruct Hs as [Hs _].
    destruct (violated _); [injection H as <-; done|]. destruct (next_schedule _ _ _ _ _) as [[sch|e]|] eqn:En; cbn [obind] in H; [|done..]. injection H as <-.
    cbn [r_state] in Hst. injection Hst as <-. apply next_schedule_ok in En; [|apply escalate_all_ok, Hm]. split_and!; [exact En | |].
    + intros h Hh. cbn. apply Hs. left. exact Hh.
    + intros g h Hg Ht. cbn. apply Hs. right. eauto.
  - destruct e as [v0|mm|e0]; [|done..]. pose proof (suppress_spec (fb_schedule st) (fb_suppressed st) (fb_voided st)) as Hs. destruct (suppress _ _ _) as [s v]. destruct Hs as [Hs _].
    destruct (next_schedule _ _ _ _ _) as [[sch|e]|] eqn:En; cbn [obind] in H; [|done..]. injection H as <-. cbn [r_state] in Hst. injection Hst as <-.
    apply next_schedule_ok in En; [|exact Hm]. split_and!; [exact En | |].
    + intros h Hh. cbn. apply Hs. left. exact Hh.
    + intros g h Hg Ht. cbn. apply Hs. right. eauto.
Qed.

(** The states between rounds. *)
Inductive rounds cfg f : Feedback -> Feedback -> Prop :=
| rounds_here st : rounds cfg f st st
| rounds_step st round r st1 st2 : feedback_round cfg f round st = Some (Ok r) -> r_state r = Some st1 -> rounds cfg f st1 st2 -> rounds cfg f st st2.

Lemma rounds_ok cfg f st st' : rounds cfg f st st' -> feedback_ok st -> feedback_ok st' /\ fb_suppressed st ⊆ fb_suppressed st'.
Proof using Type.
  induction 1 as [st|st round r st1 st2 Hr Hs _ IH]; intros Hok; [done|]. destruct (round_step _ _ _ _ _ _ (fo_escalated _ Hok) Hr Hs) as (H1 & H2 & _).
  destruct (IH H1) as [H3 H4]. split; [exact H3 | intros h Hh; apply H4, H2, Hh].
Qed.

(** C29: what a round of the feedback campaign voids is never tried again: from the start state on, no schedule of a later round has
    a fault at an event where an earlier round voided one. *)
Theorem voided_never_retried cfg f sch st round r st1 st2 : oset cmp_fault sch -> rounds cfg f (mkFeedback sch ∅ [] ∅) st ->
  feedback_round cfg f round st = Some (Ok r) -> r_state r = Some st1 -> rounds cfg f st1 st2 ->
  forall g h, In g (round_voids f st) -> fault_target g = Some h -> forall g', In g' (fb_schedule st2) -> fault_target g' <> Some h.
Proof using Type.
  intros Ho H0 Hr Hs H2 g h Hg Ht g' Hg' Ht'.
  assert (Hstart : feedback_ok (mkFeedback sch ∅ [] ∅)).
  { split; cbn; [intros k e He; discriminate (eq_trans (eq_sym (lookup_empty (M := gmap (list byte)) k)) He) | exact Ho | set_solver | set_solver]. }
  destruct (rounds_ok _ _ _ _ H0 Hstart) as [Hok _]. destruct (round_step _ _ _ _ _ _ (fo_escalated _ Hok) Hr Hs) as (Hok1 & _ & Hv).
  destruct (rounds_ok _ _ _ _ H2 Hok1) as [Hok2 Hsub]. apply (fo_targets _ Hok2 g' h Hg' Ht'). apply Hsub. eapply Hv; done.
Qed.

(** *** The attempts of a feedback campaign *)

Record phase0_ok (p : Phase0) : Prop := {
  po_runs : length (p_variants p) = p_runs p;
  po_roots : (size (p_roots p) <= p_runs p)%nat;
  po_violated : List.Forall (fun f => violated (fd_verdict f) = true) (p_findings p) }.

Lemma phase0_runs budget attempts todo : forall attempt p p', phase0_ok p ->
  phase0_loop budget attempts todo attempt p = Some (Ok p') -> phase0_ok p' /\ (p_runs p' <= p_runs p + todo)%nat.
Proof.
  induction todo as [|todo IH]; intros attempt p p' Hp H; cbn [phase0_loop] in H; [injection H as <-; split; [done | lia]|].
  destruct (_ && _); [injection H as <-; split; [done | lia]|]. unfold omap_err in H.
  destruct (run_new _ _ _ _ _ _ _ _ _) as [[r|e]|]; cbn [option_map map_err obind] in H; [|done..]. destruct Hp as [P1 P2 P3].
  assert (Hsize : (size ({[root_hash blake3 (rr_journal r)]} ∪ p_roots p) <= S (p_runs p))%nat) by (rewrite size_union_alt, size_singleton; pose proof (subseteq_size (p_roots p ∖ {[root_hash blake3 (rr_journal r)]}) (p_roots p) ltac:(set_solver)); lia).
  destruct (violated (judge oracle r)) eqn:Ev.
  - injection H as <-. split; [|cbn; lia]. split; cbn; [rewrite length_app; cbn; lia | exact Hsize | apply List.Forall_app; split; [done | constructor; [exact Ev | constructor]]].
  - set (p1 := mkPhase0 _ _ _ _ None) in H. assert (Hp1 : phase0_ok p1) by (split; cbn; [rewrite length_app; cbn; lia | exact Hsize | done]).
    destruct (attempts <=? S (p_runs p))%nat; [injection H as <-; split; [done | cbn; lia]|]. apply IH in H as [H1 H2]; [|exact Hp1]. split; [done|]. cbn in H2. lia.
Qed.

Lemma feedback_loop_runs cfg f n : forall round st rs, feedback_loop cfg f n round st = Some (Ok rs) ->
  (length rs <= n)%nat /\ List.Forall (fun g => violated (fd_verdict g) = true) (omap r_finding rs).
Proof.
  induction n as [|n IH]; intros round st rs H; cbn [feedback_loop] in H; [injection H as <-; split; [done | constructor]|].
  destruct (feedback_round cfg f round st) as [[r|e]|] eqn:Er; cbn [obind] in H; [|done..].
  assert (Hv : forall g, r_finding r = Some g -> violated (fd_verdict g) = true).
  { intros g Hg. unfold feedback_round in Er. destruct (replay_with_faults _ _ _ _ _ _ _ _ _ _ _ _) as [[report|[v0|mm|e0]]|]; [| |done..].
    - destruct (suppress _ _ _) as [s v]. destruct (violated _) eqn:Ev; [injection Er as <-; cbn in Hg; injection Hg as <-; exact Ev|].
      destruct (next_schedule _ _ _ _ _) as [[sch|]|]; cbn [obind] in Er; [|done..]. injection Er as <-. done.
    - destruct (suppress _ _ _) as [s v]. destruct (next_schedule _ _ _ _ _) as [[sch|]|]; cbn [obind] in Er; [|done..]. injection Er as <-. done. }
  assert (Hhead : forall rs', List.Forall (fun g => violated (fd_verdict g) = true) (omap r_finding rs') -> List.Forall (fun g => violated (fd_verdict g) = true) (omap r_finding (r :: rs'))).
  { intros rs' Hf. cbn. destruct (r_finding r) as [g|] eqn:Eg; [constructor; [apply Hv; done | exact Hf] | exact Hf]. }
  destruct (r_state r) as [st'|]; [|injection H as <-; split; [cbn; lia | apply Hhead; constructor]].
  destruct (feedback_loop cfg f n (S round) st') as [[rs'|e]|] eqn:El; cbn [obind] in H; [|done..]. injection H as <-. apply IH in El as [H1 H2]. split; [cbn; lia | apply Hhead, H2].
Qed.

Lemma size_roots (l : list (list byte)) : (size (list_to_set l : gset (list byte)) <= length l)%nat.
Proof.
  induction l as [|x l IH]; cbn [list_to_set length]; [rewrite size_empty; lia|]. rewrite size_union_alt, size_singleton.
  pose proof (subseteq_size ((list_to_set l : gset (list byte)) ∖ {[x]}) (list_to_set l) ltac:(set_solver)). lia.
Qed.

(** A feedback campaign counts every run once, makes at most its attempts, and reports only violations. *)
Theorem feedback_attempts attempts rep : run_feedback_campaign attempts = Some (Ok rep) ->
  (runs_executed rep <= attempts)%nat /\ length (variants rep) = runs_executed rep /\ (distinct_roots rep <= runs_executed rep)%nat
  /\ List.Forall (fun f => violated (fd_verdict f) = true) (findings rep).
Proof.
  intros H. destruct attempts as [|a]; [injection H as <-; cbn; split_and!; [lia.. | constructor]|]. unfold run_feedback_campaign in H. set (n := S a) in *.
  set (todo := if (n / 2 =? 0)%nat then _ else _) in H. assert (Ht : (todo <= n)%nat).
  { unfold todo, n. pose proof (Nat.div_le_upper_bound (S a) 2 (S a) ltac:(lia) ltac:(lia)). destruct (_ =? _)%nat; lia. }
  destruct (phase0_loop _ _ _ _ _) as [[p|e]|] eqn:Ep; cbn [obind] in H; [|done..].
  apply phase0_runs in Ep as [[P1 P2 P3] P4]; [|split; cbn; [done | rewrite size_empty; lia | constructor]]. cbn [p_runs] in P4.
  destruct (p_finding p) as [f|]; [|injection H as <-; cbn; split_and!; [lia.. | done]].
  destruct (n - p_runs p)%nat as [|rem] eqn:Er; [injection H as <-; cbn; split_and!; [lia.. | done]|].
  destruct (canonical_hash _ _ _) as [hash|e]; cbn [map_err obind] in H; [|done]. destruct (omap_err _ _) as [[enc|e]|]; cbn [obind] in H; [|done..].
  destruct (solve_fresh _ _ _) as [[hyps|e]|]; cbn [obind] in H; [|done..]. destruct (feedback_loop _ _ _ _ _) as [[rs|e]|] eqn:El; cbn [obind] in H; [|done..].
  injection H as <-. apply feedback_loop_runs in El as [L1 L2]. cbn [runs_executed variants distinct_roots findings]. split_and!.
  - lia.
  - rewrite length_app, length_map. lia.
  - rewrite size_union_alt. pose proof (subseteq_size (p_roots p ∖ list_to_set (map r_root rs)) (p_roots p) ltac:(set_solver)).
    set (k := size (list_to_set (map r_root rs))) in *. assert (Hk : (k <= length rs)%nat) by (rewrite <- (length_map r_root rs); exact (size_roots (map r_root rs))). lia.
  - apply List.Forall_app. done.
Qed.
End Feedback.

(** ** Samples *)

Abbreviation sample_round := (feedback_round tail_digest sample_keyed plain_ln false true map_to_list 400 (fixed late_sleeper) no_oracle (feedback_config (repeat x00 32))).
Definition sleeper_finding : option Finding :=
  match sample_campaign 40 late_sleeper with Some (Ok rep) => head (findings rep) | _ => None end.
Definition sleeper_send (f : Finding) : list EntryHash := sent_ids (fd_run f).
Definition start_at (sch : list SimFault) : Feedback := mkFeedback sch ∅ [] ∅.

(** Dropping the only message makes the replay drift: the fault is voided and the next schedule leaves the message alone. *)
Lemma voided_never_retried_witness : exists f id r st, sleeper_finding = Some f /\ sample_round f 0 (start_at [Drop id]) = Some (Ok r) /\ r_state r = Some st
  /\ forall g, In g (fb_schedule st) -> fault_target g <> Some id.
Proof.
  assert (Hc : match sleeper_finding with
    | Some f => match sleeper_send f with
        | [id] => match sample_round f 0 (start_at [Drop id]) with
            | Some (Ok r) => match r_state r with
                | Some st => existsb (fun g => bool_decide (g = Drop id))
                    (round_voids tail_digest sample_keyed plain_ln false true map_to_list 400 (fixed late_sleeper) f (start_at [Drop id])) = true
                | None => False end
            | _ => False end
        | _ => False end
    | None => False end) by (vm_compute; reflexivity).
  destruct sleeper_finding as [f|]; [|destruct Hc]. destruct (sleeper_send f) as [|id [|]]; [destruct Hc| |destruct Hc].
  destruct (sample_round f 0 (start_at [Drop id])) as [[r|]|] eqn:Er; [|destruct Hc..]. destruct (r_state r) as [st|] eqn:Es; [|destruct Hc].
  apply existsb_exists in Hc as (g & Hg & Hd). apply bool_decide_eq_true in Hd. subst g.
  exists f, id, r, st. split_and!; [reflexivity | exact Er | exact Es|].
  apply (voided_never_retried tail_digest sample_keyed plain_ln false true map_to_list 400 (fixed late_sleeper) no_oracle (feedback_config (repeat x00 32))
    f [Drop id] (start_at [Drop id]) 0 r st st) with (g := Drop id); [repeat constructor | apply rounds_here | exact Er | exact Es | apply rounds_here | exact Hg | reflexivity].
Defined.

Abbreviation sample_joint := (run_joint_campaign tail_digest sample_keyed sample_derive sample_word plain_ln false true map_to_list 400 (fixed late_sleeper) no_oracle (budget_config 40)).
Abbreviation sample_feedback := (run_feedback_campaign tail_digest sample_keyed plain_ln false true map_to_list 400 (fixed late_sleeper) no_oracle (budget_config 40)).

Lemma joint_attempts_witness : exists rep, sample_joint 3 = Some (Ok rep) /\ runs_executed rep = 3%nat.
Proof.
  assert (Hc : match sample_joint 3 with Some (Ok _) => True | _ => False end) by (vm_compute; exact I).
  destruct (sample_joint 3) as [[rep|]|] eqn:E; [|destruct Hc..]. exists rep. split; [reflexivity | exact (proj1 (joint_attempts _ _ _ _ _ _ _ _ _ _ _ _ _ _ E))].
Defined.

Lemma feedback_attempts_witness : exists rep, sample_feedback 4 = Some (Ok rep) /\ (runs_executed rep <= 4)%nat.
Proof.
  assert (Hc : match sample_feedback 4 with Some (Ok _) => True | _ => False end) by (vm_compute; exact I).
  destruct (sample_feedback 4) as [[rep|]|] eqn:E; [|destruct Hc..]. exists rep. split; [reflexivity | exact (proj1 (feedback_attempts _ _ _ _ _ _ _ _ _ _ _ _ E))].
Defined.
